(* ===== verification/_CoqProject ===== *)
-Q . S2P
Prelude.v
Isa.v
Goldilocks.v
Vm.v
VmFacts.v
VmTrace.v
Hashing.v
Merkle.v
CrossDomain.v
Bridge.v
BridgeFacts.v
Rlp.v
Mpt.v
Finality.v
FinalityFacts.v
EvmClient.v
Tokenomics.v
ProofMarket.v
ProofMarketFacts.v
Ledger.v
LedgerFacts.v
Gf256.v
Manifest.v
Qc.v
QcFacts.v
Pos.v
PosFacts.v
Pow.v
PowFacts.v
Poa.v
Erasure.v
ErasureFacts.v
ErasureObject.v
StorageDeal.v
StorageDealFacts.v
StorageExpiry.v
StorageChallenge.v
Domains.v
DomainsFacts.v
ForkChoice.v
VerifierRegistry.v
VerifierRegistryFacts.v
Bns.v
Pollen.v
PollenFacts.v
PollenPolicy.v
BudState.v
Relayer.v
RelayerFacts.v
Nft.v
BudlAst.v
BudlSema.v
BudlSemaFacts.v
BudlCodegen.v
BudlParser.v
BudlPrint.v
BudlParserFacts.v
BudlParserTotal.v
BudlSemantics.v
BudlStructured.v
BudlEquiv.v
BudlMachine.v
BudlCorrect.v
BudlSimulation.v
BudlRefines.v
