(* ===== verification/Prelude.v ===== *)
(** * Budlum: a verification development

    Budlum is a chain with proof-of-stake, proof-of-work and proof-of-authority
    domains, BLS finality, a cross-domain bridge, a fixed-supply token, storage
    deals over erasure-coded objects, and a zero-knowledge virtual machine
    (BudZero) with a compiler for the contract language BudL, whose execution
    traces are proved by a STARK.  This library is a shallow embedding of its
    core in Rocq, with the theorems that make each part correct.  Paths below
    are relative to the repository root, where [src/] is the node crate and
    [budzero/] the workspace of the virtual machine.

    ** How the parts interact

    The compiler turns the tokens of a contract into instruction words: the
    parser builds a tree, the analyser refuses ill-typed ones, the generator
    emits.  The virtual machine runs the words and hands the prover a trace and
    a receipt; accounts and notes live in the BudZero state, and who may verify
    is decided by the verifier registry.

    A consensus engine elects producers, judges blocks and compares chains.
    Validators vote on checkpoints; an aggregator turns a quorum into a
    certificate and conflicting votes into slashing evidence; post-quantum
    certificates can be challenged by fault proofs.  The ledger holds balances
    and stakes, slashes validators, burns the reserve on schedule and releases
    unbonded stake at each epoch close, under the parameters of the token
    economics; at the same point the proof market is swept.

    Domains register, commit to their blocks, and fork choice picks their head.
    The bridge moves assets between domains with messages whose identifiers are
    hashes, whose replay is refused by a store of processed identifiers, and
    whose events are committed to in Merkle trees; a foreign (EVM) deposit is
    accepted through headers, a receipts trie and RLP.  Relayers bid for user
    intents.  On top stand the storage deals, the name service, the data
    marketplace and the NFT registry.

    ** Files, in dependency order

    - Prelude.v: this description; machine integers at their width (checked,
      saturating and wrapping operations), the [result] type and its notations
      [let?] and [check?], slices, little- and big-endian bytes, sums over lists
      and finite maps, the tactics [inv_ok], [split_bool], [dlia] and the hint
      database [budlum].
    - Isa.v, Module [Isa]: budzero/bud-isa/src/lib.rs.  Opcodes, instruction
      words, [encode], the decoders and the mainnet activation gate.
    - Goldilocks.v, Module [Goldilocks]: the field helpers and the Poseidon
      permutation of budzero/bud-vm/src/lib.rs, with the primality of the
      modulus.
    - Vm.v, Module [Vm]: budzero/bud-vm/src/lib.rs.  The record [Vm] is the
      struct; [exec_*] is one definition per instruction arm, [step] the whole
      [Vm::step] (fetch, decode, gas, execution, trace row, expansion rows) and
      [run_receipt] the loop.  A Rust panic is a value of the step monad, so
      its absence is a theorem.  VmFacts.v has a weakest-precondition calculus
      and the facts about one step; VmTrace.v those about whole runs.
    - Hashing.v, Module [Hashing]: byte strings, and the class [FieldHash] for
      [hash_fields_bytes] (its module is not in the tree), with the class
      [CollisionFree] for what its callers rely on.
    - Merkle.v: src/settlement/commitment_tree.rs and the proofs of
      src/cross_domain/event_tree.rs.
    - CrossDomain.v: message.rs, message_registry.rs, nonce.rs and the events of
      event_tree.rs under src/cross_domain/.
    - Bridge.v, BridgeFacts.v: src/cross_domain/bridge.rs.  Each operation takes
      a [BridgeState] and returns the next one with its [result]; reachability
      from the empty bridge is by sequences of operations.
    - The EVM light client, src/cross_domain/evm.  Rlp.v: rlp.rs.  Mpt.v: the
      Merkle-Patricia walk of mpt.rs, with an abstract trie and its encoding as
      reference.  EvmClient.v: receipts, headers, the sync committee, the
      deposit verifier, the adapter and the outgoing claim.
    - Finality.v, FinalityFacts.v: src/chain/finality.rs and the key encoding of
      src/crypto/key_set_preimage.rs.  The pairing library is the class
      [BlsLib], its laws the class [BlsLaws].
    - Tokenomics.v: src/tokenomics/mod.rs, src/tokenomics/reward_pool.rs,
      src/chain/fee_market.rs and the slash penalty of
      src/core/chain_config.rs.
    - ProofMarket.v, ProofMarketFacts.v: src/settlement/proof_market.rs.
    - Ledger.v, LedgerFacts.v: the monetary part of src/core/account.rs.  The
      registry of roles (its module is not in the tree) is the class
      [RoleRegistry], its laws the class [RegistryLaws].
    - Storage.  Gf256.v, Erasure.v: the field and the Reed-Solomon coder of
      src/storage/erasure.rs; ErasureFacts.v has the linear algebra and
      ErasureObject.v the object level.  Manifest.v: src/storage/content_id.rs
      and manifest.rs.  StorageDeal.v: src/domain/storage_deal.rs with
      storage_params.rs, src/storage/mobile_self.rs and lifecycle.rs;
      StorageDealFacts.v breaks its methods into elementary steps,
      StorageExpiry.v and StorageChallenge.v use them.
    - Domains.v, DomainsFacts.v: the domain and commitment registries of
      src/domain, the global block header and the event verifiers of
      src/settlement.  ForkChoice.v: src/domain/fork_choice.rs.
    - Consensus, src/consensus.  Qc.v, QcFacts.v: quorum certificates and fault
      proofs.  Pos.v, PosFacts.v: the proof-of-stake engine; Pow.v, PowFacts.v:
      proof of work, difficulty, mining and chainwork; Poa.v: proof of
      authority.  Blocks, whose module is not in the tree, are the record
      [Block] with the class [BlockOps] for what the engines call and
      [BlockLaws] for what they rely on.
    - VerifierRegistry.v, VerifierRegistryFacts.v: budzero/verifier-registry.
      BudState.v: budzero/bud-state, accounts with their sparse Merkle tree,
      nested transactions with the saved file, and the note registry.
    - Bns.v: src/bns, the name service.  Pollen.v, PollenFacts.v,
      PollenPolicy.v: src/pollen, the data marketplace and its encryption
      policy.  Relayer.v, RelayerFacts.v: src/relayer/policy.rs.  Nft.v:
      src/socialfi.
    - The BudL compiler, budzero/bud-compiler/src.  BudlAst.v: ast.rs.
      BudlSema.v: sema.rs; BudlSemaFacts.v: the typing rules and their
      agreement with it.  BudlCodegen.v: codegen.rs, as a state monad over the
      generator's fields in which a panic is [None].  BudlParser.v: parser.rs,
      on tokens.  BudlPrint.v: a printer, the specification of the parser;
      BudlParserFacts.v and BudlParserTotal.v: their round trip and the
      termination of the parser.  BudlSemantics.v: what a BudL program means,
      an interpreter with fuel (a specification, not code of the repository).
      BudlStructured.v: a compositional compiler, the reference definition the
      generator is compared with; BudlEquiv.v: the comparison.  BudlMachine.v:
      the VM as generated code sees it; BudlCorrect.v and BudlSimulation.v: the
      simulation of expressions and statements; BudlRefines.v: the end-to-end
      theorem and a contract to evaluate.

    ** What the theorems show

    - Virtual machine: a step never panics and keeps the machine well formed; a
      failing step changes only the listed fields; gas is charged exactly and,
      below the largest limit, bounds every run; the trace of a run is one chain
      of program counters ending in a halt row; the Merkle rows carry the walk
      the opcode answered; storage is the replay of the write log; mainnet mode
      never executes a gated opcode; memory, instruction words and the field
      inverse round-trip.
    - Compiler: the parser ends on every token list and reads a contract back
      from its printed tokens; the analyser accepts exactly what the typing
      rules derive (which, like it, ask for no wildcard arm and do not look at
      the types of storage fields); the generator with its patched jumps emits what the
      compositional compiler emits, and the words compiled from tokens, run by
      the virtual machine, do what the source semantics prescribes, at every
      gas limit.  The source subset excludes user-defined calls and structs and
      the forms for which the generated code differs from the source (examples
      at the end of BudlRefines.v).
    - BudZero state and registry: account proofs verify exactly the state they
      were made from, rollback restores it, notes are spent once; the stake of
      the verifier registry is accounted for, a slash is final.
    - Finality: accepted certificates intersect in more than a third of the
      stake; an aggregator's counted votes are signed and its quorum flags
      exact; a quorum yields a certificate that verifies; conflicting votes are
      always detected and every report is genuine; set hashes and signing
      messages bind what they cover.
    - Consensus: a proof-of-stake producer's block is accepted, its double
      production within the window is caught, the seed of a slot depends on the
      epoch two before, a checkpoint is not abandoned (no block below it is
      accepted but a well-hashed one of index zero, which the engine lets
      pass); quorum certificates and fault proofs are accepted exactly when
      they should be; chainwork is the
      exact sum; proof of authority has one leader a slot.
    - Domains: registered domains stay well formed, accepted events are those
      committed whatever the shape of the proof, fork choice does not depend on
      the order of candidates with distinct hashes.
    - Bridge and messages: custody is consistent in every reachable state, a
      mint is bound to the lock and happens once, errors change nothing, the
      sweep is exact, a round trip restores every location, pruning keeps the
      finality window, identifiers bind messages.
    - Light client and commitments: Merkle and Merkle-Patricia proofs are
      complete and sound; an accepted deposit is a log of the chain; RLP
      decoding inverts encoding up to the depth limit and never shortens its
      input.
    - Proof market: whatever the sequence of operations, it pays at most the
      rewards of completed tasks and keeps its collections within their caps,
      also when held tasks and receipts are changed in place; completions are accepted exactly when they
      should be; the epoch sweep never drops live work; its root binds its
      content.
    - Economics: sequences of ledger operations account for every token: what
      leaves the supply is what they report as burned or slashed, and what the
      role registry cuts from the bonds of other roles in the same slash;
      unbonding conserves what is owed; the timed burn follows its schedule;
      locked funds cannot be spent; rewards, fees and vesting are exact and
      bounded.
    - Storage: any [k] shards of an encoded object give it back, also next to a
      corrupted one, and nothing else is ever returned for its manifest; the
      manifest identifier binds its content; the registry of deals, challenges
      and tickets is consistent in every reachable state, where every missed
      challenge has a ticket for its deal; the end of a term
      never strands an object; challenges are throttled, lie inside the shard
      and, unanswered, end in a slash and a ticket that takes a replacement
      while the manifest is there; coding audits are exact.
    - Applications: a name stays its owner's up to the end of the grace period;
      paid content is read only under a grant its owner consented to, within
      the limits sold; relayers are paid within the bid, the intent and the
      policy; an NFT changes hands only through its owner.

    ** Modelling choices

    A [w]-bit integer is a [Z] with its range stated and its overflow behaviour
    written out: the saturating, checked and wrapping operations are those the
    source calls; a narrowing cast and a plain operation that can overflow wrap,
    except in the BudZero crates, whose release profile turns overflow into a
    panic, which the step monad has.  HashMap and BTreeMap are [gmap] (the
    order of iteration is a parameter where a result could depend on it, as in
    [try_produce_cert]); Vec is a list.  Log lines, metrics and cache flags are
    not modelled.

    Fuel: [run_loop] of the machine takes fuel, and [run_receipt_terminates]
    shows that [gas_limit - gas_used + 1] iterations are enough because every
    instruction costs at least one unit; [decode_at] of RLP and the walk of a
    Merkle-Patricia proof recurse on the source's own depth limits; the Merkle
    levels take the number of leaves, which halves at each level; the layers of
    a quorum certificate take the number of entries; [pow_loop] takes the 64
    bits of its exponent; the timed burn recurses on the number of outstanding
    years; the interpreter of BudL takes fuel, results do not depend on it
    ([run_mono]) and the theorems quantify over it; the parser's loops take the
    tokens left and its recursion the nesting limit, never exhausted by
    [parser_total]; the slicing loop of a manifest takes the number of bytes;
    mining takes a number of attempts, and [mine_first] shows which are enough.

    Parameters: hashes (Sha-256, Sha-3, Keccak), pairings, Dilithium and VRF
    checks, blocks, the role registry, the external chains of the relayers,
    and for storage the proof codec and verifier ([StorageBackend]) are
    arguments, with the laws named in their classes; each group of theorems
    that assumes laws has a witness at a concrete instance that satisfies
    them.  [CollisionFree] is injectivity, the usual idealisation of a digest.

    ** Not modelled

    Transport, RPC, storage engines, signers and third-party cryptography, the
    STARK prover (its library is not in the tree), the chain store and actor
    (orchestration over a database and channels), the transaction executor
    (its transaction types are not in the tree), the lexer of BudL (generated
    by a macro), the media-format crate under bud/, the wallet, and the
    repository's own checks under xtask/.  Of the ledger, governance, role
    bonding and the staking entry points are left out, so that [close_epoch]
    is [advance_epoch] without its loop over the proposals; of src/domain, the
    adapters that turn foreign blocks into commitments; of src/storage, the
    database, the assignment of providers and the coding experiments beside
    the Reed-Solomon coder. *)

From Stdlib Require Import ZArith Lia.
From stdpp Require Import base tactics strings numbers gmap list.
Open Scope Z_scope.

(** ** Machine integers

    A [w]-bit unsigned integer is a [Z] in [0, 2^w); a signed one is a [Z] in
    [-2^(w-1), 2^(w-1)).  [usize] is 64 bits wide, as on every target the node
    is built for.  The bounds are literals so that [lia] reads them. *)

Declare Scope machine_scope.
Delimit Scope machine_scope with machine.

Abbreviation U8 := 256.
Abbreviation U16 := 65536.
Abbreviation U32 := 4294967296.
Abbreviation U64 := 18446744073709551616.
Abbreviation U128 := 340282366920938463463374607431768211456.
Abbreviation I32_HALF := 2147483648.

Notation "x '∈u' m" := (0 <= x < m) (at level 70, m at next level, no associativity) : machine_scope.
Open Scope machine_scope.

Definition is_i32 (x : Z) : Prop := - I32_HALF <= x < I32_HALF.

(** Rust's integer operations, with the modulus [m] of the type as argument.
    [checked_*] return [None] on overflow, [saturating_*] clamp, [wrapping_*]
    reduce modulo [m]. *)
Definition wrap (m x : Z) : Z := x mod m.
Definition checked_add (m a b : Z) : option Z :=
  if a + b <? m then Some (a + b) else None.
Definition checked_sub (a b : Z) : option Z :=
  if b <=? a then Some (a - b) else None.
Definition checked_mul (m a b : Z) : option Z :=
  if a * b <? m then Some (a * b) else None.
Definition saturating_add (m a b : Z) : Z := Z.min (a + b) (m - 1).
Definition saturating_sub (a b : Z) : Z := Z.max (a - b) 0.
Definition saturating_mul (m a b : Z) : Z := Z.min (a * b) (m - 1).
Definition wrapping_add (m a b : Z) : Z := (a + b) mod m.
Definition wrapping_sub (m a b : Z) : Z := (a - b) mod m.

(** Conversion of an [i32] to [u32] ([as u32]) and back ([as i32]). *)
Definition u32_of_i32 (x : Z) : Z := x mod U32.
Definition i32_of_u32 (x : Z) : Z := if x <? I32_HALF then x else x - U32.
(** [x as u64] for a signed [x]: sign extension to 64 bits. *)
Definition u64_of_signed (x : Z) : Z := x mod U64.
(** [x as i32] for a [u64]: the low 32 bits, read in two's complement. *)
Definition i32_of_u64 (x : Z) : Z := i32_of_u32 (x mod U32).

(** ** Fallible code

    Rust's [Result]; [let?] is the [?] operator. *)
Inductive result (A E : Type) : Type :=
| Ok (a : A)
| Err (e : E).
Arguments Ok {A E} _.
Arguments Err {A E} _.

Definition rbind {A B E} (m : result A E) (k : A -> result B E) : result B E :=
  match m with
  | Ok a => k a
  | Err e => Err e
  end.

(** [o.ok_or(e)] *)
Definition ok_or {A E} (o : option A) (e : E) : result A E :=
  match o with
  | Some a => Ok a
  | None => Err e
  end.

(** [r.map_err(f)] *)
Definition map_err {A E F} (f : E -> F) (r : result A E) : result A F :=
  match r with
  | Ok a => Ok a
  | Err e => Err (f e)
  end.

(** [if !c { return Err(e) }] *)
Definition ensure {E} (c : bool) (e : E) : result unit E :=
  if c then Ok tt else Err e.

Declare Scope result_scope.
Delimit Scope result_scope with result.
Notation "'let?' x := m 'in' k" := (rbind m (fun x => k))
  (at level 10, x pattern, m at level 200, k at level 200) : result_scope.
Notation "'check?' c 'else' e 'in' k" := (rbind (ensure c e) (fun _ => k))
  (at level 10, c at level 100, e at level 100, k at level 200) : result_scope.
Open Scope result_scope.

Definition is_ok {A E} (r : result A E) : bool :=
  match r with Ok _ => true | Err _ => false end.

(** ** Slices

    [slice l a b] is [&l[a..b]], which panics ([None]) when the range does not
    fit; [splice l a bs] overwrites the bytes from [a] on, as
    [l[a..a + bs.len()].copy_from_slice(bs)] does. *)
Definition zlen {A} (l : list A) : Z := Z.of_nat (length l).

Definition slice {A} (l : list A) (a b : Z) : option (list A) :=
  if (0 <=? a) && (a <=? b) && (b <=? zlen l)
  then Some (take (Z.to_nat (b - a)) (drop (Z.to_nat a) l))
  else None.

Definition splice {A} (l : list A) (a : Z) (bs : list A) : option (list A) :=
  if (0 <=? a) && (a + zlen bs <=? zlen l)
  then Some (take (Z.to_nat a) l ++ bs ++ drop (Z.to_nat a + length bs) l)
  else None.

(** [u64::from_le_bytes] and [u64::to_le_bytes], for any number of bytes. *)
Fixpoint le_decode (bs : list Z) : Z :=
  match bs with
  | [] => 0
  | b :: bs => b + 256 * le_decode bs
  end.

Fixpoint le_encode (n : nat) (x : Z) : list Z :=
  match n with
  | O => []
  | S n => x mod 256 :: le_encode n (x / 256)
  end.

(** [u64::from_be_bytes]-style big-endian reading, and the fixed-width writer. *)
Definition be_decode (bs : list Z) : Z :=
  fold_left (fun acc b => acc * 256 + b) bs 0.

Definition be_encode (n : nat) (x : Z) : list Z := rev (le_encode n x).

Definition byte (b : Z) : Prop := b ∈u U8.

(** ** Automation

    [inv_ok H] splits [H : (let? x := m in k) = Ok v] (and the guards written
    with [check?]) into the successful runs of its steps; [split_bool] turns
    conjunctions of boolean tests into separate hypotheses, which [lia]
    reads. *)
Create HintDb budlum discriminated.
#[export] Hint Constants Opaque : budlum.

Lemma rbind_Ok {A B E} (m : result A E) (k : A -> result B E) b :
  rbind m k = Ok b <-> exists a, m = Ok a /\ k a = Ok b.
Proof. destruct m; simpl; split; [eauto | naive_solver | done | naive_solver]. Qed.

Lemma ensure_Ok {E} c (e : E) u : ensure c e = Ok u <-> c = true.
Proof. destruct c, u; simpl; naive_solver. Qed.

Lemma ok_or_Ok {A E} (o : option A) (e : E) a : ok_or o e = Ok a <-> o = Some a.
Proof. destruct o; simpl; naive_solver. Qed.

Lemma map_err_Ok {A E F} (f : E -> F) (r : result A E) a :
  map_err f r = Ok a <-> r = Ok a.
Proof. destruct r; simpl; naive_solver. Qed.

Ltac split_bool :=
  repeat match goal with
  | H : _ && _ = true |- _ => apply andb_prop in H as [? ?]
  | H : _ || _ = false |- _ => apply orb_false_elim in H as [? ?]
  | H : negb _ = true |- _ => apply negb_true_iff in H
  | H : negb _ = false |- _ => apply negb_false_iff in H
  | H : bool_decide _ = true |- _ => apply bool_decide_eq_true_1 in H
  | H : bool_decide _ = false |- _ => apply bool_decide_eq_false_1 in H
  end.

Ltac inv_ok H :=
  let H' := fresh H in
  lazymatch type of H with
  | rbind (ensure _ _) _ = Ok _ =>
      apply rbind_Ok in H as (? & H' & H); apply ensure_Ok in H'; inv_ok H
  | rbind _ _ = Ok _ =>
      apply rbind_Ok in H as (? & H' & H);
      try apply ok_or_Ok in H'; try apply map_err_Ok in H'; inv_ok H
  | Ok _ = Ok _ => try (injection H as H; try subst)
  | _ => idtac
  end.

(** [lia] extended with the equations of [/] and [mod]. *)
Ltac dlia := Z.to_euclidean_division_equations; lia.

(** ** Shared facts on integers, bytes and slices *)

Lemma checked_add_Some m a b c : checked_add m a b = Some c <-> c = a + b /\ a + b < m.
Proof. unfold checked_add. destruct (Z.ltb_spec (a + b) m); naive_solver lia. Qed.

Lemma checked_sub_Some a b c : checked_sub a b = Some c <-> c = a - b /\ b <= a.
Proof. unfold checked_sub. destruct (Z.leb_spec b a); naive_solver lia. Qed.

Lemma checked_mul_Some m a b c : checked_mul m a b = Some c <-> c = a * b /\ a * b < m.
Proof. unfold checked_mul. destruct (Z.ltb_spec (a * b) m); naive_solver lia. Qed.

Lemma u64_of_signed_range x : u64_of_signed x ∈u U64.
Proof. unfold u64_of_signed. apply Z.mod_pos_bound; lia. Qed.

Lemma i32_of_u32_range x : x ∈u U32 -> is_i32 (i32_of_u32 x).
Proof. unfold i32_of_u32, is_i32. destruct (Z.ltb_spec x I32_HALF); lia. Qed.

Lemma i32_of_u64_range x : is_i32 (i32_of_u64 x).
Proof. apply i32_of_u32_range, Z.mod_pos_bound; lia. Qed.

Lemma i32_small v : v ∈u I32_HALF -> i32_of_u64 v = v.
Proof. intros. unfold i32_of_u64, i32_of_u32. rewrite Z.mod_small, (proj2 (Z.ltb_lt _ _)) by lia. done. Qed.

Lemma i32_u32_roundtrip x : is_i32 x -> i32_of_u32 (u32_of_i32 x) = x.
Proof.
  unfold is_i32, i32_of_u32, u32_of_i32; intros.
  destruct (Z.ltb_spec x 0).
  - rewrite <- (Z.mod_add x 1 U32), Z.mod_small by lia.
    destruct (Z.ltb_spec (x + 1 * U32) I32_HALF); lia.
  - rewrite Z.mod_small by lia. destruct (Z.ltb_spec x I32_HALF); lia.
Qed.

Lemma u32_i32_roundtrip x : x ∈u U32 -> u32_of_i32 (i32_of_u32 x) = x.
Proof.
  unfold i32_of_u32, u32_of_i32; intros. destruct (Z.ltb_spec x I32_HALF).
  - by rewrite Z.mod_small.
  - rewrite <- (Z.mod_add _ 1 U32), Z.mod_small by lia. lia.
Qed.

Lemma length_le_encode n x : length (le_encode n x) = n.
Proof. revert x; induction n; simpl; auto. Qed.

Lemma le_encode_bytes n x : Forall byte (le_encode n x).
Proof.
  revert x; induction n; simpl; constructor; auto.
  apply Z.mod_pos_bound; lia.
Qed.

Lemma le_decode_encode n x : le_decode (le_encode n x) = x mod 256 ^ Z.of_nat n.
Proof.
  revert x; induction n as [|n IH]; intros x; cbn [le_encode le_decode].
  - by rewrite Z.mod_1_r.
  - rewrite IH, Nat2Z.inj_succ, Z.pow_succ_r, Z.rem_mul_r by lia. lia.
Qed.

Lemma le_decode_bound bs : Forall byte bs -> 0 <= le_decode bs < 256 ^ zlen bs.
Proof.
  unfold zlen. induction 1 as [|b bs Hb _ IH]; cbn [le_decode length]; [lia|].
  rewrite Nat2Z.inj_succ, Z.pow_succ_r by lia. unfold byte in Hb. lia.
Qed.

Lemma le_encode_decode bs : Forall byte bs -> le_encode (length bs) (le_decode bs) = bs.
Proof.
  induction 1 as [|b bs Hb _ IH]; cbn [le_decode le_encode length]; [done|].
  unfold byte in Hb. rewrite (Z.mul_comm 256).
  rewrite Z.mod_add, Z.mod_small, Z.div_add, Z.div_small, Z.add_0_l by lia.
  by rewrite IH.
Qed.

Lemma zlen_app {A} (l k : list A) : zlen (l ++ k) = zlen l + zlen k.
Proof. unfold zlen. rewrite length_app. lia. Qed.

#[export] Instance zlen_perm {A} : Proper ((≡ₚ) ==> (=)) (@zlen A).
Proof. intros l k Hp. unfold zlen. by rewrite Hp. Qed.

Lemma zlen_cons {A} (x : A) (l : list A) : zlen (x :: l) = 1 + zlen l.
Proof. unfold zlen. cbn [length]. lia. Qed.

Lemma zlen_nonneg {A} (l : list A) : 0 <= zlen l.
Proof. unfold zlen; lia. Qed.

Lemma be_decode_app a b : be_decode (a ++ b) = be_decode a * 256 ^ zlen b + be_decode b.
Proof.
  induction b as [|x b IH] using rev_ind.
  - rewrite app_nil_r. unfold zlen. simpl. unfold be_decode at 3. simpl. lia.
  - rewrite (assoc_L (++)). unfold be_decode in *. rewrite !(fold_left_app _ _ [x]). simpl.
    rewrite IH, zlen_app. change (zlen [x]) with 1.
    rewrite Z.pow_add_r by (try apply zlen_nonneg; lia). lia.
Qed.

Lemma be_decode_bound bs : Forall byte bs -> 0 <= be_decode bs < 256 ^ zlen bs.
Proof.
  induction bs as [|b bs IH] using rev_ind; intros Hb; [done|].
  apply Forall_app in Hb as [Hb Hx]. rewrite Forall_singleton in Hx. specialize (IH Hb).
  unfold be_decode in *. rewrite fold_left_app. simpl. rewrite zlen_app. change (zlen [b]) with 1.
  rewrite Z.pow_add_r by (try apply zlen_nonneg; lia). unfold byte in Hx. lia.
Qed.

Lemma slice_Some {A} (l : list A) a b bs :
  slice l a b = Some bs <->
  0 <= a <= b /\ b <= zlen l /\ bs = take (Z.to_nat (b - a)) (drop (Z.to_nat a) l).
Proof.
  unfold slice.
  destruct (Z.leb_spec 0 a), (Z.leb_spec a b), (Z.leb_spec b (zlen l)); simpl;
    naive_solver lia.
Qed.

Lemma slice_is_Some {A} (l : list A) a b :
  0 <= a <= b -> b <= zlen l -> exists bs, slice l a b = Some bs.
Proof. intros. eexists. apply slice_Some; eauto. Qed.

Lemma slice_length {A} (l : list A) a b bs :
  slice l a b = Some bs -> zlen bs = b - a.
Proof.
  intros (Hab & Hb & ->)%slice_Some. unfold zlen in *.
  rewrite length_take, length_drop. lia.
Qed.

Lemma slice_Forall {A} (P : A -> Prop) l a b bs :
  slice l a b = Some bs -> Forall P l -> Forall P bs.
Proof. intros (_ & _ & ->)%slice_Some ?. by apply Forall_take, Forall_drop. Qed.

Lemma splice_Some {A} (l : list A) a bs l' :
  splice l a bs = Some l' <->
  0 <= a /\ a + zlen bs <= zlen l /\
  l' = take (Z.to_nat a) l ++ bs ++ drop (Z.to_nat a + length bs) l.
Proof.
  unfold splice.
  destruct (Z.leb_spec 0 a), (Z.leb_spec (a + zlen bs) (zlen l)); simpl; naive_solver lia.
Qed.

Lemma splice_is_Some {A} (l : list A) a bs :
  0 <= a -> a + zlen bs <= zlen l -> exists l', splice l a bs = Some l'.
Proof. intros. eexists. apply splice_Some; eauto. Qed.

Lemma zlen_le_encode n x : zlen (le_encode n x) = Z.of_nat n.
Proof. unfold zlen. by rewrite length_le_encode. Qed.

Lemma splice_length {A} (l : list A) a bs l' :
  splice l a bs = Some l' -> length l' = length l.
Proof.
  intros (? & Hle & ->)%splice_Some. unfold zlen in *.
  rewrite !length_app, length_take, length_drop. lia.
Qed.

Lemma splice_Forall {A} (P : A -> Prop) l a bs l' :
  splice l a bs = Some l' -> Forall P l -> Forall P bs -> Forall P l'.
Proof.
  intros (_ & _ & ->)%splice_Some ??.
  apply Forall_app; split; [by apply Forall_take|].
  apply Forall_app; split; [done|by apply Forall_drop].
Qed.

(** Reading back a written range gives the bytes written. *)
Lemma slice_splice_same {A} (l : list A) a bs l' :
  splice l a bs = Some l' -> slice l' a (a + zlen bs) = Some bs.
Proof.
  intros Hs. pose proof (splice_length _ _ _ _ Hs) as Hlen.
  apply splice_Some in Hs as (? & Hle & ->). apply slice_Some.
  unfold zlen in *. rewrite Hlen. split_and!; [lia|lia|lia|].
  rewrite drop_app_length' by (rewrite length_take; lia).
  rewrite take_app_length' by lia. done.
Qed.

(** A range disjoint from the written one reads as before. *)
Lemma slice_splice_disjoint {A} (l : list A) a bs l' c d :
  splice l a bs = Some l' -> d <= a \/ a + zlen bs <= c -> slice l' c d = slice l c d.
Proof.
  intros Hs Hdisj. pose proof (splice_length _ _ _ _ Hs) as Hlen.
  apply splice_Some in Hs as (? & Hle & ->).
  unfold slice, zlen in *. rewrite Hlen.
  destruct (Z.leb_spec 0 c), (Z.leb_spec c d), (Z.leb_spec d (Z.of_nat (length l)));
    simpl; try done. f_equal.
  apply list_eq; intros i.
  destruct (decide (i < Z.to_nat (d - c))%nat) as [Hi|Hi].
  2:{ rewrite !lookup_take_ge by lia. done. }
  rewrite !lookup_take_lt, !lookup_drop by lia.
  destruct Hdisj.
  - rewrite lookup_app_l by (rewrite length_take; lia). rewrite lookup_take_lt by lia. done.
  - rewrite lookup_app_r by (rewrite length_take; lia). rewrite length_take.
    rewrite lookup_app_r by lia. rewrite lookup_drop. f_equal. lia.
Qed.

(** A finite map is the disjoint union of the entries that satisfy a predicate
    and of those that do not. *)
Lemma map_to_list_split `{Countable K} {A} (P : K * A -> Prop) `{!forall x, Decision (P x)}
    (m : gmap K A) :
  map_to_list (filter P m) ++ map_to_list (filter (fun e => ~ P e) m) ≡ₚ map_to_list m.
Proof.
  apply NoDup_Permutation; [|apply NoDup_map_to_list|].
  - apply NoDup_app; split_and!; [apply NoDup_map_to_list| |apply NoDup_map_to_list].
    intros [k x]. rewrite !elem_of_map_to_list, !map_lookup_filter_Some. naive_solver.
  - intros [k x]. rewrite elem_of_app, !elem_of_map_to_list, !map_lookup_filter_Some.
    destruct (decide (P (k, x))); naive_solver.
Qed.

(** ** Sums over finite maps *)
Definition msum `{Countable K} {V} (f : V -> Z) (m : gmap K V) : Z :=
  map_fold (fun _ v acc => f v + acc) 0 m.

Section msum.
Context `{Countable K} {V : Type} (f : V -> Z).
Implicit Types m : gmap K V.

Lemma msum_empty : msum f (∅ : gmap K V) = 0.
Proof. apply map_fold_empty. Qed.

Lemma msum_insert_new m k v : m !! k = None -> msum f (<[k := v]> m) = f v + msum f m.
Proof. intros Hk. unfold msum. rewrite map_fold_insert_L; [done|intros; lia|done]. Qed.

Lemma msum_delete m k v : m !! k = Some v -> msum f m = f v + msum f (delete k m).
Proof.
  intros Hk. rewrite <- (msum_insert_new (delete k m) k v) by apply lookup_delete_eq.
  by rewrite insert_delete_id.
Qed.

Lemma msum_insert m k v :
  msum f (<[k := v]> m) = msum f m - default 0 (f <$> m !! k) + f v.
Proof.
  destruct (m !! k) as [w|] eqn:E; simpl.
  - rewrite <- insert_delete_eq, msum_insert_new by apply lookup_delete_eq.
    rewrite (msum_delete m k w E). lia.
  - rewrite msum_insert_new by done. lia.
Qed.

Lemma msum_nonneg m : map_Forall (fun _ v => 0 <= f v) m -> 0 <= msum f m.
Proof.
  induction m as [|k v m Hk IH] using map_ind; [by rewrite msum_empty|].
  intros [Hv Hm]%map_Forall_insert; [|done]. rewrite msum_insert_new by done. specialize (IH Hm). lia.
Qed.

Lemma msum_elem_le m k v : map_Forall (fun _ w => 0 <= f w) m -> m !! k = Some v -> f v <= msum f m.
Proof.
  intros Hm Hk. rewrite (msum_delete m k v Hk).
  pose proof (msum_nonneg (delete k m) (map_Forall_delete _ _ _ Hm)). lia.
Qed.

Lemma msum_fmap_le (g : V -> V) m : (forall v, f (g v) <= f v) -> msum f (g <$> m) <= msum f m.
Proof.
  intros Hg. induction m as [|k v m Hk IH] using map_ind; [by rewrite fmap_empty|].
  rewrite fmap_insert, !msum_insert_new by (rewrite ?lookup_fmap, ?Hk; done). pose proof (Hg v). lia.
Qed.

Lemma msum_fmap_same (g : V -> V) m : (forall v, f (g v) = f v) -> msum f (g <$> m) = msum f m.
Proof.
  intros Hg. induction m as [|k v m Hk IH] using map_ind; [by rewrite fmap_empty|].
  rewrite fmap_insert, !msum_insert_new by (by rewrite ?lookup_fmap, Hk). by rewrite IH, Hg.
Qed.
End msum.

(** Two lists of fields are equal field by field; [split_fields E] does so
    without looking inside the fields. *)
Lemma cons_split {A} (x y : A) l k : x :: l = y :: k -> x = y /\ l = k.
Proof. intros E. by simplify_eq. Qed.

Ltac split_fields E :=
  repeat match type of E with
  | _ :: _ = _ :: _ => let F := fresh "F" in apply cons_split in E as [F E]
  end.

(** ** Sums over a list *)
Section lsum.
Context {A : Type} (f : A -> Z).

Definition lsum (l : list A) : Z := foldr (fun x s => f x + s) 0 l.

Lemma lsum_app l k : lsum (l ++ k) = lsum l + lsum k.
Proof. induction l as [|x l IH]; simpl; [done|]. rewrite IH. lia. Qed.

Lemma lsum_nonneg l : Forall (fun x => 0 <= f x) l -> 0 <= lsum l.
Proof. induction 1; simpl; lia. Qed.

Lemma fold_left_lsum l acc : fold_left (fun a x => a + f x) l acc = acc + lsum l.
Proof. revert acc. induction l as [|x l IH]; intros acc; simpl; [lia|]. rewrite IH. lia. Qed.
End lsum.

#[export] Hint Resolve u64_of_signed_range i32_of_u64_range zlen_nonneg : budlum.
