(* ===== verification/Isa.v ===== *)
(** * BudZero instruction set (budzero/bud-isa/src/lib.rs)

    The opcode enumeration, the 64-bit instruction word with its encoder and
    decoder, and the activation gate that keeps staged opcodes off mainnet.
    The constructors carry the prefix [Op] because several opcode names
    ([Eq], [Lt], [And], ...) belong to the standard library.

    Theorems: [encode] and [decode_any] are inverse to each other on
    well-formed instructions and on canonical words; the mainnet decoder is
    exactly the plain decoder restricted to the activated opcodes. *)

From Stdlib Require Import ZArith Lia.
From stdpp Require Import base tactics list strings numbers.
From S2P Require Import Prelude.
Open Scope Z_scope.

Module Isa.

Inductive Opcode : Type :=
| OpHalt
| OpAdd
| OpSub
| OpMul
| OpDiv
| OpInv
| OpAnd
| OpNot
| OpEq
| OpNeq
| OpLt
| OpGt
| OpLte
| OpGte
| OpJmp
| OpJnz
| OpCall
| OpRet
| OpLoad
| OpStore
| OpPush
| OpPop
| OpAssert
| OpPoseidon
| OpLog
| OpSRead
| OpSWrite
| OpSyscall
| OpVerifyMerkle
| OpVerifyInference
| OpPrivacyCommit
| OpNullifierCheck
| OpSumConservation.

#[export] Instance Opcode_eq_dec : EqDecision Opcode.
Proof. solve_decision. Defined.

(** [self.opcode as u64]: the discriminants of the enumeration. *)
Definition opcode_as_u8 (op : Opcode) : Z :=
  match op with
  | OpHalt => 0x00
  | OpAdd => 0x01
  | OpSub => 0x02
  | OpMul => 0x03
  | OpDiv => 0x04
  | OpInv => 0x05
  | OpAnd => 0x06
  | OpNot => 0x09
  | OpEq => 0x0A
  | OpNeq => 0x0B
  | OpLt => 0x0C
  | OpGt => 0x0D
  | OpLte => 0x0E
  | OpGte => 0x0F
  | OpJmp => 0x10
  | OpJnz => 0x11
  | OpCall => 0x12
  | OpRet => 0x13
  | OpLoad => 0x14
  | OpStore => 0x15
  | OpPush => 0x16
  | OpPop => 0x17
  | OpAssert => 0x18
  | OpPoseidon => 0x19
  | OpLog => 0x1A
  | OpSRead => 0x1B
  | OpSWrite => 0x1C
  | OpSyscall => 0x1D
  | OpVerifyMerkle => 0x1E
  | OpVerifyInference => 0x1F
  | OpPrivacyCommit => 0x20
  | OpNullifierCheck => 0x21
  | OpSumConservation => 0x22
  end.

(** The [match] of [decode_any]. *)
Definition opcode_of_u8 (b : Z) : option Opcode :=
  match b with
  | 0x00 => Some OpHalt
  | 0x01 => Some OpAdd
  | 0x02 => Some OpSub
  | 0x03 => Some OpMul
  | 0x04 => Some OpDiv
  | 0x05 => Some OpInv
  | 0x06 => Some OpAnd
  | 0x09 => Some OpNot
  | 0x0A => Some OpEq
  | 0x0B => Some OpNeq
  | 0x0C => Some OpLt
  | 0x0D => Some OpGt
  | 0x0E => Some OpLte
  | 0x0F => Some OpGte
  | 0x10 => Some OpJmp
  | 0x11 => Some OpJnz
  | 0x12 => Some OpCall
  | 0x13 => Some OpRet
  | 0x14 => Some OpLoad
  | 0x15 => Some OpStore
  | 0x16 => Some OpPush
  | 0x17 => Some OpPop
  | 0x18 => Some OpAssert
  | 0x19 => Some OpPoseidon
  | 0x1A => Some OpLog
  | 0x1B => Some OpSRead
  | 0x1C => Some OpSWrite
  | 0x1D => Some OpSyscall
  | 0x1E => Some OpVerifyMerkle
  | 0x1F => Some OpVerifyInference
  | 0x20 => Some OpPrivacyCommit
  | 0x21 => Some OpNullifierCheck
  | 0x22 => Some OpSumConservation
  | _ => None
  end.

Definition is_experimental (op : Opcode) : bool := false.

Definition requires_mainnet_activation (op : Opcode) : bool :=
  match op with
  | OpVerifyMerkle | OpVerifyInference | OpPrivacyCommit
  | OpNullifierCheck | OpSumConservation => true
  | _ => false
  end.

Inductive IsaProfile : Type := Production | Experimental | Testing.

#[export] Instance IsaProfile_eq_dec : EqDecision IsaProfile.
Proof. solve_decision. Defined.

Record MainnetActivation : Type := mkActivation {
  verify_merkle_enabled : bool;
  verify_inference_enabled : bool;
  privacy_commit_enabled : bool;
  nullifier_check_enabled : bool;
  sum_conservation_enabled : bool;
}.

(** [MainnetActivation::default()] *)
Definition activation_default : MainnetActivation :=
  {| verify_merkle_enabled := false;
     verify_inference_enabled := false;
     privacy_commit_enabled := true;
     nullifier_check_enabled := true;
     sum_conservation_enabled := true |}.

(** [MainnetActivation::full()] *)
Definition activation_full : MainnetActivation :=
  {| verify_merkle_enabled := true;
     verify_inference_enabled := true;
     privacy_commit_enabled := true;
     nullifier_check_enabled := true;
     sum_conservation_enabled := true |}.

Definition allows (a : MainnetActivation) (op : Opcode) : bool :=
  if requires_mainnet_activation op then
    match op with
    | OpVerifyMerkle => verify_merkle_enabled a
    | OpVerifyInference => verify_inference_enabled a
    | OpPrivacyCommit => privacy_commit_enabled a
    | OpNullifierCheck => nullifier_check_enabled a
    | OpSumConservation => sum_conservation_enabled a
    | _ => false
    end
  else true.

Inductive DecodeError : Type :=
| InvalidOpcode (op : Z)
| ExperimentalOpcodeDisabled (op : Opcode) (p : IsaProfile)
| MainnetActivationRequired (op : Opcode).

(** [{:?}] of an opcode and of a profile (derived [Debug]). *)
Definition opcode_debug (op : Opcode) : string :=
  match op with
  | OpHalt => "Halt"
  | OpAdd => "Add"
  | OpSub => "Sub"
  | OpMul => "Mul"
  | OpDiv => "Div"
  | OpInv => "Inv"
  | OpAnd => "And"
  | OpNot => "Not"
  | OpEq => "Eq"
  | OpNeq => "Neq"
  | OpLt => "Lt"
  | OpGt => "Gt"
  | OpLte => "Lte"
  | OpGte => "Gte"
  | OpJmp => "Jmp"
  | OpJnz => "Jnz"
  | OpCall => "Call"
  | OpRet => "Ret"
  | OpLoad => "Load"
  | OpStore => "Store"
  | OpPush => "Push"
  | OpPop => "Pop"
  | OpAssert => "Assert"
  | OpPoseidon => "Poseidon"
  | OpLog => "Log"
  | OpSRead => "SRead"
  | OpSWrite => "SWrite"
  | OpSyscall => "Syscall"
  | OpVerifyMerkle => "VerifyMerkle"
  | OpVerifyInference => "VerifyInference"
  | OpPrivacyCommit => "PrivacyCommit"
  | OpNullifierCheck => "NullifierCheck"
  | OpSumConservation => "SumConservation"
  end.

Definition profile_debug (p : IsaProfile) : string :=
  match p with
  | Production => "Production"
  | Experimental => "Experimental"
  | Testing => "Testing"
  end.

(** [{:02X}] of a byte. *)
Definition hex_digit (d : Z) : string :=
  String (Ascii.ascii_of_nat (Z.to_nat (if d <? 10 then 48 + d else 55 + d))) "".
Definition hex_byte (b : Z) : string := hex_digit (b / 16) +:+ hex_digit (b mod 16).

(** [impl Display for DecodeError] *)
Definition decode_error_fmt (e : DecodeError) : string :=
  match e with
  | InvalidOpcode op => "Unknown opcode 0x" +:+ hex_byte op
  | ExperimentalOpcodeDisabled op p =>
      "Opcode " +:+ opcode_debug op +:+ " disabled in " +:+ profile_debug p
  | MainnetActivationRequired op =>
      "Opcode " +:+ opcode_debug op +:+ " requires mainnet activation"
  end.

Record Instruction : Type := mkInstruction {
  opcode : Opcode;
  rd : Z;
  rs1 : Z;
  rs2 : Z;
  imm : Z;
}.

Definition encode (i : Instruction) : Z :=
  let res := opcode_as_u8 (opcode i) in
  let res := Z.lor res (Z.shiftl (rd i) 8) in
  let res := Z.lor res (Z.shiftl (rs1 i) 13) in
  let res := Z.lor res (Z.shiftl (rs2 i) 18) in
  Z.lor res (Z.shiftl (u32_of_i32 (imm i)) 23).

Definition decode_any (val : Z) : result Instruction DecodeError :=
  let op_u8 := Z.land val 0xFF in
  let? op := ok_or (opcode_of_u8 op_u8) (InvalidOpcode op_u8) in
  Ok {| opcode := op;
        rd := Z.land (Z.shiftr val 8) 0x1F;
        rs1 := Z.land (Z.shiftr val 13) 0x1F;
        rs2 := Z.land (Z.shiftr val 18) 0x1F;
        imm := i32_of_u32 (Z.land (Z.shiftr val 23) 0xFFFFFFFF) |}.

Definition decode_for_profile (val : Z) (profile : IsaProfile)
    : result Instruction DecodeError :=
  let? inst := decode_any val in
  if is_experimental (opcode inst) && bool_decide (profile = Production)
  then Err (ExperimentalOpcodeDisabled (opcode inst) profile)
  else Ok inst.

Definition decode_for_mainnet (val : Z) (activation : MainnetActivation)
    : result Instruction DecodeError :=
  let? inst := decode_for_profile val Production in
  if negb (allows activation (opcode inst))
  then Err (MainnetActivationRequired (opcode inst))
  else Ok inst.

(** [Instruction::decode]; [experimental] is the cargo feature of that name
    (off by default), and the build is not a test build. *)
Definition decode (experimental : bool) (val : Z) : result Instruction string :=
  let profile := if experimental then Experimental else Production in
  map_err decode_error_fmt (decode_for_profile val profile).

(** An instruction whose fields fit the word: what the assembler produces and
    what the decoder returns. *)
Definition instruction_wf (i : Instruction) : Prop :=
  rd i ∈u 32 /\ rs1 i ∈u 32 /\ rs2 i ∈u 32 /\ is_i32 (imm i).

(** ** Facts *)

Lemma opcode_of_as_u8 op : opcode_of_u8 (opcode_as_u8 op) = Some op.
Proof. by destruct op. Qed.

Lemma opcode_as_of_u8 b op : opcode_of_u8 b = Some op -> opcode_as_u8 op = b.
Proof. unfold opcode_of_u8. intros; repeat case_match; simplify_eq; done. Qed.

Lemma opcode_as_u8_range op : opcode_as_u8 op ∈u U8.
Proof. destruct op; simpl; lia. Qed.

(** Fields that do not overlap: [|] is [+]. *)
Lemma lor_shiftl_add a b k :
  0 <= k -> 0 <= a < 2 ^ k -> Z.lor a (Z.shiftl b k) = a + b * 2 ^ k.
Proof.
  intros Hk Ha. rewrite <- Z.shiftl_mul_pow2 by lia.
  assert (Hdisj : Z.land a (Z.shiftl b k) = 0).
  { apply Z.bits_inj'; intros n Hn. rewrite Z.land_spec, Z.bits_0.
    destruct (Z.lt_ge_cases n k).
    - by rewrite Z.shiftl_spec_low, andb_false_r by lia.
    - rewrite <- (Z.mod_small a (2 ^ k)), Z.mod_pow2_bits_high by lia. done. }
  rewrite <- Z.lxor_lor by done. symmetry. by apply Z.add_nocarry_lxor.
Qed.

Lemma field_extract w lo f n hi m :
  w = lo + m * (f + n * hi) -> 0 < m -> 0 < n -> 0 <= lo < m -> 0 <= f < n ->
  w / m mod n = f.
Proof.
  intros -> ????. rewrite (Z.mul_comm m), Z.div_add, Z.div_small, Z.add_0_l by lia.
  by rewrite (Z.mul_comm n), Z.mod_add, Z.mod_small by lia.
Qed.

Lemma land_shiftr_field v k w :
  0 <= k -> 0 <= w -> Z.land (Z.shiftr v k) (Z.ones w) = v / 2 ^ k mod 2 ^ w.
Proof. intros. by rewrite Z.land_ones, Z.shiftr_div_pow2 by lia. Qed.

Lemma decode_any_fields v :
  decode_any v =
  (let? op := ok_or (opcode_of_u8 (v / 1 mod 256)) (InvalidOpcode (v / 1 mod 256)) in
   Ok (mkInstruction op (v / 256 mod 32) (v / 8192 mod 32) (v / 262144 mod 32)
         (i32_of_u32 (v / 8388608 mod U32)))).
Proof.
  unfold decode_any.
  change 0xFF with (Z.ones 8). change 0x1F with (Z.ones 5).
  change 0xFFFFFFFF with (Z.ones 32).
  rewrite !land_shiftr_field, Z.land_ones, Z.div_1_r by lia. reflexivity.
Qed.

Lemma encode_sum i :
  instruction_wf i ->
  encode i = opcode_as_u8 (opcode i) + rd i * 256 + rs1 i * 8192
             + rs2 i * 262144 + u32_of_i32 (imm i) * 8388608.
Proof.
  intros (? & ? & ? & ?). unfold encode.
  pose proof (opcode_as_u8_range (opcode i)).
  assert (u32_of_i32 (imm i) ∈u U32) by (apply Z.mod_pos_bound; lia).
  rewrite (lor_shiftl_add (opcode_as_u8 _)), (lor_shiftl_add (_ + rd i * _)),
    (lor_shiftl_add (_ + rs1 i * _)), (lor_shiftl_add (_ + rs2 i * _)) by lia.
  lia.
Qed.

(** Every word the decoder accepts has register indices below 32 and a 32-bit
    immediate. *)
Lemma decode_any_wf v i : decode_any v = Ok i -> instruction_wf i.
Proof.
  rewrite decode_any_fields. intros H. inv_ok H.
  repeat split; simpl; try apply i32_of_u32_range; apply Z.mod_pos_bound; lia.
Qed.

(** Decoding an encoded instruction gives the instruction back, for every
    opcode and every in-range operand. *)
Theorem decode_encode (i : Instruction) (Hi : instruction_wf i) :
  decode_any (encode i) = Ok i.
Proof.
  rewrite decode_any_fields, encode_sum by done.
  destruct Hi as (? & ? & ? & Himm). destruct i as [op a b c d]; simpl in *.
  pose proof (opcode_as_u8_range op).
  assert (Hd : u32_of_i32 d ∈u U32) by (apply Z.mod_pos_bound; lia).
  remember (u32_of_i32 d) as u eqn:Hu. remember (opcode_as_u8 op) as o eqn:Ho.
  set (w := o + _ + _ + _ + _).
  rewrite (field_extract w 0 o 256 (a + 32 * (b + 32 * (c + 32 * u))) 1) by (unfold w; lia).
  rewrite (field_extract w o a 32 (b + 32 * (c + 32 * u)) 256) by (unfold w; lia).
  rewrite (field_extract w (o + a * 256) b 32 (c + 32 * u) 8192) by (unfold w; lia).
  rewrite (field_extract w (o + a * 256 + b * 8192) c 32 u 262144) by (unfold w; lia).
  rewrite (field_extract w (o + a * 256 + b * 8192 + c * 262144) u U32 0 8388608)
    by (unfold w; lia).
  subst o u. rewrite opcode_of_as_u8, i32_u32_roundtrip by done. done.
Qed.
Lemma decode_encode_witness :
  decode_any (encode (mkInstruction OpJmp 31 0 7 (-5))) = Ok (mkInstruction OpJmp 31 0 7 (-5)).
Proof. apply decode_encode. unfold instruction_wf, is_i32; simpl; lia. Defined.

(** Encoding a decoded word reproduces its 55 meaningful bits, so two
    words that decode to the same instruction differ only in the nine unused
    high bits. *)
Theorem encode_decode (v : Z) (i : Instruction) (Hv : v ∈u U64)
    (Hd : decode_any v = Ok i) :
  encode i = v mod 2 ^ 55.
Proof.
  rewrite encode_sum by (by eapply decode_any_wf).
  rewrite decode_any_fields in Hd. inv_ok Hd. apply opcode_as_of_u8 in Hd0. simpl.
  rewrite Hd0, u32_i32_roundtrip by (apply Z.mod_pos_bound; lia).
  change (2 ^ 55) with (256 * (32 * (32 * (32 * U32)))).
  rewrite !Z.rem_mul_r, !Z.div_div, Z.div_1_r by lia.
  change (256 * 32) with 8192. change (8192 * 32) with 262144.
  change (262144 * 32) with 8388608. ring.
Qed.
Lemma encode_decode_witness :
  encode (mkInstruction OpAdd 1 2 3 (-1)) = (2 ^ 63 + encode (mkInstruction OpAdd 1 2 3 (-1))) mod 2 ^ 55.
Proof. apply encode_decode; [vm_compute; split; congruence | reflexivity]. Defined.

(** Production and the other profiles decode alike: no opcode is
    experimental. *)
Lemma decode_for_profile_any v p : decode_for_profile v p = decode_any v.
Proof. unfold decode_for_profile, is_experimental. by destruct (decode_any v). Qed.

Lemma decode_for_mainnet_wf v a i : decode_for_mainnet v a = Ok i -> instruction_wf i.
Proof.
  unfold decode_for_mainnet. rewrite decode_for_profile_any. intros H. inv_ok H.
  case_match; simplify_eq. eauto using decode_any_wf.
Qed.

(** The mainnet decoder accepts exactly the words the plain decoder
    accepts whose opcode the activation record allows; with the default record
    that excludes [VerifyMerkle] and [VerifyInference] and nothing else. *)
Theorem decode_for_mainnet_spec (v : Z) (a : MainnetActivation) (i : Instruction) :
  (decode_for_mainnet v a = Ok i <-> decode_any v = Ok i /\ allows a (opcode i) = true) /\
  (allows activation_default (opcode i) = false <->
     opcode i = OpVerifyMerkle \/ opcode i = OpVerifyInference) /\
  allows activation_full (opcode i) = true.
Proof.
  split_and!.
  - unfold decode_for_mainnet. rewrite decode_for_profile_any.
    destruct (decode_any v) as [j|e]; simpl; [|naive_solver].
    destruct (allows a (opcode j)) eqn:E; simpl; split; intros; destruct_and?; simplify_eq; try done; congruence.
  - destruct (opcode i); simpl; naive_solver.
  - by destruct (opcode i).
Qed.

End Isa.
