(* ===== verification/Goldilocks.v ===== *)
(** * Goldilocks field and Poseidon (budzero/bud-vm/src/lib.rs)

    The field helpers every arithmetic opcode of the VM uses, the inverse by
    square and multiply, and the Poseidon permutations.  Every intermediate
    product of the source is a [u128] of two 64-bit values and so never
    overflows; the definitions therefore compute in [Z] and reduce where the
    source reduces.

    Theorems: the modulus is prime (a Proth certificate), so [Div] and [Inv]
    compute field inverses; every hash output is canonical; the two copies of
    the permutation agree; the four-round constants are a prefix of the full
    table. *)

From Stdlib Require Import ZArith Znumtheory Zdivisibility ZmodInv Lia.
From stdpp Require Import base tactics list numbers.
From S2P Require Import Prelude.
Open Scope Z_scope.

Module Goldilocks.

Definition GOLDILOCKS_P : Z := 18446744069414584321.

Definition field_add_goldilocks (a b : Z) : Z := (a + b) mod GOLDILOCKS_P.

Definition field_sub_goldilocks (a b : Z) : Z :=
  (a + GOLDILOCKS_P - b mod GOLDILOCKS_P) mod GOLDILOCKS_P.

Definition field_mul_goldilocks (a b : Z) : Z := (a * b) mod GOLDILOCKS_P.

(** The [while exp > 0] loop of [field_inverse_goldilocks].  The exponent is
    halved each round, so 64 rounds empty a 64-bit exponent. *)
Fixpoint pow_loop (fuel : nat) (exp base res : Z) : Z :=
  match fuel with
  | O => res
  | S fuel =>
      if 0 <? exp then
        let res := if Z.land exp 1 =? 1 then (res * base) mod GOLDILOCKS_P else res in
        let base := (base * base) mod GOLDILOCKS_P in
        pow_loop fuel (Z.shiftr exp 1) base res
      else res
  end.

Definition field_inverse_goldilocks (val : Z) : Z :=
  if val =? 0 then 0 else pow_loop 64 (GOLDILOCKS_P - 2) val 1.

(** The S-box [x -> x^7], as the closure [sbox] computes it. *)
Definition sbox (x : Z) : Z :=
  let x2 := (x * x) mod GOLDILOCKS_P in
  let x4 := (x2 * x2) mod GOLDILOCKS_P in
  ((x4 * x2) mod GOLDILOCKS_P * x) mod GOLDILOCKS_P.

(** Single-round hash of the Merkle path. *)
Definition merkle_poseidon_round (a b : Z) : Z :=
  let s0 := (a + 0xdd5743e7f2a5a5d9) mod GOLDILOCKS_P in
  let s1 := (b + 0xcb3a864e58ada44b) mod GOLDILOCKS_P in
  (7 * sbox s0 + sbox s1) mod GOLDILOCKS_P.

Definition DOMAIN_NULLIFIER : Z := 0x4e554c4c49464552.

Definition POSEIDON_MDS : list (list Z) :=
  [ [7; 1; 3; 8; 8; 3; 4; 9]
  ; [9; 7; 1; 3; 8; 8; 3; 4]
  ; [4; 9; 7; 1; 3; 8; 8; 3]
  ; [3; 4; 9; 7; 1; 3; 8; 8]
  ; [8; 3; 4; 9; 7; 1; 3; 8]
  ; [8; 8; 3; 4; 9; 7; 1; 3]
  ; [3; 8; 8; 3; 4; 9; 7; 1]
  ; [1; 3; 8; 8; 3; 4; 9; 7] ].

Definition POSEIDON_RC_FULL : list (list Z) :=
  [ [0xdd5743e7f2a5a5d9; 0xcb3a864e58ada44b; 0xffa2449ed32f8cdc; 0x42025f65d6bd13ee;
     0x7889175e25506323; 0x34b98bb03d24b737; 0xbdcc535ecc4faa2a; 0x5b20ad869fc0d033]
  ; [0xf1dda5b9259dfcb4; 0x27515210be112d59; 0x4227d1718c766c3f; 0x26d333161a5bd794;
     0x49b938957bf4b026; 0x4a56b5938b213669; 0x1120426b48c8353d; 0x6b323c3f10a56cad]
  ; [0xce57d6245ddca6b2; 0xb1fc8d402bba1eb1; 0xb5c5096ca959bd04; 0x6db55cd306d31f7f;
     0xc49d293a81cb9641; 0x1ce55a4fe979719f; 0xa92e60a9d178a4d1; 0x002cc64973bcfd8c]
  ; [0xcea721cce82fb11b; 0xe5b55eb8098ece81; 0x4e30525c6f1ddd66; 0x43c6702827070987;
     0xaca68430a7b5762a; 0x3674238634df9c93; 0x88cee1c825e33433; 0xde99ae8d74b57176]
  ; [0x488897d85ff51f56; 0x1140737ccb162218; 0xa7eeb9215866ed35; 0x9bd2976fee49fcc9;
     0xc0c8f0de580a3fcc; 0x4fb2dae6ee8fc793; 0x343a89f35f37395b; 0x223b525a77ca72c8]
  ; [0x56ccb62574aaa918; 0xc4d507d8027af9ed; 0xa080673cf0b7e95c; 0xf0184884eb70dcf8;
     0x044f10b0cb3d5c69; 0xe9e3f7993938f186; 0x1b761c80e772f459; 0x606cec607a1b5fac]
  ; [0x14a0c2e1d45f03cd; 0x4eace8855398574f; 0xf905ca7103eff3e6; 0xf8c8f8d20862c059;
     0xb524fe8bdd678e5a; 0xfbb7865901a1ec41; 0x014ef1197d341346; 0x9725e20825d07394]
  ; [0xfdb25aef2c5bae3b; 0xbe5402dc598c971e; 0x93a5711f04cdca3d; 0xc45a9a5b2f8fb97b;
     0xfe8946a924933545; 0x2af997a27369091c; 0xaa62c88e0b294011; 0x058eb9d810ce9f74]
  ; [0xb3cb23eced349ae4; 0xa3648177a77b4a84; 0x43153d905992d95d; 0xf4e2a97cda44aa4b;
     0x5baa2702b908682f; 0x082923bdf4f750d1; 0x98ae09a325893803; 0xf8a6475077968838]
  ; [0xceb0735bf00b2c5f; 0x0a1a5d953888e072; 0x2fcb190489f94475; 0xb5be06270dec69fc;
     0x739cb934b09acf8b; 0x537750b75ec7f25b; 0xe9dd318bae1f3961; 0xf7462137299efe1a]
  ; [0xb1f6b8eee9adb940; 0xbdebcc8a809dfe6b; 0x40fc1f791b178113; 0x3ac1c3362d014864;
     0x9a016184bdb8aeba; 0x95f2394459fbc25e; 0xe3f34a07a76a66c2; 0x8df25f9ad98b1b96]
  ; [0x85ffc27171439d9d; 0xddcb9a2dcfd26910; 0x26b5ba4bf3afb94e; 0xffff9cc7c7651e2f;
     0x8c88364698280b55; 0xebc114167b910501; 0x2d77b4d89ecfb516; 0x332e0828eba151f2]
  ; [0x46fa6a6450dd4735; 0xd00db7dd92384a33; 0x5fd4fb751f3a5fc5; 0x496fb90c0bb65ea2;
     0xf3baec0bb87cc5c7; 0x862a3c0a7d4c7713; 0xbf5f38336a3f47d8; 0x41ad9dbc1394a20c]
  ; [0xcc535945b7dbf0f7; 0x82af2bc93685bcec; 0x8e4c8d0c8cebfccd; 0x17cb39417e84597e;
     0xd4a965a8c749b232; 0xa2cab040f33f3ee5; 0xa98811a1fed4e3a6; 0x1cc48b54f377e2a1]
  ; [0xe40cd4f6c5609a27; 0x11de79ebca97a4a4; 0x9177c73d8b7e929d; 0x2a6fe8085797e792;
     0x3de6e93329f8d5ae; 0x3f7af9125da962ff; 0xd710682cfc77d3ac; 0x48faf05f3b053cf4]
  ; [0x287db8630da89c8b; 0x4d0de32053cb30e9; 0x8b37a4f20c5ada7b; 0xe7cc6ebe78c84ecf;
     0x240bdc0a66a2610d; 0x8299e7f02caa1650; 0x380a53fefb6e754e; 0x684a1d8cf8eb6810]
  ; [0xe839452eb4b8a5e1; 0xb03fa62e90626af4; 0x11a688602fbc5efc; 0x30dda75c355a2d62;
     0x0f712adcb73810de; 0xffdc1102187f1ae1; 0x40c34f398254b99c; 0xede021b9dc289a4a]
  ; [0x8b7b05225c4e7dad; 0x3bc794346f9d9ff9; 0xfccb5a57f2ca86ff; 0xbb1502015a7da9d4;
     0xd7e0a35d4352a015; 0x27af7a44f8160931; 0xc37442f6782f4615; 0xbdf392a9bd095dcb]
  ; [0xc17f55037cf00de9; 0xbcffedd34c71a874; 0x5eb45d2a8133d1f2; 0xbabe251e1612ebdf;
     0x3efeb9fbe438c536; 0x2d7cef97b4afe1cf; 0xe5de1b4660016c0b; 0xcdcc26c332f5657c]
  ; [0xe01dd653daf15809; 0xb0a6bdd4b41094b5; 0x27eac858b0b03a05; 0x51d43b5e93adbdc0;
     0x8b89a23b0fea5fc9; 0xdc8ac3b14f7f2fc1; 0xe793f82f1efec039; 0x9f6f2cf8969e7b80]
  ; [0x49d45382e0f21d4a; 0x5f4ad1797cd72786; 0x4dc3dbebfd45f795; 0x03a3ef84dba6e1bc;
     0x204bc9b3d3fc4c01; 0x9ad706081e89b9ba; 0x638bfb4d840e9f89; 0x5ef2938cd095ae35]
  ; [0x42cca18ebeb265c8; 0xb7b2ec5c29aecbf8; 0x0d84f9535dc78f0f; 0x04e64ad942e77b8c;
     0xb4880dffffc9da0b; 0x16db16d9c29adeb1; 0x09bbaf2a0590cd1e; 0x76460e74961fcf8d]
  ; [0xed12a2276dfa1553; 0x0b5acec5de0436fd; 0x3c6cfea033a1f0a8; 0x2b5ecefe546cac15;
     0x6e2d82884cd3bf6f; 0xc134878d1add7b83; 0x997963422eb7a280; 0x5e834537ac648cf6]
  ; [0x89e779214737c0b7; 0x1a8c05e8581ad95b; 0x8d18b72796437cf7; 0xe7252c949e04b106;
     0x53267c4fd174585a; 0xa16ef5d9c81dad47; 0xda65191937270a46; 0xcb2a5b55f2df664c]
  ; [0x854aee2dc1924137; 0xf37013c9d479ece6; 0x0e163bc0630c4696; 0x384ee64955048f76;
     0xf65d814e28ee4ec5; 0xe57bc564fd82f1b1; 0x4b338937b6876614; 0x66ee0b04ed43cd8d]
  ; [0x49884bf25f4ef15d; 0xeb51fe28de1c6f54; 0x2cd64e84fce8dfcc; 0x29164a96a541a013;
     0x173ce7558f4cacb8; 0xeb5b1ce5877c89e9; 0x5faff4b0f5217bf6; 0xac42d0b1c20f205e]
  ; [0xfb1d6bf0ca43221b; 0x97b0a1b01d6a2955; 0x08c60bd622952b30; 0x43f2be0f9e24147c;
     0xfa7268b7d3730f5d; 0x43a6c419a23983bb; 0xcd77c1f7b29b113c; 0xcfa43c9db8eec29f]
  ; [0xcaaa95a6c7365dec; 0x0a91193f798f3be0; 0x1104497652735dc6; 0x35aecb93663b515e;
     0x8dbc9916065aa858; 0xada8f7a0266579ed; 0x524dee7bec1ea789; 0xa93aee9dd5af9521]
  ; [0x9d1f1b54750d707e; 0x7c9feab87096d5dc; 0xa2e1fb19f9d4261b; 0xb714deb448de6346;
     0x225d1f0d011c5403; 0x1549b7f1d28cedc0; 0xaef3e46f97d43942; 0x6dfc7ffe0b38bf08]
  ; [0x7de853fdc542b663; 0xa68ecc96610657b2; 0xe88bb5428af289b1; 0xd7cfa1504c5569f5;
     0x78a9aad0d642d30a; 0xd68315f2353dce52; 0x46e56300f86fcfd5; 0x323d95332b145fd6] ].

Definition POSEIDON_FULL_ROUNDS : Z := 8.
Definition POSEIDON_PARTIAL_ROUNDS : Z := 22.
Definition POSEIDON_ALPHA : Z := 7.
Definition POSEIDON_ROUNDS_IN_USE : Z := POSEIDON_FULL_ROUNDS + POSEIDON_PARTIAL_ROUNDS.

(** The four-round constants the source keeps for reference. *)
Definition POSEIDON_RC : list (list Z) :=
  [ [0xdd5743e7f2a5a5d9; 0xcb3a864e58ada44b; 0xffa2449ed32f8cdc; 0x42025f65d6bd13ee;
     0x7889175e25506323; 0x34b98bb03d24b737; 0xbdcc535ecc4faa2a; 0x5b20ad869fc0d033]
  ; [0xf1dda5b9259dfcb4; 0x27515210be112d59; 0x4227d1718c766c3f; 0x26d333161a5bd794;
     0x49b938957bf4b026; 0x4a56b5938b213669; 0x1120426b48c8353d; 0x6b323c3f10a56cad]
  ; [0xce57d6245ddca6b2; 0xb1fc8d402bba1eb1; 0xb5c5096ca959bd04; 0x6db55cd306d31f7f;
     0xc49d293a81cb9641; 0x1ce55a4fe979719f; 0xa92e60a9d178a4d1; 0x002cc64973bcfd8c]
  ; [0xcea721cce82fb11b; 0xe5b55eb8098ece81; 0x4e30525c6f1ddd66; 0x43c6702827070987;
     0xaca68430a7b5762a; 0x3674238634df9c93; 0x88cee1c825e33433; 0xde99ae8d74b57176] ].

(** [s[i] = (s[i] + rc[i]) % P] for every lane. *)
Definition add_round_constants (s rc : list Z) : list Z :=
  zip_with (fun x c => (x + c) mod GOLDILOCKS_P) s rc.

Definition apply_sbox (is_full : bool) (s : list Z) : list Z :=
  if is_full then map sbox s
  else match s with
       | [] => []
       | x :: rest => sbox x :: rest
       end.

(** One row of the matrix product: the running sum is reduced at every
    term. *)
Definition mds_row (row s : list Z) : Z :=
  fold_left (fun sum '(m, x) => (sum + m * x) mod GOLDILOCKS_P) (zip row s) 0.

Definition apply_mds (s : list Z) : list Z := map (fun row => mds_row row s) POSEIDON_MDS.

(** Rounds [0..4) and the last four are full, the others partial. *)
Definition is_full_round (round : Z) : bool :=
  let half_full := POSEIDON_FULL_ROUNDS / 2 in
  (round <? half_full) || (zlen POSEIDON_RC_FULL - half_full <=? round).

Definition poseidon_round (round : Z) (rc s : list Z) : list Z :=
  apply_mds (apply_sbox (is_full_round round) (add_round_constants s rc)).

Fixpoint poseidon_rounds (round : Z) (rcs : list (list Z)) (s : list Z) : list Z :=
  match rcs with
  | [] => s
  | rc :: rcs => poseidon_rounds (round + 1) rcs (poseidon_round round rc s)
  end.

(** [poseidon_full_state]: all eight lanes. *)
Definition poseidon_full_state (s : list Z) : list Z :=
  poseidon_rounds 0 POSEIDON_RC_FULL s.

(** [poseidon_full_hash_state]: the same loop, returning [s[0]]. *)
Definition poseidon_full_hash_state (s : list Z) : Z :=
  nth 0 (poseidon_rounds 0 POSEIDON_RC_FULL s) 0.

Definition poseidon4_hash_state (s : list Z) : Z := poseidon_full_hash_state s.

Definition poseidon4_hash3 (a b c : Z) : Z := poseidon4_hash_state [a; b; c; 0; 0; 0; 0; 0].

Definition poseidon4_hash (a b : Z) : Z := poseidon4_hash_state [a; b; 0; 0; 0; 0; 0; 0].

(** A canonical field element. *)
Definition canonical (x : Z) : Prop := x ∈u GOLDILOCKS_P.

(** ** Reference checks of the constant tables *)

Example poseidon_rc_prefix : POSEIDON_RC = take 4 POSEIDON_RC_FULL.
Proof. reflexivity. Qed.

Example poseidon_schedule : zlen POSEIDON_RC_FULL = POSEIDON_ROUNDS_IN_USE.
Proof. reflexivity. Qed.

(** ** Primality of the modulus

    [P - 1 = (2^32 - 1) * 2^32] and [7^((P - 1) / 2) = -1 (mod P)]: Proth's
    criterion, proved from Fermat's little theorem. *)

Lemma exists_prime_divisor d : 1 < d -> exists q, Z.prime q /\ (q | d).
Proof.
  intros Hd. assert (0 <= d) as H0 by lia. revert Hd.
  pattern d; apply Z_lt_induction; [clear d H0; intros d IH Hd|done].
  destruct (prime_dec d) as [Hp|Hn].
  - exists d. split; [by apply prime_alt|apply Z.divide_refl].
  - destruct (not_prime_divide d Hd Hn) as (n & Hn1 & Hdiv).
    destruct (IH n) as (q & Hq & Hqn); [lia|lia|].
    exists q. split; [done|]. by apply Z.divide_trans with n.
Qed.

Lemma odd_part x : 0 < x -> exists j m, 0 <= j /\ Z.odd m = true /\ x = 2 ^ j * m.
Proof.
  intros Hx. assert (0 <= x) as H0 by lia. revert Hx.
  pattern x; apply Z_lt_induction; [clear x H0; intros x IH Hx|done].
  destruct (Z.odd x) eqn:Ho.
  - exists 0, x. rewrite Z.pow_0_r. split_and!; [lia|done|lia].
  - rewrite <- Z.negb_even in Ho. apply negb_false_iff, Z.even_spec in Ho as [y ->].
    destruct (IH y) as (j & m & Hj & Hm & ->); [lia|lia|].
    exists (j + 1), m. rewrite Z.pow_add_r by lia. split_and!; [lia|done|lia].
Qed.

Lemma pow_one_mod a n q : 1 < q -> 0 <= n -> a mod q = 1 -> a ^ n mod q = 1.
Proof. intros. rewrite <- Z.mod_pow_l, H1, Z.pow_1_l, Z.mod_1_l by lia. done. Qed.

Lemma pow_opp_one_odd m q : 1 < q -> 0 <= m -> Z.odd m = true -> (q - 1) ^ m mod q = q - 1.
Proof.
  intros Hq Hm Ho. apply Z.odd_spec in Ho as [k ->].
  replace (q - 1) with (-1 + 1 * q) at 1 by lia.
  rewrite <- Z.mod_pow_l, Z.mod_add, Z.mod_pow_l by lia.
  rewrite Z.pow_add_r, Z.pow_mul_r by lia.
  change ((-1) ^ 2) with 1. rewrite Z.pow_1_l by lia. change (1 * (-1) ^ 1) with (-1).
  rewrite <- (Z.mod_add (-1) 1), Z.mod_small by lia. lia.
Qed.

(** A prime divisor of a Proth number is at least the power of two. *)
Lemma proth_divisor_large b h q :
  Z.prime q -> 2 < q -> 0 <= h -> b ^ (2 ^ h) mod q = q - 1 -> 2 ^ (h + 1) <= q - 1.
Proof.
  intros Hq Hq2 Hh Hb. destruct (Z.le_gt_cases (2 ^ (h + 1)) (q - 1)) as [|Hlt]; [done|exfalso].
  destruct (odd_part (q - 1)) as (j & m & Hj & Hm & Hqm); [lia|].
  assert (0 < 2 ^ j) by (apply Z.pow_pos_nonneg; lia).
  assert (0 < m) by nia.
  assert (j <= h) as Hjh.
  { destruct (Z.le_gt_cases j h) as [|Hgt]; [done|].
    assert (2 ^ (h + 1) <= 2 ^ j) by (apply Z.pow_le_mono_r; lia). nia. }
  assert (Hbq : b mod q <> 0).
  { intros E. rewrite <- Z.mod_pow_l, E, Z.pow_0_l, Z.mod_0_l in Hb by lia. lia. }
  pose proof (Z.fermat_nz q b Hq Hbq) as Hf.
  assert (E1 : (b ^ (2 ^ h)) ^ m mod q = 1).
  { rewrite <- Z.pow_mul_r by lia.
    replace (2 ^ h * m) with ((q - 1) * 2 ^ (h - j)).
    - rewrite Z.pow_mul_r by lia. apply pow_one_mod; [lia|lia|done].
    - rewrite Hqm. replace h with (j + (h - j)) at 2 by lia. rewrite Z.pow_add_r by lia. ring. }
  rewrite <- Z.mod_pow_l, Hb, pow_opp_one_odd in E1 by (done || lia). lia.
Qed.

Lemma pow_loop_spec fuel exp base res :
  0 <= exp < 2 ^ Z.of_nat fuel ->
  pow_loop fuel exp base res mod GOLDILOCKS_P = (res * base ^ exp) mod GOLDILOCKS_P.
Proof.
  revert exp base res. induction fuel as [|fuel IH]; intros exp base res Hexp.
  { simpl in *. replace exp with 0 by lia. by rewrite Z.pow_0_r, Z.mul_1_r. }
  cbn [pow_loop]. destruct (Z.ltb_spec 0 exp).
  2:{ replace exp with 0 by lia. by rewrite Z.pow_0_r, Z.mul_1_r. }
  rewrite Nat2Z.inj_succ, Z.pow_succ_r in Hexp by lia.
  rewrite Z.shiftr_div_pow2 by lia. change (2 ^ 1) with 2.
  rewrite IH by (split; [apply Z.div_pos; lia|apply Z.div_lt_upper_bound; lia]).
  clear Hexp IH. assert (0 <= exp / 2) by (apply Z.div_pos; lia).
  change (Z.land exp 1) with (Z.land exp (Z.ones 1)). rewrite Z.land_ones by lia.
  change (2 ^ 1) with 2.
  assert (Hsq : (base * base) ^ (exp / 2) = base ^ (2 * (exp / 2))).
  { rewrite Z.pow_mul_r, Z.pow_2_r by lia. done. }
  rewrite <- Z.mul_mod_idemp_r, Z.mod_pow_l, Z.mul_mod_idemp_r, Hsq by done.
  destruct (Z.eqb_spec (exp mod 2) 1).
  - rewrite Z.mul_mod_idemp_l by done. rewrite <- Z.mul_assoc, <- Z.pow_succ_r by lia.
    do 3 f_equal. dlia.
  - do 3 f_equal. dlia.
Qed.

Lemma pow_loop_range fuel exp base res :
  0 <= res < GOLDILOCKS_P -> canonical (pow_loop fuel exp base res).
Proof.
  revert exp base res. induction fuel as [|fuel IH]; intros; cbn [pow_loop]; [done|].
  case_match; [|done]. apply IH. case_match; [apply Z.mod_pos_bound|]; done.
Qed.

Lemma proth_divisor_of_P a k q :
  pow_loop 64 (k * 2 ^ 31) a 1 = GOLDILOCKS_P - 1 -> 0 <= k < 2 ^ 32 ->
  Z.prime q -> 2 < q -> (q | GOLDILOCKS_P) -> 2 ^ 32 <= q - 1.
Proof.
  intros Hloop Hk Hq Hq2 HqP.
  apply (proth_divisor_large (a ^ k) 31 q); [done|lia|lia|].
  rewrite <- Z.pow_mul_r by lia.
  pose proof (pow_loop_spec 64 (k * 2 ^ 31) a 1) as E.
  rewrite Hloop, Z.mul_1_l in E. specialize (E ltac:(change (2 ^ Z.of_nat 64) with (2 ^ 33 * 2 ^ 31); nia)).
  rewrite (Zmod_div_mod q GOLDILOCKS_P) by (done || lia). rewrite <- E.
  rewrite (Z.mod_small (GOLDILOCKS_P - 1) GOLDILOCKS_P) by (unfold GOLDILOCKS_P; lia).
  apply Z.mod_divide in HqP; [|lia].
  rewrite <- Zminus_mod_idemp_l, HqP. rewrite <- (Z.mod_add _ 1), Z.mod_small by lia. lia.
Qed.

Lemma GOLDILOCKS_P_prime : Z.prime GOLDILOCKS_P.
Proof.
  split; [done|]. intros n Hn [c Hc].
  assert (exists d, 1 < d /\ d * d <= GOLDILOCKS_P /\ (d | GOLDILOCKS_P)) as (d & Hd & Hdd & Hdiv).
  { destruct (Z.le_ge_cases n c).
    - exists n. split_and!; [lia|nia|]. by exists c.
    - exists c. split_and!; [nia|nia|]. exists n. lia. }
  destruct (exists_prime_divisor d Hd) as (q & Hq & Hqd).
  assert (q <= d) by (apply Z.divide_pos_le; [lia|done]).
  assert (HqP : (q | GOLDILOCKS_P)) by (by apply Z.divide_trans with d).
  pose proof (Z.prime_ge_2 _ Hq).
  assert (q <> 2). { intros ->. apply Z.mod_divide in HqP; [|done]. by vm_compute in HqP. }
  assert (2 ^ 32 <= q - 1) as Hlarge.
  { apply (proth_divisor_of_P 7 (2 ^ 32 - 1)); [by vm_compute|lia|done|lia|done]. }
  change (2 ^ 32) with 4294967296 in Hlarge. unfold GOLDILOCKS_P in *. nia.
Qed.


(** ** Field operations *)

(** the inverse the VM computes by square and multiply is the field
    inverse: for every 64-bit value that is not a multiple of [P] the product
    with its inverse is 1 modulo [P], and the result is canonical. *)
Theorem field_inverse_correct (v : Z) (Hv : v mod GOLDILOCKS_P <> 0) :
  field_mul_goldilocks v (field_inverse_goldilocks v) = 1 /\
  canonical (field_inverse_goldilocks v).
Proof.
  unfold field_mul_goldilocks, field_inverse_goldilocks.
  destruct (Z.eqb_spec v 0) as [->|Hv0]; [done|].
  split; [|by apply pow_loop_range].
  rewrite <- Z.mul_mod_idemp_r, pow_loop_spec, Z.mul_1_l by done.
  rewrite Z.mul_mod_idemp_r, <- Z.pow_succ_r by done.
  by apply (Z.fermat_nz _ _ GOLDILOCKS_P_prime).
Qed.
Lemma field_inverse_correct_witness :
  (GOLDILOCKS_P + 5) mod GOLDILOCKS_P <> 0 /\
  field_mul_goldilocks (GOLDILOCKS_P + 5) (field_inverse_goldilocks (GOLDILOCKS_P + 5)) = 1.
Proof. split; [done|]. apply field_inverse_correct; done. Defined.

(** Subtraction undoes addition, and every result is canonical. *)
Lemma field_sub_add a b :
  field_sub_goldilocks (field_add_goldilocks a b) b = a mod GOLDILOCKS_P.
Proof.
  unfold field_sub_goldilocks, field_add_goldilocks.
  rewrite <- Z.add_sub_assoc, Z.add_mod_idemp_l by done.
  rewrite Z.add_sub_assoc, Zminus_mod_idemp_r.
  replace (a + b + GOLDILOCKS_P - b) with (a + 1 * GOLDILOCKS_P) by lia.
  by rewrite Z.mod_add.
Qed.

Lemma mod_canonical x : canonical (x mod GOLDILOCKS_P).
Proof. by apply Z.mod_pos_bound. Qed.

Lemma canonical_u64 x : canonical x -> x ∈u U64.
Proof. unfold canonical, GOLDILOCKS_P. lia. Qed.

Lemma sbox_pow x : sbox x = x ^ 7 mod GOLDILOCKS_P.
Proof.
  assert (Hl : forall a b, ((a mod GOLDILOCKS_P) * b) mod GOLDILOCKS_P = (a * b) mod GOLDILOCKS_P)
    by (intros; by apply Z.mul_mod_idemp_l).
  unfold sbox. rewrite Hl, <- Z.mul_assoc, Hl.
  rewrite <- Z.mul_assoc, Hl, (Z.mul_comm (x * x)), <- Z.mul_assoc, Hl.
  rewrite (Z.mul_comm (x * x)), <- !Z.mul_assoc, Hl. f_equal. ring.
Qed.

(** [gcd(7, P - 1) = 1], so the S-box is injective on the field: two
    canonical lanes with the same S-box output are equal. *)
Theorem sbox_injective (x y : Z) (Hx : canonical x) (Hy : canonical y)
    (Hxy : sbox x = sbox y) : x = y.
Proof.
  assert (Hroot : forall z, canonical z -> sbox z ^ 10540996611094048183 mod GOLDILOCKS_P = z).
  { intros z Hz. rewrite sbox_pow, Z.mod_pow_l, <- Z.pow_mul_r by done.
    destruct (decide (z = 0)) as [->|Hz0]; [done|].
    replace (7 * 10540996611094048183) with (1 + (GOLDILOCKS_P - 1) * 4) by done.
    rewrite Z.pow_add_r, Z.pow_1_r, Z.pow_mul_r by done.
    rewrite <- Z.mul_mod_idemp_r by done.
    rewrite pow_one_mod; [by rewrite Z.mul_1_r, Z.mod_small|done|done|].
    apply (Z.fermat_nz _ _ GOLDILOCKS_P_prime). by rewrite Z.mod_small. }
  rewrite <- (Hroot x Hx), <- (Hroot y Hy), Hxy. done.
Qed.
Lemma sbox_injective_witness :
  canonical 3 /\ sbox 3 = sbox (sbox 3 - 2184) /\ 3 = sbox 3 - 2184.
Proof.
  split_and!; [by vm_compute|by vm_compute|].
  apply sbox_injective; by vm_compute.
Defined.

Lemma merkle_poseidon_round_canonical a b : canonical (merkle_poseidon_round a b).
Proof. apply mod_canonical. Qed.

Lemma mds_row_canonical row s : canonical (mds_row row s).
Proof.
  unfold mds_row. cut (forall l acc, canonical acc ->
    canonical (fold_left (fun sum '(m, x) => (sum + m * x) mod GOLDILOCKS_P) l acc)).
  { intros H; apply H. unfold canonical, GOLDILOCKS_P. lia. }
  induction l as [|[m x] l IH]; simpl; [done|]. intros. apply IH, mod_canonical.
Qed.

Lemma apply_mds_canonical s : length (apply_mds s) = 8%nat /\ Forall canonical (apply_mds s).
Proof.
  split; [done|]. unfold apply_mds. apply List.Forall_map, Forall_true.
  intros. apply mds_row_canonical.
Qed.

Lemma poseidon_rounds_canonical rcs round s :
  rcs <> [] -> length (poseidon_rounds round rcs s) = 8%nat /\
  Forall canonical (poseidon_rounds round rcs s).
Proof.
  intros Hne. revert round s. induction rcs as [|rc rcs IH]; [done|]; intros round s; simpl.
  destruct rcs as [|rc' rcs]; [apply apply_mds_canonical|by apply IH].
Qed.

(** Every hash output is a canonical field element. *)
Lemma poseidon_full_state_canonical s :
  length (poseidon_full_state s) = 8%nat /\ Forall canonical (poseidon_full_state s).
Proof. by apply poseidon_rounds_canonical. Qed.

Lemma poseidon4_hash_state_canonical s : canonical (poseidon4_hash_state s).
Proof.
  destruct (poseidon_full_state_canonical s) as [Hlen Hall].
  unfold poseidon4_hash_state, poseidon_full_hash_state.
  change (canonical (nth 0 (poseidon_full_state s) 0)).
  destruct (poseidon_full_state s); [done|]. by inversion Hall.
Qed.

#[export] Hint Resolve mod_canonical canonical_u64 merkle_poseidon_round_canonical
  poseidon4_hash_state_canonical : budlum.

End Goldilocks.
