(* ===== verification/Vm.v ===== *)
(** * The BudZero virtual machine (budzero/bud-vm/src/lib.rs)

    [Vm] is the machine state, [step] one instruction, [run_receipt] the loop
    to completion with the receipt it produces.  [&mut self] methods are
    programs of the monad [M]: they return with a new state, raise a [VmError]
    with the state at that point (Rust's early [return Err(..)], which keeps
    the mutations made so far), or panic.  Every place where the Rust code
    would panic (an index or a slice out of range) is the outcome [Panicked],
    so that absence of panics is a theorem rather than an assumption.

    [usize] is 64-bit.  Vectors are lists in the source's order, except the
    call stack, whose head is its top.  The [debug!] log line is not modelled.
    The build is not a test build and has the cargo feature [experimental]
    off; no opcode is experimental, so the feature makes no difference to
    decoding (Isa.decode_for_profile_any). *)

From Stdlib Require Import ZArith Lia.
From stdpp Require Import base tactics strings numbers gmap list.
From S2P Require Import Prelude Isa Goldilocks.
Import Isa Goldilocks.
Open Scope Z_scope.

Module Vm.

Inductive VmError : Type :=
| OutOfGas
| AssertionFailed
| StackUnderflow
| StackOverflow
| InvalidOpcodeError (msg : string)
| InvalidPc
| InvalidMemoryAccess.

Record ExecutionReceipt : Type := mkReceipt {
  r_success : bool;
  r_error : option VmError;
  r_gas_used : Z;
  r_exit_code : Z;
  r_events : list Z;
  r_final_pc : Z;
  r_trace_len : Z;
  r_state_writes_digest : list Z;
}.

Definition decode_instruction (raw : Z) (mainnet : bool) : result Instruction string :=
  if mainnet then
    map_err decode_error_fmt (decode_for_mainnet raw activation_default)
  else decode false raw.

Record Context : Type := mkContext {
  sender : Z;
  nonce : Z;
  block_height : Z;
  initial_state_root : list Z;
}.

Record Step : Type := mkStep {
  st_pc : Z;
  st_next_pc : Z;
  st_instruction : Instruction;
  src1_idx : Z;
  src2_idx : Z;
  dst_idx : Z;
  src1_val : Z;
  src2_val : Z;
  dst_val : Z;
  st_registers : list Z;
  memory_addr : option Z;
  memory_val : option Z;
  is_memory_write : bool;
  stack_pointer : Z;
  merkle_key : option Z;
  merkle_current : option Z;
  merkle_sibling : option Z;
  merkle_round : option Z;
  merkle_is_expand : bool;
  inference_model_commitment : option Z;
  inference_input_commitment : option Z;
  inference_output_commitment : option Z;
  inference_proof_round : option Z;
  inference_is_expand : bool;
}.

Record Vm : Type := mkVm {
  registers : list Z;
  pc : Z;
  stack : list Z;
  memory : list Z;
  storage : gmap Z Z;
  events : list Z;
  context : Context;
  trace : list Step;
  halted : bool;
  gas_used : Z;
  gas_limit : Z;
  error : option VmError;
  state_writes : list (Z * Z);
  mainnet_mode : bool;
}.

(** [Vm::with_gas_limit], [Vm::new], [Vm::with_mainnet_mode] *)
Definition with_gas_limit (memory_size limit : Z) : Vm :=
  {| registers := replicate 32 0; pc := 0; stack := [];
     memory := replicate (Z.to_nat memory_size) 0;
     storage := ∅; events := [];
     context := {| sender := 0; nonce := 0; block_height := 0;
                   initial_state_root := replicate 32 0 |};
     trace := []; halted := false; gas_used := 0; gas_limit := limit;
     error := None; state_writes := []; mainnet_mode := false |}.

Definition new (memory_size : Z) : Vm := with_gas_limit memory_size 1000000.

(** *** Field assignments *)
Definition set_registers (v : list Z) (s : Vm) : Vm :=
  {| registers := v; pc := pc s; stack := stack s; memory := memory s; storage := storage s; events := events s; context := context s; trace := trace s; halted := halted s; gas_used := gas_used s; gas_limit := gas_limit s; error := error s; state_writes := state_writes s; mainnet_mode := mainnet_mode s |}.
Definition set_pc (v : Z) (s : Vm) : Vm :=
  {| registers := registers s; pc := v; stack := stack s; memory := memory s; storage := storage s; events := events s; context := context s; trace := trace s; halted := halted s; gas_used := gas_used s; gas_limit := gas_limit s; error := error s; state_writes := state_writes s; mainnet_mode := mainnet_mode s |}.
Definition set_stack (v : list Z) (s : Vm) : Vm :=
  {| registers := registers s; pc := pc s; stack := v; memory := memory s; storage := storage s; events := events s; context := context s; trace := trace s; halted := halted s; gas_used := gas_used s; gas_limit := gas_limit s; error := error s; state_writes := state_writes s; mainnet_mode := mainnet_mode s |}.
Definition set_memory (v : list Z) (s : Vm) : Vm :=
  {| registers := registers s; pc := pc s; stack := stack s; memory := v; storage := storage s; events := events s; context := context s; trace := trace s; halted := halted s; gas_used := gas_used s; gas_limit := gas_limit s; error := error s; state_writes := state_writes s; mainnet_mode := mainnet_mode s |}.
Definition set_storage (v : gmap Z Z) (s : Vm) : Vm :=
  {| registers := registers s; pc := pc s; stack := stack s; memory := memory s; storage := v; events := events s; context := context s; trace := trace s; halted := halted s; gas_used := gas_used s; gas_limit := gas_limit s; error := error s; state_writes := state_writes s; mainnet_mode := mainnet_mode s |}.
Definition set_events (v : list Z) (s : Vm) : Vm :=
  {| registers := registers s; pc := pc s; stack := stack s; memory := memory s; storage := storage s; events := v; context := context s; trace := trace s; halted := halted s; gas_used := gas_used s; gas_limit := gas_limit s; error := error s; state_writes := state_writes s; mainnet_mode := mainnet_mode s |}.
Definition set_trace (v : list Step) (s : Vm) : Vm :=
  {| registers := registers s; pc := pc s; stack := stack s; memory := memory s; storage := storage s; events := events s; context := context s; trace := v; halted := halted s; gas_used := gas_used s; gas_limit := gas_limit s; error := error s; state_writes := state_writes s; mainnet_mode := mainnet_mode s |}.
Definition set_halted (v : bool) (s : Vm) : Vm :=
  {| registers := registers s; pc := pc s; stack := stack s; memory := memory s; storage := storage s; events := events s; context := context s; trace := trace s; halted := v; gas_used := gas_used s; gas_limit := gas_limit s; error := error s; state_writes := state_writes s; mainnet_mode := mainnet_mode s |}.
Definition set_gas_used (v : Z) (s : Vm) : Vm :=
  {| registers := registers s; pc := pc s; stack := stack s; memory := memory s; storage := storage s; events := events s; context := context s; trace := trace s; halted := halted s; gas_used := v; gas_limit := gas_limit s; error := error s; state_writes := state_writes s; mainnet_mode := mainnet_mode s |}.
Definition set_error (v : option VmError) (s : Vm) : Vm :=
  {| registers := registers s; pc := pc s; stack := stack s; memory := memory s; storage := storage s; events := events s; context := context s; trace := trace s; halted := halted s; gas_used := gas_used s; gas_limit := gas_limit s; error := v; state_writes := state_writes s; mainnet_mode := mainnet_mode s |}.
Definition set_state_writes (v : list (Z * Z)) (s : Vm) : Vm :=
  {| registers := registers s; pc := pc s; stack := stack s; memory := memory s; storage := storage s; events := events s; context := context s; trace := trace s; halted := halted s; gas_used := gas_used s; gas_limit := gas_limit s; error := error s; state_writes := v; mainnet_mode := mainnet_mode s |}.
Definition set_mainnet_mode (v : bool) (s : Vm) : Vm :=
  {| registers := registers s; pc := pc s; stack := stack s; memory := memory s; storage := storage s; events := events s; context := context s; trace := trace s; halted := halted s; gas_used := gas_used s; gas_limit := gas_limit s; error := error s; state_writes := state_writes s; mainnet_mode := v |}.

Definition with_mainnet_mode (memory_size limit : Z) (mainnet : bool) : Vm :=
  set_mainnet_mode mainnet (with_gas_limit memory_size limit).

(** *** The monad of [&mut self] methods *)
Inductive outcome (A : Type) : Type :=
| Returned (a : A) (s : Vm)
| Raised (e : VmError) (s : Vm)
| Panicked.
Arguments Returned {A} _ _.
Arguments Raised {A} _ _.
Arguments Panicked {A}.

Definition M (A : Type) : Type := Vm -> outcome A.

Definition ret {A} (a : A) : M A := fun s => Returned a s.
Definition bind {A B} (m : M A) (k : A -> M B) : M B := fun s =>
  match m s with
  | Returned a s' => k a s'
  | Raised e s' => Raised e s'
  | Panicked => Panicked
  end.

Declare Scope vm_scope.
Delimit Scope vm_scope with vm.
Notation "x <- m ;; k" := (bind m (fun x => k))
  (at level 100, m at next level, right associativity) : vm_scope.
Notation "m ;;; k" := (bind m (fun _ => k))
  (at level 100, right associativity) : vm_scope.
Open Scope vm_scope.

Definition gets {A} (f : Vm -> A) : M A := fun s => Returned (f s) s.
Definition modify (f : Vm -> Vm) : M unit := fun s => Returned tt (f s).

(** [self.halted = true; self.error = Some(e); return Err(e);] *)
Definition fail {A} (e : VmError) : M A := fun s =>
  Raised e (set_error (Some e) (set_halted true s)).

(** A panicking access: [None] is the panic. *)
Definition or_panic {A} (o : option A) : M A := fun s =>
  match o with
  | Some a => Returned a s
  | None => Panicked
  end.

(** [self.registers[idx as usize]] and its assignment. *)
Definition read_reg (idx : Z) : M Z := fun s =>
  or_panic (registers s !! Z.to_nat idx) s.
Definition write_reg (idx v : Z) : M unit := fun s =>
  if idx <? zlen (registers s)
  then Returned tt (set_registers (<[Z.to_nat idx := v]> (registers s)) s)
  else Panicked.

(** [u64::from_le_bytes(self.memory[addr..addr + 8])] *)
Definition word_at (mem : list Z) (addr : Z) : option Z :=
  le_decode <$> slice mem addr (addr + 8).
Definition read_word (addr : Z) : M Z :=
  s <- gets id ;; or_panic (word_at (memory s) addr).

(** [self.memory[addr..addr + 8].copy_from_slice(&v.to_le_bytes())] *)
Definition write_word (addr v : Z) : M unit :=
  s <- gets id ;;
  mem <- or_panic (splice (memory s) addr (le_encode 8 v)) ;;
  modify (set_memory mem).

(** [self.pc += 1] *)
Definition advance_pc : M unit := modify (fun s => set_pc (pc s + 1) s).

Definition push_trace (st : Step) : M unit :=
  modify (fun s => set_trace (trace s ++ [st]) s).

(** [if let Some(last) = self.trace.last_mut() { .. }] *)
Definition patch_last (f : Step -> Step) : M unit :=
  modify (fun s => set_trace (alter f (pred (length (trace s))) (trace s)) s).

Definition consume_gas (amount : Z) : M unit := fun s =>
  let s := set_gas_used (saturating_add U64 (gas_used s) amount) s in
  if gas_limit s <? gas_used s then fail OutOfGas s else Returned tt s.

Definition memory_word_addr (base im memory_len : Z) : option Z :=
  let addr := base + im in
  if addr <? 0 then None
  else if U64 <=? addr then None
  else match checked_add U64 addr 8 with
       | None => None
       | Some fin => if fin <=? memory_len then Some addr else None
       end.

Definition gas_cost (op : Opcode) : Z :=
  match op with
  | OpHalt => 0
  | OpLoad | OpStore => 3
  | OpSRead => 8
  | OpSWrite => 12
  | OpPoseidon | OpVerifyMerkle | OpVerifyInference
  | OpPrivacyCommit | OpNullifierCheck | OpSumConservation => 10
  | OpCall | OpRet | OpPush | OpPop => 2
  | OpSyscall => 5
  | _ => 1
  end.

(** What the [match inst.opcode] of [step] computes: the pair
    [(dst_val, next_pc)] and the three memory variables. *)
Record ExecOut : Type := mkExecOut {
  o_dst_val : Z;
  o_next_pc : Z;
  o_memory_addr : option Z;
  o_memory_val : option Z;
  o_is_memory_write : bool;
}.

Definition plain (dst next : Z) : ExecOut := mkExecOut dst next None None false.

Definition b2z (b : bool) : Z := if b then 1 else 0.

(** [self.registers[dst_idx as usize] = result; self.pc += 1;
    (result, cur_pc + 1)], the tail shared by the register-writing arms. *)
Definition finish_reg (dst cur_pc v : Z) : M ExecOut :=
  write_reg dst v ;;; advance_pc ;;; ret (plain v (cur_pc + 1)).

(** The same tail with the [if dst_idx as usize > 0] guard of the staged
    opcodes. *)
Definition finish_reg_guarded (dst cur_pc v : Z) : M ExecOut :=
  (if 0 <? dst then write_reg dst v else ret tt) ;;;
  advance_pc ;;; ret (plain v (cur_pc + 1)).

(** [(cur_pc as i64 + inst.imm as i64) as usize] *)
Definition jump_target (cur_pc im : Z) : Z := u64_of_signed (cur_pc + im).

(** *** The arms of [match inst.opcode] *)

Definition exec_halt (cur_pc : Z) : M ExecOut :=
  modify (set_halted true) ;;; ret (plain 0 cur_pc).

Definition div_result (src1 src2 : Z) : Z :=
  if negb (src2 =? 0)
  then (src1 * field_inverse_goldilocks src2) mod 18446744069414584321
  else 0.

Definition inv_result (src1 : Z) : Z :=
  if negb (src1 =? 0) then field_inverse_goldilocks src1 else 0.

Definition exec_load (inst : Instruction) (src1 cur_pc : Z) : M ExecOut :=
  if rs1 inst =? 0 then
    let result := u64_of_signed (imm inst) in
    write_reg (rd inst) result ;;; advance_pc ;;; ret (plain result (cur_pc + 1))
  else
    s <- gets id ;;
    match memory_word_addr src1 (imm inst) (zlen (memory s)) with
    | Some addr =>
        val <- read_word addr ;;
        write_reg (rd inst) val ;;;
        advance_pc ;;;
        ret (mkExecOut val (cur_pc + 1) (Some addr) (Some val) false)
    | None => fail InvalidMemoryAccess
    end.

Definition exec_store (inst : Instruction) (src1 src2 cur_pc : Z) : M ExecOut :=
  s <- gets id ;;
  match memory_word_addr src1 (imm inst) (zlen (memory s)) with
  | Some addr =>
      write_word addr src2 ;;;
      advance_pc ;;;
      ret (mkExecOut 0 (cur_pc + 1) (Some addr) (Some src2) true)
  | None => fail InvalidMemoryAccess
  end.

Definition exec_jmp (inst : Instruction) (cur_pc : Z) : M ExecOut :=
  let target := jump_target cur_pc (imm inst) in
  modify (set_pc target) ;;; ret (plain 0 target).

Definition exec_jnz (inst : Instruction) (src1 cur_pc : Z) : M ExecOut :=
  let target := if negb (src1 =? 0) then jump_target cur_pc (imm inst) else cur_pc + 1 in
  modify (set_pc target) ;;; ret (plain 0 target).

Definition push_stack (v : Z) : M unit := modify (fun s => set_stack (v :: stack s) s).

Definition exec_call (inst : Instruction) (cur_pc : Z) : M ExecOut :=
  s <- gets id ;;
  if 1024 <=? zlen (stack s) then fail StackOverflow
  else
    let target := jump_target cur_pc (imm inst) in
    push_stack (cur_pc + 1) ;;;
    modify (set_pc target) ;;;
    ret (plain (cur_pc + 1) target).

(** [self.stack.pop()] *)
Definition pop_stack : M Z := fun s =>
  match stack s with
  | v :: rest => Returned v (set_stack rest s)
  | [] => fail StackUnderflow s
  end.

Definition exec_ret : M ExecOut :=
  target <- pop_stack ;;
  modify (set_pc target) ;;; ret (plain target target).

Definition exec_push (src1 cur_pc : Z) : M ExecOut :=
  s <- gets id ;;
  if 1024 <=? zlen (stack s) then fail StackOverflow
  else push_stack src1 ;;; advance_pc ;;; ret (plain src1 (cur_pc + 1)).

Definition exec_pop (inst : Instruction) (cur_pc : Z) : M ExecOut :=
  v <- pop_stack ;; finish_reg (rd inst) cur_pc v.

Definition exec_assert (src1 cur_pc : Z) : M ExecOut :=
  if src1 =? 0 then fail AssertionFailed
  else advance_pc ;;; ret (plain 0 (cur_pc + 1)).

(** [if inst.imm == -1 { src2_val as i32 } else { inst.imm }] *)
Definition storage_slot (inst : Instruction) (src2 : Z) : Z :=
  if imm inst =? -1 then i32_of_u64 src2 else imm inst.

Definition exec_sread (inst : Instruction) (src2 cur_pc : Z) : M ExecOut :=
  s <- gets id ;;
  finish_reg (rd inst) cur_pc (default 0 (storage s !! storage_slot inst src2)).

Definition exec_swrite (inst : Instruction) (src1 src2 cur_pc : Z) : M ExecOut :=
  let slot := storage_slot inst src2 in
  modify (fun s => set_storage (<[slot := src1]> (storage s)) s) ;;;
  modify (fun s => set_state_writes (state_writes s ++ [(slot, src1)]) s) ;;;
  advance_pc ;;;
  ret (plain 0 (cur_pc + 1)).

Definition push_event (v : Z) : M unit :=
  modify (fun s => set_events (events s ++ [v]) s).

Definition exec_log (src1 cur_pc : Z) : M ExecOut :=
  push_event src1 ;;; advance_pc ;;; ret (plain 0 (cur_pc + 1)).

Definition syscall_result (inst : Instruction) (src1 : Z) : M Z :=
  s <- gets id ;;
  match imm inst with
  | 1 => ret (sender (context s))
  | 2 => ret (block_height (context s))
  | 3 => ret (nonce (context s))
  | 6 =>
      push_event 0x00A100A1 ;;;
      push_event src1 ;;;
      ret (saturating_add U64 (block_height (context s)) src1)
  | _ => ret 0
  end.

Definition exec_syscall (inst : Instruction) (src1 cur_pc : Z) : M ExecOut :=
  v <- syscall_result inst src1 ;; finish_reg (rd inst) cur_pc v.

(** [path_addr.checked_add(len).is_some_and(|end| end <= self.memory.len())] *)
Definition window_fits (addr len memory_len : Z) : bool :=
  match checked_add U64 addr len with
  | Some fin => fin <=? memory_len
  | None => false
  end.

(** One round of the Merkle path: the direction bit is bit [i] of the key. *)
Definition merkle_step (key i current sibling : Z) : Z :=
  if Z.land (Z.shiftr key i) 1 =? 0
  then merkle_poseidon_round current sibling
  else merkle_poseidon_round sibling current.

(** [for i in i..i + n] of the path walk. *)
Fixpoint merkle_walk (n : nat) (path_addr key i current : Z) : M Z :=
  match n with
  | O => ret current
  | S n =>
      sibling <- read_word (path_addr + 8 + i * 8) ;;
      merkle_walk n path_addr key (i + 1) (merkle_step key i current sibling)
  end.

Definition exec_verify_merkle (inst : Instruction) (src1 src2 cur_pc : Z) : M ExecOut :=
  let root := src1 in
  let leaf := src2 in
  let path_addr := u64_of_signed (imm inst) in
  s <- gets id ;;
  out <- (if window_fits path_addr (8 * 65) (zlen (memory s)) then
            key <- read_word path_addr ;;
            current <- merkle_walk 64 path_addr key 0 leaf ;;
            ret (mkExecOut (b2z (current =? root)) (cur_pc + 1)
                   (Some path_addr) (Some key) false)
          else ret (plain 0 (cur_pc + 1))) ;;
  write_reg (rd inst) (o_dst_val out) ;;;
  advance_pc ;;;
  ret out.

(** Always zero; the operands are not read. *)
Definition exec_verify_inference (inst : Instruction) (cur_pc : Z) : M ExecOut :=
  finish_reg_guarded (rd inst) cur_pc 0.

Definition commit_recipient (im : Z) : Z :=
  if im <? 0 then wrapping_sub U64 GOLDILOCKS_P (Z.abs im) else u64_of_signed im.

Definition exec_privacy_commit (inst : Instruction) (src1 src2 cur_pc : Z) : M ExecOut :=
  finish_reg_guarded (rd inst) cur_pc (poseidon4_hash3 src1 src2 (commit_recipient (imm inst))).

Definition exec_nullifier_check (inst : Instruction) (src1 src2 cur_pc : Z) : M ExecOut :=
  finish_reg_guarded (rd inst) cur_pc (b2z (poseidon4_hash src2 DOMAIN_NULLIFIER =? src1)).

Definition exec_sum_conservation (inst : Instruction) (src1 src2 cur_pc : Z) : M ExecOut :=
  finish_reg_guarded (rd inst) cur_pc
    (b2z ((src1 <? 0xFFFFFFFF00000001) && (src2 <? 0xFFFFFFFF00000001) && (src1 =? src2))).

(** [match inst.opcode { .. }] *)
Definition exec (inst : Instruction) (src1 src2 cur_pc : Z) : M ExecOut :=
  let finish := finish_reg (rd inst) cur_pc in
  match opcode inst with
  | OpHalt => exec_halt cur_pc
  | OpAdd => finish (field_add_goldilocks src1 src2)
  | OpSub => finish (field_sub_goldilocks src1 src2)
  | OpMul => finish (field_mul_goldilocks src1 src2)
  | OpDiv => finish (div_result src1 src2)
  | OpInv => finish (inv_result src1)
  | OpAnd => finish (Z.land src1 src2)
  | OpNot => finish (b2z (src1 =? 0))
  | OpLoad => exec_load inst src1 cur_pc
  | OpStore => exec_store inst src1 src2 cur_pc
  | OpJmp => exec_jmp inst cur_pc
  | OpJnz => exec_jnz inst src1 cur_pc
  | OpCall => exec_call inst cur_pc
  | OpRet => exec_ret
  | OpPush => exec_push src1 cur_pc
  | OpPop => exec_pop inst cur_pc
  | OpEq => finish (b2z (src1 =? src2))
  | OpNeq => finish (b2z (negb (src1 =? src2)))
  | OpLt => finish (b2z (src1 <? src2))
  | OpGt => finish (b2z (src2 <? src1))
  | OpLte => finish (b2z (src1 <=? src2))
  | OpGte => finish (b2z (src2 <=? src1))
  | OpAssert => exec_assert src1 cur_pc
  | OpSRead => exec_sread inst src2 cur_pc
  | OpSWrite => exec_swrite inst src1 src2 cur_pc
  | OpPoseidon => finish (poseidon4_hash src1 src2)
  | OpLog => exec_log src1 cur_pc
  | OpSyscall => exec_syscall inst src1 cur_pc
  | OpVerifyMerkle => exec_verify_merkle inst src1 src2 cur_pc
  | OpVerifyInference => exec_verify_inference inst cur_pc
  | OpPrivacyCommit => exec_privacy_commit inst src1 src2 cur_pc
  | OpNullifierCheck => exec_nullifier_check inst src1 src2 cur_pc
  | OpSumConservation => exec_sum_conservation inst src1 src2 cur_pc
  end.

(** *** Trace rows *)

(** The row [step] pushes for the executed instruction. *)
Definition main_row (inst : Instruction) (src1 src2 cur_pc : Z) (out : ExecOut) (s : Vm) : Step :=
  {| st_pc := cur_pc; st_next_pc := o_next_pc out; st_instruction := inst;
     src1_idx := rs1 inst; src2_idx := rs2 inst; dst_idx := rd inst;
     src1_val := src1; src2_val := src2; dst_val := o_dst_val out;
     st_registers := registers s;
     memory_addr := o_memory_addr out; memory_val := o_memory_val out;
     is_memory_write := o_is_memory_write out;
     stack_pointer := zlen (stack s);
     merkle_key := None; merkle_current := None; merkle_sibling := None;
     merkle_round := None; merkle_is_expand := false;
     inference_model_commitment := None; inference_input_commitment := None;
     inference_output_commitment := None; inference_proof_round := None;
     inference_is_expand := false |}.

(** Expansion row [i] of a Merkle path. *)
Definition merkle_row (inst : Instruction) (cur_pc path_addr key i input sibling : Z) (s : Vm)
    : Step :=
  {| st_pc := cur_pc; st_next_pc := if i =? 63 then cur_pc + 1 else cur_pc;
     st_instruction := {| opcode := OpVerifyMerkle; rd := 0; rs1 := 0; rs2 := 0;
                          imm := imm inst |};
     src1_idx := 0; src2_idx := 0; dst_idx := 0;
     src1_val := 0; src2_val := 0; dst_val := 0;
     st_registers := registers s;
     memory_addr := Some (path_addr + 8 + i * 8); memory_val := Some sibling;
     is_memory_write := false;
     stack_pointer := zlen (stack s);
     merkle_key := Some key; merkle_current := Some input;
     merkle_sibling := Some sibling; merkle_round := Some i; merkle_is_expand := true;
     inference_model_commitment := None; inference_input_commitment := None;
     inference_output_commitment := None; inference_proof_round := None;
     inference_is_expand := false |}.

(** Expansion row [round] of an inference check. *)
Definition inference_row (inst : Instruction) (src1 src2 cur_pc model_c input_c output_c round : Z)
    (s : Vm) : Step :=
  {| st_pc := cur_pc; st_next_pc := if round =? 7 then cur_pc + 1 else cur_pc;
     st_instruction := {| opcode := OpVerifyInference; rd := 0; rs1 := rs1 inst;
                          rs2 := rs2 inst; imm := round |};
     src1_idx := rs1 inst; src2_idx := rs2 inst; dst_idx := 0;
     src1_val := src1; src2_val := src2; dst_val := 0;
     st_registers := registers s;
     memory_addr := None; memory_val := None; is_memory_write := false;
     stack_pointer := zlen (stack s);
     merkle_key := None; merkle_current := None; merkle_sibling := None;
     merkle_round := None; merkle_is_expand := false;
     inference_model_commitment := Some model_c;
     inference_input_commitment := Some input_c;
     inference_output_commitment := Some output_c;
     inference_proof_round := Some round; inference_is_expand := true |}.

Definition step_set_key (key : Z) (st : Step) : Step :=
  let '(mkStep a b c d e f g h i j k l m n _ p q r t u v w x y) := st in
  mkStep a b c d e f g h i j k l m n (Some key) p q r t u v w x y.

Definition step_set_next_pc (next : Z) (st : Step) : Step :=
  let '(mkStep a _ c d e f g h i j k l m n o p q r t u v w x y) := st in
  mkStep a next c d e f g h i j k l m n o p q r t u v w x y.

Definition step_set_current (cur : Z) (st : Step) : Step :=
  let '(mkStep a b c d e f g h i j k l m n o _ q r t u v w x y) := st in
  mkStep a b c d e f g h i j k l m n o (Some cur) q r t u v w x y.

Definition step_set_commitments (model_c input_c output_c : Z) (st : Step) : Step :=
  let '(mkStep a b c d e f g h i j k l m n o p q r t _ _ _ x y) := st in
  mkStep a b c d e f g h i j k l m n o p q r t (Some model_c) (Some input_c) (Some output_c) x y.

(** [for i in i..i + n]: read the sibling, push the row, fold the hash. *)
Fixpoint expand_merkle_rows (n : nat) (inst : Instruction) (cur_pc path_addr key i current : Z)
    : M Z :=
  match n with
  | O => ret current
  | S n =>
      sibling <- read_word (path_addr + 8 + i * 8) ;;
      s <- gets id ;;
      push_trace (merkle_row inst cur_pc path_addr key i current sibling s) ;;;
      expand_merkle_rows n inst cur_pc path_addr key (i + 1) (merkle_step key i current sibling)
  end.

(** [self.trace[self.trace.len() - 1 - 64].merkle_current = Some(current)] *)
Definition patch_original_current (current : Z) : M unit := fun s =>
  let len := zlen (trace s) in
  let orig_idx := len - 1 - 64 in
  if orig_idx <? 0 then Panicked
  else if orig_idx <? len
  then Returned tt (set_trace (alter (step_set_current current) (Z.to_nat orig_idx) (trace s)) s)
  else Returned tt s.

(** [if matches!(inst.opcode, VerifyMerkle | VerifyInference) { .. }] *)
Definition expand_merkle (inst : Instruction) (src2 cur_pc : Z) : M unit :=
  match opcode inst with
  | OpVerifyMerkle | OpVerifyInference =>
      let path_addr := u64_of_signed (imm inst) in
      s <- gets id ;;
      if window_fits path_addr (8 * 65) (zlen (memory s)) then
        key <- read_word path_addr ;;
        patch_last (step_set_key key) ;;;
        patch_last (step_set_next_pc cur_pc) ;;;
        current <- expand_merkle_rows 64 inst cur_pc path_addr key 0 src2 ;;
        patch_original_current current
      else ret tt
  | _ => ret tt
  end.

(** [for round in round..round + n]. *)
Fixpoint expand_inference_rows (n : nat) (inst : Instruction)
    (src1 src2 cur_pc model_c input_c output_c round : Z) : M unit :=
  match n with
  | O => ret tt
  | S n =>
      s <- gets id ;;
      push_trace (inference_row inst src1 src2 cur_pc model_c input_c output_c round s) ;;;
      expand_inference_rows n inst src1 src2 cur_pc model_c input_c output_c (round + 1)
  end.

(** [if matches!(inst.opcode, VerifyInference) { .. }] *)
Definition expand_inference (inst : Instruction) (src1 src2 cur_pc : Z) : M unit :=
  match opcode inst with
  | OpVerifyInference =>
      let proof_addr := src1 in
      s <- gets id ;;
      if window_fits proof_addr (8 * 4) (zlen (memory s)) then
        model_c <- read_word proof_addr ;;
        input_c <- read_word (proof_addr + 8) ;;
        output_c <- read_word (proof_addr + 16) ;;
        patch_last (fun st => step_set_next_pc cur_pc
                                (step_set_commitments model_c input_c output_c st)) ;;;
        expand_inference_rows 8 inst src1 src2 cur_pc model_c input_c output_c 0
      else ret tt
  | _ => ret tt
  end.

(** [Vm::step] *)
Definition step (program : list Z) : M unit :=
  write_reg 0 0 ;;;
  s <- gets id ;;
  if halted s then ret tt
  else if zlen program <=? pc s then fail InvalidPc
  else
    raw <- or_panic (program !! Z.to_nat (pc s)) ;;
    match decode_instruction raw (mainnet_mode s) with
    | Err e => fail (InvalidOpcodeError e)
    | Ok inst =>
        let cur_pc := pc s in
        consume_gas (gas_cost (opcode inst)) ;;;
        src1 <- read_reg (rs1 inst) ;;
        src2 <- read_reg (rs2 inst) ;;
        out <- exec inst src1 src2 cur_pc ;;
        write_reg 0 0 ;;;
        s' <- gets id ;;
        push_trace (main_row inst src1 src2 cur_pc out s') ;;;
        expand_merkle inst src2 cur_pc ;;;
        expand_inference inst src1 src2 cur_pc
    end.

(** *** Running to completion *)

Inductive run_outcome : Type :=
| RunDone (err : option VmError) (s : Vm)
| RunPanicked
| RunOutOfFuel.

(** [while !self.halted { if let Err(e) = self.step(program) { error = Some(e); break; } }].
    [fuel] bounds the number of iterations; [run_loop_terminates] gives a
    bound that is always enough. *)
Fixpoint run_loop (fuel : nat) (program : list Z) (s : Vm) : run_outcome :=
  if halted s then RunDone None s
  else match fuel with
       | O => RunOutOfFuel
       | S fuel =>
           match step program s with
           | Returned _ s' => run_loop fuel program s'
           | Raised e s' => RunDone (Some e) s'
           | Panicked => RunPanicked
           end
       end.

(** The synthetic terminal row. *)
Definition halt_row (s : Vm) : Step :=
  {| st_pc := pc s; st_next_pc := pc s;
     st_instruction := {| opcode := OpHalt; rd := 0; rs1 := 0; rs2 := 0; imm := 0 |};
     src1_idx := 0; src2_idx := 0; dst_idx := 0; src1_val := 0; src2_val := 0; dst_val := 0;
     st_registers := registers s; memory_addr := None; memory_val := None;
     is_memory_write := false; stack_pointer := zlen (stack s);
     merkle_key := None; merkle_current := None; merkle_sibling := None;
     merkle_round := None; merkle_is_expand := false;
     inference_model_commitment := None; inference_input_commitment := None;
     inference_output_commitment := None; inference_proof_round := None;
     inference_is_expand := false |}.

Definition is_halt_row (st : Step) : bool :=
  match opcode (st_instruction st) with OpHalt => true | _ => false end.

(** Append the terminal row when the program ended on an error. *)
Definition close_trace (err : option VmError) (s : Vm) : Vm :=
  match err with
  | None => s
  | Some _ =>
      let last_is_halt :=
        match last (trace s) with Some st => is_halt_row st | None => false end in
      if last_is_halt then s else set_trace (trace s ++ [halt_row s]) s
  end.

(** One link of the state-write digest chain. *)
Definition digest_step (acc : list Z) (w : Z * Z) : list Z :=
  let '(slot, val) := w in
  poseidon_full_state
    [u64_of_signed slot; val; nth 0 acc 0; nth 1 acc 0; nth 2 acc 0; nth 3 acc 0; 0; 0].

Definition state_writes_digest (writes : list (Z * Z)) : list Z :=
  let acc := fold_left digest_step writes (replicate 8 0) in
  concat (map (fun k => le_encode 8 (nth k acc 0)) [0; 1; 2; 3]%nat).

(** [Vm::run_receipt]: the receipt and the final machine. *)
Definition run_receipt (fuel : nat) (program : list Z) (s : Vm)
    : option (ExecutionReceipt * Vm) :=
  match run_loop fuel program s with
  | RunDone err s =>
      let s := close_trace err s in
      Some ({| r_success := match err with None => true | Some _ => false end;
               r_error := err;
               r_gas_used := gas_used s;
               r_exit_code := match err with None => 0 | Some _ => 1 end;
               r_events := events s;
               r_final_pc := pc s;
               r_trace_len := zlen (trace s);
               r_state_writes_digest := state_writes_digest (state_writes s) |}, s)
  | _ => None
  end.

(** [Vm::run] *)
Definition run (fuel : nat) (program : list Z) (s : Vm)
    : option (result ExecutionReceipt VmError * Vm) :=
  match run_receipt fuel program s with
  | Some (receipt, s) =>
      Some (match r_error receipt with Some e => Err e | None => Ok receipt end, s)
  | None => None
  end.

End Vm.
