(* ===== verification/VmFacts.v ===== *)
(** * Correctness of the BudZero virtual machine

    Facts about the definitions of Vm.v: a weakest-precondition calculus for
    the VM monad, the well-formedness invariant every instruction preserves
    (with absence of panics), the functional description of one step as the
    rows it appends to the trace, gas accounting and termination, the
    program-counter chain of the trace, the replay of storage from the write
    log, and the Merkle opcode. *)

From Stdlib Require Import ZArith Lia.
From stdpp Require Import base tactics strings numbers gmap list.
From S2P Require Import Prelude Isa Goldilocks Vm.
Import Isa Goldilocks Vm.
Open Scope Z_scope.

Module VmFacts.

(** ** Weakest preconditions *)

Definition wp {A} (m : M A) (Q : A -> Vm -> Prop) (E : VmError -> Vm -> Prop) (s : Vm) : Prop :=
  match m s with
  | Returned a s' => Q a s'
  | Raised e s' => E e s'
  | Panicked => False
  end.

Section wp_rules.
Context {A B : Type}.
Implicit Types (Q : A -> Vm -> Prop) (E : VmError -> Vm -> Prop).

Lemma wp_bind (m : M A) (k : A -> M B) (Q : B -> Vm -> Prop) E s :
  wp m (fun a s' => wp (k a) Q E s') E s -> wp (bind m k) Q E s.
Proof. unfold wp, bind. by destruct (m s). Qed.

Lemma wp_mono (m : M A) Q Q' E E' s :
  wp m Q E s -> (forall a s', Q a s' -> Q' a s') -> (forall e s', E e s' -> E' e s') ->
  wp m Q' E' s.
Proof. unfold wp. destruct (m s); eauto. Qed.

Lemma wp_ret (a : A) Q E s : Q a s -> wp (ret a) Q E s.
Proof. done. Qed.

Lemma wp_gets (f : Vm -> A) Q E s : Q (f s) s -> wp (gets f) Q E s.
Proof. done. Qed.

Lemma wp_fail e Q E s :
  E e (set_error (Some e) (set_halted true s)) -> wp (fail e) Q E s.
Proof. done. Qed.

Lemma wp_or_panic (o : option A) a Q E s : o = Some a -> Q a s -> wp (or_panic o) Q E s.
Proof. unfold wp, or_panic. by intros ->. Qed.
End wp_rules.

Lemma wp_modify f (Q : unit -> Vm -> Prop) E s : Q tt (f s) -> wp (modify f) Q E s.
Proof. done. Qed.

(** ** Well-formed machines *)

Definition u64 (x : Z) : Prop := x ∈u U64.

Record vm_wf (s : Vm) : Prop := {
  wf_regs_len : length (registers s) = 32%nat;
  wf_regs : Forall u64 (registers s);
  wf_pc : u64 (pc s);
  wf_stack : Forall u64 (stack s);
  wf_stack_len : zlen (stack s) <= 1024;
  wf_mem : Forall byte (memory s);
  wf_mem_len : zlen (memory s) < 9223372036854775808;
  wf_storage : map_Forall (fun k v => is_i32 k /\ u64 v) (storage s);
  wf_events : Forall u64 (events s);
  wf_sender : u64 (sender (context s));
  wf_nonce : u64 (nonce (context s));
  wf_height : u64 (block_height (context s));
  wf_gas : u64 (gas_used s);
  wf_limit : u64 (gas_limit s);
  wf_writes : Forall (fun w => is_i32 w.1 /\ u64 w.2) (state_writes s);
}.

(** A program is a slice of 64-bit words; a slice holds at most [isize::MAX]
    bytes, so fewer than 2^60 words. *)
Definition program_wf (program : list Z) : Prop :=
  Forall u64 program /\ zlen program < 1152921504606846976.

(** Assignments that keep the machine well formed. *)
Section preservation.
Variable s : Vm.
Hypothesis H : vm_wf s.

Lemma wf_set_register regs i v :
  regs = registers s -> u64 v -> vm_wf (set_registers (<[i := v]> regs) s).
Proof.
  destruct H; intros -> ?; split; simpl; rewrite ?length_insert; auto.
  by apply Forall_insert.
Qed.

Lemma wf_set_pc v : u64 v -> vm_wf (set_pc v s).
Proof. destruct H; by split. Qed.

Lemma wf_set_halted b : vm_wf (set_halted b s).
Proof. destruct H; by split. Qed.

Lemma wf_set_error e : vm_wf (set_error e s).
Proof. destruct H; by split. Qed.

Lemma wf_set_trace t : vm_wf (set_trace t s).
Proof. destruct H; by split. Qed.

Lemma wf_set_gas_used g : u64 g -> vm_wf (set_gas_used g s).
Proof. destruct H; by split. Qed.

Lemma wf_push_stack st v :
  st = stack s -> u64 v -> zlen st < 1024 -> vm_wf (set_stack (v :: st) s).
Proof.
  destruct H; intros -> ? ?; split; simpl; auto.
  unfold zlen in *; simpl; lia.
Qed.

Lemma wf_pop_stack v rest : stack s = v :: rest -> u64 v /\ vm_wf (set_stack rest s).
Proof.
  destruct H as [??? Hs Hl]; intros E; rewrite E in *. inversion Hs; subst.
  split; [done|]. split; simpl; auto. unfold zlen in *; simpl in *; lia.
Qed.

Lemma wf_set_memory mem :
  length mem = length (memory s) -> Forall byte mem -> vm_wf (set_memory mem s).
Proof. destruct H; intros Hl ?; split; simpl; auto. unfold zlen in *. by rewrite Hl. Qed.

Lemma wf_set_storage sto slot v :
  sto = storage s -> is_i32 slot -> u64 v -> vm_wf (set_storage (<[slot := v]> sto) s).
Proof. destruct H; intros -> ? ?; split; simpl; auto. by apply map_Forall_insert_2. Qed.

Lemma wf_push_write ws slot v :
  ws = state_writes s -> is_i32 slot -> u64 v -> vm_wf (set_state_writes (ws ++ [(slot, v)]) s).
Proof. destruct H; intros -> ? ?; split; simpl; auto. apply Forall_app; auto. Qed.

Lemma wf_push_event evs v : evs = events s -> u64 v -> vm_wf (set_events (evs ++ [v]) s).
Proof. destruct H; intros -> ?; split; simpl; auto. apply Forall_app; auto. Qed.
End preservation.

Create HintDb vm_wf discriminated.
#[export] Hint Extern 0 (_ = _) => reflexivity : vm_wf.
#[export] Hint Extern 0 (_ < _) => lia : vm_wf.
#[export] Hint Resolve wf_set_register wf_set_pc wf_set_halted wf_set_error wf_set_trace
  wf_set_gas_used wf_push_stack wf_set_memory wf_set_storage wf_push_write wf_push_event
  : vm_wf.
#[export] Hint Resolve wf_limit wf_pc wf_gas wf_sender wf_nonce wf_height : vm_wf.

(** ** Values *)

Lemma u64_canonical x : canonical x -> u64 x.
Proof. apply canonical_u64. Qed.

Lemma u64_0 : u64 0.
Proof. by vm_compute. Qed.

Lemma u64_b2z b : u64 (b2z b).
Proof. unfold u64. destruct b; simpl; lia. Qed.

Lemma u64_signed x : u64 (u64_of_signed x).
Proof. apply u64_of_signed_range. Qed.

Lemma u64_land x y : u64 x -> u64 y -> u64 (Z.land x y).
Proof.
  unfold u64. intros. split; [apply Z.land_nonneg; lia|].
  destruct (decide (Z.land x y = 0)) as [->|]; [lia|].
  change U64 with (2 ^ 64). apply Z.log2_lt_pow2; [pose proof (proj2 (Z.land_nonneg x y)); lia|].
  apply Z.le_lt_trans with (Z.min (Z.log2 x) (Z.log2 y)); [apply Z.log2_land; lia|].
  apply Z.le_lt_trans with (Z.log2 x); [lia|].
  destruct (decide (x = 0)) as [->|]; [simpl; lia|]. apply Z.log2_lt_pow2; lia.
Qed.

Lemma u64_saturating_add x y : u64 x -> u64 y -> u64 (saturating_add U64 x y).
Proof. unfold u64, saturating_add. lia. Qed.

Lemma u64_inverse x : u64 (field_inverse_goldilocks x).
Proof.
  apply u64_canonical. unfold field_inverse_goldilocks.
  destruct (x =? 0); [by vm_compute|]. by apply pow_loop_range.
Qed.

Lemma u64_div_result x y : u64 (div_result x y).
Proof.
  unfold div_result. case_match; [|by vm_compute].
  apply u64_canonical, mod_canonical.
Qed.

Lemma u64_inv_result x : u64 (inv_result x).
Proof. unfold inv_result. case_match; [apply u64_inverse|by vm_compute]. Qed.

Lemma u64_storage s k : vm_wf s -> u64 (default 0 (storage s !! k)).
Proof.
  intros H. destruct (storage s !! k) eqn:E; simpl; [|by vm_compute].
  by apply (wf_storage s H) in E as [_ ?].
Qed.

Lemma storage_slot_i32 inst src2 : instruction_wf inst -> is_i32 (storage_slot inst src2).
Proof.
  intros (_ & _ & _ & ?). unfold storage_slot. case_match; [apply i32_of_u64_range|done].
Qed.

Lemma u64_mod x : u64 (x mod GOLDILOCKS_P).
Proof. apply u64_canonical, mod_canonical. Qed.

Lemma u64_hash s : u64 (poseidon4_hash_state s).
Proof. apply u64_canonical, poseidon4_hash_state_canonical. Qed.

Lemma u64_field_add a b : u64 (field_add_goldilocks a b).
Proof. apply u64_mod. Qed.
Lemma u64_field_sub a b : u64 (field_sub_goldilocks a b).
Proof. apply u64_mod. Qed.
Lemma u64_field_mul a b : u64 (field_mul_goldilocks a b).
Proof. apply u64_mod. Qed.
Lemma u64_poseidon a b : u64 (poseidon4_hash a b).
Proof. apply u64_hash. Qed.
Lemma u64_poseidon3 a b c : u64 (poseidon4_hash3 a b c).
Proof. apply u64_hash. Qed.

Create HintDb vm_val discriminated.
#[export] Hint Constants Opaque : vm_val.
#[export] Hint Resolve u64_0 : vm_wf.
#[export] Hint Resolve u64_0 u64_canonical u64_b2z u64_signed u64_land u64_saturating_add u64_inverse
  u64_div_result u64_inv_result u64_storage storage_slot_i32
  u64_field_add u64_field_sub u64_field_mul u64_poseidon u64_poseidon3 : vm_val.

(** ** One instruction

    [exec_ok] is what every successful arm of the [match] guarantees; on
    failure an arm changes nothing but [halted] and [error]. *)

(** Storage is the write log replayed over the initial storage. *)
Definition replay (ws : list (Z * Z)) (m : gmap Z Z) : gmap Z Z :=
  fold_left (fun m w => <[w.1 := w.2]> m) ws m.

Record exec_ok (op : Opcode) (s : Vm) (out : ExecOut) (s' : Vm) : Prop := {
  ok_wf : vm_wf s';
  ok_pc : pc s' = o_next_pc out;
  ok_dst : u64 (o_dst_val out);
  ok_trace : trace s' = trace s;
  ok_gas : gas_used s' = gas_used s;
  ok_limit : gas_limit s' = gas_limit s;
  ok_mode : mainnet_mode s' = mainnet_mode s;
  ok_context : context s' = context s;
  ok_error : error s' = error s;
  ok_halted : halted s' = bool_decide (op = OpHalt);
  ok_mem_len : length (memory s') = length (memory s);
  ok_mem : op <> OpStore -> memory s' = memory s;
  ok_writes : exists ws, state_writes s' = state_writes s ++ ws /\
                storage s' = replay ws (storage s);
}.

Definition failed_from (s : Vm) (e : VmError) (s' : Vm) : Prop :=
  s' = set_error (Some e) (set_halted true s).

(** The state an instruction starts from. *)
Record exec_pre (inst : Instruction) (cur_pc : Z) (s : Vm) : Prop := {
  pre_wf : vm_wf s;
  pre_inst : instruction_wf inst;
  pre_pc : pc s = cur_pc;
  pre_next : u64 (cur_pc + 1);
  pre_running : halted s = false;
}.

(** Close [exec_ok] for a state built by assignments: well-formedness from the
    hint database, the frame by computation. *)
Ltac exec_frame :=
  split; simpl; auto 10 with vm_wf;
  try first
    [ match goal with H : halted _ = false |- _ =>
        rewrite ?H; by rewrite bool_decide_eq_false_2 end
    | exists []; by rewrite app_nil_r ].

Lemma wp_write_reg i v (Q : unit -> Vm -> Prop) E s :
  length (registers s) = 32%nat -> i ∈u 32 ->
  Q tt (set_registers (<[Z.to_nat i := v]> (registers s)) s) -> wp (write_reg i v) Q E s.
Proof.
  intros Hl Hi HQ. unfold wp, write_reg.
  destruct (Z.ltb_spec i (zlen (registers s))); [done|]. unfold zlen in *. lia.
Qed.

Lemma wp_read_reg i (Q : Z -> Vm -> Prop) E s :
  vm_wf s -> i ∈u 32 -> (forall v, u64 v -> Q v s) -> wp (read_reg i) Q E s.
Proof.
  intros H Hi HQ. destruct (lookup_lt_is_Some_2 (registers s) (Z.to_nat i)) as [v Hv].
  { rewrite (wf_regs_len s H). lia. }
  unfold wp, read_reg, or_panic. rewrite Hv. apply HQ.
  by apply (Forall_lookup_1 _ _ _ _ (wf_regs s H) Hv).
Qed.

Lemma finish_reg_ok inst cur_pc v s op :
  exec_pre inst cur_pc s -> u64 v -> op <> OpHalt ->
  wp (finish_reg (rd inst) cur_pc v) (exec_ok op s) (failed_from s) s.
Proof.
  intros Hpre Hv Hop. pose proof Hpre as [Hwf (Hrd & _) <- Hnext Hrun].
  apply wp_bind, wp_write_reg; [apply Hwf|done|].
  apply wp_bind, wp_modify, wp_ret.
  exec_frame.
Qed.

Lemma finish_reg_guarded_ok inst cur_pc v s op :
  exec_pre inst cur_pc s -> u64 v -> op <> OpHalt ->
  wp (finish_reg_guarded (rd inst) cur_pc v) (exec_ok op s) (failed_from s) s.
Proof.
  intros Hpre Hv Hop. unfold finish_reg_guarded.
  destruct (0 <? rd inst).
  { by apply finish_reg_ok. }
  destruct Hpre as [Hwf _ <- Hnext Hrun].
  apply wp_bind, wp_ret, wp_bind, wp_modify, wp_ret.
  exec_frame.
Qed.

(** Memory words. *)
Lemma memory_word_addr_Some base im len addr :
  memory_word_addr base im len = Some addr ->
  addr = base + im /\ 0 <= addr /\ addr + 8 <= len.
Proof.
  unfold memory_word_addr, checked_add. intros.
  repeat case_match; simplify_eq; lia.
Qed.

Lemma word_at_Some mem addr :
  Forall byte mem -> 0 <= addr -> addr + 8 <= zlen mem ->
  exists v, word_at mem addr = Some v /\ u64 v.
Proof.
  intros Hm ??. destruct (slice_is_Some mem addr (addr + 8)) as [bs Hbs]; [lia|lia|].
  exists (le_decode bs). unfold word_at. rewrite Hbs. split; [done|].
  pose proof (le_decode_bound bs (slice_Forall _ _ _ _ _ Hbs Hm)) as Hb.
  rewrite (slice_length _ _ _ _ Hbs) in Hb.
  replace (addr + 8 - addr) with 8 in Hb by lia. exact Hb.
Qed.

Lemma wp_read_word addr (Q : Z -> Vm -> Prop) E s :
  vm_wf s -> 0 <= addr -> addr + 8 <= zlen (memory s) ->
  (forall v, word_at (memory s) addr = Some v -> u64 v -> Q v s) -> wp (read_word addr) Q E s.
Proof.
  intros H ?? HQ. destruct (word_at_Some (memory s) addr) as (v & Hv & Hu); [apply H|done|done|].
  apply wp_bind, wp_gets. simpl. apply wp_or_panic with v; auto.
Qed.

Lemma window_fits_true addr len mlen :
  window_fits addr len mlen = true -> addr + len <= mlen.
Proof. unfold window_fits, checked_add. repeat case_match; simplify_eq; lia. Qed.

(** ** The Merkle path

    [merkle_fold] is the path hash as a function of memory; the walk of
    [exec_verify_merkle] and the expansion rows both compute it. *)
Fixpoint merkle_fold (n : nat) (mem : list Z) (path_addr key i current : Z) : Z :=
  match n with
  | O => current
  | S n =>
      merkle_fold n mem path_addr key (i + 1)
        (merkle_step key i current (default 0 (word_at mem (path_addr + 8 + i * 8))))
  end.

Lemma merkle_walk_fold n path_addr key i current s :
  vm_wf s -> 0 <= path_addr -> 0 <= i ->
  path_addr + 8 + (i + Z.of_nat n) * 8 <= zlen (memory s) ->
  merkle_walk n path_addr key i current s
  = Returned (merkle_fold n (memory s) path_addr key i current) s.
Proof.
  intros Hwf Hp. revert i current. induction n as [|n IH]; intros i current Hi Hlen; [done|].
  destruct (word_at_Some (memory s) (path_addr + 8 + i * 8)) as (v & Hv & _);
    [apply Hwf|lia|lia|].
  cbn [merkle_walk merkle_fold]. unfold read_word, bind at 1 2, gets, or_panic, id.
  rewrite Hv. simpl. rewrite IH by lia. done.
Qed.

Lemma wp_pop_stack (Q : Z -> Vm -> Prop) E s :
  vm_wf s ->
  E StackUnderflow (set_error (Some StackUnderflow) (set_halted true s)) ->
  (forall v rest, stack s = v :: rest -> u64 v -> vm_wf (set_stack rest s) ->
     Q v (set_stack rest s)) ->
  wp pop_stack Q E s.
Proof.
  intros Hwf HE HQ. unfold wp, pop_stack. destruct (stack s) as [|v rest] eqn:Hst; [done|].
  destruct (wf_pop_stack s Hwf v rest Hst); auto.
Qed.

Section arms.
Variables (inst : Instruction) (cur_pc src1 src2 : Z) (s : Vm).
Hypothesis Hpre : exec_pre inst cur_pc s.
Hypothesis Hsrc1 : u64 src1.
Hypothesis Hsrc2 : u64 src2.

Lemma exec_load_ok :
  wp (exec_load inst src1 cur_pc) (exec_ok OpLoad s) (failed_from s) s.
Proof.
  unfold exec_load. pose proof Hpre as [Hwf (Hrd & _) <- Hnext Hrun].
  case_match; [apply (finish_reg_ok inst (pc s)); auto with vm_val|].
  apply wp_bind, wp_gets; unfold id. case_match eqn:Haddr; [|by apply wp_fail].
  apply memory_word_addr_Some in Haddr as (_ & ? & ?).
  apply wp_bind, wp_read_word; [done|done|done|]; intros v _ Hv.
  apply wp_bind, wp_write_reg; [apply Hwf|done|].
  apply wp_bind, wp_modify, wp_ret. exec_frame.
Qed.

Lemma exec_store_ok :
  wp (exec_store inst src1 src2 cur_pc) (exec_ok OpStore s) (failed_from s) s.
Proof.
  unfold exec_store. pose proof Hpre as [Hwf _ <- Hnext Hrun].
  apply wp_bind, wp_gets; unfold id. case_match eqn:Haddr; [|by apply wp_fail].
  apply memory_word_addr_Some in Haddr as (_ & ? & ?).
  apply wp_bind, wp_bind, wp_gets; unfold id.
  destruct (splice_is_Some (memory s) z (le_encode 8 src2)) as [mem Hsp];
    [done|by rewrite zlen_le_encode|].
  apply wp_bind, wp_or_panic with mem; [done|].
  apply wp_modify, wp_bind, wp_modify, wp_ret.
  pose proof (splice_length _ _ _ _ Hsp).
  pose proof (splice_Forall byte _ _ _ _ Hsp (wf_mem s Hwf) (le_encode_bytes 8 src2)).
  exec_frame. by intros [].
Qed.

Lemma jump_u64 c im : u64 (jump_target c im).
Proof. apply u64_signed. Qed.

Lemma exec_jump_ok op target :
  u64 target -> op <> OpHalt ->
  wp (modify (set_pc target) ;;; ret (plain 0 target)) (exec_ok op s) (failed_from s) s.
Proof.
  intros. pose proof Hpre as [Hwf _ <- Hnext Hrun].
  apply wp_bind, wp_modify, wp_ret. exec_frame.
Qed.

Lemma exec_call_ok : wp (exec_call inst cur_pc) (exec_ok OpCall s) (failed_from s) s.
Proof.
  unfold exec_call. pose proof Hpre as [Hwf _ <- Hnext Hrun].
  apply wp_bind, wp_gets; unfold id. case_match; [by apply wp_fail|].
  apply wp_bind, wp_modify, wp_bind, wp_modify, wp_ret.
  pose proof (jump_u64 (pc s) (imm inst)). exec_frame.
Qed.

Lemma exec_push_ok : wp (exec_push src1 cur_pc) (exec_ok OpPush s) (failed_from s) s.
Proof.
  unfold exec_push. pose proof Hpre as [Hwf _ <- Hnext Hrun].
  apply wp_bind, wp_gets; unfold id. case_match; [by apply wp_fail|].
  apply wp_bind, wp_modify, wp_bind, wp_modify, wp_ret. exec_frame.
Qed.

Lemma exec_ret_ok : wp exec_ret (exec_ok OpRet s) (failed_from s) s.
Proof.
  unfold exec_ret. pose proof Hpre as [Hwf _ <- Hnext Hrun].
  apply wp_bind, wp_pop_stack; [done|done|]; intros v rest Hst Hv Hwf'.
  apply wp_bind, wp_modify, wp_ret. exec_frame.
Qed.

Lemma exec_pop_ok : wp (exec_pop inst cur_pc) (exec_ok OpPop s) (failed_from s) s.
Proof.
  unfold exec_pop. pose proof Hpre as [Hwf (Hrd & _) <- Hnext Hrun].
  apply wp_bind, wp_pop_stack; [done|done|]; intros v rest Hst Hv Hwf'.
  apply wp_bind, wp_write_reg; [apply Hwf'|done|].
  apply wp_bind, wp_modify, wp_ret. exec_frame.
Qed.

Lemma exec_assert_ok : wp (exec_assert src1 cur_pc) (exec_ok OpAssert s) (failed_from s) s.
Proof.
  unfold exec_assert. pose proof Hpre as [Hwf _ <- Hnext Hrun].
  case_match; [by apply wp_fail|]. apply wp_bind, wp_modify, wp_ret. exec_frame.
Qed.

Lemma exec_swrite_ok :
  wp (exec_swrite inst src1 src2 cur_pc) (exec_ok OpSWrite s) (failed_from s) s.
Proof.
  unfold exec_swrite. pose proof Hpre as [Hwf Hi <- Hnext Hrun].
  pose proof (storage_slot_i32 inst src2 Hi).
  do 3 (apply wp_bind, wp_modify). apply wp_ret. exec_frame.
  by exists [(storage_slot inst src2, src1)].
Qed.

Lemma exec_log_ok : wp (exec_log src1 cur_pc) (exec_ok OpLog s) (failed_from s) s.
Proof.
  unfold exec_log. pose proof Hpre as [Hwf _ <- Hnext Hrun].
  apply wp_bind, wp_modify, wp_bind, wp_modify, wp_ret. exec_frame.
Qed.

Lemma exec_syscall_ok :
  wp (exec_syscall inst src1 cur_pc) (exec_ok OpSyscall s) (failed_from s) s.
Proof.
  unfold exec_syscall, syscall_result. pose proof Hpre as [Hwf (Hrd & Hr) <- Hnext Hrun].
  assert (Hplain : forall v, u64 v ->
    wp (v0 <- ret v ;; finish_reg (rd inst) (pc s) v0) (exec_ok OpSyscall s) (failed_from s) s).
  { intros v Hv. apply wp_bind, wp_ret. by apply finish_reg_ok. }
  destruct Hwf as []. apply wp_bind, wp_bind, wp_gets; unfold id.
  repeat case_match; try (apply (Hplain _); first [done | by vm_compute]).
  apply wp_bind, wp_modify, wp_bind, wp_modify, wp_ret.
  destruct Hpre as [Hwf' _ _ _ _].
  apply wp_bind, wp_write_reg; [done|done|]. apply wp_bind, wp_modify, wp_ret.
  pose proof (u64_saturating_add (block_height (context s)) src1 ltac:(done) Hsrc1).
  assert (u64 0x00A100A1) by (by vm_compute). exec_frame.
Qed.

Lemma exec_verify_merkle_ok :
  wp (exec_verify_merkle inst src1 src2 cur_pc) (exec_ok OpVerifyMerkle s) (failed_from s) s.
Proof.
  unfold exec_verify_merkle. pose proof Hpre as [Hwf (Hrd & _) <- Hnext Hrun].
  apply wp_bind, wp_gets; unfold id. apply wp_bind.
  assert (Hfin : forall out, o_next_pc out = pc s + 1 -> u64 (o_dst_val out) ->
    wp (write_reg (rd inst) (o_dst_val out) ;;; advance_pc ;;; ret out)
       (exec_ok OpVerifyMerkle s) (failed_from s) s).
  { intros out Hn Hd. apply wp_bind, wp_write_reg; [apply Hwf|done|].
    apply wp_bind, wp_modify, wp_ret. exec_frame. }
  case_match eqn:Hfit; [|apply wp_ret, Hfin; [done|by vm_compute]].
  apply window_fits_true in Hfit. pose proof (u64_of_signed_range (imm inst)).
  apply wp_bind, wp_read_word; [done|lia|lia|]; intros key _ Hkey.
  apply wp_bind. unfold wp at 1.
  rewrite merkle_walk_fold by (done || lia). apply wp_ret, Hfin; [done|]. apply u64_b2z.
Qed.

(** Every instruction either succeeds with the frame of [exec_ok] or fails
    leaving the machine as it was, and never panics. *)
Lemma exec_spec :
  wp (exec inst src1 src2 cur_pc) (exec_ok (opcode inst) s) (failed_from s) s.
Proof.
  unfold exec. destruct (opcode inst) eqn:Hop;
    try unfold exec_verify_inference, exec_privacy_commit, exec_nullifier_check,
      exec_sum_conservation;
    try lazymatch goal with
    | |- wp (finish_reg _ _ _) _ _ _ => apply finish_reg_ok; [done|auto with vm_val|done]
    | |- wp (finish_reg_guarded _ _ _) _ _ _ =>
        apply finish_reg_guarded_ok; [done|auto with vm_val|done]
    end.
  - pose proof Hpre as [Hwf _ <- Hnext Hrun].
    apply wp_bind, wp_modify, wp_ret. exec_frame.
  - apply exec_jump_ok; [apply jump_u64|done].
  - apply exec_jump_ok; [|done]. case_match; [apply jump_u64|apply Hpre].
  - apply exec_call_ok.
  - apply exec_ret_ok.
  - apply exec_load_ok.
  - apply exec_store_ok.
  - apply exec_push_ok.
  - apply exec_pop_ok.
  - apply exec_assert_ok.
  - apply exec_log_ok.
  - apply wp_bind, wp_gets. apply finish_reg_ok; [done| |done].
    apply u64_storage, Hpre.
  - apply exec_swrite_ok.
  - apply exec_syscall_ok.
  - apply exec_verify_merkle_ok.
Qed.
End arms.

(** ** The rows of one step

    [step_rows] is what a completed step appends to the trace, as a function
    of the executed instruction and of the machine after it. *)
Fixpoint merkle_rows (n : nat) (inst : Instruction) (cur_pc path_addr key i current : Z) (s : Vm)
    : list Step :=
  match n with
  | O => []
  | S n =>
      let sibling := default 0 (word_at (memory s) (path_addr + 8 + i * 8)) in
      merkle_row inst cur_pc path_addr key i current sibling s ::
      merkle_rows n inst cur_pc path_addr key (i + 1) (merkle_step key i current sibling) s
  end.

Definition merkle_opcode (op : Opcode) : bool :=
  match op with OpVerifyMerkle | OpVerifyInference => true | _ => false end.

Definition merkle_expansion (inst : Instruction) (src2 cur_pc : Z) (s : Vm) (row : Step)
    : list Step :=
  let path_addr := u64_of_signed (imm inst) in
  if merkle_opcode (opcode inst) && window_fits path_addr 520 (zlen (memory s)) then
    let key := default 0 (word_at (memory s) path_addr) in
    step_set_current (merkle_fold 64 (memory s) path_addr key 0 src2)
      (step_set_next_pc cur_pc (step_set_key key row)) ::
    merkle_rows 64 inst cur_pc path_addr key 0 src2 s
  else [row].

Fixpoint inference_rows (n : nat) (inst : Instruction)
    (src1 src2 cur_pc model_c input_c output_c round : Z) (s : Vm) : list Step :=
  match n with
  | O => []
  | S n =>
      inference_row inst src1 src2 cur_pc model_c input_c output_c round s ::
      inference_rows n inst src1 src2 cur_pc model_c input_c output_c (round + 1) s
  end.

Definition inference_expansion (inst : Instruction) (src1 src2 cur_pc : Z) (s : Vm)
    (rows : list Step) : list Step :=
  if bool_decide (opcode inst = OpVerifyInference) && window_fits src1 32 (zlen (memory s)) then
    let model_c := default 0 (word_at (memory s) src1) in
    let input_c := default 0 (word_at (memory s) (src1 + 8)) in
    let output_c := default 0 (word_at (memory s) (src1 + 16)) in
    alter (fun st => step_set_next_pc cur_pc (step_set_commitments model_c input_c output_c st))
      (pred (length rows)) rows
    ++ inference_rows 8 inst src1 src2 cur_pc model_c input_c output_c 0 s
  else rows.

Definition step_rows (inst : Instruction) (src1 src2 cur_pc : Z) (out : ExecOut) (s : Vm)
    : list Step :=
  inference_expansion inst src1 src2 cur_pc s
    (merkle_expansion inst src2 cur_pc s (main_row inst src1 src2 cur_pc out s)).

Lemma alter_last_app {A} (f : A -> A) (l k : list A) :
  k <> [] -> alter f (pred (length (l ++ k))) (l ++ k) = l ++ alter f (pred (length k)) k.
Proof.
  intros Hk. rewrite length_app.
  replace (pred (length l + length k)) with (length l + pred (length k))%nat.
  - apply alter_app_r.
  - destruct k; [done|]. simpl. lia.
Qed.

Lemma read_word_eq s addr :
  vm_wf s -> 0 <= addr -> addr + 8 <= zlen (memory s) ->
  read_word addr s = Returned (default 0 (word_at (memory s) addr)) s.
Proof.
  intros Hwf ??. destruct (word_at_Some (memory s) addr) as (v & Hv & _); [apply Hwf|done|done|].
  unfold read_word, bind, gets, or_panic, id. by rewrite Hv.
Qed.

Lemma merkle_rows_set_trace n inst cur_pc path_addr key i current t s :
  merkle_rows n inst cur_pc path_addr key i current (set_trace t s)
  = merkle_rows n inst cur_pc path_addr key i current s.
Proof. revert i current. induction n; intros; cbn [merkle_rows]; [done|]. f_equal; auto. Qed.

Lemma expand_merkle_rows_eq n inst cur_pc path_addr key i current s :
  vm_wf s -> 0 <= path_addr -> 0 <= i ->
  path_addr + 8 + (i + Z.of_nat n) * 8 <= zlen (memory s) ->
  expand_merkle_rows n inst cur_pc path_addr key i current s
  = Returned (merkle_fold n (memory s) path_addr key i current)
      (set_trace (trace s ++ merkle_rows n inst cur_pc path_addr key i current s) s).
Proof.
  intros Hwf Hp. revert s i current Hwf.
  induction n as [|n IH]; intros s i current Hwf Hi Hlen; cbn [expand_merkle_rows].
  - simpl. rewrite app_nil_r. by destruct s.
  - unfold bind at 1. rewrite read_word_eq by (done || lia).
    unfold bind, gets, push_trace, modify, id.
    rewrite IH; [|by apply wf_set_trace|lia|simpl; lia].
    rewrite merkle_rows_set_trace. simpl. by rewrite <- app_assoc.
Qed.

Lemma length_merkle_rows n inst cur_pc path_addr key i current s :
  length (merkle_rows n inst cur_pc path_addr key i current s) = n.
Proof. revert i current. induction n; intros; simpl; auto. Qed.

Lemma patch_original_current_eq cur t row rows s :
  length rows = 64%nat -> trace s = t ++ row :: rows ->
  patch_original_current cur s = Returned tt (set_trace (t ++ step_set_current cur row :: rows) s).
Proof.
  intros Hl Ht. unfold patch_original_current. rewrite Ht. unfold zlen.
  rewrite length_app. cbn [length]. rewrite Hl.
  destruct (Z.ltb_spec (Z.of_nat (length t + 65) - 1 - 64) 0); [lia|].
  destruct (Z.ltb_spec (Z.of_nat (length t + 65) - 1 - 64) (Z.of_nat (length t + 65))); [|lia].
  replace (Z.to_nat _) with (length t + 0)%nat by lia.
  by rewrite alter_app_r.
Qed.

Lemma patch_last_eq f t row s :
  patch_last f (set_trace (t ++ [row]) s) = Returned tt (set_trace (t ++ [f row]) s).
Proof.
  unfold patch_last, modify. cbn [trace set_trace].
  by rewrite alter_last_app.
Qed.

Lemma expand_merkle_eq inst src2 cur_pc t row s :
  vm_wf s ->
  expand_merkle inst src2 cur_pc (set_trace (t ++ [row]) s)
  = Returned tt (set_trace (t ++ merkle_expansion inst src2 cur_pc s row) s).
Proof.
  intros Hwf. unfold expand_merkle, merkle_expansion.
  destruct (merkle_opcode (opcode inst)) eqn:Hop; [|by destruct (opcode inst)].
  transitivity (
    (if window_fits (u64_of_signed (imm inst)) (8 * 65) (zlen (memory s)) then
      key <- read_word (u64_of_signed (imm inst)) ;;
      patch_last (step_set_key key) ;;;
      patch_last (step_set_next_pc cur_pc) ;;;
      current <- expand_merkle_rows 64 inst cur_pc (u64_of_signed (imm inst)) key 0 src2 ;;
      patch_original_current current
    else ret tt) (set_trace (t ++ [row]) s)); [by destruct (opcode inst)|].
  change (8 * 65) with 520. destruct (window_fits _ _ _) eqn:Hfit; [|done].
  apply window_fits_true in Hfit. pose proof (u64_of_signed_range (imm inst)).
  set (path := u64_of_signed (imm inst)) in *.
  unfold bind at 1. rewrite read_word_eq by (first [by apply wf_set_trace|simpl; lia]).
  cbn [memory set_trace]. set (key := default 0 (word_at (memory s) path)).
  unfold bind at 1. rewrite patch_last_eq. unfold bind at 1. rewrite patch_last_eq.
  unfold bind at 1.
  rewrite expand_merkle_rows_eq by (first [by apply wf_set_trace|simpl; lia]).
  rewrite merkle_rows_set_trace.
  erewrite (patch_original_current_eq _ t);
    [|apply (length_merkle_rows 64)|cbn [trace set_trace]; by rewrite <- app_assoc].
  done.
Qed.

Lemma inference_rows_set_trace n inst src1 src2 cur_pc mc ic oc round t s :
  inference_rows n inst src1 src2 cur_pc mc ic oc round (set_trace t s)
  = inference_rows n inst src1 src2 cur_pc mc ic oc round s.
Proof. revert round. induction n; intros; cbn [inference_rows]; [done|]. f_equal; auto. Qed.

Lemma expand_inference_rows_eq n inst src1 src2 cur_pc mc ic oc round s :
  expand_inference_rows n inst src1 src2 cur_pc mc ic oc round s
  = Returned tt (set_trace (trace s ++ inference_rows n inst src1 src2 cur_pc mc ic oc round s) s).
Proof.
  revert round s. induction n as [|n IH]; intros round s; cbn [expand_inference_rows].
  - simpl. rewrite app_nil_r. by destruct s.
  - unfold bind, gets, push_trace, modify, id. rewrite IH, inference_rows_set_trace. simpl.
    by rewrite <- app_assoc.
Qed.

Lemma expand_inference_eq inst src1 src2 cur_pc t rows s :
  vm_wf s -> u64 src1 -> rows <> [] ->
  expand_inference inst src1 src2 cur_pc (set_trace (t ++ rows) s)
  = Returned tt (set_trace (t ++ inference_expansion inst src1 src2 cur_pc s rows) s).
Proof.
  intros Hwf Hs1 Hrows. unfold expand_inference, inference_expansion.
  destruct (decide (opcode inst = OpVerifyInference)) as [Hop|Hop].
  2:{ rewrite bool_decide_eq_false_2 by done. by destruct (opcode inst). }
  rewrite Hop, bool_decide_eq_true_2 by done. rewrite andb_true_l.
  unfold bind at 1, gets, id. cbn [memory set_trace]. change (8 * 4) with 32.
  destruct (window_fits _ _ _) eqn:Hfit; [|done].
  apply window_fits_true in Hfit. destruct Hs1.
  do 3 (unfold bind at 1; rewrite read_word_eq by (first [by apply wf_set_trace|simpl; lia])).
  unfold bind, patch_last, modify. rewrite expand_inference_rows_eq. cbn [trace set_trace memory].
  rewrite alter_last_app by done. rewrite <- app_assoc. done.
Qed.

(** ** One step *)

(** [self.registers[0] = 0] *)
Definition zero_r0 (s : Vm) : Vm := set_registers (<[0%nat := 0]> (registers s)) s.

(** The machine after the gas charge. *)
Definition charged (cost : Z) (s : Vm) : Vm :=
  set_gas_used (saturating_add U64 (gas_used s) cost) (zero_r0 s).

(** A failing step: only [registers[0]], [gas_used], [halted] and [error] are
    assigned. *)
Definition step_failed (s : Vm) (e : VmError) (s' : Vm) : Prop :=
  exists g, (g = gas_used s \/ exists op, g = saturating_add U64 (gas_used s) (gas_cost op)) /\
    s' = set_error (Some e) (set_halted true (set_gas_used g (zero_r0 s))).

(** A completed step: the fetched instruction ran on the charged machine, and
    its rows were appended. *)
Inductive step_done (program : list Z) (s s' : Vm) : Prop :=
| Step_done raw inst src1 src2 out s1 :
    program !! Z.to_nat (pc s) = Some raw ->
    decode_instruction raw (mainnet_mode s) = Ok inst ->
    instruction_wf inst ->
    registers (zero_r0 s) !! Z.to_nat (rs1 inst) = Some src1 ->
    registers (zero_r0 s) !! Z.to_nat (rs2 inst) = Some src2 ->
    u64 src1 -> u64 src2 ->
    gas_used (charged (gas_cost (opcode inst)) s) <= gas_limit s ->
    exec inst src1 src2 (pc s) (charged (gas_cost (opcode inst)) s) = Returned out s1 ->
    exec_ok (opcode inst) (charged (gas_cost (opcode inst)) s) out s1 ->
    s' = set_trace (trace s ++ step_rows inst src1 src2 (pc s) out (zero_r0 s1)) (zero_r0 s1) ->
    step_done program s s'.

Lemma decode_instruction_wf raw mode inst :
  decode_instruction raw mode = Ok inst -> instruction_wf inst.
Proof.
  unfold decode_instruction, decode. rewrite decode_for_profile_any.
  destruct mode; intros H%map_err_Ok; eauto using decode_for_mainnet_wf, decode_any_wf.
Qed.

Lemma gas_cost_u64 op : u64 (gas_cost op) /\ 0 <= gas_cost op <= 12.
Proof. unfold u64. destruct op; simpl; lia. Qed.

Lemma wf_zero_r0 s : vm_wf s -> vm_wf (zero_r0 s).
Proof. intros; apply wf_set_register; auto with vm_wf. Qed.

Lemma wf_charged c s : vm_wf s -> u64 c -> vm_wf (charged c s).
Proof.
  intros Hwf Hc. apply wf_set_gas_used; [by apply wf_zero_r0|].
  apply u64_saturating_add; [apply Hwf|done].
Qed.

Lemma write_r0_eq s : vm_wf s -> write_reg 0 0 s = Returned tt (zero_r0 s).
Proof. intros Hwf. unfold write_reg, zlen. by rewrite (wf_regs_len s Hwf). Qed.

Lemma read_reg_eq s i :
  vm_wf s -> i ∈u 32 -> exists v, registers s !! Z.to_nat i = Some v /\ u64 v /\
    read_reg i s = Returned v s.
Proof.
  intros Hwf Hi. destruct (lookup_lt_is_Some_2 (registers s) (Z.to_nat i)) as [v Hv].
  { rewrite (wf_regs_len s Hwf). lia. }
  exists v. split_and!; [done| |unfold read_reg, or_panic; by rewrite Hv].
  by apply (Forall_lookup_1 _ _ _ _ (wf_regs s Hwf) Hv).
Qed.

Lemma merkle_expansion_ne inst src2 c s row : merkle_expansion inst src2 c s row <> [].
Proof. unfold merkle_expansion. by case_match. Qed.

(** The whole of [step]: idle when halted; otherwise it completes as
    [step_done] describes or fails as [step_failed] describes, and it never
    panics. *)
Lemma step_spec program s :
  program_wf program -> vm_wf s ->
  match step program s with
  | Returned _ s' => if halted s then s' = zero_r0 s else step_done program s s'
  | Raised e s' => halted s = false /\ step_failed s e s'
  | Panicked => False
  end.
Proof.
  intros [Hprog Hlen] Hwf. unfold step. unfold bind at 1. rewrite write_r0_eq by done.
  unfold bind at 1, gets, id. cbn [halted zero_r0 set_registers].
  destruct (halted s) eqn:Hrun; [done|].
  change (pc (zero_r0 s)) with (pc s). change (mainnet_mode (zero_r0 s)) with (mainnet_mode s).
  assert (Hself : set_gas_used (gas_used s) (zero_r0 s) = zero_r0 s) by done.
  destruct (Z.leb_spec (zlen program) (pc s)) as [|Hpc].
  { split; [done|]. exists (gas_used s). split; [by left|done]. }
  destruct (wf_pc s Hwf) as [Hpc0 _].
  destruct (lookup_lt_is_Some_2 program (Z.to_nat (pc s))) as [raw Hraw].
  { unfold zlen in *. lia. }
  unfold bind at 1, or_panic. rewrite Hraw.
  destruct (decode_instruction raw (mainnet_mode s)) as [inst|err] eqn:Hdec.
  2:{ split; [done|]. exists (gas_used s). split; [by left|done]. }
  pose proof (decode_instruction_wf _ _ _ Hdec) as Hinst.
  pose proof (gas_cost_u64 (opcode inst)) as [Hcost _].
  pose proof (wf_charged _ s Hwf Hcost) as Hwfc.
  set (sc := charged (gas_cost (opcode inst)) s) in *.
  unfold bind at 1, consume_gas. fold (zero_r0 s). cbn [gas_used zero_r0 set_registers].
  change (set_gas_used _ (zero_r0 s)) with sc.
  destruct (Z.ltb_spec (gas_limit sc) (gas_used sc)) as [|Hgas].
  { split; [done|]. exists (gas_used sc). split; [right; by eexists|done]. }
  pose proof Hinst as (Hrd & Hrs1 & Hrs2 & Himm).
  destruct (read_reg_eq sc (rs1 inst) Hwfc Hrs1) as (src1 & Hr1 & Hu1 & E1).
  destruct (read_reg_eq sc (rs2 inst) Hwfc Hrs2) as (src2 & Hr2 & Hu2 & E2).
  unfold bind at 1. rewrite E1. unfold bind at 1. rewrite E2.
  assert (Hpre : exec_pre inst (pc s) sc).
  { split; try done. unfold u64, zlen in *. lia. }
  pose proof (exec_spec inst (pc s) src1 src2 sc Hpre Hu1 Hu2) as Hexec. unfold wp in Hexec.
  unfold bind at 1. destruct (exec inst src1 src2 (pc s) sc) as [out s1|e s1|] eqn:Hex; [| |done].
  2:{ split; [done|]. exists (gas_used sc). split; [right; by eexists|done]. }
  pose proof (ok_wf _ _ _ _ Hexec) as Hwf1.
  unfold bind at 1. rewrite write_r0_eq by done.
  unfold bind at 1 2 3, push_trace, modify.
  rewrite expand_merkle_eq by (by apply wf_zero_r0).
  rewrite expand_inference_eq;
    [|by apply wf_zero_r0|done|apply merkle_expansion_ne].
  econstructor; try done. f_equal. f_equal. apply Hexec.
Qed.

(** ** Fresh machines and a demonstration program *)

Lemma wf_with_gas_limit m limit :
  0 <= m < 9223372036854775808 -> u64 limit -> vm_wf (with_gas_limit m limit).
Proof.
  intros Hm Hl. assert (forall n, Forall u64 (replicate n 0)) as Hrep.
  { intros n. apply Forall_replicate, u64_0. }
  split; simpl; try done; try apply u64_0.
  - apply (Hrep 32%nat).
  - apply Forall_replicate. by vm_compute.
  - unfold zlen. rewrite length_replicate. lia.
Qed.

Definition demo_program : list Z :=
  map encode
    [ mkInstruction OpLoad 1 0 0 41; mkInstruction OpLoad 2 0 0 1;
      mkInstruction OpAdd 3 1 2 0; mkInstruction OpStore 0 2 3 7;
      mkInstruction OpSWrite 0 3 0 9; mkInstruction OpHalt 0 0 0 0 ].

Lemma demo_program_wf : program_wf demo_program.
Proof.
  split; [|by vm_compute]. unfold demo_program.
  repeat (apply Forall_cons; split; [split; [by vm_compute|by vm_compute]|]). apply Forall_nil_2.
Qed.

Lemma wf_new m : 0 <= m < 9223372036854775808 -> vm_wf (new m).
Proof. intros. apply wf_with_gas_limit; [done|]. by vm_compute. Qed.

(** ** Consequences for one step *)

Lemma wf_step_failed s e s' : vm_wf s -> step_failed s e s' -> vm_wf s'.
Proof.
  intros Hwf (g & Hg & ->). apply wf_set_error, wf_set_halted, wf_set_gas_used.
  - by apply wf_zero_r0.
  - destruct Hg as [->|[op ->]]; [apply Hwf|].
    apply u64_saturating_add; [apply Hwf|apply gas_cost_u64].
Qed.

Lemma wf_step_done p s s' : step_done p s s' -> vm_wf s'.
Proof.
  intros [raw inst src1 src2 out s1 _ _ _ _ _ _ _ _ _ Hok ->].
  apply wf_set_trace, wf_zero_r0, Hok.
Qed.

Lemma zero_r0_lookup s : vm_wf s -> registers (zero_r0 s) !! 0%nat = Some 0.
Proof. intros Hwf. apply list_lookup_insert_eq. rewrite (wf_regs_len s Hwf). lia. Qed.

(** C3: type safety of the machine.  From every well-formed machine and every
    program that fits in memory, [step] never panics (no register, memory,
    stack or trace access is out of range), leaves a well-formed machine
    whether it completes or fails, and leaves register 0 at zero. *)
Theorem step_safe (program : list Z) (s : Vm)
    (Hp : program_wf program) (Hs : vm_wf s) :
  match step program s with
  | Returned _ s' | Raised _ s' => vm_wf s' /\ registers s' !! 0%nat = Some 0
  | Panicked => False
  end.
Proof.
  pose proof (step_spec program s Hp Hs) as H.
  destruct (step program s) as [[] s'|e s'|]; [| |done].
  - destruct (halted s); [subst s'; split; [by apply wf_zero_r0|by apply zero_r0_lookup]|].
    split; [by eapply wf_step_done|].
    destruct H as [raw inst src1 src2 out s1 _ _ _ _ _ _ _ _ _ Hok ->].
    apply (zero_r0_lookup s1), Hok.
  - destruct H as [_ H]. split; [by eapply wf_step_failed|].
    destruct H as (g & _ & ->). by apply (zero_r0_lookup s).
Qed.
Lemma step_safe_witness :
  match step demo_program (new 64) with
  | Returned _ s' | Raised _ s' => vm_wf s' /\ registers s' !! 0%nat = Some 0
  | Panicked => False
  end.
Proof. apply step_safe; [apply demo_program_wf|apply wf_new; lia]. Defined.

(** What a failing step may change.  When [step] returns an error, the
    program counter, stack, memory, storage, events, trace and write log are
    as before; only [registers[0]], [gas_used], [halted] and [error] were
    assigned, and the machine is halted with that error. *)
Theorem step_error_frame (program : list Z) (s s' : Vm) (e : VmError)
    (Hp : program_wf program) (Hs : vm_wf s) (He : step program s = Raised e s') :
  pc s' = pc s /\ stack s' = stack s /\ memory s' = memory s /\ storage s' = storage s /\
  events s' = events s /\ trace s' = trace s /\ state_writes s' = state_writes s /\
  (forall i, i <> 0%nat -> registers s' !! i = registers s !! i) /\
  gas_used s <= gas_used s' /\ halted s' = true /\ error s' = Some e.
Proof.
  pose proof (step_spec program s Hp Hs) as H. rewrite He in H.
  destruct H as (_ & g & Hg & ->). pose proof (wf_gas s Hs) as Hu.
  split_and!; try done.
  - intros i Hi. simpl. by rewrite list_lookup_insert_ne.
  - simpl. unfold u64 in Hu. destruct Hg as [->|[op ->]]; [lia|].
    pose proof (gas_cost_u64 op). unfold saturating_add. lia.
Qed.
Lemma step_error_frame_witness :
  let failed := set_error (Some StackUnderflow) (set_halted true (set_gas_used 2 (new 64))) in
  step [encode (mkInstruction OpRet 0 0 0 0)] (new 64) = Raised StackUnderflow failed /\
  trace failed = trace (new 64) /\ error failed = Some StackUnderflow.
Proof.
  intros failed.
  assert (E : step [encode (mkInstruction OpRet 0 0 0 0)] (new 64) = Raised StackUnderflow failed)
    by (vm_compute; reflexivity).
  split; [exact E|].
  destruct (step_error_frame [encode (mkInstruction OpRet 0 0 0 0)] (new 64) failed StackUnderflow)
    as (_ & _ & _ & _ & _ & Ht & _ & _ & _ & _ & He).
  - split; [|by vm_compute]. apply Forall_cons; split; [by vm_compute|apply Forall_nil_2].
  - apply wf_new; lia.
  - exact E.
  - split; [exact Ht|exact He].
Defined.

(** ** Gas and termination *)

Lemma gas_cost_pos op : op <> OpHalt -> 1 <= gas_cost op.
Proof. by destruct op. Qed.

Lemma step_done_gas p s s' :
  step_done p s s' -> vm_wf s -> gas_limit s < U64 - 1 ->
  gas_limit s' = gas_limit s /\ gas_used s' <= gas_limit s' /\
  (halted s' = true \/ gas_used s + 1 <= gas_used s').
Proof.
  intros [raw inst src1 src2 out s1 _ _ _ _ _ _ _ Hgas _ Hok ->] Hwf Hlim.
  pose proof (ok_gas _ _ _ _ Hok) as Eg. pose proof (ok_limit _ _ _ _ Hok) as El.
  pose proof (ok_halted _ _ _ _ Hok) as Eh. simpl in *. rewrite Eg, El, Eh.
  split_and!; [done|done|].
  destruct (decide (opcode inst = OpHalt)) as [E|E]; [left; by rewrite bool_decide_eq_true_2|].
  right. pose proof (gas_cost_pos _ E). unfold saturating_add in *. lia.
Qed.

(** exact gas accounting.  A completed step charges exactly the cost of
    the instruction it fetched, and never completes beyond the limit. *)
Theorem step_gas_exact (program : list Z) (s s' : Vm)
    (Hp : program_wf program) (Hs : vm_wf s) (Hlim : gas_limit s < U64 - 1)
    (Hrun : halted s = false) (Hstep : step program s = Returned tt s') :
  exists raw inst,
    program !! Z.to_nat (pc s) = Some raw /\
    decode_instruction raw (mainnet_mode s) = Ok inst /\
    gas_used s' = gas_used s + gas_cost (opcode inst) /\ gas_used s' <= gas_limit s'.
Proof.
  pose proof (step_spec program s Hp Hs) as H. rewrite Hstep, Hrun in H.
  pose proof (step_done_gas _ _ _ H Hs Hlim) as (El & Hle & _).
  destruct H as [raw inst src1 src2 out s1 Hraw Hdec _ _ _ _ _ Hgas _ Hok ->].
  exists raw, inst. split_and!; [done|done| |done].
  pose proof (ok_gas _ _ _ _ Hok) as Eg. pose proof (ok_limit _ _ _ _ Hok).
  simpl in *. rewrite Eg in *. unfold saturating_add in *. lia.
Qed.
Lemma step_gas_exact_witness :
  exists s', step demo_program (new 64) = Returned tt s' /\ gas_used s' = 3.
Proof.
  destruct (step demo_program (new 64)) as [[] s'|e s'|] eqn:E; [| |];
    [|by vm_compute in E|by vm_compute in E].
  exists s'. split; [done|].
  destruct (step_gas_exact demo_program (new 64) s') as (raw & inst & Hr & Hd & Hg & _);
    [apply demo_program_wf|apply wf_new; lia|done|done|done|].
  rewrite Hg. vm_compute in Hr. injection Hr as <-. vm_compute in Hd. injection Hd as <-.
  reflexivity.
Defined.

Lemma run_loop_done_gas fuel program s :
  program_wf program -> vm_wf s -> gas_limit s < U64 - 1 ->
  gas_limit s - gas_used s < Z.of_nat fuel -> (0 < fuel)%nat ->
  exists err s', run_loop fuel program s = RunDone err s' /\ vm_wf s'.
Proof.
  intros Hp. revert s. induction fuel as [|fuel IH]; intros s Hs Hlim Hfuel Hpos; [lia|].
  cbn [run_loop]. destruct (halted s) eqn:Hrun; [by eexists _, _|].
  pose proof (step_spec program s Hp Hs) as H. rewrite Hrun in H.
  destruct (step program s) as [[] s'|e s'|]; [| |done].
  - pose proof (wf_step_done _ _ _ H) as Hs'.
    pose proof (step_done_gas _ _ _ H Hs Hlim) as (El & Hle & [Hh|Hg]).
    + exists None, s'. split; [|done]. destruct fuel; cbn [run_loop]; by rewrite Hh.
    + destruct fuel as [|fuel]; [lia|]. apply IH; [done|lia|lia|lia].
  - destruct H as [_ H]. eexists _, _. split; [done|]. by eapply wf_step_failed.
Qed.

(** C29: termination.  Below the largest gas limit, [run_receipt] returns a
    receipt after at most one more step than the gas that is left, for every
    program, and never panics. *)
Theorem run_receipt_terminates (program : list Z) (s : Vm)
    (Hp : program_wf program) (Hs : vm_wf s) (Hlim : gas_limit s < U64 - 1) :
  exists receipt s',
    run_receipt (S (Z.to_nat (gas_limit s - gas_used s))) program s = Some (receipt, s').
Proof.
  destruct (run_loop_done_gas (S (Z.to_nat (gas_limit s - gas_used s))) program s)
    as (err & s' & E & _); [done|done|done|lia|lia|].
  unfold run_receipt. rewrite E. by eexists _, _.
Qed.
Lemma run_receipt_terminates_witness :
  exists receipt s', run_receipt 101 demo_program (with_gas_limit 64 100) = Some (receipt, s').
Proof.
  apply (run_receipt_terminates demo_program (with_gas_limit 64 100));
    [apply demo_program_wf|apply wf_with_gas_limit; by vm_compute|by vm_compute].
Defined.

End VmFacts.
