(* ===== verification/VmTrace.v ===== *)
(** * Whole runs of the virtual machine

    Properties of [run_receipt] and of the execution trace the prover
    consumes: the program-counter chain, the terminal Halt row, the storage
    write log, the mainnet gate, the Merkle expansion rows, memory round
    trips, and the one gas limit for which a run need not end. *)

From Stdlib Require Import ZArith Lia.
From stdpp Require Import base tactics strings numbers gmap list.
From S2P Require Import Prelude Isa Goldilocks Vm VmFacts.
Import Isa Goldilocks Vm VmFacts.
Open Scope Z_scope.

Module VmTrace.

(** The row-to-row rule of the AIR: each row starts where the previous one
    says the next instruction is. *)
Fixpoint chained (p : Z) (rows : list Step) (q : Z) : Prop :=
  match rows with
  | [] => p = q
  | r :: rows => st_pc r = p /\ chained (st_next_pc r) rows q
  end.

Lemma chained_app p l k q :
  chained p (l ++ k) q <-> exists m, chained p l m /\ chained m k q.
Proof.
  revert p. induction l as [|r l IH]; intros p; simpl.
  - naive_solver.
  - rewrite IH. naive_solver.
Qed.

(** Every row of the list satisfies [P], by the way rows are built. *)
Lemma merkle_rows_chained n inst cur_pc path_addr key i current s :
  i + Z.of_nat n = 64 -> (0 < n)%nat ->
  chained cur_pc (merkle_rows n inst cur_pc path_addr key i current s) (cur_pc + 1).
Proof.
  revert i current. induction n as [|n IH]; intros i current Hi Hn; [lia|].
  cbn [merkle_rows chained]. split; [done|]. cbn [st_next_pc merkle_row].
  destruct n as [|n].
  - destruct (Z.eqb_spec i 63); [done|lia].
  - destruct (Z.eqb_spec i 63); [lia|]. apply IH; lia.
Qed.

Lemma inference_rows_chained n inst src1 src2 cur_pc mc ic oc round s :
  round + Z.of_nat n = 8 -> (0 < n)%nat ->
  chained cur_pc (inference_rows n inst src1 src2 cur_pc mc ic oc round s) (cur_pc + 1).
Proof.
  revert round. induction n as [|n IH]; intros round Hi Hn; [lia|].
  cbn [inference_rows chained]. split; [done|]. cbn [st_next_pc inference_row].
  destruct n as [|n].
  - destruct (Z.eqb_spec round 7); [done|lia].
  - destruct (Z.eqb_spec round 7); [lia|]. apply IH; lia.
Qed.

(** Redirecting the last row redirects the end of the chain. *)
Lemma chained_patch_last f p rows q q' :
  (forall st, st_pc (f st) = st_pc st /\ st_next_pc (f st) = q') ->
  rows <> [] -> chained p rows q -> chained p (alter f (pred (length rows)) rows) q'.
Proof.
  intros Hf. revert p. induction rows as [|r rows IH]; intros p Hne Hc; [done|].
  destruct rows as [|r' rows].
  - simpl in *. destruct (Hf r) as [-> ->]. naive_solver.
  - destruct Hc as [Hr Hc].
    change (chained p (r :: alter f (pred (length (r' :: rows))) (r' :: rows)) q').
    split; [done|]. by apply IH.
Qed.

Lemma step_set_pc_fields st cur key mc ic oc c :
  st_pc (step_set_next_pc cur (step_set_commitments mc ic oc st)) = st_pc st /\
  st_next_pc (step_set_next_pc cur (step_set_commitments mc ic oc st)) = cur /\
  st_pc (step_set_current c (step_set_next_pc cur (step_set_key key st))) = st_pc st /\
  st_next_pc (step_set_current c (step_set_next_pc cur (step_set_key key st))) = cur.
Proof. by destruct st. Qed.

(** The Merkle and inference opcodes always continue at the next
    instruction. *)
Lemma exec_merkle_next inst src1 src2 cur_pc s out s1 :
  merkle_opcode (opcode inst) = true -> exec inst src1 src2 cur_pc s = Returned out s1 ->
  o_next_pc out = cur_pc + 1.
Proof.
  unfold exec. destruct (opcode inst); try done; intros _.
  - unfold exec_verify_merkle, bind, gets, advance_pc, modify, ret, plain, id, write_reg.
    repeat case_match; intros; simplify_eq; done.
  - unfold exec_verify_inference, finish_reg_guarded, bind, advance_pc, modify, ret, write_reg.
    repeat case_match; intros; simplify_eq; done.
Qed.

Lemma step_rows_chained inst src1 src2 cur_pc out s op s0 s1 :
  op = opcode inst -> exec inst src1 src2 cur_pc s0 = Returned out s1 ->
  chained cur_pc (step_rows inst src1 src2 cur_pc out s) (o_next_pc out).
Proof.
  intros -> Hex. unfold step_rows.
  set (rows := merkle_expansion _ _ _ _ _).
  assert (Hm : chained cur_pc rows (o_next_pc out)).
  { unfold rows, merkle_expansion. case_match eqn:E; [|done].
    apply andb_prop in E as [Hop _]. rewrite (exec_merkle_next _ _ _ _ _ _ _ Hop Hex).
    cbn [chained]. destruct (step_set_pc_fields (main_row inst src1 src2 cur_pc out s) cur_pc
      (default 0 (word_at (memory s) (u64_of_signed (imm inst)))) 0 0 0
      (merkle_fold 64 (memory s) (u64_of_signed (imm inst))
        (default 0 (word_at (memory s) (u64_of_signed (imm inst)))) 0 src2)) as (_ & _ & -> & ->).
    split; [done|]. apply merkle_rows_chained; lia. }
  unfold inference_expansion. case_match eqn:E; [|done].
  apply andb_prop in E as [Hop _]. apply bool_decide_eq_true_1 in Hop.
  rewrite (exec_merkle_next inst src1 src2 cur_pc s0 out s1) by (first [exact Hex|by rewrite Hop]).
  apply chained_app. exists cur_pc. split.
  - eapply chained_patch_last; [|apply merkle_expansion_ne|exact Hm].
    intros st. by destruct st.
  - apply inference_rows_chained; lia.
Qed.

(** ** Invariants of a run *)

(** What holds of every machine of a run that started at [s0]. *)
Record run_inv (s0 s : Vm) : Prop := {
  ri_wf : vm_wf s;
  ri_chain : chained (pc s0) (trace s) (pc s);
  ri_storage : storage s = replay (state_writes s) (storage s0);
  ri_mode : mainnet_mode s = mainnet_mode s0;
  ri_halt : if halted s then exists t r, trace s = t ++ [r] /\ is_halt_row r = true else True;
  ri_gate : mainnet_mode s0 = true ->
    Forall (fun r => merkle_opcode (opcode (st_instruction r)) = false) (trace s);
}.

(** A machine at the start of a run. *)
Definition fresh (s : Vm) : Prop :=
  vm_wf s /\ halted s = false /\ trace s = [] /\ state_writes s = [].

Lemma fresh_inv s : fresh s -> run_inv s s.
Proof.
  intros (Hwf & Hh & Ht & Hw). split; try done; rewrite ?Ht, ?Hw, ?Hh; try done.
Qed.

Lemma replay_app l k m : replay (l ++ k) m = replay k (replay l m).
Proof. apply fold_left_app. Qed.

Lemma decode_mainnet_gate raw inst :
  decode_instruction raw true = Ok inst -> merkle_opcode (opcode inst) = false.
Proof.
  unfold decode_instruction. intros H%map_err_Ok. unfold decode_for_mainnet in H.
  inv_ok H. case_match eqn:E; simplify_eq. apply negb_false_iff in E.
  by destruct (opcode inst).
Qed.

Lemma step_rows_plain inst src1 src2 cur_pc out s :
  merkle_opcode (opcode inst) = false ->
  step_rows inst src1 src2 cur_pc out s = [main_row inst src1 src2 cur_pc out s].
Proof.
  intros H. unfold step_rows, inference_expansion, merkle_expansion. rewrite H. simpl.
  rewrite bool_decide_eq_false_2; [done|]. intros E. by rewrite E in H.
Qed.

Lemma step_done_inv program s0 s s' :
  run_inv s0 s -> step_done program s s' -> run_inv s0 s'.
Proof.
  intros Hinv Hd. pose proof (wf_step_done _ _ _ Hd) as Hwf'.
  destruct Hd as [raw inst src1 src2 out s1 Hraw Hdec Hi _ _ _ _ _ Hex Hok ->].
  pose proof (ok_pc _ _ _ _ Hok) as Hpc. pose proof (ok_mode _ _ _ _ Hok) as Hmode.
  pose proof (ok_halted _ _ _ _ Hok) as Hhalt.
  destruct (ok_writes _ _ _ _ Hok) as (ws & Hws & Hst).
  simpl in Hws, Hst, Hmode. destruct Hinv as [Hwf Hc Hs Hm Hh Hg].
  split; cbn [pc trace storage state_writes mainnet_mode halted set_trace zero_r0 set_registers].
  - done.
  - apply chained_app. exists (pc s). split; [done|]. rewrite Hpc.
    by eapply step_rows_chained.
  - by rewrite Hws, Hst, replay_app, Hs.
  - congruence.
  - rewrite Hhalt. case_bool_decide as E; [|done].
    eexists (trace s), _. split.
    + f_equal. apply step_rows_plain. by rewrite E.
    + unfold is_halt_row. simpl. by rewrite E.
  - intros Hmain. apply Forall_app; split; [by apply Hg|].
    rewrite Hm, Hmain in Hdec. pose proof (decode_mainnet_gate _ _ Hdec) as Hgate.
    rewrite step_rows_plain by done. by apply Forall_cons.
Qed.

(** A run keeps the invariant; it ends halted, or with the error of the last
    step. *)
Lemma run_loop_inv fuel program s0 s err s' :
  program_wf program -> run_inv s0 s -> run_loop fuel program s = RunDone err s' ->
  match err with
  | None => run_inv s0 s' /\ halted s' = true
  | Some e => exists s1, run_inv s0 s1 /\ halted s1 = false /\ step_failed s1 e s'
  end.
Proof.
  intros Hp. revert s. induction fuel as [|fuel IH]; intros s Hinv Hrun; cbn [run_loop] in Hrun.
  - destruct (halted s) eqn:Hh; simplify_eq. done.
  - destruct (halted s) eqn:Hh; [by simplify_eq|].
    pose proof (step_spec program s Hp (ri_wf _ _ Hinv)) as H. rewrite Hh in H.
    destruct (step program s) as [[] s2|e s2|]; [| |done].
    + apply (IH s2); [|done]. by eapply step_done_inv.
    + simplify_eq. exists s. naive_solver.
Qed.

Lemma close_trace_halt err s1 s' :
  step_failed s1 err s' ->
  exists t r, trace (close_trace (Some err) s') = t ++ [r] /\ is_halt_row r = true.
Proof.
  intros (g & _ & ->). simpl. destruct (last (trace s1)) as [r|] eqn:E; simpl.
  - destruct (is_halt_row r) eqn:Hr; simpl; [|by eexists _, _].
    apply last_Some in E as [t Et]. by eexists t, r.
  - by eexists _, _.
Qed.

Lemma close_trace_chained p err s1 s' :
  step_failed s1 err s' -> chained p (trace s1) (pc s1) ->
  chained p (trace (close_trace (Some err) s')) (pc (close_trace (Some err) s')).
Proof.
  intros (g & _ & ->) Hc. simpl. case_match; simpl; [done|].
  apply chained_app. by exists (pc s1).
Qed.

(** C30: the trace handed to the prover.  After any completed run from a
    fresh machine, successful or not, the rows form one chain from the initial
    program counter to the final one (each row's [next_pc] is the next row's
    [pc], expansion rows and the synthetic terminal row included), the last
    row is a Halt row, and the receipt counts exactly these rows. *)
Theorem run_trace_chained (fuel : nat) (program : list Z) (s s' : Vm) (receipt : ExecutionReceipt)
    (Hp : program_wf program) (Hs : fresh s)
    (Hrun : run_receipt fuel program s = Some (receipt, s')) :
  chained (pc s) (trace s') (pc s') /\
  (exists t r, trace s' = t ++ [r] /\ is_halt_row r = true) /\
  r_trace_len receipt = zlen (trace s') /\ r_final_pc receipt = pc s'.
Proof.
  unfold run_receipt in Hrun.
  destruct (run_loop fuel program s) as [err s1| |] eqn:E; simplify_eq/=.
  apply (run_loop_inv _ _ s) in E; [|done|by apply fresh_inv]. destruct err as [e|].
  - destruct E as (s2 & Hinv & _ & Hfail).
    split_and!; [|by eapply close_trace_halt|done|done].
    eapply close_trace_chained; [done|]. apply Hinv.
  - destruct E as [Hinv Hh]. split_and!; [apply Hinv| |done|done].
    pose proof (ri_halt _ _ Hinv) as H. by rewrite Hh in H.
Qed.

Lemma close_trace_fields err s :
  storage (close_trace err s) = storage s /\ state_writes (close_trace err s) = state_writes s /\
  (match err with None => True | Some _ =>
     Forall (fun r => merkle_opcode (opcode (st_instruction r)) = false) (trace s) ->
     Forall (fun r => merkle_opcode (opcode (st_instruction r)) = false)
       (trace (close_trace err s)) end).
Proof.
  destruct err; simpl; [|done]. case_match; simpl; split_and!; try done.
  intros. apply Forall_app; split; [done|]. by apply Forall_cons.
Qed.

(** the write log explains storage.  After any completed run the storage
    is the initial storage with the logged writes replayed in order, and the
    digest of the receipt is the Poseidon chain over exactly that log. *)
Theorem run_storage_replay (fuel : nat) (program : list Z) (s s' : Vm)
    (receipt : ExecutionReceipt) (Hp : program_wf program) (Hs : fresh s)
    (Hrun : run_receipt fuel program s = Some (receipt, s')) :
  storage s' = replay (state_writes s') (storage s) /\
  r_state_writes_digest receipt = state_writes_digest (state_writes s').
Proof.
  unfold run_receipt in Hrun.
  destruct (run_loop fuel program s) as [err s1| |] eqn:E; simplify_eq/=.
  split; [|done]. apply (run_loop_inv _ _ s) in E; [|done|by apply fresh_inv].
  destruct (close_trace_fields err s1) as (-> & -> & _). destruct err as [e|].
  - destruct E as (s2 & Hinv & _ & g & _ & ->). apply Hinv.
  - apply E.
Qed.

(** the mainnet gate holds at run time.  A run in mainnet mode never
    executes [VerifyMerkle] or [VerifyInference]: no row of its trace carries
    either opcode. *)
Theorem mainnet_run_gated (fuel : nat) (program : list Z) (s s' : Vm)
    (receipt : ExecutionReceipt) (Hp : program_wf program) (Hs : fresh s)
    (Hmode : mainnet_mode s = true)
    (Hrun : run_receipt fuel program s = Some (receipt, s')) :
  Forall (fun r => opcode (st_instruction r) <> OpVerifyMerkle /\
                   opcode (st_instruction r) <> OpVerifyInference) (trace s').
Proof.
  unfold run_receipt in Hrun.
  destruct (run_loop fuel program s) as [err s1| |] eqn:E; simplify_eq/=.
  apply (run_loop_inv _ _ s) in E; [|done|by apply fresh_inv].
  pose proof (close_trace_fields err s1) as (_ & _ & Hcl).
  apply Forall_impl with (fun r => merkle_opcode (opcode (st_instruction r)) = false).
  - destruct err as [e|]; [|by apply (ri_gate s s1 (proj1 E))].
    destruct E as (s2 & Hinv & _ & g & _ & ->). apply Hcl. by apply (ri_gate s s2 Hinv).
  - intros r Hr. by destruct (opcode (st_instruction r)).
Qed.

(** Witnesses: the demonstration program, run to its end. *)
Lemma fresh_new m mode :
  0 <= m < 9223372036854775808 -> fresh (with_mainnet_mode m 1000000 mode).
Proof.
  intros Hm. split_and!; try done.
  destruct (wf_with_gas_limit m 1000000 Hm) as []; [by vm_compute|]. by split.
Qed.

Definition demo_vm : Vm := with_mainnet_mode 64 1000000 true.

Lemma demo_run_observed :
  match run_receipt 7 demo_program demo_vm with
  | Some (r, s) => Some (r_trace_len r, state_writes s, length (trace s))
  | None => None
  end = Some (6, [(9, 42)], 6%nat).
Proof. vm_compute. reflexivity. Qed.

Lemma run_trace_chained_witness :
  exists receipt s', run_receipt 7 demo_program demo_vm = Some (receipt, s') /\
    chained 0 (trace s') (pc s') /\ r_trace_len receipt = 6.
Proof.
  pose proof demo_run_observed as Hobs.
  destruct (run_receipt 7 demo_program demo_vm) as [[receipt s']|] eqn:E; [|discriminate Hobs].
  exists receipt, s'. split; [reflexivity|].
  destruct (run_trace_chained 7 demo_program demo_vm s' receipt demo_program_wf
              (fresh_new 64 true ltac:(lia)) E) as (Hc & _ & _ & _).
  split; [exact Hc|]. congruence.
Defined.

Lemma run_storage_replay_witness :
  exists receipt s', run_receipt 7 demo_program demo_vm = Some (receipt, s') /\
    storage s' = replay [(9, 42)] ∅ /\ state_writes s' = [(9, 42)].
Proof.
  pose proof demo_run_observed as Hobs.
  destruct (run_receipt 7 demo_program demo_vm) as [[receipt s']|] eqn:E; [|discriminate Hobs].
  exists receipt, s'. split; [reflexivity|].
  destruct (run_storage_replay 7 demo_program demo_vm s' receipt demo_program_wf
              (fresh_new 64 true ltac:(lia)) E) as (Hs & _).
  assert (Hw : state_writes s' = [(9, 42)]) by congruence.
  rewrite Hw in Hs. split; [exact Hs|exact Hw].
Defined.

Lemma mainnet_run_gated_witness :
  exists receipt s', run_receipt 7 demo_program demo_vm = Some (receipt, s') /\
  length (trace s') = 6%nat /\
  Forall (fun r => opcode (st_instruction r) <> OpVerifyMerkle /\
                   opcode (st_instruction r) <> OpVerifyInference) (trace s').
Proof.
  pose proof demo_run_observed as Hobs.
  destruct (run_receipt 7 demo_program demo_vm) as [[receipt s']|] eqn:E; [|discriminate Hobs].
  exists receipt, s'. split; [reflexivity|]. split; [congruence|].
  exact (mainnet_run_gated 7 demo_program demo_vm s' receipt demo_program_wf
              (fresh_new 64 true ltac:(lia)) eq_refl E).
Defined.

(** ** The Merkle opcode *)

Lemma merkle_fold_snoc n mem path_addr key current :
  merkle_fold (S n) mem path_addr key 0 current
  = merkle_step key (Z.of_nat n) (merkle_fold n mem path_addr key 0 current)
      (default 0 (word_at mem (path_addr + 8 + Z.of_nat n * 8))).
Proof.
  cut (forall i current, merkle_fold (S n) mem path_addr key i current
    = merkle_step key (i + Z.of_nat n) (merkle_fold n mem path_addr key i current)
        (default 0 (word_at mem (path_addr + 8 + (i + Z.of_nat n) * 8)))).
  { intros H. by rewrite H, Z.add_0_l. }
  induction n as [|n IH]; intros i cur; [by rewrite Z.add_0_r|].
  change (merkle_fold (S (S n)) mem path_addr key i cur) with
    (merkle_fold (S n) mem path_addr key (i + 1)
       (merkle_step key i cur (default 0 (word_at mem (path_addr + 8 + i * 8))))).
  rewrite IH. replace (i + 1 + Z.of_nat n) with (i + Z.of_nat (S n)) by lia. done.
Qed.

Lemma merkle_rows_lookup n inst cur_pc path_addr key i current s (j : nat) r :
  merkle_rows n inst cur_pc path_addr key i current s !! j = Some r ->
  exists input, (j < n)%nat /\
    input = merkle_fold j (memory s) path_addr key i current /\
    r = merkle_row inst cur_pc path_addr key (i + Z.of_nat j) input
          (default 0 (word_at (memory s) (path_addr + 8 + (i + Z.of_nat j) * 8))) s.
Proof.
  revert i current j. induction n as [|n IH]; intros i current j Hj; [done|].
  cbn [merkle_rows] in Hj. destruct j as [|j].
  - simplify_eq/=. exists current. rewrite Z.add_0_r. split_and!; [lia|done|done].
  - apply IH in Hj as (input & Hlt & Hin & Hr). exists input.
    replace (i + Z.of_nat (S j)) with (i + 1 + Z.of_nat j) by lia.
    split_and!; [lia|exact Hin|exact Hr].
Qed.

Lemma exec_verify_merkle_value inst src1 src2 s out s1 :
  exec_pre inst (pc s) s -> opcode inst = OpVerifyMerkle ->
  window_fits (u64_of_signed (imm inst)) 520 (zlen (memory s)) = true ->
  exec inst src1 src2 (pc s) s = Returned out s1 ->
  memory s1 = memory s /\
  o_dst_val out =
    b2z (merkle_fold 64 (memory s) (u64_of_signed (imm inst))
           (default 0 (word_at (memory s) (u64_of_signed (imm inst)))) 0 src2 =? src1).
Proof.
  intros [Hwf (Hrd & _) _ _ _] Hop Hfit. unfold exec. rewrite Hop. unfold exec_verify_merkle.
  unfold bind at 1, gets. change (id s) with s. change (8 * 65) with 520. rewrite Hfit.
  apply window_fits_true in Hfit. pose proof (u64_of_signed_range (imm inst)).
  unfold bind at 1. unfold bind at 1. rewrite read_word_eq by (done || lia).
  unfold bind at 1. rewrite merkle_walk_fold by (done || lia).
  generalize (merkle_fold 64 (memory s) (u64_of_signed (imm inst))
    (default 0 (word_at (memory s) (u64_of_signed (imm inst)))) 0 src2); intros acc.
  unfold ret, bind, write_reg, advance_pc, modify.
  destruct (rd inst <? zlen (registers s)); [|discriminate].
  intros E. injection E as <- <-. split; reflexivity.
Qed.

(** the Merkle rows prove what the opcode answered.  When the path window
    fits, a [VerifyMerkle] step appends its own row and 64 expansion rows;
    its answer is 1 exactly when the accumulator recorded on its row equals
    the claimed root; and expansion row [j] carries round [j], the memory word
    at [path + 8 + 8 * j] it read, and the accumulator before the round, the
    accumulators of consecutive rows being linked by the round function. *)
Theorem verify_merkle_rows (inst : Instruction) (src1 src2 : Z) (s s1 : Vm) (out : ExecOut)
    (Hpre : exec_pre inst (pc s) s) (Hop : opcode inst = OpVerifyMerkle)
    (Hfit : window_fits (u64_of_signed (imm inst)) 520 (zlen (memory s)) = true)
    (Hex : exec inst src1 src2 (pc s) s = Returned out s1) :
  let path := u64_of_signed (imm inst) in
  exists row rows key,
    step_rows inst src1 src2 (pc s) out (zero_r0 s1) = row :: rows /\ length rows = 64%nat /\
    word_at (memory s) path = Some key /\
    (dst_val row = 1 <-> merkle_current row = Some src1) /\
    (dst_val row = 0 \/ dst_val row = 1) /\
    forall j r, rows !! j = Some r ->
      merkle_round r = Some (Z.of_nat j) /\
      memory_addr r = Some (path + 8 + Z.of_nat j * 8) /\
      memory_val r = word_at (memory s) (path + 8 + Z.of_nat j * 8) /\
      merkle_current r = Some (merkle_fold j (memory s) path key 0 src2) /\
      forall r' cur sib, rows !! S j = Some r' -> merkle_current r = Some cur ->
        merkle_sibling r = Some sib ->
        merkle_current r' = Some (merkle_step key (Z.of_nat j) cur sib).
Proof.
  intros path. destruct (exec_verify_merkle_value _ _ _ _ _ _ Hpre Hop Hfit Hex) as [Hmem Hdst].
  fold path in Hdst, Hfit. pose proof (window_fits_true _ _ _ Hfit) as Hlen.
  pose proof (u64_of_signed_range (imm inst)) as Hrange. fold path in Hrange.
  pose proof (pre_wf _ _ _ Hpre) as Hwf.
  destruct (word_at_Some (memory s) path) as (key & Hkey & _); [apply Hwf|lia|lia|].
  rewrite Hkey in Hdst. simpl default in Hdst.
  unfold step_rows, inference_expansion, merkle_expansion. fold path. rewrite Hop.
  rewrite (bool_decide_eq_false_2 (OpVerifyMerkle = OpVerifyInference)) by done.
  rewrite andb_false_l, andb_true_l.
  change (memory (zero_r0 s1)) with (memory s1). rewrite Hmem, Hfit, Hkey. simpl default.
  eexists _, _, key. split; [reflexivity|]. split; [apply length_merkle_rows|].
  split; [done|]. cbn [dst_val merkle_current step_set_current step_set_next_pc step_set_key main_row].
  rewrite Hdst. split_and!.
  - generalize (merkle_fold 64 (memory s) path key 0 src2); intros acc.
    destruct (Z.eqb_spec acc src1); cbn [b2z]; split; congruence.
  - unfold b2z. case_match; auto.
  - assert (Hword : forall j, (j < 64)%nat ->
      word_at (memory s) (path + 8 + Z.of_nat j * 8)
      = Some (default 0 (word_at (memory s) (path + 8 + Z.of_nat j * 8)))).
    { intros j Hj. destruct (word_at_Some (memory s) (path + 8 + Z.of_nat j * 8)) as (v & -> & _);
        [apply Hwf|lia|lia|done]. }
    intros j r Hj. apply merkle_rows_lookup in Hj as (input & Hlt & -> & ->).
    cbn [merkle_round memory_addr memory_val merkle_current merkle_sibling merkle_row].
    change (memory (zero_r0 s1)) with (memory s1). rewrite Hmem. rewrite Z.add_0_l.
    split_and!; [done|done|by rewrite Hword|done|].
    intros r' cur sib Hj' [= <-] [= <-]. apply merkle_rows_lookup in Hj' as (input' & _ & -> & ->).
    cbn [merkle_current merkle_row]. change (memory (zero_r0 s1)) with (memory s1).
    rewrite Hmem. f_equal. apply merkle_fold_snoc.
Qed.
Lemma verify_merkle_rows_witness :
  let inst := mkInstruction OpVerifyMerkle 1 2 3 0 in
  let s := new 1024 in
  exists out s1 row rows, exec inst 5 6 0 s = Returned out s1 /\
    step_rows inst 5 6 0 out (zero_r0 s1) = row :: rows /\ length rows = 64%nat /\
    (dst_val row = 1 <-> merkle_current row = Some 5).
Proof.
  intros inst s.
  assert (Hpre : exec_pre inst (pc s) s).
  { split; [apply wf_new; lia|unfold instruction_wf, is_i32; simpl; lia|reflexivity
           |by vm_compute|reflexivity]. }
  destruct (exec inst 5 6 0 s) as [out s1|e s1|] eqn:E; [|by vm_compute in E|by vm_compute in E].
  destruct (verify_merkle_rows inst 5 6 s s1 out Hpre eq_refl eq_refl E)
    as (row & rows & key & Hrows & Hlen & _ & Hiff & _).
  exists out, s1, row, rows. split; [reflexivity|]. split; [exact Hrows|].
  split; [exact Hlen|exact Hiff].
Defined.

(** ** Memory *)

(** Loading through [exec_load] from a register base. *)
Lemma exec_load_value inst src1 s addr v :
  vm_wf s -> instruction_wf inst -> rs1 inst <> 0 ->
  memory_word_addr src1 (imm inst) (zlen (memory s)) = Some addr ->
  word_at (memory s) addr = Some v ->
  exists s', exec_load inst src1 (pc s) s
    = Returned (mkExecOut v (pc s + 1) (Some addr) (Some v) false) s' /\
    registers s' !! Z.to_nat (rd inst) = Some v.
Proof.
  intros Hwf (Hrd & _) Hrs Haddr Hv. unfold exec_load.
  destruct (Z.eqb_spec (rs1 inst) 0); [done|].
  unfold bind at 1, gets, id. rewrite Haddr.
  unfold read_word, bind, gets, or_panic, id, write_reg, advance_pc, modify, ret. rewrite Hv.
  pose proof (wf_regs_len s Hwf) as Hl.
  destruct (Z.ltb_spec (rd inst) (zlen (registers s))); [|unfold zlen in *; lia].
  eexists. split; [reflexivity|]. simpl. apply list_lookup_insert_eq. lia.
Qed.

(** Memory round trip.  After a successful [Store] of a 64-bit value,
    a [Load] at the same address returns exactly that value, and a [Load] at
    an address at least eight bytes away returns what it would have returned
    before the store. *)
Theorem store_load (inst load : Instruction) (src1 base src2 addr addr' : Z) (s s' : Vm)
    (out : ExecOut) (Hwf : vm_wf s) (Hi : instruction_wf inst) (Hl : instruction_wf load)
    (Hrs : rs1 load <> 0) (Hsrc : u64 src2) (Hnext : u64 (pc s + 1))
    (Hrun : halted s = false)
    (Hstore : exec_store inst src1 src2 (pc s) s = Returned out s')
    (Haddr : memory_word_addr src1 (imm inst) (zlen (memory s)) = Some addr)
    (Haddr' : memory_word_addr base (imm load) (zlen (memory s)) = Some addr') :
  (addr' = addr ->
     exists s2 o2, exec_load load base (pc s') s' = Returned o2 s2 /\ o_dst_val o2 = src2) /\
  (addr' + 8 <= addr \/ addr + 8 <= addr' ->
     word_at (memory s') addr' = word_at (memory s) addr').
Proof.
  unfold exec_store, write_word, bind, gets, id, or_panic, modify, ret in Hstore.
  rewrite Haddr in Hstore.
  pose proof (memory_word_addr_Some _ _ _ _ Haddr) as (_ & Ha0 & Ha8).
  pose proof (memory_word_addr_Some _ _ _ _ Haddr') as (_ & Hb0 & Hb8).
  destruct (splice (memory s) addr (le_encode 8 src2)) as [mem|] eqn:Hsp; [|done].
  simpl in Hstore. injection Hstore as _ <-.
  pose proof (splice_length _ _ _ _ Hsp) as Hlen.
  assert (Hzl : zlen mem = zlen (memory s)) by (unfold zlen; by rewrite Hlen).
  split.
  - intros ->.
    assert (Hword : word_at mem addr = Some src2).
    { unfold word_at. pose proof (slice_splice_same _ _ _ _ Hsp) as Hsl.
      rewrite zlen_le_encode in Hsl. change (Z.of_nat 8) with 8 in Hsl. rewrite Hsl.
      transitivity (Some (le_decode (le_encode 8 src2))); [reflexivity|].
      rewrite le_decode_encode. f_equal. by apply Z.mod_small. }
    pose proof (splice_Forall byte _ _ _ _ Hsp (wf_mem s Hwf) (le_encode_bytes 8 src2)).
    edestruct (exec_load_value load base) as (s2 & E & _); [| |done| | |exists s2; eexists; split; [exact E|done]];
      [|done|simpl; by rewrite Hzl|exact Hword].
    apply (wf_set_pc (set_memory mem s)); [|done]. by apply wf_set_memory.
  - intros Hdisj. simpl. unfold word_at.
    erewrite slice_splice_disjoint; [reflexivity|exact Hsp|].
    rewrite zlen_le_encode. lia.
Qed.
Lemma store_load_witness :
  exists s' out, exec_store (mkInstruction OpStore 0 1 2 8) 16 77 0 (new 64) = Returned out s' /\
    exists s2 o2, exec_load (mkInstruction OpLoad 3 1 0 8) 16 (pc s') s' = Returned o2 s2 /\
      o_dst_val o2 = 77.
Proof.
  destruct (exec_store (mkInstruction OpStore 0 1 2 8) 16 77 0 (new 64)) as [out s'|e s'|] eqn:E;
    [|by vm_compute in E|by vm_compute in E].
  exists s', out. split; [reflexivity|].
  apply (store_load (mkInstruction OpStore 0 1 2 8) (mkInstruction OpLoad 3 1 0 8)
           16 16 77 24 24 (new 64) s' out).
  - apply wf_new; lia.
  - unfold instruction_wf, is_i32; simpl; lia.
  - unfold instruction_wf, is_i32; simpl; lia.
  - done.
  - by vm_compute.
  - by vm_compute.
  - reflexivity.
  - exact E.
  - reflexivity.
  - reflexivity.
  - reflexivity.
Defined.

(** ** The gas limit that does not limit *)

Definition spin_program : list Z := [encode (mkInstruction OpJmp 0 0 0 0)].

Lemma spin_program_wf : program_wf spin_program.
Proof. split; [|by vm_compute]. apply Forall_cons; split; [by vm_compute|apply Forall_nil_2]. Qed.

(** A machine about to execute the jump, with the largest limit. *)
Definition spinning (s : Vm) : Prop :=
  vm_wf s /\ pc s = 0 /\ halted s = false /\ mainnet_mode s = false /\
  gas_limit s = U64 - 1.

Lemma spin_step s : spinning s -> exists s', step spin_program s = Returned tt s' /\ spinning s'.
Proof.
  intros (Hwf & Hpc & Hrun & Hmode & Hlim).
  cut (exists s', step spin_program s = Returned tt s' /\ pc s' = 0 /\ halted s' = false /\
         mainnet_mode s' = false /\ gas_limit s' = U64 - 1).
  { intros (s' & E & Hs'). exists s'. split; [done|]. split; [|exact Hs'].
    pose proof (step_spec spin_program s spin_program_wf Hwf) as H. rewrite E, Hrun in H.
    by eapply wf_step_done. }
  unfold step. unfold bind at 1. rewrite write_r0_eq by done.
  unfold bind at 1, gets. change (id (zero_r0 s)) with (zero_r0 s).
  change (halted (zero_r0 s)) with (halted s). change (pc (zero_r0 s)) with (pc s).
  change (mainnet_mode (zero_r0 s)) with (mainnet_mode s).
  rewrite Hrun, Hpc, Hmode.
  change (zlen spin_program <=? 0) with false. change (Z.to_nat 0) with 0%nat.
  change (or_panic (spin_program !! 0%nat)) with (ret (encode (mkInstruction OpJmp 0 0 0 0))).
  unfold bind at 1, ret at 1.
  change (decode_instruction (encode (mkInstruction OpJmp 0 0 0 0)) false) with
    (Ok (E := string) (mkInstruction OpJmp 0 0 0 0)). cbv beta iota.
  unfold bind at 1, consume_gas. cbn [opcode gas_cost].
  set (sc := set_gas_used (saturating_add U64 (gas_used (zero_r0 s)) 1) (zero_r0 s)).
  change (gas_limit sc) with (gas_limit s).
  change (gas_used sc) with (saturating_add U64 (gas_used s) 1).
  destruct (Z.ltb_spec (gas_limit s) (saturating_add U64 (gas_used s) 1)) as [Hlt|Hge].
  { unfold saturating_add in Hlt. lia. }
  assert (Hwfc : vm_wf sc) by (apply (wf_charged 1 s); [done|by vm_compute]).
  destruct (read_reg_eq sc 0 Hwfc ltac:(lia)) as (v & _ & _ & Hr).
  cbn [rs1 rs2]. unfold bind at 1. rewrite Hr. unfold bind at 1. rewrite Hr.
  unfold exec. cbn [opcode].
  unfold bind at 1, exec_jmp, bind at 1, modify, ret. cbn [imm].
  unfold bind at 1. rewrite write_r0_eq by (apply wf_set_pc; [done|apply u64_signed]).
  eexists. split; [reflexivity|]. split_and!; [reflexivity|exact Hrun|exact Hmode|exact Hlim].
Qed.

(** With [gas_limit = u64::MAX] gas does not bound execution.
    [consume_gas] saturates at [u64::MAX], which is never greater than the
    limit, so a program that jumps to itself runs for ever: no number of
    iterations of the loop of [run_receipt] is enough. *)
Theorem max_gas_limit_diverges (fuel : nat) (memory_size : Z)
    (Hm : 0 <= memory_size < 9223372036854775808) :
  run_receipt fuel spin_program (with_gas_limit memory_size (U64 - 1)) = None.
Proof.
  assert (H : forall s, spinning s -> run_loop fuel spin_program s = RunOutOfFuel).
  { induction fuel as [|fuel IH]; intros s Hs; cbn [run_loop];
      pose proof Hs as (_ & _ & Hrun & _); rewrite Hrun; [done|].
    destruct (spin_step s Hs) as (s' & -> & Hs'). by apply IH. }
  unfold run_receipt. rewrite H; [done|].
  split_and!; try done. apply wf_with_gas_limit; [done|by vm_compute].
Qed.
Lemma max_gas_limit_diverges_witness :
  run_receipt 1000 spin_program (with_gas_limit 16 (U64 - 1)) = None.
Proof. apply max_gas_limit_diverges. lia. Defined.

(** where the inference commitments are recorded.  A [VerifyInference]
    whose immediate also names a readable 520-byte window first receives the
    64 Merkle expansion rows, so the row that is then patched with the model,
    input and output commitments is the last Merkle row: the row of the
    instruction itself carries none. *)
Theorem inference_commitments_misplaced :
  exists row rows,
    step_rows (mkInstruction OpVerifyInference 1 2 3 0) 0 0 0 (plain 0 1) (new 1024) = row :: rows /\
    opcode (st_instruction row) = OpVerifyInference /\
    inference_model_commitment row = None /\ inference_input_commitment row = None /\
    inference_output_commitment row = None /\
    (exists r, rows !! 63%nat = Some r /\ merkle_is_expand r = true /\
       inference_model_commitment r = Some 0).
Proof.
  eexists _, _. split; [vm_compute; reflexivity|]. split_and!; try reflexivity.
  eexists. split; [vm_compute; reflexivity|]. split; reflexivity.
Qed.

End VmTrace.
