(* ===== verification/Hashing.v ===== *)
(** * The hash interface

    [hash_fields_bytes] (module [core::hash], whose source is not part of the
    tree) hashes a list of byte strings to 32 bytes.  It is a parameter of
    every component that commits to data: the class [FieldHash] is the
    operation, and [CollisionFree] the idealisation the security arguments of
    the source rely on (distinct field lists have distinct digests).  The
    instance [framed_hash] shows that the interface can be implemented. *)

From Stdlib Require Import ZArith Lia.
From stdpp Require Import base tactics strings numbers list.
From S2P Require Import Prelude.
Open Scope Z_scope.

Module Hashing.

Abbreviation bytes := (list Z).
Abbreviation Hash32 := (list Z).
Abbreviation Address := (list Z).

Class FieldHash : Type := hash_fields_bytes : list bytes -> Hash32.

Class CollisionFree (H : FieldHash) : Prop :=
  hash_fields_inj : forall a b, hash_fields_bytes a = hash_fields_bytes b -> a = b.

(** A byte-string literal [b"..."]. *)
Definition ascii_bytes (s : string) : bytes :=
  map (fun c => Z.of_nat (Ascii.nat_of_ascii c)) (String.list_ascii_of_string s).

(** [x.to_le_bytes()] for [u32], [u64] and [u128]. *)
Definition u32_le (x : Z) : bytes := le_encode 4 x.
Definition u64_le (x : Z) : bytes := le_encode 8 x.
Definition u128_le (x : Z) : bytes := le_encode 16 x.

(** [[0u8; 32]] *)
Definition zero32 : Hash32 := replicate 32 0.

(** The derived order on byte arrays: lexicographic. *)
Fixpoint bytes_leb (a b : bytes) : bool :=
  match a, b with
  | [], _ => true
  | _ :: _, [] => false
  | x :: a, y :: b => (x <? y) || ((x =? y) && bytes_leb a b)
  end.
Definition bytes_le (a b : bytes) : Prop := bytes_leb a b = true.
#[export] Instance bytes_le_dec a b : Decision (bytes_le a b).
Proof. unfold bytes_le. apply _. Defined.

(** A collision-free instance: every field is written after its length. *)
Definition framed_hash : FieldHash := fun fields => concat (map (fun f => zlen f :: f) fields).

Lemma framed_hash_inj : CollisionFree framed_hash.
Proof.
  intros a. induction a as [|x a IH]; intros [|y b] E; try done.
  unfold hash_fields_bytes, framed_hash in *. simpl in E.
  injection E as Hlen E. unfold zlen in Hlen. apply Nat2Z.inj in Hlen.
  apply app_inj_1 in E as [-> E]; [|done]. f_equal. by apply IH.
Qed.

(** Fixed-width integers are read back from their encoding. *)
Lemma u32_le_inj x y : x ∈u U32 -> y ∈u U32 -> u32_le x = u32_le y -> x = y.
Proof.
  intros Hx Hy E. apply (f_equal le_decode) in E. unfold u32_le in E.
  rewrite !le_decode_encode in E. change (256 ^ Z.of_nat 4) with U32 in E.
  by rewrite !Z.mod_small in E.
Qed.

Lemma u64_le_inj x y : x ∈u U64 -> y ∈u U64 -> u64_le x = u64_le y -> x = y.
Proof.
  intros Hx Hy E. apply (f_equal le_decode) in E. unfold u64_le in E.
  rewrite !le_decode_encode in E. change (256 ^ Z.of_nat 8) with U64 in E.
  by rewrite !Z.mod_small in E.
Qed.

Lemma u128_le_inj x y : x ∈u U128 -> y ∈u U128 -> u128_le x = u128_le y -> x = y.
Proof.
  intros Hx Hy E. apply (f_equal le_decode) in E. unfold u128_le in E.
  rewrite !le_decode_encode in E. change (256 ^ Z.of_nat 16) with U128 in E.
  by rewrite !Z.mod_small in E.
Qed.

Lemma u32_le_length x : length (u32_le x) = 4%nat.
Proof. apply length_le_encode. Qed.

Lemma u64_le_length x : length (u64_le x) = 8%nat.
Proof. apply length_le_encode. Qed.

(** Reading a fixed-width integer off the front. *)
Lemma u64_le_split x y r r' :
  x ∈u U64 -> y ∈u U64 -> u64_le x ++ r = u64_le y ++ r' -> x = y /\ r = r'.
Proof.
  intros Hx Hy E. apply app_inj_1 in E as [E ->]; [|by rewrite !u64_le_length].
  split; [|done]. by apply u64_le_inj.
Qed.

#[export] Hint Resolve u32_le_inj u64_le_inj u128_le_inj : budlum.

End Hashing.
