(* ===== verification/Merkle.v ===== *)
(** * Merkle commitments (src/settlement/commitment_tree.rs,
      src/cross_domain/event_tree.rs)

    [merkle_root] folds a level of digests pairwise, an odd last digest being
    paired with itself; [DomainEventTree] commits to the events of a domain
    and hands out inclusion proofs; [verify] replays a proof.

    Theorems: every proof the tree hands out verifies against its root;
    with a collision-free hash a proof of the tree's depth for an index of
    the tree can only be for the leaf at that index; with a hash that also
    never takes a leaf for a node, a proof of any index and length is for a
    leaf of the tree; and a tree with an odd
    level has the root of the tree with its last leaf repeated. *)

From Stdlib Require Import ZArith Lia.
From stdpp Require Import base tactics strings numbers list.
From S2P Require Import Prelude Hashing.
Import Hashing.
Open Scope Z_scope.

Module Merkle.

Section tree.
Context {H : FieldHash}.

(** [hash_fields_bytes(&[b"BDLM_MERKLE_NODE_V1", &left, &right])] *)
Definition node (left right : Hash32) : Hash32 :=
  hash_fields_bytes [ascii_bytes "BDLM_MERKLE_NODE_V1"; left; right].

(** [for pair in level.chunks(2)] *)
Fixpoint next_level (level : list Hash32) : list Hash32 :=
  match level with
  | [] => []
  | [l] => [node l l]
  | l :: r :: rest => node l r :: next_level rest
  end.

(** [while level.len() > 1].  Each round halves the level, so its length is
    enough fuel. *)
Fixpoint root_loop (fuel : nat) (level : list Hash32) : list Hash32 :=
  match fuel with
  | O => level
  | S fuel => if 1 <? zlen level then root_loop fuel (next_level level) else level
  end.

Definition merkle_root (leaves : list Hash32) : Hash32 :=
  match leaves with
  | [] => hash_fields_bytes [ascii_bytes "BDLM_EMPTY_MERKLE_ROOT_V1"]
  | _ => nth 0 (root_loop (length leaves) leaves) []
  end.

Record MerkleProof : Type := mkProof {
  leaf : Hash32;
  index : Z;
  siblings : list Hash32;
}.

(** The loop of [DomainEventTree::proof], collecting siblings. *)
Fixpoint proof_loop (fuel : nat) (idx : Z) (level : list Hash32) (sibs : list Hash32)
    : list Hash32 :=
  match fuel with
  | O => sibs
  | S fuel =>
      if 1 <? zlen level then
        let sibling_idx := if Z.even idx then idx + 1 else idx - 1 in
        let sibling := default (nth (Z.to_nat idx) level []) (level !! Z.to_nat sibling_idx) in
        proof_loop fuel (idx / 2) (next_level level) (sibs ++ [sibling])
      else sibs
  end.

Definition leaf_proof (leaves : list Hash32) (i : Z) : option MerkleProof :=
  if zlen leaves <=? i then None
  else Some {| leaf := nth (Z.to_nat i) leaves []; index := i;
               siblings := proof_loop (length leaves) i leaves [] |}.

(** The loop of [MerkleProof::verify]. *)
Fixpoint climb (hash : Hash32) (i : Z) (sibs : list Hash32) : Hash32 :=
  match sibs with
  | [] => hash
  | s :: sibs => climb (if Z.even i then node hash s else node s hash) (i / 2) sibs
  end.

Definition verify (p : MerkleProof) (expected_root : Hash32) : bool :=
  bool_decide (climb (leaf p) (index p) (siblings p) = expected_root).

(** The number of rounds of a level of [n] digests. *)
Fixpoint depth_fuel (fuel : nat) (n : Z) : nat :=
  match fuel with
  | O => O
  | S fuel => if 1 <? n then S (depth_fuel fuel ((n + 1) / 2)) else O
  end.
Definition depth (leaves : list Hash32) : nat := depth_fuel (length leaves) (zlen leaves).

(** ** Levels *)

Lemma list_pair_ind (P : list Hash32 -> Prop) :
  P [] -> (forall a, P [a]) -> (forall a b l, P l -> P (a :: b :: l)) -> forall l, P l.
Proof.
  intros H0 H1 H2. fix IH 1. intros [|a [|b l]]; [done|done|]. apply H2, IH.
Qed.

Lemma zlen_next_level level : zlen (next_level level) = (zlen level + 1) / 2.
Proof.
  induction level as [|a|a b l IH] using list_pair_ind; [done|done|].
  cbn [next_level]. unfold zlen in *. cbn [length]. rewrite !Nat2Z.inj_succ, IH.
  replace (Z.succ (Z.succ (Z.of_nat (length l))) + 1) with (Z.of_nat (length l) + 1 + 1 * 2) by lia.
  rewrite Z.div_add by lia. lia.
Qed.

(** Node [k] of the next level is built from digests [2k] and [2k + 1] (or
    [2k] twice at the end of an odd level). *)
Lemma next_level_lookup level k l :
  level !! (2 * k)%nat = Some l ->
  next_level level !! k = Some (node l (default l (level !! (2 * k + 1)%nat))).
Proof.
  revert k. induction level as [|a|a b r IH] using list_pair_ind; intros k Hk; [done| |].
  - destruct k as [|k]; [by simplify_eq/=|]. by replace (2 * S k)%nat with (S (S (2 * k))) in Hk by lia.
  - destruct k as [|k]; [by simplify_eq/=|].
    replace (2 * S k)%nat with (S (S (2 * k))) in Hk by lia.
    replace (2 * S k + 1)%nat with (S (S (2 * k + 1))) by lia. by apply IH.
Qed.

Lemma half_lt n : 1 < n -> (n + 1) / 2 < n.
Proof. intros. dlia. Qed.

(** The node above digest [i] of a level, from digest [i] and its sibling. *)
Definition sibling_of (level : list Hash32) (i : Z) : Hash32 :=
  default (nth (Z.to_nat i) level []) (level !! Z.to_nat (if Z.even i then i + 1 else i - 1)).

Lemma nth_default_lookup (level : list Hash32) n x : level !! n = Some x -> nth n level [] = x.
Proof. intros E. by rewrite nth_lookup, E. Qed.

Lemma next_level_parent level i :
  0 <= i < zlen level ->
  next_level level !! Z.to_nat (i / 2) =
  Some (if Z.even i then node (nth (Z.to_nat i) level []) (sibling_of level i)
        else node (sibling_of level i) (nth (Z.to_nat i) level [])).
Proof.
  intros Hi. unfold sibling_of, zlen in *. set (k := Z.to_nat (i / 2)).
  destruct (Z.even i) eqn:E.
  - apply Z.even_spec in E as [m ->].
    assert (k = Z.to_nat m) as Hk. { unfold k. by rewrite Z.mul_comm, Z.div_mul. }
    replace (Z.to_nat (2 * m)) with (2 * k)%nat by lia.
    replace (Z.to_nat (2 * m + 1)) with (2 * k + 1)%nat by lia.
    destruct (lookup_lt_is_Some_2 level (2 * k)%nat) as [l Hl]; [lia|].
    rewrite (nth_default_lookup _ _ _ Hl). by apply next_level_lookup.
  - rewrite <- Z.negb_odd in E. apply negb_false_iff, Z.odd_spec in E as [m ->].
    assert (k = Z.to_nat m) as Hk.
    { unfold k. rewrite (Z.mul_comm 2 m), Z.add_comm, Z.div_add by lia. f_equal. }
    replace (Z.to_nat (2 * m + 1)) with (2 * k + 1)%nat by lia.
    replace (Z.to_nat (2 * m + 1 - 1)) with (2 * k)%nat by lia.
    destruct (lookup_lt_is_Some_2 level (2 * k)%nat) as [l Hl]; [lia|].
    destruct (lookup_lt_is_Some_2 level (2 * k + 1)%nat) as [r Hr]; [lia|].
    rewrite (nth_default_lookup _ _ _ Hr), Hl. simpl.
    rewrite (next_level_lookup _ _ _ Hl), Hr. done.
Qed.

Lemma proof_loop_acc fuel i level acc :
  proof_loop fuel i level acc = acc ++ proof_loop fuel i level [].
Proof.
  revert i level acc. induction fuel as [|fuel IH]; intros i level acc; simpl.
  - by rewrite app_nil_r.
  - case_match; [|by rewrite app_nil_r].
    rewrite IH, (IH _ _ [_]). by rewrite <- app_assoc.
Qed.

Lemma half_index i n : 0 <= i < n -> 1 < n -> 0 <= i / 2 < (n + 1) / 2.
Proof. intros. dlia. Qed.

Lemma climb_root fuel level i :
  0 <= i < zlen level -> zlen level <= Z.of_nat fuel ->
  climb (nth (Z.to_nat i) level []) i (proof_loop fuel i level [])
  = nth 0 (root_loop fuel level) [].
Proof.
  revert level i. induction fuel as [|fuel IH]; intros level i Hi Hf; [lia|].
  cbn [proof_loop root_loop]. destruct (Z.ltb_spec 1 (zlen level)).
  - rewrite proof_loop_acc. cbn [app climb]. fold (sibling_of level i).
    pose proof (next_level_parent level i Hi) as Hp. apply nth_default_lookup in Hp.
    rewrite <- Hp. apply IH; rewrite zlen_next_level; [by apply half_index|].
    pose proof (half_lt (zlen level)). lia.
  - assert (i = 0) as -> by lia. done.
Qed.

(** Completeness.  Every inclusion proof the tree hands out (one for
    each index of the tree, none beyond) verifies against the root of the
    tree, whatever the number of leaves. *)
Theorem leaf_proof_complete (leaves : list Hash32) (i : Z) (Hi : 0 <= i) :
  (i < zlen leaves -> exists p, leaf_proof leaves i = Some p /\ index p = i /\
     leaves !! Z.to_nat i = Some (leaf p) /\ verify p (merkle_root leaves) = true) /\
  (zlen leaves <= i -> leaf_proof leaves i = None).
Proof.
  unfold leaf_proof. destruct (Z.leb_spec (zlen leaves) i); split; intros; try done; try lia.
  eexists. split; [done|]. cbn [index leaf siblings].
  destruct (lookup_lt_is_Some_2 leaves (Z.to_nat i)) as [x Hx]; [unfold zlen in *; lia|].
  split; [done|]. split; [by rewrite (nth_default_lookup _ _ _ Hx)|].
  unfold verify. cbn [index leaf siblings]. apply bool_decide_eq_true_2.
  rewrite climb_root by (unfold zlen in *; lia). by destruct leaves.
Qed.

(** ** Odd levels *)

Lemma next_level_app l k :
  Nat.even (length l) = true -> next_level (l ++ k) = next_level l ++ next_level k.
Proof.
  induction l as [|a|a b r IH] using list_pair_ind; intros E; [done|done|].
  cbn [app next_level]. by rewrite IH.
Qed.

Lemma root_loop_fuel fuel fuel' level :
  zlen level <= Z.of_nat fuel -> zlen level <= Z.of_nat fuel' ->
  root_loop fuel level = root_loop fuel' level.
Proof.
  revert fuel' level. induction fuel as [|fuel IH]; intros [|fuel'] level Hf Hf'; cbn [root_loop];
    try (destruct (Z.ltb_spec 1 (zlen level)); [lia|done]).
  destruct (Z.ltb_spec 1 (zlen level)); [|done].
  pose proof (zlen_next_level level). pose proof (half_lt (zlen level)). apply IH; lia.
Qed.

(** Repeated last leaves.  For an odd number of leaves greater than one,
    repeating the last leaf does not change the root: the commitment does not
    determine the number of leaves. *)
Theorem merkle_root_odd_repeat (l : list Hash32) (x : Hash32) (Hne : l <> [])
    (Heven : Nat.even (length l) = true) :
  merkle_root (l ++ [x]) = merkle_root (l ++ [x; x]).
Proof.
  assert (E : next_level (l ++ [x]) = next_level (l ++ [x; x])) by (by rewrite !next_level_app).
  assert (Hroot : forall k, k <> [] -> 1 < zlen (l ++ k) ->
    merkle_root (l ++ k) = nth 0 (root_loop (pred (length (l ++ k))) (next_level (l ++ k))) []).
  { intros k Hk Hlen. destruct (l ++ k) as [|y r] eqn:Elk; [by destruct l|].
    unfold merkle_root. cbn [length root_loop pred].
    by destruct (Z.ltb_spec 1 (zlen (y :: r))); [|lia]. }
  assert (2 <= length l)%nat by (destruct l as [|a [|b l]]; simpl in *; [done|done|lia]).
  rewrite !Hroot by (try done; rewrite zlen_app; unfold zlen in *; simpl; lia).
  rewrite E. f_equal. pose proof (zlen_next_level (l ++ [x; x])) as Hn. rewrite zlen_app in Hn.
  apply root_loop_fuel; rewrite Hn, length_app; unfold zlen in *; simpl length;
    clear - H0; dlia.
Qed.

(** ** Soundness *)

Context `{HC : !CollisionFree H}.

Lemma node_inj a b c d : node a b = node c d -> a = c /\ b = d.
Proof. unfold node. intros E%hash_fields_inj. by simplify_eq. Qed.

Lemma climb_sound fuel level i x sibs :
  0 <= i < zlen level -> zlen level <= Z.of_nat fuel ->
  length sibs = depth_fuel fuel (zlen level) ->
  climb x i sibs = nth 0 (root_loop fuel level) [] ->
  level !! Z.to_nat i = Some x.
Proof.
  revert level i x sibs. induction fuel as [|fuel IH]; intros level i x sibs Hi Hf Hl Hc; [lia|].
  cbn [depth_fuel root_loop] in *. destruct (Z.ltb_spec 1 (zlen level)).
  - destruct sibs as [|s sibs]; [done|]. cbn [climb] in Hc.
    apply IH in Hc; cycle 1.
    { rewrite zlen_next_level. by apply half_index. }
    { rewrite zlen_next_level. pose proof (half_lt (zlen level)). lia. }
    { rewrite zlen_next_level. by injection Hl. }
    rewrite next_level_parent in Hc by done. injection Hc as Hc.
    destruct (lookup_lt_is_Some_2 level (Z.to_nat i)) as [y Hy]; [unfold zlen in *; lia|].
    rewrite (nth_default_lookup _ _ _ Hy) in Hc. rewrite Hy. f_equal.
    destruct (Z.even i); apply node_inj in Hc as [??]; congruence.
  - assert (i = 0) as -> by lia. destruct sibs; [|done]. cbn [climb] in Hc. subst x.
    destruct level; [unfold zlen in *; simpl in *; lia|done].
Qed.

(** A digest that is no inner node of a tree. *)
Definition not_node (x : Hash32) : Prop := forall a b, x <> node a b.

(** [built L n v]: the digest [v] is a full tree of [n] levels over digests of [L]. *)
Inductive built (L : list Hash32) : nat -> Hash32 -> Prop :=
| built_leaf x : x ∈ L -> not_node x -> built L 0 x
| built_node n a b : built L n a -> built L n b -> built L (S n) (node a b).

Lemma climb_snoc x i sibs s : exists c : bool,
  climb x i (sibs ++ [s]) = if c then node (climb x i sibs) s else node s (climb x i sibs).
Proof.
  revert x i. induction sibs as [|t sibs IH]; intros x i; cbn [app climb]; [by exists (Z.even i)|apply IH].
Qed.

(** Whatever path is offered, it starts at a leaf. *)
Lemma built_climb L n v : built L n v -> forall x i sibs, not_node x -> climb x i sibs = v -> x ∈ L.
Proof.
  induction 1 as [y Hy Hn|n a b Ha IHa Hb IHb]; intros x i sibs Hx E.
  - destruct sibs as [|s sibs _] using rev_ind; [by subst|].
    destruct (climb_snoc x i sibs s) as [[] Ec]; rewrite Ec in E; symmetry in E; by apply Hn in E.
  - destruct sibs as [|s sibs _] using rev_ind; [by apply Hx in E|].
    destruct (climb_snoc x i sibs s) as [[] Ec]; rewrite Ec in E; apply node_inj in E as [E1 E2]; eauto.
Qed.

Lemma next_level_built L n level : Forall (built L n) level -> Forall (built L (S n)) (next_level level).
Proof.
  induction level as [|a|a b l IH] using list_pair_ind; cbn [next_level]; rewrite ?Forall_cons; intros Hf; [done|..];
    destruct_and?; split_and!; try done; [by constructor|by constructor|by apply IH].
Qed.

Lemma root_built L fuel n level : Forall (built L n) level -> 0 < zlen level <= Z.of_nat fuel ->
  exists m, built L m (nth 0 (root_loop fuel level) []).
Proof.
  revert n level. induction fuel as [|fuel IH]; intros n level Hf Hl; [lia|]. cbn [root_loop].
  destruct (Z.ltb_spec 1 (zlen level)).
  - apply (IH (S n)); [by apply next_level_built|]. rewrite zlen_next_level. pose proof (half_lt (zlen level)). split; [|lia].
    apply Z.div_str_pos. lia.
  - destruct level as [|x level]; [unfold zlen in *; simpl in *; lia|]. exists n. by apply Forall_cons in Hf as [? _].
Qed.

(** Soundness against any proof.  When neither the leaf of a proof nor those of
    the tree are inner nodes, a proof that verifies has a leaf of the tree,
    whatever its index and the number of its siblings. *)
Lemma merkle_member leaves p : Forall not_node leaves -> not_node (leaf p) ->
  leaf p <> hash_fields_bytes [ascii_bytes "BDLM_EMPTY_MERKLE_ROOT_V1"] ->
  verify p (merkle_root leaves) = true -> leaf p ∈ leaves.
Proof.
  intros Hn Hp He Hv. unfold verify in Hv. apply bool_decide_eq_true_1 in Hv.
  destruct leaves as [|l leaves].
  - exfalso. destruct (siblings p) as [|s sibs _] using rev_ind; [by apply He|].
    destruct (climb_snoc (leaf p) (index p) sibs s) as [[] Ec]; rewrite Ec in Hv; unfold node, merkle_root in Hv; by apply hash_fields_inj in Hv.
  - destruct (root_built (l :: leaves) (length (l :: leaves)) 0 (l :: leaves)) as [m Hm].
    + rewrite Forall_forall in Hn |- *. intros x Hx. constructor; auto.
    + unfold zlen. cbn [length]. lia.
    + exact (built_climb _ _ _ Hm _ _ _ Hp Hv).
Qed.

(** Soundness.  With a collision-free hash, a proof that verifies against
    the root of a tree, has the depth of the tree and an index inside it, is a
    proof for the leaf at that index: no other value can be shown to be
    there. *)
Theorem merkle_proof_sound (leaves : list Hash32) (p : MerkleProof)
    (Hindex : 0 <= index p < zlen leaves) (Hdepth : length (siblings p) = depth leaves)
    (Hv : verify p (merkle_root leaves) = true) :
  leaves !! Z.to_nat (index p) = Some (leaf p).
Proof.
  unfold verify in Hv. apply bool_decide_eq_true_1 in Hv.
  destruct leaves as [|l leaves]; [unfold zlen in *; simpl in *; lia|].
  eapply climb_sound; [done| |exact Hdepth|exact Hv]. unfold zlen. lia.
Qed.

End tree.

Lemma merkle_root_odd_repeat_witness :
  merkle_root (H := framed_hash) [[1]; [2]; [3]] = merkle_root (H := framed_hash) [[1]; [2]; [3]; [3]].
Proof. apply (merkle_root_odd_repeat (H := framed_hash) [[1]; [2]] [3]); done. Defined.

Lemma leaf_proof_complete_witness :
  exists p, leaf_proof (H := framed_hash) [[1]; [2]; [3]] 2 = Some p /\
    verify (H := framed_hash) p (merkle_root (H := framed_hash) [[1]; [2]; [3]]) = true.
Proof.
  destruct (leaf_proof_complete (H := framed_hash) [[1]; [2]; [3]] 2 ltac:(lia)) as [Hp _].
  destruct (Hp ltac:(vm_compute; reflexivity)) as (p & E & _ & _ & Hv). exists p. split; [exact E|exact Hv].
Defined.

Lemma merkle_proof_sound_witness :
  let leaves := [[1]; [2]; [3]] in
  let p := mkProof [3] 2 (siblings (default (mkProof [] 0 []) (leaf_proof (H := framed_hash) leaves 2))) in
  verify (H := framed_hash) p (merkle_root (H := framed_hash) leaves) = true /\
  leaves !! Z.to_nat 2 = Some [3].
Proof.
  intros leaves p.
  assert (Hv : verify (H := framed_hash) p (merkle_root (H := framed_hash) leaves) = true)
    by (vm_compute; reflexivity).
  split; [exact Hv|].
  exact (merkle_proof_sound (H := framed_hash) (HC := framed_hash_inj) leaves p
           ltac:(vm_compute; split; congruence) eq_refl Hv).
Defined.

End Merkle.
