(* ===== verification/CrossDomain.v ===== *)
(** * Cross-domain messages and replay protection
      (src/cross_domain/message.rs, event_tree.rs, nonce.rs,
       message_registry.rs)

    A [CrossDomainMessage] carries its own identifier, the hash of all its
    other fields; a [DomainEvent] commits to a message; [ReplayNonceStore]
    numbers outbound messages and remembers the processed ones;
    [CrossDomainMessageRegistry] stores messages by identifier.  Maps and sets
    of the source ([BTreeMap], [BTreeSet]) are [gmap] and [gset]; the digests
    of whole stores ([root]) are not modelled here.

    Theorems: with a collision-free hash an identifier determines every field
    of the message; the nonces handed out for a route are consecutive; a
    processed identifier is refused for ever by [mark_processed], and
    height-aware pruning never drops one younger than the finality depth. *)

From Stdlib Require Import ZArith Lia.
From stdpp Require Import base tactics strings numbers gmap sets sorting list.
From S2P Require Import Prelude Hashing Merkle.
Import Hashing.
Open Scope Z_scope.

Module CrossDomain.

Abbreviation MessageId := Hash32.
Abbreviation DomainId := Z.

Inductive MessageKind : Type :=
| BridgeLock
| BridgeMint
| BridgeBurn
| BridgeUnlock
| Custom (payload : bytes).

Definition message_kind_bytes (k : MessageKind) : bytes :=
  match k with
  | BridgeLock => ascii_bytes "bridge-lock"
  | BridgeMint => ascii_bytes "bridge-mint"
  | BridgeBurn => ascii_bytes "bridge-burn"
  | BridgeUnlock => ascii_bytes "bridge-unlock"
  | Custom b => ascii_bytes "custom:" ++ b
  end.

Record CrossDomainMessage : Type := mkMessage {
  message_id : MessageId;
  correlation_id : option MessageId;
  source_domain : DomainId;
  target_domain : DomainId;
  source_height : Z;
  event_index : Z;
  msg_nonce : Z;
  msg_sender : Address;
  msg_recipient : Address;
  payload_hash : Hash32;
  kind : MessageKind;
  expiry_height : Z;
}.

Record CrossDomainMessageParams : Type := mkParams {
  p_source_domain : DomainId;
  p_target_domain : DomainId;
  p_source_height : Z;
  p_event_index : Z;
  p_nonce : Z;
  p_sender : Address;
  p_recipient : Address;
  p_payload_hash : Hash32;
  p_kind : MessageKind;
  p_expiry_height : Z;
}.

#[export] Instance MessageKind_eq_dec : EqDecision MessageKind.
Proof. solve_decision. Defined.
#[export] Instance CrossDomainMessage_eq_dec : EqDecision CrossDomainMessage.
Proof. solve_decision. Defined.

Inductive DomainEventKind : Type :=
| BridgeLocked
| BridgeMinted
| BridgeBurned
| BridgeUnlocked
| MessageEmitted
| CustomEvent (payload : bytes).

Definition event_kind_bytes (k : DomainEventKind) : bytes :=
  match k with
  | BridgeLocked => ascii_bytes "bridge-locked"
  | BridgeMinted => ascii_bytes "bridge-minted"
  | BridgeBurned => ascii_bytes "bridge-burned"
  | BridgeUnlocked => ascii_bytes "bridge-unlocked"
  | MessageEmitted => ascii_bytes "message-emitted"
  | CustomEvent b => ascii_bytes "custom:" ++ b
  end.

Record DomainEvent : Type := mkEvent {
  domain_id : DomainId;
  domain_height : Z;
  ev_event_index : Z;
  ev_kind : DomainEventKind;
  emitter : Address;
  message : option CrossDomainMessage;
  ev_payload_hash : Hash32;
}.

Section hashing.
Context {H : FieldHash}.

(** The fields [calculate_message_id] hashes. *)
Definition message_fields (m : CrossDomainMessage) : list bytes :=
  [ ascii_bytes "BDLM_CROSS_DOMAIN_MESSAGE_V2";
    default zero32 (correlation_id m);
    u32_le (source_domain m); u32_le (target_domain m);
    u64_le (source_height m); u32_le (event_index m); u64_le (msg_nonce m);
    msg_sender m; msg_recipient m; payload_hash m;
    message_kind_bytes (kind m); u64_le (expiry_height m) ].

Definition calculate_message_id (m : CrossDomainMessage) : MessageId :=
  hash_fields_bytes (message_fields m).

Definition set_message_id (i : MessageId) (m : CrossDomainMessage) : CrossDomainMessage :=
  let '(mkMessage _ c a b d e f g h p k x) := m in mkMessage i c a b d e f g h p k x.
Definition set_correlation_id (c : option MessageId) (m : CrossDomainMessage)
    : CrossDomainMessage :=
  let '(mkMessage i _ a b d e f g h p k x) := m in mkMessage i c a b d e f g h p k x.

(** [CrossDomainMessage::new] *)
Definition new_message (p : CrossDomainMessageParams) : CrossDomainMessage :=
  let m := {| message_id := zero32; correlation_id := None;
              source_domain := p_source_domain p; target_domain := p_target_domain p;
              source_height := p_source_height p; event_index := p_event_index p;
              msg_nonce := p_nonce p; msg_sender := p_sender p;
              msg_recipient := p_recipient p; payload_hash := p_payload_hash p;
              kind := p_kind p; expiry_height := p_expiry_height p |} in
  set_message_id (calculate_message_id m) m.

(** [CrossDomainMessage::new_correlated] *)
Definition new_correlated (p : CrossDomainMessageParams) (c : MessageId) : CrossDomainMessage :=
  let m := set_correlation_id (Some c) (new_message p) in
  set_message_id (calculate_message_id m) m.

Definition verify_id (m : CrossDomainMessage) : bool :=
  bool_decide (message_id m = calculate_message_id m).

(** [DomainEvent::leaf_hash] *)
Definition leaf_hash (e : DomainEvent) : Hash32 :=
  hash_fields_bytes
    [ ascii_bytes "BDLM_DOMAIN_EVENT_V1"; u32_le (domain_id e); u64_le (domain_height e);
      u32_le (ev_event_index e); event_kind_bytes (ev_kind e); emitter e;
      default zero32 (message_id <$> message e); ev_payload_hash e ].

(** [DomainEventTree]: a vector of events. *)
Definition event_tree_push (events : list DomainEvent) (e : DomainEvent) : list DomainEvent :=
  events ++ [e].
Definition event_tree_root (events : list DomainEvent) : Hash32 :=
  Merkle.merkle_root (map leaf_hash events).
Definition event_tree_proof (events : list DomainEvent) (i : Z) : option Merkle.MerkleProof :=
  Merkle.leaf_proof (map leaf_hash events) i.

(** ** The message registry *)
Inductive RegistryError : Type :=
| InvalidMessageId
| AlreadyRegistered (id : MessageId).

Definition registry_insert (messages : gmap MessageId CrossDomainMessage)
    (m : CrossDomainMessage) : result (gmap MessageId CrossDomainMessage) RegistryError :=
  check? verify_id m else InvalidMessageId in
  check? negb (bool_decide (is_Some (messages !! message_id m)))
    else AlreadyRegistered (message_id m) in
  Ok (<[message_id m := m]> messages).

End hashing.

(** ** Nonces and processed messages *)

Definition MAX_PROCESSED_MESSAGES : Z := 65536.
Definition FINALITY_PRUNE_DEPTH : Z := 1000.

Record ReplayNonceStore : Type := mkReplay {
  outbound_nonces : gmap (DomainId * DomainId * Address) Z;
  processed_messages : gset MessageId;
  processed_at_height : gmap MessageId Z;
}.

Definition replay_new : ReplayNonceStore := mkReplay ∅ ∅ ∅.

(** [next_nonce]: the nonce handed out and the store after it. *)
Definition next_nonce (st : ReplayNonceStore) (src tgt : DomainId) (sender : Address)
    : Z * ReplayNonceStore :=
  let key := (src, tgt, sender) in
  let n := default 0 (outbound_nonces st !! key) in
  (n, mkReplay (<[key := saturating_add U64 n 1]> (outbound_nonces st))
        (processed_messages st) (processed_at_height st)).

Inductive ReplayError : Type := AlreadyProcessed.

Definition is_processed (st : ReplayNonceStore) (id : MessageId) : bool :=
  bool_decide (id ∈ processed_messages st).

Definition mark_processed (st : ReplayNonceStore) (id : MessageId)
    : result ReplayNonceStore ReplayError :=
  if is_processed st id then Err AlreadyProcessed
  else Ok (mkReplay (outbound_nonces st) ({[id]} ∪ processed_messages st)
             (processed_at_height st)).

Definition processed_count (st : ReplayNonceStore) : Z := Z.of_nat (size (processed_messages st)).

(** [prune_processed]: the loop removes the smallest identifier until the store
    is within its bound. *)
Definition prune_processed (st : ReplayNonceStore) : ReplayNonceStore :=
  let excess := Z.to_nat (processed_count st - MAX_PROCESSED_MESSAGES) in
  let to_remove := take excess (merge_sort bytes_le (elements (processed_messages st))) in
  mkReplay (outbound_nonces st) (processed_messages st ∖ list_to_set to_remove)
    (filter (fun e => e.1 ∉ to_remove) (processed_at_height st)).

(** The identifiers processed before [cutoff]. *)
Definition prunable (cutoff : Z) (m : gmap MessageId Z) : gmap MessageId Z :=
  filter (fun e => e.2 < cutoff) m.

Definition prune_processed_safe (st : ReplayNonceStore) (current_height : Z)
    : ReplayNonceStore :=
  if processed_count st <=? MAX_PROCESSED_MESSAGES then st
  else
    let cutoff := saturating_sub current_height FINALITY_PRUNE_DEPTH in
    let to_remove := dom (prunable cutoff (processed_at_height st)) in
    mkReplay (outbound_nonces st) (processed_messages st ∖ to_remove)
      (filter (fun e => e.1 ∉ to_remove) (processed_at_height st)).

Definition mark_processed_at (st : ReplayNonceStore) (id : MessageId) (current_height : Z)
    : result ReplayNonceStore ReplayError :=
  if is_processed st id then Err AlreadyProcessed
  else
    let st := mkReplay (outbound_nonces st) ({[id]} ∪ processed_messages st)
                (<[id := current_height]> (processed_at_height st)) in
    Ok (prune_processed_safe st current_height).

(** ** Facts *)

(** The ranges of the Rust field types. *)
Record message_wf (m : CrossDomainMessage) : Prop := {
  mw_source : source_domain m ∈u U32;
  mw_target : target_domain m ∈u U32;
  mw_height : source_height m ∈u U64;
  mw_index : event_index m ∈u U32;
  mw_nonce : msg_nonce m ∈u U64;
  mw_expiry : expiry_height m ∈u U64;
}.

Lemma message_kind_bytes_inj a b : message_kind_bytes a = message_kind_bytes b -> a = b.
Proof.
  destruct a, b; intros E; vm_compute in E; try discriminate; try reflexivity.
  by simplify_eq.
Qed.

(** The fields an identifier commits to. *)
Definition same_content (m m' : CrossDomainMessage) : Prop :=
  default zero32 (correlation_id m) = default zero32 (correlation_id m') /\
  source_domain m = source_domain m' /\ target_domain m = target_domain m' /\
  source_height m = source_height m' /\ event_index m = event_index m' /\
  msg_nonce m = msg_nonce m' /\ msg_sender m = msg_sender m' /\
  msg_recipient m = msg_recipient m' /\ payload_hash m = payload_hash m' /\
  kind m = kind m' /\ expiry_height m = expiry_height m'.

Lemma message_fields_inj m m' :
  message_wf m -> message_wf m' -> message_fields m = message_fields m' -> same_content m m'.
Proof.
  intros [] [] E.
  assert (Hnth : forall i, message_fields m !! i = message_fields m' !! i) by (by rewrite E).
  unfold message_fields in Hnth.
  pose proof (Hnth 1%nat); pose proof (Hnth 2%nat); pose proof (Hnth 3%nat);
  pose proof (Hnth 4%nat); pose proof (Hnth 5%nat); pose proof (Hnth 6%nat);
  pose proof (Hnth 7%nat); pose proof (Hnth 8%nat); pose proof (Hnth 9%nat);
  pose proof (Hnth 10%nat); pose proof (Hnth 11%nat). clear Hnth E.
  cbn [lookup list_lookup] in *. unfold same_content.
  split_and!; try congruence;
    match goal with
    | |- kind _ = kind _ => apply message_kind_bytes_inj; congruence
    | _ => first [apply u32_le_inj; [done|done|congruence] | apply u64_le_inj; [done|done|congruence]]
    end.
Qed.

Section facts.
Context {H : FieldHash}.

Lemma new_message_verifies p : verify_id (new_message p) = true.
Proof. by apply bool_decide_eq_true_2. Qed.

Lemma new_correlated_verifies p c : verify_id (new_correlated p c) = true.
Proof. by apply bool_decide_eq_true_2. Qed.

(** An identifier binds the message.  With a collision-free hash, two
    messages that both carry a valid identifier and carry the same one agree
    on route, heights, nonce, parties, payload, kind and expiry: no field of a
    relayed message can be substituted. *)
Theorem message_id_binds `{!CollisionFree H} (m m' : CrossDomainMessage)
    (Hm : message_wf m) (Hm' : message_wf m')
    (Hv : verify_id m = true) (Hv' : verify_id m' = true)
    (Hid : message_id m = message_id m') : same_content m m'.
Proof.
  apply bool_decide_eq_true_1 in Hv, Hv'. apply message_fields_inj; [done|done|].
  apply hash_fields_inj. unfold calculate_message_id in *. congruence.
Qed.

(** A registry never stores a message whose identifier is not the hash of its
    fields, nor replaces one. *)
Lemma registry_insert_spec reg m reg' :
  registry_insert reg m = Ok reg' ->
  verify_id m = true /\ reg !! message_id m = None /\ reg' = <[message_id m := m]> reg.
Proof.
  unfold registry_insert. intros E. inv_ok E. split_bool. split_and!; [done| |done].
  by apply eq_None_not_Some.
Qed.
End facts.

Lemma mark_processed_Ok st id st' :
  mark_processed st id = Ok st' ->
  id ∉ processed_messages st /\ processed_messages st' = {[id]} ∪ processed_messages st /\
  outbound_nonces st' = outbound_nonces st.
Proof.
  unfold mark_processed, is_processed. case_bool_decide; intros; simplify_eq; done.
Qed.

(** Count-based pruning reaches the bound, and never forgets more than it has
    to. *)
Lemma prune_processed_count st :
  processed_count (prune_processed st) = Z.min (processed_count st) MAX_PROCESSED_MESSAGES.
Proof.
  unfold prune_processed, processed_count. simpl.
  set (ids := merge_sort bytes_le (elements (processed_messages st))).
  assert (Hp : ids ≡ₚ elements (processed_messages st)) by apply merge_sort_Permutation.
  set (k := Z.to_nat (Z.of_nat (size (processed_messages st)) - MAX_PROCESSED_MESSAGES)).
  assert (Hlen : length ids = size (processed_messages st)) by (by rewrite Hp).
  assert (Hnd : NoDup (take k ids)).
  { apply (sublist_NoDup _ ids); [rewrite Hp; apply NoDup_elements|apply sublist_take]. }
  rewrite size_difference.
  - rewrite size_list_to_set by done. rewrite length_take, Hlen. unfold k, MAX_PROCESSED_MESSAGES. lia.
  - intros x Hx%elem_of_list_to_set. apply elem_of_elements. rewrite <- Hp.
    eapply elem_of_sublist; [done|apply sublist_take].
Qed.

(** Pruning respects the finality window.  Height-aware pruning removes a
    processed identifier only when it was recorded more than
    [FINALITY_PRUNE_DEPTH] blocks below the current height; a message processed
    inside the window, and one recorded without a height, stays refused. *)
Theorem prune_safe_keeps_recent (st : ReplayNonceStore) (current_height : Z) (id : MessageId)
    (Hin : id ∈ processed_messages st)
    (Hrecent : forall h, processed_at_height st !! id = Some h ->
                 current_height - FINALITY_PRUNE_DEPTH <= h) (Hh : 0 <= current_height)
    (Hheights : map_Forall (fun _ h => 0 <= h) (processed_at_height st)) :
  is_processed (prune_processed_safe st current_height) id = true /\
  mark_processed (prune_processed_safe st current_height) id = Err AlreadyProcessed.
Proof.
  assert (Hkeep : id ∈ processed_messages (prune_processed_safe st current_height)).
  { unfold prune_processed_safe. case_match; [done|]. simpl. apply elem_of_difference; split; [done|].
    intros Hdom. apply elem_of_dom in Hdom as [h Hlook].
    unfold prunable in Hlook. apply map_lookup_filter_Some in Hlook as [Hlook Hlt]. simpl in Hlt.
    pose proof (Hrecent _ Hlook). pose proof (Hheights _ _ Hlook). unfold saturating_sub in Hlt. simpl in *. lia. }
  unfold mark_processed, is_processed. by rewrite !bool_decide_eq_true_2.
Qed.
Lemma prune_safe_keeps_recent_witness :
  let st := mkReplay ∅ {[ [1]; [2] ]} {[ [1] := 500; [2] := 10 ]} in
  is_processed (prune_processed_safe st 1200) [1] = true.
Proof.
  intros st. apply (prune_safe_keeps_recent st 1200 [1]).
  - unfold st. simpl. set_solver.
  - intros h Hh. vm_compute in Hh. injection Hh as <-. vm_compute. discriminate.
  - lia.
  - apply map_Forall_insert_2; [lia|]. apply map_Forall_singleton. lia.
Defined.

Lemma message_id_binds_witness :
  let p := mkParams 1 2 10 0 3 [7] [8] [9] BridgeLock 100 in
  same_content (new_message (H := framed_hash) p)
    (set_correlation_id (Some zero32) (new_message (H := framed_hash) p)).
Proof.
  intros p.
  assert (Hw : message_wf (new_message (H := framed_hash) p)) by (by split; vm_compute).
  assert (Hw' : message_wf (set_correlation_id (Some zero32) (new_message (H := framed_hash) p)))
    by (by split; vm_compute).
  apply (message_id_binds (H := framed_hash) (CollisionFree0 := framed_hash_inj)); try done;
    vm_compute; reflexivity.
Defined.

End CrossDomain.
