(* ===== verification/Bridge.v ===== *)
(** * The bridge (src/cross_domain/bridge.rs)

    [BridgeState] moves single assets between domains: a lock on the source
    domain, a mint on the target domain against the lock message, a burn on
    the target domain and an unlock on the source domain; an expired lock is
    swept back.  Every operation returns the state it leaves behind next to its
    result, so that what an error leaves behind is part of the model; the error
    strings are constructors.

    [BridgeOp] and [apply_op] put the operations in sequences.  The theorems
    are about every sequence from the empty bridge whose arguments have the
    range of their Rust types: the custody invariant, at most one mint per
    message, what an accepted mint is bound to, that errors change nothing,
    what a sweep releases, and the round trip of an asset. *)

From Stdlib Require Import ZArith Lia Sorted.
From stdpp Require Import base tactics strings numbers gmap sorting list.
From S2P Require Import Prelude Hashing Merkle CrossDomain.
Import Hashing CrossDomain.
Open Scope Z_scope.

Module Bridge.

Abbreviation AssetId := Hash32.

Inductive BridgeStatus : Type :=
| Active (domain : DomainId)
| Locked (domain : DomainId)
| Minted (domain : DomainId)
| Burned (domain : DomainId)
| Unlocked (domain : DomainId).

#[export] Instance BridgeStatus_eq_dec : EqDecision BridgeStatus.
Proof. solve_decision. Defined.

Record BridgeTransfer : Type := mkTransfer {
  t_message_id : MessageId;
  asset_id : AssetId;
  t_source_domain : DomainId;
  t_target_domain : DomainId;
  owner : Address;
  recipient : Address;
  amount : Z;
  status : BridgeStatus;
  source_event_hash : Hash32;
  t_expiry_height : Z;
}.

(** [transfer.status = s] *)
Definition set_status (s : BridgeStatus) (t : BridgeTransfer) : BridgeTransfer :=
  let '(mkTransfer i a x y o r v _ e h) := t in mkTransfer i a x y o r v s e h.

Inductive BridgeError : Type :=
| FeeNotCovered (amount min_fee : Z)
| AssetAlreadyRegistered
| UnknownAsset
| AssetNotActive
| InvalidId
| UnknownTransfer
| PayloadMismatch (claimed bound : Hash32)
| MessageAlreadyProcessed
| NotLockedOnSource
| NotMintedOnBurnDomain
| NotBurnedOnTarget
| UnlockWrongDomain
| ReplayStore (e : ReplayError).

Record BridgeState : Type := mkBridge {
  asset_locations : gmap AssetId BridgeStatus;
  transfers : gmap MessageId BridgeTransfer;
  expiry_queue : gmap Z (list MessageId);
  replay : ReplayNonceStore;
}.

(** [split_bridge_fee]: the recipient's share and the relayer's. *)
Definition split_bridge_fee (amount fee_ppm min_fee : Z) : result (Z * Z) BridgeError :=
  if amount <=? min_fee then Err (FeeNotCovered amount min_fee)
  else
    let proportional := saturating_mul U128 amount fee_ppm / 1000000 in
    let fee := Z.max proportional min_fee in
    let recipient := saturating_sub amount fee in
    Ok (recipient, fee).

(** [BridgeState::new] *)
Definition bridge_new : BridgeState := mkBridge ∅ ∅ ∅ replay_new.

Definition register_asset (st : BridgeState) (asset : AssetId) (domain : DomainId)
    : BridgeState * result unit BridgeError :=
  if bool_decide (is_Some (asset_locations st !! asset)) then (st, Err AssetAlreadyRegistered)
  else (mkBridge (<[asset := Active domain]> (asset_locations st)) (transfers st)
          (expiry_queue st) (replay st), Ok tt).

Definition require_asset_status (st : BridgeState) (asset : AssetId) (expected : BridgeStatus)
    : result unit BridgeError :=
  match asset_locations st !! asset with
  | None => Err UnknownAsset
  | Some current => if bool_decide (current = expected) then Ok tt else Err AssetNotActive
  end.

Section operations.
Context {H : FieldHash}.

Definition bridge_payload_hash (asset : AssetId) (amount : Z) : Hash32 :=
  hash_fields_bytes [ascii_bytes "BDLM_BRIDGE_PAYLOAD_V1"; asset; u128_le amount].

(** The arguments of [lock]. *)
Record LockArgs : Type := mkLock {
  l_source_domain : DomainId;
  l_target_domain : DomainId;
  l_source_height : Z;
  l_event_index : Z;
  l_asset_id : AssetId;
  l_owner : Address;
  l_recipient : Address;
  l_amount : Z;
  l_expiry_height : Z;
}.

(** The message a lock emits. *)
Definition lock_params (a : LockArgs) (nonce : Z) : CrossDomainMessageParams :=
  mkParams (l_source_domain a) (l_target_domain a) (l_source_height a) (l_event_index a) nonce
    (l_owner a) (l_recipient a) (bridge_payload_hash (l_asset_id a) (l_amount a))
    BridgeLock (l_expiry_height a).

(** The event a lock emits, and the transfer it records. *)
Definition lock_event (a : LockArgs) (nonce : Z) : DomainEvent :=
  {| domain_id := l_source_domain a; domain_height := l_source_height a;
     ev_event_index := l_event_index a; ev_kind := BridgeLocked;
     emitter := l_owner a; message := Some (new_message (lock_params a nonce));
     ev_payload_hash := bridge_payload_hash (l_asset_id a) (l_amount a) |}.

Definition lock_transfer (a : LockArgs) (nonce : Z) : BridgeTransfer :=
  {| t_message_id := message_id (new_message (lock_params a nonce));
     asset_id := l_asset_id a;
     t_source_domain := l_source_domain a; t_target_domain := l_target_domain a;
     owner := l_owner a; recipient := l_recipient a; amount := l_amount a;
     status := Locked (l_source_domain a);
     source_event_hash := leaf_hash (lock_event a nonce);
     t_expiry_height := l_expiry_height a |}.

Definition lock (st : BridgeState) (a : LockArgs)
    : BridgeState * result (BridgeTransfer * DomainEvent) BridgeError :=
  match require_asset_status st (l_asset_id a) (Active (l_source_domain a)) with
  | Err e => (st, Err e)
  | Ok _ =>
      let '(nonce, replay') :=
        next_nonce (replay st) (l_source_domain a) (l_target_domain a) (l_owner a) in
      let transfer := lock_transfer a nonce in
      let queue :=
        if 0 <? l_expiry_height a then
          <[l_expiry_height a :=
              default [] (expiry_queue st !! l_expiry_height a) ++ [t_message_id transfer]]>
            (expiry_queue st)
        else expiry_queue st in
      (mkBridge (<[l_asset_id a := Locked (l_source_domain a)]> (asset_locations st))
         (<[t_message_id transfer := transfer]> (transfers st)) queue replay',
       Ok (transfer, lock_event a nonce))
  end.

Definition mint (st : BridgeState) (m : CrossDomainMessage)
    : BridgeState * result unit BridgeError :=
  if negb (verify_id m) then (st, Err InvalidId)
  else
    match transfers st !! message_id m with
    | None => (st, Err UnknownTransfer)
    | Some transfer =>
        let expected_payload := bridge_payload_hash (asset_id transfer) (amount transfer) in
        if negb (bool_decide (payload_hash m = expected_payload)) then
          (st, Err (PayloadMismatch (payload_hash m) expected_payload))
        else if is_processed (replay st) (message_id m) then (st, Err MessageAlreadyProcessed)
        else if negb (bool_decide (status transfer = Locked (source_domain m))) then
          (st, Err NotLockedOnSource)
        else
          match mark_processed (replay st) (message_id m) with
          | Err e => (st, Err (ReplayStore e))
          | Ok replay' =>
              let st := mkBridge (asset_locations st) (transfers st) (expiry_queue st) replay' in
              match transfers st !! message_id m with
              | None => (st, Err UnknownTransfer)
              | Some transfer =>
                  (mkBridge (<[asset_id transfer := Minted (target_domain m)]> (asset_locations st))
                     (<[message_id m := set_status (Minted (target_domain m)) transfer]>
                        (transfers st))
                     (expiry_queue st) (replay st), Ok tt)
              end
          end
    end.

(** The message a burn emits. *)
Definition burn_params (t : BridgeTransfer) (domain domain_height event_index expiry nonce : Z)
    : CrossDomainMessageParams :=
  mkParams domain (t_source_domain t) domain_height event_index nonce (recipient t) (owner t)
    (bridge_payload_hash (asset_id t) (amount t)) BridgeBurn expiry.

Definition burn_with_event (st : BridgeState) (mid : MessageId)
    (domain domain_height event_index expiry_height : Z)
    : BridgeState * result DomainEvent BridgeError :=
  match transfers st !! mid with
  | None => (st, Err UnknownTransfer)
  | Some transfer =>
      if negb (bool_decide (status transfer = Minted domain)) then
        (st, Err NotMintedOnBurnDomain)
      else
        let '(nonce, replay') :=
          next_nonce (replay st) domain (t_source_domain transfer) (recipient transfer) in
        let message :=
          new_correlated
            (burn_params transfer domain domain_height event_index expiry_height nonce) mid in
        let event := {| domain_id := domain; domain_height := domain_height;
                        ev_event_index := event_index; ev_kind := BridgeBurned;
                        emitter := recipient transfer; message := Some message;
                        ev_payload_hash :=
                          bridge_payload_hash (asset_id transfer) (amount transfer) |} in
        let st := mkBridge (asset_locations st) (transfers st) (expiry_queue st) replay' in
        match transfers st !! mid with
        | None => (st, Err UnknownTransfer)
        | Some transfer =>
            (mkBridge (<[asset_id transfer := Burned domain]> (asset_locations st))
               (<[mid := set_status (Burned domain) transfer]> (transfers st))
               (expiry_queue st) (replay st), Ok event)
        end
  end.

(** [.map(|_| ())] on the event of [burn_with_event]. *)
Definition burn (st : BridgeState) (mid : MessageId) (domain : DomainId)
    : BridgeState * result unit BridgeError :=
  let '(st, r) := burn_with_event st mid domain 0 0 0 in
  (st, match r with Ok _ => Ok tt | Err e => Err e end).

End operations.

Definition unlock (st : BridgeState) (mid : MessageId) (source_domain : DomainId)
    : BridgeState * result unit BridgeError :=
  match transfers st !! mid with
  | None => (st, Err UnknownTransfer)
  | Some transfer =>
      if negb (bool_decide (status transfer = Burned (t_target_domain transfer))) then
        (st, Err NotBurnedOnTarget)
      else if negb (t_target_domain transfer =? source_domain) then (st, Err UnlockWrongDomain)
      else
        let original_source := t_source_domain transfer in
        (mkBridge (<[asset_id transfer := Active original_source]> (asset_locations st))
           (<[mid := set_status (Unlocked original_source) transfer]> (transfers st))
           (expiry_queue st) (replay st), Ok tt)
  end.

Definition source_event_hash_of (st : BridgeState) (mid : MessageId) : option Hash32 :=
  source_event_hash <$> transfers st !! mid.

(** The body of the inner loop of [sweep_expired_locks]. *)
Definition release_lock (acc : BridgeState * list (Address * Z)) (mid : MessageId)
    : BridgeState * list (Address * Z) :=
  let '(st, released) := acc in
  match transfers st !! mid with
  | None => acc
  | Some t =>
      match status t with
      | Locked domain =>
          (mkBridge (<[asset_id t := Active domain]> (asset_locations st))
             (<[mid := set_status (Active domain) t]> (transfers st))
             (expiry_queue st) (replay st),
           released ++ [(owner t, amount t)])
      | _ => acc
      end
  end.

(** The body of the outer loop: [expiry_queue.remove(&h)] and its messages. *)
Definition sweep_height (acc : BridgeState * list (Address * Z)) (h : Z)
    : BridgeState * list (Address * Z) :=
  let '(st, released) := acc in
  match expiry_queue st !! h with
  | None => acc
  | Some mids =>
      fold_left release_lock mids
        (mkBridge (asset_locations st) (transfers st) (delete h (expiry_queue st)) (replay st),
         released)
  end.

(** [expiry_queue.range(..=current_height)], in ascending order. *)
Definition due_heights (st : BridgeState) (current_height : Z) : list Z :=
  merge_sort Z.le
    (filter (fun h => h <= current_height) (elements (dom (expiry_queue st)))).

Definition sweep_expired_locks (st : BridgeState) (current_height : Z)
    : BridgeState * list (Address * Z) :=
  fold_left sweep_height (due_heights st current_height) (st, []).

(** ** Sequences of operations *)
Section sequences.
Context {H : FieldHash}.

Inductive BridgeOp : Type :=
| OpRegister (asset : AssetId) (domain : DomainId)
| OpLock (a : LockArgs)
| OpMint (m : CrossDomainMessage)
| OpBurn (mid : MessageId) (domain domain_height event_index expiry_height : Z)
| OpUnlock (mid : MessageId) (source_domain : DomainId)
| OpSweep (current_height : Z).

(** The state after an operation, and whether it was refused. *)
Definition apply_op (st : BridgeState) (op : BridgeOp) : BridgeState * option BridgeError :=
  let outcome {A} (x : BridgeState * result A BridgeError) :=
    (x.1, match x.2 with Ok _ => None | Err e => Some e end) in
  match op with
  | OpRegister asset d => outcome (register_asset st asset d)
  | OpLock a => outcome (lock st a)
  | OpMint m => outcome (mint st m)
  | OpBurn mid d h i x => outcome (burn_with_event st mid d h i x)
  | OpUnlock mid d => outcome (unlock st mid d)
  | OpSweep h => ((sweep_expired_locks st h).1, None)
  end.

Definition run_ops (st : BridgeState) (ops : list BridgeOp) : BridgeState :=
  fold_left (fun st op => (apply_op st op).1) ops st.
End sequences.

End Bridge.
