(* ===== verification/BridgeFacts.v ===== *)
(** * Correctness of the bridge

    The custody invariant [inv] of [BridgeState] and its preservation by every
    operation, and the theorems that follow for every sequence of operations
    from the empty bridge. *)

From Stdlib Require Import ZArith Lia.
From stdpp Require Import base tactics strings numbers gmap sorting list.
From S2P Require Import Prelude Hashing Merkle CrossDomain Bridge.
Import Hashing CrossDomain Bridge.
Open Scope Z_scope.

Module BridgeFacts.

(** A transfer is in flight while its asset is locked, minted or burned. *)
Definition live (s : BridgeStatus) : bool :=
  match s with Locked _ | Minted _ | Burned _ => true | Active _ | Unlocked _ => false end.

(** The statuses a transfer has after its mint. *)
Definition past_mint (s : BridgeStatus) : bool :=
  match s with Minted _ | Burned _ | Unlocked _ => true | Active _ | Locked _ => false end.

(** A transfer is minted and burned on its target domain only, and everywhere
    else on its source domain. *)
Definition status_home (t : BridgeTransfer) : Prop :=
  match status t with
  | Active d | Locked d | Unlocked d => d = t_source_domain t
  | Minted d | Burned d => d = t_target_domain t
  end.

(** The ranges of the Rust argument types. *)
Record lock_wf (a : LockArgs) : Prop := {
  lw_source : l_source_domain a ∈u U32;
  lw_target : l_target_domain a ∈u U32;
  lw_height : l_source_height a ∈u U64;
  lw_index : l_event_index a ∈u U32;
  lw_amount : l_amount a ∈u U128;
  lw_expiry : l_expiry_height a ∈u U64;
}.

Definition op_wf (op : BridgeOp) : Prop :=
  match op with
  | OpLock a => lock_wf a
  | OpMint m => message_wf m
  | _ => True
  end.

(** ** Transfers and statuses *)

Lemma set_status_status s t : status (set_status s t) = s.
Proof. by destruct t. Qed.
Lemma set_status_asset s t : asset_id (set_status s t) = asset_id t.
Proof. by destruct t. Qed.
Lemma set_status_source s t : t_source_domain (set_status s t) = t_source_domain t.
Proof. by destruct t. Qed.
Lemma set_status_target s t : t_target_domain (set_status s t) = t_target_domain t.
Proof. by destruct t. Qed.
Lemma set_status_expiry s t : t_expiry_height (set_status s t) = t_expiry_height t.
Proof. by destruct t. Qed.
Lemma set_status_twice s s' t : set_status s (set_status s' t) = set_status s t.
Proof. by destruct t. Qed.
Lemma set_status_same t : set_status (status t) t = t.
Proof. by destruct t. Qed.

Create Rewrite HintDb bridge.
#[local] Hint Rewrite set_status_status set_status_asset set_status_source set_status_target
  set_status_expiry set_status_twice : bridge.

(** A status change of transfer [mid], with the asset put at [loc]. *)
Definition moved (st : BridgeState) (mid : MessageId) (t : BridgeTransfer)
    (s loc : BridgeStatus) (r : ReplayNonceStore) : BridgeState :=
  mkBridge (<[asset_id t := loc]> (asset_locations st))
    (<[mid := set_status s t]> (transfers st)) (expiry_queue st) r.

Section facts.
Context {H : FieldHash}.

(** ** What each operation does when it succeeds, and that a refusal leaves
    the state as it was *)

Lemma register_asset_spec st a d st' r :
  register_asset st a d = (st', r) ->
  match r with
  | Ok _ => asset_locations st !! a = None /\
      st' = mkBridge (<[a := Active d]> (asset_locations st)) (transfers st)
              (expiry_queue st) (replay st)
  | Err _ => st' = st
  end.
Proof.
  unfold register_asset. case_bool_decide; intros; simplify_eq; [done|].
  split; [by apply eq_None_not_Some|done].
Qed.

Lemma require_asset_status_Ok st a s u :
  require_asset_status st a s = Ok u -> asset_locations st !! a = Some s.
Proof. unfold require_asset_status. repeat case_match; intros; split_bool; by simplify_eq. Qed.

Definition lock_nonce (st : BridgeState) (a : LockArgs) : Z :=
  default 0 (outbound_nonces (replay st) !! (l_source_domain a, l_target_domain a, l_owner a)).

Lemma lock_spec st a st' r :
  lock st a = (st', r) ->
  match r with
  | Ok (t, e) =>
      asset_locations st !! l_asset_id a = Some (Active (l_source_domain a)) /\
      t = lock_transfer a (lock_nonce st a) /\ e = lock_event a (lock_nonce st a) /\
      asset_locations st' = <[l_asset_id a := Locked (l_source_domain a)]> (asset_locations st) /\
      transfers st' = <[t_message_id t := t]> (transfers st) /\
      expiry_queue st' =
        (if 0 <? l_expiry_height a then
           <[l_expiry_height a :=
               default [] (expiry_queue st !! l_expiry_height a) ++ [t_message_id t]]>
             (expiry_queue st)
         else expiry_queue st) /\
      replay st' = (next_nonce (replay st) (l_source_domain a) (l_target_domain a) (l_owner a)).2
  | Err _ => st' = st
  end.
Proof.
  unfold lock. destruct (require_asset_status _ _ _) eqn:E; [|by intros; simplify_eq].
  apply require_asset_status_Ok in E. unfold next_nonce. intros; by simplify_eq.
Qed.

Lemma mint_spec st m st' r :
  mint st m = (st', r) ->
  match r with
  | Ok _ => exists t,
      verify_id m = true /\ transfers st !! message_id m = Some t /\
      payload_hash m = bridge_payload_hash (asset_id t) (amount t) /\
      message_id m ∉ processed_messages (replay st) /\
      status t = Locked (source_domain m) /\
      st' = moved st (message_id m) t (Minted (target_domain m)) (Minted (target_domain m))
              (mkReplay (outbound_nonces (replay st))
                 ({[message_id m]} ∪ processed_messages (replay st))
                 (processed_at_height (replay st)))
  | Err _ => st' = st
  end.
Proof.
  unfold mint. destruct (verify_id m) eqn:Hv; simpl; [|by intros; simplify_eq].
  destruct (transfers st !! message_id m) as [t|] eqn:Ht; [|by intros; simplify_eq].
  case_bool_decide as Hp; simpl; [|by intros; simplify_eq].
  unfold mark_processed. destruct (is_processed _ _) eqn:Hproc; [by intros; simplify_eq|].
  case_bool_decide as Hs; simpl; [|by intros; simplify_eq].
  cbn [transfers]. rewrite ?Ht. intros; simplify_eq. exists t. unfold is_processed in Hproc. split_bool. done.
Qed.

Lemma burn_spec st mid d h i x st' r :
  burn_with_event st mid d h i x = (st', r) ->
  match r with
  | Ok e => exists t,
      transfers st !! mid = Some t /\ status t = Minted d /\
      st' = moved st mid t (Burned d) (Burned d)
              (next_nonce (replay st) d (t_source_domain t) (recipient t)).2
  | Err _ => st' = st
  end.
Proof.
  unfold burn_with_event. destruct (transfers st !! mid) as [t|] eqn:Ht; [|by intros; simplify_eq].
  case_bool_decide as Hs; simpl; [|by intros; simplify_eq].
  cbn [transfers]. rewrite ?Ht. intros; simplify_eq. by exists t.
Qed.

Lemma unlock_spec st mid d st' r :
  unlock st mid d = (st', r) ->
  match r with
  | Ok _ => exists t,
      transfers st !! mid = Some t /\ status t = Burned (t_target_domain t) /\
      t_target_domain t = d /\
      st' = moved st mid t (Unlocked (t_source_domain t)) (Active (t_source_domain t)) (replay st)
  | Err _ => st' = st
  end.
Proof.
  unfold unlock. destruct (transfers st !! mid) as [t|] eqn:Ht; [|by intros; simplify_eq].
  case_bool_decide as Hs; simpl; [|by intros; simplify_eq].
  destruct (Z.eqb_spec (t_target_domain t) d); simpl; intros; simplify_eq; [|done].
  by exists t.
Qed.

(** Conversely, what each operation accepts. *)
Lemma lock_accepts st a :
  asset_locations st !! l_asset_id a = Some (Active (l_source_domain a)) ->
  exists st', lock st a =
    (st', Ok (lock_transfer a (lock_nonce st a), lock_event a (lock_nonce st a))).
Proof.
  intros Ha. unfold lock, require_asset_status. rewrite Ha, bool_decide_eq_true_2 by done. by eexists.
Qed.

Lemma mint_accepts st m t :
  verify_id m = true -> transfers st !! message_id m = Some t ->
  payload_hash m = bridge_payload_hash (asset_id t) (amount t) ->
  message_id m ∉ processed_messages (replay st) -> status t = Locked (source_domain m) ->
  mint st m =
    (moved st (message_id m) t (Minted (target_domain m)) (Minted (target_domain m))
       (mkReplay (outbound_nonces (replay st)) ({[message_id m]} ∪ processed_messages (replay st))
          (processed_at_height (replay st))), Ok tt).
Proof.
  intros Hv Ht Hp Hn Hs. unfold mint, mark_processed, is_processed. rewrite Hv, Ht. cbn [negb].
  rewrite (bool_decide_eq_true_2 _ Hp), (bool_decide_eq_false_2 _ Hn), (bool_decide_eq_true_2 _ Hs).
  cbn [negb transfers]. by rewrite Ht.
Qed.

Lemma burn_accepts st mid d h i x t :
  transfers st !! mid = Some t -> status t = Minted d ->
  exists e, burn_with_event st mid d h i x =
    (moved st mid t (Burned d) (Burned d)
       (next_nonce (replay st) d (t_source_domain t) (recipient t)).2, Ok e).
Proof.
  intros Ht Hs. unfold burn_with_event. rewrite Ht, (bool_decide_eq_true_2 _ Hs).
  cbn [negb transfers next_nonce]. rewrite Ht. by eexists.
Qed.

Lemma unlock_accepts st mid t :
  transfers st !! mid = Some t -> status t = Burned (t_target_domain t) ->
  unlock st mid (t_target_domain t) =
    (moved st mid t (Unlocked (t_source_domain t)) (Active (t_source_domain t)) (replay st), Ok tt).
Proof.
  intros Ht Hs. unfold unlock. rewrite Ht, (bool_decide_eq_true_2 _ Hs). cbn [negb].
  by rewrite Z.eqb_refl.
Qed.

(** C39: refused bridge operations are atomic.  An operation that returns an
    error (a failed check, an unknown transfer, a replayed message, the
    unreachable second lookups included) leaves the whole bridge state as it
    was: no nonce is consumed and no message is marked as processed. *)
Theorem bridge_errors_atomic (st st' : BridgeState) (op : BridgeOp) (e : BridgeError)
    (Hop : apply_op st op = (st', Some e)) : st' = st.
Proof.
  destruct op; unfold apply_op in Hop; cbv beta zeta in Hop;
    match type of Hop with
    | context [fst ?x] => destruct x as [st1 [|]] eqn:E; simplify_eq/=
    | _ => done
    end.
  - apply (register_asset_spec _ _ _ _ _ E).
  - apply (lock_spec _ _ _ _ E).
  - apply (mint_spec _ _ _ _ E).
  - apply (burn_spec _ _ _ _ _ _ _ _ E).
  - apply (unlock_spec _ _ _ _ _ E).
Qed.


(** ** The custody invariant *)

Definition route (a : LockArgs) : DomainId * DomainId * Address :=
  (l_source_domain a, l_target_domain a, l_owner a).

(** Transfer [t], stored under [mid], is a lock's transfer with its status
    changed; its nonce was handed out; it stands on the right domain, and is
    past its mint exactly when its message was processed. *)
Record transfer_ok (r : ReplayNonceStore) (mid : MessageId) (t : BridgeTransfer) : Prop := {
  tr_origin : exists a n, lock_wf a /\ 0 <= n < default 0 (outbound_nonces r !! route a) /\
    mid = t_message_id (lock_transfer a n) /\ t = set_status (status t) (lock_transfer a n);
  tr_home : status_home t;
  tr_processed : mid ∈ processed_messages r <-> past_mint (status t) = true;
}.

(** [n] bounds the nonces handed out so far. *)
Record inv (n : Z) (st : BridgeState) : Prop := {
  inv_nonces : map_Forall (fun _ v => 0 <= v <= n) (outbound_nonces (replay st));
  inv_transfers : map_Forall (transfer_ok (replay st)) (transfers st);
  inv_live : forall mid t, transfers st !! mid = Some t -> live (status t) = true ->
    asset_locations st !! asset_id t = Some (status t);
  inv_unique : forall mid t mid' t', transfers st !! mid = Some t -> transfers st !! mid' = Some t' ->
    live (status t) = true -> live (status t') = true -> asset_id t = asset_id t' -> mid = mid';
  inv_located : forall a s, asset_locations st !! a = Some s ->
    (exists d, s = Active d) \/
    live s = true /\ exists mid t, transfers st !! mid = Some t /\ asset_id t = a /\ status t = s;
  inv_queue : forall mid t d, transfers st !! mid = Some t -> status t = Locked d ->
    0 < t_expiry_height t ->
    exists mids, expiry_queue st !! t_expiry_height t = Some mids /\ mid ∈ mids;
  inv_queued : forall h mids mid, expiry_queue st !! h = Some mids -> mid ∈ mids ->
    exists t, transfers st !! mid = Some t /\ t_expiry_height t = h;
  inv_queue_pos : forall h mids, expiry_queue st !! h = Some mids -> 0 < h;
  inv_minted : forall mid, mid ∈ processed_messages (replay st) -> is_Some (transfers st !! mid);
}.

(** What a status change has to respect: [t] is in flight, the new status is
    not [Locked], and the asset is put where the new status says. *)
Definition legal_move (t : BridgeTransfer) (s loc : BridgeStatus) : Prop :=
  live (status t) = true /\ status_home (set_status s t) /\
  (forall d, s <> Locked d) /\
  (live s = true /\ loc = s \/ live s = false /\ exists d, loc = Active d).

(** How the replay store may change with it. *)
Record replay_grows (r r' : ReplayNonceStore) : Prop := {
  rg_nonces : forall k, default 0 (outbound_nonces r !! k) <= default 0 (outbound_nonces r' !! k);
  rg_processed : forall mid, mid ∈ processed_messages r -> mid ∈ processed_messages r';
}.

Lemma transfer_ok_grows r r' mid t :
  replay_grows r r' -> (mid ∈ processed_messages r' -> mid ∈ processed_messages r) ->
  transfer_ok r mid t -> transfer_ok r' mid t.
Proof.
  intros [Hn Hp] Hback [(a & n & ? & ? & ? & ?) Hh Hpr]. split; [|done|].
  - exists a, n. split_and!; try done; [lia|]. specialize (Hn (route a)). lia.
  - rewrite <- Hpr. split; auto.
Qed.

Lemma transfer_ok_move r mid t s r' :
  transfer_ok r mid t -> replay_grows r r' -> status_home (set_status s t) ->
  (mid ∈ processed_messages r' <-> past_mint s = true) ->
  transfer_ok r' mid (set_status s t).
Proof.
  intros [(a & n & ? & ? & ? & Et) Hh Hpr] [Hn Hp] Hhome Hproc. split; [|done|].
  - exists a, n. specialize (Hn (route a)). split_and!; try done; [lia|lia|].
    rewrite set_status_status. rewrite Et at 1. by rewrite set_status_twice.
  - by rewrite set_status_status.
Qed.

(** The invariant is preserved by a legal move. *)
Lemma inv_moved n n' st mid t s loc r' :
  inv n st -> transfers st !! mid = Some t -> legal_move t s loc ->
  replay_grows (replay st) r' -> map_Forall (fun _ v => 0 <= v <= n') (outbound_nonces r') ->
  (forall m, m <> mid -> m ∈ processed_messages r' -> m ∈ processed_messages (replay st)) ->
  (mid ∈ processed_messages r' <-> past_mint s = true) ->
  inv n' (moved st mid t s loc r').
Proof.
  intros [In It Il Iu Ilo Iq Iqd Ip Im] Ht (Hlive & Hhome & Hnl & Hloc) Hg Hn' Hback Hproc.
  split; simpl.
  - done.
  - intros m t' Hm. destruct (decide (m = mid)) as [->|Hne].
    + rewrite lookup_insert_eq in Hm. simplify_eq. by apply (transfer_ok_move (replay st)); auto.
    + rewrite lookup_insert_ne in Hm by done.
      apply (transfer_ok_grows (replay st)); [done| |by apply It]. intros; by apply Hback.
  - intros m t' Hm Hl. destruct (decide (m = mid)) as [->|Hne].
    + rewrite lookup_insert_eq in Hm. simplify_eq. rewrite set_status_asset, set_status_status in *.
      rewrite lookup_insert_eq. destruct Hloc as [[_ ->]|[Hf _]]; [done|congruence].
    + rewrite lookup_insert_ne in Hm by done. rewrite lookup_insert_ne; [by eapply Il|].
      intros Ea. apply Hne. by eapply Iu.
  - intros m1 t1 m2 t2 H1 H2 L1 L2 Ea.
    rewrite lookup_insert in H1, H2. repeat case_decide; simplify_eq; try done;
      rewrite ?set_status_asset, ?set_status_status in *; eauto using eq_sym.
  - intros a s' Ha. destruct (decide (a = asset_id t)) as [->|Hne].
    + rewrite lookup_insert_eq in Ha. simplify_eq.
      destruct Hloc as [[Hl ->]|[_ [d ->]]]; [right|left; eauto].
      split; [done|]. exists mid, (set_status s t). rewrite lookup_insert_eq. by destruct t.
    + rewrite lookup_insert_ne in Ha by done.
      destruct (Ilo _ _ Ha) as [?|(Hl & m & t' & Hm & <- & <-)]; [by left|right].
      split; [done|]. exists m, t'. split; [|done]. rewrite lookup_insert_ne; [done|congruence].
  - intros m t' d Hm Hs Hx. rewrite lookup_insert in Hm. case_decide; simplify_eq; [|by eapply Iq].
    rewrite set_status_status in Hs. by destruct (Hnl d).
  - intros h mids m Hq Hin. destruct (Iqd _ _ _ Hq Hin) as (t' & Hm & Hx).
    rewrite lookup_insert. case_decide; simplify_eq; [|by exists t'].
    exists (set_status s t). by rewrite set_status_expiry.
  - done.
  - intros m Hm. rewrite lookup_insert. case_decide; [done|]. by apply Im, Hback.
Qed.


(** ** Preservation *)

Lemma nonce_range n r k :
  map_Forall (fun _ v => 0 <= v <= n) (outbound_nonces r) -> 0 <= n ->
  0 <= default 0 (outbound_nonces r !! k) <= n.
Proof. intros Hf Hn. destruct (outbound_nonces r !! k) eqn:E; simpl; [by apply (Hf _ _ E)|lia]. Qed.

(** Below the saturation point a nonce is handed out once. *)
Lemma next_nonce_facts n r s t a :
  map_Forall (fun _ v => 0 <= v <= n) (outbound_nonces r) -> 0 <= n < U64 - 1 ->
  let r' := (next_nonce r s t a).2 in
  replay_grows r r' /\ map_Forall (fun _ v => 0 <= v <= n + 1) (outbound_nonces r') /\
  processed_messages r' = processed_messages r /\
  default 0 (outbound_nonces r' !! (s, t, a)) = default 0 (outbound_nonces r !! (s, t, a)) + 1.
Proof.
  intros Hf Hn r'. pose proof (nonce_range n r (s, t, a) Hf ltac:(lia)) as Hr.
  assert (E : saturating_add U64 (default 0 (outbound_nonces r !! (s, t, a))) 1
              = default 0 (outbound_nonces r !! (s, t, a)) + 1) by (unfold saturating_add; lia).
  unfold r', next_nonce. simpl. rewrite E. split_and!; [split|..]; simpl.
  - intros k. rewrite lookup_insert. case_decide; simplify_eq/=; lia.
  - done.
  - apply map_Forall_insert_2; [lia|]. eapply map_Forall_impl; [exact Hf|]. simpl. lia.
  - done.
  - by rewrite lookup_insert_eq.
Qed.

Lemma inv_weaken n n' st : n <= n' -> inv n st -> inv n' st.
Proof.
  intros Hle [In]. split; try done. eapply map_Forall_impl; [exact In|]. simpl. lia.
Qed.

Lemma bridge_new_inv : inv 0 bridge_new.
Proof.
  split; simpl; by intros; simplify_map_eq.
Qed.

Lemma inv_register n st a d :
  inv n st -> asset_locations st !! a = None ->
  inv n (mkBridge (<[a := Active d]> (asset_locations st)) (transfers st) (expiry_queue st) (replay st)).
Proof.
  intros [In It Il Iu Ilo Iq Iqd Ip Im] Ha. split; simpl; try done.
  - intros mid t Ht Hl. pose proof (Il _ _ Ht Hl). rewrite lookup_insert_ne; [done|congruence].
  - intros b s Hb. rewrite lookup_insert in Hb. case_decide; simplify_eq; eauto.
Qed.

Lemma lock_message_wf a n : lock_wf a -> n ∈u U64 -> message_wf (new_message (lock_params a n)).
Proof. intros [] ?. by split. Qed.

(** The identifier of a stored transfer belongs to one message only. *)
Lemma stored_message_content `{!CollisionFree H} a n m :
  lock_wf a -> n ∈u U64 -> message_wf m -> verify_id m = true ->
  message_id m = t_message_id (lock_transfer a n) ->
  same_content m (new_message (lock_params a n)).
Proof.
  intros Ha Hn Hm Hv Hid. apply bool_decide_eq_true_1 in Hv.
  apply message_fields_inj; [done|by apply lock_message_wf|]. apply hash_fields_inj.
  unfold calculate_message_id in Hv. rewrite <- Hv, Hid. done.
Qed.

(** A new lock's identifier is not in use. *)
Lemma lock_fresh `{!CollisionFree H} n st a :
  inv n st -> 0 <= n < U64 - 1 -> lock_wf a ->
  transfers st !! t_message_id (lock_transfer a (lock_nonce st a)) = None.
Proof.
  intros [In It _ _ _ _ _ _ _] Hn Ha. apply eq_None_not_Some. intros [t Ht].
  destruct (It _ _ Ht) as [(a' & n' & Ha' & Hn' & Hid & _) _ _].
  pose proof (nonce_range n (replay st) (route a') In ltac:(lia)).
  pose proof (nonce_range n (replay st) (route a) In ltac:(lia)) as Hra.
  destruct (stored_message_content a' n' (new_message (lock_params a (lock_nonce st a)))) as
    (_ & Es & Et & _ & _ & En & Eo & _); simpl in *; try done.
  - lia.
  - apply lock_message_wf; [done|]. unfold lock_nonce. fold (route a). lia.
  - apply new_message_verifies.
  - assert (Er : route a = route a') by (unfold route; congruence).
    unfold lock_nonce in En. fold (route a) in En. rewrite Er in En. lia.
Qed.

(** [entry(h).or_default().push(mid)]: what the queue holds afterwards. *)
Lemma queue_push (q : gmap Z (list MessageId)) h mid k m :
  (exists mids, <[h := default [] (q !! h) ++ [mid]]> q !! k = Some mids /\ m ∈ mids) <->
  (exists mids, q !! k = Some mids /\ m ∈ mids) \/ (k = h /\ m = mid).
Proof.
  rewrite lookup_insert. case_decide as E; [subst k|naive_solver].
  split.
  - intros (mids & [= <-] & Hin). apply elem_of_app in Hin as [Hin|Hin%list_elem_of_singleton]; [|by right].
    left. destruct (q !! h) eqn:E; [by eauto|]. by apply elem_of_nil in Hin.
  - intros [(mids & E & Hin)|[_ ->]]; eexists; split; try done; apply elem_of_app.
    + left. by rewrite E.
    + right. by apply list_elem_of_singleton.
Qed.

Lemma inv_lock `{!CollisionFree H} n st a st' t e :
  inv n st -> 0 <= n < U64 - 1 -> lock_wf a -> lock st a = (st', Ok (t, e)) -> inv (n + 1) st'.
Proof.
  intros Hinv Hn Ha Hlock. pose proof (lock_fresh n st a Hinv Hn Ha) as Hfresh.
  destruct Hinv as [In It Il Iu Ilo Iq Iqd Ip Im].
  apply lock_spec in Hlock as (Hact & Et & _ & El & Etr & Eq & Er). subst t.
  pose proof (next_nonce_facts n (replay st) (l_source_domain a) (l_target_domain a) (l_owner a)
                In Hn) as (Hg & Hbound & Hp & Hnext). rewrite <- Er in *.
  set (t := lock_transfer a (lock_nonce st a)) in *.
  assert (Hnl : forall mid t', transfers st !! mid = Some t' -> live (status t') = true ->
                  asset_id t' <> l_asset_id a).
  { intros mid t' Ht' Hl Ea. pose proof (Il _ _ Ht' Hl) as Hloc. rewrite Ea, Hact in Hloc.
    simplify_eq. rewrite <- Hloc in Hl. done. }
  split; rewrite ?El, ?Etr, ?Eq.
  - done.
  - apply map_Forall_insert_2.
    + split; [|done|].
      * exists a, (lock_nonce st a). pose proof (nonce_range n (replay st) (route a) In ltac:(lia)).
        fold (route a) in Hnext. unfold lock_nonce. fold (route a). rewrite Hnext. split_and!; try done; lia.
      * rewrite Hp. split; [|done]. intros Hproc%Im. rewrite Hfresh in Hproc. by destruct Hproc.
    + intros mid t' Ht'. eapply transfer_ok_grows; [exact Hg|by rewrite Hp|by apply It].
  - intros mid t' Hm Hl. rewrite lookup_insert in Hm. case_decide; simplify_eq.
    + by rewrite lookup_insert_eq.
    + rewrite lookup_insert_ne; [by eapply Il|]. intros Ea. by eapply Hnl.
  - intros m1 t1 m2 t2 H1 H2 L1 L2 Ea. rewrite lookup_insert in H1, H2.
    repeat case_decide; simplify_eq; try done;
      first [by destruct (Hnl _ _ H1 L1)|by destruct (Hnl _ _ H2 L2)|by eapply Iu].
  - intros b s Hb. rewrite lookup_insert in Hb. case_decide; simplify_eq.
    + right. split; [done|]. exists (t_message_id t), t. by rewrite lookup_insert_eq.
    + destruct (Ilo _ _ Hb) as [?|(Hl & m & t' & Hm & Ha' & Hs)]; [by left|right].
      split; [done|]. exists m, t'. split; [|done]. rewrite lookup_insert_ne; [done|congruence].
  - intros mid t' d Hm Hs Hx. rewrite lookup_insert in Hm. case_decide; simplify_eq.
    + simpl in Hx |- *. rewrite (proj2 (Z.ltb_lt _ _) Hx). apply queue_push. by right.
    + case_match; [apply queue_push; left|]; by eapply Iq.
  - intros h mids mid Hq Hin.
    assert (Hcase : (exists mids, expiry_queue st !! h = Some mids /\ mid ∈ mids) \/
                    (h = l_expiry_height a /\ mid = t_message_id t)).
    { case_match; [|by left; eauto]. apply queue_push. eauto. }
    destruct Hcase as [(mids' & Hq' & Hin')|[-> ->]]; [|exists t; by rewrite lookup_insert_eq].
    destruct (Iqd _ _ _ Hq' Hin') as (t' & Hm & Hx). exists t'. split; [|done].
    rewrite lookup_insert_ne; [done|congruence].
  - intros h mids. case_match eqn:Hx; [|by eauto]. apply Z.ltb_lt in Hx.
    rewrite lookup_insert. case_decide; [lia|by eauto].
  - intros mid Hm. rewrite Hp in Hm. rewrite lookup_insert. case_decide; [done|]. by apply Im.
Qed.


(** A message whose identifier is stored is the stored transfer's message. *)
Lemma accepted_message `{!CollisionFree H} n st m t :
  inv n st -> 0 <= n < U64 - 1 -> message_wf m -> verify_id m = true ->
  transfers st !! message_id m = Some t ->
  source_domain m = t_source_domain t /\ target_domain m = t_target_domain t /\
  msg_sender m = owner t /\ msg_recipient m = recipient t /\
  payload_hash m = bridge_payload_hash (asset_id t) (amount t) /\
  kind m = BridgeLock /\ expiry_height m = t_expiry_height t.
Proof.
  intros Hinv Hn Hm Hv Ht.
  destruct (inv_transfers _ _ Hinv _ _ Ht) as [(a & k & Ha & Hk & Hid & Et) _ _].
  pose proof (nonce_range n (replay st) (route a) (inv_nonces _ _ Hinv) ltac:(lia)).
  destruct (stored_message_content a k m) as (_ & ? & ? & _ & _ & _ & ? & ? & ? & ? & ?);
    try done; [lia|]. rewrite Et. by simpl.
Qed.

Lemma inv_mint `{!CollisionFree H} n st m st' u :
  inv n st -> 0 <= n < U64 - 1 -> message_wf m -> mint st m = (st', Ok u) -> inv n st'.
Proof.
  intros Hinv Hn Hm (t & Hv & Ht & Hpay & Hfresh & Hst & ->)%mint_spec.
  pose proof (accepted_message n st m t Hinv Hn Hm Hv Ht) as (Es & Et & _).
  apply (inv_moved n); try done.
  - split_and!; [by rewrite Hst| |done|by left]. unfold status_home. destruct t; simpl in *. done.
  - split; [done|]. simpl. set_solver.
  - apply Hinv.
  - simpl. set_solver.
  - simpl. split; [done|set_solver].
Qed.

Lemma inv_burn n st mid d h i x st' e :
  inv n st -> 0 <= n < U64 - 1 -> burn_with_event st mid d h i x = (st', Ok e) -> inv (n + 1) st'.
Proof.
  intros Hinv Hn (t & Ht & Hst & ->)%burn_spec. destruct (inv_transfers _ _ Hinv _ _ Ht) as [_ Hhome Hp].
  pose proof (next_nonce_facts n (replay st) d (t_source_domain t) (recipient t)
                (inv_nonces _ _ Hinv) Hn) as (Hg & Hb & Hproc & _).
  apply (inv_moved n); try done.
  - unfold status_home in Hhome. rewrite Hst in Hhome.
    split_and!; [by rewrite Hst| |done|by left]. unfold status_home. by destruct t.
  - rewrite Hproc, Hp, Hst. done.
Qed.

Lemma inv_unlock n st mid d st' u :
  inv n st -> unlock st mid d = (st', Ok u) -> inv n st'.
Proof.
  intros Hinv (t & Ht & Hst & Hd & ->)%unlock_spec.
  destruct (inv_transfers _ _ Hinv _ _ Ht) as [_ _ Hp].
  apply (inv_moved n); try done.
  - split_and!; [by rewrite Hst| |done|by right; eauto]. unfold status_home. by destruct t.
  - apply Hinv.
  - rewrite Hp, Hst. done.
Qed.

Lemma release_lock_inv n st rel mid :
  inv n st -> inv n (release_lock (st, rel) mid).1.
Proof.
  intros Hinv. unfold release_lock. destruct (transfers st !! mid) as [t|] eqn:Ht; [|done].
  destruct (inv_transfers _ _ Hinv _ _ Ht) as [_ Hhome Hp].
  destruct (status t) eqn:Hst; try done. simpl.
  apply (inv_moved n); try done.
  - unfold status_home in Hhome. rewrite Hst in Hhome.
    split_and!; [by rewrite Hst| |done|by right; eauto]. unfold status_home. by destruct t.
  - apply Hinv.
Qed.


(** ** The sweep *)

Definition with_queue (q : gmap Z (list MessageId)) (st : BridgeState) : BridgeState :=
  mkBridge (asset_locations st) (transfers st) q (replay st).

(** The locks still to be paid back, and the payments they stand for. *)
Definition is_locked (t : BridgeTransfer) : bool :=
  match status t with Locked _ => true | _ => false end.
Definition refund (e : MessageId * BridgeTransfer) : Address * Z := (owner e.2, amount e.2).
Definition owed (ts : gmap MessageId BridgeTransfer) : list (Address * Z) :=
  refund <$> map_to_list (filter (fun e => is_locked e.2 = true) ts).

(** [acc'] is reached from [acc] by releasing locks among the messages [P]:
    every other transfer is as it was, a released asset is active at home and
    stays so, and what was paid out together with what is still owed is
    constant. *)
Record sweeps (P : MessageId -> Prop) (acc acc' : BridgeState * list (Address * Z)) : Prop := {
  sw_transfer : forall mid,
    transfers acc'.1 !! mid = transfers acc.1 !! mid \/
    exists t d, P mid /\ transfers acc.1 !! mid = Some t /\ status t = Locked d /\
      transfers acc'.1 !! mid = Some (set_status (Active d) t) /\
      asset_locations acc'.1 !! asset_id t = Some (Active d);
  sw_active : forall a d, asset_locations acc.1 !! a = Some (Active d) ->
    asset_locations acc'.1 !! a = Some (Active d);
  sw_replay : replay acc'.1 = replay acc.1;
  sw_paid : acc'.2 ++ owed (transfers acc'.1) ≡ₚ acc.2 ++ owed (transfers acc.1);
}.

Lemma sweeps_refl P acc : sweeps P acc acc.
Proof. split; auto. Qed.

Lemma sweeps_trans P x y z : sweeps P x y -> sweeps P y z -> sweeps P x z.
Proof.
  intros [T1 A1 R1 P1] [T2 A2 R2 P2]. split; [|by auto|congruence|by rewrite P2].
  intros mid. destruct (T1 mid) as [E1|(t & d & ? & ? & ? & E1 & Hl)],
    (T2 mid) as [E2|(t' & d' & ? & Ht' & Hs' & E2 & Hl')].
  - left. congruence.
  - right. exists t', d'. by rewrite <- E1.
  - right. exists t, d. rewrite E2. split_and!; auto.
  - rewrite E1 in Ht'. simplify_eq. by rewrite set_status_status in Hs'.
Qed.

(** Releasing a lock moves its payment from the debts to the payments. *)
Lemma owed_release ts mid t s :
  ts !! mid = Some t -> is_locked t = true -> is_locked (set_status s t) = false ->
  owed ts ≡ₚ (owner t, amount t) :: owed (<[mid := set_status s t]> ts).
Proof.
  intros Ht Hl Hs. unfold owed.
  rewrite map_filter_insert_False by (simpl; congruence).
  rewrite map_filter_delete.
  rewrite <- (map_to_list_delete (filter (fun e => is_locked e.2 = true) ts) mid t).
  - done.
  - by apply map_lookup_filter_Some.
Qed.

Lemma release_lock_sweeps n P st rel mid :
  inv n st -> P mid -> sweeps P (st, rel) (release_lock (st, rel) mid).
Proof.
  intros Hinv HP. unfold release_lock. destruct (transfers st !! mid) as [t|] eqn:Ht; [|apply sweeps_refl].
  destruct (status t) as [|d| | |] eqn:Hs; try apply sweeps_refl.
  pose proof (inv_live _ _ Hinv _ _ Ht ltac:(by rewrite Hs)) as Hloc. rewrite Hs in Hloc.
  split; simpl.
  - intros m. destruct (decide (m = mid)) as [->|]; [right|left; by rewrite lookup_insert_ne].
    exists t, d. by rewrite !lookup_insert_eq.
  - intros a d' Ha. rewrite lookup_insert_ne; [done|congruence].
  - done.
  - rewrite <- (assoc_L (++)). simpl. f_equiv. symmetry.
    apply owed_release; [done|by unfold is_locked; rewrite Hs|].
    unfold is_locked. by rewrite set_status_status.
Qed.

(** After a list of messages was released none of them is locked. *)
Lemma release_all n P st rel mids :
  inv n st -> Forall P mids ->
  let acc := fold_left release_lock mids (st, rel) in
  inv n acc.1 /\ sweeps P (st, rel) acc /\ expiry_queue acc.1 = expiry_queue st /\
  forall mid t, mid ∈ mids -> transfers acc.1 !! mid = Some t -> is_locked t = false.
Proof.
  intros Hinv HP. revert st rel Hinv. induction HP as [|mid mids Hmid HP IH]; intros st rel Hinv; cbn [fold_left].
  - split_and!; [done|apply sweeps_refl|done|]. by intros ? ? []%elem_of_nil.
  - pose proof (release_lock_inv n st rel mid Hinv) as Hinv1.
    pose proof (release_lock_sweeps n P st rel mid Hinv Hmid) as Hsw.
    assert (Hq : expiry_queue (release_lock (st, rel) mid).1 = expiry_queue st).
    { unfold release_lock. by repeat case_match. }
    assert (Hfree : forall t, transfers (release_lock (st, rel) mid).1 !! mid = Some t -> is_locked t = false).
    { unfold release_lock, is_locked. intros t. repeat case_match; simplify_eq/=; try congruence;
        rewrite lookup_insert_eq; intros; simplify_eq; by rewrite set_status_status in *. }
    destruct (release_lock (st, rel) mid) as [st1 rel1].
    destruct (IH st1 rel1 Hinv1) as (Hi & Hs & Hqq & Hf). split_and!.
    + done.
    + by eapply sweeps_trans.
    + by rewrite Hqq.
    + intros m t [->|Hin]%elem_of_cons Ht; [|by eapply Hf].
      destruct (sw_transfer _ _ _ Hs mid) as [E|(t' & d & _ & _ & _ & E & _)];
        rewrite E in Ht; [by apply Hfree|].
      simplify_eq. unfold is_locked. by rewrite set_status_status.
Qed.


Lemma release_lock_with_queue q st rel mid :
  release_lock (with_queue q st, rel) mid =
  (with_queue q (release_lock (st, rel) mid).1, (release_lock (st, rel) mid).2).
Proof. unfold release_lock. simpl. by repeat case_match. Qed.

Lemma release_all_with_queue q mids st rel :
  fold_left release_lock mids (with_queue q st, rel) =
  (with_queue q (fold_left release_lock mids (st, rel)).1,
   (fold_left release_lock mids (st, rel)).2).
Proof.
  revert st rel. induction mids as [|mid mids IH]; intros st rel; [done|]. cbn [fold_left].
  rewrite release_lock_with_queue, IH. by destruct (release_lock (st, rel) mid).
Qed.

(** The queue may forget a height once none of its messages is locked. *)
Lemma inv_forget n st h :
  inv n st ->
  (forall mid t, transfers st !! mid = Some t -> t_expiry_height t = h -> is_locked t = false) ->
  inv n (with_queue (delete h (expiry_queue st)) st).
Proof.
  intros [In It Il Iu Ilo Iq Iqd Ip Im] Hfree. split; simpl; try done.
  - intros mid t d Ht Hs Hx. rewrite lookup_delete_ne; [by eapply Iq|].
    intros E. specialize (Hfree _ _ Ht (eq_sym E)). unfold is_locked in Hfree. by rewrite Hs in Hfree.
  - intros k mids mid Hq. apply lookup_delete_Some in Hq as [_ Hq]. by eapply Iqd.
  - intros k mids Hq. apply lookup_delete_Some in Hq as [_ Hq]. by eapply Ip.
Qed.

Lemma is_locked_inv t : is_locked t = true -> exists d, status t = Locked d.
Proof. unfold is_locked. destruct (status t) eqn:E; try done. by eauto. Qed.

(** One height of the queue. *)
Lemma sweep_height_spec n (P : MessageId -> Prop) st rel h :
  inv n st -> (forall mid t, transfers st !! mid = Some t -> t_expiry_height t = h -> P mid) ->
  let acc := sweep_height (st, rel) h in
  inv n acc.1 /\ sweeps P (st, rel) acc /\ expiry_queue acc.1 = delete h (expiry_queue st).
Proof.
  intros Hinv HP. unfold sweep_height. destruct (expiry_queue st !! h) as [mids|] eqn:Hq.
  2:{ split_and!; [done|apply sweeps_refl|simpl]. by rewrite delete_id. }
  fold (with_queue (delete h (expiry_queue st)) st). rewrite release_all_with_queue.
  assert (HF : Forall P mids).
  { apply Forall_forall. intros mid Hin. destruct (inv_queued _ _ Hinv _ _ _ Hq Hin) as (t & Ht & Hx).
    by eapply HP. }
  destruct (release_all n P st rel mids Hinv HF) as (Hi & Hs & Hqq & Hfree).
  destruct (fold_left release_lock mids (st, rel)) as [st1 rel1]. simpl in *.
  split_and!; [|by destruct Hs|done]. rewrite <- Hqq. apply inv_forget; [done|].
  intros mid t Ht Hx. apply not_true_is_false. intros Hl. destruct (is_locked_inv t Hl) as [d Hd].
  destruct (inv_queue _ _ Hi mid t d Ht Hd) as (mids' & Hq' & Hin).
  { rewrite Hx. apply (inv_queue_pos _ _ Hinv _ _ Hq). }
  rewrite Hqq, Hx, Hq in Hq'. injection Hq' as <-. by rewrite (Hfree _ _ Hin Ht) in Hl.
Qed.

Definition delete_all (hs : list Z) (q : gmap Z (list MessageId)) : gmap Z (list MessageId) :=
  fold_left (fun q h => delete h q) hs q.

Lemma delete_all_lookup hs q k :
  delete_all hs q !! k = if bool_decide (k ∈ hs) then None else q !! k.
Proof.
  unfold delete_all. revert q. induction hs as [|h hs IH]; intros q; cbn [fold_left]; [done|].
  rewrite IH. repeat case_bool_decide; set_unfold; try naive_solver.
  - rewrite lookup_delete. case_decide; naive_solver.
  - rewrite lookup_delete_ne; [done|naive_solver].
Qed.

(** A list of heights. *)
Lemma sweep_heights_spec n (P : MessageId -> Prop) hs st rel :
  inv n st -> (forall mid t, transfers st !! mid = Some t -> t_expiry_height t ∈ hs -> P mid) ->
  let acc := fold_left sweep_height hs (st, rel) in
  inv n acc.1 /\ sweeps P (st, rel) acc /\ expiry_queue acc.1 = delete_all hs (expiry_queue st).
Proof.
  revert st rel. induction hs as [|h hs IH]; intros st rel Hinv HP; cbn [fold_left].
  { split_and!; [done|apply sweeps_refl|done]. }
  destruct (sweep_height_spec n P st rel h Hinv) as (Hi & Hs & Hq).
  { intros mid t Ht Hx. eapply HP; [done|]. rewrite Hx. by left. }
  destruct (sweep_height (st, rel) h) as [st1 rel1]. simpl in Hi, Hq.
  destruct (IH st1 rel1 Hi) as (Hi' & Hs' & Hq').
  { intros mid t Ht Hx. destruct (sw_transfer _ _ _ Hs mid) as [E|(t' & d & _ & Ht' & _ & E & _)];
      simpl in E, Ht; rewrite E in Ht.
    - eapply HP; [done|by right].
    - simplify_eq. rewrite set_status_expiry in Hx. eapply HP; [done|by right]. }
  split_and!; [done|by eapply sweeps_trans|]. by rewrite Hq', Hq.
Qed.

Lemma elem_of_due_heights st cur h :
  h ∈ due_heights st cur <-> is_Some (expiry_queue st !! h) /\ h <= cur.
Proof.
  unfold due_heights. rewrite merge_sort_Permutation, list_elem_of_filter, elem_of_elements, elem_of_dom.
  naive_solver.
Qed.

(** A lock that has expired at [cur]. *)
Definition expired (cur : Z) (t : BridgeTransfer) : bool :=
  is_locked t && (0 <? t_expiry_height t) && (t_expiry_height t <=? cur).

Lemma sweep_spec n st cur :
  inv n st ->
  let acc := sweep_expired_locks st cur in
  inv n acc.1 /\
  sweeps (fun mid => exists t, transfers st !! mid = Some t /\ 0 < t_expiry_height t <= cur) (st, []) acc /\
  expiry_queue acc.1 = delete_all (due_heights st cur) (expiry_queue st).
Proof.
  intros Hinv. apply sweep_heights_spec; [done|].
  intros mid t Ht ([mids Hq] & Hle)%elem_of_due_heights. exists t. split; [done|].
  pose proof (inv_queue_pos _ _ Hinv _ _ Hq). lia.
Qed.


(** ** Sequences of operations *)

Lemma sweep_replay st cur : replay (sweep_expired_locks st cur).1 = replay st.
Proof.
  unfold sweep_expired_locks. generalize (due_heights st cur). intros hs.
  assert (Hrel : forall mids acc, replay (fold_left release_lock mids acc).1 = replay acc.1).
  { intros mids. induction mids as [|mid mids IH]; intros [st' rel]; [done|]. cbn [fold_left]. rewrite IH.
    unfold release_lock. by repeat case_match. }
  change (replay st) with (replay (st, @nil (Address * Z)).1).
  generalize (st, @nil (Address * Z)). induction hs as [|h hs IH]; intros [st' rel]; [done|].
  cbn [fold_left]. rewrite IH. unfold sweep_height. case_match; [by rewrite Hrel|done].
Qed.

Lemma inv_apply `{!CollisionFree H} n st op :
  inv n st -> 0 <= n < U64 - 1 -> op_wf op -> inv (n + 1) (apply_op st op).1.
Proof.
  intros Hinv Hn Hop. assert (Hw : inv (n + 1) st) by (apply (inv_weaken n); [lia|done]).
  destruct op as [a d|a|m|mid d h i x|mid d|h]; simpl in *.
  - destruct (register_asset st a d) as [st' [u|e]] eqn:E; apply register_asset_spec in E; [|by subst].
    destruct E as [Ha ->]. by apply inv_register.
  - destruct (lock st a) as [st' [[t ev]|e]] eqn:E; [by eapply inv_lock|].
    apply lock_spec in E. by subst.
  - destruct (mint st m) as [st' [u|e]] eqn:E; [|apply mint_spec in E; by subst].
    apply (inv_weaken n); [lia|]. by eapply inv_mint.
  - destruct (burn_with_event st mid d h i x) as [st' [ev|e]] eqn:E; [by eapply inv_burn|].
    apply burn_spec in E. by subst.
  - destruct (unlock st mid d) as [st' [u|e]] eqn:E; [by eapply inv_unlock|].
    apply unlock_spec in E. by subst.
  - by apply (sweep_spec (n + 1) st h).
Qed.

(** The states of the bridge: fewer than [2^64 - 1] operations with arguments
    of their types, from the empty bridge.  (Nonces are [u64] and saturate.) *)
Definition reachable (st : BridgeState) : Prop :=
  exists ops, Forall op_wf ops /\ zlen ops < U64 - 1 /\ st = run_ops bridge_new ops.

Lemma run_ops_app st ops ops' : run_ops st (ops ++ ops') = run_ops (run_ops st ops) ops'.
Proof. apply fold_left_app. Qed.

Lemma reachable_inv `{!CollisionFree H} st : reachable st -> exists n, 0 <= n < U64 - 1 /\ inv n st.
Proof.
  intros (ops & Hwf & Hlen & ->). exists (zlen ops). split; [split; [apply zlen_nonneg|done]|].
  revert Hwf Hlen. induction ops as [|op ops IH] using rev_ind; intros Hwf Hlen.
  { apply bridge_new_inv. }
  rewrite run_ops_app. apply Forall_app in Hwf as [Hwf Hop]. rewrite Forall_singleton in Hop.
  rewrite zlen_app in *. change (zlen [op]) with 1 in *. pose proof (zlen_nonneg ops).
  apply inv_apply; [apply IH; [done|lia]|lia|done].
Qed.

(** C16: the custody invariant.  In every reachable state a stored transfer
    stands on its source domain until it is minted and after it is unlocked
    and on its target domain in between; the location of an asset agrees with
    the transfer in flight for it, of which there is at most one; an asset that
    is not active has such a transfer; and the replay store holds exactly the
    messages of the transfers that were minted. *)
Theorem bridge_custody `{!CollisionFree H} (st : BridgeState) (Hr : reachable st) :
  (forall mid t, transfers st !! mid = Some t ->
     t_message_id t = mid /\ status_home t /\
     (mid ∈ processed_messages (replay st) <-> past_mint (status t) = true) /\
     (live (status t) = true -> asset_locations st !! asset_id t = Some (status t))) /\
  (forall mid t mid' t', transfers st !! mid = Some t -> transfers st !! mid' = Some t' ->
     live (status t) = true -> live (status t') = true -> asset_id t = asset_id t' -> mid = mid') /\
  (forall a s, asset_locations st !! a = Some s ->
     (exists d, s = Active d) \/
     exists mid t, transfers st !! mid = Some t /\ asset_id t = a /\ status t = s) /\
  (forall mid, mid ∈ processed_messages (replay st) -> is_Some (transfers st !! mid)).
Proof.
  destruct (reachable_inv st Hr) as (n & _ & [In It Il Iu Ilo Iq Iqd Ip Im]). split_and!; try done.
  - intros mid t Ht. destruct (It _ _ Ht) as [(a & k & _ & _ & -> & Et) Hh Hp].
    split_and!; try done; [by rewrite Et|]. by eapply Il.
  - intros a s Ha. destruct (Ilo _ _ Ha) as [?|(_ & ?)]; [by left|by right].
Qed.

Lemma payload_fields_inj `{!CollisionFree H} a v a' v' :
  bridge_payload_hash a v = bridge_payload_hash a' v' -> a = a' /\ u128_le v = u128_le v'.
Proof.
  unfold bridge_payload_hash. intros E%hash_fields_inj.
  assert (Hn : forall i, nth i [ascii_bytes "BDLM_BRIDGE_PAYLOAD_V1"; a; u128_le v] [] =
                    nth i [ascii_bytes "BDLM_BRIDGE_PAYLOAD_V1"; a'; u128_le v'] []) by (by rewrite E).
  split; [exact (Hn 1%nat)|exact (Hn 2%nat)].
Qed.

(** C36: what an accepted mint is bound to.  In a reachable state a message
    that [mint] accepts is the one the lock emitted: its route, sender,
    recipient, expiry and payload are those of the stored transfer, so the
    amount and the asset cannot be substituted; the transfer becomes minted on
    its target domain and the asset with it. *)
Theorem mint_binds `{!CollisionFree H} (st st' : BridgeState) (m : CrossDomainMessage) (u : unit)
    (Hr : reachable st) (Hm : message_wf m) (Hmint : mint st m = (st', Ok u)) :
  exists t, transfers st !! message_id m = Some t /\ status t = Locked (t_source_domain t) /\
    source_domain m = t_source_domain t /\ target_domain m = t_target_domain t /\
    msg_sender m = owner t /\ msg_recipient m = recipient t /\
    kind m = BridgeLock /\ expiry_height m = t_expiry_height t /\
    (forall asset v, v ∈u U128 -> payload_hash m = bridge_payload_hash asset v ->
       asset = asset_id t /\ v = amount t) /\
    transfers st' = <[message_id m := set_status (Minted (t_target_domain t)) t]> (transfers st) /\
    asset_locations st' = <[asset_id t := Minted (t_target_domain t)]> (asset_locations st).
Proof.
  destruct (reachable_inv st Hr) as (n & Hn & Hinv).
  apply mint_spec in Hmint as (t & Hv & Ht & Hpay & _ & Hst & ->).
  destruct (accepted_message n st m t Hinv Hn Hm Hv Ht) as (Es & Et & ? & ? & _ & ? & ?).
  exists t. rewrite <- Es, <- Et. split_and!; try done.
  intros asset v Hrange Hp. rewrite Hpay in Hp. apply payload_fields_inj in Hp as [Ea Ev].
  split; [done|]. symmetry. apply u128_le_inj; [|done|done].
  destruct (inv_transfers _ _ Hinv _ _ Ht) as [(a & k & Ha & _ & _ & Eta) _ _].
  rewrite Eta. apply Ha.
Qed.


(** Processed messages stay processed. *)
Lemma processed_mono st ops mid :
  mid ∈ processed_messages (replay st) -> mid ∈ processed_messages (replay (run_ops st ops)).
Proof.
  revert st. induction ops as [|op ops IH]; intros st Hin; [done|]. apply IH. clear IH.
  destruct op as [a d|a|m|i d h j x|i d|h]; simpl.
  - destruct (register_asset st a d) as [st' [u|e]] eqn:E; apply register_asset_spec in E; [|by subst].
    by destruct E as [_ ->].
  - destruct (lock st a) as [st' [[t ev]|e]] eqn:E; apply lock_spec in E; [|by subst].
    destruct E as (_ & _ & _ & _ & _ & _ & Er). simpl. by rewrite Er.
  - destruct (mint st m) as [st' [u|e]] eqn:E; apply mint_spec in E; [|by subst].
    destruct E as (t & _ & _ & _ & _ & _ & ->). simpl. set_solver.
  - destruct (burn_with_event st i d h j x) as [st' [ev|e]] eqn:E; apply burn_spec in E; [|by subst].
    by destruct E as (t & _ & _ & ->).
  - destruct (unlock st i d) as [st' [u|e]] eqn:E; apply unlock_spec in E; [|by subst].
    by destruct E as (t & _ & _ & _ & ->).
  - by rewrite sweep_replay.
Qed.

(** C37: a message mints at most once.  Once [mint] has accepted a message,
    after any further operations every message with that identifier is
    refused, and the refusal is the replay error when the message is otherwise
    well formed (valid identifier, known transfer, bound payload). *)
Theorem mint_at_most_once (st st1 : BridgeState) (m m' : CrossDomainMessage) (u : unit)
    (ops : list BridgeOp) (Hmint : mint st m = (st1, Ok u))
    (Hsame : message_id m' = message_id m) :
  let st2 := run_ops st1 ops in
  exists e, mint st2 m' = (st2, Err e) /\
    (verify_id m' = true ->
     (exists t, transfers st2 !! message_id m' = Some t /\
                payload_hash m' = bridge_payload_hash (asset_id t) (amount t)) ->
     e = MessageAlreadyProcessed).
Proof.
  intros st2. assert (Hin : message_id m' ∈ processed_messages (replay st2)).
  { apply processed_mono. apply mint_spec in Hmint as (t & _ & _ & _ & _ & _ & ->).
    rewrite Hsame. simpl. set_solver. }
  unfold mint, is_processed. rewrite (bool_decide_eq_true_2 _ Hin).
  destruct (verify_id m'); simpl; [|by exists InvalidId].
  destruct (transfers st2 !! message_id m') as [t|]; [|exists UnknownTransfer; naive_solver].
  case_bool_decide; simpl; [by eauto|]. eexists; split; [done|]. naive_solver.
Qed.


(** The transfers after a sweep: exactly the expired locks are released. *)
Lemma sweep_transfers n st cur mid :
  inv n st ->
  transfers (sweep_expired_locks st cur).1 !! mid =
  (fun t => if expired cur t then set_status (Active (t_source_domain t)) t else t)
    <$> transfers st !! mid.
Proof.
  intros Hinv. destruct (sweep_spec n st cur Hinv) as (Hi & Hs & Hq).
  destruct (sw_transfer _ _ _ Hs mid) as [E|(t & d & (t1 & Ht1 & Hx) & Ht & Hst & E & _)];
    simpl in E; rewrite E.
  - destruct (transfers st !! mid) as [t|] eqn:Ht; simpl; [|done]. f_equal.
    destruct (expired cur t) eqn:Hexp; [exfalso|done]. unfold expired in Hexp. split_bool.
    destruct (is_locked_inv t) as [d Hd]; [done|].
    destruct (inv_queue _ _ Hi mid t d) as (mids & Hq1 & _); [by rewrite E|done|lia|].
    destruct (inv_queue _ _ Hinv mid t d) as (mids' & Hq2 & _); [done|done|lia|].
    rewrite Hq, delete_all_lookup, bool_decide_eq_true_2 in Hq1; [done|].
    apply elem_of_due_heights. split; [by eauto|lia].
  - simpl in Ht. rewrite Ht in Ht1. injection Ht1 as <-. rewrite Ht. simpl. f_equal.
    destruct (inv_transfers _ _ Hinv _ _ Ht) as [_ Hh _]. unfold status_home in Hh. rewrite Hst in Hh.
    subst d. unfold expired, is_locked. rewrite Hst.
    by rewrite (proj2 (Z.ltb_lt _ _)), (proj2 (Z.leb_le _ _)) by lia.
Qed.

Definition expired_refunds (cur : Z) (ts : gmap MessageId BridgeTransfer) : list (Address * Z) :=
  refund <$> map_to_list (filter (fun e => expired cur e.2 = true) ts).

Lemma sweep_payments n st cur :
  inv n st -> (sweep_expired_locks st cur).2 ≡ₚ expired_refunds cur (transfers st).
Proof.
  intros Hinv. destruct (sweep_spec n st cur Hinv) as (_ & Hs & _).
  pose proof (sw_paid _ _ _ Hs) as Hp. simpl in Hp.
  set (ts := transfers st) in *. set (ts' := transfers (sweep_expired_locks st cur).1) in *.
  assert (Hafter : filter (fun e => is_locked e.2 = true) ts' =
            filter (fun e => ~ expired cur e.2 = true) (filter (fun e => is_locked e.2 = true) ts)).
  { apply map_eq. intros mid. rewrite !map_lookup_filter. unfold ts'.
    rewrite (sweep_transfers n st cur mid Hinv). fold ts. destruct (ts !! mid) as [t|]; simpl; [|done].
    assert (Hna : is_locked (set_status (Active (t_source_domain t)) t) = false)
      by (unfold is_locked; by rewrite set_status_status).
    destruct (expired cur t) eqn:Ht; repeat (case_guard; simpl); congruence. }
  assert (Hbefore : filter (fun e => expired cur e.2 = true) ts =
            filter (fun e => expired cur e.2 = true) (filter (fun e => is_locked e.2 = true) ts)).
  { symmetry. apply map_filter_filter_l. intros mid t _ Ht. simpl in *. unfold expired in Ht. by split_bool. }
  unfold owed, expired_refunds in *. rewrite Hafter in Hp. rewrite Hbefore.
  rewrite <- (map_to_list_split (fun e => expired cur e.2 = true)
                (filter (fun e => is_locked e.2 = true) ts)) in Hp.
  rewrite fmap_app in Hp. by apply Permutation_app_inv_r in Hp.
Qed.

(** The sweep releases exactly the expired locks.  In a reachable state
    it puts every transfer that is locked with a non-zero expiry height not
    above the current one back to active on its source domain, asset included,
    and changes no other transfer; the payments it returns are one per released
    lock, with its owner and amount; and sweeping again at any height up to the
    same one does nothing. *)
Theorem sweep_exact `{!CollisionFree H} (st st' : BridgeState) (released : list (Address * Z))
    (cur : Z) (Hr : reachable st) (Hsweep : sweep_expired_locks st cur = (st', released)) :
  (forall mid, transfers st' !! mid =
     (fun t => if expired cur t then set_status (Active (t_source_domain t)) t else t)
       <$> transfers st !! mid) /\
  (forall mid t, transfers st !! mid = Some t -> expired cur t = true ->
     asset_locations st' !! asset_id t = Some (Active (t_source_domain t))) /\
  released ≡ₚ expired_refunds cur (transfers st) /\
  (forall cur', cur' <= cur -> sweep_expired_locks st' cur' = (st', [])).
Proof.
  destruct (reachable_inv st Hr) as (n & _ & Hinv).
  destruct (sweep_spec n st cur Hinv) as (Hi & Hs & Hq).
  pose proof (sweep_payments n st cur Hinv) as Hpay.
  pose proof (fun mid => sweep_transfers n st cur mid Hinv) as Htr.
  rewrite Hsweep in *. simpl in *. split_and!; try done.
  - intros mid t Ht Hexp. destruct (sw_transfer _ _ _ Hs mid) as [E|(t' & d & _ & Ht' & Hst & E & Hl)];
      simpl in *.
    + rewrite Htr, Ht in E. simpl in E. rewrite Hexp in E. injection E as E.
      apply (f_equal is_locked) in E. unfold is_locked at 1 in E. rewrite set_status_status in E.
      unfold expired in Hexp. split_bool. congruence.
    + simplify_eq. destruct (inv_transfers _ _ Hinv _ _ Ht) as [_ Hh _].
      unfold status_home in Hh. rewrite Hst in Hh. by rewrite <- Hh.
  - intros cur' Hle. unfold sweep_expired_locks.
    assert (Hnil : due_heights st' cur' = []); [|by rewrite Hnil].
    apply elem_of_nil_inv. intros h ([mids Hm] & Hh)%elem_of_due_heights.
    rewrite Hq, delete_all_lookup in Hm. case_bool_decide as Hd; [done|]. apply Hd.
    apply elem_of_due_heights. split; [by eauto|lia].
Qed.


(** The round trip of an asset.  In a reachable state an asset that is
    active on its source domain can be locked, the emitted message minted, the
    mint burned on the target domain and the burn unlocked, each step being
    accepted; afterwards every asset is where it was, and the transfer is
    recorded as unlocked. *)
Theorem bridge_round_trip `{!CollisionFree H} (st : BridgeState) (a : LockArgs) (h i x : Z)
    (Hr : reachable st) (Ha : lock_wf a)
    (Hactive : asset_locations st !! l_asset_id a = Some (Active (l_source_domain a))) :
  exists st1 st2 st3 st4 t e m e',
    lock st a = (st1, Ok (t, e)) /\ message e = Some m /\ mint st1 m = (st2, Ok tt) /\
    burn_with_event st2 (message_id m) (l_target_domain a) h i x = (st3, Ok e') /\
    unlock st3 (message_id m) (l_target_domain a) = (st4, Ok tt) /\
    asset_locations st4 = asset_locations st /\
    transfers st4 = <[message_id m := set_status (Unlocked (l_source_domain a)) t]> (transfers st).
Proof.
  destruct (reachable_inv st Hr) as (n & Hn & Hinv).
  pose proof (lock_fresh n st a Hinv Hn Ha) as Hfresh.
  set (m := new_message (lock_params a (lock_nonce st a))).
  assert (Hnp : message_id m ∉ processed_messages (replay st)).
  { intros Hp%(inv_minted _ _ Hinv). change (message_id m) with (t_message_id (lock_transfer a (lock_nonce st a))) in Hp.
    rewrite Hfresh in Hp. by destruct Hp. }
  destruct (lock_accepts st a Hactive) as [st1 Hlock].
  pose proof (lock_spec _ _ _ _ Hlock) as (_ & _ & _ & El & Etr & _ & Er).
  set (t := lock_transfer a (lock_nonce st a)) in *. change (t_message_id t) with (message_id m) in *.
  pose proof (mint_accepts st1 m t (new_message_verifies _)) as Hmint.
  rewrite Etr, Er, lookup_insert_eq in Hmint. specialize (Hmint eq_refl eq_refl Hnp eq_refl).
  match type of Hmint with _ = (?s, _) => set (st2 := s) in * end.
  destruct (burn_accepts st2 (message_id m) (l_target_domain a) h i x
              (set_status (Minted (l_target_domain a)) t)) as [e' Hburn];
    [apply lookup_insert_eq|done|].
  match type of Hburn with _ = (?s, _) => set (st3 := s) in * end.
  pose proof (unlock_accepts st3 (message_id m) (set_status (Burned (l_target_domain a)) t)
                (lookup_insert_eq _ _ _) eq_refl) as Hunlock.
  eexists st1, st2, st3, _, t, _, m, e'. split_and!; try done.
  all: simpl. all: rewrite ?El, ?Etr, !insert_insert_eq; try done.
  by apply insert_id.
Qed.

End facts.

(** The relayer fee.  For a rate below 100% and an amount whose product
    with the rate does not overflow, an accepted split gives the recipient and
    the relayer exactly the amount between them, the fee is the rate rounded
    down and at least the minimum, and the recipient gets at least one unit; an
    amount not above the minimum fee is refused. *)
Theorem split_bridge_fee_spec (amount fee_ppm min_fee : Z)
    (Ha : 0 <= amount) (Hp : 0 <= fee_ppm < 1000000) (Hm : 0 <= min_fee)
    (Hov : amount * fee_ppm < U128) :
  match split_bridge_fee amount fee_ppm min_fee with
  | Ok (share, fee) =>
      share + fee = amount /\ 0 < share /\ fee = Z.max (amount * fee_ppm / 1000000) min_fee
  | Err _ => amount <= min_fee
  end.
Proof.
  unfold split_bridge_fee. destruct (Z.leb_spec amount min_fee) as [|Hlt]; [done|].
  unfold saturating_mul, saturating_sub. rewrite Z.min_l by lia.
  assert (amount * fee_ppm / 1000000 < amount) by (apply Z.div_lt_upper_bound; nia).
  assert (0 <= amount * fee_ppm / 1000000) by (apply Z.div_pos; nia). lia.
Qed.
Lemma split_bridge_fee_spec_witness :
  split_bridge_fee 5000 10000 7 = Ok (4950, 50) /\ 4950 + 50 = 5000.
Proof.
  pose proof (split_bridge_fee_spec 5000 10000 7 ltac:(lia) ltac:(lia) ltac:(lia) ltac:(lia)) as Hs.
  split; [reflexivity|]. change (split_bridge_fee 5000 10000 7) with (@Ok (Z * Z) BridgeError (4950, 50)) in Hs.
  exact (proj1 Hs).
Defined.

(** ** A concrete bridge *)
Definition demo_lock : LockArgs := mkLock 1 2 10 0 [7] [11] [12] 500 100.
Definition demo_ops : list BridgeOp := [OpRegister [7] 1; OpLock demo_lock].
Definition demo_message : CrossDomainMessage :=
  new_message (H := framed_hash) (lock_params (H := framed_hash) demo_lock 0).
Definition demo_state : BridgeState := run_ops (H := framed_hash) bridge_new demo_ops.

Lemma demo_reachable : reachable (H := framed_hash) demo_state.
Proof.
  exists demo_ops. split_and!; [|done|done]. repeat constructor; vm_compute; done.
Qed.

Lemma demo_message_wf : message_wf demo_message.
Proof. by split; vm_compute. Qed.

Lemma bridge_custody_witness :
  exists t, transfers demo_state !! message_id demo_message = Some t /\ status_home t.
Proof.
  pose proof (bridge_custody (H := framed_hash) (CollisionFree0 := framed_hash_inj)
                demo_state demo_reachable) as [Ht _].
  assert (E : is_Some (transfers demo_state !! message_id demo_message)) by (vm_compute; by eexists).
  destruct E as [t E]. exists t. split; [exact E|]. apply (Ht _ _ E).
Defined.

Lemma mint_binds_witness :
  exists t, transfers demo_state !! message_id demo_message = Some t /\
    target_domain demo_message = t_target_domain t.
Proof.
  destruct (mint (H := framed_hash) demo_state demo_message) as [st' [u|e]] eqn:E.
  - destruct (mint_binds (H := framed_hash) (CollisionFree0 := framed_hash_inj)
      demo_state st' demo_message u demo_reachable demo_message_wf E) as (t & Ht & _ & _ & Htgt & _).
    exists t. exact (conj Ht Htgt).
  - exfalso. apply (f_equal snd) in E. vm_compute in E. discriminate.
Defined.

Lemma mint_at_most_once_witness :
  exists st1 e, mint (H := framed_hash) demo_state demo_message = (st1, Ok tt) /\
    mint (H := framed_hash) (run_ops (H := framed_hash) st1 [OpSweep 1000]) demo_message =
      (run_ops (H := framed_hash) st1 [OpSweep 1000], Err e).
Proof.
  destruct (mint (H := framed_hash) demo_state demo_message) as [st1 [[]|e]] eqn:E.
  - destruct (mint_at_most_once (H := framed_hash) demo_state st1 demo_message demo_message tt
                [OpSweep 1000] E eq_refl) as (e & He & _).
    exists st1, e. exact (conj eq_refl He).
  - exfalso. apply (f_equal snd) in E. vm_compute in E. discriminate.
Defined.

Lemma bridge_errors_atomic_witness :
  exists e, apply_op (H := framed_hash) demo_state (OpLock demo_lock) = (demo_state, Some e).
Proof.
  destruct (apply_op (H := framed_hash) demo_state (OpLock demo_lock)) as [st' [e|]] eqn:E.
  - exists e. by rewrite (bridge_errors_atomic (H := framed_hash) _ _ _ _ E).
  - exfalso. apply (f_equal snd) in E. vm_compute in E. discriminate.
Defined.

Lemma sweep_exact_witness :
  (sweep_expired_locks demo_state 100).2 ≡ₚ [([11], 500)].
Proof.
  pose proof (sweep_exact (H := framed_hash) (CollisionFree0 := framed_hash_inj) demo_state
                (sweep_expired_locks demo_state 100).1 (sweep_expired_locks demo_state 100).2 100
                demo_reachable (surjective_pairing _)) as (_ & _ & Hp & _).
  rewrite Hp. vm_compute. reflexivity.
Defined.

Lemma bridge_round_trip_witness :
  let st := run_ops (H := framed_hash) bridge_new [OpRegister [7] 1] in
  exists st' t, lock (H := framed_hash) st demo_lock = (st', Ok t).
Proof.
  intros st.
  destruct (bridge_round_trip (H := framed_hash) (CollisionFree0 := framed_hash_inj)
    st demo_lock 20 0 0) as (st1 & _ & _ & _ & t & e & _ & _ & Hl & _).
  - exists [OpRegister [7] 1]. split_and!; [|done|done]. repeat constructor.
  - by split; vm_compute.
  - vm_compute. reflexivity.
  - by exists st1, (t, e).
Defined.

End BridgeFacts.
