(* ===== verification/Rlp.v ===== *)
(** * Recursive length prefix (src/cross_domain/evm/rlp.rs)

    The encoder and the decoder of the in-tree RLP implementation, and the
    integer helpers.  Bytes are [Z], a slice is a list, and [decode_at] recurses
    on the nesting levels left ([MAX_DEPTH + 1 - depth]), so that running out of
    levels is the source's [NestingTooDeep]; the loop of [decode_list_items]
    has the length of its payload as fuel, which is enough because every item
    consumes a byte.

    Theorems: decoding an encoded item gives the item back, or
    [NestingTooDeep] exactly when it is nested more than [MAX_DEPTH] deep; a
    decoded item re-encodes to the input or to something shorter; integers
    round trip; and two inputs the decoder should have told apart are accepted
    alike. *)

From Stdlib Require Import ZArith Lia.
From stdpp Require Import base tactics strings numbers list.
From S2P Require Import Prelude.
Open Scope Z_scope.

Module Rlp.

Inductive Item : Type :=
| IString (b : list Z)
| IList (items : list Item).

Inductive RlpError : Type :=
| UnexpectedEof
| InvalidLengthPrefix
| NonCanonical
| TrailingBytes
| NestingTooDeep.

Definition MAX_DEPTH : Z := 32.

(** Byte ranges of literal items. *)
Ltac solve_bytes :=
  repeat match goal with
  | |- byte _ => unfold byte; lia
  | |- Forall _ _ => constructor
  | |- _ /\ _ => split
  | |- True => exact I
  end.

(** ** Encoding *)

(** [be.iter().position(|&b| b != 0)] and the slice from there. *)
Fixpoint skip_zeros (bs : list Z) : list Z :=
  match bs with
  | [] => []
  | b :: rest => if b =? 0 then skip_zeros rest else bs
  end.

Definition trim_leading_zeros (n : Z) : list Z :=
  if n =? 0 then [] else skip_zeros (be_encode 8 n).

Definition encode_length (len offset : Z) : list Z :=
  if len <? 56 then [offset + len]
  else
    let len_be := trim_leading_zeros len in
    (offset + 55 + zlen len_be) :: len_be.

Definition encode_string (bs : list Z) : list Z :=
  match bs with
  | [b] => if b <? 128 then [b] else encode_length 1 128 ++ bs
  | _ => encode_length (zlen bs) 128 ++ bs
  end.

(** [encode_into], appending to [out], as the bytes appended. *)
Fixpoint encode (item : Item) : list Z :=
  match item with
  | IString bs => encode_string bs
  | IList items =>
      let payload := concat (map encode items) in
      encode_length (zlen payload) 192 ++ payload
  end.

(** ** Decoding *)

Definition take_exact (input : list Z) (n : Z) : result (list Z) RlpError :=
  if zlen input <? n then Err UnexpectedEof else Ok (take (Z.to_nat n) input).

(** The loop over the length bytes, on [usize] with overflow checks. *)
Fixpoint read_length (len : Z) (bs : list Z) : result Z RlpError :=
  match bs with
  | [] => Ok len
  | b :: bs =>
      match checked_mul U64 len 256 with
      | None => Err InvalidLengthPrefix
      | Some v =>
          match checked_add U64 v b with
          | None => Err InvalidLengthPrefix
          | Some len => read_length len bs
          end
      end
  end.

Definition decode_length_value (input : list Z) (len_of_len : Z) : result Z RlpError :=
  let? len_bytes := take_exact input len_of_len in
  check? negb ((1 <? len_of_len) && (nth 0 len_bytes 0 =? 0)) else NonCanonical in
  check? negb ((len_of_len =? 1) && (nth 0 len_bytes 0 <? 56)) else NonCanonical in
  read_length 0 len_bytes.

(** [while !rest.is_empty()] of [decode_list_items], for the decoder [dec] of
    the next level. *)
Fixpoint decode_list_items (dec : list Z -> result (Item * list Z) RlpError) (fuel : nat)
    (rest : list Z) : result (list Item) RlpError :=
  match rest with
  | [] => Ok []
  | _ =>
      match fuel with
      | O => Err UnexpectedEof
      | S fuel =>
          let? r := dec rest in
          let? items := decode_list_items dec fuel r.2 in
          Ok (r.1 :: items)
      end
  end.

(** [decode_at] with [levels = MAX_DEPTH + 1 - depth]. *)
Fixpoint decode_at (levels : nat) (input : list Z) : result (Item * list Z) RlpError :=
  match levels with
  | O => Err NestingTooDeep
  | S levels =>
      match input with
      | [] => Err UnexpectedEof
      | first :: tail =>
          if first <? 128 then Ok (IString [first], tail)
          else if first <=? 183 then
            let len := first - 128 in
            let? payload := take_exact tail len in
            Ok (IString payload, drop (Z.to_nat len) tail)
          else if first <=? 191 then
            let len_of_len := first - 183 in
            let? len := decode_length_value tail len_of_len in
            let body := drop (Z.to_nat len_of_len) tail in
            let? payload := take_exact body len in
            Ok (IString payload, drop (Z.to_nat len) body)
          else if first <=? 247 then
            let len := first - 192 in
            let? payload := take_exact tail len in
            let? items := decode_list_items (decode_at levels) (length payload) payload in
            Ok (IList items, drop (Z.to_nat len) tail)
          else
            let len_of_len := first - 247 in
            let? len := decode_length_value tail len_of_len in
            let body := drop (Z.to_nat len_of_len) tail in
            let? payload := take_exact body len in
            let? items := decode_list_items (decode_at levels) (length payload) payload in
            Ok (IList items, drop (Z.to_nat len) body)
      end
  end.

Definition decode (input : list Z) : result Item RlpError :=
  let? r := decode_at (Z.to_nat (MAX_DEPTH + 1)) input in
  check? zlen r.2 =? 0 else TrailingBytes in
  Ok r.1.

(** ** Integers *)

Definition encode_uint (n : Z) : list Z := encode (IString (trim_leading_zeros n)).

Definition decode_uint (item : Item) : result Z RlpError :=
  match item with
  | IList _ => Err NonCanonical
  | IString bs =>
      if (1 <? zlen bs) && (nth 0 bs 0 =? 0) then Err NonCanonical
      else if zlen bs =? 0 then Ok 0
      else if 8 <? zlen bs then Err InvalidLengthPrefix
      else read_length 0 bs
  end.

Definition as_bytes (item : Item) : result (list Z) RlpError :=
  match item with
  | IString b => Ok b
  | IList _ => Err NonCanonical
  end.

(** ** Length prefixes *)

(** Induction over the items nested in an item. *)
Lemma Item_ind' (P : Item -> Prop) :
  (forall b, P (IString b)) -> (forall items, Forall P items -> P (IList items)) -> forall i, P i.
Proof.
  intros Hs Hl. fix IH 1. intros [b|items]; [apply Hs|]. apply Hl.
  induction items as [|i items IHi]; constructor; [apply IH|done].
Qed.

Lemma skip_zeros_decode bs : be_decode (skip_zeros bs) = be_decode bs.
Proof.
  induction bs as [|b bs IH]; simpl; [done|]. case_match eqn:E; [|done].
  apply Z.eqb_eq in E. subst. by rewrite IH.
Qed.

Lemma skip_zeros_head bs : skip_zeros bs = [] \/ nth 0 (skip_zeros bs) 0 <> 0.
Proof.
  induction bs as [|b bs IH]; simpl; [by left|]. case_match eqn:E; [done|]. right. simpl. lia.
Qed.

Lemma skip_zeros_suffix bs : exists k, skip_zeros bs = drop k bs.
Proof.
  induction bs as [|b bs [k IH]]; simpl; [by exists 0%nat|].
  case_match; [by exists (S k)|by exists 0%nat].
Qed.

Lemma be_decode_encode n x : be_decode (be_encode n x) = x mod 256 ^ Z.of_nat n.
Proof.
  rewrite <- le_decode_encode. unfold be_encode, be_decode. generalize (le_encode n x). intros l.
  induction l as [|b l IH]; simpl; [done|]. rewrite fold_left_app. simpl. rewrite IH. lia.
Qed.

(** The minimal big-endian form of [n]. *)
Lemma trim_spec n :
  n ∈u U64 -> be_decode (trim_leading_zeros n) = n /\ Forall byte (trim_leading_zeros n) /\
  zlen (trim_leading_zeros n) <= 8 /\
  (n <> 0 -> 1 <= zlen (trim_leading_zeros n) /\ nth 0 (trim_leading_zeros n) 0 <> 0).
Proof.
  intros Hn. unfold trim_leading_zeros. destruct (Z.eqb_spec n 0) as [->|Hnz]; [done|].
  assert (Hdec : be_decode (skip_zeros (be_encode 8 n)) = n).
  { rewrite skip_zeros_decode, be_decode_encode. change (256 ^ Z.of_nat 8) with U64.
    by apply Z.mod_small. }
  destruct (skip_zeros_suffix (be_encode 8 n)) as [k Hk].
  assert (Hbytes : Forall byte (be_encode 8 n)).
  { unfold be_encode. apply Forall_rev, le_encode_bytes. }
  assert (Hlen : zlen (be_encode 8 n) = 8).
  { unfold zlen, be_encode. rewrite length_rev, length_le_encode. done. }
  split_and!; [done|rewrite Hk; by apply Forall_drop| |].
  - rewrite Hk. unfold zlen in *. rewrite length_drop. lia.
  - intros _. destruct (skip_zeros_head (be_encode 8 n)) as [E|E].
    + rewrite E in Hdec. unfold be_decode in Hdec. simpl in Hdec. lia.
    + split; [|done]. destruct (skip_zeros (be_encode 8 n)); [done|]. unfold zlen. simpl. lia.
Qed.

(** Reading bytes into a [u64] gives their big-endian value, when it fits. *)
Lemma read_length_spec bs acc :
  Forall byte bs -> 0 <= acc -> acc * 256 ^ zlen bs + be_decode bs < U64 ->
  read_length acc bs = Ok (acc * 256 ^ zlen bs + be_decode bs).
Proof.
  revert acc. induction bs as [|b bs IH]; intros acc Hb Hacc Hlt.
  - unfold zlen, be_decode. simpl. f_equal. lia.
  - apply Forall_cons in Hb as [Hx Hb]. pose proof (be_decode_bound bs Hb) as Hbound.
    change (b :: bs) with ([b] ++ bs) in Hlt |- *. rewrite zlen_app, be_decode_app in Hlt |- *.
    change (zlen [b]) with 1 in *. change (be_decode [b]) with b in *.
    pose proof (zlen_nonneg bs). rewrite Z.pow_add_r in Hlt |- * by lia. unfold byte in Hx.
    assert (0 < 256 ^ zlen bs) by (apply Z.pow_pos_nonneg; lia).
    simpl. unfold checked_mul, checked_add.
    rewrite (proj2 (Z.ltb_lt (acc * 256) U64)) by nia.
    rewrite (proj2 (Z.ltb_lt (acc * 256 + b) U64)) by nia.
    rewrite IH; [f_equal; lia|done|lia|lia].
Qed.

(** ** Decoding an encoding *)

(** How many levels of list an item needs below it; the bytes of its strings. *)
Fixpoint item_depth (item : Item) : nat :=
  match item with
  | IString _ => 0
  | IList items => list_max (map (fun i => S (item_depth i)) items)
  end.

Fixpoint item_bytes (item : Item) : Prop :=
  match item with
  | IString bs => Forall byte bs
  | IList items => fold_right (fun i P => item_bytes i /\ P) True items
  end.

Lemma item_bytes_list items : item_bytes (IList items) <-> Forall item_bytes items.
Proof.
  induction items as [|i items IH]; simpl in *; [split; constructor|].
  rewrite Forall_cons, IH. done.
Qed.

Lemma take_exact_app a b : take_exact (a ++ b) (zlen a) = Ok a.
Proof.
  unfold take_exact. rewrite zlen_app. pose proof (zlen_nonneg b).
  rewrite (proj2 (Z.ltb_ge _ _)) by lia. unfold zlen. rewrite Nat2Z.id. by rewrite take_app_length.
Qed.

Lemma drop_zlen {A} (a b : list A) : drop (Z.to_nat (zlen a)) (a ++ b) = b.
Proof. unfold zlen. rewrite Nat2Z.id. by rewrite drop_app_length. Qed.

Lemma decode_length_value_trim n rest :
  56 <= n < U64 ->
  decode_length_value (trim_leading_zeros n ++ rest) (zlen (trim_leading_zeros n)) = Ok n.
Proof.
  intros Hn. destruct (trim_spec n ltac:(lia)) as (Hd & Hb & H8 & Hnz).
  destruct Hnz as [H1 Hhead]; [lia|]. unfold decode_length_value. rewrite take_exact_app. simpl.
  rewrite (proj2 (Z.eqb_neq _ _) Hhead), andb_false_r. simpl.
  assert (Hsmall : ((zlen (trim_leading_zeros n) =? 1) && (nth 0 (trim_leading_zeros n) 0 <? 56)) = false).
  { destruct (Z.eqb_spec (zlen (trim_leading_zeros n)) 1) as [E|]; [|done]. simpl.
    destruct (trim_leading_zeros n) as [|b [|c l]]; [done| |unfold zlen in E; simpl in E; lia].
    unfold be_decode in Hd. simpl in *. lia. }
  rewrite Hsmall. simpl. rewrite read_length_spec; [rewrite Hd; f_equal; lia|done|lia|rewrite Hd; lia].
Qed.

Lemma encode_nonempty item : (0 < length (encode item))%nat.
Proof.
  destruct item as [[|b [|c l]]|items]; simpl; unfold encode_length; repeat case_match; simpl; lia.
Qed.

Lemma decode_string levels bs rest :
  Forall byte bs -> zlen bs < U64 ->
  decode_at (S levels) (encode_string bs ++ rest) = Ok (IString bs, rest).
Proof.
  intros Hb Hlen.
  assert (Hlong : decode_at (S levels) (encode_length (zlen bs) 128 ++ bs ++ rest) = Ok (IString bs, rest)).
  { unfold encode_length. pose proof (zlen_nonneg bs). destruct (Z.ltb_spec (zlen bs) 56).
    - simpl. rewrite (proj2 (Z.ltb_ge _ _)), (proj2 (Z.leb_le _ _)) by lia.
      replace (128 + zlen bs - 128) with (zlen bs) by lia. rewrite take_exact_app. simpl.
      by rewrite drop_zlen.
    - destruct (trim_spec (zlen bs) ltac:(lia)) as (_ & _ & H8 & Hnz). destruct Hnz; [lia|].
      cbn [app decode_at].
      rewrite (proj2 (Z.ltb_ge _ _)), (proj2 (Z.leb_gt _ _)), (proj2 (Z.leb_le _ _)) by lia.
      replace (128 + 55 + zlen (trim_leading_zeros (zlen bs)) - 183)
        with (zlen (trim_leading_zeros (zlen bs))) by lia.
      rewrite decode_length_value_trim by lia. cbn [rbind]. rewrite drop_zlen, take_exact_app.
      cbn [rbind]. by rewrite drop_zlen. }
  unfold encode_string. destruct bs as [|b [|c l]]; rewrite <- ?(assoc_L (++)); try exact Hlong.
  destruct (Z.ltb_spec b 128) as [Hlt|]; [|by rewrite <- (assoc_L (++))].
  simpl. by rewrite (proj2 (Z.ltb_lt _ _) Hlt).
Qed.

(** A list decodes to whatever its payload decodes to. *)
Lemma decode_list levels payload rest :
  zlen payload < U64 ->
  decode_at (S levels) (encode_length (zlen payload) 192 ++ payload ++ rest) =
  let? items := decode_list_items (decode_at levels) (length payload) payload in
  Ok (IList items, rest).
Proof.
  intros Hlen. unfold encode_length. pose proof (zlen_nonneg payload).
  destruct (Z.ltb_spec (zlen payload) 56).
  - cbn [app decode_at]. rewrite (proj2 (Z.ltb_ge _ _)), 2!(proj2 (Z.leb_gt _ _)), (proj2 (Z.leb_le _ _)) by lia.
    replace (192 + zlen payload - 192) with (zlen payload) by lia. rewrite take_exact_app. cbn [rbind].
    by rewrite drop_zlen.
  - destruct (trim_spec (zlen payload) ltac:(lia)) as (_ & _ & H8 & Hnz). destruct Hnz; [lia|].
    cbn [app decode_at]. rewrite (proj2 (Z.ltb_ge _ _)), 3!(proj2 (Z.leb_gt _ _)) by lia.
    replace (192 + 55 + zlen (trim_leading_zeros (zlen payload)) - 247)
      with (zlen (trim_leading_zeros (zlen payload))) by lia.
    rewrite decode_length_value_trim by lia. cbn [rbind].
    rewrite drop_zlen, take_exact_app. cbn [rbind]. by rewrite drop_zlen.
Qed.

Lemma list_max_lt l n : (0 < n)%nat -> (list_max l < n)%nat <-> Forall (fun x => (x < n)%nat) l.
Proof. intros Hn. induction l; simpl; [by split|]. rewrite Forall_cons, <- IHl. lia. Qed.

Lemma decode_items_encoded levels items fuel :
  Forall (fun i => forall rest, decode_at levels (encode i ++ rest) =
            if decide (item_depth i < levels)%nat then Ok (i, rest) else Err NestingTooDeep) items ->
  (length (concat (map encode items)) <= fuel)%nat ->
  decode_list_items (decode_at levels) fuel (concat (map encode items)) =
  if decide (Forall (fun i => (item_depth i < levels)%nat) items) then Ok items else Err NestingTooDeep.
Proof.
  intros Hall. revert fuel. induction Hall as [|i items Hi Hall IH]; intros fuel Hf.
  - by destruct fuel.
  - cbn [map concat] in *. pose proof (encode_nonempty i) as Hne. rewrite length_app in Hf.
    destruct fuel as [|fuel]; [lia|].
    destruct (encode i ++ concat (map encode items)) as [|z zs] eqn:E.
    { apply (f_equal length) in E. rewrite length_app in E. simpl in E. lia. }
    cbn [decode_list_items]. rewrite <- E, Hi.
    destruct (decide (item_depth i < levels)%nat) as [Hd|Hd].
    + cbn [rbind snd]. rewrite IH by lia.
      destruct (decide (Forall _ items)) as [Hr|Hr]; cbn [rbind fst].
      * rewrite decide_True; [done|by constructor].
      * rewrite decide_False; [done|]. by intros [_ ?]%Forall_cons.
    + cbn [rbind]. rewrite decide_False; [done|]. by intros [? _]%Forall_cons.
Qed.

Lemma concat_le {A} (l : list (list A)) x : x ∈ l -> zlen x <= zlen (concat l).
Proof.
  induction 1 as [|x y l _ IH]; simpl; rewrite zlen_app; [|].
  - pose proof (zlen_nonneg (concat l)). lia.
  - pose proof (zlen_nonneg y). lia.
Qed.

Lemma decode_at_encode item levels rest :
  item_bytes item -> zlen (encode item) < U64 ->
  decode_at (S levels) (encode item ++ rest) =
  if decide (item_depth item < S levels)%nat then Ok (item, rest) else Err NestingTooDeep.
Proof.
  revert levels rest. induction item as [bs|items IH] using Item_ind'; intros levels rest Hb Hlen.
  - rewrite decide_True by (simpl; lia). cbn [encode] in *. apply decode_string; [done|].
    unfold encode_string in Hlen. destruct bs as [|b [|c l]]; [done|done|]. rewrite zlen_app in Hlen.
    pose proof (zlen_nonneg (encode_length (zlen (b :: c :: l)) 128)). lia.
  - cbn [encode] in *. rewrite zlen_app in Hlen. set (payload := concat (map encode items)) in *.
    pose proof (zlen_nonneg (encode_length (zlen payload) 192)).
    rewrite <- (assoc_L (++)), decode_list by lia.
    apply item_bytes_list in Hb.
    destruct levels as [|levels].
    { destruct items as [|i items]; [done|]. rewrite decide_False by (simpl; lia).
      unfold payload. cbn [map concat]. pose proof (encode_nonempty i).
      destruct (encode i) as [|z zs]; [simpl in *; lia|]. done. }
    unfold payload at 2. rewrite decode_items_encoded; [| |done].
    + cbn [item_depth].
      assert (Hiff : (list_max (map (fun i => S (item_depth i)) items) < S (S levels))%nat <->
                     Forall (fun i => (item_depth i < S levels)%nat) items).
      { rewrite list_max_lt, Forall_map by lia. apply Forall_iff. intros i. simpl. lia. }
      destruct (decide (Forall _ items)), (decide (list_max _ < _)%nat); try done; tauto.
    + rewrite Forall_forall in *. intros i Hi rest'. apply IH; [done|by apply Hb|].
      assert (zlen (encode i) <= zlen payload).
      { apply concat_le. apply list_elem_of_fmap. by exists i. } lia.
Qed.

(** RLP round trip.  Encoding an item and decoding the bytes gives the
    item back, with nothing left over, for every item nested at most
    [MAX_DEPTH] lists deep; a deeper item is refused with [NestingTooDeep], and
    with no other error. *)
Theorem rlp_roundtrip (item : Item) (Hb : item_bytes item) (Hlen : zlen (encode item) < U64) :
  decode (encode item) =
  if decide (Z.of_nat (item_depth item) <= MAX_DEPTH) then Ok item else Err NestingTooDeep.
Proof.
  unfold decode. rewrite <- (app_nil_r (encode item)).
  change (Z.to_nat (MAX_DEPTH + 1)) with 33%nat. rewrite decode_at_encode by done. unfold MAX_DEPTH.
  destruct (decide (item_depth item < 33)%nat), (decide (Z.of_nat (item_depth item) <= 32)); done || lia.
Qed.
Lemma rlp_roundtrip_witness :
  let item := IList [IString [99; 97; 116]; IList []; IString (replicate 60 200)] in
  decode (encode item) = Ok item.
Proof.
  intros item. rewrite (rlp_roundtrip item).
  - reflexivity.
  - cbn. solve_bytes.
  - reflexivity.
Defined.

(** ** What a decoder accepts *)

Lemma take_exact_Ok input n x :
  0 <= n -> take_exact input n = Ok x -> input = x ++ drop (Z.to_nat n) input /\ zlen x = n.
Proof.
  unfold take_exact. destruct (Z.ltb_spec (zlen input) n) as [|Hge]; [done|]. intros Hn [= <-].
  split; [by rewrite take_drop|]. unfold zlen in *. rewrite length_take. lia.
Qed.

Lemma skip_zeros_id bs : nth 0 bs 0 <> 0 -> skip_zeros bs = bs.
Proof. destruct bs as [|b bs]; simpl; [done|]. intros. by rewrite (proj2 (Z.eqb_neq _ _)). Qed.

Lemma be_decode_le bs : be_decode bs = le_decode (rev bs).
Proof.
  induction bs as [|b bs IH] using rev_ind; [done|].
  rewrite rev_app_distr. unfold be_decode in *. rewrite fold_left_app. simpl. rewrite IH. lia.
Qed.

Lemma le_decode_zeros l k : le_decode (l ++ replicate k 0) = le_decode l.
Proof. induction l as [|b l IH]; simpl; [|by rewrite IH]. induction k; simpl; lia. Qed.

Lemma skip_zeros_replicate k bs : skip_zeros (replicate k 0 ++ bs) = skip_zeros bs.
Proof. by induction k. Qed.

(** A big-endian form without leading zeros is the one the encoder writes. *)
Lemma trim_unique bs :
  Forall byte bs -> nth 0 bs 0 <> 0 -> (length bs <= 8)%nat -> trim_leading_zeros (be_decode bs) = bs.
Proof.
  intros Hb Hnz Hlen. pose proof (be_decode_bound bs Hb) as Hbound.
  assert (Hpad : be_encode 8 (be_decode bs) = replicate (8 - length bs) 0 ++ bs).
  { unfold be_encode. rewrite be_decode_le, <- (le_decode_zeros (rev bs) (8 - length bs)).
    assert (Hl : length (rev bs ++ replicate (8 - length bs) 0) = 8%nat)
      by (rewrite length_app, length_rev, length_replicate; lia).
    rewrite <- Hl at 1. rewrite le_encode_decode.
    - rewrite rev_app_distr, rev_involutive. f_equal.
      rewrite rev_alt. apply reverse_replicate.
    - apply Forall_app. split; [by apply Forall_rev|]. apply Forall_replicate. unfold byte; lia. }
  unfold trim_leading_zeros. destruct (Z.eqb_spec (be_decode bs) 0) as [E|_].
  - exfalso. destruct bs as [|b bs]; [done|]. simpl in Hnz.
    change (b :: bs) with ([b] ++ bs) in E. rewrite be_decode_app in E. change (be_decode [b]) with b in E.
    apply Forall_cons in Hb as [Hx Hb]. pose proof (be_decode_bound bs Hb). unfold byte in Hx.
    assert (0 < 256 ^ zlen bs) by (apply Z.pow_pos_nonneg; [lia|apply zlen_nonneg]). nia.
  - rewrite Hpad, skip_zeros_replicate. by apply skip_zeros_id.
Qed.

Lemma read_length_Ok bs acc v :
  read_length acc bs = Ok v -> v = acc * 256 ^ zlen bs + be_decode bs.
Proof.
  revert acc. induction bs as [|b bs IH]; intros acc E; simpl in E.
  - injection E as <-. unfold zlen, be_decode. simpl. lia.
  - destruct (checked_mul U64 acc 256) as [m|] eqn:Em; [|done].
    destruct (checked_add U64 m b) as [a|] eqn:Ea; [|done].
    apply checked_mul_Some in Em as [-> _]. apply checked_add_Some in Ea as [-> _].
    apply IH in E as ->. change (b :: bs) with ([b] ++ bs). rewrite be_decode_app, zlen_app.
    change (zlen [b]) with 1. change (be_decode [b]) with b. pose proof (zlen_nonneg bs).
    rewrite Z.pow_add_r by lia. lia.
Qed.

(** An accepted long-form length is the encoder's. *)
Lemma decode_length_value_Ok tail k len :
  Forall byte tail -> 1 <= k <= 8 -> decode_length_value tail k = Ok len ->
  56 <= len /\ zlen (trim_leading_zeros len) = k /\
  tail = trim_leading_zeros len ++ drop (Z.to_nat k) tail.
Proof.
  intros Hb Hk E. unfold decode_length_value in E. apply rbind_Ok in E as (lb & Et & E).
  apply take_exact_Ok in Et as [Htail Hlb]; [|lia]. inv_ok E.
  apply read_length_Ok in E. rewrite Z.mul_0_l, Z.add_0_l in E.
  assert (Hlbb : Forall byte lb) by (rewrite Htail in Hb; by apply Forall_app in Hb as [? _]).
  assert (Hhead : nth 0 lb 0 <> 0 /\ 56 <= be_decode lb).
  { destruct lb as [|b lb]; [unfold zlen in Hlb; simpl in Hlb; lia|]. cbn [nth] in *.
    change (b :: lb) with ([b] ++ lb) in *. rewrite zlen_app in Hlb. change (zlen [b]) with 1 in Hlb.
    rewrite be_decode_app. change (be_decode [b]) with b.
    apply Forall_app in Hlbb as [Hx Hlbb]. rewrite Forall_singleton in Hx. unfold byte in Hx.
    pose proof (be_decode_bound lb Hlbb) as Hbd. destruct (Z.eqb_spec k 1) as [->|Hne].
    - assert (zlen lb = 0) as Hz by lia. rewrite Hz in *. simpl in *. lia.
    - assert (256 <= 256 ^ zlen lb) by (change 256 with (256 ^ 1) at 1; apply Z.pow_le_mono_r; lia).
      rewrite (proj2 (Z.ltb_lt 1 k)) in E0 by lia. simpl in E0. nia. }
  destruct Hhead as [Hnz Hge]. subst len. rewrite trim_unique; [done|done|done|].
  unfold zlen in Hlb. lia.
Qed.

Lemma trim_mono a b :
  0 <= a <= b -> b < U64 -> zlen (trim_leading_zeros a) <= zlen (trim_leading_zeros b).
Proof.
  intros Hab Hb. destruct (trim_spec a ltac:(lia)) as (Da & Ba & _ & Na).
  destruct (trim_spec b ltac:(lia)) as (Db & Bb & _ & _).
  pose proof (be_decode_bound _ Bb) as Hub. rewrite Db in Hub.
  destruct (decide (a = 0)) as [->|Hnz]; [apply zlen_nonneg|].
  destruct (Na Hnz) as [_ Hhead]. apply Z.le_ngt. intros Hlt.
  destruct (trim_leading_zeros a) as [|x l]; [by simpl in *|]. cbn [nth] in Hhead.
  change (x :: l) with ([x] ++ l) in *. rewrite be_decode_app in Da. rewrite zlen_app in Hlt.
  change (zlen [x]) with 1 in *. change (be_decode [x]) with x in *.
  apply Forall_app in Ba as [Hx Bl]. rewrite Forall_singleton in Hx. unfold byte in Hx.
  pose proof (be_decode_bound _ Bl). set (u := zlen (trim_leading_zeros b)) in *.
  assert (256 ^ u <= 256 ^ zlen l) by (apply Z.pow_le_mono_r; lia). nia.
Qed.

Lemma encode_length_mono a b off :
  0 <= a <= b -> b < U64 -> zlen (encode_length a off) <= zlen (encode_length b off).
Proof.
  intros Hab Hb. unfold encode_length. pose proof (trim_mono a b Hab Hb).
  destruct (Z.ltb_spec a 56), (Z.ltb_spec b 56); unfold zlen in *; simpl; lia.
Qed.

(** [e] is [pre] or shorter. *)
Definition no_longer (e pre : list Z) : Prop :=
  zlen e <= zlen pre /\ (zlen e = zlen pre -> e = pre).

Lemma no_longer_refl l : no_longer l l.
Proof. by split. Qed.

Lemma no_longer_list payload' payload :
  no_longer payload' payload -> zlen payload < U64 ->
  no_longer (encode_length (zlen payload') 192 ++ payload') (encode_length (zlen payload) 192 ++ payload).
Proof.
  intros [Hle Heq] Hb. pose proof (zlen_nonneg payload').
  pose proof (encode_length_mono (zlen payload') (zlen payload) 192 ltac:(lia) Hb).
  split; rewrite !zlen_app; [lia|]. intros E. rewrite Heq by lia. done.
Qed.

Lemma no_longer_string payload :
  no_longer (encode_string payload) (encode_length (zlen payload) 128 ++ payload).
Proof.
  unfold encode_string. destruct payload as [|b [|c l]]; try apply no_longer_refl.
  case_match; [|apply no_longer_refl]. split; [done|]. unfold zlen. simpl. discriminate.
Qed.

Definition decodes_to (input : list Z) (item : Item) (rest : list Z) : Prop :=
  exists pre, input = pre ++ rest /\ item_bytes item /\ no_longer (encode item) pre.

Lemma decode_items_sound dec fuel payload items :
  (forall input item rest, Forall byte input -> zlen input < U64 -> dec input = Ok (item, rest) ->
     decodes_to input item rest) ->
  Forall byte payload -> zlen payload < U64 -> decode_list_items dec fuel payload = Ok items ->
  Forall item_bytes items /\ no_longer (concat (map encode items)) payload.
Proof.
  intros Hdec. revert payload items. induction fuel as [|fuel IH]; intros payload items Hb Hlen E;
    destruct payload as [|z zs]; cbn [decode_list_items] in E; simplify_eq;
    [by split; [constructor|apply no_longer_refl]..|].
  apply rbind_Ok in E as ([item rest] & Ed & E). apply rbind_Ok in E as (items' & Ei & E).
  injection E as <-. cbn [fst snd] in *.
  destruct (Hdec _ _ _ Hb Hlen Ed) as (pre & Epre & Hib & Hle & Heq).
  rewrite Epre in Hb, Hlen. apply Forall_app in Hb as [_ Hb]. rewrite zlen_app in Hlen.
  pose proof (zlen_nonneg pre). destruct (IH rest items' Hb ltac:(lia) Ei) as [Hbs [Hle' Heq']].
  split; [by constructor|]. rewrite Epre. cbn [map concat]. unfold no_longer. rewrite !zlen_app.
  split; [lia|]. intros E. by rewrite Heq, Heq' by lia.
Qed.

(** The header of a long form, as the encoder writes it. *)
Lemma long_header len off k :
  56 <= len -> zlen (trim_leading_zeros len) = k ->
  encode_length len off = (off + 55 + k) :: trim_leading_zeros len.
Proof. intros Hlen <-. unfold encode_length. by rewrite (proj2 (Z.ltb_ge _ _)). Qed.

(** Splitting an input at the payload a header announces. *)
Lemma short_split first tail off n payload :
  take_exact tail n = Ok payload -> first = off + n -> 0 <= n < 56 ->
  first :: tail = (encode_length (zlen payload) off ++ payload) ++ drop (Z.to_nat n) tail.
Proof.
  intros Et -> Hn. apply take_exact_Ok in Et as [Et Hl]; [|lia]. rewrite Hl. unfold encode_length.
  rewrite (proj2 (Z.ltb_lt _ _)) by lia. simpl. by rewrite <- Et.
Qed.

Lemma long_split first tail off k len payload :
  Forall byte tail -> 1 <= k <= 8 -> decode_length_value tail k = Ok len ->
  take_exact (drop (Z.to_nat k) tail) len = Ok payload -> first = off + 55 + k ->
  first :: tail =
    (encode_length (zlen payload) off ++ payload) ++ drop (Z.to_nat len) (drop (Z.to_nat k) tail).
Proof.
  intros Hb Hk Hd Et ->. apply decode_length_value_Ok in Hd as (Hlen & Hz & Ht); [|done|done].
  apply take_exact_Ok in Et as [Et Hl]; [|lia]. rewrite Hl, (long_header len off k) by done.
  rewrite <- (assoc_L (++)), <- Et. simpl. by rewrite <- Ht.
Qed.

Lemma split_bytes first tail hdr payload rest :
  Forall byte (first :: tail) -> zlen (first :: tail) < U64 ->
  first :: tail = (hdr ++ payload) ++ rest -> Forall byte payload /\ zlen payload < U64.
Proof.
  intros Hb Hlen E. rewrite E in Hb, Hlen. rewrite !zlen_app in Hlen.
  apply Forall_app in Hb as [[_ ?]%Forall_app _].
  pose proof (zlen_nonneg hdr). pose proof (zlen_nonneg rest). split; [done|lia].
Qed.

Lemma string_decodes first tail payload rest :
  Forall byte (first :: tail) -> zlen (first :: tail) < U64 ->
  first :: tail = (encode_length (zlen payload) 128 ++ payload) ++ rest ->
  decodes_to (first :: tail) (IString payload) rest.
Proof.
  intros Hb Hlen E. destruct (split_bytes _ _ _ _ _ Hb Hlen E).
  exists (encode_length (zlen payload) 128 ++ payload). split_and!; [done|done|].
  apply no_longer_string.
Qed.

Lemma list_decodes levels first tail payload rest items :
  (forall input item rest, Forall byte input -> zlen input < U64 ->
     decode_at levels input = Ok (item, rest) -> decodes_to input item rest) ->
  Forall byte (first :: tail) -> zlen (first :: tail) < U64 ->
  first :: tail = (encode_length (zlen payload) 192 ++ payload) ++ rest ->
  decode_list_items (decode_at levels) (length payload) payload = Ok items ->
  decodes_to (first :: tail) (IList items) rest.
Proof.
  intros IH Hb Hlen E Hi. destruct (split_bytes _ _ _ _ _ Hb Hlen E) as [Hpb Hpl].
  destruct (decode_items_sound _ _ _ _ IH Hpb Hpl Hi) as [Hib Hnl].
  exists (encode_length (zlen payload) 192 ++ payload).
  split_and!; [done|by apply item_bytes_list|]. by apply no_longer_list.
Qed.

Lemma decode_at_sound levels input item rest :
  Forall byte input -> zlen input < U64 -> decode_at levels input = Ok (item, rest) ->
  decodes_to input item rest.
Proof.
  revert input item rest. induction levels as [|levels IH]; intros input item rest Hb Hlen E; [done|].
  destruct input as [|first tail]; [done|]. cbn [decode_at] in E.
  pose proof (proj1 (Forall_cons _ _ _) Hb) as [Hf Ht]. unfold byte in Hf.
  destruct (Z.ltb_spec first 128).
  { injection E as <- <-. exists [first]. split_and!; [done|by constructor|]. simpl.
    rewrite (proj2 (Z.ltb_lt _ _)) by done. apply no_longer_refl. }
  destruct (Z.leb_spec first 183).
  { apply rbind_Ok in E as (payload & Et & E). injection E as <- <-.
    apply string_decodes; [done|done|]. apply (short_split first tail 128); [done|lia|lia]. }
  destruct (Z.leb_spec first 191).
  { apply rbind_Ok in E as (len & Ed & E). apply rbind_Ok in E as (payload & Et & E).
    injection E as <- <-. apply string_decodes; [done|done|].
    apply (long_split first tail 128 (first - 183)); [done|lia|done|done|lia]. }
  destruct (Z.leb_spec first 247).
  { apply rbind_Ok in E as (payload & Et & E). apply rbind_Ok in E as (items & Ei & E).
    injection E as <- <-. apply (list_decodes levels _ _ payload); try done.
    apply (short_split first tail 192); [done|lia|lia]. }
  apply rbind_Ok in E as (len & Ed & E). apply rbind_Ok in E as (payload & Et & E).
  apply rbind_Ok in E as (items & Ei & E). injection E as <- <-.
  apply (list_decodes levels _ _ payload); try done.
  apply (long_split first tail 192 (first - 247)); [done|lia|done|done|lia].
Qed.

(** What the decoder accepts.  The whole input is the encoding of the item
    it returns, or a longer spelling of it: re-encoding never gives more bytes,
    and gives the input itself when it gives as many. *)
Theorem rlp_decode_sound (input : list Z) (item : Item)
    (Hb : Forall byte input) (Hlen : zlen input < U64) (Hd : decode input = Ok item) :
  item_bytes item /\ zlen (encode item) <= zlen input /\
  (zlen (encode item) = zlen input -> encode item = input).
Proof.
  unfold decode in Hd. apply rbind_Ok in Hd as ([item' rest] & Ed & E). inv_ok E. cbn [fst snd] in *.
  apply decode_at_sound in Ed as (pre & -> & Hib & Hle & Heq); [|done|done].
  assert (rest = []) as -> by (apply Z.eqb_eq in E0; unfold zlen in E0; destruct rest; simpl in *; [done|lia]).
  rewrite app_nil_r in *. done.
Qed.
Lemma rlp_decode_sound_witness :
  decode [195; 129; 5; 128] = Ok (IList [IString [5]; IString []]) /\
  zlen (encode (IList [IString [5]; IString []])) <= zlen [195; 129; 5; 128].
Proof.
  split; [reflexivity|].
  apply (rlp_decode_sound [195; 129; 5; 128] (IList [IString [5]; IString []])).
  - solve_bytes.
  - reflexivity.
  - reflexivity.
Defined.

(** RLP integers.  An encoded [u64] decodes to a byte string from which
    [decode_uint] reads the same integer, and an integer read from a byte string
    of more than one byte re-encodes to that string. *)
Theorem rlp_uint_roundtrip (n : Z) (Hn : n ∈u U64) :
  decode (encode_uint n) = Ok (IString (trim_leading_zeros n)) /\
  decode_uint (IString (trim_leading_zeros n)) = Ok n /\
  forall bs, Forall byte bs -> 1 < zlen bs -> decode_uint (IString bs) = Ok n ->
    trim_leading_zeros n = bs.
Proof.
  destruct (trim_spec n Hn) as (Hd & Hb & H8 & Hnz). split_and!.
  - unfold encode_uint, decode. rewrite <- (app_nil_r (encode _)).
    change (Z.to_nat (MAX_DEPTH + 1)) with 33%nat. cbn [encode]. rewrite decode_string; [done|done|lia].
  - unfold decode_uint. destruct (Z.eqb_spec n 0) as [->|Hne]; [done|]. destruct (Hnz Hne) as [H1 Hh].
    rewrite (proj2 (Z.eqb_neq _ _) Hh), andb_false_r, (proj2 (Z.eqb_neq _ 0)), (proj2 (Z.ltb_ge _ _)) by lia.
    rewrite read_length_spec; [rewrite Hd; f_equal; lia|done|lia|rewrite Hd; lia].
  - intros bs Hbs Hl E. unfold decode_uint in E.
    rewrite (proj2 (Z.ltb_lt _ _) Hl), (proj2 (Z.eqb_neq (zlen bs) 0)) in E by lia. simpl in E.
    destruct (Z.eqb_spec (nth 0 bs 0) 0) as [|Hh]; [done|]. destruct (Z.ltb_spec 8 (zlen bs)); [done|].
    apply read_length_Ok in E. rewrite Z.mul_0_l, Z.add_0_l in E. subst n.
    apply trim_unique; [done|done|unfold zlen in *; lia].
Qed.
Lemma rlp_uint_roundtrip_witness :
  decode (encode_uint 1024) = Ok (IString [4; 0]) /\ decode_uint (IString [4; 0]) = Ok 1024.
Proof. destruct (rlp_uint_roundtrip 1024 ltac:(lia)) as (H1 & H2 & _). split; [exact H1|exact H2]. Defined.

(** The decoder is not canonical.  A single byte below [0x80] is accepted
    in the string form [0x81 b] as well as by itself, and the integer zero as
    the byte [0x00] as well as the empty string, although the module promises to
    refuse encodings that are not minimal. *)
Theorem rlp_not_canonical (b : Z) (Hb : 0 <= b < 128) :
  decode [129; b] = Ok (IString [b]) /\ decode [b] = Ok (IString [b]) /\
  encode (IString [b]) = [b] /\
  decode_uint (IString [0]) = Ok 0 /\ decode_uint (IString []) = Ok 0.
Proof.
  unfold decode. change (Z.to_nat (MAX_DEPTH + 1)) with (S 32).
  generalize 32%nat. intros l. cbn [decode_at encode encode_string]. rewrite (proj2 (Z.ltb_lt b 128)) by lia. done.
Qed.
Lemma rlp_not_canonical_witness : decode [129; 5] = decode [5].
Proof. destruct (rlp_not_canonical 5 ltac:(lia)) as (E1 & E2 & _). exact (eq_trans E1 (eq_sym E2)). Defined.

End Rlp.
