(* ===== verification/Mpt.v ===== *)
(** * Merkle-Patricia proofs (src/cross_domain/evm/mpt.rs)

    [verify] checks a relayer's proof - a list of encoded nodes - that a key has
    a value under a root hash, by walking the nodes from the root.  Keccak-256
    (the [sha3] crate) is the parameter [keccak256].  [walk] recurses on the
    source's own depth limit.

    [Trie] is the tree such proofs are about, with its lookup and the encoding
    of its nodes ([item], [node_ref]: small nodes inline, the others by hash).
    The theorems: a proof accepted under the root of a tree yields the tree's
    value, and the nodes on the path of a key are a proof that is accepted. *)

From Stdlib Require Import ZArith Lia.
From stdpp Require Import base tactics strings numbers gmap list.
From S2P Require Import Prelude Hashing Rlp.
Import Hashing Rlp.
Open Scope Z_scope.

Module Mpt.

Definition MAX_WALK_DEPTH : nat := 128.

Inductive MptError : Type :=
| KeyNotFound
| MissingNode
| RlpErr (e : RlpError)
| InvalidNode
| InvalidHpEncoding
| InvalidNodeRef
| PathMismatch
| WalkTooDeep.

(** ** Nibbles and the hex-prefix encoding *)

Definition to_nibbles (h : bytes) : list Z :=
  concat (map (fun b => [Z.shiftr b 4; Z.land b 15]) h).

(** [(hi << 4) | lo] on [u8] *)
Definition pack (hi lo : Z) : Z := Z.lor (wrap U8 (Z.shiftl hi 4)) lo.

(** [chunks(2)] of a list of even length. *)
Fixpoint pack_pairs (l : list Z) : bytes :=
  match l with
  | a :: b :: l => pack a b :: pack_pairs l
  | _ => []
  end.

Definition hp_encode (nibbles : list Z) (is_leaf : bool) : bytes :=
  let flag := if is_leaf then 2 else 0 in
  let odd := (length nibbles mod 2 =? 1)%nat in
  let prefix_nibble := flag + (if odd then 1 else 0) in
  match odd, nibbles with
  | true, n :: rest => pack prefix_nibble n :: pack_pairs rest
  | _, _ => wrap U8 (Z.shiftl prefix_nibble 4) :: pack_pairs nibbles
  end.

Definition hp_decode (bs : bytes) : result (bool * list Z) MptError :=
  match bs with
  | [] => Err InvalidHpEncoding
  | first :: rest =>
      let flag_byte := Z.shiftr first 4 in
      check? negb (3 <? flag_byte) else InvalidHpEncoding in
      let is_leaf := negb (Z.land flag_byte 2 =? 0) in
      let odd := negb (Z.land flag_byte 1 =? 0) in
      Ok (is_leaf, (if odd then [Z.land first 15] else []) ++ to_nibbles rest)
  end.

(** [nibbles.starts_with(prefix)] with [&nibbles[prefix.len()..]]. *)
Fixpoint strip_prefix (prefix nibbles : list Z) : option (list Z) :=
  match prefix, nibbles with
  | [], _ => Some nibbles
  | p :: prefix, n :: nibbles => if p =? n then strip_prefix prefix nibbles else None
  | _ :: _, [] => None
  end.

Section verifier.
Variable keccak256 : bytes -> Hash32.

Abbreviation NodeMap := (gmap Hash32 bytes).

(** ** The walk *)

Definition resolve_ref (i : Item) (node_map : NodeMap) : result Item MptError :=
  match i with
  | IString b =>
      if zlen b =? 0 then Err KeyNotFound
      else if zlen b =? 32 then
        let? node_bytes := ok_or (node_map !! b) MissingNode in
        map_err RlpErr (decode node_bytes)
      else map_err RlpErr (decode b)
  | IList _ => Ok i
  end.

(** [levels = MAX_WALK_DEPTH + 1 - depth].  A nibble is below 16, so that the
    index into the 17 items is in range. *)
Fixpoint walk (levels : nat) (node : Item) (nibbles : list Z) (node_map : NodeMap)
  : result bytes MptError :=
  match levels with
  | O => Err WalkTooDeep
  | S levels =>
      match node with
      | IString b => if zlen b =? 0 then Err KeyNotFound else Err InvalidNode
      | IList [path_item; second] =>
          let? path_bytes := map_err RlpErr (as_bytes path_item) in
          let? (is_leaf, node_path) := hp_decode path_bytes in
          let? remaining := ok_or (strip_prefix node_path nibbles) PathMismatch in
          if is_leaf : bool then
            check? zlen remaining =? 0 else PathMismatch in
            map_err RlpErr (as_bytes second)
          else
            let? child := resolve_ref second node_map in
            walk levels child remaining node_map
      | IList items =>
          if zlen items =? 17 then
            match nibbles with
            | [] =>
                match nth 16 items (IString []) with
                | IString [] => Err KeyNotFound
                | value_slot => map_err RlpErr (as_bytes value_slot)
                end
            | nibble :: rest =>
                let? child := resolve_ref (nth (Z.to_nat nibble) items (IString [])) node_map in
                walk levels child rest node_map
            end
          else Err InvalidNode
      end
  end.

(** [node_map.insert(keccak256(node_bytes), node_bytes.clone())] for each node. *)
Definition node_map_of (proof_nodes : list bytes) : NodeMap :=
  fold_left (fun m b => <[keccak256 b := b]> m) proof_nodes ∅.

Definition verify (proof_nodes : list bytes) (root : Hash32) (key : bytes) : result bytes MptError :=
  let node_map := node_map_of proof_nodes in
  let? root_bytes := ok_or (node_map !! root) MissingNode in
  let? root_item := map_err RlpErr (decode root_bytes) in
  walk (S MAX_WALK_DEPTH) root_item (to_nibbles (keccak256 key)) node_map.

(** ** Tries *)

(** An empty [value] is an absent one. *)
Inductive Trie : Type :=
| Null
| Leaf (path : list Z) (value : bytes)
| Extension (path : list Z) (child : Trie)
| Branch (children : list Trie) (value : bytes).

Fixpoint lookup (t : Trie) (nibbles : list Z) : option bytes :=
  match t with
  | Null => None
  | Leaf path v => if decide (nibbles = path) then Some v else None
  | Extension path t => rest ← strip_prefix path nibbles; lookup t rest
  | Branch cs v =>
      match nibbles with
      | [] => if zlen v =? 0 then None else Some v
      | n :: rest => nth (Z.to_nat n) (map lookup cs) (fun _ => None) rest
      end
  end.

(** How a node is referred to: absent, inline when its encoding is shorter than
    a hash, by hash otherwise. *)
Definition ref_of (t : Trie) (i : Item) : Item :=
  match t with
  | Null => IString []
  | _ => if zlen (encode i) <? 32 then i else IString (keccak256 (encode i))
  end.

Fixpoint item (t : Trie) : Item :=
  match t with
  | Null => IString []
  | Leaf path v => IList [IString (hp_encode path true); IString v]
  | Extension path t => IList [IString (hp_encode path false); ref_of t (item t)]
  | Branch cs v => IList (map (fun t => ref_of t (item t)) cs ++ [IString v])
  end.
Definition node_ref (t : Trie) : Item := ref_of t (item t).

Definition trie_root (t : Trie) : Hash32 := keccak256 (encode (item t)).

(** The encodings of all nodes, and of those on the path of a key. *)
Fixpoint nodes (t : Trie) : list bytes :=
  encode (item t) ::
  match t with
  | Null | Leaf _ _ => []
  | Extension _ t => nodes t
  | Branch cs _ => concat (map nodes cs)
  end.

Fixpoint path_nodes (t : Trie) (nibbles : list Z) : list bytes :=
  encode (item t) ::
  match t with
  | Null | Leaf _ _ => []
  | Extension path t => match strip_prefix path nibbles with Some rest => path_nodes t rest | None => [] end
  | Branch cs _ =>
      match nibbles with
      | [] => []
      | n :: rest => nth (Z.to_nat n) (map path_nodes cs) (fun _ => []) rest
      end
  end.

Definition nibble (n : Z) : Prop := n ∈u 16.

(** Nibbles and bytes in range, sixteen children, extensions that consume
    something. *)
Fixpoint trie_ok (t : Trie) : Prop :=
  match t with
  | Null => True
  | Leaf path v => Forall nibble path /\ Forall byte v
  | Extension path t => Forall nibble path /\ path <> [] /\ trie_ok t
  | Branch cs v =>
      length cs = 16%nat /\ Forall byte v /\ (fix go cs := match cs with [] => True | t :: cs => trie_ok t /\ go cs end) cs
  end.

(** ** The hex-prefix encoding reads back *)

Definition nibble_list : list Z := seqZ 0 16.

Lemma nibble_in n : nibble n -> n ∈ nibble_list.
Proof. intros. by apply elem_of_seqZ. Qed.

(** A boolean property of two nibbles is checked at all of them. *)
Lemma nibbles_all (f : Z -> Z -> bool) :
  forallb (fun a => forallb (f a) nibble_list) nibble_list = true -> forall a b, nibble a -> nibble b -> f a b = true.
Proof.
  intros H a b Ha Hb. rewrite forallb_forall in H. specialize (H a). rewrite <- list_elem_of_In in H.
  specialize (H (nibble_in a Ha)). rewrite forallb_forall in H. apply H. rewrite <- list_elem_of_In. by apply nibble_in.
Qed.

Lemma pack_hi a b : nibble a -> nibble b -> Z.shiftr (pack a b) 4 = a.
Proof. intros. apply Z.eqb_eq. revert a b H H0. apply (nibbles_all (fun a b => Z.shiftr (pack a b) 4 =? a)). vm_compute. done. Qed.

Lemma pack_lo a b : nibble a -> nibble b -> Z.land (pack a b) 15 = b.
Proof. intros. apply Z.eqb_eq. revert a b H H0. apply (nibbles_all (fun a b => Z.land (pack a b) 15 =? b)). vm_compute. done. Qed.

Lemma pack_byte a b : nibble a -> nibble b -> byte (pack a b).
Proof.
  intros Ha Hb. assert (H : (0 <=? pack a b) && (pack a b <? 256) = true).
  { revert a b Ha Hb. apply (nibbles_all (fun a b => (0 <=? pack a b) && (pack a b <? 256))). vm_compute. done. }
  split_bool. unfold byte. lia.
Qed.

(** Induction on lists of even length. *)
Lemma even_ind (P : list Z -> Prop) : P [] -> (forall a b l, Nat.Even (length l) -> P l -> P (a :: b :: l)) ->
  forall l, Nat.Even (length l) -> P l.
Proof.
  intros H0 H2. fix IH 1. intros [|a [|b l]] He; [done|destruct He as [k Hk]; simpl in Hk; lia|].
  apply H2; [|apply IH]; destruct He as [k Hk]; exists (k - 1)%nat; simpl in Hk; lia.
Qed.

Lemma pairs_roundtrip l : Nat.Even (length l) -> Forall nibble l ->
  to_nibbles (pack_pairs l) = l /\ Forall byte (pack_pairs l).
Proof.
  revert l. apply (even_ind (fun l => Forall nibble l -> to_nibbles (pack_pairs l) = l /\ Forall byte (pack_pairs l))).
  - done.
  - intros a b l _ IH Hl. inversion_clear Hl as [|? ? Ha Hl']. inversion_clear Hl' as [|? ? Hb Hl].
    destruct (IH Hl) as [E HB]. cbn [pack_pairs]. split; [|constructor; [by apply pack_byte|done]].
    unfold to_nibbles in *. cbn [map concat]. rewrite pack_hi, pack_lo by done. cbn. by rewrite E.
Qed.

Lemma prefix_nibble_ok (leaf odd : bool) : nibble ((if leaf then 2 else 0) + (if odd then 1 else 0)).
Proof. destruct leaf, odd; by unfold nibble. Qed.

Lemma prefix_flags (leaf odd : bool) n : nibble n ->
  let first := pack ((if leaf then 2 else 0) + (if odd then 1 else 0)) n in
  (3 <? Z.shiftr first 4) = false /\ negb (Z.land (Z.shiftr first 4) 2 =? 0) = leaf /\
  negb (Z.land (Z.shiftr first 4) 1 =? 0) = odd.
Proof. intros Hn first. unfold first. rewrite pack_hi by (done || apply prefix_nibble_ok). by destruct leaf, odd. Qed.

Lemma pack_zero a : pack a 0 = wrap U8 (Z.shiftl a 4).
Proof. unfold pack. apply Z.lor_0_r. Qed.

Lemma hp_roundtrip p leaf : Forall nibble p -> hp_decode (hp_encode p leaf) = Ok (leaf, p) /\ Forall byte (hp_encode p leaf).
Proof.
  intros Hp. unfold hp_encode. destruct (Nat.eqb_spec (length p mod 2) 1) as [Ho|He].
  - destruct p as [|n p]; [done|]. inversion_clear Hp as [|? ? Hn Hp'].
    destruct (pairs_roundtrip p) as [E HB]; [|done|].
    { cbn [length] in Ho. exists (S (length p) / 2)%nat. pose proof (Nat.div_mod_eq (S (length p)) 2). lia. }
    destruct (prefix_flags leaf true n Hn) as (F1 & F2 & F3). unfold hp_decode. rewrite F1, F2, F3. cbn [negb ensure rbind].
    rewrite pack_lo, E by (done || apply (prefix_nibble_ok leaf true)). split; [done|].
    constructor; [|done]. by apply pack_byte, Hn; apply (prefix_nibble_ok leaf true).
  - destruct (pairs_roundtrip p) as [E HB]; [|done|].
    { exists (length p / 2)%nat. pose proof (Nat.div_mod_eq (length p) 2).
      pose proof (Nat.mod_upper_bound (length p) 2 ltac:(lia)). lia. }
    rewrite <- pack_zero. destruct (prefix_flags leaf false 0) as (F1 & F2 & F3); [by unfold nibble|].
    unfold hp_decode. rewrite F1, F2, F3. cbn [negb ensure rbind app]. rewrite E. split; [done|].
    constructor; [|done]. apply pack_byte; [apply (prefix_nibble_ok leaf false)|by unfold nibble].
Qed.

Lemma strip_nibbles_Some p l r : strip_prefix p l = Some r <-> l = p ++ r.
Proof.
  revert l. induction p as [|x p IH]; intros l; simpl; [naive_solver|].
  destruct l as [|y l]; [naive_solver|]. destruct (Z.eqb_spec x y); [rewrite IH|]; naive_solver.
Qed.

(** ** Nodes are decoded to what they encode *)

Section trie_ind.
Variable P : Trie -> Prop.
Hypothesis HNull : P Null.
Hypothesis HLeaf : forall p v, P (Leaf p v).
Hypothesis HExt : forall p t, P t -> P (Extension p t).
Hypothesis HBranch : forall cs v, Forall P cs -> P (Branch cs v).

Fixpoint trie_nested_ind (t : Trie) : P t :=
  match t with
  | Null => HNull
  | Leaf p v => HLeaf p v
  | Extension p t => HExt p t (trie_nested_ind t)
  | Branch cs v =>
      HBranch cs v
        ((fix go cs : Forall P cs :=
            match cs with
            | [] => List.Forall_nil _
            | t :: cs => List.Forall_cons _ t cs (trie_nested_ind t) (go cs)
            end) cs)
  end.
End trie_ind.

Lemma branch_ok cs v : trie_ok (Branch cs v) <-> length cs = 16%nat /\ Forall byte v /\ Forall trie_ok cs.
Proof.
  cbn [trie_ok]. assert (H : (fix go cs := match cs with [] => True | t :: cs => trie_ok t /\ go cs end) cs <-> Forall trie_ok cs);
    [|by rewrite H].
  induction cs as [|t cs IH]; [by split|]. rewrite Forall_cons, <- IH. done.
Qed.

Lemma depth_lt_length i : (item_depth i < length (encode i))%nat.
Proof.
  induction i as [bs|items IH] using Item_ind'; [apply encode_nonempty|].
  cbn [item_depth encode]. rewrite length_app.
  assert (H1 : (0 < length (encode_length (zlen (concat (map encode items))) 192))%nat).
  { unfold encode_length. case_match; simpl; lia. }
  apply list_max_lt; [lia|]. apply Forall_fmap. rewrite Forall_forall in *. intros i Hin. simpl. specialize (IH i Hin).
  assert (zlen (encode i) <= zlen (concat (map encode items))) by (apply concat_le, list_elem_of_fmap; eauto).
  unfold zlen in *. lia.
Qed.

Hypothesis keccak_bytes : forall x, Forall byte (keccak256 x).
Hypothesis keccak_length : forall x, length (keccak256 x) = 32%nat.

Lemma ref_of_bytes t i : item_bytes i -> item_bytes (ref_of t i).
Proof. intros Hi. unfold ref_of. destruct t; repeat case_match; simpl; auto. Qed.

Lemma ref_of_depth t i : (item_depth (ref_of t i) < 31)%nat.
Proof.
  pose proof (depth_lt_length i) as H. unfold ref_of, zlen. 
  destruct t; try (simpl; lia); (destruct (Z.ltb_spec (Z.of_nat (length (encode i))) 32); [lia|simpl; lia]).
Qed.

Lemma item_bytes_ok t : trie_ok t -> item_bytes (item t).
Proof.
  induction t as [|p v|p t IH|cs v IH] using trie_nested_ind; intros Ht.
  - simpl. constructor.
  - destruct Ht as [Hp Hv]. apply item_bytes_list. repeat constructor; [apply (hp_roundtrip p true Hp)|done].
  - destruct Ht as (Hp & _ & Ht). apply item_bytes_list. repeat constructor; [apply (hp_roundtrip p false Hp)|].
    apply ref_of_bytes. auto.
  - apply branch_ok in Ht as (_ & Hv & Hcs). cbn [item]. apply item_bytes_list, Forall_app. split; [|by repeat constructor].
    apply Forall_fmap. rewrite Forall_forall in *. intros t Hin. simpl. apply ref_of_bytes. auto.
Qed.

Lemma item_depth_ok t : (item_depth (item t) < 33)%nat.
Proof.
  destruct t as [|p v|p t|cs v]; cbn [item item_depth]; [lia| | |]; apply list_max_lt; try lia.
  - do 2 (constructor; [simpl; lia|]). constructor.
  - pose proof (ref_of_depth t (item t)). do 2 (constructor; [simpl; lia|]). constructor.
  - rewrite map_app. apply Forall_app. split; [|constructor; [simpl; lia|constructor]].
    apply Forall_fmap, Forall_fmap, Forall_forall. intros t _. simpl. pose proof (ref_of_depth t (item t)). lia.
Qed.

Lemma decode_item t : trie_ok t -> zlen (encode (item t)) < U64 -> decode (encode (item t)) = Ok (item t).
Proof.
  intros Ht Hl. unfold decode. rewrite <- (app_nil_r (encode (item t))).
  change (Z.to_nat (MAX_DEPTH + 1)) with 33%nat. rewrite decode_at_encode by (done || by apply item_bytes_ok).
  rewrite decide_True by apply item_depth_ok. done.
Qed.

(** ** The walk over the nodes of a tree *)

Definition sized (t : Trie) : Prop := Forall (fun b => zlen b < U64) (nodes t).

(** No node of the proof collides with a node of the tree. *)
Definition no_collision (proof : list bytes) (t : Trie) : Prop :=
  forall x y, x ∈ proof -> y ∈ nodes t -> keccak256 x = keccak256 y -> x = y.

Lemma node_head t : encode (item t) ∈ nodes t.
Proof. destruct t; left. Qed.

Lemma sized_head t : sized t -> zlen (encode (item t)) < U64.
Proof. unfold sized. rewrite Forall_forall. intros H. apply H, node_head. Qed.

Lemma node_child cs v t x : t ∈ cs -> x ∈ nodes t -> x ∈ nodes (Branch cs v).
Proof.
  intros Ht Hx. right. apply list_elem_of_In, in_concat. exists (nodes t).
  split; [apply in_map|]; by apply list_elem_of_In.
Qed.

Lemma node_map_lookup proof h b : node_map_of proof !! h = Some b -> b ∈ proof /\ keccak256 b = h.
Proof.
  unfold node_map_of. assert (H : forall m : NodeMap, fold_left (fun m b => <[keccak256 b := b]> m) proof m !! h = Some b ->
    m !! h = Some b \/ (b ∈ proof /\ keccak256 b = h)).
  { induction proof as [|x proof IH]; intros m Hm; [by left|]. destruct (IH _ Hm) as [H|[? ?]].
    - apply lookup_insert_Some in H as [[? ?]|[_ ?]]; [subst; right; split; [left|done]|by left].
    - right. split; [by right|done]. }
  intros Hm. by destruct (H ∅ Hm).
Qed.

Lemma node_map_has proof b : b ∈ proof -> is_Some (node_map_of proof !! keccak256 b).
Proof.
  unfold node_map_of. assert (H : forall m : NodeMap, b ∈ proof \/ is_Some (m !! keccak256 b) ->
    is_Some (fold_left (fun m b => <[keccak256 b := b]> m) proof m !! keccak256 b)).
  { induction proof as [|x proof IH]; intros m Hm; [destruct Hm as [Hm|]; [by apply not_elem_of_nil in Hm|done]|].
    cbn [fold_left]. apply IH. destruct Hm as [Hm|Hm].
    - apply elem_of_cons in Hm as [->|Hm]; [right; rewrite lookup_insert_eq; by eexists|by left].
    - right. destruct (decide (keccak256 x = keccak256 b)) as [->|];
        [rewrite lookup_insert_eq; by eexists|by rewrite lookup_insert_ne]. }
  intros Hb. apply H. by left.
Qed.

(** The children of a node are found as they are. *)
Lemma resolve_node proof t i : trie_ok t -> sized t -> no_collision proof t ->
  resolve_ref (node_ref t) (node_map_of proof) = Ok i -> i = item t.
Proof.
  intros Ht Hs Hc. unfold node_ref, ref_of. destruct t as [|p v|p t|cs v]; [done|..].
  all: destruct (_ <? 32); [cbn [item resolve_ref]; congruence|].
  all: cbn [resolve_ref]; unfold zlen at 1 2; rewrite keccak_length.
  all: change (Z.of_nat 32 =? 0) with false; change (Z.of_nat 32 =? 32) with true; cbv iota.
  all: intros H; inv_ok H; apply node_map_lookup in H0 as [Hin Hk]; apply map_err_Ok in H.
  all: apply Hc in Hk; [subst x|done|apply node_head]; rewrite decode_item in H; [congruence|done|by apply sized_head].
Qed.

Lemma walk_branch levels items nib M : length items = 17%nat ->
  walk (S levels) (IList items) nib M =
  match nib with
  | [] => match nth 16 items (IString []) with
          | IString [] => Err KeyNotFound
          | value_slot => map_err RlpErr (as_bytes value_slot)
          end
  | n :: rest => let? child := resolve_ref (nth (Z.to_nat n) items (IString [])) M in walk levels child rest M
  end.
Proof.
  intros Hl. cbn [walk]. destruct items as [|a [|b [|c l]]]; try done.
  unfold zlen. by rewrite Hl.
Qed.

Lemma branch_child cs v n : length cs = 16%nat -> nibble n ->
  exists t, t ∈ cs /\ nth (Z.to_nat n) (map node_ref cs ++ [IString v]) (IString []) = node_ref t /\
    (forall A (f : Trie -> A) d, nth (Z.to_nat n) (map f cs) d = f t).
Proof.
  intros Hl Hn. unfold nibble in Hn. assert (Hlt : (Z.to_nat n < length cs)%nat) by lia.
  exists (nth (Z.to_nat n) cs Null). split_and!.
  - apply list_elem_of_In, nth_In. done.
  - rewrite app_nth1 by (by rewrite length_map).
    rewrite (nth_indep _ _ (node_ref Null)) by (by rewrite length_map). apply map_nth.
  - intros A f d. rewrite (nth_indep _ _ (f Null)) by (by rewrite length_map). apply map_nth.
Qed.

Lemma walk_sound proof t : trie_ok t -> sized t -> no_collision proof t ->
  forall levels nib v, Forall nibble nib -> walk levels (item t) nib (node_map_of proof) = Ok v -> lookup t nib = Some v.
Proof.
  induction t as [|p w|p t IH|cs w IH] using trie_nested_ind; intros Ht Hs Hc [|levels] nib v Hn H; try done.
  - destruct Ht as [Hp Hw]. cbn in H. rewrite (proj1 (hp_roundtrip p true Hp)) in H. cbn [rbind] in H. inv_ok H.
    apply strip_nibbles_Some in H0. apply Z.eqb_eq in H1. destruct x; [|done]. rewrite app_nil_r in H0. subst nib.
    cbn. by rewrite decide_True.
  - destruct Ht as (Hp & _ & Ht). cbn in H. rewrite (proj1 (hp_roundtrip p false Hp)) in H. cbn [rbind] in H. inv_ok H.
    fold (node_ref t) in H1. cbn [lookup]. rewrite H0. cbn.
    assert (Hs' : sized t) by (by inversion_clear Hs).
    assert (Hc' : no_collision proof t) by (intros a b Ha Hb; apply Hc; [done|by right]).
    apply resolve_node in H1; [subst x0|done..]. eapply IH; eauto.
    apply strip_nibbles_Some in H0. subst nib. by apply Forall_app in Hn as [_ ?].
  - apply branch_ok in Ht as (Hl & Hw & Hcs). cbn [item] in H.
    rewrite walk_branch in H by (by rewrite length_app, length_map, Hl). cbn [lookup]. destruct nib as [|n nib].
    + rewrite app_nth2, length_map, Hl in H by (rewrite length_map; lia). cbn in H.
      destruct w; [done|]. cbn in H. simplify_eq. done.
    + inversion_clear Hn as [|? ? Hn1 Hn2]. destruct (branch_child cs w n Hl Hn1) as (t & Hin & Hnth & Hf).
      change (map (fun t => ref_of t (item t)) cs) with (map node_ref cs) in H. rewrite Hnth in H. rewrite Hf. inv_ok H.
      rewrite Forall_forall in IH, Hcs.
      assert (Hs' : sized t) by (apply Forall_forall; intros b Hb; unfold sized in Hs; rewrite Forall_forall in Hs; eapply Hs, node_child; eauto).
      assert (Hc' : no_collision proof t) by (intros a b Ha Hb; apply Hc; [done|by eapply node_child]).
      apply resolve_node in H0; [subst x|by apply Hcs|done..]. eapply (IH t); eauto.
Qed.

(** ** The proof of a path *)

Lemma path_head t nib : encode (item t) ∈ path_nodes t nib.
Proof. destruct t; left. Qed.

Lemma path_sub t nib : path_nodes t nib ⊆ nodes t.
Proof.
  revert nib. induction t as [|p w|p t IH|cs w IH] using trie_nested_ind; intros nib x Hx; cbn [path_nodes nodes] in *; try done.
  - destruct (strip_prefix p nib) as [r|]; [|set_solver]. apply elem_of_cons in Hx as [->|Hx]; [left|right]. by eapply IH.
  - apply elem_of_cons in Hx as [->|Hx]; [left|]. destruct nib as [|n nib]; [by apply not_elem_of_nil in Hx|].
    destruct (decide (Z.to_nat n < length cs)%nat) as [Hlt|Hge].
    + rewrite (nth_indep _ _ (path_nodes Null)), map_nth in Hx by (by rewrite length_map).
      rewrite Forall_forall in IH. assert (Hin : nth (Z.to_nat n) cs Null ∈ cs) by (by apply list_elem_of_In, nth_In).
      apply (node_child cs w (nth (Z.to_nat n) cs Null)); [done|]. by eapply IH.
    + rewrite nth_overflow in Hx by (rewrite length_map; lia). by apply not_elem_of_nil in Hx.
Qed.

(** Every node of the path is in the map of the proof. *)
Definition covered (M : NodeMap) (l : list bytes) : Prop := forall b, b ∈ l -> M !! keccak256 b = Some b.

Lemma resolve_covered M t : trie_ok t -> sized t -> t <> Null -> M !! keccak256 (encode (item t)) = Some (encode (item t)) ->
  resolve_ref (node_ref t) M = Ok (item t).
Proof.
  intros Ht Hs Hnn HM. unfold node_ref, ref_of. destruct t as [|p v|p t|cs v]; [done|..].
  all: destruct (_ <? 32); [done|].
  all: cbn [resolve_ref]; unfold zlen at 1 2; rewrite keccak_length.
  all: change (Z.of_nat 32 =? 0) with false; change (Z.of_nat 32 =? 32) with true; cbv iota.
  all: rewrite HM; cbn [ok_or rbind]; rewrite decode_item; [done|done|by apply sized_head].
Qed.

Lemma lookup_not_null t nib v : lookup t nib = Some v -> t <> Null.
Proof. by destruct t. Qed.

Lemma walk_complete M t : trie_ok t -> sized t -> forall levels nib v, Forall nibble nib -> (length nib < levels)%nat ->
  covered M (path_nodes t nib) -> lookup t nib = Some v -> walk levels (item t) nib M = Ok v.
Proof.
  induction t as [|p w|p t IH|cs w IH] using trie_nested_ind; intros Ht Hs [|levels] nib v Hn Hlev Hcov H; try done; try lia.
  - destruct Ht as [Hp Hw]. cbn in H. case_decide; [|done]. simplify_eq. cbn.
    rewrite (proj1 (hp_roundtrip p true Hp)). cbn [rbind].
    rewrite (proj2 (strip_nibbles_Some p p []) (eq_sym (app_nil_r p))). done.
  - destruct Ht as (Hp & Hne & Ht). cbn [lookup] in H. apply bind_Some in H as (r & Hr & H). cbn.
    rewrite (proj1 (hp_roundtrip p false Hp)). cbn [rbind]. rewrite Hr. cbn [ok_or rbind]. fold (node_ref t).
    assert (Hs' : sized t) by (by inversion_clear Hs). cbn [path_nodes] in Hcov. rewrite Hr in Hcov.
    rewrite resolve_covered; [|done|done|by eapply lookup_not_null|apply Hcov; right; apply path_head]. cbn [rbind].
    apply strip_nibbles_Some in Hr. subst nib. rewrite length_app in Hlev. apply Forall_app in Hn as [_ Hn].
    destruct p; [done|]. cbn [length] in Hlev. apply IH; auto; [lia|]. intros b Hb. apply Hcov. by right.
  - apply branch_ok in Ht as (Hl & Hw & Hcs). cbn [item].
    rewrite walk_branch by (by rewrite length_app, length_map, Hl). cbn [lookup path_nodes] in *. destruct nib as [|n nib].
    + rewrite app_nth2, length_map, Hl by (rewrite length_map; lia). cbn.
      destruct w as [|b w]; [discriminate H|]. rewrite zlen_cons in H. pose proof (zlen_nonneg w).
      rewrite (proj2 (Z.eqb_neq _ _)) in H by lia. by simplify_eq.
    + inversion_clear Hn as [|? ? Hn1 Hn2]. destruct (branch_child cs w n Hl Hn1) as (t & Hin & Hnth & Hf).
      change (map (fun t => ref_of t (item t)) cs) with (map node_ref cs). rewrite Hnth. rewrite Hf in H, Hcov.
      rewrite Forall_forall in IH, Hcs.
      assert (Hs' : sized t) by (apply Forall_forall; intros b Hb; unfold sized in Hs; rewrite Forall_forall in Hs; eapply Hs, node_child; eauto).
      rewrite resolve_covered; [|by apply Hcs|done|by eapply lookup_not_null|apply Hcov; right; apply path_head]. cbn [rbind].
      apply (IH t); auto; [cbn in Hlev; lia|]. intros b Hb. apply Hcov. by right.
Qed.

Lemma to_nibbles_ok h : Forall byte h -> Forall nibble (to_nibbles h) /\ length (to_nibbles h) = (2 * length h)%nat.
Proof.
  induction 1 as [|b h Hb _ [IH1 IH2]]; [by split|]. unfold to_nibbles in *. cbn [map concat app length] in *.
  split; [|lia]. unfold byte in Hb. constructor; [|constructor; [|done]]; unfold nibble.
  - rewrite Z.shiftr_div_pow2 by lia. change (2 ^ 4) with 16. dlia.
  - change 15 with (Z.ones 4). rewrite Z.land_ones by lia. change (2 ^ 4) with 16. apply Z.mod_pos_bound. lia.
Qed.

Lemma verify_sound t proof key v : trie_ok t -> sized t -> no_collision proof t ->
  verify proof (trie_root t) key = Ok v -> lookup t (to_nibbles (keccak256 key)) = Some v.
Proof.
  intros Ht Hs Hc Hv. unfold verify in Hv. inv_ok Hv. apply node_map_lookup in Hv0 as [Hin Hk].
  apply Hc in Hk; [subst x|done|apply node_head].
  rewrite decode_item in Hv1; [|done|by apply sized_head]. simplify_eq.
  eapply walk_sound; [done..| |done]. by apply to_nibbles_ok.
Qed.

(** C18: a proof cannot lie about a tree: whatever nodes it consists of, as long
    as none of them collides with a node of the tree under Keccak, if it is
    accepted for a key under the root of the tree then the value it yields is the
    one the tree holds at the path of the key. *)
Theorem mpt_proof_sound (t : Trie) (proof : list bytes) (key v : bytes)
    (Ht : trie_ok t) (Hs : sized t) (Hc : no_collision proof t)
    (Hv : verify proof (trie_root t) key = Ok v) :
  lookup t (to_nibbles (keccak256 key)) = Some v.
Proof. by eapply verify_sound. Qed.

(** The nodes on the path of a key the tree holds are a proof, and it is
    accepted with the value the tree has; the walk limit is never met. *)
Theorem mpt_proof_complete (t : Trie) (key v : bytes) (Ht : trie_ok t) (Hs : sized t)
    (Hc : no_collision (nodes t) t) (Hv : lookup t (to_nibbles (keccak256 key)) = Some v) :
  verify (path_nodes t (to_nibbles (keccak256 key))) (trie_root t) key = Ok v.
Proof.
  set (path := to_nibbles (keccak256 key)) in *. set (proof := path_nodes t path).
  assert (Hcov : covered (node_map_of proof) proof).
  { intros b Hb. destruct (node_map_has proof b Hb) as [b' Hb']. rewrite Hb'. apply node_map_lookup in Hb' as [Hin Hk].
    f_equal. apply Hc; [by eapply path_sub|by eapply path_sub|done]. }
  unfold verify. fold path. unfold trie_root. rewrite (Hcov _ (path_head t path)). cbn [ok_or rbind].
  rewrite decode_item; [|done|by apply sized_head]. cbn [map_err rbind].
  destruct (to_nibbles_ok (keccak256 key) (keccak_bytes key)) as [Hn Hlen]. rewrite keccak_length in Hlen.
  apply walk_complete; try done. unfold path, MAX_WALK_DEPTH. lia.
Qed.

End verifier.

(** ** A tree with two keys, under a digest that can be evaluated *)
Module Demo.

Definition digest (bs : bytes) : Hash32 := le_encode 32 (le_decode bs mod (2 ^ 255 - 19)).

Lemma digest_bytes x : Forall byte (digest x).
Proof. apply le_encode_bytes. Qed.
Lemma digest_length x : length (digest x) = 32%nat.
Proof. apply length_le_encode. Qed.

Definition alpha : bytes := [97; 108; 112; 104; 97].
Definition beta : bytes := [98; 101; 116; 97].
Definition tree : Trie :=
  Extension [0] (Branch ([Null; Leaf (replicate 62 0) alpha; Leaf (replicate 62 0) beta] ++ replicate 13 Null) []).

Lemma tree_ok : trie_ok tree.
Proof. cbn. split_and!; repeat constructor; done || (unfold nibble, byte; lia). Qed.

Lemma tree_sized : sized digest tree.
Proof. apply (bool_decide_unpack _). vm_compute. exact I. Qed.

Definition junk : list bytes := [[1; 2; 3]; [193; 128]] ++ nodes digest tree.

Lemma collision_check k proof t :
  forallb (fun x => forallb (fun y => negb (bool_decide (k x = k y)) || bool_decide (x = y)) (nodes k t)) proof = true ->
  no_collision k proof t.
Proof.
  intros H x y Hx Hy E. rewrite forallb_forall in H. rewrite list_elem_of_In in Hx. specialize (H x Hx).
  rewrite forallb_forall in H. rewrite list_elem_of_In in Hy. specialize (H y Hy).
  rewrite (bool_decide_eq_true_2 _ E) in H. simpl in H. by apply bool_decide_eq_true_1 in H.
Qed.

Lemma junk_apart : no_collision digest junk tree.
Proof. apply collision_check. vm_compute. reflexivity. Qed.
Lemma nodes_apart : no_collision digest (nodes digest tree) tree.
Proof. apply collision_check. vm_compute. reflexivity. Qed.

Lemma junk_accepted : verify digest junk (trie_root digest tree) [1] = Ok alpha.
Proof. vm_compute. reflexivity. Qed.
Lemma holds_beta : lookup tree (to_nibbles (digest [2])) = Some beta.
Proof. vm_compute. reflexivity. Qed.

End Demo.

Lemma mpt_proof_sound_witness : lookup Demo.tree (to_nibbles (Demo.digest [1])) = Some Demo.alpha.
Proof.
  exact (mpt_proof_sound Demo.digest Demo.digest_bytes Demo.digest_length Demo.tree Demo.junk [1] Demo.alpha
    Demo.tree_ok Demo.tree_sized Demo.junk_apart Demo.junk_accepted).
Defined.

Lemma mpt_proof_complete_witness :
  verify Demo.digest (path_nodes Demo.digest Demo.tree (to_nibbles (Demo.digest [2]))) (trie_root Demo.digest Demo.tree) [2]
  = Ok Demo.beta.
Proof.
  exact (mpt_proof_complete Demo.digest Demo.digest_bytes Demo.digest_length Demo.tree [2] Demo.beta
    Demo.tree_ok Demo.tree_sized Demo.nodes_apart Demo.holds_beta).
Defined.

End Mpt.
