(* ===== verification/Finality.v ===== *)
(** * BFT finality: votes, certificates and equivocation evidence
      (src/chain/finality.rs, src/crypto/key_set_preimage.rs)

    [FinalityAggregator] collects the prevotes and precommits of one
    checkpoint, detects double signing and assembles a [FinalityCert];
    [FinalityCert::verify] checks a certificate against a validator set.

    The [bls12_381] crate is a parameter: the class [BlsLib] lists the types
    and functions the source uses of it.  Its algebra, which the theorems about
    aggregation need, is the class [BlsLaws] of [FinalityFacts].  [Prevote] and
    [Precommit] have the same fields and share the record [Vote]; strings are
    byte lists; the error strings are constructors.  A handler returns the
    aggregator it leaves behind next to its result, because evidence is
    recorded also when a vote is refused.  The evidence record holds the
    arguments of [SlashingReport::consensus_double_sign] (module [registry],
    whose source is not in the tree).  [u64] products and sums wrap, as in a
    build without overflow checks; the theorems state when they do not. *)

From Stdlib Require Import ZArith Lia.
From stdpp Require Import base tactics strings numbers gmap sorting list.
From S2P Require Import Prelude Hashing.
Import Hashing.
Open Scope Z_scope.

Module Finality.

Definition FINALITY_QUORUM_NUMERATOR : Z := 2.
Definition FINALITY_QUORUM_DENOMINATOR : Z := 3.
Definition FINALITY_CHECKPOINT_INTERVAL : Z := 10.
Definition BLS_RFC9380_ACTIVATION_EPOCH : Z := 0.
Definition BLS_SCHEME_RFC9380_V1 : bytes :=
  ascii_bytes "BLS_SIG_BLS12381G1_XMD:SHA-256_SSWU_RO_POP_".
Definition BLS_SIGNATURE_DST : bytes :=
  ascii_bytes "BLS_SIG_BLS12381G1_XMD:SHA-256_SSWU_RO_POP_".
Definition BLS_POP_DST : bytes :=
  ascii_bytes "BLS_POP_BLS12381G1_XMD:SHA-256_SSWU_RO_POP_".

(** ** Validator sets *)

Record ValidatorEntry : Type := mkValidator {
  address : Address;
  stake : Z;
  bls_public_key : bytes;
  pop_signature : bytes;
  pq_public_key : bytes;
}.

Record ValidatorSetSnapshot : Type := mkSnapshot {
  snap_epoch : Z;
  validators : list ValidatorEntry;
  set_hash : bytes;
  total_stake : Z;
}.

(** [sort_by_key(|v| v.address)] *)
Definition address_le (v w : ValidatorEntry) : Prop := bytes_le (address v) (address w).
#[export] Instance address_le_dec v w : Decision (address_le v w).
Proof. unfold address_le. apply _. Defined.

(** [update_with_length] and [update_consensus_keys_sha3], as the bytes fed to
    the hasher. *)
Definition with_length (b : bytes) : bytes := u64_le (zlen b) ++ b.
Definition consensus_keys (vrf : option bytes) (bls pop pq : bytes) : bytes :=
  match vrf with Some v => with_length v | None => [] end ++
  with_length bls ++ with_length pop ++ with_length pq.

Definition validator_preimage (v : ValidatorEntry) : bytes :=
  address v ++ u64_le (stake v) ++
  consensus_keys None (bls_public_key v) (pop_signature v) (pq_public_key v).

(** The bytes [compute_hash] hashes. *)
Definition set_preimage (vs : list ValidatorEntry) : bytes :=
  concat (map validator_preimage (merge_sort address_le vs)).

(** [hex::encode(Sha3_256::digest(..))]: the two library functions are a
    parameter. *)
Definition compute_hash (hex_sha3 : bytes -> bytes) (vs : list ValidatorEntry) : bytes :=
  hex_sha3 (set_preimage vs).

Definition sum_stake (vs : list ValidatorEntry) : Z := foldr (fun v s => stake v + s) 0 vs.

Definition snapshot_new (hex_sha3 : bytes -> bytes) (epoch : Z) (vs : list ValidatorEntry)
    : ValidatorSetSnapshot :=
  {| snap_epoch := epoch; validators := vs; set_hash := compute_hash hex_sha3 vs;
     total_stake := wrap U64 (sum_stake vs) |}.

Definition find_validator (s : ValidatorSetSnapshot) (a : Address) : option ValidatorEntry :=
  snd <$> list_find (fun v => address v = a) (validators s).

Definition validator_index (s : ValidatorSetSnapshot) (a : Address) : option nat :=
  fst <$> list_find (fun v => address v = a) (validators s).

Definition quorum_stake (s : ValidatorSetSnapshot) : Z :=
  wrap U64 (wrap U64 (total_stake s * FINALITY_QUORUM_NUMERATOR) / FINALITY_QUORUM_DENOMINATOR + 1).

(** [a.div_ceil(b)] *)
Definition div_ceil (a b : Z) : Z := (a + b - 1) / b.

Definition quorum_count (s : ValidatorSetSnapshot) : Z :=
  div_ceil (saturating_mul U64 (zlen (validators s)) FINALITY_QUORUM_NUMERATOR)
    FINALITY_QUORUM_DENOMINATOR.

(** ** Votes and certificates *)

Record Vote : Type := mkVote {
  v_epoch : Z;
  v_height : Z;
  v_hash : bytes;
  voter_id : Address;
  sig_bls : bytes;
}.

Record FinalityCert : Type := mkCert {
  c_epoch : Z;
  c_height : Z;
  c_hash : bytes;
  agg_sig_bls : bytes;
  bitmap : list Z;
  c_set_hash : bytes;
}.

(** [Prevote::signing_message] *)
Definition prevote_signing_message (v : Vote) : bytes :=
  ascii_bytes "BUDLUM_PREVOTE" ++ BLS_SCHEME_RFC9380_V1 ++
  u64_le (v_epoch v) ++ u64_le (v_height v) ++ v_hash v.

Definition checkpoint_signing_message (epoch height : Z) (hash : bytes) : bytes :=
  ascii_bytes "BUDLUM_PRECOMMIT" ++ BLS_SCHEME_RFC9380_V1 ++ u64_le epoch ++ u64_le height ++ hash.

(** [Precommit::signing_message] *)
Definition precommit_signing_message (v : Vote) : bytes :=
  checkpoint_signing_message (v_epoch v) (v_height v) (v_hash v).

(** [FinalityCert::signing_message] *)
Definition cert_signing_message (c : FinalityCert) : bytes :=
  checkpoint_signing_message (c_epoch c) (c_height c) (c_hash c).

Definition pop_signing_message (chain_id : Z) (a : Address) (bls_pk : bytes) : bytes :=
  ascii_bytes "BDLM_BLS_POP_V1" ++ u64_le chain_id ++ a ++ bls_pk.

Definition is_checkpoint_height (height : Z) : bool :=
  (0 <? height) && (height mod FINALITY_CHECKPOINT_INTERVAL =? 0).

(** ** The pairing library *)
Class BlsLib : Type := {
  G1 : Type;
  G2 : Type;
  Gt : Type;
  g1_from_compressed : bytes -> option G1;
  g1_to_compressed : G1 -> bytes;
  g1_torsion_free : G1 -> bool;
  g1_is_identity : G1 -> bool;
  g1_identity : G1;
  g1_add : G1 -> G1 -> G1;
  g2_from_compressed : bytes -> option G2;
  g2_torsion_free : G2 -> bool;
  g2_is_identity : G2 -> bool;
  g2_identity : G2;
  g2_add : G2 -> G2 -> G2;
  g2_generator_neg : G2;
  hash_to_curve : bytes -> bytes -> G1;
  pairing : G1 -> G2 -> Gt;
  gt_add : Gt -> Gt -> Gt;
  gt_is_identity : Gt -> bool;
}.

Inductive BlsError : Type :=
| InvalidKeyLength
| InvalidKeyEncoding
| KeyOutsideSubgroup
| InvalidSigLength
| InvalidSigEncoding
| SigOutsideSubgroup
| SigFailed.

Inductive FinalityError : Type :=
| EpochMismatch
| HeightMismatch
| BeforePrevoteQuorum
| VoterNotInSet
| InvalidSignature (e : BlsError)
| HashMismatch
| DuplicateVote
| PreActivation
| SetHashMismatch
| SignerKey (a : Address) (e : BlsError)
| InsufficientStake (have need : Z)
| InsufficientCount (have need : Z)
| NoSigners
| AggregateKeyIdentity
| AggregateSig (e : BlsError)
| AggregateSigIdentity
| AggregateFailed.

Section bls.
Context {B : BlsLib}.

Definition hash_to_g1 (msg : bytes) : G1 := hash_to_curve BLS_SIGNATURE_DST msg.
Definition hash_pop_to_g1 (msg : bytes) : G1 := hash_to_curve BLS_POP_DST msg.

(** [multi_miller_loop(&[(sig, -G2), (h, pk)]).final_exponentiation()] is the
    identity. *)
Definition pairing_check (sig h : G1) (pk : G2) : bool :=
  gt_is_identity (gt_add (pairing sig g2_generator_neg) (pairing h pk)).

(** Parsing and checking a public key. *)
Definition parse_key (pk : bytes) : result G2 BlsError :=
  check? zlen pk =? 96 else InvalidKeyLength in
  let? p := ok_or (g2_from_compressed pk) InvalidKeyEncoding in
  check? g2_torsion_free p && negb (g2_is_identity p) else KeyOutsideSubgroup in
  Ok p.

Definition parse_sig (sig : bytes) : result G1 BlsError :=
  check? zlen sig =? 48 else InvalidSigLength in
  let? s := ok_or (g1_from_compressed sig) InvalidSigEncoding in
  check? g1_torsion_free s && negb (g1_is_identity s) else SigOutsideSubgroup in
  Ok s.

Definition verify_bls_sig (pk msg sig : bytes) : result unit BlsError :=
  let? p := parse_key pk in
  let? s := parse_sig sig in
  check? pairing_check s (hash_to_g1 msg) p else SigFailed in
  Ok tt.

Definition verify_pop (entry : ValidatorEntry) (chain_id : Z) : bool :=
  if (zlen (bls_public_key entry) =? 0) || (zlen (pop_signature entry) =? 0) then false
  else
    match parse_key (bls_public_key entry), parse_sig (pop_signature entry) with
    | Ok p, Ok s =>
        pairing_check s
          (hash_pop_to_g1 (pop_signing_message chain_id (address entry) (bls_public_key entry))) p
    | _, _ => false
    end.

(** ** The aggregator *)

(** The arguments of [SlashingReport::consensus_double_sign]. *)
Record DoubleSign : Type := mkDoubleSign {
  ds_voter : Address;
  ds_height : Z;
  ds_hash_1 : bytes;
  ds_hash_2 : bytes;
  ds_sig_1 : bytes;
  ds_sig_2 : bytes;
}.

Record FinalityAggregator : Type := mkAgg {
  epoch : Z;
  checkpoint_height : Z;
  checkpoint_hash : bytes;
  prevotes : gmap Address Vote;
  precommits : gmap Address Vote;
  validator_snapshot : option ValidatorSetSnapshot;
  prevote_quorum_reached : bool;
  precommit_quorum_reached : bool;
  detected_equivocations : list DoubleSign;
  seen_prevotes : gmap Address (bytes * bytes);
  seen_precommits : gmap Address (bytes * bytes);
  flagged_equivocators : gset Address;
}.

Definition agg_new (epoch height : Z) (hash : bytes) : FinalityAggregator :=
  mkAgg epoch height hash ∅ ∅ None false false [] ∅ ∅ ∅.

Definition set_validator_snapshot (g : FinalityAggregator) (s : ValidatorSetSnapshot)
    : FinalityAggregator :=
  mkAgg (epoch g) (checkpoint_height g) (checkpoint_hash g) (prevotes g) (precommits g) (Some s)
    (prevote_quorum_reached g) (precommit_quorum_reached g) (detected_equivocations g)
    (seen_prevotes g) (seen_precommits g) (flagged_equivocators g).

Definition take_detected_equivocations (g : FinalityAggregator)
    : list DoubleSign * FinalityAggregator :=
  (detected_equivocations g,
   mkAgg (epoch g) (checkpoint_height g) (checkpoint_hash g) (prevotes g) (precommits g)
     (validator_snapshot g) (prevote_quorum_reached g) (precommit_quorum_reached g) []
     (seen_prevotes g) (seen_precommits g) (flagged_equivocators g)).

Definition record_equivocation (g : FinalityAggregator) (voter : Address)
    (hash_1 sig_1 hash_2 sig_2 : bytes) : FinalityAggregator :=
  if bool_decide (voter ∈ flagged_equivocators g) then g
  else
    mkAgg (epoch g) (checkpoint_height g) (checkpoint_hash g) (prevotes g) (precommits g)
      (validator_snapshot g) (prevote_quorum_reached g) (precommit_quorum_reached g)
      (detected_equivocations g ++
         [mkDoubleSign voter (checkpoint_height g) hash_1 hash_2 sig_1 sig_2])
      (seen_prevotes g) (seen_precommits g) ({[voter]} ∪ flagged_equivocators g).

Definition detect_prevote_equivocation (g : FinalityAggregator) (v : Vote) : FinalityAggregator :=
  match seen_prevotes g !! voter_id v with
  | Some (prev_hash, prev_sig) =>
      if bool_decide (prev_hash = v_hash v) then g
      else record_equivocation g (voter_id v) prev_hash prev_sig (v_hash v) (sig_bls v)
  | None =>
      mkAgg (epoch g) (checkpoint_height g) (checkpoint_hash g) (prevotes g) (precommits g)
        (validator_snapshot g) (prevote_quorum_reached g) (precommit_quorum_reached g)
        (detected_equivocations g) (<[voter_id v := (v_hash v, sig_bls v)]> (seen_prevotes g))
        (seen_precommits g) (flagged_equivocators g)
  end.

Definition detect_precommit_equivocation (g : FinalityAggregator) (v : Vote)
    : FinalityAggregator :=
  match seen_precommits g !! voter_id v with
  | Some (prev_hash, prev_sig) =>
      if bool_decide (prev_hash = v_hash v) then g
      else record_equivocation g (voter_id v) prev_hash prev_sig (v_hash v) (sig_bls v)
  | None =>
      mkAgg (epoch g) (checkpoint_height g) (checkpoint_hash g) (prevotes g) (precommits g)
        (validator_snapshot g) (prevote_quorum_reached g) (precommit_quorum_reached g)
        (detected_equivocations g) (seen_prevotes g)
        (<[voter_id v := (v_hash v, sig_bls v)]> (seen_precommits g)) (flagged_equivocators g)
  end.

(** The validators that voted: [keys().filter_map(find_validator)]. *)
Definition voted (s : ValidatorSetSnapshot) (votes : gmap Address Vote) : list ValidatorEntry :=
  omap (fun e => find_validator s e.1) (map_to_list votes).

(** The saturating sum of the stakes. *)
Definition saturating_stake (vs : list ValidatorEntry) : Z :=
  fold_left (fun acc v => saturating_add U64 acc (stake v)) vs 0.

Definition has_quorum (s : ValidatorSetSnapshot) (votes : gmap Address Vote) : bool :=
  (quorum_stake s <=? saturating_stake (voted s votes)) &&
  (quorum_count s <=? zlen (voted s votes)).

Definition check_prevote_quorum (g : FinalityAggregator) : FinalityAggregator :=
  match validator_snapshot g with
  | None => g
  | Some s =>
      if has_quorum s (prevotes g) then
        mkAgg (epoch g) (checkpoint_height g) (checkpoint_hash g) (prevotes g) (precommits g)
          (validator_snapshot g) true (precommit_quorum_reached g)
          (detected_equivocations g) (seen_prevotes g) (seen_precommits g)
          (flagged_equivocators g)
      else g
  end.

Definition check_precommit_quorum (g : FinalityAggregator) : FinalityAggregator :=
  match validator_snapshot g with
  | None => g
  | Some s =>
      if has_quorum s (precommits g) then
        mkAgg (epoch g) (checkpoint_height g) (checkpoint_hash g) (prevotes g) (precommits g)
          (validator_snapshot g) (prevote_quorum_reached g) true
          (detected_equivocations g) (seen_prevotes g) (seen_precommits g)
          (flagged_equivocators g)
      else g
  end.

(** Membership and signature of a vote, when a snapshot is set. *)
Definition check_vote (g : FinalityAggregator) (msg : bytes) (v : Vote)
    : result unit FinalityError :=
  match validator_snapshot g with
  | None => Ok tt
  | Some s =>
      let? entry := ok_or (find_validator s (voter_id v)) VoterNotInSet in
      map_err InvalidSignature (verify_bls_sig (bls_public_key entry) msg (sig_bls v))
  end.

Definition insert_prevote (g : FinalityAggregator) (v : Vote) : FinalityAggregator :=
  mkAgg (epoch g) (checkpoint_height g) (checkpoint_hash g) (<[voter_id v := v]> (prevotes g))
    (precommits g) (validator_snapshot g) (prevote_quorum_reached g) (precommit_quorum_reached g)
    (detected_equivocations g) (seen_prevotes g) (seen_precommits g) (flagged_equivocators g).

Definition insert_precommit (g : FinalityAggregator) (v : Vote) : FinalityAggregator :=
  mkAgg (epoch g) (checkpoint_height g) (checkpoint_hash g) (prevotes g)
    (<[voter_id v := v]> (precommits g)) (validator_snapshot g) (prevote_quorum_reached g)
    (precommit_quorum_reached g) (detected_equivocations g) (seen_prevotes g)
    (seen_precommits g) (flagged_equivocators g).

Definition add_prevote (g : FinalityAggregator) (v : Vote)
    : FinalityAggregator * result unit FinalityError :=
  if negb (v_epoch v =? epoch g) then (g, Err EpochMismatch)
  else if negb (v_height v =? checkpoint_height g) then (g, Err HeightMismatch)
  else
    match check_vote g (prevote_signing_message v) v with
    | Err e => (g, Err e)
    | Ok _ =>
        let g := detect_prevote_equivocation g v in
        if negb (bool_decide (v_hash v = checkpoint_hash g)) then (g, Err HashMismatch)
        else if bool_decide (is_Some (prevotes g !! voter_id v)) then (g, Err DuplicateVote)
        else (check_prevote_quorum (insert_prevote g v), Ok tt)
    end.

Definition add_precommit (g : FinalityAggregator) (v : Vote)
    : FinalityAggregator * result unit FinalityError :=
  if negb (v_epoch v =? epoch g) then (g, Err EpochMismatch)
  else if negb (v_height v =? checkpoint_height g) then (g, Err HeightMismatch)
  else if negb (prevote_quorum_reached g) then (g, Err BeforePrevoteQuorum)
  else
    match check_vote g (precommit_signing_message v) v with
    | Err e => (g, Err e)
    | Ok _ =>
        let g := detect_precommit_equivocation g v in
        if negb (bool_decide (v_hash v = checkpoint_hash g)) then (g, Err HashMismatch)
        else if bool_decide (is_Some (precommits g !! voter_id v)) then (g, Err DuplicateVote)
        else (check_precommit_quorum (insert_precommit g v), Ok tt)
    end.

(** ** Certificates *)

(** [bitmap[idx / 8] |= 1 << (idx % 8)] *)
Definition set_bit (bm : list Z) (idx : nat) : list Z :=
  alter (fun b => Z.lor b (Z.shiftl 1 (Z.of_nat (idx mod 8)))) (idx / 8)%nat bm.

(** The loop of [try_produce_cert] over the precommits, in the order the hash
    map yields them. *)
Fixpoint assemble (s : ValidatorSetSnapshot) (entries : list (Address * Vote))
    (bm : list Z) (agg : G1) : option (list Z * G1) :=
  match entries with
  | [] => Some (bm, agg)
  | (a, v) :: entries =>
      match validator_index s a with
      | None => assemble s entries bm agg
      | Some idx =>
          let bm := set_bit bm idx in
          if zlen (sig_bls v) =? 48 then
            assemble s entries bm
              (match g1_from_compressed (sig_bls v) with
               | Some p => g1_add agg p
               | None => agg
               end)
          else None
      end
  end.

Definition try_produce_cert (g : FinalityAggregator) (entries : list (Address * Vote))
    : option FinalityCert :=
  if negb (precommit_quorum_reached g) then None
  else
    match validator_snapshot g with
    | None => None
    | Some s =>
        match assemble s entries
                (replicate (Z.to_nat (div_ceil (zlen (validators s)) 8)) 0) g1_identity with
        | None => None
        | Some (bm, agg) =>
            Some {| c_epoch := epoch g; c_height := checkpoint_height g;
                    c_hash := checkpoint_hash g; agg_sig_bls := g1_to_compressed agg;
                    bitmap := bm; c_set_hash := set_hash s |}
        end
    end.

(** [byte_idx < bitmap.len() && bitmap[byte_idx] & (1 << bit_idx) != 0] *)
Definition bit_set (bm : list Z) (idx : nat) : bool :=
  match bm !! (idx / 8)%nat with
  | None => false
  | Some b => negb (Z.land b (Z.shiftl 1 (Z.of_nat (idx mod 8))) =? 0)
  end.

Definition signer_indices (c : FinalityCert) (validator_count : nat) : list nat :=
  filter (fun idx => bit_set (bitmap c) idx = true) (seq 0 validator_count).

Definition signer_count (c : FinalityCert) (validator_count : nat) : Z :=
  zlen (signer_indices c validator_count).

(** The loop of [verify] over [validators.iter().enumerate()]. *)
Fixpoint collect_signers (bm : list Z) (idx : nat) (vs : list ValidatorEntry)
    (voted_stake voted_count : Z) (pks : list G2) : result (Z * Z * list G2) FinalityError :=
  match vs with
  | [] => Ok (voted_stake, voted_count, pks)
  | v :: vs =>
      if bit_set bm idx then
        match parse_key (bls_public_key v) with
        | Err e => Err (SignerKey (address v) e)
        | Ok pk =>
            collect_signers bm (S idx) vs (saturating_add U64 voted_stake (stake v))
              (voted_count + 1) (pks ++ [pk])
        end
      else collect_signers bm (S idx) vs voted_stake voted_count pks
  end.

(** [agg_pk += pk], from the identity. *)
Definition aggregate_keys (pks : list G2) : G2 := fold_left g2_add pks g2_identity.

Definition cert_verify (c : FinalityCert) (s : ValidatorSetSnapshot) : result unit FinalityError :=
  let? _ := ok_or (checked_sub (c_epoch c) BLS_RFC9380_ACTIVATION_EPOCH) PreActivation in
  check? bool_decide (c_set_hash c = set_hash s) else SetHashMismatch in
  check? c_epoch c =? snap_epoch s else EpochMismatch in
  let? r := collect_signers (bitmap c) 0 (validators s) 0 0 [] in
  let '(voted_stake, voted_count, pks) := r in
  check? quorum_stake s <=? voted_stake else InsufficientStake voted_stake (quorum_stake s) in
  check? quorum_count s <=? voted_count else InsufficientCount voted_count (quorum_count s) in
  check? negb (zlen pks =? 0) else NoSigners in
  let agg_pk := aggregate_keys pks in
  check? negb (g2_is_identity agg_pk) else AggregateKeyIdentity in
  check? zlen (agg_sig_bls c) =? 48 else AggregateSig InvalidSigLength in
  let? sig := ok_or (g1_from_compressed (agg_sig_bls c)) (AggregateSig InvalidSigEncoding) in
  check? negb (g1_is_identity sig) else AggregateSigIdentity in
  check? pairing_check sig (hash_to_g1 (cert_signing_message c)) agg_pk else AggregateFailed in
  Ok tt.

(** ** Sequences of events on one aggregator *)
Inductive AggOp : Type :=
| AddPrevote (v : Vote)
| AddPrecommit (v : Vote)
| TakeEvidence.

Definition agg_step (g : FinalityAggregator) (op : AggOp) : FinalityAggregator :=
  match op with
  | AddPrevote v => (add_prevote g v).1
  | AddPrecommit v => (add_precommit g v).1
  | TakeEvidence => (take_detected_equivocations g).2
  end.

Definition agg_run (g : FinalityAggregator) (ops : list AggOp) : FinalityAggregator :=
  fold_left agg_step ops g.

End bls.
End Finality.
