(* ===== verification/FinalityFacts.v ===== *)
(** * Correctness of BFT finality

    Quorum intersection, the assembly of certificates, equivocation evidence,
    and the injectivity of the byte strings that are signed and hashed. *)

From Stdlib Require Import ZArith Lia.
From stdpp Require Import base tactics strings numbers gmap sorting list.
From S2P Require Import Prelude Hashing Finality.
Import Hashing Finality.
Open Scope Z_scope.

Module FinalityFacts.

(** What the pairing library promises: two groups and a bilinear pairing, and a
    compressed encoding that reads back the points of the prime-order
    subgroup. *)
Class BlsLaws (B : BlsLib) : Prop := {
  g1_add_assoc : forall a b c : G1, g1_add a (g1_add b c) = g1_add (g1_add a b) c;
  g1_add_comm : forall a b : G1, g1_add a b = g1_add b a;
  g1_add_identity : forall a : G1, g1_add g1_identity a = a;
  g2_add_assoc : forall a b c : G2, g2_add a (g2_add b c) = g2_add (g2_add a b) c;
  g2_add_comm : forall a b : G2, g2_add a b = g2_add b a;
  g2_add_identity : forall a : G2, g2_add g2_identity a = a;
  gt_add_assoc : forall a b c : Gt, gt_add a (gt_add b c) = gt_add (gt_add a b) c;
  gt_add_comm : forall a b : Gt, gt_add a b = gt_add b a;
  gt_identity_add : forall a b : Gt, gt_is_identity a = true -> gt_is_identity b = true ->
    gt_is_identity (gt_add a b) = true;
  pairing_add_l : forall (a b : G1) (q : G2),
    pairing (g1_add a b) q = gt_add (pairing a q) (pairing b q);
  pairing_add_r : forall (a : G1) (p q : G2),
    pairing a (g2_add p q) = gt_add (pairing a p) (pairing a q);
  pairing_identity_l : forall q : G2, gt_is_identity (pairing g1_identity q) = true;
  pairing_identity_r : forall a : G1, gt_is_identity (pairing a g2_identity) = true;
  torsion_free_identity : g1_torsion_free g1_identity = true;
  torsion_free_add : forall a b : G1, g1_torsion_free a = true -> g1_torsion_free b = true ->
    g1_torsion_free (g1_add a b) = true;
  g1_compressed_length : forall a : G1, zlen (g1_to_compressed a) = 48;
  g1_compressed_roundtrip : forall a : G1, g1_torsion_free a = true ->
    g1_from_compressed (g1_to_compressed a) = Some a;
}.

(** A validator set whose numbers do not overflow. *)
Record snapshot_wf (s : ValidatorSetSnapshot) : Prop := {
  sw_stakes : Forall (fun v => 0 <= stake v) (validators s);
  sw_total : total_stake s = sum_stake (validators s);
  sw_bound : 2 * total_stake s < U64;
  sw_count : 2 * zlen (validators s) < U64;
  sw_epoch : snap_epoch s ∈u U64;
}.

(** ** Sums of stake *)

Lemma sum_stake_nonneg vs : Forall (fun v => 0 <= stake v) vs -> 0 <= sum_stake vs.
Proof. induction 1; simpl; lia. Qed.

Lemma sum_stake_app vs ws : sum_stake (vs ++ ws) = sum_stake vs + sum_stake ws.
Proof. induction vs; simpl; lia. Qed.

#[export] Instance sum_stake_perm : Proper ((≡ₚ) ==> (=)) sum_stake.
Proof. intros vs ws Hp. induction Hp; simpl; lia. Qed.

Lemma saturating_fold vs acc :
  Forall (fun v => 0 <= stake v) vs -> 0 <= acc <= U64 - 1 ->
  fold_left (fun acc v => saturating_add U64 acc (stake v)) vs acc = Z.min (acc + sum_stake vs) (U64 - 1).
Proof.
  intros Hf. revert acc. induction Hf as [|v vs Hv Hf IH]; intros acc Ha; simpl; [lia|].
  pose proof (sum_stake_nonneg vs Hf). rewrite IH; unfold saturating_add; lia.
Qed.

Lemma saturating_stake_eq vs :
  Forall (fun v => 0 <= stake v) vs -> saturating_stake vs = Z.min (sum_stake vs) (U64 - 1).
Proof. intros Hf. unfold saturating_stake. rewrite saturating_fold; [f_equal; lia|done|lia]. Qed.

Lemma quorum_stake_eq s : snapshot_wf s -> quorum_stake s = total_stake s * 2 / 3 + 1.
Proof.
  intros [Hs Ht Hb _ _]. pose proof (sum_stake_nonneg _ Hs). unfold quorum_stake, wrap.
  unfold FINALITY_QUORUM_NUMERATOR, FINALITY_QUORUM_DENOMINATOR.
  rewrite (Z.mod_small (total_stake s * 2)) by lia. rewrite Z.mod_small; [done|dlia].
Qed.

Lemma quorum_count_eq s : snapshot_wf s -> quorum_count s = (zlen (validators s) * 2 + 2) / 3.
Proof.
  intros [_ _ _ Hc _]. unfold quorum_count, div_ceil, saturating_mul.
  unfold FINALITY_QUORUM_NUMERATOR, FINALITY_QUORUM_DENOMINATOR. rewrite Z.min_l by lia. f_equal; lia.
Qed.

(** ** Signers of a bitmap *)

Fixpoint signers (bm : list Z) (idx : nat) (vs : list ValidatorEntry) : list ValidatorEntry :=
  match vs with
  | [] => []
  | v :: vs => if bit_set bm idx then v :: signers bm (S idx) vs else signers bm (S idx) vs
  end.

(** The validators whose bit is set in both bitmaps. *)
Fixpoint common_signers (b1 b2 : list Z) (idx : nat) (vs : list ValidatorEntry) : list ValidatorEntry :=
  match vs with
  | [] => []
  | v :: vs =>
      if bit_set b1 idx && bit_set b2 idx then v :: common_signers b1 b2 (S idx) vs
      else common_signers b1 b2 (S idx) vs
  end.

Lemma signers_Forall P bm idx vs : Forall P vs -> Forall P (signers bm idx vs).
Proof. intros Hf. revert idx. induction Hf; intros idx; simpl; [constructor|]. case_match; auto. Qed.

Section bls.
Context {B : BlsLib}.

Lemma collect_signers_Ok bm idx vs st ct pks st' ct' pks' :
  collect_signers bm idx vs st ct pks = Ok (st', ct', pks') ->
  st' = fold_left (fun acc v => saturating_add U64 acc (stake v)) (signers bm idx vs) st /\
  ct' = ct + zlen (signers bm idx vs) /\
  exists ks, pks' = pks ++ ks /\
    Forall2 (fun v k => parse_key (bls_public_key v) = Ok k) (signers bm idx vs) ks.
Proof.
  revert idx st ct pks. induction vs as [|v vs IH]; intros idx st ct pks E; simpl in *.
  - simplify_eq. split_and!; [done|unfold zlen; simpl; lia|]. exists []. by rewrite app_nil_r.
  - case_match; [|by apply IH].
    destruct (parse_key (bls_public_key v)) as [k|] eqn:Ek; [|done].
    apply IH in E as (-> & -> & ks & -> & Hks). split_and!.
    + done.
    + rewrite zlen_cons. lia.
    + exists (k :: ks). rewrite <- (assoc_L (++)). split; [done|]. by constructor.
Qed.

Lemma collect_signers_complete bm idx vs st ct pks ks :
  Forall2 (fun v k => parse_key (bls_public_key v) = Ok k) (signers bm idx vs) ks ->
  collect_signers bm idx vs st ct pks =
  Ok (fold_left (fun acc v => saturating_add U64 acc (stake v)) (signers bm idx vs) st,
      ct + zlen (signers bm idx vs), pks ++ ks).
Proof.
  revert idx st ct pks ks. induction vs as [|v vs IH]; intros idx st ct pks ks Hk; simpl in *.
  - inversion Hk. change (zlen []) with 0. by rewrite app_nil_r, Z.add_0_r.
  - case_match; [|by apply IH]. inversion Hk as [|? k ? ks' Ek Hk']; subst. rewrite Ek.
    rewrite (IH _ _ _ _ ks' Hk'), <- (assoc_L (++)). rewrite zlen_cons. simpl.
    by rewrite Z.add_assoc.
Qed.

(** What an accepted certificate establishes about its bitmap. *)
Lemma cert_verify_quorum c s u :
  snapshot_wf s -> cert_verify c s = Ok u ->
  quorum_stake s <= sum_stake (signers (bitmap c) 0 (validators s)) /\
  quorum_count s <= zlen (signers (bitmap c) 0 (validators s)).
Proof.
  intros Hwf E. unfold cert_verify in E. inv_ok E.
  match goal with H : collect_signers _ _ _ _ _ _ = Ok ?x |- _ =>
    destruct x as [[st ct] pks]; apply collect_signers_Ok in H as (-> & -> & _) end.
  inv_ok E. rewrite saturating_fold in * by (try lia; apply signers_Forall, Hwf). lia.
Qed.

Lemma signers_overlap b1 b2 idx vs :
  sum_stake (signers b1 idx vs) + sum_stake (signers b2 idx vs) <=
    sum_stake vs + sum_stake (common_signers b1 b2 idx vs) \/
  ~ Forall (fun v => 0 <= stake v) vs.
Proof.
  destruct (decide (Forall (fun v => 0 <= stake v) vs)) as [Hf|]; [left|by right].
  revert idx. induction Hf as [|v vs Hv Hf IH]; intros idx; simpl; [lia|]. specialize (IH (S idx)).
  destruct (bit_set b1 idx), (bit_set b2 idx); simpl; lia.
Qed.

Lemma signers_overlap_count b1 b2 idx vs :
  zlen (signers b1 idx vs) + zlen (signers b2 idx vs) <= zlen vs + zlen (common_signers b1 b2 idx vs).
Proof.
  revert idx. induction vs as [|v vs IH]; intros idx; [done|]. specialize (IH (S idx)).
  unfold zlen in *. simpl. destruct (bit_set b1 idx), (bit_set b2 idx); simpl; lia.
Qed.

(** C8: quorum intersection.  Two certificates accepted against the same
    validator set, whatever they certify, have common signers holding more than
    a third of the total stake, who are at least a third of the validators: two
    conflicting checkpoints cannot both be certified unless that much stake
    signed both. *)
Theorem cert_quorum_intersection (c1 c2 : FinalityCert) (s : ValidatorSetSnapshot) (u1 u2 : unit)
    (Hwf : snapshot_wf s) (H1 : cert_verify c1 s = Ok u1) (H2 : cert_verify c2 s = Ok u2) :
  let both := common_signers (bitmap c1) (bitmap c2) 0 (validators s) in
  total_stake s < 3 * sum_stake both /\ zlen (validators s) <= 3 * zlen both.
Proof.
  apply cert_verify_quorum in H1 as [S1 N1], H2 as [S2 N2]; [|done..].
  rewrite quorum_stake_eq in S1, S2 by done. rewrite quorum_count_eq in N1, N2 by done.
  destruct (signers_overlap (bitmap c1) (bitmap c2) 0 (validators s)) as [Ho|Hn];
    [|by destruct Hn; apply Hwf].
  pose proof (signers_overlap_count (bitmap c1) (bitmap c2) 0 (validators s)).
  pose proof (sw_total _ Hwf). simpl. split; dlia.
Qed.

(** ** Bitmaps *)

Lemma bit_test b k : 0 <= k -> negb (Z.land b (Z.shiftl 1 k) =? 0) = Z.testbit b k.
Proof.
  intros Hk. rewrite Z.shiftl_1_l. destruct (Z.testbit b k) eqn:E.
  - apply negb_true_iff, Z.eqb_neq. intros Hz. apply (f_equal (fun x => Z.testbit x k)) in Hz.
    by rewrite Z.land_spec, E, Z.pow2_bits_true, Z.bits_0 in Hz.
  - apply negb_false_iff, Z.eqb_eq. apply Z.bits_inj'. intros n Hn. rewrite Z.land_spec, Z.bits_0.
    destruct (decide (n = k)) as [->|]; [by rewrite E|]. by rewrite Z.pow2_bits_false, andb_false_r.
Qed.

Lemma bit_set_set_bit bm i j :
  (i / 8 < length bm)%nat ->
  bit_set (set_bit bm i) j = bool_decide (i = j) || bit_set bm j.
Proof.
  intros Hi. unfold bit_set, set_bit.
  destruct (decide (i / 8 = j / 8)%nat) as [E|E].
  - rewrite E in *. rewrite list_lookup_alter_eq.
    destruct (lookup_lt_is_Some_2 bm (j / 8) Hi) as [b Hb]. rewrite Hb.
    cbn [fmap option_fmap option_map].
    rewrite !bit_test by lia. rewrite Z.lor_spec, Z.shiftl_1_l, Z.pow2_bits_eqb by lia.
    rewrite orb_comm. f_equal. case_bool_decide as Hd; [subst; apply Z.eqb_refl|].
    apply Z.eqb_neq. pose proof (Nat.div_mod_eq i 8). pose proof (Nat.div_mod_eq j 8). lia.
  - rewrite list_lookup_alter_ne by done. rewrite bool_decide_eq_false_2; [done|]. by intros ->.
Qed.

Lemma set_bit_length bm i : length (set_bit bm i) = length bm.
Proof. apply length_alter. Qed.

Lemma bit_set_fold ids bm j :
  Forall (fun i => (i / 8 < length bm)%nat) ids ->
  bit_set (fold_left set_bit ids bm) j = bool_decide (j ∈ ids) || bit_set bm j.
Proof.
  intros Hf. revert bm Hf. induction ids as [|i ids IH]; intros bm Hf; simpl; [done|].
  apply Forall_cons in Hf as [Hi Hf]. rewrite IH; [|by rewrite set_bit_length].
  rewrite bit_set_set_bit by done. rewrite orb_assoc. f_equal.
  repeat case_bool_decide; set_solver.
Qed.

Lemma bit_set_zero n j : bit_set (replicate n 0) j = false.
Proof.
  unfold bit_set. destruct (replicate n 0 !! (j / 8)%nat) as [b|] eqn:E; [|done].
  apply lookup_replicate in E as [-> _]. by rewrite Z.land_0_l.
Qed.

(** The validators at a list of indices. *)
Definition pick (vs : list ValidatorEntry) (ids : list nat) : list ValidatorEntry :=
  omap (fun i => vs !! i) ids.

Lemma signers_pick_from bm idx vs :
  signers bm idx vs =
  omap (fun i => vs !! (i - idx)%nat)
    (filter (fun i => bit_set bm i = true) (seq idx (length vs))).
Proof.
  revert idx. induction vs as [|v vs IH]; intros idx; [done|]. cbn [signers length seq].
  assert (Hrest : omap (fun i => (v :: vs) !! (i - idx)%nat)
                    (filter (fun i => bit_set bm i = true) (seq (S idx) (length vs))) =
                  omap (fun i => vs !! (i - S idx)%nat)
                    (filter (fun i => bit_set bm i = true) (seq (S idx) (length vs)))).
  { apply list_omap_ext, Forall_Forall2_diag, Forall_forall. intros i Hi.
    apply list_elem_of_filter in Hi as [_ Hi]. apply elem_of_seq in Hi.
    by replace (i - idx)%nat with (S (i - S idx)) by lia. }
  rewrite filter_cons. destruct (decide (bit_set bm idx = true)) as [E|E].
  - rewrite E. cbn [omap list_omap]. rewrite Nat.sub_diag. simpl. f_equal. by rewrite Hrest, IH.
  - apply not_true_is_false in E. rewrite E. by rewrite Hrest, IH.
Qed.

Lemma signers_pick bm vs :
  signers bm 0 vs = pick vs (filter (fun i => bit_set bm i = true) (seq 0 (length vs))).
Proof.
  rewrite signers_pick_from. unfold pick. apply list_omap_ext, Forall_Forall2_diag, Forall_forall.
  intros i _. by rewrite Nat.sub_0_r.
Qed.

(** ** Lookups in a validator set *)

Lemma validator_index_Some s a i :
  validator_index s a = Some i -> exists v, validators s !! i = Some v /\ address v = a /\
    find_validator s a = Some v.
Proof.
  unfold validator_index, find_validator. destruct (list_find _ _) as [[k v]|] eqn:E; [|done].
  intros [= <-]. apply list_find_Some in E as (Hl & Ha & _). by exists v.
Qed.

Lemma find_validator_index s a v :
  find_validator s a = Some v -> exists i, validator_index s a = Some i /\ validators s !! i = Some v.
Proof.
  unfold validator_index, find_validator. destruct (list_find _ _) as [[k w]|] eqn:E; [|done].
  intros [= ->]. apply list_find_Some in E as (Hl & Ha & _). by exists k.
Qed.

Lemma find_validator_elem s a v : find_validator s a = Some v -> v ∈ validators s.
Proof. intros (i & _ & Hl)%find_validator_index. by eapply list_elem_of_lookup_2. Qed.

Definition vote_indices (s : ValidatorSetSnapshot) (entries : list (Address * Vote)) : list nat :=
  omap (fun e => validator_index s e.1) entries.

Lemma voted_pick s entries :
  omap (fun e => find_validator s e.1) entries = pick (validators s) (vote_indices s entries).
Proof.
  unfold pick, vote_indices. induction entries as [|e entries IH]; [done|]. cbn [omap list_omap].
  unfold find_validator, validator_index in *. destruct (list_find _ _) as [[k v]|] eqn:E; simpl; [|done].
  apply list_find_Some in E as (Hl & _ & _). rewrite Hl. by rewrite IH.
Qed.

Lemma vote_indices_NoDup s entries : NoDup entries.*1 -> NoDup (vote_indices s entries).
Proof.
  induction entries as [|e entries IH]; simpl; [constructor|]. intros [Hn Hd]%NoDup_cons.
  destruct (validator_index s e.1) as [i|] eqn:Hi; simpl; [|by apply IH].
  constructor; [|by apply IH]. intros Hin. apply Hn.
  apply list_elem_of_omap in Hin as (e' & He' & Hi').
  apply validator_index_Some in Hi as (v & Hv & <- & _), Hi' as (v' & Hv' & Ha & _).
  rewrite Hv in Hv'. simplify_eq. rewrite Ha. by apply list_elem_of_fmap_2.
Qed.

Lemma vote_indices_range s entries :
  Forall (fun i => (i < length (validators s))%nat) (vote_indices s entries).
Proof.
  apply Forall_forall. intros i (e & _ & Hi)%list_elem_of_omap.
  apply validator_index_Some in Hi as (v & Hv & _). by eapply lookup_lt_Some.
Qed.

(** The bits a certificate sets select the validators that voted. *)
Lemma cert_bits s entries :
  NoDup entries.*1 ->
  signers (fold_left set_bit (vote_indices s entries)
             (replicate (Z.to_nat (div_ceil (zlen (validators s)) 8)) 0)) 0 (validators s)
  ≡ₚ omap (fun e => find_validator s e.1) entries.
Proof.
  intros Hnd. rewrite voted_pick, signers_pick. unfold pick. apply omap_Permutation.
  pose proof (vote_indices_range s entries) as Hr.
  assert (Hlen : Forall (fun i => (i / 8 < length (replicate (Z.to_nat (div_ceil (zlen (validators s)) 8)) 0%Z))%nat)
                   (vote_indices s entries)).
  { eapply Forall_impl; [exact Hr|]. intros i Hi. simpl in Hi. rewrite length_replicate.
    unfold div_ceil, zlen. apply Nat2Z.inj_lt. rewrite Z2Nat.id, Nat2Z.inj_div by dlia. dlia. }
  apply NoDup_Permutation; [apply NoDup_filter, NoDup_seq|by apply vote_indices_NoDup|].
  intros i. rewrite list_elem_of_filter, elem_of_seq, (bit_set_fold _ _ _ Hlen), bit_set_zero, orb_false_r.
  rewrite bool_decide_eq_true. rewrite Forall_forall in Hr. split; [naive_solver|].
  intros Hi. split; [done|]. apply Hr in Hi. lia.
Qed.

(** ** The aggregator invariant *)

(** [sig] is [a]'s signature of [msg], under the key of the validator set. *)
Definition signed (s : ValidatorSetSnapshot) (a : Address) (msg sig : bytes) : Prop :=
  exists entry, find_validator s a = Some entry /\
    verify_bls_sig (bls_public_key entry) msg sig = Ok tt.

(** The messages a voter signs for checkpoint [hash] of this aggregator. *)
Definition prevote_msg (g : FinalityAggregator) (hash : bytes) : bytes :=
  prevote_signing_message (mkVote (epoch g) (checkpoint_height g) hash [] []).
Definition precommit_msg (g : FinalityAggregator) (hash : bytes) : bytes :=
  checkpoint_signing_message (epoch g) (checkpoint_height g) hash.

Definition counted (s : ValidatorSetSnapshot) (g : FinalityAggregator) (msg : bytes)
    (a : Address) (v : Vote) : Prop :=
  voter_id v = a /\ signed s a msg (sig_bls v).

(** A report proves two signatures of one voter for different checkpoints. *)
Definition evidence_ok (s : ValidatorSetSnapshot) (g : FinalityAggregator) (r : DoubleSign) : Prop :=
  ds_hash_1 r <> ds_hash_2 r /\ ds_height r = checkpoint_height g /\
  exists msg, (msg = prevote_msg g \/ msg = precommit_msg g) /\
    signed s (ds_voter r) (msg (ds_hash_1 r)) (ds_sig_1 r) /\
    signed s (ds_voter r) (msg (ds_hash_2 r)) (ds_sig_2 r).

Record agg_inv (s : ValidatorSetSnapshot) (g : FinalityAggregator) : Prop := {
  ai_snapshot : validator_snapshot g = Some s;
  ai_prevotes : map_Forall (counted s g (prevote_msg g (checkpoint_hash g))) (prevotes g);
  ai_precommits : map_Forall (counted s g (precommit_msg g (checkpoint_hash g))) (precommits g);
  ai_prevote_quorum : prevote_quorum_reached g = has_quorum s (prevotes g);
  ai_precommit_quorum : precommit_quorum_reached g = has_quorum s (precommits g);
  ai_order : precommits g <> ∅ -> prevote_quorum_reached g = true;
  ai_seen_prevotes :
    map_Forall (fun a e => signed s a (prevote_msg g e.1) e.2) (seen_prevotes g);
  ai_seen_precommits :
    map_Forall (fun a e => signed s a (precommit_msg g e.1) e.2) (seen_precommits g);
  ai_evidence : Forall (evidence_ok s g) (detected_equivocations g);
  ai_flagged : Forall (fun r => ds_voter r ∈ flagged_equivocators g) (detected_equivocations g);
  ai_once : NoDup (ds_voter <$> detected_equivocations g);
}.

Lemma voted_insert s m a v :
  m !! a = None -> voted s (<[a := v]> m) ≡ₚ option_list (find_validator s a) ++ voted s m.
Proof.
  intros Ha. unfold voted. rewrite (omap_Permutation _ _ _ (map_to_list_insert m a v Ha)).
  cbn [omap list_omap fst]. by destruct (find_validator s a).
Qed.

Lemma voted_stakes s m : snapshot_wf s -> Forall (fun v => 0 <= stake v) (voted s m).
Proof.
  intros Hwf. apply Forall_forall. intros v (e & _ & He)%list_elem_of_omap.
  apply find_validator_elem in He. pose proof (sw_stakes _ Hwf) as Hs. rewrite Forall_forall in Hs. auto.
Qed.

Lemma has_quorum_spec s m :
  snapshot_wf s -> has_quorum s m = true <->
  quorum_stake s <= sum_stake (voted s m) /\ quorum_count s <= zlen (voted s m).
Proof.
  intros Hwf. unfold has_quorum. rewrite saturating_stake_eq by (by apply voted_stakes).
  rewrite andb_true_iff, !Z.leb_le. pose proof (quorum_stake_eq s Hwf). destruct Hwf as [Hs Ht Hb _ _].
  assert (quorum_stake s <= U64 - 1) by dlia. lia.
Qed.

Lemma has_quorum_mono s m a v :
  snapshot_wf s -> m !! a = None -> has_quorum s m = true -> has_quorum s (<[a := v]> m) = true.
Proof.
  intros Hwf Ha. rewrite !has_quorum_spec by done. rewrite (voted_insert s m a v Ha).
  rewrite sum_stake_app, zlen_app. pose proof (zlen_nonneg (option_list (find_validator s a))).
  assert (0 <= sum_stake (option_list (find_validator s a))); [|lia].
  destruct (find_validator s a) as [w|] eqn:E; simpl; [|lia].
  apply find_validator_elem in E. pose proof (sw_stakes _ Hwf) as Hs. rewrite Forall_forall in Hs.
  specialize (Hs _ E). lia.
Qed.

Lemma has_quorum_empty s : snapshot_wf s -> has_quorum s ∅ = false.
Proof.
  intros Hwf. apply not_true_is_false. rewrite has_quorum_spec by done.
  rewrite quorum_stake_eq by done. destruct Hwf as [Hs Ht _ _ _]. pose proof (sum_stake_nonneg _ Hs).
  unfold voted. rewrite map_to_list_empty. simpl. dlia.
Qed.

Lemma agg_inv_new s e h hash :
  snapshot_wf s -> agg_inv s (set_validator_snapshot (agg_new e h hash) s).
Proof.
  intros Hwf. split; cbn;
    first [done | by apply map_Forall_empty | by apply Forall_nil | by apply NoDup_nil
          | by rewrite has_quorum_empty].
Qed.

Lemma agg_inv_take s g : agg_inv s g -> agg_inv s (take_detected_equivocations g).2.
Proof. intros []. split; cbn; first [done | by apply Forall_nil | by apply NoDup_nil]. Qed.

(** Recording evidence. *)
Lemma agg_inv_record s g voter h1 s1 h2 s2 msg :
  agg_inv s g -> (msg = prevote_msg g \/ msg = precommit_msg g) -> h1 <> h2 ->
  signed s voter (msg h1) s1 -> signed s voter (msg h2) s2 ->
  agg_inv s (record_equivocation g voter h1 s1 h2 s2).
Proof.
  intros Hinv Hmsg Hne Hs1 Hs2. unfold record_equivocation. case_bool_decide as Hf; [done|].
  destruct Hinv. split; simpl; try done.
  - apply Forall_app. split; [done|]. constructor; [|done]. split_and!; try done. by exists msg.
  - apply Forall_app. split; [|constructor; [set_solver|done]].
    eapply Forall_impl; [eassumption|]. set_solver.
  - rewrite fmap_app. apply NoDup_app. split_and!; [done| |apply NoDup_singleton].
    intros x Hx. simpl. rewrite list_elem_of_singleton. intros ->. apply Hf.
    apply list_elem_of_fmap in Hx as (r & -> & Hr). rewrite Forall_forall in ai_flagged0. by apply ai_flagged0.
Qed.

Lemma agg_inv_detect_prevote s g v :
  agg_inv s g -> signed s (voter_id v) (prevote_msg g (v_hash v)) (sig_bls v) ->
  agg_inv s (detect_prevote_equivocation g v).
Proof.
  intros Hinv Hs. unfold detect_prevote_equivocation.
  destruct (seen_prevotes g !! voter_id v) as [[ph ps]|] eqn:E.
  - case_bool_decide; [done|]. apply (agg_inv_record _ _ _ _ _ _ _ (prevote_msg g)); auto.
    apply (ai_seen_prevotes _ _ Hinv _ _ E).
  - destruct Hinv. split; simpl; try done. by apply map_Forall_insert_2.
Qed.

Lemma agg_inv_detect_precommit s g v :
  agg_inv s g -> signed s (voter_id v) (precommit_msg g (v_hash v)) (sig_bls v) ->
  agg_inv s (detect_precommit_equivocation g v).
Proof.
  intros Hinv Hs. unfold detect_precommit_equivocation.
  destruct (seen_precommits g !! voter_id v) as [[ph ps]|] eqn:E.
  - case_bool_decide; [done|]. apply (agg_inv_record _ _ _ _ _ _ _ (precommit_msg g)); auto.
    apply (ai_seen_precommits _ _ Hinv _ _ E).
  - destruct Hinv. split; simpl; try done. by apply map_Forall_insert_2.
Qed.

Lemma check_vote_signed s g msg v u :
  validator_snapshot g = Some s -> check_vote g msg v = Ok u -> signed s (voter_id v) msg (sig_bls v).
Proof.
  unfold check_vote. intros -> E. inv_ok E. apply map_err_Ok in E. destruct u. by exists x.
Qed.

(** The two insertions. *)
Lemma agg_inv_insert_prevote s g v :
  snapshot_wf s -> agg_inv s g -> prevotes g !! voter_id v = None ->
  signed s (voter_id v) (prevote_msg g (checkpoint_hash g)) (sig_bls v) ->
  agg_inv s (check_prevote_quorum (insert_prevote g v)).
Proof.
  intros Hwf [] Hnew Hs. unfold check_prevote_quorum. simpl. rewrite ai_snapshot0.
  assert (Hc : map_Forall (counted s g (prevote_msg g (checkpoint_hash g)))
                 (<[voter_id v := v]> (prevotes g))) by (by apply map_Forall_insert_2).
  destruct (has_quorum s (<[voter_id v := v]> (prevotes g))) eqn:Hq; split; simpl; try done.
  rewrite ai_prevote_quorum0, Hq. apply not_true_is_false. intros Ht.
  by rewrite (has_quorum_mono s _ _ v Hwf Hnew Ht) in Hq.
Qed.

Lemma agg_inv_insert_precommit s g v :
  snapshot_wf s -> agg_inv s g -> precommits g !! voter_id v = None ->
  prevote_quorum_reached g = true ->
  signed s (voter_id v) (precommit_msg g (checkpoint_hash g)) (sig_bls v) ->
  agg_inv s (check_precommit_quorum (insert_precommit g v)).
Proof.
  intros Hwf [] Hnew Hpq Hs. unfold check_precommit_quorum. simpl. rewrite ai_snapshot0.
  assert (Hc : map_Forall (counted s g (precommit_msg g (checkpoint_hash g)))
                 (<[voter_id v := v]> (precommits g))) by (by apply map_Forall_insert_2).
  destruct (has_quorum s (<[voter_id v := v]> (precommits g))) eqn:Hq; split; simpl; try done.
  rewrite ai_precommit_quorum0, Hq. apply not_true_is_false. intros Ht.
  by rewrite (has_quorum_mono s _ _ v Hwf Hnew Ht) in Hq.
Qed.

(** What evidence recording leaves alone. *)
Record same_votes (g g' : FinalityAggregator) : Prop := {
  sv_epoch : epoch g' = epoch g;
  sv_height : checkpoint_height g' = checkpoint_height g;
  sv_hash : checkpoint_hash g' = checkpoint_hash g;
  sv_prevotes : prevotes g' = prevotes g;
  sv_precommits : precommits g' = precommits g;
  sv_snapshot : validator_snapshot g' = validator_snapshot g;
  sv_prevote_quorum : prevote_quorum_reached g' = prevote_quorum_reached g;
  sv_precommit_quorum : precommit_quorum_reached g' = precommit_quorum_reached g;
  sv_flagged : flagged_equivocators g ⊆ flagged_equivocators g';
}.

Lemma same_votes_refl g : same_votes g g.
Proof. by split. Qed.

Lemma record_same_votes g voter h1 s1 h2 s2 :
  same_votes g (record_equivocation g voter h1 s1 h2 s2).
Proof. unfold record_equivocation. case_match; split; simpl; try done; set_solver. Qed.

Lemma detect_prevote_same_votes g v : same_votes g (detect_prevote_equivocation g v).
Proof.
  unfold detect_prevote_equivocation. repeat case_match; try apply record_same_votes; by split.
Qed.

Lemma detect_precommit_same_votes g v : same_votes g (detect_precommit_equivocation g v).
Proof.
  unfold detect_precommit_equivocation. repeat case_match; try apply record_same_votes; by split.
Qed.

(** The five ways a prevote is handled. *)
Lemma add_prevote_cases g v :
  (exists e, add_prevote g v = (g, Err e) /\
     (v_epoch v <> epoch g \/ v_height v <> checkpoint_height g \/
      is_ok (check_vote g (prevote_signing_message v) v) = false)) \/
  (v_epoch v = epoch g /\ v_height v = checkpoint_height g /\
   is_ok (check_vote g (prevote_signing_message v) v) = true /\
   let g1 := detect_prevote_equivocation g v in
   (exists e, add_prevote g v = (g1, Err e) /\
      (v_hash v <> checkpoint_hash g \/ is_Some (prevotes g !! voter_id v))) \/
   (v_hash v = checkpoint_hash g /\ prevotes g !! voter_id v = None /\
    add_prevote g v = (check_prevote_quorum (insert_prevote g1 v), Ok tt))).
Proof.
  unfold add_prevote. destruct (Z.eqb_spec (v_epoch v) (epoch g)) as [He|He]; [|left; by eauto].
  destruct (Z.eqb_spec (v_height v) (checkpoint_height g)) as [Hh|Hh]; [|left; eexists; simpl; by eauto].
  simpl. destruct (check_vote _ _ _) as [u|e]; [|left; eexists; by eauto].
  right. split_and!; try done.
  destruct (detect_prevote_same_votes g v) as [_ _ Hhash Hpv _ _ _ _ _]. rewrite Hhash, Hpv.
  repeat case_bool_decide; simpl; [left; eauto|right|left; eauto|left; eauto].
  split_and!; [done|by apply eq_None_not_Some|done].
Qed.

Lemma add_precommit_cases g v :
  (exists e, add_precommit g v = (g, Err e) /\
     (v_epoch v <> epoch g \/ v_height v <> checkpoint_height g \/
      prevote_quorum_reached g = false \/
      is_ok (check_vote g (precommit_signing_message v) v) = false)) \/
  (v_epoch v = epoch g /\ v_height v = checkpoint_height g /\ prevote_quorum_reached g = true /\
   is_ok (check_vote g (precommit_signing_message v) v) = true /\
   let g1 := detect_precommit_equivocation g v in
   (exists e, add_precommit g v = (g1, Err e) /\
      (v_hash v <> checkpoint_hash g \/ is_Some (precommits g !! voter_id v))) \/
   (v_hash v = checkpoint_hash g /\ precommits g !! voter_id v = None /\
    add_precommit g v = (check_precommit_quorum (insert_precommit g1 v), Ok tt))).
Proof.
  unfold add_precommit. destruct (Z.eqb_spec (v_epoch v) (epoch g)) as [He|He]; [|left; by eauto].
  destruct (Z.eqb_spec (v_height v) (checkpoint_height g)) as [Hh|Hh]; [|left; eexists; simpl; by eauto].
  destruct (prevote_quorum_reached g) eqn:Hq; simpl; [|left; eexists; by eauto].
  destruct (check_vote _ _ _) as [u|e]; [|left; eexists; by eauto 6].
  right. split_and!; try done.
  destruct (detect_precommit_same_votes g v) as [_ _ Hhash _ Hpc _ _ _ _]. rewrite Hhash, Hpc.
  repeat case_bool_decide; simpl; [left; eauto|right|left; eauto|left; eauto].
  split_and!; [done|by apply eq_None_not_Some|done].
Qed.

Lemma prevote_msg_eq g v :
  v_epoch v = epoch g -> v_height v = checkpoint_height g ->
  prevote_signing_message v = prevote_msg g (v_hash v).
Proof. unfold prevote_msg, prevote_signing_message. simpl. by intros -> ->. Qed.

Lemma precommit_msg_eq g v :
  v_epoch v = epoch g -> v_height v = checkpoint_height g ->
  precommit_signing_message v = precommit_msg g (v_hash v).
Proof. unfold precommit_msg, precommit_signing_message. by intros -> ->. Qed.

Lemma check_vote_ok s g msg v :
  validator_snapshot g = Some s -> is_ok (check_vote g msg v) = true ->
  signed s (voter_id v) msg (sig_bls v).
Proof.
  intros Hs Hok. destruct (check_vote g msg v) as [u|] eqn:E; [|done]. by eapply check_vote_signed.
Qed.

Lemma agg_inv_prevote s g v : snapshot_wf s -> agg_inv s g -> agg_inv s (add_prevote g v).1.
Proof.
  intros Hwf Hinv. destruct (add_prevote_cases g v) as [(e & -> & _)|(He & Hh & Hok & Hcase)]; [done|].
  apply (check_vote_ok s) in Hok; [|apply Hinv]. rewrite (prevote_msg_eq g v He Hh) in Hok.
  pose proof (agg_inv_detect_prevote s g v Hinv Hok) as Hinv1.
  destruct Hcase as [(e & -> & _)|(Hhash & Hnew & ->)]; [done|]. simpl.
  destruct (detect_prevote_same_votes g v).
  apply agg_inv_insert_prevote; [done|done|congruence|].
  unfold prevote_msg in *. rewrite sv_epoch0, sv_height0, sv_hash0, <- Hhash. done.
Qed.

Lemma agg_inv_precommit s g v : snapshot_wf s -> agg_inv s g -> agg_inv s (add_precommit g v).1.
Proof.
  intros Hwf Hinv.
  destruct (add_precommit_cases g v) as [(e & -> & _)|(He & Hh & Hpq & Hok & Hcase)]; [done|].
  apply (check_vote_ok s) in Hok; [|apply Hinv]. rewrite (precommit_msg_eq g v He Hh) in Hok.
  pose proof (agg_inv_detect_precommit s g v Hinv Hok) as Hinv1.
  destruct Hcase as [(e & -> & _)|(Hhash & Hnew & ->)]; [done|]. simpl.
  destruct (detect_precommit_same_votes g v).
  apply agg_inv_insert_precommit; [done|done|congruence|congruence|].
  unfold precommit_msg in *. rewrite sv_epoch0, sv_height0, sv_hash0, <- Hhash. done.
Qed.

(** The aggregator of one checkpoint, after any sequence of events. *)
Definition reached (s : ValidatorSetSnapshot) (g : FinalityAggregator) : Prop :=
  exists e h hash ops, g = agg_run (set_validator_snapshot (agg_new e h hash) s) ops.

Lemma agg_inv_run s g ops : snapshot_wf s -> agg_inv s g -> agg_inv s (agg_run g ops).
Proof.
  intros Hwf. revert g. induction ops as [|op ops IH]; intros g Hinv; [done|]. apply IH.
  destruct op; [by apply agg_inv_prevote|by apply agg_inv_precommit|by apply agg_inv_take].
Qed.

Lemma reached_inv s g : snapshot_wf s -> reached s g -> agg_inv s g.
Proof. intros Hwf (e & h & hash & ops & ->). by apply agg_inv_run, agg_inv_new. Qed.

(** The state of an aggregator.  After any sequence of votes and evidence
    collections on an aggregator with a validator set: every counted vote is
    stored under its voter, who is a validator and signed the message of this
    checkpoint; the two quorum flags say exactly whether the counted votes reach
    the stake and the count quorum; and no precommit is counted before the
    prevotes reached it. *)
Theorem aggregator_votes (s : ValidatorSetSnapshot) (g : FinalityAggregator)
    (Hwf : snapshot_wf s) (Hr : reached s g) :
  (forall a v, prevotes g !! a = Some v ->
     voter_id v = a /\ signed s a (prevote_msg g (checkpoint_hash g)) (sig_bls v)) /\
  (forall a v, precommits g !! a = Some v ->
     voter_id v = a /\ signed s a (precommit_msg g (checkpoint_hash g)) (sig_bls v)) /\
  (prevote_quorum_reached g = true <->
     quorum_stake s <= sum_stake (voted s (prevotes g)) /\ quorum_count s <= zlen (voted s (prevotes g))) /\
  (precommit_quorum_reached g = true <->
     quorum_stake s <= sum_stake (voted s (precommits g)) /\
     quorum_count s <= zlen (voted s (precommits g))) /\
  (precommits g <> ∅ -> prevote_quorum_reached g = true).
Proof.
  apply reached_inv in Hr; [|done]. destruct Hr. split_and!; try done.
  - rewrite ai_prevote_quorum0. by apply has_quorum_spec.
  - rewrite ai_precommit_quorum0. by apply has_quorum_spec.
Qed.

(** Equivocation evidence is sound.  Every report an aggregator holds names
    a validator, two different checkpoint hashes at its height, and two
    signatures that verify under that validator's key, both over prevote
    messages or both over precommit messages; there is at most one report per
    validator, and a validator that was reported is flagged, so that no later
    vote reports it again. *)
Theorem evidence_sound (s : ValidatorSetSnapshot) (g : FinalityAggregator)
    (Hwf : snapshot_wf s) (Hr : reached s g) :
  (forall r, r ∈ detected_equivocations g ->
     evidence_ok s g r /\ ds_voter r ∈ flagged_equivocators g) /\
  NoDup (ds_voter <$> detected_equivocations g) /\
  (forall voter h1 s1 h2 s2, voter ∈ flagged_equivocators g ->
     record_equivocation g voter h1 s1 h2 s2 = g).
Proof.
  apply reached_inv in Hr; [|done]. destruct Hr. rewrite !Forall_forall in *. split_and!; [by auto|done|].
  intros. unfold record_equivocation. by rewrite bool_decide_eq_true_2.
Qed.

(** ** Evidence is complete *)

(** How an aggregator changes in time: its checkpoint and validator set do
    not, and what it has seen and flagged stays.  When evidence is not
    collected, reports stay as well and every new flag comes with one. *)
Record extends (g g' : FinalityAggregator) : Prop := {
  ex_epoch : epoch g' = epoch g;
  ex_height : checkpoint_height g' = checkpoint_height g;
  ex_snapshot : validator_snapshot g' = validator_snapshot g;
  ex_prevotes : seen_prevotes g ⊆ seen_prevotes g';
  ex_precommits : seen_precommits g ⊆ seen_precommits g';
  ex_quorum : prevote_quorum_reached g = true -> prevote_quorum_reached g' = true;
  ex_flagged : flagged_equivocators g ⊆ flagged_equivocators g';
}.

Record keeps (g g' : FinalityAggregator) : Prop := {
  kp_reports : forall r, r ∈ detected_equivocations g -> r ∈ detected_equivocations g';
  kp_flagged : forall a, a ∈ flagged_equivocators g' -> a ∈ flagged_equivocators g \/
    exists r, r ∈ detected_equivocations g' /\ ds_voter r = a;
}.

#[local] Instance extends_preorder : PreOrder extends.
Proof.
  split; [by intros g; split|]. intros x y z [] []. split; try congruence; try (by etrans); auto.
Qed.

#[local] Instance keeps_preorder : PreOrder keeps.
Proof.
  split; [intros g; split; auto|]. intros x y z [R1 F1] [R2 F2]. split; [auto|].
  intros a Ha. destruct (F2 a Ha) as [Hy|?]; [|by right]. destruct (F1 a Hy) as [?|(r & ? & ?)]; [by left|].
  right. exists r. auto.
Qed.

Lemma record_extends g voter h1 s1 h2 s2 :
  let g' := record_equivocation g voter h1 s1 h2 s2 in
  extends g g' /\ keeps g g' /\ voter ∈ flagged_equivocators g'.
Proof.
  unfold record_equivocation. case_bool_decide; simpl; [done|].
  split_and!; [by split; simpl; set_solver| |set_solver].
  split; simpl; [intros; apply elem_of_app; auto|].
  intros a [->%elem_of_singleton|]%elem_of_union; [right|by left].
  eexists. split; [apply elem_of_app; right; by apply list_elem_of_singleton|done].
Qed.

(** Seeing a vote: afterwards a hash is on record for the voter, and it is the
    vote's own or the voter is flagged. *)
Lemma detect_prevote_sees g v :
  let g' := detect_prevote_equivocation g v in
  extends g g' /\ keeps g g' /\
  exists h sg, seen_prevotes g' !! voter_id v = Some (h, sg) /\
    (h = v_hash v \/ voter_id v ∈ flagged_equivocators g').
Proof.
  unfold detect_prevote_equivocation. destruct (seen_prevotes g !! voter_id v) as [[h sg]|] eqn:E.
  - case_bool_decide; [split_and!; [done|done|by eauto]|].
    destruct (record_extends g (voter_id v) h sg (v_hash v) (sig_bls v)) as (He & Hk & Hf).
    split_and!; [done|done|]. exists h, sg. split; [|by right].
    by apply (lookup_weaken _ _ _ _ E), ex_prevotes.
  - split_and!; [split; simpl; try done; by apply insert_subseteq|by split; auto|].
    exists (v_hash v), (sig_bls v). simpl. rewrite lookup_insert_eq. by auto.
Qed.

Lemma detect_precommit_sees g v :
  let g' := detect_precommit_equivocation g v in
  extends g g' /\ keeps g g' /\
  exists h sg, seen_precommits g' !! voter_id v = Some (h, sg) /\
    (h = v_hash v \/ voter_id v ∈ flagged_equivocators g').
Proof.
  unfold detect_precommit_equivocation. destruct (seen_precommits g !! voter_id v) as [[h sg]|] eqn:E.
  - case_bool_decide; [split_and!; [done|done|by eauto]|].
    destruct (record_extends g (voter_id v) h sg (v_hash v) (sig_bls v)) as (He & Hk & Hf).
    split_and!; [done|done|]. exists h, sg. split; [|by right].
    by apply (lookup_weaken _ _ _ _ E), ex_precommits.
  - split_and!; [split; simpl; try done; by apply insert_subseteq|by split; auto|].
    exists (v_hash v), (sig_bls v). simpl. rewrite lookup_insert_eq. by auto.
Qed.

(** Counting a vote touches no evidence. *)
Lemma insert_prevote_extends g v :
  let g' := check_prevote_quorum (insert_prevote g v) in
  extends g g' /\ keeps g g' /\ seen_prevotes g' = seen_prevotes g /\
  flagged_equivocators g' = flagged_equivocators g.
Proof. unfold check_prevote_quorum. simpl. repeat case_match; split_and!; try done; split; simpl; auto. Qed.

Lemma insert_precommit_extends g v :
  let g' := check_precommit_quorum (insert_precommit g v) in
  extends g g' /\ keeps g g' /\ seen_precommits g' = seen_precommits g /\
  flagged_equivocators g' = flagged_equivocators g.
Proof. unfold check_precommit_quorum. simpl. repeat case_match; split_and!; try done; split; simpl; auto. Qed.

Definition valid_prevote (g : FinalityAggregator) (v : Vote) : Prop :=
  v_epoch v = epoch g /\ v_height v = checkpoint_height g /\
  is_ok (check_vote g (prevote_signing_message v) v) = true.
Definition valid_precommit (g : FinalityAggregator) (v : Vote) : Prop :=
  v_epoch v = epoch g /\ v_height v = checkpoint_height g /\ prevote_quorum_reached g = true /\
  is_ok (check_vote g (precommit_signing_message v) v) = true.

Lemma add_prevote_extends g v :
  let g' := (add_prevote g v).1 in
  extends g g' /\ keeps g g' /\
  (valid_prevote g v -> exists h sg, seen_prevotes g' !! voter_id v = Some (h, sg) /\
     (h = v_hash v \/ voter_id v ∈ flagged_equivocators g')).
Proof.
  intros g'. unfold g', valid_prevote.
  destruct (add_prevote_cases g v) as [(e & -> & Hno)|(He & Hh & Hok & Hcase)]; simpl.
  { split_and!; [done|done|]. intros (? & ? & ?). naive_solver congruence. }
  destruct (detect_prevote_sees g v) as (Hex & Hk & Hs).
  destruct Hcase as [(e & -> & _)|(_ & _ & ->)]; simpl; [by auto|].
  destruct (insert_prevote_extends (detect_prevote_equivocation g v) v) as (Hex' & Hk' & -> & ->).
  split_and!; [by etrans|by etrans|by auto].
Qed.

Lemma add_precommit_extends g v :
  let g' := (add_precommit g v).1 in
  extends g g' /\ keeps g g' /\
  (valid_precommit g v -> exists h sg, seen_precommits g' !! voter_id v = Some (h, sg) /\
     (h = v_hash v \/ voter_id v ∈ flagged_equivocators g')).
Proof.
  intros g'. unfold g', valid_precommit.
  destruct (add_precommit_cases g v) as [(e & -> & Hno)|(He & Hh & Hpq & Hok & Hcase)]; simpl.
  { split_and!; [done|done|]. intros (? & ? & ? & ?). naive_solver congruence. }
  destruct (detect_precommit_sees g v) as (Hex & Hk & Hs).
  destruct Hcase as [(e & -> & _)|(_ & _ & ->)]; simpl; [by auto|].
  destruct (insert_precommit_extends (detect_precommit_equivocation g v) v) as (Hex' & Hk' & -> & ->).
  split_and!; [by etrans|by etrans|by auto].
Qed.

Lemma agg_run_extends g ops : extends g (agg_run g ops).
Proof.
  revert g. induction ops as [|op ops IH]; intros g; [reflexivity|]. simpl. etrans; [|apply IH].
  destruct op; [apply add_prevote_extends|apply add_precommit_extends|by split].
Qed.

Lemma agg_run_keeps g ops : TakeEvidence ∉ ops -> keeps g (agg_run g ops).
Proof.
  revert g. induction ops as [|op ops IH]; intros g Hn; [reflexivity|]. simpl.
  apply not_elem_of_cons in Hn as [Hop Hn]. etrans; [|by apply IH].
  destruct op; [apply add_prevote_extends|apply add_precommit_extends|done].
Qed.

Lemma valid_prevote_later g g' v : extends g g' -> valid_prevote g v -> valid_prevote g' v.
Proof.
  intros [] (? & ? & Hok). unfold valid_prevote, check_vote in *. rewrite ex_snapshot0.
  split_and!; congruence || done.
Qed.

Lemma valid_precommit_later g g' v : extends g g' -> valid_precommit g v -> valid_precommit g' v.
Proof.
  intros [] (? & ? & ? & Hok). unfold valid_precommit, check_vote in *. rewrite ex_snapshot0.
  split_and!; congruence || auto.
Qed.

(** Votes of one kind by one voter for two checkpoints: after both arrived the
    voter is flagged. *)
Lemma double_prevote_flagged g v1 v2 ops :
  valid_prevote g v1 -> valid_prevote g v2 -> voter_id v1 = voter_id v2 -> v_hash v1 <> v_hash v2 ->
  voter_id v1 ∈ flagged_equivocators (agg_run g (AddPrevote v1 :: ops ++ [AddPrevote v2])).
Proof.
  intros H1 H2 Hvoter Hhash. unfold agg_run. cbn [fold_left]. rewrite fold_left_app.
  set (g1 := agg_step g (AddPrevote v1)). fold (agg_run g1 ops). set (g2 := agg_run g1 ops). simpl.
  destruct (add_prevote_extends g v1) as (E1 & _ & Hs). destruct (Hs H1) as (h & sg & Hseen & Hor).
  assert (E2 : extends g1 g2) by apply agg_run_extends.
  destruct (add_prevote_extends g2 v2) as (E3 & _ & Hs2).
  destruct Hor as [->|Hf]; [|by apply (ex_flagged _ _ E3), (ex_flagged _ _ E2)].
  destruct Hs2 as (h2 & sg2 & Hseen2 & Hor2); [apply (valid_prevote_later g); [by etrans|done]|].
  assert (Hsame : seen_prevotes (add_prevote g2 v2).1 !! voter_id v2 = Some (v_hash v1, sg)).
  { rewrite <- Hvoter. apply (lookup_weaken _ _ _ _ Hseen). etrans; [apply E2|apply E3]. }
  rewrite Hseen2 in Hsame. simplify_eq. rewrite Hvoter. by destruct Hor2.
Qed.

Lemma double_precommit_flagged g v1 v2 ops :
  valid_precommit g v1 -> valid_precommit g v2 -> voter_id v1 = voter_id v2 ->
  v_hash v1 <> v_hash v2 ->
  voter_id v1 ∈ flagged_equivocators (agg_run g (AddPrecommit v1 :: ops ++ [AddPrecommit v2])).
Proof.
  intros H1 H2 Hvoter Hhash. unfold agg_run. cbn [fold_left]. rewrite fold_left_app.
  set (g1 := agg_step g (AddPrecommit v1)). fold (agg_run g1 ops). set (g2 := agg_run g1 ops). simpl.
  destruct (add_precommit_extends g v1) as (E1 & _ & Hs). destruct (Hs H1) as (h & sg & Hseen & Hor).
  assert (E2 : extends g1 g2) by apply agg_run_extends.
  destruct (add_precommit_extends g2 v2) as (E3 & _ & Hs2).
  destruct Hor as [->|Hf]; [|by apply (ex_flagged _ _ E3), (ex_flagged _ _ E2)].
  destruct Hs2 as (h2 & sg2 & Hseen2 & Hor2); [apply (valid_precommit_later g); [by etrans|done]|].
  assert (Hsame : seen_precommits (add_precommit g2 v2).1 !! voter_id v2 = Some (v_hash v1, sg)).
  { rewrite <- Hvoter. apply (lookup_weaken _ _ _ _ Hseen). etrans; [apply E2|apply E3]. }
  rewrite Hseen2 in Hsame. simplify_eq. rewrite Hvoter. by destruct Hor2.
Qed.

(** Double signing is detected.  When two validly signed prevotes, or two
    validly signed precommits, of one validator name different checkpoints, then
    once both have arrived, in either order and with any votes in between, the
    validator is flagged; and unless evidence was collected meanwhile a
    validator not flagged before has a report waiting. *)
Theorem double_sign_detected (g : FinalityAggregator) (v1 v2 : Vote) (ops : list AggOp)
    (Hvoter : voter_id v1 = voter_id v2) (Hhash : v_hash v1 <> v_hash v2) :
  let detected g' :=
    voter_id v1 ∈ flagged_equivocators g' /\
    (voter_id v1 ∉ flagged_equivocators g -> TakeEvidence ∉ ops ->
     exists r, r ∈ detected_equivocations g' /\ ds_voter r = voter_id v1) in
  (valid_prevote g v1 -> valid_prevote g v2 ->
     detected (agg_run g (AddPrevote v1 :: ops ++ [AddPrevote v2]))) /\
  (valid_precommit g v1 -> valid_precommit g v2 ->
     detected (agg_run g (AddPrecommit v1 :: ops ++ [AddPrecommit v2]))).
Proof.
  intros detected. split; intros H1 H2.
  - pose proof (double_prevote_flagged g v1 v2 ops H1 H2 Hvoter Hhash) as Hf. split; [done|].
    intros Hnf Hnt. apply kp_flagged with (g := g) in Hf; [by destruct Hf|].
    apply agg_run_keeps. set_solver.
  - pose proof (double_precommit_flagged g v1 v2 ops H1 H2 Hvoter Hhash) as Hf. split; [done|].
    intros Hnf Hnt. apply kp_flagged with (g := g) in Hf; [by destruct Hf|].
    apply agg_run_keeps. set_solver.
Qed.

(** ** Certificates *)

Lemma verify_bls_sig_Ok pk msg sig u :
  verify_bls_sig pk msg sig = Ok u ->
  exists k p, parse_key pk = Ok k /\ zlen sig = 48 /\ g1_from_compressed sig = Some p /\
    g1_torsion_free p = true /\ pairing_check p (hash_to_g1 msg) k = true.
Proof.
  unfold verify_bls_sig. intros E. apply rbind_Ok in E as (k & Ek & E).
  apply rbind_Ok in E as (p & Ep & E). inv_ok E. unfold parse_sig in Ep. inv_ok Ep. split_bool.
  exists k, p. split_and!; try done. by apply Z.eqb_eq.
Qed.

(** The keys of a list of validators. *)
Definition key_of (v : ValidatorEntry) : option G2 :=
  match parse_key (bls_public_key v) with Ok k => Some k | Err _ => None end.

(** A counted precommit, with its key and its point. *)
Definition ready (s : ValidatorSetSnapshot) (h : G1) (e : Address * Vote) (kp : G2 * G1) : Prop :=
  exists i v, validator_index s e.1 = Some i /\ find_validator s e.1 = Some v /\
    key_of v = Some kp.1 /\ zlen (sig_bls e.2) = 48 /\
    g1_from_compressed (sig_bls e.2) = Some kp.2 /\ g1_torsion_free kp.2 = true /\
    pairing_check kp.2 h kp.1 = true.

Lemma counted_ready s g a v :
  counted s g (precommit_msg g (checkpoint_hash g)) a v ->
  exists kp, ready s (hash_to_g1 (precommit_msg g (checkpoint_hash g))) (a, v) kp.
Proof.
  intros (_ & entry & Hf & Hv). apply verify_bls_sig_Ok in Hv as (k & p & Hk & Hl & Hd & Ht & Hp).
  destruct (find_validator_index _ _ _ Hf) as (i & Hi & _).
  exists (k, p), i, entry. split_and!; try done. unfold key_of. simpl. by rewrite Hk.
Qed.

Lemma assemble_ready s h entries kps bm agg :
  Forall2 (ready s h) entries kps ->
  assemble s entries bm agg =
  Some (fold_left set_bit (vote_indices s entries) bm, fold_left g1_add kps.*2 agg).
Proof.
  intros Hf. revert bm agg. induction Hf as [|[a v] [k p] entries kps Hr Hf IH]; intros bm agg; [done|].
  destruct Hr as (i & w & Hi & _ & _ & Hl & Hd & _ & _). unfold vote_indices. simpl in *.
  rewrite Hi, Hl, Hd, IH. done.
Qed.

Lemma ready_keys s h entries kps :
  Forall2 (ready s h) entries kps ->
  omap key_of (omap (fun e => find_validator s e.1) entries) = kps.*1.
Proof.
  induction 1 as [|e kp entries kps (i & v & _ & Hf & Hk & _) _ IH]; [done|].
  cbn [omap list_omap]. rewrite Hf. cbn [omap list_omap]. rewrite Hk. by rewrite IH.
Qed.

Lemma ready_all_keys s h entries kps :
  Forall2 (ready s h) entries kps ->
  Forall (fun v => is_Some (key_of v)) (omap (fun e => find_validator s e.1) entries).
Proof.
  induction 1 as [|e kp entries kps (i & v & _ & Hf & Hk & _) _ IH]; [constructor|].
  cbn [omap list_omap]. rewrite Hf. constructor; [by eauto|done].
Qed.

Lemma keys_Forall2 vs :
  Forall (fun v => is_Some (key_of v)) vs ->
  Forall2 (fun v k => parse_key (bls_public_key v) = Ok k) vs (omap key_of vs).
Proof.
  induction 1 as [|v vs [k Hk] _ IH]; [constructor|]. cbn [omap list_omap]. rewrite Hk.
  constructor; [|done]. unfold key_of in Hk. by destruct (parse_key (bls_public_key v)); simplify_eq.
Qed.

Section laws.
Context `{!BlsLaws B}.

Lemma aggregate_keys_perm ks ks' : ks ≡ₚ ks' -> aggregate_keys ks = aggregate_keys ks'.
Proof.
  unfold aggregate_keys. generalize g2_identity. intros z Hp. revert z.
  induction Hp as [|k ks ks' _ IH|k k' ks|ks1 ks2 ks3 _ IH1 _ IH2]; intros z; simpl; try done.
  - by rewrite <- !g2_add_assoc, (g2_add_comm k').
  - by rewrite IH1.
Qed.

(** The aggregate of valid signatures is valid for the aggregate key. *)
Lemma aggregate_check h ks ps a b :
  Forall2 (fun k p => pairing_check p h k = true) ks ps -> pairing_check a h b = true ->
  pairing_check (fold_left g1_add ps a) h (fold_left g2_add ks b) = true.
Proof.
  intros Hf. revert a b. induction Hf as [|k p ks ps Hkp Hf IH]; intros a b Hab; [done|]. apply IH.
  unfold pairing_check in *. rewrite pairing_add_l, pairing_add_r.
  rewrite <- gt_add_assoc, (gt_add_assoc (pairing p _)), (gt_add_comm (pairing p _)).
  rewrite <- (gt_add_assoc (pairing h b)), gt_add_assoc. by apply gt_identity_add.
Qed.

Lemma aggregate_torsion_free ps a :
  Forall (fun p => g1_torsion_free p = true) ps -> g1_torsion_free a = true ->
  g1_torsion_free (fold_left g1_add ps a) = true.
Proof.
  intros Hf. revert a. induction Hf; intros a Ha; simpl; [done|]. auto using torsion_free_add.
Qed.

(** The parts of an accepted certificate. *)
Lemma cert_verify_accepts c s sig :
  c_set_hash c = set_hash s -> c_epoch c = snap_epoch s -> 0 <= c_epoch c ->
  Forall (fun v => is_Some (key_of v)) (signers (bitmap c) 0 (validators s)) ->
  quorum_stake s <= saturating_stake (signers (bitmap c) 0 (validators s)) ->
  quorum_count s <= zlen (signers (bitmap c) 0 (validators s)) ->
  0 < zlen (signers (bitmap c) 0 (validators s)) ->
  agg_sig_bls c = g1_to_compressed sig -> g1_torsion_free sig = true ->
  pairing_check sig (hash_to_g1 (cert_signing_message c))
    (aggregate_keys (omap key_of (signers (bitmap c) 0 (validators s)))) = true ->
  cert_verify c s = Ok tt \/ cert_verify c s = Err AggregateKeyIdentity \/
  cert_verify c s = Err AggregateSigIdentity.
Proof.
  intros Hset Hep H0 Hkeys Hst Hct Hne Hsig Htf Hcheck. unfold cert_verify.
  pose proof (keys_Forall2 _ Hkeys) as Hk2. pose proof (Forall2_length _ _ _ Hk2) as Hlen.
  unfold checked_sub, BLS_RFC9380_ACTIVATION_EPOCH. rewrite (proj2 (Z.leb_le 0 _) H0). cbn [ok_or rbind].
  rewrite (bool_decide_eq_true_2 _ Hset), Hep, Z.eqb_refl. cbn [ensure rbind].
  rewrite (collect_signers_complete _ _ _ _ _ _ _ Hk2). cbn [rbind app].
  rewrite Z.add_0_l. fold (saturating_stake (signers (bitmap c) 0 (validators s))).
  rewrite (proj2 (Z.leb_le _ _) Hst), (proj2 (Z.leb_le _ _) Hct). cbn [ensure rbind].
  rewrite (proj2 (Z.eqb_neq _ 0)) by (unfold zlen in *; lia). cbn [negb ensure rbind].
  destruct (g2_is_identity _); cbn [negb ensure rbind]; [by auto|].
  rewrite Hsig, g1_compressed_length, (g1_compressed_roundtrip _ Htf). cbn [Z.eqb Pos.eqb ensure rbind ok_or].
  destruct (g1_is_identity sig); cbn [negb ensure rbind]; [by auto|]. rewrite Hcheck. by left.
Qed.

(** C28: certificates are produced and accepted.  When the precommits of an
    aggregator reach the quorum, [try_produce_cert] returns a certificate,
    whatever order the votes are visited in, and [verify] accepts it against the
    same validator set; the only other outcome is that the sum of the keys or
    of the signatures is the group identity, which [verify] refuses. *)
Theorem produced_cert_verifies (s : ValidatorSetSnapshot) (g : FinalityAggregator)
    (entries : list (Address * Vote)) (Hwf : snapshot_wf s) (Hr : reached s g)
    (Hepoch : epoch g = snap_epoch s) (Horder : entries ≡ₚ map_to_list (precommits g))
    (Hquorum : precommit_quorum_reached g = true) :
  exists c, try_produce_cert g entries = Some c /\
    c_height c = checkpoint_height g /\ c_hash c = checkpoint_hash g /\
    (cert_verify c s = Ok tt \/ cert_verify c s = Err AggregateKeyIdentity \/
     cert_verify c s = Err AggregateSigIdentity).
Proof.
  apply reached_inv in Hr; [|done].
  set (h := hash_to_g1 (precommit_msg g (checkpoint_hash g))).
  assert (Hready : exists kps, Forall2 (ready s h) entries kps).
  { apply Forall_exists_Forall2_l. rewrite Horder. apply Forall_forall. intros [a v] Hin%elem_of_map_to_list.
    apply counted_ready. by apply (ai_precommits _ _ Hr). }
  destruct Hready as [kps Hready].
  assert (Hnd : NoDup entries.*1) by (rewrite Horder; apply NoDup_fst_map_to_list).
  pose proof (cert_bits s entries Hnd) as Hbits.
  assert (Hvoted : omap (fun e => find_validator s e.1) entries ≡ₚ voted s (precommits g))
    by (unfold voted; by rewrite Horder).
  rewrite (ai_precommit_quorum _ _ Hr) in Hquorum. pose proof Hquorum as Hq.
  apply has_quorum_spec in Hq as [Hst Hct]; [|done].
  unfold try_produce_cert. rewrite (ai_precommit_quorum _ _ Hr), Hquorum, (ai_snapshot _ _ Hr).
  cbn [negb]. rewrite (assemble_ready s h entries kps _ _ Hready).
  eexists. split; [done|]. split; [done|]. split; [done|].
  pose proof (quorum_stake_eq s Hwf) as Hqs. pose proof (sum_stake_nonneg _ (sw_stakes _ Hwf)).
  pose proof (sw_total _ Hwf). pose proof (sw_bound _ Hwf).
  apply (cert_verify_accepts _ s (fold_left g1_add kps.*2 g1_identity)); simpl; try done.
  - rewrite Hepoch. apply (sw_epoch _ Hwf).
  - rewrite Hbits. by eapply ready_all_keys.
  - rewrite saturating_stake_eq by apply signers_Forall, Hwf. rewrite Hbits, Hvoted. dlia.
  - by rewrite Hbits, Hvoted.
  - rewrite Hbits, Hvoted. destruct (voted s (precommits g)); [simpl in Hst; dlia|]. rewrite zlen_cons.
    pose proof (zlen_nonneg l). lia.
  - apply aggregate_torsion_free; [|apply torsion_free_identity].
    clear -Hready. induction Hready as [|e kp entries kps (i & v & _ & _ & _ & _ & _ & Ht & _) _ IH];
      simpl; by constructor.
  - rewrite (aggregate_keys_perm _ (omap key_of (omap (fun e => find_validator s e.1) entries)))
      by (by rewrite Hbits).
    rewrite (ready_keys s h entries kps Hready).
    apply aggregate_check.
    + clear -Hready. induction Hready as [|e kp entries kps (i & v & _ & _ & _ & _ & _ & _ & Hp) _ IH];
        simpl; by constructor.
    + unfold pairing_check. apply gt_identity_add; [apply pairing_identity_l|apply pairing_identity_r].
Qed.

End laws.

End bls.

(** ** What is signed and hashed *)

Lemma with_length_split b c r r' :
  zlen b < U64 -> zlen c < U64 -> with_length b ++ r = with_length c ++ r' -> b = c /\ r = r'.
Proof.
  intros Hb Hc E. unfold with_length in E. rewrite <- !(assoc_L (++)) in E.
  apply u64_le_split in E as [Hl E]; [|split; [apply zlen_nonneg|done]..].
  apply app_inj_1 in E; [done|]. unfold zlen in Hl. lia.
Qed.

(** The ranges of a validator's fields: 32-byte addresses, [u64] stakes, keys
    shorter than [2^64]. *)
Definition entry_wf (v : ValidatorEntry) : Prop :=
  length (address v) = 32%nat /\ stake v ∈u U64 /\ zlen (bls_public_key v) < U64 /\
  zlen (pop_signature v) < U64 /\ zlen (pq_public_key v) < U64.

Lemma validator_preimage_split v w r r' :
  entry_wf v -> entry_wf w -> validator_preimage v ++ r = validator_preimage w ++ r' ->
  v = w /\ r = r'.
Proof.
  intros (La & Ls & Lb & Lp & Lq) (Ma & Ms & Mb & Mp & Mq) E.
  unfold validator_preimage, consensus_keys in E. rewrite <- !(assoc_L (++)) in E. simpl in E.
  apply app_inj_1 in E as [Ea E]; [|congruence]. apply u64_le_split in E as [Es E]; [|done|done].
  apply with_length_split in E as [Eb E]; [|done|done].
  apply with_length_split in E as [Ep E]; [|done|done].
  apply with_length_split in E as [Eq E]; [|done|done].
  destruct v, w; simpl in *. by subst.
Qed.

Lemma validator_preimage_nonempty v r : validator_preimage v ++ r <> [].
Proof.
  unfold validator_preimage. intros E. apply (f_equal length) in E.
  rewrite !length_app, u64_le_length in E. simpl in E. lia.
Qed.

Lemma preimages_inj vs ws :
  Forall entry_wf vs -> Forall entry_wf ws ->
  concat (map validator_preimage vs) = concat (map validator_preimage ws) -> vs = ws.
Proof.
  intros Hv. revert ws. induction Hv as [|v vs Hv _ IH]; intros [|w ws] Hw E; cbn [map concat] in E.
  - done.
  - by destruct (validator_preimage_nonempty w (concat (map validator_preimage ws))).
  - by destruct (validator_preimage_nonempty v (concat (map validator_preimage vs))).
  - apply Forall_cons in Hw as [Hw Hws]. apply validator_preimage_split in E as [-> E]; [|done|done].
    f_equal. by apply IH.
Qed.

(** The set hash commits to the validator set.  When the digest is
    collision free, two validator sets with the same [set_hash] have the same
    validators: addresses, stakes and all three keys, with no way to shift
    bytes from one key to another or from one validator to the next. *)
Theorem set_hash_binds (hex_sha3 : bytes -> bytes) (Hinj : forall a b, hex_sha3 a = hex_sha3 b -> a = b)
    (vs ws : list ValidatorEntry) (Hv : Forall entry_wf vs) (Hw : Forall entry_wf ws)
    (Hhash : compute_hash hex_sha3 vs = compute_hash hex_sha3 ws) : vs ≡ₚ ws.
Proof.
  unfold compute_hash in Hhash. apply Hinj in Hhash. unfold set_preimage in Hhash.
  apply preimages_inj in Hhash.
  - rewrite <- (merge_sort_Permutation address_le vs), <- (merge_sort_Permutation address_le ws).
    by rewrite Hhash.
  - by rewrite merge_sort_Permutation.
  - by rewrite merge_sort_Permutation.
Qed.

Definition vote_wf (v : Vote) : Prop := v_epoch v ∈u U64 /\ v_height v ∈u U64.

(** A vote signs exactly its checkpoint.  Equal signing messages mean the
    same epoch, height and checkpoint hash, for prevotes and for precommits, and
    no message is both: a signature cannot be moved to another checkpoint or
    from one phase to the other. *)
Theorem signing_messages_separate (v w : Vote) (Hv : vote_wf v) (Hw : vote_wf w) :
  (prevote_signing_message v = prevote_signing_message w ->
     v_epoch v = v_epoch w /\ v_height v = v_height w /\ v_hash v = v_hash w) /\
  (precommit_signing_message v = precommit_signing_message w ->
     v_epoch v = v_epoch w /\ v_height v = v_height w /\ v_hash v = v_hash w) /\
  prevote_signing_message v <> precommit_signing_message w.
Proof.
  destruct Hv as [Ev Hv], Hw as [Ew Hw]. unfold prevote_signing_message, precommit_signing_message,
    checkpoint_signing_message. split_and!.
  - intros E. do 2 apply app_inv_head in E. apply u64_le_split in E as [-> E]; [|done|done].
    by apply u64_le_split in E as [-> ->].
  - intros E. do 2 apply app_inv_head in E. apply u64_le_split in E as [-> E]; [|done|done].
    by apply u64_le_split in E as [-> ->].
  - intros E. apply (f_equal (fun l => l !! 10%nat)) in E. vm_compute in E. discriminate.
Qed.

(** ** A concrete instance

    The two-element group with conjunction as pairing satisfies the laws. *)
#[local] Instance toy_bls : BlsLib := {|
  G1 := bool; G2 := bool; Gt := bool;
  g1_from_compressed := fun bs => Some (nth 0 bs 0 =? 1);
  g1_to_compressed := fun b => (if b : bool then 1 else 0) :: replicate 47 0;
  g1_torsion_free := fun _ => true;
  g1_is_identity := negb;
  g1_identity := false;
  g1_add := xorb;
  g2_from_compressed := fun bs => Some (nth 0 bs 0 =? 1);
  g2_torsion_free := fun _ => true;
  g2_is_identity := negb;
  g2_identity := false;
  g2_add := xorb;
  g2_generator_neg := true;
  hash_to_curve := fun _ _ => true;
  pairing := andb;
  gt_add := xorb;
  gt_is_identity := negb;
|}.

#[local] Instance toy_laws : BlsLaws toy_bls.
Proof. split; simpl; intros; repeat match goal with b : bool |- _ => destruct b end; done. Qed.

Definition demo_validator (n : Z) : ValidatorEntry :=
  mkValidator [n] 10 (1 :: replicate 95 0) [] [].
Definition demo_set : ValidatorSetSnapshot :=
  snapshot_new (fun b => b) 4 [demo_validator 1; demo_validator 2; demo_validator 3].
Definition demo_vote (n : Z) (hash : bytes) : Vote := mkVote 4 20 hash [n] (1 :: replicate 47 0).
Definition demo_start : FinalityAggregator := set_validator_snapshot (agg_new 4 20 [9; 9]) demo_set.
Definition demo_votes : list AggOp :=
  map (fun n => AddPrevote (demo_vote n [9; 9])) [1; 2; 3] ++ [AddPrevote (demo_vote 2 [8])] ++
  map (fun n => AddPrecommit (demo_vote n [9; 9])) [1; 2; 3].
Definition demo_agg : FinalityAggregator := agg_run demo_start demo_votes.

Lemma demo_set_wf : snapshot_wf demo_set.
Proof. split; vm_compute; try done. repeat constructor; done. Qed.

Lemma demo_reached : reached demo_set demo_agg.
Proof. by exists 4, 20, [9; 9], demo_votes. Qed.

Definition demo_cert : FinalityCert :=
  {| c_epoch := 4; c_height := 20; c_hash := [9; 9]; agg_sig_bls := 1 :: replicate 47 0;
     bitmap := [7]; c_set_hash := set_hash demo_set |}.

Lemma cert_quorum_intersection_witness :
  cert_verify demo_cert demo_set = Ok tt /\
  total_stake demo_set < 3 * sum_stake (common_signers [7] [7] 0 (validators demo_set)).
Proof.
  assert (E : cert_verify demo_cert demo_set = Ok tt) by (vm_compute; reflexivity).
  split; [exact E|]. exact (proj1 (cert_quorum_intersection demo_cert demo_cert demo_set tt tt demo_set_wf E E)).
Defined.

Lemma aggregator_votes_witness :
  quorum_stake demo_set <= sum_stake (voted demo_set (precommits demo_agg)).
Proof.
  destruct (aggregator_votes demo_set demo_agg demo_set_wf demo_reached) as (_ & _ & _ & Hq & _).
  apply Hq. vm_compute. reflexivity.
Defined.

Lemma evidence_sound_witness :
  exists r, r ∈ detected_equivocations demo_agg /\ ds_voter r = [2] /\ evidence_ok demo_set demo_agg r.
Proof.
  pose proof (evidence_sound demo_set demo_agg demo_set_wf demo_reached) as (Hs & _).
  assert (E : detected_equivocations demo_agg =
              [mkDoubleSign [2] 20 [9; 9] [8] (1 :: replicate 47 0) (1 :: replicate 47 0)])
    by (vm_compute; reflexivity).
  rewrite E in Hs. rewrite E. eexists. split; [left|]. split; [reflexivity|]. apply Hs. left.
Defined.

Lemma double_sign_detected_witness :
  [1] ∈ flagged_equivocators
    (agg_run demo_start (AddPrevote (demo_vote 1 [9; 9]) :: [AddPrevote (demo_vote 2 [9; 9])] ++
                           [AddPrevote (demo_vote 1 [7])])).
Proof.
  refine (proj1 (proj1 (double_sign_detected demo_start (demo_vote 1 [9; 9]) (demo_vote 1 [7])
           [AddPrevote (demo_vote 2 [9; 9])] _ _) _ _)).
  - reflexivity.
  - discriminate.
  - by vm_compute.
  - by vm_compute.
Defined.

Lemma produced_cert_verifies_witness :
  exists c, try_produce_cert demo_agg (map_to_list (precommits demo_agg)) = Some c /\
    cert_verify c demo_set = Ok tt.
Proof.
  destruct (produced_cert_verifies demo_set demo_agg (map_to_list (precommits demo_agg)) demo_set_wf
              demo_reached) as (c & Hc & _); [reflexivity|reflexivity|by vm_compute|].
  exists c. split; [exact Hc|]. vm_compute in Hc. injection Hc as <-. vm_compute. reflexivity.
Defined.

Lemma set_hash_binds_witness :
  let v := mkValidator (replicate 32 5) 10 [1] [] [] in [v] ≡ₚ [v].
Proof.
  intros v. apply (set_hash_binds (fun b => b)).
  - intros a b E. exact E.
  - repeat constructor; vm_compute; done.
  - repeat constructor; vm_compute; done.
  - reflexivity.
Defined.

Lemma signing_messages_separate_witness :
  prevote_signing_message (demo_vote 1 [9]) <> precommit_signing_message (demo_vote 1 [9]).
Proof. apply (signing_messages_separate (demo_vote 1 [9]) (demo_vote 1 [9])); by vm_compute. Defined.

End FinalityFacts.
