(* ===== verification/EvmClient.v ===== *)
(** * The EVM light client (src/cross_domain/evm: receipt.rs, header.rs,
      sync_committee.rs, verify.rs, adapter.rs, bud_to_eth.rs)

    What a relayer must show for a deposit made on Ethereum: a header with the
    headers confirming it, a receipt proved against the header's receipts root
    ([Mpt]), a successful status and a log of the bridge contract; optionally
    the signatures of the sync committee ([Finality.verify_bls_sig]).  Strings
    are the bytes of their UTF-8 form.  Keccak-256 and the pairing library are
    parameters.

    The theorems: an accepted deposit was logged by the emitter in a successful
    transaction of the confirmed block; a sync-committee attestation is never
    accepted, because its signature has 96 bytes where the verifier takes 48. *)

From Stdlib Require Import ZArith Lia.
From stdpp Require Import base tactics strings numbers gmap list.
From S2P Require Import Prelude Hashing Rlp Mpt Merkle CrossDomain Bridge Finality FinalityFacts.
Import Hashing Rlp Mpt.
Open Scope Z_scope.

Module EvmClient.

(** ** Receipts *)

Record EthLog : Type := mkLog { log_address : bytes; topics : list Hash32; data : bytes }.
Record EthReceipt : Type := mkReceipt { status : bool; logs : list EthLog }.

Inductive ReceiptError : Type :=
| ReceiptRlp (e : RlpError)
| InvalidEnvelope
| InvalidLog.

Definition decode_status (b : bytes) : result bool ReceiptError :=
  match b with
  | [] => Ok false
  | [x] => Ok (negb (x =? 0))
  | _ => if zlen b =? 32 then Ok true else Err InvalidEnvelope
  end.

Fixpoint decode_topics (tl : list Item) : result (list Hash32) ReceiptError :=
  match tl with
  | [] => Ok []
  | t :: tl =>
      let? tb := map_err ReceiptRlp (as_bytes t) in
      check? zlen tb =? 32 else InvalidLog in
      let? rest := decode_topics tl in
      Ok (tb :: rest)
  end.

Definition decode_log (log_item : Item) : result EthLog ReceiptError :=
  match log_item with
  | IList [f0; f1; f2] =>
      let? a := map_err ReceiptRlp (as_bytes f0) in
      let? ts := match f1 with IList tl => decode_topics tl | _ => Err InvalidLog end in
      let? d := map_err ReceiptRlp (as_bytes f2) in
      Ok (mkLog a ts d)
  | _ => Err InvalidLog
  end.

Fixpoint decode_log_items (l : list Item) : result (list EthLog) ReceiptError :=
  match l with
  | [] => Ok []
  | i :: l => let? x := decode_log i in let? rest := decode_log_items l in Ok (x :: rest)
  end.

Definition decode_logs (i : Item) : result (list EthLog) ReceiptError :=
  match i with IList l => decode_log_items l | _ => Err InvalidLog end.

Definition decode_receipt (envelope : bytes) : result EthReceipt ReceiptError :=
  match envelope with
  | [] => Err InvalidEnvelope
  | first :: tail =>
      let payload := if 192 <=? first then envelope else tail in
      let? i := map_err ReceiptRlp (decode payload) in
      match i with
      | IList (f0 :: _ :: _ :: f3 :: _) =>
          let? b := map_err ReceiptRlp (as_bytes f0) in
          let? st := decode_status b in
          let? ls := decode_logs f3 in
          Ok (mkReceipt st ls)
      | _ => Err InvalidEnvelope
      end
  end.

Definition log_matches (emitter : bytes) (topic0 : Hash32) (l : EthLog) : bool :=
  bool_decide (log_address l = emitter) && match topics l with t :: _ => bool_decide (t = topic0) | [] => false end.

Definition find_log (r : EthReceipt) (emitter : bytes) (topic0 : Hash32) : option EthLog :=
  snd <$> list_find (fun l => log_matches emitter topic0 l = true) (logs r).

(** ** Headers *)

Record EthHeader : Type := mkHeader {
  parent_hash : Hash32;
  number : Z;
  state_root : Hash32;
  receipts_root : Hash32;
  hash : Hash32;
}.

Inductive HeaderError : Type :=
| HeaderRlp (e : RlpError)
| InvalidHeader
| ChainBroken
| InsufficientConfirmations.

Definition DEFAULT_CONFIRMATIONS : Z := 64.

Definition arr32 (b : bytes) : result Hash32 HeaderError :=
  check? zlen b =? 32 else InvalidHeader in Ok b.

(** ** The sync committee *)

Inductive SyncCommitteeError : Type :=
| InvalidPubkey
| InvalidSignature
| InsufficientParticipation (participating threshold : nat)
| SignatureVerificationFailed
| StateMismatch
| HeaderMismatch.

Definition SYNC_COMMITTEE_SIZE : nat := 512.
Definition PARTICIPATION_THRESHOLD : nat := SYNC_COMMITTEE_SIZE * 2 / 3 + 1.
Definition BLS_SIGNATURE_LEN : Z := 96.

Record SyncCommitteeState : Type := mkSync {
  current_period : Z;
  current_sync_committee : list bytes;
  next_sync_committee : list bytes;
}.

Record SyncAggregate : Type := mkAggregate {
  sync_committee_bits : list Z;
  sync_committee_signature : bytes;
}.

(** [count_ones] of a byte. *)
Definition count_ones (b : Z) : nat := length (filter (fun i => Z.testbit b (Z.of_nat i) = true) (seq 0 8)).

Definition participation_count (a : SyncAggregate) : nat := list_sum (map count_ones (sync_committee_bits a)).

Definition signed (a : SyncAggregate) (index : nat) : bool :=
  if (SYNC_COMMITTEE_SIZE <=? index)%nat then false
  else Z.land (Z.shiftr (nth (index / 8) (sync_committee_bits a) 0) (Z.of_nat (index mod 8))) 1 =? 1.

Definition rotate_period (s : SyncCommitteeState) : SyncCommitteeState :=
  mkSync (saturating_add U64 (current_period s) 1) (next_sync_committee s) (next_sync_committee s).

Record SyncAttestation : Type := mkAttestation {
  att_state : SyncCommitteeState;
  att_aggregate : SyncAggregate;
  signing_message : bytes;
}.

(** ** Deposits *)

Inductive VerifyError : Type :=
| VHeader (e : HeaderError)
| VMpt (e : MptError)
| VReceipt (e : ReceiptError)
| TxFailed
| LogNotFound
| PayloadMismatch
| VSyncCommittee (e : SyncCommitteeError).

Record VerifiedDeposit : Type := mkDeposit {
  vd_tx_hash : bytes;
  deposit_log_data : bytes;
  block_number : Z;
}.

Record EvmDepositProof : Type := mkDepositProof {
  target_header : bytes;
  confirmation_headers : list bytes;
  required_confirmations : Z;
  proof_nodes : list bytes;
  receipt_key : bytes;
  tx_hash : bytes;
  emitter_address : bytes;
  deposit_topic0 : Hash32;
  sync_attestation : option SyncAttestation;
}.

Section client.
Context {B : Finality.BlsLib}.
Variable keccak256 : bytes -> Hash32.

Definition decode_header (raw : bytes) : result EthHeader HeaderError :=
  let? i := map_err HeaderRlp (decode raw) in
  match i with
  | IList (f0 :: _ :: _ :: f3 :: _ :: f5 :: _ :: _ :: f8 :: _) =>
      let? b := map_err HeaderRlp (as_bytes f0) in
      let? parent := arr32 b in
      let? b := map_err HeaderRlp (as_bytes f3) in
      let? state := arr32 b in
      let? b := map_err HeaderRlp (as_bytes f5) in
      let? receipts := arr32 b in
      let? num := map_err HeaderRlp (decode_uint f8) in
      Ok (mkHeader parent num state receipts (keccak256 raw))
  | _ => Err InvalidHeader
  end.

(** The loop over the confirmations. *)
Fixpoint check_links (prev_hash : Hash32) (prev_number : Z) (confs : list EthHeader) : result unit HeaderError :=
  match confs with
  | [] => Ok tt
  | h :: confs =>
      check? bool_decide (parent_hash h = prev_hash) else ChainBroken in
      check? number h =? wrapping_add U64 prev_number 1 else ChainBroken in
      check_links (hash h) (number h) confs
  end.

Definition verify_chain (target : EthHeader) (confs : list EthHeader) (required : Z) : result unit HeaderError :=
  check? negb (wrap U32 (zlen confs) <? required) else InsufficientConfirmations in
  check_links (hash target) (number target) confs.

Fixpoint decode_headers (raws : list bytes) : result (list EthHeader) HeaderError :=
  match raws with
  | [] => Ok []
  | raw :: raws => let? h := decode_header raw in let? rest := decode_headers raws in Ok (h :: rest)
  end.

(** The number of members whose bit is set and under whose key the signature
    verifies. *)
Definition valid_count (s : SyncCommitteeState) (a : SyncAggregate) (msg : bytes) : nat :=
  length (filter (fun e => signed a e.1 = true /\
                    is_ok (Finality.verify_bls_sig e.2 msg (sync_committee_signature a)) = true)
            (imap (fun i pk => (i, pk)) (current_sync_committee s))).

Definition verify_sync_aggregate (s : SyncCommitteeState) (a : SyncAggregate) (msg : bytes)
  : result unit SyncCommitteeError :=
  let participating := participation_count a in
  check? negb (participating <? PARTICIPATION_THRESHOLD)%nat else
    InsufficientParticipation participating PARTICIPATION_THRESHOLD in
  let valid := valid_count s a msg in
  check? negb (valid <? PARTICIPATION_THRESHOLD)%nat else
    InsufficientParticipation valid PARTICIPATION_THRESHOLD in
  Ok tt.

Definition verify_evm_receipt (p : EvmDepositProof) : result VerifiedDeposit VerifyError :=
  let? target := map_err VHeader (decode_header (target_header p)) in
  let? confs := map_err VHeader (decode_headers (confirmation_headers p)) in
  let? _ := map_err VHeader (verify_chain target confs (required_confirmations p)) in
  let? receipt_bytes := map_err VMpt (verify keccak256 (proof_nodes p) (receipts_root target) (receipt_key p)) in
  let? receipt := map_err VReceipt (decode_receipt receipt_bytes) in
  check? status receipt else TxFailed in
  let? log := ok_or (find_log receipt (emitter_address p) (deposit_topic0 p)) LogNotFound in
  let? _ := match sync_attestation p with
            | Some att => map_err VSyncCommittee (verify_sync_aggregate (att_state att) (att_aggregate att) (signing_message att))
            | None => Ok tt
            end in
  Ok (mkDeposit (tx_hash p) (data log) (number target)).

(** ** The adapter *)

Record EvmChainAdapter : Type := mkAdapter {
  bridge_address : bytes;
  ad_deposit_topic0 : Hash32;
  ad_required_confirmations : Z;
}.

Definition adapter_new (a : bytes) (topic0 : Hash32) : EvmChainAdapter := mkAdapter a topic0 DEFAULT_CONFIRMATIONS.

Inductive AdapterError : Type :=
| ZeroBridgeAddress
| ZeroConfirmations
| ProofDoesNotVerify
| EmptyTxHash
| LeafMismatch.

Definition check_fit_for_relay (ad : EvmChainAdapter) : result unit AdapterError :=
  check? negb (forallb (fun b => b =? 0) (bridge_address ad)) else ZeroBridgeAddress in
  check? negb (ad_required_confirmations ad =? 0) else ZeroConfirmations in
  Ok tt.

Context {H : FieldHash}.

Definition derive_receipt_leaf (tx : bytes) (bridge : bytes) : Hash32 :=
  hash_fields_bytes [ascii_bytes "BDLM_EVM_RECEIPT_LEAF_V1"; tx; bridge].

Definition verify_receipt_proof (ad : EvmChainAdapter) (p : Merkle.MerkleProof) (external_state_root : Hash32)
    (expected_tx_hash : bytes) : result unit AdapterError :=
  check? Merkle.verify p external_state_root else ProofDoesNotVerify in
  check? negb (zlen expected_tx_hash =? 0) else EmptyTxHash in
  check? bool_decide (Merkle.leaf p = derive_receipt_leaf expected_tx_hash (bridge_address ad)) else LeafMismatch in
  Ok tt.

Definition verify_deposit (ad : EvmChainAdapter) (p : EvmDepositProof) : result EthReceipt VerifyError :=
  let? _ := verify_evm_receipt p in
  let? target := map_err VHeader (decode_header (target_header p)) in
  let? confs := map_err VHeader (decode_headers (confirmation_headers p)) in
  let? _ := map_err VHeader (verify_chain target confs (required_confirmations p)) in
  let? receipt_bytes := map_err VMpt (verify keccak256 (proof_nodes p) (receipts_root target) (receipt_key p)) in
  map_err VReceipt (decode_receipt receipt_bytes).

(** ** Claims towards Ethereum *)

Record BudToEthClaim : Type := mkClaim {
  cl_message_id : CrossDomain.MessageId;
  cl_asset_id : Hash32;
  cl_amount : Z;
  recipient_eth : bytes;
  finalized_height : Z;
  finalized_header_hash : Hash32;
  finality_proof : bytes;
  burn_event_proof : bytes;
}.

Inductive BudToEthError : Type :=
| BurnEventNotFound
| NotBurned
| InvalidRecipient
| FinalityProofMissing
| AmountExceedsCap.

Definition is_burned (s : Bridge.BridgeStatus) : bool :=
  match s with Bridge.Burned _ => true | _ => false end.

Definition build_bud_to_eth_claim (b : Bridge.BridgeState) (id : CrossDomain.MessageId) (height : Z)
    (header_hash : Hash32) (fin_proof burn_proof recipient : bytes) (cap : Z) : result BudToEthClaim BudToEthError :=
  let? t := ok_or (Bridge.transfers b !! id) BurnEventNotFound in
  check? is_burned (Bridge.status t) else NotBurned in
  check? negb (zlen fin_proof =? 0) else FinalityProofMissing in
  check? negb (cap <? Bridge.amount t) else AmountExceedsCap in
  let bs := take 32 (Bridge.asset_id t) in
  Ok (mkClaim id (bs ++ replicate (32 - length bs) 0) (Bridge.amount t) recipient height header_hash fin_proof burn_proof).

(** ** Confirmed blocks *)

(** Each header is the raw bytes it was read from, confirms the one before it by
    hash and has the next number. *)
Fixpoint confirms (prev_raw : bytes) (prev_number : Z) (raws : list bytes) : Prop :=
  match raws with
  | [] => True
  | raw :: raws => exists h, decode_header raw = Ok h /\ parent_hash h = keccak256 prev_raw /\
      number h = wrapping_add U64 prev_number 1 /\ confirms raw (number h) raws
  end.

Lemma decode_header_hash raw h : decode_header raw = Ok h -> hash h = keccak256 raw.
Proof. unfold decode_header. intros E. inv_ok E. repeat case_match; try done; inv_ok E; done. Qed.

Lemma links_confirm raw raws n confs : decode_headers raws = Ok confs ->
  check_links (keccak256 raw) n confs = Ok tt -> confirms raw n raws.
Proof.
  revert raw n confs. induction raws as [|r raws IH]; intros raw n confs Hd Hl; [done|].
  cbn [decode_headers] in Hd. inv_ok Hd. cbn [check_links] in Hl. inv_ok Hl. split_bool.
  exists x. split_and!; try done; [lia|]. eapply IH; [done|].
  by rewrite <- (decode_header_hash _ _ Hd0).
Qed.

Lemma decode_headers_length raws confs : decode_headers raws = Ok confs -> length confs = length raws.
Proof.
  revert confs. induction raws as [|r raws IH]; intros confs Hd; cbn [decode_headers] in Hd; inv_ok Hd; [done|].
  cbn [length]. f_equal. by apply IH.
Qed.

(** A 96-byte signature is never a valid BLS signature for the verifier. *)
Lemma sync_signature_refused pk msg sig : zlen sig = BLS_SIGNATURE_LEN -> is_ok (Finality.verify_bls_sig pk msg sig) = false.
Proof.
  intros Hs. unfold Finality.verify_bls_sig, Finality.parse_sig. destruct (Finality.parse_key pk); [|done]. cbn [rbind].
  rewrite Hs. done.
Qed.

Lemma no_valid_members s a msg : zlen (sync_committee_signature a) = BLS_SIGNATURE_LEN -> valid_count s a msg = 0%nat.
Proof.
  intros Hs. unfold valid_count. destruct (filter _ _) as [|e l] eqn:E; [done|].
  assert (Hin : e ∈ e :: l) by left. rewrite <- E in Hin. apply list_elem_of_filter in Hin as [[_ H'] _].
  by rewrite sync_signature_refused in H'.
Qed.

(** C40: no sync-committee attestation is ever accepted: the aggregate signature
    is an array of 96 bytes and the signature verifier refuses every length but
    48, so that whatever the committee, the participation and the signature, no
    member counts as valid and the check fails, and with it every deposit proof
    that carries an attestation. *)
Theorem sync_attestation_refused (s : SyncCommitteeState) (a : SyncAggregate) (msg : bytes)
    (Hsig : zlen (sync_committee_signature a) = BLS_SIGNATURE_LEN) :
  verify_sync_aggregate s a msg =
    Err (InsufficientParticipation
           (if (participation_count a <? PARTICIPATION_THRESHOLD)%nat then participation_count a else 0%nat)
           PARTICIPATION_THRESHOLD) /\
  forall p att, sync_attestation p = Some att -> att_aggregate att = a -> is_ok (verify_evm_receipt p) = false.
Proof.
  assert (E : forall s msg, verify_sync_aggregate s a msg =
    Err (InsufficientParticipation
           (if (participation_count a <? PARTICIPATION_THRESHOLD)%nat then participation_count a else 0%nat)
           PARTICIPATION_THRESHOLD)).
  { intros s' msg'. unfold verify_sync_aggregate. rewrite no_valid_members by done.
    destruct (participation_count a <? PARTICIPATION_THRESHOLD)%nat; done. }
  split; [apply E|]. intros p att Hp <-. destruct (verify_evm_receipt p) as [d|] eqn:Ev; [|done].
  unfold verify_evm_receipt in Ev. inv_ok Ev.
  match goal with K : context [sync_attestation p] |- _ => rewrite Hp in K; cbv iota in K; rewrite E in K; discriminate K end.
Qed.

Hypothesis keccak_bytes : forall x, Forall byte (keccak256 x).
Hypothesis keccak_length : forall x, length (keccak256 x) = 32%nat.

(** The deposit happened: the block whose header was given holds, at the key, a
    receipt of a successful transaction in which the emitter logged the event. *)
Definition deposit_logged (t : Trie) (key emitter : bytes) (topic0 : Hash32) (d : bytes) : Prop :=
  exists receipt decoded log,
    Mpt.lookup t (to_nibbles (keccak256 key)) = Some receipt /\ decode_receipt receipt = Ok decoded /\
    status decoded = true /\ log ∈ logs decoded /\ log_address log = emitter /\
    head (topics log) = Some topic0 /\ data log = d.

(** C17: an accepted deposit is real: if the receipts root of the target header
    is the root of a tree no proof node collides with, then the tree holds, at
    the key, the receipt of a successful transaction in which the emitter logged
    the event with the data returned; the target is the block of the number
    returned and is followed by at least the required number of headers, each
    linked to the raw bytes of the one before by hash and number. *)
Theorem deposit_proof_sound (p : EvmDepositProof) (d : VerifiedDeposit) (t : Trie) (target : EthHeader)
    (Hv : verify_evm_receipt p = Ok d) (Hh : decode_header (target_header p) = Ok target)
    (Hroot : receipts_root target = trie_root keccak256 t) (Ht : trie_ok t) (Hs : sized keccak256 t)
    (Hc : no_collision keccak256 (proof_nodes p) t) (Hlen : zlen (confirmation_headers p) < U32) :
  deposit_logged t (receipt_key p) (emitter_address p) (deposit_topic0 p) (deposit_log_data d) /\
  block_number d = number target /\ vd_tx_hash d = tx_hash p /\
  required_confirmations p <= zlen (confirmation_headers p) /\
  confirms (target_header p) (number target) (confirmation_headers p).
Proof.
  unfold verify_evm_receipt in Hv. rewrite Hh in Hv. cbn [map_err rbind] in Hv. inv_ok Hv. cbn [block_number vd_tx_hash deposit_log_data].
  rewrite Hroot in Hv2. apply verify_sound in Hv2; [|done..].
  unfold verify_chain in Hv1. inv_ok Hv1. split_bool.
  pose proof (decode_headers_length _ _ Hv0) as Hl. assert (Hz : zlen x = zlen (confirmation_headers p)) by (unfold zlen; lia).
  rewrite Hz in Hv7. pose proof (zlen_nonneg (confirmation_headers p)). unfold wrap in Hv7. rewrite Z.mod_small in Hv7 by lia.
  rewrite (decode_header_hash _ _ Hh) in Hv1. destruct x0. split_and!; try done; [|lia|by eapply links_confirm].
  unfold find_log in Hv5. apply fmap_Some in Hv5 as ([i l] & Hf & ->). apply list_find_Some in Hf as (Hi & Hm & _). simpl.
  unfold log_matches in Hm. destruct (topics l) as [|t0 ts] eqn:Et; [by rewrite andb_false_r in Hm|]. split_bool.
  exists x1, x2, l. rewrite Et. split_and!; try done; [by eapply list_elem_of_lookup_2|]. simpl. by subst.
Qed.

End client.

(** The leaf of an accepted receipt proof binds the transaction and the bridge. *)
Lemma receipt_proof_leaf {H : FieldHash} ad p root tx : is_ok (verify_receipt_proof ad p root tx) = true ->
  Merkle.leaf p = derive_receipt_leaf tx (bridge_address ad).
Proof.
  unfold verify_receipt_proof. destruct (Merkle.verify p root); [|done]. destruct (zlen tx =? 0); [done|].
  cbn. by case_bool_decide.
Qed.

Lemma receipt_proof_binds {H : FieldHash} {C : CollisionFree H} ad ad' p root root' tx tx' :
  is_ok (verify_receipt_proof ad p root tx) = true -> is_ok (verify_receipt_proof ad' p root' tx') = true ->
  tx = tx' /\ bridge_address ad = bridge_address ad'.
Proof.
  intros E%receipt_proof_leaf E'%receipt_proof_leaf. rewrite E in E'. unfold derive_receipt_leaf in E'. apply hash_fields_inj in E'. by simplify_eq.
Qed.

(** A claim towards Ethereum exists only for a burned transfer, and states its
    asset and amount. *)
Lemma claim_is_burned b id h hh fp bp r cap c :
  build_bud_to_eth_claim b id h hh fp bp r cap = Ok c ->
  exists t, Bridge.transfers b !! id = Some t /\ is_burned (Bridge.status t) = true /\
    cl_amount c = Bridge.amount t /\ Bridge.amount t <= cap /\
    (length (Bridge.asset_id t) = 32%nat -> cl_asset_id c = Bridge.asset_id t).
Proof.
  unfold build_bud_to_eth_claim. intros E. inv_ok E. split_bool. exists x. split_and!; try done; [lia|].
  intros Hl. cbn [cl_asset_id]. rewrite take_ge by lia. rewrite Hl. apply app_nil_r.
Qed.

(** ** A deposit *)
Module Demo.
Import Mpt.Demo.

Definition bridge_contract : bytes := replicate 20 7.
Definition event : Hash32 := replicate 32 9.
Definition payload : bytes := [42; 43].

Definition receipt_bytes : bytes :=
  encode (IList [IString [1]; IString [82]; IString [];
    IList [IList [IString bridge_contract; IList [IString event]; IString payload]]]).
Definition receipts : Trie := Leaf (to_nibbles (digest [1])) receipt_bytes.

Definition header (parent : Hash32) (n : Z) (root : Hash32) : bytes :=
  encode (IList [IString parent; IString []; IString []; IString zero32; IString []; IString root;
                 IString []; IString []; IString [n]; IString []]).
Definition target_raw : bytes := header zero32 100 (trie_root digest receipts).
Definition child_raw : bytes := header (digest target_raw) 101 zero32.

Definition deposit : EvmDepositProof :=
  mkDepositProof target_raw [child_raw] 1 (nodes digest receipts) [1] [116; 120] bridge_contract event None.

Lemma receipts_ok : trie_ok receipts.
Proof. apply (bool_decide_unpack (Forall nibble _ /\ Forall byte _)). vm_compute. exact I. Qed.
Lemma receipts_sized : sized digest receipts.
Proof. apply (bool_decide_unpack _). vm_compute. exact I. Qed.
Lemma apart : no_collision digest (nodes digest receipts) receipts.
Proof. apply collision_check. vm_compute. reflexivity. Qed.

Definition target : EthHeader := mkHeader zero32 100 zero32 (trie_root digest receipts) (digest target_raw).
Lemma target_decodes : decode_header digest target_raw = Ok target.
Proof. vm_compute. reflexivity. Qed.

Definition bls := FinalityFacts.toy_bls.

Lemma accepted : verify_evm_receipt (B := bls) digest deposit = Ok (mkDeposit [116; 120] payload 100).
Proof. vm_compute. reflexivity. Qed.

(** All 512 members take part; the signature is the valid 48-byte one of the toy
    scheme, padded to 96 bytes. *)
Definition committee : SyncCommitteeState := mkSync 0 (replicate 512 (1 :: replicate 95 0)) [].
Definition attestation : SyncAggregate := mkAggregate (replicate 64 255) (1 :: replicate 95 0).

End Demo.

Lemma deposit_proof_sound_witness :
  deposit_logged Mpt.Demo.digest Demo.receipts [1] Demo.bridge_contract Demo.event Demo.payload /\
  confirms Mpt.Demo.digest Demo.target_raw 100 [Demo.child_raw].
Proof.
  destruct (deposit_proof_sound (B := Demo.bls) Mpt.Demo.digest Mpt.Demo.digest_bytes Mpt.Demo.digest_length Demo.deposit _
    Demo.receipts Demo.target Demo.accepted Demo.target_decodes eq_refl Demo.receipts_ok Demo.receipts_sized Demo.apart
    ltac:(reflexivity)) as (H1 & _ & _ & _ & H2).
  split; [exact H1|exact H2].
Defined.

Lemma sync_attestation_refused_witness :
  participation_count Demo.attestation = 512%nat /\
  verify_sync_aggregate (B := Demo.bls) Demo.committee Demo.attestation [] =
    Err (InsufficientParticipation 0 PARTICIPATION_THRESHOLD).
Proof.
  split; [vm_compute; reflexivity|].
  exact (proj1 (sync_attestation_refused (B := Demo.bls) Mpt.Demo.digest Demo.committee Demo.attestation [] eq_refl)).
Defined.

End EvmClient.
