(* ===== verification/Tokenomics.v ===== *)
(** * Token economics (src/tokenomics/mod.rs, src/tokenomics/reward_pool.rs,
      src/chain/fee_market.rs, slash_penalty of src/core/chain_config.rs)

    Pure arithmetic on [u64], [u128] and [i128]: genesis distribution, team
    vesting, burns, the reward pool, the slash penalty and the fee market.
    [as u64] is reduction modulo [2^64]; division on [i128] truncates.

    Theorems: the genesis allocations are the fixed supply; vesting is
    monotone and never exceeds the grant; an epoch of the reward pool pays out
    its budget to the last unit; a slash takes at most the bond; a fee is split
    without loss; and the base fee moves by at most one part in the
    denominator. *)

From Stdlib Require Import ZArith Lia.
From stdpp Require Import base tactics strings numbers gmap sorting list.
From S2P Require Import Prelude Hashing.
Import Hashing.
Open Scope Z_scope.

Module Tokenomics.

Definition FIXED_POINT_SCALE : Z := 1000000.
Definition BUD_UNIT : Z := 1000000.
Definition BUD_TOTAL_SUPPLY : Z := 100000000 * BUD_UNIT.
Definition bud (whole : Z) : Z := whole * BUD_UNIT.

Inductive Allocation : Type := Community | Liquidity | Ecosystem | Team | BurnReserve.

(** ** Vesting *)

Record VestingSchedule : Type := mkVesting {
  vs_total : Z;
  start_epoch : Z;
  cliff_epochs : Z;
  duration_epochs : Z;
}.

Definition unlocked_at (s : VestingSchedule) (epoch : Z) : Z :=
  if duration_epochs s =? 0 then vs_total s
  else if epoch <? saturating_add U64 (start_epoch s) (cliff_epochs s) then 0
  else
    let elapsed := saturating_sub epoch (start_epoch s) in
    if duration_epochs s <=? elapsed then vs_total s
    else wrap U64 (vs_total s * elapsed / duration_epochs s).

Definition locked_at (s : VestingSchedule) (epoch : Z) : Z :=
  saturating_sub (vs_total s) (unlocked_at s epoch).

(** ** Parameters *)

Record TokenomicsParams : Type := mkTokenomics {
  community : Z;
  liquidity : Z;
  ecosystem : Z;
  team : Z;
  burn_reserve : Z;
  epochs_per_year : Z;
  annual_burn_ratio_fixed : Z;
  team_cliff_epochs : Z;
  team_vesting_epochs : Z;
  tx_fee_burn_ratio_fixed : Z;
  block_reward : Z;
  slot_duration_secs : Z;
  epoch_length_slots : Z;
  validator_annual_yield_ratio_fixed : Z;
}.

Definition params_default : TokenomicsParams := {|
  community := bud 10000000;
  liquidity := bud 10000000;
  ecosystem := bud 20000000;
  team := bud 20000000;
  burn_reserve := bud 40000000;
  epochs_per_year := 1000;
  annual_burn_ratio_fixed := FIXED_POINT_SCALE / 10;
  team_cliff_epochs := 1000;
  team_vesting_epochs := 4000;
  tx_fee_burn_ratio_fixed := FIXED_POINT_SCALE / 100;
  block_reward := 50;
  slot_duration_secs := 10;
  epoch_length_slots := 32;
  validator_annual_yield_ratio_fixed := (FIXED_POINT_SCALE * 5) / 100;
|}.

Definition seconds_per_epoch (p : TokenomicsParams) : Z :=
  saturating_mul U64 (Z.max (slot_duration_secs p) 1) (Z.max (epoch_length_slots p) 1).

Definition seconds_per_year (p : TokenomicsParams) : Z :=
  saturating_mul U64 (Z.max (epochs_per_year p) 1) (seconds_per_epoch p).

Definition epoch_at_timestamp (p : TokenomicsParams) (timestamp_secs : Z) : Z :=
  timestamp_secs / seconds_per_epoch p.

Definition params_total (p : TokenomicsParams) : Z :=
  saturating_add U64 (saturating_add U64 (saturating_add U64 (saturating_add U64
    (community p) (liquidity p)) (ecosystem p)) (team p)) (burn_reserve p).

Definition is_balanced (p : TokenomicsParams) : bool := params_total p =? BUD_TOTAL_SUPPLY.

Definition amount_of (p : TokenomicsParams) (a : Allocation) : Z :=
  match a with
  | Community => community p
  | Liquidity => liquidity p
  | Ecosystem => ecosystem p
  | Team => team p
  | BurnReserve => burn_reserve p
  end.

Definition team_vesting (p : TokenomicsParams) (genesis_epoch : Z) : VestingSchedule :=
  mkVesting (team p) genesis_epoch (team_cliff_epochs p) (team_vesting_epochs p).

Definition calculate_epoch_reward (p : TokenomicsParams) (validator_stake : Z) : Z :=
  let annual_yield := validator_stake * validator_annual_yield_ratio_fixed p / FIXED_POINT_SCALE in
  let slot_secs := Z.max (slot_duration_secs p) 1 in
  let epoch_slots := Z.max (epoch_length_slots p) 1 in
  let denom := slot_secs * (365 * 24 * 60 * 60) / 10 in
  let epoch_yield := wrap U128 (annual_yield * epoch_slots) / Z.max denom 1 in
  wrap U64 (Z.max epoch_yield 1).

Definition annual_burn_amount (p : TokenomicsParams) : Z :=
  wrap U64 (burn_reserve p * annual_burn_ratio_fixed p / FIXED_POINT_SCALE).

Definition metabolic_burn (p : TokenomicsParams) (fee : Z) : Z :=
  wrap U64 (fee * tx_fee_burn_ratio_fixed p / FIXED_POINT_SCALE).

Record TokenomicsAddresses : Type := mkAddresses {
  a_community : Address;
  a_liquidity : Address;
  a_ecosystem : Address;
  a_team : Address;
  a_burn_reserve : Address;
}.

Definition reserved_address (tag : Z) : Address := [176; 208; tag] ++ replicate 29 0.
Definition addresses_reserved : TokenomicsAddresses :=
  mkAddresses (reserved_address 1) (reserved_address 2) (reserved_address 3)
    (reserved_address 4) (reserved_address 5).

Definition address_of (t : TokenomicsAddresses) (a : Allocation) : Address :=
  match a with
  | Community => a_community t
  | Liquidity => a_liquidity t
  | Ecosystem => a_ecosystem t
  | Team => a_team t
  | BurnReserve => a_burn_reserve t
  end.

Definition genesis_allocations (p : TokenomicsParams) (t : TokenomicsAddresses)
    : list (Address * Z) :=
  [ (a_community t, community p); (a_liquidity t, liquidity p); (a_ecosystem t, ecosystem p);
    (a_team t, team p); (a_burn_reserve t, burn_reserve p) ].

Record TimedBurnState : Type := mkTimedBurn {
  years_burned : Z;
  total_burned : Z;
}.

Definition timed_burn_new : TimedBurnState := mkTimedBurn 0 0.

(** [due_years] and [due_years_by_time]: both divide the time since genesis by
    the length of a year. *)
Definition due_years (genesis current per_year : Z) : Z :=
  if per_year =? 0 then 0 else saturating_sub current genesis / per_year.
Definition due_years_by_time (genesis_secs current_secs year_secs : Z) : Z :=
  if year_secs =? 0 then 0 else saturating_sub current_secs genesis_secs / year_secs.

(** ** Slash penalty *)

Definition slash_penalty (stake slash_ratio_fixed : Z) : Z :=
  let quotient := stake * slash_ratio_fixed / FIXED_POINT_SCALE in
  if U64 - 1 <? quotient then stake
  else if stake <? quotient then stake
  else quotient.

(** ** The reward pool *)

Record RewardPoolSchedule : Type := mkSchedule {
  validation_reward_pool : Z;
  validation_pool_epochs : Z;
  treasury_pool : Z;
  reward_pool_start_epoch : Z;
}.

Definition schedule_default : RewardPoolSchedule :=
  mkSchedule (bud 10000000) 100000 (bud 2000000) 0.

Inductive RewardPoolError : Type := EmptyEpochSchedule | PoolExceedsFixedSupply.

Definition schedule_validate (s : RewardPoolSchedule) : result unit RewardPoolError :=
  if validation_pool_epochs s =? 0 then Err EmptyEpochSchedule
  else if BUD_TOTAL_SUPPLY <? saturating_add U64 (validation_reward_pool s) (treasury_pool s)
  then Err PoolExceedsFixedSupply
  else Ok tt.

Definition per_epoch_budget (s : RewardPoolSchedule) (epoch remaining_pool : Z) : Z :=
  if (epoch <? reward_pool_start_epoch s) || (validation_pool_epochs s =? 0) then 0
  else Z.min (validation_reward_pool s / validation_pool_epochs s) remaining_pool.

(** [validators.sort_by_key(|(addr, _)| *addr)] *)
Definition stake_entry_le (a b : Address * Z) : Prop := bytes_le a.1 b.1.
#[export] Instance stake_entry_le_dec a b : Decision (stake_entry_le a b).
Proof. unfold stake_entry_le. apply _. Defined.

Definition stake_sum (l : list (Address * Z)) : Z := foldr (fun e s => e.2 + s) 0 l.

Definition share_of (budget total_stake stake : Z) : Z := wrap U64 (budget * stake / total_stake).

(** The rounding remainder goes to the first validator. *)
Definition add_to_first (remainder : Z) (out : list (Address * Z)) : list (Address * Z) :=
  match out with
  | [] => []
  | (a, x) :: out => (a, saturating_add U64 x remainder) :: out
  end.

Definition total_epoch_payout (payouts : list (Address * Z)) : Z :=
  fold_left (fun acc e => saturating_add U64 acc e.2) payouts 0.

Definition reward_for_epoch (s : RewardPoolSchedule) (epoch remaining_pool : Z)
    (active : list (Address * Z)) : list (Address * Z) :=
  let budget := per_epoch_budget s epoch remaining_pool in
  if (budget =? 0) || (zlen active =? 0) then []
  else
    let validators := merge_sort stake_entry_le (filter (fun e => 0 < e.2) active) in
    let total_stake := stake_sum validators in
    if total_stake =? 0 then []
    else
      let out := map (fun e => (e.1, share_of budget total_stake e.2)) validators in
      let paid := total_epoch_payout out in
      let remainder := saturating_sub budget paid in
      if 0 <? remainder then add_to_first remainder out else out.

(** ** The fee market *)

Definition PPM_DENOMINATOR : Z := 1000000.
Definition DEFAULT_TREASURY_RATE_PPM : Z := 10000.

Record FeeMarketParams : Type := mkFeeParams {
  target_gas : Z;
  elasticity_multiplier : Z;
  base_fee_max_change_denominator : Z;
  min_base_fee : Z;
}.

Definition fee_params_default : FeeMarketParams := mkFeeParams 10000000 2 8 0.

Record FeeBid : Type := mkBid { max_fee : Z; priority_fee : Z }.
Definition legacy_bid (fee : Z) : FeeBid := mkBid fee 0.

Record EffectiveFee : Type := mkEffective { ef_base_fee_burned : Z; priority_fee_paid : Z }.

Inductive FeeError : Type :=
| MaxFeeBelowBaseFee (max_fee base_fee : Z)
| TreasuryRateAbovePpmDenominator (rate_ppm : Z).

(** [i128] saturation and wrap-around. *)
Abbreviation I128_HALF := 170141183460469231731687303715884105728.
Definition sat_i128 (x : Z) : Z := Z.max (- I128_HALF) (Z.min x (I128_HALF - 1)).
Definition wrap_i128 (x : Z) : Z := (x + I128_HALF) mod U128 - I128_HALF.

Definition next_base_fee (parent_base_fee parent_gas_used : Z) (p : FeeMarketParams) : Z :=
  if (target_gas p =? 0) || (base_fee_max_change_denominator p =? 0) then
    Z.max parent_base_fee (min_base_fee p)
  else
    let gas_delta := parent_gas_used - target_gas p in
    let denom := wrap_i128 (target_gas p * base_fee_max_change_denominator p) in
    let adjustment := Z.quot (sat_i128 (parent_base_fee * gas_delta)) (Z.max denom 1) in
    let next := Z.max (sat_i128 (parent_base_fee + adjustment)) (min_base_fee p) in
    wrap U64 (Z.min next (U64 - 1)).

Definition effective_fee (bid : FeeBid) (block_base_fee : Z) : result EffectiveFee FeeError :=
  if max_fee bid <? block_base_fee then Err (MaxFeeBelowBaseFee (max_fee bid) block_base_fee)
  else
    let tip_cap := saturating_sub (max_fee bid) block_base_fee in
    Ok (mkEffective block_base_fee (Z.min (priority_fee bid) tip_cap)).

Record FeeDistribution : Type := mkDistribution {
  base_fee_burned : Z;
  priority_fee_to_proposer : Z;
  treasury_fee : Z;
}.

Definition distribute_fee (bid : FeeBid) (block_base_fee gas_used treasury_rate_ppm : Z)
    : result FeeDistribution FeeError :=
  let? effective := effective_fee bid block_base_fee in
  let burned := saturating_mul U64 block_base_fee gas_used in
  let total_priority := saturating_mul U64 (priority_fee_paid effective) gas_used in
  check? negb (PPM_DENOMINATOR <? treasury_rate_ppm)
    else TreasuryRateAbovePpmDenominator treasury_rate_ppm in
  let treasury := saturating_mul U64 total_priority treasury_rate_ppm / PPM_DENOMINATOR in
  Ok (mkDistribution burned (saturating_sub total_priority treasury) treasury).

(** ** Facts *)

Lemma wrap_small x : x ∈u U64 -> wrap U64 x = x.
Proof. intros. by apply Z.mod_small. Qed.

Record params_wf (p : TokenomicsParams) : Prop := {
  pw_community : community p ∈u U64;
  pw_liquidity : liquidity p ∈u U64;
  pw_ecosystem : ecosystem p ∈u U64;
  pw_team : team p ∈u U64;
  pw_reserve : burn_reserve p ∈u U64;
}.

(** The genesis supply is fixed.  Parameters that pass [is_balanced]
    allocate exactly the total supply of 100 million tokens at genesis, the
    saturating sum hiding no overflow, and give every recipient category its
    amount; the default parameters pass. *)
Theorem genesis_supply_fixed (p : TokenomicsParams) (t : TokenomicsAddresses)
    (Hwf : params_wf p) (Hb : is_balanced p = true) :
  stake_sum (genesis_allocations p t) = BUD_TOTAL_SUPPLY /\
  (forall a, (address_of t a, amount_of p a) ∈ genesis_allocations p t) /\
  is_balanced params_default = true.
Proof.
  destruct Hwf. unfold is_balanced in Hb. apply Z.eqb_eq in Hb.
  unfold params_total, saturating_add, BUD_TOTAL_SUPPLY, BUD_UNIT in Hb. split_and!.
  - unfold BUD_TOTAL_SUPPLY, BUD_UNIT. simpl. lia.
  - intros []; unfold genesis_allocations; simpl; set_solver.
  - reflexivity.
Qed.
Lemma genesis_supply_fixed_witness :
  stake_sum (genesis_allocations params_default addresses_reserved) = BUD_TOTAL_SUPPLY.
Proof.
  apply (genesis_supply_fixed params_default addresses_reserved); [|reflexivity].
  split; vm_compute; done.
Defined.

Record vesting_wf (s : VestingSchedule) : Prop := {
  vw_total : vs_total s ∈u U64;
  vw_start : start_epoch s ∈u U64;
  vw_cliff : cliff_epochs s ∈u U64;
  vw_duration : duration_epochs s ∈u U64;
}.

Lemma linear_bound s elapsed :
  vesting_wf s -> 0 <= elapsed < duration_epochs s ->
  0 <= vs_total s * elapsed / duration_epochs s <= vs_total s.
Proof.
  intros [] He. split; [apply Z.div_pos; nia|]. apply Z.div_le_upper_bound; nia.
Qed.

Lemma unlocked_range s e : vesting_wf s -> 0 <= unlocked_at s e <= vs_total s.
Proof.
  intros Hwf. pose proof Hwf as []. unfold unlocked_at. repeat case_match; try lia.
  apply Z.leb_gt in H1. unfold saturating_sub in *.
  pose proof (linear_bound s (Z.max (e - start_epoch s) 0) Hwf ltac:(lia)). rewrite wrap_small; lia.
Qed.

Lemma unlocked_mono s e e' : vesting_wf s -> 0 <= e <= e' -> unlocked_at s e <= unlocked_at s e'.
Proof.
  intros Hwf He. pose proof (unlocked_range s e Hwf) as Hr. pose proof (unlocked_range s e' Hwf) as Hr'.
  pose proof Hwf as [].
  unfold unlocked_at, saturating_sub, saturating_add in *.
  destruct (Z.eqb_spec (duration_epochs s) 0); [lia|].
  destruct (Z.ltb_spec e (Z.min (start_epoch s + cliff_epochs s) (U64 - 1))); [lia|].
  destruct (Z.ltb_spec e' (Z.min (start_epoch s + cliff_epochs s) (U64 - 1))); [lia|].
  destruct (Z.leb_spec (duration_epochs s) (Z.max (e' - start_epoch s) 0)).
  { destruct (Z.leb_spec (duration_epochs s) (Z.max (e - start_epoch s) 0)); lia. }
  rewrite (proj2 (Z.leb_gt _ _)) by lia.
  pose proof (linear_bound s (Z.max (e - start_epoch s) 0) Hwf ltac:(lia)).
  pose proof (linear_bound s (Z.max (e' - start_epoch s) 0) Hwf ltac:(lia)).
  rewrite !wrap_small by lia. apply Z.div_le_mono; [lia|]. nia.
Qed.

(** Vesting.  The unlocked amount never decreases from one epoch to a
    later one and never exceeds the grant; locked and unlocked add up to the
    grant at every epoch; nothing is unlocked before the cliff (of a schedule
    with a duration) and everything is after its end. *)
Theorem vesting_monotone (s : VestingSchedule) (e e' : Z) (Hwf : vesting_wf s)
    (He : 0 <= e <= e') :
  unlocked_at s e <= unlocked_at s e' <= vs_total s /\
  unlocked_at s e + locked_at s e = vs_total s /\
  (duration_epochs s <> 0 -> e < start_epoch s + cliff_epochs s -> e < U64 - 1 -> unlocked_at s e = 0) /\
  (start_epoch s + duration_epochs s <= e -> start_epoch s + cliff_epochs s <= e ->
   unlocked_at s e = vs_total s).
Proof.
  pose proof (unlocked_range s e Hwf) as Hr. pose proof (unlocked_range s e' Hwf) as Hr'.
  pose proof Hwf as []. split_and!; [|lia|unfold locked_at, saturating_sub; lia| |].
  - by apply unlocked_mono.
  - intros Hd Hc Hu. unfold unlocked_at, saturating_add.
    rewrite (proj2 (Z.eqb_neq _ 0)), (proj2 (Z.ltb_lt _ _)) by lia. done.
  - intros Hd Hc. unfold unlocked_at, saturating_add, saturating_sub. case_match; [done|].
    rewrite (proj2 (Z.ltb_ge _ _)), (proj2 (Z.leb_le _ _)) by lia. done.
Qed.
Lemma vesting_monotone_witness :
  let s := team_vesting params_default 0 in
  unlocked_at s 1500 <= unlocked_at s 2000 <= vs_total s.
Proof.
  intros s. apply (vesting_monotone s 1500 2000); [split; vm_compute; done|lia].
Defined.

(** A slash takes at most the bond, whatever the ratio; it is the exact
    fraction, rounded down, for a ratio up to 100% and the whole bond from there
    on, and a higher ratio never takes less. *)
Theorem slash_penalty_spec (stake ratio ratio' : Z) (Hs : stake ∈u U64)
    (Hr : 0 <= ratio <= ratio') :
  0 <= slash_penalty stake ratio <= stake /\
  (ratio <= FIXED_POINT_SCALE -> slash_penalty stake ratio = stake * ratio / FIXED_POINT_SCALE) /\
  (FIXED_POINT_SCALE <= ratio -> slash_penalty stake ratio = stake) /\
  slash_penalty stake ratio <= slash_penalty stake ratio'.
Proof.
  unfold slash_penalty, FIXED_POINT_SCALE.
  assert (Hq : 0 <= stake * ratio / 1000000) by (apply Z.div_pos; nia).
  assert (Hm : stake * ratio / 1000000 <= stake * ratio' / 1000000) by (apply Z.div_le_mono; nia).
  split_and!.
  - repeat case_match; lia.
  - repeat case_match; lia.
  - intros Hle. assert (stake * ratio / 1000000 <= stake) by (apply Z.div_le_upper_bound; nia).
    rewrite !(proj2 (Z.ltb_ge _ _)) by lia. done.
  - intros Hge. assert (stake <= stake * ratio / 1000000) by (apply Z.div_le_lower_bound; nia).
    repeat case_match; lia.
  - destruct (Z.ltb_spec (U64 - 1) (stake * ratio / 1000000)), (Z.ltb_spec (U64 - 1) (stake * ratio' / 1000000)),
      (Z.ltb_spec stake (stake * ratio / 1000000)), (Z.ltb_spec stake (stake * ratio' / 1000000)); lia.
Qed.
Lemma slash_penalty_spec_witness :
  slash_penalty 1000 50000 = 50 /\ slash_penalty 1000 50000 <= slash_penalty 1000 2000000.
Proof.
  split; [reflexivity|].
  apply (slash_penalty_spec 1000 50000 2000000); vm_compute; split; discriminate || reflexivity.
Defined.

(** ** The reward pool pays its budget *)

#[export] Instance stake_sum_perm : Proper ((≡ₚ) ==> (=)) stake_sum.
Proof. intros l k Hp. induction Hp; simpl; lia. Qed.

Lemma stake_sum_nonneg l : Forall (fun e => 0 <= e.2) l -> 0 <= stake_sum l.
Proof. induction 1; simpl; lia. Qed.

Lemma payout_fold l acc :
  Forall (fun e => 0 <= e.2) l -> 0 <= acc -> acc + stake_sum l < U64 ->
  fold_left (fun acc e => saturating_add U64 acc e.2) l acc = acc + stake_sum l.
Proof.
  intros Hf. revert acc. induction Hf as [|e l He Hf IH]; intros acc Ha Hb; simpl in *; [lia|].
  pose proof (stake_sum_nonneg l Hf). rewrite IH; unfold saturating_add; lia.
Qed.

Lemma payout_sum l :
  Forall (fun e => 0 <= e.2) l -> stake_sum l < U64 -> total_epoch_payout l = stake_sum l.
Proof. intros. unfold total_epoch_payout. rewrite payout_fold; lia || done. Qed.

(** Rounded-down shares never exceed the budget. *)
Lemma shares_sum budget T l :
  0 <= budget < U64 -> 0 < T -> Forall (fun e => 0 <= e.2 <= T) l ->
  Forall (fun e => 0 <= e.2) (map (fun e => (e.1, share_of budget T e.2)) l) /\
  stake_sum (map (fun e => (e.1, share_of budget T e.2)) l) * T <= budget * stake_sum l.
Proof.
  intros Hb HT Hf. induction Hf as [|[a x] l Hx Hf [IH1 IH2]]; simpl; [split; [constructor|lia]|].
  simpl in Hx. assert (Hs : share_of budget T x = budget * x / T).
  { apply wrap_small. split; [apply Z.div_pos; nia|]. apply Z.div_lt_upper_bound; nia. }
  rewrite Hs. pose proof (Z.mul_div_le (budget * x) T HT).
  assert (0 <= budget * x / T) by (apply Z.div_pos; nia). split; [by constructor|nia].
Qed.

Lemma stake_sum_pos l :
  Forall (fun e => 0 < e.2) l -> l <> [] ->
  0 < stake_sum l /\ Forall (fun e => 0 <= e.2 <= stake_sum l) l.
Proof.
  intros Hf Hne. assert (Hin : forall e, e ∈ l -> e.2 <= stake_sum l).
  { clear Hne. induction Hf as [|x l Hx Hf IH]; intros e; [by intros ?%elem_of_nil|].
    assert (0 <= stake_sum l) by (apply stake_sum_nonneg; eapply Forall_impl; [exact Hf|]; simpl; lia).
    intros [->|He]%elem_of_cons; simpl; [lia|]. apply IH in He. lia. }
  rewrite Forall_forall in Hf. split.
  - destruct l as [|x l]; [done|]. assert (x ∈ x :: l) by left. specialize (Hf x ltac:(done)).
    specialize (Hin x ltac:(done)). lia.
  - apply Forall_forall. intros e He. specialize (Hf e He). specialize (Hin e He). lia.
Qed.

(** Adding what is missing to the first payout completes the budget. *)
Lemma remainder_to_first budget T l :
  let out := map (fun e => (e.1, share_of budget T e.2)) l in
  0 <= budget < U64 -> 0 < T -> Forall (fun e => 0 <= e.2 <= T) l -> l <> [] -> stake_sum out <= budget ->
  let remainder := saturating_sub budget (stake_sum out) in
  let payouts := if 0 <? remainder then add_to_first remainder out else out in
  stake_sum payouts = budget /\ total_epoch_payout payouts = budget /\ payouts.*1 = l.*1 /\
  Forall2 (fun e p => budget * e.2 / T <= p.2) l payouts.
Proof.
  intros out Hb HT Hf Hne Hle remainder payouts.
  destruct (shares_sum budget T l Hb HT Hf) as [Hnn _]. fold out in Hnn.
  assert (Hshares : Forall2 (fun e p => budget * e.2 / T <= p.2) l out).
  { unfold out. clear -Hb HT Hf. induction Hf as [|[a x] l Hx Hf IH]; simpl; constructor; [|done].
    simpl in *. unfold share_of. rewrite wrap_small; [lia|].
    split; [apply Z.div_pos; nia|]. apply Z.div_lt_upper_bound; nia. }
  assert (Hfst : out.*1 = l.*1) by (unfold out; rewrite <- list_fmap_compose; done).
  assert (Hmain : stake_sum payouts = budget /\ Forall (fun e => 0 <= e.2) payouts /\
                  payouts.*1 = l.*1 /\ Forall2 (fun e p => budget * e.2 / T <= p.2) l payouts).
  { unfold payouts, remainder, saturating_sub.
    destruct (Z.ltb_spec 0 (Z.max (budget - stake_sum out) 0)) as [Hr|Hr]; [|split_and!; try done; lia].
    destruct l as [|e l]; [done|]. unfold out in *. simpl in *.
    apply Forall_cons in Hnn as [He Hnn]. simpl in He. pose proof (stake_sum_nonneg _ Hnn).
    inversion Hshares as [|? ? ? ? Hs Hss]; subst. simpl in Hs.
    unfold saturating_add. rewrite Z.min_l by lia.
    split_and!; [lia|constructor; [simpl; lia|done]|done|constructor; [simpl; lia|done]]. }
  destruct Hmain as (Hs & Hnn' & Hf1 & H2). split_and!; try done. rewrite payout_sum; [done|done|lia].
Qed.

(** The reward pool pays out its budget to the last unit.  When there is
    a budget and a validator with stake, the payouts of an epoch sum to exactly
    the budget, which is at most what remains in the pool; every validator with
    stake, and no other, is paid, in address order, at least its rounded-down
    share.  Otherwise nothing is paid. *)
Theorem reward_pool_exact (s : RewardPoolSchedule) (epoch remaining : Z) (active : list (Address * Z))
    (Hactive : Forall (fun e => 0 <= e.2) active) (Hrem : 0 <= remaining)
    (Hpool : 0 <= validation_reward_pool s < U64) (Hepochs : 0 <= validation_pool_epochs s) :
  let budget := per_epoch_budget s epoch remaining in
  let staked := filter (fun e => 0 < e.2) active in
  let payouts := reward_for_epoch s epoch remaining active in
  0 <= budget <= remaining /\
  (0 < budget -> staked <> [] ->
     stake_sum payouts = budget /\ total_epoch_payout payouts = budget /\
     payouts.*1 = (merge_sort stake_entry_le staked).*1 /\
     Forall2 (fun e p => budget * e.2 / stake_sum staked <= p.2)
       (merge_sort stake_entry_le staked) payouts) /\
  (budget = 0 \/ staked = [] -> payouts = []).
Proof.
  intros budget staked payouts.
  assert (Hb : 0 <= budget <= remaining /\ budget < U64).
  { unfold budget, per_epoch_budget. case_match; [lia|]. apply orb_false_elim in H as [_ H].
    apply Z.eqb_neq in H.
    assert (0 <= validation_reward_pool s / validation_pool_epochs s <= validation_reward_pool s).
    { split; [apply Z.div_pos; lia|]. apply Z.div_le_upper_bound; nia. } lia. }
  destruct Hb as [Hb HbU]. split; [done|].
  unfold payouts, reward_for_epoch. fold budget. fold staked.
  set (vs := merge_sort stake_entry_le staked).
  assert (Hperm : vs ≡ₚ staked) by apply merge_sort_Permutation.
  assert (Hpos : Forall (fun e => 0 < e.2) vs).
  { rewrite Hperm. apply Forall_forall. by intros e [? _]%list_elem_of_filter. }
  assert (Hlen0 : zlen active = 0 -> staked = []).
  { intros E. destruct active; [done|]. unfold zlen in E. simpl in E. lia. }
  split.
  - intros Hb0 Hne. rewrite (proj2 (Z.eqb_neq budget 0)) by lia.
    rewrite (proj2 (Z.eqb_neq (zlen active) 0)) by auto. cbn [orb].
    assert (HT : 0 < stake_sum vs /\ Forall (fun e => 0 <= e.2 <= stake_sum vs) vs).
    { apply stake_sum_pos; [done|]. intros E. apply Hne. rewrite E in Hperm. by apply Permutation_nil. }
    destruct HT as [HT Hle]. rewrite (proj2 (Z.eqb_neq (stake_sum vs) 0)) by lia.
    set (out := map (fun e => (e.1, share_of budget (stake_sum vs) e.2)) vs).
    destruct (shares_sum budget (stake_sum vs) vs ltac:(lia) HT Hle) as [Hnn Hsum].
    fold out in Hnn, Hsum. pose proof (stake_sum_nonneg out Hnn).
    assert (Hout : stake_sum out <= budget) by nia.
    rewrite (payout_sum out Hnn ltac:(lia)).
    assert (HTs : stake_sum staked = stake_sum vs) by (by rewrite Hperm). rewrite HTs.
    apply remainder_to_first; try done; [lia|]. intros E. rewrite E in HT. simpl in HT. lia.
  - intros [->|E]; [done|]. case_match; [done|].
    assert (vs = []) as -> by (rewrite E in Hperm; by apply Permutation_nil). done.
Qed.

Lemma reward_pool_exact_witness :
  stake_sum (reward_for_epoch (mkSchedule 100 10 0 0) 0 100 [([2], 30); ([1], 70); ([3], 0)]) = 10.
Proof.
  destruct (reward_pool_exact (mkSchedule 100 10 0 0) 0 100 [([2], 30); ([1], 70); ([3], 0)])
    as (_ & Hpay & _).
  - repeat constructor; discriminate.
  - lia.
  - simpl. lia.
  - simpl. lia.
  - apply Hpay; [reflexivity|discriminate].
Defined.

(** A fee is split without loss.  An accepted bid pays the base fee, which
    is burned, and a tip of at most the bid's priority fee and of at most what
    the cap leaves; when the products fit in 64 bits, the proposer's and the
    treasury's shares add up to the tip for the gas used and the whole charge
    stays within the bidder's cap.  A bid below the base fee or a treasury rate
    above 100% is refused. *)
Theorem fee_split_exact (bid : FeeBid) (base gas rate : Z)
    (Hbid : max_fee bid ∈u U64 /\ priority_fee bid ∈u U64) (Hbase : base ∈u U64)
    (Hgas : gas ∈u U64) (Hrate : 0 <= rate) (Hfit : max_fee bid * gas < U64) :
  match distribute_fee bid base gas rate with
  | Ok d =>
      base_fee_burned d = base * gas /\
      priority_fee_to_proposer d + treasury_fee d =
        Z.min (priority_fee bid) (max_fee bid - base) * gas /\
      0 <= treasury_fee d /\ 0 <= priority_fee_to_proposer d /\
      base_fee_burned d + priority_fee_to_proposer d + treasury_fee d <= max_fee bid * gas
  | Err (MaxFeeBelowBaseFee _ _) => max_fee bid < base
  | Err (TreasuryRateAbovePpmDenominator _) => PPM_DENOMINATOR < rate
  end.
Proof.
  destruct Hbid as [Hmax Hprio]. unfold distribute_fee, effective_fee.
  destruct (Z.ltb_spec (max_fee bid) base) as [|Hge]; [done|]. cbn [rbind].
  destruct (Z.ltb_spec PPM_DENOMINATOR rate) as [|Hr]; [done|]. cbn [negb ensure rbind].
  unfold saturating_mul, saturating_sub, PPM_DENOMINATOR in *. simpl.
  set (tip := Z.min (priority_fee bid) (Z.max (max_fee bid - base) 0)).
  assert (Htip : tip = Z.min (priority_fee bid) (max_fee bid - base)) by (unfold tip; lia).
  assert (0 <= tip <= max_fee bid - base) by lia.
  rewrite !Z.min_l by nia. rewrite <- Htip.
  set (t := Z.min (tip * gas * rate) (U64 - 1) / 1000000).
  assert (0 <= t <= tip * gas).
  { unfold t. split; [apply Z.div_pos; nia|]. apply Z.div_le_upper_bound; nia. }
  nia.
Qed.
Lemma fee_split_exact_witness :
  distribute_fee (mkBid 20 10) 10 1000 10000 = Ok (mkDistribution 10000 9900 100) /\
  9900 + 100 = Z.min 10 (20 - 10) * 1000.
Proof.
  pose proof (fee_split_exact (mkBid 20 10) 10 1000 10000 ltac:(simpl; lia) ltac:(lia) ltac:(lia)
                ltac:(lia) ltac:(simpl; lia)) as Hs.
  split; [reflexivity|].
  change (distribute_fee (mkBid 20 10) 10 1000 10000)
    with (@Ok FeeDistribution FeeError (mkDistribution 10000 9900 100)) in Hs.
  exact (proj1 (proj2 Hs)).
Defined.

(** the base fee moves by a bounded step.  After a block that used at most
    twice the target, and with parameters whose products fit, the next base fee
    differs from the parent's by at most one part in the denominator (one
    eighth), it does not fall when the block was above its target nor rise when
    it was below, and it is never under the minimum. *)
Theorem base_fee_bounded (parent gas : Z) (p : FeeMarketParams)
    (Hparent : min_base_fee p <= parent < U64) (Hmin : 0 <= min_base_fee p)
    (Htarget : 0 < target_gas p < 2 ^ 62) (Hden : 1 <= base_fee_max_change_denominator p < 2 ^ 62)
    (Hgas : 0 <= gas <= 2 * target_gas p)
    (Hroom : parent + parent / base_fee_max_change_denominator p < U64) :
  let next := next_base_fee parent gas p in
  Z.abs (next - parent) <= parent / base_fee_max_change_denominator p /\
  min_base_fee p <= next /\ (target_gas p <= gas -> parent <= next) /\ (gas <= target_gas p -> next <= parent).
Proof.
  intros next. unfold next, next_base_fee.
  rewrite (proj2 (Z.eqb_neq (target_gas p) 0)), (proj2 (Z.eqb_neq (base_fee_max_change_denominator p) 0)) by lia.
  cbn [orb]. set (T := target_gas p) in *. set (D := base_fee_max_change_denominator p) in *.
  assert (HTD : 0 < T * D < 2 ^ 124) by (change (2 ^ 124) with (2 ^ 62 * 2 ^ 62); nia).
  assert (Hw : wrap_i128 (T * D) = T * D).
  { unfold wrap_i128. rewrite Z.mod_small by lia. lia. }
  assert (Hx : - (2 ^ 126) < parent * (gas - T) < 2 ^ 126).
  { change (2 ^ 126) with (U64 * 2 ^ 62). nia. }
  assert (Hs : sat_i128 (parent * (gas - T)) = parent * (gas - T)) by (unfold sat_i128; lia).
  rewrite Hw, Hs, (Z.max_l (T * D) 1) by lia.
  set (adj := Z.quot (parent * (gas - T)) (T * D)).
  assert (Hadj : Z.abs adj <= parent / D /\ (T <= gas -> 0 <= adj) /\ (gas <= T -> adj <= 0)).
  { assert (Hstep : forall d, 0 <= d <= T -> 0 <= Z.quot (parent * d) (T * D) <= parent / D).
    { intros d Hd. rewrite Z.quot_div_nonneg by nia. split; [apply Z.div_pos; nia|].
      rewrite <- (Z.div_mul_cancel_l parent D T) by lia. apply Z.div_le_mono; nia. }
    unfold adj. destruct (Z.le_ge_cases T gas).
    - specialize (Hstep (gas - T) ltac:(lia)). split_and!; [lia|lia|]. intros.
      replace (gas - T) with 0 by lia. by rewrite Z.mul_0_r, Z.quot_0_l by lia.
    - specialize (Hstep (T - gas) ltac:(lia)).
      replace (parent * (gas - T)) with (- (parent * (T - gas))) by lia.
      rewrite Z.quot_opp_l by lia. split_and!; [lia| |lia]. intros.
      replace (T - gas) with 0 by lia. by rewrite Z.mul_0_r, Z.quot_0_l by lia. }
  assert (parent / D <= parent) by (apply Z.div_le_upper_bound; nia).
  unfold sat_i128. rewrite wrap_small by lia. lia.
Qed.
Lemma base_fee_bounded_witness :
  next_base_fee 800 20000000 fee_params_default = 900 /\
  Z.abs (next_base_fee 800 20000000 fee_params_default - 800) <= 100.
Proof.
  split; [reflexivity|].
  apply (base_fee_bounded 800 20000000 fee_params_default); repeat split; by vm_compute.
Defined.

End Tokenomics.
