(* ===== verification/ProofMarket.v ===== *)
(** * The proof market (src/settlement/proof_market.rs)

    Proof tasks, the receipts provers earn with them, and the market state that
    holds both: opening a task, assigning it, completing it with a receipt,
    paying or revoking the receipt, and the sweep at an epoch close.  A task's
    identifier is the hash of its terms.  Error messages are the constructors of
    [MarketError]; the proof-verification hook that [complete_task] takes is a
    function argument. *)

From Stdlib Require Import ZArith Lia.
From stdpp Require Import base tactics strings numbers list.
From S2P Require Import Prelude Hashing.
Import Hashing.
Open Scope Z_scope.

Module ProofMarket.

Definition MAX_PROOF_MARKET_ACTIVE_TASKS : Z := 10000.
Definition MAX_PROOF_MARKET_PENDING_RECEIPTS : Z := 10000.
Definition MAX_PROOF_TASK_EPOCH_SPAN : Z := 10000.

Definition nonzero_hash (value : Hash32) : bool := negb (bool_decide (value = zero32)).

Inductive ProofTaskKind : Type :=
| DomainCommitment (domain_id domain_height sequence : Z)
| ZkProof (circuit_id public_inputs_hash : Hash32)
| SyncCommitteeSig (domain_id epoch : Z)
| StorageAttestation (deal_id : Hash32) (challenge_epoch : Z).

Inductive MarketError : Type :=
| KindDomainZero | KindHeightZero | KindCircuitZero | KindInputsZero
| KindSyncDomainZero | KindSyncEpochZero | KindDealZero | KindChallengeZero
| TaskIdZero | CreatorZero | DeadlineNotAfterCreated | DeadlineTooFar (span : Z)
| RewardZero | SlashConditionZero | TaskIdMismatch
| ProverZero | StakeTooLow (held required : Z) | NotPending | BeforeCreated | AlreadyExpired
| MustBeAssigned | CannotComplete | OnlyActiveExpire
| ReceiptTaskMismatch | ReceiptProverZero | ReceiptNotAssigned | ReceiptWrongProver
| ReceiptOutsideWindow | ReceiptHashZero | ReceiptRewardInvalid
| ReceiptNotPending | RevokeReasonInvalid | AlreadyRevoked
| ActiveLimit | DuplicateTask | TaskNotFound | HookRefused (why : bytes)
| ReceiptLimit | CompletedOverflow | ReceiptIndex | PaidOverflow.

(** ** Task kinds *)

Definition kind_validate (k : ProofTaskKind) : result unit MarketError :=
  match k with
  | DomainCommitment domain_id domain_height _ =>
      if domain_id =? 0 then Err KindDomainZero
      else if domain_height =? 0 then Err KindHeightZero else Ok tt
  | ZkProof circuit_id public_inputs_hash =>
      if negb (nonzero_hash circuit_id) then Err KindCircuitZero
      else if negb (nonzero_hash public_inputs_hash) then Err KindInputsZero else Ok tt
  | SyncCommitteeSig domain_id epoch =>
      if domain_id =? 0 then Err KindSyncDomainZero
      else if epoch =? 0 then Err KindSyncEpochZero else Ok tt
  | StorageAttestation deal_id challenge_epoch =>
      if negb (nonzero_hash deal_id) then Err KindDealZero
      else if challenge_epoch =? 0 then Err KindChallengeZero else Ok tt
  end.

Definition kind_tag (k : ProofTaskKind) : Z :=
  match k with
  | DomainCommitment _ _ _ => 1
  | ZkProof _ _ => 2
  | SyncCommitteeSig _ _ => 3
  | StorageAttestation _ _ => 4
  end.

Definition canonical_bytes (k : ProofTaskKind) : bytes :=
  kind_tag k ::
  match k with
  | DomainCommitment domain_id domain_height sequence =>
      u32_le domain_id ++ u64_le domain_height ++ u64_le sequence
  | ZkProof circuit_id public_inputs_hash => circuit_id ++ public_inputs_hash
  | SyncCommitteeSig domain_id epoch => u32_le domain_id ++ u64_le epoch
  | StorageAttestation deal_id challenge_epoch => deal_id ++ u64_le challenge_epoch
  end.

Definition default_difficulty (k : ProofTaskKind) : Z :=
  match k with
  | DomainCommitment _ _ _ => 1000000
  | ZkProof _ _ => 10000000
  | SyncCommitteeSig _ _ => 2000000
  | StorageAttestation _ _ => 3000000
  end.

(** ** Tasks *)

Inductive ProofTaskStatus : Type :=
| Pending
| Assigned (prover : Address) (assigned_at_epoch : Z)
| Completed
| Expired
| Failed (reason : bytes).

#[export] Instance ProofTaskStatus_eq_dec : EqDecision ProofTaskStatus.
Proof. solve_decision. Defined.

Definition status_root_bytes (s : ProofTaskStatus) : bytes :=
  match s with
  | Pending => [0]
  | Assigned prover assigned_at_epoch => [1] ++ prover ++ u64_le assigned_at_epoch
  | Completed => [2]
  | Expired => [3]
  | Failed reason => [4] ++ reason
  end.

Record ProofTask : Type := mkTask {
  task_id : Hash32;
  kind : ProofTaskKind;
  creator : Address;
  created_epoch : Z;
  deadline_epoch : Z;
  t_status : ProofTaskStatus;
  reward : Z;
  difficulty : Z;
  slash_condition_hash : Hash32;
  min_prover_stake : Z;
}.

Definition set_task_status (s : ProofTaskStatus) (t : ProofTask) : ProofTask :=
  mkTask (task_id t) (kind t) (creator t) (created_epoch t) (deadline_epoch t) s (reward t)
    (difficulty t) (slash_condition_hash t) (min_prover_stake t).

Definition is_active (t : ProofTask) : bool :=
  match t_status t with Pending | Assigned _ _ => true | _ => false end.

Section market.
Context {H : FieldHash}.

Definition task_fields (k : ProofTaskKind) (creator : Address) (created deadline reward : Z)
    (slash_condition : Hash32) (min_stake : Z) : list bytes :=
  [ascii_bytes "BDLM_SETTLEMENT_PROOF_TASK_V2"; canonical_bytes k; creator;
   u64_le created; u64_le deadline; u64_le reward; slash_condition; u64_le min_stake].

Definition compute_task_id (k : ProofTaskKind) (creator : Address) (created deadline reward : Z)
    (slash_condition : Hash32) (min_stake : Z) : Hash32 :=
  hash_fields_bytes (task_fields k creator created deadline reward slash_condition min_stake).

Definition new_task (k : ProofTaskKind) (creator : Address) (created deadline reward : Z)
    (slash_condition : Hash32) (min_stake : Z) : ProofTask :=
  mkTask (compute_task_id k creator created deadline reward slash_condition min_stake)
    k creator created deadline Pending reward (default_difficulty k) slash_condition min_stake.

Definition verify_task_id (t : ProofTask) : bool :=
  bool_decide (task_id t =
    compute_task_id (kind t) (creator t) (created_epoch t) (deadline_epoch t) (reward t)
      (slash_condition_hash t) (min_prover_stake t)).

Definition validate_shape (t : ProofTask) : result unit MarketError :=
  if bool_decide (task_id t = zero32) then Err TaskIdZero
  else if bool_decide (creator t = zero32) then Err CreatorZero
  else
    let? _ := kind_validate (kind t) in
    if deadline_epoch t <=? created_epoch t then Err DeadlineNotAfterCreated
    else
      let span := saturating_sub (deadline_epoch t) (created_epoch t) in
      if MAX_PROOF_TASK_EPOCH_SPAN <? span then Err (DeadlineTooFar span)
      else if reward t =? 0 then Err RewardZero
      else if negb (nonzero_hash (slash_condition_hash t)) then Err SlashConditionZero
      else if negb (verify_task_id t) then Err TaskIdMismatch
      else Ok tt.

Definition assign (t : ProofTask) (prover : Address) (prover_stake current_epoch : Z)
    : ProofTask * result unit MarketError :=
  match validate_shape t with
  | Err e => (t, Err e)
  | Ok _ =>
      if bool_decide (prover = zero32) then (t, Err ProverZero)
      else if prover_stake <? min_prover_stake t then
        (t, Err (StakeTooLow prover_stake (min_prover_stake t)))
      else if negb (bool_decide (t_status t = Pending)) then (t, Err NotPending)
      else if current_epoch <? created_epoch t then (t, Err BeforeCreated)
      else if deadline_epoch t <? current_epoch then (t, Err AlreadyExpired)
      else (set_task_status (Assigned prover current_epoch) t, Ok tt)
  end.

Definition complete (t : ProofTask) : ProofTask * result unit MarketError :=
  match t_status t with
  | Assigned _ _ => (set_task_status Completed t, Ok tt)
  | Pending => (t, Err MustBeAssigned)
  | _ => (t, Err CannotComplete)
  end.

Definition expire (t : ProofTask) : ProofTask * result unit MarketError :=
  if negb (is_active t) then (t, Err OnlyActiveExpire)
  else (set_task_status Expired t, Ok tt).

(** ** Receipts *)

Inductive ReceiptStatus : Type := RPending | Paid | Revoked (reason : bytes).

#[export] Instance ReceiptStatus_eq_dec : EqDecision ReceiptStatus.
Proof. solve_decision. Defined.

Definition receipt_root_bytes (s : ReceiptStatus) : bytes :=
  match s with
  | RPending => [0]
  | Paid => [1]
  | Revoked reason => [2] ++ reason
  end.

Record ProofReceipt : Type := mkReceipt {
  r_task_id : Hash32;
  r_prover : Address;
  verified_epoch : Z;
  verification_hash : Hash32;
  reward_claimed : Z;
  r_status : ReceiptStatus;
}.

Definition new_receipt (id : Hash32) (prover : Address) (epoch : Z) (hash : Hash32) (claimed : Z)
    : ProofReceipt := mkReceipt id prover epoch hash claimed RPending.

Definition set_receipt_status (s : ReceiptStatus) (r : ProofReceipt) : ProofReceipt :=
  mkReceipt (r_task_id r) (r_prover r) (verified_epoch r) (verification_hash r)
    (reward_claimed r) s.

Definition validate_for_task (r : ProofReceipt) (t : ProofTask) : result unit MarketError :=
  let? _ := validate_shape t in
  if negb (bool_decide (r_task_id r = task_id t)) then Err ReceiptTaskMismatch
  else if bool_decide (r_prover r = zero32) then Err ReceiptProverZero
  else
    match t_status t with
    | Assigned prover assigned_at_epoch =>
        if negb (bool_decide (r_prover r = prover)) then Err ReceiptWrongProver
        else if (verified_epoch r <? assigned_at_epoch) || (deadline_epoch t <? verified_epoch r)
        then Err ReceiptOutsideWindow
        else if negb (nonzero_hash (verification_hash r)) then Err ReceiptHashZero
        else if (reward_claimed r =? 0) || (reward t <? reward_claimed r)
        then Err ReceiptRewardInvalid
        else Ok tt
    | _ => Err ReceiptNotAssigned
    end.

Definition mark_paid (r : ProofReceipt) : ProofReceipt * result unit MarketError :=
  if negb (bool_decide (r_status r = RPending)) then (r, Err ReceiptNotPending)
  else (set_receipt_status Paid r, Ok tt).

Definition revoke (r : ProofReceipt) (reason : bytes) : ProofReceipt * result unit MarketError :=
  if (zlen reason =? 0) || (256 <? zlen reason) then (r, Err RevokeReasonInvalid)
  else
    match r_status r with
    | Revoked _ => (r, Err AlreadyRevoked)
    | _ => (set_receipt_status (Revoked reason) r, Ok tt)
    end.

Definition is_payable (r : ProofReceipt) : bool := bool_decide (r_status r = RPending).
Definition is_paid (r : ProofReceipt) : bool :=
  match r_status r with Paid => true | _ => false end.

(** ** The market *)

Record ProofMarketState : Type := mkMarket {
  active_tasks : list ProofTask;
  pending_receipts : list ProofReceipt;
  total_rewards_paid : Z;
  total_tasks_completed : Z;
}.

Definition market_new : ProofMarketState := mkMarket [] [] 0 0.

Definition market_is_empty (m : ProofMarketState) : bool :=
  (zlen (active_tasks m) =? 0) && (zlen (pending_receipts m) =? 0) &&
  (total_rewards_paid m =? 0) && (total_tasks_completed m =? 0).

Definition with_tasks (ts : list ProofTask) (m : ProofMarketState) : ProofMarketState :=
  mkMarket ts (pending_receipts m) (total_rewards_paid m) (total_tasks_completed m).
Definition with_receipts (rs : list ProofReceipt) (m : ProofMarketState) : ProofMarketState :=
  mkMarket (active_tasks m) rs (total_rewards_paid m) (total_tasks_completed m).

Definition add_task (m : ProofMarketState) (t : ProofTask)
    : ProofMarketState * result unit MarketError :=
  match validate_shape t with
  | Err e => (m, Err e)
  | Ok _ =>
      if is_active t then
        if MAX_PROOF_MARKET_ACTIVE_TASKS <=? zlen (active_tasks m) then (m, Err ActiveLimit)
        else if existsb (fun e => bool_decide (task_id e = task_id t)) (active_tasks m)
        then (m, Err DuplicateTask)
        else (with_tasks (active_tasks m ++ [t]) m, Ok tt)
      else (m, Ok tt)
  end.

(** [iter().position(|t| t.task_id == task_id)] *)
Fixpoint position (id : Hash32) (ts : list ProofTask) : option nat :=
  match ts with
  | [] => None
  | t :: ts => if bool_decide (task_id t = id) then Some O else S <$> position id ts
  end.

Definition complete_task (m : ProofMarketState) (id : Hash32) (r : ProofReceipt)
    (verify_proof : ProofReceipt -> result unit MarketError)
    : ProofMarketState * result unit MarketError :=
  match idx ← position id (active_tasks m); t ← active_tasks m !! idx; Some (idx, t) with
  | None => (m, Err TaskNotFound)
  | Some (idx, t) =>
      match validate_for_task r t with
      | Err e => (m, Err e)
      | Ok _ =>
          match verify_proof r with
          | Err e => (m, Err e)
          | Ok _ =>
              if MAX_PROOF_MARKET_PENDING_RECEIPTS <=? zlen (pending_receipts m)
              then (m, Err ReceiptLimit)
              else
                match checked_add U64 (total_tasks_completed m) 1 with
                | None => (m, Err CompletedOverflow)
                | Some completed =>
                    match complete t with
                    | (_, Err e) => (m, Err e)
                    | (_, Ok _) =>
                        (mkMarket (delete idx (active_tasks m)) (pending_receipts m ++ [r])
                           (total_rewards_paid m) completed, Ok tt)
                    end
                end
          end
      end
  end.

(** [get_mut] is a place in the vector: the receipt is marked before the total
    is checked. *)
Definition pay_receipt (m : ProofMarketState) (receipt_idx : nat)
    : ProofMarketState * result Z MarketError :=
  match pending_receipts m !! receipt_idx with
  | None => (m, Err ReceiptIndex)
  | Some r =>
      let paid := reward_claimed r in
      match mark_paid r with
      | (_, Err e) => (m, Err e)
      | (r', Ok _) =>
          let m := with_receipts (<[receipt_idx := r']> (pending_receipts m)) m in
          match checked_add U64 (total_rewards_paid m) paid with
          | None => (m, Err PaidOverflow)
          | Some total =>
              (mkMarket (active_tasks m) (pending_receipts m) total (total_tasks_completed m),
               Ok paid)
          end
      end
  end.

Definition prune_expired (m : ProofMarketState) (current_epoch : Z) : Z * ProofMarketState :=
  let kept := filter (fun t => current_epoch <= deadline_epoch t \/ is_active t = false)
                (active_tasks m) in
  (zlen (active_tasks m) - zlen kept, with_tasks kept m).

Definition prune_paid_receipts (m : ProofMarketState) : Z * ProofMarketState :=
  let kept := filter (fun r => is_paid r = false) (pending_receipts m) in
  (zlen (pending_receipts m) - zlen kept, with_receipts kept m).

Definition enforce_max_sizes (m : ProofMarketState) (current_epoch : Z) : ProofMarketState :=
  let m :=
    if MAX_PROOF_MARKET_ACTIVE_TASKS <? zlen (active_tasks m) then
      with_tasks (filter (fun t => current_epoch <= deadline_epoch t) (active_tasks m)) m
    else m in
  if MAX_PROOF_MARKET_PENDING_RECEIPTS <? zlen (pending_receipts m) then
    let m := (prune_paid_receipts m).2 in
    if MAX_PROOF_MARKET_PENDING_RECEIPTS <? zlen (pending_receipts m) then
      let to_remove := zlen (pending_receipts m) - MAX_PROOF_MARKET_PENDING_RECEIPTS in
      with_receipts (drop (Z.to_nat to_remove) (pending_receipts m)) m
    else m
  else m.

Definition market_close_epoch (m : ProofMarketState) (current_epoch : Z)
    : (Z * Z) * ProofMarketState :=
  let '(expired, m) := prune_expired m current_epoch in
  let '(receipts_pruned, m) := prune_paid_receipts m in
  ((expired, receipts_pruned), enforce_max_sizes m current_epoch).

(** ** The state root *)

Definition task_root_fields (t : ProofTask) : list bytes :=
  [task_id t; creator t; u64_le (reward t); u64_le (deadline_epoch t); slash_condition_hash t;
   u64_le (min_prover_stake t); status_root_bytes (t_status t)].

Definition receipt_root_fields (r : ProofReceipt) : list bytes :=
  [r_task_id r; r_prover r; verification_hash r; u64_le (reward_claimed r);
   receipt_root_bytes (r_status r)].

Definition market_root_fields (m : ProofMarketState) : list bytes :=
  [ascii_bytes "BDLM_SETTLEMENT_PROOF_MARKET_STATE_V1"; u64_le (total_rewards_paid m);
   u64_le (total_tasks_completed m)] ++
  concat (map task_root_fields (active_tasks m)) ++
  concat (map receipt_root_fields (pending_receipts m)).

Definition market_root (m : ProofMarketState) : Hash32 := hash_fields_bytes (market_root_fields m).

End market.
End ProofMarket.
