(* ===== verification/ProofMarketFacts.v ===== *)
(** * Correctness of the proof market

    The market never pays out more than the rewards of the tasks that were
    completed; what a completion requires and does; the epoch sweep drops only
    expired tasks and paid receipts; the outcomes of a payment; and what the
    task identifier and the market root commit to. *)

From Stdlib Require Import ZArith Lia.
From stdpp Require Import base tactics strings numbers list.
From S2P Require Import Prelude Hashing ProofMarket.
Import Hashing ProofMarket.
Open Scope Z_scope.

Module ProofMarketFacts.

Section facts.
Context {H : FieldHash}.

(** ** Tasks by identifier *)

Lemma position_Some id ts idx :
  position id ts = Some idx ->
  exists pre t post, ts = pre ++ t :: post /\ length pre = idx /\ task_id t = id /\
    Forall (fun u => task_id u <> id) pre.
Proof.
  revert idx. induction ts as [|u ts IH]; intros idx E; simpl in E; [done|].
  destruct (bool_decide_reflect (task_id u = id)) as [Hid|Hid]; simplify_eq.
  - by exists [], u, ts.
  - apply fmap_Some in E as (i & E & ->). destruct (IH _ E) as (pre & t & post & -> & <- & Ht & Hpre).
    exists (u :: pre), t, post. split_and!; [done..|]. by constructor.
Qed.

Lemma position_app id pre t post :
  task_id t = id -> Forall (fun u => task_id u <> id) pre ->
  position id (pre ++ t :: post) = Some (length pre).
Proof.
  intros Ht. induction 1 as [|u pre Hu _ IH]; simpl.
  - by rewrite bool_decide_eq_true_2.
  - by rewrite bool_decide_eq_false_2, IH.
Qed.

(** ** Completion *)

(** What a receipt must satisfy to be accepted for a task. *)
Record acceptable (r : ProofReceipt) (t : ProofTask) : Prop := {
  acc_shape : validate_shape t = Ok tt;
  acc_id : r_task_id r = task_id t;
  acc_prover : r_prover r <> zero32;
  acc_assigned : exists e, t_status t = Assigned (r_prover r) e /\
                   e <= verified_epoch r <= deadline_epoch t;
  acc_hash : verification_hash r <> zero32;
  acc_reward : reward_claimed r <> 0 /\ reward_claimed r <= reward t;
}.

Lemma validate_for_task_Ok r t : validate_for_task r t = Ok tt <-> acceptable r t.
Proof.
  unfold validate_for_task, nonzero_hash. split.
  - intros E. destruct (validate_shape t) as [[]|] eqn:Es; [|done]. simpl in E.
    repeat case_match; simplify_eq; split_bool;
    repeat match goal with Hb : negb _ = false |- _ => apply negb_false_iff in Hb end;
    repeat match goal with
      | Hb : bool_decide _ = true |- _ => apply bool_decide_eq_true_1 in Hb
      | Hb : bool_decide _ = false |- _ => apply bool_decide_eq_false_1 in Hb
      | Hb : negb (bool_decide _) = true |- _ => apply negb_true_iff, bool_decide_eq_false_1 in Hb
    end; subst.
    split; try done; [|lia]. eexists. split; [done|lia].
  - intros [Hs Hi Hp (e & He & Hw) Hh [Hr1 Hr2]]. rewrite Hs. simpl.
    rewrite (bool_decide_eq_true_2 (r_task_id r = _)), (bool_decide_eq_false_2 (r_prover r = _)) by done.
    simpl. rewrite He, (bool_decide_eq_true_2 (r_prover r = _)), (bool_decide_eq_false_2 (_ = zero32)) by done.
    simpl. rewrite !(proj2 (Z.ltb_ge _ _)), (proj2 (Z.eqb_neq _ _)) by lia. done.
Qed.

Lemma complete_assigned t p e : t_status t = Assigned p e -> complete t = (set_task_status Completed t, Ok tt).
Proof. intros Ht. unfold complete. by rewrite Ht. Qed.

(** When [complete_task] is accepted, at the task between [pre] and [post]. *)
Record accepted (m : ProofMarketState) (id : Hash32) (r : ProofReceipt)
    (verify_proof : ProofReceipt -> result unit MarketError) (pre : list ProofTask) (t : ProofTask)
    (post : list ProofTask) : Prop := {
  ad_tasks : active_tasks m = pre ++ t :: post;
  ad_id : task_id t = id;
  ad_first : Forall (fun u => task_id u <> id) pre;
  ad_receipt : acceptable r t;
  ad_hook : verify_proof r = Ok tt;
  ad_room : zlen (pending_receipts m) < MAX_PROOF_MARKET_PENDING_RECEIPTS;
  ad_count : total_tasks_completed m + 1 < U64;
}.

Definition completed_market (m : ProofMarketState) (r : ProofReceipt) (rest : list ProofTask)
    : ProofMarketState :=
  mkMarket rest (pending_receipts m ++ [r]) (total_rewards_paid m) (total_tasks_completed m + 1).

Lemma complete_task_accepts m id r verify_proof pre t post :
  accepted m id r verify_proof pre t post ->
  complete_task m id r verify_proof = (completed_market m r (pre ++ post), Ok tt).
Proof.
  intros [Ets Hid Hpre Ha Hv Hroom Hcount]. unfold complete_task.
  rewrite Ets, position_app by done. simpl. rewrite list_lookup_middle by done. simpl.
  rewrite (proj2 (validate_for_task_Ok r t) Ha), Hv. rewrite (proj2 (Z.leb_gt _ _)) by lia.
  unfold checked_add. rewrite (proj2 (Z.ltb_lt _ _)) by lia.
  destruct Ha as [_ _ _ (e & He & _) _ _]. rewrite (complete_assigned t _ e He). by rewrite delete_middle.
Qed.

Lemma complete_task_Ok m id r verify_proof m' u :
  complete_task m id r verify_proof = (m', Ok u) ->
  exists pre t post, accepted m id r verify_proof pre t post.
Proof.
  unfold complete_task. intros Hc.
  destruct (position id (active_tasks m)) as [idx|] eqn:Ep; simpl in Hc; [|done].
  apply position_Some in Ep as (pre & t & post & Ets & <- & Hid & Hpre). exists pre, t, post.
  rewrite Ets, list_lookup_middle in Hc by done. simpl in Hc.
  destruct (validate_for_task r t) as [[]|] eqn:Ea; [|done]. apply validate_for_task_Ok in Ea.
  destruct (verify_proof r) as [[]|] eqn:Ev; [|done].
  destruct (Z.leb_spec MAX_PROOF_MARKET_PENDING_RECEIPTS (zlen (pending_receipts m))); [done|].
  destruct (checked_add _ _ _) eqn:Eadd; [|done]. apply checked_add_Some in Eadd as [_ Eadd]. by split.
Qed.

Lemma complete_task_Err m id r verify_proof m' e :
  complete_task m id r verify_proof = (m', Err e) -> m' = m.
Proof. unfold complete_task. intros Hc. repeat case_match; by simplify_eq. Qed.

(** Completing a task.  A completion is accepted exactly when the first
    task with that identifier is well formed and assigned to the prover of the
    receipt, the receipt is for it, inside its window, with a verification hash
    and a claim of at most the reward, the proof hook agrees, the receipt queue
    has room and the counter does not overflow; it then removes that task and no
    other, appends the receipt and counts one completion.  A refused completion
    changes nothing. *)
Theorem complete_task_exact (m m' : ProofMarketState) (id : Hash32) (r : ProofReceipt)
    (verify_proof : ProofReceipt -> result unit MarketError) (res : result unit MarketError)
    (Hc : complete_task m id r verify_proof = (m', res)) :
  (res = Ok tt <-> exists pre t post, accepted m id r verify_proof pre t post) /\
  (forall pre t post, accepted m id r verify_proof pre t post ->
     m' = mkMarket (pre ++ post) (pending_receipts m ++ [r]) (total_rewards_paid m)
            (total_tasks_completed m + 1)) /\
  (res <> Ok tt -> m' = m).
Proof.
  split_and!; [split| |].
  - intros ->. by eapply complete_task_Ok.
  - intros (pre & t & post & Ha). apply complete_task_accepts in Ha. rewrite Ha in Hc. by simplify_eq.
  - intros pre t post Ha. apply complete_task_accepts in Ha. rewrite Ha in Hc. by simplify_eq.
  - intros Hne. destruct res as [[]|e]; [done|]. by eapply complete_task_Err.
Qed.

(** ** Payment *)

(** Paying a receipt.  A payment is accepted exactly when the receipt is
    pending and the total does not overflow; it then returns the claim, adds it
    to the total and marks that receipt, so that it is refused from then on.
    The other refusals change nothing, except that when the total would overflow
    the receipt is marked as paid although nothing was paid. *)
Theorem pay_receipt_outcomes (m m' : ProofMarketState) (i : nat) (r : ProofReceipt)
    (res : result Z MarketError) (Hr : pending_receipts m !! i = Some r)
    (Hp : pay_receipt m i = (m', res)) :
  let marked := with_receipts (<[i := set_receipt_status Paid r]> (pending_receipts m)) m in
  (is_payable r = false -> res = Err ReceiptNotPending /\ m' = m) /\
  (is_payable r = true -> total_rewards_paid m + reward_claimed r < U64 ->
     res = Ok (reward_claimed r) /\
     m' = mkMarket (active_tasks m) (pending_receipts marked)
            (total_rewards_paid m + reward_claimed r) (total_tasks_completed m) /\
     pay_receipt m' i = (m', Err ReceiptNotPending)) /\
  (is_payable r = true -> U64 <= total_rewards_paid m + reward_claimed r ->
     res = Err PaidOverflow /\ m' = marked /\
     pay_receipt m' i = (m', Err ReceiptNotPending)).
Proof.
  intros marked. assert (Hlt : (i < length (pending_receipts m))%nat) by by eapply lookup_lt_Some.
  unfold pay_receipt in Hp. rewrite Hr in Hp. unfold mark_paid, is_payable in *.
  destruct (bool_decide (r_status r = RPending)) eqn:Es; simpl in Hp.
  - split_and!; [done|..]; intros _ Hb; unfold checked_add in Hp; simpl in Hp.
    + rewrite (proj2 (Z.ltb_lt _ _)) in Hp by lia. simplify_eq. split_and!; [done..|].
      unfold pay_receipt. simpl. by rewrite list_lookup_insert_eq.
    + rewrite (proj2 (Z.ltb_ge _ _)) in Hp by lia. simplify_eq. split_and!; [done..|].
      unfold pay_receipt. simpl. by rewrite list_lookup_insert_eq.
  - simplify_eq. by split_and!.
Qed.

(** ** The epoch sweep *)

(** Within its limits the sweep does exactly the two prunings. *)
Lemma enforce_small m e :
  zlen (active_tasks m) <= MAX_PROOF_MARKET_ACTIVE_TASKS ->
  zlen (pending_receipts m) <= MAX_PROOF_MARKET_PENDING_RECEIPTS -> enforce_max_sizes m e = m.
Proof. intros Ht Hr. unfold enforce_max_sizes. rewrite (proj2 (Z.ltb_ge _ _) Ht). by rewrite (proj2 (Z.ltb_ge _ _) Hr). Qed.

Lemma close_epoch_small m e :
  zlen (active_tasks m) <= MAX_PROOF_MARKET_ACTIVE_TASKS ->
  zlen (pending_receipts m) <= MAX_PROOF_MARKET_PENDING_RECEIPTS ->
  (market_close_epoch m e).2 = (prune_paid_receipts (prune_expired m e).2).2.
Proof.
  intros Ht Hr. unfold market_close_epoch, enforce_max_sizes. simpl.
  assert (forall P `{!forall x, Decision (P x)}, (MAX_PROOF_MARKET_ACTIVE_TASKS <? zlen (filter P (active_tasks m))) = false) as ->
    by (intros P ?; apply Z.ltb_ge; pose proof (length_filter P (active_tasks m)); unfold zlen in *; lia).
  simpl.
  assert (forall P `{!forall x, Decision (P x)}, (MAX_PROOF_MARKET_PENDING_RECEIPTS <? zlen (filter P (pending_receipts m))) = false) as ->
    by (intros P ?; apply Z.ltb_ge; pose proof (length_filter P (pending_receipts m)); unfold zlen in *; lia).
  done.
Qed.

Lemma filter_implied {A} (P Q : A -> Prop) `{!forall x, Decision (P x), !forall x, Decision (Q x)}
    (l : list A) : (forall x, P x -> Q x) -> filter P (filter Q l) = filter P l.
Proof.
  intros HPQ. induction l as [|x l IH]; [done|]. rewrite !filter_cons.
  destruct (decide (Q x)) as [|Hn]; destruct (decide (P x)) as [|]; rewrite ?filter_cons, ?IH;
    repeat case_decide; naive_solver.
Qed.

Lemma enforce_tasks m e :
  active_tasks (enforce_max_sizes m e) = active_tasks m \/
  active_tasks (enforce_max_sizes m e) = filter (fun t => e <= deadline_epoch t) (active_tasks m).
Proof. unfold enforce_max_sizes. repeat case_match; simpl; by auto. Qed.

(** the epoch sweep.  Whatever the size of the market, closing an epoch
    keeps every task whose deadline has not passed, in order; and within the
    limits of the market, with only active tasks in it, exactly those tasks and
    exactly the receipts not yet paid remain, the counters are unchanged and
    the two numbers returned are how many of each were dropped. *)
Theorem close_epoch_keeps_live (m : ProofMarketState) (e : Z) :
  let m' := (market_close_epoch m e).2 in
  let live := filter (fun t => e <= deadline_epoch t) (active_tasks m) in
  let unpaid := filter (fun r => is_paid r = false) (pending_receipts m) in
  filter (fun t => e <= deadline_epoch t) (active_tasks m') = live /\
  (zlen (active_tasks m) <= MAX_PROOF_MARKET_ACTIVE_TASKS ->
   zlen (pending_receipts m) <= MAX_PROOF_MARKET_PENDING_RECEIPTS ->
   Forall (fun t => is_active t = true) (active_tasks m) ->
   m' = mkMarket live unpaid (total_rewards_paid m) (total_tasks_completed m) /\
   (market_close_epoch m e).1 =
     (zlen (active_tasks m) - zlen live, zlen (pending_receipts m) - zlen unpaid)).
Proof.
  intros m' live unpaid. split.
  - unfold m', market_close_epoch. simpl.
    set (m1 := with_receipts _ _). destruct (enforce_tasks m1 e) as [->| ->]; simpl; unfold live;
      rewrite ?(filter_implied (fun t => e <= deadline_epoch t) (fun t => e <= deadline_epoch t)) by done;
      apply filter_implied; naive_solver.
  - intros Ht Hr Hact. unfold m'.
    assert (Hf : filter (fun t => e <= deadline_epoch t \/ is_active t = false) (active_tasks m) = live).
    { unfold live. clear -Hact. induction Hact as [|t l Ht _ IH]; [done|]. rewrite !filter_cons, IH.
      repeat case_decide; intuition congruence. }
    rewrite close_epoch_small by done. unfold market_close_epoch. simpl. by rewrite Hf.
Qed.

(** ** Sequences of operations *)

(** The operations of a market: all its methods that change it, and all those of
    the tasks and receipts it holds, which are reached through its public
    vectors. *)
Inductive MarketOp : Type :=
| AddTask (t : ProofTask)
| AssignAt (i : nat) (prover : Address) (prover_stake current_epoch : Z)
| Complete (id : Hash32) (r : ProofReceipt) (verify_proof : ProofReceipt -> result unit MarketError)
| PayAt (i : nat)
| RevokeAt (i : nat) (reason : bytes)
| CloseEpoch (current_epoch : Z)
| CompleteAt (i : nat)
| ExpireAt (i : nat)
| MarkPaidAt (i : nat)
| PruneExpired (current_epoch : Z)
| PrunePaid
| EnforceSizes (current_epoch : Z).

(** Claims are [u64]. *)
Definition op_wf (op : MarketOp) : Prop :=
  match op with Complete _ r _ => 0 <= reward_claimed r | _ => True end.

(** The next market, the reward of a task completed by the operation, and what
    the operation paid. *)
Definition market_op (m : ProofMarketState) (op : MarketOp) : ProofMarketState * Z * Z :=
  match op with
  | AddTask t => ((add_task m t).1, 0, 0)
  | AssignAt i prover stake epoch =>
      (with_tasks (alter (fun t => (assign t prover stake epoch).1) i (active_tasks m)) m, 0, 0)
  | Complete id r verify_proof =>
      match complete_task m id r verify_proof with
      | (m', Ok _) =>
          (m', default 0 (idx ← position id (active_tasks m); reward <$> active_tasks m !! idx), 0)
      | (m', Err _) => (m', 0, 0)
      end
  | PayAt i =>
      match pay_receipt m i with
      | (m', Ok paid) => (m', 0, paid)
      | (m', Err _) => (m', 0, 0)
      end
  | RevokeAt i reason =>
      (with_receipts (alter (fun r => (revoke r reason).1) i (pending_receipts m)) m, 0, 0)
  | CloseEpoch epoch => ((market_close_epoch m epoch).2, 0, 0)
  | CompleteAt i => (with_tasks (alter (fun t => (complete t).1) i (active_tasks m)) m, 0, 0)
  | ExpireAt i => (with_tasks (alter (fun t => (expire t).1) i (active_tasks m)) m, 0, 0)
  | MarkPaidAt i => (with_receipts (alter (fun r => (mark_paid r).1) i (pending_receipts m)) m, 0, 0)
  | PruneExpired epoch => ((prune_expired m epoch).2, 0, 0)
  | PrunePaid => ((prune_paid_receipts m).2, 0, 0)
  | EnforceSizes epoch => (enforce_max_sizes m epoch, 0, 0)
  end.

Fixpoint market_run (ops : list MarketOp) (m : ProofMarketState) (earned paid : Z)
    : ProofMarketState * Z * Z :=
  match ops with
  | [] => (m, earned, paid)
  | op :: ops =>
      let '(m, e, p) := market_op m op in market_run ops m (earned + e) (paid + p)
  end.

(** What the pending receipts may still be paid. *)
Definition claim_of (r : ProofReceipt) : Z := if is_payable r then reward_claimed r else 0.
Definition outstanding (m : ProofMarketState) : Z := lsum claim_of (pending_receipts m).

Definition task_ok (t : ProofTask) : Prop := validate_shape t = Ok tt.

Record market_inv (m : ProofMarketState) (earned paid : Z) : Prop := {
  mi_tasks : Forall task_ok (active_tasks m);
  mi_ids : NoDup (task_id <$> active_tasks m);
  mi_task_limit : zlen (active_tasks m) <= MAX_PROOF_MARKET_ACTIVE_TASKS;
  mi_receipt_limit : zlen (pending_receipts m) <= MAX_PROOF_MARKET_PENDING_RECEIPTS;
  mi_claims : Forall (fun r => 0 <= reward_claimed r) (pending_receipts m);
  mi_paid : total_rewards_paid m = paid;
  mi_solvent : paid + outstanding m <= earned;
}.

Lemma claim_range r : 0 <= reward_claimed r -> 0 <= claim_of r <= reward_claimed r.
Proof. unfold claim_of. case_match; lia. Qed.

(** Replacing one receipt by one that may be paid no more. *)
Lemma outstanding_insert i r r' rs :
  rs !! i = Some r -> lsum claim_of (<[i := r']> rs) = lsum claim_of rs - claim_of r + claim_of r'.
Proof.
  revert i. induction rs as [|x rs IH]; intros [|i] Hi; simplify_eq/=; [lia|]. rewrite (IH i Hi). lia.
Qed.

(** Removing receipts. *)
Lemma outstanding_sublist rs rs' :
  Forall (fun r => 0 <= reward_claimed r) rs -> sublist rs' rs ->
  lsum claim_of rs' <= lsum claim_of rs /\ Forall (fun r => 0 <= reward_claimed r) rs' /\
  zlen rs' <= zlen rs.
Proof.
  intros Hf Hs. induction Hs as [|x l1 l2 Hs IH|x l1 l2 Hs IH]; simpl; [done|..];
    apply Forall_cons in Hf as [Hx Hf]; destruct (IH Hf) as (H1 & H2 & H3); rewrite ?zlen_cons;
    pose proof (claim_range x Hx); split_and!; try lia; [by constructor|done].
Qed.

Lemma set_status_shape t s : validate_shape (set_task_status s t) = validate_shape t.
Proof. done. Qed.

(** What the methods of a task keep. *)
Definition keeps_task (f : ProofTask -> ProofTask) : Prop :=
  forall t, (task_ok t -> task_ok (f t)) /\ task_id (f t) = task_id t.

Lemma assign_keeps prover stake epoch : keeps_task (fun t => (assign t prover stake epoch).1).
Proof. intros t. unfold assign. repeat case_match; split; first [intros Hok; exact Hok|reflexivity]. Qed.
Lemma complete_keeps : keeps_task (fun t => (complete t).1).
Proof. intros t. unfold complete. repeat case_match; split; first [intros Hok; exact Hok|reflexivity]. Qed.
Lemma expire_keeps : keeps_task (fun t => (expire t).1).
Proof. intros t. unfold expire. repeat case_match; split; first [intros Hok; exact Hok|reflexivity]. Qed.

Lemma inv_add_task m t earned paid :
  market_inv m earned paid -> market_inv (add_task m t).1 earned paid.
Proof.
  intros [Ht Hn Hl Hr Hc Hp Hs]. unfold add_task. destruct (validate_shape t) as [[]|] eqn:Ev; [|done].
  destruct (is_active t) eqn:Ea; [|done].
  destruct (Z.leb_spec MAX_PROOF_MARKET_ACTIVE_TASKS (zlen (active_tasks m))); [done|].
  destruct (existsb _ _) eqn:Ex; [done|]. split; simpl; try done.
  - apply Forall_app. split; [done|]. by repeat constructor.
  - rewrite fmap_app. apply NoDup_app. split_and!; [done| |apply NoDup_singleton].
    intros id Hin Hid. apply list_elem_of_singleton in Hid as ->.
    apply list_elem_of_fmap in Hin as (u & Eu & Hu). apply not_true_iff_false in Ex. apply Ex, existsb_exists.
    exists u. split; [by apply list_elem_of_In|]. by apply bool_decide_eq_true_2.
  - rewrite zlen_app. change (zlen [t]) with 1. lia.
Qed.

Lemma fmap_alter_same {A B} (g : A -> B) (f : A -> A) i (l : list A) :
  Forall (fun x => g (f x) = g x) l -> g <$> alter f i l = g <$> l.
Proof.
  intros Hl. revert i. induction Hl as [|x l Hx Hl IH]; intros [|i]; csimpl; [done..|by rewrite Hx|].
  f_equal. apply IH.
Qed.

Lemma inv_alter_task m i f earned paid : keeps_task f ->
  market_inv m earned paid -> market_inv (with_tasks (alter f i (active_tasks m)) m) earned paid.
Proof.
  intros Hf [Ht Hn Hl Hr Hc Hp Hs]. split; simpl; try done.
  - apply Forall_alter; [done|]. intros t _ Hok. by apply Hf.
  - rewrite fmap_alter_same; [done|]. apply Forall_forall. intros t _. apply Hf.
  - unfold zlen in *. by rewrite length_alter.
Qed.

Lemma inv_complete m id r verify_proof m' earned paid pre t post :
  market_inv m earned paid -> 0 <= reward_claimed r -> accepted m id r verify_proof pre t post ->
  m' = completed_market m r (pre ++ post) -> market_inv m' (earned + reward t) paid.
Proof.
  intros [Ht Hn Hl Hr Hc Hp Hs] Hclaim [Ets _ _ Ha _ Hroom _] ->.
  rewrite Ets in *. apply Forall_app in Ht as [Hpre [_ Hpost]%Forall_cons].
  pose proof (claim_range r Hclaim). destruct Ha as [_ _ _ _ _ [_ Hle]].
  split; simpl; try done.
  - by apply Forall_app.
  - rewrite fmap_app in *. csimpl in Hn.
    apply (sublist_NoDup _ _ Hn). apply sublist_app; [done|]. by apply sublist_cons.
  - rewrite zlen_app, ?zlen_cons in *. lia.
  - rewrite zlen_app. change (zlen [r]) with 1. lia.
  - apply Forall_app. split; [done|]. by constructor.
  - unfold outstanding in *. simpl. rewrite lsum_app. simpl. lia.
Qed.

Lemma inv_receipts m rs earned paid :
  market_inv m earned paid -> sublist rs (pending_receipts m) ->
  market_inv (with_receipts rs m) earned paid.
Proof.
  intros [Ht Hn Hl Hr Hc Hp Hs] Hsub. destruct (outstanding_sublist _ _ Hc Hsub) as (H1 & H2 & H3).
  split; simpl; try done; unfold outstanding in *; simpl; lia.
Qed.

Lemma Forall_sublist {A} (P : A -> Prop) (k l : list A) : sublist k l -> Forall P l -> Forall P k.
Proof. induction 1; rewrite ?Forall_cons; naive_solver. Qed.

Lemma sublist_fmap {A B} (g : A -> B) (k l : list A) : sublist k l -> sublist (g <$> k) (g <$> l).
Proof. induction 1; csimpl; by constructor. Qed.

Lemma inv_tasks m ts earned paid :
  market_inv m earned paid -> sublist ts (active_tasks m) ->
  market_inv (with_tasks ts m) earned paid.
Proof.
  intros [Ht Hn Hl Hr Hc Hp Hs] Hsub. split; simpl; try done.
  - by eapply Forall_sublist.
  - eapply sublist_NoDup; [exact Hn|by apply sublist_fmap].
  - apply sublist_length in Hsub. unfold zlen in *. lia.
Qed.

Lemma inv_prune_expired m epoch earned paid :
  market_inv m earned paid -> market_inv (prune_expired m epoch).2 earned paid.
Proof. intros Hi. apply inv_tasks; [done|apply sublist_filter]. Qed.

Lemma inv_prune_paid m earned paid : market_inv m earned paid -> market_inv (prune_paid_receipts m).2 earned paid.
Proof. intros Hi. apply inv_receipts; [done|apply sublist_filter]. Qed.

Lemma inv_close m epoch earned paid :
  market_inv m earned paid -> market_inv (market_close_epoch m epoch).2 earned paid.
Proof.
  intros Hi. rewrite close_epoch_small by apply Hi. by apply inv_prune_paid, inv_prune_expired.
Qed.

(** Marking a receipt so that it can be paid no more. *)
Lemma inv_mark m i r s earned paid delta :
  market_inv m earned paid -> pending_receipts m !! i = Some r -> s <> RPending ->
  0 <= delta <= claim_of r ->
  market_inv (mkMarket (active_tasks m) (<[i := set_receipt_status s r]> (pending_receipts m))
    (total_rewards_paid m + delta) (total_tasks_completed m)) earned (paid + delta).
Proof.
  intros [Ht Hn Hl Hr Hc Hp Hs] Hi Hne Hd.
  assert (Hz : claim_of (set_receipt_status s r) = 0)
    by (unfold claim_of, is_payable; simpl; by rewrite bool_decide_eq_false_2).
  split; simpl; try done; try lia.
  - unfold zlen in *. by rewrite length_insert.
  - apply Forall_insert; [done|]. simpl. rewrite Forall_forall in Hc. apply Hc. by eapply list_elem_of_lookup_2.
  - unfold outstanding in *. simpl. rewrite (outstanding_insert _ _ _ _ Hi), Hz. lia.
Qed.

Lemma inv_pay m i earned paid :
  market_inv m earned paid ->
  let '(m', _, dp) := market_op m (PayAt i) in market_inv m' earned (paid + dp).
Proof.
  intros Hi. simpl. unfold pay_receipt.
  destruct (pending_receipts m !! i) as [r|] eqn:Er; [|by rewrite Z.add_0_r].
  unfold mark_paid. destruct (bool_decide_reflect (r_status r = RPending)) as [Hst|]; simpl; [|by rewrite Z.add_0_r].
  assert (Hcl : claim_of r = reward_claimed r)
    by (unfold claim_of, is_payable; by rewrite bool_decide_eq_true_2).
  assert (0 <= reward_claimed r).
  { pose proof (mi_claims _ _ _ Hi) as Hc. rewrite Forall_forall in Hc. apply Hc. by eapply list_elem_of_lookup_2. }
  destruct (checked_add _ _ _) as [total|] eqn:Ea; simpl.
  - apply checked_add_Some in Ea as [-> _]. apply (inv_mark m i r Paid); [done..|lia].
  - unfold with_receipts. replace (total_rewards_paid m) with (total_rewards_paid m + 0) by lia.
    apply (inv_mark m i r Paid); [done..|lia].
Qed.

Lemma alter_eq_insert {A} (f : A -> A) i (l : list A) :
  alter f i l = match l !! i with Some x => <[i := f x]> l | None => l end.
Proof.
  revert i. induction l as [|x l IH]; intros [|i]; csimpl; [done..|].
  change (alter f (S i) (x :: l)) with (x :: alter f i l). rewrite IH. by destruct (l !! i).
Qed.

(** A method of a receipt that leaves it, or takes it out of the payable ones. *)
Lemma inv_alter_receipt m i f earned paid :
  (forall r, f r = r \/ exists s, s <> RPending /\ f r = set_receipt_status s r) ->
  market_inv m earned paid -> market_inv (with_receipts (alter f i (pending_receipts m)) m) earned paid.
Proof.
  intros Hf Hi. rewrite alter_eq_insert. destruct (pending_receipts m !! i) as [r|] eqn:Er; [|by destruct m].
  destruct (Hf r) as [->|(s & Hs & ->)]; [rewrite list_insert_id by done; by destruct m|].
  assert (0 <= reward_claimed r).
  { pose proof (mi_claims _ _ _ Hi) as Hc. rewrite Forall_forall in Hc. apply Hc. by eapply list_elem_of_lookup_2. }
  pose proof (claim_range r ltac:(done)).
  pose proof (inv_mark m i r s earned paid 0 Hi Er Hs ltac:(lia)) as Hm. by rewrite !Z.add_0_r in Hm.
Qed.

Lemma revoke_cases reason r : (revoke r reason).1 = r \/ exists s, s <> RPending /\ (revoke r reason).1 = set_receipt_status s r.
Proof. unfold revoke. repeat case_match; cbn; try (by left); right; by exists (Revoked reason). Qed.
Lemma mark_paid_cases r : (mark_paid r).1 = r \/ exists s, s <> RPending /\ (mark_paid r).1 = set_receipt_status s r.
Proof. unfold mark_paid. case_match; cbn; [by left|right; by exists Paid]. Qed.

Lemma market_op_inv m op earned paid :
  market_inv m earned paid -> op_wf op ->
  let '(m', de, dp) := market_op m op in market_inv m' (earned + de) (paid + dp).
Proof.
  intros Hi Hop. destruct op as [t|i prover stake epoch|id r v|i|i reason|epoch|i|i|i|epoch| |epoch]; simpl; rewrite ?Z.add_0_r.
  - by apply inv_add_task.
  - apply inv_alter_task; [apply assign_keeps|done].
  - destruct (complete_task m id r v) as [m' [[]|e]] eqn:Ec; rewrite ?Z.add_0_r.
    + pose proof Ec as Ha. apply complete_task_Ok in Ha as (pre & t & post & Ha).
      rewrite (complete_task_accepts _ _ _ _ _ _ _ Ha) in Ec. injection Ec as <-.
      pose proof Ha as [Ets Hid Hpre _ _ _ _]. rewrite Ets, position_app by done. simpl.
      rewrite list_lookup_middle by done. simpl. by eapply inv_complete.
    + by apply complete_task_Err in Ec as ->.
  - pose proof (inv_pay m i earned paid Hi) as Hp. simpl in Hp. destruct (pay_receipt m i) as [m' [x|e]];
      by rewrite ?Z.add_0_r in *.
  - apply inv_alter_receipt; [apply revoke_cases|done].
  - by apply inv_close.
  - apply inv_alter_task; [apply complete_keeps|done].
  - apply inv_alter_task; [apply expire_keeps|done].
  - apply inv_alter_receipt; [apply mark_paid_cases|done].
  - by apply inv_prune_expired.
  - by apply inv_prune_paid.
  - by rewrite enforce_small by apply Hi.
Qed.

Lemma market_run_inv ops m earned paid :
  market_inv m earned paid -> Forall op_wf ops ->
  let '(m', earned', paid') := market_run ops m earned paid in market_inv m' earned' paid'.
Proof.
  intros Hi Hops. revert m earned paid Hi. induction Hops as [|op ops Hop Hops IH]; intros m earned paid Hi; [done|].
  cbn [market_run]. pose proof (market_op_inv m op earned paid Hi Hop) as Hstep.
  destruct (market_op m op) as [[m1 de] dp]. by apply IH.
Qed.

(** C38: the market is solvent.  After any sequence of operations on a new
    market, what was paid is what the market records as paid, and together with
    everything the waiting receipts could still be paid it is at most the sum of
    the rewards of the tasks completed by a receipt; the market holds at most
    one task per identifier and only well-formed ones, and both its vectors stay
    within their limits, swept or not. *)
Theorem market_solvent (ops : list MarketOp) (Hops : Forall op_wf ops) :
  let '(m, earned, paid) := market_run ops market_new 0 0 in
  total_rewards_paid m = paid /\ 0 <= outstanding m /\ paid + outstanding m <= earned /\
  NoDup (task_id <$> active_tasks m) /\ Forall task_ok (active_tasks m) /\
  zlen (active_tasks m) <= MAX_PROOF_MARKET_ACTIVE_TASKS /\
  zlen (pending_receipts m) <= MAX_PROOF_MARKET_PENDING_RECEIPTS.
Proof.
  assert (Hnew : market_inv market_new 0 0) by (by repeat constructor).
  pose proof (market_run_inv ops _ _ _ Hnew Hops) as Hi.
  destruct (market_run ops market_new 0 0) as [[m earned] paid]. destruct Hi as [Ht Hn Hl Hr Hc Hp Hs].
  split_and!; try done. apply lsum_nonneg. eapply Forall_impl; [exact Hc|]. intros r Hx. by apply claim_range.
Qed.

(** ** What identifiers and roots commit to *)

(** The ranges of the Rust types. *)
Definition kind_wf (k : ProofTaskKind) : Prop :=
  match k with
  | DomainCommitment d h s => d ∈u U32 /\ h ∈u U64 /\ s ∈u U64
  | ZkProof c p => length c = 32%nat /\ length p = 32%nat
  | SyncCommitteeSig d e => d ∈u U32 /\ e ∈u U64
  | StorageAttestation d e => length d = 32%nat /\ e ∈u U64
  end.

Definition status_wf (s : ProofTaskStatus) : Prop :=
  match s with Assigned p e => length p = 32%nat /\ e ∈u U64 | _ => True end.

Record task_wf (t : ProofTask) : Prop := {
  tw_kind : kind_wf (kind t);
  tw_created : created_epoch t ∈u U64;
  tw_deadline : deadline_epoch t ∈u U64;
  tw_status : status_wf (t_status t);
  tw_reward : reward t ∈u U64;
  tw_stake : min_prover_stake t ∈u U64;
}.

Record receipt_wf (r : ProofReceipt) : Prop := {
  rw_hash : length (verification_hash r) = 32%nat;
  rw_claim : reward_claimed r ∈u U64;
}.

(** Everything of a task but its difficulty. *)
Definition same_terms (t u : ProofTask) : Prop :=
  kind t = kind u /\ creator t = creator u /\ created_epoch t = created_epoch u /\
  deadline_epoch t = deadline_epoch u /\ reward t = reward u /\
  slash_condition_hash t = slash_condition_hash u /\ min_prover_stake t = min_prover_stake u.

(** Everything of a receipt but the epoch it was verified at. *)
Definition same_receipt (r q : ProofReceipt) : Prop :=
  r_task_id r = r_task_id q /\ r_prover r = r_prover q /\
  verification_hash r = verification_hash q /\ reward_claimed r = reward_claimed q /\
  r_status r = r_status q.

Lemma canonical_bytes_inj k l : kind_wf k -> kind_wf l -> canonical_bytes k = canonical_bytes l -> k = l.
Proof.
  destruct k, l; cbn [canonical_bytes kind_wf kind_tag]; intros Hk Hl E; try done;
    apply (f_equal (@tail Z)) in E; cbn [tail] in E; destruct_and?;
    apply app_inj_1 in E as [E1 E2]; rewrite ?u32_le_length; try congruence;
    repeat match goal with
    | E : u64_le _ ++ _ = u64_le _ ++ _ |- _ => apply u64_le_split in E as [? E]; [|done|done]
    | E : u64_le _ = u64_le _ |- _ => apply u64_le_inj in E; [|done|done]
    | E : u32_le _ = u32_le _ |- _ => apply u32_le_inj in E; [|done|done]
    end; congruence.
Qed.

Lemma status_bytes_inj s s' : status_wf s -> status_wf s' -> status_root_bytes s = status_root_bytes s' -> s = s'.
Proof.
  destruct s, s'; simpl; intros Hs Hs' E; simplify_eq; try done. destruct_and?.
  apply app_inj_1 in E as [-> E]; [|congruence]. by apply u64_le_inj in E as ->.
Qed.

Lemma receipt_bytes_inj s s' : receipt_root_bytes s = receipt_root_bytes s' -> s = s'.
Proof. by destruct s, s'; simpl; intros E; simplify_eq. Qed.

Lemma task_id_inj `{!CollisionFree H} t u :
  task_wf t -> task_wf u -> verify_task_id t = true -> verify_task_id u = true ->
  task_id t = task_id u -> same_terms t u.
Proof.
  intros [] [] Ht%bool_decide_eq_true_1 Hu%bool_decide_eq_true_1 Hid. rewrite Ht, Hu in Hid.
  unfold compute_task_id in Hid. apply hash_fields_inj in Hid. unfold task_fields in Hid. split_fields Hid.
  unfold same_terms. split_and!; first [done | by apply canonical_bytes_inj | by apply u64_le_inj].
Qed.

Lemma receipts_inj rs qs :
  Forall receipt_wf rs -> Forall receipt_wf qs ->
  concat (map receipt_root_fields rs) = concat (map receipt_root_fields qs) -> Forall2 same_receipt rs qs.
Proof.
  intros Hr. revert qs. induction Hr as [|r rs [Hh Hc] _ IH]; intros [|q qs] Hq E; try done.
  apply Forall_cons in Hq as [[] Hq]. cbn [map concat app receipt_root_fields] in E. split_fields E.
  constructor; [|by apply IH]. unfold same_receipt.
  split_and!; first [done | by apply receipt_bytes_inj | by apply u64_le_inj].
Qed.

(** The fields of tasks and receipts cannot be mistaken for each other: the
    third field of a task is 8 bytes long and that of a receipt 32. *)
Lemma root_fields_inj ts us rs qs :
  Forall task_wf ts -> Forall task_wf us -> Forall receipt_wf rs -> Forall receipt_wf qs ->
  concat (map task_root_fields ts) ++ concat (map receipt_root_fields rs) =
  concat (map task_root_fields us) ++ concat (map receipt_root_fields qs) ->
  Forall2 (fun t u => task_id t = task_id u /\ t_status t = t_status u) ts us /\ Forall2 same_receipt rs qs.
Proof.
  intros Ht Hu Hr Hq. revert us Hu. induction Ht as [|t ts [] _ IH]; intros [|u us] Hu E.
  - split; [done|]. by apply receipts_inj.
  - exfalso. destruct Hr as [|r rs [] _]; [done|].
    cbn [map concat app task_root_fields receipt_root_fields] in E. split_fields E.
    apply (f_equal length) in F1. rewrite u64_le_length in F1. lia.
  - exfalso. destruct Hq as [|q qs [] _]; [done|].
    cbn [map concat app task_root_fields receipt_root_fields] in E. split_fields E.
    apply (f_equal length) in F1. rewrite u64_le_length in F1. lia.
  - apply Forall_cons in Hu as [[] Hu]. cbn [map concat app task_root_fields] in E. split_fields E.
    destruct (IH us Hu E). split; [|done]. constructor; [|done]. split; [done|]. by apply status_bytes_inj.
Qed.

(** What the market root commits to.  With a collision-free hash, two
    markets with the same root and valid task identifiers have the same totals,
    the same tasks in the same order, with the same terms and states, and the
    same receipts in the same order, with the same claims and states. *)
Theorem market_root_binds `{!CollisionFree H} (m m' : ProofMarketState)
    (Ht : Forall (fun t => task_wf t /\ verify_task_id t = true) (active_tasks m))
    (Ht' : Forall (fun t => task_wf t /\ verify_task_id t = true) (active_tasks m'))
    (Hr : Forall receipt_wf (pending_receipts m)) (Hr' : Forall receipt_wf (pending_receipts m'))
    (Hn : total_rewards_paid m ∈u U64 /\ total_tasks_completed m ∈u U64)
    (Hn' : total_rewards_paid m' ∈u U64 /\ total_tasks_completed m' ∈u U64)
    (Hroot : market_root m = market_root m') :
  total_rewards_paid m = total_rewards_paid m' /\ total_tasks_completed m = total_tasks_completed m' /\
  Forall2 (fun t u => task_id t = task_id u /\ same_terms t u /\ t_status t = t_status u)
    (active_tasks m) (active_tasks m') /\
  Forall2 same_receipt (pending_receipts m) (pending_receipts m').
Proof.
  unfold market_root in Hroot. apply hash_fields_inj in Hroot. unfold market_root_fields in Hroot. cbn [app] in Hroot. split_fields Hroot.
  destruct Hn, Hn'. apply root_fields_inj in Hroot as [E1 E2]; [|by eapply Forall_impl; [eassumption|]; intros ? []..|done|done].
  split_and!; try done; [by apply u64_le_inj..|]. clear -E1 Ht Ht' CollisionFree0.
  induction E1 as [|t u ts us [Hid Hs] E1 IH]; constructor.
  - apply Forall_cons in Ht as [[] _], Ht' as [[] _]. split_and!; [done| |done]. by apply task_id_inj.
  - apply Forall_cons in Ht as [_ Ht], Ht' as [_ Ht']. by apply IH.
Qed.

End facts.

(** ** A concrete market *)

#[local] Instance demo_hash : FieldHash := framed_hash.
#[local] Instance demo_collision_free : CollisionFree demo_hash := framed_hash_inj.

Definition demo_task : ProofTask := new_task (DomainCommitment 1 5 0) [7] 10 20 500 [9] 100.
Definition demo_prover : Address := 3 :: replicate 31 0.
Definition demo_assigned : ProofTask := (assign demo_task demo_prover 100 12).1.
Definition demo_receipt : ProofReceipt := new_receipt (task_id demo_task) demo_prover 15 [4] 400.
Definition demo_ops : list MarketOp :=
  [AddTask demo_task; AssignAt 0 demo_prover 100 12;
   Complete (task_id demo_task) demo_receipt (fun _ => Ok tt); PayAt 0; PayAt 0; MarkPaidAt 0; CloseEpoch 13;
   AddTask demo_task; ExpireAt 0; CompleteAt 0; EnforceSizes 14].
Definition demo_market : ProofMarketState := mkMarket [demo_assigned] [] 0 0.

Lemma complete_task_exact_witness :
  exists pre t post,
    accepted demo_market (task_id demo_task) demo_receipt (fun _ => Ok tt) pre t post.
Proof.
  apply (complete_task_exact demo_market
           (complete_task demo_market (task_id demo_task) demo_receipt (fun _ => Ok tt)).1
           (task_id demo_task) demo_receipt (fun _ => Ok tt) (Ok tt)); [|reflexivity].
  vm_compute. reflexivity.
Defined.

Lemma pay_receipt_outcomes_witness :
  let m := mkMarket [] [demo_receipt] (U64 - 100) 1 in
  pay_receipt m 0 = (mkMarket [] [set_receipt_status Paid demo_receipt] (U64 - 100) 1, Err PaidOverflow).
Proof.
  intros m.
  destruct (proj2 (proj2 (pay_receipt_outcomes m (pay_receipt m 0).1 0 demo_receipt (pay_receipt m 0).2
    eq_refl (surjective_pairing _))) eq_refl ltac:(vm_compute; discriminate)) as (E1 & E2 & _).
  rewrite (surjective_pairing (pay_receipt m 0)), E1, E2. reflexivity.
Defined.

Lemma market_solvent_witness :
  (market_run demo_ops market_new 0 0).1.2 = 500 /\ (market_run demo_ops market_new 0 0).2 = 400 /\
  total_rewards_paid (market_run demo_ops market_new 0 0).1.1 = 400.
Proof.
  split; [vm_compute; reflexivity|]. split; [vm_compute; reflexivity|].
  pose proof (market_solvent demo_ops ltac:(repeat constructor; simpl; lia)) as Hs.
  assert (E : (market_run demo_ops market_new 0 0).2 = 400) by (vm_compute; reflexivity).
  destruct (market_run demo_ops market_new 0 0) as [[m earned] paid]. simpl in *. subst. exact (proj1 Hs).
Defined.

Lemma demo_assigned_wf : task_wf demo_assigned /\ verify_task_id demo_assigned = true.
Proof. split; [split|]; vm_compute; repeat split; done. Qed.

Lemma market_root_binds_witness :
  let m := mkMarket [demo_assigned] [] 400 1 in
  Forall2 (fun t u => task_id t = task_id u /\ same_terms t u /\ t_status t = t_status u)
    (active_tasks m) (active_tasks m).
Proof.
  intros m. assert (Ht : Forall (fun t => task_wf t /\ verify_task_id t = true) (active_tasks m)).
  { constructor; [apply demo_assigned_wf|constructor]. }
  assert (Hn : total_rewards_paid m ∈u U64 /\ total_tasks_completed m ∈u U64) by (vm_compute; done).
  apply (market_root_binds m m Ht Ht); [constructor|constructor|exact Hn|exact Hn|reflexivity].
Defined.

End ProofMarketFacts.
