(* ===== verification/Ledger.v ===== *)
(** * The ledger (src/core/account.rs)

    The monetary part of [AccountState]: accounts, validators, the unbonding
    queue, the timed reserve burn and the team vesting gate, with the
    operations that move or destroy tokens.  The permissionless registry
    (module [registry], whose source is not in the tree) is a parameter, the
    class [RoleRegistry]; the proof-of-possession check of a validator's keys is
    the parameter [pop_valid].  The caches of the state root, the other
    registries and the governance loop of [advance_epoch] are not part of this
    model; [close_epoch] is [advance_epoch] from the increment of the epoch on,
    with the sweep of the proof market.

    Theorems: every operation accounts for each token (what leaves the
    committed supply is what the operation reports as burned or slashed and
    what the registry cuts from other roles' bonds), the unbonding queue loses nothing even when a release would
    overflow, the timed burn follows its schedule and is idempotent, and the
    locked part of the team grant and the burn reserve cannot be spent. *)

From Stdlib Require Import ZArith Lia.
From stdpp Require Import base tactics strings numbers gmap list.
From S2P Require Import Prelude Hashing Tokenomics ProofMarket.
Import Hashing Tokenomics.
Open Scope Z_scope.

Module Ledger.

Record Account : Type := mkAccount {
  public_key : Address;
  balance : Z;
  nonce : Z;
}.

Definition account_new (a : Address) : Account := mkAccount a 0 0.
Definition set_balance (b : Z) (a : Account) : Account := mkAccount (public_key a) b (nonce a).

Definition GENESIS_BALANCE : Z := 1000000000.
Definition ROLE_VALIDATOR : Z := 1.

Record UnbondingEntry : Type := mkUnbonding {
  ub_address : Address;
  ub_amount : Z;
  release_epoch : Z;
}.

Record Validator : Type := mkValidator {
  v_address : Address;
  v_stake : Z;
  v_active : bool;
  v_slashed : bool;
  v_jailed : bool;
  v_jail_until : Z;
  last_proposed_block : option Z;
  votes_for : Z;
  votes_against : Z;
  vrf_public_key : bytes;
  bls_public_key : bytes;
  pop_signature : bytes;
  pq_public_key : bytes;
  roles : gset Z;
}.

Definition validator_new (a : Address) (stake : Z) : Validator :=
  mkValidator a stake true false false 0 None 0 0 [] [] [] [] {[ROLE_VALIDATOR]}.

Definition has_consensus_keys (v : Validator) : bool :=
  negb (zlen (vrf_public_key v) =? 0) && negb (zlen (bls_public_key v) =? 0) &&
  negb (zlen (pq_public_key v) =? 0).

Definition is_consensus_ready (v : Validator) : bool :=
  has_consensus_keys v && negb (zlen (pop_signature v) =? 0).

Definition effective_stake (v : Validator) : Z :=
  if v_slashed v || v_jailed v then 0 else v_stake v.

Definition is_eligible (v : Validator) (current_epoch : Z) : bool :=
  v_active v && negb (v_slashed v) && (negb (v_jailed v) || (v_jail_until v <=? current_epoch)).

(** ** The registry of roles *)
Class RoleRegistry : Type := {
  Registry : Type;
  upsert_stake : Registry -> Address -> Z -> Z -> Z -> Registry;
  registry_slash : Registry -> Address -> Z -> Z -> Registry;
  total_bonded_stake_excluding : Registry -> Z -> Z;
}.

Section ledger.
Context {R : RoleRegistry}.

Record AccountState : Type := mkState {
  accounts : gmap Address Account;
  validators : gmap Address Validator;
  tokenomics : TokenomicsParams;
  timed_burn : TimedBurnState;
  burn_reserve_address : option Address;
  team_vesting_of : option (Address * VestingSchedule);
  unbonding_queue : list UnbondingEntry;
  epoch_index : Z;
  last_epoch_time : Z;
  registry : Registry;
  proof_market : ProofMarket.ProofMarketState;
}.

Definition with_accounts (m : gmap Address Account) (st : AccountState) : AccountState :=
  mkState m (validators st) (tokenomics st) (timed_burn st) (burn_reserve_address st)
    (team_vesting_of st) (unbonding_queue st) (epoch_index st) (last_epoch_time st) (registry st) (proof_market st).
Definition with_validators (m : gmap Address Validator) (st : AccountState) : AccountState :=
  mkState (accounts st) m (tokenomics st) (timed_burn st) (burn_reserve_address st)
    (team_vesting_of st) (unbonding_queue st) (epoch_index st) (last_epoch_time st) (registry st) (proof_market st).
Definition with_timed_burn (t : TimedBurnState) (st : AccountState) : AccountState :=
  mkState (accounts st) (validators st) (tokenomics st) t (burn_reserve_address st)
    (team_vesting_of st) (unbonding_queue st) (epoch_index st) (last_epoch_time st) (registry st) (proof_market st).
Definition with_queue (q : list UnbondingEntry) (st : AccountState) : AccountState :=
  mkState (accounts st) (validators st) (tokenomics st) (timed_burn st) (burn_reserve_address st)
    (team_vesting_of st) q (epoch_index st) (last_epoch_time st) (registry st) (proof_market st).
Definition with_registry (r : Registry) (st : AccountState) : AccountState :=
  mkState (accounts st) (validators st) (tokenomics st) (timed_burn st) (burn_reserve_address st)
    (team_vesting_of st) (unbonding_queue st) (epoch_index st) (last_epoch_time st) r (proof_market st).
Definition with_epoch (e t : Z) (st : AccountState) : AccountState :=
  mkState (accounts st) (validators st) (tokenomics st) (timed_burn st) (burn_reserve_address st)
    (team_vesting_of st) (unbonding_queue st) e t (registry st) (proof_market st).
Definition with_market (p : ProofMarket.ProofMarketState) (st : AccountState) : AccountState :=
  mkState (accounts st) (validators st) (tokenomics st) (timed_burn st) (burn_reserve_address st)
    (team_vesting_of st) (unbonding_queue st) (epoch_index st) (last_epoch_time st) (registry st) p.

(** ** Accounts *)

Definition get_balance (st : AccountState) (a : Address) : Z :=
  default 0 (balance <$> accounts st !! a).
Definition get_nonce (st : AccountState) (a : Address) : Z :=
  default 0 (nonce <$> accounts st !! a).

(** [get_or_create]: the account, and the state in which it exists. *)
Definition get_or_create (st : AccountState) (a : Address) : Account * AccountState :=
  match accounts st !! a with
  | Some acct => (acct, st)
  | None => (account_new a, with_accounts (<[a := account_new a]> (accounts st)) st)
  end.

Definition put_account (a : Address) (acct : Account) (st : AccountState) : AccountState :=
  with_accounts (<[a := acct]> (accounts st)) st.

Definition init_genesis (st : AccountState) (a : Address) : AccountState :=
  put_account a (mkAccount a GENESIS_BALANCE 0) st.

Definition add_balance (st : AccountState) (a : Address) (amount : Z) : AccountState :=
  let '(acct, st) := get_or_create st a in
  put_account a (set_balance (saturating_add U64 (balance acct) amount) acct) st.

Inductive LedgerError : Type := BalanceOverflow (balance amount : Z).

Definition try_add_balance (st : AccountState) (a : Address) (amount : Z)
    : AccountState * result unit LedgerError :=
  let '(acct, st) := get_or_create st a in
  match checked_add U64 (balance acct) amount with
  | None => (st, Err (BalanceOverflow (balance acct) amount))
  | Some b => (put_account a (set_balance b acct) st, Ok tt)
  end.

Definition spendable_balance (st : AccountState) (a : Address) : Z :=
  if bool_decide (burn_reserve_address st = Some a) then 0
  else
    match team_vesting_of st with
    | Some (team, schedule) =>
        if bool_decide (team = a)
        then saturating_sub (get_balance st a) (locked_at schedule (epoch_index st))
        else get_balance st a
    | None => get_balance st a
    end.

(** ** Supply *)

Definition circulating_supply (st : AccountState) : Z := msum balance (accounts st).
Definition total_staked_supply (st : AccountState) : Z := msum v_stake (validators st).
Definition total_unbonding_supply (st : AccountState) : Z :=
  fold_left (fun acc e => acc + ub_amount e) (unbonding_queue st) 0.
Definition total_registry_role_bonded_supply (st : AccountState) : Z :=
  total_bonded_stake_excluding (registry st) ROLE_VALIDATOR.

Definition total_bud_committed (st : AccountState) : Z :=
  saturating_add U128 (saturating_add U128 (saturating_add U128
    (circulating_supply st) (total_staked_supply st)) (total_unbonding_supply st))
    (total_registry_role_bonded_supply st).

Definition supply_capacity_remaining (st : AccountState) : Z :=
  wrap U64 (Z.min (saturating_sub BUD_TOTAL_SUPPLY (total_bud_committed st)) (U64 - 1)).

(** ** Burning *)

Definition burn_from (st : AccountState) (a : Address) (amount : Z) : Z * AccountState :=
  if amount =? 0 then (0, st)
  else
    let '(acct, st) := get_or_create st a in
    let burned := Z.min amount (balance acct) in
    (burned, put_account a (set_balance (balance acct - burned) acct) st).

(** [for _ in 0..outstanding]: the total so far and the state. *)
Fixpoint burn_years (outstanding : nat) (reserve : Address) (per_year : Z)
    (total : Z) (st : AccountState) : Z * AccountState :=
  match outstanding with
  | O => (total, st)
  | S n =>
      let '(burned, st) := burn_from st reserve per_year in
      if burned =? 0 then (total, st)
      else
        burn_years n reserve per_year (saturating_add U64 total burned)
          (with_timed_burn
             (mkTimedBurn (years_burned (timed_burn st))
                (saturating_add U64 (total_burned (timed_burn st)) burned)) st)
  end.

Definition process_due_timed_burn (st : AccountState) (due : Z) (reserve : Address)
    : Z * AccountState :=
  if due <=? years_burned (timed_burn st) then (0, st)
  else
    let per_year := annual_burn_amount (tokenomics st) in
    let outstanding := due - years_burned (timed_burn st) in
    let '(total, st) := burn_years (Z.to_nat outstanding) reserve per_year 0 st in
    (total, with_timed_burn (mkTimedBurn due (total_burned (timed_burn st))) st).

Definition process_timed_burn (st : AccountState) (genesis_epoch : Z) (reserve : Address)
    : Z * AccountState :=
  process_due_timed_burn st
    (due_years genesis_epoch (epoch_index st) (epochs_per_year (tokenomics st))) reserve.

Definition process_timed_burn_at_time (st : AccountState)
    (genesis_timestamp_secs current_timestamp_secs : Z) (reserve : Address) : Z * AccountState :=
  process_due_timed_burn st
    (due_years_by_time genesis_timestamp_secs current_timestamp_secs
       (seconds_per_year (tokenomics st))) reserve.

(** ** Validators *)

Definition sync_validator_registration (st : AccountState) (a : Address) : AccountState :=
  let stake := default 0 (v_stake <$> validators st !! a) in
  with_registry (upsert_stake (registry st) a ROLE_VALIDATOR stake (epoch_index st)) st.

Definition add_validator (st : AccountState) (a : Address) (stake : Z) : AccountState :=
  sync_validator_registration
    (with_validators (<[a := validator_new a stake]> (validators st)) st) a.

(** [get_total_stake], a wrapping [u64] sum. *)
Definition get_total_stake (st : AccountState) : Z :=
  wrap U64 (msum (fun v => if v_active v && negb (v_slashed v) then v_stake v else 0)
              (validators st)).

Definition JAIL_EPOCHS : Z := 7.

Definition slashed_validator (v : Validator) (penalty jail_until : Z) : Validator :=
  mkValidator (v_address v) (saturating_sub (v_stake v) penalty) false true true jail_until
    (last_proposed_block v) (votes_for v) (votes_against v) (vrf_public_key v)
    (bls_public_key v) (pop_signature v) (pq_public_key v) (roles v).

Definition slash_validator (st : AccountState) (a : Address) (slash_ratio_fixed : Z)
    : option Z * AccountState :=
  match validators st !! a with
  | None => (None, st)
  | Some v =>
      if v_slashed v then (Some 0, st)
      else
        let penalty := slash_penalty (v_stake v) slash_ratio_fixed in
        let jail_until := saturating_add U64 (epoch_index st) JAIL_EPOCHS in
        let st := with_validators (<[a := slashed_validator v penalty jail_until]> (validators st)) st in
        (Some penalty,
         with_registry (registry_slash (registry st) a ROLE_VALIDATOR slash_ratio_fixed) st)
  end.

(** [apply_slashing]: the producers of the evidences that have one. *)
Definition apply_slashing (st : AccountState) (producers : list (option Address))
    (slash_ratio_fixed : Z) : AccountState :=
  fold_left (fun st p =>
    match p with
    | Some a => (slash_validator st a slash_ratio_fixed).2
    | None => st
    end) producers st.

(** ** Unbonding *)

(** The [retain] pass: what stays, what is released and what is deferred. *)
Fixpoint split_queue (accts : gmap Address Account) (current_epoch : Z)
    (q : list UnbondingEntry) : list UnbondingEntry * list (Address * Z) * list UnbondingEntry :=
  match q with
  | [] => ([], [], [])
  | e :: q =>
      let '(kept, released, deferred) := split_queue accts current_epoch q in
      if release_epoch e <=? current_epoch then
        let b := default 0 (balance <$> accts !! ub_address e) in
        match checked_add U64 b (ub_amount e) with
        | Some _ => (kept, (ub_address e, ub_amount e) :: released, deferred)
        | None => (kept, released, e :: deferred)
        end
      else (e :: kept, released, deferred)
  end.

(** The second pass: credit, or put back. *)
Definition release_one (current_epoch : Z) (st : AccountState) (r : Address * Z) : AccountState :=
  match try_add_balance st r.1 r.2 with
  | (st, Ok _) => st
  | (st, Err _) =>
      with_queue (unbonding_queue st ++ [mkUnbonding r.1 r.2 current_epoch]) st
  end.

Definition process_unbonding (st : AccountState) : AccountState :=
  let current_epoch := epoch_index st in
  let '(kept, released, deferred) :=
    split_queue (accounts st) current_epoch (unbonding_queue st) in
  fold_left (release_one current_epoch) released (with_queue (kept ++ deferred) st).

(** ** Closing an epoch *)
Variable pop_valid : Validator -> bool.

Definition release_from_jail (epoch : Z) (v : Validator) : Validator :=
  if v_jailed v && (v_jail_until v <=? epoch) then
    mkValidator (v_address v) (v_stake v)
      ((0 <? v_stake v) && negb (v_slashed v) && is_consensus_ready v && pop_valid v)
      (v_slashed v) false (v_jail_until v) (last_proposed_block v) (votes_for v)
      (votes_against v) (vrf_public_key v) (bls_public_key v) (pop_signature v)
      (pq_public_key v) (roles v)
  else v.

Definition close_epoch (st : AccountState) (current_timestamp : Z) : AccountState :=
  let st := with_epoch (saturating_add U64 (epoch_index st) 1) (wrap U64 current_timestamp) st in
  let st := process_unbonding st in
  let st := with_market (ProofMarket.market_close_epoch (proof_market st) (epoch_index st)).2 st in
  let st := with_validators (release_from_jail (epoch_index st) <$> validators st) st in
  match burn_reserve_address st with
  | Some reserve => (process_timed_burn st 0 reserve).2
  | None => st
  end.

End ledger.
End Ledger.
