(* ===== verification/LedgerFacts.v ===== *)
(** * Correctness of the ledger

    Accounting of every token through burns, slashes, unbonding and epoch
    closes; the schedule of the timed burn; the unbonding queue; and the spend
    gate of the vesting and reserve accounts. *)

From Stdlib Require Import ZArith Lia.
From stdpp Require Import base tactics strings numbers gmap list.
From S2P Require Import Prelude Hashing Tokenomics ProofMarket Ledger.
Import Hashing Tokenomics Ledger.
Open Scope Z_scope.

Module LedgerFacts.

(** What the registry promises.  The validator role mirrors the validators, and
    the total of the other roles does not count it; a slash takes from bonds and
    adds to none.  Whether the slash of a validator also cuts its bonds for
    other roles is left open. *)
Class RegistryLaws (R : RoleRegistry) : Prop := {
  bonded_slash_le : forall (r : Registry) a ratio, 0 <= ratio ->
    total_bonded_stake_excluding (registry_slash r a ROLE_VALIDATOR ratio) ROLE_VALIDATOR <=
    total_bonded_stake_excluding r ROLE_VALIDATOR;
  bonded_upsert_validator : forall (r : Registry) a stake epoch,
    total_bonded_stake_excluding (upsert_stake r a ROLE_VALIDATOR stake epoch) ROLE_VALIDATOR =
    total_bonded_stake_excluding r ROLE_VALIDATOR;
  bonded_nonneg : forall (r : Registry) role, 0 <= total_bonded_stake_excluding r role;
}.

Section facts.
Context {R : RoleRegistry}.

(** The committed supply without the [u128] saturation. *)
Definition committed (st : AccountState) : Z :=
  circulating_supply st + total_staked_supply st + total_unbonding_supply st +
  total_registry_role_bonded_supply st.

Record ledger_wf (st : AccountState) : Prop := {
  lw_balances : map_Forall (fun _ a => balance a ∈u U64) (accounts st);
  lw_stakes : map_Forall (fun _ v => v_stake v ∈u U64) (validators st);
  lw_queue : Forall (fun e => ub_amount e ∈u U64) (unbonding_queue st);
}.

Definition queued (a : Address) (q : list UnbondingEntry) : Z :=
  lsum (fun e => if decide (ub_address e = a) then ub_amount e else 0) q.

Lemma total_unbonding_lsum st :
  total_unbonding_supply st = lsum ub_amount (unbonding_queue st).
Proof. unfold total_unbonding_supply. by rewrite fold_left_lsum. Qed.

(** ** Balances *)

Lemma get_balance_range st a : ledger_wf st -> get_balance st a ∈u U64.
Proof.
  intros [Hb _ _]. unfold get_balance. destruct (accounts st !! a) eqn:E; simpl; [|lia].
  apply (Hb _ _ E).
Qed.

(** Writing a balance after [get_or_create]. *)
Definition write_balance (st : AccountState) (a : Address) (b : Z) : AccountState :=
  let '(acct, st) := get_or_create st a in put_account a (set_balance b acct) st.

Lemma write_balance_get st a b c :
  get_balance (write_balance st a b) c = if decide (c = a) then b else get_balance st c.
Proof.
  unfold write_balance, get_or_create, get_balance. destruct (accounts st !! a) eqn:E; simpl.
  - rewrite lookup_insert. case_decide; case_decide; simplify_eq; done.
  - rewrite insert_insert_eq, lookup_insert. case_decide; case_decide; simplify_eq; done.
Qed.

Lemma write_balance_circulating st a b :
  circulating_supply (write_balance st a b) = circulating_supply st - get_balance st a + b.
Proof.
  unfold write_balance, get_or_create, circulating_supply, get_balance.
  destruct (accounts st !! a) eqn:E; simpl; rewrite ?insert_insert_eq, msum_insert, E; simpl; lia.
Qed.

Lemma write_balance_wf st a b : ledger_wf st -> b ∈u U64 -> ledger_wf (write_balance st a b).
Proof.
  intros [Hb Hs Hq] Hr. unfold write_balance, get_or_create. destruct (accounts st !! a) eqn:E; simpl;
    split; simpl; rewrite ?insert_insert_eq; try done; by apply map_Forall_insert_2.
Qed.

(** Everything but the accounts. *)
Definition same_rest (st st' : AccountState) : Prop :=
  validators st' = validators st /\ tokenomics st' = tokenomics st /\
  burn_reserve_address st' = burn_reserve_address st /\
  team_vesting_of st' = team_vesting_of st /\ epoch_index st' = epoch_index st /\
  last_epoch_time st' = last_epoch_time st /\ registry st' = registry st /\
  proof_market st' = proof_market st.

Lemma write_balance_rest st a b :
  same_rest st (write_balance st a b) /\ unbonding_queue (write_balance st a b) = unbonding_queue st /\
  timed_burn (write_balance st a b) = timed_burn st.
Proof. unfold write_balance, get_or_create. by destruct (accounts st !! a). Qed.

(** ** Burning *)

Lemma burn_from_eq st a amount :
  ledger_wf st -> 0 <= amount ->
  (burn_from st a amount).1 = Z.min amount (get_balance st a) /\
  (amount <> 0 -> (burn_from st a amount).2 = write_balance st a (get_balance st a - Z.min amount (get_balance st a))) /\
  (amount = 0 -> (burn_from st a amount).2 = st).
Proof.
  intros Hwf Ha. pose proof (get_balance_range st a Hwf) as Hb. unfold burn_from.
  destruct (Z.eqb_spec amount 0) as [->|Hne]; simpl; [split_and!; [lia|done|done]|].
  unfold write_balance, get_or_create, get_balance in *.
  destruct (accounts st !! a) eqn:E; simpl in *; by split_and!.
Qed.

Lemma burn_from_spec st a amount burned st' :
  ledger_wf st -> 0 <= amount -> burn_from st a amount = (burned, st') ->
  burned = Z.min amount (get_balance st a) /\ ledger_wf st' /\
  get_balance st' a = get_balance st a - burned /\
  circulating_supply st' = circulating_supply st - burned /\
  same_rest st st' /\ unbonding_queue st' = unbonding_queue st /\ timed_burn st' = timed_burn st.
Proof.
  intros Hwf Ha E. destruct (burn_from_eq st a amount Hwf Ha) as (E1 & E2 & E3).
  rewrite E in E1, E2, E3. simpl in *. pose proof (get_balance_range st a Hwf).
  destruct (decide (amount = 0)) as [->|Hne].
  - rewrite E3 by done. split_and!; try done; lia.
  - rewrite E2 by done. destruct (write_balance_rest st a (get_balance st a - Z.min amount (get_balance st a))) as (?&?&?).
    split_and!; try done; [apply write_balance_wf; [done|lia]| |].
    + rewrite write_balance_get, decide_True by done. lia.
    + rewrite write_balance_circulating. lia.
Qed.

(** ** The timed burn *)

(** [n] years burn [min (balance, n * per_year)]. *)
Lemma burn_years_spec n reserve per_year total st total' st' :
  ledger_wf st -> 0 <= per_year -> 0 <= total -> 0 <= total_burned (timed_burn st) ->
  total + get_balance st reserve < U64 ->
  total_burned (timed_burn st) + get_balance st reserve < U64 ->
  burn_years n reserve per_year total st = (total', st') ->
  let burned := Z.min (get_balance st reserve) (Z.of_nat n * per_year) in
  total' = total + burned /\ ledger_wf st' /\
  get_balance st' reserve = get_balance st reserve - burned /\
  circulating_supply st' = circulating_supply st - burned /\
  same_rest st st' /\ unbonding_queue st' = unbonding_queue st /\
  years_burned (timed_burn st') = years_burned (timed_burn st) /\
  total_burned (timed_burn st') = total_burned (timed_burn st) + burned.
Proof.
  intros Hwf Hper. revert total st Hwf. induction n as [|n IH]; intros total st Hwf Ht Htb Hb1 Hb2 E;
    cbn [burn_years] in E; pose proof (get_balance_range st reserve Hwf) as Hr.
  { simplify_eq. simpl. split_and!; try done; lia. }
  destruct (burn_from st reserve per_year) as [burned st1] eqn:Eb.
  apply burn_from_spec in Eb as (Hburn & Hwf1 & Hbal & Hcirc & Hrest & Hq & Htime); [|done|done].
  destruct (Z.eqb_spec burned 0) as [Hz|Hz].
  { simplify_eq. assert (Z.min (get_balance st reserve) (Z.of_nat (S n) * per_year) = 0) as ->
      by (destruct (Z.min_spec per_year (get_balance st reserve)); nia).
    rewrite ?Htime; split_and!; try done; lia. }
  set (st2 := with_timed_burn _ st1) in E. cbv zeta.
  assert (Hsat : saturating_add U64 total burned = total + burned) by (unfold saturating_add; lia).
  assert (Hsat2 : total_burned (timed_burn st2) = total_burned (timed_burn st) + burned).
  { simpl. rewrite Htime. unfold saturating_add. lia. }
  assert (Hg : get_balance st2 reserve = get_balance st reserve - burned) by exact Hbal.
  rewrite Hsat in E.
  apply IH in E as (-> & Hwf' & Hbal' & Hcirc' & Hrest' & Hq' & Hy' & Htb'); [|by destruct Hwf1|lia|lia|lia|lia].
  rewrite Hg in *. rewrite Hsat2 in Htb'.
  change (circulating_supply st2) with (circulating_supply st1) in Hcirc'.
  assert (Hmin : burned + Z.min (get_balance st reserve - burned) (Z.of_nat n * per_year) =
                 Z.min (get_balance st reserve) (Z.of_nat (S n) * per_year)) by nia.
  split_and!; try done; try lia.
  - unfold same_rest in *. simpl in *. by intuition congruence.
  - by rewrite Hq'.
  - rewrite Hy'. simpl. by rewrite Htime.
Qed.

(** The reserve can be burned without saturating the recorded total. *)
Definition burn_bound (st : AccountState) (reserve : Address) : Prop :=
  0 <= total_burned (timed_burn st) /\
  total_burned (timed_burn st) + get_balance st reserve < U64.

Lemma annual_burn_nonneg p : 0 <= annual_burn_amount p.
Proof. unfold annual_burn_amount, wrap. apply Z.mod_pos_bound. lia. Qed.

Lemma process_due_spec st due reserve b st' :
  ledger_wf st -> burn_bound st reserve -> process_due_timed_burn st due reserve = (b, st') ->
  b = Z.min (get_balance st reserve)
        (Z.max 0 (due - years_burned (timed_burn st)) * annual_burn_amount (tokenomics st)) /\
  ledger_wf st' /\
  years_burned (timed_burn st') = Z.max (years_burned (timed_burn st)) due /\
  total_burned (timed_burn st') = total_burned (timed_burn st) + b /\
  get_balance st' reserve = get_balance st reserve - b /\
  circulating_supply st' = circulating_supply st - b /\
  same_rest st st' /\ unbonding_queue st' = unbonding_queue st.
Proof.
  intros Hwf [Hb0 Hb1] E. pose proof (get_balance_range st reserve Hwf).
  pose proof (annual_burn_nonneg (tokenomics st)). unfold process_due_timed_burn in E.
  destruct (Z.leb_spec due (years_burned (timed_burn st))).
  - simplify_eq. rewrite Z.max_l by lia. split_and!; try done; lia.
  - destruct (burn_years _ _ _ _ _) as [total st1] eqn:Eb.
    apply burn_years_spec in Eb as (-> & Hwf1 & Hbal & Hcirc & Hrest & Hq & Hy & Ht); try done; try lia.
    simplify_eq. rewrite Z2Nat.id in * by lia. rewrite (Z.max_r 0) by lia.
    split_and!; simpl; try done; try lia. by destruct Hwf1.
Qed.

(** The timed burn follows its schedule.  Bringing the burn up to [due]
    years destroys exactly the annual amount for every year not burned yet,
    capped by what the reserve holds, takes it from the reserve and nothing
    else, records it, and marks those years; a second call for the same year
    changes nothing; and catching up in two calls destroys the same amount as
    one call does. *)
Theorem timed_burn_schedule (st : AccountState) (mid due : Z) (reserve : Address)
    (Hwf : ledger_wf st) (Hb : burn_bound st reserve) (Hmid : mid <= due) :
  let '(b, st') := process_due_timed_burn st due reserve in
  b = Z.min (get_balance st reserve)
        (Z.max 0 (due - years_burned (timed_burn st)) * annual_burn_amount (tokenomics st)) /\
  get_balance st' reserve = get_balance st reserve - b /\
  circulating_supply st' = circulating_supply st - b /\
  timed_burn st' = mkTimedBurn (Z.max (years_burned (timed_burn st)) due)
                     (total_burned (timed_burn st) + b) /\
  process_due_timed_burn st' due reserve = (0, st') /\
  let '(b1, st1) := process_due_timed_burn st mid reserve in
  let '(b2, st2) := process_due_timed_burn st1 due reserve in
  b1 + b2 = b /\ timed_burn st2 = timed_burn st' /\
  get_balance st2 reserve = get_balance st' reserve.
Proof.
  pose proof (annual_burn_nonneg (tokenomics st)). pose proof (get_balance_range st reserve Hwf).
  destruct Hb as [Hb0 Hb1].
  destruct (process_due_timed_burn st due reserve) as [b st'] eqn:E.
  apply process_due_spec in E as (Hbv & Hwf' & Hy & Ht & Hbal & Hc & _); [|done..].
  destruct (process_due_timed_burn st mid reserve) as [b1 st1] eqn:E1.
  apply process_due_spec in E1 as (Hbv1 & Hwf1 & Hy1 & Ht1 & Hbal1 & _ & (_ & Htok & _) & _); [|done..].
  destruct (process_due_timed_burn st1 due reserve) as [b2 st2] eqn:E2.
  apply process_due_spec in E2 as (Hbv2 & _ & Hy2 & Ht2 & Hbal2 & _); [|done|split; nia].
  rewrite Htok, Hy1, Hbal1 in Hbv2.
  assert (b1 + b2 = b) as Hsum by nia.
  assert (Hext : forall t u : TimedBurnState, years_burned t = years_burned u ->
            total_burned t = total_burned u -> t = u) by (by intros [] []; simpl; intros -> ->).
  split_and!; try done; try lia; try (apply Hext; simpl; lia).
  unfold process_due_timed_burn. by rewrite Hy, (proj2 (Z.leb_le _ _)) by lia.
Qed.

(** ** Unbonding *)

Lemma get_or_create_eq st a : (get_or_create st a).2 = write_balance st a (get_balance st a).
Proof.
  unfold write_balance, get_or_create, get_balance. destruct (accounts st !! a) as [[]|] eqn:E; simpl.
  - unfold put_account, set_balance. simpl. rewrite insert_id by done. by destruct st.
  - unfold put_account, with_accounts. simpl. by rewrite insert_insert_eq.
Qed.

Lemma try_add_balance_eq st a x :
  try_add_balance st a x =
    if get_balance st a + x <? U64 then (write_balance st a (get_balance st a + x), Ok tt)
    else (write_balance st a (get_balance st a), Err (BalanceOverflow (get_balance st a) x)).
Proof.
  rewrite <- get_or_create_eq. unfold try_add_balance, write_balance, get_or_create, get_balance, checked_add.
  destruct (accounts st !! a) eqn:E; simpl; by destruct (_ <? _).
Qed.

Definition credit (a c : Address) (x : Z) : Z := if decide (a = c) then x else 0.

(** What an address is owed: its balance and its entries in the queue. *)
Definition owed (st : AccountState) (c : Address) : Z :=
  get_balance st c + queued c (unbonding_queue st).

Lemma queued_app c q q' : queued c (q ++ q') = queued c q + queued c q'.
Proof. apply lsum_app. Qed.

Lemma release_one_spec ep st a x :
  ledger_wf st -> x ∈u U64 ->
  let st' := release_one ep st (a, x) in
  ledger_wf st' /\
  circulating_supply st' + total_unbonding_supply st' =
    circulating_supply st + total_unbonding_supply st + x /\
  (forall c, owed st' c = owed st c + credit a c x) /\
  same_rest st st' /\ timed_burn st' = timed_burn st /\
  (get_balance st a + x < U64 ->
     unbonding_queue st' = unbonding_queue st /\
     forall c, get_balance st' c = get_balance st c + credit a c x).
Proof.
  intros Hwf Hx. cbv zeta. pose proof (get_balance_range st a Hwf) as Hr.
  rewrite !total_unbonding_lsum. unfold release_one, owed, credit. simpl. rewrite try_add_balance_eq.
  destruct (Z.ltb_spec (get_balance st a + x) U64) as [Hlt|Hge].
  - destruct (write_balance_rest st a (get_balance st a + x)) as (Hrest & Hq & Ht). rewrite Hq.
    split_and!; try done; [apply write_balance_wf; [done|lia]|rewrite write_balance_circulating; lia| |];
      [|intros _; split; [done|]]; intros c; rewrite write_balance_get;
      repeat case_decide; simplify_eq; lia.
  - destruct (write_balance_rest st a (get_balance st a)) as (Hrest & Hq & Ht).
    pose proof (write_balance_wf st a _ Hwf Hr) as [Hw1 Hw2 Hw3]. unfold with_queue; simpl. rewrite Hq.
    split_and!; try done; try lia.
    + split; simpl; try done. rewrite Hq in Hw3. apply Forall_app. split; [done|]. by constructor.
    + change (circulating_supply _) with (circulating_supply (write_balance st a (get_balance st a))) at 1.
      rewrite write_balance_circulating, lsum_app. simpl. lia.
    + intros c. change (get_balance (mkState _ _ _ _ _ _ _ _ _ _ _) c) with
        (get_balance (write_balance st a (get_balance st a)) c).
      rewrite write_balance_get, queued_app. unfold queued; simpl.
      repeat case_decide; simplify_eq; lia.
Qed.

Definition released_to (c : Address) (r : list (Address * Z)) : Z :=
  lsum (fun p => credit p.1 c p.2) r.

Lemma released_to_nonneg c rel : Forall (fun p => p.2 ∈u U64) rel -> 0 <= released_to c rel.
Proof.
  intros Hr. apply lsum_nonneg. eapply Forall_impl; [exact Hr|].
  intros p Hp. unfold credit. simpl in Hp. case_decide; lia.
Qed.

Lemma queued_nonneg c q : Forall (fun e => ub_amount e ∈u U64) q -> 0 <= queued c q.
Proof.
  intros Hq. apply lsum_nonneg. eapply Forall_impl; [exact Hq|].
  intros e He. simpl in He. case_decide; lia.
Qed.

Lemma same_rest_trans s1 s2 s3 : same_rest s1 s2 -> same_rest s2 s3 -> same_rest s1 s3.
Proof. unfold same_rest. intuition congruence. Qed.

Lemma release_all_spec ep rel st :
  ledger_wf st -> Forall (fun p => p.2 ∈u U64) rel ->
  let st' := fold_left (release_one ep) rel st in
  ledger_wf st' /\
  circulating_supply st' + total_unbonding_supply st' =
    circulating_supply st + total_unbonding_supply st + lsum snd rel /\
  (forall c, owed st' c = owed st c + released_to c rel) /\
  same_rest st st' /\ timed_burn st' = timed_burn st /\
  ((forall c, get_balance st c + released_to c rel < U64) ->
     unbonding_queue st' = unbonding_queue st /\
     forall c, get_balance st' c = get_balance st c + released_to c rel).
Proof.
  intros Hwf Hrel. revert st Hwf. induction Hrel as [|[a x] rel Hx Hrel IH]; intros st Hwf; simpl in *.
  { split_and!; try done; try lia; intros; try split; intros; try done; lia. }
  destruct (release_one_spec ep st a x Hwf Hx) as (Hwf1 & Hsum1 & Howed1 & Hrest1 & Ht1 & Hok1).
  destruct (IH _ Hwf1) as (Hwf2 & Hsum2 & Howed2 & Hrest2 & Ht2 & Hok2).
  split_and!; try done; try lia.
  - intros c. rewrite Howed2, Howed1. lia.
  - by eapply same_rest_trans.
  - by rewrite Ht2.
  - intros Hroom. pose proof (fun c => released_to_nonneg c rel Hrel) as Hnn.
    destruct Hok1 as [Hq1 Hg1].
    { specialize (Hroom a). specialize (Hnn a). unfold credit in Hroom. rewrite decide_True in Hroom by done. lia. }
    destruct Hok2 as [Hq2 Hg2]; [intros c; rewrite Hg1; specialize (Hroom c); lia|].
    split; [by rewrite Hq2|]. intros c. rewrite Hg2, Hg1. lia.
Qed.

Lemma split_queue_spec accts ep q kept rel deferred :
  split_queue accts ep q = (kept, rel, deferred) ->
  Forall (fun e => ub_amount e ∈u U64) q ->
  Forall (fun e => ub_amount e ∈u U64) (kept ++ deferred) /\
  Forall (fun p => p.2 ∈u U64) rel /\
  lsum ub_amount (kept ++ deferred) + lsum snd rel = lsum ub_amount q /\
  (forall c, queued c (kept ++ deferred) + released_to c rel = queued c q) /\
  kept = filter (fun e => ep < release_epoch e) q /\
  (forall c, released_to c rel + queued c deferred =
             queued c (filter (fun e => ~ ep < release_epoch e) q)) /\
  Forall (fun e => U64 <= default 0 (balance <$> accts !! ub_address e) + ub_amount e) deferred.
Proof.
  revert kept rel deferred. induction q as [|e q IH]; intros kept rel deferred E Hq; cbn [split_queue] in E.
  { simplify_eq. by split_and!. }
  apply Forall_cons in Hq as [He Hq].
  destruct (split_queue accts ep q) as [[k r] d] eqn:Es.
  specialize (IH _ _ _ eq_refl Hq) as (Hf & Hr & Hs & Hc & Hk & Hm & Hd).
  rewrite Forall_app, lsum_app in *. setoid_rewrite queued_app. setoid_rewrite queued_app in Hc.
  unfold checked_add in E.
  assert (filter (fun e => ep < release_epoch e) (e :: q) =
                   (if release_epoch e <=? ep then [] else [e]) ++ k /\
                 filter (fun e => ~ ep < release_epoch e) (e :: q) =
                   (if release_epoch e <=? ep then [e] else []) ++
                   filter (fun e => ~ ep < release_epoch e) q) as [-> ->].
  { rewrite !filter_cons, Hk. destruct (Z.leb_spec (release_epoch e) ep); repeat case_decide; by auto with lia. }
  setoid_rewrite queued_app.
  repeat case_match; simplify_eq; simpl; destruct Hf;
    (split_and!; try done; try lia; try (constructor; simpl; [lia|done]);
     try (intros c; specialize (Hc c); specialize (Hm c); unfold queued, released_to, credit in *; simpl; lia)).
Qed.

Lemma process_unbonding_spec st :
  ledger_wf st ->
  let st' := process_unbonding st in
  let matured c := queued c (filter (fun e => ~ epoch_index st < release_epoch e) (unbonding_queue st)) in
  ledger_wf st' /\
  circulating_supply st' + total_unbonding_supply st' =
    circulating_supply st + total_unbonding_supply st /\
  (forall c, owed st' c = owed st c) /\
  same_rest st st' /\ timed_burn st' = timed_burn st /\
  ((forall c, get_balance st c + matured c < U64) ->
     unbonding_queue st' = filter (fun e => epoch_index st < release_epoch e) (unbonding_queue st) /\
     forall c, get_balance st' c = get_balance st c + matured c).
Proof.
  intros Hwf. cbv zeta. pose proof Hwf as [Hb Hs Hq]. unfold process_unbonding.
  destruct (split_queue _ _ _) as [[kept rel] deferred] eqn:E.
  apply split_queue_spec in E as (Hf & Hr & Hsum & Hc & Hk & Hm & Hd); [|done].
  set (st1 := with_queue (kept ++ deferred) st).
  assert (Hwf1 : ledger_wf st1) by by split.
  destruct (release_all_spec (epoch_index st) rel st1 Hwf1 Hr) as (Hwf' & Hsum' & Howed & Hrest & Ht & Hok).
  rewrite (total_unbonding_lsum st1) in Hsum'. rewrite (total_unbonding_lsum st).
  change (circulating_supply st1) with (circulating_supply st) in Hsum'.
  change (unbonding_queue st1) with (kept ++ deferred) in *.
  split_and!; try done; try lia.
  - intros c. rewrite Howed. unfold owed. simpl. specialize (Hc c).
    change (get_balance st1 c) with (get_balance st c). lia.
  - intros Hroom. assert (deferred = []) as ->.
    { destruct deferred as [|e d]; [done|]. exfalso. apply Forall_cons in Hd as [He _].
      apply Forall_app in Hf as [_ [_ Hd']%Forall_cons]. 
      specialize (Hm (ub_address e)). specialize (Hroom (ub_address e)).
      pose proof (released_to_nonneg (ub_address e) rel Hr).
      pose proof (queued_nonneg (ub_address e) d Hd').
      unfold get_balance in Hroom. unfold queued in Hm at 1; simpl in Hm. rewrite decide_True in Hm by done.
      unfold queued in *. lia. }
    rewrite app_nil_r in *. destruct Hok as [Hq' Hg'].
    { intros c. specialize (Hm c). specialize (Hroom c). change (queued c []) with 0 in Hm.
      change (get_balance st1 c) with (get_balance st c). lia. }
    rewrite Hq', <- Hk. split; [done|]. intros c. rewrite Hg'. specialize (Hm c).
    change (queued c []) with 0 in Hm. change (get_balance st1 c) with (get_balance st c). lia.
Qed.

(** Unbonding loses nothing.  Processing the queue keeps the sum of the
    liquid and the unbonding supply and, for every address, its balance plus
    what is queued for it, even when a release would overflow a balance and is
    deferred; when every matured amount fits, the queue that remains is exactly
    the entries that have not matured, in their order, and every address has
    been credited the sum of its matured entries. *)
Theorem unbonding_conserves (st : AccountState) (Hwf : ledger_wf st) :
  let st' := process_unbonding st in
  let matured c := queued c (filter (fun e => ~ epoch_index st < release_epoch e) (unbonding_queue st)) in
  circulating_supply st' + total_unbonding_supply st' =
    circulating_supply st + total_unbonding_supply st /\
  (forall c, owed st' c = owed st c) /\
  ((forall c, get_balance st c + matured c < U64) ->
     unbonding_queue st' = filter (fun e => epoch_index st < release_epoch e) (unbonding_queue st) /\
     forall c, get_balance st' c = get_balance st c + matured c).
Proof.
  destruct (process_unbonding_spec st Hwf) as (_ & Hsum & Howed & _ & _ & Hok).
  split_and!; [exact Hsum|exact Howed|exact Hok].
Qed.

(** ** Slashing *)

Lemma slash_penalty_range stake ratio :
  0 <= stake -> 0 <= ratio -> 0 <= slash_penalty stake ratio <= stake.
Proof.
  intros. unfold slash_penalty. assert (0 <= stake * ratio / FIXED_POINT_SCALE) by (apply Z.div_pos; [nia|done]).
  repeat case_match; split_bool; lia.
Qed.

Context {L : RegistryLaws R}.

(** What the bonds for other roles lost from one state to the next. *)
Definition role_cut (st st' : AccountState) : Z :=
  total_registry_role_bonded_supply st - total_registry_role_bonded_supply st'.

Lemma slash_validator_spec st a ratio p st' :
  ledger_wf st -> 0 <= ratio -> slash_validator st a ratio = (p, st') ->
  ledger_wf st' /\ 0 <= default 0 p /\ 0 <= role_cut st st' /\
  committed st' + default 0 p + role_cut st st' = committed st /\
  timed_burn st' = timed_burn st /\ accounts st' = accounts st.
Proof.
  intros Hwf Hr E. pose proof Hwf as [Hb Hs Hq]. unfold slash_validator in E.
  destruct (validators st !! a) as [v|] eqn:Ev; [|simplify_eq; unfold role_cut; simpl; split_and!; try done; lia].
  destruct (v_slashed v) eqn:Ef; simplify_eq; simpl; [unfold role_cut; split_and!; try done; lia|].
  pose proof (Hs _ _ Ev) as Hv. simpl in Hv.
  pose proof (slash_penalty_range (v_stake v) ratio (proj1 Hv) Hr) as Hp.
  assert (Hst : v_stake (slashed_validator v (slash_penalty (v_stake v) ratio)
    (saturating_add U64 (epoch_index st) JAIL_EPOCHS)) = v_stake v - slash_penalty (v_stake v) ratio)
    by (simpl; unfold saturating_sub; lia).
  pose proof (bonded_slash_le (registry st) a ratio Hr) as Hcut.
  unfold role_cut, committed, circulating_supply, total_staked_supply, total_unbonding_supply,
    total_registry_role_bonded_supply. simpl. split_and!; try done; try lia.
  - split; simpl; try done. apply map_Forall_insert_2; [|done]. rewrite Hst. lia.
  - rewrite msum_insert, Ev, Hst. simpl. lia.
Qed.

(** ** Accounting over sequences of operations *)

Inductive LedgerOp : Type :=
  | OpBurn (a : Address) (amount : Z)
  | OpSlash (a : Address) (ratio : Z)
  | OpUnbond
  | OpTimedBurn (genesis_epoch : Z) (reserve : Address)
  | OpSync (a : Address)
  | OpCloseEpoch (timestamp : Z).

Definition op_ok (op : LedgerOp) : Prop :=
  match op with
  | OpBurn _ amount => 0 <= amount
  | OpSlash _ ratio => 0 <= ratio
  | _ => True
  end.

Variable pop_valid : Validator -> bool.

(** The tokens an operation reports as destroyed (an epoch close records them
    in the burn state), what the registry took from the bonds for other roles
    without a report, and the next state. *)
Definition ledger_op (st : AccountState) (op : LedgerOp) : Z * Z * AccountState :=
  match op with
  | OpBurn a amount => let '(d, st') := burn_from st a amount in (d, 0, st')
  | OpSlash a ratio => let '(p, st') := slash_validator st a ratio in (default 0 p, role_cut st st', st')
  | OpUnbond => (0, 0, process_unbonding st)
  | OpTimedBurn genesis reserve => let '(d, st') := process_timed_burn st genesis reserve in (d, 0, st')
  | OpSync a => (0, 0, sync_validator_registration st a)
  | OpCloseEpoch ts =>
      let st' := close_epoch pop_valid st ts in
      (total_burned (timed_burn st') - total_burned (timed_burn st), 0, st')
  end.

Fixpoint run_ops (ops : list LedgerOp) (st : AccountState) : Z * Z * AccountState :=
  match ops with
  | [] => (0, 0, st)
  | op :: ops =>
      let '(d, c, st) := ledger_op st op in
      let '(d', c', st) := run_ops ops st in (d + d', c + c', st)
  end.

(** The committed supply, with what the timed burn has recorded, fits [u64]:
    the genesis supply of 10^14 units does. *)
Record supply_inv (st : AccountState) : Prop := {
  si_wf : ledger_wf st;
  si_burned : 0 <= total_burned (timed_burn st);
  si_bound : total_burned (timed_burn st) + committed st < U64;
}.

Lemma supplies_nonneg st : ledger_wf st ->
  0 <= circulating_supply st /\ 0 <= total_staked_supply st /\ 0 <= total_unbonding_supply st /\
  0 <= total_registry_role_bonded_supply st.
Proof.
  intros [Hb Hs Hq]. rewrite total_unbonding_lsum. split_and!.
  - apply msum_nonneg. eapply map_Forall_impl; [exact Hb|]. simpl. lia.
  - apply msum_nonneg. eapply map_Forall_impl; [exact Hs|]. simpl. lia.
  - apply lsum_nonneg. eapply Forall_impl; [exact Hq|]. simpl. lia.
  - apply bonded_nonneg.
Qed.

Lemma balance_le_circulating st a : ledger_wf st -> get_balance st a <= circulating_supply st.
Proof.
  intros Hwf. pose proof (supplies_nonneg st Hwf). destruct Hwf as [Hb _ _].
  unfold get_balance, circulating_supply in *. destruct (accounts st !! a) as [acct|] eqn:E; simpl; [|lia].
  eapply (msum_elem_le balance); [|exact E]. eapply map_Forall_impl; [exact Hb|]. simpl. lia.
Qed.

Lemma supply_burn_bound st reserve : supply_inv st -> burn_bound st reserve.
Proof.
  intros [Hwf Hb Hm]. pose proof (supplies_nonneg st Hwf). pose proof (balance_le_circulating st reserve Hwf).
  unfold committed in Hm. split; lia.
Qed.

Lemma committed_same_rest st st' : same_rest st st' ->
  total_staked_supply st' = total_staked_supply st /\
  total_registry_role_bonded_supply st' = total_registry_role_bonded_supply st.
Proof. intros (Hv & _ & _ & _ & _ & _ & Hr & _). unfold total_staked_supply, total_registry_role_bonded_supply. by rewrite Hv, Hr. Qed.

(** From [st] to [st'], [d] tokens were destroyed and nothing else happened to
    the supply; the timed burn recorded at most [d] of them. *)
Record accounted (st : AccountState) (d : Z) (st' : AccountState) : Prop := {
  ac_wf : ledger_wf st';
  ac_nonneg : 0 <= d;
  ac_committed : committed st' + d = committed st;
  ac_recorded : total_burned (timed_burn st) <= total_burned (timed_burn st') <=
                total_burned (timed_burn st) + d;
}.

Lemma accounted_inv st d st' : supply_inv st -> accounted st d st' -> supply_inv st'.
Proof. intros [] []. split; [done|lia|lia]. Qed.

Lemma accounted_trans st d st1 d' st2 :
  accounted st d st1 -> accounted st1 d' st2 -> accounted st (d + d') st2.
Proof. intros [] []. split; [done|lia..]. Qed.

Lemma process_unbonding_accounted st : ledger_wf st -> accounted st 0 (process_unbonding st).
Proof.
  intros Hwf. destruct (process_unbonding_spec st Hwf) as (Hwf' & Hsum & _ & Hrest & Ht & _).
  apply committed_same_rest in Hrest as [Hs Hr]. split; [done|lia| |rewrite Ht; lia].
  unfold committed. lia.
Qed.

Lemma process_timed_burn_accounted st genesis reserve b st' :
  supply_inv st -> process_timed_burn st genesis reserve = (b, st') ->
  accounted st b st' /\ total_burned (timed_burn st') = total_burned (timed_burn st) + b.
Proof.
  intros Hinv E. pose proof (supply_burn_bound st reserve Hinv) as Hb. pose proof (si_wf st Hinv) as Hwf.
  apply process_due_spec in E as (-> & Hwf' & _ & Ht & _ & Hc & Hrest & Hq); [|done..].
  apply committed_same_rest in Hrest as [Hs Hr]. pose proof (get_balance_range st reserve Hwf).
  pose proof (annual_burn_nonneg (tokenomics st)).
  set (b := Z.min _ _) in *. assert (0 <= b) by (subst b; nia). split; [|lia].
  split; [done|done| |lia]. unfold committed, total_unbonding_supply in *. rewrite Hq. lia.
Qed.

Lemma release_jail_accounted st :
  ledger_wf st ->
  accounted st 0 (with_validators (release_from_jail pop_valid (epoch_index st) <$> validators st) st).
Proof.
  intros [Hb Hs Hq].
  assert (Hst : forall v, v_stake (release_from_jail pop_valid (epoch_index st) v) = v_stake v)
    by (intros v; unfold release_from_jail; by case_match).
  split; simpl; try lia.
  - split; simpl; try done. apply map_Forall_fmap. eapply map_Forall_impl; [exact Hs|].
    intros k v Hv. simpl in *. by rewrite Hst.
  - unfold committed, total_staked_supply. simpl. rewrite msum_fmap_same by done.
    unfold circulating_supply, total_unbonding_supply, total_registry_role_bonded_supply. simpl. lia.
Qed.

Lemma close_epoch_accounted st ts :
  supply_inv st ->
  let st' := close_epoch pop_valid st ts in
  accounted st (total_burned (timed_burn st') - total_burned (timed_burn st)) st'.
Proof.
  intros Hinv. cbv zeta. unfold close_epoch. set (s1 := with_epoch _ _ st).
  assert (H1 : accounted st 0 s1).
  { destruct Hinv as [[] ? ?]. split; [by split|lia|unfold committed; simpl; by rewrite Z.add_0_r|simpl; lia]. }
  pose proof (process_unbonding_accounted s1 (ac_wf _ _ _ H1)) as H2. set (s2 := process_unbonding s1) in *.
  set (s2' := with_market _ s2).
  assert (H2' : accounted s1 0 s2').
  { destruct H2 as [[] ? Hc Hb]. split; [by split|lia|exact Hc|exact Hb]. }
  pose proof (release_jail_accounted s2' (ac_wf _ _ _ H2')) as H3. set (s3 := with_validators _ s2') in *.
  pose proof (accounted_trans _ _ _ _ _ (accounted_trans _ _ _ _ _ H1 H2') H3) as H.
  assert (Hb3 : total_burned (timed_burn s3) = total_burned (timed_burn st)) by (destruct H; lia).
  destruct (burn_reserve_address s3) as [reserve|]; [|rewrite Hb3, Z.sub_diag; exact H].
  destruct (process_timed_burn s3 0 reserve) as [b s4] eqn:E. simpl.
  apply process_timed_burn_accounted in E as [Ha Ht]; [|by eapply accounted_inv].
  rewrite Ht, Hb3. replace (_ + b - _) with (0 + 0 + 0 + b) by lia. by eapply accounted_trans.
Qed.

Lemma ledger_op_accounted st op d c st' :
  supply_inv st -> op_ok op -> ledger_op st op = (d, c, st') -> accounted st (d + c) st' /\ 0 <= d /\ 0 <= c.
Proof.
  intros Hinv Hok E. pose proof (si_wf st Hinv) as Hwf. destruct op as [a x|a ratio| |g reserve|a|ts]; simpl in *.
  - destruct (burn_from st a x) as [d1 s1] eqn:Eb. simplify_eq. rewrite Z.add_0_r.
    apply burn_from_spec in Eb as (-> & Hwf' & _ & Hc & Hrest & Hq & Ht); [|done..].
    apply committed_same_rest in Hrest as [Hs Hr]. pose proof (get_balance_range st a Hwf).
    split; [|lia]. split; [done|lia| |rewrite Ht; lia]. unfold committed, total_unbonding_supply in *. rewrite Hq. lia.
  - destruct (slash_validator st a ratio) as [p st1] eqn:Es. simplify_eq.
    apply slash_validator_spec in Es as (Hwf' & Hp & Hcut & Hc & Ht & _); [|done..].
    split; [|done]. split; [done|lia|lia|rewrite Ht; lia].
  - simplify_eq. split; [by apply process_unbonding_accounted|lia].
  - destruct (process_timed_burn st g reserve) as [d1 s1] eqn:Eb. simplify_eq. rewrite Z.add_0_r.
    apply process_timed_burn_accounted in Eb as [Ha _]; [|done]. split; [done|]. destruct Ha. lia.
  - simplify_eq. destruct Hwf. split; [|lia]. split; [by split|lia| |simpl; lia].
    unfold committed, total_registry_role_bonded_supply. simpl. rewrite bonded_upsert_validator.
    unfold circulating_supply, total_staked_supply, total_unbonding_supply. simpl. lia.
  - simplify_eq. rewrite Z.add_0_r. pose proof (close_epoch_accounted st ts Hinv) as Ha. split; [done|]. destruct Ha. lia.
Qed.

Lemma run_ops_accounted ops st d c st' :
  supply_inv st -> Forall op_ok ops -> run_ops ops st = (d, c, st') -> accounted st (d + c) st' /\ 0 <= d /\ 0 <= c.
Proof.
  intros Hinv Hok. revert st d c st' Hinv. induction Hok as [|op ops Hop Hok IH]; intros st d c st' Hinv E; simpl in E.
  { simplify_eq. destruct Hinv. split; [|lia]. split; [done|lia..]. }
  destruct (ledger_op st op) as [[d1 c1] st1] eqn:E1. destruct (run_ops ops st1) as [[d2 c2] st2] eqn:E2. simplify_eq.
  apply ledger_op_accounted in E1 as (H1 & ? & ?); [|done..]. apply IH in E2 as (H2 & ? & ?); [|by eapply accounted_inv].
  split; [|lia]. replace (d1 + d2 + (c1 + c2)) with (d1 + c1 + (d2 + c2)) by lia. by eapply accounted_trans.
Qed.

(** A registry whose slash keeps to the role named takes nothing else. *)
Lemma run_ops_no_cut ops st d c st' :
  (forall (r : Registry) a ratio, total_bonded_stake_excluding (registry_slash r a ROLE_VALIDATOR ratio) ROLE_VALIDATOR =
     total_bonded_stake_excluding r ROLE_VALIDATOR) ->
  run_ops ops st = (d, c, st') -> c = 0.
Proof.
  intros Hr. revert st d c st'. induction ops as [|op ops IH]; intros st d c st' E; simpl in E; [by simplify_eq|].
  destruct (ledger_op st op) as [[d1 c1] st1] eqn:E1. destruct (run_ops ops st1) as [[d2 c2] st2] eqn:E2. simplify_eq.
  apply IH in E2 as ->. enough (c1 = 0) by lia.
  destruct op; simpl in E1; repeat case_match; simplify_eq; try done.
  unfold slash_validator in H. repeat case_match; simplify_eq; unfold role_cut, total_registry_role_bonded_supply; simpl;
    rewrite ?Hr; lia.
Qed.

Lemma total_bud_committed_exact st : supply_inv st -> total_bud_committed st = committed st.
Proof.
  intros [Hwf Hb Hm]. pose proof (supplies_nonneg st Hwf). unfold total_bud_committed, committed, saturating_add in *.
  assert (U64 < U128) by done. lia.
Qed.

(** C19: every token is accounted for.  From a state whose supply fits, any
    sequence of burns, slashes, unbonding passes, timed burns, registry mirrors
    and epoch closes keeps the invariant, and the committed supply decreases by
    exactly the tokens the operations report as destroyed and those the registry
    takes from a slashed validator's bonds for other roles, which no report
    names: nothing is minted and nothing else is lost.  With a registry whose
    slash keeps to the validator role the second part is zero.  Under the cap
    the mint headroom grows by the same amount. *)
Theorem supply_accounting (ops : list LedgerOp) (st : AccountState)
    (Hinv : supply_inv st) (Hok : Forall op_ok ops) :
  let '(d, c, st') := run_ops ops st in
  supply_inv st' /\ 0 <= d /\ 0 <= c /\
  total_bud_committed st' + d + c = total_bud_committed st /\
  ((forall (r : Registry) a ratio, total_bonded_stake_excluding (registry_slash r a ROLE_VALIDATOR ratio) ROLE_VALIDATOR =
      total_bonded_stake_excluding r ROLE_VALIDATOR) -> c = 0) /\
  (total_bud_committed st <= BUD_TOTAL_SUPPLY ->
   supply_capacity_remaining st' = supply_capacity_remaining st + d + c).
Proof.
  destruct (run_ops ops st) as [[d c] st'] eqn:E. pose proof (fun H => run_ops_no_cut ops st d c st' H E) as Hcut.
  apply run_ops_accounted in E as (E & ? & ?); [|done..].
  pose proof (accounted_inv _ _ _ Hinv E) as Hinv'. pose proof E as [Hwf' Hd Hc _].
  rewrite !total_bud_committed_exact by done. split_and!; try done; [lia|].
  intros Hcap. unfold supply_capacity_remaining. rewrite !total_bud_committed_exact by done.
  pose proof (supplies_nonneg _ Hwf'). assert (0 <= committed st') by (unfold committed; lia).
  assert (BUD_TOTAL_SUPPLY < U64 - 1) by done.
  unfold saturating_sub. rewrite !wrap_small by lia. lia.
Qed.

(** the spend gate.  The burn reserve can spend nothing; the team account
    can spend only what exceeds the locked part of its grant, so that whatever
    it spends leaves the locked part (or all it holds, if that is less); every
    other account can spend its balance; and with an unchanged balance a later
    epoch never lowers what an account may spend. *)
Theorem spend_gate (st st' : AccountState) (a : Address)
    (Hwf : ledger_wf st)
    (Hteam : forall t s, team_vesting_of st = Some (t, s) -> vesting_wf s)
    (Hepoch : 0 <= epoch_index st <= epoch_index st')
    (Hsame : team_vesting_of st' = team_vesting_of st /\
             burn_reserve_address st' = burn_reserve_address st /\ get_balance st' a = get_balance st a) :
  (burn_reserve_address st = Some a -> spendable_balance st a = 0) /\
  (forall t s, team_vesting_of st = Some (t, s) -> t = a ->
     forall x, x <= spendable_balance st a ->
     Z.min (get_balance st a) (locked_at s (epoch_index st)) <= get_balance st a - x) /\
  (burn_reserve_address st <> Some a -> (forall t s, team_vesting_of st = Some (t, s) -> t <> a) ->
     spendable_balance st a = get_balance st a) /\
  0 <= spendable_balance st a <= spendable_balance st' a /\
  spendable_balance st' a <= get_balance st a.
Proof.
  destruct Hsame as (E1 & E2 & E3). pose proof (get_balance_range st a Hwf) as Hr.
  unfold spendable_balance, saturating_sub. rewrite E1, E2, E3.
  assert (Hl : forall t s e, team_vesting_of st = Some (t, s) -> 0 <= locked_at s e).
  { intros. unfold locked_at, saturating_sub. lia. }
  split_and!.
  - intros ->. by rewrite bool_decide_eq_true_2.
  - intros t s Hv -> x. rewrite Hv. pose proof (Hl _ _ (epoch_index st) Hv).
    rewrite (bool_decide_eq_true_2 (a = a)) by done. case_match; lia.
  - intros Hne Ht. rewrite bool_decide_eq_false_2 by done. destruct (team_vesting_of st) as [[t s]|]; [|done].
    by rewrite bool_decide_eq_false_2 by (by eapply Ht).
  - repeat case_match; try lia.
  - repeat case_match; try lia. simplify_eq. unfold locked_at, saturating_sub.
    pose proof (unlocked_mono v _ _ (Hteam _ _ eq_refl) Hepoch). lia.
  - repeat case_match; simplify_eq; try lia. pose proof (Hl _ _ (epoch_index st') eq_refl). lia.
Qed.

End facts.

(** ** A registry that satisfies the laws

    The bonds of an account by role.  A slash cuts all of them. *)

Definition other_bonds (role : Z) (m : gmap Z N) : Z := msum Z.of_N (filter (fun e => e.1 <> role) m).
Definition cut_bond (ratio : Z) (s : N) : N := Z.to_N (Z.of_N s - slash_penalty (Z.of_N s) ratio).

#[export] Instance map_registry : RoleRegistry := {|
  Registry := gmap Address (gmap Z N);
  upsert_stake r a role stake _ := <[a := <[role := Z.to_N stake]> (default ∅ (r !! a))]> r;
  registry_slash r a _ ratio := alter (fmap (cut_bond ratio)) a r;
  total_bonded_stake_excluding r role := msum (other_bonds role) r;
|}.

Lemma other_bonds_nonneg role m : 0 <= other_bonds role m.
Proof. apply msum_nonneg. intros k v _. lia. Qed.

Lemma other_bonds_cut ratio role m : 0 <= ratio -> other_bonds role (cut_bond ratio <$> m) <= other_bonds role m.
Proof.
  intros Hr. unfold other_bonds. rewrite map_filter_fmap. cbn. apply msum_fmap_le. intros v.
  unfold cut_bond. pose proof (slash_penalty_range (Z.of_N v) ratio). lia.
Qed.

#[export] Instance map_registry_laws : RegistryLaws map_registry.
Proof.
  split; simpl.
  - intros r a ratio Hr. destruct (r !! a) as [m|] eqn:E.
    + replace (alter (fmap (cut_bond ratio)) a r) with (<[a := cut_bond ratio <$> m]> r)
        by (apply map_eq; intros k; destruct (decide (k = a)) as [->|];
            rewrite ?lookup_insert_eq, ?lookup_alter_eq, ?lookup_insert_ne, ?lookup_alter_ne, ?E by done; done).
      rewrite msum_insert, E. pose proof (other_bonds_cut ratio ROLE_VALIDATOR m Hr). cbn. lia.
    + by rewrite alter_id by (intros x; by rewrite E).
  - intros r a stake _. rewrite msum_insert.
    assert (He : other_bonds ROLE_VALIDATOR (<[ROLE_VALIDATOR := Z.to_N stake]> (default ∅ (r !! a))) =
                 other_bonds ROLE_VALIDATOR (default ∅ (r !! a))).
    { unfold other_bonds. f_equal. apply map_filter_insert_not. by intros y []. }
    rewrite He. assert (H0 : other_bonds ROLE_VALIDATOR ∅ = 0) by (vm_compute; reflexivity).
    destruct (r !! a) as [m|]; cbn -[other_bonds msum]; [|change (id ∅) with (∅ : gmap Z N); rewrite H0]; lia.
  - intros r role. apply msum_nonneg. intros k v _. apply other_bonds_nonneg.
Qed.

(** A ledger with a reserve, a validator that is also bonded for another role,
    and a matured unbonding entry. *)
Definition demo_reserve : Address := reserved_address 5.
Definition demo_ledger : AccountState :=
  mkState {[demo_reserve := mkAccount demo_reserve (bud 40000000) 0]}
    {[[1] := validator_new [1] (bud 1000)]} params_default timed_burn_new (Some demo_reserve)
    (Some (reserved_address 4, team_vesting params_default 0)) [mkUnbonding [2] 500 3; mkUnbonding [3] 7 9000]
    2999 0 {[[1] := {[ROLE_VALIDATOR := Z.to_N (bud 1000); 5 := 3000%N]}]} ProofMarket.market_new.

Lemma demo_wf : ledger_wf demo_ledger.
Proof.
  split; simpl.
  - apply map_Forall_singleton. by vm_compute.
  - apply map_Forall_singleton. by vm_compute.
  - repeat constructor; done.
Qed.

Lemma demo_inv : supply_inv demo_ledger.
Proof. split; [apply demo_wf|by vm_compute..]. Qed.

Definition demo_ops : list LedgerOp :=
  [OpSlash [1] 100000; OpCloseEpoch 0; OpBurn [2] 200; OpSlash [1] 100000; OpTimedBurn 0 demo_reserve].

Lemma timed_burn_schedule_witness :
  (process_due_timed_burn demo_ledger 2 demo_reserve).1 = bud 8000000 /\
  process_due_timed_burn (process_due_timed_burn demo_ledger 2 demo_reserve).2 2 demo_reserve =
    (0, (process_due_timed_burn demo_ledger 2 demo_reserve).2).
Proof.
  split; [vm_compute; reflexivity|].
  pose proof (timed_burn_schedule demo_ledger 1 2 demo_reserve demo_wf
    (supply_burn_bound demo_ledger demo_reserve demo_inv) ltac:(lia)) as H.
  destruct (process_due_timed_burn demo_ledger 2 demo_reserve) as [b st'].
  exact (proj1 (proj2 (proj2 (proj2 (proj2 H))))).
Defined.

Lemma unbonding_conserves_witness :
  owed (process_unbonding demo_ledger) [2] = 500 /\
  get_balance (process_unbonding demo_ledger) [2] = 500.
Proof.
  split; [|vm_compute; reflexivity].
  rewrite (proj1 (proj2 (unbonding_conserves demo_ledger demo_wf))). vm_compute. reflexivity.
Defined.

Lemma supply_accounting_witness :
  (run_ops (fun _ => true) demo_ops demo_ledger).1 = (bud 100 + bud 12000000 + 200, 300) /\
  supply_inv (run_ops (fun _ => true) demo_ops demo_ledger).2.
Proof.
  split; [vm_compute; reflexivity|].
  pose proof (supply_accounting (fun _ => true) demo_ops demo_ledger demo_inv
    ltac:(repeat constructor; simpl; lia)) as H.
  destruct (run_ops _ _ _) as [[d c] st']. exact (proj1 H).
Defined.

Lemma spend_gate_witness :
  get_balance demo_ledger demo_reserve = bud 40000000 /\ spendable_balance demo_ledger demo_reserve = 0.
Proof.
  split; [vm_compute; reflexivity|].
  apply (spend_gate demo_ledger demo_ledger demo_reserve demo_wf); [|simpl; lia|done|reflexivity].
  intros t s [= <- <-]. split; vm_compute; done.
Defined.

End LedgerFacts.
