(* ===== verification/Gf256.v ===== *)
(** * The field of the erasure code

    GF(2^8) modulo 0x11D, as src/storage/erasure.rs computes it: logarithm and
    exponential tables filled by repeated doubling, multiplication by adding
    logarithms.  [field_laws] shows that the tables do give a field, so that
    the [ring] and [field] tactics work on bytes below.  A [u8] is Stdlib's
    [byte] here: the laws hold for every value of the type. *)

From Stdlib Require Import ZArith Lia Ring Field.
From Stdlib Require Import Strings.Byte.
From stdpp Require Import base tactics numbers list.
From S2P Require Import Prelude.
Open Scope Z_scope.

Module Gf256.

#[export] Instance byte_eq_dec : EqDecision Byte.byte := Byte.byte_eq_dec.
#[export] Instance byte_inhabited : Inhabited Byte.byte := populate x00.

(** [x as u8] and back. *)
Definition of_Z (z : Z) : Byte.byte := default x00 (Byte.of_N (Z.to_N (z mod 256))).
Definition to_Z (b : Byte.byte) : Z := Z.of_N (Byte.to_N b).

(** [a ^ b] on [u8]. *)
Definition gf_add (a b : Byte.byte) : Byte.byte := of_Z (Z.lxor (to_Z a) (to_Z b)).

Definition GF_POLY : Z := 0x11D.

(** [x <<= 1; if x & 0x100 != 0 { x ^= GF_POLY; }] on [u16]. *)
Definition double (x : Z) : Z :=
  let x := Z.shiftl x 1 mod U16 in
  if Z.land x 0x100 =? 0 then x else Z.lxor x GF_POLY.

Record GfTables : Type := mkTables { exp : list Byte.byte; log : list Byte.byte }.

(** One turn of the filling loop. *)
Definition fill_slot (st : Z * GfTables) (i : nat) : Z * GfTables :=
  let '(x, t) := st in
  (double x, mkTables (<[i := of_Z x]> (exp t)) (<[Z.to_nat x := of_Z (Z.of_nat i)]> (log t))).

(** The first 255 entries, then the same cycle again up to 512. *)
Definition tables : GfTables :=
  let t := (foldl fill_slot (1, mkTables (replicate 512 x00) (replicate 256 x00)) (seq 0 255)).2 in
  let cycle := take 255 (exp t) in
  mkTables (foldl (fun e j => <[(255 + j)%nat := cycle !!! (j mod 255)%nat]> e) (exp t) (seq 0 257))
    (log t).

Definition index (b : Byte.byte) : nat := N.to_nat (Byte.to_N b).

Definition is_zero (b : Byte.byte) : bool := Byte.eqb b x00.

Definition gf_mul (a b : Byte.byte) : Byte.byte :=
  if is_zero a || is_zero b then x00
  else exp tables !!! (index (log tables !!! index a) + index (log tables !!! index b))%nat.

Definition gf_inv (a : Byte.byte) : Byte.byte :=
  if is_zero a then x00
  else exp tables !!! (255 - index (log tables !!! index a))%nat.

#[global] Opaque tables.

(** ** Checking all bytes *)

Definition all_bytes : list Byte.byte := map of_Z (seqZ 0 256).

Lemma of_to_Z b : of_Z (to_Z b) = b.
Proof. by destruct b. Qed.

Lemma to_Z_range b : 0 <= to_Z b < 256.
Proof. by destruct b. Qed.

Lemma to_of_Z z : 0 <= z < 256 -> to_Z (of_Z z) = z.
Proof.
  intros Hz. unfold of_Z, to_Z. rewrite Z.mod_small by done.
  destruct (Byte.of_N (Z.to_N z)) as [b|] eqn:E; simpl.
  - apply Byte.to_of_N in E. rewrite E. apply Z2N.id; lia.
  - apply Byte.of_N_None_iff in E. apply N2Z.inj_lt in E. rewrite Z2N.id in E by lia. lia.
Qed.

Lemma all_bytes_spec (f : Byte.byte -> bool) : forallb f all_bytes = true -> forall b, f b = true.
Proof.
  rewrite forallb_forall. intros H b. apply H. rewrite <- (of_to_Z b). apply in_map.
  apply list_elem_of_In, elem_of_seqZ. pose proof (to_Z_range b) as H1. split; [lia|]. rewrite Z.add_0_l. lia.
Qed.

Definition byte_eqb_eq a b : Byte.eqb a b = true -> a = b := Byte.byte_dec_bl a b.

Lemma is_zero_spec b : is_zero b = true <-> b = x00.
Proof. split; [apply byte_eqb_eq|by intros ->]. Qed.

(** ** Addition *)

Lemma all_pairs_spec (f : Byte.byte -> Byte.byte -> bool) :
  forallb (fun a => forallb (f a) all_bytes) all_bytes = true -> forall a b, f a b = true.
Proof.
  intros H a. apply all_bytes_spec. exact (all_bytes_spec (fun a => forallb (f a) all_bytes) H a).
Qed.

Lemma xor_range a b : 0 <= Z.lxor (to_Z a) (to_Z b) < 256.
Proof.
  pose proof (all_pairs_spec
    (fun a b => (0 <=? Z.lxor (to_Z a) (to_Z b)) && (Z.lxor (to_Z a) (to_Z b) <? 256))
    ltac:(vm_compute; reflexivity) a b) as H. cbv beta in H. lia.
Qed.

Lemma gf_add_comm a b : gf_add a b = gf_add b a.
Proof. unfold gf_add. by rewrite Z.lxor_comm. Qed.
Lemma gf_add_assoc a b c : gf_add a (gf_add b c) = gf_add (gf_add a b) c.
Proof. unfold gf_add. rewrite !to_of_Z by apply xor_range. by rewrite Z.lxor_assoc. Qed.
Lemma gf_add_0_l a : gf_add x00 a = a.
Proof. apply of_to_Z. Qed.
Lemma gf_add_self a : gf_add a a = x00.
Proof. unfold gf_add. by rewrite Z.lxor_nilpotent. Qed.

(** ** Multiplication is repeated doubling *)

Definition xtime (b : Byte.byte) : Byte.byte := of_Z (double (to_Z b)).

Lemma xtime_add a b : xtime (gf_add a b) = gf_add (xtime a) (xtime b).
Proof.
  apply byte_eqb_eq.
  refine (all_pairs_spec (fun a b => Byte.eqb (xtime (gf_add a b)) (gf_add (xtime a) (xtime b))) _ a b).
  vm_compute. reflexivity.
Qed.

Fixpoint times (n : nat) (b : Byte.byte) : Byte.byte :=
  match n with O => b | S n => xtime (times n b) end.

Lemma times_add n a b : times n (gf_add a b) = gf_add (times n a) (times n b).
Proof. induction n as [|n IH]; [done|]. simpl. by rewrite IH, xtime_add. Qed.
Lemma times_0 n : times n x00 = x00.
Proof. induction n as [|n IH]; [done|]. simpl. by rewrite IH. Qed.
Lemma times_times n m b : times (n + m) b = times n (times m b).
Proof. induction n as [|n IH]; [done|]. simpl. by rewrite IH. Qed.

Lemma exp_step i : (i < 510)%nat -> exp tables !!! S i = xtime (exp tables !!! i).
Proof.
  intros Hi. apply byte_eqb_eq.
  assert (H : forallb (fun i => Byte.eqb (exp tables !!! S i) (xtime (exp tables !!! i))) (seq 0 510) = true)
    by (vm_compute; reflexivity).
  rewrite forallb_forall in H. apply H, in_seq. lia.
Qed.

Lemma exp_times n i : (n + i <= 510)%nat -> exp tables !!! (n + i)%nat = times n (exp tables !!! i).
Proof. induction n as [|n IH]; intros H; [done|]. simpl. rewrite exp_step by lia. by rewrite IH by lia. Qed.

Lemma exp_log a : a <> x00 -> exp tables !!! index (log tables !!! index a) = a.
Proof.
  intros Ha. apply byte_eqb_eq.
  assert (H : is_zero a || Byte.eqb (exp tables !!! index (log tables !!! index a)) a = true).
  { refine (all_bytes_spec (fun a => is_zero a || Byte.eqb (exp tables !!! index (log tables !!! index a)) a) _ a).
    vm_compute. reflexivity. }
  apply orb_prop in H as [H|H]; [by apply is_zero_spec in H|done].
Qed.

Lemma log_range a : (index (log tables !!! index a) < 255)%nat.
Proof.
  apply Nat.ltb_lt. refine (all_bytes_spec (fun a => index (log tables !!! index a) <? 255)%nat _ a).
  vm_compute. reflexivity.
Qed.

Lemma times_cycle b : times 255 b = b.
Proof.
  apply byte_eqb_eq. refine (all_bytes_spec (fun b => Byte.eqb (times 255 b) b) _ b).
  vm_compute. reflexivity.
Qed.

Definition dlog (a : Byte.byte) : nat := index (log tables !!! index a).

Lemma gf_mul_times a b : a <> x00 -> gf_mul a b = times (dlog a) b.
Proof.
  intros Ha. unfold gf_mul. destruct (is_zero a) eqn:Ea; [by apply is_zero_spec in Ea|].
  destruct (is_zero b) eqn:Eb; simpl.
  { apply is_zero_spec in Eb as ->. by rewrite times_0. }
  pose proof (log_range a). pose proof (log_range b). rewrite exp_times by lia.
  rewrite exp_log; [done|]. intros ->. done.
Qed.

Lemma gf_mul_comm a b : gf_mul a b = gf_mul b a.
Proof. unfold gf_mul. by rewrite orb_comm, Nat.add_comm. Qed.
Lemma gf_mul_0_l b : gf_mul x00 b = x00.
Proof. done. Qed.
Lemma gf_mul_1_l b : gf_mul x01 b = b.
Proof. rewrite gf_mul_times by done. by vm_compute. Qed.

Lemma gf_mul_add_r a b c : gf_mul a (gf_add b c) = gf_add (gf_mul a b) (gf_mul a c).
Proof.
  destruct (decide (a = x00)) as [->|Ha]; [by rewrite !gf_mul_0_l|].
  by rewrite !gf_mul_times, times_add.
Qed.

Lemma times_nonzero n b : times n b = x00 -> b = x00.
Proof.
  intros H. assert (E : times (n * 254) (times n b) = b).
  { rewrite <- times_times. replace (n * 254 + n)%nat with (n * 255)%nat by lia.
    clear H. induction n as [|n IH]; [done|]. cbn [Nat.mul]. by rewrite times_times, IH, times_cycle. }
  by rewrite H, times_0 in E.
Qed.

Lemma gf_mul_nonzero a b : a <> x00 -> b <> x00 -> gf_mul a b <> x00.
Proof. intros Ha Hb. rewrite gf_mul_times by done. intros E. by apply times_nonzero in E. Qed.

Lemma gf_mul_assoc a b c : gf_mul a (gf_mul b c) = gf_mul (gf_mul a b) c.
Proof.
  destruct (decide (a = x00)) as [->|Ha]; [done|].
  destruct (decide (b = x00)) as [->|Hb]; [by rewrite gf_mul_0_l, (gf_mul_comm a), !gf_mul_0_l|].
  destruct (decide (c = x00)) as [->|Hc].
  { rewrite (gf_mul_comm b x00), (gf_mul_comm (gf_mul a b) x00), !gf_mul_0_l. apply gf_mul_comm. }
  rewrite (gf_mul_comm (gf_mul a b)), (gf_mul_comm b c), !(gf_mul_times a), !(gf_mul_times c) by done.
  by rewrite <- !times_times, Nat.add_comm.
Qed.

Lemma gf_inv_l a : a <> x00 -> gf_mul (gf_inv a) a = x01.
Proof.
  intros Ha. apply byte_eqb_eq.
  assert (H : is_zero a || Byte.eqb (gf_mul (gf_inv a) a) x01 = true).
  { refine (all_bytes_spec (fun a => is_zero a || Byte.eqb (gf_mul (gf_inv a) a) x01) _ a).
    vm_compute. reflexivity. }
  apply orb_prop in H as [H|H]; [by apply is_zero_spec in H|done].
Qed.

(** ** The field *)

Definition gf_div (a b : Byte.byte) : Byte.byte := gf_mul a (gf_inv b).

Lemma ring_laws : ring_theory x00 x01 gf_add gf_mul gf_add (fun a => a) eq.
Proof.
  split.
  - apply gf_add_0_l.
  - apply gf_add_comm.
  - apply gf_add_assoc.
  - apply gf_mul_1_l.
  - apply gf_mul_comm.
  - apply gf_mul_assoc.
  - intros a b c. by rewrite gf_mul_comm, gf_mul_add_r, !(gf_mul_comm c).
  - done.
  - apply gf_add_self.
Qed.

Lemma field_laws :
  field_theory x00 x01 gf_add gf_mul gf_add (fun a => a) gf_div gf_inv eq.
Proof. split; [apply ring_laws|done|done|apply gf_inv_l]. Qed.

Add Field gf256 : field_laws.

Lemma gf_add_eq_0 a b : gf_add a b = x00 -> a = b.
Proof.
  intros H. rewrite <- (gf_add_0_l b), <- H, <- gf_add_assoc, gf_add_self.
  by rewrite gf_add_comm, gf_add_0_l.
Qed.

Lemma gf_mul_eq_0 a b : gf_mul a b = x00 -> a = x00 \/ b = x00.
Proof.
  intros H. destruct (decide (a = x00)) as [|Ha]; [by left|]. right.
  destruct (decide (b = x00)) as [|Hb]; [done|]. by apply gf_mul_nonzero in H.
Qed.

Lemma gf_inv_nonzero a : a <> x00 -> gf_inv a <> x00.
Proof. intros Ha E. pose proof (gf_inv_l a Ha) as H. by rewrite E in H. Qed.

End Gf256.
