(* ===== verification/Manifest.v ===== *)
(** * Content identifiers and manifests

    src/storage/content_id.rs and src/storage/manifest.rs: what a manifest says
    about a sharded object, the identifier that commits to it, its
    constructors, and the check an untrusted manifest has to pass. *)

From Stdlib Require Import ZArith Lia.
From stdpp Require Import base tactics strings numbers pretty gmap list.
From S2P Require Import Prelude Hashing.
Import Hashing.
Open Scope Z_scope.

Module Manifest.

Abbreviation ContentId := Hash32.

(** [hex::encode] *)
Definition hex_digit (d : Z) : Ascii.ascii :=
  Ascii.ascii_of_nat (Z.to_nat (if d <? 10 then 48 + d else 87 + d)).
Definition hex_encode (bs : bytes) : string :=
  String.string_of_list_ascii (flat_map (fun b => [hex_digit (b / 16); hex_digit (b mod 16)]) bs).

(** ** Data *)

Inductive ShardKind : Type := Data | Parity.

Record ShardRef : Type := mkShard { index : Z; shard_id : ContentId; size : Z; kind : ShardKind }.

Inductive ContentCipher : Type := Aes256Gcm | ChaCha20Poly1305 | XChaCha20Poly1305.
Inductive ContentEncryption : Type := Plaintext | ClientSide (cipher : ContentCipher).

Record ErasureScheme : Type := mkScheme { k : Z; n : Z }.

Record ContentManifest : Type := mkManifest {
  manifest_id : ContentId;
  owner : Address;
  total_size : Z;
  shard_count : Z;
  shards : list ShardRef;
  erasure : ErasureScheme;
  content_size_field : Z;
  encryption : ContentEncryption;
}.

#[export] Instance ShardKind_eq_dec : EqDecision ShardKind.
Proof. solve_decision. Defined.
#[export] Instance ContentEncryption_eq_dec : EqDecision ContentEncryption.
Proof. intros x y. unfold Decision. repeat decide equality. Defined.

Definition MIN_AEAD_CIPHERTEXT_BYTES : Z := 16.

Definition cipher_tag (c : ContentCipher) : Z :=
  match c with Aes256Gcm => 1 | ChaCha20Poly1305 => 2 | XChaCha20Poly1305 => 3 end.
Definition encryption_tag (e : ContentEncryption) : Z :=
  match e with Plaintext => 0 | ClientSide c => cipher_tag c end.
Definition is_encrypted (e : ContentEncryption) : bool :=
  match e with Plaintext => false | ClientSide _ => true end.

Definition cipher_fmt (c : ContentCipher) : string :=
  match c with
  | Aes256Gcm => "aes-256-gcm"
  | ChaCha20Poly1305 => "chacha20-poly1305"
  | XChaCha20Poly1305 => "xchacha20-poly1305"
  end.
Definition encryption_fmt (e : ContentEncryption) : string :=
  match e with Plaintext => "plaintext" | ClientSide c => "client-side/" +:+ cipher_fmt c end.

(** ** Erasure schemes *)

Definition replication (count : Z) : ErasureScheme := mkScheme count count.
Definition parity_count (e : ErasureScheme) : Z := saturating_sub (n e) (k e).
Definition loss_tolerance (e : ErasureScheme) : Z := parity_count e.

(** [a.div_ceil(b)] *)
Definition div_ceil (a b : Z) : Z := if a mod b =? 0 then a / b else a / b + 1.

Definition repair_margin (e : ErasureScheme) : Z :=
  let parity := parity_count e in
  if parity =? 0 then 0 else Z.min (Z.max (div_ceil parity 3) 2) parity.

Definition overhead_per_mille (e : ErasureScheme) : Z :=
  if k e =? 0 then U32 - 1 else saturating_mul U32 (n e) 1000 / k e.

Definition validate_scheme (e : ErasureScheme) : result unit string :=
  check? negb (k e =? 0) else "erasure scheme k must be at least 1" in
  check? negb (n e <? k e) else
    ("erasure scheme n " +:+ pretty (n e) +:+ " is below k " +:+ pretty (k e) +:+
     "; n counts data plus parity") in
  Ok tt.

Definition default_scheme : ErasureScheme := mkScheme 1 1.

Section manifest.
Context `{H : FieldHash}.

(** [ContentId::of]; a shard's bytes are read as numbers. *)
Definition content_id_of (chunk : bytes) : ContentId :=
  hash_fields_bytes [ascii_bytes "BDLM_CONTENT_V1"; chunk].

(** [ContentId::of_subrange]: a range outside the chunk has its own tag. *)
Definition of_subrange (chunk : bytes) (start fin : Z) : ContentId :=
  if (fin <? start) || (zlen chunk <? fin) then
    hash_fields_bytes [ascii_bytes "BDLM_CONTENT_SUBRANGE_OOR_V1"; u64_le start; u64_le fin]
  else
    hash_fields_bytes [ascii_bytes "BDLM_CONTENT_SUBRANGE_V1"; u64_le start; u64_le fin;
      take (Z.to_nat (fin - start)) (drop (Z.to_nat start) chunk)].

Definition of_subrange_for_deal (chunk : bytes) (start fin : Z) (operator : Address) (deal_id : Z)
    (manifest_id : ContentId) : ContentId :=
  hash_fields_bytes [ascii_bytes "BDLM_CONTENT_SUBRANGE_DEAL_V1"; of_subrange chunk start fin;
    operator; u64_le deal_id; manifest_id].

(** [ShardRef::from_bytes] *)
Definition shard_from_bytes (i : Z) (chunk : bytes) : ShardRef :=
  mkShard i (content_id_of chunk) (zlen chunk mod U32) Data.

Definition kind_tag (x : ShardKind) : Z := match x with Data => 0 | Parity => 1 end.

Definition shard_bytes (s : ShardRef) : bytes :=
  u32_le (index s) ++ shard_id s ++ u32_le (size s) ++ [kind_tag (kind s)].

Definition manifest_preimage (l : list ShardRef) (e : ErasureScheme) (enc : ContentEncryption)
    (content total : Z) : bytes :=
  ascii_bytes "BDLM_MANIFEST_V4" ++ u32_le (zlen l mod U32) ++ concat (map shard_bytes l) ++
  u32_le (k e) ++ u32_le (n e) ++ [encryption_tag enc] ++ u64_le content ++ u64_le total.

Definition manifest_id_from_parts (l : list ShardRef) (e : ErasureScheme) (enc : ContentEncryption)
    (content total : Z) : ContentId :=
  hash_fields_bytes [ascii_bytes "BDLM_MANIFEST_V4"; manifest_preimage l e enc content total].

(** The identifier of manifests before erasure coding. *)
Definition manifest_id_from_shards (l : list ShardRef) : ContentId :=
  hash_fields_bytes [ascii_bytes "BDLM_MANIFEST_V1";
    ascii_bytes "BDLM_MANIFEST_V1" ++ u32_le (zlen l mod U32) ++
    concat (map (fun s => u32_le (index s) ++ shard_id s ++ u32_le (size s)) l)].

(** [content_size()] *)
Definition content_size (m : ContentManifest) : Z :=
  if content_size_field m =? 0 then total_size m else content_size_field m.

Definition derived_id (m : ContentManifest) : ContentId :=
  manifest_id_from_parts (shards m) (erasure m) (encryption m) (content_size m) (total_size m).

(** Recompute the identifier after a field changed. *)
Definition reseal (m : ContentManifest) : ContentManifest :=
  mkManifest (derived_id m) (owner m) (total_size m) (shard_count m) (shards m) (erasure m)
    (content_size_field m) (encryption m).

(** The loop both the constructor and the validator run over the shards: sizes
    positive, indices distinct, the sum of the sizes within [u64]. *)
Fixpoint scan_shards (l : list ShardRef) (seen : gset Z) (total : Z) : result Z string :=
  match l with
  | [] => Ok total
  | s :: l =>
      check? negb (size s =? 0) else ("Shard " +:+ pretty (index s) +:+ " has size 0") in
      check? negb (bool_decide (index s ∈ seen)) else
        ("Duplicate shard index " +:+ pretty (index s)) in
      let? total := ok_or (checked_add U64 total (size s)) "ContentManifest total size overflow" in
      scan_shards l ({[index s]} ∪ seen) total
  end.

Definition zero_address : Address := replicate 32 0.

Definition from_shards (l : list ShardRef) : result ContentManifest string :=
  check? negb (bool_decide (l = [])) else "ContentManifest must have at least one shard" in
  let? total := scan_shards l ∅ 0 in
  let count := zlen l mod U32 in
  Ok (reseal (mkManifest [] zero_address total count l (replication count) total Plaintext)).

Definition with_content_size (m : ContentManifest) (c : Z) : result ContentManifest string :=
  check? negb (c =? 0) else "content_size must be greater than zero" in
  check? negb (total_size m <? c) else
    ("content_size " +:+ pretty c +:+ " exceeds the " +:+ pretty (total_size m) +:+
     " bytes stored across shards") in
  Ok (reseal (mkManifest (manifest_id m) (owner m) (total_size m) (shard_count m) (shards m)
                (erasure m) c (encryption m))).

Definition verify_id (m : ContentManifest) : result unit string :=
  check? bool_decide (derived_id m = manifest_id m) else
    ("manifest_id " +:+ hex_encode (manifest_id m) +:+ " does not match the " +:+
     hex_encode (derived_id m) +:+ " its contents derive") in
  Ok tt.

(** [.filter(|s| s.kind == x).count() as u32] *)
Definition count_kind (x : ShardKind) (l : list ShardRef) : Z :=
  zlen (filter (fun s => kind s = x) l) mod U32.

Definition validate_untrusted (m : ContentManifest) : result unit string :=
  check? negb (bool_decide (shards m = [])) else "ContentManifest must have at least one shard" in
  check? zlen (shards m) mod U32 =? shard_count m else
    ("shard_count " +:+ pretty (shard_count m) +:+ " does not match the " +:+
     pretty (zlen (shards m)) +:+ " shards present") in
  let? total := scan_shards (shards m) ∅ 0 in
  check? total =? total_size m else
    ("total_size " +:+ pretty (total_size m) +:+ " does not match the " +:+ pretty total +:+
     " bytes the shards sum to") in
  check? negb (total_size m <? content_size_field m) else
    ("content_size " +:+ pretty (content_size_field m) +:+ " exceeds the " +:+
     pretty (total_size m) +:+ " bytes stored across shards") in
  let? _ := validate_scheme (erasure m) in
  check? n (erasure m) =? shard_count m else
    ("erasure n " +:+ pretty (n (erasure m)) +:+ " does not match shard_count " +:+
     pretty (shard_count m)) in
  let data := count_kind Data (shards m) in
  check? data =? k (erasure m) else
    ("erasure k " +:+ pretty (k (erasure m)) +:+ " does not match the " +:+ pretty data +:+
     " data shards present") in
  check? negb (is_encrypted (encryption m) && (content_size m <? MIN_AEAD_CIPHERTEXT_BYTES)) else
    ("manifest declares " +:+ encryption_fmt (encryption m) +:+ " but content_size " +:+
     pretty (content_size m) +:+ " is below the " +:+ pretty MIN_AEAD_CIPHERTEXT_BYTES +:+
     "-byte authentication tag every named cipher appends") in
  verify_id m.

Definition with_erasure (m : ContentManifest) (e : ErasureScheme) : result ContentManifest string :=
  let? _ := validate_scheme e in
  check? n e =? shard_count m else
    ("erasure n " +:+ pretty (n e) +:+ " does not match shard_count " +:+ pretty (shard_count m)) in
  let data := count_kind Data (shards m) in
  let parity := count_kind Parity (shards m) in
  check? data =? k e else
    ("erasure k " +:+ pretty (k e) +:+ " does not match the " +:+ pretty data +:+
     " data shards present") in
  check? parity =? parity_count e else
    ("erasure declares " +:+ pretty (parity_count e) +:+ " parity shards but " +:+
     pretty parity +:+ " are present") in
  Ok (reseal (mkManifest (manifest_id m) (owner m) (total_size m) (shard_count m) (shards m)
                e (content_size_field m) (encryption m))).

Definition is_recoverable (m : ContentManifest) (live : Z) : bool := k (erasure m) <=? live.

Definition needs_repair (m : ContentManifest) (live margin : Z) : bool :=
  if live <? k (erasure m) then false
  else live <? saturating_add U32 (k (erasure m)) margin.

Definition manifest_repair_margin (m : ContentManifest) : Z := repair_margin (erasure m).

Definition with_encryption (m : ContentManifest) (enc : ContentEncryption) : ContentManifest :=
  reseal (mkManifest (manifest_id m) (owner m) (total_size m) (shard_count m) (shards m)
            (erasure m) (content_size_field m) enc).

Definition with_owner (m : ContentManifest) (o : Address) : ContentManifest :=
  mkManifest (manifest_id m) o (total_size m) (shard_count m) (shards m) (erasure m)
    (content_size_field m) (encryption m).

(** The slicing loop of [from_bytes_sliced]: [fuel] bounds the number of
    slices by the number of bytes.  The counter [i] is a [u32] in the source;
    the model is exact below 2^32 slices. *)
Fixpoint slice_from (fuel : nat) (data : bytes) (chunk : nat) (i : Z) : list ShardRef :=
  match fuel, data with
  | S fuel, _ :: _ =>
      shard_from_bytes i (take chunk data) :: slice_from fuel (drop chunk data) chunk (i + 1)
  | _, _ => []
  end.

Definition from_bytes_sliced (data : bytes) (chunk : Z) : result ContentManifest string :=
  check? negb (chunk =? 0) else "ContentManifest chunk_size must be > 0" in
  check? negb (bool_decide (data = [])) else "ContentManifest data must be non-empty" in
  from_shards (slice_from (length data) data (Z.to_nat chunk) 0).

(** [shard(&self, shard_id)] *)
Definition shard (m : ContentManifest) (id : ContentId) : option ShardRef :=
  list_find (fun s => shard_id s = id) (shards m) ≫= fun p => Some p.2.

(** ** What the identifier commits to *)

(** The widths of the source's types. *)
Definition shard_wf (s : ShardRef) : Prop :=
  index s ∈u U32 /\ size s ∈u U32 /\ length (shard_id s) = 32%nat.
Record manifest_wf (m : ContentManifest) : Prop := {
  wf_shards : Forall shard_wf (shards m);
  wf_count : zlen (shards m) < U32;
  wf_k : k (erasure m) ∈u U32;
  wf_n : n (erasure m) ∈u U32;
  wf_content : content_size m ∈u U64;
  wf_total : total_size m ∈u U64;
}.

Lemma shard_bytes_inj s s' r r' :
  shard_wf s -> shard_wf s' -> shard_bytes s ++ r = shard_bytes s' ++ r' -> s = s' /\ r = r'.
Proof.
  destruct s as [i a z d], s' as [i' a' z' d']. intros (Hi & Hz & Ha) (Hi' & Hz' & Ha') E.
  unfold shard_bytes in E. cbn [index shard_id size kind] in *. rewrite <- !app_assoc in E.
  apply app_inj_1 in E as [E1 E]; [|by rewrite !u32_le_length].
  apply app_inj_1 in E as [E2 E]; [|congruence].
  apply app_inj_1 in E as [E3 E]; [|by rewrite !u32_le_length].
  injection E as E4 ->. apply u32_le_inj in E1, E3; try done.
  split; [|done]. destruct d, d'; simplify_eq/=; congruence.
Qed.

Lemma shards_bytes_inj l l' r r' :
  length l = length l' -> Forall shard_wf l -> Forall shard_wf l' ->
  concat (map shard_bytes l) ++ r = concat (map shard_bytes l') ++ r' -> l = l' /\ r = r'.
Proof.
  revert l' r r'. induction l as [|s l IH]; intros [|s' l'] r r' Hlen Hl Hl' E; try done.
  apply Forall_cons in Hl as [Hs Hl]. apply Forall_cons in Hl' as [Hs' Hl'].
  cbn [map concat] in E. rewrite <- !app_assoc in E. apply shard_bytes_inj in E as [-> E]; [|done..].
  injection Hlen as Hlen. destruct (IH l' r r' Hlen Hl Hl' E) as [-> ->]. done.
Qed.

Lemma encryption_tag_inj e e' : encryption_tag e = encryption_tag e' -> e = e'.
Proof. by destruct e as [|[]], e' as [|[]]. Qed.

Lemma pair_inj (a x y : bytes) : [a; x] = [a; y] -> x = y.
Proof. by intros [= ->]. Qed.

Lemma verify_id_eq m : verify_id m = Ok tt -> derived_id m = manifest_id m.
Proof. unfold verify_id. by case_bool_decide. Qed.

(** The manifest identifier is binding.  Two manifests whose identifiers
    verify and are equal agree on every shard (position, content, size, kind),
    on the erasure scheme, the encryption claim, the object length and the
    stored length; only the owner and the redundant shard count are free. *)
Theorem manifest_id_binds `{!CollisionFree H} (m m' : ContentManifest)
    (Hwf : manifest_wf m) (Hwf' : manifest_wf m')
    (Hid : verify_id m = Ok tt) (Hid' : verify_id m' = Ok tt)
    (Heq : manifest_id m = manifest_id m') :
  shards m = shards m' /\ erasure m = erasure m' /\ encryption m = encryption m' /\
  content_size m = content_size m' /\ total_size m = total_size m'.
Proof.
  destruct Hwf as [Hs Hc Hk Hn Hco Ht], Hwf' as [Hs' Hc' Hk' Hn' Hco' Ht'].
  apply verify_id_eq in Hid, Hid'.
  assert (E : derived_id m = derived_id m') by congruence.
  unfold derived_id, manifest_id_from_parts in E. apply hash_fields_inj, pair_inj in E.
  unfold manifest_preimage in E. apply app_inv_head in E.
  apply app_inj_1 in E as [El E]; [|by rewrite !u32_le_length].
  assert (0 <= zlen (shards m) /\ 0 <= zlen (shards m')) as [??] by (unfold zlen; lia).
  rewrite !Z.mod_small in El by lia. apply u32_le_inj in El; [|unfold zlen in *; lia..].
  apply shards_bytes_inj in E as [-> E]; [|unfold zlen in El; lia|done..].
  apply app_inj_1 in E as [Ek E]; [|by rewrite !u32_le_length].
  apply app_inj_1 in E as [En E]; [|by rewrite !u32_le_length].
  apply app_inj_1 in E as [Ee E]; [|done]. injection Ee as Ee. apply u64_le_split in E as [Eco E]; [|done..].
  apply u32_le_inj in Ek, En; try done. apply u64_le_inj in E; [|done..].
  apply encryption_tag_inj in Ee. destruct (erasure m), (erasure m'). simpl in *. by subst.
Qed.

End manifest.

(** Two manifests of one shard, registered by different owners. *)
Definition demo_manifest : ContentManifest :=
  match from_shards (H := framed_hash) [mkShard 0 (replicate 32 7) 5 Data] with
  | Ok m => m
  | Err _ => mkManifest [] [] 0 0 [] default_scheme 0 Plaintext
  end.
Definition demo_copy : ContentManifest := with_owner demo_manifest (replicate 32 9).

Lemma demo_manifest_wf : manifest_wf demo_manifest /\ manifest_wf demo_copy.
Proof.
  assert (E : shards demo_manifest = [mkShard 0 (replicate 32 7) 5 Data]) by (vm_compute; reflexivity).
  split; (constructor; [simpl; rewrite E; repeat constructor; simpl; lia|vm_compute; repeat split; discriminate || reflexivity..]).
Qed.

Lemma demo_verifies : verify_id (H := framed_hash) demo_manifest = Ok tt /\ verify_id (H := framed_hash) demo_copy = Ok tt.
Proof. split; vm_compute; reflexivity. Qed.

Lemma manifest_id_binds_witness :
  owner demo_manifest <> owner demo_copy /\
  shards demo_manifest = shards demo_copy /\ erasure demo_manifest = erasure demo_copy /\
  encryption demo_manifest = encryption demo_copy /\ content_size demo_manifest = content_size demo_copy /\
  total_size demo_manifest = total_size demo_copy.
Proof.
  split; [done|].
  apply (manifest_id_binds (H := framed_hash) (CollisionFree0 := framed_hash_inj) demo_manifest demo_copy
    (proj1 demo_manifest_wf) (proj2 demo_manifest_wf) (proj1 demo_verifies) (proj2 demo_verifies) eq_refl).
Defined.

End Manifest.
