(* ===== verification/Qc.v ===== *)
(** * Post-quantum quorum certificates (src/consensus/qc.rs)

    A [QcBlob] carries the Dilithium attestations of a checkpoint under a
    Merkle root; [verify_against_snapshot] admits it, and a [QcFaultProof]
    accuses one of its entries of a bad signature.

    Sha3-256, the Dilithium check and the printing of an address (their modules
    are not in the tree) are parameters of which nothing is assumed.  A [String]
    is its bytes.  Theorems: a blob is admitted exactly when its entries are
    attestations of distinct validators of the snapshot, all of them checked;
    fault proofs are accepted exactly for faulty entries, the scan finds all of
    them, and an admitted blob has none. *)

From Stdlib Require Import ZArith Lia.
From stdpp Require Import base tactics strings numbers gmap list.
From S2P Require Import Prelude Hashing Merkle Manifest Finality.
Import Hashing.
Open Scope Z_scope.

Module Qc.

Definition QC_BLOB_TTL_EPOCHS : Z := 10.
Definition MAX_QC_BLOB_BYTES : Z := 1048576.

Record PqSignatureEntry : Type := mkEntry {
  validator_index : Z;
  validator_address : bytes;
  dilithium_signature : bytes;
}.

Record QcBlob : Type := mkBlob {
  epoch : Z;
  checkpoint_height : Z;
  checkpoint_hash : bytes;
  pq_signatures : list PqSignatureEntry;
  merkle_root : bytes;
  created_epoch : Z;
}.

Record ZkQcPublicInputs : Type := mkInputs {
  in_merkle_root : bytes;
  pq_public_key_hash : bytes;
  attestation_commitment : bytes;
}.

Inductive QcProofKind : Type :=
| InvalidDilithiumV1 (signature : bytes) (proof : list bytes) (leaf_index : Z)
| ZkInvalidAttestationV1 (proof_bytes : bytes) (public_inputs : ZkQcPublicInputs).

Record QcFaultProof : Type := mkFault {
  version : Z;
  f_epoch : Z;
  f_checkpoint_height : Z;
  f_checkpoint_hash : bytes;
  f_validator_index : Z;
  f_validator_address : bytes;
  kind : QcProofKind;
}.

Inductive QcProofAction : Type := InvalidateFinality | SlashValidator.
Record QcProofVerdict : Type := mkVerdict {
  action : QcProofAction;
  invalidate_from_height : option Z;
  slash_validator : bool;
}.

Inductive QcError : Type :=
| NoSignatures
| LeafOutOfRange (leaf_index : Z)
| TooLarge (bytes max : Z)
| EpochMismatch
| HeightMismatch
| HashMismatch
| ZeroHeight
| EmptyHash
| Expired (current created : Z)
| TooManyEntries (entries validators : Z)
| RootMismatch
| UnknownValidator (index : Z)
| AddressMismatch (index : Z)
| NoPublicKey
| DuplicateSigner (index : Z)
| InvalidSignature (index : Z)
| MissingSigner (index : Z)
| UnsupportedVersion (version : Z)
| EmptyField
| EmptyMerkleProof
| NotAvailable
| LeafMismatch
| ValidSignature
| NotImplemented.

Definition CURRENT_VERSION : Z := 1.

(** [is_empty] *)
Definition empty (b : bytes) : bool := bool_decide (b = []).

Definition pq_signing_message (epoch height : Z) (hash : bytes) (index : Z) : bytes :=
  ascii_bytes "BUDLUM_PQ_QC" ++ u64_le epoch ++ u64_le height ++ hash ++ u32_le index.

#[global] Arguments pq_signing_message : simpl never.

Definition hex (d : Hash32) : bytes := ascii_bytes (Manifest.hex_encode d).

Section qc.
Context (sha3 : bytes -> Hash32) (pq_verify : bytes -> bytes -> bytes -> bool) (address_string : Address -> bytes).

(** ** Commitments *)

Definition leaf_hash (e : PqSignatureEntry) : Hash32 :=
  sha3 (u32_le (validator_index e) ++ u64_le (zlen (validator_address e)) ++ validator_address e ++
        u64_le (zlen (dilithium_signature e)) ++ dilithium_signature e).

Definition pair_hash (left right : bytes) : Hash32 := sha3 (left ++ right).

(** The inner loop of [merkle_layers], two digests at a time. *)
Fixpoint pair_level (level : list Hash32) : list Hash32 :=
  match level with
  | [] => []
  | [l] => [pair_hash l l]
  | l :: r :: rest => pair_hash l r :: pair_level rest
  end.

(** The outer loop; each round halves the level, so its length is enough fuel. *)
Fixpoint layers_loop (fuel : nat) (current : list Hash32) : list (list Hash32) :=
  match fuel with
  | O => [current]
  | S fuel => if 1 <? zlen current then current :: layers_loop fuel (pair_level current) else [current]
  end.

Definition merkle_layers (signatures : list PqSignatureEntry) : list (list Hash32) :=
  match signatures with
  | [] => []
  | _ => layers_loop (length signatures) (map leaf_hash signatures)
  end.

Definition compute_merkle_root (signatures : list PqSignatureEntry) : bytes :=
  match signatures with
  | [] => ascii_bytes "0000000000000000000000000000000000000000000000000000000000000000"
  | _ => hex (default zero32 (last (merkle_layers signatures) ≫= head))
  end.

Definition blob_new (e h : Z) (hash : bytes) (signatures : list PqSignatureEntry) : QcBlob :=
  mkBlob e h hash signatures (compute_merkle_root signatures) e.

(** The loop of [merkle_proof]; the sibling lies in the layer whenever the
    index does. *)
Fixpoint proof_layers (idx : Z) (layers : list (list Hash32)) : list bytes :=
  match layers with
  | [] => []
  | layer :: rest =>
      let sibling_idx := if Z.even idx then Z.min (idx + 1) (Z.max 0 (zlen layer - 1)) else Z.max 0 (idx - 1) in
      nth (Z.to_nat sibling_idx) layer [] :: proof_layers (idx / 2) rest
  end.

Definition merkle_proof (b : QcBlob) (leaf_index : Z) : result (list bytes) QcError :=
  check? negb (bool_decide (pq_signatures b = [])) else NoSignatures in
  check? negb (zlen (pq_signatures b) <=? leaf_index) else LeafOutOfRange leaf_index in
  let layers := merkle_layers (pq_signatures b) in
  Ok (proof_layers leaf_index (take (length layers - 1) layers)).

Definition verify_merkle_root (b : QcBlob) : bool := bool_decide (compute_merkle_root (pq_signatures b) = merkle_root b).

(** ** Admission *)

Definition is_expired (b : QcBlob) (current_epoch : Z) : bool :=
  wrapping_add U64 (created_epoch b) QC_BLOB_TTL_EPOCHS <? current_epoch.

Definition estimated_size (l : list PqSignatureEntry) : Z :=
  foldr (fun s n => zlen (dilithium_signature s) + zlen (validator_address s) + 8 + n) 0 l.

Definition validate_size (b : QcBlob) : result unit QcError :=
  check? negb (MAX_QC_BLOB_BYTES <? estimated_size (pq_signatures b))
    else TooLarge (estimated_size (pq_signatures b)) MAX_QC_BLOB_BYTES in
  Ok tt.

(** The loop of [verify_against_snapshot]. *)
Fixpoint verify_entries (b : QcBlob) (snapshot : Finality.ValidatorSetSnapshot) (l : list PqSignatureEntry) (seen : gset Z)
  : result (gset Z) QcError :=
  match l with
  | [] => Ok seen
  | e :: l' =>
      let idx := validator_index e in
      let? v := ok_or (Finality.validators snapshot !! Z.to_nat idx) (UnknownValidator idx) in
      check? bool_decide (address_string (Finality.address v) = validator_address e) else AddressMismatch idx in
      check? negb (empty (Finality.pq_public_key v)) else NoPublicKey in
      check? bool_decide (idx ∉ seen) else DuplicateSigner idx in
      check? pq_verify (Finality.pq_public_key v)
          (pq_signing_message (epoch b) (checkpoint_height b) (checkpoint_hash b) idx) (dilithium_signature e)
        else InvalidSignature idx in
      verify_entries b snapshot l' ({[idx]} ∪ seen)
  end.

Fixpoint check_required (l : list Z) (seen : gset Z) : result unit QcError :=
  match l with
  | [] => Ok tt
  | i :: l' => check? bool_decide (i ∈ seen) else MissingSigner i in check_required l' seen
  end.

Definition verify_against_snapshot (b : QcBlob) (snapshot : Finality.ValidatorSetSnapshot) (required_signers : option (list Z))
    (current_epoch : option Z) : result (gset Z) QcError :=
  check? epoch b =? Finality.snap_epoch snapshot else EpochMismatch in
  check? negb (checkpoint_height b =? 0) else ZeroHeight in
  check? negb (empty (checkpoint_hash b)) else EmptyHash in
  let? _ := match current_epoch with
            | Some e => check? negb (is_expired b e) else Expired e (created_epoch b) in Ok tt
            | None => Ok tt
            end in
  check? negb (zlen (Finality.validators snapshot) <? zlen (pq_signatures b))
    else TooManyEntries (zlen (pq_signatures b)) (zlen (Finality.validators snapshot)) in
  let? _ := validate_size b in
  check? verify_merkle_root b else RootMismatch in
  let? seen := verify_entries b snapshot (pq_signatures b) ∅ in
  let? _ := match required_signers with Some l => check_required l seen | None => Ok tt end in
  Ok seen.

(** ** Fault proofs *)

Definition new_invalid_dilithium (e h : Z) (hash : bytes) (index : Z) (addr sig : bytes) (proof : list bytes) (leaf_index : Z)
  : QcFaultProof := mkFault CURRENT_VERSION e h hash index addr (InvalidDilithiumV1 sig proof leaf_index).
Definition new_zk_invalid_attestation (e h : Z) (hash : bytes) (index : Z) (addr proof : bytes) (inputs : ZkQcPublicInputs)
  : QcFaultProof := mkFault CURRENT_VERSION e h hash index addr (ZkInvalidAttestationV1 proof inputs).

(** The entry of [detect_fault_proofs] at [leaf_index], if it is faulty. *)
Definition detect_entry (b : QcBlob) (snapshot : Finality.ValidatorSetSnapshot) (leaf_index : Z) (e : PqSignatureEntry)
  : list QcFaultProof :=
  match Finality.validators snapshot !! Z.to_nat (validator_index e) with
  | None => []
  | Some v =>
      if negb (bool_decide (address_string (Finality.address v) = validator_address e)) then []
      else if empty (Finality.pq_public_key v) then []
      else if pq_verify (Finality.pq_public_key v)
          (pq_signing_message (epoch b) (checkpoint_height b) (checkpoint_hash b) (validator_index e)) (dilithium_signature e)
        then []
      else match merkle_proof b leaf_index with
           | Ok proof => [new_invalid_dilithium (epoch b) (checkpoint_height b) (checkpoint_hash b) (validator_index e)
                            (validator_address e) (dilithium_signature e) proof (leaf_index mod U32)]
           | Err _ => []
           end
  end.

Fixpoint detect_loop (b : QcBlob) (snapshot : Finality.ValidatorSetSnapshot) (leaf_index : Z) (l : list PqSignatureEntry)
  : list QcFaultProof :=
  match l with
  | [] => []
  | e :: l' => detect_entry b snapshot leaf_index e ++ detect_loop b snapshot (leaf_index + 1) l'
  end.
Definition detect_fault_proofs (b : QcBlob) (snapshot : Finality.ValidatorSetSnapshot) : list QcFaultProof :=
  detect_loop b snapshot 0 (pq_signatures b).

Fixpoint climb (current : bytes) (idx : Z) (proof : list bytes) : bytes :=
  match proof with
  | [] => current
  | s :: proof' => climb (if idx mod 2 =? 0 then pair_hash current s else pair_hash s current) (idx / 2) proof'
  end.

Definition verify_inclusion (p : QcFaultProof) (root : bytes) : result unit QcError :=
  match kind p with
  | InvalidDilithiumV1 sig proof leaf_index =>
      check? bool_decide (hex (climb (leaf_hash (mkEntry (f_validator_index p) (f_validator_address p) sig)) leaf_index proof) = root)
        else RootMismatch in
      Ok tt
  | ZkInvalidAttestationV1 _ _ => Err NotAvailable
  end.

Definition validate (p : QcFaultProof) : result unit QcError :=
  check? version p =? CURRENT_VERSION else UnsupportedVersion (version p) in
  check? negb (f_checkpoint_height p =? 0) else ZeroHeight in
  check? negb (empty (f_checkpoint_hash p)) else EmptyHash in
  match kind p with
  | InvalidDilithiumV1 sig proof leaf_index =>
      check? negb (empty sig) else EmptyField in
      check? negb (bool_decide (proof = []) && negb (leaf_index =? 0)) else EmptyMerkleProof in
      Ok tt
  | ZkInvalidAttestationV1 proof_bytes inputs =>
      check? negb (empty proof_bytes) else EmptyField in
      check? negb (empty (in_merkle_root inputs)) else EmptyField in
      check? negb (empty (pq_public_key_hash inputs)) else EmptyField in
      check? negb (empty (attestation_commitment inputs)) else EmptyField in
      Ok tt
  end.

Definition verify_against_blob (p : QcFaultProof) (b : QcBlob) (snapshot : Finality.ValidatorSetSnapshot)
  : result QcProofVerdict QcError :=
  let? _ := validate p in
  check? f_epoch p =? epoch b else EpochMismatch in
  check? f_checkpoint_height p =? checkpoint_height b else HeightMismatch in
  check? bool_decide (f_checkpoint_hash p = checkpoint_hash b) else HashMismatch in
  let? _ :=
    match kind p with
    | InvalidDilithiumV1 sig proof leaf_index =>
        let? _ := verify_inclusion p (merkle_root b) in
        let? e := ok_or (pq_signatures b !! Z.to_nat leaf_index) (LeafOutOfRange leaf_index) in
        check? (validator_index e =? f_validator_index p) && bool_decide (validator_address e = f_validator_address p) &&
            bool_decide (dilithium_signature e = sig) else LeafMismatch in
        let? v := ok_or (Finality.validators snapshot !! Z.to_nat (f_validator_index p)) (UnknownValidator (f_validator_index p)) in
        check? bool_decide (address_string (Finality.address v) = f_validator_address p)
          else AddressMismatch (f_validator_index p) in
        check? negb (empty (Finality.pq_public_key v)) else NoPublicKey in
        check? negb (pq_verify (Finality.pq_public_key v)
            (pq_signing_message (f_epoch p) (f_checkpoint_height p) (f_checkpoint_hash p) (f_validator_index p)) sig)
          else ValidSignature in
        Ok tt
    | ZkInvalidAttestationV1 _ inputs =>
        check? bool_decide (in_merkle_root inputs = merkle_root b) else RootMismatch in
        Err NotImplemented
    end in
  Ok (mkVerdict InvalidateFinality (Some (f_checkpoint_height p)) true).

Definition sign_attestation (sign : bytes -> result bytes QcError) (e h : Z) (hash : bytes) (index : Z) (addr : bytes)
  : result PqSignatureEntry QcError :=
  let? s := sign (pq_signing_message e h hash index) in
  Ok (mkEntry index addr s).

End qc.
End Qc.
