(* ===== verification/QcFacts.v ===== *)
(** * Theorems about quorum certificates (Qc.v) *)

From Stdlib Require Import ZArith Lia.
From stdpp Require Import base tactics strings numbers gmap list.
From S2P Require Import Prelude Hashing Merkle Manifest Finality Qc.
Import Hashing Qc.
Open Scope Z_scope.

Module QcFacts.

(** ** The message binds what it attests *)

(** The one field of variable length stands between fields of fixed length. *)
Lemma pq_message_inj e h x i e' h' x' i' :
  e ∈u U64 -> e' ∈u U64 -> h ∈u U64 -> h' ∈u U64 -> i ∈u U32 -> i' ∈u U32 ->
  pq_signing_message e h x i = pq_signing_message e' h' x' i' -> e = e' /\ h = h' /\ x = x' /\ i = i'.
Proof.
  intros He He' Hh Hh' Hi Hi' E. unfold pq_signing_message in E. apply app_inv_head in E.
  apply u64_le_split in E as [-> E]; [|done..]. apply u64_le_split in E as [-> E]; [|done..].
  apply app_inj_2 in E as [-> E]; [|by rewrite !u32_le_length]. by apply u32_le_inj in E as ->.
Qed.

Section qc.
Context (sha3 : bytes -> Hash32) (pq_verify : bytes -> bytes -> bytes -> bool) (address_string : Address -> bytes).

(** ** The tree *)

(** The tree of a blob is that of Merkle.v with the untagged node hash. *)
#[local] Instance plain : FieldHash :=
  fun fields => match fields with [_; l; r] => sha3 (l ++ r) | _ => [] end.

Lemma pair_level_next l : pair_level sha3 l = Merkle.next_level l.
Proof. induction l as [|a|a b l IH] using Merkle.list_pair_ind; [done|done|]. cbn. by rewrite IH. Qed.

Lemma climb_merkle x i p : climb sha3 x i p = Merkle.climb x i p.
Proof.
  revert x i. induction p as [|s p IH]; intros x i; [done|]. cbn [climb Merkle.climb].
  rewrite IH, Zeven_mod. unfold Zeq_bool. by destruct (i mod 2 =? 0) eqn:E.
Qed.

Lemma layers_last fuel l : last (layers_loop sha3 fuel l) = Some (Merkle.root_loop fuel l).
Proof.
  revert l. induction fuel as [|fuel IH]; intros l; [done|]. cbn. destruct (1 <? zlen l); [|done].
  rewrite <- pair_level_next, <- IH. by destruct (layers_loop sha3 fuel (pair_level sha3 l)) eqn:E; [destruct fuel; cbn in E; [|destruct (1 <? _)]|].
Qed.

Lemma layers_ne fuel l : layers_loop sha3 fuel l <> [].
Proof. intros E. pose proof (layers_last fuel l) as H. by rewrite E in H. Qed.

Lemma root_loop_ne fuel l : l <> [] -> Merkle.root_loop fuel l <> [].
Proof.
  revert l. induction fuel as [|fuel IH]; intros l Hl; [done|]. cbn. destruct (1 <? zlen l) eqn:E; [|done].
  apply IH. destruct l as [|a [|b l]]; done.
Qed.

Lemma sibling_nth (l : list Hash32) i : 0 <= i < zlen l ->
  nth (Z.to_nat (if Z.even i then Z.min (i + 1) (Z.max 0 (zlen l - 1)) else Z.max 0 (i - 1))) l [] = Merkle.sibling_of l i.
Proof.
  intros Hi. unfold Merkle.sibling_of, zlen in *. destruct (Z.even i) eqn:E.
  - destruct (decide (i + 1 < Z.of_nat (length l))) as [Hlt|Hge].
    + rewrite Z.min_l by lia. destruct (lookup_lt_is_Some_2 l (Z.to_nat (i + 1))) as [x Hx]; [lia|].
      by rewrite Hx, (Merkle.nth_default_lookup _ _ _ Hx).
    + rewrite Z.min_r by lia. rewrite (lookup_ge_None_2 l (Z.to_nat (i + 1))) by lia. cbn. f_equal. lia.
  - assert (i <> 0) by (intros ->; done). rewrite Z.max_r by lia.
    destruct (lookup_lt_is_Some_2 l (Z.to_nat (i - 1))) as [x Hx]; [lia|].
    by rewrite Hx, (Merkle.nth_default_lookup _ _ _ Hx).
Qed.

Lemma proof_layers_loop fuel l i : 0 <= i < zlen l ->
  proof_layers i (take (length (layers_loop sha3 fuel l) - 1) (layers_loop sha3 fuel l)) = Merkle.proof_loop fuel i l [].
Proof.
  revert l i. induction fuel as [|fuel IH]; intros l i Hi; [done|]. cbn [layers_loop Merkle.proof_loop].
  destruct (1 <? zlen l) eqn:E; [|done]. rewrite Merkle.proof_loop_acc. cbn [length app].
  pose proof (layers_ne fuel (pair_level sha3 l)) as Hne. fold (Merkle.sibling_of l i).
  rewrite <- (IH (Merkle.next_level l)) by (rewrite Merkle.zlen_next_level; apply Merkle.half_index; lia).
  rewrite pair_level_next in *. destruct (layers_loop sha3 fuel (Merkle.next_level l)) as [|a r] eqn:Er; [done|].
  cbn [length Nat.sub take proof_layers]. rewrite Nat.sub_0_r. by rewrite sibling_nth.
Qed.

(** A proof made by the blob leads from its leaf to the root. *)
Lemma merkle_proof_climb b i e : pq_signatures b !! Z.to_nat i = Some e -> 0 <= i ->
  exists p, merkle_proof sha3 b i = Ok p /\
    hex (climb sha3 (leaf_hash sha3 e) i p) = compute_merkle_root sha3 (pq_signatures b) /\ (p = [] -> i = 0).
Proof.
  intros He Hi. assert (Hlt : i < zlen (pq_signatures b)) by (apply lookup_lt_Some in He; unfold zlen; lia).
  unfold merkle_proof. rewrite bool_decide_eq_false_2 by (intros E; by rewrite E in He).
  rewrite (proj2 (Z.leb_gt _ _) Hlt). cbn. set (l := map (leaf_hash sha3) (pq_signatures b)).
  assert (Hl : zlen l = zlen (pq_signatures b)) by (unfold l, zlen; by rewrite length_map).
  assert (Hm : merkle_layers sha3 (pq_signatures b) = layers_loop sha3 (length (pq_signatures b)) l)
    by (unfold merkle_layers; by destruct (pq_signatures b)).
  rewrite Hm, proof_layers_loop by lia. eexists. split; [done|]. split.
  - rewrite climb_merkle. assert (Hn : nth (Z.to_nat i) l [] = leaf_hash sha3 e).
    { apply Merkle.nth_default_lookup. unfold l. by rewrite list_lookup_fmap, He. }
    rewrite <- Hn, Merkle.climb_root by (unfold zlen in *; lia).
    assert (Hr : Merkle.root_loop (length (pq_signatures b)) l <> []).
    { apply root_loop_ne. intros E. unfold zlen in *. rewrite E in Hl. cbn in Hl. lia. }
    unfold compute_merkle_root. rewrite Hm, layers_last. cbn.
    destruct (pq_signatures b) as [|x r]; [done|]. by destruct (Merkle.root_loop _ l).
  - destruct (length (pq_signatures b)) as [|n] eqn:En; [unfold zlen in Hlt; lia|]. cbn [Merkle.proof_loop].
    destruct (1 <? zlen l) eqn:E; [|unfold zlen in *; lia]. rewrite Merkle.proof_loop_acc. done.
Qed.

(** ** Admission *)

(** The entry is an attestation of the checkpoint by the validator it names. *)
Definition attested (b : QcBlob) (s : Finality.ValidatorSetSnapshot) (e : PqSignatureEntry) : Prop :=
  exists v, Finality.validators s !! Z.to_nat (validator_index e) = Some v /\
    address_string (Finality.address v) = validator_address e /\ Finality.pq_public_key v <> [] /\
    pq_verify (Finality.pq_public_key v)
      (pq_signing_message (epoch b) (checkpoint_height b) (checkpoint_hash b) (validator_index e)) (dilithium_signature e) = true.

Definition signers (l : list PqSignatureEntry) : gset Z := list_to_set (map validator_index l).

Lemma empty_false (x : bytes) : x <> [] -> empty x = false.
Proof. apply bool_decide_eq_false_2. Qed.
Lemma empty_ne (x : bytes) : empty x = false -> x <> [].
Proof. unfold empty. apply bool_decide_eq_false_1. Qed.

Lemma verify_entries_ok b s l seen r :
  verify_entries pq_verify address_string b s l seen = Ok r <->
  Forall (attested b s) l /\ NoDup (map validator_index l) /\ Forall (fun e => validator_index e ∉ seen) l /\ r = signers l ∪ seen.
Proof.
  revert seen. induction l as [|e l IH]; intros seen; cbn [verify_entries map].
  - split; [intros [= <-]; split; [done|]; split; [apply NoDup_nil_2|]; split; [done|]; unfold signers; set_solver|].
    intros (_ & _ & _ & ->). unfold signers. cbn. f_equal. set_solver.
  - split.
    + intros E. inv_ok E. split_bool. apply IH in E as (Ha & Hn & Hs & ->). split; [|split; [|split]].
      * constructor; [|done]. eexists. split; [done|]. split; [done|]. split; [by apply empty_ne|done].
      * apply NoDup_cons. split; [|done]. intros Hin. apply list_elem_of_fmap in Hin as (e' & Ee & Hin).
        rewrite Forall_forall in Hs. specialize (Hs _ Hin). rewrite Ee in Hs. set_solver.
      * constructor; [done|]. eapply Forall_impl; [exact Hs|]. cbn. set_solver.
      * unfold signers. cbn. set_solver.
    + intros (Ha & Hn & Hs & ->). apply Forall_cons in Ha as [(v & Hv & Hadr & Hk & Hver) Ha].
      apply NoDup_cons in Hn as [Hni Hn]. apply Forall_cons in Hs as [He Hs]. rewrite Hv. cbn.
      rewrite (bool_decide_eq_true_2 _ Hadr). cbn. rewrite (empty_false _ Hk). cbn. rewrite (bool_decide_eq_true_2 _ He). cbn.
      rewrite Hver. cbn. apply IH. split; [done|]. split; [done|]. split; [|unfold signers; cbn; set_solver].
      rewrite Forall_forall in Hs |- *. intros e' Hin. specialize (Hs _ Hin).
      assert (validator_index e' <> validator_index e) by (intros Ee; apply Hni; rewrite <- Ee; by apply list_elem_of_fmap_2).
      set_solver.
Qed.





(** ** Fault proofs *)

(** Entry [i] names a validator of the snapshot, and its signature, which is
    not empty, fails under the key of that validator. *)
Definition faulty (b : QcBlob) (s : Finality.ValidatorSetSnapshot) (i : Z) (e : PqSignatureEntry) : Prop :=
  0 <= i /\ pq_signatures b !! Z.to_nat i = Some e /\ dilithium_signature e <> [] /\
  exists v, Finality.validators s !! Z.to_nat (validator_index e) = Some v /\
    address_string (Finality.address v) = validator_address e /\ Finality.pq_public_key v <> [] /\
    pq_verify (Finality.pq_public_key v)
      (pq_signing_message (epoch b) (checkpoint_height b) (checkpoint_hash b) (validator_index e)) (dilithium_signature e) = false.

(** The proof that the scan makes of an entry. *)
Definition accusation (b : QcBlob) (e : PqSignatureEntry) (proof : list bytes) (i : Z) : QcFaultProof :=
  new_invalid_dilithium (epoch b) (checkpoint_height b) (checkpoint_hash b) (validator_index e) (validator_address e)
    (dilithium_signature e) proof i.

Definition guilty (b : QcBlob) : QcProofVerdict := mkVerdict InvalidateFinality (Some (checkpoint_height b)) true.

Lemma fault_accepted b s p v : verify_against_blob sha3 pq_verify address_string p b s = Ok v ->
  exists sig proof i e, kind p = InvalidDilithiumV1 sig proof i /\ faulty b s (Z.max 0 i) e /\
    f_validator_index p = validator_index e /\ f_validator_address p = validator_address e /\ v = guilty b.
Proof.
  intros E. unfold verify_against_blob, validate in E. inv_ok E. apply Z.eqb_eq in E1, E2. split_bool.
  destruct (kind p) as [sig proof i|] eqn:Ek; [|inv_ok E4; done].
  inv_ok E0. inv_ok E4. split_bool. apply Z.eqb_eq in H. subst sig. exists (dilithium_signature x9), proof, i, x9. split; [done|].
  rewrite <- H in *. rewrite <- H1 in *. rewrite E1, E2, E3 in *. split; [|by rewrite <- ?H, <- ?H1].
  split; [lia|]. replace (Z.to_nat (Z.max 0 i)) with (Z.to_nat i) by lia. split; [done|].
  split; [by apply empty_ne|]. eexists. split; [done|]. split; [done|]. split; [by apply empty_ne|done].
Qed.

Lemma fault_accuses b s i e : verify_merkle_root sha3 b = true -> checkpoint_height b <> 0 -> checkpoint_hash b <> [] ->
  faulty b s i e -> exists proof, merkle_proof sha3 b i = Ok proof /\
    verify_against_blob sha3 pq_verify address_string (accusation b e proof i) b s = Ok (guilty b).
Proof.
  intros Hr Hh Hx (Hi & He & Hs & v & Hv & Hadr & Hk & Hf). apply bool_decide_eq_true_1 in Hr.
  destruct (merkle_proof_climb b i e He Hi) as (proof & Hp & Hc & H0). exists proof. split; [done|].
  assert (Hval : validate (accusation b e proof i) = Ok tt).
  { unfold validate. cbn. rewrite (proj2 (Z.eqb_neq _ _) Hh), (empty_false _ Hx), (empty_false _ Hs). cbn.
    destruct (decide (proof = [])) as [->|Hne]; [rewrite H0 by done; done|by rewrite bool_decide_eq_false_2]. }
  assert (Hinc : verify_inclusion sha3 (accusation b e proof i) (merkle_root b) = Ok tt).
  { unfold verify_inclusion. cbn. rewrite bool_decide_eq_true_2; [done|]. rewrite <- Hr, <- Hc. by destruct e. }
  unfold verify_against_blob. rewrite Hval. cbn [rbind kind accusation new_invalid_dilithium]. cbn -[verify_inclusion].
  rewrite !Z.eqb_refl, (bool_decide_eq_true_2 (_ = checkpoint_hash b)) by done. cbn -[verify_inclusion].
  change (mkFault CURRENT_VERSION (epoch b) (checkpoint_height b) (checkpoint_hash b) (validator_index e)
    (validator_address e) (InvalidDilithiumV1 (dilithium_signature e) proof i)) with (accusation b e proof i).
  rewrite Hinc, He. cbn. rewrite Z.eqb_refl, !bool_decide_eq_true_2 by done. cbn. rewrite Hv. cbn.
  rewrite (bool_decide_eq_true_2 _ Hadr). cbn. rewrite (empty_false _ Hk). cbn. by rewrite Hf.
Qed.

Lemma detect_entry_faulty b s i e proof : i ∈u U32 -> faulty b s i e -> merkle_proof sha3 b i = Ok proof ->
  detect_entry sha3 pq_verify address_string b s i e = [accusation b e proof i].
Proof.
  intros Hw (Hi & He & Hs & v & Hv & Hadr & Hk & Hf) Hp. unfold detect_entry.
  rewrite Hv, (bool_decide_eq_true_2 _ Hadr), (empty_false _ Hk), Hf, Hp. cbn. unfold accusation. by rewrite Z.mod_small.
Qed.

Lemma detect_loop_elem b s k l i e p : l !! i = Some e ->
  p ∈ detect_entry sha3 pq_verify address_string b s (k + Z.of_nat i) e ->
  p ∈ detect_loop sha3 pq_verify address_string b s k l.
Proof.
  revert k i. induction l as [|x l IH]; intros k i Hi Hp; [done|]. cbn. apply elem_of_app.
  destruct i as [|i]; [simplify_eq/=; left; by rewrite Z.add_0_r in Hp|]. right. apply (IH _ i); [done|].
  by replace (k + 1 + Z.of_nat i) with (k + Z.of_nat (S i)) by lia.
Qed.

Lemma detect_attested b s k l : Forall (attested b s) l -> detect_loop sha3 pq_verify address_string b s k l = [].
Proof.
  intros H. revert k. induction H as [|e l (v & Hv & Hadr & Hk & Hver) Hl IH]; intros k; [done|]. cbn. rewrite IH, app_nil_r.
  unfold detect_entry. by rewrite Hv, (bool_decide_eq_true_2 _ Hadr), (empty_false _ Hk), Hver.
Qed.

(** C14: fault proofs against a blob with its Merkle root, a height and a hash
    are exact.  One is accepted only for an entry whose non-empty signature
    fails under the key of the validator it names, and it condemns that
    validator; the scan makes an accepted one for each such entry (for one with
    an empty signature it makes a proof that is refused); and against a blob
    that was admitted the scan finds nothing and every fault proof is refused. *)
Theorem qc_fault_proofs_exact b s :
  verify_merkle_root sha3 b = true -> checkpoint_height b <> 0 -> checkpoint_hash b <> [] -> zlen (pq_signatures b) <= U32 ->
  (forall p v, verify_against_blob sha3 pq_verify address_string p b s = Ok v ->
     exists i e, faulty b s i e /\ f_validator_index p = validator_index e /\ f_validator_address p = validator_address e /\
       v = guilty b) /\
  (forall i e, faulty b s i e -> exists p, p ∈ detect_fault_proofs sha3 pq_verify address_string b s /\
     f_validator_index p = validator_index e /\ verify_against_blob sha3 pq_verify address_string p b s = Ok (guilty b)) /\
  (forall required current r p, verify_against_snapshot sha3 pq_verify address_string b s required current = Ok r ->
     detect_fault_proofs sha3 pq_verify address_string b s = [] /\
     exists err, verify_against_blob sha3 pq_verify address_string p b s = Err err).
Proof.
  intros Hr Hh Hx Hn. split; [|split].
  - intros p v E. apply fault_accepted in E as (sig & pr & i & e & _ & Hf & H). by exists (Z.max 0 i), e.
  - intros i e Hf. destruct (fault_accuses b s i e Hr Hh Hx Hf) as (pr & Hp & Hv). exists (accusation b e pr i).
    split; [|done]. assert (Hlt : 0 <= i < zlen (pq_signatures b)).
    { destruct Hf as (Hi & He & _). apply lookup_lt_Some in He. unfold zlen. lia. }
    apply (detect_loop_elem _ _ _ _ (Z.to_nat i) e); [apply Hf|]. replace (0 + Z.of_nat (Z.to_nat i)) with i by lia.
    rewrite (detect_entry_faulty b s i e pr) by (done || lia). by apply list_elem_of_singleton.
  - intros required current r p E. unfold verify_against_snapshot in E. inv_ok E.
    apply verify_entries_ok in E7 as (Ha & _). split; [by apply detect_attested|].
    destruct (verify_against_blob sha3 pq_verify address_string p b s) as [v|err] eqn:Ev; [|by exists err].
    apply fault_accepted in Ev as (sig & pr & i & e & _ & (_ & He & _ & v' & Hv' & _ & _ & Hf) & _).
    rewrite Forall_forall in Ha. destruct (Ha e) as (v'' & Hv'' & _ & _ & Ht); [by eapply list_elem_of_lookup_2|].
    congruence.
Qed.
End qc.

(** ** A certificate, evaluated *)

Module Demo.

Definition digest (b : bytes) : Hash32 := b.
(** A signature is the key followed by the message. *)
Definition verify (key msg sig : bytes) : bool := bool_decide (sig = key ++ msg).
Definition name (a : Address) : bytes := 48 :: 120 :: a.

Definition validator (i : Z) : Finality.ValidatorEntry := Finality.mkValidator [i] 100 [] [] [i; i].
Definition snapshot : Finality.ValidatorSetSnapshot := Finality.mkSnapshot 4 (map validator [1; 2; 3]) [] 300.
Definition checkpoint : bytes := ascii_bytes "cp".
Definition sign (i key : Z) : PqSignatureEntry :=
  mkEntry i (name [i + 1]) ([key; key] ++ pq_signing_message 4 20 checkpoint i).

(** Validator 1 signs with the key of validator 0. *)
Definition bad : QcBlob := blob_new digest 4 20 checkpoint [sign 2 3; sign 0 1; sign 1 1].



Lemma bad_root : verify_merkle_root digest bad = true.
Proof. vm_compute. reflexivity. Qed.
Lemma bad_height : checkpoint_height bad <> 0.
Proof. discriminate. Qed.
Lemma bad_hash : checkpoint_hash bad <> [].
Proof. discriminate. Qed.
Lemma bad_count : zlen (pq_signatures bad) <= U32.
Proof. vm_compute. discriminate. Qed.
Lemma bad_faulty : faulty verify name bad snapshot 2 (sign 1 1).
Proof. split; [lia|]. split; [reflexivity|]. split; [discriminate|]. exists (validator 2). repeat split; discriminate. Qed.

Example bad_refused :
  verify_against_snapshot digest verify name bad snapshot None None = Err (InvalidSignature 1) /\
  length (detect_fault_proofs digest verify name bad snapshot) = 1%nat.
Proof. vm_compute. split; reflexivity. Qed.

(** Validator 1 leaves its signature empty: the scan accuses it, and the
    accusation is refused. *)
Definition blank : QcBlob := blob_new digest 4 20 checkpoint [sign 2 3; mkEntry 1 (name [2]) []].
Example empty_signature_unaccused :
  map (fun p => (f_validator_index p, verify_against_blob digest verify name p blank snapshot))
    (detect_fault_proofs digest verify name blank snapshot) = [(1, Err EmptyField)].
Proof. vm_compute. reflexivity. Qed.

Lemma qc_fault_proofs_exact_witness :
  exists p, p ∈ detect_fault_proofs digest verify name bad snapshot /\ f_validator_index p = 1 /\
    verify_against_blob digest verify name p bad snapshot = Ok (guilty bad).
Proof.
  exact (proj1 (proj2 (qc_fault_proofs_exact digest verify name bad snapshot bad_root bad_height bad_hash bad_count))
    2 (sign 1 1) bad_faulty).
Defined.

End Demo.
End QcFacts.
