(* ===== verification/Pos.v ===== *)
(** * The proof-of-stake engine (src/consensus/pos.rs, src/consensus/mod.rs)

    The engine elects block producers by a verifiable random function over the
    chain, validates blocks, watches for double production, keeps checkpoints
    and compares chains.  It reads the validators of the ledger (Ledger.v).

    The block module is not in the tree: a [Block] has the fields the engine
    reads or writes and an opaque [rest]; headers, hashing, signing and
    signature checks are the class [BlockOps].  The VRF library is the class
    [VrfLib], Sha3-256 and the key checks of the validator set are parameters.
    A lock is its content, a [String] its bytes.  Writes to the database are not
    modelled: the engine ignores or logs their failures and does not read them
    back while it runs. An epoch length of zero makes [validate_block] and
    [record_block] divide by zero; the theorems take it positive. *)

From Stdlib Require Import ZArith Lia.
From stdpp Require Import base tactics strings numbers gmap sorting list.
From S2P Require Import Prelude Hashing Finality Tokenomics Ledger.
Import Hashing.
Open Scope Z_scope.

Module Pos.

Record PoSConfig : Type := mkConfig {
  min_stake : Z;
  slot_duration : Z;
  epoch_length : Z;
  annual_reward_rate : Z;
  slashing_penalty : Z;
  double_sign_penalty : Z;
  unbonding_epochs : Z;
}.

Definition MAX_FUTURE_BLOCK_TIME_MS : Z := 15000.
Definition MIN_BLOCK_INTERVAL_MS : Z := 1000.
Definition MAX_REORG_DEPTH : Z := 100.
Definition LOOKBACK_EPOCHS : Z := 2.
Definition FIXED_POINT_SCALE : Z := 1000000.
Definition VRF_BASE_PROB : Z := FIXED_POINT_SCALE.

Inductive ConsensusError : Type :=
| ZeroEpochLength
| NoGenesis
| WrongGenesis
| SourceOverflow
| SourceIncomplete (epoch : Z)
| SourceMissing (height : Z)
| SourceNotCanonical (height : Z)
| SourceNoProducer (height : Z)
| SourceNoVrf (height : Z)
| SeedNotCanonical
| NoActiveValidators
| NotLeader
| NoSigner
| GenesisHash
| PreviousHash
| BeforeCheckpoint
| EpochMismatch (expected got : Z)
| SlotMismatch (expected got : Z)
| BadValidatorKeys (a : Address)
| SetHashMismatch
| NoProducer
| UnknownProducer
| InactiveProducer
| NoVrfKey
| BadVrfKey
| BadVrfOutput
| BadVrfProof
| VrfFailed
| BelowThreshold
| BadSignature
| BadEvidence (i : Z)
| FutureTimestamp
| NotMonotonic
| TooFast.

(** ** Blocks *)

Record SlashingEvidence {Header : Type} : Type := mkEvidence {
  header1 : Header;
  header2 : Header;
  signature1 : bytes;
  signature2 : bytes;
}.
Arguments SlashingEvidence : clear implicits.

Record Block {Header Rest : Type} : Type := mkBlock {
  index : Z;
  timestamp : Z;
  previous_hash : bytes;
  hash : bytes;
  chain_id : Z;
  epoch : Z;
  slot : Z;
  producer : option Address;
  signature : option bytes;
  vrf_output : bytes;
  vrf_proof : bytes;
  validator_set_hash : bytes;
  slashing_evidence : option (list (SlashingEvidence Header));
  rest : Rest;
}.
Arguments Block : clear implicits.

Class BlockOps (Header Rest : Type) : Type := {
  from_block : Block Header Rest -> Header;
  h_index : Header -> Z;
  h_producer : Header -> option Address;
  h_hash : Header -> bytes;
  h_verify : Header -> bytes -> bool;
  calculate_hash : Block Header Rest -> bytes;
  verify_signature : Block Header Rest -> bool;
}.

Class VrfLib : Type := {
  vrf_key_ok : bytes -> bool;
  vrf_output_ok : bytes -> bool;
  vrf_proof_ok : bytes -> bool;
  vrf_verify : bytes -> Hash32 -> bytes -> bytes -> bool;
}.

Record Checkpoint : Type := mkCheckpoint {
  block_index : Z;
  block_hash : bytes;
  cp_timestamp : Z;
}.

(** The keys of this node: its address, its VRF signature of a seed, and its
    signature of a block. *)
Record ValidatorKeys {Header Rest : Type} : Type := mkKeys {
  key_address : Address;
  vrf_sign : Hash32 -> bytes * bytes;
  sign_block : Block Header Rest -> Block Header Rest;
}.
Arguments ValidatorKeys : clear implicits.

Section engine.
Context {Header Rest : Type} {B : BlockOps Header Rest} {V : VrfLib} {R : Ledger.RoleRegistry}.
Context (sha3 : bytes -> Hash32) (hex_sha3 : bytes -> bytes) (pop_valid : Ledger.Validator -> Z -> bool)
  (pq_key_ok : bytes -> bool).

Record PoSEngine : Type := mkEngine {
  config : PoSConfig;
  seen_blocks : gmap (Address * Z) (Header * bytes);
  evidence : list (SlashingEvidence Header);
  checkpoints : list Checkpoint;
  validator_keys : option (ValidatorKeys Header Rest);
  epoch_seed : Hash32;
}.

Definition engine_new (c : PoSConfig) (keys : option (ValidatorKeys Header Rest)) : PoSEngine :=
  mkEngine c ∅ [] [] keys zero32.

Definition with_seen (m : gmap (Address * Z) (Header * bytes)) (e : PoSEngine) : PoSEngine :=
  mkEngine (config e) m (evidence e) (checkpoints e) (validator_keys e) (epoch_seed e).
Definition with_evidence (l : list (SlashingEvidence Header)) (e : PoSEngine) : PoSEngine :=
  mkEngine (config e) (seen_blocks e) l (checkpoints e) (validator_keys e) (epoch_seed e).
Definition with_checkpoints (l : list Checkpoint) (e : PoSEngine) : PoSEngine :=
  mkEngine (config e) (seen_blocks e) (evidence e) l (validator_keys e) (epoch_seed e).
Definition with_seed (s : Hash32) (e : PoSEngine) : PoSEngine :=
  mkEngine (config e) (seen_blocks e) (evidence e) (checkpoints e) (validator_keys e) s.

(** ** Evidence of double production *)

Definition verify_evidence (ev : SlashingEvidence Header) : bool :=
  (h_index (header1 ev) =? h_index (header2 ev)) &&
  bool_decide (h_producer (header1 ev) = h_producer (header2 ev)) &&
  bool_decide (is_Some (h_producer (header1 ev))) &&
  h_verify (header1 ev) (signature1 ev) && h_verify (header2 ev) (signature2 ev) &&
  negb (bool_decide (h_hash (header1 ev) = h_hash (header2 ev))).

Definition prune_slashing_evidence (e : PoSEngine) (min_height : Z) : PoSEngine * Z :=
  let l := filter (fun ev => min_height <= h_index (header1 ev)) (evidence e) in
  (with_evidence l e, zlen (evidence e) - zlen l).

Definition drain_slashing_evidence (e : PoSEngine) : PoSEngine * list (SlashingEvidence Header) :=
  (with_evidence [] e, evidence e).

Definition add_checkpoint (e : PoSEngine) (b : Block Header Rest) : PoSEngine :=
  with_checkpoints (checkpoints e ++ [mkCheckpoint (index b) (hash b) (timestamp b)]) e.

Definition record_block (e : PoSEngine) (b : Block Header Rest) : result PoSEngine ConsensusError :=
  let? p := ok_or (producer b) NoProducer in
  let header := from_block b in
  let sig := default [] (signature b) in
  let key := (p, h_index header) in
  match seen_blocks e !! key with
  | Some existing =>
      if bool_decide (h_hash existing.1 = h_hash header) then Ok e
      else Ok (with_evidence (evidence e ++ [mkEvidence _ existing.1 header existing.2 sig]) e)
  | None =>
      let e1 := with_seen (<[key := (header, sig)]> (seen_blocks e)) e in
      let e2 := if (0 <? index b) && (index b mod epoch_length (config e) =? 0) then add_checkpoint e1 b else e1 in
      let min_slot := wrap U64 (saturating_sub (index b / epoch_length (config e)) 2 * epoch_length (config e)) in
      Ok (with_seen (filter (fun kv => min_slot <= kv.1.2) (seen_blocks e2)) e2)
  end.

(** ** Checkpoints *)

Definition last_checkpoint (e : PoSEngine) : option (Z * bytes) :=
  (fun c => (block_index c, block_hash c)) <$> last (checkpoints e).

Definition chain_honours_checkpoint (e : PoSEngine) (chain : list (Block Header Rest)) : bool :=
  match last_checkpoint e with
  | None => true
  | Some (height, h) =>
      match chain !! Z.to_nat height with Some b => bool_decide (hash b = h) | None => false end
  end.

Definition is_before_checkpoint (e : PoSEngine) (b : Block Header Rest) : bool :=
  match last (checkpoints e) with Some c => index b <? block_index c | None => false end.

Definition fork_choice_score (e : PoSEngine) (chain : list (Block Header Rest)) : Z :=
  if chain_honours_checkpoint e chain then zlen chain else 0.

Definition is_better_chain (e : PoSEngine) (current candidate : list (Block Header Rest)) : bool :=
  if negb (chain_honours_checkpoint e candidate) then false
  else fork_choice_score e current <? fork_choice_score e candidate.

(** [max_by_key]: the last of the greatest. *)
Definition max_by_key {A} (key : A -> Z) (l : list A) : option A :=
  foldl (fun best x => match best with
                       | Some y => if key y <=? key x then Some x else Some y
                       | None => Some x
                       end) None l.
Definition select_best_chain (e : PoSEngine) (chains : list (list (Block Header Rest))) : option (list (Block Header Rest)) :=
  max_by_key (fork_choice_score e) chains.

(** ** Randomness *)

(** The loop over the source epoch, as the bytes it feeds to the hasher. *)
Fixpoint contributions (chain : list (Block Header Rest)) (cid height : Z) (n : nat) : result bytes ConsensusError :=
  match n with
  | O => Ok []
  | S n =>
      let? source := ok_or (chain !! Z.to_nat height) (SourceMissing height) in
      check? (index source =? height) && (chain_id source =? cid) else SourceNotCanonical height in
      let? here :=
        if height =? 0 then Ok []
        else
          let? p := ok_or (producer source) (SourceNoProducer height) in
          check? (zlen (vrf_output source) =? 32) && negb (bool_decide (vrf_proof source = [])) else SourceNoVrf height in
          Ok (ascii_bytes "vrf_contribution" ++ u64_le height ++ p ++ vrf_output source) in
      let? later := contributions chain cid (height + 1) n in
      Ok (here ++ later)
  end.

Definition epoch_randomness_from_chain (c : PoSConfig) (cid target_epoch : Z) (chain : list (Block Header Rest))
  : result Hash32 ConsensusError :=
  check? negb (epoch_length c =? 0) else ZeroEpochLength in
  let? genesis := ok_or (head chain) NoGenesis in
  check? (index genesis =? 0) && (chain_id genesis =? cid) else WrongGenesis in
  let anchor := ascii_bytes "BDLM_POS_EPOCH_RANDOMNESS_V3" ++ u64_le cid ++ u64_le target_epoch ++
    u64_le (epoch_length c) ++ hash genesis in
  match checked_sub target_epoch LOOKBACK_EPOCHS with
  | Some source_epoch =>
      let? start := ok_or (checked_mul U64 source_epoch (epoch_length c)) SourceOverflow in
      let? stop := ok_or (checked_add U64 start (epoch_length c)) SourceOverflow in
      check? negb (zlen chain <? stop) else SourceIncomplete source_epoch in
      let? body := contributions chain cid start (Z.to_nat (epoch_length c)) in
      Ok (sha3 (anchor ++ ascii_bytes "source_epoch" ++ u64_le source_epoch ++ body))
  | None => Ok (sha3 (anchor ++ ascii_bytes "genesis_bootstrap"))
  end.

Definition calculate_seed_with_chain (c : PoSConfig) (cid ep sl : Z) (chain : list (Block Header Rest))
  : result Hash32 ConsensusError :=
  check? negb (epoch_length c =? 0) && (sl / epoch_length c =? ep) else SeedNotCanonical in
  let? r := epoch_randomness_from_chain c cid ep chain in
  Ok (sha3 (ascii_bytes "BDLM_POS_SLOT_SEED_V3" ++ u64_le cid ++ u64_le ep ++ u64_le sl ++ r)).

Definition calculate_seed (e : PoSEngine) (cid ep sl : Z) : Hash32 :=
  sha3 (ascii_bytes "BDLM_POS_SLOT_SEED_COMPAT_V3" ++ u64_le cid ++ u64_le ep ++ u64_le sl ++ epoch_seed e).

Definition record_block_with_chain (e : PoSEngine) (b : Block Header Rest) (chain : list (Block Header Rest)) : PoSEngine :=
  if epoch_length (config e) =? 0 then e
  else
    let next_epoch := saturating_add U64 (index b) 1 / epoch_length (config e) in
    match epoch_randomness_from_chain (config e) (chain_id b) next_epoch chain with
    | Ok r => with_seed r e
    | Err _ => e
    end.

(** ** Election *)

Definition calculate_vrf_threshold (stake total_stake : Z) : Z :=
  if (total_stake =? 0) || (stake =? 0) then 0
  else
    let base_threshold := saturating_mul U128 stake (U64 - 1) / total_stake in
    let threshold := saturating_mul U128 base_threshold VRF_BASE_PROB / FIXED_POINT_SCALE in
    if U64 - 1 <=? threshold then U64 - 1 else threshold.

Definition check_vrf_threshold (output : bytes) (threshold : Z) : bool :=
  le_decode (take 8 (sha3 output)) <? threshold.

Definition eligible (c : PoSConfig) (v : Ledger.Validator) : bool :=
  Ledger.v_active v && negb (Ledger.v_slashed v) && (min_stake c <=? Ledger.v_stake v).

Definition is_validator (c : PoSConfig) (a : Address) (st : Ledger.AccountState) : bool :=
  match Ledger.validators st !! a with Some v => eligible c v | None => false end.

Definition address_le (v w : Ledger.Validator) : Prop := bytes_le (Ledger.v_address v) (Ledger.v_address w).
#[local] Instance address_le_dec v w : Decision (address_le v w).
Proof. unfold address_le. apply _. Defined.

Definition get_active_validators (st : Ledger.AccountState) : list Ledger.Validator :=
  merge_sort address_le
    (filter (fun v => Ledger.v_active v = true /\ Ledger.v_slashed v = false) (map snd (map_to_list (Ledger.validators st)))).

Definition validator_keys_ok (v : Ledger.Validator) (cid : Z) : bool :=
  Ledger.is_consensus_ready v && pop_valid v cid && vrf_key_ok (Ledger.vrf_public_key v) && pq_key_ok (Ledger.pq_public_key v).

Fixpoint set_bytes (l : list Ledger.Validator) (cid : Z) : result bytes ConsensusError :=
  match l with
  | [] => Ok []
  | v :: l' =>
      check? validator_keys_ok v cid else BadValidatorKeys (Ledger.v_address v) in
      let? r := set_bytes l' cid in
      Ok (Ledger.v_address v ++ u64_le (Ledger.v_stake v) ++
          Finality.consensus_keys (Some (Ledger.vrf_public_key v)) (Ledger.bls_public_key v) (Ledger.pop_signature v)
            (Ledger.pq_public_key v) ++ r)
  end.

Definition consensus_validator_set_hash (st : Ledger.AccountState) (cid : Z) : result bytes ConsensusError :=
  let l := get_active_validators st in
  let? r := set_bytes l cid in
  Ok (hex_sha3 (ascii_bytes "BDLM_CONSENSUS_VALIDATOR_SET_V1" ++ u64_le cid ++ u64_le (zlen l) ++ r)).

(** ** Validation *)

Definition verify_leader (c : PoSConfig) (b : Block Header Rest) (chain : list (Block Header Rest)) (v : Ledger.Validator)
  : result unit ConsensusError :=
  check? negb (bool_decide (Ledger.vrf_public_key v = [])) else NoVrfKey in
  check? vrf_key_ok (Ledger.vrf_public_key v) else BadVrfKey in
  let? seed := calculate_seed_with_chain c (chain_id b) (epoch b) (slot b) chain in
  check? zlen (vrf_output b) =? 32 else BadVrfOutput in
  check? vrf_output_ok (vrf_output b) else BadVrfOutput in
  check? vrf_proof_ok (vrf_proof b) else BadVrfProof in
  check? vrf_verify (Ledger.vrf_public_key v) seed (vrf_output b) (vrf_proof b) else VrfFailed in
  Ok tt.

(** A header that verifies has a producer, so the second check of the source
    never fails. *)
Fixpoint verify_evidences (i : Z) (l : list (SlashingEvidence Header)) : result unit ConsensusError :=
  match l with
  | [] => Ok tt
  | ev :: l' =>
      check? verify_evidence ev else BadEvidence i in
      let? _ := ok_or (h_producer (header1 ev)) (BadEvidence i) in
      verify_evidences (i + 1) l'
  end.

Definition validate_block (e : PoSEngine) (b : Block Header Rest) (chain : list (Block Header Rest)) (st : Ledger.AccountState)
  : result unit ConsensusError :=
  let c := config e in
  if index b =? 0 then check? bool_decide (hash b = calculate_hash b) else GenesisHash in Ok tt
  else
    let? _ := match last chain with
              | Some prev => check? bool_decide (previous_hash b = hash prev) else PreviousHash in Ok tt
              | None => Ok tt
              end in
    check? negb (is_before_checkpoint e b) else BeforeCheckpoint in
    let expected_epoch := index b / epoch_length c in
    check? epoch b =? expected_epoch else EpochMismatch expected_epoch (epoch b) in
    check? slot b =? index b else SlotMismatch (index b) (slot b) in
    check? negb (bool_decide (get_active_validators st = [])) else NoActiveValidators in
    let? expected := consensus_validator_set_hash st (chain_id b) in
    check? bool_decide (validator_set_hash b = expected) else SetHashMismatch in
    let? p := ok_or (producer b) NoProducer in
    let? v := ok_or (Ledger.validators st !! p) UnknownProducer in
    check? eligible c v else InactiveProducer in
    let? _ := verify_leader c b chain v in
    let threshold := calculate_vrf_threshold (Ledger.v_stake v) (Ledger.get_total_stake st) in
    check? check_vrf_threshold (vrf_output b) threshold else BelowThreshold in
    check? verify_signature b else BadSignature in
    match slashing_evidence b with
    | Some l => verify_evidences 0 l
    | None => Ok tt
    end.

(** ** Production *)

Definition set_epoch_slot (ep sl : Z) (b : Block Header Rest) : Block Header Rest :=
  mkBlock _ _ (index b) (timestamp b) (previous_hash b) (hash b) (chain_id b) ep sl (producer b) (signature b)
    (vrf_output b) (vrf_proof b) (validator_set_hash b) (slashing_evidence b) (rest b).
Definition set_evidence (l : option (list (SlashingEvidence Header))) (b : Block Header Rest) : Block Header Rest :=
  mkBlock _ _ (index b) (timestamp b) (previous_hash b) (hash b) (chain_id b) (epoch b) (slot b) (producer b) (signature b)
    (vrf_output b) (vrf_proof b) (validator_set_hash b) l (rest b).
Definition set_vrf (out proof : bytes) (b : Block Header Rest) : Block Header Rest :=
  mkBlock _ _ (index b) (timestamp b) (previous_hash b) (hash b) (chain_id b) (epoch b) (slot b) (producer b) (signature b)
    out proof (validator_set_hash b) (slashing_evidence b) (rest b).
Definition set_producer (a : Address) (b : Block Header Rest) : Block Header Rest :=
  mkBlock _ _ (index b) (timestamp b) (previous_hash b) (hash b) (chain_id b) (epoch b) (slot b) (Some a) (signature b)
    (vrf_output b) (vrf_proof b) (validator_set_hash b) (slashing_evidence b) (rest b).

(** The pending evidence goes into a block that has none, and leaves the
    engine, also when the rest fails. *)
Definition attach_evidence (e : PoSEngine) (b : Block Header Rest) : PoSEngine * Block Header Rest :=
  match slashing_evidence b, evidence e with
  | None, _ :: _ => (with_evidence [] e, set_evidence (Some (evidence e)) b)
  | _, _ => (e, b)
  end.

Definition elect (e : PoSEngine) (b : Block Header Rest) (chain : list (Block Header Rest)) (st : Ledger.AccountState)
  : result (Block Header Rest) ConsensusError :=
  let c := config e in
  check? negb (bool_decide (get_active_validators st = [])) else NoActiveValidators in
  let? keys := ok_or (validator_keys e) NotLeader in
  let? v := ok_or (Ledger.validators st !! key_address keys) NotLeader in
  check? eligible c v else NotLeader in
  let? b' :=
    if bool_decide (vrf_output b = []) || bool_decide (vrf_proof b = []) then
      let? seed := calculate_seed_with_chain c (chain_id b) (epoch b) (slot b) chain in
      let '(out, proof) := vrf_sign keys seed in
      check? check_vrf_threshold out (calculate_vrf_threshold (Ledger.v_stake v) (Ledger.get_total_stake st)) else NotLeader in
      Ok (set_vrf out proof b)
    else Ok b in
  Ok (set_producer (key_address keys) b').

Definition preview_block_with_chain (e : PoSEngine) (b : Block Header Rest) (st : Ledger.AccountState)
    (chain : list (Block Header Rest)) : PoSEngine * result (Block Header Rest) ConsensusError :=
  let '(e', b') := attach_evidence e (set_epoch_slot (index b / epoch_length (config e)) (index b) b) in
  (e', elect e' b' chain st).

(** Signing with the keys of the engine; the hardware signer is not modelled. *)
Definition prepare_block_with_chain (e : PoSEngine) (b : Block Header Rest) (st : Ledger.AccountState)
    (chain : list (Block Header Rest)) : PoSEngine * result (Block Header Rest) ConsensusError :=
  let '(e', r) := preview_block_with_chain e b st chain in
  (e', let? b' := r in
       let? keys := ok_or (validator_keys e') NoSigner in
       check? bool_decide (producer b' = Some (key_address keys)) else NoSigner in
       Ok (sign_block keys b')).

(** ** Defaults of the engine trait *)

Definition validate_timestamp (now_ms : Z) (b : Block Header Rest) (prev : option (Block Header Rest))
  : result unit ConsensusError :=
  check? negb (saturating_add U128 now_ms MAX_FUTURE_BLOCK_TIME_MS <? timestamp b) else FutureTimestamp in
  match prev with
  | Some p =>
      check? negb (timestamp b <=? timestamp p) else NotMonotonic in
      check? negb (timestamp b - timestamp p <? MIN_BLOCK_INTERVAL_MS) else TooFast in
      Ok tt
  | None => Ok tt
  end.

(** The last block of the current chain that the new one has decides the depth. *)
Definition can_reorg (current new : list (Block Header Rest)) : bool :=
  if zlen new <=? zlen current then false
  else
    match list_find (fun b => hash b ∈ map hash new) (reverse current) with
    | Some (_, a) => negb (MAX_REORG_DEPTH <? wrap U64 (zlen current - index a - 1))
    | None => true
    end.

End engine.
End Pos.
