(* ===== verification/PosFacts.v ===== *)
(** * Theorems about the proof-of-stake engine (Pos.v)

    Double production inside the window is always caught and nobody is framed;
    the seed of a slot depends on the genesis block and the VRF transcript of an
    earlier epoch only; what an elected validator prepares is accepted by every
    node with the same chain and state; the last checkpoint is never abandoned;
    election thresholds are the shares of the stake. *)

From Stdlib Require Import ZArith Lia.
From stdpp Require Import base tactics strings numbers gmap sorting list.
From S2P Require Import Prelude Hashing Finality Tokenomics Ledger LedgerFacts Pos.
Import Hashing Pos.
Open Scope Z_scope.

Module PosFacts.

(** What the engine relies on of headers: they carry the index, the producer and
    the hash of their block, and a block that verifies has a header that does. *)
Class BlockLaws {Header Rest : Type} (B : BlockOps Header Rest) : Prop := {
  from_block_index : forall b, h_index (from_block b) = index b;
  from_block_producer : forall b, h_producer (from_block b) = producer b;
  from_block_hash : forall b, h_hash (from_block b) = hash b;
  from_block_verify : forall b, verify_signature b = true -> h_verify (from_block b) (default [] (signature b)) = true;
}.

Section engine.
Context {Header Rest : Type} {B : BlockOps Header Rest} {BL : BlockLaws B} {V : VrfLib} {R : Ledger.RoleRegistry}.
Context (sha3 : bytes -> Hash32) (hex_sha3 : bytes -> bytes) (pop_valid : Ledger.Validator -> Z -> bool)
  (pq_key_ok : bytes -> bool).

Implicit Types (b : Block Header Rest) (e : @PoSEngine Header Rest).

(** ** Double production *)

Definition record1 e b : PoSEngine := match record_block e b with Ok e' => e' | Err _ => e end.
Definition record_all e (bs : list (Block Header Rest)) : PoSEngine := foldl record1 e bs.

(** The evidence shows two recorded blocks of one producer and height. *)
Definition genuine (bs : list (Block Header Rest)) (ev : SlashingEvidence Header) : Prop :=
  verify_evidence ev = true /\
  exists b1 b2, b1 ∈ bs /\ b2 ∈ bs /\ header1 ev = from_block b1 /\ header2 ev = from_block b2 /\
    producer b1 = producer b2 /\ index b1 = index b2 /\ hash b1 <> hash b2.

Record watch_inv (bs : list (Block Header Rest)) e : Prop := {
  wi_seen : map_Forall (fun k hs => exists b, b ∈ bs /\ verify_signature b = true /\ producer b = Some k.1 /\ index b = k.2 /\
    hs = (from_block b, default [] (signature b))) (seen_blocks e);
  wi_evidence : Forall (genuine bs) (evidence e);
}.

Lemma genuine_mono bs bs' ev : bs ⊆ bs' -> genuine bs ev -> genuine bs' ev.
Proof. intros Hs [Hv (b1 & b2 & H1 & H2 & H)]. split; [done|]. exists b1, b2. auto. Qed.

Lemma evidence_of b1 b2 : verify_signature b1 = true -> verify_signature b2 = true -> is_Some (producer b1) ->
  producer b1 = producer b2 -> index b1 = index b2 -> hash b1 <> hash b2 ->
  verify_evidence (mkEvidence _ (from_block b1) (from_block b2) (default [] (signature b1)) (default [] (signature b2))) = true.
Proof.
  intros V1 V2 Hp Ep Ei Hh. unfold verify_evidence. cbn.
  rewrite !from_block_index, !from_block_producer, !from_block_hash, !from_block_verify, Ei, Z.eqb_refl by done.
  rewrite (bool_decide_eq_true_2 _ Ep), (bool_decide_eq_true_2 _ Hp), (bool_decide_eq_false_2 _ Hh). done.
Qed.

(** What recording a block does to the two fields that matter. *)
Lemma record1_cases e b p : producer b = Some p ->
  (exists hs, seen_blocks e !! (p, index b) = Some hs /\ seen_blocks (record1 e b) = seen_blocks e /\
     ((h_hash hs.1 = hash b /\ evidence (record1 e b) = evidence e) \/
      (h_hash hs.1 <> hash b /\
       evidence (record1 e b) = evidence e ++ [mkEvidence _ hs.1 (from_block b) hs.2 (default [] (signature b))]))) \/
  (seen_blocks e !! (p, index b) = None /\ evidence (record1 e b) = evidence e /\
   seen_blocks (record1 e b) =
     filter (fun kv => wrap U64 (saturating_sub (index b / epoch_length (config e)) 2 * epoch_length (config e)) <= kv.1.2)
       (<[(p, index b) := (from_block b, default [] (signature b))]> (seen_blocks e))).
Proof.
  intros Hp. unfold record1, record_block. rewrite Hp. cbn. rewrite from_block_index, from_block_hash.
  destruct (seen_blocks e !! (p, index b)) as [hs|] eqn:E; cbn; [left|right].
  - exists hs. split; [done|]. case_bool_decide; cbn; auto.
  - split; [done|]. by destruct ((0 <? index b) && _).
Qed.

Lemma record1_inv bs e b : verify_signature b = true -> watch_inv bs e -> watch_inv (b :: bs) (record1 e b).
Proof.
  intros Hv [Hs He].
  assert (Hm : watch_inv (b :: bs) e).
  { split; [|eapply Forall_impl; [exact He|]; intros ev; apply genuine_mono; set_solver].
    eapply map_Forall_impl; [exact Hs|]. intros k hs (x & Hx & ?). exists x. split; [by apply list_elem_of_further|done]. }
  destruct (producer b) as [p|] eqn:Hp; [|unfold record1, record_block; by rewrite Hp].
  clear Hs He. destruct Hm as [Hs He].
  destruct (record1_cases e b p Hp) as [(hs & Hl & Es & [(Hh & Ee)|(Hh & Ee)])|(Hn & Ee & Es)].
  - split; [by rewrite Es|by rewrite Ee].
  - split; [by rewrite Es|]. rewrite Ee. apply Forall_app. split; [done|]. apply Forall_singleton.
    destruct (Hs _ _ Hl) as (x & Hx & Hvx & Hpx & Hix & ->). cbn in *. rewrite from_block_hash in Hh.
    split; [apply evidence_of; [done..|by rewrite Hpx|congruence|done|done]|].
    exists x, b. split; [done|]. split; [apply list_elem_of_here|]. repeat split; congruence.
  - split; [|by rewrite Ee]. rewrite Es. apply map_Forall_lookup_2. intros k hs Hk.
    apply map_lookup_filter_Some_1_1 in Hk. revert k hs Hk. apply map_Forall_lookup, map_Forall_insert_2; [|done].
    exists b. split; [apply list_elem_of_here|done].
Qed.

Lemma record_all_inv bs0 e bs : Forall (fun b => verify_signature b = true) bs -> watch_inv bs0 e ->
  watch_inv (reverse bs ++ bs0) (record_all e bs).
Proof.
  intros Hv. revert bs0 e. induction Hv as [|b bs H Hv IH]; intros bs0 e Hi; [done|].
  change (record_all e (b :: bs)) with (record_all (record1 e b) bs). rewrite reverse_cons, <- app_assoc. apply IH. by apply record1_inv.
Qed.

Definition accused e (p : Address) (i : Z) : Prop :=
  exists ev, ev ∈ evidence e /\ h_producer (header1 ev) = Some p /\ h_index (header1 ev) = i.

(** Somebody is accused already, or the next block with another hash will. *)
Definition watched e (p : Address) (i : Z) (h : bytes) : Prop :=
  accused e p i \/ exists hs, seen_blocks e !! (p, i) = Some hs /\ h_hash hs.1 = h.

(** The oldest slot that recording [b] keeps. *)
Definition window (c : PoSConfig) b : Z := saturating_sub (index b / epoch_length c) 2 * epoch_length c.

Lemma window_le c b : 0 < epoch_length c -> 0 <= index b -> 0 <= window c b <= index b.
Proof.
  intros Hl Hi. unfold window, saturating_sub. pose proof (Z.mul_div_le (index b) (epoch_length c) Hl).
  pose proof (Z.div_pos (index b) (epoch_length c) Hi Hl). nia.
Qed.

Lemma record1_accused e b p i : accused e p i -> accused (record1 e b) p i.
Proof.
  intros (ev & Hev & H). destruct (producer b) as [q|] eqn:Hq; [|unfold record1, record_block; rewrite Hq; by exists ev].
  exists ev. split; [|done]. destruct (record1_cases e b q Hq) as [(hs & _ & _ & [[_ ->]|[_ ->]])|(_ & -> & _)];
    [done|apply elem_of_app; by left|done].
Qed.

Lemma record1_config e b : config (record1 e b) = config e.
Proof.
  unfold record1, record_block. destruct (producer b) as [p|]; [|done]. cbn.
  destruct (seen_blocks e !! _); [by case_bool_decide|]. by destruct ((0 <? index b) && _).
Qed.

Lemma record1_watched e b p i h : 0 < epoch_length (config e) -> index b ∈u U64 ->
  window (config e) b <= i -> watched e p i h -> watched (record1 e b) p i h.
Proof.
  intros Hl Hb Hw [Ha|(hs & Hs & Hh)]; [left; by apply record1_accused|].
  destruct (producer b) as [q|] eqn:Hq; [|unfold record1, record_block; rewrite Hq; by (right; exists hs)].
  right. exists hs. split; [|done]. destruct (record1_cases e b q Hq) as [(hs' & _ & -> & _)|(Hn & _ & ->)]; [done|].
  apply map_lookup_filter_Some_2; [by rewrite lookup_insert_ne by congruence|]. cbn.
  pose proof (window_le (config e) b Hl ltac:(lia)). fold (window (config e) b). unfold wrap. rewrite Z.mod_small; lia.
Qed.

(** The block itself is watched from then on. *)
Lemma record1_watches bs e b p : watch_inv bs e -> producer b = Some p -> 0 < epoch_length (config e) -> index b ∈u U64 ->
  watched (record1 e b) p (index b) (hash b).
Proof.
  intros [Hs _] Hp Hl Hb. destruct (record1_cases e b p Hp) as [(hs & Hk & Es & [(Hh & _)|(_ & Ee)])|(_ & _ & Es)].
  - right. exists hs. by rewrite Es.
  - left. eexists. rewrite Ee. split; [apply elem_of_app; right; by apply list_elem_of_singleton|]. cbn.
    destruct (Hs _ _ Hk) as (x & _ & _ & Hpx & Hix & ->). cbn in *. by rewrite from_block_producer, from_block_index.
  - right. exists (from_block b, default [] (signature b)). cbn. rewrite from_block_hash. split; [|done]. rewrite Es.
    apply map_lookup_filter_Some_2; [apply lookup_insert_eq|]. cbn.
    pose proof (window_le (config e) b Hl ltac:(lia)). fold (window (config e) b). unfold wrap. rewrite Z.mod_small; lia.
Qed.

(** A second block under watch is evidence. *)
Lemma record1_catches bs e b p h : watch_inv bs e -> producer b = Some p -> watched e p (index b) h -> hash b <> h ->
  accused (record1 e b) p (index b).
Proof.
  intros [Hs _] Hp [Ha|(hs & Hk & Hh)] Hne; [by apply record1_accused|].
  destruct (record1_cases e b p Hp) as [(hs' & Hk' & _ & [(Hh' & _)|(_ & Ee)])|(Hn & _)]; [congruence| |congruence].
  eexists. rewrite Ee. split; [apply elem_of_app; right; by apply list_elem_of_singleton|]. cbn. simplify_eq.
  destruct (Hs _ _ Hk) as (x & _ & _ & Hpx & Hix & ->). cbn in *. by rewrite from_block_producer, from_block_index.
Qed.

Lemma record_all_config e bs : config (record_all e bs) = config e.
Proof. revert e. induction bs as [|b bs IH]; intros e; [done|]. cbn. unfold record_all in IH. by rewrite IH, record1_config. Qed.

Lemma record_all_watched e bs p i h : 0 < epoch_length (config e) ->
  Forall (fun b => index b ∈u U64 /\ window (config e) b <= i) bs -> watched e p i h -> watched (record_all e bs) p i h.
Proof.
  intros Hl Hw. revert e Hl Hw. induction bs as [|b bs IH]; intros e Hl Hw H; [done|]. cbn.
  apply Forall_cons in Hw as [[Hb Hw] Hws]. apply IH; rewrite ?record1_config; [done..|]. by apply record1_watched.
Qed.

Lemma record_all_accused e bs p i : accused e p i -> accused (record_all e bs) p i.
Proof. revert e. induction bs as [|b bs IH]; intros e H; [done|]. cbn. apply IH. by apply record1_accused. Qed.

(** C9: a validator who signs two different blocks of one height is caught.
    When both are recorded, whatever verified blocks are recorded before,
    between and after, and none between them is more than two epochs ahead, the
    engine holds evidence against that producer and height; and all evidence it
    ever holds verifies and shows two different recorded blocks of the producer
    it accuses. *)
Theorem double_production_caught c keys before b1 between b2 later p :
  0 < epoch_length c ->
  Forall (fun b => verify_signature b = true /\ index b ∈u U64) (before ++ b1 :: between ++ b2 :: later) ->
  Forall (fun b => window c b <= index b1) between ->
  producer b1 = Some p -> producer b2 = Some p -> index b1 = index b2 -> hash b1 <> hash b2 ->
  accused (record_all (engine_new c keys) (before ++ b1 :: between ++ b2 :: later)) p (index b1) /\
  Forall (genuine (before ++ b1 :: between ++ b2 :: later))
    (evidence (record_all (engine_new c keys) (before ++ b1 :: between ++ b2 :: later))).
Proof.
  intros Hl Hv Hw Hp1 Hp2 Hi Hh.
  assert (Hs : Forall (fun b => verify_signature b = true) (before ++ b1 :: between ++ b2 :: later))
    by (eapply Forall_impl; [exact Hv|]; by intros ? []).
  assert (H0 : watch_inv [] (engine_new c keys)) by (split; [apply map_Forall_empty|constructor]).
  split.
  - apply Forall_app in Hv as [_ Hv]. apply Forall_cons in Hv as [[_ Hb1] Hv]. apply Forall_app in Hv as [Hvb _].
    apply Forall_app in Hs as [Hs0 Hs]. apply Forall_cons in Hs as [Hs1 Hs]. apply Forall_app in Hs as [Hsb _].
    pose proof (record_all_inv [] _ before Hs0 H0) as I0. unfold record_all. rewrite foldl_app. cbn [foldl]. rewrite foldl_app.
    cbn [foldl]. fold (record_all (engine_new c keys) before) in *. set (e0 := record_all (engine_new c keys) before) in *.
    assert (Ec : config e0 = c) by apply record_all_config.
    fold (record_all (record1 e0 b1) between) in *. set (e1 := record_all (record1 e0 b1) between) in *.
    assert (W : watched e1 p (index b1) (hash b1)).
    { apply record_all_watched; rewrite ?record1_config, ?Ec; [done| |].
      - apply Forall_and. split; [|done]. eapply Forall_impl; [exact Hvb|]. by intros ? [].
      - eapply record1_watches; [exact I0|done|by rewrite Ec|done]. }
    apply record_all_accused. rewrite Hi in *. eapply record1_catches; [|done|exact W|congruence].
    apply record_all_inv; [done|]. by apply record1_inv.
  - pose proof (record_all_inv [] _ _ Hs H0) as [_ He]. rewrite app_nil_r in He. eapply Forall_impl; [exact He|].
    intros ev. apply genuine_mono. intros x. by rewrite elem_of_reverse.
Qed.


(** ** The seed of a slot *)

(** What the randomness reads of a block: of its header only where it stands
    and who produced it, and the VRF output that the producer cannot choose. *)
Definition transcript b : Z * Z * option Address * bytes * bool :=
  (index b, chain_id b, producer b, vrf_output b, bool_decide (vrf_proof b = [])).

Lemma contributions_ext (chain chain' : list (Block Header Rest)) cid h n :
  (forall k, h <= k < h + Z.of_nat n -> transcript <$> chain !! Z.to_nat k = transcript <$> chain' !! Z.to_nat k) ->
  contributions chain cid h n = contributions chain' cid h n.
Proof.
  revert h. induction n as [|n IH]; intros h H; [done|]. cbn [contributions].
  rewrite (IH (h + 1)) by (intros k Hk; apply H; lia). specialize (H h ltac:(lia)).
  destruct (chain !! Z.to_nat h) as [b|], (chain' !! Z.to_nat h) as [b'|]; try done. cbn in *.
  injection H as -> -> -> -> Hp. by rewrite Hp.
Qed.

(** The anchor of a chain. *)
Definition anchor b : Z * Z * bytes := (index b, chain_id b, hash b).

(** C11: leaders cannot grind.  Two chains with the same genesis block whose
    blocks of the epoch two before have the same producers and VRF outputs give
    the same seed for every slot of the epoch, or the same error, whatever else
    their blocks contain (hashes, times, transactions), in that epoch and in
    all others. *)
Theorem seed_ungrindable c cid ep sl (chain chain' : list (Block Header Rest)) :
  ep ∈u U64 -> 0 <= epoch_length c ->
  anchor <$> head chain = anchor <$> head chain' ->
  (ep - 1) * epoch_length c <= zlen chain -> (ep - 1) * epoch_length c <= zlen chain' ->
  (forall k, 0 <= k -> (ep - 2) * epoch_length c <= k < (ep - 1) * epoch_length c ->
     transcript <$> chain !! Z.to_nat k = transcript <$> chain' !! Z.to_nat k) ->
  calculate_seed_with_chain sha3 c cid ep sl chain = calculate_seed_with_chain sha3 c cid ep sl chain'.
Proof.
  intros Hep Hl Ha Hn Hn' Ht. unfold calculate_seed_with_chain.
  enough (epoch_randomness_from_chain sha3 c cid ep chain = epoch_randomness_from_chain sha3 c cid ep chain') as -> by done.
  unfold epoch_randomness_from_chain, LOOKBACK_EPOCHS. destruct (head chain) as [g|], (head chain') as [g'|]; try done. cbn in *.
  injection Ha as -> -> ->. destruct (checked_sub ep 2) as [s|] eqn:Es; [|done]. apply checked_sub_Some in Es as [-> Es].
  destruct (checked_mul U64 (ep - 2) (epoch_length c)) as [start|] eqn:Em; [|done]. cbn.
  destruct (checked_add U64 start (epoch_length c)) as [stop|] eqn:Ea; [|done]. cbn.
  unfold checked_mul in Em. unfold checked_add in Ea. repeat case_match; simplify_eq.
  rewrite !(proj2 (Z.ltb_ge _ _)) by lia.
  rewrite (contributions_ext chain chain'); [done|]. intros k Hk. apply Ht; nia.
Qed.

(** ** Proposals *)

(** Signing sets the hash and the signature. *)
Definition set_signature (h : bytes) (s : option bytes) b : Block Header Rest :=
  mkBlock _ _ (index b) (timestamp b) (previous_hash b) h (chain_id b) (epoch b) (slot b) (producer b) s
    (vrf_output b) (vrf_proof b) (validator_set_hash b) (slashing_evidence b) (rest b).

(** The keys of the node belong to the validator [v] of the state: its
    signature of a block that names it as producer verifies, and its VRF outputs
    do under the key registered for it. *)
Record own_keys (keys : ValidatorKeys Header Rest) (st : Ledger.AccountState) (v : Ledger.Validator) : Prop := {
  ok_registered : Ledger.validators st !! key_address keys = Some v;
  ok_vrf_key : Ledger.vrf_public_key v <> [] /\ vrf_key_ok (Ledger.vrf_public_key v) = true;
  ok_vrf : forall seed, zlen (vrf_sign keys seed).1 = 32 /\ vrf_output_ok (vrf_sign keys seed).1 = true /\
    vrf_proof_ok (vrf_sign keys seed).2 = true /\
    vrf_verify (Ledger.vrf_public_key v) seed (vrf_sign keys seed).1 (vrf_sign keys seed).2 = true;
  ok_sign : forall b, producer b = Some (key_address keys) ->
    verify_signature (sign_block keys b) = true /\ exists h s, sign_block keys b = set_signature h s b;
}.

(** A block to be proposed on top of the chain. *)
Record template b (chain : list (Block Header Rest)) (st : Ledger.AccountState) : Prop := {
  te_index : index b <> 0;
  te_tip : forall prev, last chain = Some prev -> previous_hash b = hash prev;
  te_set : consensus_validator_set_hash hex_sha3 pop_valid pq_key_ok st (chain_id b) = Ok (validator_set_hash b);
  te_vrf : vrf_output b = [];
  te_evidence : slashing_evidence b = None;
}.

Lemma verify_evidences_ok i l : Forall (fun ev : SlashingEvidence Header => verify_evidence ev = true) l -> verify_evidences i l = Ok tt.
Proof.
  intros H. revert i. induction H as [|ev l H Hl IH]; intros i; [done|]. cbn. rewrite H. cbn.
  unfold verify_evidence in H. split_bool. destruct (h_producer (header1 ev)) as [p|]; [apply IH|by destruct H3].
Qed.

(** What an election returns. *)
Lemma elect_ok e b chain st keys v b' : own_keys keys st v -> validator_keys e = Some keys -> vrf_output b = [] ->
  elect sha3 e b chain st = Ok b' ->
  exists seed, calculate_seed_with_chain sha3 (config e) (chain_id b) (epoch b) (slot b) chain = Ok seed /\
    get_active_validators st <> [] /\ eligible (config e) v = true /\
    check_vrf_threshold sha3 (vrf_sign keys seed).1
      (calculate_vrf_threshold (Ledger.v_stake v) (Ledger.get_total_stake st)) = true /\
    b' = set_producer (key_address keys) (set_vrf (vrf_sign keys seed).1 (vrf_sign keys seed).2 b).
Proof.
  intros Ho Hk Hv E. unfold elect in E. inv_ok E. split_bool. rewrite Hk in E1. injection E1 as <-.
  rewrite (ok_registered _ _ _ Ho) in E2. injection E2 as <-. rewrite Hv in E4. cbn in E4.
  inv_ok E4. destruct (vrf_sign keys x0) as [out proof] eqn:Ex. inv_ok E4. exists x0. rewrite Ex. cbn. done.
Qed.

(** What the validating node checks of the leader. *)
Lemma leader_ok c b chain st keys v seed : own_keys keys st v ->
  calculate_seed_with_chain sha3 c (chain_id b) (epoch b) (slot b) chain = Ok seed ->
  vrf_output b = (vrf_sign keys seed).1 -> vrf_proof b = (vrf_sign keys seed).2 -> verify_leader sha3 c b chain v = Ok tt.
Proof.
  intros [_ [Hne Hok] Hvrf _] Hs Ho Hp. destruct (Hvrf seed) as (H1 & H2 & H3 & H4). unfold verify_leader.
  rewrite (bool_decide_eq_false_2 _ Hne), Hok, Hs, Ho, Hp. cbn. rewrite H1, H2, H3, H4. done.
Qed.

Lemma attach_cases e b : slashing_evidence b = None -> exists e' l, attach_evidence e b = (e', set_evidence l b) /\
  config e' = config e /\ validator_keys e' = validator_keys e /\ evidence e' = [] /\ default [] l = evidence e.
Proof.
  intros Hn. unfold attach_evidence. rewrite Hn. destruct (evidence e) as [|ev l] eqn:E.
  - exists e, None. rewrite E. split; [|done]. destruct b. cbn in *. by subst.
  - exists (with_evidence [] e), (Some (ev :: l)). done.
Qed.

(** Everything [validate_block] checks of a block above genesis. *)
Record acceptable e b (chain : list (Block Header Rest)) (st : Ledger.AccountState) (v : Ledger.Validator) : Prop := {
  ac_index : index b <> 0;
  ac_tip : forall prev, last chain = Some prev -> previous_hash b = hash prev;
  ac_checkpoint : is_before_checkpoint e b = false;
  ac_epoch : epoch b = index b / epoch_length (config e);
  ac_slot : slot b = index b;
  ac_active : get_active_validators st <> [];
  ac_set : consensus_validator_set_hash hex_sha3 pop_valid pq_key_ok st (chain_id b) = Ok (validator_set_hash b);
  ac_producer : exists p, producer b = Some p /\ Ledger.validators st !! p = Some v;
  ac_eligible : eligible (config e) v = true;
  ac_leader : verify_leader sha3 (config e) b chain v = Ok tt;
  ac_threshold : check_vrf_threshold sha3 (vrf_output b)
    (calculate_vrf_threshold (Ledger.v_stake v) (Ledger.get_total_stake st)) = true;
  ac_signature : verify_signature b = true;
  ac_evidence : Forall (fun ev => verify_evidence ev = true) (default [] (slashing_evidence b));
}.

Lemma acceptable_ok e b chain st v : acceptable e b chain st v ->
  validate_block sha3 hex_sha3 pop_valid pq_key_ok e b chain st = Ok tt.
Proof.
  intros [Hi Ht Hc He Hs Ha Hset (p & Hp & Hv) Hel Hl Hth Hsig Hev]. unfold validate_block.
  rewrite (proj2 (Z.eqb_neq _ _) Hi).
  assert (Hprev : match last chain with Some prev => check? bool_decide (previous_hash b = hash prev) else PreviousHash in Ok tt
    | None => Ok tt end = Ok tt) by (destruct (last chain) as [q|]; [by rewrite (bool_decide_eq_true_2 _ (Ht q eq_refl))|done]).
  rewrite Hprev, Hc, He, Hs, !Z.eqb_refl, (bool_decide_eq_false_2 _ Ha), Hset. cbn -[verify_leader].
  rewrite bool_decide_eq_true_2 by done. cbn -[verify_leader]. rewrite Hp. cbn -[verify_leader]. rewrite Hv. cbn -[verify_leader].
  rewrite Hel. cbn -[verify_leader]. rewrite Hl. cbn. rewrite Hth, Hsig. cbn.
  destruct (slashing_evidence b) as [l|]; [by apply verify_evidences_ok|done].
Qed.

(** The block that an elected node previews. *)
Definition previewed (c : PoSConfig) b (l : option (list (SlashingEvidence Header))) (keys : ValidatorKeys Header Rest) (seed : Hash32)
  : Block Header Rest :=
  set_producer (key_address keys) (set_vrf (vrf_sign keys seed).1 (vrf_sign keys seed).2
    (set_evidence l (set_epoch_slot (index b / epoch_length c) (index b) b))).

(** Between preview and preparation the node fills in what the engine does not
    read, the state root among it. *)
Definition set_rest (r : Rest) b : Block Header Rest :=
  mkBlock _ _ (index b) (timestamp b) (previous_hash b) (hash b) (chain_id b) (epoch b) (slot b) (producer b) (signature b)
    (vrf_output b) (vrf_proof b) (validator_set_hash b) (slashing_evidence b) r.

Lemma preview_ok e e1 b b1 chain st keys v : own_keys keys st v -> validator_keys e = Some keys -> vrf_output b = [] ->
  slashing_evidence b = None -> preview_block_with_chain sha3 e b st chain = (e1, Ok b1) ->
  exists seed l, config e1 = config e /\ validator_keys e1 = Some keys /\ evidence e1 = [] /\ default [] l = evidence e /\
    calculate_seed_with_chain sha3 (config e) (chain_id b) (index b / epoch_length (config e)) (index b) chain = Ok seed /\
    get_active_validators st <> [] /\ eligible (config e) v = true /\
    check_vrf_threshold sha3 (vrf_sign keys seed).1
      (calculate_vrf_threshold (Ledger.v_stake v) (Ledger.get_total_stake st)) = true /\
    b1 = previewed (config e) b l keys seed.
Proof.
  intros Ho Hk Hv He E. unfold preview_block_with_chain in E.
  destruct (attach_cases e (set_epoch_slot (index b / epoch_length (config e)) (index b) b) He)
    as (e' & l & Ea & Ec & Ek & Ee & El).
  rewrite Ea in E. injection E as <- E. rewrite <- Ec in *.
  apply (elect_ok _ _ _ _ keys v) in E as (seed & H); [|done|by rewrite Ek|done]. exists seed, l. by rewrite Ek.
Qed.

(** Preparing it elects the same leader with the same output and signs. *)
Lemma prepare_ok e e' c b l keys v seed r chain st b' : own_keys keys st v -> validator_keys e = Some keys -> config e = c ->
  evidence e = [] ->
  calculate_seed_with_chain sha3 c (chain_id b) (index b / epoch_length c) (index b) chain = Ok seed ->
  prepare_block_with_chain sha3 e (set_rest r (previewed c b l keys seed)) st chain = (e', Ok b') ->
  e' = e /\ b' = sign_block keys (set_rest r (previewed c b l keys seed)).
Proof.
  intros Ho Hk <- He Hs E. unfold prepare_block_with_chain, preview_block_with_chain, attach_evidence in E. rewrite He in E.
  set (p := set_rest r _) in *. change (set_epoch_slot _ _ p) with p in E.
  assert (E' : (e, let? b' := elect sha3 e p chain st in
       let? k := ok_or (validator_keys e) NoSigner in
       check? bool_decide (producer b' = Some (key_address k)) else NoSigner in
       Ok (sign_block k b')) = (e', Ok b')) by (by destruct (slashing_evidence p)).
  injection E' as <- E'. split; [done|]. inv_ok E'. rewrite Hk in E'1. injection E'1 as <-. f_equal.
  unfold elect in E'0. inv_ok E'0. rewrite Hk in E'3. injection E'3 as <-.
  enough (x5 = p) as -> by done. clear E'2. destruct (bool_decide (vrf_output p = []) || bool_decide (vrf_proof p = [])).
  - apply rbind_Ok in E'6 as (sd & Esd & E6).
    change (calculate_seed_with_chain sha3 (config e) (chain_id b) (index b / epoch_length (config e)) (index b) chain = Ok sd) in Esd.
    rewrite Hs in Esd. injection Esd as <-. destruct (vrf_sign keys seed) as [out proof] eqn:Ev. inv_ok E6.
    unfold p, previewed. by rewrite Ev.
  - by injection E'6.
Qed.

(** C10: what an elected validator proposes is accepted.  When a node whose keys
    belong to a validator of the state previews a block for the tip of its
    chain, is elected, completes the block and prepares it, and its pending
    evidence verifies (as that of [record_block] does), the block carries all of
    that evidence, which leaves the engine, and every node with the same
    configuration, chain and state whose last checkpoint is not above the block
    accepts it. *)
Theorem proposal_accepted e e1 e' e2 b b1 b' r chain st keys v :
  own_keys keys st v -> validator_keys e = Some keys -> template b chain st ->
  Forall (fun ev => verify_evidence ev = true) (evidence e) ->
  preview_block_with_chain sha3 e b st chain = (e1, Ok b1) ->
  prepare_block_with_chain sha3 e1 (set_rest r b1) st chain = (e', Ok b') ->
  config e2 = config e -> is_before_checkpoint e2 b = false ->
  validate_block sha3 hex_sha3 pop_valid pq_key_ok e2 b' chain st = Ok tt /\
  default [] (slashing_evidence b') = evidence e /\ evidence e' = [].
Proof.
  intros Ho Hk [Hi Ht Hs Hv He] Hev E E' Hc Hcp.
  apply (preview_ok _ _ _ _ _ _ keys v) in E as (seed & l & Ec1 & Ek1 & Ee1 & El & Hseed & Hne & Hel & Hth & ->); [|done..].
  apply (prepare_ok _ _ (config e) b l keys v seed r) in E' as [-> ->]; [|done..].
  destruct (ok_sign _ _ _ Ho (set_rest r (previewed (config e) b l keys seed)) eq_refl) as (Hsig & h & sg & Esg).
  split; [|rewrite Esg; done]. rewrite Esg in Hsig |- *. apply (acceptable_ok _ _ _ _ v). split; try done.
  - by rewrite Hc.
  - exists (key_address keys). split; [done|apply Ho].
  - by rewrite Hc.
  - rewrite Hc. by eapply leader_ok.
  - cbn. by rewrite El.
Qed.

(** ** Thresholds *)

(** Nothing saturates and nothing is lost but the remainder. *)
Lemma threshold_exact stake total : 0 <= stake <= total -> 0 < total < U64 ->
  calculate_vrf_threshold stake total = stake * (U64 - 1) / total.
Proof.
  intros Hs Ht. unfold calculate_vrf_threshold, saturating_mul, VRF_BASE_PROB, FIXED_POINT_SCALE.
  destruct (Z.eqb_spec total 0); [lia|]. destruct (Z.eqb_spec stake 0) as [->|]; [by rewrite Z.div_0_l by lia|]. cbn [orb].
  rewrite (Z.min_l (stake * _)) by nia. set (x := stake * (U64 - 1) / total).
  assert (Hx : 0 <= x <= U64 - 1).
  { unfold x. split; [apply Z.div_pos; nia|]. apply Z.div_le_upper_bound; [lia|]. nia. }
  rewrite Z.min_l by lia. rewrite Z.div_mul by lia. destruct (Z.leb_spec (U64 - 1) x); lia.
Qed.

Lemma msum_scaled (f g : Ledger.Validator -> Z) (m : gmap Address Ledger.Validator) t k :
  map_Forall (fun _ v => g v * t <= f v * k) m -> msum g m * t <= msum f m * k.
Proof.
  induction m as [|i v m Hi IH] using map_ind; [by rewrite !msum_empty|].
  intros [Hv Hm]%map_Forall_insert; [|done]. rewrite !msum_insert_new by done. specialize (IH Hm). lia.
Qed.

Definition active_stake (v : Ledger.Validator) : Z :=
  if Ledger.v_active v && negb (Ledger.v_slashed v) then Ledger.v_stake v else 0.

(** The thresholds of all validators fill at most one interval of draws: on
    average a slot has no more than one leader, and the chances are the shares of
    the stake. *)
Lemma thresholds_fair (st : Ledger.AccountState) :
  map_Forall (fun _ v => 0 <= Ledger.v_stake v) (Ledger.validators st) ->
  0 < msum active_stake (Ledger.validators st) < U64 ->
  msum (fun v => calculate_vrf_threshold (active_stake v) (Ledger.get_total_stake st)) (Ledger.validators st) <= U64 - 1.
Proof.
  intros Hs Ht.
  assert (Et : Ledger.get_total_stake st = msum active_stake (Ledger.validators st)) by (apply Z.mod_small; lia).
  rewrite Et. set (t := msum active_stake _) in *.
  assert (Hn : map_Forall (fun _ v => 0 <= active_stake v) (Ledger.validators st)).
  { eapply map_Forall_impl; [exact Hs|]. intros k v ?. unfold active_stake. by destruct (_ && _). }
  pose proof (msum_scaled active_stake (fun v => calculate_vrf_threshold (active_stake v) t) (Ledger.validators st) t (U64 - 1)) as H.
  fold t in H. enough (msum (fun v => calculate_vrf_threshold (active_stake v) t) (Ledger.validators st) * t <= t * (U64 - 1)) by nia.
  apply H. intros k v Hv. pose proof (msum_elem_le active_stake _ _ _ Hn Hv) as Hle. fold t in Hle.
  rewrite threshold_exact by (specialize (Hn _ _ Hv); cbn in Hn; lia). rewrite Z.mul_comm. apply Z.mul_div_le. lia.
Qed.

(** ** Checkpoints *)

Lemma max_by_key_max {A} (key : A -> Z) (l : list A) x : max_by_key key l = Some x -> x ∈ l /\ Forall (fun y => key y <= key x) l.
Proof.
  unfold max_by_key. revert x. induction l as [|y l IH] using rev_ind; intros x E; [done|]. rewrite foldl_app in E. cbn in E.
  destruct (foldl _ None l) as [z|] eqn:Ez.
  - destruct (IH z eq_refl) as [Hz Hl]. rewrite Forall_app, Forall_singleton, elem_of_app, list_elem_of_singleton.
    destruct (Z.leb_spec (key z) (key y)); simplify_eq.
    + split; [by right|]. split; [|lia]. eapply Forall_impl; [exact Hl|]. cbn. lia.
    + split; [by left|]. split; [done|lia].
  - simplify_eq. destruct l as [|a l]; [split; [by apply list_elem_of_singleton|by apply Forall_singleton]|].
    exfalso. clear -Ez. cbn in Ez. assert (H : forall o, is_Some o -> is_Some (foldl (fun best x => match best with
      | Some y => if key y <=? key x then Some x else Some y | None => Some x end) o l)).
    { clear Ez. induction l as [|b l IH]; intros o Ho; [done|]. cbn. apply IH. destruct o as [z|]; [destruct (key z <=? key b)|]; by eexists. }
    destruct (H (Some a)) as [? E]; [done|]. by rewrite E in Ez.
Qed.

(** C12: the last checkpoint is a revert limit.  A chain preferred to the
    current one, and the best of several as soon as one of them holds the
    checkpoint, holds the block of the checkpoint at its height, whatever the
    lengths; among those that do the longest wins; and a block accepted is not
    below the checkpoint, unless it has index 0, where the engine asks only for
    its own hash. *)
Theorem checkpoint_not_abandoned e cp :
  last (checkpoints e) = Some cp -> 0 <= block_index cp ->
  (forall current candidate, is_better_chain e current candidate = true ->
     (hash <$> candidate !! Z.to_nat (block_index cp)) = Some (block_hash cp) /\
     (chain_honours_checkpoint e current = true -> zlen current < zlen candidate)) /\
  (forall chains c best, c ∈ chains -> chain_honours_checkpoint e c = true -> select_best_chain e chains = Some best ->
     (hash <$> best !! Z.to_nat (block_index cp)) = Some (block_hash cp) /\ zlen c <= zlen best) /\
  (forall b chain st, validate_block sha3 hex_sha3 pop_valid pq_key_ok e b chain st = Ok tt ->
     index b = 0 /\ hash b = calculate_hash b \/ block_index cp <= index b).
Proof.
  intros Hl Hi.
  assert (Hh : forall c, chain_honours_checkpoint e c = true <-> hash <$> c !! Z.to_nat (block_index cp) = Some (block_hash cp)).
  { intros c. unfold chain_honours_checkpoint, last_checkpoint. rewrite Hl. cbn. destruct (c !! _) as [b|]; cbn; [|done].
    rewrite bool_decide_eq_true. split; congruence. }
  split; [|split].
  - intros cur cand E. unfold is_better_chain, fork_choice_score in E. destruct (chain_honours_checkpoint e cand) eqn:Ec; [|done].
    cbn in E. split; [by apply Hh|]. intros H. rewrite H in E. lia.
  - intros chains c best Hin Hc E. apply max_by_key_max in E as [_ Hall]. rewrite Forall_forall in Hall.
    specialize (Hall c Hin). cbn in Hall. unfold fork_choice_score in Hall. rewrite Hc in Hall.
    assert (Hpos : 0 < zlen c).
    { apply Hh in Hc. destruct (c !! _) as [b|] eqn:Eb; [|done]. apply lookup_lt_Some in Eb. unfold zlen. lia. }
    destruct (chain_honours_checkpoint e best) eqn:Eb; [|lia]. split; [by apply Hh|done].
  - intros b chain st E. unfold validate_block in E. destruct (Z.eqb_spec (index b) 0); [left; inv_ok E; split_bool; done|right].
    unfold is_before_checkpoint in E. rewrite Hl in E. apply rbind_Ok in E as (? & _ & E).
    apply rbind_Ok in E as (? & E1 & _). apply ensure_Ok in E1. split_bool. lia.
Qed.

End engine.

(** ** Two nodes, evaluated *)

Module Demo.

Definition Hdr : Type := Z * option Address * bytes.
Definition sealed (b : Block Hdr unit) : bytes := default [] (producer b) ++ hash b.
#[local] Instance toy_blocks : BlockOps Hdr unit := {|
  from_block b := (index b, producer b, hash b);
  h_index h := h.1.1;
  h_producer h := h.1.2;
  h_hash h := h.2;
  h_verify h s := bool_decide (s = default [] h.1.2 ++ h.2);
  calculate_hash b := hash b;
  verify_signature b := bool_decide (signature b = Some (sealed b));
|}.
Lemma toy_laws : BlockLaws toy_blocks.
Proof.
  split; try done. intros [] H. apply bool_decide_eq_true_1 in H. apply bool_decide_eq_true_2. cbn in *. by subst.
Qed.

(** The output is fixed, the proof names the key and the seed. *)
#[local] Instance toy_vrf : VrfLib := {|
  vrf_key_ok k := true;
  vrf_output_ok o := true;
  vrf_proof_ok p := true;
  vrf_verify key seed out proof := bool_decide (out = replicate 32 1) && bool_decide (proof = key ++ seed);
|}.

Definition alice : Address := replicate 32 7.
Definition config : PoSConfig := mkConfig 1000 6 10 0 0 0 7.
Definition digest (b : bytes) : Hash32 := take 32 b.

Definition block (i : Z) (h : bytes) : Block Hdr unit :=
  mkBlock _ _ i 0 [] h 1 (i / 10) i (Some alice) (Some (alice ++ h)) (replicate 32 1) [1] [] None tt.

Lemma double_hyps :
  Forall (fun b => verify_signature b = true /\ index b ∈u U64) ([] ++ block 5 [1] :: [block 25 [3]] ++ block 5 [2] :: [block 26 [4]]).
Proof. cbn. repeat apply Forall_cons_2; try apply Forall_nil_2; (split; [reflexivity|cbn; lia]). Qed.
Lemma double_window : Forall (fun b => window config b <= index (block 5 [1])) [block 25 [3]].
Proof. apply Forall_singleton. vm_compute. discriminate. Qed.
Lemma double_hashes : hash (block 5 [1]) <> hash (block 5 [2]).
Proof. discriminate. Qed.

Lemma double_production_caught_witness :
  accused (record_all (engine_new config None) [block 5 [1]; block 25 [3]; block 5 [2]; block 26 [4]]) alice 5 /\
  Forall (genuine [block 5 [1]; block 25 [3]; block 5 [2]; block 26 [4]])
    (evidence (record_all (engine_new config None) [block 5 [1]; block 25 [3]; block 5 [2]; block 26 [4]])).
Proof.
  exact (double_production_caught (BL := toy_laws) config None [] (block 5 [1]) [block 25 [3]] (block 5 [2]) [block 26 [4]] alice
    eq_refl double_hyps double_window eq_refl eq_refl eq_refl double_hashes).
Defined.

(** Beyond the window the first block is forgotten and the second is not evidence. *)
Example outside_window :
  evidence (record_all (engine_new config None) [block 5 [1]; block 30 [3]; block 5 [2]]) = [].
Proof. vm_compute. reflexivity. Qed.

(** A validator with all the stake, and its node. *)
#[local] Existing Instance LedgerFacts.map_registry.
Definition validator : Ledger.Validator :=
  Ledger.mkValidator alice 5000 true false false 0 None 0 0 [9] [9] [9] [9] ∅.
Definition state : Ledger.AccountState := Ledger.with_validators {[alice := validator]} LedgerFacts.demo_ledger.

Definition keys : ValidatorKeys Hdr unit :=
  mkKeys _ _ alice (fun seed => (replicate 32 1, [9] ++ seed)) (fun b => set_signature (hash b) (Some (alice ++ hash b)) b).
Definition genesis : Block Hdr unit := mkBlock _ _ 0 0 [] [42] 1 0 0 None None [] [] [] None tt.
Definition pending : SlashingEvidence Hdr := mkEvidence _ (5, Some alice, [1]) (5, Some alice, [2]) (alice ++ [1]) (alice ++ [2]).
Definition node : PoSEngine := with_evidence [pending] (engine_new config (Some keys)).

Definition pop_ok (v : Ledger.Validator) (cid : Z) : bool := true.
Definition key_ok (k : bytes) : bool := true.
Definition set_hash : bytes :=
  match consensus_validator_set_hash digest pop_ok key_ok state 1 with Ok h => h | Err _ => [] end.
Definition draft : Block Hdr unit := mkBlock _ _ 1 0 [42] [43] 1 0 0 None None [] [] set_hash None tt.
Definition candidate : Block Hdr unit :=
  match (preview_block_with_chain digest node draft state [genesis]).2 with Ok b => b | Err _ => draft end.
Definition proposed : Block Hdr unit :=
  match (prepare_block_with_chain digest node candidate state [genesis]).2 with Ok b => b | Err _ => draft end.

Lemma demo_keys : own_keys keys state validator.
Proof.
  split; [vm_compute; reflexivity|split; [discriminate|reflexivity]| |].
  - intros seed. do 3 (split; [reflexivity|]). apply andb_true_intro. split; apply bool_decide_eq_true_2; reflexivity.
  - intros b Hb. split; [|by eexists _, _]. apply bool_decide_eq_true_2. cbn. unfold sealed. cbn. by rewrite Hb.
Qed.
Lemma demo_template : template digest pop_ok key_ok draft [genesis] state.
Proof. split; [discriminate|by intros ? [= <-]|vm_compute; reflexivity|reflexivity|reflexivity]. Qed.
Lemma demo_pending : Forall (fun ev => verify_evidence ev = true) (evidence node).
Proof. apply Forall_singleton. vm_compute. reflexivity. Qed.
Lemma demo_previewed : preview_block_with_chain digest node draft state [genesis] = (with_evidence [] node, Ok candidate).
Proof. vm_compute. reflexivity. Qed.
Lemma demo_prepared :
  prepare_block_with_chain digest (with_evidence [] node) (set_rest tt candidate) state [genesis] = (with_evidence [] node, Ok proposed).
Proof. vm_compute. reflexivity. Qed.

(** A node that is not elected loses the evidence it held. *)
Example evidence_lost :
  let '(e, r) := preview_block_with_chain digest (with_evidence [pending] (engine_new config None)) draft state [genesis] in
  r = Err NotLeader /\ evidence e = [].
Proof. vm_compute. split; reflexivity. Qed.

Lemma proposal_accepted_witness :
  validate_block digest digest pop_ok key_ok (engine_new config None) proposed [genesis] state = Ok tt /\
  default [] (slashing_evidence proposed) = [pending] /\ evidence (with_evidence [] node) = [].
Proof.
  exact (proposal_accepted digest digest pop_ok key_ok node (with_evidence [] node) (with_evidence [] node) (engine_new config None)
    draft candidate proposed tt [genesis] state keys validator demo_keys eq_refl demo_template demo_pending demo_previewed
    demo_prepared eq_refl eq_refl).
Defined.

(** A chain of two full epochs and one with other hashes. *)
Definition history (h : Z) : list (Block Hdr unit) := genesis :: map (fun i => block (Z.of_nat i) [h]) (seq 1 24).
Lemma demo_transcripts : forall k, 0 <= k -> (2 - 2) * 10 <= k < (2 - 1) * 10 ->
  transcript <$> history 1 !! Z.to_nat k = transcript <$> history 2 !! Z.to_nat k.
Proof.
  intros k H0 Hk. assert (H : (Z.to_nat k < 10)%nat) by lia. revert H. generalize (Z.to_nat k). clear.
  intros n H. do 10 (destruct n as [|n]; [reflexivity|]). lia.
Qed.
Lemma demo_length h : (2 - 1) * 10 <= zlen (history h).
Proof. vm_compute. discriminate. Qed.
Lemma demo_epoch : 2 ∈u U64.
Proof. lia. Qed.
Lemma demo_epoch_length : 0 <= 10.
Proof. lia. Qed.

Lemma seed_ungrindable_witness :
  calculate_seed_with_chain digest config 1 2 25 (history 1) = calculate_seed_with_chain digest config 1 2 25 (history 2).
Proof.
  exact (seed_ungrindable digest config 1 2 25 (history 1) (history 2) demo_epoch demo_epoch_length eq_refl
    (demo_length 1) (demo_length 2) demo_transcripts).
Defined.

Definition anchored : PoSEngine := record_all (engine_new config None) [block 10 [1]].
Lemma anchored_last : last (checkpoints anchored) = Some (mkCheckpoint 10 [1] 0).
Proof. vm_compute. reflexivity. Qed.
Lemma anchored_index : 0 <= block_index (mkCheckpoint 10 [1] 0).
Proof. vm_compute. discriminate. Qed.

Lemma checkpoint_not_abandoned_witness :
  is_better_chain anchored [genesis] (history 1) = true /\
  (hash <$> history 1 !! 10%nat) = Some [1] /\
  is_better_chain anchored [genesis] (history 2) = false.
Proof.
  split; [vm_compute; reflexivity|]. split; [|vm_compute; reflexivity].
  exact (proj1 (proj1 (checkpoint_not_abandoned digest digest pop_ok key_ok anchored (mkCheckpoint 10 [1] 0)
    anchored_last anchored_index) [genesis] (history 1) ltac:(vm_compute; reflexivity))).
Defined.

(** When no chain holds the checkpoint, the last one offered is selected. *)
Example select_without_checkpoint : select_best_chain anchored [[genesis]; history 2] = Some (history 2).
Proof. vm_compute. reflexivity. Qed.

End Demo.
End PosFacts.
