(* ===== verification/PowFacts.v ===== *)
(** * Theorems about the proof-of-work engine (Pow.v) *)

From Stdlib Require Import ZArith Lia.
From stdpp Require Import base tactics strings numbers gmap list.
From S2P Require Import Prelude Hashing Pos Pow.
Import Hashing Pow.
Open Scope Z_scope.

Module PowFacts.

(** ** The integer behind the limbs *)

Fixpoint value (l : list Z) : Z :=
  match l with
  | [] => 0
  | x :: l' => x + U64 * value l'
  end.

Record wf (x : U256) : Prop := {
  wf_length : length (limbs x) = 4%nat;
  wf_limbs : Forall (fun l => l ∈u U64) (limbs x);
}.

Lemma value_bound l : Forall (fun x => x ∈u U64) l -> 0 <= value l < U64 ^ Z.of_nat (length l).
Proof.
  induction 1 as [|x l Hx Hl IH]; [cbn; lia|]. cbn [value length]. rewrite Nat2Z.inj_succ, Z.pow_succ_r by lia. nia.
Qed.

Lemma value_snoc l x : value (l ++ [x]) = value l + U64 ^ Z.of_nat (length l) * x.
Proof.
  induction l as [|y l IH]; [cbn; lia|]. cbn [app value length]. rewrite IH, Nat2Z.inj_succ, Z.pow_succ_r by lia. lia.
Qed.

Lemma add_limb_ok a b carry : a ∈u U64 -> b ∈u U64 -> 0 <= carry <= 1 ->
  (add_limb a b carry).1 + U64 * (add_limb a b carry).2 = a + b + carry /\
  (add_limb a b carry).1 ∈u U64 /\ 0 <= (add_limb a b carry).2 <= 1.
Proof.
  intros Ha Hb Hc. unfold add_limb, wrap. cbn.
  assert (H1 : (a + b) mod U64 = if U64 <=? a + b then a + b - U64 else a + b).
  { destruct (Z.leb_spec U64 (a + b)); [|apply Z.mod_small; lia].
    rewrite <- (Z.mod_small (a + b - U64) U64) by lia. rewrite <- (Z.mod_add (a + b - U64) 1 U64) by lia. f_equal. lia. }
  rewrite H1. set (s := if U64 <=? a + b then _ else _).
  assert (H2 : (s + carry) mod U64 = if U64 <=? s + carry then s + carry - U64 else s + carry).
  { assert (0 <= s < U64) by (unfold s; destruct (Z.leb_spec U64 (a + b)); lia).
    destruct (Z.leb_spec U64 (s + carry)); [|apply Z.mod_small; lia].
    rewrite <- (Z.mod_small (s + carry - U64) U64) by lia. rewrite <- (Z.mod_add (s + carry - U64) 1 U64) by lia. f_equal. lia. }
  rewrite H2. unfold s. destruct (Z.leb_spec U64 (a + b)); cbn [Z.b2z];
    (match goal with |- context [U64 <=? ?x] => destruct (Z.leb_spec U64 x) end); cbn [Z.b2z]; lia.
Qed.

Lemma add_limbs_ok a b carry : length a = length b -> Forall (fun x => x ∈u U64) a -> Forall (fun x => x ∈u U64) b ->
  0 <= carry <= 1 ->
  value (add_limbs a b carry).1 + U64 ^ Z.of_nat (length a) * (add_limbs a b carry).2 = value a + value b + carry /\
  Forall (fun x => x ∈u U64) (add_limbs a b carry).1 /\ 0 <= (add_limbs a b carry).2 <= 1 /\
  length (add_limbs a b carry).1 = length a.
Proof.
  intros Hl Ha. revert b carry Hl. induction Ha as [|x a Hx Ha IH]; intros [|y b] carry Hl Hb Hc; try done.
  - cbn. split; [lia|]. by split.
  - apply Forall_cons in Hb as [Hy Hb]. cbn [add_limbs].
    pose proof (add_limb_ok x y carry Hx Hy Hc) as (A1 & A2 & A3). destruct (add_limb x y carry) as [s c]. cbn in A1, A2, A3.
    specialize (IH b c ltac:(cbn in Hl; lia) Hb A3) as (B1 & B2 & B3 & B4).
    destruct (add_limbs a b c) as [r c']. cbn [fst snd length value] in *. split; [|split; [by constructor|split; [done|lia]]].
    rewrite Nat2Z.inj_succ, Z.pow_succ_r by lia. nia.
Qed.

Lemma wf_ZERO : wf ZERO.
Proof. split; [done|]. cbn. repeat apply Forall_cons_2; try apply Forall_nil_2; lia. Qed.
Lemma wf_MAX : wf MAX.
Proof. split; [done|]. cbn. repeat apply Forall_cons_2; try apply Forall_nil_2; lia. Qed.

(** [saturating_add] is addition capped at the greatest 256-bit number. *)
Lemma saturating_add_value x y : wf x -> wf y ->
  value (limbs (Pow.saturating_add x y)) = Z.min (value (limbs x) + value (limbs y)) (2 ^ 256 - 1) /\ wf (Pow.saturating_add x y).
Proof.
  intros [Lx Hx] [Ly Hy]. unfold Pow.saturating_add.
  pose proof (add_limbs_ok (limbs x) (limbs y) 0 ltac:(congruence) Hx Hy ltac:(lia)) as (A & B & C & D).
  destruct (add_limbs (limbs x) (limbs y) 0) as [l c]. cbn in A, B, C, D. rewrite Lx in *.
  pose proof (value_bound l B) as Hb. rewrite D in Hb. change (U64 ^ Z.of_nat 4) with (2 ^ 256) in *.
  pose proof (value_bound _ Hx) as Vx. pose proof (value_bound _ Hy) as Vy.
  destruct (Z.ltb_spec 0 c).
  - split; [|apply wf_MAX]. change (value (limbs MAX)) with (2 ^ 256 - 1). lia.
  - split; [cbn [limbs]; lia|]. by split.
Qed.

Lemma pow2_value e : 0 <= e -> value (limbs (pow2 e)) = Z.min (2 ^ e) (2 ^ 256 - 1) /\ wf (pow2 e).
Proof.
  intros He. unfold pow2. destruct (Z.leb_spec 256 e) as [Hge|Hlt].
  - split; [|apply wf_MAX]. change (value (limbs MAX)) with (2 ^ 256 - 1). pose proof (Z.pow_le_mono_r 2 256 e). lia.
  - assert (Hall : forallb (fun n => let e := Z.of_nat n in
        let l := <[Z.to_nat (e / 64) := Z.shiftl 1 (e mod 64)]> [0; 0; 0; 0] in
        (value l =? Z.min (2 ^ e) (2 ^ 256 - 1)) && forallb (fun x => (0 <=? x) && (x <? U64)) l) (seq 0 256) = true)
      by (vm_compute; reflexivity).
    rewrite forallb_forall in Hall. specialize (Hall (Z.to_nat e)). cbv zeta in Hall. rewrite Z2Nat.id in Hall by lia.
    assert (Hin : In (Z.to_nat e) (seq 0 256)) by (apply in_seq; lia). apply Hall in Hin. apply andb_prop in Hin as [Hv Hw].
    apply Z.eqb_eq in Hv. split; [exact Hv|]. split; [cbn [limbs]; by rewrite length_insert|].
    rewrite forallb_forall in Hw. apply Forall_forall. intros x Hx%list_elem_of_In. specialize (Hw x Hx). lia.
Qed.

Lemma cmp_limbs_value a b : length a = length b -> Forall (fun x => x ∈u U64) a -> Forall (fun x => x ∈u U64) b ->
  cmp_limbs (rev a) (rev b) = (value a ?= value b).
Proof.
  revert b. induction a as [|x a IH] using rev_ind; intros b Hl Ha Hb; [by destruct b|].
  destruct b as [|y b _] using rev_ind; [rewrite length_app in Hl; cbn in Hl; lia|].
  rewrite !length_app in Hl. apply Forall_app in Ha as [Ha Hx], Hb as [Hb Hy]. rewrite Forall_singleton in Hx, Hy.
  rewrite !rev_app_distr, !value_snoc. cbn [rev app cmp_limbs]. rewrite (IH b) by (done || (cbn in Hl; lia)).
  pose proof (value_bound a Ha) as Va. pose proof (value_bound b Hb) as Vb.
  replace (length b) with (length a) in * by (cbn in Hl; lia). set (m := U64 ^ Z.of_nat (length a)) in *.
  assert (0 < m) by (apply Z.pow_pos_nonneg; lia). symmetry. destruct (Z.compare_spec x y) as [->|Hxy|Hxy].
  - destruct (Z.compare_spec (value a) (value b)); [apply Z.compare_eq_iff|apply Z.compare_lt_iff|apply Z.compare_gt_iff]; lia.
  - apply Z.compare_lt_iff. nia.
  - apply Z.compare_gt_iff. nia.
Qed.

(** ** Work *)

Section engine.
Context {Header Rest : Type} {B : Pos.BlockOps Header Rest}.
Implicit Types (chain : list (Pos.Block Header Rest)).

Lemma adjusted_bound c d (first last : Pos.Block Header Rest) : 1 <= adjusted_difficulty c d first last <= 32.
Proof. unfold adjusted_difficulty. lia. Qed.

Lemma retarget_bound c chain fuel boundary d : 0 <= d <= 32 -> 0 <= retarget c chain fuel boundary d <= 32.
Proof.
  revert boundary d. induction fuel as [|fuel IH]; intros boundary d Hd; [done|]. cbn [retarget].
  destruct (chain !! Z.to_nat boundary) as [b|]; [|done]. apply IH. destruct (_ && _); [|done].
  destruct (chain !! _) as [f|]; [|done]. pose proof (adjusted_bound c d f b). lia.
Qed.

(** The difficulty of every block is within the clamp when the configured one is. *)
Lemma difficulty_bound c chain : 0 <= difficulty c <= 32 -> 0 <= difficulty_for_next_block c chain <= 32.
Proof. intros Hd. unfold difficulty_for_next_block. destruct (_ =? 0); [done|]. by apply retarget_bound. Qed.

(** The sum of [16 ^ difficulty] over the blocks from the [n]-th on. *)
Fixpoint work_from c chain (n todo : nat) : Z :=
  match todo with
  | O => 0
  | S todo => 16 ^ difficulty_for_next_block c (take n chain) + work_from c chain (S n) todo
  end.
Definition total_work c chain : Z := work_from c chain 1 (length chain - 1).

Lemma work_from_bound c chain n todo : 0 <= difficulty c <= 32 -> 0 <= work_from c chain n todo <= Z.of_nat todo * 2 ^ 128.
Proof.
  intros Hd. revert n. induction todo as [|todo IH]; intros n; [cbn; lia|]. cbn [work_from]. specialize (IH (S n)).
  pose proof (difficulty_bound c (take n chain) Hd) as Hb.
  assert (0 < 16 ^ difficulty_for_next_block c (take n chain) <= 16 ^ 32).
  { split; [apply Z.pow_pos_nonneg; lia|]. apply Z.pow_le_mono_r; lia. }
  change (16 ^ 32) with (2 ^ 128) in *. lia.
Qed.

Lemma work_term c chain n : 0 <= difficulty c <= 32 ->
  value (limbs (pow2 (saturating_mul U32 (if U32 <=? difficulty_for_next_block c (take n chain) then U32 - 1
    else difficulty_for_next_block c (take n chain)) 4))) = 16 ^ difficulty_for_next_block c (take n chain) /\
  wf (pow2 (saturating_mul U32 (if U32 <=? difficulty_for_next_block c (take n chain) then U32 - 1
    else difficulty_for_next_block c (take n chain)) 4)).
Proof.
  intros Hd. pose proof (difficulty_bound c (take n chain) Hd) as Hb. set (d := difficulty_for_next_block _ _) in *.
  destruct (Z.leb_spec U32 d); [lia|]. unfold saturating_mul. rewrite Z.min_l by lia.
  destruct (pow2_value (d * 4)) as [Hv Hw]; [lia|]. split; [|done]. rewrite Hv, Z.min_l.
  - rewrite Z.mul_comm, Z.pow_mul_r by lia. done.
  - pose proof (Z.pow_le_mono_r 2 (d * 4) 128). lia.
Qed.

Lemma work_loop_value c chain n todo score : 0 <= difficulty c <= 32 -> wf score ->
  value (limbs score) + work_from c chain n todo < 2 ^ 256 ->
  value (limbs (work_loop c chain n todo score)) = value (limbs score) + work_from c chain n todo /\
  wf (work_loop c chain n todo score).
Proof.
  intros Hd. revert n score. induction todo as [|todo IH]; intros n score Hs Hlt; [cbn in *; split; [lia|done]|].
  cbn [work_loop work_from] in *. destruct (work_term c chain n Hd) as [Ht Hw].
  destruct (saturating_add_value score _ Hs Hw) as [Ha Hwa]. rewrite Ht in Ha.
  pose proof (work_from_bound c chain (S n) todo Hd). pose proof (difficulty_bound c (take n chain) Hd).
  rewrite Z.min_l in Ha by lia. destruct (IH (S n) _ Hwa) as [Hv Hwf]; [lia|]. split; [lia|done].
Qed.

Lemma accumulated_work_exact c chain : 0 <= difficulty c <= 32 -> zlen chain < U64 ->
  value (limbs (accumulated_work c chain)) = total_work c chain /\ wf (accumulated_work c chain).
Proof.
  intros Hd Hl. unfold accumulated_work, total_work, zlen in *.
  pose proof (work_from_bound c chain 1 (length chain - 1) Hd) as Hb.
  destruct (work_loop_value c chain 1 (length chain - 1) ZERO Hd wf_ZERO) as [Hv Hw].
  - change (value (limbs ZERO)) with 0. lia.
  - by rewrite Hv.
Qed.

(** C15: chain comparison by work is exact.  With the configured difficulty
    within the clamp, the four-limb accumulator holds the sum of 16 to the
    difficulty of every block after the first, without saturation, and a chain
    is better exactly when that sum is greater; hence the comparison is a strict
    order that a longer chain of less work never wins. *)
Theorem chainwork_exact c current candidate : 0 <= difficulty c <= 32 -> zlen current < U64 -> zlen candidate < U64 ->
  value (limbs (accumulated_work c candidate)) = total_work c candidate /\
  (is_better_chain c current candidate = true <-> total_work c current < total_work c candidate).
Proof.
  intros Hd Hc Hn. destruct (accumulated_work_exact c current Hd Hc) as [Vc [Lc Wc]].
  destruct (accumulated_work_exact c candidate Hd Hn) as [Vn [Ln Wn]]. split; [done|].
  unfold is_better_chain, cmp. rewrite cmp_limbs_value by (done || congruence). rewrite Vc, Vn.
  destruct (Z.compare_spec (total_work c candidate) (total_work c current)); split; intros; (done || lia).
Qed.

End engine.

(** ** The target *)

Lemma be_decode_zero l : Forall byte l -> be_decode l = 0 <-> existsb (fun b => negb (b =? 0)) l = false.
Proof.
  induction l as [|x l IH]; intros H; [done|]. apply Forall_cons in H as [Hx Hl]. unfold byte in Hx.
  change (x :: l) with ([x] ++ l). rewrite be_decode_app. change (be_decode [x]) with x. cbn [existsb app].
  pose proof (be_decode_bound l Hl). rewrite orb_false_iff, <- IH, negb_false_iff, Z.eqb_eq by done.
  assert (0 < 256 ^ zlen l) by (apply Z.pow_pos_nonneg; unfold zlen; lia). nia.
Qed.

Lemma high_nibble x : byte x -> Z.land x 240 = 0 <-> x < 16.
Proof.
  intros Hx. unfold byte in Hx.
  assert (H : forallb (fun n => Bool.eqb (Z.land (Z.of_nat n) 240 =? 0) (Z.of_nat n <? 16)) (seq 0 256) = true) by (vm_compute; reflexivity).
  rewrite forallb_forall in H. specialize (H (Z.to_nat x)). rewrite Z2Nat.id in H by lia.
  specialize (H ltac:(apply in_seq; lia)). apply eqb_prop in H. destruct (Z.eqb_spec (Z.land x 240) 0), (Z.ltb_spec x 16); (done || lia).
Qed.

(** The half byte of an odd difficulty. *)
Lemma target_nibble f d bs r : bs = take (Z.to_nat f) bs ++ r -> length (take (Z.to_nat f) bs) = Z.to_nat f -> 0 <= f ->
  Z.of_nat (length bs) = f + Z.of_nat (length r) -> d * 4 = 8 * f + 4 -> Forall byte r -> (1 <= length r)%nat ->
  (Z.land (nth (Z.to_nat f) bs 0) (wrap U8 (Z.shiftl 255 (8 - 4))) =? 0) = true <->
  4 * d <= 8 * Z.of_nat (length bs) /\ be_decode r < 2 ^ (8 * Z.of_nat (length bs) - 4 * d).
Proof.
  intros Ebs La Hf Lr Hd Hb Hne. destruct r as [|x r]; [cbn in Hne; lia|]. apply Forall_cons in Hb as [Hx Hb].
  assert (En : nth (Z.to_nat f) bs 0 = x) by (rewrite Ebs, app_nth2; rewrite La; [by rewrite Nat.sub_diag|lia]).
  rewrite En. change (wrap U8 (Z.shiftl 255 (8 - 4))) with 240. rewrite Z.eqb_eq, high_nibble by done.
  change (x :: r) with ([x] ++ r). rewrite be_decode_app. change (be_decode [x]) with x. pose proof (be_decode_bound r Hb) as Br.
  assert (Ep : 2 ^ (8 * Z.of_nat (length bs) - 4 * d) = 16 * 256 ^ zlen r).
  { change 256 with (2 ^ 8). rewrite <- Z.pow_mul_r by (unfold zlen; lia). change 16 with (2 ^ 4).
    rewrite <- Z.pow_add_r by (unfold zlen; lia). f_equal. cbn in Lr. unfold zlen. lia. }
  rewrite Ep. cbn in Lr. split; [intros; split; [lia|nia]|]. intros [_ H]. nia.
Qed.

(** The bit test of the source is the numeric target: the hash, read as one
    big-endian number, is below [2 ^ (bits - 4 * difficulty)]. *)
Lemma meets_difficulty_exact h bs d : hex_decode h = Some bs -> Forall byte bs -> 0 <= d < 2 ^ 60 ->
  meets_difficulty_at h d = true <-> 4 * d <= 8 * zlen bs /\ be_decode bs < 2 ^ (8 * zlen bs - 4 * d).
Proof.
  intros Eh Hb Hd. unfold meets_difficulty_at, saturating_mul. rewrite Eh, Z.min_l by lia.
  assert (Hr : d * 4 mod 8 = 4 * (d mod 2)) by (change 8 with (4 * 2); rewrite Z.mul_comm, Z.mul_mod_distr_l by lia; done).
  rewrite Hr. set (f := d * 4 / 8). assert (Hf : d * 4 = 8 * f + 4 * (d mod 2)) by (rewrite <- Hr; apply Z.div_mod; lia).
  pose proof (Z.mod_pos_bound d 2 ltac:(lia)) as Hm.
  destruct (Z.ltb_spec (zlen bs) (f + Z.b2z (0 <? 4 * (d mod 2)))) as [Hs|Hs].
  { split; [done|]. intros [Hle _]. destruct (Z.ltb_spec 0 (4 * (d mod 2))); cbn [Z.b2z] in *; lia. }
  assert (Hf0 : 0 <= f) by (apply Z.div_pos; lia). unfold zlen in *.
  set (a := take (Z.to_nat f) bs). set (r := drop (Z.to_nat f) bs).
  assert (Ebs : bs = a ++ r) by (symmetry; apply take_drop).
  assert (La : length a = Z.to_nat f).
  { unfold a. rewrite length_take. destruct (0 <? _); cbn [Z.b2z] in Hs; lia. }
  assert (Lr : Z.of_nat (length bs) = f + Z.of_nat (length r)) by (rewrite Ebs, length_app, La; lia).
  rewrite Ebs in Hb. apply Forall_app in Hb as [Ha Hrb].
  pose proof (be_decode_bound a Ha) as Ba. pose proof (be_decode_bound r Hrb) as Br.
  assert (Ev : be_decode bs = be_decode a * 256 ^ zlen r + be_decode r) by (by rewrite Ebs, be_decode_app).
  assert (P0 : 0 < 256 ^ zlen r) by (apply Z.pow_pos_nonneg; unfold zlen; lia).
  fold a. destruct (existsb (fun b => negb (b =? 0)) a) eqn:Ex.
  - split; [done|]. intros [_ Hlt]. exfalso.
    assert (Hne : be_decode a <> 0) by (intros E; apply be_decode_zero in E; [congruence|done]).
    assert (2 ^ (8 * Z.of_nat (length bs) - 4 * d) <= 256 ^ zlen r).
    { change 256 with (2 ^ 8). rewrite <- Z.pow_mul_r by (unfold zlen; lia). apply Z.pow_le_mono_r; unfold zlen; lia. }
    nia.
  - apply be_decode_zero in Ex; [|done]. rewrite Ex in Ev. cbn in Ev. rewrite Ev.
    assert (Hd2 : d mod 2 = 0 \/ d mod 2 = 1) by lia. destruct Hd2 as [E2|E2]; rewrite E2 in *; cbn [Z.mul Z.ltb Z.compare].
    + split; [intros _|done]. split; [lia|]. replace (8 * Z.of_nat (length bs) - 4 * d) with (8 * zlen r) by (unfold zlen; lia).
      rewrite Z.pow_mul_r by (unfold zlen; lia). apply Br.
    + apply target_nibble; try done. change (Z.b2z (0 <? 4 * 1)) with 1 in Hs. lia.
Qed.

(** Mining ends at the first nonce that meets the target. *)
Lemma mine_first hash_at d n nonce : 0 <= nonce <= n -> n < U64 -> meets_difficulty_at (hash_at n) d = true ->
  exists m, nonce <= m <= n /\ mine hash_at d (Z.to_nat (n - nonce)) nonce (hash_at nonce) = Some (m, hash_at m) /\
    meets_difficulty_at (hash_at m) d = true /\ forall k, nonce <= k < m -> meets_difficulty_at (hash_at k) d = false.
Proof.
  intros H0 Hn Hm. remember (Z.to_nat (n - nonce)) as fuel eqn:Ef. revert nonce H0 Ef.
  induction fuel as [|fuel IH]; intros nonce H0 Ef; cbn [mine].
  - assert (nonce = n) as -> by lia. rewrite Hm. exists n. split; [lia|]. split; [done|]. split; [done|lia].
  - destruct (meets_difficulty_at (hash_at nonce) d) eqn:E.
    + exists nonce. split; [lia|]. split; [done|]. split; [done|lia].
    + unfold Prelude.saturating_add. rewrite Z.min_l by lia.
      destruct (IH (nonce + 1)) as (m & Hb & Hmine & Hok & Hmin); [lia|lia|]. exists m. split; [lia|]. split; [done|].
      split; [done|]. intros k Hk. destruct (decide (k = nonce)) as [->|]; [done|]. apply Hmin. lia.
Qed.

(** ** Two chains, evaluated *)

Module Demo.

Definition config : PoWConfig := mkPow 2 10 2.
(** Blocks [step] milliseconds apart. *)
Definition block (step : Z) (i : nat) : Pos.Block unit unit :=
  Pos.mkBlock _ _ (Z.of_nat i) (step * Z.of_nat i) [] [] 1 0 0 None None [] [] [] None tt.
Definition fast : list (Pos.Block unit unit) := map (block 1000) (seq 0 6).
Definition slow : list (Pos.Block unit unit) := map (block 90000) (seq 0 8).

Lemma config_ok : 0 <= difficulty config <= 32.
Proof. vm_compute. split; discriminate. Qed.
Lemma fast_short : zlen fast < U64.
Proof. vm_compute. reflexivity. Qed.
Lemma slow_short : zlen slow < U64.
Proof. vm_compute. reflexivity. Qed.

Lemma chainwork_exact_witness :
  value (limbs (accumulated_work config fast)) = total_work config fast /\
  (is_better_chain config slow fast = true <-> total_work config slow < total_work config fast).
Proof. exact (chainwork_exact config slow fast config_ok slow_short fast_short). Defined.

(** The shorter chain has more work, and yet the longer one is selected. *)
Example heaviest_not_selected :
  is_better_chain config slow fast = true /\ select_best_chain [fast; slow] = Some slow.
Proof. vm_compute. split; reflexivity. Qed.

End Demo.
End PowFacts.
