(* ===== verification/Poa.v ===== *)
(** * The proof-of-authority engine (src/consensus/poa.rs)

    One authority of the active validators may produce each block, drawn from
    the hash of the block before it.  Blocks are those of Pos.v; the signature
    check against an address is a parameter, and so are Sha-256 and signing.

    Theorem: the leader of a slot is one function of the tip and the state, a
    block is accepted only with a valid signature of that leader, and what the
    leader prepares is accepted. *)

From Stdlib Require Import ZArith Lia.
From stdpp Require Import base tactics strings numbers gmap list.
From S2P Require Import Prelude Hashing Ledger LedgerFacts Pos Pow.
Import Hashing.
Open Scope Z_scope.

Module Poa.

Definition leader_entropy (hash : bytes) : bytes :=
  match Pow.hex_decode hash with
  | Some bs => if zlen bs =? 32 then bs else replicate 32 255
  | None => replicate 32 255
  end.

Inductive PoaError : Type :=
| GenesisHash
| PreviousHash
| NoValidators
| NoProposer
| NoProducer
| WrongSigner (expected : Address)
| NoAuthorities.

Section engine.
Context {Header Rest : Type} {B : Pos.BlockOps Header Rest} {R : Ledger.RoleRegistry}.
Context (sha256 : bytes -> Hash32) (verify_signature_with_pubkey : Pos.Block Header Rest -> Address -> bool).

(** The keypair of the node: its address and its signature of a block.  The
    hardware signer acts like it. *)
Record KeyPair : Type := mkKeyPair {
  kp_address : Address;
  kp_sign : Pos.Block Header Rest -> Pos.Block Header Rest;
}.

Record PoAEngine : Type := mkPoA { keypair : option KeyPair; authorities : list Address }.

Definition active_authorities (e : PoAEngine) (st : Ledger.AccountState) : list Ledger.Validator :=
  let active := Pos.get_active_validators st in
  if bool_decide (authorities e = []) then active
  else filter (fun v => Ledger.v_address v ∈ authorities e) active.

Definition leader_slot_with_entropy (block_index : Z) (vs : list Ledger.Validator) (entropy : bytes) : Z :=
  let n := zlen vs in
  let digest := sha256 (ascii_bytes "BUDLUM_POA_LEADER_V2" ++ u64_le block_index ++ entropy ++ u64_le n ++
    concat (map (fun v => Ledger.v_address v ++ u64_le (Ledger.v_stake v)) vs)) in
  le_decode (take 8 digest) mod n.

Definition expected_proposer_with_entropy (block_index : Z) (vs : list Ledger.Validator) (entropy : bytes) : option Ledger.Validator :=
  match vs with
  | [] => None
  | _ => vs !! Z.to_nat (leader_slot_with_entropy block_index vs entropy)
  end.
Definition expected_proposer (block_index : Z) (vs : list Ledger.Validator) : option Ledger.Validator :=
  expected_proposer_with_entropy block_index vs (replicate 32 0).

Definition active_validator_count (e : PoAEngine) (st : Ledger.AccountState) : Z := zlen (active_authorities e st).

Definition prepare_common (e : PoAEngine) (b : Pos.Block Header Rest) (st : Ledger.AccountState)
  : result (Pos.Block Header Rest * option Address) PoaError :=
  let? expected :=
    match expected_proposer_with_entropy (Pos.index b) (active_authorities e st) (leader_entropy (Pos.previous_hash b)) with
    | Some v => Ok (Ledger.v_address v)
    | None => if Pos.index b =? 0 then Ok zero32 else Err NoValidators
    end in
  if bool_decide (expected = zero32) then Ok (b, None)
  else
    match keypair e with
    | Some kp =>
        if bool_decide (kp_address kp = expected) then Ok (Pos.set_producer (kp_address kp) b, Some (kp_address kp))
        else
          let b' := if bool_decide (Pos.producer b = None \/ Pos.producer b = Some zero32) then Pos.set_producer expected b else b in
          Ok (b', Pos.producer b')
    | None =>
        let b' := if bool_decide (Pos.producer b = None \/ Pos.producer b = Some zero32) then Pos.set_producer expected b else b in
        Ok (b', Pos.producer b')
    end.

Definition set_hash (h : bytes) (b : Pos.Block Header Rest) : Pos.Block Header Rest :=
  Pos.mkBlock _ _ (Pos.index b) (Pos.timestamp b) (Pos.previous_hash b) h (Pos.chain_id b) (Pos.epoch b) (Pos.slot b)
    (Pos.producer b) (Pos.signature b) (Pos.vrf_output b) (Pos.vrf_proof b) (Pos.validator_set_hash b)
    (Pos.slashing_evidence b) (Pos.rest b).

Definition prepare_block (e : PoAEngine) (b : Pos.Block Header Rest) (st : Ledger.AccountState)
  : result (Pos.Block Header Rest) PoaError :=
  let? (b1, expected) := prepare_common e b st in
  let b2 := match expected, keypair e with
            | Some a, Some kp => if bool_decide (kp_address kp = a) then kp_sign kp b1 else b1
            | _, _ => b1
            end in
  Ok (if bool_decide (Pos.signature b2 = None) then set_hash (Pos.calculate_hash b2) b2 else b2).

Definition validate_block (e : PoAEngine) (b : Pos.Block Header Rest) (chain : list (Pos.Block Header Rest))
    (st : Ledger.AccountState) : result unit PoaError :=
  if Pos.index b =? 0 then check? bool_decide (Pos.hash b = Pos.calculate_hash b) else GenesisHash in Ok tt
  else
    let? _ := match last chain with
              | Some prev => check? bool_decide (Pos.previous_hash b = Pos.hash prev) else PreviousHash in Ok tt
              | None => Ok tt
              end in
    let active := active_authorities e st in
    check? negb (bool_decide (active = [])) else NoAuthorities in
    let entropy := match last chain with
                   | Some prev => leader_entropy (Pos.hash prev)
                   | None => leader_entropy (Pos.previous_hash b)
                   end in
    let? expected := ok_or (expected_proposer_with_entropy (Pos.index b) active entropy) NoProposer in
    let? _ := ok_or (Pos.producer b) NoProducer in
    check? verify_signature_with_pubkey b (Ledger.v_address expected) else WrongSigner (Ledger.v_address expected) in
    Ok tt.

(** ** The leader of a slot *)

Lemma proposer_exists i vs entropy : vs <> [] -> exists v, expected_proposer_with_entropy i vs entropy = Some v /\ v ∈ vs.
Proof.
  intros Hne. assert (Hn : 0 < zlen vs) by (destruct vs; [done|unfold zlen; cbn; lia]).
  pose proof (Z.mod_pos_bound (le_decode (take 8 (sha256 (ascii_bytes "BUDLUM_POA_LEADER_V2" ++ u64_le i ++ entropy ++ u64_le (zlen vs) ++
    concat (map (fun v => Ledger.v_address v ++ u64_le (Ledger.v_stake v)) vs))))) (zlen vs) Hn) as Hb.
  destruct (lookup_lt_is_Some_2 vs (Z.to_nat (leader_slot_with_entropy i vs entropy))) as [v Hv].
  { unfold leader_slot_with_entropy, zlen in *. lia. }
  exists v. split; [|by eapply list_elem_of_lookup_2]. unfold expected_proposer_with_entropy. by destruct vs.
Qed.

(** What signing writes. *)
Definition set_signed (h : bytes) (s : bytes) (b : Pos.Block Header Rest) : Pos.Block Header Rest :=
  Pos.mkBlock _ _ (Pos.index b) (Pos.timestamp b) (Pos.previous_hash b) h (Pos.chain_id b) (Pos.epoch b) (Pos.slot b)
    (Pos.producer b) (Some s) (Pos.vrf_output b) (Pos.vrf_proof b) (Pos.validator_set_hash b)
    (Pos.slashing_evidence b) (Pos.rest b).

(** Signatures of the keypair verify under its address. *)
Definition own_keypair (kp : KeyPair) : Prop :=
  kp_address kp <> zero32 /\ forall b, exists h s, kp_sign kp b = set_signed h s b /\
    (Pos.producer b = Some (kp_address kp) -> verify_signature_with_pubkey (kp_sign kp b) (kp_address kp) = true).

(** One authority leads each slot.  On top of a chain, with at least one active
    authority, there is an active authority of the state such that every block
    of that height that an engine with the same authority list accepts carries a
    signature valid for its address; and a block of the right parent that the
    engine holding its key prepares is accepted. *)
Lemma poa_one_leader e b chain prev st :
  last chain = Some prev -> Pos.index b <> 0 -> Pos.previous_hash b = Pos.hash prev -> active_authorities e st <> [] ->
  exists leader, leader ∈ active_authorities e st /\
    (forall e', authorities e' = authorities e -> forall b', Pos.index b' = Pos.index b ->
       validate_block e' b' chain st = Ok tt -> verify_signature_with_pubkey b' (Ledger.v_address leader) = true) /\
    (forall kp, keypair e = Some kp -> kp_address kp = Ledger.v_address leader -> own_keypair kp ->
       exists b', prepare_block e b st = Ok b' /\ validate_block e b' chain st = Ok tt).
Proof.
  intros Hlast Hi Hp Hne.
  destruct (proposer_exists (Pos.index b) (active_authorities e st) (leader_entropy (Pos.hash prev)) Hne) as (v & Ev & Hv).
  exists v. split; [done|]. split.
  - intros e' Ea b' Ei E. unfold validate_block in E. rewrite Ei, (proj2 (Z.eqb_neq _ _) Hi), Hlast in E. inv_ok E.
    replace (active_authorities e' st) with (active_authorities e st) in E2 by (unfold active_authorities; by rewrite Ea).
    rewrite Ev in E2. injection E2 as <-. done.
  - intros kp Hk Ha [Hz Hs]. unfold prepare_block, prepare_common. rewrite Hp, Ev. cbn. rewrite <- Ha.
    rewrite (bool_decide_eq_false_2 _ Hz), Hk, (bool_decide_eq_true_2 (kp_address kp = kp_address kp)) by done. cbn.
    rewrite (bool_decide_eq_true_2 (kp_address kp = kp_address kp)) by done.
    destruct (Hs (Pos.set_producer (kp_address kp) b)) as (h & s & Es & Hver). specialize (Hver eq_refl).
    rewrite Es in *. cbn. eexists. split; [done|].
    unfold validate_block. rewrite Hlast. cbn. rewrite (proj2 (Z.eqb_neq _ _) Hi), (bool_decide_eq_true_2 _ Hp). cbn.
    rewrite (bool_decide_eq_false_2 _ Hne), Ev. cbn. by rewrite <- Ha, Hver.
Qed.

End engine.

(** ** A slot, evaluated *)

Module Demo.
#[local] Existing Instance LedgerFacts.map_registry.

#[local] Instance toy_blocks : Pos.BlockOps unit unit := {|
  Pos.from_block b := tt; Pos.h_index h := 0; Pos.h_producer h := None; Pos.h_hash h := []; Pos.h_verify h s := false;
  Pos.calculate_hash b := Pos.hash b; Pos.verify_signature b := false;
|}.

Definition address (i : Z) : Address := replicate 32 i.
Definition validator (i : Z) : Ledger.Validator := Ledger.validator_new (address i) 1000.
Definition state : Ledger.AccountState :=
  Ledger.with_validators (list_to_map (map (fun i => (address i, validator i)) [1; 2; 3])) LedgerFacts.demo_ledger.
Definition verify (b : Pos.Block unit unit) (a : Address) : bool := bool_decide (Pos.signature b = Some a).
Definition key (i : Z) : KeyPair (Header := unit) (Rest := unit) := mkKeyPair (address i) (fun b => set_signed [1] (address i) b).

Definition parent : Pos.Block unit unit := Pos.mkBlock _ _ 4 0 [] (ascii_bytes "ab") 1 0 0 None None [] [] [] None tt.
Definition draft : Pos.Block unit unit := Pos.mkBlock _ _ 5 0 (ascii_bytes "ab") [] 1 0 0 None None [] [] [] None tt.
(** The second byte of the hashed index decides. *)
Definition digest (b : bytes) : Hash32 := take 32 (drop 20 b).
Definition engine (i : Z) : PoAEngine (Header := unit) (Rest := unit) := mkPoA (Some (key i)) [address 1; address 3].

Lemma key_owned i : address i <> zero32 -> own_keypair verify (key i).
Proof.
  intros Hz. split; [done|]. intros b. exists [1], (address i). split; [done|]. intros _. by apply bool_decide_eq_true_2.
Qed.
Lemma demo_index : Pos.index draft <> 0.
Proof. discriminate. Qed.
Lemma demo_authorities : active_authorities (engine 3) state <> [].
Proof. vm_compute. discriminate. Qed.

Example slot_leader : expected_proposer_with_entropy digest 5 (active_authorities (engine 3) state)
  (leader_entropy (Pos.hash parent)) = Some (validator 3).
Proof. vm_compute. reflexivity. Qed.

Lemma poa_one_leader_witness :
  exists leader, leader ∈ active_authorities (engine 3) state /\
    (forall e', authorities e' = authorities (engine 3) -> forall b', Pos.index b' = 5 ->
       validate_block digest verify e' b' [parent] state = Ok tt -> verify b' (Ledger.v_address leader) = true) /\
    (forall kp, Some (key 3) = Some kp -> kp_address kp = Ledger.v_address leader -> own_keypair verify kp ->
       exists b', prepare_block digest (engine 3) draft state = Ok b' /\ validate_block digest verify (engine 3) b' [parent] state = Ok tt).
Proof.
  exact (poa_one_leader digest verify (engine 3) draft [parent] parent state eq_refl demo_index eq_refl demo_authorities).
Defined.

End Demo.
End Poa.
