(* ===== verification/Erasure.v ===== *)
(** * The Reed-Solomon coder

    src/storage/erasure.rs: matrices over GF(2^8) and their Gauss-Jordan
    inverse, the systematic Cauchy generator, parity, reconstruction from
    whatever shards survive, and the object level (padding, manifest,
    integrity check, retries).  A matrix is the flat vector of the source and
    its loops are folds over the same index ranges. *)

From Stdlib Require Import ZArith Lia.
From Stdlib Require Import Strings.Byte.
From stdpp Require Import base tactics strings numbers pretty gmap list.
From S2P Require Import Prelude Hashing Gf256 Manifest.
Import Hashing Gf256 Manifest.
Open Scope Z_scope.

Module Erasure.

Definition MAX_TOTAL_SHARDS : Z := 255.

(** ** Matrices *)

Record GfMatrix : Type := mkMatrix { rows : nat; cols : nat; cells : list Byte.byte }.

Definition zero (r c : nat) : GfMatrix := mkMatrix r c (replicate (r * c) x00).

Definition get (m : GfMatrix) (r c : nat) : Byte.byte := cells m !!! (r * cols m + c)%nat.
Definition set (m : GfMatrix) (r c : nat) (v : Byte.byte) : GfMatrix :=
  mkMatrix (rows m) (cols m) (<[(r * cols m + c)%nat := v]> (cells m)).

Definition identity (n : nat) : GfMatrix :=
  foldl (fun m i => set m i i x01) (zero n n) (seq 0 n).

(** [for row in col..n { if work.get(row, col) != 0 { .. break } }] *)
Definition find_pivot (work : GfMatrix) (col n : nat) : option nat :=
  snd <$> list_find (fun row => get work row col <> x00) (seq col (n - col)).

(** The row loops of one column: both matrices, cell by cell. *)
Definition swap_cell (i j : nat) (m : GfMatrix) (c : nat) : GfMatrix :=
  let a := get m i c in
  let b := get m j c in
  set (set m i c b) j c a.
Definition swap_rows (n i j : nat) (wv : GfMatrix * GfMatrix) : GfMatrix * GfMatrix :=
  foldl (fun wv c => (swap_cell i j wv.1 c, swap_cell i j wv.2 c)) wv (seq 0 n).

Definition scale_cell (i : nat) (f : Byte.byte) (m : GfMatrix) (c : nat) : GfMatrix :=
  set m i c (gf_mul (get m i c) f).
Definition scale_row (n i : nat) (f : Byte.byte) (wv : GfMatrix * GfMatrix) : GfMatrix * GfMatrix :=
  foldl (fun wv c => (scale_cell i f wv.1 c, scale_cell i f wv.2 c)) wv (seq 0 n).

Definition elim_cell (col row : nat) (f : Byte.byte) (m : GfMatrix) (c : nat) : GfMatrix :=
  set m row c (gf_add (get m row c) (gf_mul f (get m col c))).
Definition elim_row (n col : nat) (wv : GfMatrix * GfMatrix) (row : nat) : GfMatrix * GfMatrix :=
  if decide (row = col) then wv
  else
    let f := get wv.1 row col in
    if is_zero f then wv
    else foldl (fun wv c => (elim_cell col row f wv.1 c, elim_cell col row f wv.2 c)) wv (seq 0 n).

(** One column of the elimination: pivot, swap, normalise, eliminate. *)
Definition invert_col (n : nat) (st : option (GfMatrix * GfMatrix)) (col : nat)
    : option (GfMatrix * GfMatrix) :=
  '(work, inv) ← st;
  pivot ← find_pivot work col n;
  let wv := if decide (pivot = col) then (work, inv) else swap_rows n col pivot (work, inv) in
  let p := get wv.1 col col in
  let wv := if Byte.eqb p x01 then wv else scale_row n col (gf_inv p) wv in
  Some (foldl (elim_row n col) wv (seq 0 n)).

Definition invert (m : GfMatrix) : option GfMatrix :=
  if negb (rows m =? cols m)%nat then None
  else snd <$> foldl (invert_col (rows m)) (Some (m, identity (rows m))) (seq 0 (rows m)).

Definition generator_matrix (k m : nat) : GfMatrix :=
  let g := foldl (fun g i => set g i i x01) (zero (k + m) k) (seq 0 k) in
  foldl (fun g i =>
    foldl (fun g j =>
      let x := of_Z (Z.of_nat (k + i)) in
      let y := of_Z (Z.of_nat j) in
      set g (k + i)%nat j (gf_inv (gf_add x y))) g (seq 0 k)) g (seq 0 m).

(** ** The coder *)

Inductive ErasureError : Type :=
| InvalidScheme (msg : string)
| ShardMismatch (msg : string)
| NotEnoughShards (have need : nat)
| IntegrityFailure (index : Z)
| SingularMatrix.

Record ReedSolomon : Type := mkRs { rs_k : nat; rs_m : nat; generator : GfMatrix }.

(** [ReedSolomon::new], for counts within [usize]. *)
Definition rs_new (data_shards parity_shards : nat) : result ReedSolomon ErasureError :=
  check? negb (data_shards =? 0)%nat else InvalidScheme "data shards must be at least 1" in
  let? total := ok_or (checked_add U64 (Z.of_nat data_shards) (Z.of_nat parity_shards))
                  (InvalidScheme "shard count overflow") in
  check? negb (MAX_TOTAL_SHARDS <? total) else
    InvalidScheme (pretty total +:+ " total shards exceeds the " +:+ pretty MAX_TOTAL_SHARDS +:+
                   " that GF(2^8) admits") in
  Ok (mkRs data_shards parity_shards (generator_matrix data_shards parity_shards)).

Definition for_scheme (e : ErasureScheme) : result ReedSolomon ErasureError :=
  let? _ := map_err InvalidScheme (validate_scheme e) in
  rs_new (Z.to_nat (k e)) (Z.to_nat (parity_count e)).

Definition total_shards (rs : ReedSolomon) : nat := rs_k rs + rs_m rs.

Abbreviation Shard := (list Byte.byte).

(** [for (o, s) in out.iter_mut().zip(src) { *o ^= gf_mul(coeff, *s); }] *)
Fixpoint mul_into (coeff : Byte.byte) (out src : Shard) : Shard :=
  match out, src with
  | o :: out, s :: src => gf_add o (gf_mul coeff s) :: mul_into coeff out src
  | out, _ => out
  end.

(** [if coeff == 0 { continue; }] in front of it. *)
Definition accumulate (coeff : Byte.byte) (out src : Shard) : Shard :=
  if is_zero coeff then out else mul_into coeff out src.

Definition parity_row (rs : ReedSolomon) (data : list Shard) (len i : nat) : Shard :=
  foldl (fun out p => accumulate (get (generator rs) (rs_k rs + i) p.1) out p.2)
    (replicate len x00) (imap pair data).

Definition encode_parity (rs : ReedSolomon) (data : list Shard)
    : result (list Shard) ErasureError :=
  check? (length data =? rs_k rs)%nat else
    ShardMismatch ("expected " +:+ pretty (rs_k rs) +:+ " data shards, got " +:+
                   pretty (length data)) in
  if (rs_m rs =? 0)%nat then Ok []
  else
    let len := length (data !!! 0%nat) in
    check? negb (len =? 0)%nat else ShardMismatch "data shards must be non-empty" in
    match list_find (fun s => length s <> len) data with
    | Some (bad, s) =>
        Err (ShardMismatch ("shard " +:+ pretty bad +:+ " is " +:+ pretty (length s) +:+
               " bytes but shard 0 is " +:+ pretty len +:+
               "; Reed-Solomon needs equal-length shards"))
    | None => Ok (map (parity_row rs data len) (seq 0 (rs_m rs)))
    end.

Definition parity_coefficient (rs : ReedSolomon) (parity_index data_index : nat)
    : option Byte.byte :=
  if (rs_m rs <=? parity_index)%nat || (rs_k rs <=? data_index)%nat then None
  else Some (get (generator rs) (rs_k rs + parity_index) data_index).

Definition column_is_correctly_encoded (rs : ReedSolomon) (parity_index : nat)
    (data_column : list Byte.byte) (parity_byte : Byte.byte) : bool :=
  if negb (length data_column =? rs_k rs)%nat || (rs_m rs <=? parity_index)%nat then false
  else
    Byte.eqb
      (foldl (fun acc p => gf_add acc (gf_mul (get (generator rs) (rs_k rs + parity_index) p.1) p.2))
         x00 (imap pair data_column))
      parity_byte.

(** The indices of the shards that survived. *)
Definition live_indices (present : list (option Shard)) : list nat :=
  omap (fun p => (fun _ => p.1) <$> p.2) (imap pair present).

Definition decode_matrix (rs : ReedSolomon) (chosen : list nat) : GfMatrix :=
  foldl (fun sub p =>
    foldl (fun sub c => set sub p.1 c (get (generator rs) p.2 c)) sub (seq 0 (rs_k rs)))
    (zero (rs_k rs) (rs_k rs)) (imap pair chosen).

Definition vanished (row : nat) : ErasureError :=
  ShardMismatch ("survivor " +:+ pretty row +:+ " vanished mid-reconstruction").

(** One recovered data shard. *)
Definition decode_row (inv : GfMatrix) (present : list (option Shard)) (chosen : list nat)
    (len i : nat) : result Shard ErasureError :=
  foldl (fun dst p =>
    let? dst := dst in
    let coeff := get inv i p.1 in
    if is_zero coeff then Ok dst
    else match present !!! p.2 with
         | Some src => Ok (mul_into coeff dst src)
         | None => Err (vanished p.2)
         end) (Ok (replicate len x00)) (imap pair chosen).

Fixpoint collect {A E} (l : list (result A E)) : result (list A) E :=
  match l with
  | [] => Ok []
  | r :: l => let? a := r in let? l := collect l in Ok (a :: l)
  end.

Definition shard_len (present : list (option Shard)) (i : nat) : nat :=
  default 0%nat (length <$> (present !!! i)).

(** The data shards: read off when they all survived, decoded otherwise. *)
Definition recover_data (rs : ReedSolomon) (present : list (option Shard)) (live : list nat)
    (len : nat) : result (list Shard) ErasureError :=
  if forallb (fun i => bool_decide (is_Some (present !!! i))) (seq 0 (rs_k rs)) then
    Ok (map (fun i => default [] (present !!! i)) (seq 0 (rs_k rs)))
  else
    let chosen := take (rs_k rs) live in
    let? inv := ok_or (invert (decode_matrix rs chosen)) SingularMatrix in
    collect (map (decode_row inv present chosen len) (seq 0 (rs_k rs))).

Definition reconstruct (rs : ReedSolomon) (present : list (option Shard))
    : result (list Shard) ErasureError :=
  check? (length present =? total_shards rs)%nat else
    ShardMismatch ("expected " +:+ pretty (total_shards rs) +:+ " shard slots, got " +:+
                   pretty (length present)) in
  let live := live_indices present in
  check? negb (length live <? rs_k rs)%nat else NotEnoughShards (length live) (rs_k rs) in
  let len := shard_len present (live !!! 0%nat) in
  check? negb (len =? 0)%nat else ShardMismatch "surviving shards must be non-empty" in
  match list_find (fun i => shard_len present i <> len) live with
  | Some (_, i) =>
      Err (ShardMismatch ("shard " +:+ pretty i +:+ " is " +:+ pretty (shard_len present i) +:+
             " bytes but the first survivor is " +:+ pretty len))
  | None =>
      let? data := recover_data rs present live len in
      let? parity := encode_parity rs data in
      Ok (data ++ parity)
  end.

(** ** Objects *)

Record EncodedObject : Type := mkObject {
  o_shards : list Shard;
  o_scheme : ErasureScheme;
  o_total : Z;
}.

Definition shard_kind (e : ErasureScheme) (i : nat) : ShardKind :=
  if (i <? Z.to_nat (k e))%nat then Data else Parity.

Definition kinds (o : EncodedObject) : list ShardKind :=
  map (shard_kind (o_scheme o)) (seq 0 (length (o_shards o))).

(** The bytes of a shard as the hash reads them. *)
Definition shard_numbers (s : Shard) : bytes := map to_Z s.

Section objects.
Context `{H : FieldHash}.

Definition to_manifest (o : EncodedObject) : result ContentManifest string :=
  let refs := imap (fun i p => let s := shard_from_bytes (Z.of_nat i mod U32) (shard_numbers p.1) in
                               mkShard (index s) (shard_id s) (size s) p.2)
                (zip (o_shards o) (kinds o)) in
  let? m := from_shards refs in
  let? m := with_erasure m (o_scheme o) in
  with_content_size m (o_total o).

(** Data stripe [i], padded with zeros. *)
Definition stripe_shard (data : Shard) (stripe i : nat) : Shard :=
  let start := Nat.min (i * stripe) (length data) in
  let fin := Nat.min (start + stripe) (length data) in
  take (fin - start) (drop start data) ++ replicate (stripe - (fin - start)) x00.

Definition encode_object (data : Shard) (e : ErasureScheme) : result EncodedObject ErasureError :=
  let? _ := map_err InvalidScheme (validate_scheme e) in
  check? negb (bool_decide (data = [])) else ShardMismatch "cannot encode an empty object" in
  let? rs := for_scheme e in
  let stripe := Z.to_nat (div_ceil (zlen data) (Z.of_nat (rs_k rs))) in
  let shards := map (stripe_shard data stripe) (seq 0 (rs_k rs)) in
  let? parity := encode_parity rs shards in
  Ok (mkObject (shards ++ parity) e (zlen data)).

(** [verify_all]: every shard against the manifest's identifiers. *)
Fixpoint verify_all (m : ContentManifest) (all : list Shard) (i : Z) : result unit ErasureError :=
  match all with
  | [] => Ok tt
  | bs :: all =>
      let idx := i mod U32 in
      match list_find (fun s => index s = idx) (shards m) with
      | None => Err (ShardMismatch ("manifest has no shard with index " +:+ pretty idx))
      | Some (_, r) =>
          check? bool_decide (shard_id r = content_id_of (shard_numbers bs)) else
            IntegrityFailure idx in
          verify_all m all (i + 1)
      end
  end.

Definition attempt (m : ContentManifest) (rs : ReedSolomon) (present : list (option Shard))
    : result Shard ErasureError :=
  let? all := reconstruct rs present in
  let? _ := verify_all m all 0 in
  Ok (take (Z.to_nat (content_size m)) (concat (take (rs_k rs) all))).

(** [for &drop in &live { .. }]: the first subset that verifies. *)
Fixpoint retry (m : ContentManifest) (rs : ReedSolomon) (present : list (option Shard))
    (live : list nat) : option Shard :=
  match live with
  | [] => None
  | d :: live =>
      match attempt m rs (<[d := None]> present) with
      | Ok out => Some out
      | Err _ => retry m rs present live
      end
  end.

Definition reconstruct_object (m : ContentManifest) (present : list (option Shard))
    : result Shard ErasureError :=
  let? rs := for_scheme (erasure m) in
  check? (length (shards m) =? total_shards rs)%nat else
    ShardMismatch ("manifest has " +:+ pretty (length (shards m)) +:+
                   " shards but the scheme codes " +:+ pretty (total_shards rs)) in
  let live := live_indices present in
  match attempt m rs present with
  | Ok out => Ok out
  | Err e =>
      if (rs_k rs <? length live)%nat then
        match retry m rs present live with
        | Some out => Ok out
        | None => attempt m rs present
        end
      else Err e
  end.

End objects.
End Erasure.
