(* ===== verification/ErasureFacts.v ===== *)
(** * Any [k] shards give the object back

    Linear algebra over GF(2^8) for the loops of [Erasure]: the Gauss-Jordan
    inverse is found exactly for matrices without kernel and is a left inverse;
    the rows of the systematic Cauchy generator have no kernel whatever [k] of
    them are taken; hence reconstruction from any [k] survivors returns the
    code word, and from the object level the object. *)

From Stdlib Require Import ZArith Lia.
From Stdlib Require Import Strings.Byte.
From stdpp Require Import base tactics strings numbers pretty gmap list.
From S2P Require Import Prelude Hashing Gf256 Manifest Erasure.
Import Hashing Gf256 Manifest Erasure.
Open Scope Z_scope.

Module ErasureFacts.

Add Field gf256 : field_laws.
#[local] Opaque gf_mul gf_add gf_inv.

Infix "⊕" := gf_add (at level 50, left associativity).
Infix "⊗" := gf_mul (at level 40, left associativity).

(** ** Sums *)

Definition gsum (l : list nat) (f : nat -> Byte.byte) : Byte.byte :=
  foldr (fun i acc => f i ⊕ acc) x00 l.

Lemma gsum_ext l f g : (forall i, i ∈ l -> f i = g i) -> gsum l f = gsum l g.
Proof.
  induction l as [|i l IH]; intros H; [done|]. simpl. rewrite (H i) by left.
  f_equal. apply IH. intros j Hj. apply H. by right.
Qed.

Lemma gsum_add l f g : gsum l (fun i => f i ⊕ g i) = gsum l f ⊕ gsum l g.
Proof. induction l as [|i l IH]; simpl; [ring|]. rewrite IH. ring. Qed.

Lemma gsum_mul_l l a f : gsum l (fun i => a ⊗ f i) = a ⊗ gsum l f.
Proof. induction l as [|i l IH]; simpl; [ring|]. rewrite IH. ring. Qed.

Lemma gsum_mul_r l a f : gsum l (fun i => f i ⊗ a) = gsum l f ⊗ a.
Proof. induction l as [|i l IH]; simpl; [ring|]. rewrite IH. ring. Qed.

Lemma gsum_0 l f : (forall i, i ∈ l -> f i = x00) -> gsum l f = x00.
Proof.
  induction l as [|i l IH]; intros H; [done|]. simpl. rewrite (H i) by left.
  rewrite gf_add_0_l. apply IH. intros j Hj. apply H. by right.
Qed.

Lemma gsum_app l1 l2 f : gsum (l1 ++ l2) f = gsum l1 f ⊕ gsum l2 f.
Proof. induction l1 as [|i l IH]; simpl; [ring|]. rewrite IH. ring. Qed.

Lemma gsum_perm l1 l2 f : l1 ≡ₚ l2 -> gsum l1 f = gsum l2 f.
Proof. induction 1; simpl; [done|congruence|ring|congruence]. Qed.

Lemma gsum_swap l1 l2 f :
  gsum l1 (fun i => gsum l2 (fun j => f i j)) = gsum l2 (fun j => gsum l1 (fun i => f i j)).
Proof.
  induction l1 as [|i l1 IH]; simpl; [symmetry; by apply gsum_0|].
  rewrite IH, <- gsum_add. done.
Qed.

(** The one term that counts. *)
Lemma gsum_single l f i :
  NoDup l -> i ∈ l -> (forall j, j ∈ l -> j <> i -> f j = x00) -> gsum l f = f i.
Proof.
  induction 1 as [|x l Hx Hl IH]; intros Hi Hz; [by apply not_elem_of_nil in Hi|].
  simpl. apply elem_of_cons in Hi as [->|Hi].
  - rewrite gsum_0; [ring|]. intros j Hj. apply Hz; [by right|]. by intros ->.
  - rewrite (Hz x), IH; [ring|done| |left|by intros ->].
    intros j Hj. apply Hz. by right.
Qed.

(** Terms outside [P] vanish. *)
Lemma gsum_filter (P : nat -> Prop) `{!forall i, Decision (P i)} l f :
  (forall i, i ∈ l -> ~ P i -> f i = x00) -> gsum l f = gsum (filter P l) f.
Proof.
  induction l as [|i l IH]; intros Hz; [done|]. rewrite filter_cons. simpl.
  rewrite IH by (intros j Hj; apply Hz; by right).
  destruct (decide (P i)); [done|]. rewrite (Hz i) by (done || left). ring.
Qed.

(** ** Matrices as functions *)

Definition shape (r c : nat) (m : GfMatrix) : Prop :=
  rows m = r /\ cols m = c /\ length (cells m) = (r * c)%nat.

Lemma shape_zero r c : shape r c (zero r c).
Proof. split_and!; [done|done|]. apply length_replicate. Qed.

Lemma shape_set r c m i j v : shape r c m -> shape r c (set m i j v).
Proof. intros (? & ? & ?). split_and!; [done|done|]. simpl. by rewrite length_insert. Qed.

Lemma cell_inj c i j i' j' :
  (j < c)%nat -> (j' < c)%nat -> (i * c + j = i' * c + j')%nat -> i = i' /\ j = j'.
Proof. intros. assert (i = i') by nia. split; [done|]. subst. lia. Qed.

Lemma get_set r c m i j v i' j' :
  shape r c m -> (i < r)%nat -> (j < c)%nat -> (i' < r)%nat -> (j' < c)%nat ->
  get (set m i j v) i' j' = if decide (i' = i /\ j' = j) then v else get m i' j'.
Proof.
  intros (Hr & Hc & Hl) ????. unfold get, set; simpl. rewrite Hc.
  destruct (decide _) as [[-> ->]|Hne].
  - apply list_lookup_total_insert_eq. rewrite Hl. nia.
  - apply list_lookup_total_insert_ne. intros E. apply Hne.
    by apply (cell_inj c) in E as [-> ->].
Qed.

Lemma get_zero r c i j : (i < r)%nat -> (j < c)%nat -> get (zero r c) i j = x00.
Proof.
  intros. unfold get, zero; simpl. apply list_lookup_total_correct, lookup_replicate_2. nia.
Qed.

(** ** Loops over the columns

    [local step]: a step at column [c] reads and writes that column only. *)

Record local (r n : nat) (step : GfMatrix -> nat -> GfMatrix) : Prop := {
  local_shape : forall m c, shape r n m -> (c < n)%nat -> shape r n (step m c);
  local_frame : forall m c i j, shape r n m -> (c < n)%nat -> (i < r)%nat -> (j < n)%nat -> j <> c ->
    get (step m c) i j = get m i j;
  local_dep : forall m m' c i, shape r n m -> shape r n m' -> (c < n)%nat -> (i < r)%nat ->
    (forall i, (i < r)%nat -> get m i c = get m' i c) -> get (step m c) i c = get (step m' c) i c;
}.

Lemma for_cols r n step m :
  local r n step -> shape r n m ->
  let m' := foldl step m (seq 0 n) in
  shape r n m' /\ forall i j, (i < r)%nat -> (j < n)%nat -> get m' i j = get (step m j) i j.
Proof.
  intros Hs Hm. assert (G : forall p, (p <= n)%nat ->
    shape r n (foldl step m (seq 0 p)) /\
    forall i j, (i < r)%nat -> (j < n)%nat ->
      get (foldl step m (seq 0 p)) i j = if decide (j < p)%nat then get (step m j) i j else get m i j).
  { induction p as [|p IH]; intros Hp; [done|]. destruct IH as [Hsh IH]; [lia|].
    rewrite seq_S, foldl_app. simpl. split; [apply Hs; [done|lia]|]. intros i j Hi Hj.
    destruct (decide (j = p)) as [->|Hne].
    - rewrite decide_True by lia. apply Hs; auto; [lia..|]. intros i' Hi'.
      rewrite IH by lia. by rewrite decide_False by lia.
    - rewrite (local_frame _ _ _ Hs) by (done || lia). rewrite IH by lia.
      destruct (decide (j < p)%nat), (decide (j < S p)%nat); done || lia. }
  destruct (G n) as [Hsh Hg]; [lia|]. split; [done|]. intros i j Hi Hj.
  rewrite Hg by done. by rewrite decide_True.
Qed.

(** A loop that runs the same body over two matrices. *)
Lemma foldl_pair {A B} (f : A -> B -> A) l (x y : A) :
  foldl (fun wv c => (f wv.1 c, f wv.2 c)) (x, y) l = (foldl f x l, foldl f y l).
Proof. revert x y. induction l as [|c l IH]; intros x y; [done|]. simpl. apply IH. Qed.

Lemma swap_local r n i j : (i < r)%nat -> (j < r)%nat -> local r n (swap_cell i j).
Proof.
  intros Hi Hj. split; unfold swap_cell.
  - intros m c Hm Hc. by do 2 apply shape_set.
  - intros m c i' j' Hm Hc Hi' Hj' Hne. rewrite !(get_set r n) by (done || by apply shape_set).
    rewrite !decide_False by naive_solver. done.
  - intros m m' c i' Hm Hm' Hc Hi' He. rewrite !(get_set r n) by (done || by apply shape_set).
    rewrite !He by done. done.
Qed.

Lemma scale_local r n i f : (i < r)%nat -> local r n (scale_cell i f).
Proof.
  intros Hi. split; unfold scale_cell.
  - intros m c Hm Hc. by apply shape_set.
  - intros m c i' j' Hm Hc Hi' Hj' Hne. rewrite (get_set r n) by done.
    rewrite decide_False by naive_solver. done.
  - intros m m' c i' Hm Hm' Hc Hi' He. rewrite !(get_set r n) by done. by rewrite !He.
Qed.

Lemma elim_local r n col row f : (col < r)%nat -> (row < r)%nat -> local r n (elim_cell col row f).
Proof.
  intros Hc Hr. split; unfold elim_cell.
  - intros m c Hm Hc'. by apply shape_set.
  - intros m c i' j' Hm Hc' Hi' Hj' Hne. rewrite (get_set r n) by done.
    rewrite decide_False by naive_solver. done.
  - intros m m' c i' Hm Hm' Hc' Hi' He. rewrite !(get_set r n) by done. by rewrite !He.
Qed.

(** ** Gauss-Jordan *)

Definition delta (i j : nat) : Byte.byte := if decide (i = j) then x01 else x00.

Lemma delta_same i : delta i i = x01.
Proof. unfold delta. by rewrite decide_True. Qed.
Lemma delta_diff i j : i <> j -> delta i j = x00.
Proof. intros. unfold delta. by rewrite decide_False. Qed.

Lemma gsum_delta n i f : (i < n)%nat -> gsum (seq 0 n) (fun r => delta i r ⊗ f r) = f i.
Proof.
  intros Hi. rewrite (gsum_single _ _ i).
  - rewrite delta_same. ring.
  - apply NoDup_seq.
  - apply elem_of_seq. lia.
  - intros j _ Hj. rewrite delta_diff by done. ring.
Qed.

Lemma diagonal r c p m :
  shape r c m -> (p <= r)%nat -> (p <= c)%nat ->
  let m' := foldl (fun m i => set m i i x01) m (seq 0 p) in
  shape r c m' /\ forall i j, (i < r)%nat -> (j < c)%nat ->
    get m' i j = if decide (i = j /\ (i < p)%nat) then x01 else get m i j.
Proof.
  intros Hm. induction p as [|p IH]; intros Hr Hc.
  { split; [done|]. intros i j Hi Hj. rewrite decide_False by lia. done. }
  destruct IH as [Hs IH]; [lia..|]. rewrite seq_S, foldl_app. simpl.
  split; [by apply shape_set|]. intros i j Hi Hj. rewrite (get_set r c) by (done || lia).
  rewrite IH by done. repeat case_decide; done || (exfalso; naive_solver lia).
Qed.

Lemma identity_spec n :
  shape n n (identity n) /\ forall i j, (i < n)%nat -> (j < n)%nat -> get (identity n) i j = delta i j.
Proof.
  destruct (diagonal n n n (zero n n) (shape_zero n n)) as [Hs Hg]; [lia..|].
  split; [exact Hs|]. intros i j Hi Hj. unfold identity. rewrite Hg, get_zero by done.
  unfold delta. repeat case_decide; done || (exfalso; naive_solver lia).
Qed.

Section gauss.
Variables (n : nat) (M : GfMatrix).

Definition apply (m : GfMatrix) (x : nat -> Byte.byte) (i : nat) : Byte.byte :=
  gsum (seq 0 n) (fun j => get m i j ⊗ x j).

Definition no_kernel : Prop :=
  forall x, (forall i, (i < n)%nat -> apply M x i = x00) -> forall j, (j < n)%nat -> x j = x00.

(** What holds between the columns of the elimination. *)
Record good (wv : GfMatrix * GfMatrix) : Prop := {
  good_w : shape n n wv.1;
  good_v : shape n n wv.2;
  good_prod : forall i j, (i < n)%nat -> (j < n)%nat ->
    get wv.1 i j = gsum (seq 0 n) (fun r => get wv.2 i r ⊗ get M r j);
  good_ker : forall x, (forall i, (i < n)%nat -> apply wv.1 x i = x00) ->
    forall i, (i < n)%nat -> apply M x i = x00;
}.

Definition unit_upto (w : GfMatrix) (p : nat) : Prop :=
  forall i c, (i < n)%nat -> (c < p)%nat -> get w i c = delta i c.

(** A row operation: every row becomes a multiple of a row plus a multiple of
    row [col], and no information is lost. *)
Record rowop (a : nat -> Byte.byte) (σ : nat -> nat) (f : nat -> Byte.byte) (col : nat)
    (wv wv' : GfMatrix * GfMatrix) : Prop := {
  op_w : shape n n wv'.1;
  op_v : shape n n wv'.2;
  op_σ : forall i, (i < n)%nat -> (σ i < n)%nat;
  op_col : (col < n)%nat;
  op_get_w : forall i j, (i < n)%nat -> (j < n)%nat ->
    get wv'.1 i j = a i ⊗ get wv.1 (σ i) j ⊕ f i ⊗ get wv.1 col j;
  op_get_v : forall i j, (i < n)%nat -> (j < n)%nat ->
    get wv'.2 i j = a i ⊗ get wv.2 (σ i) j ⊕ f i ⊗ get wv.2 col j;
  op_inj : forall y, (forall i, (i < n)%nat -> a i ⊗ y (σ i) ⊕ f i ⊗ y col = x00) ->
    forall i, (i < n)%nat -> y i = x00;
}.

Lemma rowop_good a σ f col wv wv' : rowop a σ f col wv wv' -> good wv -> good wv'.
Proof.
  intros [] [Hw Hv Hp Hk]. split; [done|done| |].
  - intros i j Hi Hj. rewrite op_get_w0, !Hp by auto. rewrite <- !gsum_mul_l, <- gsum_add.
    apply gsum_ext. intros r Hr%elem_of_seq. rewrite op_get_v0 by (done || lia). ring.
  - intros x Hx. apply Hk. apply op_inj0. intros i Hi. rewrite <- (Hx i Hi). unfold apply.
    rewrite <- !gsum_mul_l, <- gsum_add. apply gsum_ext. intros r Hr%elem_of_seq.
    rewrite op_get_w0 by (done || lia). ring.
Qed.

Definition swap_index (i j r : nat) : nat :=
  if decide (r = i) then j else if decide (r = j) then i else r.

Lemma swap_op i j wv :
  good wv -> (i < n)%nat -> (j < n)%nat -> i <> j ->
  rowop (fun _ => x01) (swap_index i j) (fun _ => x00) i wv (swap_rows n i j wv).
Proof.
  intros [Hw Hv _ _] Hi Hj Hij. destruct wv as [w v]. unfold swap_rows. rewrite foldl_pair. simpl in *.
  destruct (for_cols n n _ w (swap_local n n i j Hi Hj) Hw) as [Sw Gw].
  destruct (for_cols n n _ v (swap_local n n i j Hi Hj) Hv) as [Sv Gv].
  assert (Hcell : forall m r c, shape n n m -> (r < n)%nat -> (c < n)%nat ->
    get (swap_cell i j m c) r c = get m (swap_index i j r) c).
  { intros m r c Hm Hr Hc. unfold swap_cell, swap_index.
    rewrite !(get_set n n) by (done || by apply shape_set).
    repeat case_decide; subst; naive_solver. }
  split; simpl; auto.
  - intros r Hr. unfold swap_index. repeat case_decide; lia.
  - intros r c Hr Hc. rewrite Gw, Hcell by done. ring.
  - intros r c Hr Hc. rewrite Gv, Hcell by done. ring.
  - intros y Hy r Hr. specialize (Hy (swap_index i j r)).
    assert (E : swap_index i j (swap_index i j r) = r).
    { unfold swap_index. repeat case_decide; subst; congruence. }
    rewrite E in Hy. rewrite <- Hy; [ring|]. unfold swap_index. repeat case_decide; lia.
Qed.

Lemma scale_op i s wv :
  good wv -> (i < n)%nat -> s <> x00 ->
  rowop (fun r => if decide (r = i) then s else x01) (fun r => r) (fun _ => x00) i wv (scale_row n i s wv).
Proof.
  intros [Hw Hv _ _] Hi Hs. destruct wv as [w v]. unfold scale_row. rewrite foldl_pair. simpl in *.
  destruct (for_cols n n _ w (scale_local n n i s Hi) Hw) as [Sw Gw].
  destruct (for_cols n n _ v (scale_local n n i s Hi) Hv) as [Sv Gv].
  assert (Hcell : forall m r c, shape n n m -> (r < n)%nat -> (c < n)%nat ->
    get (scale_cell i s m c) r c = (if decide (r = i) then s else x01) ⊗ get m r c).
  { intros m r c Hm Hr Hc. unfold scale_cell. rewrite (get_set n n) by done.
    repeat case_decide; destruct_and?; subst; ring || (exfalso; naive_solver). }
  split; simpl; auto.
  - intros r c Hr Hc. rewrite Gw, Hcell by done. ring.
  - intros r c Hr Hc. rewrite Gv, Hcell by done. ring.
  - intros y Hy r Hr. specialize (Hy r Hr).
    assert (E : (if decide (r = i) then s else x01) ⊗ y r = x00) by (rewrite <- Hy; ring).
    apply gf_mul_eq_0 in E as [E|E]; [|done]. case_decide; done.
Qed.

Lemma elim_op col row wv :
  good wv -> (col < n)%nat -> (row < n)%nat -> row <> col ->
  rowop (fun _ => x01) (fun r => r) (fun r => if decide (r = row) then get wv.1 row col else x00) col
    wv (elim_row n col wv row).
Proof.
  intros [Hw Hv _ _] Hc Hr Hne. destruct wv as [w v]. unfold elim_row. rewrite decide_False by done.
  simpl in *. set (f := get w row col). destruct (is_zero f) eqn:Ef.
  { apply is_zero_spec in Ef. rewrite Ef. split; simpl; auto.
    - intros i j Hi Hj. destruct (decide _); ring.
    - intros i j Hi Hj. destruct (decide _); ring.
    - intros y Hy i Hi. rewrite <- (Hy i Hi). destruct (decide _); ring. }
  rewrite foldl_pair.
  destruct (for_cols n n _ w (elim_local n n col row f Hc Hr) Hw) as [Sw Gw].
  destruct (for_cols n n _ v (elim_local n n col row f Hc Hr) Hv) as [Sv Gv].
  assert (Hcell : forall m r c, shape n n m -> (r < n)%nat -> (c < n)%nat ->
    get (elim_cell col row f m c) r c =
    x01 ⊗ get m r c ⊕ (if decide (r = row) then f else x00) ⊗ get m col c).
  { intros m r c Hm Hr' Hc'. unfold elim_cell. rewrite (get_set n n) by done.
    repeat case_decide; destruct_and?; subst; ring || (exfalso; naive_solver). }
  split; simpl; auto.
  - intros r c Hr' Hc'. by rewrite Gw, Hcell.
  - intros r c Hr' Hc'. by rewrite Gv, Hcell.
  - intros y Hy. assert (Hy0 : y col = x00).
    { rewrite <- (Hy col Hc), decide_False by congruence. ring. }
    intros i Hi. specialize (Hy i Hi). rewrite Hy0 in Hy. rewrite <- Hy. ring.
Qed.

(** The rows below [p] have lost column [col]. *)
Lemma elim_loop col wv p :
  good wv -> (col < n)%nat -> (p <= n)%nat ->
  unit_upto wv.1 col -> get wv.1 col col = x01 ->
  let wv' := foldl (elim_row n col) wv (seq 0 p) in
  good wv' /\ unit_upto wv'.1 col /\ get wv'.1 col col = x01 /\
  forall i, (i < p)%nat -> i <> col -> get wv'.1 i col = x00.
Proof.
  intros Hg Hc Hp Hu H1. induction p as [|p IH]; [simpl; split_and!; (done || lia)|].
  destruct IH as (Hg' & Hu' & H1' & Hz); [lia|]. rewrite seq_S, foldl_app. cbn [foldl Nat.add].
  set (wv' := foldl _ wv (seq 0 p)) in *.
  destruct (decide (p = col)) as [->|Hne].
  { unfold elim_row. rewrite decide_True by done. split_and!; auto. intros i Hi Hne. apply Hz; lia. }
  pose proof (elim_op col p wv' Hg' Hc ltac:(lia) Hne) as Hop.
  split; [by eapply rowop_good|]. pose proof (op_get_w _ _ _ _ _ _ Hop) as Hget. split_and!.
  - intros i c Hi Hc'. rewrite Hget, (Hu' i c), (Hu' col c), (delta_diff col c) by lia. ring.
  - rewrite Hget, decide_False, H1' by (done || congruence). ring.
  - intros i Hi Hic. rewrite Hget by lia. rewrite H1'. destruct (decide (i = p)) as [->|].
    + transitivity (get wv'.1 p col ⊕ get wv'.1 p col); [ring|apply gf_add_self].
    + rewrite Hz by lia. ring.
Qed.

Lemma find_pivot_Some w col p :
  find_pivot w col n = Some p -> (col <= p < n)%nat /\ get w p col <> x00.
Proof.
  unfold find_pivot. destruct (list_find _ _) as [[i r]|] eqn:E; [|done]. simpl. intros [= ->].
  apply list_find_Some in E as (Hl & Hz & _). apply lookup_seq in Hl. split; [lia|done].
Qed.

Lemma find_pivot_None w col :
  find_pivot w col n = None -> forall r, (col <= r < n)%nat -> get w r col = x00.
Proof.
  unfold find_pivot. destruct (list_find _ _) as [|] eqn:E; [done|]. intros _ r Hr.
  apply list_find_None in E. rewrite Forall_forall in E.
  specialize (E r ltac:(apply elem_of_seq; lia)). by apply dec_stable.
Qed.

(** A column without pivot is a combination of the ones before it. *)
Lemma pivot_exists wv col :
  no_kernel -> good wv -> unit_upto wv.1 col -> (col < n)%nat -> is_Some (find_pivot wv.1 col n).
Proof.
  intros Hk Hg Hu Hc. destruct (find_pivot wv.1 col n) as [p|] eqn:E; [eauto|exfalso].
  pose proof (find_pivot_None _ _ E) as Hz.
  set (x := fun j => if decide (j < col)%nat then get wv.1 j col else delta j col).
  assert (Hx : x col = x00).
  { apply Hk; [|done]. apply (good_ker _ Hg). intros i Hi. unfold apply.
    assert (Hsplit : forall j, j ∈ seq 0 n ->
      get wv.1 i j ⊗ x j = (if decide (j < col)%nat then delta i j ⊗ get wv.1 j col else x00)
                           ⊕ delta col j ⊗ get wv.1 i j).
    { intros j Hj%elem_of_seq. unfold x. destruct (decide (j < col)%nat) as [Hlt|Hge].
      - rewrite (Hu i j), (delta_diff col j) by lia. ring.
      - unfold delta. repeat case_decide; subst; ring || congruence. }
    rewrite (gsum_ext _ _ _ Hsplit), gsum_add, gsum_delta by done.
    destruct (decide (i < col)%nat) as [Hlt|Hge].
    - rewrite (gsum_single _ _ i); [|apply NoDup_seq|apply elem_of_seq; lia|].
      + rewrite decide_True, delta_same by done. rewrite <- (gf_add_self (get wv.1 i col)). ring.
      + intros j _ Hj. case_decide; [|done]. rewrite delta_diff by congruence. ring.
    - rewrite gsum_0; [rewrite Hz by lia; ring|]. intros j _. case_decide; [|done].
      rewrite delta_diff by lia. ring. }
  unfold x in Hx. rewrite decide_False, delta_same in Hx by lia. done.
Qed.

Lemma invert_col_good col wv :
  no_kernel -> good wv -> unit_upto wv.1 col -> (col < n)%nat ->
  exists wv', invert_col n (Some wv) col = Some wv' /\ good wv' /\ unit_upto wv'.1 (S col).
Proof.
  intros Hk Hg Hu Hc. destruct (pivot_exists wv col Hk Hg Hu Hc) as [p Ep].
  destruct (find_pivot_Some _ _ _ Ep) as [Hp Hnz].
  unfold invert_col. destruct wv as [w v]. cbn [mbind option_bind fst snd] in *. rewrite Ep. simpl.
  set (wv1 := if decide (p = col) then (w, v) else swap_rows n col p (w, v)).
  assert (H1 : good wv1 /\ unit_upto wv1.1 col /\ get wv1.1 col col <> x00).
  { unfold wv1. destruct (decide (p = col)) as [->|Hne]; [done|].
    pose proof (swap_op col p (w, v) Hg Hc ltac:(lia) ltac:(congruence)) as Hop.
    pose proof (op_get_w _ _ _ _ _ _ Hop) as Hget. cbn [fst] in Hget.
    split; [by eapply rowop_good|]. split.
    - intros i c Hi Hc'. rewrite Hget, (Hu col c), (Hu (swap_index col p i) c) by (lia || by apply Hop).
      unfold swap_index, delta. repeat case_decide; subst; lia || ring.
    - rewrite Hget by done. unfold swap_index. rewrite decide_True by done.
      intros E. apply Hnz. rewrite <- E. simpl. ring. }
  destruct H1 as (Hg1 & Hu1 & Hp1). set (q := get wv1.1 col col) in *.
  set (wv2 := if Byte.eqb q x01 then wv1 else scale_row n col (gf_inv q) wv1).
  assert (H2 : good wv2 /\ unit_upto wv2.1 col /\ get wv2.1 col col = x01).
  { unfold wv2. destruct (Byte.eqb q x01) eqn:Eq; [by apply byte_eqb_eq in Eq|].
    pose proof (scale_op col (gf_inv q) wv1 Hg1 Hc (gf_inv_nonzero q Hp1)) as Hop.
    pose proof (op_get_w _ _ _ _ _ _ Hop) as Hget. split; [by eapply rowop_good|]. split.
    - intros i c Hi Hc'. rewrite Hget by lia. rewrite !Hu1 by lia.
      unfold delta. repeat case_decide; subst; lia || ring.
    - rewrite Hget, decide_True by done. fold q. rewrite <- (gf_inv_l q Hp1). ring. }
  destruct H2 as (Hg2 & Hu2 & Hp2).
  destruct (elim_loop col wv2 n Hg2 Hc ltac:(lia) Hu2 Hp2) as (Hg3 & Hu3 & Hp3 & Hz3).
  eexists. split; [reflexivity|]. split; [exact Hg3|]. intros i c Hi Hcc.
  destruct (decide (c = col)) as [->|]; [|apply Hu3; lia].
  destruct (decide (i = col)) as [->|Hne]; [by rewrite Hp3, delta_same|].
  by rewrite Hz3, delta_diff.
Qed.

Lemma invert_spec :
  shape n n M -> no_kernel ->
  exists V, invert M = Some V /\ shape n n V /\
    forall i j, (i < n)%nat -> (j < n)%nat ->
      gsum (seq 0 n) (fun r => get V i r ⊗ get M r j) = delta i j.
Proof.
  intros (Hr & Hc & Hl) Hk. unfold invert. rewrite Hr, Hc, Nat.eqb_refl. cbn [negb].
  destruct (identity_spec n) as [Hs Hid].
  assert (Hinit : good (M, identity n)).
  { split; simpl; [done|done| |done]. intros i j Hi Hj.
    rewrite <- (gsum_delta n i (fun r => get M r j)) by done.
    apply gsum_ext. intros r Hr'%elem_of_seq. by rewrite Hid by lia. }
  assert (Hloop : forall p, (p <= n)%nat ->
    exists wv, foldl (invert_col n) (Some (M, identity n)) (seq 0 p) = Some wv /\ good wv /\ unit_upto wv.1 p).
  { induction p as [|p IH]; intros Hp.
    - exists (M, identity n). split_and!; [done|done|]. intros i c Hi Hc0. lia.
    - destruct IH as (wv & E & Hg & Hu); [lia|]. rewrite seq_S, foldl_app, E. cbn [foldl Nat.add].
      by apply invert_col_good. }
  destruct (Hloop n) as (wv & E & Hg & Hu); [done|]. rewrite E. simpl. exists wv.2.
  split_and!; [done|apply Hg|]. intros i j Hi Hj. by rewrite <- (good_prod _ Hg), Hu.
Qed.

End gauss.
(** ** Cauchy rows *)

Lemma gf_inv_r a : a <> x00 -> a ⊗ gf_inv a = x01.
Proof. intros. rewrite gf_mul_comm. by apply gf_inv_l. Qed.

Lemma gf_add_cancel a b c : a ⊕ b ⊕ (b ⊕ c) = a ⊕ c.
Proof.
  transitivity (a ⊕ c ⊕ (b ⊕ b)); [ring|]. rewrite gf_add_self. ring.
Qed.

(** The elimination step of the Cauchy argument, on one term. *)
Lemma cauchy_term c x x0 y y0 :
  x ⊕ y <> x00 -> x0 ⊕ y <> x00 ->
  (x ⊕ y0) ⊗ (c ⊗ gf_inv (x ⊕ y)) ⊕ (x0 ⊕ y0) ⊗ (c ⊗ gf_inv (x0 ⊕ y)) =
  (x ⊕ x0) ⊗ (c ⊗ (y ⊕ y0) ⊗ gf_inv (x0 ⊕ y) ⊗ gf_inv (x ⊕ y)).
Proof.
  intros Ha Hb. pose proof (gf_inv_r _ Ha) as Ea. pose proof (gf_inv_r _ Hb) as Eb.
  rewrite <- (gf_add_cancel x y y0), <- (gf_add_cancel x0 y y0), <- (gf_add_cancel x y x0),
    (gf_add_comm y x0).
  set (a := x ⊕ y) in *. set (b := x0 ⊕ y) in *. set (d := y ⊕ y0).
  set (ai := gf_inv a) in *. set (bi := gf_inv b) in *.
  transitivity (c ⊗ (a ⊗ ai) ⊕ c ⊗ (b ⊗ bi) ⊕ c ⊗ d ⊗ (ai ⊕ bi)); [ring|].
  transitivity (c ⊗ d ⊗ (bi ⊗ (a ⊗ ai) ⊕ ai ⊗ (b ⊗ bi))); [|ring].
  rewrite Ea, Eb, gf_add_self. ring.
Qed.

Lemma cauchy_no_kernel ys xs (c : Byte.byte -> Byte.byte) :
  NoDup xs -> NoDup ys -> length xs = length ys -> (forall x, x ∈ xs -> x ∉ ys) ->
  (forall x, x ∈ xs -> foldr (fun y acc => c y ⊗ gf_inv (x ⊕ y) ⊕ acc) x00 ys = x00) ->
  forall y, y ∈ ys -> c y = x00.
Proof.
  revert xs c. induction ys as [|y0 ys IH]; intros xs c Hxs Hys Hlen Hdisj Heq y Hy.
  { by apply not_elem_of_nil in Hy. }
  destruct xs as [|x0 xs]; [done|].
  apply NoDup_cons in Hxs as [Hx0 Hxs]. apply NoDup_cons in Hys as [Hy0 Hys].
  assert (Hne : forall x y, x ∈ x0 :: xs -> y ∈ y0 :: ys -> x ⊕ y <> x00).
  { intros x' y' Hx' Hy' E. apply gf_add_eq_0 in E as ->. by apply (Hdisj y'). }
  pose proof (Heq x0 ltac:(left)) as E0. simpl in E0.
  assert (Hrest : forall y, y ∈ ys -> c y ⊗ (y ⊕ y0) ⊗ gf_inv (x0 ⊕ y) = x00).
  { apply (IH xs (fun y => c y ⊗ (y ⊕ y0) ⊗ gf_inv (x0 ⊕ y))); auto.
    - intros x Hx Hx'. apply (Hdisj x); by right.
    - intros x Hx. pose proof (Heq x ltac:(by right)) as Ex. simpl in Ex.
      assert (Hxx : x ⊕ x0 <> x00) by (intros E; by apply gf_add_eq_0 in E as ->).
      set (S1 := foldr _ _ _) in Ex. set (S0 := foldr _ _ _) in E0. set (S2 := foldr _ _ _).
      assert (Hsum : (x ⊕ y0) ⊗ S1 ⊕ (x0 ⊕ y0) ⊗ S0 = (x ⊕ x0) ⊗ S2).
      { unfold S0, S1, S2. clear - Hne Hx. induction ys as [|y ys IHy]; simpl; [ring|].
        assert (Hy1 : x ⊕ y <> x00) by (apply Hne; [by right|right; left]).
        assert (Hy2 : x0 ⊕ y <> x00) by (apply Hne; [left|right; left]).
        assert (Hne' : forall x' y', x' ∈ x0 :: xs -> y' ∈ y0 :: ys -> x' ⊕ y' <> x00)
          by (intros x' y' Hx' Hy'; apply Hne; set_solver).
        rewrite (gf_mul_add_r (x ⊕ x0)), <- cauchy_term, <- (IHy Hne') by done. ring. }
      assert (E : (x ⊕ x0) ⊗ S2 = x00).
      { apply gf_add_eq_0 in Ex, E0. rewrite <- Hsum, <- Ex, <- E0.
        transitivity (c y0 ⊗ ((x ⊕ y0) ⊗ gf_inv (x ⊕ y0)) ⊕ c y0 ⊗ ((x0 ⊕ y0) ⊗ gf_inv (x0 ⊕ y0))); [ring|].
        rewrite !gf_inv_r by (apply Hne; set_solver). apply gf_add_self. }
      by apply gf_mul_eq_0 in E as [E|E]. }
  assert (Hall : forall y, y ∈ ys -> c y = x00).
  { intros y' Hy'. specialize (Hrest y' Hy').
    apply gf_mul_eq_0 in Hrest as [E|E].
    - apply gf_mul_eq_0 in E as [E|E]; [done|]. apply gf_add_eq_0 in E as ->. done.
    - exfalso. eapply gf_inv_nonzero; [|exact E]. apply Hne; set_solver. }
  apply elem_of_cons in Hy as [->|Hy]; [|by apply Hall].
  assert (E1 : c y0 ⊗ gf_inv (x0 ⊕ y0) = x00).
  { rewrite <- E0. transitivity (c y0 ⊗ gf_inv (x0 ⊕ y0) ⊕ x00); [ring|]. f_equal.
    clear - Hall. induction ys as [|y ys IHy]; [done|]. simpl.
    rewrite Hall by left. rewrite <- IHy by (intros; apply Hall; by right). ring. }
  apply gf_mul_eq_0 in E1 as [E1|E1]; [done|]. exfalso. eapply gf_inv_nonzero; [|exact E1].
  apply Hne; set_solver.
Qed.

(** ** Generator and decode matrix *)

Lemma fill_row r c m i (v : nat -> Byte.byte) :
  shape r c m -> (i < r)%nat ->
  let m' := foldl (fun m j => set m i j (v j)) m (seq 0 c) in
  shape r c m' /\ forall i' j, (i' < r)%nat -> (j < c)%nat ->
    get m' i' j = if decide (i' = i) then v j else get m i' j.
Proof.
  intros Hm Hi. assert (Hloc : local r c (fun m j => set m i j (v j))).
  { split.
    - intros. by apply shape_set.
    - intros m' j i' j' ?????. rewrite (get_set r c) by done. by rewrite decide_False by naive_solver.
    - intros m1 m2 j i' ? ? ? ? He. rewrite !(get_set r c) by done. by rewrite He. }
  destruct (for_cols r c _ m Hloc Hm) as [Hs Hg]. split; [done|]. intros i' j Hi' Hj.
  rewrite Hg, (get_set r c) by done. repeat case_decide; naive_solver.
Qed.

Lemma fill_rows {A} r c m (l : list A) (ρ : A -> nat) (v : A -> nat -> Byte.byte) :
  shape r c m -> Forall (fun p => (ρ p < r)%nat) l -> NoDup (ρ <$> l) ->
  let m' := foldl (fun m p => foldl (fun m j => set m (ρ p) j (v p j)) m (seq 0 c)) m l in
  shape r c m' /\
  (forall p j, p ∈ l -> (j < c)%nat -> get m' (ρ p) j = v p j) /\
  (forall i j, (i < r)%nat -> (j < c)%nat -> i ∉ ρ <$> l -> get m' i j = get m i j).
Proof.
  intros Hm Hl Hnd. revert m Hm. induction l as [|p l IH]; intros m Hm.
  { split_and!; [done| |done]. intros p j Hp. by apply not_elem_of_nil in Hp. }
  apply Forall_cons in Hl as [Hp Hl]. rewrite fmap_cons in Hnd. apply NoDup_cons in Hnd as [Hpn Hnd].
  destruct (fill_row r c m (ρ p) (v p) Hm Hp) as [Hs1 Hg1]. cbn [foldl].
  destruct (IH Hl Hnd _ Hs1) as (Hs & Hin & Hout). split_and!; [done| |].
  - intros q j Hq Hj. apply elem_of_cons in Hq as [->|Hq]; [|by apply Hin].
    rewrite Hout, Hg1 by done. by rewrite decide_True.
  - intros i j Hi Hj Hni. rewrite fmap_cons in Hni. apply not_elem_of_cons in Hni as [Hne Hni].
    rewrite Hout, Hg1 by done. by rewrite decide_False.
Qed.

Definition num (i : nat) : Byte.byte := of_Z (Z.of_nat i).

Definition gen_entry (k i j : nat) : Byte.byte :=
  if decide (i < k)%nat then delta i j else gf_inv (num i ⊕ num j).

Lemma generator_spec k m :
  shape (k + m) k (generator_matrix k m) /\
  forall i j, (i < k + m)%nat -> (j < k)%nat -> get (generator_matrix k m) i j = gen_entry k i j.
Proof.
  destruct (diagonal (k + m) k k (zero (k + m) k) (shape_zero _ _)) as [Hs Hg]; [lia..|].
  unfold generator_matrix. set (g := foldl _ (zero _ _) _) in *.
  destruct (fill_rows (k + m) k g (seq 0 m) (fun i => (k + i)%nat)
              (fun i j => gf_inv (num (k + i) ⊕ num j)) Hs) as (Hs' & Hin & Hout).
  { apply Forall_forall. intros i Hi%elem_of_seq. lia. }
  { apply NoDup_fmap_2; [intros ?? E; lia|apply NoDup_seq]. }
  split; [exact Hs'|]. intros i j Hi Hj. unfold gen_entry. destruct (decide (i < k)%nat) as [Hlt|Hge].
  - rewrite Hout; [|done|done|].
    + rewrite Hg, get_zero by done. unfold delta. repeat case_decide; done || (exfalso; naive_solver lia).
    + rewrite list_elem_of_fmap. intros (i' & -> & _). lia.
  - replace i with (k + (i - k))%nat by lia. apply (Hin (i - k)%nat j); [|done]. apply elem_of_seq. lia.
Qed.

Lemma imap_pair_lookup {A} (l : list A) i p : imap pair l !! i = Some p <-> p.1 = i /\ l !! i = Some p.2.
Proof.
  rewrite list_lookup_imap. destruct (l !! i) eqn:E; simpl; [|naive_solver].
  destruct p as [j b]; simpl. naive_solver.
Qed.

Lemma imap_pair_fst {A} (l : list A) : (imap pair l).*1 = seq 0 (length l).
Proof.
  apply list_eq. intros i. rewrite list_lookup_fmap, list_lookup_imap.
  destruct (l !! i) eqn:E; simpl.
  - symmetry. apply lookup_seq. apply lookup_lt_Some in E. lia.
  - symmetry. apply lookup_ge_None in E. apply lookup_ge_None. by rewrite length_seq.
Qed.

Lemma decode_matrix_spec rs chosen :
  length chosen = rs_k rs ->
  shape (rs_k rs) (rs_k rs) (decode_matrix rs chosen) /\
  forall r row c, chosen !! r = Some row -> (c < rs_k rs)%nat ->
    get (decode_matrix rs chosen) r c = get (generator rs) row c.
Proof.
  intros Hlen. destruct (fill_rows (rs_k rs) (rs_k rs) (zero (rs_k rs) (rs_k rs)) (imap pair chosen) fst
              (fun p c => get (generator rs) p.2 c) (shape_zero _ _)) as (Hs & Hin & _).
  { apply Forall_lookup. intros i p Hp. apply imap_pair_lookup in Hp as [-> Hp].
    apply lookup_lt_Some in Hp. lia. }
  { rewrite imap_pair_fst. apply NoDup_seq. }
  split; [exact Hs|]. intros r row c Hr Hc. apply (Hin (r, row) c); [|done].
  apply list_elem_of_lookup. exists r. by apply imap_pair_lookup.
Qed.

(** ** Any [k] rows of the generator have no kernel *)

Definition of_num (b : Byte.byte) : nat := Z.to_nat (to_Z b).

Lemma of_num_num i : (i < 256)%nat -> of_num (num i) = i.
Proof. intros. unfold of_num, num. rewrite to_of_Z by lia. lia. Qed.

Lemma num_NoDup l : NoDup l -> Forall (fun i => (i < 256)%nat) l -> NoDup (num <$> l).
Proof.
  intros Hl Hb. apply NoDup_fmap_2_strong; [|done]. rewrite Forall_forall in Hb.
  intros i j Hi Hj E. apply (f_equal of_num) in E. by rewrite !of_num_num in E by auto.
Qed.

Lemma gsum_num l (c : Byte.byte -> Byte.byte) x :
  gsum l (fun j => c (num j) ⊗ gf_inv (x ⊕ num j)) =
  foldr (fun y acc => c y ⊗ gf_inv (x ⊕ y) ⊕ acc) x00 (num <$> l).
Proof. induction l as [|j l IH]; [done|]. rewrite fmap_cons. simpl. by rewrite IH. Qed.

(** As many data shards are missing as parity shards were taken. *)
Lemma missing_count k chosen :
  NoDup chosen -> length chosen = k ->
  length (filter (fun j => j ∉ chosen) (seq 0 k)) = length (filter (fun i => ~ (i < k)%nat) chosen).
Proof.
  intros Hnd Hlen.
  assert (H1 : (length (filter (fun i => (i < k)%nat) chosen) +
                length (filter (fun i => ~ (i < k)%nat) chosen) = length chosen)%nat).
  { clear. induction chosen as [|i l IH]; [done|]. rewrite !filter_cons.
    destruct (decide (i < k)%nat), (decide (~ (i < k)%nat)); simpl; lia. }
  assert (H2 : (length (filter (fun j => j ∈ chosen) (seq 0 k)) +
                length (filter (fun j => j ∉ chosen) (seq 0 k)) = length (seq 0 k))%nat).
  { generalize (seq 0 k). clear. intros l.
    induction l as [|i l IH]; [done|]. rewrite !filter_cons.
    destruct (decide (i ∈ chosen)), (decide (i ∉ chosen)); simpl; done || lia. }
  assert (H3 : filter (fun i => (i < k)%nat) chosen ≡ₚ filter (fun j => j ∈ chosen) (seq 0 k)).
  { apply NoDup_Permutation; [by apply NoDup_filter|apply NoDup_filter, NoDup_seq|].
    intros i. rewrite !list_elem_of_filter, elem_of_seq. naive_solver lia. }
  apply Permutation_length in H3. rewrite length_seq in H2. lia.
Qed.

Lemma rows_no_kernel k m chosen x :
  (k + m < 256)%nat -> NoDup chosen -> Forall (fun i => (i < k + m)%nat) chosen -> length chosen = k ->
  (forall row, row ∈ chosen -> gsum (seq 0 k) (fun j => gen_entry k row j ⊗ x j) = x00) ->
  forall j, (j < k)%nat -> x j = x00.
Proof.
  intros Hkm Hnd Hb Hlen Heq.
  assert (Hdata : forall j, (j < k)%nat -> j ∈ chosen -> x j = x00).
  { intros j Hj Hin. rewrite <- (Heq j Hin), <- (gsum_delta k j x) by done.
    apply gsum_ext. intros r _. unfold gen_entry. by rewrite decide_True. }
  set (D := filter (fun j => j ∉ chosen) (seq 0 k)).
  set (P := filter (fun i => ~ (i < k)%nat) chosen).
  rewrite Forall_forall in Hb.
  assert (HD : forall j, j ∈ D -> (j < k)%nat /\ j ∉ chosen).
  { intros j Hj%list_elem_of_filter. rewrite elem_of_seq in Hj. naive_solver lia. }
  assert (HP : forall i, i ∈ P -> (k <= i < k + m)%nat /\ i ∈ chosen).
  { intros i Hi%list_elem_of_filter. naive_solver lia. }
  assert (Hmiss : forall y, y ∈ num <$> D -> x (of_num y) = x00).
  { apply (cauchy_no_kernel (num <$> D) (num <$> P) (fun y => x (of_num y))).
    - apply num_NoDup; [by apply NoDup_filter|]. apply Forall_forall. intros i Hi%HP. lia.
    - apply num_NoDup; [apply NoDup_filter, NoDup_seq|]. apply Forall_forall. intros i Hi%HD. lia.
    - rewrite !length_fmap. symmetry. by apply missing_count.
    - intros y Hy Hy'. apply list_elem_of_fmap in Hy as (i & -> & Hi%HP).
      apply list_elem_of_fmap in Hy' as (j & E & Hj%HD). apply (f_equal of_num) in E.
      rewrite !of_num_num in E by lia. lia.
    - intros y Hy. apply list_elem_of_fmap in Hy as (i & -> & Hi%HP).
      rewrite <- gsum_num. rewrite <- (Heq i) by apply Hi.
      rewrite (gsum_filter (fun j => j ∉ chosen) (seq 0 k)).
      + apply gsum_ext. intros j Hj%HD. unfold gen_entry. rewrite decide_False by lia.
        rewrite of_num_num by lia. ring.
      + intros j Hj Hn. apply elem_of_seq in Hj. apply dec_stable in Hn.
        rewrite Hdata by (done || lia). ring. }
  intros j Hj. destruct (decide (j ∈ chosen)) as [Hin|Hout]; [by apply Hdata|].
  rewrite <- (of_num_num j) by lia. apply Hmiss. apply list_elem_of_fmap_2, list_elem_of_filter.
  rewrite elem_of_seq. split; [done|lia].
Qed.

(** ** Shards as columns of bytes *)

Lemma mul_into_spec a out src :
  length out = length src ->
  length (mul_into a out src) = length out /\
  forall c, (c < length out)%nat -> mul_into a out src !!! c = out !!! c ⊕ a ⊗ src !!! c.
Proof.
  revert src. induction out as [|o out IH]; intros [|b src] Hlen; try discriminate Hlen.
  { split; [done|]. intros c Hc. by apply Nat.nlt_0_r in Hc. }
  injection Hlen as Hlen. destruct (IH src Hlen) as [Hl Hg]. split; [simpl; by rewrite Hl|].
  intros [|c] Hc; [done|]. simpl in Hc. apply Hg. lia.
Qed.

Lemma accumulate_spec a out src :
  length out = length src ->
  length (accumulate a out src) = length out /\
  forall c, (c < length out)%nat -> accumulate a out src !!! c = out !!! c ⊕ a ⊗ src !!! c.
Proof.
  intros Hlen. unfold accumulate. destruct (is_zero a) eqn:Ea; [|by apply mul_into_spec].
  apply is_zero_spec in Ea as ->. split; [done|]. intros c _. ring.
Qed.

Definition combine (f : nat -> Byte.byte) (len : nat) (data : list Shard) : Shard :=
  foldl (fun out p => accumulate (f p.1) out p.2) (replicate len x00) (imap pair data).

Lemma combine_spec f len data :
  Forall (fun s => length s = len) data ->
  length (combine f len data) = len /\
  forall c, (c < len)%nat ->
    combine f len data !!! c = gsum (seq 0 (length data)) (fun j => f j ⊗ (data !!! j) !!! c).
Proof.
  induction data as [|s data IH] using rev_ind; intros Hd.
  { unfold combine. simpl. rewrite length_replicate. split; [done|]. intros c Hc.
    by apply list_lookup_total_correct, lookup_replicate_2. }
  apply Forall_app in Hd as [Hd Hs]. rewrite Forall_singleton in Hs.
  destruct (IH Hd) as [Hl Hg]. unfold combine in *. rewrite imap_app, foldl_app. simpl.
  rewrite Nat.add_0_r. set (out := foldl _ _ _) in *.
  destruct (accumulate_spec (f (length data)) out s) as [Hl' Hg']; [congruence|].
  split; [by rewrite Hl'|]. intros c Hc. rewrite Hg', Hg by lia.
  rewrite length_app, seq_app, gsum_app. simpl.
  rewrite (gsum_ext _ (fun j => f j ⊗ ((data ++ [s]) !!! j) !!! c) (fun j => f j ⊗ (data !!! j) !!! c)).
  - rewrite lookup_total_app_r, Nat.sub_diag by lia. simpl. ring.
  - intros j Hj%elem_of_seq. by rewrite lookup_total_app_l by lia.
Qed.

Lemma shards_eq len (s1 s2 : Shard) :
  length s1 = len -> length s2 = len -> (forall c, (c < len)%nat -> s1 !!! c = s2 !!! c) -> s1 = s2.
Proof.
  intros H1 H2 H. apply list_eq_same_length with len; [done..|].
  intros i x y Hi Hx Hy. apply list_lookup_total_correct in Hx, Hy. rewrite <- Hx, <- Hy. by apply H.
Qed.

(** ** Code words *)

Record coder (rs : ReedSolomon) : Prop := {
  coder_k : (0 < rs_k rs)%nat;
  coder_fits : (rs_k rs + rs_m rs < 256)%nat;
  coder_gen : generator rs = generator_matrix (rs_k rs) (rs_m rs);
}.

Lemma rs_new_coder k m rs : rs_new k m = Ok rs -> coder rs /\ rs_k rs = k /\ rs_m rs = m.
Proof.
  unfold rs_new. intros H. inv_ok H. apply checked_add_Some in H1 as [-> ?].
  unfold MAX_TOTAL_SHARDS in *. split_bool. apply Nat.eqb_neq in H0.
  split; [split; simpl; done || lia|done].
Qed.

Section code.
Variables (rs : ReedSolomon) (data : list Shard) (len : nat).
Hypothesis Hrs : coder rs.
Hypothesis Hdata : length data = rs_k rs.
Hypothesis Hlen : Forall (fun s => length s = len) data.
Hypothesis Hpos : (0 < len)%nat.

Definition codeword : list Shard :=
  data ++ map (fun i => combine (get (generator rs) (rs_k rs + i)) len data) (seq 0 (rs_m rs)).

Lemma data_len j : (j < rs_k rs)%nat -> length (data !!! j) = len.
Proof.
  intros Hj. rewrite Forall_forall in Hlen. apply Hlen. apply list_elem_of_lookup.
  exists j. apply list_lookup_lookup_total_lt. lia.
Qed.

Lemma encode_parity_eq : encode_parity rs data = Ok (drop (rs_k rs) codeword).
Proof.
  unfold encode_parity. rewrite Hdata, Nat.eqb_refl. simpl.
  unfold codeword. rewrite drop_app_length' by done.
  destruct (rs_m rs =? 0)%nat eqn:Em; [by apply Nat.eqb_eq in Em as ->|].
  rewrite data_len by apply Hrs. destruct (Nat.eqb_spec len 0) as [|_]; [lia|]. simpl.
  destruct (list_find _ _) as [[i s]|] eqn:E; [|done].
  apply list_find_Some in E as (Hi & Hne & _). rewrite Forall_lookup in Hlen. by apply Hlen in Hi.
Qed.

Lemma codeword_length : length codeword = total_shards rs.
Proof. unfold codeword, total_shards. rewrite length_app, length_map, length_seq. lia. Qed.

Lemma codeword_spec i :
  (i < total_shards rs)%nat ->
  length (codeword !!! i) = len /\
  forall c, (c < len)%nat ->
    codeword !!! i !!! c = gsum (seq 0 (rs_k rs)) (fun j => gen_entry (rs_k rs) i j ⊗ data !!! j !!! c).
Proof.
  intros Hi. unfold codeword, total_shards in *. destruct (decide (i < rs_k rs)%nat) as [Hlt|Hge].
  - rewrite lookup_total_app_l by lia. split; [by apply data_len|]. intros c Hc.
    rewrite <- (gsum_delta (rs_k rs) i (fun j => data !!! j !!! c)) by done.
    apply gsum_ext. intros j _. unfold gen_entry. by rewrite decide_True.
  - rewrite lookup_total_app_r by lia. rewrite Hdata.
    rewrite (list_lookup_total_correct _ _ (combine (get (generator rs) (rs_k rs + (i - rs_k rs))) len data)).
    + replace (rs_k rs + (i - rs_k rs))%nat with i by lia.
      destruct (combine_spec (get (generator rs) i) len data Hlen) as [Hl Hg].
      split; [done|]. intros c Hc. rewrite Hg, Hdata by done. apply gsum_ext.
      intros j Hj%elem_of_seq. rewrite (coder_gen _ Hrs).
      destruct (generator_spec (rs_k rs) (rs_m rs)) as [_ Hgen]. by rewrite Hgen by lia.
    + rewrite list_lookup_fmap. rewrite lookup_seq_lt by lia. done.
Qed.

(** ** Reconstruction *)

(** The slots hold shards of the code word or nothing. *)
Definition genuine (present : list (option Shard)) : Prop :=
  length present = total_shards rs /\
  forall i s, present !! i = Some (Some s) -> codeword !! i = Some s.

Lemma decode_row_eq inv present chosen i :
  (forall row, row ∈ chosen -> present !!! row = Some (codeword !!! row)) ->
  decode_row inv present chosen len i =
  Ok (combine (get inv i) len ((fun row => codeword !!! row) <$> chosen)).
Proof.
  intros Hp. unfold decode_row, combine. induction chosen as [|row chosen IH] using rev_ind; [done|].
  rewrite fmap_app, !imap_app, !foldl_app, IH by (intros; apply Hp; set_solver). simpl.
  rewrite length_fmap, Hp by set_solver. unfold accumulate. by destruct (is_zero _).
Qed.

Lemma collect_map {A B E} (f : A -> result B E) (g : A -> B) l :
  (forall a, a ∈ l -> f a = Ok (g a)) -> collect (map f l) = Ok (map g l).
Proof.
  induction l as [|a l IH]; intros H; [done|]. simpl. rewrite H by left. simpl.
  rewrite IH; [done|]. intros b Hb. apply H. by right.
Qed.

(** The inverse of the chosen rows takes their shards back to the data. *)
Lemma decode_gives_data chosen V i :
  NoDup chosen -> Forall (fun r => (r < total_shards rs)%nat) chosen -> length chosen = rs_k rs ->
  (forall i j, (i < rs_k rs)%nat -> (j < rs_k rs)%nat ->
     gsum (seq 0 (rs_k rs)) (fun r => get V i r ⊗ get (decode_matrix rs chosen) r j) = delta i j) ->
  (i < rs_k rs)%nat ->
  combine (get V i) len ((fun row => codeword !!! row) <$> chosen) = data !!! i.
Proof.
  intros Hnd Hb Hl Hinv Hi. rewrite Forall_forall in Hb.
  assert (Hch : Forall (fun s => length s = len) ((fun row => codeword !!! row) <$> chosen)).
  { apply Forall_fmap, Forall_forall. intros r Hr%Hb. by apply codeword_spec. }
  destruct (combine_spec (get V i) len _ Hch) as [Hcl Hcg].
  apply (shards_eq len); [done|by apply data_len|]. intros c Hc. rewrite Hcg by done.
  rewrite length_fmap, Hl.
  destruct (decode_matrix_spec rs chosen Hl) as [_ Hdm].
  rewrite (gsum_ext _ _ (fun r => gsum (seq 0 (rs_k rs))
             (fun j => get V i r ⊗ get (decode_matrix rs chosen) r j ⊗ data !!! j !!! c))).
  - rewrite gsum_swap. rewrite <- (gsum_delta (rs_k rs) i (fun j => data !!! j !!! c)) by done.
    apply gsum_ext. intros j Hj%elem_of_seq. rewrite gsum_mul_r, Hinv by lia. done.
  - intros r Hr%elem_of_seq. destruct (lookup_lt_is_Some_2 chosen r) as [row Erow]; [lia|].
    rewrite (list_lookup_total_correct _ r (codeword !!! row)) by (rewrite list_lookup_fmap, Erow; done).
    assert (Hrow : (row < total_shards rs)%nat) by (apply Hb; by eapply list_elem_of_lookup_2).
    destruct (codeword_spec row Hrow) as [_ Hg]. rewrite Hg, <- gsum_mul_l by done.
    apply gsum_ext. intros j Hj%elem_of_seq. rewrite (Hdm r row j), (coder_gen _ Hrs) by (done || lia).
    destruct (generator_spec (rs_k rs) (rs_m rs)) as [_ Hgen]. rewrite Hgen by (unfold total_shards in *; lia). ring.
Qed.

Lemma live_spec present i : i ∈ live_indices present <-> exists s, present !! i = Some (Some s).
Proof.
  unfold live_indices. rewrite list_elem_of_omap. split.
  - intros ([j o] & Hin & Ho). simpl in Ho. destruct o as [s|]; simplify_eq/=.
    apply list_elem_of_lookup in Hin as [p Hp]. apply imap_pair_lookup in Hp as [? Hp]. simplify_eq/=. eauto.
  - intros [s Hs]. exists (i, Some s). split; [|done]. apply list_elem_of_lookup. exists i.
    by apply imap_pair_lookup.
Qed.

Lemma live_NoDup present : NoDup (live_indices present).
Proof.
  unfold live_indices. assert (H : NoDup (imap pair present).*1) by (rewrite imap_pair_fst; apply NoDup_seq).
  revert H. generalize (imap pair present). intros l. induction l as [|[j o] l IH]; intros H; [constructor|].
  rewrite fmap_cons in H. apply NoDup_cons in H as [Hn Hl]. simpl. destruct o; simpl; [|by apply IH].
  apply NoDup_cons. split; [|by apply IH]. rewrite list_elem_of_omap. intros ([j' o'] & Hin & Ho).
  simpl in Ho. destruct o'; simplify_eq/=. apply Hn. by apply (list_elem_of_fmap_2 fst) in Hin.
Qed.

Lemma genuine_live present i :
  genuine present -> i ∈ live_indices present ->
  (i < total_shards rs)%nat /\ present !!! i = Some (codeword !!! i).
Proof.
  intros [Hl Hg] [s Hs]%live_spec. split; [by apply lookup_lt_Some in Hs; lia|].
  rewrite (list_lookup_total_correct _ _ _ Hs). f_equal. symmetry.
  apply list_lookup_total_correct. by apply Hg.
Qed.

Lemma recover_data_eq present :
  genuine present -> (rs_k rs <= length (live_indices present))%nat ->
  recover_data rs present (live_indices present) len = Ok data.
Proof.
  intros Hg Hlive. unfold recover_data. destruct (forallb _ _) eqn:Eall.
  - f_equal. apply list_eq_same_length with (rs_k rs); [done|by rewrite length_map, length_seq|].
    intros i x y Hi Hx Hy. rewrite list_lookup_fmap, lookup_seq_lt in Hx by done. simplify_eq/=.
    rewrite forallb_forall in Eall.
    specialize (Eall i ltac:(apply in_seq; lia)). apply bool_decide_eq_true_1 in Eall as [s Es].
    assert (Hi' : present !! i = Some (Some s)).
    { rewrite <- Es. apply list_lookup_lookup_total_lt. destruct Hg as [-> _]. unfold total_shards. lia. }
    rewrite Es. simpl. destruct Hg as [_ Hg]. apply Hg in Hi'. unfold codeword in Hi'.
    rewrite lookup_app_l in Hi' by lia. congruence.
  - set (chosen := take (rs_k rs) (live_indices present)).
    assert (Hl : length chosen = rs_k rs) by (unfold chosen; rewrite length_take; lia).
    assert (Hin : forall r, r ∈ chosen -> r ∈ live_indices present).
    { intros r Hr. rewrite <- (take_drop (rs_k rs) (live_indices present)).
      apply elem_of_app. by left. }
    assert (Hnd : NoDup chosen) by (eapply sublist_NoDup; [apply live_NoDup|apply sublist_take]).
    assert (Hb : Forall (fun r => (r < total_shards rs)%nat) chosen).
    { apply Forall_forall. intros r Hr%Hin. by eapply genuine_live. }
    destruct (decode_matrix_spec rs chosen Hl) as [Hs Hdm].
    destruct (invert_spec (rs_k rs) (decode_matrix rs chosen) Hs) as (V & EV & _ & Hinv).
    { intros x Hx. apply (rows_no_kernel (rs_k rs) (rs_m rs) chosen x (coder_fits _ Hrs) Hnd Hb Hl).
      intros row Hrow. apply list_elem_of_lookup in Hrow as [r Hr].
      rewrite <- (Hx r) by (apply lookup_lt_Some in Hr; lia). unfold apply. apply gsum_ext.
      intros j Hj%elem_of_seq. rewrite (Hdm r row j), (coder_gen _ Hrs) by (done || lia).
      destruct (generator_spec (rs_k rs) (rs_m rs)) as [_ Hgen]. rewrite Hgen; [done| |lia].
      rewrite Forall_lookup in Hb. by apply Hb in Hr. }
    rewrite EV. simpl. rewrite (collect_map _ (fun i => data !!! i)).
    + f_equal. apply list_eq_same_length with (rs_k rs); [done|by rewrite length_map, length_seq|].
      intros i x y Hi Hx Hy. rewrite list_lookup_fmap, lookup_seq_lt in Hx by done. simplify_eq/=.
      by apply list_lookup_total_correct.
    + intros i Hi%elem_of_seq. rewrite decode_row_eq by (intros; by apply genuine_live, Hin).
      f_equal. apply decode_gives_data; auto; lia.
Qed.

Lemma reconstruct_eq present :
  genuine present -> (rs_k rs <= length (live_indices present))%nat ->
  reconstruct rs present = Ok codeword.
Proof.
  intros Hg Hlive. unfold reconstruct. pose proof (coder_k _ Hrs).
  pose proof Hg as [Hpl _]. rewrite Hpl, Nat.eqb_refl. cbn [ensure rbind].
  rewrite (proj2 (Nat.ltb_ge _ _)) by done. cbn [negb ensure rbind].
  assert (Hsl : forall i, i ∈ live_indices present -> shard_len present i = len).
  { intros i Hi. destruct (genuine_live present i Hg Hi) as [Hi' E].
    unfold shard_len. rewrite E. simpl. by apply codeword_spec. }
  rewrite (Hsl (live_indices present !!! 0%nat)).
  2: { apply list_elem_of_lookup. exists 0%nat. apply list_lookup_lookup_total_lt. lia. }
  destruct (Nat.eqb_spec len 0) as [|_]; [lia|]. cbn [negb ensure rbind].
  destruct (list_find _ _) as [[j i]|] eqn:Ef.
  { apply list_find_Some in Ef as (Hj & Hne & _). apply list_elem_of_lookup_2 in Hj. by apply Hsl in Hj. }
  rewrite recover_data_eq by done. simpl. rewrite encode_parity_eq. simpl. f_equal.
  unfold codeword. by rewrite drop_app_length' by done.
Qed.

End code.
(** The code is maximum distance separable as implemented.  For every pair
    of counts the constructor accepts, whichever shards of the encoded word are
    left, reconstruction returns the whole word as soon as [k] of them are
    there, and reports how many are missing otherwise; the singular-matrix
    error is never reached. *)
Theorem any_k_shards_reconstruct (k m : nat) (rs : ReedSolomon) (data parity : list Shard)
    (len : nat) (present : list (option Shard))
    (Hnew : rs_new k m = Ok rs) (Hk : length data = k)
    (Hlen : Forall (fun s => length s = len) data) (Hpos : (0 < len)%nat)
    (Henc : encode_parity rs data = Ok parity)
    (Hslots : length present = (k + m)%nat)
    (Hgen : forall i s, present !! i = Some (Some s) -> (data ++ parity) !! i = Some s) :
  reconstruct rs present =
  if (k <=? length (live_indices present))%nat then Ok (data ++ parity)
  else Err (NotEnoughShards (length (live_indices present)) k).
Proof.
  destruct (rs_new_coder _ _ _ Hnew) as (Hrs & Ek & Em). rewrite <- Ek in *. rewrite <- Em in *. clear Ek Em.
  assert (E : data ++ parity = codeword rs data len).
  { rewrite (encode_parity_eq rs data len Hrs Hk Hlen Hpos) in Henc. injection Henc as <-.
    unfold codeword. by rewrite drop_app_length' by done. }
  rewrite E in *. destruct (Nat.leb_spec (rs_k rs) (length (live_indices present))) as [Hle|Hgt].
  - by apply reconstruct_eq.
  - unfold reconstruct. rewrite Hslots. unfold total_shards. rewrite Nat.eqb_refl. cbn [ensure rbind].
    by rewrite (proj2 (Nat.ltb_lt _ _)) by done.
Qed.

End ErasureFacts.
