(* ===== verification/ErasureObject.v ===== *)
(** * Objects survive the loss of shards

    The object level of src/storage/erasure.rs: a non-empty object encoded
    under an admissible scheme has a manifest that validates, reads back from
    any [k] genuine shards even when one slot is corrupted, and nothing but the
    object is ever returned for that manifest. *)

From Stdlib Require Import ZArith Lia.
From Stdlib Require Import Strings.Byte.
From stdpp Require Import base tactics strings numbers pretty gmap list.
From S2P Require Import Prelude Hashing Gf256 Manifest Erasure ErasureFacts.
Import Hashing Gf256 Manifest Erasure ErasureFacts.
Open Scope Z_scope.

Module ErasureObject.

(** ** Objects *)

Lemma stripes_concat (data : Shard) st p :
  concat (map (stripe_shard data st) (seq 0 p)) =
  take (p * st) data ++ replicate (p * st - length data) x00.
Proof.
  induction p as [|p IH]; [done|]. rewrite seq_S, map_app, concat_app, IH. simpl concat.
  rewrite app_nil_r. unfold stripe_shard. cbn [Nat.add Nat.mul]. rewrite !(Nat.add_comm st).
  destruct (le_lt_dec (p * st) (length data)) as [Hle|Hgt].
  - rewrite (Nat.min_l (p * st)) by done. replace (p * st - length data)%nat with 0%nat by lia.
    cbn [replicate]. rewrite app_nil_r, app_assoc. f_equal.
    + destruct (le_lt_dec (p * st + st) (length data)).
      * rewrite Nat.min_l by done. replace (p * st + st - p * st)%nat with st by lia. by rewrite take_take_drop.
      * rewrite Nat.min_r by lia. rewrite (take_ge (drop _ _)) by (rewrite length_drop; lia).
        rewrite take_drop. symmetry. apply take_ge. lia.
    + f_equal. lia.
  - rewrite (Nat.min_r (p * st)) by lia. rewrite Nat.min_r, Nat.sub_diag by lia.
    rewrite take_0, (take_ge data (p * st)), (take_ge data (p * st + st)) by lia. rewrite <- app_assoc. f_equal.
    simpl app. rewrite Nat.sub_0_r, <- replicate_add. f_equal. lia.
Qed.

Lemma stripe_length (data : Shard) st i : length (stripe_shard data st i) = st.
Proof. unfold stripe_shard. rewrite length_app, length_take, length_drop, length_replicate. lia. Qed.

Lemma div_ceil_spec a b : 0 <= a -> 0 < b -> a <= div_ceil a b * b < a + b.
Proof. intros. unfold div_ceil. destruct (Z.eqb_spec (a mod b) 0); dlia. Qed.

Lemma to_Z_inj a b : to_Z a = to_Z b -> a = b.
Proof. intros E. by rewrite <- (of_to_Z a), <- (of_to_Z b), E. Qed.

(** ** The manifest of an object *)

Lemma scan_shards_ok (l : list ShardRef) (seen : gset Z) (total st : Z) :
  0 < st -> 0 <= total -> Forall (fun s => size s = st) l -> NoDup (map index l) ->
  (forall i, i ∈ map index l -> i ∉ seen) -> total + zlen l * st < U64 ->
  scan_shards l seen total = Ok (total + zlen l * st).
Proof.
  revert seen total. induction l as [|s l IH]; intros seen total Hst Ht Hs Hnd Hseen Hb.
  { simpl. f_equal. unfold zlen. simpl. lia. }
  apply Forall_cons in Hs as [Es Hs]. apply NoDup_cons in Hnd as [Hn Hnd].
  rewrite zlen_cons in Hb. assert (0 <= zlen l * st) by (unfold zlen; nia).
  simpl. rewrite Es, (proj2 (Z.eqb_neq _ _)) by lia.
  rewrite bool_decide_false by (apply Hseen; left). cbn [negb ensure rbind].
  unfold checked_add. rewrite (proj2 (Z.ltb_lt _ _)) by lia. cbn [ok_or rbind].
  rewrite (IH _ _ Hst); [f_equal; rewrite zlen_cons; lia|lia|done|done| |lia].
  intros i Hi. apply not_elem_of_union. split; [|apply Hseen; by right].
  intros ->%elem_of_singleton. done.
Qed.

Section refs.
Context `{H : FieldHash}.

(** The shard references [to_manifest] builds. *)
Definition shard_ref (e : ErasureScheme) (i : nat) (s : Shard) : ShardRef :=
  mkShard (Z.of_nat i mod U32) (content_id_of (shard_numbers s)) (zlen (shard_numbers s) mod U32) (shard_kind e i).
Definition shard_refs (o : EncodedObject) : list ShardRef := imap (shard_ref (o_scheme o)) (o_shards o).

Lemma zip_kinds (o : EncodedObject) :
  imap (fun i p => let s := shard_from_bytes (Z.of_nat i mod U32) (shard_numbers p.1) in
                   mkShard (index s) (shard_id s) (size s) p.2) (zip (o_shards o) (kinds o)) = shard_refs o.
Proof.
  apply list_eq. intros i. unfold shard_refs. rewrite !list_lookup_imap.
  destruct (o_shards o !! i) as [s|] eqn:Es.
  - rewrite (proj2 (lookup_zip_Some _ _ _ s (shard_kind (o_scheme o) i))); [done|]. split; [done|].
    unfold kinds. rewrite list_lookup_fmap, lookup_seq_lt by (by eapply lookup_lt_Some). done.
  - simpl. rewrite lookup_ge_None_2; [done|]. apply lookup_ge_None in Es. rewrite length_zip. lia.
Qed.

Lemma refs_index (o : EncodedObject) :
  (length (o_shards o) <= 255)%nat -> map index (shard_refs o) = map Z.of_nat (seq 0 (length (o_shards o))).
Proof.
  intros Hl. apply list_eq. intros i. unfold shard_refs. rewrite !list_lookup_fmap, list_lookup_imap.
  destruct (o_shards o !! i) as [s|] eqn:Es.
  - pose proof (lookup_lt_Some _ _ _ Es). rewrite lookup_seq_lt by done. simpl. f_equal. apply Z.mod_small. lia.
  - simpl. apply lookup_ge_None in Es. by rewrite lookup_seq_ge.
Qed.

Lemma refs_kinds (o : EncodedObject) :
  (Z.to_nat (k (o_scheme o)) <= length (o_shards o))%nat ->
  map kind (shard_refs o) =
  replicate (Z.to_nat (k (o_scheme o))) Data ++ replicate (length (o_shards o) - Z.to_nat (k (o_scheme o))) Parity.
Proof.
  intros Hk. apply list_eq. intros i. unfold shard_refs. rewrite list_lookup_fmap, list_lookup_imap.
  set (kk := Z.to_nat _) in *. destruct (o_shards o !! i) as [s|] eqn:Es; simpl.
  - pose proof (lookup_lt_Some _ _ _ Es). unfold shard_kind. fold kk. destruct (Nat.ltb_spec i kk).
    + rewrite lookup_app_l by (rewrite length_replicate; lia). symmetry. by apply lookup_replicate_2.
    + rewrite lookup_app_r, length_replicate by (rewrite length_replicate; lia).
      symmetry. apply lookup_replicate_2. lia.
  - apply lookup_ge_None in Es. symmetry. apply lookup_ge_None. rewrite length_app, !length_replicate. lia.
Qed.

Lemma count_kind_eq x (l : list ShardRef) a b :
  map kind l = replicate a Data ++ replicate b Parity -> (a + b <= 255)%nat ->
  count_kind x l = Z.of_nat (match x with Data => a | Parity => b end).
Proof.
  intros E Hab.
  assert (El : length (filter (fun s => kind s = x) l) = length (filter (fun y => y = x) (map kind l))).
  { clear. induction l as [|s l IH]; [done|]. rewrite map_cons, !filter_cons. by case_decide; simpl; rewrite IH. }
  unfold count_kind, zlen. rewrite El, E, filter_app, length_app.
  assert (F : forall y c, length (filter (fun z => z = x) (replicate c y)) = if decide (y = x) then c else 0%nat).
  { clear. intros y c. induction c as [|c IH]; simpl; [by case_decide|].
    rewrite filter_cons. by case_decide; simpl; rewrite IH. }
  rewrite !F. destruct x; simpl; rewrite Z.mod_small; lia.
Qed.

End refs.

Section objects.
Context `{H : FieldHash}.
Variables (data : Shard) (e : ErasureScheme) (rs : ReedSolomon).
Hypothesis Hdata : data <> [].
Hypothesis Hrs0 : for_scheme e = Ok rs.

Definition stripe : nat := Z.to_nat (div_ceil (zlen data) (Z.of_nat (rs_k rs))).
Definition stripes : list Shard := map (stripe_shard data stripe) (seq 0 (rs_k rs)).
Definition word : list Shard := codeword rs stripes stripe.

Lemma scheme_coder : coder rs /\ rs_k rs = Z.to_nat (k e) /\ rs_m rs = Z.to_nat (parity_count e).
Proof. unfold for_scheme in Hrs0. inv_ok Hrs0. by apply rs_new_coder. Qed.

Lemma stripe_bounds : (length data <= rs_k rs * stripe)%nat /\ (0 < stripe <= length data)%nat.
Proof.
  destruct scheme_coder as ([Hk _ _] & _). unfold stripe, zlen.
  destruct data as [|b l]; [done|]. assert (0 < length (b :: l))%nat by (simpl; lia). set (n := length (b :: l)) in *.
  pose proof (div_ceil_spec (Z.of_nat n) (Z.of_nat (rs_k rs)) ltac:(lia) ltac:(lia)) as Hd.
  set (q := div_ceil _ _) in *. assert (0 < q) by nia. 
  assert (q <= Z.of_nat n).
  { apply Z.nlt_ge. intros Hq.
    assert ((Z.of_nat n + 1) * Z.of_nat (rs_k rs) <= q * Z.of_nat (rs_k rs)) by (apply Z.mul_le_mono_nonneg_r; lia).
    nia. }
  split; [|lia]. apply Nat2Z.inj_le. rewrite Nat2Z.inj_mul, Z2Nat.id by lia. lia.
Qed.

Lemma stripes_ok : length stripes = rs_k rs /\ Forall (fun s => length s = stripe) stripes.
Proof.
  split; [unfold stripes; by rewrite length_map, length_seq|].
  apply Forall_fmap, Forall_forall. intros i _. apply stripe_length.
Qed.

Lemma encode_object_eq : encode_object data e = Ok (mkObject word e (zlen data)).
Proof.
  destruct scheme_coder as (Hc & _). destruct stripes_ok as [Hl Hf]. pose proof stripe_bounds.
  unfold encode_object. pose proof Hrs0 as Hrs1. unfold for_scheme in Hrs1. inv_ok Hrs1.
  rewrite Hrs2. cbn [map_err rbind]. rewrite bool_decide_false by done. cbn [negb ensure rbind].
  rewrite Hrs0. cbn [rbind]. fold stripe. fold stripes.
  rewrite (encode_parity_eq rs stripes stripe) by (done || lia). cbn [rbind]. do 2 f_equal.
  unfold word, codeword. by rewrite drop_app_length' by done.
Qed.

(** What is read back is the object. *)
Lemma word_data : take (length data) (concat (take (rs_k rs) word)) = data.
Proof.
  unfold word, codeword. rewrite take_app_length' by (symmetry; apply stripes_ok).
  unfold stripes. rewrite stripes_concat. pose proof stripe_bounds.
  rewrite (take_ge data) by lia. by rewrite take_app_length.
Qed.

Lemma scheme_counts : 0 < k e <= n e /\ n e <= 255 /\ total_shards rs = Z.to_nat (n e) /\ rs_k rs = Z.to_nat (k e).
Proof.
  destruct scheme_coder as ([Hk Hf _] & Ek & Em). pose proof Hrs0 as Hv. unfold for_scheme, validate_scheme in Hv.
  inv_ok Hv. inv_ok Hv0. split_bool. unfold parity_count, saturating_sub, total_shards in *. lia.
Qed.

Lemma word_length : length word = Z.to_nat (n e).
Proof.
  destruct scheme_counts as (_ & _ & <- & _). destruct scheme_coder as (Hc & _). destruct stripes_ok as [Hl Hf].
  unfold word. apply codeword_length; try done. apply stripe_bounds.
Qed.

Definition object : EncodedObject := mkObject word e (zlen data).

Definition object_manifest : ContentManifest :=
  reseal (mkManifest [] zero_address (n e * Z.of_nat stripe) (n e) (shard_refs object) e (zlen data) Plaintext).

Lemma refs_length : zlen (shard_refs object) = n e.
Proof. pose proof scheme_counts. unfold zlen, shard_refs. rewrite length_imap. simpl. rewrite word_length. lia. Qed.

Lemma refs_size : Z.of_nat stripe < U32 -> Forall (fun s => size s = Z.of_nat stripe) (shard_refs object).
Proof.
  intros Hs. apply Forall_lookup. intros i r Hi. unfold shard_refs in Hi. rewrite list_lookup_imap in Hi.
  apply fmap_Some in Hi as (s & Hi & ->). simpl. destruct scheme_coder as (Hc & _). destruct stripes_ok as [Hl Hf].
  pose proof (lookup_lt_Some _ _ _ Hi) as Hlt. simpl in Hlt, Hi.
  destruct scheme_counts as (_ & _ & En & _). rewrite word_length, <- En in Hlt.
  destruct (codeword_spec rs stripes stripe Hc Hl Hf (proj1 (proj2 stripe_bounds)) i Hlt) as [El _].
  fold word in El. rewrite (list_lookup_total_correct _ _ _ Hi) in El.
  unfold zlen, shard_numbers. rewrite length_map, El, Z.mod_small by lia. done.
Qed.

Lemma refs_scan : Z.of_nat stripe < U32 -> scan_shards (shard_refs object) ∅ 0 = Ok (n e * Z.of_nat stripe).
Proof.
  intros Hs. pose proof scheme_counts as (? & ? & ?). pose proof stripe_bounds as [_ ?].
  rewrite (scan_shards_ok _ ∅ 0 (Z.of_nat stripe)); [by rewrite refs_length|lia|lia|by apply refs_size| |set_solver|rewrite refs_length; nia].
  rewrite refs_index by (simpl; rewrite word_length; lia). apply NoDup_fmap_2; [apply _|apply NoDup_seq].
Qed.

Lemma refs_count x :
  count_kind x (shard_refs object) = match x with Data => k e | Parity => parity_count e end.
Proof.
  pose proof scheme_counts as (? & ? & ?). pose proof word_length as Hw.
  rewrite (count_kind_eq x _ (Z.to_nat (k e)) (Z.to_nat (n e) - Z.to_nat (k e))).
  - unfold parity_count, saturating_sub. destruct x; lia.
  - rewrite refs_kinds; simpl; rewrite Hw; [done|lia].
  - lia.
Qed.

Lemma refs_nonempty : shard_refs object <> [].
Proof. pose proof refs_length as E. pose proof scheme_counts. intros F. rewrite F in E. unfold zlen in E. simpl in E. lia. Qed.

Lemma scheme_valid : validate_scheme e = Ok tt.
Proof.
  pose proof scheme_counts. unfold validate_scheme.
  by rewrite (proj2 (Z.eqb_neq _ _)), (proj2 (Z.ltb_ge _ _)) by lia.
Qed.

Lemma stored_fits : zlen data <= n e * Z.of_nat stripe.
Proof. pose proof scheme_counts. pose proof stripe_bounds as [? _]. unfold zlen. nia. Qed.

Lemma data_positive : 0 < zlen data.
Proof. unfold zlen. destruct data; [done|]. simpl. lia. Qed.

Lemma to_manifest_eq : Z.of_nat stripe < U32 -> to_manifest object = Ok object_manifest.
Proof.
  intros Hs. pose proof scheme_counts. pose proof stored_fits. pose proof data_positive.
  unfold to_manifest. rewrite zip_kinds. unfold from_shards. rewrite bool_decide_false by apply refs_nonempty.
  cbn [negb ensure rbind]. rewrite refs_scan by done. cbn [rbind]. rewrite refs_length, Z.mod_small by lia.
  unfold with_erasure. cbn [o_scheme object]. rewrite scheme_valid. cbn [rbind reseal shard_count shards].
  rewrite Z.eqb_refl, !refs_count, !Z.eqb_refl. cbn [ensure rbind].
  unfold with_content_size. cbn [o_total object total_size reseal].
  rewrite (proj2 (Z.eqb_neq _ _)), (proj2 (Z.ltb_ge _ _)) by lia. done.
Qed.

Lemma to_manifest_shape m :
  to_manifest object = Ok m -> shards m = shard_refs object /\ erasure m = e /\ content_size m = zlen data.
Proof.
  intros Hm. unfold to_manifest in Hm. rewrite zip_kinds in Hm. inv_ok Hm.
  unfold from_shards, with_erasure, with_content_size in *. inv_ok Hm. inv_ok Hm1. inv_ok Hm0.
  simplify_eq/=. unfold content_size. simpl. rewrite (proj2 (Z.eqb_neq _ _)); [done|]. pose proof data_positive. lia.
Qed.

Lemma manifest_valid : Z.of_nat stripe < U32 -> validate_untrusted object_manifest = Ok tt.
Proof.
  intros Hs. pose proof scheme_counts. pose proof stored_fits. pose proof data_positive.
  unfold validate_untrusted. cbn [object_manifest reseal shards shard_count total_size content_size_field erasure encryption is_encrypted andb negb].
  rewrite bool_decide_false by apply refs_nonempty. cbn [negb ensure rbind].
  rewrite refs_length, Z.mod_small, Z.eqb_refl by lia. cbn [ensure rbind].
  rewrite refs_scan by done. cbn [rbind]. rewrite Z.eqb_refl, (proj2 (Z.ltb_ge _ _)) by lia. cbn [negb ensure rbind].
  rewrite scheme_valid. cbn [rbind].
  rewrite refs_count, Z.eqb_refl. cbn [ensure rbind].
  unfold verify_id. rewrite bool_decide_true by done. done.
Qed.

(** ** Retrieval *)

Variable m : ContentManifest.
Hypothesis Hshards : shards m = shard_refs object.
Hypothesis Hsize : content_size m = zlen data.

Lemma refs_find i s :
  word !! i = Some s ->
  list_find (fun r => index r = Z.of_nat i mod U32) (shards m) = Some (i, shard_ref e i s).
Proof.
  intros Hi. rewrite Hshards. pose proof scheme_counts as (? & ? & ?). pose proof word_length.
  apply list_find_Some. repeat split.
  - unfold shard_refs. rewrite list_lookup_imap. simpl. by rewrite Hi.
  - intros j r Hj Hlt E. unfold shard_refs in Hj. rewrite list_lookup_imap in Hj.
    apply fmap_Some in Hj as (t & Hj & ->). simpl in E, Hj.
    pose proof (lookup_lt_Some _ _ _ Hi). rewrite !Z.mod_small in E by lia. lia.
Qed.

Lemma verify_word_from i : verify_all m (drop i word) (Z.of_nat i) = Ok tt.
Proof.
  remember (length word - i)%nat as d eqn:Ed. revert i Ed. induction d as [|d IH]; intros i Ed.
  - by rewrite drop_ge by lia.
  - destruct (lookup_lt_is_Some_2 word i) as [s Hs]; [lia|]. rewrite (drop_S _ _ _ Hs). simpl.
    rewrite (refs_find _ _ Hs). simpl. rewrite bool_decide_true by done. simpl.
    replace (Z.of_nat i + 1) with (Z.of_nat (S i)) by lia. apply IH. lia.
Qed.

Lemma verify_all_refs all i0 :
  verify_all m all (Z.of_nat i0) = Ok tt ->
  forall j s t, all !! j = Some s -> word !! (i0 + j)%nat = Some t ->
  content_id_of (shard_numbers t) = content_id_of (shard_numbers s).
Proof.
  revert i0. induction all as [|b all IH]; intros i0 Hv j s t Hj Ht; [done|]. simpl in Hv.
  destruct (list_find _ _) as [[x r]|] eqn:Ef; [|done]. inv_ok Hv. split_bool.
  destruct j as [|j]; simplify_eq/=.
  - rewrite Nat.add_0_r in Ht. rewrite (refs_find _ _ Ht) in Ef. by simplify_eq/=.
  - replace (Z.of_nat i0 + 1) with (Z.of_nat (S i0)) in Hv by lia.
    apply (IH (S i0) Hv j); [done|]. by replace (S i0 + j)%nat with (i0 + S j)%nat by lia.
Qed.

Lemma verified_word `{!CollisionFree H} all :
  length all = length word -> verify_all m all 0 = Ok tt -> all = word.
Proof.
  intros El Hv. apply list_eq_same_length with (length word); [done|done|].
  intros i x y Hi Hx Hy. pose proof (verify_all_refs all 0 Hv i x y Hx Hy) as E.
  unfold content_id_of in E. apply hash_fields_inj in E. injection E as E.
  unfold shard_numbers in E. symmetry. revert E. apply list_fmap_eq_inj. intros a b. apply to_Z_inj.
Qed.

Lemma collect_length {A E} (l : list (result A E)) out : collect l = Ok out -> length out = length l.
Proof.
  revert out. induction l as [|r l IH]; intros out Ho; [by injection Ho as <-|].
  simpl in Ho. inv_ok Ho. simpl. f_equal. by apply IH.
Qed.

Lemma reconstruct_length present all : reconstruct rs present = Ok all -> length all = total_shards rs.
Proof.
  unfold reconstruct. intros Ha. inv_ok Ha. destruct (list_find _ _) as [[??]|]; [done|]. inv_ok Ha.
  rewrite length_app. unfold total_shards. f_equal.
  - unfold recover_data in *. destruct (forallb _ _).
    + match goal with E : Ok _ = Ok _ |- _ => injection E as <- end. by rewrite length_map, length_seq.
    + match goal with E : rbind _ _ = Ok _ |- _ => inv_ok E; apply collect_length in E as -> end.
      by rewrite length_map, length_seq.
  - match goal with E : encode_parity _ _ = Ok _ |- _ => unfold encode_parity in E; inv_ok E; revert E end.
    destruct (Nat.eqb_spec (rs_m rs) 0) as [->|_]; [by intros [= <-]|]. intros Hp. inv_ok Hp.
    destruct (list_find _ _) as [[??]|]; [done|]. injection Hp as <-. by rewrite length_map, length_seq.
Qed.

Lemma attempt_sound `{!CollisionFree H} present out : attempt m rs present = Ok out -> out = data.
Proof.
  unfold attempt. intros Ha. inv_ok Ha. destruct scheme_counts as (_ & _ & En & _).
  match goal with
  | R : reconstruct _ _ = Ok ?all, V : verify_all _ ?all _ = Ok ?u |- _ =>
      destruct u; apply reconstruct_length in R; apply verified_word in V as ->;
      [|by rewrite R, word_length]
  end.
  rewrite Hsize. unfold zlen. rewrite Nat2Z.id. apply word_data.
Qed.

Lemma attempt_complete present :
  genuine rs stripes stripe present -> (rs_k rs <= length (live_indices present))%nat ->
  attempt m rs present = Ok data.
Proof.
  intros Hg Hl. destruct scheme_coder as (Hc & _). destruct stripes_ok as [Hls Hf]. pose proof stripe_bounds as [_ ?].
  unfold attempt. rewrite (reconstruct_eq rs stripes stripe) by (done || lia). cbn [rbind]. fold word.
  pose proof (verify_word_from 0) as Hv. rewrite drop_0 in Hv. change (Z.of_nat 0) with 0 in Hv. rewrite Hv. cbn [rbind]. rewrite Hsize. unfold zlen. rewrite Nat2Z.id. by rewrite word_data.
Qed.

Lemma retry_sound `{!CollisionFree H} present live out : retry m rs present live = Some out -> out = data.
Proof.
  induction live as [|d live IH]; simpl; [done|].
  destruct (attempt _ _ _) as [o|?] eqn:Ea; [|done]. intros [= <-]. by eapply attempt_sound.
Qed.

Lemma retry_complete `{!CollisionFree H} present live d :
  d ∈ live -> attempt m rs (<[d := None]> present) = Ok data -> retry m rs present live = Some data.
Proof.
  induction live as [|d' live IH]; intros Hd Ha; [by apply elem_of_nil in Hd|]. simpl.
  destruct (attempt m rs (<[d' := None]> present)) as [o|?] eqn:Ea; [f_equal; by eapply attempt_sound|].
  apply elem_of_cons in Hd as [->|Hd]; [congruence|]. by apply IH.
Qed.

(** Masking a live slot leaves one live slot fewer. *)
Lemma live_insert (present : list (option Shard)) c :
  c ∈ live_indices present -> S (length (live_indices (<[c := None]> present))) = length (live_indices present).
Proof.
  intros Hc. change (S (length ?l)) with (length (c :: l)). apply Permutation_length.
  apply NoDup_Permutation; [|apply live_NoDup|].
  - apply NoDup_cons. split; [|apply live_NoDup]. rewrite live_spec. intros [s Hs].
    apply live_spec in Hc as [t Ht]. rewrite list_lookup_insert_eq in Hs; [done|]. by eapply lookup_lt_Some.
  - intros j. rewrite elem_of_cons, !live_spec. apply live_spec in Hc as [t Ht].
    destruct (decide (j = c)) as [->|Hne]; [by naive_solver|]. rewrite list_lookup_insert_ne by done. naive_solver.
Qed.

Definition recoverable (present : list (option Shard)) (c : nat) : Prop :=
  genuine rs stripes stripe (<[c := None]> present) /\
  (rs_k rs <= length (live_indices (<[c := None]> present)))%nat.

Lemma reconstruct_object_Ok `{!CollisionFree H} present c :
  erasure m = e -> recoverable present c -> reconstruct_object m present = Ok data.
Proof.
  intros He [Hg Hl]. pose proof (attempt_complete _ Hg Hl) as Hatt.
  destruct scheme_counts as (? & ? & En & _). unfold reconstruct_object. rewrite He, Hrs0. cbn [rbind].
  rewrite Hshards, (proj2 (Nat.eqb_eq _ _)).
  2: { unfold shard_refs. rewrite length_imap. simpl. by rewrite word_length. }
  cbn [ensure rbind]. destruct (attempt m rs present) as [o|err] eqn:Ea.
  - f_equal. by eapply attempt_sound.
  - assert (Hc : c ∈ live_indices present).
    { apply live_spec. destruct (present !! c) as [[s|]|] eqn:Ec; [eauto| |].
      - rewrite list_insert_id in Hatt by done. congruence.
      - rewrite list_insert_ge in Hatt by (by apply lookup_ge_None). congruence. }
    pose proof (live_insert present c Hc). rewrite (proj2 (Nat.ltb_lt _ _)) by lia.
    by rewrite (retry_complete _ _ c Hc Hatt).
Qed.

Lemma reconstruct_object_data `{!CollisionFree H} present out :
  erasure m = e -> reconstruct_object m present = Ok out -> out = data.
Proof.
  intros He. unfold reconstruct_object. rewrite He, Hrs0. intros Ho. cbn [rbind] in Ho. inv_ok Ho.
  destruct (attempt m rs present) as [o|err] eqn:Ea; [injection Ho as <-; by eapply attempt_sound|].
  destruct (_ <? _)%nat; [|done]. destruct (retry _ _ _ _) as [o|] eqn:Er; [|congruence].
  injection Ho as <-. by eapply retry_sound.
Qed.

End objects.

(** The slots of [present] hold the shards of [o], except that slot [c] may
    hold anything, and [k] of the others are there. *)
Definition one_bad_slot (o : EncodedObject) (present : list (option Shard)) (c : nat) : Prop :=
  length present = length (o_shards o) /\
  (forall i s, i <> c -> present !! i = Some (Some s) -> o_shards o !! i = Some s) /\
  k (o_scheme o) <= zlen (live_indices (<[c := None]> present)).

Lemma bad_slot_recoverable data e rs present c :
  data <> [] -> for_scheme e = Ok rs -> one_bad_slot (object data e rs) present c ->
  recoverable data rs present c.
Proof.
  intros Hdata Hrs (Hl & Hg & Hlive). destruct (scheme_counts e rs Hrs) as (? & ? & En & Ek).
  simpl in Hl, Hg, Hlive. split; [|unfold zlen in Hlive; lia]. split.
  - rewrite length_insert, Hl, (word_length data e rs) by done. done.
  - intros i s Hi. destruct (decide (i = c)) as [->|Hne].
    + destruct (decide (c < length present)%nat).
      * by rewrite list_lookup_insert_eq in Hi.
      * rewrite list_insert_ge in Hi by lia. apply lookup_lt_Some in Hi. lia.
    + rewrite list_lookup_insert_ne in Hi by done. by apply Hg.
Qed.

Lemma for_scheme_Ok e : 1 <= k e -> k e <= n e <= 255 -> exists rs, for_scheme e = Ok rs.
Proof.
  intros Hk Hn. unfold for_scheme, validate_scheme, rs_new.
  rewrite (proj2 (Z.eqb_neq _ _)), (proj2 (Z.ltb_ge (n e) _)) by lia. cbn [negb ensure rbind map_err].
  unfold parity_count, saturating_sub. rewrite (proj2 (Nat.eqb_neq _ _)) by lia. cbn [negb ensure rbind].
  unfold checked_add. rewrite (proj2 (Z.ltb_lt _ U64)) by lia. cbn [ok_or rbind].
  unfold MAX_TOTAL_SHARDS. rewrite (proj2 (Z.ltb_ge _ _)) by lia. simpl. eauto.
Qed.

(** C31: Storage round trip.  A non-empty object under a scheme with
    [1 <= k <= n <= 255] and stripes below 4 GiB encodes; its manifest is built
    and passes the check for untrusted manifests; and the object is read back
    from every set of slots in which [k] shards are genuine, also when one
    further slot holds corrupted bytes. *)
Theorem object_survives `{!CollisionFree H} (data : Shard) (e : ErasureScheme)
    (Hdata : data <> []) (Hk : 1 <= k e) (Hn : k e <= n e <= 255)
    (Hstripe : div_ceil (zlen data) (k e) < U32) :
  exists o m,
    encode_object data e = Ok o /\ to_manifest o = Ok m /\ validate_untrusted m = Ok tt /\
    forall present c, one_bad_slot o present c -> reconstruct_object m present = Ok data.
Proof.
  destruct (for_scheme_Ok e Hk Hn) as [rs Hrs].
  assert (Hs : Z.of_nat (stripe data rs) < U32).
  { pose proof (scheme_counts e rs Hrs) as (_ & _ & _ & Ek). unfold stripe. rewrite Ek, (Z2Nat.id (k e)) by lia. lia. }
  exists (object data e rs), (object_manifest data e rs).
  split; [by apply encode_object_eq|]. split; [by apply to_manifest_eq|]. split; [by apply manifest_valid|].
  intros present c Hbad.
  apply (reconstruct_object_Ok data e rs Hdata Hrs (object_manifest data e rs) eq_refl) with c; [|done|done|by apply (bad_slot_recoverable data e)].
  unfold content_size. simpl. rewrite (proj2 (Z.eqb_neq _ _)); [done|]. pose proof (data_positive data Hdata). lia.
Qed.

(** C32: Integrity of retrieval.  Whatever the slots hold, in whatever number,
    a successful reconstruction against the manifest of an object returns that
    object's bytes. *)
Theorem reconstruct_object_sound `{!CollisionFree H} (data : Shard) (e : ErasureScheme)
    (o : EncodedObject) (m : ContentManifest) (present : list (option Shard)) (out : Shard)
    (Henc : encode_object data e = Ok o) (Hman : to_manifest o = Ok m)
    (Hout : reconstruct_object m present = Ok out) :
  out = data.
Proof.
  assert (exists rs, for_scheme e = Ok rs /\ data <> []) as (rs & Hrs & Hne).
  { pose proof Henc as Hinv. unfold encode_object in Hinv. inv_ok Hinv. split_bool. eauto. }
  rewrite (encode_object_eq data e rs) in Henc by done. injection Henc as <-.
  destruct (to_manifest_shape data e rs) with m as (? & ? & ?); [done..|].
  by eapply (reconstruct_object_data data e rs).
Qed.

(** ** A stored object

    Twenty bytes under a four-of-seven scheme: three shards are lost in one
    run, in the other slot 1 is corrupted and two more are lost. *)
Module Demo.

Definition demo_data : Shard := map of_Z (seqZ 3 20).
Definition demo_scheme : ErasureScheme := mkScheme 4 7.

Definition demo_object : EncodedObject :=
  match encode_object demo_data demo_scheme with Ok o => o | Err _ => mkObject [] demo_scheme 0 end.
Definition demo_manifest : ContentManifest :=
  match to_manifest (H := framed_hash) demo_object with Ok m => m | Err _ => mkManifest [] [] 0 0 [] demo_scheme 0 Plaintext end.

Definition demo_present : list (option Shard) :=
  imap (fun i s => if bool_decide (i ∈ [0; 3; 6]%nat) then None else Some s) (o_shards demo_object).
Definition demo_corrupt : list (option Shard) :=
  imap (fun i s => if bool_decide (i ∈ [0; 3]%nat) then None
                   else if bool_decide (i = 1%nat) then Some (replicate 5 xff) else Some s) (o_shards demo_object).

Lemma demo_encode : encode_object demo_data demo_scheme = Ok demo_object.
Proof. vm_compute. reflexivity. Qed.
Lemma demo_to_manifest : to_manifest (H := framed_hash) demo_object = Ok demo_manifest.
Proof. vm_compute. reflexivity. Qed.
Lemma demo_reads : reconstruct_object (H := framed_hash) demo_manifest demo_corrupt = Ok demo_data.
Proof. vm_compute. reflexivity. Qed.
Lemma demo_stripe : div_ceil (zlen demo_data) (k demo_scheme) < U32.
Proof. vm_compute. reflexivity. Qed.

Lemma demo_genuine_live : (4 <=? length (live_indices demo_present))%nat = true.
Proof. vm_compute. reflexivity. Qed.

Definition demo_rs : ReedSolomon := mkRs 4 3 (generator_matrix 4 3).
Lemma demo_new : rs_new 4 3 = Ok demo_rs.
Proof. vm_compute. reflexivity. Qed.

Definition demo_shards : list Shard := take 4 (o_shards demo_object).
Definition demo_parity : list Shard := drop 4 (o_shards demo_object).
Lemma demo_parity_ok : encode_parity demo_rs demo_shards = Ok demo_parity.
Proof. vm_compute. reflexivity. Qed.
Lemma demo_lengths : Forall (fun s => length s = 5%nat) demo_shards.
Proof. apply (bool_decide_unpack _). vm_compute. exact I. Qed.
Lemma demo_slots i s :
  demo_present !! i = Some (Some s) -> (demo_shards ++ demo_parity) !! i = Some s.
Proof.
  unfold demo_shards, demo_parity. rewrite take_drop. unfold demo_present. rewrite list_lookup_imap.
  destruct (o_shards demo_object !! i) as [t|]; [|done]. simpl. by case_bool_decide; intros; simplify_eq.
Qed.

End Demo.

Lemma any_k_shards_reconstruct_witness :
  reconstruct Demo.demo_rs Demo.demo_present = Ok (Demo.demo_shards ++ Demo.demo_parity).
Proof.
  rewrite (any_k_shards_reconstruct 4 3 Demo.demo_rs Demo.demo_shards Demo.demo_parity 5 Demo.demo_present
             Demo.demo_new eq_refl Demo.demo_lengths ltac:(lia) Demo.demo_parity_ok eq_refl Demo.demo_slots).
  by rewrite Demo.demo_genuine_live.
Defined.

Lemma object_survives_witness :
  exists o m,
    encode_object Demo.demo_data Demo.demo_scheme = Ok o /\ to_manifest (H := framed_hash) o = Ok m /\
    validate_untrusted (H := framed_hash) m = Ok tt /\
    forall present c, one_bad_slot o present c -> reconstruct_object (H := framed_hash) m present = Ok Demo.demo_data.
Proof.
  apply (object_survives (H := framed_hash) (CollisionFree0 := framed_hash_inj) Demo.demo_data Demo.demo_scheme);
    [done|done|done|apply Demo.demo_stripe].
Defined.

Lemma reconstruct_object_sound_witness :
  exists out, reconstruct_object (H := framed_hash) Demo.demo_manifest Demo.demo_corrupt = Ok out /\ out = Demo.demo_data.
Proof.
  exists Demo.demo_data. split; [apply Demo.demo_reads|].
  apply (reconstruct_object_sound (H := framed_hash) (CollisionFree0 := framed_hash_inj) Demo.demo_data
    Demo.demo_scheme Demo.demo_object Demo.demo_manifest Demo.demo_corrupt Demo.demo_data
    Demo.demo_encode Demo.demo_to_manifest Demo.demo_reads).
Defined.

End ErasureObject.
