(* ===== verification/StorageDeal.v ===== *)
(** * Storage deals

    src/domain/storage_deal.rs: the registry of storage deals, retrieval
    challenges and reallocation tickets, with src/domain/storage_params.rs
    (domain parameters), src/storage/mobile_self.rs (self-hosting policies) and
    src/storage/lifecycle.rs (the life-cycle vocabulary).  A method on
    [&mut self] returns the new registry; it is unchanged on error.  The proof
    envelope codec, the STARK verifier and Keccak are the parameters of class
    [StorageBackend]. *)

From Stdlib Require Import ZArith Lia.
From Stdlib Require Import Strings.Byte.
From stdpp Require Import base tactics strings numbers pretty gmap sorting list.
From S2P Require Import Prelude Isa Hashing Gf256 Manifest Erasure.
Import Hashing Manifest Erasure.
Open Scope Z_scope.

Module StorageDeal.

(** ** Domain parameters *)

Definition DEFAULT_CHUNK_SIZE : Z := 262144.
Definition MAX_CHUNK_SIZE : Z := 16 * 1024 * 1024.
Definition MIN_CHUNK_SIZE : Z := 1024.

Record StorageDomainParams : Type := mkDomainParams {
  chunk_size : Z;
  max_committed_chunks : Z;
  challenge_interval : Z;
  min_operator_bond : Z;
}.

Definition validate_params (p : StorageDomainParams) : result unit string :=
  check? negb ((chunk_size p <? MIN_CHUNK_SIZE) || (MAX_CHUNK_SIZE <? chunk_size p)) else
    ("StorageDomainParams.chunk_size " +:+ pretty (chunk_size p) +:+ " out of range [" +:+
     pretty MIN_CHUNK_SIZE +:+ ", " +:+ pretty MAX_CHUNK_SIZE +:+ "]") in
  check? negb (max_committed_chunks p =? 0) else
    "StorageDomainParams.max_committed_chunks must be > 0" in
  check? negb (challenge_interval p =? 0) else
    "StorageDomainParams.challenge_interval must be > 0" in
  check? negb (min_operator_bond p =? 0) else
    "StorageDomainParams.min_operator_bond must be > 0" in
  Ok tt.

Definition default_params : StorageDomainParams :=
  mkDomainParams DEFAULT_CHUNK_SIZE 1000000 100 1000000.

Definition storage_params_bytes (p : StorageDomainParams) : bytes :=
  ascii_bytes "BDLM_STORAGE_V1" ++ u32_le (chunk_size p) ++ u64_le (max_committed_chunks p) ++
  u64_le (challenge_interval p) ++ u64_le (min_operator_bond p).

(** ** Self-hosting *)

Inductive MobileAvailabilityClass : Type := Opportunistic | Scheduled | AlwaysOnReplica.
Inductive ReplicaRecommendation : Type := SelfHostOnly | AddPaidReplica | RequirePaidReplica.

Record MobileSelfProfile : Type := mkProfile {
  profile_owner : Address;
  device_commitment : Hash32;
  availability : MobileAvailabilityClass;
  max_storage_bytes : Z;
  metered_network_ok : bool;
  battery_saver_aware : bool;
  last_seen_block : Z;
}.

Definition validate_profile (p : MobileSelfProfile) : result unit string :=
  check? negb (bool_decide (profile_owner p = zero_address)) else
    "MobileSelfProfile owner cannot be zero" in
  check? negb (bool_decide (device_commitment p = zero32)) else
    "MobileSelfProfile device_commitment cannot be zero" in
  check? negb (max_storage_bytes p =? 0) else
    "MobileSelfProfile max_storage_bytes must be >= 1" in
  Ok tt.

Definition recommendation_for_content (p : MobileSelfProfile) (size : Z) (critical : bool)
    : ReplicaRecommendation :=
  if critical then RequirePaidReplica
  else if max_storage_bytes p <? size then AddPaidReplica
  else match availability p with
       | AlwaysOnReplica => SelfHostOnly
       | Scheduled | Opportunistic => AddPaidReplica
       end.

Definition availability_label (p : MobileSelfProfile) : string :=
  match availability p with
  | Opportunistic => "self-hosted: available when device is online"
  | Scheduled => "self-hosted: available during scheduled windows"
  | AlwaysOnReplica => "replica-grade mobile node"
  end.

Record MobileSelfContentPolicy : Type := mkPolicy {
  policy_content_id : ContentId;
  policy_owner : Address;
  critical : bool;
  required_paid_replicas : Z;
  self_host_allowed : bool;
}.

Definition validate_against_profile (p : MobileSelfContentPolicy) (profile : MobileSelfProfile)
    : result unit string :=
  let? _ := validate_profile profile in
  check? bool_decide (policy_owner p = profile_owner profile) else
    "MobileSelfContentPolicy owner/profile mismatch" in
  check? negb (critical p && (required_paid_replicas p =? 0)) else
    "critical Mobile Self content requires paid replicas" in
  Ok tt.

(** ** Life-cycle vocabulary *)

Inductive StorageLifecycleState : Type :=
| LOpen | LProving | LChallenged | LSettled | LMissed | LSlashed | LReallocationPending
| LActiveReplacement | LUnderReplicated | LEscalatedFault | LExpired.

#[export] Instance lifecycle_eq_dec : EqDecision StorageLifecycleState.
Proof. solve_decision. Defined.

Definition is_terminal (s : StorageLifecycleState) : bool :=
  match s with
  | LSettled | LMissed | LActiveReplacement | LEscalatedFault | LExpired => true
  | _ => false
  end.

Definition can_transition_to (s next : StorageLifecycleState) : bool :=
  match s, next with
  | LOpen, LProving | LOpen, LExpired
  | LProving, LChallenged | LProving, LSettled | LProving, LExpired
  | LChallenged, LSettled | LChallenged, LMissed | LChallenged, LSlashed
  | LSlashed, LReallocationPending
  | LReallocationPending, LActiveReplacement | LReallocationPending, LUnderReplicated
  | LUnderReplicated, LActiveReplacement | LUnderReplicated, LEscalatedFault => true
  | _, _ => false
  end.

Inductive StorageLifecycleError : Type :=
| TerminalState (from to : StorageLifecycleState)
| InvalidTransition (from to : StorageLifecycleState).

Definition transition (from to : StorageLifecycleState)
    : result StorageLifecycleState StorageLifecycleError :=
  check? negb (is_terminal from) else TerminalState from to in
  check? can_transition_to from to else InvalidTransition from to in
  Ok to.

(** ** Deals *)

Inductive DealStatus : Type := Active | Slashed | Expired.
Inductive OperatorClass : Type := AlwaysOn | Mobile.

#[export] Instance deal_status_eq_dec : EqDecision DealStatus.
Proof. solve_decision. Defined.
#[export] Instance operator_class_eq_dec : EqDecision OperatorClass.
Proof. solve_decision. Defined.

Definition may_hold_primary (c : OperatorClass) : bool :=
  match c with AlwaysOn => true | Mobile => false end.

Definition MISSED_CHALLENGE_COOLDOWN_SECS : Z := 6 * 60 * 60.

Record StorageEconomicsParams : Type := mkEconomics {
  operator_bond : Z;
  fee_per_byte_epoch : Z;
}.

Definition FEE_RATE_SCALE : Z := 1000000000.

(** [total_fee]: [u128] arithmetic that saturates, rounded up, clamped to [u64]. *)
Definition total_fee (e : StorageEconomicsParams) (shard_bytes epochs : Z) : Z :=
  let scaled := saturating_mul U128 (saturating_mul U128 (fee_per_byte_epoch e) shard_bytes) epochs in
  let fee := div_ceil scaled FEE_RATE_SCALE in
  if fee <? U64 then fee else U64 - 1.

Definition default_merkle_depth : Z := 64.

Record StorageDeal : Type := mkDeal {
  merkle_proof : option bytes;
  storage_root : option Hash32;
  merkle_depth : Z;
  deal_id : Z;
  domain_id : Z;
  d_manifest : ContentId;
  d_shard : ContentId;
  operator : Address;
  economics : StorageEconomicsParams;
  shard_bytes : Z;
  replica_index : Z;
  deal_start_epoch : Z;
  deal_end_epoch : Z;
  status : DealStatus;
}.

Definition is_active (d : StorageDeal) : bool := bool_decide (status d = Active).
Definition deal_total_fee (d : StorageDeal) (epochs : Z) : Z :=
  total_fee (economics d) (shard_bytes d) epochs.
Definition duration_epochs (d : StorageDeal) : Z :=
  saturating_sub (deal_end_epoch d) (deal_start_epoch d).

Definition set_status (s : DealStatus) (d : StorageDeal) : StorageDeal :=
  mkDeal (merkle_proof d) (storage_root d) (merkle_depth d) (deal_id d) (domain_id d) (d_manifest d)
    (d_shard d) (operator d) (economics d) (shard_bytes d) (replica_index d) (deal_start_epoch d)
    (deal_end_epoch d) s.
Definition set_end (e : Z) (d : StorageDeal) : StorageDeal :=
  mkDeal (merkle_proof d) (storage_root d) (merkle_depth d) (deal_id d) (domain_id d) (d_manifest d)
    (d_shard d) (operator d) (economics d) (shard_bytes d) (replica_index d) (deal_start_epoch d)
    e (status d).

(** ** Challenges *)

Record RetrievalChallengeRequest : Type := mkRequest {
  q_deal : Z;
  q_start : Z;
  q_end : Z;
  q_epoch : Z;
  q_deadline : Z;
  q_bond : Z;
  q_opener : option Address;
  q_signature : option bytes;
}.

Record RetrievalChallenge : Type := mkChallenge {
  challenge_id : Z;
  c_deal : Z;
  c_shard : ContentId;
  byte_start : Z;
  byte_end : Z;
  challenge_epoch : Z;
  deadline_epoch : Z;
  opener : Address;
  opener_bond : Z;
}.

Inductive ChallengeOutcome : Type := Answered | Mismatched | Missed.
#[export] Instance outcome_eq_dec : EqDecision ChallengeOutcome.
Proof. solve_decision. Defined.

Record ChallengeResult : Type := mkResult {
  r_challenge : Z;
  r_deal : Z;
  outcome : ChallengeOutcome;
  finalized_epoch : Z;
  slashed_bond : Z;
}.

Record StorageChallengeProofContext : Type := mkContext {
  x_chain_id : Z;
  x_domain_id : Z;
  x_deal_id : Z;
  x_manifest_id : ContentId;
  x_shard_id : ContentId;
  x_replica_index : Z;
  x_operator : Address;
  x_challenge_id : Z;
  x_byte_start : Z;
  x_byte_end : Z;
  x_challenge_epoch : Z;
  x_deadline_epoch : Z;
  x_opener : Address;
  x_responder : Address;
  x_response_epoch : Z;
}.

Definition from_registry (chain_id : Z) (c : RetrievalChallenge) (d : StorageDeal)
    (responder : Address) (response_epoch : Z) : StorageChallengeProofContext :=
  mkContext chain_id (domain_id d) (deal_id d) (d_manifest d) (d_shard d) (replica_index d)
    (operator d) (challenge_id c) (byte_start c) (byte_end c) (challenge_epoch c)
    (deadline_epoch c) (opener c) responder response_epoch.

Record CodingAudit : Type := mkAudit {
  a_manifest : ContentId;
  parity_index : Z;
  column : Z;
}.

(** ** Reallocation *)

Definition STORAGE_REPLICATION_TARGET : Z := 3.
Definition REALLOCATION_ACCEPTANCE_EPOCHS : Z := 4.
Definition RENEWAL_WINDOW_EPOCHS : Z := 4.
Definition PERMANENCE_FLOOR_DEFAULT : Z := 1.

Inductive ReallocationStatus : Type :=
| Pending | ActiveReplacement | UnderReplicated | EscalatedFault | Cancelled.
#[export] Instance reallocation_status_eq_dec : EqDecision ReallocationStatus.
Proof. solve_decision. Defined.

Record StorageReallocationTicket : Type := mkTicket {
  ticket_id : Z;
  failed_deal_id : Z;
  replacement_deal_id : option Z;
  t_domain : Z;
  t_manifest : ContentId;
  t_shard : ContentId;
  t_replica : Z;
  slashed_operator : Address;
  opened_epoch : Z;
  t_deadline : Z;
  t_status : ReallocationStatus;
}.

Definition set_ticket_status (s : ReallocationStatus) (t : StorageReallocationTicket)
    : StorageReallocationTicket :=
  mkTicket (ticket_id t) (failed_deal_id t) (replacement_deal_id t) (t_domain t) (t_manifest t)
    (t_shard t) (t_replica t) (slashed_operator t) (opened_epoch t) (t_deadline t) s.
Definition set_replacement (id : Z) (t : StorageReallocationTicket) : StorageReallocationTicket :=
  mkTicket (ticket_id t) (failed_deal_id t) (Some id) (t_domain t) (t_manifest t)
    (t_shard t) (t_replica t) (slashed_operator t) (opened_epoch t) (t_deadline t) (t_status t).

Inductive StorageError : Type :=
| UnknownShard (manifest_id shard_id : ContentId)
| InvalidManifest (reason : string)
| InvalidEpochRange (start fin : Z)
| InsufficientBond (required provided : Z)
| ZeroOpenerBond
| OpenerBondBelowRangeCost (range_len required provided : Z)
| UnknownDeal (id : Z)
| UnknownChallenge (id : Z)
| DealNotActive (id : Z)
| ExpiryWouldStrandContent (id : Z) (manifest_id shard_id : ContentId) (remaining_carriers floor : Z)
| NotTheOperator (expected provided : Address)
| DeadlineElapsed (deadline now_epoch : Z)
| ChallengeAlreadyResolved (id : Z)
| UnknownManifest (id : ContentId)
| SelfHostRefusedByPolicy (content_id : ContentId) (reason : string)
| NoParityToAudit (manifest_id : ContentId)
| ParityColumnMismatch (manifest_id : ContentId) (parity_index column : Z)
| MerkleProofRequired
| InvalidMerkleProof (reason : string)
| TooManyOpenChallenges (id max : Z)
| TooManyOpenChallengesPerOperator (operator : Address) (max : Z)
| ChallengeRateLimited (operator : Address) (manifest_id : ContentId) (minimum_next_epoch : Z)
| UnknownReallocationTicket (id : Z)
| ReallocationNotPending (id : Z)
| ReplacementOperatorMatchesSlashed (operator : Address)
| OperatorInCooldown (operator : Address) (until_unix_secs : Z)
| MobileOperatorCannotHoldPrimary (operator : Address).

(** ** The registry *)

Record StorageRegistry : Type := mkRegistry {
  next_deal_id : Z;
  next_challenge_id : Z;
  next_reallocation_id : Z;
  deals : gmap Z StorageDeal;
  deals_by_shard : gmap (ContentId * ContentId) (list Z);
  challenges : gmap Z RetrievalChallenge;
  results : gmap Z ChallengeResult;
  reallocations : gmap Z StorageReallocationTicket;
  manifests : gmap ContentId ContentManifest;
  self_host_policies : gmap ContentId MobileSelfContentPolicy;
  operator_cooldowns : gmap Address Z;
  operator_classes : gmap Address OperatorClass;
}.

Definition new : StorageRegistry := mkRegistry 0 0 0 ∅ ∅ ∅ ∅ ∅ ∅ ∅ ∅ ∅.

(** [.values()] of a [BTreeMap] keyed by an integer: in key order. *)
Definition key_le {A} (x y : Z * A) : Prop := x.1 <= y.1.
#[export] Instance key_le_dec {A} (x y : Z * A) : Decision (key_le x y).
Proof. unfold key_le. apply _. Defined.
Definition values {A} (m : gmap Z A) : list A := map snd (merge_sort key_le (map_to_list m)).

(** [.iter()] of a [BTreeMap] keyed by an identifier. *)
Definition entry_le {A} (x y : ContentId * A) : Prop := bytes_le x.1 y.1.
#[export] Instance entry_le_dec {A} (x y : ContentId * A) : Decision (entry_le x y).
Proof. unfold entry_le. apply _. Defined.
Definition entries {A} (m : gmap ContentId A) : list (ContentId * A) :=
  merge_sort entry_le (map_to_list m).

(** The derived order on pairs of identifiers. *)
Definition pair_le (x y : ContentId * ContentId) : Prop :=
  (if bool_decide (x.1 = y.1) then bytes_leb x.2 y.2 else bytes_leb x.1 y.1) = true.
#[export] Instance pair_le_dec x y : Decision (pair_le x y).
Proof. unfold pair_le. apply _. Defined.

Definition is_empty (r : StorageRegistry) : bool :=
  (next_deal_id r =? 0) && (next_challenge_id r =? 0) && (next_reallocation_id r =? 0) &&
  bool_decide (deals r = ∅ /\ deals_by_shard r = ∅ /\ challenges r = ∅ /\ results r = ∅ /\
               reallocations r = ∅ /\ operator_cooldowns r = ∅ /\ operator_classes r = ∅ /\
               manifests r = ∅).

Definition with_deals (m : gmap Z StorageDeal) (r : StorageRegistry) : StorageRegistry :=
  mkRegistry (next_deal_id r) (next_challenge_id r) (next_reallocation_id r) m (deals_by_shard r)
    (challenges r) (results r) (reallocations r) (manifests r) (self_host_policies r)
    (operator_cooldowns r) (operator_classes r).
Definition with_results (m : gmap Z ChallengeResult) (r : StorageRegistry) : StorageRegistry :=
  mkRegistry (next_deal_id r) (next_challenge_id r) (next_reallocation_id r) (deals r) (deals_by_shard r)
    (challenges r) m (reallocations r) (manifests r) (self_host_policies r)
    (operator_cooldowns r) (operator_classes r).
Definition with_reallocations (n : Z) (m : gmap Z StorageReallocationTicket) (r : StorageRegistry)
    : StorageRegistry :=
  mkRegistry (next_deal_id r) (next_challenge_id r) n (deals r) (deals_by_shard r)
    (challenges r) (results r) m (manifests r) (self_host_policies r)
    (operator_cooldowns r) (operator_classes r).
Definition with_manifests (m : gmap ContentId ContentManifest) (r : StorageRegistry) : StorageRegistry :=
  mkRegistry (next_deal_id r) (next_challenge_id r) (next_reallocation_id r) (deals r) (deals_by_shard r)
    (challenges r) (results r) (reallocations r) m (self_host_policies r)
    (operator_cooldowns r) (operator_classes r).
Definition with_policies (m : gmap ContentId MobileSelfContentPolicy) (r : StorageRegistry)
    : StorageRegistry :=
  mkRegistry (next_deal_id r) (next_challenge_id r) (next_reallocation_id r) (deals r) (deals_by_shard r)
    (challenges r) (results r) (reallocations r) (manifests r) m
    (operator_cooldowns r) (operator_classes r).
Definition with_cooldowns (m : gmap Address Z) (r : StorageRegistry) : StorageRegistry :=
  mkRegistry (next_deal_id r) (next_challenge_id r) (next_reallocation_id r) (deals r) (deals_by_shard r)
    (challenges r) (results r) (reallocations r) (manifests r) (self_host_policies r)
    m (operator_classes r).
Definition with_classes (m : gmap Address OperatorClass) (r : StorageRegistry) : StorageRegistry :=
  mkRegistry (next_deal_id r) (next_challenge_id r) (next_reallocation_id r) (deals r) (deals_by_shard r)
    (challenges r) (results r) (reallocations r) (manifests r) (self_host_policies r)
    (operator_cooldowns r) m.

(** ** Queries *)

Definition deals_for_shard (r : StorageRegistry) (mid sid : ContentId) : list StorageDeal :=
  match deals_by_shard r !! (mid, sid) with
  | Some ids => omap (fun id => deals r !! id) ids
  | None => []
  end.

Definition deals_for_manifest (r : StorageRegistry) (mid : ContentId) : list StorageDeal :=
  filter (fun d => d_manifest d = mid) (values (deals r)).

Definition active_replica_count (r : StorageRegistry) (mid sid : ContentId) : Z :=
  zlen (filter (fun d => is_active d = true) (deals_for_shard r mid sid)).

Definition under_replicated_shards (r : StorageRegistry) : list (ContentId * ContentId * Z) :=
  omap (fun key =>
    let active := active_replica_count r key.1 key.2 in
    if active <? STORAGE_REPLICATION_TARGET then Some (key.1, key.2, active) else None)
    (merge_sort pair_le (map fst (map_to_list (deals_by_shard r)))).

Definition live_shard_count (r : StorageRegistry) (mid : ContentId) : Z :=
  match manifests r !! mid with
  | None => 0
  | Some m => zlen (filter (fun s => 0 < active_replica_count r mid (shard_id s)) (shards m)) mod U32
  end.

Definition objects_needing_repair (r : StorageRegistry) (margin : Z) : list (ContentId * Z * Z) :=
  omap (fun e => let live := live_shard_count r e.1 in
                 if needs_repair e.2 live margin then Some (e.1, live, k (erasure e.2)) else None)
    (entries (manifests r)).

Definition objects_below_own_repair_margin (r : StorageRegistry) : list (ContentId * Z * Z * Z) :=
  omap (fun e => let live := live_shard_count r e.1 in
                 let margin := manifest_repair_margin e.2 in
                 if needs_repair e.2 live margin then Some (e.1, live, k (erasure e.2), margin) else None)
    (entries (manifests r)).

Definition unrecoverable_objects (r : StorageRegistry) : list (ContentId * Z * Z) :=
  omap (fun e => let live := live_shard_count r e.1 in
                 if negb (is_recoverable e.2 live) then Some (e.1, live, k (erasure e.2)) else None)
    (entries (manifests r)).

Definition permanence_floor (r : StorageRegistry) (mid : ContentId) : Z :=
  match manifests r !! mid with
  | Some m => Z.max (k (erasure m)) 1
  | None => PERMANENCE_FLOOR_DEFAULT
  end.

(** [!self.results.contains_key(&c.challenge_id)] *)
Definition unresolved (r : StorageRegistry) (c : RetrievalChallenge) : bool :=
  bool_decide (results r !! challenge_id c = None).

Definition lifecycle_state (r : StorageRegistry) (id : Z) : option StorageLifecycleState :=
  d ← deals r !! id;
  match status d with
  | Slashed =>
      match (fun p => t_status p.2) <$> list_find (fun t => failed_deal_id t = id) (values (reallocations r)) with
      | Some Pending => Some LReallocationPending
      | Some UnderReplicated => Some LUnderReplicated
      | Some EscalatedFault => Some LEscalatedFault
      | _ => Some LSlashed
      end
  | Expired => Some LExpired
  | Active =>
      if existsb (fun t => bool_decide (replacement_deal_id t = Some id) &&
                           bool_decide (t_status t = ActiveReplacement)) (values (reallocations r))
      then Some LActiveReplacement
      else if existsb (fun c => (c_deal c =? id) && unresolved r c) (values (challenges r))
      then Some LChallenged
      else if bool_decide (is_Some (merkle_proof d)) || bool_decide (is_Some (storage_root d))
      then Some LProving
      else Some LOpen
  end.

(** ** Self-hosting policies, cooldowns and classes *)

Definition declare_self_host_policy (r : StorageRegistry) (policy : MobileSelfContentPolicy)
    (profile : MobileSelfProfile) : result StorageRegistry StorageError :=
  let? _ := map_err (SelfHostRefusedByPolicy (policy_content_id policy))
              (validate_against_profile policy profile) in
  Ok (with_policies (<[policy_content_id policy := policy]> (self_host_policies r)) r).

Definition check_self_host_allowed (r : StorageRegistry) (mid content_id : ContentId)
    : result unit StorageError :=
  match self_host_policies r !! content_id with
  | None => Ok tt
  | Some policy =>
      check? self_host_allowed policy else
        SelfHostRefusedByPolicy content_id "the owner turned self-hosting off for this content" in
      let paid := active_replica_count r mid content_id in
      let required := required_paid_replicas policy in
      check? negb (paid <? required) else
        SelfHostRefusedByPolicy content_id
          ("the owner asked for " +:+ pretty required +:+ " paid replica(s) before self-hosting and " +:+
           pretty paid +:+ " are open") in
      Ok tt
  end.

Definition begin_operator_cooldown (r : StorageRegistry) (op : Address) (now_unix_secs : Z)
    : StorageRegistry * Z :=
  let until := saturating_add U64 now_unix_secs MISSED_CHALLENGE_COOLDOWN_SECS in
  let entry := Z.max (default until (operator_cooldowns r !! op)) until in
  (with_cooldowns (<[op := entry]> (operator_cooldowns r)) r, entry).

Definition operator_cooldown_until (r : StorageRegistry) (op : Address) (now_unix_secs : Z)
    : option Z :=
  until ← operator_cooldowns r !! op;
  if now_unix_secs <? until then Some until else None.

Definition prune_expired_cooldowns (r : StorageRegistry) (now_unix_secs : Z)
    : StorageRegistry * Z :=
  let kept := filter (fun e => now_unix_secs < e.2) (operator_cooldowns r) in
  (with_cooldowns kept r, Z.of_nat (base.size (operator_cooldowns r)) - Z.of_nat (base.size kept)).

Definition set_operator_class (r : StorageRegistry) (op : Address) (c : OperatorClass) : StorageRegistry :=
  with_classes (<[op := c]> (operator_classes r)) r.

Definition operator_class (r : StorageRegistry) (op : Address) : OperatorClass :=
  default AlwaysOn (operator_classes r !! op).

(** First writer wins. *)
Definition register_manifest (r : StorageRegistry) (m : ContentManifest) : StorageRegistry :=
  match manifests r !! manifest_id m with
  | Some _ => r
  | None => with_manifests (<[manifest_id m := m]> (manifests r)) r
  end.

(** ** The proof backend

    What the registry calls and the tree does not contain: the bincode decoder
    of a [ProofEnvelope], the STARK verifier of the default adapter, Keccak-256
    and the default chain identifier. *)

Record ProofEnvelope : Type := mkEnvelope {
  proof_format_version : Z;
  backend : string;
  p3_version : string;
  fri_params_id : string;
  public_inputs_hash : Hash32;
  proof_bytes : bytes;
  degree_bits : Z;
}.

Record ExecutionPublicInputs : Type := mkInputs {
  i_chain_id : Z;
  i_program_hash : Hash32;
  i_initial_state_root : Hash32;
  i_final_state_root : Hash32;
  i_sender : Z;
  i_nonce : Z;
  i_block_height : Z;
  i_gas_limit : Z;
  i_gas_used : Z;
  i_exit_code : Z;
  i_trace_len : Z;
  i_event_digest : Hash32;
}.

Class StorageBackend : Type := {
  deserialize_envelope : bytes -> result ProofEnvelope string;
  adapter_verify : ProofEnvelope -> ExecutionPublicInputs -> list Z -> result unit string;
  keccak256 : bytes -> Hash32;
  DEFAULT_CHAIN_ID : Z;
}.

Section operations.
Context `{H : FieldHash} `{B : StorageBackend}.

Definition digest (x : StorageChallengeProofContext) (root : Hash32) (range_hash : ContentId) : Hash32 :=
  keccak256 (ascii_bytes "BDLM_STORAGE_CHALLENGE_CONTEXT_V1" ++ u64_le (x_chain_id x) ++
    u32_le (x_domain_id x) ++ u64_le (x_deal_id x) ++ x_manifest_id x ++ x_shard_id x ++
    [x_replica_index x] ++ x_operator x ++ u64_le (x_challenge_id x) ++ u64_le (x_byte_start x) ++
    u64_le (x_byte_end x) ++ u64_le (x_challenge_epoch x) ++ u64_le (x_deadline_epoch x) ++
    x_opener x ++ x_responder x ++ u64_le (x_response_epoch x) ++ root ++ range_hash).

Definition storage_challenge_program : list Z :=
  [Isa.encode (Isa.mkInstruction Isa.OpVerifyMerkle 1 2 3 256);
   Isa.encode (Isa.mkInstruction Isa.OpHalt 0 0 0 0)].

Definition storage_challenge_expected_program_and_inputs (x : StorageChallengeProofContext)
    (root : Hash32) (range_hash : ContentId) : list Z * ExecutionPublicInputs :=
  (storage_challenge_program,
   mkInputs (x_chain_id x) (keccak256 (concat (map u64_le storage_challenge_program))) root range_hash
     (le_decode (take 8 (x_responder x))) (x_challenge_id x) (x_response_epoch x) 1000000 0 0 66
     (digest x root range_hash)).

Definition verify_answer_challenge_zk_proof_for_chain (x : StorageChallengeProofContext)
    (root : Hash32) (range_hash : ContentId) (proof : bytes) : result unit StorageError :=
  let? envelope := map_err (fun e => InvalidMerkleProof ("failed to deserialize ProofEnvelope: " +:+ e))
                     (deserialize_envelope proof) in
  let '(program, inputs) := storage_challenge_expected_program_and_inputs x root range_hash in
  map_err (fun e => InvalidMerkleProof ("STARK proof verification failed: " +:+ e))
    (adapter_verify envelope inputs program).

Definition storage_challenge_proofs_are_checkable : bool := false.

(** The context-free verifier is disabled. *)
Definition verify_answer_challenge_zk_proof (root : Hash32) (range_hash : ContentId) (proof : bytes)
    : result unit StorageError :=
  Err (InvalidMerkleProof "context-free storage challenge verification is disabled").

Definition validate_merkle_proof_format (proof : bytes) (root : Hash32) : result unit StorageError :=
  check? negb (zlen proof <? 64) else InvalidMerkleProof "proof too short (< 64 bytes)" in
  match deserialize_envelope proof with
  | Ok envelope =>
      check? negb (bool_decide (proof_bytes envelope = [])) else
        InvalidMerkleProof "ProofEnvelope.proof_bytes is empty" in
      Ok tt
  | Err e => Err (InvalidMerkleProof ("failed to deserialize ProofEnvelope: " +:+ e))
  end.

(** ** Opening a deal *)

Definition validate_shard_membership (m : ContentManifest) (sid : ContentId) : result unit StorageError :=
  match shard m sid with
  | Some _ => Ok tt
  | None => Err (UnknownShard (manifest_id m) sid)
  end.

Record DealTerms : Type := mkTerms {
  o_domain : Z;
  o_shard : ContentId;
  o_operator : Address;
  o_replica : Z;
  o_start : Z;
  o_end : Z;
  o_economics : StorageEconomicsParams;
  o_proof : option bytes;
  o_root : option Hash32;
}.

(** [self.deals.insert(..)] and the push to the shard index. *)
Definition add_deal (r : StorageRegistry) (d : StorageDeal) : StorageRegistry :=
  let key := (d_manifest d, d_shard d) in
  mkRegistry (wrapping_add U64 (next_deal_id r) 1) (next_challenge_id r) (next_reallocation_id r)
    (<[deal_id d := d]> (deals r))
    (<[key := default [] (deals_by_shard r !! key) ++ [deal_id d]]> (deals_by_shard r))
    (challenges r) (results r) (reallocations r) (manifests r) (self_host_policies r)
    (operator_cooldowns r) (operator_classes r).

Definition open_deal (r : StorageRegistry) (m : ContentManifest) (a : DealTerms)
    (p : StorageDomainParams) : result (StorageRegistry * Z) StorageError :=
  let? proof := ok_or (o_proof a) MerkleProofRequired in
  let? root := ok_or (o_root a) MerkleProofRequired in
  let? _ := validate_merkle_proof_format proof root in
  check? o_start a <? o_end a else InvalidEpochRange (o_start a) (o_end a) in
  check? negb (operator_bond (o_economics a) <? min_operator_bond p) else
    InsufficientBond (min_operator_bond p) (operator_bond (o_economics a)) in
  check? negb ((o_replica a =? 0) && negb (may_hold_primary (operator_class r (o_operator a)))) else
    MobileOperatorCannotHoldPrimary (o_operator a) in
  let? _ := if bool_decide (operator_class r (o_operator a) = Mobile)
            then check_self_host_allowed r (manifest_id m) (o_shard a) else Ok tt in
  let? _ := map_err InvalidManifest (validate_untrusted m) in
  let? _ := validate_shard_membership m (o_shard a) in
  let? s := ok_or (shard m (o_shard a)) (UnknownShard (manifest_id m) (o_shard a)) in
  let r := register_manifest r m in
  let d := mkDeal (o_proof a) (o_root a) 64 (next_deal_id r) (o_domain a) (manifest_id m) (o_shard a)
             (o_operator a) (o_economics a) (size s) (o_replica a) (o_start a) (o_end a) Active in
  Ok (add_deal r d, deal_id d).

(** ** Challenges *)

Definition MAX_OPEN_CHALLENGES_PER_DEAL : Z := 10.
Definition OPENER_BOND_PER_KIB : Z := 1.
Definition MIN_OPENER_BOND : Z := 1.
Definition MAX_OPEN_CHALLENGES_PER_OPERATOR : Z := 16.
Definition MIN_OPERATOR_MANIFEST_CHALLENGE_EPOCHS : Z := 4.

Definition required_opener_bond (range_len : Z) : Z :=
  Z.max MIN_OPENER_BOND (saturating_mul U64 (div_ceil range_len 1024) OPENER_BOND_PER_KIB).

(** The earliest epoch each earlier challenge of this operator and manifest
    leaves free. *)
Definition next_epochs (r : StorageRegistry) (op : Address) (mid : ContentId) : list Z :=
  omap (fun c =>
    d ← deals r !! c_deal c;
    if bool_decide (operator d = op) && bool_decide (d_manifest d = mid)
    then Some (saturating_add U64 (challenge_epoch c) MIN_OPERATOR_MANIFEST_CHALLENGE_EPOCHS)
    else None) (values (challenges r)).

(** [.max()] *)
Definition list_max (l : list Z) : option Z :=
  match l with [] => None | x :: l => Some (foldl Z.max x l) end.

Definition open_count (r : StorageRegistry) (id : Z) : Z :=
  zlen (filter (fun c => c_deal c = id /\ unresolved r c = true) (values (challenges r))).

Definition operator_open (r : StorageRegistry) (op : Address) : Z :=
  zlen (filter (fun c => unresolved r c = true /\ (operator <$> deals r !! c_deal c) = Some op)
          (values (challenges r))).

Definition add_challenge (r : StorageRegistry) (c : RetrievalChallenge) : StorageRegistry :=
  mkRegistry (next_deal_id r) (wrapping_add U64 (next_challenge_id r) 1) (next_reallocation_id r)
    (deals r) (deals_by_shard r) (<[challenge_id c := c]> (challenges r)) (results r)
    (reallocations r) (manifests r) (self_host_policies r) (operator_cooldowns r) (operator_classes r).

Definition open_challenge (r : StorageRegistry) (id start fin epoch deadline : Z)
    (who : Address) (bond : Z) : result (StorageRegistry * Z) StorageError :=
  check? negb (bond =? 0) else ZeroOpenerBond in
  check? start <? fin else InvalidEpochRange start fin in
  let range_len := fin - start in
  let required := required_opener_bond range_len in
  check? negb (bond <? required) else OpenerBondBelowRangeCost range_len required bond in
  check? epoch <? deadline else InvalidEpochRange epoch deadline in
  let? d := ok_or (deals r !! id) (UnknownDeal id) in
  check? is_active d else DealNotActive id in
  let? _ := match list_max (next_epochs r (operator d) (d_manifest d)) with
            | Some minimum =>
                check? negb (epoch <? minimum) else
                  ChallengeRateLimited (operator d) (d_manifest d) minimum in Ok tt
            | None => Ok tt
            end in
  check? negb (MAX_OPEN_CHALLENGES_PER_DEAL <=? open_count r id) else
    TooManyOpenChallenges id MAX_OPEN_CHALLENGES_PER_DEAL in
  check? negb (MAX_OPEN_CHALLENGES_PER_OPERATOR <=? operator_open r (operator d)) else
    TooManyOpenChallengesPerOperator (operator d) MAX_OPEN_CHALLENGES_PER_OPERATOR in
  let c := mkChallenge (next_challenge_id r) id (d_shard d) start fin epoch deadline who bond in
  Ok (add_challenge r c, challenge_id c).

(** The input of [derive_challenge_range], flattened. *)
Definition derive_challenge_range (entropy : Hash32) (d : StorageDeal) (m : ContentManifest)
    (who : Address) (epoch deadline requested_len cid : Z) : result (Z * Z) StorageError :=
  check? negb (requested_len =? 0) else InvalidEpochRange 0 0 in
  let? s := ok_or (shard m (d_shard d)) (UnknownShard (manifest_id m) (d_shard d)) in
  let shard_size := size s in
  let range_len := Z.min requested_len shard_size in
  let? range_count := ok_or (last_start ← checked_sub shard_size range_len; checked_add U64 last_start 1)
                        (InvalidEpochRange 0 shard_size) in
  let h := hash_fields_bytes [ascii_bytes "BDLM_STORAGE_RANDOM_CHALLENGE_RANGE_V1"; entropy;
             u64_le (deal_id d); u32_le (domain_id d); d_manifest d; d_shard d; [replica_index d];
             operator d; who; u64_le epoch; u64_le deadline; u64_le requested_len; u64_le cid] in
  let offset := le_decode (take 8 h) mod range_count in
  Ok (offset, offset + range_len).

Definition open_challenge_with_entropy (r : StorageRegistry) (q : RetrievalChallengeRequest)
    (who : Address) (entropy : Hash32) : result (StorageRegistry * Z) StorageError :=
  check? q_start q <? q_end q else InvalidEpochRange (q_start q) (q_end q) in
  let requested_len := q_end q - q_start q in
  let? d := ok_or (deals r !! q_deal q) (UnknownDeal (q_deal q)) in
  let? m := ok_or (manifests r !! d_manifest d) (UnknownManifest (d_manifest d)) in
  let? (start, fin) := derive_challenge_range entropy d m who (q_epoch q) (q_deadline q)
                          requested_len (next_challenge_id r) in
  open_challenge r (q_deal q) start fin (q_epoch q) (q_deadline q) who (q_bond q).

(** ** Coding audits *)

(** [.map(|s| s.size).min().unwrap_or(0)] *)
Definition min_size (m : ContentManifest) : Z :=
  match shards m with
  | [] => 0
  | s :: l => foldl Z.min (size s) (map size l)
  end.

Definition derive_coding_audit (entropy : Hash32) (m : ContentManifest) (cid : Z)
    : result CodingAudit StorageError :=
  let parity := parity_count (erasure m) in
  check? negb (parity =? 0) else NoParityToAudit (manifest_id m) in
  let columns := min_size m in
  check? negb (columns =? 0) else NoParityToAudit (manifest_id m) in
  let h := hash_fields_bytes [ascii_bytes "BDLM_STORAGE_CODING_AUDIT_V1"; entropy; manifest_id m;
             u64_le cid; u32_le (k (erasure m)); u32_le (n (erasure m))] in
  Ok (mkAudit (manifest_id m) (le_decode (take 8 h) mod parity)
        (le_decode (take 8 (drop 8 h)) mod columns)).

Definition verify_coding_audit (r : StorageRegistry) (a : CodingAudit) (data_column : list Byte.byte)
    (parity_byte : Byte.byte) : result unit StorageError :=
  let? m := ok_or (manifests r !! a_manifest a) (UnknownManifest (a_manifest a)) in
  let? coder := map_err (fun _ => NoParityToAudit (a_manifest a)) (for_scheme (erasure m)) in
  let i := Z.to_nat (parity_index a) in
  check? bool_decide (is_Some (parity_coefficient coder i 0)) else NoParityToAudit (a_manifest a) in
  check? column_is_correctly_encoded coder i data_column parity_byte else
    ParityColumnMismatch (a_manifest a) (parity_index a) (column a) in
  Ok tt.

(** ** Resolving a challenge *)

Definition answer_challenge_with_chain_id (r : StorageRegistry) (chain_id cid : Z)
    (range_hash : ContentId) (responder : Address) (response_epoch : Z) (proof : option bytes)
    : result (StorageRegistry * ChallengeResult) StorageError :=
  check? negb (bool_decide (range_hash = zero32)) else
    InvalidMerkleProof "range_hash must be non-zero (empty hash rejected)" in
  check? bool_decide (results r !! cid = None) else ChallengeAlreadyResolved cid in
  let? c := ok_or (challenges r !! cid) (UnknownChallenge cid) in
  let? d := ok_or (deals r !! c_deal c) (UnknownDeal (c_deal c)) in
  check? is_active d else DealNotActive (deal_id d) in
  check? bool_decide (responder = operator d) else NotTheOperator (operator d) responder in
  check? negb (deadline_epoch c <? response_epoch) else
    DeadlineElapsed (deadline_epoch c) response_epoch in
  let verification :=
    match storage_root d, proof with
    | Some root, Some proof =>
        if negb storage_challenge_proofs_are_checkable then Ok tt
        else verify_answer_challenge_zk_proof_for_chain
               (from_registry chain_id c d responder response_epoch) root range_hash proof
    | Some _, None =>
        Err (InvalidMerkleProof "ZK proof (ProofEnvelope) is mandatory for storage challenge verification")
    | None, _ => Ok tt
    end in
  match verification with
  | Ok _ =>
      let res := mkResult cid (deal_id d) Answered response_epoch 0 in
      Ok (with_results (<[cid := res]> (results r)) r, res)
  | Err _ =>
      let? d' := ok_or (deals r !! deal_id d) (UnknownDeal (deal_id d)) in
      let res := mkResult cid (deal_id d) Mismatched response_epoch (operator_bond (economics d')) in
      let r := with_deals (<[deal_id d := set_status Slashed d']> (deals r)) r in
      Ok (with_results (<[cid := res]> (results r)) r, res)
  end.

Definition answer_challenge (r : StorageRegistry) (cid : Z) (range_hash : ContentId)
    (responder : Address) (response_epoch : Z) (proof : option bytes)
    : result (StorageRegistry * ChallengeResult) StorageError :=
  answer_challenge_with_chain_id r DEFAULT_CHAIN_ID cid range_hash responder response_epoch proof.

Definition has_ticket (r : StorageRegistry) (id : Z) : bool :=
  existsb (fun t => failed_deal_id t =? id) (values (reallocations r)).

Definition open_ticket (r : StorageRegistry) (d : StorageDeal) (id : Z) (slashed : Address)
    (now_epoch : Z) : StorageRegistry :=
  let tid := next_reallocation_id r in
  let t := mkTicket tid id None (domain_id d) (d_manifest d) (d_shard d) (replica_index d) slashed
             now_epoch (saturating_add U64 now_epoch REALLOCATION_ACCEPTANCE_EPOCHS) Pending in
  with_reallocations (saturating_add U64 tid 1) (<[tid := t]> (reallocations r)) r.

Definition finalize_missed_challenge (r : StorageRegistry) (cid now_epoch : Z)
    : result (StorageRegistry * ChallengeResult) StorageError :=
  check? bool_decide (results r !! cid = None) else ChallengeAlreadyResolved cid in
  let? c := ok_or (challenges r !! cid) (UnknownChallenge cid) in
  check? negb (now_epoch <=? deadline_epoch c) else InvalidEpochRange now_epoch (deadline_epoch c) in
  let id := c_deal c in
  let? d := ok_or (deals r !! id) (UnknownDeal id) in
  let r := with_deals (<[id := set_status Slashed d]> (deals r)) r in
  let r := if has_ticket r id then r else open_ticket r d id (operator d) now_epoch in
  let res := mkResult cid id Missed now_epoch (operator_bond (economics d)) in
  Ok (with_results (<[cid := res]> (results r)) r, res).

(** ** Reallocation, renewal and expiry *)

Definition accept_reallocation_ticket (r : StorageRegistry) (tid : Z) (who : Address)
    (start fin : Z) (econ : StorageEconomicsParams) (p : StorageDomainParams)
    (proof : option bytes) (root : option Hash32) : result (StorageRegistry * Z) StorageError :=
  let? t := ok_or (reallocations r !! tid) (UnknownReallocationTicket tid) in
  check? bool_decide (t_status t = Pending \/ t_status t = UnderReplicated) else
    ReallocationNotPending tid in
  check? negb (bool_decide (who = slashed_operator t)) else ReplacementOperatorMatchesSlashed who in
  let? m := ok_or (manifests r !! t_manifest t) (UnknownManifest (t_manifest t)) in
  let? (r, id) := open_deal r m (mkTerms (t_domain t) (t_shard t) who (t_replica t) start fin econ proof root) p in
  let r := match reallocations r !! tid with
           | Some t => with_reallocations (next_reallocation_id r)
                         (<[tid := set_replacement id (set_ticket_status ActiveReplacement t)]>
                            (reallocations r)) r
           | None => r
           end in
  Ok (r, id).

Definition renewal_open (d : StorageDeal) (now_epoch : Z) : bool :=
  (saturating_sub (deal_end_epoch d) RENEWAL_WINDOW_EPOCHS <=? now_epoch) &&
  (now_epoch <? deal_end_epoch d).

Definition deals_in_renewal_window (r : StorageRegistry) (now_epoch : Z) : list (Z * Address * Z) :=
  map (fun d => (deal_id d, operator d, deal_end_epoch d))
    (filter (fun d => is_active d = true /\ renewal_open d now_epoch = true) (values (deals r))).

Definition renew_deal (r : StorageRegistry) (id : Z) (op : Address) (now_epoch extra : Z)
    : result (StorageRegistry * Z) StorageError :=
  let? d := ok_or (deals r !! id) (UnknownDeal id) in
  check? is_active d else DealNotActive id in
  check? bool_decide (operator d = op) else NotTheOperator (operator d) op in
  check? negb (extra =? 0) else InvalidEpochRange now_epoch now_epoch in
  check? renewal_open d now_epoch else InvalidEpochRange now_epoch (deal_end_epoch d) in
  let fin := saturating_add U64 (deal_end_epoch d) extra in
  Ok (with_deals (<[id := set_end fin d]> (deals r)) r, fin).

Definition open_expiry_reallocation (r : StorageRegistry) (id now_epoch : Z)
    : StorageRegistry * option Z :=
  match deals r !! id with
  | None => (r, None)
  | Some d =>
      if has_ticket r id then (r, None)
      else (open_ticket r d id zero_address now_epoch, Some (next_reallocation_id r))
  end.

Definition overdue (now_epoch : Z) (t : StorageReallocationTicket) : bool :=
  bool_decide (t_status t = Pending) && (t_deadline t <? now_epoch).

Definition mark_overdue_reallocations_under_replicated (r : StorageRegistry) (now_epoch : Z)
    : StorageRegistry * Z :=
  (with_reallocations (next_reallocation_id r)
     ((fun t => if overdue now_epoch t then set_ticket_status UnderReplicated t else t) <$> reallocations r) r,
   zlen (filter (fun t => overdue now_epoch t = true) (values (reallocations r)))).

Definition expire_deal (r : StorageRegistry) (id now_epoch : Z)
    : result (StorageRegistry * Z) StorageError :=
  let? d := ok_or (deals r !! id) (UnknownDeal id) in
  check? negb (now_epoch <? deal_end_epoch d) else InvalidEpochRange now_epoch (deal_end_epoch d) in
  if negb (bool_decide (status d = Active)) then Ok (r, 0)
  else
    let mid := d_manifest d in
    let live := live_shard_count r mid in
    let floor := permanence_floor r mid in
    check? negb ((active_replica_count r mid (d_shard d) <=? 1) && (live <=? floor)) else
      ExpiryWouldStrandContent id mid (d_shard d) (saturating_sub live 1) floor in
    Ok (with_deals (<[id := set_status Expired d]> (deals r)) r, operator_bond (economics d)).

Definition prune_content (r : StorageRegistry) (mid : ContentId) (now_epoch : Z)
    : StorageRegistry * Z :=
  let ids := map deal_id (filter (fun d => is_active d = true) (deals_for_manifest r mid)) in
  let ds := foldl (fun ds id => match ds !! id with
                                | Some d => <[id := set_status Expired d]> ds
                                | None => ds
                                end) (deals r) ids in
  (with_manifests (base.delete mid (manifests r)) (with_deals ds r), zlen ids).

Definition status_tag (s : DealStatus) : Z := match s with Active => 0 | Slashed => 1 | Expired => 2 end.

Definition storage_deal_leaf_hash (d : StorageDeal) : Hash32 :=
  hash_fields_bytes [ascii_bytes "BDLM_STORAGE_DEAL_V1"; u64_le (deal_id d); u32_le (domain_id d);
    d_manifest d; d_shard d; operator d; u64_le (operator_bond (economics d));
    u64_le (fee_per_byte_epoch (economics d)); u64_le (shard_bytes d); [replica_index d];
    u64_le (deal_start_epoch d); u64_le (deal_end_epoch d); [status_tag (status d)]].

End operations.

End StorageDeal.
