(* ===== verification/StorageDealFacts.v ===== *)
(** * The storage registry stays consistent

    The methods of [StorageDeal] as a transition system: every method is a
    sequence of the elementary steps of [cstep], and the invariants of the
    registry are proved by induction on the rules of [cstep].  A ticket is
    opened by a missed challenge or by the end of a term, so its deal can be
    slashed, expired or, under a hold, still active; a deal slashed for a
    mismatched result has none. *)

From Stdlib Require Import ZArith Lia.
From Stdlib Require Import Strings.Byte.
From stdpp Require Import base tactics strings numbers pretty gmap sorting list relations.
From S2P Require Import Prelude Hashing Gf256 Manifest Erasure StorageDeal.
Import Hashing Manifest Erasure StorageDeal.
Open Scope Z_scope.

Module StorageDealFacts.

(** ** Values of a map *)

Lemma values_perm {A} (m : gmap Z A) : values m ≡ₚ map snd (map_to_list m).
Proof. unfold values. by rewrite merge_sort_Permutation. Qed.

Lemma elem_of_values {A} (m : gmap Z A) x : x ∈ values m <-> exists i, m !! i = Some x.
Proof.
  rewrite values_perm. split.
  - intros ([i y] & -> & Hin)%list_elem_of_fmap. exists i. by apply elem_of_map_to_list in Hin.
  - intros [i Hi]. apply list_elem_of_fmap. exists (i, x). split; [done|]. by apply elem_of_map_to_list.
Qed.

Section counting.
Context {A : Type} (P : A -> Prop) `{!forall x, Decision (P x)}.

Lemma count_values_insert (m : gmap Z A) i x :
  m !! i = None ->
  zlen (filter P (values (<[i := x]> m))) = (if decide (P x) then 1 else 0) + zlen (filter P (values m)).
Proof.
  intros Hi. unfold zlen. rewrite !values_perm. rewrite (map_to_list_insert m i x Hi). simpl.
  rewrite filter_cons. case_decide; simpl; lia.
Qed.

(** Filtering by a stronger predicate counts no more. *)
Lemma count_mono (Q : A -> Prop) `{!forall x, Decision (Q x)} (l : list A) :
  (forall x, x ∈ l -> P x -> Q x) -> zlen (filter P l) <= zlen (filter Q l).
Proof.
  unfold zlen. induction l as [|x l IH]; intros HPQ; [done|]. rewrite !filter_cons.
  assert (zlen (filter P l) <= zlen (filter Q l)) by (apply IH; intros; apply HPQ; [by right|done]).
  unfold zlen in *. pose proof (HPQ x (list_elem_of_here _ _)).
  destruct (decide (P x)), (decide (Q x)); simpl; try lia. tauto.
Qed.

End counting.

Lemma list_max_ge l m x : list_max l = Some m -> x ∈ l -> x <= m.
Proof.
  assert (Hf : forall l y, y <= foldl Z.max y l /\ forall x, x ∈ l -> x <= foldl Z.max y l).
  { clear. induction l as [|z l IH]; intros y; simpl; [split; [lia|set_solver]|].
    destruct (IH (Z.max y z)) as [H1 H2]. split; [lia|]. intros x [->|Hx]%elem_of_cons; [lia|auto]. }
  destruct l as [|y l]; [done|]. intros [= <-] [->|Hx]%elem_of_cons; [apply (proj1 (Hf _ _))|by apply (proj2 (Hf _ _))].
Qed.

(** ** Elementary steps *)

(** Registries that differ only in manifests, policies, cooldowns and classes. *)
Record same_core (r r' : StorageRegistry) : Prop := {
  same_next_deal : next_deal_id r' = next_deal_id r;
  same_next_challenge : next_challenge_id r' = next_challenge_id r;
  same_next_ticket : next_reallocation_id r' = next_reallocation_id r;
  same_deals : deals r' = deals r;
  same_index : deals_by_shard r' = deals_by_shard r;
  same_challenges : challenges r' = challenges r;
  same_results : results r' = results r;
  same_tickets : reallocations r' = reallocations r;
}.

Definition update_deal (id : Z) (d : StorageDeal) (r : StorageRegistry) : StorageRegistry :=
  with_deals (<[id := d]> (deals r)) r.
Definition update_ticket (id : Z) (t : StorageReallocationTicket) (r : StorageRegistry) : StorageRegistry :=
  with_reallocations (next_reallocation_id r) (<[id := t]> (reallocations r)) r.
Definition record_result (cid : Z) (res : ChallengeResult) (r : StorageRegistry) : StorageRegistry :=
  with_results (<[cid := res]> (results r)) r.

(** What [open_challenge] has checked. *)
Record challenge_guard (r : StorageRegistry) (c : RetrievalChallenge) (d : StorageDeal) : Prop := {
  g_id : challenge_id c = next_challenge_id r;
  g_deal : deals r !! c_deal c = Some d;
  g_active : status d = Active;
  g_shard : c_shard c = d_shard d;
  g_range : byte_start c < byte_end c;
  g_bond : required_opener_bond (byte_end c - byte_start c) <= opener_bond c;
  g_epochs : challenge_epoch c < deadline_epoch c;
  g_rate : forall e, e ∈ next_epochs r (operator d) (d_manifest d) -> e <= challenge_epoch c;
  g_deal_open : open_count r (c_deal c) < MAX_OPEN_CHALLENGES_PER_DEAL;
  g_operator_open : operator_open r (operator d) < MAX_OPEN_CHALLENGES_PER_OPERATOR;
}.

Inductive cstep : StorageRegistry -> StorageRegistry -> Prop :=
| cs_frame r r' : same_core r r' -> cstep r r'
| cs_deal r d :
    next_deal_id r < U64 - 1 -> deal_id d = next_deal_id r -> status d = Active ->
    deal_start_epoch d < deal_end_epoch d < U64 -> cstep r (add_deal r d)
| cs_challenge r c d :
    next_challenge_id r < U64 - 1 -> challenge_guard r c d -> cstep r (add_challenge r c)
| cs_answer r cid c d e :
    results r !! cid = None -> challenges r !! cid = Some c -> deals r !! c_deal c = Some d ->
    status d = Active -> e <= deadline_epoch c ->
    cstep r (record_result cid (mkResult cid (c_deal c) Answered e 0) r)
| cs_slash r cid c d o e :
    results r !! cid = None -> challenges r !! cid = Some c -> deals r !! c_deal c = Some d ->
    (o = Missed /\ deadline_epoch c < e /\ has_ticket r (c_deal c) = true \/
     o = Mismatched /\ status d = Active /\ e <= deadline_epoch c) ->
    cstep r (record_result cid (mkResult cid (c_deal c) o e (operator_bond (economics d)))
               (update_deal (c_deal c) (set_status Slashed d) r))
| cs_expire r id d :
    deals r !! id = Some d -> status d <> Slashed -> cstep r (update_deal id (set_status Expired d) r)
| cs_renew r id d e :
    deals r !! id = Some d -> status d = Active -> deal_end_epoch d <= e < U64 ->
    cstep r (update_deal id (set_end e d) r)
| cs_ticket r id d who now :
    next_reallocation_id r < U64 - 1 -> deals r !! id = Some d -> has_ticket r id = false ->
    cstep r (open_ticket r d id who now)
| cs_overdue r now : cstep r (mark_overdue_reallocations_under_replicated r now).1
| cs_replace r tid t id d :
    reallocations r !! tid = Some t -> t_status t = Pending \/ t_status t = UnderReplicated ->
    deals r !! id = Some d -> failed_deal_id t < id ->
    domain_id d = t_domain t -> d_manifest d = t_manifest t -> d_shard d = t_shard t ->
    replica_index d = t_replica t ->
    cstep r (update_ticket tid (set_replacement id (set_ticket_status ActiveReplacement t)) r).

(** ** The invariant *)

Definition indexed (r : StorageRegistry) (mid sid : ContentId) : list Z :=
  default [] (deals_by_shard r !! (mid, sid)).

Definition deal_ok (r : StorageRegistry) (id : Z) (d : StorageDeal) : Prop :=
  deal_id d = id /\ id ∈u next_deal_id r /\ deal_start_epoch d < deal_end_epoch d < U64.

Definition challenge_ok (r : StorageRegistry) (cid : Z) (c : RetrievalChallenge) : Prop :=
  challenge_id c = cid /\ cid ∈u next_challenge_id r /\
  byte_start c < byte_end c /\ challenge_epoch c < deadline_epoch c /\
  required_opener_bond (byte_end c - byte_start c) <= opener_bond c /\
  exists d, deals r !! c_deal c = Some d /\ d_shard d = c_shard c.

Definition result_ok (r : StorageRegistry) (cid : Z) (res : ChallengeResult) : Prop :=
  r_challenge res = cid /\
  exists c d, challenges r !! cid = Some c /\ deals r !! c_deal c = Some d /\ r_deal res = c_deal c /\
    match outcome res with
    | Answered => slashed_bond res = 0 /\ finalized_epoch res <= deadline_epoch c
    | Mismatched => status d = Slashed /\ slashed_bond res = operator_bond (economics d) /\
                    finalized_epoch res <= deadline_epoch c
    | Missed => status d = Slashed /\ slashed_bond res = operator_bond (economics d) /\
                deadline_epoch c < finalized_epoch res
    end.

Definition replaces (t : StorageReallocationTicket) (d : StorageDeal) : Prop :=
  domain_id d = t_domain t /\ d_manifest d = t_manifest t /\ d_shard d = t_shard t /\ replica_index d = t_replica t.

(** A ticket names an existing deal, whatever its status, and its replacement is
    a later deal with the same terms. *)
Definition ticket_ok (r : StorageRegistry) (tid : Z) (t : StorageReallocationTicket) : Prop :=
  ticket_id t = tid /\ tid ∈u next_reallocation_id r /\
  (exists d, deals r !! failed_deal_id t = Some d /\ replaces t d) /\
  (t_status t = ActiveReplacement <-> is_Some (replacement_deal_id t)) /\
  forall id, replacement_deal_id t = Some id ->
    failed_deal_id t < id /\ exists d, deals r !! id = Some d /\ replaces t d.

Record inv (r : StorageRegistry) : Prop := {
  inv_next : 0 <= next_deal_id r < U64 /\ 0 <= next_challenge_id r < U64 /\ 0 <= next_reallocation_id r < U64;
  inv_deals : forall id d, deals r !! id = Some d -> deal_ok r id d;
  inv_index : forall mid sid id, id ∈ indexed r mid sid <->
    exists d, deals r !! id = Some d /\ d_manifest d = mid /\ d_shard d = sid;
  inv_index_once : forall mid sid, NoDup (indexed r mid sid);
  inv_challenges : forall cid c, challenges r !! cid = Some c -> challenge_ok r cid c;
  inv_results : forall cid res, results r !! cid = Some res -> result_ok r cid res;
  inv_slashed : forall id d, deals r !! id = Some d -> status d = Slashed ->
    exists cid res, results r !! cid = Some res /\ r_deal res = id /\ outcome res <> Answered;
  inv_tickets : forall tid t, reallocations r !! tid = Some t -> ticket_ok r tid t;
  inv_one_ticket : forall i j t u, reallocations r !! i = Some t -> reallocations r !! j = Some u ->
    failed_deal_id t = failed_deal_id u -> i = j;
}.

Lemma inv_new : inv new.
Proof.
  constructor; simpl; try (intros ?? E; by rewrite lookup_empty in E).
  - lia.
  - intros mid sid id. unfold indexed. simpl. rewrite lookup_empty. simpl. split; [by intros ?%elem_of_nil|].
    intros (d & E & _). by rewrite lookup_empty in E.
  - intros mid sid. unfold indexed. simpl. rewrite lookup_empty. constructor.
  - intros i j t u E. by rewrite lookup_empty in E.
Qed.

(** ** What never changes *)

(** A deal keeps its terms, and once slashed it stays slashed. *)
Record evolves (d d' : StorageDeal) : Prop := {
  ev_id : deal_id d' = deal_id d;
  ev_domain : domain_id d' = domain_id d;
  ev_manifest : d_manifest d' = d_manifest d;
  ev_shard : d_shard d' = d_shard d;
  ev_replica : replica_index d' = replica_index d;
  ev_operator : operator d' = operator d;
  ev_economics : economics d' = economics d;
  ev_slashed : status d = Slashed -> status d' = Slashed;
}.

Lemma evolves_refl d : evolves d d.
Proof. by constructor. Qed.

Record extends (r r' : StorageRegistry) : Prop := {
  ext_next_deal : next_deal_id r <= next_deal_id r';
  ext_next_challenge : next_challenge_id r <= next_challenge_id r';
  ext_next_ticket : next_reallocation_id r <= next_reallocation_id r';
  ext_deals : forall id d, deals r !! id = Some d -> exists d', deals r' !! id = Some d' /\ evolves d d';
  ext_challenges : forall cid c, challenges r !! cid = Some c -> challenges r' !! cid = Some c;
  ext_results : forall cid res, results r !! cid = Some res -> results r' !! cid = Some res;
}.

Lemma extends_same_deals r r' :
  deals r' = deals r -> next_deal_id r <= next_deal_id r' -> next_challenge_id r <= next_challenge_id r' ->
  next_reallocation_id r <= next_reallocation_id r' -> challenges r ⊆ challenges r' -> results r ⊆ results r' ->
  extends r r'.
Proof.
  intros E ??? Hc Hr. constructor; try done.
  - rewrite E. eauto using evolves_refl.
  - intros ?? E'. by eapply lookup_weaken.
  - intros ?? E'. by eapply lookup_weaken.
Qed.

Lemma extends_deals r id d d' rs :
  deals r !! id = Some d -> evolves d d' -> results r ⊆ rs ->
  extends r (with_results rs (update_deal id d' r)).
Proof.
  intros Hd He Hr. constructor; simpl; try done.
  - intros id' d0 Hd0. destruct (decide (id' = id)) as [->|Hne].
    + rewrite lookup_insert_eq. simplify_eq. eauto.
    + rewrite lookup_insert_ne by done. eauto using evolves_refl.
  - intros ?? E'. by eapply lookup_weaken.
Qed.

Section mono.
Context (r r' : StorageRegistry) (Hext : extends r r').

Lemma challenge_ok_mono cid c : challenge_ok r cid c -> challenge_ok r' cid c.
Proof.
  intros (? & ? & ? & ? & ? & d & Hd & Hs). pose proof (ext_next_challenge _ _ Hext).
  destruct (ext_deals _ _ Hext _ _ Hd) as (d' & Hd' & He).
  repeat split; try done; try lia. exists d'. split; [done|]. by rewrite (ev_shard _ _ He).
Qed.

Lemma result_ok_mono cid res : result_ok r cid res -> result_ok r' cid res.
Proof.
  intros (? & c & d & Hc & Hd & ? & Ho). split; [done|].
  destruct (ext_deals _ _ Hext _ _ Hd) as (d' & Hd' & He).
  exists c, d'. split_and!; [by apply (ext_challenges _ _ Hext)|done|done|].
  rewrite (ev_economics _ _ He). pose proof (ev_slashed _ _ He). destruct (outcome res); intuition.
Qed.

Lemma replaces_mono t d d' : evolves d d' -> replaces t d -> replaces t d'.
Proof. intros [] (? & ? & ? & ?). repeat split; congruence. Qed.

Lemma ticket_ok_mono tid t : ticket_ok r tid t -> ticket_ok r' tid t.
Proof.
  intros (? & ? & (d & Hd & Hr) & ? & Hrep). pose proof (ext_next_ticket _ _ Hext).
  destruct (ext_deals _ _ Hext _ _ Hd) as (d' & Hd' & He).
  split_and!; [done|lia|lia|eauto using replaces_mono|done|].
  intros id Hid. destruct (Hrep id Hid) as (? & e & Hde & Hre). split; [done|].
  destruct (ext_deals _ _ Hext _ _ Hde) as (e' & He' & Hev). eauto using replaces_mono.
Qed.

End mono.

(** The invariant from what a step adds. *)
Lemma inv_step r r' :
  inv r -> extends r r' ->
  (next_deal_id r' < U64 /\ next_challenge_id r' < U64 /\ next_reallocation_id r' < U64) ->
  (forall id d, deals r' !! id = Some d -> deal_ok r' id d) ->
  (forall mid sid id, id ∈ indexed r' mid sid <->
     exists d, deals r' !! id = Some d /\ d_manifest d = mid /\ d_shard d = sid) ->
  (forall mid sid, NoDup (indexed r' mid sid)) ->
  (forall cid c, challenges r' !! cid = Some c -> challenges r !! cid = Some c \/ challenge_ok r' cid c) ->
  (forall cid res, results r' !! cid = Some res -> results r !! cid = Some res \/ result_ok r' cid res) ->
  (forall id d, deals r' !! id = Some d -> status d = Slashed ->
     (exists d, deals r !! id = Some d /\ status d = Slashed) \/
     exists cid res, results r' !! cid = Some res /\ r_deal res = id /\ outcome res <> Answered) ->
  (forall tid t, reallocations r' !! tid = Some t -> reallocations r !! tid = Some t \/ ticket_ok r' tid t) ->
  (forall i j t u, reallocations r' !! i = Some t -> reallocations r' !! j = Some u ->
     failed_deal_id t = failed_deal_id u -> i = j) ->
  inv r'.
Proof.
  intros Hi Hext Hn Hd Hix Hnd Hc Hr Hs Ht H1. pose proof (inv_next _ Hi).
  pose proof (ext_next_deal _ _ Hext). pose proof (ext_next_challenge _ _ Hext). pose proof (ext_next_ticket _ _ Hext).
  constructor; try done.
  - lia.
  - intros cid c E. destruct (Hc _ _ E) as [E'|]; [|done]. eapply challenge_ok_mono; [done|]. by apply (inv_challenges _ Hi).
  - intros cid res E. destruct (Hr _ _ E) as [E'|]; [|done]. eapply result_ok_mono; [done|]. by apply (inv_results _ Hi).
  - intros id d E Es. destruct (Hs _ _ E Es) as [(d0 & E0 & Es0)|]; [|done].
    destruct (inv_slashed _ Hi _ _ E0 Es0) as (cid & res & Hres & ? & ?).
    exists cid, res. split; [by apply (ext_results _ _ Hext)|done].
  - intros tid t E. destruct (Ht _ _ E) as [E'|]; [|done]. eapply ticket_ok_mono; [done|]. by apply (inv_tickets _ Hi).
Qed.

(** Steps that add no deal keep the shard index. *)
Lemma index_kept r r' :
  inv r -> deals_by_shard r' = deals_by_shard r ->
  (forall id, (fun d => (d_manifest d, d_shard d)) <$> deals r' !! id = (fun d => (d_manifest d, d_shard d)) <$> deals r !! id) ->
  (forall mid sid id, id ∈ indexed r' mid sid <->
     exists d, deals r' !! id = Some d /\ d_manifest d = mid /\ d_shard d = sid) /\
  (forall mid sid, NoDup (indexed r' mid sid)).
Proof.
  intros Hi E Hk. unfold indexed. rewrite E. split; [|apply (inv_index_once _ Hi)].
  intros mid sid id. rewrite (inv_index _ Hi mid sid id). specialize (Hk id).
  split; intros (d & Hd & ? & ?); rewrite Hd in Hk; simpl in Hk.
  - destruct (deals r' !! id) as [d'|]; [|done]. injection Hk as ??. exists d'. split_and!; congruence.
  - destruct (deals r !! id) as [d'|]; [|done]. injection Hk as ??. exists d'. split_and!; congruence.
Qed.

Lemma has_ticket_false r id :
  has_ticket r id = false -> forall tid t, reallocations r !! tid = Some t -> failed_deal_id t <> id.
Proof.
  intros Hh tid t Ht E. unfold has_ticket in Hh.
  assert (existsb (fun t => failed_deal_id t =? id) (values (reallocations r)) = true); [|congruence].
  apply existsb_exists. exists t. split; [|by apply Z.eqb_eq]. apply list_elem_of_In, elem_of_values. eauto.
Qed.

(** A deal has a ticket. *)
Definition ticketed (r : StorageRegistry) (id : Z) : Prop :=
  exists tid t, reallocations r !! tid = Some t /\ failed_deal_id t = id.

Lemma has_ticket_true r id : has_ticket r id = true <-> ticketed r id.
Proof.
  unfold has_ticket. rewrite existsb_exists. setoid_rewrite <- list_elem_of_In. setoid_rewrite elem_of_values.
  setoid_rewrite Z.eqb_eq. unfold ticketed. naive_solver.
Qed.

Lemma has_ticket_opened r d id who now : has_ticket (open_ticket r d id who now) id = true.
Proof. apply has_ticket_true. eexists _, _. cbn. rewrite lookup_insert_eq. by split. Qed.

(** Every deal with a missed challenge has one. *)
Definition missed_ticketed (r : StorageRegistry) : Prop :=
  forall cid res, results r !! cid = Some res -> outcome res = Missed -> ticketed r (r_deal res).

(** ** Every step preserves the invariant *)

Lemma inv_frame r r' : same_core r r' -> inv r -> inv r'.
Proof.
  destruct r, r'. intros [] [H1 H2 H3 H4 H5 H6 H7 H8 H9]. simpl in *. subst. constructor; assumption.
Qed.

Lemma inv_add_deal r d :
  next_deal_id r < U64 - 1 -> deal_id d = next_deal_id r -> status d = Active ->
  deal_start_epoch d < deal_end_epoch d < U64 -> inv r -> inv (add_deal r d).
Proof.
  intros Hn Hid Hst He Hi. pose proof (inv_next _ Hi).
  assert (En : wrapping_add U64 (next_deal_id r) 1 = next_deal_id r + 1) by (apply Z.mod_small; lia).
  assert (Hfresh : deals r !! deal_id d = None).
  { destruct (deals r !! deal_id d) as [d0|] eqn:E; [|done]. destruct (inv_deals _ Hi _ _ E) as (_ & ? & _). lia. }
  assert (Hni : forall mid sid, deal_id d ∉ indexed r mid sid).
  { intros mid sid (d0 & E & _)%(inv_index _ Hi). congruence. }
  apply (inv_step r); [done|..]; simpl.
  - constructor; simpl; try done; [lia|]. intros id d0 E. exists d0. split; [|apply evolves_refl].
    rewrite lookup_insert_ne; [done|]. intros <-. congruence.
  - lia.
  - intros id d0 [[<- <-]|[Hne E]]%lookup_insert_Some.
    + split_and!; simpl; [done|lia|lia|lia|lia].
    + destruct (inv_deals _ Hi _ _ E) as (? & ? & ?). split_and!; simpl; try done; lia.
  - intros mid sid i. unfold indexed. simpl.
    destruct (decide ((d_manifest d, d_shard d) = (mid, sid))) as [Ek|Ek].
    + rewrite Ek, lookup_insert_eq. cbn [from_option id]. injection Ek as Em Es. rewrite elem_of_app, list_elem_of_singleton.
      fold (indexed r mid sid). rewrite (inv_index _ Hi). split.
      * intros [(d0 & E & ? & ?)| ->]; [|exists d; by rewrite lookup_insert_eq].
        exists d0. rewrite lookup_insert_ne; [done|]. intros <-. congruence.
      * intros (d0 & [[<- <-]|[Hne E]]%lookup_insert_Some & ? & ?); [by right|]. left. eauto.
    + rewrite lookup_insert_ne by done. fold (indexed r mid sid). rewrite (inv_index _ Hi). split.
      * intros (d0 & E & ? & ?). exists d0. rewrite lookup_insert_ne; [done|]. intros <-. congruence.
      * intros (d0 & [[<- <-]|[Hne E]]%lookup_insert_Some & ? & ?); [congruence|]. eauto.
  - intros mid sid. unfold indexed. simpl. destruct (decide ((d_manifest d, d_shard d) = (mid, sid))) as [Ek|Ek].
    + rewrite Ek, lookup_insert_eq. cbn [from_option id]. fold (indexed r mid sid).
      apply NoDup_app. split_and!; [apply (inv_index_once _ Hi)| |apply NoDup_singleton].
      intros x Hx ->%list_elem_of_singleton. by apply (Hni mid sid).
    + rewrite lookup_insert_ne by done. apply (inv_index_once _ Hi).
  - by left.
  - by left.
  - intros id d0 [[<- <-]|[Hne E]]%lookup_insert_Some Es; [congruence|]. left. eauto.
  - by left.
  - apply (inv_one_ticket _ Hi).
Qed.

Lemma inv_add_challenge r c d :
  next_challenge_id r < U64 - 1 -> challenge_guard r c d -> inv r -> inv (add_challenge r c).
Proof.
  intros Hn [] Hi. pose proof (inv_next _ Hi).
  assert (En : wrapping_add U64 (next_challenge_id r) 1 = next_challenge_id r + 1) by (apply Z.mod_small; lia).
  assert (Hfresh : challenges r !! challenge_id c = None).
  { destruct (challenges r !! challenge_id c) as [c0|] eqn:E; [|done].
    destruct (inv_challenges _ Hi _ _ E) as (_ & ? & _). lia. }
  destruct (index_kept r (add_challenge r c) Hi eq_refl ltac:(done)) as [Hix Hnd].
  apply (inv_step r); try done; simpl.
  - apply extends_same_deals; simpl; try done; [lia|]. by apply insert_subseteq.
  - lia.
  - apply (inv_deals _ Hi).
  - intros cid c0 [[<- <-]|[Hne E]]%lookup_insert_Some; [right|by left].
    split_and!; simpl; try done; try lia. exists d. by split.
  - by left.
  - left. eauto.
  - by left.
  - apply (inv_one_ticket _ Hi).
Qed.

Lemma inv_record_answer r cid c d e :
  results r !! cid = None -> challenges r !! cid = Some c -> deals r !! c_deal c = Some d ->
  e <= deadline_epoch c -> inv r -> inv (record_result cid (mkResult cid (c_deal c) Answered e 0) r).
Proof.
  intros Hr Hc Hd He Hi. pose proof (inv_next _ Hi).
  set (r' := record_result _ _ _). destruct (index_kept r r' Hi eq_refl ltac:(done)) as [Hix Hnd].
  apply (inv_step r); try done; simpl.
  - apply extends_same_deals; simpl; try done. by apply insert_subseteq.
  - lia.
  - apply (inv_deals _ Hi).
  - by left.
  - intros i res [[<- <-]|[Hne E]]%lookup_insert_Some; [right|by left].
    split; [done|]. exists c, d. by split_and!.
  - left. eauto.
  - by left.
  - apply (inv_one_ticket _ Hi).
Qed.

(** Changing the status or the end of one deal, with at most one result
    recorded for it. *)
Lemma inv_change_deal r id d d' rs :
  deals r !! id = Some d -> evolves d d' -> deal_start_epoch d' < deal_end_epoch d' < U64 -> results r ⊆ rs ->
  (forall cid res, rs !! cid = Some res ->
     results r !! cid = Some res \/ result_ok (with_results rs (update_deal id d' r)) cid res) ->
  (status d' = Slashed ->
     status d = Slashed \/ exists cid res, rs !! cid = Some res /\ r_deal res = id /\ outcome res <> Answered) ->
  inv r -> inv (with_results rs (update_deal id d' r)).
Proof.
  intros Hd He Hse Hsub Hres Hst Hi. pose proof (inv_next _ Hi).
  destruct (index_kept r (with_results rs (update_deal id d' r)) Hi eq_refl) as [Hix Hnd].
  { intros i. simpl. destruct (decide (i = id)) as [->|Hne]; [|by rewrite lookup_insert_ne].
    rewrite lookup_insert_eq, Hd. simpl. by rewrite (ev_manifest _ _ He), (ev_shard _ _ He). }
  apply (inv_step r); try done; simpl.
  - by eapply extends_deals.
  - lia.
  - intros i d0 [[<- <-]|[Hne E]]%lookup_insert_Some; [|by apply (inv_deals _ Hi)].
    destruct (inv_deals _ Hi _ _ Hd) as (Eid & ? & _). split_and!; simpl; try done; try lia.
    by rewrite (ev_id _ _ He).
  - by left.
  - intros i d0 [[<- <-]|[Hne E]]%lookup_insert_Some Es; [|left; eauto].
    destruct (Hst Es) as [|Hex]; [left; eauto|by right].
  - by left.
  - apply (inv_one_ticket _ Hi).
Qed.

Lemma inv_slash r cid c d o e :
  results r !! cid = None -> challenges r !! cid = Some c -> deals r !! c_deal c = Some d ->
  (o = Missed /\ deadline_epoch c < e /\ has_ticket r (c_deal c) = true \/
   o = Mismatched /\ status d = Active /\ e <= deadline_epoch c) ->
  inv r -> inv (record_result cid (mkResult cid (c_deal c) o e (operator_bond (economics d)))
                  (update_deal (c_deal c) (set_status Slashed d) r)).
Proof.
  intros Hr Hc Hd Ho Hi. apply (inv_change_deal r (c_deal c) d (set_status Slashed d)); try done.
  - by apply (inv_deals _ Hi) in Hd as (_ & _ & ?).
  - by apply insert_subseteq.
  - intros i res [[<- <-]|[Hne E]]%lookup_insert_Some; [right|by left].
    split; [done|]. exists c, (set_status Slashed d). simpl. rewrite lookup_insert_eq.
    split_and!; try done. destruct Ho as [(-> & ? & _)|(-> & _ & ?)]; by split_and!.
  - intros _. right. exists cid. eexists. simpl. rewrite lookup_insert_eq. split_and!; [done|done|].
    simpl. by destruct Ho as [[-> _]|[-> _]].
Qed.

Lemma with_results_id r : with_results (results r) r = r.
Proof. by destruct r. Qed.

Lemma inv_update_deal r id d d' :
  deals r !! id = Some d -> evolves d d' -> deal_start_epoch d' < deal_end_epoch d' < U64 ->
  (status d' = Slashed -> status d = Slashed) -> inv r -> inv (update_deal id d' r).
Proof.
  intros Hd He Hse Hst Hi. rewrite <- (with_results_id (update_deal id d' r)).
  apply (inv_change_deal r id d d'); try done; intros; by left; auto.
Qed.

Lemma inv_open_ticket r id d who now :
  next_reallocation_id r < U64 - 1 -> deals r !! id = Some d -> has_ticket r id = false ->
  inv r -> inv (open_ticket r d id who now).
Proof.
  intros Hn Hd Hh Hi. pose proof (inv_next _ Hi). set (r' := open_ticket _ _ _ _ _).
  assert (En : saturating_add U64 (next_reallocation_id r) 1 = next_reallocation_id r + 1)
    by (unfold saturating_add; lia).
  destruct (index_kept r r' Hi eq_refl ltac:(done)) as [Hix Hnd].
  pose proof (has_ticket_false _ _ Hh) as Hnone.
  apply (inv_step r); try done; simpl.
  - apply extends_same_deals; simpl; try done; lia.
  - lia.
  - apply (inv_deals _ Hi).
  - by left.
  - by left.
  - left. eauto.
  - intros tid t [[<- <-]|[Hne E]]%lookup_insert_Some; [right|by left].
    split_and!; simpl; try done; try lia; [|by intros []..]. eexists. by split_and!.
  - intros i j t u [[<- <-]|[? Ei]]%lookup_insert_Some [[<- <-]|[? Ej]]%lookup_insert_Some; simpl; try done.
    + intros E. by destruct (Hnone _ _ Ej).
    + intros E. by destruct (Hnone _ _ Ei).
    + by apply (inv_one_ticket _ Hi).
Qed.

Lemma inv_update_ticket r tid t t' :
  reallocations r !! tid = Some t -> failed_deal_id t' = failed_deal_id t -> ticket_ok r tid t' ->
  inv r -> inv (update_ticket tid t' r).
Proof.
  intros Ht Ef Hok Hi. pose proof (inv_next _ Hi). set (r' := update_ticket _ _ _).
  destruct (index_kept r r' Hi eq_refl ltac:(done)) as [Hix Hnd].
  apply (inv_step r); try done; simpl.
  - by apply extends_same_deals.
  - lia.
  - apply (inv_deals _ Hi).
  - by left.
  - by left.
  - left. eauto.
  - intros i u [[<- <-]|[Hne E]]%lookup_insert_Some; [by right|by left].
  - intros i j u v [[<- <-]|[? Ei]]%lookup_insert_Some [[<- <-]|[? Ej]]%lookup_insert_Some; simpl; try done.
    + rewrite Ef. by apply (inv_one_ticket _ Hi).
    + rewrite Ef. by apply (inv_one_ticket _ Hi).
    + by apply (inv_one_ticket _ Hi).
Qed.

Lemma overdue_lookup r now tid t' :
  reallocations (mark_overdue_reallocations_under_replicated r now).1 !! tid = Some t' ->
  exists t, reallocations r !! tid = Some t /\ failed_deal_id t' = failed_deal_id t /\
    (t' = t \/ t_status t = Pending /\ t' = set_ticket_status UnderReplicated t).
Proof.
  simpl. rewrite lookup_fmap. destruct (reallocations r !! tid) as [t|]; [|done]. intros [= <-]. exists t.
  destruct (overdue now t) eqn:Eo; [|by eauto]. unfold overdue in Eo. split_bool. by eauto.
Qed.

Lemma inv_mark_overdue r now : inv r -> inv (mark_overdue_reallocations_under_replicated r now).1.
Proof.
  intros Hi. pose proof (inv_next _ Hi). set (r' := (mark_overdue_reallocations_under_replicated r now).1).
  destruct (index_kept r r' Hi eq_refl ltac:(done)) as [Hix Hnd].
  apply (inv_step r); try done.
  - by apply extends_same_deals.
  - simpl. lia.
  - apply (inv_deals _ Hi).
  - by left.
  - by left.
  - left. eauto.
  - intros tid t' (t & Ht & _ & [->|[Hp ->]])%overdue_lookup; [by left|right].
    destruct (inv_tickets _ Hi _ _ Ht) as (? & ? & ? & Hrep & ?).
    split_and!; try done; simpl; try lia. rewrite <- Hrep, Hp. done.
  - intros i j t u (t0 & Ht & -> & _)%overdue_lookup (u0 & Hu & -> & _)%overdue_lookup.
    by apply (inv_one_ticket _ Hi).
Qed.

Lemma cstep_inv r r' : cstep r r' -> inv r -> inv r'.
Proof.
  intros Hs Hi. destruct Hs.
  - by eapply inv_frame.
  - by apply inv_add_deal.
  - by eapply inv_add_challenge.
  - by eapply inv_record_answer.
  - by apply inv_slash.
  - apply (inv_update_deal r id d); [done| | |done|done].
    + constructor; simpl; congruence.
    + by apply (inv_deals _ Hi) in H as (_ & _ & ?).
  - apply (inv_update_deal r id d); [done|by constructor| |done|done].
    apply (inv_deals _ Hi) in H as (_ & _ & ?). simpl. lia.
  - by apply inv_open_ticket.
  - by apply inv_mark_overdue.
  - eapply inv_update_ticket; try done. destruct (inv_tickets _ Hi _ _ H) as (? & ? & ? & _ & _).
    split_and!; try done; simpl; try lia. intros i [= <-]. split; [done|]. exists d. by split_and!.
Qed.

(** ** Operations

    One call of a public method; a call that returns an error changes nothing. *)

Inductive Op : Type :=
| OpDeclarePolicy (policy : MobileSelfContentPolicy) (profile : MobileSelfProfile)
| OpBeginCooldown (who : Address) (now : Z)
| OpPruneCooldowns (now : Z)
| OpSetClass (who : Address) (c : OperatorClass)
| OpRegisterManifest (m : ContentManifest)
| OpOpenDeal (m : ContentManifest) (a : DealTerms) (p : StorageDomainParams)
| OpOpenChallenge (id start fin epoch deadline : Z) (who : Address) (bond : Z)
| OpOpenChallengeWithEntropy (q : RetrievalChallengeRequest) (who : Address) (entropy : Hash32)
| OpAnswer (chain_id cid : Z) (range_hash : ContentId) (who : Address) (epoch : Z) (proof : option bytes)
| OpFinalizeMissed (cid now : Z)
| OpAcceptTicket (tid : Z) (who : Address) (start fin : Z) (e : StorageEconomicsParams)
    (p : StorageDomainParams) (proof : option bytes) (root : option Hash32)
| OpRenew (id : Z) (who : Address) (now extra : Z)
| OpOpenExpiryReallocation (id now : Z)
| OpMarkOverdue (now : Z)
| OpExpire (id now : Z)
| OpPrune (mid : ContentId) (now : Z).

(** The registry after a fallible call. *)
Definition settle {A} (r : StorageRegistry) (res : result (StorageRegistry * A) StorageError) : StorageRegistry :=
  match res with Ok p => p.1 | Err _ => r end.

Section operations.
Context `{H : FieldHash} `{B : StorageBackend}.

Definition apply_op (r : StorageRegistry) (op : Op) : StorageRegistry :=
  match op with
  | OpDeclarePolicy policy profile =>
      match declare_self_host_policy r policy profile with Ok r' => r' | Err _ => r end
  | OpBeginCooldown who now => (begin_operator_cooldown r who now).1
  | OpPruneCooldowns now => (prune_expired_cooldowns r now).1
  | OpSetClass who c => set_operator_class r who c
  | OpRegisterManifest m => register_manifest r m
  | OpOpenDeal m a p => settle r (open_deal r m a p)
  | OpOpenChallenge id start fin epoch deadline who bond =>
      settle r (open_challenge r id start fin epoch deadline who bond)
  | OpOpenChallengeWithEntropy q who entropy => settle r (open_challenge_with_entropy r q who entropy)
  | OpAnswer chain_id cid range_hash who epoch proof =>
      settle r (answer_challenge_with_chain_id r chain_id cid range_hash who epoch proof)
  | OpFinalizeMissed cid now => settle r (finalize_missed_challenge r cid now)
  | OpAcceptTicket tid who start fin e p proof root =>
      settle r (accept_reallocation_ticket r tid who start fin e p proof root)
  | OpRenew id who now extra => settle r (renew_deal r id who now extra)
  | OpOpenExpiryReallocation id now => (open_expiry_reallocation r id now).1
  | OpMarkOverdue now => (mark_overdue_reallocations_under_replicated r now).1
  | OpExpire id now => settle r (expire_deal r id now)
  | OpPrune mid now => (prune_content r mid now).1
  end.

(** No counter is about to run over. *)
Record room (r : StorageRegistry) : Prop := {
  room_deal : next_deal_id r < U64 - 1;
  room_challenge : next_challenge_id r < U64 - 1;
  room_ticket : next_reallocation_id r < U64 - 1;
}.

Lemma same_core_refl r : same_core r r.
Proof. by constructor. Qed.

Lemma register_manifest_core r m : same_core r (register_manifest r m).
Proof. unfold register_manifest. destruct (manifests r !! _); by constructor. Qed.

(** What a successful [open_deal] adds. *)
Lemma open_deal_Ok r m a p r' id :
  open_deal r m a p = Ok (r', id) ->
  exists s, shard m (o_shard a) = Some s /\ validate_untrusted m = Ok tt /\ id = next_deal_id r /\
    o_start a < o_end a /\ min_operator_bond p <= operator_bond (o_economics a) /\
    r' = add_deal (register_manifest r m)
           (mkDeal (o_proof a) (o_root a) 64 (next_deal_id r) (o_domain a) (manifest_id m) (o_shard a)
              (o_operator a) (o_economics a) (size s) (o_replica a) (o_start a) (o_end a) Active).
Proof.
  intros Ho. unfold open_deal in Ho.
  assert (En : next_deal_id (register_manifest r m) = next_deal_id r) by apply (same_next_deal _ _ (register_manifest_core r m)).
  rewrite En in Ho. inv_ok Ho. split_bool. exists x8. destruct x6. split_and!; try done; lia.
Qed.

Lemma open_deal_steps r m a p r' id :
  room r -> o_end a < U64 -> open_deal r m a p = Ok (r', id) -> rtc cstep r r'.
Proof.
  intros Hroom Hend (s & _ & _ & _ & ? & _ & ->)%open_deal_Ok. pose proof (register_manifest_core r m) as Hc.
  eapply rtc_l; [by apply cs_frame|]. apply rtc_once. apply cs_deal; simpl; try done.
  - rewrite (same_next_deal _ _ Hc). apply Hroom.
  - by rewrite (same_next_deal _ _ Hc).
Qed.

Lemma open_challenge_Ok r id start fin epoch deadline who bond r' cid :
  open_challenge r id start fin epoch deadline who bond = Ok (r', cid) ->
  exists d, let c := mkChallenge (next_challenge_id r) id (d_shard d) start fin epoch deadline who bond in
    challenge_guard r c d /\ r' = add_challenge r c /\ cid = challenge_id c.
Proof.
  intros Ho. unfold open_challenge in Ho. inv_ok Ho. split_bool. exists x3. split; [|done].
  unfold is_active in *. split_bool. constructor; simpl; try done; try lia.
  - intros e He. destruct (list_max _) as [mx|] eqn:Em.
    + pose proof (list_max_ge _ _ _ Em He). match goal with E : rbind _ _ = Ok _ |- _ => inv_ok E end. split_bool. lia.
    + destruct (next_epochs r (operator x3) (d_manifest x3)); [by apply elem_of_nil in He|done].
Qed.

Lemma answer_steps r chain_id cid range_hash who epoch proof r' res :
  inv r -> answer_challenge_with_chain_id r chain_id cid range_hash who epoch proof = Ok (r', res) -> cstep r r'.
Proof.
  intros Hi Ha. unfold answer_challenge_with_chain_id in Ha. inv_ok Ha. split_bool.
  unfold is_active in *. split_bool.
  match goal with
  | Hc : challenges r !! cid = Some ?c, Hd : deals r !! c_deal ?c = Some ?d, Hact : status ?d = Active |- _ =>
      destruct (inv_deals _ Hi _ _ Hd) as (Ed & _); rewrite Ed in Ha;
      assert (epoch <= deadline_epoch c) by lia;
      destruct (match storage_root d, proof with
                | Some _, Some _ => _ | Some _, None => _ | None, _ => _ end) in Ha
  end.
  - injection Ha as <- _. by eapply cs_answer.
  - inv_ok Ha. simplify_eq. eapply cs_slash; [done..|]. by right.
Qed.

(** The ticket is opened first, when there is none. *)
Lemma missed_steps r cid now r' res :
  inv r -> room r -> finalize_missed_challenge r cid now = Ok (r', res) -> rtc cstep r r'.
Proof.
  intros Hi Hroom Hm. unfold finalize_missed_challenge in Hm. inv_ok Hm. split_bool.
  match goal with Hc : challenges r !! cid = Some ?x, Hd : deals r !! c_deal ?x = Some ?y |- _ =>
    rename x into c; rename y into d end.
  change (has_ticket (with_deals _ r) (c_deal c)) with (has_ticket r (c_deal c)).
  destruct (has_ticket r (c_deal c)) eqn:Eh.
  - apply rtc_once. apply (cs_slash r cid c d Missed now); [done..|]. left. split_and!; [done|lia|done].
  - eapply rtc_l; [apply (cs_ticket r (c_deal c) d (operator d) now); [apply Hroom|done|done]|]. apply rtc_once.
    apply (cs_slash (open_ticket r d (c_deal c) (operator d) now) cid c d Missed now); [done..|].
    left. split_and!; [done|lia|]. by apply has_ticket_opened.
Qed.

(** Manifests are stored under their identifiers. *)
Definition keyed (r : StorageRegistry) : Prop :=
  forall mid m, manifests r !! mid = Some m -> manifest_id m = mid.

Lemma accept_steps r tid who start fin e p proof root r' id :
  inv r -> keyed r -> room r -> fin < U64 -> accept_reallocation_ticket r tid who start fin e p proof root = Ok (r', id) -> rtc cstep r r'.
Proof.
  intros Hi Hk Hroom Hfin Ha. unfold accept_reallocation_ticket in Ha. inv_ok Ha. split_bool.
  destruct x3 as [r1 id1]. injection Ha as <- <-.
  match goal with E : open_deal _ _ _ _ = Ok _ |- _ =>
    pose proof (fun w => open_deal_steps _ _ _ _ _ _ Hroom w E) as Hsteps; specialize (Hsteps Hfin); apply open_deal_Ok in E as (s & _ & _ & -> & _ & _ & ->) end.
  set (d := mkDeal _ _ _ _ _ _ _ _ _ _ _ _ _ _) in *.
  etrans; [done|]. pose proof (register_manifest_core r x2) as Hc.
  assert (Et : reallocations (add_deal (register_manifest r x2) d) !! tid = Some x) by (simpl; by rewrite (same_tickets _ _ Hc)).
  rewrite Et. apply rtc_once.
  destruct (inv_tickets _ Hi _ _ Ha0) as (_ & _ & (d0 & Hd0 & _) & _). apply (inv_deals _ Hi) in Hd0 as (_ & ? & _).
  eapply (cs_replace _ tid x _ d); try done; [simpl; by rewrite lookup_insert_eq|simpl; lia|].
  simpl. by apply Hk.
Qed.

(** The expiry loop of [prune_content]. *)
Definition expire_all (ds : gmap Z StorageDeal) (ids : list Z) : gmap Z StorageDeal :=
  foldl (fun ds id => match ds !! id with
                      | Some d => <[id := set_status Expired d]> ds
                      | None => ds
                      end) ds ids.

Lemma expire_all_steps r ids :
  (forall id, id ∈ ids -> exists d, deals r !! id = Some d /\ status d <> Slashed) ->
  rtc cstep r (with_deals (expire_all (deals r) ids) r).
Proof.
  revert r. induction ids as [|id ids IH]; intros r Hids.
  { simpl. replace (with_deals (deals r) r) with r by (by destruct r). constructor. }
  simpl. destruct (Hids id) as (d & Hd & Hs); [left|]. rewrite Hd.
  eapply rtc_l; [by apply (cs_expire r id d)|].
  apply (IH (update_deal id (set_status Expired d) r)). intros i Hi. simpl.
  destruct (decide (i = id)) as [->|Hne]; [rewrite lookup_insert_eq; eauto|].
  rewrite lookup_insert_ne by done. apply Hids. by right.
Qed.

Lemma prune_steps r mid now : inv r -> rtc cstep r (prune_content r mid now).1.
Proof.
  intros Hi. unfold prune_content. simpl.
  eapply rtc_r; [apply expire_all_steps|by apply cs_frame].
  intros id (d & -> & [Hact Hd]%list_elem_of_filter)%list_elem_of_fmap.
  apply list_elem_of_filter in Hd as [_ [i Hd]%elem_of_values].
  destruct (inv_deals _ Hi _ _ Hd) as (-> & _). exists d. split; [done|].
  unfold is_active in Hact. split_bool. congruence.
Qed.

(** The arguments fit [u64]. *)
Definition op_wf (op : Op) : Prop :=
  match op with
  | OpOpenDeal m a p => o_end a < U64
  | OpAcceptTicket tid who start fin e p proof root => fin < U64
  | OpRenew id who now extra => 0 <= extra
  | _ => True
  end.

(** Every call is a sequence of elementary steps. *)
Lemma op_steps r op : inv r -> keyed r -> room r -> op_wf op -> rtc cstep r (apply_op r op).
Proof.
  intros Hi Hk Hroom Hwf. destruct op; simpl in *.
  - unfold declare_self_host_policy. destruct (map_err _ _); simpl; apply rtc_once, cs_frame; by constructor.
  - by apply rtc_once, cs_frame.
  - by apply rtc_once, cs_frame.
  - by apply rtc_once, cs_frame.
  - apply rtc_once, cs_frame, register_manifest_core.
  - destruct (open_deal r m a p) as [[r' id]|] eqn:E; [|done]. by eapply open_deal_steps.
  - destruct (open_challenge _ _ _ _ _ _ _ _) as [[r' cid]|] eqn:E; [|done].
    apply open_challenge_Ok in E as (d & Hg & -> & _). apply rtc_once. by eapply cs_challenge; [apply Hroom|].
  - destruct (open_challenge_with_entropy r q who entropy) as [[r' cid]|] eqn:E; [|done].
    unfold open_challenge_with_entropy in E. inv_ok E. destruct x2 as [start fin].
    apply open_challenge_Ok in E as (d & Hg & -> & _). apply rtc_once. by eapply cs_challenge; [apply Hroom|].
  - destruct (answer_challenge_with_chain_id _ _ _ _ _ _ _) as [[r' res]|] eqn:E; [|done].
    apply rtc_once. by eapply answer_steps.
  - destruct (finalize_missed_challenge r cid now) as [[r' res]|] eqn:E; [|done]. by eapply missed_steps.
  - destruct (accept_reallocation_ticket _ _ _ _ _ _ _ _ _) as [[r' id]|] eqn:E; [|done]. by eapply accept_steps.
  - destruct (renew_deal r id who now extra) as [[r' fin]|] eqn:E; [|done].
    unfold renew_deal in E. inv_ok E. unfold is_active in *. split_bool. apply rtc_once, cs_renew; try done.
    match goal with E : deals r !! id = Some _ |- _ => apply (inv_deals _ Hi) in E as (_ & _ & ?) end.
    unfold saturating_add. lia.
  - unfold open_expiry_reallocation. destruct (deals r !! id) as [d|] eqn:Ed; [|done].
    destruct (has_ticket r id) eqn:Eh; [done|]. simpl. apply rtc_once, cs_ticket; [apply Hroom|done|done].
  - apply rtc_once. exact (cs_overdue r now).
  - destruct (expire_deal r id now) as [[r' bond]|] eqn:E; [|done].
    unfold expire_deal in E. inv_ok E. case_bool_decide as Hst; cbn [negb] in E; [|by injection E as <- _].
    inv_ok E. apply rtc_once, cs_expire; [done|congruence].
  - exact (prune_steps r mid now Hi).
Qed.


(** ** Reachable registries *)

Lemma keyed_register r m : keyed r -> keyed (register_manifest r m).
Proof.
  intros Hk. unfold register_manifest. destruct (manifests r !! _) eqn:E; [done|].
  intros mid m'. simpl. intros [[<- <-]|[_ Hm]]%lookup_insert_Some; [done|by apply Hk].
Qed.

Lemma keyed_same r r' : manifests r' = manifests r -> keyed r -> keyed r'.
Proof. intros E Hk mid m. rewrite E. apply Hk. Qed.

(** What one call does to the counters and the manifests. *)
Record modest (r r' : StorageRegistry) : Prop := {
  mod_deal : next_deal_id r' <= next_deal_id r + 1;
  mod_challenge : next_challenge_id r' <= next_challenge_id r + 1;
  mod_ticket : next_reallocation_id r' <= next_reallocation_id r + 1;
  mod_keyed : keyed r -> keyed r';
}.

Lemma modest_refl r : modest r r.
Proof. constructor; [lia..|done]. Qed.

Lemma wrapping_le x : 0 <= x -> wrapping_add U64 x 1 <= x + 1.
Proof. intros. unfold wrapping_add. apply Z.mod_le; lia. Qed.

Lemma modest_open_deal r m a p r' id : inv r -> open_deal r m a p = Ok (r', id) -> modest r r'.
Proof.
  intros Hi (s & _ & _ & _ & _ & _ & ->)%open_deal_Ok. pose proof (inv_next _ Hi).
  pose proof (register_manifest_core r m) as [Hd Hc Ht _ _ _ _ _].
  constructor; simpl; [|lia..|by apply keyed_register]. rewrite Hd. apply wrapping_le. lia.
Qed.

Lemma modest_add_challenge r c : inv r -> modest r (add_challenge r c).
Proof. intros Hi. pose proof (inv_next _ Hi). constructor; simpl; [lia|apply wrapping_le; lia|lia|done]. Qed.

Lemma modest_open_ticket r r0 d id who now :
  next_deal_id r = next_deal_id r0 -> next_challenge_id r = next_challenge_id r0 ->
  next_reallocation_id r = next_reallocation_id r0 -> manifests r = manifests r0 ->
  modest r0 (open_ticket r d id who now).
Proof.
  intros E1 E2 E3 E4. constructor; simpl; [lia|lia|rewrite E3; unfold saturating_add; lia|].
  by apply keyed_same.
Qed.

Lemma modest_same r r' :
  next_deal_id r' = next_deal_id r -> next_challenge_id r' = next_challenge_id r ->
  next_reallocation_id r' = next_reallocation_id r -> manifests r' = manifests r -> modest r r'.
Proof. intros. constructor; [lia..|by apply keyed_same]. Qed.

Lemma modest_results r r' m : modest r r' -> modest r (with_results m r').
Proof. by intros []. Qed.

Lemma op_modest r op : inv r -> modest r (apply_op r op).
Proof.
  intros Hi. pose proof (modest_refl r) as Hr. destruct op; simpl.
  - unfold declare_self_host_policy. destruct (map_err _ _); simpl; by apply modest_same.
  - by apply modest_same.
  - by apply modest_same.
  - by apply modest_same.
  - destruct (register_manifest_core r m). constructor; [lia..|apply keyed_register].
  - destruct (open_deal r m a p) as [[r' id]|] eqn:E; [|done]. by eapply modest_open_deal.
  - destruct (open_challenge _ _ _ _ _ _ _ _) as [[r' cid]|] eqn:E; [|done].
    apply open_challenge_Ok in E as (d & _ & -> & _). by apply modest_add_challenge.
  - destruct (open_challenge_with_entropy r q who entropy) as [[r' cid]|] eqn:E; [|done].
    unfold open_challenge_with_entropy in E. inv_ok E. destruct x2 as [start fin].
    apply open_challenge_Ok in E as (d & _ & -> & _). by apply modest_add_challenge.
  - destruct (answer_challenge_with_chain_id _ _ _ _ _ _ _) as [[r' res]|] eqn:E; [|done].
    unfold answer_challenge_with_chain_id in E. inv_ok E. revert E.
    match goal with |- match ?v with Ok _ => _ | Err _ => _ end = _ -> _ => destruct v end;
      intros E; inv_ok E; simplify_eq; by apply modest_same.
  - destruct (finalize_missed_challenge r cid now) as [[r' res]|] eqn:E; [|done].
    unfold finalize_missed_challenge in E. inv_ok E. simpl.
    destruct (has_ticket _ _); [by apply modest_same|].
    by apply modest_results, modest_open_ticket.
  - destruct (accept_reallocation_ticket _ _ _ _ _ _ _ _ _) as [[r' id]|] eqn:E; [|done].
    unfold accept_reallocation_ticket in E. inv_ok E. destruct x3 as [r1 id1]. injection E as <- <-. simpl.
    match goal with E : open_deal _ _ _ _ = Ok _ |- _ => apply (modest_open_deal _ _ _ _ _ _ Hi) in E as [] end.
    destruct (reallocations r1 !! tid); by constructor.
  - destruct (renew_deal r id who now extra) as [[r' fin]|] eqn:E; [|done].
    unfold renew_deal in E. inv_ok E. by apply modest_same.
  - unfold open_expiry_reallocation. destruct (deals r !! id); [|done].
    destruct (has_ticket r id); [done|]. by apply modest_open_ticket.
  - by apply modest_same.
  - destruct (expire_deal r id now) as [[r' bond]|] eqn:E; [|done].
    unfold expire_deal in E. inv_ok E. case_bool_decide; cbn [negb] in E; [|by injection E as <- _].
    inv_ok E. by apply modest_same.
  - constructor; simpl; [lia..|]. intros Hk mid' m Hm. simpl in Hm. apply lookup_delete_Some in Hm as [_ Hm]. by apply Hk.
Qed.

(** Registries after a number of calls from the empty one. *)
Inductive reachable : nat -> StorageRegistry -> Prop :=
| reach_new : reachable 0 new
| reach_op i r op : reachable i r -> op_wf op -> reachable (S i) (apply_op r op).

(** Tickets stay with their deals. *)
Lemma cstep_ticketed r r' id : inv r -> cstep r r' -> ticketed r id -> ticketed r' id.
Proof.
  intros Hi Hs (tid & t & Ht & Hid). destruct Hs; try (by exists tid, t).
  - exists tid, t. split; [|done]. by rewrite (same_tickets _ _ ltac:(done)).
  - exists tid, t. split; [|done]. cbn. rewrite lookup_insert_ne; [done|].
    destruct (inv_tickets _ Hi _ _ Ht) as (_ & ? & _). lia.
  - eexists tid, _. cbn. rewrite lookup_fmap, Ht. split; [done|]. by case_match.
  - destruct (decide (tid0 = tid)) as [->|Hne].
    + eexists tid, _. cbn. rewrite lookup_insert_eq. split; [done|]. by simplify_eq.
    + exists tid, t. cbn. by rewrite lookup_insert_ne.
Qed.

Lemma cstep_missed r r' : inv r -> cstep r r' -> missed_ticketed r -> missed_ticketed r'.
Proof.
  intros Hi Hs Hm. pose proof (cstep_ticketed r r') as Hkeep.
  assert (Hold : forall cid res, results r !! cid = Some res -> outcome res = Missed -> ticketed r' (r_deal res))
    by (intros cid res ??; apply Hkeep; [done|done|by eapply Hm]).
  intros cid res E Ho. destruct Hs; try (by eapply Hold).
  - eapply Hold; [|done]. by rewrite <- (same_results _ _ ltac:(done)).
  - cbn in E. apply lookup_insert_Some in E as [[<- <-]|[_ E]]; [done|by eapply Hold].
  - pose proof E as E'. cbn in E'. apply lookup_insert_Some in E' as [[<- <-]|[_ E']]; [|by eapply Hold].
    cbn in Ho. subst o. apply Hkeep; [done|by econstructor|]. apply has_ticket_true. naive_solver.
Qed.

Lemma csteps_inv r r' : rtc cstep r r' -> inv r -> inv r'.
Proof. induction 1; eauto using cstep_inv. Qed.

Lemma csteps_missed r r' : rtc cstep r r' -> inv r -> missed_ticketed r -> missed_ticketed r'.
Proof. induction 1; eauto using cstep_inv, cstep_missed. Qed.

Lemma reachable_facts i r :
  reachable i r -> Z.of_nat i < U64 - 1 ->
  inv r /\ keyed r /\ next_deal_id r <= Z.of_nat i /\ next_challenge_id r <= Z.of_nat i /\
  next_reallocation_id r <= Z.of_nat i.
Proof.
  induction 1 as [|i r op Hr IH Hwf]; intros Hi; [split_and!; try done; apply inv_new|].
  destruct IH as (Hinv & Hk & ? & ? & ?); [lia|]. destruct (op_modest r op Hinv).
  assert (room r) by (constructor; lia).
  split_and!; [by eapply csteps_inv; [apply op_steps|]|auto|lia..].
Qed.

Lemma reachable_missed i r : reachable i r -> Z.of_nat i < U64 - 1 -> missed_ticketed r.
Proof.
  induction 1 as [|i r op Hr IH Hwf]; intros Hi; [intros cid res E; cbn in E; by rewrite lookup_empty in E|].
  destruct (reachable_facts i r Hr) as (Hinv & Hk & ? & ? & ?); [lia|].
  eapply csteps_missed; [apply op_steps; try done; constructor; lia|done|apply IH; lia].
Qed.

(** C33: The storage registry stays consistent.  After any number (below
    2^64 - 1) of calls of its methods, in any order and with any arguments that
    fit their types, the registry satisfies [inv]: identifiers are unique and
    below their counters; the shard index lists exactly the deals of each shard,
    once; every challenge belongs to a deal and covers a non-empty range paid
    for by its bond; a result exists only for a challenge, on the right side of
    its deadline; a deal is slashed exactly when one of its challenges was
    missed or mismatched, and the recorded slash is the bond; every
    reallocation ticket names an existing deal (of any status: one is also
    opened at the end of a term), no deal has two, and the replacement of a
    ticket is a later deal for the same shard and replica.  Every deal with a
    missed challenge has a ticket; one with a mismatched answer need not. *)
Theorem storage_registry_consistent (i : nat) (r : StorageRegistry)
    (Hr : reachable i r) (Hi : Z.of_nat i < U64 - 1) :
  inv r /\ missed_ticketed r.
Proof. split; [by apply (reachable_facts i r)|by eapply reachable_missed]. Qed.

(** ** Throttling *)

(** How many challenges an operator can face, and how close together. *)
Record throttled (r : StorageRegistry) : Prop := {
  th_deal : forall id, open_count r id <= MAX_OPEN_CHALLENGES_PER_DEAL;
  th_operator : forall who, operator_open r who <= MAX_OPEN_CHALLENGES_PER_OPERATOR;
  th_space : forall i j c c' d d', i < j -> challenges r !! i = Some c -> challenges r !! j = Some c' ->
    deals r !! c_deal c = Some d -> deals r !! c_deal c' = Some d' ->
    operator d = operator d' -> d_manifest d = d_manifest d' ->
    saturating_add U64 (challenge_epoch c) MIN_OPERATOR_MANIFEST_CHALLENGE_EPOCHS <= challenge_epoch c';
}.

Lemma cstep_extends r r' : inv r -> cstep r r' -> extends r r'.
Proof.
  intros Hi Hs. pose proof (inv_next _ Hi). destruct Hs.
  - destruct H1. apply extends_same_deals; congruence || lia || (by rewrite ?same_challenges0, ?same_results0).
  - constructor; simpl; try done; [unfold wrapping_add; rewrite Z.mod_small; lia|].
    intros id d0 E. exists d0. split; [|apply evolves_refl]. rewrite lookup_insert_ne; [done|].
    intros <-. destruct (inv_deals _ Hi _ _ E) as (_ & ? & _). lia.
  - apply extends_same_deals; simpl; try done; [unfold wrapping_add; rewrite Z.mod_small; lia|].
    apply insert_subseteq. destruct (challenges r !! challenge_id c) as [c0|] eqn:E; [|done].
    destruct (inv_challenges _ Hi _ _ E) as (_ & ? & _). pose proof (g_id _ _ _ H2). lia.
  - apply extends_same_deals; simpl; try done. by apply insert_subseteq.
  - eapply (extends_deals r (c_deal c) d); [done|by constructor|]. by apply insert_subseteq.
  - rewrite <- (with_results_id (update_deal id (set_status Expired d) r)).
    eapply (extends_deals r id d); [done| |done]. by constructor; simpl.
  - rewrite <- (with_results_id (update_deal id (set_end e d) r)).
    by eapply (extends_deals r id d).
  - apply extends_same_deals; simpl; try done. unfold saturating_add. lia.
  - by apply extends_same_deals.
  - by apply extends_same_deals.
Qed.

(** The deal of a challenge keeps its operator and manifest. *)
Lemma challenged_deal r r' cid c d' :
  inv r -> extends r r' -> challenges r !! cid = Some c -> deals r' !! c_deal c = Some d' ->
  exists d, deals r !! c_deal c = Some d /\ operator d' = operator d /\ d_manifest d' = d_manifest d.
Proof.
  intros Hi Hx Hc Hd'. destruct (inv_challenges _ Hi _ _ Hc) as (_ & _ & _ & _ & _ & d & Hd & _).
  destruct (ext_deals _ _ Hx _ _ Hd) as (d'' & Hd'' & []). simplify_eq. eauto.
Qed.

Lemma throttled_kept r r' :
  inv r -> extends r r' -> challenges r' = challenges r -> throttled r -> throttled r'.
Proof.
  intros Hi Hx Ec [Hd Ho Hs].
  assert (Hu : forall c, unresolved r' c = true -> unresolved r c = true).
  { intros c. unfold unresolved. rewrite !bool_decide_eq_true. intros E.
    destruct (results r !! challenge_id c) as [res|] eqn:Er; [|done]. apply (ext_results _ _ Hx) in Er. congruence. }
  constructor.
  - intros id. etrans; [|apply (Hd id)]. unfold open_count. rewrite Ec. apply count_mono. naive_solver.
  - intros who. etrans; [|apply (Ho who)]. unfold operator_open. rewrite Ec. apply count_mono.
    intros c [cid Hc]%elem_of_values [Hun Hop]. split; [by apply Hu|].
    destruct (deals r' !! c_deal c) as [d'|] eqn:E'; [|done]. injection Hop as Hop.
    destruct (challenged_deal _ _ _ _ _ Hi Hx Hc E') as (d & -> & Eo & _). simpl. congruence.
  - intros i j c c' d d' Hij Hi' Hj' Hcd Hcd' Eo Em. rewrite Ec in Hi', Hj'.
    destruct (challenged_deal _ _ _ _ _ Hi Hx Hi' Hcd) as (e & He & Eo1 & Em1).
    destruct (challenged_deal _ _ _ _ _ Hi Hx Hj' Hcd') as (e' & He' & Eo2 & Em2).
    apply (Hs i j c c' e e'); congruence.
Qed.

Lemma throttled_challenge r c d :
  inv r -> challenge_guard r c d -> throttled r -> throttled (add_challenge r c).
Proof.
  intros Hi [Hid Hd _ _ _ _ _ Hrate Hopen Hop] [Td To Ts].
  assert (Hfresh : challenges r !! challenge_id c = None).
  { destruct (challenges r !! challenge_id c) as [c0|] eqn:E; [|done].
    destruct (inv_challenges _ Hi _ _ E) as (_ & ? & _). lia. }
  constructor.
  - intros id. unfold open_count. simpl. rewrite count_values_insert by done.
    change (zlen _) with (open_count r id). specialize (Td id). case_decide as E; [|lia].
    destruct E as [E _]. rewrite <- E in *. lia.
  - intros who. unfold operator_open. simpl. rewrite count_values_insert by done.
    change (zlen _) with (operator_open r who). specialize (To who). case_decide as E; [|lia].
    destruct E as [_ E]. rewrite Hd in E. injection E as <-. lia.
  - intros i j c1 c2 d1 d2 Hij Hi' Hj'. simpl in *. intros Hd1 Hd2 Eo Em.
    apply lookup_insert_Some in Hi' as [[<- <-]|[_ Hi']], Hj' as [[<- <-]|[_ Hj']]; [lia| | |by eapply (Ts i j)].
    + destruct (inv_challenges _ Hi _ _ Hj') as (_ & ? & _). lia.
    + simplify_eq. apply Hrate. unfold next_epochs. apply list_elem_of_omap. exists c1.
      split; [apply elem_of_values; eauto|]. rewrite Hd1. simpl. by rewrite !bool_decide_true.
Qed.

Lemma cstep_throttled r r' : inv r -> cstep r r' -> throttled r -> throttled r'.
Proof.
  intros Hi Hs Ht. pose proof (cstep_extends _ _ Hi Hs) as Hx.
  destruct Hs as [r r' Hc| | r c d _ Hg| | | | | | |]; [|shelve|by eapply throttled_challenge|shelve..].
  - apply (throttled_kept r); [done..|by destruct Hc|done].
  Unshelve. all: exact (throttled_kept r _ Hi Hx eq_refl Ht).
Qed.

Lemma csteps_throttled r r' : rtc cstep r r' -> inv r -> throttled r -> throttled r'.
Proof. induction 1 as [|x y z Hs _ IH]; [done|]. intros. apply IH; eauto using cstep_inv, cstep_throttled. Qed.

Lemma throttled_new : throttled new.
Proof.
  constructor; [intros; vm_compute; discriminate..|].
  intros i j c c' d d' _ E. simpl in E. by rewrite lookup_empty in E.
Qed.

(** Challenges are throttled.  In every reachable registry no deal has more
    than ten open challenges, no operator more than sixteen, and two challenges
    of the same operator and manifest are at least four epochs apart, in the
    order in which they were opened. *)
Theorem challenges_throttled (i : nat) (r : StorageRegistry)
    (Hr : reachable i r) (Hi : Z.of_nat i < U64 - 1) :
  throttled r.
Proof.
  revert Hi. induction Hr as [|i r op Hr IH Hwf]; intros Hi; [apply throttled_new|].
  destruct (reachable_facts i r Hr) as (Hinv & Hk & ? & ? & ?); [lia|].
  eapply csteps_throttled; [apply op_steps; try done; constructor; lia|done|apply IH; lia].
Qed.

End operations.

End StorageDealFacts.
