(* ===== verification/StorageExpiry.v ===== *)
(** * Terms ending does not lose content

    Live shards of the storage registry: what [live_shard_count] counts, that
    [expire_deal] never takes an object below the shards a decode needs, and
    the same along any sequence of calls in which no deal of the object is
    slashed and the object is not pruned.  The last part shows two behaviours
    the argument has to exclude: shards with equal content, and a challenge
    left open on a deal that expires. *)

From Stdlib Require Import ZArith Lia.
From Stdlib Require Import Strings.Byte.
From stdpp Require Import base tactics strings numbers pretty gmap sorting list relations.
From S2P Require Import Prelude Hashing Gf256 Manifest Erasure StorageDeal StorageDealFacts.
Import Hashing Manifest Erasure StorageDeal StorageDealFacts.
Open Scope Z_scope.

Module StorageExpiry.

(** ** Active deals of a shard *)

(** The deal [id] is active. *)
Definition active_at (r : StorageRegistry) (id : Z) : Prop := (status <$> deals r !! id) = Some Active.
#[export] Instance active_at_dec r id : Decision (active_at r id).
Proof. unfold active_at. apply _. Defined.

Definition active_ids (r : StorageRegistry) (mid sid : ContentId) : list Z :=
  filter (active_at r) (indexed r mid sid).

Lemma active_count r mid sid : active_replica_count r mid sid = zlen (active_ids r mid sid).
Proof.
  unfold active_replica_count, deals_for_shard, active_ids, indexed.
  destruct (deals_by_shard r !! (mid, sid)) as [ids|]; [simpl|done].
  unfold zlen. f_equal. induction ids as [|id ids IH]; [done|]. simpl. rewrite (filter_cons (active_at r)).
  destruct (decide (active_at r id)) as [Ha|Ha]; unfold active_at in Ha.
  - destruct (deals r !! id) as [d|]; [|done]. injection Ha as Ha. simpl. rewrite filter_cons.
    unfold is_active. rewrite decide_True by (by rewrite bool_decide_true). simpl. f_equal. apply IH.
  - destruct (deals r !! id) as [d|]; simpl; [|done]. rewrite filter_cons. unfold is_active.
    rewrite decide_False; [done|]. rewrite bool_decide_eq_true. intros E. apply Ha. simpl. congruence.
Qed.

Definition has_active (r : StorageRegistry) (mid sid : ContentId) : Prop :=
  exists id d, deals r !! id = Some d /\ status d = Active /\ d_manifest d = mid /\ d_shard d = sid.

Lemma elem_of_active r mid sid id :
  inv r -> id ∈ active_ids r mid sid <->
  exists d, deals r !! id = Some d /\ status d = Active /\ d_manifest d = mid /\ d_shard d = sid.
Proof.
  intros Hi. unfold active_ids, active_at. rewrite list_elem_of_filter, (inv_index _ Hi).
  split.
  - intros (Ha & d & Hd & ? & ?). exists d. rewrite Hd in Ha. injection Ha as Ha. done.
  - intros (d & Hd & ? & ? & ?). rewrite Hd. simpl. split; [congruence|eauto].
Qed.

Lemma active_pos r mid sid : inv r -> 0 < active_replica_count r mid sid <-> has_active r mid sid.
Proof.
  intros Hi. rewrite active_count. split.
  - destruct (active_ids r mid sid) as [|id l] eqn:E; [done|]. intros _.
    assert (Hin : id ∈ active_ids r mid sid) by (rewrite E; left).
    apply (elem_of_active _ _ _ _ Hi) in Hin as (d & Hd). by exists id, d.
  - intros (id & d & Hd). assert (Hin : id ∈ active_ids r mid sid) by (apply elem_of_active; eauto).
    destruct (active_ids r mid sid); [by apply elem_of_nil in Hin|]. rewrite zlen_cons. unfold zlen. lia.
Qed.

(** ** Live shards *)

Lemma live_bound r mid m :
  manifests r !! mid = Some m -> zlen (shards m) < U32 ->
  live_shard_count r mid =
  zlen (filter (fun s => 0 < active_replica_count r mid (shard_id s)) (shards m)).
Proof.
  intros Hm Hl. unfold live_shard_count. rewrite Hm. apply Z.mod_small. unfold zlen in *.
  pose proof (length_filter (fun s => 0 < active_replica_count r mid (shard_id s)) (shards m)). lia.
Qed.

(** More active shards, more live shards. *)
Lemma live_mono r r' mid m :
  inv r -> inv r' -> manifests r !! mid = Some m -> manifests r' !! mid = Some m -> zlen (shards m) < U32 ->
  (forall sid, has_active r mid sid -> has_active r' mid sid) ->
  live_shard_count r mid <= live_shard_count r' mid.
Proof.
  intros Hi Hi' Hm Hm' Hl Hsub. rewrite !(live_bound _ _ m) by done.
  apply count_mono. intros s _. rewrite !active_pos by done. apply Hsub.
Qed.

(** All but at most one. *)
Lemma count_all_but_one {A B} `{!EqDecision B} (f : A -> B) (x : B) (P Q : A -> Prop)
    `{!forall a, Decision (P a)} `{!forall a, Decision (Q a)} (l : list A) :
  NoDup (map f l) -> (forall a, a ∈ l -> P a -> f a <> x -> Q a) ->
  zlen (filter P l) - 1 <= zlen (filter Q l).
Proof.
  intros Hnd HPQ. induction l as [|a l IH]; [unfold zlen; simpl; lia|]. simpl in Hnd.
  apply NoDup_cons in Hnd as [Hn Hnd]. rewrite !filter_cons.
  assert (Hl : zlen (filter P l) - 1 <= zlen (filter Q l)) by (apply IH; [done|]; intros; apply HPQ; [by right|done..]).
  destruct (decide (P a)) as [Pa|Pa], (decide (Q a)) as [Qa|Qa]; rewrite ?zlen_cons; try lia.
  destruct (decide (f a = x)) as [<-|Hne]; [|by destruct Qa; apply HPQ; [left|..]].
  assert (zlen (filter P l) <= zlen (filter Q l)); [|lia]. apply count_mono. intros b Hb Pb.
  apply HPQ; [by right|done|]. intros E. apply Hn. rewrite <- E. by apply list_elem_of_fmap_2.
Qed.

(** ** Expiry *)

Section expiry.
Context `{H : FieldHash} `{B : StorageBackend}.

(** What a decode needs. *)
Definition floor (m : ContentManifest) : Z := Z.max (k (erasure m)) 1.

Lemma expire_active_other r id d mid sid :
  deals r !! id = Some d -> (d_manifest d, d_shard d) <> (mid, sid) ->
  has_active r mid sid -> has_active (update_deal id (set_status Expired d) r) mid sid.
Proof.
  intros Hd Hne (i & e & He & Hst & Em & Es). exists i, e. simpl. rewrite lookup_insert_ne; [done|].
  intros <-. simplify_eq.
Qed.

(** With two active deals, one is left. *)
Lemma expire_active_spare r id d :
  inv r -> deals r !! id = Some d -> 1 < active_replica_count r (d_manifest d) (d_shard d) ->
  has_active (update_deal id (set_status Expired d) r) (d_manifest d) (d_shard d).
Proof.
  intros Hi Hd Hc. rewrite active_count in Hc.
  assert (Hnd : NoDup (active_ids r (d_manifest d) (d_shard d))) by apply NoDup_filter, (inv_index_once _ Hi).
  destruct (active_ids r (d_manifest d) (d_shard d)) as [|i [|j l]] eqn:E; [done|done|].
  assert (exists o, o <> id /\ o ∈ active_ids r (d_manifest d) (d_shard d)) as (o & Ho & Hin).
  { rewrite E. apply NoDup_cons in Hnd as [Hn _]. destruct (decide (i = id)) as [->|]; [|exists i; split; [done|left]].
    exists j. split; [|right; left]. intros ->. apply Hn. left. }
  apply (elem_of_active _ _ _ _ Hi) in Hin as (e & He & ? & ? & ?).
  exists o, e. simpl. by rewrite lookup_insert_ne.
Qed.

Lemma inv_expired r id d : inv r -> deals r !! id = Some d -> status d <> Slashed -> inv (update_deal id (set_status Expired d) r).
Proof. intros Hi Hd Hs. eapply cstep_inv; [by apply cs_expire|done]. Qed.

(** A deal that may expire leaves the object recoverable. *)
Lemma expire_keeps_live r id now r' bond mid m :
  inv r -> manifests r !! mid = Some m -> zlen (shards m) < U32 -> NoDup (map shard_id (shards m)) ->
  floor m <= live_shard_count r mid -> expire_deal r id now = Ok (r', bond) ->
  manifests r' !! mid = Some m /\ floor m <= live_shard_count r' mid.
Proof.
  intros Hi Hm Hl Hnd Hlive He. unfold expire_deal in He. inv_ok He. rename x into d, He0 into Hd.
  case_bool_decide as Hact; cbn [negb] in He; [|by injection He as <- _]. inv_ok He.
  change (with_deals _ r) with (update_deal id (set_status Expired d) r). split; [done|].
  assert (Hi' : inv (update_deal id (set_status Expired d) r)) by (apply inv_expired; congruence).
  destruct (decide (d_manifest d = mid)) as [<-|Hne].
  2: { etrans; [done|]. eapply live_mono; try done. intros sid. apply expire_active_other; congruence. }
  destruct (Z.leb_spec (active_replica_count r (d_manifest d) (d_shard d)) 1) as [Hone|Hmore].
  - assert (Hgt : floor m < live_shard_count r (d_manifest d)).
    { unfold permanence_floor in *. rewrite Hm in *. change (Z.max (k (erasure m)) 1) with (floor m) in *.
      cbn [andb] in *. split_bool. lia. }
    etrans; [by apply Z.lt_le_pred|]. rewrite !(live_bound _ _ m) by done. rewrite <- Z.sub_1_r.
    apply (count_all_but_one shard_id (d_shard d)); [done|]. intros s _. rewrite !active_pos by done.
    intros Ha Hs. apply expire_active_other; congruence.
  - etrans; [done|]. eapply live_mono; try done. intros sid Ha.
    destruct (decide (d_shard d = sid)) as [<-|Hs]; [by apply expire_active_spare|].
    apply expire_active_other; congruence.
Qed.

(** ** Calls that do not slash *)

(** Active deals of the object stay deals for the same shard, not expired. *)
Definition keeps (mid : ContentId) (r r' : StorageRegistry) : Prop :=
  forall id d, deals r !! id = Some d -> d_manifest d = mid -> status d = Active ->
  exists d', deals r' !! id = Some d' /\ d_manifest d' = mid /\ d_shard d' = d_shard d /\ status d' <> Expired.

Lemma keeps_same mid r r' : deals r' = deals r -> keeps mid r r'.
Proof. intros E id d Hd ? Hs. rewrite E. exists d. split_and!; congruence. Qed.

Lemma keeps_update mid r r' id d d' :
  deals r !! id = Some d -> deals r' = <[id := d']> (deals r) -> d_manifest d' = d_manifest d ->
  d_shard d' = d_shard d -> status d' <> Expired -> keeps mid r r'.
Proof.
  intros Hd E Em Es Hst i e He ? ?. rewrite E. destruct (decide (i = id)) as [->|Hne].
  - exists d'. rewrite lookup_insert_eq. simplify_eq. split_and!; congruence.
  - exists e. rewrite lookup_insert_ne by done. split_and!; congruence.
Qed.

Lemma keeps_open_deal mid r m a p r' id : inv r -> open_deal r m a p = Ok (r', id) -> keeps mid r r'.
Proof.
  intros Hi (s & _ & _ & _ & _ & _ & ->)%open_deal_Ok. pose proof (same_deals _ _ (register_manifest_core r m)) as Ed.
  intros i e He ? ?. exists e. simpl. rewrite Ed. destruct (inv_deals _ Hi _ _ He) as (_ & ? & _).
  rewrite lookup_insert_ne by lia. split_and!; congruence.
Qed.

Lemma expire_all_other ds ids id : id ∉ ids -> expire_all ds ids !! id = ds !! id.
Proof.
  unfold expire_all. revert ds. induction ids as [|i ids IH]; intros ds Hni; [done|]. simpl.
  apply not_elem_of_cons in Hni as [Hne Hni]. rewrite IH by done.
  destruct (ds !! i); [by rewrite lookup_insert_ne|done].
Qed.

Lemma op_keeps mid r op :
  inv r -> (forall id now, op <> OpExpire id now) -> (forall now, op <> OpPrune mid now) -> keeps mid r (apply_op r op).
Proof.
  intros Hi Hexp Hpr. destruct op; simpl; try (by apply keeps_same).
  - unfold declare_self_host_policy. destruct (map_err _ _); by apply keeps_same.
  - apply keeps_same, (same_deals _ _ (register_manifest_core r m)).
  - destruct (open_deal r m a p) as [[r' id]|] eqn:E; [|by apply keeps_same]. by eapply keeps_open_deal.
  - destruct (open_challenge _ _ _ _ _ _ _ _) as [[r' cid]|] eqn:E; [|by apply keeps_same].
    apply open_challenge_Ok in E as (d & _ & -> & _). by apply keeps_same.
  - destruct (open_challenge_with_entropy r q who entropy) as [[r' cid]|] eqn:E; [|by apply keeps_same].
    unfold open_challenge_with_entropy in E. inv_ok E. destruct x2 as [start fin].
    apply open_challenge_Ok in E as (d & _ & -> & _). by apply keeps_same.
  - destruct (answer_challenge_with_chain_id _ _ _ _ _ _ _) as [[r' res]|] eqn:E; [|by apply keeps_same].
    unfold answer_challenge_with_chain_id in E. inv_ok E. revert E.
    match goal with |- match ?v with Ok _ => _ | Err _ => _ end = _ -> _ => destruct v end;
      intros E; inv_ok E; simplify_eq.
    { by apply keeps_same. }
    match goal with E : deals r !! deal_id _ = Some ?d |- _ =>
      by apply (keeps_update mid r _ _ d (set_status Slashed d) E) end.
  - destruct (finalize_missed_challenge r cid now) as [[r' res]|] eqn:E; [|by apply keeps_same].
    unfold finalize_missed_challenge in E. inv_ok E. simpl.
    match goal with E : deals r !! c_deal _ = Some ?d |- _ =>
      apply (keeps_update mid r _ _ d (set_status Slashed d) E); [by destruct (has_ticket _ _)|done..] end.
  - destruct (accept_reallocation_ticket _ _ _ _ _ _ _ _ _) as [[r' id]|] eqn:E; [|by apply keeps_same].
    unfold accept_reallocation_ticket in E. inv_ok E. destruct x3 as [r1 id1]. injection E as <- <-. simpl.
    match goal with E : open_deal _ _ _ _ = Ok _ |- _ => apply (keeps_open_deal mid) in E as Hk; [|done] end.
    by destruct (reallocations r1 !! tid).
  - destruct (renew_deal r id who now extra) as [[r' fin]|] eqn:E; [|by apply keeps_same].
    unfold renew_deal in E. inv_ok E. unfold is_active in *. split_bool. eapply keeps_update; try done. simpl. congruence.
  - unfold open_expiry_reallocation. destruct (deals r !! id); [|by apply keeps_same].
    destruct (has_ticket r id); by apply keeps_same.
  - by destruct (Hexp id now).
  - intros id d Hd Em Hs. exists d. simpl. split_and!; try congruence.
    change (expire_all (deals r) (map deal_id (filter (fun d => is_active d = true) (deals_for_manifest r mid0))) !! id = Some d).
    rewrite expire_all_other; [done|]. intros (e & -> & [_ [Eq [j Hj]%elem_of_values]%list_elem_of_filter]%list_elem_of_filter)%list_elem_of_fmap.
    destruct (inv_deals _ Hi _ _ Hj) as (Ej & _). rewrite Ej in Hd. simplify_eq. by destruct (Hpr now).
Qed.

Lemma register_manifest_kept r m mid m' :
  manifests r !! mid = Some m' -> manifests (register_manifest r m) !! mid = Some m'.
Proof.
  intros Hm. unfold register_manifest. destruct (manifests r !! manifest_id m) eqn:E; [done|]. simpl.
  rewrite lookup_insert_ne; [done|]. intros <-. congruence.
Qed.

Lemma op_manifest mid m r op :
  manifests r !! mid = Some m -> (forall now, op <> OpPrune mid now) -> manifests (apply_op r op) !! mid = Some m.
Proof.
  intros Hm Hpr. destruct op; simpl; try done.
  - unfold declare_self_host_policy. by destruct (map_err _ _).
  - by apply register_manifest_kept.
  - destruct (open_deal r m0 a p) as [[r' id]|] eqn:E; [|done].
    apply open_deal_Ok in E as (s & _ & _ & _ & _ & _ & ->). by apply register_manifest_kept.
  - destruct (open_challenge _ _ _ _ _ _ _ _) as [[r' cid]|] eqn:E; [|done].
    by apply open_challenge_Ok in E as (d & _ & -> & _).
  - destruct (open_challenge_with_entropy r q who entropy) as [[r' cid]|] eqn:E; [|done].
    unfold open_challenge_with_entropy in E. inv_ok E. destruct x2 as [start fin].
    by apply open_challenge_Ok in E as (d & _ & -> & _).
  - destruct (answer_challenge_with_chain_id _ _ _ _ _ _ _) as [[r' res]|] eqn:E; [|done].
    unfold answer_challenge_with_chain_id in E. inv_ok E. revert E.
    match goal with |- match ?v with Ok _ => _ | Err _ => _ end = _ -> _ => destruct v end;
      intros E; inv_ok E; by simplify_eq.
  - destruct (finalize_missed_challenge r cid now) as [[r' res]|] eqn:E; [|done].
    unfold finalize_missed_challenge in E. inv_ok E. simpl. by destruct (has_ticket _ _).
  - destruct (accept_reallocation_ticket _ _ _ _ _ _ _ _ _) as [[r' id]|] eqn:E; [|done].
    unfold accept_reallocation_ticket in E. inv_ok E. destruct x3 as [r1 id1]. injection E as <- <-. simpl.
    match goal with E : open_deal _ _ _ _ = Ok _ |- _ => apply open_deal_Ok in E as (s & _ & _ & _ & _ & _ & ->) end.
    apply (register_manifest_kept _ x2) in Hm.
    match goal with |- context [match ?t with Some _ => _ | None => _ end] => by destruct t end.
  - destruct (renew_deal r id who now extra) as [[r' fin]|] eqn:E; [|done].
    unfold renew_deal in E. by inv_ok E.
  - unfold open_expiry_reallocation. destruct (deals r !! id); [|done]. by destruct (has_ticket r id).
  - destruct (expire_deal r id now) as [[r' bond]|] eqn:E; [|done].
    unfold expire_deal in E. inv_ok E. case_bool_decide; cbn [negb] in E; [by inv_ok E|by injection E as <- _].
  - rewrite lookup_delete_ne; [done|]. intros ->. by destruct (Hpr now).
Qed.

(** The call slashes no active deal of the object and does not prune it. *)
Definition harmless (mid : ContentId) (r : StorageRegistry) (op : Op) : Prop :=
  (forall now, op <> OpPrune mid now) /\
  forall id d, deals r !! id = Some d -> d_manifest d = mid -> status d = Active ->
    (status <$> deals (apply_op r op) !! id) <> Some Slashed.

(** A number of harmless calls. *)
Inductive calm (mid : ContentId) : nat -> StorageRegistry -> StorageRegistry -> Prop :=
| calm_done r : calm mid 0 r r
| calm_call i r op r' : op_wf op -> harmless mid r op -> calm mid i (apply_op r op) r' -> calm mid (S i) r r'.

Lemma harmless_live r op mid m :
  inv r -> inv (apply_op r op) -> manifests r !! mid = Some m -> zlen (shards m) < U32 ->
  NoDup (map shard_id (shards m)) -> floor m <= live_shard_count r mid -> harmless mid r op ->
  manifests (apply_op r op) !! mid = Some m /\ floor m <= live_shard_count (apply_op r op) mid.
Proof.
  intros Hi Hi' Hm Hl Hnd Hlive [Hpr Hslash].
  pose proof (op_manifest mid m r op Hm Hpr) as Hm'. split; [done|].
  assert (Hother : (forall id now, op <> OpExpire id now) -> floor m <= live_shard_count (apply_op r op) mid).
  { intros Hne. etrans; [done|]. eapply live_mono; try done. intros sid (id & d & Hd & Hs & Em & Es).
    destruct (op_keeps mid r op Hi Hne Hpr id d Hd Em Hs) as (d' & Hd' & Em' & Es' & Hx).
    exists id, d'. split_and!; [done| |done|congruence]. pose proof (Hslash id d Hd Em Hs) as Hns.
    rewrite Hd' in Hns. simpl in Hns. by destruct (status d'). }
  destruct op; try (by apply Hother). simpl in *.
  destruct (expire_deal r id now) as [[r' bond]|] eqn:E; [|done].
  by apply (expire_keeps_live r id now r' bond mid m).
Qed.

(** C34: The end of a storage term never makes an object unreadable.  Take a
    registered object whose shards have distinct contents and that has at least
    the [k] live shards a decode needs.  Whatever is called afterwards - deals
    opened, renewed and expired, challenges, replacements, other objects pruned
    - as long as none of its active deals is slashed and it is not pruned
    itself, it keeps at least [k] live shards. *)
Theorem expiry_never_strands (i j : nat) (r r' : StorageRegistry) (mid : ContentId) (m : ContentManifest)
    (Hr : reachable i r) (Hij : Z.of_nat (i + j) < U64 - 1)
    (Hm : manifests r !! mid = Some m) (Hl : zlen (shards m) < U32)
    (Hnd : NoDup (map shard_id (shards m)))
    (Hlive : floor m <= live_shard_count r mid) (Hcalm : calm mid j r r') :
  manifests r' !! mid = Some m /\ is_recoverable m (live_shard_count r' mid) = true.
Proof.
  assert (Hend : manifests r' !! mid = Some m /\ floor m <= live_shard_count r' mid).
  { revert i Hr Hij Hm Hlive. induction Hcalm as [r|j r op r' Hwf Hh _ IH]; intros i Hr Hij Hm Hlive; [done|].
    pose proof (reach_op _ _ _ Hr Hwf) as Hr'.
    destruct (reachable_facts i r Hr) as (Hinv & _); [lia|]. destruct (reachable_facts _ _ Hr') as (Hinv' & _); [lia|].
    destruct (harmless_live r op mid m) as [Hm' Hlive']; try done. apply (IH (S i)); try done. lia. }
  destruct Hend as [Hm' Hf]. split; [done|]. unfold is_recoverable, floor in *. lia.
Qed.

Lemma expire_harmless mid r id now : harmless mid r (OpExpire id now).
Proof.
  split; [done|]. intros i d Hd Em Hs. simpl. destruct (expire_deal r id now) as [[r' bond]|] eqn:E; simpl.
  - unfold expire_deal in E. inv_ok E. case_bool_decide; cbn [negb] in E.
    + inv_ok E. simpl. destruct (decide (i = id)) as [->|]; [by rewrite lookup_insert_eq|].
      rewrite lookup_insert_ne by done. rewrite Hd. simpl. congruence.
    + injection E as <- _. rewrite Hd. simpl. congruence.
  - rewrite Hd. simpl. congruence.
Qed.

End expiry.

(** ** A registry in use

    Three shards of a two-of-three object, one deal each. *)
Module Demo.

#[export] Instance demo_backend : StorageBackend := {|
  deserialize_envelope bs := Ok (mkEnvelope 1 "" "" "" [] bs 8);
  adapter_verify _ _ _ := Ok tt;
  keccak256 bs := bs;
  DEFAULT_CHAIN_ID := 1;
|}.
#[export] Existing Instance framed_hash.

Definition sid (x : Z) : ContentId := replicate 32 x.
Definition two_of_three (a b c : Z) : ContentManifest :=
  match (let? m := from_shards [mkShard 0 (sid a) 5 Data; mkShard 1 (sid b) 5 Data; mkShard 2 (sid c) 5 Parity] in
         with_erasure m (mkScheme 2 3)) with
  | Ok m => m
  | Err _ => mkManifest [] [] 0 0 [] default_scheme 0 Plaintext
  end.

Definition terms (s replica : Z) : DealTerms :=
  mkTerms 1 (sid s) (sid 9) replica 0 10 (mkEconomics 1000000 1) (Some (replicate 64 0)) (Some zero32).
Definition open (m : ContentManifest) (s replica : Z) : Op := OpOpenDeal m (terms s replica) default_params.

Definition object : ContentManifest := two_of_three 1 2 3.
Definition run (ops : list Op) : StorageRegistry := foldl apply_op new ops.
Definition placed : StorageRegistry := run [open object 1 0; open object 2 0; open object 3 0].

Lemma placed_reachable : reachable 3 placed.
Proof. by do 3 (constructor; [|done]); constructor. Qed.
Lemma placed_manifest : manifests placed !! manifest_id object = Some object.
Proof. vm_compute. reflexivity. Qed.
Lemma placed_live : floor object <= live_shard_count placed (manifest_id object).
Proof. vm_compute. discriminate. Qed.
Lemma object_distinct : NoDup (map shard_id (shards object)).
Proof. apply (bool_decide_unpack _). vm_compute. exact I. Qed.

Definition settled : StorageRegistry := apply_op (apply_op placed (OpExpire 0 10)) (OpExpire 1 10).

(** The first expiry is accepted and the second refused. *)
Example second_expiry_refused :
  is_ok (expire_deal placed 0 10) = true /\
  expire_deal (apply_op placed (OpExpire 0 10)) 1 10 =
    Err (ExpiryWouldStrandContent 1 (manifest_id object) (sid 2) 1 2).
Proof. split; vm_compute; reflexivity. Qed.

(** Two data shards with the same content: one deal carries both, and letting
    it go leaves one live shard of the two a decode needs. *)
Definition twins : ContentManifest := two_of_three 1 1 3.
Definition twins_placed : StorageRegistry := run [open twins 1 0; open twins 3 0].

Example twin_shards_stranded :
  validate_untrusted twins = Ok tt /\
  live_shard_count twins_placed (manifest_id twins) = 3 /\
  let r := settle twins_placed (expire_deal twins_placed 0 10) in
  live_shard_count r (manifest_id twins) = 1 /\
  is_recoverable twins (live_shard_count r (manifest_id twins)) = false.
Proof. repeat split; vm_compute; reflexivity. Qed.

(** A challenge left open on a deal that expires: the bond is reported for
    refund at expiry and again as slashed when the deadline passes. *)
Definition challenged : StorageRegistry := apply_op placed (OpOpenChallenge 0 0 4 9 12 (sid 8) 5).

Example expired_deal_slashed :
  let r := settle challenged (expire_deal challenged 0 10) in
  snd <$> (match expire_deal challenged 0 10 with Ok p => Some p | Err _ => None end) = Some 1000000 /\
  (slashed_bond ∘ snd <$> match finalize_missed_challenge r 0 13 with Ok p => Some p | Err _ => None end) = Some 1000000.
Proof. split; vm_compute; reflexivity. Qed.

End Demo.

Lemma expiry_never_strands_witness :
  manifests Demo.settled !! manifest_id Demo.object = Some Demo.object /\
  is_recoverable Demo.object (live_shard_count Demo.settled (manifest_id Demo.object)) = true.
Proof.
  apply (expiry_never_strands (H := framed_hash) (B := Demo.demo_backend) 3 2 Demo.placed Demo.settled
           (manifest_id Demo.object) Demo.object Demo.placed_reachable);
    [done|apply Demo.placed_manifest|done|apply Demo.object_distinct|apply Demo.placed_live|].
  apply calm_call with (OpExpire 0 10); [done|apply expire_harmless|].
  apply calm_call with (OpExpire 1 10); [done|apply expire_harmless|]. constructor.
Defined.

Lemma challenges_throttled_witness : throttled Demo.placed.
Proof.
  apply (challenges_throttled (H := framed_hash) (B := Demo.demo_backend) 3 Demo.placed Demo.placed_reachable).
  lia.
Defined.

End StorageExpiry.
