(* ===== verification/StorageChallenge.v ===== *)
(** * Challenges, audits and fees

    Properties of single storage operations: what a fee is, where a randomly
    placed challenge lies, what a coding audit accepts, and that a challenge
    nobody answers ends in a slash and a ticket, which takes a replacement. *)

From Stdlib Require Import ZArith Lia.
From Stdlib Require Import Strings.Byte.
From stdpp Require Import base tactics strings numbers pretty gmap sorting list relations.
From S2P Require Import Prelude Hashing Gf256 Manifest Erasure ErasureFacts ErasureObject.
From S2P Require Import StorageDeal StorageDealFacts StorageExpiry.
Import Hashing Gf256 Manifest Erasure ErasureFacts ErasureObject StorageDeal StorageDealFacts StorageExpiry.
Open Scope Z_scope.

Module StorageChallenge.

(** ** Fees *)

(** Rounding up. *)
Definition ceil_div (a b : Z) : Z := (a + b - 1) / b.

Lemma div_ceil_eq a b : 0 <= a -> 0 < b -> div_ceil a b = ceil_div a b.
Proof.
  intros Ha Hb. unfold div_ceil, ceil_div. pose proof (Z.div_mod a b ltac:(lia)). pose proof (Z.mod_pos_bound a b Hb).
  destruct (Z.eqb_spec (a mod b) 0).
  - apply Z.div_unique with (b - 1); lia.
  - apply Z.div_unique with (a mod b - 1); lia.
Qed.

Lemma ceil_div_mono a a' b : 0 < b -> a <= a' -> ceil_div a b <= ceil_div a' b.
Proof. intros. unfold ceil_div. apply Z.div_le_mono; lia. Qed.

(** Fees are exact.  For arguments of type [u64] the fee of a deal is the
    price of the bytes for the epochs, in billionths, rounded up, and cut off at
    the largest [u64]; the saturation of the intermediate [u128] products is
    never visible. *)
Theorem total_fee_exact (e : StorageEconomicsParams) (bytes epochs : Z)
    (Hrate : fee_per_byte_epoch e ∈u U64) (Hbytes : bytes ∈u U64) (Hepochs : epochs ∈u U64) :
  total_fee e bytes epochs =
  Z.min (ceil_div (fee_per_byte_epoch e * bytes * epochs) FEE_RATE_SCALE) (U64 - 1).
Proof.
  unfold total_fee, saturating_mul. set (f := fee_per_byte_epoch e) in *.
  assert (Hfb : f * bytes <= (U64 - 1) * (U64 - 1)) by nia.
  rewrite (Z.min_l (f * bytes)) by lia. assert (0 <= f * bytes * epochs) by nia.
  rewrite div_ceil_eq by (unfold FEE_RATE_SCALE; lia).
  destruct (Z.min_spec (f * bytes * epochs) (U128 - 1)) as [[Hlt ->]|[Hge ->]].
  - destruct (Z.ltb_spec (ceil_div (f * bytes * epochs) FEE_RATE_SCALE) U64); lia.
  - pose proof (ceil_div_mono (U128 - 1) (f * bytes * epochs) FEE_RATE_SCALE ltac:(done) Hge) as Hm.
    assert (U64 <= ceil_div (U128 - 1) FEE_RATE_SCALE) by (vm_compute; discriminate).
    rewrite (proj2 (Z.ltb_ge _ _)) by done. lia.
Qed.

Lemma total_fee_exact_witness : total_fee (mkEconomics 5 3) 262144 100 = 1.
Proof.
  rewrite (total_fee_exact (mkEconomics 5 3) 262144 100); [reflexivity|simpl; lia..].
Defined.

(** ** Challenge ranges *)

Section challenges.
Context `{H : FieldHash} `{B : StorageBackend}.

Lemma derive_range_in_shard entropy d m who epoch deadline len cid start fin s :
  shard m (d_shard d) = Some s -> 0 <= size s -> 0 <= len ->
  derive_challenge_range entropy d m who epoch deadline len cid = Ok (start, fin) ->
  0 <= start /\ fin = start + Z.min len (size s) /\ fin <= size s.
Proof.
  intros Hs Hsz Hlen Hd. unfold derive_challenge_range in Hd. rewrite Hs in Hd. cbn [ok_or rbind] in Hd.
  inv_ok Hd. split_bool.
  match goal with E : _ ≫= _ = Some ?c |- _ => apply bind_Some in E as (l & El & Ec);
    apply checked_add_Some in Ec as [-> _]; unfold checked_sub in El end.
  destruct (Z.leb_spec (Z.min len (size s)) (size s)); [|done]. injection El as <-.
  pose proof (Z.mod_pos_bound (le_decode (take 8 (hash_fields_bytes
    [ascii_bytes "BDLM_STORAGE_RANDOM_CHALLENGE_RANGE_V1"; entropy; u64_le (deal_id d); u32_le (domain_id d);
     d_manifest d; d_shard d; [replica_index d]; operator d; who; u64_le epoch; u64_le deadline; u64_le len; u64_le cid])))
    (size s - Z.min len (size s) + 1)). lia.
Qed.

(** A random challenge asks for bytes that exist.  When
    [open_challenge_with_entropy] succeeds, the stored challenge is the next
    one, on an active deal, and its range is non-empty, as long as was asked for
    or the whole shard, and inside the shard - whatever the entropy and the
    hash are. *)
Theorem challenge_inside_shard (r r' : StorageRegistry) (q : RetrievalChallengeRequest) (who : Address)
    (entropy : Hash32) (cid : Z) (d : StorageDeal) (m : ContentManifest) (s : ShardRef)
    (Hopen : open_challenge_with_entropy r q who entropy = Ok (r', cid))
    (Hd : deals r !! q_deal q = Some d) (Hm : manifests r !! d_manifest d = Some m)
    (Hs : shard m (d_shard d) = Some s) (Hsize : 0 <= size s) :
  exists c, challenges r' !! cid = Some c /\ cid = next_challenge_id r /\ c_deal c = q_deal q /\
    status d = Active /\ 0 <= byte_start c < byte_end c /\ byte_end c <= size s /\
    byte_end c - byte_start c = Z.min (q_end q - q_start q) (size s).
Proof.
  unfold open_challenge_with_entropy in Hopen. rewrite Hd in Hopen. cbn [ok_or rbind] in Hopen.
  inv_ok Hopen. split_bool. destruct x1 as [start fin]. simplify_eq.
  apply (derive_range_in_shard _ _ _ _ _ _ _ _ _ _ s) in Hopen2 as (? & -> & ?); [|done|done|lia].
  apply open_challenge_Ok in Hopen as (d' & [] & -> & ->). simpl in *. simplify_eq.
  eexists. rewrite lookup_insert_eq. split_and!; [done..|simpl; lia].
Qed.

(** ** Coding audits *)

Lemma column_sum (f : nat -> Byte.byte) (col : list Byte.byte) :
  foldl (fun acc p => gf_add acc (gf_mul (f p.1) p.2)) x00 (imap pair col) =
  gsum (seq 0 (length col)) (fun j => gf_mul (f j) (col !!! j)).
Proof.
  induction col as [|b col IH] using rev_ind; [done|].
  rewrite imap_app, foldl_app, IH, length_app, seq_app, gsum_app. simpl.
  rewrite Nat.add_0_r, lookup_total_app_r, Nat.sub_diag by lia. simpl.
  rewrite (gsum_ext _ (fun j => gf_mul (f j) ((col ++ [b]) !!! j)) (fun j => gf_mul (f j) (col !!! j))).
  - unfold gsum at 2. simpl. by rewrite (gf_add_comm _ x00), gf_add_0_l.
  - intros j Hj%elem_of_seq. by rewrite lookup_total_app_l by lia.
Qed.

(** The audited byte of an honest encoding, and no other, passes. *)
Lemma column_check (rs : ReedSolomon) (data : list Shard) (len i x : nat) (b : Byte.byte) :
  coder rs -> length data = rs_k rs -> Forall (fun s => length s = len) data -> (0 < len)%nat ->
  (i < rs_m rs)%nat -> (x < len)%nat ->
  column_is_correctly_encoded rs i (map (fun s => s !!! x) data) b =
  Byte.eqb (codeword rs data len !!! (rs_k rs + i)%nat !!! x) b.
Proof.
  intros Hc Hl Hf Hlen Hi Hx. unfold column_is_correctly_encoded. rewrite length_map, Hl, Nat.eqb_refl.
  rewrite (proj2 (Nat.leb_gt _ _)) by done. cbn [negb orb]. f_equal.
  rewrite (column_sum (get (generator rs) (rs_k rs + i))). rewrite length_map, Hl.
  destruct (codeword_spec rs data len Hc Hl Hf Hlen (rs_k rs + i)) as [_ Hg]; [unfold total_shards; lia|].
  rewrite Hg by done. apply gsum_ext. intros j Hj%elem_of_seq. rewrite (coder_gen _ Hc).
  destruct (generator_spec (rs_k rs) (rs_m rs)) as [_ Hgen]. rewrite Hgen by lia. f_equal.
  apply list_lookup_total_correct. rewrite list_lookup_fmap.
  rewrite (list_lookup_lookup_total_lt data j) by lia. done.
Qed.

Lemma foldl_min l x : (forall y, y ∈ x :: l -> 0 <= y) -> 0 <= foldl Z.min x l <= x.
Proof.
  revert x. induction l as [|z l IH]; intros x Hx; simpl; [split; [apply Hx; left|lia]|].
  assert (0 <= x /\ 0 <= z) by (split; apply Hx; set_solver).
  destruct (IH (Z.min x z)); [intros y [->|]%elem_of_cons; [lia|apply Hx; set_solver]|lia].
Qed.

Lemma min_size_bounds m s l :
  shards m = s :: l -> Forall (fun s => 0 <= size s) (shards m) -> 0 <= min_size m <= size s.
Proof.
  intros E Hf. unfold min_size. rewrite E in *. apply foldl_min. intros y Hy. rewrite Forall_forall in Hf.
  apply elem_of_cons in Hy as [->|(t & -> & Ht)%list_elem_of_fmap]; apply Hf; [left|by right].
Qed.

(** What an audit drawn from a manifest asks for. *)
Lemma derive_audit_bounds entropy m cid a :
  Forall (fun s => 0 <= size s) (shards m) -> derive_coding_audit entropy m cid = Ok a ->
  a_manifest a = manifest_id m /\ 0 <= parity_index a < parity_count (erasure m) /\
  exists s l, shards m = s :: l /\ 0 <= column a < size s.
Proof.
  intros Hf Ha. unfold derive_coding_audit in Ha. inv_ok Ha. split_bool.
  assert (0 <= parity_count (erasure m)) by (unfold parity_count, saturating_sub; lia).
  destruct (shards m) as [|s l] eqn:E; [unfold min_size in *; rewrite E in *; lia|].
  destruct (min_size_bounds m s l E) as [? ?]; [by rewrite E|]. simpl. split; [done|].
  split; [apply Z.mod_pos_bound; lia|]. exists s, l. split; [done|].
  match goal with |- 0 <= ?x mod ?y < _ => pose proof (Z.mod_pos_bound x y) end. lia.
Qed.

(** Coding audits are complete and sound.  For an object that was encoded
    and registered, the audit drawn from any entropy is answered with one byte
    of each data shard and one parity byte: the check accepts the byte the
    encoder produced and rejects the 255 others as a mismatch. *)
Theorem coding_audit_exact (data : Shard) (e : ErasureScheme) (o : EncodedObject) (m : ContentManifest)
    (r : StorageRegistry) (entropy : Hash32) (cid : Z) (a : CodingAudit) (b : Byte.byte)
    (Henc : encode_object data e = Ok o) (Hman : to_manifest o = Ok m)
    (Hreg : manifests r !! manifest_id m = Some m)
    (Haudit : derive_coding_audit entropy m cid = Ok a) :
  let x := Z.to_nat (column a) in
  verify_coding_audit r a (map (fun s => s !!! x) (take (Z.to_nat (k e)) (o_shards o))) b =
  if Byte.eqb (o_shards o !!! (Z.to_nat (k e) + Z.to_nat (parity_index a))%nat !!! x) b then Ok tt
  else Err (ParityColumnMismatch (manifest_id m) (parity_index a) (column a)).
Proof.
  assert (exists rs, for_scheme e = Ok rs /\ data <> []) as (rs & Hrs & Hne).
  { pose proof Henc as Hinv. unfold encode_object in Hinv. inv_ok Hinv. split_bool. eauto. }
  rewrite (encode_object_eq data e rs) in Henc by done. injection Henc as <-.
  destruct (to_manifest_shape data e rs) with m as (Hsh & Her & _); [done..|].
  pose proof (scheme_coder e rs Hrs) as (Hc & Ek & Em). pose proof (stripes_ok data rs) as [Hl Hf].
  destruct (stripe_bounds data e rs Hne Hrs) as (_ & Hst & _).
  destruct (derive_audit_bounds entropy m cid a) as (Ea & Hp & s & l & Hs & Hcol); [|done|].
  { rewrite Hsh. apply Forall_lookup. intros i t Ht. unfold shard_refs in Ht. rewrite list_lookup_imap in Ht.
    apply fmap_Some in Ht as (u & _ & ->). simpl. apply Z.mod_pos_bound. lia. }
  assert (Hx : (Z.to_nat (column a) < stripe data rs)%nat).
  { assert (Hsz : size s <= Z.of_nat (stripe data rs)); [|lia].
    assert (H0 : shards m !! 0%nat = Some s) by (by rewrite Hs). rewrite Hsh in H0. unfold shard_refs in H0.
    rewrite list_lookup_imap in H0. apply fmap_Some in H0 as (u & Hu & ->). simpl in Hu |- *.
    destruct (codeword_spec rs (stripes data rs) (stripe data rs) Hc Hl Hf Hst 0) as [El _];
      [destruct Hc; unfold total_shards; lia|].
    rewrite (list_lookup_total_correct _ _ _ Hu) in El. unfold zlen, shard_numbers. rewrite length_map, El.
    apply Z.mod_le; lia. }
  rewrite Her in Hp. unfold verify_coding_audit. rewrite Ea, Hreg. cbn [ok_or rbind].
  rewrite Her, Hrs. cbn [map_err rbind]. rewrite bool_decide_true.
  2: { unfold parity_coefficient. rewrite (proj2 (Nat.leb_gt _ _)), (proj2 (Nat.leb_gt _ _)) by (destruct Hc; lia). eauto. }
  cbn [ensure rbind o_shards]. unfold word at 1, codeword. rewrite <- Ek, take_app_length' by done.
  rewrite (column_check rs (stripes data rs) (stripe data rs)) by (done || lia). fold (word data rs).
  by destruct (Byte.eqb _ _).
Qed.

(** ** A challenge nobody answers *)

(** The registry after a missed challenge: the deal is slashed, and has a ticket. *)
Definition after_missed (r : StorageRegistry) (cid now : Z) (c : RetrievalChallenge) (d : StorageDeal) : StorageRegistry :=
  let r1 := update_deal (c_deal c) (set_status Slashed d) r in
  record_result cid (mkResult cid (c_deal c) Missed now (operator_bond (economics d)))
    (if has_ticket r (c_deal c) then r1 else open_ticket r1 d (c_deal c) (operator d) now).

Lemma finalize_missed_eq r cid now c d :
  results r !! cid = None -> challenges r !! cid = Some c -> deadline_epoch c < now ->
  deals r !! c_deal c = Some d ->
  finalize_missed_challenge r cid now =
  Ok (after_missed r cid now c d, mkResult cid (c_deal c) Missed now (operator_bond (economics d))).
Proof.
  intros Hr Hc Hlt Hd. unfold finalize_missed_challenge. rewrite bool_decide_true by done. cbn [ensure rbind].
  rewrite Hc. cbn [ok_or rbind]. rewrite (proj2 (Z.leb_gt _ _)) by done. cbn [negb ensure rbind].
  rewrite Hd. cbn [ok_or rbind].
  change (has_ticket (with_deals _ r) (c_deal c)) with (has_ticket r (c_deal c)).
  unfold after_missed. by destruct (has_ticket r (c_deal c)).
Qed.

Lemma after_missed_deal r cid now c d : deals (after_missed r cid now c d) !! c_deal c = Some (set_status Slashed d).
Proof. unfold after_missed. destruct (has_ticket _ _); apply lookup_insert_eq. Qed.

(** The ticket is the one there was, or a new one. *)
Lemma after_missed_ticket r cid now c d : exists tid t,
  reallocations (after_missed r cid now c d) !! tid = Some t /\ failed_deal_id t = c_deal c /\
  (has_ticket r (c_deal c) = true -> reallocations (after_missed r cid now c d) = reallocations r) /\
  (has_ticket r (c_deal c) = false -> t_status t = Pending /\ slashed_operator t = operator d).
Proof.
  unfold after_missed. destruct (has_ticket r (c_deal c)) eqn:E.
  - destruct (proj1 (has_ticket_true _ _) E) as (tid & t & Ht & Hid). by exists tid, t.
  - eexists _, _. cbn. rewrite lookup_insert_eq. by split_and!.
Qed.

Lemma open_deal_succeeds r m a p proof root s :
  o_proof a = Some proof -> o_root a = Some root -> validate_merkle_proof_format proof root = Ok tt ->
  o_start a < o_end a -> min_operator_bond p <= operator_bond (o_economics a) ->
  operator_class r (o_operator a) = AlwaysOn -> validate_untrusted m = Ok tt -> shard m (o_shard a) = Some s ->
  exists r', open_deal r m a p = Ok (r', next_deal_id r).
Proof.
  intros Hp Hr Hf Hse Hb Hcl Hv Hs. unfold open_deal. rewrite Hp, Hr. cbn [ok_or rbind]. rewrite Hf. cbn [rbind].
  rewrite (proj2 (Z.ltb_lt _ _)), (proj2 (Z.ltb_ge _ _)) by done. cbn [negb ensure rbind].
  rewrite Hcl. cbn [may_hold_primary negb]. rewrite andb_false_r. cbn [negb ensure rbind].
  rewrite bool_decide_false by done. cbn [rbind]. rewrite Hv. cbn [map_err rbind].
  unfold validate_shard_membership. rewrite Hs. cbn [ok_or rbind].
  rewrite (same_next_deal _ _ (register_manifest_core r m)). eauto.
Qed.

Lemma ticket_found r tid t id :
  inv r -> reallocations r !! tid = Some t -> failed_deal_id t = id ->
  exists i, list_find (fun t => failed_deal_id t = id) (values (reallocations r)) = Some (i, t).
Proof.
  intros Hi Ht Ef. destruct (list_find_elem_of (fun t => failed_deal_id t = id) (values (reallocations r)) t) as [[i u] Hf];
    [apply elem_of_values; eauto|done|].
  exists i. rewrite Hf. do 2 f_equal. apply list_find_Some in Hf as (Hu & Efu & _).
  apply list_elem_of_lookup_2, elem_of_values in Hu as [j Hu].
  assert (j = tid) as -> by (apply (inv_one_ticket _ Hi _ _ _ _ Hu Ht); congruence). congruence.
Qed.

Lemma lifecycle_pending r tid t id d :
  inv r -> reallocations r !! tid = Some t -> failed_deal_id t = id -> t_status t = Pending ->
  deals r !! id = Some d -> status d = Slashed -> lifecycle_state r id = Some LReallocationPending.
Proof.
  intros Hi Ht Ef Hp Hd Hs. unfold lifecycle_state. rewrite Hd. cbn [mbind option_bind]. rewrite Hs.
  destruct (ticket_found r tid t id Hi Ht Ef) as [j ->]. cbn [fmap option_fmap option_map snd]. by rewrite Hp.
Qed.

Lemma lifecycle_replacement r tid t id d :
  reallocations r !! tid = Some t -> replacement_deal_id t = Some id -> t_status t = ActiveReplacement ->
  deals r !! id = Some d -> status d = Active -> lifecycle_state r id = Some LActiveReplacement.
Proof.
  intros Ht Hrep Hst Hd Hs. unfold lifecycle_state. rewrite Hd. cbn [mbind option_bind]. rewrite Hs.
  rewrite (proj2 (existsb_exists _ _)); [done|]. exists t. split; [|by rewrite !bool_decide_true].
  apply list_elem_of_In, elem_of_values. eauto.
Qed.

(** An offer to take over a shard. *)
Record offer_ok (r : StorageRegistry) (who : Address) (start fin : Z) (e : StorageEconomicsParams)
    (p : StorageDomainParams) (proof : bytes) (root : Hash32) : Prop := {
  offer_class : operator_class r who = AlwaysOn;
  offer_term : start < fin < U64;
  offer_bond : min_operator_bond p <= operator_bond e;
  offer_proof : validate_merkle_proof_format proof root = Ok tt;
}.

(** An open ticket of a deal whose manifest is still there takes such an offer. *)
Lemma ticket_accepts r tid t d m s who start fin e p proof root :
  inv r -> keyed r -> reallocations r !! tid = Some t -> t_status t = Pending \/ t_status t = UnderReplicated ->
  deals r !! failed_deal_id t = Some d -> manifests r !! d_manifest d = Some m -> validate_untrusted m = Ok tt ->
  shard m (d_shard d) = Some s -> who <> slashed_operator t -> offer_ok r who start fin e p proof root ->
  exists r2, accept_reallocation_ticket r tid who start fin e p (Some proof) (Some root) = Ok (r2, next_deal_id r) /\
    has_active r2 (d_manifest d) (d_shard d) /\ lifecycle_state r2 (next_deal_id r) = Some LActiveReplacement.
Proof.
  intros Hi Hk Ht Hst Hd Hm Hv Hs Hwho [Hcl Hterm Hb Hpf].
  destruct (inv_tickets _ Hi _ _ Ht) as (_ & _ & (d0 & Hd0 & Ed & Em & Es & Er) & _). simplify_eq.
  destruct (open_deal_succeeds r m (mkTerms (t_domain t) (t_shard t) who (t_replica t) start fin e (Some proof) (Some root))
              p proof root s) as [r2 Hr2]; try done; [simpl; lia|simpl; congruence|].
  pose proof Hr2 as Hopen. apply open_deal_Ok in Hopen as (s' & _ & _ & _ & _ & _ & Er2).
  assert (Ht2 : reallocations r2 !! tid = Some t).
  { rewrite Er2. cbn [add_deal reallocations]. by rewrite (same_tickets _ _ (register_manifest_core r m)). }
  exists (update_ticket tid (set_replacement (next_deal_id r) (set_ticket_status ActiveReplacement t)) r2). split_and!.
  - unfold accept_reallocation_ticket. rewrite Ht. cbn [ok_or rbind]. rewrite bool_decide_true by done.
    cbn [ensure rbind]. rewrite bool_decide_false by done. cbn [negb ensure rbind].
    rewrite <- Em, Hm. cbn [ok_or rbind]. rewrite Hr2. cbn [rbind]. by rewrite Ht2.
  - rewrite Er2. eexists (next_deal_id r), _.
    cbn [update_ticket with_reallocations deals add_deal]. rewrite lookup_insert_eq. split_and!; [done|done| |done].
    simpl. by apply Hk.
  - rewrite Er2. eapply (lifecycle_replacement _ tid); [apply lookup_insert_eq|done|done|apply lookup_insert_eq|done].
Qed.

(** C35: A challenge nobody answers does not stay open, and its shard need not
    stay unserved.  Once its deadline has passed, finalizing it succeeds,
    records the whole bond as slashed and leaves the deal slashed with a ticket:
    a new pending one, or the one the deal had already (from an earlier missed
    challenge or the end of its term), as it was.  While the ticket is pending
    or under-replicated, and the manifest of the deal is registered, valid and
    names the shard (it can have been pruned), the ticket accepts any operator
    of the always-on class but the one it names as slashed, with a sufficient
    bond and a well-formed proof, after which the shard has an active deal
    again. *)
Theorem missed_challenge_reassigned (i : nat) (r : StorageRegistry) (cid now : Z)
    (c : RetrievalChallenge) (d : StorageDeal)
    (Hr : reachable i r) (Hi : Z.of_nat i < U64 - 1)
    (Hc : challenges r !! cid = Some c) (Hopen : results r !! cid = None) (Hlate : deadline_epoch c < now)
    (Hd : deals r !! c_deal c = Some d) :
  exists r1 res tid t,
    finalize_missed_challenge r cid now = Ok (r1, res) /\
    outcome res = Missed /\ slashed_bond res = operator_bond (economics d) /\
    deals r1 !! c_deal c = Some (set_status Slashed d) /\
    reallocations r1 !! tid = Some t /\ failed_deal_id t = c_deal c /\
    (has_ticket r (c_deal c) = true -> reallocations r1 = reallocations r) /\
    (has_ticket r (c_deal c) = false -> t_status t = Pending /\ slashed_operator t = operator d /\
       lifecycle_state r1 (c_deal c) = Some LReallocationPending) /\
    forall m s who start fin e p proof root,
      t_status t = Pending \/ t_status t = UnderReplicated ->
      manifests r !! d_manifest d = Some m -> validate_untrusted m = Ok tt -> shard m (d_shard d) = Some s ->
      who <> slashed_operator t -> offer_ok r who start fin e p proof root ->
      exists r2 id,
        accept_reallocation_ticket r1 tid who start fin e p (Some proof) (Some root) = Ok (r2, id) /\
        has_active r2 (d_manifest d) (d_shard d) /\ lifecycle_state r2 id = Some LActiveReplacement.
Proof.
  destruct (reachable_facts i r Hr Hi) as (Hinv & Hk & ? & ? & ?).
  pose proof (finalize_missed_eq r cid now c d Hopen Hc Hlate Hd) as Hfin.
  assert (Hinv1 : inv (after_missed r cid now c d))
    by (eapply csteps_inv; [eapply missed_steps; [done|constructor; lia|done]|done]).
  destruct (after_missed_ticket r cid now c d) as (tid & t & Ht & Hid & Hsame & Hnew).
  pose proof (after_missed_deal r cid now c d) as Hd1.
  exists (after_missed r cid now c d). eexists. exists tid, t.
  do 6 (split; [done|]). split; [done|]. split.
  - intros Hh. destruct (Hnew Hh). split_and!; [done..|]. by apply (lifecycle_pending _ tid t _ (set_status Slashed d)).
  - intros m s who start fin e p proof root Hst Hm Hv Hs Hwho Hoffer.
    destruct (ticket_accepts (after_missed r cid now c d) tid t (set_status Slashed d) m s who start fin e p proof root)
      as (r2 & Ha); try done.
    + unfold after_missed. by destruct (has_ticket _ _).
    + by rewrite Hid.
    + unfold after_missed. by destruct (has_ticket _ _).
    + destruct Hoffer. split; try done. unfold after_missed. by destruct (has_ticket _ _).
    + by eexists r2, _.
Qed.

End challenges.

(** ** Witnesses *)

Module Demo.
Import StorageExpiry.Demo.

Definition request : RetrievalChallengeRequest := mkRequest 0 0 3 4 8 1 None None.
Definition entropy : Hash32 := sid 77.
Definition opened : StorageRegistry :=
  match open_challenge_with_entropy placed request (sid 8) entropy with Ok p => p.1 | Err _ => placed end.
Lemma opened_ok : open_challenge_with_entropy placed request (sid 8) entropy = Ok (opened, 0).
Proof.
  assert (E : match open_challenge_with_entropy placed request (sid 8) entropy with Ok p => Some p.2 | Err _ => None end = Some 0)
    by (vm_compute; reflexivity).
  unfold opened. destruct (open_challenge_with_entropy _ _ _ _) as [[r c]|]; [|done]. by injection E as ->.
Qed.

Definition first_deal : StorageDeal :=
  match deals placed !! 0 with Some d => d | None => mkDeal None None 0 0 0 [] [] [] (mkEconomics 0 0) 0 0 0 0 Active end.
Lemma first_deal_ok : deals placed !! 0 = Some first_deal.
Proof. vm_compute. reflexivity. Qed.
Lemma first_deal_manifest : manifests placed !! d_manifest first_deal = Some object.
Proof. vm_compute. reflexivity. Qed.
Lemma first_deal_shard : shard object (d_shard first_deal) = Some (mkShard 0 (sid 1) 5 Data).
Proof. vm_compute. reflexivity. Qed.

(** The same registry, with the challenge as a further call. *)
Lemma opened_reachable : reachable 4 opened.
Proof. exact (reach_op 3 placed (OpOpenChallengeWithEntropy request (sid 8) entropy) placed_reachable I). Qed.
Definition first_challenge : RetrievalChallenge :=
  match challenges opened !! 0 with Some c => c | None => mkChallenge 0 0 [] 0 0 0 0 [] 0 end.
Lemma first_challenge_ok : challenges opened !! 0 = Some first_challenge /\ results opened !! 0 = None /\
  deadline_epoch first_challenge < 9 /\ deals opened !! c_deal first_challenge = Some first_deal /\
  has_ticket opened (c_deal first_challenge) = false /\ manifests opened !! d_manifest first_deal = Some object.
Proof. vm_compute. repeat split. Qed.
Lemma object_valid : validate_untrusted object = Ok tt.
Proof. vm_compute. reflexivity. Qed.
Lemma offer : offer_ok opened (sid 6) 9 30 (mkEconomics 1000000 1) default_params (replicate 64 0) zero32.
Proof. constructor; [vm_compute; reflexivity|lia|vm_compute; discriminate|vm_compute; reflexivity]. Qed.

Lemma newcomer : sid 6 <> operator first_deal.
Proof. vm_compute. discriminate. Qed.

(** The challenge is missed: a result, a slashed deal and a ticket. *)
Definition missed : StorageRegistry := apply_op opened (OpFinalizeMissed 0 9).
Lemma missed_reachable : reachable 5 missed.
Proof. exact (reach_op 4 opened (OpFinalizeMissed 0 9) opened_reachable I). Qed.
Lemma missed_result : results missed !! 0 = Some (mkResult 0 0 Missed 9 (operator_bond (economics first_deal))).
Proof. vm_compute. reflexivity. Qed.
Lemma missed_recorded : (outcome <$> results missed !! 0) = Some Missed.
Proof. by rewrite missed_result. Qed.

Definition stored : StorageRegistry := apply_op new (OpRegisterManifest ErasureObject.Demo.demo_manifest).
Lemma stored_manifest :
  manifests stored !! manifest_id ErasureObject.Demo.demo_manifest = Some ErasureObject.Demo.demo_manifest.
Proof. vm_compute. reflexivity. Qed.
Definition audit : CodingAudit :=
  match derive_coding_audit entropy ErasureObject.Demo.demo_manifest 5 with Ok a => a | Err _ => mkAudit [] 0 0 end.
Lemma audit_ok : derive_coding_audit entropy ErasureObject.Demo.demo_manifest 5 = Ok audit.
Proof. vm_compute. reflexivity. Qed.

End Demo.

Lemma challenge_inside_shard_witness :
  exists c, challenges Demo.opened !! 0 = Some c /\ 0 = next_challenge_id StorageExpiry.Demo.placed /\
    c_deal c = 0 /\ status Demo.first_deal = Active /\ 0 <= byte_start c < byte_end c /\ byte_end c <= 5 /\
    byte_end c - byte_start c = 3.
Proof.
  apply (challenge_inside_shard (H := framed_hash) StorageExpiry.Demo.placed Demo.opened Demo.request
    (StorageExpiry.Demo.sid 8) Demo.entropy 0 Demo.first_deal StorageExpiry.Demo.object
    (mkShard 0 (StorageExpiry.Demo.sid 1) 5 Data) Demo.opened_ok Demo.first_deal_ok Demo.first_deal_manifest
    Demo.first_deal_shard). simpl. lia.
Defined.

Lemma coding_audit_exact_witness :
  let x := Z.to_nat (column Demo.audit) in
  let kk := Z.to_nat (k ErasureObject.Demo.demo_scheme) in
  verify_coding_audit Demo.stored Demo.audit
    (map (fun s => s !!! x) (take kk (o_shards ErasureObject.Demo.demo_object)))
    (o_shards ErasureObject.Demo.demo_object !!! (kk + Z.to_nat (parity_index Demo.audit))%nat !!! x) = Ok tt.
Proof.
  intros x kk. unfold x, kk.
  rewrite (coding_audit_exact (H := framed_hash) ErasureObject.Demo.demo_data ErasureObject.Demo.demo_scheme
    ErasureObject.Demo.demo_object ErasureObject.Demo.demo_manifest Demo.stored Demo.entropy 5 Demo.audit
    (o_shards ErasureObject.Demo.demo_object !!! (Z.to_nat (k ErasureObject.Demo.demo_scheme) + Z.to_nat (parity_index Demo.audit))%nat
       !!! Z.to_nat (column Demo.audit))
    ErasureObject.Demo.demo_encode ErasureObject.Demo.demo_to_manifest Demo.stored_manifest Demo.audit_ok).
  by rewrite (Byte.byte_dec_lb eq_refl).
Defined.

Lemma missed_challenge_reassigned_witness :
  exists r1 res tid r2 id,
    finalize_missed_challenge Demo.opened 0 9 = Ok (r1, res) /\
    outcome res = Missed /\ slashed_bond res = operator_bond (economics Demo.first_deal) /\
    lifecycle_state r1 (c_deal Demo.first_challenge) = Some LReallocationPending /\
    accept_reallocation_ticket (H := framed_hash) (B := StorageExpiry.Demo.demo_backend) r1 tid
      (StorageExpiry.Demo.sid 6) 9 30 (mkEconomics 1000000 1) default_params
      (Some (replicate 64 0)) (Some zero32) = Ok (r2, id) /\
    has_active r2 (d_manifest Demo.first_deal) (d_shard Demo.first_deal) /\
    lifecycle_state r2 id = Some LActiveReplacement.
Proof.
  destruct Demo.first_challenge_ok as (Hc & Hr & Hl & Hd & Ht & Hm).
  destruct (missed_challenge_reassigned (H := framed_hash) (B := StorageExpiry.Demo.demo_backend) 4 Demo.opened 0 9
    Demo.first_challenge Demo.first_deal Demo.opened_reachable ltac:(lia) Hc Hr Hl Hd)
    as (r1 & res & tid & t & H1 & H2 & H3 & _ & _ & _ & _ & Hnew & Hacc).
  destruct (Hnew Ht) as (Hp & Hop & Hlc).
  destruct (Hacc StorageExpiry.Demo.object (mkShard 0 (StorageExpiry.Demo.sid 1) 5 Data) (StorageExpiry.Demo.sid 6) 9 30
    (mkEconomics 1000000 1) default_params (replicate 64 0) zero32 (or_introl Hp) Hm Demo.object_valid Demo.first_deal_shard
    (eq_ind_r (fun a => StorageExpiry.Demo.sid 6 <> a) Demo.newcomer Hop) Demo.offer) as (r2 & id & Ha & Hact & Hrep).
  exists r1, res, tid, r2, id. exact (conj H1 (conj H2 (conj H3 (conj Hlc (conj Ha (conj Hact Hrep)))))).
Defined.

Lemma storage_registry_consistent_witness :
  (outcome <$> results Demo.missed !! 0) = Some Missed /\ inv Demo.missed /\ ticketed Demo.missed 0.
Proof.
  destruct (storage_registry_consistent (H := framed_hash) (B := StorageExpiry.Demo.demo_backend) 5 Demo.missed
    Demo.missed_reachable ltac:(lia)) as [Hi Hm].
  split; [exact Demo.missed_recorded|]. split; [exact Hi|]. exact (Hm 0 _ Demo.missed_result eq_refl).
Defined.

End StorageChallenge.
