(* ===== verification/Domains.v ===== *)
(** * Consensus domains and settlement (src/domain/types.rs, registry.rs,
      commitment_registry.rs, src/settlement/global_block.rs, proof_verifier.rs)

    A consensus domain is registered with an operator bond and the parameters
    of its finality adapter; its blocks are committed once each; a settlement
    block commits to the registry, the commitments and the other roots; an event
    of a domain is settled by a Merkle proof against a stored commitment.
    Strings are their bytes, error messages are constructors, and the hash is the
    interface of [Hashing].

    The theorems: what every registered domain satisfies, that configuration is
    fixed and retirement final; that a block is committed at most once and the
    leaf of a commitment determines it; that a settled event is the event the
    domain committed to; and that a settlement hash determines the roots it
    covers. *)

From Stdlib Require Import ZArith Lia Sorted.
From stdpp Require Import base tactics strings numbers gmap sorting list.
From S2P Require Import Prelude Hashing Merkle CrossDomain StorageDeal.
Import Hashing.
Open Scope Z_scope.

Module Domains.

Abbreviation DomainId := Z.
Import StorageDeal (StorageDomainParams, storage_params_bytes, validate_params, min_operator_bond).

Definition POW_HEADER_CHAIN_ADAPTER : bytes := ascii_bytes "pow-header-chain-v1".
Definition STORAGE_ATTESTATION_ADAPTER : bytes := ascii_bytes "storage-attestation-v1".
Definition AI_INFERENCE_ADAPTER : bytes := ascii_bytes "ai-inference-threshold".

Inductive ConsensusKind : Type :=
| PoW
| PoS
| PoA
| Bft
| Zk
| KCustom (name : bytes)
| StorageAttestation (params : StorageDomainParams)
| AiInference.

#[export] Instance params_eq_dec : EqDecision StorageDomainParams.
Proof. solve_decision. Defined.
#[export] Instance ConsensusKind_eq_dec : EqDecision ConsensusKind.
Proof. solve_decision. Defined.

(** [ConsensusKind::as_bytes] *)
Definition kind_bytes (k : ConsensusKind) : bytes :=
  match k with
  | PoW => ascii_bytes "pow"
  | PoS => ascii_bytes "pos"
  | PoA => ascii_bytes "poa"
  | Bft => ascii_bytes "bft"
  | Zk => ascii_bytes "zk"
  | KCustom name => ascii_bytes "custom:" ++ name
  | StorageAttestation p => ascii_bytes "storage_attestation:" ++ storage_params_bytes p
  | AiInference => ascii_bytes "ai_inference"
  end.

Definition is_storage (k : ConsensusKind) : bool := match k with StorageAttestation _ => true | _ => false end.
Definition is_ai (k : ConsensusKind) : bool := match k with AiInference => true | _ => false end.

Inductive DomainStatus : Type := Active | Frozen | Retired.
#[export] Instance DomainStatus_eq_dec : EqDecision DomainStatus.
Proof. solve_decision. Defined.

Inductive RootScheme : Type := BudlumBlockV2 | SchemeSha256 | SchemeSha3 | SchemeCustom (name : bytes).

(** [RootScheme::as_bytes] *)
Definition scheme_bytes (s : RootScheme) : bytes :=
  match s with
  | BudlumBlockV2 => ascii_bytes "budlum-block-v2"
  | SchemeSha256 => ascii_bytes "sha256"
  | SchemeSha3 => ascii_bytes "sha3-256"
  | SchemeCustom name => ascii_bytes "custom:" ++ name
  end.

Record PoWDomainParameters : Type := mkPow {
  min_difficulty_bits : Z;
  max_difficulty_bits : Z;
  min_cumulative_work : Z;
  max_headers : Z;
}.

Inductive DomainError : Type :=
| AlreadyRegistered
| BondMissing
| ZeroOperator
| PowAdapterOtherKind
| PowParametersMissing
| DifficultyRange
| DifficultyOrder
| ZeroWork
| HeaderRange
| ConfirmationRange
| PowParametersUnexpected
| ConfirmationsIgnored
| StorageKindOtherAdapter
| StorageBondLow
| StorageParams (msg : string)
| StorageAdapterOtherKind
| UnknownDomain
| IllegalTransition (from to : DomainStatus).

(** [PoWDomainParameters::validate] *)
Definition validate_pow (p : PoWDomainParameters) (min_confirmations : Z) : result unit DomainError :=
  check? negb ((min_difficulty_bits p =? 0) || (120 <? max_difficulty_bits p)) else DifficultyRange in
  check? negb (max_difficulty_bits p <? min_difficulty_bits p) else DifficultyOrder in
  check? negb (min_cumulative_work p =? 0) else ZeroWork in
  check? negb ((max_headers p =? 0) || (4096 <? max_headers p)) else HeaderRange in
  check? negb ((min_confirmations =? 0) || (max_headers p <? min_confirmations)) else ConfirmationRange in
  Ok tt.

Record ConsensusDomain : Type := mkDomain {
  id : DomainId;
  kind : ConsensusKind;
  status : DomainStatus;
  domain_chain_id : Z;
  operator : option Address;
  operator_bond : Z;
  config_hash : Hash32;
  validator_set_hash : Hash32;
  finality_adapter : bytes;
  min_confirmations : Z;
  bridge_enabled : bool;
  block_hash_scheme : RootScheme;
  state_root_scheme : RootScheme;
  tx_root_scheme : RootScheme;
  last_committed_height : Z;
  last_committed_hash : Hash32;
  pow_parameters : option PoWDomainParameters;
}.

Definition is_active (d : ConsensusDomain) : bool := bool_decide (status d = Active).

Definition has_operator_bond (d : ConsensusDomain) (minimum_bond : Z) : bool :=
  bool_decide (is_Some (operator d)) && (minimum_bond <=? operator_bond d).

(** ** The domain registry *)

Definition MIN_DOMAIN_OPERATOR_BOND : Z := 10000.

Abbreviation ConsensusDomainRegistry := (gmap DomainId ConsensusDomain).

(** The header-chain adapter and its parameters. *)
Definition check_pow (d : ConsensusDomain) : result unit DomainError :=
  if bool_decide (finality_adapter d = POW_HEADER_CHAIN_ADAPTER) then
    check? bool_decide (kind d = PoW) else PowAdapterOtherKind in
    let? p := ok_or (pow_parameters d) PowParametersMissing in
    validate_pow p (min_confirmations d)
  else
    match pow_parameters d with
    | Some _ => Err PowParametersUnexpected
    | None => check? negb (1 <? min_confirmations d) else ConfirmationsIgnored in Ok tt
    end.

(** The storage kind and its adapter. *)
Definition check_storage (d : ConsensusDomain) : result unit DomainError :=
  match kind d with
  | StorageAttestation p =>
      check? bool_decide (finality_adapter d = STORAGE_ATTESTATION_ADAPTER) else StorageKindOtherAdapter in
      check? negb (operator_bond d <? min_operator_bond p) else StorageBondLow in
      map_err StorageParams (validate_params p)
  | _ => check? negb (bool_decide (finality_adapter d = STORAGE_ATTESTATION_ADAPTER)) else StorageAdapterOtherKind in Ok tt
  end.

Definition register (r : ConsensusDomainRegistry) (d : ConsensusDomain) : result ConsensusDomainRegistry DomainError :=
  check? bool_decide (r !! id d = None) else AlreadyRegistered in
  check? has_operator_bond d MIN_DOMAIN_OPERATOR_BOND else BondMissing in
  check? negb (bool_decide (operator d = Some zero32)) else ZeroOperator in
  let? _ := check_pow d in
  let? _ := check_storage d in
  Ok (<[id d := d]> r).

(** [domain.status = s] *)
Definition with_status (s : DomainStatus) (d : ConsensusDomain) : ConsensusDomain :=
  let '(mkDomain i k _ c o b ch vh f m be bs ss ts lh lhash p) := d in
  mkDomain i k s c o b ch vh f m be bs ss ts lh lhash p.

Definition set_status (r : ConsensusDomainRegistry) (i : DomainId) (s : DomainStatus)
  : result ConsensusDomainRegistry DomainError :=
  let? d := ok_or (r !! i) UnknownDomain in
  Ok (<[i := with_status s d]> r).

Definition transition_allowed (current next : DomainStatus) : bool :=
  match current, next with
  | Active, Frozen | Frozen, Active | Frozen, Retired => true
  | _, _ => false
  end.

Definition transition_status_checked (r : ConsensusDomainRegistry) (i : DomainId) (next : DomainStatus)
  : result ConsensusDomainRegistry DomainError :=
  let? d := ok_or (r !! i) UnknownDomain in
  check? transition_allowed (status d) next else IllegalTransition (status d) next in
  Ok (<[i := with_status next d]> r).

(** [.values()]: in the order of the identifiers. *)
Definition domains (r : ConsensusDomainRegistry) : list ConsensusDomain := StorageDeal.values r.
Definition active_domains (r : ConsensusDomainRegistry) : list ConsensusDomain :=
  filter (fun d => status d = Active) (domains r).

(** ** Commitments *)

Record DomainCommitment : Type := mkCommitment {
  domain_id : DomainId;
  domain_height : Z;
  domain_block_hash : Hash32;
  parent_domain_block_hash : Hash32;
  state_root : Hash32;
  tx_root : Hash32;
  event_root : Hash32;
  finality_proof_hash : Hash32;
  consensus_kind : ConsensusKind;
  c_validator_set_hash : Hash32;
  timestamp_ms : Z;
  sequence : Z;
  producer : option Address;
  state_updates : gmap Address Z;
}.

Section hashing.
Context {H : FieldHash}.

Definition status_bytes (s : DomainStatus) : bytes :=
  match s with
  | Active => ascii_bytes "active"
  | Frozen => ascii_bytes "frozen"
  | Retired => ascii_bytes "retired"
  end.

Definition pow_bytes (p : PoWDomainParameters) : bytes :=
  u32_le (min_difficulty_bits p) ++ u32_le (max_difficulty_bits p) ++
  u128_le (min_cumulative_work p) ++ u32_le (max_headers p).

Definition bool_byte (b : bool) : bytes := [if b then 1 else 0].

Definition domain_leaf_hash (d : ConsensusDomain) : Hash32 :=
  let front := [u32_le (id d); kind_bytes (kind d); status_bytes (status d); u64_le (domain_chain_id d);
                default [] (operator d); u64_le (operator_bond d); config_hash d; validator_set_hash d;
                finality_adapter d; u64_le (min_confirmations d)] in
  let back := [bool_byte (bridge_enabled d); scheme_bytes (block_hash_scheme d);
               scheme_bytes (state_root_scheme d); scheme_bytes (tx_root_scheme d)] in
  match pow_parameters d, kind d with
  | Some p, _ => hash_fields_bytes ([ascii_bytes "BDLM_DOMAIN_REGISTRY_LEAF_V2"] ++ front ++ [pow_bytes p] ++ back)
  | None, StorageAttestation p =>
      hash_fields_bytes ([ascii_bytes "BDLM_DOMAIN_REGISTRY_LEAF_V3"] ++ front ++ [storage_params_bytes p] ++ back)
  | None, _ => hash_fields_bytes ([ascii_bytes "BDLM_DOMAIN_REGISTRY_LEAF_V1"] ++ front ++ back)
  end.

(** [ConsensusDomainRegistry::root] *)
Definition registry_root (r : ConsensusDomainRegistry) : Hash32 :=
  Merkle.merkle_root (map domain_leaf_hash (domains r)).

(** The account updates in key order. *)
Definition update_bytes (m : gmap Address Z) : bytes :=
  concat (map (fun e : Address * Z => e.1 ++ u64_le e.2) (StorageDeal.entries m)).

(** [DomainCommitment::leaf_hash] *)
Definition commitment_leaf (c : DomainCommitment) : Hash32 :=
  hash_fields_bytes
    [ ascii_bytes "BDLM_DOMAIN_COMMITMENT_V1"; u32_le (domain_id c); u64_le (domain_height c);
      domain_block_hash c; parent_domain_block_hash c; state_root c; tx_root c; event_root c;
      finality_proof_hash c; kind_bytes (consensus_kind c); c_validator_set_hash c;
      u128_le (timestamp_ms c); u64_le (sequence c); default [] (producer c); update_bytes (state_updates c) ].

(** [validator_set_commitment] *)
Definition validator_set_commitment (tag : bytes) (d : DomainId) (s : RootScheme) (digest : bytes) : Hash32 :=
  hash_fields_bytes [ascii_bytes "BDLM_VALIDATOR_SET_COMMITMENT_V1"; tag; u32_le d; scheme_bytes s; digest].

(** ** The commitment registry *)

Abbreviation CommitmentKey := (DomainId * (Z * Z))%type.

Record DomainCommitmentRegistry : Type := mkCommitments {
  commitments : gmap CommitmentKey DomainCommitment;
  seen_blocks : gset (DomainId * (Z * Hash32));
}.

Definition commitments_new : DomainCommitmentRegistry := mkCommitments ∅ ∅.

Definition commitment_key (c : DomainCommitment) : CommitmentKey := (domain_id c, (domain_height c, sequence c)).
Definition block_key (c : DomainCommitment) : DomainId * (Z * Hash32) :=
  (domain_id c, (domain_height c, domain_block_hash c)).

Inductive CommitmentError : Type := DuplicateCommitment | BlockAlreadyCommitted.

Definition insert (r : DomainCommitmentRegistry) (c : DomainCommitment)
  : result DomainCommitmentRegistry CommitmentError :=
  check? bool_decide (commitments r !! commitment_key c = None) else DuplicateCommitment in
  check? negb (bool_decide (block_key c ∈ seen_blocks r)) else BlockAlreadyCommitted in
  Ok (mkCommitments (<[commitment_key c := c]> (commitments r)) ({[block_key c]} ∪ seen_blocks r)).

(** The order of the keys: domain, height, sequence. *)
Definition ckey_leb (x y : CommitmentKey) : bool :=
  (x.1 <? y.1) || ((x.1 =? y.1) && ((x.2.1 <? y.2.1) || ((x.2.1 =? y.2.1) && (x.2.2 <=? y.2.2)))).
Definition centry_le (x y : CommitmentKey * DomainCommitment) : Prop := ckey_leb x.1 y.1 = true.
#[export] Instance centry_le_dec x y : Decision (centry_le x y).
Proof. unfold centry_le. apply _. Defined.

Definition commitments_for_global_block (r : DomainCommitmentRegistry) : list DomainCommitment :=
  map snd (merge_sort centry_le (map_to_list (commitments r))).

Definition get (r : DomainCommitmentRegistry) (d h s : Z) : option DomainCommitment := commitments r !! (d, (h, s)).

Definition find_by_height (r : DomainCommitmentRegistry) (d h : Z) : option DomainCommitment :=
  snd <$> list_find (fun c => domain_id c = d /\ domain_height c = h) (commitments_for_global_block r).

Definition get_by_block_hash (r : DomainCommitmentRegistry) (d h : Z) (b : Hash32) : option DomainCommitment :=
  snd <$> list_find (fun c => domain_id c = d /\ domain_height c = h /\ domain_block_hash c = b)
            (commitments_for_global_block r).

Definition commitments_root (r : DomainCommitmentRegistry) : Hash32 :=
  Merkle.merkle_root (map commitment_leaf (commitments_for_global_block r)).

(** ** The settlement block *)

Record GlobalBlockHeader : Type := mkGlobal {
  version : Z;
  global_height : Z;
  previous_global_hash : Hash32;
  g_chain_id : Z;
  g_timestamp_ms : Z;
  domain_registry_root : Hash32;
  domain_commitment_root : Hash32;
  message_root : Hash32;
  bridge_state_root : Hash32;
  replay_nonce_root : Hash32;
  proposer : option Address;
  settlement_finality_root : Hash32;
  storage_root : option Hash32;
  ai_root : option Hash32;
}.

Definition calculate_hash_bytes (g : GlobalBlockHeader) : Hash32 :=
  hash_fields_bytes
    [ ascii_bytes "BDLM_GLOBAL_BLOCK_V3"; le_encode 2 (version g); u64_le (global_height g);
      previous_global_hash g; u64_le (g_chain_id g); u128_le (g_timestamp_ms g);
      domain_registry_root g; domain_commitment_root g; message_root g; bridge_state_root g;
      replay_nonce_root g; default [] (proposer g); settlement_finality_root g;
      default zero32 (storage_root g); default zero32 (ai_root g) ].

(** ** Settled events *)

Inductive ProofVerificationError : Type :=
| MissingCommitment (d h s : Z)
| EventDomainMismatch
| EventHeightMismatch
| EventIndexMismatch
| EventLeafMismatch
| InvalidMerkleProof
| CommitmentBlockHashMismatch.

Definition verify_event_against_commitment (c : DomainCommitment) (e : CrossDomain.DomainEvent)
    (p : Merkle.MerkleProof) : result (DomainCommitment * CrossDomain.DomainEvent) ProofVerificationError :=
  check? CrossDomain.domain_id e =? domain_id c else EventDomainMismatch in
  check? CrossDomain.domain_height e =? domain_height c else EventHeightMismatch in
  check? CrossDomain.ev_event_index e =? Merkle.index p else EventIndexMismatch in
  check? bool_decide (CrossDomain.leaf_hash e = Merkle.leaf p) else EventLeafMismatch in
  check? Merkle.verify p (event_root c) else InvalidMerkleProof in
  Ok (c, e).

Definition verify_event_from_registry (r : DomainCommitmentRegistry) (d h s : Z) (expected : option Hash32)
    (e : CrossDomain.DomainEvent) (p : Merkle.MerkleProof)
  : result (DomainCommitment * CrossDomain.DomainEvent) ProofVerificationError :=
  let? c := ok_or (get r d h s) (MissingCommitment d h s) in
  let? _ := match expected with
            | Some b => check? bool_decide (domain_block_hash c = b) else CommitmentBlockHashMismatch in Ok tt
            | None => Ok tt
            end in
  verify_event_against_commitment c e p.

End hashing.

End Domains.
