(* ===== verification/DomainsFacts.v ===== *)
(** * Facts about domains and settlement

    Sequences of registry calls, the injectivity of the commitments, and the
    theorems about [Domains]. *)

From Stdlib Require Import ZArith Lia Sorted.
From stdpp Require Import base tactics strings numbers gmap sorting list.
From S2P Require Import Prelude Hashing Merkle CrossDomain StorageDeal Domains.
Import Hashing Domains.
Open Scope Z_scope.

Module DomainsFacts.

(** ** Registered domains *)

Definition pow_ok (d : ConsensusDomain) : Prop :=
  match pow_parameters d with
  | Some p => finality_adapter d = POW_HEADER_CHAIN_ADAPTER /\ kind d = PoW /\
      min_difficulty_bits p <> 0 /\ min_difficulty_bits p <= max_difficulty_bits p <= 120 /\
      min_cumulative_work p <> 0 /\ max_headers p <> 0 /\ max_headers p <= 4096 /\
      min_confirmations d <> 0 /\ min_confirmations d <= max_headers p
  | None => finality_adapter d <> POW_HEADER_CHAIN_ADAPTER /\ min_confirmations d <= 1
  end.

Definition storage_ok (d : ConsensusDomain) : Prop :=
  match kind d with
  | StorageAttestation p => finality_adapter d = STORAGE_ATTESTATION_ADAPTER /\
      StorageDeal.min_operator_bond p <= operator_bond d /\ StorageDeal.validate_params p = Ok tt
  | _ => finality_adapter d <> STORAGE_ATTESTATION_ADAPTER
  end.

Record domain_ok (i : DomainId) (d : ConsensusDomain) : Prop := {
  dom_id : id d = i;
  dom_bond : MIN_DOMAIN_OPERATOR_BOND <= operator_bond d;
  dom_operator : exists o, operator d = Some o /\ o <> zero32;
  dom_pow : pow_ok d;
  dom_storage : storage_ok d;
}.

Inductive DomainOp : Type :=
| OpRegister (d : ConsensusDomain)
| OpTransition (i : DomainId) (next : DomainStatus).

Definition dstep (r : ConsensusDomainRegistry) (op : DomainOp) : ConsensusDomainRegistry :=
  match op with
  | OpRegister d => match register r d with Ok r' => r' | Err _ => r end
  | OpTransition i s => match transition_status_checked r i s with Ok r' => r' | Err _ => r end
  end.
Definition drun (r : ConsensusDomainRegistry) (ops : list DomainOp) : ConsensusDomainRegistry := fold_left dstep ops r.

Lemma check_pow_ok d u : check_pow d = Ok u -> pow_ok d.
Proof.
  unfold check_pow, pow_ok. case_bool_decide as Ha.
  - intros E. inv_ok E. rewrite E1. unfold validate_pow in E. inv_ok E. split_bool. split_and!; try done; lia.
  - destruct (pow_parameters d); [done|]. intros E. inv_ok E. split_bool. split; [done|lia].
Qed.

Lemma check_storage_ok d u : check_storage d = Ok u -> storage_ok d.
Proof.
  unfold check_storage, storage_ok. destruct (kind d); intros E; inv_ok E; split_bool; try done.
  apply map_err_Ok in E. destruct u. split_and!; [done|lia|done].
Qed.

Lemma with_status_ok s i d : domain_ok i d -> domain_ok i (with_status s d).
Proof. intros [? ? ? ? ?]. destruct d. by split. Qed.

Lemma register_ok r d r' : register r d = Ok r' -> r !! id d = None /\ domain_ok (id d) d /\ r' = <[id d := d]> r.
Proof.
  unfold register. intros E. inv_ok E. split_bool. split_and!; [done| |done].
  unfold has_operator_bond in E1. split_bool. split; [done|lia| |by eapply check_pow_ok|by eapply check_storage_ok].
  match goal with K : is_Some (operator d) |- _ => destruct K as [o Ho] end. exists o. split; [done|]. congruence.
Qed.

Lemma dstep_ok r op : map_Forall domain_ok r -> map_Forall domain_ok (dstep r op).
Proof.
  intros Hr. destruct op as [d|i s]; simpl.
  - destruct (register r d) as [r'|] eqn:E; [|done]. apply register_ok in E as (_ & Hd & ->). by apply map_Forall_insert_2.
  - unfold transition_status_checked. destruct (r !! i) as [d|] eqn:Ei; simpl; [|done].
    destruct (transition_allowed (status d) s); simpl; [|done]. apply map_Forall_insert_2; [|done].
    apply with_status_ok. by apply Hr.
Qed.

(** The domain [d] of [i] is still there, with at most its status changed, and
    not even that once it is retired. *)
Definition persists (i : DomainId) (d : ConsensusDomain) (r : ConsensusDomainRegistry) : Prop :=
  exists s, r !! i = Some (with_status s d) /\ (status d = Retired -> s = Retired).

Lemma with_status_id d : with_status (status d) d = d.
Proof. by destruct d. Qed.

Lemma dstep_persists i d r op : persists i d r -> persists i d (dstep r op).
Proof.
  intros (s & Hi & Hs). destruct op as [e|j n]; simpl.
  - destruct (register r e) as [r'|] eqn:E; [|by exists s]. apply register_ok in E as (He & _ & ->).
    exists s. split; [|done]. rewrite lookup_insert_ne; [done|]. intros <-. congruence.
  - unfold transition_status_checked. destruct (r !! j) as [e|] eqn:Ej; simpl; [|by exists s].
    destruct (transition_allowed (status e) n) eqn:Et; simpl; [|by exists s].
    destruct (decide (i = j)) as [->|]; [|exists s; split; [by rewrite lookup_insert_ne|done]].
    exists n. rewrite lookup_insert_eq. simplify_eq. split; [by destruct d|].
    intros Hr. specialize (Hs Hr). subst s. by destruct d.
Qed.

(** C22: whatever the sequence of registrations and checked transitions, every
    registered domain has a bonded operator that is not the zero address, and an
    adapter with the parameters that adapter reads: header-chain parameters
    within their bounds exactly on the header-chain adapter, storage parameters
    that validate exactly on the storage adapter, no confirmation count that
    would be ignored; its configuration never changes, and a retired domain
    stays retired. *)
Theorem domain_registry_sound (ops : list DomainOp) :
  map_Forall domain_ok (drun ∅ ops) /\
  (forall i d, drun ∅ ops !! i = Some d -> forall ops', persists i d (drun (drun ∅ ops) ops')).
Proof.
  split.
  - assert (H : map_Forall domain_ok (∅ : ConsensusDomainRegistry)) by apply map_Forall_empty.
    revert H. generalize (∅ : ConsensusDomainRegistry) as r.
    induction ops as [|op ops IH]; intros r Hr; [done|]. apply IH. by apply dstep_ok.
  - intros i d Hi ops'. assert (H : persists i d (drun ∅ ops)).
    { exists (status d). by rewrite with_status_id. }
    revert H. generalize (drun ∅ ops) as r. induction ops' as [|op ops' IH]; intros r Hr; [done|].
    apply IH. by apply dstep_persists.
Qed.

(** ** The leaf of a commitment determines it *)

Definition params_ok (p : StorageDeal.StorageDomainParams) : Prop :=
  StorageDeal.chunk_size p ∈u U32 /\ StorageDeal.max_committed_chunks p ∈u U64 /\
  StorageDeal.challenge_interval p ∈u U64 /\ StorageDeal.min_operator_bond p ∈u U64.

Definition kind_ok (k : ConsensusKind) : Prop :=
  match k with StorageAttestation p => params_ok p | _ => True end.

Lemma storage_params_inj p q : params_ok p -> params_ok q ->
  StorageDeal.storage_params_bytes p = StorageDeal.storage_params_bytes q -> p = q.
Proof.
  intros (P1 & P2 & P3 & P4) (Q1 & Q2 & Q3 & Q4) E. unfold StorageDeal.storage_params_bytes in E.
  apply app_inv_head in E. apply app_inj_1 in E as [E1 E]; [|by rewrite !u32_le_length].
  apply u32_le_inj in E1; [|done..]. apply u64_le_split in E as [E2 E]; [|done..].
  apply u64_le_split in E as [E3 E]; [|done..]. apply u64_le_inj in E; [|done..].
  destruct p, q. simpl in *. congruence.
Qed.

Lemma kind_bytes_inj k l : kind_ok k -> kind_ok l -> kind_bytes k = kind_bytes l -> k = l.
Proof.
  intros Hk Hl E. destruct k as [| | | | |n|p|], l as [| | | | |m|q|]; try done; try discriminate E.
  - f_equal. by apply app_inv_head in E.
  - f_equal. apply app_inv_head in E. by apply storage_params_inj.
Qed.

Definition updates_ok (m : gmap Address Z) : Prop := map_Forall (fun a n => length a = 32%nat /\ n ∈u U64) m.

Lemma updates_to_map (m : gmap Address Z) : list_to_map (StorageDeal.entries m) = m.
Proof.
  unfold StorageDeal.entries. rewrite <- (list_to_map_to_list m) at 2. apply list_to_map_proper.
  - rewrite merge_sort_Permutation. apply NoDup_fst_map_to_list.
  - apply merge_sort_Permutation.
Qed.

Lemma chunks_inj (l k : list (Address * Z)) :
  Forall (fun e => length e.1 = 32%nat /\ e.2 ∈u U64) l -> Forall (fun e => length e.1 = 32%nat /\ e.2 ∈u U64) k ->
  concat (map (fun e => e.1 ++ u64_le e.2) l) = concat (map (fun e => e.1 ++ u64_le e.2) k) -> l = k.
Proof.
  intros Hl. revert k. induction Hl as [|[a n] l [Ha Hn] _ IH]; intros [|[b m] k] Hk E; cbn [map concat fst snd] in E; try done.
  - apply (f_equal length) in E. rewrite !length_app, u64_le_length in E. simpl in E. lia.
  - apply (f_equal length) in E. rewrite !length_app, u64_le_length in E. simpl in E. lia.
  - apply Forall_cons in Hk as [[Hb Hm] Hk]. simpl in *. rewrite <- !app_assoc in E.
    apply app_inj_1 in E as [-> E]; [|by rewrite Ha, Hb]. apply u64_le_split in E as [-> E]; [|done..]. by rewrite (IH k Hk E).
Qed.

Lemma update_bytes_inj m n : updates_ok m -> updates_ok n -> update_bytes m = update_bytes n -> m = n.
Proof.
  intros Hm Hn E. assert (F : forall o, updates_ok o -> Forall (fun e => length e.1 = 32%nat /\ e.2 ∈u U64) (StorageDeal.entries o)).
  { intros o Ho. apply Forall_forall. intros [a x] Hin. unfold StorageDeal.entries in Hin.
    rewrite merge_sort_Permutation in Hin. apply elem_of_map_to_list in Hin. by apply (Ho a x). }
  apply chunks_inj in E; [|by apply F..]. by rewrite <- (updates_to_map m), E, updates_to_map.
Qed.

Definition producer_ok (o : option Address) : Prop := match o with Some a => length a = 32%nat | None => True end.

Record commitment_ok (c : DomainCommitment) : Prop := {
  com_id : domain_id c ∈u U32;
  com_height : domain_height c ∈u U64;
  com_sequence : sequence c ∈u U64;
  com_time : timestamp_ms c ∈u U128;
  com_kind : kind_ok (consensus_kind c);
  com_producer : producer_ok (producer c);
  com_updates : updates_ok (state_updates c);
}.

Section hashing.
Context {H : FieldHash} {HC : CollisionFree H}.

Lemma producer_inj o o' : producer_ok o -> producer_ok o' -> default [] o = default [] o' -> o = o'.
Proof. destruct o, o'; simpl; intros; subst; done. Qed.

(** The leaf hash of a commitment determines every field of it. *)
Theorem commitment_leaf_binds (c c' : DomainCommitment) (Hc : commitment_ok c) (Hc' : commitment_ok c')
    (E : commitment_leaf c = commitment_leaf c') : c = c'.
Proof.
  destruct Hc, Hc'. unfold commitment_leaf in E. apply hash_fields_inj in E.
  split_fields E. apply u32_le_inj in F0; [|done..]. apply u64_le_inj in F1, F11; [|done..]. apply u128_le_inj in F10; [|done..].
  apply kind_bytes_inj in F8; [|done..]. apply producer_inj in F12; [|done..]. apply update_bytes_inj in F13; [|done..].
  destruct c, c'. cbn in *. by subst.
Qed.

(** ** Commitments are unique *)

Definition cstep (r : DomainCommitmentRegistry) (c : DomainCommitment) : DomainCommitmentRegistry :=
  match insert r c with Ok r' => r' | Err _ => r end.
Definition crun (cs : list DomainCommitment) : DomainCommitmentRegistry := fold_left cstep cs commitments_new.

(** Commitments are stored under their keys, the seen blocks are theirs, and no
    block is committed twice. *)
Record commitments_inv (r : DomainCommitmentRegistry) : Prop := {
  inv_key : map_Forall (fun k c => commitment_key c = k) (commitments r);
  inv_seen : forall b, b ∈ seen_blocks r <-> exists k c, commitments r !! k = Some c /\ block_key c = b;
  inv_unique : forall k c k' c', commitments r !! k = Some c -> commitments r !! k' = Some c' ->
    block_key c = block_key c' -> k = k';
}.

Lemma insert_spec r c r' : insert r c = Ok r' ->
  commitments r !! commitment_key c = None /\ block_key c ∉ seen_blocks r /\
  r' = mkCommitments (<[commitment_key c := c]> (commitments r)) ({[block_key c]} ∪ seen_blocks r).
Proof. unfold insert. intros E. inv_ok E. split_bool. done. Qed.

Lemma commitments_step_inv r c : commitments_inv r -> commitments_inv (cstep r c).
Proof.
  intros [Hk Hs Hu]. unfold cstep. destruct (insert r c) as [r'|] eqn:E; [|by split].
  apply insert_spec in E as (Hn & Hb & ->).
  assert (Hfresh : forall k d, commitments r !! k = Some d -> block_key d <> block_key c).
  { intros k d Hd Hbd. apply Hb, Hs. eauto. }
  split; cbn [commitments seen_blocks].
  - by apply map_Forall_insert_2.
  - intros b. rewrite elem_of_union, elem_of_singleton, Hs. split.
    + intros [->|(k & d & Hd & <-)]; [exists (commitment_key c), c; by rewrite lookup_insert_eq|].
      exists k, d. rewrite lookup_insert_ne; [done|]. intros <-. congruence.
    + intros (k & d & Hd & <-). apply lookup_insert_Some in Hd as [[_ <-]|[_ Hd]]; [by left|right; eauto].
  - intros k d k' d' Hd Hd' Hbk.
    apply lookup_insert_Some in Hd as [[<- <-]|[_ Hd]], Hd' as [[<- <-]|[_ Hd']]; try done.
    + by destruct (Hfresh k' d' Hd').
    + by destruct (Hfresh k d Hd).
    + by eapply Hu.
Qed.

Lemma crun_inv cs : commitments_inv (crun cs).
Proof.
  assert (H0 : commitments_inv commitments_new).
  { split; [apply map_Forall_empty|cbn; set_solver|done]. }
  revert H0. unfold crun. generalize commitments_new as r. induction cs as [|c cs IH]; intros r Hr; [done|].
  apply IH. by apply commitments_step_inv.
Qed.

Lemma cstep_keeps r c k d : commitments r !! k = Some d -> commitments (cstep r c) !! k = Some d.
Proof.
  intros Hk. unfold cstep. destruct (insert r c) as [r'|] eqn:E; [|done].
  apply insert_spec in E as (Hn & _ & ->). cbn. rewrite lookup_insert_ne; [done|]. intros <-. congruence.
Qed.

Lemma fold_cstep_keeps r cs k d : commitments r !! k = Some d -> commitments (fold_left cstep cs r) !! k = Some d.
Proof. revert r. induction cs as [|c cs IH]; intros r Hk; [done|]. apply IH. by apply cstep_keeps. Qed.

(** ** Settled events *)

(** What the leaf of an event covers. *)
Definition event_agrees (e e' : CrossDomain.DomainEvent) : Prop :=
  CrossDomain.domain_id e = CrossDomain.domain_id e' /\ CrossDomain.domain_height e = CrossDomain.domain_height e' /\
  CrossDomain.ev_event_index e = CrossDomain.ev_event_index e' /\
  CrossDomain.ev_kind e = CrossDomain.ev_kind e' /\
  CrossDomain.emitter e = CrossDomain.emitter e' /\ CrossDomain.ev_payload_hash e = CrossDomain.ev_payload_hash e' /\
  default zero32 (CrossDomain.message_id <$> CrossDomain.message e) =
  default zero32 (CrossDomain.message_id <$> CrossDomain.message e').

Definition event_ok (e : CrossDomain.DomainEvent) : Prop :=
  CrossDomain.domain_id e ∈u U32 /\ CrossDomain.domain_height e ∈u U64 /\ CrossDomain.ev_event_index e ∈u U32.

Lemma event_kind_inj k l : CrossDomain.event_kind_bytes k = CrossDomain.event_kind_bytes l -> k = l.
Proof.
  intros E. destruct k, l; try done; try discriminate E. f_equal. by apply app_inv_head in E.
Qed.

Lemma event_leaf_binds e e' : event_ok e -> event_ok e' ->
  CrossDomain.leaf_hash e = CrossDomain.leaf_hash e' -> event_agrees e e'.
Proof.
  intros (? & ? & ?) (? & ? & ?) E. unfold CrossDomain.leaf_hash in E. apply hash_fields_inj in E.
  split_fields E. apply u32_le_inj in F0, F2; [|done..]. apply u64_le_inj in F1; [|done..].
  apply event_kind_inj in F3. unfold event_agrees. split_and!; done.
Qed.

(** Event leaves have their own tag. *)
Lemma event_leaf_not_node e : Merkle.not_node (CrossDomain.leaf_hash e).
Proof. intros a b E. unfold CrossDomain.leaf_hash, Merkle.node in E. by apply hash_fields_inj in E. Qed.

(** The events of a domain block are numbered by their position. *)
Definition numbered (events : list CrossDomain.DomainEvent) : Prop :=
  forall j e, events !! j = Some e -> CrossDomain.ev_event_index e = Z.of_nat j.

(** C23: a settled event is one the domain committed to.  Whatever proof is
    offered, with any index and any number of siblings, an event accepted
    against the registry agrees, in every field its leaf commits to, with one
    of the events whose Merkle root is in the commitment stored for the domain,
    height and sequence asked for, the one at its index when the events are
    numbered; the commitment is the one inserted there, has the block hash
    expected, stays there whatever is inserted later, and no other key holds
    the same block. *)
Theorem settled_event_sound (cs : list DomainCommitment) (d h s : Z) (expected : option Hash32)
    (e : CrossDomain.DomainEvent) (p : Merkle.MerkleProof) (c : DomainCommitment) (e' : CrossDomain.DomainEvent)
    (events : list CrossDomain.DomainEvent)
    (Hv : verify_event_from_registry (crun cs) d h s expected e p = Ok (c, e'))
    (Hroot : event_root c = Merkle.merkle_root (map CrossDomain.leaf_hash events))
    (He : event_ok e) (Hevents : Forall event_ok events) :
  e' = e /\ (exists e0, e0 ∈ events /\ event_agrees e e0) /\
  (numbered events -> exists e0, events !! Z.to_nat (CrossDomain.ev_event_index e) = Some e0 /\ event_agrees e e0) /\
  domain_id c = d /\ domain_height c = h /\ sequence c = s /\
  CrossDomain.domain_id e = d /\ CrossDomain.domain_height e = h /\
  (forall b, expected = Some b -> domain_block_hash c = b) /\
  (forall cs', get (crun (cs ++ cs')) d h s = Some c) /\
  (forall d' h' s' c', get (crun cs) d' h' s' = Some c' -> block_key c' = block_key c -> (d', (h', s')) = (d, (h, s))).
Proof.
  unfold verify_event_from_registry in Hv. apply rbind_Ok in Hv as (c0 & Hg & Hv). apply ok_or_Ok in Hg.
  apply rbind_Ok in Hv as (u & Hb & Hv). unfold verify_event_against_commitment in Hv. inv_ok Hv. simplify_eq. split_bool.
  pose proof (inv_key _ (crun_inv cs) _ _ Hg) as Hkey. unfold commitment_key in Hkey. simplify_eq.
  assert (Hin : exists j e0, events !! j = Some e0 /\ event_agrees e' e0).
  { match goal with K : Merkle.verify p _ = true |- _ => rewrite Hroot in K; rename K into Hver end.
    match goal with L : CrossDomain.leaf_hash e' = Merkle.leaf p |- _ => rename L into Hleaf end.
    apply Merkle.merkle_member in Hver; rewrite <- ?Hleaf in *.
    - apply list_elem_of_fmap in Hver as (e0 & Hl & He0). apply list_elem_of_lookup_1 in He0 as (j & Hj).
      exists j, e0. split; [done|]. rewrite Forall_lookup in Hevents. apply event_leaf_binds; [done|by eapply Hevents|done].
    - apply Forall_forall. intros lf (y & -> & _)%list_elem_of_fmap. apply event_leaf_not_node.
    - apply event_leaf_not_node.
    - intros E. unfold CrossDomain.leaf_hash in E. by apply hash_fields_inj in E. }
  destruct Hin as (j & e0 & Hj & Ha). split_and!; try done; try lia.
  - exists e0. split; [by eapply list_elem_of_lookup_2|done].
  - intros Hnum. exists e0. split; [|done]. pose proof (Hnum _ _ Hj) as Ej. destruct Ha as (_ & _ & Ei & _).
    replace (Z.to_nat (CrossDomain.ev_event_index e')) with j by lia. done.
  - intros b ->. destruct u. by case_bool_decide.
  - intros cs'. unfold get, crun. rewrite fold_left_app. by apply fold_cstep_keeps.
  - intros d' h' s' c' Hc' Hbk. by eapply (inv_unique _ (crun_inv cs)).
Qed.

(** ** The settlement block *)

Record header_ok (g : GlobalBlockHeader) : Prop := {
  hdr_version : version g ∈u U16;
  hdr_height : global_height g ∈u U64;
  hdr_chain : g_chain_id g ∈u U64;
  hdr_time : g_timestamp_ms g ∈u U128;
  hdr_proposer : producer_ok (proposer g);
}.

(** The settlement hash determines the header, up to an absent storage or
    inference root being hashed as the zero root. *)
Theorem global_hash_binds (g g' : GlobalBlockHeader) (Hg : header_ok g) (Hg' : header_ok g')
    (E : calculate_hash_bytes g = calculate_hash_bytes g') :
  version g = version g' /\ global_height g = global_height g' /\ previous_global_hash g = previous_global_hash g' /\
  g_chain_id g = g_chain_id g' /\ g_timestamp_ms g = g_timestamp_ms g' /\
  domain_registry_root g = domain_registry_root g' /\ domain_commitment_root g = domain_commitment_root g' /\
  message_root g = message_root g' /\ bridge_state_root g = bridge_state_root g' /\
  replay_nonce_root g = replay_nonce_root g' /\ proposer g = proposer g' /\
  settlement_finality_root g = settlement_finality_root g' /\
  default zero32 (storage_root g) = default zero32 (storage_root g') /\
  default zero32 (ai_root g) = default zero32 (ai_root g').
Proof.
  destruct Hg, Hg'. unfold calculate_hash_bytes in E. apply hash_fields_inj in E.
  split_fields E. apply u64_le_inj in F1, F3; [|done..]. apply u128_le_inj in F4; [|done..].
  apply producer_inj in F10; [|done..]. split_and!; try done.
  apply (f_equal le_decode) in F0. rewrite !le_decode_encode in F0. change (256 ^ Z.of_nat 2) with U16 in F0.
  by rewrite !Z.mod_small in F0.
Qed.

End hashing.

(** ** A settled event *)
Module Demo.

Definition event (i : Z) : CrossDomain.DomainEvent :=
  CrossDomain.mkEvent 7 12 i CrossDomain.BridgeLocked (replicate 32 5) None (replicate 32 i).
Definition events : list CrossDomain.DomainEvent := map event [0; 1; 2].
Definition leaves : list Hash32 := map (CrossDomain.leaf_hash (H := framed_hash)) events.
Definition commitment : DomainCommitment :=
  mkCommitment 7 12 (replicate 32 1) zero32 zero32 zero32 (Merkle.merkle_root (H := framed_hash) leaves) zero32 Bft zero32
    1000 0 None ∅.
Definition proof : Merkle.MerkleProof := default (Merkle.mkProof [] 0 []) (Merkle.leaf_proof (H := framed_hash) leaves 2).

Lemma verified : verify_event_from_registry (H := framed_hash) (crun [commitment]) 7 12 0 (Some (replicate 32 1)) (event 2) proof =
  Ok (commitment, event 2).
Proof. vm_compute. reflexivity. Qed.
Lemma events_ok : Forall event_ok events.
Proof. repeat constructor; vm_compute; done. Qed.
Lemma event2_ok : event_ok (event 2).
Proof. vm_compute. done. Qed.
Lemma events_numbered : numbered events.
Proof. intros [|[|[|j]]] e [= <-]; reflexivity. Qed.

End Demo.

Lemma settled_event_sound_witness :
  exists e0, Demo.events !! 2%nat = Some e0 /\ event_agrees (Demo.event 2) e0.
Proof.
  destruct (settled_event_sound (H := framed_hash) (HC := framed_hash_inj) [Demo.commitment] 7 12 0 _ _ _ _ _ Demo.events
    Demo.verified eq_refl Demo.event2_ok Demo.events_ok) as (_ & _ & H & _).
  exact (H Demo.events_numbered).
Defined.

End DomainsFacts.
