(* ===== verification/ForkChoice.v ===== *)
(** * Fork choice between domain heads (src/domain/fork_choice.rs)

    Among candidate heads of a domain, [fork_choice] picks one by the rule of the
    domain's consensus: most work, most votes, the highest with a quorum
    certificate, the highest with an authority quorum; ties go to the greater
    height and then to the smaller hash.  [Iterator::max_by] returns the last of
    the greatest elements.

    The theorems: the choice does not depend on the order in which the
    candidates with distinct hashes arrive, and the head chosen is the greatest
    of the eligible ones in that order, or the only candidate, which is taken
    without asking whether it is eligible. *)

From Stdlib Require Import ZArith Lia.
From stdpp Require Import base tactics strings numbers gmap list.
From S2P Require Import Prelude Hashing Domains.
Import Hashing Domains.
Open Scope Z_scope.

Module ForkChoice.

Inductive DomainFinalityStatus : Type := Probabilistic | Justified | Finalized.

Inductive ForkChoiceReason : Type :=
| PowMostWork
| PosLatestMessageDriven
| BftQuorumCertificate
| PoaRoundRobinAuthority
| SingleCandidate.

Inductive ForkChoiceError : Type :=
| NoCandidates
| MixedDomainCandidates
| MissingCumulativeWork
| MissingVoteWeight
| MissingQuorumCertificate
| MissingAuthorityQuorum
| ConflictingFinality
| UnsupportedConsensusKind.

Record ForkCandidate : Type := mkCandidate {
  f_domain_id : DomainId;
  head_hash : Hash32;
  parent_hash : Hash32;
  height : Z;
  cumulative_work : option Z;
  vote_weight : option Z;
  justified_checkpoint : option Hash32;
  finalized_checkpoint : option Hash32;
  f_proposer : option Address;
  qc_present : bool;
  authority_quorum : bool;
}.

Record ResolvedHead : Type := mkResolved {
  r_domain_id : DomainId;
  r_head_hash : Hash32;
  r_height : Z;
  finality : DomainFinalityStatus;
  reason : ForkChoiceReason;
}.

(** ** Orders *)

(** [Ord::cmp] on integers and on byte arrays. *)
Definition zcmp (a b : Z) : comparison := a ?= b.
Fixpoint bcmp (a b : bytes) : comparison :=
  match a, b with
  | [], [] => Datatypes.Eq
  | [], _ :: _ => Datatypes.Lt
  | _ :: _, [] => Datatypes.Gt
  | x :: a, y :: b => match x ?= y with Datatypes.Eq => bcmp a b | c => c end
  end.

(** [a.then(b)] *)
Definition then_cmp (a b : comparison) : comparison := match a with Datatypes.Eq => b | _ => a end.

(** Height, then the smaller hash. *)
Definition head_cmp (a b : ForkCandidate) : comparison :=
  then_cmp (zcmp (height a) (height b)) (bcmp (head_hash b) (head_hash a)).
Definition weighted_cmp (a b : ForkCandidate * Z) : comparison :=
  then_cmp (zcmp a.2 b.2) (head_cmp a.1 b.1).

(** [Iterator::max_by]: the last of the greatest. *)
Definition max_by {A} (cmp : A -> A -> comparison) (l : list A) : option A :=
  match l with
  | [] => None
  | x :: l => Some (fold_left (fun best y => match cmp best y with Datatypes.Gt => best | _ => y end) l x)
  end.

(** ** The rules *)

Definition ensure_single_domain (expected : DomainId) (cs : list ForkCandidate) : result unit ForkChoiceError :=
  check? negb (bool_decide (cs = [])) else NoCandidates in
  check? negb (existsb (fun c => negb (f_domain_id c =? expected)) cs) else MixedDomainCandidates in
  Ok tt.

Definition resolve_single (c : ForkCandidate) : ResolvedHead :=
  mkResolved (f_domain_id c) (head_hash c) (height c)
    (match finalized_checkpoint c, justified_checkpoint c with
     | Some _, _ => Finalized
     | None, Some _ => Justified
     | None, None => Probabilistic
     end) SingleCandidate.

(** [.map(..).collect::<Option<Vec<_>>>()] *)
Fixpoint collect_weights (w : ForkCandidate -> option Z) (cs : list ForkCandidate) : option (list (ForkCandidate * Z)) :=
  match cs with
  | [] => Some []
  | c :: cs => x ← w c; rest ← collect_weights w cs; Some ((c, x) :: rest)
  end.

Definition resolve_pow (cs : list ForkCandidate) : result ResolvedHead ForkChoiceError :=
  let? l := ok_or (collect_weights cumulative_work cs) MissingCumulativeWork in
  let? best := ok_or (max_by weighted_cmp l) NoCandidates in
  let c := best.1 in
  Ok (mkResolved (f_domain_id c) (head_hash c) (height c) Probabilistic PowMostWork).

Definition resolve_pos (cs : list ForkCandidate) : result ResolvedHead ForkChoiceError :=
  let? l := ok_or (collect_weights vote_weight cs) MissingVoteWeight in
  let? best := ok_or (max_by weighted_cmp l) NoCandidates in
  let c := best.1 in
  Ok (mkResolved (f_domain_id c) (head_hash c) (height c)
        (if bool_decide (is_Some (finalized_checkpoint c)) then Finalized else Justified) PosLatestMessageDriven).

Definition conflicts (best : ForkCandidate) (c : ForkCandidate) : bool :=
  qc_present c && (height c =? height best) && negb (bool_decide (head_hash c = head_hash best)).

Definition resolve_bft (cs : list ForkCandidate) : result ResolvedHead ForkChoiceError :=
  let with_qc := filter (fun c => qc_present c = true) cs in
  check? negb (bool_decide (with_qc = [])) else MissingQuorumCertificate in
  let? best := ok_or (max_by head_cmp with_qc) NoCandidates in
  check? (length (filter (fun c => conflicts best c = true) cs) =? 0)%nat else ConflictingFinality in
  Ok (mkResolved (f_domain_id best) (head_hash best) (height best) Finalized BftQuorumCertificate).

Definition resolve_poa (cs : list ForkCandidate) : result ResolvedHead ForkChoiceError :=
  let? best := ok_or (max_by head_cmp (filter (fun c => authority_quorum c = true) cs)) MissingAuthorityQuorum in
  Ok (mkResolved (f_domain_id best) (head_hash best) (height best) Finalized PoaRoundRobinAuthority).

Definition fork_choice (domain : DomainId) (kind : ConsensusKind) (cs : list ForkCandidate)
  : result ResolvedHead ForkChoiceError :=
  let? _ := ensure_single_domain domain cs in
  match cs with
  | [c] => Ok (resolve_single c)
  | _ =>
      match kind with
      | PoW => resolve_pow cs
      | PoS => resolve_pos cs
      | Bft => resolve_bft cs
      | PoA => resolve_poa cs
      | _ => Err UnsupportedConsensusKind
      end
  end.

(** ** The life cycle of a domain *)

Inductive DomainLifecycleStatus : Type := Proposed | LActive | Paused | Draining | LRetired.

Definition can_transition_to (s next : DomainLifecycleStatus) : bool :=
  match s, next with
  | Proposed, LActive | LActive, Paused | Paused, LActive | LActive, Draining | Paused, Draining | Draining, LRetired => true
  | _, _ => false
  end.

(** ** Maxima *)

(** A total preorder given by a comparison function. *)
Record cmp_order {A} (cmp : A -> A -> comparison) : Prop := {
  cmp_anti : forall x y, cmp y x = CompOpp (cmp x y);
  cmp_trans : forall x y z, cmp x y <> Datatypes.Gt -> cmp y z <> Datatypes.Gt -> cmp x z <> Datatypes.Gt;
}.

Lemma cmp_refl {A} (cmp : A -> A -> comparison) x : cmp_order cmp -> cmp x x = Datatypes.Eq.
Proof. intros Hc. pose proof (cmp_anti _ Hc x x). by destruct (cmp x x). Qed.

Lemma zcmp_order : cmp_order zcmp.
Proof.
  split; unfold zcmp.
  - intros x y. apply Z.compare_antisym.
  - intros x y z. rewrite !Z.compare_le_iff. lia.
Qed.

(** Comparing images, and lexicographic composition. *)
Lemma cmp_order_image {A B} (f : A -> B) cmp : cmp_order cmp -> cmp_order (fun x y => cmp (f x) (f y)).
Proof. intros [Ha Ht]. split; [intros x y; apply Ha|intros x y z; apply Ht]. Qed.

Lemma cmp_order_flip {A} (cmp : A -> A -> comparison) : cmp_order cmp -> cmp_order (fun x y => cmp y x).
Proof.
  intros [Ha Ht]. split; [intros x y; apply Ha|]. intros x y z H1 H2. eapply Ht; [exact H2|exact H1].
Qed.

Lemma cmp_order_then {A} (c1 c2 : A -> A -> comparison) : cmp_order c1 -> cmp_order c2 ->
  cmp_order (fun x y => then_cmp (c1 x y) (c2 x y)).
Proof.
  intros H1 H2. split.
  - intros x y. rewrite (cmp_anti _ H1 x y), (cmp_anti _ H2 x y). by destruct (c1 x y), (c2 x y).
  - intros x y z Hxy Hyz. unfold then_cmp in *.
    pose proof (cmp_trans _ H1 x y z) as T1. pose proof (cmp_trans _ H2 x y z) as T2.
    pose proof (cmp_trans _ H1 z x y) as T3. pose proof (cmp_trans _ H1 y z x) as T4.
    rewrite (cmp_anti _ H1 y z), (cmp_anti _ H1 x z) in *. rewrite (cmp_anti _ H1 x y) in *.
    destruct (c1 x y), (c1 y z), (c1 x z); simpl in *; try done; try (by apply T2);
      try (by destruct T1); try (by destruct T3); try (by destruct T4).
Qed.

Lemma bcmp_eq a b : bcmp a b = Datatypes.Eq <-> a = b.
Proof.
  revert b. induction a as [|x a IH]; intros [|y b]; simpl; try done.
  destruct (Z.compare_spec x y); subst; [rewrite IH; naive_solver|naive_solver lia..].
Qed.

Lemma bcmp_order : cmp_order bcmp.
Proof.
  split.
  - intros x. induction x as [|a x IH]; intros [|b y]; simpl; try done.
    rewrite (Z.compare_antisym a b). destruct (a ?= b); simpl; auto.
  - intros x. induction x as [|a x IH]; intros [|b y] [|c z]; simpl; try done.
    destruct (Z.compare_spec a b), (Z.compare_spec b c); subst; try done; intros H1 H2.
    + rewrite Z.compare_refl. by eapply IH.
    + by rewrite (proj2 (Z.compare_lt_iff b c)).
    + by rewrite (proj2 (Z.compare_lt_iff a c)).
    + by rewrite (proj2 (Z.compare_lt_iff a c)) by lia.
Qed.

Lemma head_cmp_order : cmp_order head_cmp.
Proof.
  apply (cmp_order_then (fun a b => zcmp (height a) (height b)) (fun a b => bcmp (head_hash b) (head_hash a))).
  - apply (cmp_order_image height), zcmp_order.
  - apply cmp_order_flip, (cmp_order_image head_hash), bcmp_order.
Qed.

Lemma weighted_cmp_order : cmp_order weighted_cmp.
Proof.
  apply (cmp_order_then (fun a b => zcmp a.2 b.2) (fun a b => head_cmp a.1 b.1)).
  - apply (cmp_order_image snd), zcmp_order.
  - apply (cmp_order_image fst), head_cmp_order.
Qed.

Lemma head_cmp_eq a b : head_cmp a b = Datatypes.Eq -> head_hash a = head_hash b.
Proof.
  unfold head_cmp, then_cmp. destruct (zcmp _ _); try done. intros H. symmetry. by apply bcmp_eq.
Qed.

Lemma weighted_cmp_eq a b : weighted_cmp a b = Datatypes.Eq -> head_hash a.1 = head_hash b.1.
Proof. unfold weighted_cmp, then_cmp. destruct (zcmp _ _); try done. apply head_cmp_eq. Qed.

Section maxima.
Context {A : Type} (cmp : A -> A -> comparison) (Hcmp : cmp_order cmp).

Lemma max_by_spec l m : max_by cmp l = Some m -> m ∈ l /\ forall y, y ∈ l -> cmp y m <> Datatypes.Gt.
Proof.
  destruct l as [|x l]; [done|]. simpl. intros [= <-]. revert x. induction l as [|z l IH]; intros x.
  - split; [left|]. intros y Hy. apply list_elem_of_singleton in Hy as ->. by rewrite cmp_refl.
  - cbn [fold_left]. set (b := match cmp x z with Datatypes.Gt => x | _ => z end).
    destruct (IH b) as [Hin Hmax]. assert (Hb : b ∈ x :: z :: l /\ cmp x b <> Datatypes.Gt /\ cmp z b <> Datatypes.Gt).
    { subst b. pose proof (cmp_anti _ Hcmp x z) as Ha. destruct (cmp x z) eqn:E; simpl in Ha;
        rewrite ?(cmp_refl cmp _ Hcmp), ?E, ?Ha; set_solver. }
    destruct Hb as (Hb & Hxb & Hzb). split.
    + apply elem_of_cons in Hin as [->|Hin]; [done|set_solver].
    + intros y Hy. assert (Hbm := Hmax b ltac:(left)).
      apply elem_of_cons in Hy as [->|Hy]; [by eapply (cmp_trans _ Hcmp)|].
      apply elem_of_cons in Hy as [->|Hy]; [by eapply (cmp_trans _ Hcmp)|]. apply Hmax. by right.
Qed.

Lemma max_by_perm l l' : l ≡ₚ l' ->
  (max_by cmp l = None /\ max_by cmp l' = None) \/
  exists m m', max_by cmp l = Some m /\ max_by cmp l' = Some m' /\ m ∈ l /\ m' ∈ l /\ cmp m m' = Datatypes.Eq.
Proof.
  intros Hp. destruct (max_by cmp l) as [m|] eqn:E, (max_by cmp l') as [m'|] eqn:E'.
  - right. exists m, m'. apply max_by_spec in E as [Hm H1]. apply max_by_spec in E' as [Hm' H2]. split_and!; try done.
    + by rewrite Hp.
    + specialize (H1 m' ltac:(by rewrite Hp)). specialize (H2 m ltac:(by rewrite <- Hp)).
      rewrite (cmp_anti _ Hcmp m m') in H1. by destruct (cmp m m').
  - destruct l'; [|done]. apply Permutation_nil_r in Hp. by subst.
  - destruct l; [|done]. apply Permutation_nil_l in Hp. by subst.
  - by left.
Qed.
End maxima.

(** ** The order of arrival does not matter *)

(** Candidates with the same head are the same candidate. *)
Definition distinct_heads (cs : list ForkCandidate) : Prop :=
  forall a b, a ∈ cs -> b ∈ cs -> head_hash a = head_hash b -> a = b.

Lemma collect_weights_spec w cs l : collect_weights w cs = Some l <-> l.*1 = cs /\ Forall (fun e => w e.1 = Some e.2) l.
Proof.
  revert l. induction cs as [|c cs IH]; intros l; simpl.
  - split; [by intros [= <-]|]. intros [Hl _]. by destruct l.
  - destruct (w c) as [x|] eqn:Ew; simpl.
    + destruct (collect_weights w cs) as [l'|] eqn:El; simpl.
      * destruct (proj1 (IH l') eq_refl) as [<- Hf]. split; [intros [= <-]; split; [done|by constructor]|].
        intros [Hl Hw]. destruct l as [|[c' y] l]; [done|]. simpl in Hl. injection Hl as -> Hl.
        inversion_clear Hw as [|? ? Hy Hw']. simpl in Hy. assert (y = x) as -> by congruence. do 2 f_equal.
        assert (Some l' = Some l) as [= ->] by (by apply IH). done.
      * split; [done|]. intros [Hl Hw]. destruct l as [|[c' y] l]; [done|]. injection Hl as -> Hl.
        inversion_clear Hw as [|? ? _ Hw']. assert (None = Some l) by (by apply IH). done.
    + split; [done|]. intros [Hl Hw]. destruct l as [|[c' y] l]; [done|]. injection Hl as -> Hl.
      inversion_clear Hw as [|? ? Hy _]. simpl in Hy. congruence.
Qed.

Lemma collect_weights_perm w cs cs' : cs ≡ₚ cs' ->
  (collect_weights w cs = None /\ collect_weights w cs' = None) \/
  exists l l', collect_weights w cs = Some l /\ collect_weights w cs' = Some l' /\ l ≡ₚ l'.
Proof.
  induction 1 as [|c cs cs' _ IH|c d cs|cs1 cs2 cs3 _ IH1 _ IH2]; simpl.
  - right. by exists [], [].
  - destruct (w c); simpl; [|by left]. destruct IH as [[-> ->]|(l & l' & -> & -> & Hl)]; simpl; [by left|].
    right. do 2 eexists. split_and!; [done..|]. by apply Permutation_skip.
  - destruct (w c), (w d); simpl; try (by left); destruct (collect_weights w cs); simpl; try (by left).
    right. do 2 eexists. split_and!; [done..|]. apply Permutation_swap.
  - destruct IH1 as [[E1 E2]|(l & l' & E1 & E2 & Hl)], IH2 as [[E3 E4]|(k & k' & E3 & E4 & Hk)]; try congruence.
    + by left.
    + right. exists l, k'. split_and!; try done. simplify_eq. by etrans.
Qed.

(** The best candidate by weight is the same in both orders. *)
Lemma weighted_best_perm w cs cs' l l' : cs ≡ₚ cs' -> distinct_heads cs ->
  collect_weights w cs = Some l -> collect_weights w cs' = Some l' -> l ≡ₚ l' ->
  (fst <$> max_by weighted_cmp l) = (fst <$> max_by weighted_cmp l').
Proof.
  intros Hp Hd El El' Hl. destruct (max_by_perm _ weighted_cmp_order l l' Hl) as [[-> ->]|(m & m' & -> & -> & Hm & Hm' & E)]; [done|].
  simpl. f_equal. apply collect_weights_spec in El as [<- _].
  apply Hd; [by apply list_elem_of_fmap_2..|]. by apply weighted_cmp_eq.
Qed.

Lemma head_best_perm (P : ForkCandidate -> Prop) `{forall x, Decision (P x)} cs cs' : cs ≡ₚ cs' -> distinct_heads cs ->
  max_by head_cmp (filter P cs) = max_by head_cmp (filter P cs').
Proof.
  intros Hp Hd. assert (Hf : filter P cs ≡ₚ filter P cs') by (by rewrite Hp).
  destruct (max_by_perm _ head_cmp_order _ _ Hf) as [[-> ->]|(m & m' & -> & -> & Hm & Hm' & E)]; [done|].
  f_equal. apply list_elem_of_filter in Hm as [_ Hm], Hm' as [_ Hm']. apply Hd; [done..|]. by apply head_cmp_eq.
Qed.

(** A rule that looks only at the best weighted candidate. *)
Lemma weighted_rule_perm w (f : ForkCandidate -> ResolvedHead) (e : ForkChoiceError) cs cs' : cs ≡ₚ cs' -> distinct_heads cs ->
  (let? l := ok_or (collect_weights w cs) e in let? best := ok_or (max_by weighted_cmp l) NoCandidates in Ok (f best.1)) =
  (let? l := ok_or (collect_weights w cs') e in let? best := ok_or (max_by weighted_cmp l) NoCandidates in Ok (f best.1)).
Proof.
  intros Hp Hd. destruct (collect_weights_perm w cs cs' Hp) as [[-> ->]|(l & l' & E & E' & Hl)]; [done|].
  pose proof (weighted_best_perm w cs cs' l l' Hp Hd E E' Hl) as Hb. rewrite E, E'. cbn [ok_or rbind].
  destruct (max_by weighted_cmp l), (max_by weighted_cmp l'); simpl in *; try done. by injection Hb as ->.
Qed.

Lemma resolve_bft_perm cs cs' : cs ≡ₚ cs' -> distinct_heads cs -> resolve_bft cs = resolve_bft cs'.
Proof.
  intros Hp Hd. unfold resolve_bft. rewrite <- (head_best_perm _ cs cs' Hp Hd).
  assert (Hn : bool_decide (filter (fun c => qc_present c = true) cs = []) = bool_decide (filter (fun c => qc_present c = true) cs' = [])).
  { apply bool_decide_ext. assert (Hf : filter (fun c => qc_present c = true) cs ≡ₚ filter (fun c => qc_present c = true) cs') by (by rewrite Hp).
    split; intros E; rewrite E in Hf; [apply Permutation_nil_l in Hf; congruence|apply Permutation_nil_r in Hf; congruence]. }
  rewrite Hn. destruct (bool_decide (filter (fun c => qc_present c = true) cs' = [])); [done|]. cbn [negb ensure rbind].
  destruct (max_by head_cmp _) as [best|]; [|done]. cbn [ok_or rbind]. by rewrite Hp.
Qed.

Lemma existsb_perm {A} (f : A -> bool) l l' : l ≡ₚ l' -> existsb f l = existsb f l'.
Proof.
  intros Hp. apply eq_iff_eq_true. rewrite !existsb_exists. setoid_rewrite <- list_elem_of_In. by setoid_rewrite Hp.
Qed.

Lemma ensure_perm d cs cs' : cs ≡ₚ cs' -> ensure_single_domain d cs = ensure_single_domain d cs'.
Proof.
  intros Hp. unfold ensure_single_domain. rewrite (existsb_perm _ _ _ Hp). do 3 f_equal.
  apply bool_decide_ext. split; intros ->; [apply Permutation_nil_l in Hp; congruence|apply Permutation_nil_r in Hp; congruence].
Qed.

(** ** The head chosen is the greatest *)

(** The candidates a rule considers among several, and its order on them. *)
Definition eligible (k : ConsensusKind) (c : ForkCandidate) : bool :=
  match k with Bft => qc_present c | PoA => authority_quorum c | _ => true end.

Definition rank (k : ConsensusKind) (a b : ForkCandidate) : comparison :=
  match k with
  | PoW => weighted_cmp (a, default 0 (cumulative_work a)) (b, default 0 (cumulative_work b))
  | PoS => weighted_cmp (a, default 0 (vote_weight a)) (b, default 0 (vote_weight b))
  | _ => head_cmp a b
  end.

Lemma weighted_best w cs l m : collect_weights w cs = Some l -> max_by weighted_cmp l = Some m ->
  m.1 ∈ cs /\ forall c, c ∈ cs -> weighted_cmp (c, default 0 (w c)) (m.1, default 0 (w m.1)) <> Datatypes.Gt.
Proof.
  intros El Em. apply collect_weights_spec in El as [<- Hf]. rewrite Forall_forall in Hf.
  apply max_by_spec in Em as [Hm Hmax]; [|apply weighted_cmp_order]. split; [by apply list_elem_of_fmap_2|].
  intros c Hc. apply list_elem_of_fmap in Hc as ([c' x] & -> & Hin). pose proof (Hf _ Hin) as Hx. pose proof (Hf _ Hm) as Hy.
  simpl in *. rewrite Hx, Hy. destruct m. apply (Hmax _ Hin).
Qed.

Lemma filtered_best (P : ForkCandidate -> bool) cs m : max_by head_cmp (filter (fun c => P c = true) cs) = Some m ->
  m ∈ cs /\ P m = true /\ forall c, c ∈ cs -> P c = true -> head_cmp c m <> Datatypes.Gt.
Proof.
  intros Em. apply max_by_spec in Em as [Hm Hmax]; [|apply head_cmp_order]. apply list_elem_of_filter in Hm as [? ?].
  split_and!; [done..|]. intros c Hc HP. apply Hmax, list_elem_of_filter. done.
Qed.

Definition chosen (k : ConsensusKind) (cs : list ForkCandidate) (r : ResolvedHead) (c : ForkCandidate) : Prop :=
  c ∈ cs /\ r_domain_id r = f_domain_id c /\ r_head_hash r = head_hash c /\ r_height r = height c /\
  (cs = [c] /\ reason r = SingleCandidate \/ eligible k c = true) /\
  forall c', c' ∈ cs -> eligible k c' = true -> rank k c' c <> Datatypes.Gt.

Lemma fork_choice_chosen d k cs r : fork_choice d k cs = Ok r -> exists c, chosen k cs r c.
Proof.
  unfold fork_choice. intros E. inv_ok E.
  destruct cs as [|c1 [|c2 cs]]; [destruct k; done| |].
  - simplify_eq. exists c1. unfold chosen. split_and!; try done; [left|by left; split|].
    intros c' Hc' _. apply list_elem_of_singleton in Hc' as ->.
    destruct k; unfold rank; first [rewrite (cmp_refl _ _ weighted_cmp_order); done|rewrite (cmp_refl _ _ head_cmp_order); done].
  - revert E. generalize (c1 :: c2 :: cs) as l. intros l E. destruct k; try done.
    + unfold resolve_pow in E. inv_ok E. exists x1.1. destruct (weighted_best _ _ _ _ E1 E2) as [? ?].
      split_and!; try done; [by right|]. intros c' Hc' _. simpl. auto.
    + unfold resolve_pos in E. inv_ok E. exists x1.1. destruct (weighted_best _ _ _ _ E1 E2) as [? ?].
      split_and!; try done; [by right|]. intros c' Hc' _. simpl. auto.
    + unfold resolve_poa in E. inv_ok E. exists x0. destruct (filtered_best authority_quorum _ _ E1) as (? & ? & ?).
      split_and!; try done; by right.
    + unfold resolve_bft in E. inv_ok E. exists x1. destruct (filtered_best qc_present _ _ E2) as (? & ? & ?).
      split_and!; try done; by right.
Qed.

(** C24: fork choice is a function of the set of candidates: in whatever order
    they arrive (candidates with one head hash being one candidate), every node
    resolves the same head, or the same error.  The head resolved is one of the
    candidates, no eligible candidate ranks above it by the rule of the domain's
    consensus, and it is eligible itself, unless it is the only candidate, which
    is resolved without a quorum. *)
Theorem fork_choice_order_free (d : DomainId) (k : ConsensusKind) (cs cs' : list ForkCandidate)
    (Hp : cs ≡ₚ cs') (Hd : distinct_heads cs) :
  fork_choice d k cs = fork_choice d k cs' /\
  (forall r, fork_choice d k cs = Ok r -> exists c, chosen k cs r c).
Proof.
  split; [|intros r; apply fork_choice_chosen].
  unfold fork_choice. rewrite (ensure_perm d cs cs' Hp). destruct (ensure_single_domain d cs'); [|done]. cbn [rbind].
  pose proof (Permutation_length Hp) as Hl.
  destruct cs as [|c1 [|c2 cs]], cs' as [|c1' [|c2' cs']]; try discriminate Hl; [done| |].
  - apply Permutation_singleton_inj in Hp. by subst.
  - destruct k; try done.
    + by apply (weighted_rule_perm cumulative_work (fun c => mkResolved (f_domain_id c) (head_hash c) (height c) Probabilistic PowMostWork)).
    + exact (weighted_rule_perm vote_weight (fun c => mkResolved (f_domain_id c) (head_hash c) (height c)
        (if @bool_decide (is_Some (finalized_checkpoint c)) (is_Some_dec _) then Finalized else Justified) PosLatestMessageDriven) _ _ _ Hp Hd).
    + unfold resolve_poa. by rewrite (head_best_perm _ _ _ Hp Hd).
    + by apply resolve_bft_perm.
Qed.

(** ** Three heads *)
Module Demo.
Definition head (b h w : Z) : ForkCandidate :=
  mkCandidate 3 (replicate 32 b) zero32 h (Some w) (Some w) None None None true false.
Definition heads : list ForkCandidate := [head 9 10 5; head 4 10 7; head 2 9 7].

Lemma heads_distinct : distinct_heads heads.
Proof.
  intros a b Ha Hb E. unfold heads in *. repeat (apply elem_of_cons in Ha as [->|Ha] || apply elem_of_nil in Ha as []);
    repeat (apply elem_of_cons in Hb as [->|Hb] || apply elem_of_nil in Hb as []); first [done|discriminate E].
Qed.

Lemma resolved : fork_choice 3 PoW heads = Ok (mkResolved 3 (replicate 32 4) 10 Probabilistic PowMostWork).
Proof. vm_compute. reflexivity. Qed.
(** A lone candidate of an authority domain, without a quorum of authorities. *)
Example lone_candidate : eligible PoA (head 9 10 5) = false /\
  fork_choice 3 PoA [head 9 10 5] = Ok (mkResolved 3 (replicate 32 9) 10 Probabilistic SingleCandidate).
Proof. vm_compute. split; reflexivity. Qed.
Lemma conflict : fork_choice 3 Bft heads = Err ConflictingFinality.
Proof. vm_compute. reflexivity. Qed.
End Demo.

Lemma fork_choice_order_free_witness :
  fork_choice 3 PoW (rev Demo.heads) = Ok (mkResolved 3 (replicate 32 4) 10 Probabilistic PowMostWork) /\
  fork_choice 3 Bft (rev Demo.heads) = Err ConflictingFinality.
Proof.
  split.
  - rewrite <- (proj1 (fork_choice_order_free 3 PoW Demo.heads (rev Demo.heads) (Permutation_rev _) Demo.heads_distinct)).
    exact Demo.resolved.
  - rewrite <- (proj1 (fork_choice_order_free 3 Bft Demo.heads (rev Demo.heads) (Permutation_rev _) Demo.heads_distinct)).
    exact Demo.conflict.
Defined.

End ForkChoice.
