(* ===== verification/VerifierRegistry.v ===== *)
(** * The verifier registry (budzero/verifier-registry/src)

    One registry for every role: an account bonds a stake per role, unbonds and
    withdraws it, and loses part of it to a slash that reaches every role the
    account holds.  [VerifierRegistry] is the struct, keyed by role and
    account; a method that fails leaves the registry as it was, so that it
    returns the new registry only with [Ok].  Sha-256 is a parameter.

    [RegistryOp] and [run_op] put the methods in sequences.  The theorems: what
    a slash takes from whom, that a slashed registration never leaves that
    state and is never paid out, the accounting of every unit of stake, and
    that the state root binds the registrations. *)

From Stdlib Require Import ZArith Lia Sorted.
From stdpp Require Import base tactics strings numbers gmap sorting list.
From S2P Require Import Prelude Hashing.
Import Hashing.
Open Scope Z_scope.

Module VerifierRegistry.

(** ** Roles and parameters *)

Abbreviation RoleId := Z.

Definition VALIDATOR : RoleId := 1.
Definition VERIFIER : RoleId := 2.
Definition MASTER_VERIFIER : RoleId := 2.
Definition RELAYER : RoleId := 3.
Definition PROVER : RoleId := 4.
Definition STORAGE_OPERATOR : RoleId := 5.
Definition AI_VERIFIER : RoleId := 6.
Definition ATTESTER : RoleId := 7.
Definition LUBOT_OPERATOR : RoleId := 8.
Definition CONTENT_VALIDATOR : RoleId := 9.

Definition SCALE : Z := 1000000.

Definition slash_penalty (stake slash_ratio_fixed : Z) : Z :=
  let quotient := stake * slash_ratio_fixed / SCALE in
  if U64 - 1 <? quotient then stake
  else if stake <? quotient then stake
  else quotient.

Record RegistryParams : Type := mkParams {
  min_stake : Z;
  unbonding_epochs : Z;
  double_sign_slash_ratio_fixed : Z;
  liveness_slash_ratio_fixed : Z;
  malicious_slash_ratio_fixed : Z;
}.

Inductive SlashingCondition : Type := CondDoubleSign | LivenessFault | MaliciousBehaviour.

Definition slash_ratio (p : RegistryParams) (c : SlashingCondition) : Z :=
  match c with
  | CondDoubleSign => double_sign_slash_ratio_fixed p
  | LivenessFault => liveness_slash_ratio_fixed p
  | MaliciousBehaviour => malicious_slash_ratio_fixed p
  end.

Inductive ParamsError : Type :=
| ZeroMinStake
| ZeroUnbondingEpochs
| DoubleSignRatioTooLarge
| LivenessRatioTooLarge
| MaliciousRatioTooLarge.

Definition validate (p : RegistryParams) : result unit ParamsError :=
  check? negb (min_stake p =? 0) else ZeroMinStake in
  check? negb (unbonding_epochs p =? 0) else ZeroUnbondingEpochs in
  check? negb (SCALE <? double_sign_slash_ratio_fixed p) else DoubleSignRatioTooLarge in
  check? negb (SCALE <? liveness_slash_ratio_fixed p) else LivenessRatioTooLarge in
  check? negb (SCALE <? malicious_slash_ratio_fixed p) else MaliciousRatioTooLarge in
  Ok tt.

Definition default_params : RegistryParams :=
  mkParams 1000 7 (SCALE / 2) (SCALE / 100) SCALE.

(** ** Evidence *)

Inductive ProofProvenance : Type := ConsensusVerified | ProvUnverified.

Inductive SlashingProof : Type :=
| DoubleSign (height : Z) (block_hash_1 block_hash_2 : string) (signature_1 signature_2 : bytes)
| Liveness (window_start_epoch window_end_epoch missed expected : Z)
| Other (tag : string) (data : bytes)
| InvalidSignatureSpam (epoch count threshold : Z).

Definition condition (p : SlashingProof) : SlashingCondition :=
  match p with
  | DoubleSign _ _ _ _ _ => CondDoubleSign
  | Liveness _ _ _ _ => LivenessFault
  | Other _ _ => MaliciousBehaviour
  | InvalidSignatureSpam _ _ _ => MaliciousBehaviour
  end.

Record SlashingReport : Type := mkReport {
  offender : Address;
  rep_role : RoleId;
  proof : SlashingProof;
  provenance : ProofProvenance;
  reporter : option Address;
}.

Inductive EvidenceError : Type :=
| ZeroOffender
| NonConflictingHashes
| MissingSignature
| ImpossibleLivenessWindow
| EmptyProofTag
| InsufficientInvalidVoteCount
| Unverified.

(** [Vec::is_empty] *)
Definition is_empty_bytes (b : bytes) : bool := match b with [] => true | _ => false end.

Definition validate_shape (r : SlashingReport) : result unit EvidenceError :=
  check? negb (bool_decide (offender r = zero32)) else ZeroOffender in
  match proof r with
  | DoubleSign _ h1 h2 s1 s2 =>
      check? negb (bool_decide (h1 = h2)) else NonConflictingHashes in
      check? negb (is_empty_bytes s1 || is_empty_bytes s2) else MissingSignature in
      Ok tt
  | Liveness _ _ missed expected =>
      check? negb (expected <? missed) else ImpossibleLivenessWindow in Ok tt
  | Other tag _ => check? negb (bool_decide (tag = EmptyString)) else EmptyProofTag in Ok tt
  | InvalidSignatureSpam _ count threshold =>
      check? negb ((threshold =? 0) || (count <? threshold)) else InsufficientInvalidVoteCount in Ok tt
  end.

Definition is_actionable (r : SlashingReport) : result unit EvidenceError :=
  let? _ := validate_shape r in
  match provenance r with
  | ConsensusVerified => Ok tt
  | ProvUnverified => Err Unverified
  end.

Definition consensus_invalid_relay_proof (off : Address) (reason : bytes) (rep : option Address) : SlashingReport :=
  mkReport off RELAYER (Other "relayer_invalid_proof" reason) ConsensusVerified rep.
Definition consensus_invalid_attester_proof (off : Address) (reason : bytes) (rep : option Address) : SlashingReport :=
  mkReport off ATTESTER (Other "attester_invalid_attestation" reason) ConsensusVerified rep.
Definition consensus_invalid_content_validation (off : Address) (reason : bytes) (rep : option Address) : SlashingReport :=
  mkReport off CONTENT_VALIDATOR (Other "content_validator_malicious" reason) ConsensusVerified rep.

(** ** The registry *)

Inductive MemberStatus : Type :=
| Active
| Unbonding (release_epoch : Z)
| Slashed.

#[export] Instance MemberStatus_eq_dec : EqDecision MemberStatus.
Proof. solve_decision. Defined.

Record Registration : Type := mkReg {
  account : Address;
  role : RoleId;
  stake : Z;
  status : MemberStatus;
  registered_epoch : Z;
}.

Definition with_stake (s : Z) (r : Registration) : Registration :=
  mkReg (account r) (role r) s (status r) (registered_epoch r).
Definition with_status (s : MemberStatus) (r : Registration) : Registration :=
  mkReg (account r) (role r) (stake r) s (registered_epoch r).

Definition reg_is_active (r : Registration) : bool :=
  bool_decide (status r = Active) && (0 <? stake r).

Inductive RegistryError : Type :=
| InsufficientStake (required provided : Z)
| AlreadyRegistered (a : Address) (r : RoleId)
| NotRegistered (a : Address) (r : RoleId)
| NotActive (a : Address) (r : RoleId)
| StillUnbonding (release_epoch current_epoch : Z)
| RelayerNotActive (a : Address)
| AlreadySlashed (a : Address) (r : RoleId).

Record SlashOutcome : Type := mkOutcome {
  out_condition : SlashingCondition;
  out_penalty : Z;
  out_remaining_stake : Z;
}.

Record SlashingRecord : Type := mkRecord {
  rec_report : SlashingReport;
  rec_penalty : Z;
  rec_remaining_stake : Z;
}.

Abbreviation Key := (RoleId * Address)%type.

Record VerifierRegistry : Type := mkRegistry {
  registrations : gmap Key Registration;
  params : RegistryParams;
  slashing_history : list SlashingRecord;
}.

(** [VerifierRegistry::new], [with_params] and [set_params]. *)
Definition new : VerifierRegistry := mkRegistry ∅ default_params [].
Definition with_params (p : RegistryParams) : VerifierRegistry := mkRegistry ∅ p [].
Definition set_params (g : VerifierRegistry) (p : RegistryParams) : VerifierRegistry :=
  mkRegistry (registrations g) p (slashing_history g).

(** [self.registrations = m] *)
Definition with_regs (m : gmap Key Registration) (g : VerifierRegistry) : VerifierRegistry :=
  mkRegistry m (params g) (slashing_history g).

Definition register (g : VerifierRegistry) (a : Address) (r : RoleId) (s epoch : Z)
  : result VerifierRegistry RegistryError :=
  check? negb (s <? min_stake (params g)) else InsufficientStake (min_stake (params g)) s in
  match registrations g !! (r, a) with
  | Some _ => Err (AlreadyRegistered a r)
  | None => Ok (with_regs (<[(r, a) := mkReg a r s Active epoch]> (registrations g)) g)
  end.

Definition register_master_verifier g a := register g a MASTER_VERIFIER.
Definition register_relayer g a := register g a RELAYER.
Definition register_attester g a := register g a ATTESTER.
Definition register_validator g a := register g a VALIDATOR.
Definition register_lubot_operator g a := register g a LUBOT_OPERATOR.
Definition register_content_validator g a := register g a CONTENT_VALIDATOR.

Definition upsert_stake (g : VerifierRegistry) (a : Address) (r : RoleId) (total_stake epoch : Z)
  : VerifierRegistry :=
  let key := (r, a) in
  match registrations g !! key with
  | Some reg =>
      if bool_decide (status reg = Slashed) then with_regs (<[key := with_stake total_stake reg]> (registrations g)) g
      else if total_stake =? 0 then with_regs (delete key (registrations g)) g
      else with_regs (<[key := with_stake total_stake reg]> (registrations g)) g
  | None =>
      if min_stake (params g) <=? total_stake
      then with_regs (<[key := mkReg a r total_stake Active epoch]> (registrations g)) g
      else g
  end.

Definition add_stake (g : VerifierRegistry) (a : Address) (r : RoleId) (amount : Z)
  : result (VerifierRegistry * Z) RegistryError :=
  let? reg := ok_or (registrations g !! (r, a)) (NotRegistered a r) in
  let reg := with_stake (saturating_add U64 (stake reg) amount) reg in
  Ok (with_regs (<[(r, a) := reg]> (registrations g)) g, stake reg).

Definition begin_unbonding (g : VerifierRegistry) (a : Address) (r : RoleId) (epoch : Z)
  : result (VerifierRegistry * Z) RegistryError :=
  let? reg := ok_or (registrations g !! (r, a)) (NotRegistered a r) in
  check? bool_decide (status reg = Active) else NotActive a r in
  let release_epoch := saturating_add U64 epoch (unbonding_epochs (params g)) in
  Ok (with_regs (<[(r, a) := with_status (Unbonding release_epoch) reg]> (registrations g)) g, release_epoch).

Definition withdraw (g : VerifierRegistry) (a : Address) (r : RoleId) (epoch : Z)
  : result (VerifierRegistry * Z) RegistryError :=
  let? reg := ok_or (registrations g !! (r, a)) (NotRegistered a r) in
  match status reg with
  | Unbonding release_epoch =>
      if epoch <? release_epoch then Err (StillUnbonding release_epoch epoch)
      else Ok (with_regs (delete (r, a) (registrations g)) g, stake reg)
  | _ => Err (NotActive a r)
  end.

(** The keys of the map in order: by role, then by account. *)
Definition key_leb (x y : Key) : bool := (x.1 <? y.1) || ((x.1 =? y.1) && bytes_leb x.2 y.2).
Definition entry_le (x y : Key * Registration) : Prop := key_leb x.1 y.1 = true.
#[export] Instance entry_le_dec x y : Decision (entry_le x y).
Proof. unfold entry_le. apply _. Defined.
Definition entries (m : gmap Key Registration) : list (Key * Registration) :=
  merge_sort entry_le (map_to_list m).

(** What a slash does to one registration. *)
Definition slash_registration (ratio : Z) (reg : Registration) : Registration :=
  let penalty := slash_penalty (stake reg) ratio in
  with_status Slashed (with_stake (saturating_sub (stake reg) penalty) reg).

(** The body of the loop over the other roles of [a]. *)
Definition cross_step (a : Address) (ratio : Z) (m : gmap Key Registration) (r : RoleId)
  : gmap Key Registration :=
  match m !! (r, a) with
  | Some reg => if bool_decide (status reg = Slashed) then m
                else <[(r, a) := slash_registration ratio reg]> m
  | None => m
  end.

Definition slash_cross_role (m : gmap Key Registration) (a : Address) (primary_role : RoleId) (ratio : Z)
  : gmap Key Registration :=
  let other_keys := omap (fun k : Key => if bool_decide (k.2 = a) && negb (k.1 =? primary_role)
                                   then Some k.1 else None) (map fst (entries m)) in
  fold_left (cross_step a ratio) other_keys m.

Definition slash (g : VerifierRegistry) (a : Address) (r : RoleId) (c : SlashingCondition) (ratio : Z)
  : result (VerifierRegistry * SlashOutcome) RegistryError :=
  let? reg := ok_or (registrations g !! (r, a)) (NotRegistered a r) in
  check? negb (bool_decide (status reg = Slashed)) else AlreadySlashed a r in
  let penalty := slash_penalty (stake reg) ratio in
  let reg := slash_registration ratio reg in
  let m := slash_cross_role (<[(r, a) := reg]> (registrations g)) a r ratio in
  Ok (with_regs m g, mkOutcome c penalty (stake reg)).

Definition slash_from_report (g : VerifierRegistry) (rep : SlashingReport)
  : result (VerifierRegistry * option SlashOutcome) EvidenceError :=
  let? _ := is_actionable rep in
  let c := condition (proof rep) in
  match slash g (offender rep) (rep_role rep) c (slash_ratio (params g) c) with
  | Ok (g, o) =>
      Ok (mkRegistry (registrations g) (params g)
            (slashing_history g ++ [mkRecord rep (out_penalty o) (out_remaining_stake o)]), Some o)
  | Err _ => Ok (g, None)
  end.

(** ** Queries *)

Definition slashing_history_for (g : VerifierRegistry) (a : Address) : list SlashingRecord :=
  filter (fun r => offender (rec_report r) = a) (slashing_history g).

Definition get (g : VerifierRegistry) (a : Address) (r : RoleId) : option Registration :=
  registrations g !! (r, a).

Definition is_active (g : VerifierRegistry) (a : Address) (r : RoleId) : bool :=
  match get g a r with Some reg => reg_is_active reg | None => false end.

Definition is_active_relayer g a := is_active g a RELAYER.
Definition is_active_attester g a := is_active g a ATTESTER.
Definition is_active_master_verifier g a := is_active g a MASTER_VERIFIER.
Definition is_active_lubot_operator g a := is_active g a LUBOT_OPERATOR.
Definition is_active_content_validator g a := is_active g a CONTENT_VALIDATOR.

(** [.values().collect()]: also [registrations_as_seq]. *)
Definition registrations_as_seq (g : VerifierRegistry) : list Registration :=
  map snd (entries (registrations g)).

Definition active_members (g : VerifierRegistry) (r : RoleId) : list Registration :=
  filter (fun reg => role reg = r /\ reg_is_active reg = true) (registrations_as_seq g).

Definition total_stake (g : VerifierRegistry) (r : RoleId) : Z :=
  fold_left (saturating_add U64) (map stake (active_members g r)) 0.

(** The serde form: the values, keyed again by their own fields on the way
    back. *)
Definition deserialize (l : list Registration) : gmap Key Registration :=
  fold_left (fun m reg => <[(role reg, account reg) := reg]> m) l ∅.

(** ** The state root *)

Definition status_bytes (s : MemberStatus) : bytes :=
  match s with
  | Active => ascii_bytes "active"
  | Unbonding release_epoch => ascii_bytes "unbonding" ++ u64_le release_epoch
  | Slashed => ascii_bytes "slashed"
  end.

Definition entry_bytes (e : Key * Registration) : bytes :=
  u32_le e.1.1 ++ e.1.2 ++ u64_le (stake e.2) ++ u64_le (registered_epoch e.2) ++ status_bytes (status e.2).

Definition state_root (sha256 : bytes -> Hash32) (g : VerifierRegistry) : Hash32 :=
  if bool_decide (registrations g = ∅) then zero32
  else sha256 (ascii_bytes "BDLM_VERIFIER_REGISTRY_V1" ++ concat (map entry_bytes (entries (registrations g)))).

End VerifierRegistry.
