(* ===== verification/VerifierRegistryFacts.v ===== *)
(** * Facts about the verifier registry

    Sequences of registry calls, the flow of stake through them and the
    theorems about [VerifierRegistry]. *)

From Stdlib Require Import ZArith Lia Sorted.
From stdpp Require Import base tactics strings numbers gmap sorting list.
From S2P Require Import Prelude Hashing VerifierRegistry.
Import Hashing VerifierRegistry.
Open Scope Z_scope.

Module VerifierRegistryFacts.

(** ** Well-formed registries *)

Definition status_ok (s : MemberStatus) : Prop :=
  match s with Unbonding e => e ∈u U64 | _ => True end.

Record entry_ok (k : Key) (reg : Registration) : Prop := {
  entry_key : k = (role reg, account reg);
  entry_role : role reg ∈u U32;
  entry_account : length (account reg) = 32%nat;
  entry_stake : stake reg ∈u U64;
  entry_epoch : registered_epoch reg ∈u U64;
  entry_status : status_ok (status reg);
}.

Definition params_ok (p : RegistryParams) : Prop :=
  min_stake p ∈u U64 /\ unbonding_epochs p ∈u U64 /\ double_sign_slash_ratio_fixed p ∈u U64 /\
  liveness_slash_ratio_fixed p ∈u U64 /\ malicious_slash_ratio_fixed p ∈u U64.

Record registry_ok (g : VerifierRegistry) : Prop := {
  ok_entries : map_Forall entry_ok (registrations g);
  ok_params : params_ok (params g);
}.

(** ** Slashing *)

Lemma slash_penalty_bounds s ratio : s ∈u U64 -> 0 <= ratio -> 0 <= slash_penalty s ratio <= s.
Proof.
  intros. unfold slash_penalty, SCALE. assert (0 <= s * ratio / 1000000) by (apply Z.div_pos; nia).
  repeat case_match; lia.
Qed.

(** What a slash of the account does to one of its registrations. *)
Definition jail (ratio : Z) (reg : Registration) : Registration :=
  if bool_decide (status reg = Slashed) then reg else slash_registration ratio reg.

Definition penalty_of (ratio : Z) (reg : Registration) : Z :=
  if bool_decide (status reg = Slashed) then 0 else slash_penalty (stake reg) ratio.

Lemma jail_status ratio reg : status (jail ratio reg) = Slashed.
Proof. unfold jail. by case_bool_decide. Qed.

Lemma jail_idemp ratio reg : jail ratio (jail ratio reg) = jail ratio reg.
Proof. unfold jail at 1. by rewrite jail_status, bool_decide_eq_true_2. Qed.

Lemma jail_stake ratio reg : stake reg ∈u U64 -> 0 <= ratio ->
  stake (jail ratio reg) = stake reg - penalty_of ratio reg /\ 0 <= penalty_of ratio reg <= stake reg.
Proof.
  intros Hs Hr. pose proof (slash_penalty_bounds _ _ Hs Hr). unfold jail, penalty_of.
  case_bool_decide; [lia|]. simpl. unfold saturating_sub. lia.
Qed.

Lemma jail_ok ratio k reg : 0 <= ratio -> entry_ok k reg -> entry_ok k (jail ratio reg).
Proof.
  intros Hr [? ? ? Hs ? ?]. pose proof (jail_stake ratio reg Hs Hr).
  split; try (unfold jail; by case_bool_decide).
  lia.
Qed.

Lemma elem_of_entries (m : gmap Key Registration) k reg : (k, reg) ∈ entries m <-> m !! k = Some reg.
Proof. unfold entries. rewrite merge_sort_Permutation. apply elem_of_map_to_list. Qed.

(** The loop body and its effect on one registration. *)
Lemma jail_step (m : gmap Key Registration) a (ratio : Z) r k :
  cross_step a ratio m r !! k = if bool_decide (k = (r, a)) then jail ratio <$> m !! k else m !! k.
Proof.
  unfold cross_step. case_bool_decide as Hk; [subst k|]; destruct (m !! (r, a)) as [reg|] eqn:E; rewrite ?E; try done.
  - cbn [fmap option_fmap option_map]. unfold jail. case_bool_decide; [by rewrite E|]. by rewrite lookup_insert_eq.
  - case_bool_decide; [done|]. by rewrite lookup_insert_ne.
Qed.

Lemma jail_fold (a : Address) (ratio : Z) (l : list RoleId) (m : gmap Key Registration) (k : Key) :
  fold_left (cross_step a ratio) l m !! k = if bool_decide (k.2 = a /\ k.1 ∈ l) then jail ratio <$> m !! k else m !! k.
Proof.
  revert m. induction l as [|r l IH]; intros m; cbn [fold_left].
  - rewrite bool_decide_eq_false_2; [done|]. intros [_ H]. by apply not_elem_of_nil in H.
  - rewrite IH, !jail_step. destruct k as [r' a']; cbn [fst snd].
    destruct (m !! (r', a')) as [reg|]; repeat case_bool_decide; simplify_eq; try done;
      try (cbn; by rewrite jail_idemp);
      try (exfalso; rewrite ?elem_of_cons in *; naive_solver).
Qed.

Lemma cross_role_lookup (m : gmap Key Registration) a r (ratio : Z) k :
  slash_cross_role m a r ratio !! k =
  if bool_decide (k.2 = a /\ k.1 <> r) then jail ratio <$> m !! k else m !! k.
Proof.
  unfold slash_cross_role. rewrite jail_fold. destruct (m !! k) as [reg|] eqn:E; [|by repeat case_bool_decide].
  assert (Hiff : (k.2 = a /\ k.1 ∈ omap (fun k : Key => if bool_decide (k.2 = a) && negb (k.1 =? r)
              then Some k.1 else None) (map fst (entries m))) <-> k.2 = a /\ k.1 <> r).
  { rewrite list_elem_of_omap. split.
    - intros [Ha (k' & _ & Hk)]. split; [done|]. destruct (bool_decide _ && _) eqn:Eb; [|done].
      split_bool. simplify_eq. lia.
    - intros [Ha Hr]. split; [done|]. exists k. split.
      + apply list_elem_of_fmap. exists (k, reg). split; [done|]. by apply elem_of_entries.
      + rewrite bool_decide_eq_true_2 by done. by rewrite (proj2 (Z.eqb_neq _ _)). }
  by rewrite (bool_decide_ext _ _ Hiff).
Qed.

(** Every role of the account is jailed, and nothing else is touched. *)
Lemma slash_lookup g a r c ratio g' o :
  slash g a r c ratio = Ok (g', o) ->
  (forall k, registrations g' !! k =
     (if bool_decide (k.2 = a) then jail ratio <$> registrations g !! k else registrations g !! k)) /\
  params g' = params g /\ slashing_history g' = slashing_history g /\
  exists reg, registrations g !! (r, a) = Some reg /\ status reg <> Slashed /\
    o = mkOutcome c (slash_penalty (stake reg) ratio) (stake (jail ratio reg)).
Proof.
  intros E. unfold slash in E. inv_ok E. simplify_eq. split_bool. cbn [registrations params slashing_history with_regs].
  split_and!; try done.
  - intros k. rewrite cross_role_lookup. destruct (decide (k = (r, a))) as [->|Hk].
    + cbn [fst snd]. rewrite lookup_insert_eq, E0, bool_decide_eq_false_2, bool_decide_eq_true_2 by naive_solver.
      cbn. unfold jail. by rewrite bool_decide_eq_false_2.
    + rewrite lookup_insert_ne by done. destruct k as [r' a']; cbn [fst snd] in *.
      repeat case_bool_decide; naive_solver.
  - eexists. split_and!; [done..|]. unfold jail. by rewrite bool_decide_eq_false_2.
Qed.

(** ** Sequences of calls *)

Inductive RegistryOp : Type :=
| OpSetParams (p : RegistryParams)
| OpRegister (a : Address) (r : RoleId) (s epoch : Z)
| OpUpsert (a : Address) (r : RoleId) (total epoch : Z)
| OpAddStake (a : Address) (r : RoleId) (amount : Z)
| OpUnbond (a : Address) (r : RoleId) (epoch : Z)
| OpWithdraw (a : Address) (r : RoleId) (epoch : Z)
| OpSlash (a : Address) (r : RoleId) (c : SlashingCondition) (ratio : Z)
| OpReport (rep : SlashingReport).

(** The registry after a call: unchanged when the call fails. *)
Definition run_op (g : VerifierRegistry) (op : RegistryOp) : VerifierRegistry :=
  match op with
  | OpSetParams p => set_params g p
  | OpRegister a r s e => match register g a r s e with Ok g' => g' | Err _ => g end
  | OpUpsert a r s e => upsert_stake g a r s e
  | OpAddStake a r n => match add_stake g a r n with Ok (g', _) => g' | Err _ => g end
  | OpUnbond a r e => match begin_unbonding g a r e with Ok (g', _) => g' | Err _ => g end
  | OpWithdraw a r e => match withdraw g a r e with Ok (g', _) => g' | Err _ => g end
  | OpSlash a r c q => match slash g a r c q with Ok (g', _) => g' | Err _ => g end
  | OpReport rep => match slash_from_report g rep with Ok (g', _) => g' | Err _ => g end
  end.

Definition run (g : VerifierRegistry) (ops : list RegistryOp) : VerifierRegistry := fold_left run_op ops g.

(** Arguments in the range of their Rust types. *)
Definition op_ok (op : RegistryOp) : Prop :=
  match op with
  | OpSetParams p => params_ok p
  | OpRegister a r s e | OpUpsert a r s e => length a = 32%nat /\ r ∈u U32 /\ s ∈u U64 /\ e ∈u U64
  | OpAddStake a r n => n ∈u U64
  | OpUnbond a r e | OpWithdraw a r e => e ∈u U64
  | OpSlash a r c q => q ∈u U64
  | OpReport rep => True
  end.

Lemma slash_ratio_ok p c : params_ok p -> slash_ratio p c ∈u U64.
Proof. unfold params_ok. destruct c; simpl; lia. Qed.

(** A report either changes nothing or is the slash it asks for. *)
Lemma report_slash g rep g' o : slash_from_report g rep = Ok (g', o) ->
  (g' = g /\ o = None) \/
  exists g1 o1, slash g (offender rep) (rep_role rep) (condition (proof rep))
                  (slash_ratio (params g) (condition (proof rep))) = Ok (g1, o1) /\
    registrations g' = registrations g1 /\ params g' = params g1 /\ o = Some o1.
Proof.
  unfold slash_from_report. intros E. inv_ok E. destruct (slash _ _ _ _ _) as [[g1 o1]|] eqn:Es; simplify_eq; [right|by left].
  by exists g1, o1.
Qed.

Lemma slash_ok g a r c q g' o : registry_ok g -> 0 <= q -> slash g a r c q = Ok (g', o) -> registry_ok g'.
Proof.
  intros [He Hp] Hq E. apply slash_lookup in E as (Hl & Hpar & _ & _). split; [|by rewrite Hpar].
  intros k reg Hk. rewrite Hl in Hk. case_bool_decide; [|by apply He].
  apply fmap_Some in Hk as (reg' & Hk & ->). apply jail_ok; [done|by apply He].
Qed.

Lemma run_op_ok g op : registry_ok g -> op_ok op -> registry_ok (run_op g op).
Proof.
  intros Hg Ho. pose proof Hg as [He Hp]. destruct op as [p|a r s e|a r s e|a r n|a r e|a r e|a r c q|rep]; simpl in *.
  - by split.
  - destruct (register g a r s e) as [g'|] eqn:E; [|done]. unfold register in E. inv_ok E.
    destruct (registrations g !! (r, a)); simplify_eq. split; [|done].
    apply map_Forall_insert_2; [|done]. split; simpl; try done; tauto.
  - unfold upsert_stake. destruct (registrations g !! (r, a)) as [reg|] eqn:Ek.
    + pose proof (He _ _ Ek) as [? ? ? ? ? ?].
      repeat case_match; (split; [|done]); try (apply map_Forall_delete; done);
        (apply map_Forall_insert_2; [split; simpl; try done; tauto|done]).
    + case_match; [|done]. split; [|done]. apply map_Forall_insert_2; [split; simpl; try done; tauto|done].
  - destruct (add_stake g a r n) as [[g' z]|] eqn:E; [|done]. unfold add_stake in E. inv_ok E. simplify_eq.
    pose proof (He _ _ E0) as [? ? ? ? ? ?]. split; [|done]. apply map_Forall_insert_2; [|done].
    split; simpl; try done. unfold saturating_add. lia.
  - destruct (begin_unbonding g a r e) as [[g' z]|] eqn:E; [|done]. unfold begin_unbonding in E. inv_ok E. simplify_eq.
    pose proof (He _ _ E0) as [? ? ? ? ? ?]. split; [|done]. apply map_Forall_insert_2; [|done].
    split; simpl; try done. unfold saturating_add. destruct Hp as (_ & ? & _). lia.
  - destruct (withdraw g a r e) as [[g' z]|] eqn:E; [|done]. unfold withdraw in E. inv_ok E.
    repeat case_match; simplify_eq. split; [|done]. by apply map_Forall_delete.
  - destruct (slash g a r c q) as [[g' o]|] eqn:E; [|done]. eapply slash_ok; [done| |done]. lia.
  - destruct (slash_from_report g rep) as [[g' o]|] eqn:E; [|done].
    apply report_slash in E as [[-> _]|(g1 & o1 & E & Hr & Hpar & _)]; [done|].
    apply slash_ok in E as [He1 Hp1]; [|done|pose proof (slash_ratio_ok _ (condition (proof rep)) Hp); lia].
    split; [by rewrite Hr|by rewrite Hpar].
Qed.

Lemma run_ok g ops : registry_ok g -> Forall op_ok ops -> registry_ok (run g ops).
Proof.
  intros Hg Ho. revert g Hg. induction Ho as [|op ops Ho _ IH]; intros g Hg; [done|].
  apply IH. by apply run_op_ok.
Qed.

(** ** A slashed registration stays slashed *)

Definition jailed (g : VerifierRegistry) (k : Key) : Prop :=
  exists reg, registrations g !! k = Some reg /\ status reg = Slashed.

Lemma jailed_slash g a r c q g' o k : jailed g k -> slash g a r c q = Ok (g', o) -> jailed g' k.
Proof.
  intros (reg & Hk & Hs) E. apply slash_lookup in E as (Hl & _). unfold jailed.
  rewrite Hl, Hk. case_bool_decide; [|by exists reg]. eexists; split; [done|]. apply jail_status.
Qed.

Lemma jailed_insert g k k' reg : jailed g k -> (k = k' -> status reg = Slashed) ->
  jailed (with_regs (<[k' := reg]> (registrations g)) g) k.
Proof.
  intros (reg' & Hk & Hs) Hst. unfold jailed. cbn [registrations with_regs].
  destruct (decide (k = k')) as [->|]; [rewrite lookup_insert_eq; eauto|]. rewrite lookup_insert_ne by done. eauto.
Qed.

Lemma jailed_delete g k k' : jailed g k -> k <> k' ->
  jailed (with_regs (delete k' (registrations g)) g) k.
Proof. intros (reg' & Hk & Hs) Hst. exists reg'. cbn [registrations with_regs]. by rewrite lookup_delete_ne. Qed.

Lemma jailed_step g op k : jailed g k -> jailed (run_op g op) k.
Proof.
  intros Hj. pose proof Hj as (reg0 & Hk0 & Hs0).
  destruct op as [p|a r s e|a r s e|a r n|a r e|a r e|a r c q|rep]; simpl in *.
  - done.
  - destruct (register g a r s e) as [g'|] eqn:E; [|done]. unfold register in E. inv_ok E.
    destruct (registrations g !! (r, a)) eqn:Ek; simplify_eq. apply jailed_insert; [done|]. intros ->. congruence.
  - unfold upsert_stake. destruct (registrations g !! (r, a)) as [reg|] eqn:Ek.
    + case_bool_decide as Hs; [apply jailed_insert; [done|]; by intros ->|].
      case_match; [apply jailed_delete; [done|]; intros ->; congruence|].
      apply jailed_insert; [done|]. intros ->. congruence.
    + case_match; [|done]. apply jailed_insert; [done|]. intros ->. congruence.
  - destruct (add_stake g a r n) as [[g' z]|] eqn:E; [|done]. unfold add_stake in E. inv_ok E. simplify_eq.
    apply jailed_insert; [done|]. intros ->. simpl. congruence.
  - destruct (begin_unbonding g a r e) as [[g' z]|] eqn:E; [|done]. unfold begin_unbonding in E. inv_ok E. simplify_eq.
    apply jailed_insert; [done|]. intros ->. split_bool. congruence.
  - destruct (withdraw g a r e) as [[g' z]|] eqn:E; [|done]. unfold withdraw in E. inv_ok E.
    repeat case_match; simplify_eq. apply jailed_delete; [done|]. intros ->. congruence.
  - destruct (slash g a r c q) as [[g' o]|] eqn:E; [|done]. by eapply jailed_slash.
  - destruct (slash_from_report g rep) as [[g' o]|] eqn:E; [|done].
    apply report_slash in E as [[-> _]|(g1 & o1 & E & Hr & _)]; [done|].
    eapply jailed_slash in E as (reg & ? & ?); [|done]. exists reg. by rewrite Hr.
Qed.

Lemma jailed_run g ops k : jailed g k -> jailed (run g ops) k.
Proof. revert g. induction ops as [|op ops IH]; intros g Hj; [done|]. apply IH. by apply jailed_step. Qed.

(** C21: a slash that is carried out jails every role the account holds and
    takes from each one not yet slashed exactly its penalty, which is within
    the stake; registrations of other accounts are untouched; and whatever is
    called afterwards, each of these registrations stays slashed: it is never
    active, cannot be unbonded, withdrawn, registered afresh or slashed a
    second time. *)
Theorem slash_is_final (g g' : VerifierRegistry) (a : Address) (r : RoleId) (c : SlashingCondition)
    (ratio : Z) (o : SlashOutcome) (Hok : registry_ok g) (Hr : ratio ∈u U64)
    (Hslash : slash g a r c ratio = Ok (g', o)) (r' : RoleId) (reg : Registration)
    (Hreg : registrations g !! (r', a) = Some reg) :
  registrations g' !! (r', a) = Some (jail ratio reg) /\
  stake (jail ratio reg) = stake reg - penalty_of ratio reg /\ 0 <= penalty_of ratio reg <= stake reg /\
  (r' = r -> out_penalty o = penalty_of ratio reg /\ out_remaining_stake o = stake (jail ratio reg)) /\
  (forall k, k.2 <> a -> registrations g' !! k = registrations g !! k) /\
  forall ops epoch s c' q,
    let h := run g' ops in
    is_active h a r' = false /\ begin_unbonding h a r' epoch = Err (NotActive a r') /\
    withdraw h a r' epoch = Err (NotActive a r') /\ is_ok (register h a r' s epoch) = false /\
    slash h a r' c' q = Err (AlreadySlashed a r').
Proof.
  pose proof (ok_entries _ Hok _ _ Hreg) as [_ _ _ Hst _ _].
  pose proof (jail_stake ratio reg Hst (proj1 Hr)) as [Hjs Hpb].
  apply slash_lookup in Hslash as (Hl & _ & _ & reg0 & Hreg0 & Hns & ->).
  assert (Hj : registrations g' !! (r', a) = Some (jail ratio reg))
    by (rewrite Hl, Hreg; cbn; by rewrite bool_decide_eq_true_2).
  split_and!; try done; try lia.
  - intros ->. simplify_eq. unfold penalty_of. by rewrite bool_decide_eq_false_2.
  - intros k Hk. rewrite Hl. by rewrite bool_decide_eq_false_2.
  - intros ops epoch s c' q h.
    destruct (jailed_run g' ops (r', a)) as (reg' & Hk & Hs'); [exists (jail ratio reg); split; [done|apply jail_status]|].
    fold h in Hk. unfold is_active, get, begin_unbonding, withdraw, register, slash. rewrite Hk. cbn.
    unfold reg_is_active. rewrite Hs'. cbn. split_and!; try done. by destruct (s <? _).
Qed.

(** ** Accounting

    Where the stake of a call goes: [deposited] is what the caller bonds (for
    [upsert_stake], which overwrites a stake, the difference, which may be
    negative), [paid] what a withdrawal returns, [burned] the penalties of every
    role a slash reaches, [excess] what an addition loses to saturation. *)
Record Flow : Type := mkFlow { deposited : Z; paid : Z; burned : Z; excess : Z }.

Definition no_flow : Flow := mkFlow 0 0 0 0.
Definition flow_add (x y : Flow) : Flow :=
  mkFlow (deposited x + deposited y) (paid x + paid y) (burned x + burned y) (excess x + excess y).

Definition slash_flow (g : VerifierRegistry) (a : Address) (ratio : Z) : Flow :=
  mkFlow 0 0 (msum (fun reg => if bool_decide (account reg = a) then penalty_of ratio reg else 0)
                (registrations g)) 0.

Definition flow_of (g : VerifierRegistry) (op : RegistryOp) : Flow :=
  match op with
  | OpSetParams _ | OpUnbond _ _ _ => no_flow
  | OpRegister a r s e => if is_ok (register g a r s e) then mkFlow s 0 0 0 else no_flow
  | OpUpsert a r s e =>
      match registrations g !! (r, a) with
      | Some reg => mkFlow (s - stake reg) 0 0 0
      | None => if min_stake (params g) <=? s then mkFlow s 0 0 0 else no_flow
      end
  | OpAddStake a r n =>
      match registrations g !! (r, a) with
      | Some reg => mkFlow n 0 0 (Z.max 0 (stake reg + n - (U64 - 1)))
      | None => no_flow
      end
  | OpWithdraw a r e => match withdraw g a r e with Ok (_, z) => mkFlow 0 z 0 0 | Err _ => no_flow end
  | OpSlash a r c q => if is_ok (slash g a r c q) then slash_flow g a q else no_flow
  | OpReport rep =>
      match slash_from_report g rep with
      | Ok (_, Some _) => slash_flow g (offender rep) (slash_ratio (params g) (condition (proof rep)))
      | _ => no_flow
      end
  end.

Fixpoint flow_run (g : VerifierRegistry) (ops : list RegistryOp) : Flow :=
  match ops with
  | [] => no_flow
  | op :: ops => flow_add (flow_of g op) (flow_run (run_op g op) ops)
  end.

Definition held (g : VerifierRegistry) : Z := msum stake (registrations g).

Definition balanced (g g' : VerifierRegistry) (f : Flow) : Prop :=
  held g' + paid f + burned f + excess f = held g + deposited f.

Lemma slash_balanced g a r c q g' o : registry_ok g -> q ∈u U64 -> slash g a r c q = Ok (g', o) ->
  balanced g g' (slash_flow g a q).
Proof.
  intros [He _] Hq E. apply slash_lookup in E as (Hl & _). unfold balanced, held, slash_flow. simpl.
  assert (Hm : registrations g' = (fun reg => if bool_decide (account reg = a) then jail q reg else reg) <$> registrations g).
  { apply map_eq. intros k. rewrite Hl, lookup_fmap. destruct (registrations g !! k) as [reg|] eqn:Ek; cbn.
    - pose proof (He _ _ Ek) as [Hkey _ _ _ _ _]. rewrite Hkey. cbn. by case_bool_decide.
    - by case_bool_decide. }
  rewrite Hm. clear Hm Hl. revert He. generalize (registrations g) as m. intros m.
  induction m as [|k reg m Hk IH] using map_ind; intros He; [rewrite fmap_empty, !msum_empty; lia|].
  apply map_Forall_insert in He as [[_ _ _ Hs _ _] He]; [|done]. specialize (IH He).
  pose proof (jail_stake q reg Hs (proj1 Hq)) as [Hj _].
  rewrite fmap_insert, !msum_insert_new by (by rewrite ?lookup_fmap, Hk). case_bool_decide; lia.
Qed.

Lemma no_balanced g : balanced g g no_flow.
Proof. unfold balanced. simpl. lia. Qed.

Lemma held_insert g k reg :
  held (with_regs (<[k := reg]> (registrations g)) g) =
  held g - default 0 (stake <$> registrations g !! k) + stake reg.
Proof. unfold held. cbn [registrations with_regs]. apply msum_insert. Qed.

Lemma held_delete g k reg : registrations g !! k = Some reg ->
  held (with_regs (delete k (registrations g)) g) = held g - stake reg.
Proof. intros E. unfold held. cbn [registrations with_regs]. rewrite (msum_delete stake _ _ _ E). lia. Qed.

Lemma op_balanced g op : registry_ok g -> op_ok op -> balanced g (run_op g op) (flow_of g op).
Proof.
  intros Hg Ho. pose proof Hg as [He Hp]. pose proof (no_balanced g).
  destruct op as [p|a r s e|a r s e|a r n|a r e|a r e|a r c q|rep]; cbn [run_op flow_of] in *.
  - done.
  - destruct (register g a r s e) as [g'|] eqn:E; [|done]. cbn [is_ok]. unfold register in E. inv_ok E.
    destruct (registrations g !! (r, a)) eqn:Ek; simplify_eq. unfold balanced. rewrite held_insert, Ek. cbn. lia.
  - unfold upsert_stake, balanced. destruct (registrations g !! (r, a)) as [reg|] eqn:Ek.
    + repeat case_match; split_bool; rewrite ?held_insert, ?Ek; rewrite ?(held_delete _ _ _ Ek); cbn; lia.
    + case_match; [|done]. rewrite held_insert, Ek. cbn. lia.
  - unfold add_stake, balanced. destruct (registrations g !! (r, a)) as [reg|] eqn:Ek; cbn [ok_or rbind]; [|done].
    rewrite held_insert, Ek. pose proof (He _ _ Ek) as [_ _ _ Hs _ _]. cbn in *. unfold saturating_add. lia.
  - destruct (begin_unbonding g a r e) as [[g' z]|] eqn:E; [|done]. unfold begin_unbonding in E. inv_ok E. simplify_eq.
    unfold balanced. rewrite held_insert, E0. cbn. lia.
  - destruct (withdraw g a r e) as [[g' z]|] eqn:E; [|done]. unfold withdraw in E. inv_ok E.
    repeat case_match; simplify_eq. unfold balanced. rewrite (held_delete _ _ _ E0). cbn. lia.
  - destruct (slash g a r c q) as [[g' o]|] eqn:E; [|done]. by eapply slash_balanced.
  - destruct (slash_from_report g rep) as [[g' o]|] eqn:E; [|done].
    apply report_slash in E as [[-> ->]|(g1 & o1 & E & Hr & _ & ->)]; [done|].
    apply slash_balanced in E; [|done|by apply slash_ratio_ok]. unfold balanced, held in *. by rewrite Hr.
Qed.

(** C20: whatever the sequence of registry calls, every unit of stake is
    accounted for: what the registry holds, what withdrawals paid, what slashes
    burned over all the roles they reached and what saturation lost add up to
    what was bonded. *)
Theorem verifier_stake_accounted (p : RegistryParams) (ops : list RegistryOp)
    (Hp : params_ok p) (Hops : Forall op_ok ops) :
  let f := flow_run (with_params p) ops in
  held (run (with_params p) ops) + paid f + burned f + excess f = deposited f /\
  0 <= held (run (with_params p) ops).
Proof.
  assert (Hg : registry_ok (with_params p)) by (split; [apply map_Forall_empty|done]).
  assert (Hb : balanced (with_params p) (run (with_params p) ops) (flow_run (with_params p) ops)).
  { revert Hg. generalize (with_params p) as g. induction Hops as [|op ops Ho Hops IH]; intros g Hg; [apply no_balanced|].
    pose proof (op_balanced g op Hg Ho) as H1. pose proof (IH _ (run_op_ok g op Hg Ho)) as H2.
    unfold balanced in *. simpl. lia. }
  unfold balanced in Hb. change (held (with_params p)) with 0 in Hb. split; [simpl; lia|].
  apply msum_nonneg. eapply map_Forall_impl; [apply (ok_entries _ (run_ok _ _ Hg Hops))|].
  intros k reg [_ _ _ Hs _ _]. lia.
Qed.

(** ** Serialisation and the state root *)

Lemma entries_NoDup (m : gmap Key Registration) : NoDup (entries m).*1.
Proof. unfold entries. rewrite merge_sort_Permutation. apply NoDup_fst_map_to_list. Qed.

Lemma registrations_to_map (m : gmap Key Registration) : list_to_map (entries m) = m.
Proof.
  rewrite <- (list_to_map_to_list m) at 2. apply list_to_map_proper; [apply entries_NoDup|].
  apply merge_sort_Permutation.
Qed.

(** Reading back the serialised sequence of registrations gives the map
    they came from. *)
Theorem registrations_roundtrip (g : VerifierRegistry) (Hok : registry_ok g) :
  deserialize (registrations_as_seq g) = registrations g.
Proof.
  unfold deserialize, registrations_as_seq. destruct Hok as [He _].
  assert (Hl : Forall (fun e => e.1 = (role e.2, account e.2)) (entries (registrations g))).
  { apply Forall_forall. intros [k reg] Hin. apply elem_of_entries in Hin. apply (He _ _ Hin). }
  rewrite <- (registrations_to_map (registrations g)) at 2. pose proof (entries_NoDup (registrations g)) as Hn.
  revert Hl Hn. generalize (entries (registrations g)) as l.
  intros l Hl Hn. rewrite <- (map_union_empty (list_to_map l)).
  generalize (∅ : gmap Key Registration) as m. induction l as [|[k reg] l IH]; intros m; cbn [map fold_left].
  - cbn. by rewrite map_empty_union.
  - inversion_clear Hl as [|? ? Hk Hl']. inversion_clear Hn as [|? ? Hnk Hn']. cbn in *. subst k. rewrite (IH Hl' Hn').
    rewrite <- insert_union_l, insert_union_r; [done|]. by apply not_elem_of_list_to_map_1.
Qed.

(** The encoding of a registration reads back: its fields have fixed widths and
    the first letter of the status decides its length. *)
Lemma status_bytes_split s s' l l' : status_ok s -> status_ok s' ->
  status_bytes s ++ l = status_bytes s' ++ l' -> s = s' /\ l = l'.
Proof.
  intros Hs Hs' E. destruct s as [|e|], s' as [|e'|]; try (cbn in E; discriminate E).
  - split; [done|]. by apply app_inv_head in E.
  - cbn [status_bytes] in E. rewrite <- !app_assoc in E. apply app_inv_head in E.
    apply u64_le_split in E as [-> ->]; done.
  - split; [done|]. by apply app_inv_head in E.
Qed.

Lemma entry_bytes_split k reg k' reg' l l' : entry_ok k reg -> entry_ok k' reg' ->
  entry_bytes (k, reg) ++ l = entry_bytes (k', reg') ++ l' -> (k, reg) = (k', reg') /\ l = l'.
Proof.
  intros [Hk Hr Ha Hs He Ht] [Hk' Hr' Ha' Hs' He' Ht'] E. subst k k'.
  unfold entry_bytes in E. cbn [fst snd] in E. rewrite <- !app_assoc in E.
  apply app_inj_1 in E as [E1 E]; [|by rewrite !u32_le_length].
  apply app_inj_1 in E as [E2 E]; [|by rewrite Ha, Ha'].
  apply u64_le_split in E as [E3 E]; [|done..]. apply u64_le_split in E as [E4 E]; [|done..].
  apply status_bytes_split in E as [E5 ->]; [|done..]. apply u32_le_inj in E1; [|done..].
  split; [|done]. destruct reg, reg'. simpl in *. congruence.
Qed.

Lemma entries_bytes_inj l l' : Forall (fun e => entry_ok e.1 e.2) l -> Forall (fun e => entry_ok e.1 e.2) l' ->
  concat (map entry_bytes l) = concat (map entry_bytes l') -> l = l'.
Proof.
  intros Hl. revert l'. induction Hl as [|[k reg] l Hk _ IH]; intros [|[k' reg'] l'] Hl' E; cbn [map concat] in E.
  - done.
  - apply (f_equal length) in E. unfold entry_bytes in E. rewrite !length_app, u32_le_length in E. simpl in E. lia.
  - apply (f_equal length) in E. unfold entry_bytes in E. rewrite !length_app, u32_le_length in E. simpl in E. lia.
  - apply Forall_cons in Hl' as [Hk' Hl']. apply entry_bytes_split in E as [-> E]; [|done..]. by rewrite (IH l').
Qed.

(** The state root binds the registrations: with an injective digest, two
    non-empty registries with the same root hold the same registrations. *)
Theorem registry_root_binds (sha256 : bytes -> Hash32)
    (Hinj : forall x y, sha256 x = sha256 y -> x = y) (g g' : VerifierRegistry)
    (Hg : registry_ok g) (Hg' : registry_ok g') (Hne : registrations g <> ∅) (Hne' : registrations g' <> ∅)
    (Hroot : state_root sha256 g = state_root sha256 g') :
  registrations g = registrations g'.
Proof.
  unfold state_root in Hroot. rewrite !bool_decide_eq_false_2 in Hroot by done.
  apply Hinj, app_inv_head, entries_bytes_inj in Hroot.
  - by rewrite <- (registrations_to_map (registrations g)), Hroot, registrations_to_map.
  - apply Forall_forall. intros [k reg] Hin. apply elem_of_entries in Hin. by apply (ok_entries _ Hg).
  - apply Forall_forall. intros [k reg] Hin. apply elem_of_entries in Hin. by apply (ok_entries _ Hg').
Qed.

(** ** A small history *)
Module Demo.

Definition alice : Address := replicate 32 1.
Definition bob : Address := replicate 32 2.

(** Alice relays and attests, Bob relays; Alice is reported for a bad relay. *)
Definition bonds : list RegistryOp :=
  [OpRegister alice RELAYER 2000 0; OpRegister alice ATTESTER 1000 0; OpRegister bob RELAYER 5000 1].
Definition history : list RegistryOp :=
  bonds ++ [OpSlash alice RELAYER LivenessFault 10000; OpAddStake bob RELAYER 500;
            OpUnbond bob RELAYER 3; OpWithdraw alice ATTESTER 20; OpWithdraw bob RELAYER 10].

Lemma default_ok : params_ok default_params.
Proof. vm_compute. intuition discriminate. Qed.

Lemma history_ok : Forall op_ok history.
Proof. repeat constructor; vm_compute; intuition discriminate. Qed.

Lemma bonds_ok : Forall op_ok bonds.
Proof. pose proof history_ok as H. apply Forall_app in H. tauto. Qed.

Lemma bonded_ok : registry_ok (run (with_params default_params) bonds).
Proof. apply run_ok; [split; [apply map_Forall_empty|apply default_ok]|apply bonds_ok]. Qed.

Lemma alice_attester : registrations (run (with_params default_params) bonds) !! (ATTESTER, alice) =
  Some (mkReg alice ATTESTER 1000 Active 0).
Proof. vm_compute. reflexivity. Qed.

Lemma relay_slashed : exists g' o,
  slash (run (with_params default_params) bonds) alice RELAYER LivenessFault 10000 = Ok (g', o) /\ out_penalty o = 20.
Proof.
  destruct (slash _ _ _ _ _) as [[g' o]|] eqn:E.
  - exists g', o. split; [done|]. apply slash_lookup in E as (_ & _ & _ & reg & Hreg & _ & ->).
    assert (Hs : stake <$> registrations (run (with_params default_params) bonds) !! (RELAYER, alice) = Some 2000)
      by (vm_compute; reflexivity).
    rewrite Hreg in Hs. injection Hs as Hs. simpl. rewrite Hs. reflexivity.
  - apply (f_equal is_ok) in E. vm_compute in E. discriminate E.
Qed.

Lemma attester_penalty : penalty_of 10000 (mkReg alice ATTESTER 1000 Active 0) = 10.
Proof. vm_compute. reflexivity. Qed.

Lemma flows : flow_run (with_params default_params) history = mkFlow 8500 5500 30 0.
Proof. vm_compute. reflexivity. Qed.

End Demo.

Lemma slash_is_final_witness :
  exists g' o, slash (run (with_params default_params) Demo.bonds) Demo.alice RELAYER LivenessFault 10000 = Ok (g', o) /\
    out_penalty o = 20 /\
    penalty_of 10000 (mkReg Demo.alice ATTESTER 1000 Active 0) = 10 /\
    forall ops epoch, withdraw (run g' ops) Demo.alice ATTESTER epoch = Err (NotActive Demo.alice ATTESTER).
Proof.
  destruct Demo.relay_slashed as (g' & o & E & Ho). exists g', o.
  split; [exact E|]. split; [exact Ho|]. split; [exact Demo.attester_penalty|]. intros ops epoch.
  apply (slash_is_final (run (with_params default_params) Demo.bonds) g' Demo.alice RELAYER LivenessFault 10000 o
    Demo.bonded_ok ltac:(lia) E ATTESTER _ Demo.alice_attester); [exact 0|exact LivenessFault|exact 0].
Defined.

Lemma verifier_stake_accounted_witness :
  flow_run (with_params default_params) Demo.history = mkFlow 8500 5500 30 0 /\
  held (run (with_params default_params) Demo.history) = 2970.
Proof.
  pose proof (verifier_stake_accounted default_params Demo.history Demo.default_ok Demo.history_ok) as [H _].
  cbv zeta in H. rewrite Demo.flows in H. cbn [paid burned excess deposited] in H.
  split; [exact Demo.flows|lia].
Defined.

End VerifierRegistryFacts.
