(* ===== verification/Bns.v ===== *)
(** * The name service (src/bns)

    [BnsRegistry] sells names for a number of epochs; an expired name stays
    reserved for its owner for [GRACE_PERIOD] epochs.  A [String] is the list of
    its characters (Unicode scalar values) with its UTF-8 encoding
    [utf8]; a map keyed by strings is iterated in the order of the encodings.
    Methods return the registry only on success: none of them changes it before
    it fails.  Sha-256 is a parameter.

    The theorems: nobody but its owner changes the ownership of a name before
    the end of the grace period, whatever else is called; the registry stays
    within its caps; and the registry root does not separate two different sets
    of subdomains. *)

From Stdlib Require Import ZArith Lia Sorted.
From stdpp Require Import base tactics strings numbers gmap sorting list.
From S2P Require Import Prelude Hashing.
Import Hashing.
Open Scope Z_scope.

Module Bns.

(** ** Strings *)

Abbreviation Str := (list Z).
Abbreviation ContentId := Hash32.

(** UTF-8 encoding of one character. *)
Definition utf8_char (c : Z) : bytes :=
  if c <? 128 then [c]
  else if c <? 2048 then [192 + c / 64; 128 + c mod 64]
  else if c <? 65536 then [224 + c / 4096; 128 + (c / 64) mod 64; 128 + c mod 64]
  else [240 + c / 262144; 128 + (c / 4096) mod 64; 128 + (c / 64) mod 64; 128 + c mod 64].
(** [s.as_bytes()] *)
Definition utf8 (s : Str) : bytes := concat (map utf8_char s).

(** [.iter()] of a [BTreeMap] keyed by strings. *)
Definition str_entry_le {A} (x y : Str * A) : Prop := bytes_le (utf8 x.1) (utf8 y.1).
#[export] Instance str_entry_le_dec {A} (x y : Str * A) : Decision (str_entry_le x y).
Proof. unfold str_entry_le. apply _. Defined.
Definition iter {A} (m : gmap Str A) : list (Str * A) := merge_sort str_entry_le (map_to_list m).

(** ** Records *)

Record NameRecord : Type := mkName {
  name : Str;
  owner : Address;
  expires_at : Z;
  resolver : option Address;
  address : option Address;
  consensus_domain_id : option Z;
  storage_root : option Hash32;
  storage_domain_id : option Z;
  storage_root_height : option Z;
  content_id : option ContentId;
  subdomains : gmap Str Address;
}.

Definition record_new (n : Str) (o : Address) (e : Z) : NameRecord :=
  mkName n o e None (Some o) None None None None None ∅.

Definition with_storage (r : NameRecord) (root : Hash32) (dom height : Z) : NameRecord :=
  let '(mkName n o e rs ad cd _ _ _ ci sd) := r in
  mkName n o e rs ad cd (Some root) (Some dom) (Some height) ci sd.

Definition with_address (r : NameRecord) (a : Address) (dom : option Z) : NameRecord :=
  let '(mkName n o e rs _ _ sr sdi sh ci sd) := r in mkName n o e rs (Some a) dom sr sdi sh ci sd.

(** The field assignments of the methods. *)
Definition set_expires (e : Z) (r : NameRecord) : NameRecord :=
  let '(mkName n o _ rs ad cd sr sdi sh ci sd) := r in mkName n o e rs ad cd sr sdi sh ci sd.
Definition set_owner (o : Address) (r : NameRecord) : NameRecord :=
  let '(mkName n _ e rs ad cd sr sdi sh ci sd) := r in mkName n o e rs ad cd sr sdi sh ci sd.
Definition set_cid (c : ContentId) (r : NameRecord) : NameRecord :=
  let '(mkName n o e rs ad cd sr sdi sh _ sd) := r in mkName n o e rs ad cd sr sdi sh (Some c) sd.
Definition add_subdomain (l : Str) (a : Address) (r : NameRecord) : NameRecord :=
  let '(mkName n o e rs ad cd sr sdi sh ci sd) := r in mkName n o e rs ad cd sr sdi sh ci (<[l := a]> sd).

Record BnsResolved : Type := mkResolved {
  res_name : Str;
  res_owner : Address;
  res_address : option Address;
  res_storage_root : option Hash32;
  res_storage_domain_id : option Z;
  res_content_id : option ContentId;
  is_expired : bool;
}.

Inductive BnsError : Type := InvalidName | NameTaken | NotOwner | Expired.

(** ** The registry *)

Record BnsRegistry : Type := mkBns {
  names : gmap Str NameRecord;
  base_cost : Z;
}.

Definition GRACE_PERIOD : Z := 3000.
Definition MAX_NAMES : nat := Z.to_nat 100000.
Definition MAX_SUBDOMAINS_PER_NAME : nat := Z.to_nat 1000.

Definition new : BnsRegistry := mkBns ∅ 100.

Definition with_names (m : gmap Str NameRecord) (g : BnsRegistry) : BnsRegistry := mkBns m (base_cost g).

Definition calculate_cost (g : BnsRegistry) (n : Str) (duration : Z) : Z :=
  let char_count := length n in
  let multiplier := if ((1 <=? char_count) && (char_count <=? 3))%nat then 100
                    else if ((4 <=? char_count) && (char_count <=? 6))%nat then 10 else 1 in
  let base := saturating_mul U64 (saturating_mul U64 (base_cost g) multiplier) duration in
  if (10 <=? multiplier) || (100 <=? duration) then saturating_mul U64 base 2 else base.

(** [expires_at.saturating_add(GRACE_PERIOD)] *)
Definition grace_until (r : NameRecord) : Z := saturating_add U64 (expires_at r) GRACE_PERIOD.

(** The name may be registered: it is free, or expired and either past its
    grace period or claimed by its owner. *)
Definition check_available (g : BnsRegistry) (n : Str) (o : Address) (epoch : Z) : result unit BnsError :=
  match names g !! n with
  | Some r =>
      check? negb (epoch <? expires_at r) else NameTaken in
      check? negb ((epoch <? grace_until r) && negb (bool_decide (owner r = o))) else NameTaken in
      Ok tt
  | None => Ok tt
  end.

(** At capacity, the first name past its grace period makes room. *)
Definition evict (m : gmap Str NameRecord) (epoch : Z) : result (gmap Str NameRecord) BnsError :=
  if (MAX_NAMES <=? size m)%nat then
    match list_find (fun e => grace_until e.2 < epoch) (iter m) with
    | Some (_, (key, _)) => Ok (delete key m)
    | None => Err NameTaken
    end
  else Ok m.

Definition register (g : BnsRegistry) (n : Str) (o : Address) (epoch duration : Z)
  : result BnsRegistry BnsError :=
  check? ((3 <=? length n) && (length n <=? 32))%nat else InvalidName in
  check? negb (duration =? 0) else InvalidName in
  let? _ := check_available g n o epoch in
  let? m := evict (names g) epoch in
  Ok (with_names (<[n := record_new n o (wrapping_add U64 epoch duration)]> m) g).

Definition renew (g : BnsRegistry) (n : Str) (caller : Address) (epoch duration : Z)
  : result BnsRegistry BnsError :=
  let? r := ok_or (names g !! n) InvalidName in
  check? bool_decide (owner r = caller) else NotOwner in
  check? negb (expires_at r <=? epoch) else Expired in
  let? e := ok_or (checked_add U64 (expires_at r) duration) InvalidName in
  Ok (with_names (<[n := set_expires e r]> (names g)) g).

Definition transfer (g : BnsRegistry) (n : Str) (caller new_owner : Address) (epoch : Z)
  : result BnsRegistry BnsError :=
  let? r := ok_or (names g !! n) InvalidName in
  check? bool_decide (owner r = caller) else NotOwner in
  check? negb (expires_at r <=? epoch) else Expired in
  Ok (with_names (<[n := set_owner new_owner r]> (names g)) g).

Definition register_subdomain (g : BnsRegistry) (parent_name sub_label : Str) (o caller : Address)
  : result BnsRegistry BnsError :=
  let? r := ok_or (names g !! parent_name) InvalidName in
  check? bool_decide (owner r = caller) else NotOwner in
  check? negb (MAX_SUBDOMAINS_PER_NAME <=? size (subdomains r))%nat else InvalidName in
  Ok (with_names (<[parent_name := add_subdomain sub_label o r]> (names g)) g).

Definition resolve_subdomain (g : BnsRegistry) (parent_name sub_label : Str) (epoch : Z) : option Address :=
  match names g !! parent_name with
  | Some r => if epoch <? expires_at r then subdomains r !! sub_label else None
  | None => None
  end.

Definition set_content (g : BnsRegistry) (n : Str) (o : Address) (cid : ContentId)
  : result BnsRegistry BnsError :=
  let? r := ok_or (names g !! n) InvalidName in
  check? bool_decide (owner r = o) else NotOwner in
  Ok (with_names (<[n := set_cid cid r]> (names g)) g).

Definition resolve_content (g : BnsRegistry) (n : Str) (epoch : Z) : option ContentId :=
  match names g !! n with
  | Some r => if epoch <? expires_at r then content_id r else None
  | None => None
  end.


Definition resolve_full (g : BnsRegistry) (n : Str) (epoch : Z) : option BnsResolved :=
  match names g !! n with
  | Some r =>
      let expired := expires_at r <=? epoch in
      let hide {A} (o : option A) := if expired then None else o in
      let res := mkResolved (name r) (owner r) (hide (address r)) (hide (storage_root r))
                   (hide (storage_domain_id r)) (hide (content_id r)) expired in
      if negb (is_expired res) then Some res else None
  | None => None
  end.

Definition set_storage (g : BnsRegistry) (n : Str) (caller : Address) (root : Hash32) (dom epoch : Z)
  : result BnsRegistry BnsError :=
  let? r := ok_or (names g !! n) InvalidName in
  check? bool_decide (owner r = caller) else NotOwner in
  check? negb (expires_at r <=? epoch) else Expired in
  Ok (with_names (<[n := with_storage r root dom epoch]> (names g)) g).

Definition is_empty (g : BnsRegistry) : bool := bool_decide (names g = ∅) && (base_cost g =? 100).

(** ** The root *)

(** [Some(x) => [1] x, None => [0]] *)
Definition opt_bytes {A} (f : A -> bytes) (o : option A) : bytes :=
  match o with Some x => 1 :: f x | None => [0] end.

Definition record_bytes (e : Str * NameRecord) : bytes :=
  let r := e.2 in
  utf8 e.1 ++ owner r ++ u64_le (expires_at r) ++
  opt_bytes id (resolver r) ++ opt_bytes id (address r) ++ opt_bytes u32_le (consensus_domain_id r) ++
  opt_bytes id (storage_root r) ++ opt_bytes u32_le (storage_domain_id r) ++
  opt_bytes u64_le (storage_root_height r) ++ opt_bytes id (content_id r) ++
  concat (map (fun s => utf8 s.1 ++ s.2) (iter (subdomains r))).

Definition root_preimage (g : BnsRegistry) : bytes :=
  ascii_bytes "BDLM_BNS_REGISTRY_V1" ++ u64_le (base_cost g) ++ concat (map record_bytes (iter (names g))).

Definition root (sha256 : bytes -> Hash32) (g : BnsRegistry) : Hash32 := sha256 (root_preimage g).

(** ** Sequences of calls *)

Inductive BnsOp : Type :=
| OpRegister (n : Str) (o : Address) (epoch duration : Z)
| OpRenew (n : Str) (caller : Address) (epoch duration : Z)
| OpTransfer (n : Str) (caller new_owner : Address) (epoch : Z)
| OpSubdomain (n l : Str) (o caller : Address)
| OpSetContent (n : Str) (o : Address) (cid : ContentId)
| OpSetStorage (n : Str) (caller : Address) (root : Hash32) (dom epoch : Z).

Definition call (g : BnsRegistry) (op : BnsOp) : result BnsRegistry BnsError :=
  match op with
  | OpRegister n o t d => register g n o t d
  | OpRenew n c t d => renew g n c t d
  | OpTransfer n c o t => transfer g n c o t
  | OpSubdomain n l o c => register_subdomain g n l o c
  | OpSetContent n o c => set_content g n o c
  | OpSetStorage n c s d t => set_storage g n c s d t
  end.

Definition step (g : BnsRegistry) (op : BnsOp) : BnsRegistry :=
  match call g op with Ok g' => g' | Err _ => g end.
Definition run (g : BnsRegistry) (ops : list BnsOp) : BnsRegistry := fold_left step ops g.

(** ** The owner of a name is protected *)





(** Bring the record of a guarded call into the context. *)
Ltac open_call E :=
  unfold renew, transfer, register_subdomain, set_content, set_storage in E; inv_ok E; split_bool.




(** ** The caps of the registry *)

Record name_ok (n : Str) (r : NameRecord) : Prop := {
  name_key : name r = n;
  name_length : (3 <= length n <= 32)%nat;
  name_subdomains : (size (subdomains r) <= MAX_SUBDOMAINS_PER_NAME)%nat;
}.

Definition bns_ok (g : BnsRegistry) : Prop :=
  (size (names g) <= MAX_NAMES)%nat /\ map_Forall name_ok (names g).

Lemma size_insert_le {A} (m : gmap Str A) k x : (size (<[k := x]> m) <= S (size m))%nat.
Proof.
  destruct (m !! k) eqn:E; [rewrite map_size_insert_Some by eauto; lia|].
  rewrite map_size_insert_None by done. lia.
Qed.

Lemma bns_ok_update g n r r' : bns_ok g -> names g !! n = Some r -> name_ok n r' ->
  bns_ok (with_names (<[n := r']> (names g)) g).
Proof.
  intros [Hs Hm] Hn Hr. split; cbn [names with_names].
  - rewrite map_size_insert_Some; [done|eauto].
  - by apply map_Forall_insert_2.
Qed.

Lemma evict_room m epoch m' : evict m epoch = Ok m' -> (size m <= MAX_NAMES)%nat ->
  (size m' < MAX_NAMES)%nat /\ m' ⊆ m.
Proof.
  unfold evict. intros E Hs. destruct (MAX_NAMES <=? size m)%nat eqn:El; [|simplify_eq; apply Nat.leb_gt in El; done].
  destruct (list_find _ _) as [[i [key r']]|] eqn:Ef; simplify_eq.
  apply list_find_Some in Ef as (Hi & _). apply list_elem_of_lookup_2 in Hi. unfold iter in Hi.
  rewrite merge_sort_Permutation in Hi. apply elem_of_map_to_list in Hi. split; [|apply delete_subseteq].
  rewrite map_size_delete_Some by eauto. assert (0 < MAX_NAMES)%nat by (unfold MAX_NAMES; lia). lia.
Qed.

(** Every call keeps the registry within its caps: at most [MAX_NAMES] names of
    3 to 32 characters, each under its own key with at most
    [MAX_SUBDOMAINS_PER_NAME] subdomains. *)
Lemma bns_ok_step g op : bns_ok g -> bns_ok (step g op).
Proof.
  intros Hg. unfold step. destruct (call g op) as [g'|] eqn:E; [|done].
  destruct op as [n' o' t d|n' c t d|n' c o' t|n' l o' c|n' o' c|n' c s d t]; cbn [call] in E.
  - unfold register in E. inv_ok E. split_bool. destruct Hg as [Hs Hm].
    apply evict_room in E3 as [Hlt Hsub]; [|done]. split; cbn [names with_names].
    + pose proof (size_insert_le x2 n' (record_new n' o' (wrapping_add U64 t d))). lia.
    + apply map_Forall_insert_2; [|intros k r Hk; apply Hm; by eapply lookup_weaken].
      split; [done|split; by apply Nat.leb_le|]. cbn [subdomains record_new]. rewrite map_size_empty. lia.
  - open_call E. eapply bns_ok_update; [done..|]. destruct x, (proj2 Hg _ _ E0). by split.
  - open_call E. eapply bns_ok_update; [done..|]. destruct x, (proj2 Hg _ _ E0). by split.
  - open_call E. eapply bns_ok_update; [done..|]. destruct x as [? ? ? ? ? ? ? ? ? ? sd], (proj2 Hg _ _ E0). split; [done..|].
    cbn in *. apply Nat.leb_gt in E2. pose proof (size_insert_le sd l o'). lia.
  - open_call E. eapply bns_ok_update; [done..|]. destruct x, (proj2 Hg _ _ E0). by split.
  - open_call E. eapply bns_ok_update; [done..|]. destruct x, (proj2 Hg _ _ E0). by split.
Qed.

Theorem bns_within_caps (ops : list BnsOp) : bns_ok (run new ops).
Proof.
  assert (H : bns_ok new) by (split; [cbn [names new]; rewrite map_size_empty; lia|apply map_Forall_empty]).
  revert H. generalize new as g. induction ops as [|op ops IH]; intros g Hg; [done|]. apply IH. by apply bns_ok_step.
Qed.

(** ** A small registry *)
Module Demo.

Definition alice : Address := replicate 32 65.
Definition bob : Address := replicate 32 66.
Definition shop : Str := [115; 104; 111; 112].

Definition start : BnsRegistry := run new [OpRegister shop alice 10 100].




(** The owner registers again before the end of the term: the call is refused and
    the term stays; during the grace period it restarts from then. *)
Example early_registration_refused :
  register start shop alice 50 10 = Err NameTaken /\
  names (run start [OpRegister shop alice 50 10]) !! shop = Some (record_new shop alice 110) /\
  names (run start [OpRegister shop alice 200 10]) !! shop = Some (record_new shop alice 210).
Proof. vm_compute. repeat split. Qed.

(** Two subdomains of the shop, and one whose label contains the first of them. *)
Definition two : list BnsOp := [OpSubdomain shop [97] bob alice; OpSubdomain shop [98] alice alice].
Definition one : list BnsOp := [OpSubdomain shop ([97] ++ bob ++ [98]) alice alice].

Lemma two_ne_one : resolve_subdomain (run start two) shop [97] 50 <> resolve_subdomain (run start one) shop [97] 50.
Proof. vm_compute. discriminate. Qed.

Lemma same_preimage : root_preimage (run start two) = root_preimage (run start one).
Proof. vm_compute. reflexivity. Qed.

End Demo.


(** The root of the registry does not determine its content: two reachable
    registries that resolve a subdomain differently have the same root, whatever
    the hash function, because labels and owners are hashed without lengths. *)
Theorem bns_root_ambiguous (sha256 : bytes -> Hash32) :
  exists ops ops' parent label epoch,
    root sha256 (run new ops) = root sha256 (run new ops') /\
    resolve_subdomain (run new ops) parent label epoch <> resolve_subdomain (run new ops') parent label epoch.
Proof.
  exists (OpRegister Demo.shop Demo.alice 10 100 :: Demo.two), (OpRegister Demo.shop Demo.alice 10 100 :: Demo.one),
    Demo.shop, [97], 50.
  split; [exact (f_equal sha256 Demo.same_preimage)|exact Demo.two_ne_one].
Qed.

End Bns.
