(* ===== verification/Pollen.v ===== *)
(** * The data marketplace (src/pollen: offers.rs, data_rights.rs, content_gate.rs)

    [MarketplaceRegistry] holds offers, data assets, the access grants that sell
    reads of an asset, the sale authorizations under which grants are issued to
    buyers, the receipts of those purchases, the encryption policies and the
    binding of stored content to the asset that sells it.  Methods return the
    registry only on success: none of them changes it before it fails.

    Sha-256 and the signature check are parameters; nothing is assumed of
    either.  A [BTreeMap] is a [gmap]; its order matters only for the roots. *)

From Stdlib Require Import ZArith Lia.
From stdpp Require Import base tactics strings numbers gmap sorting list.
From S2P Require Import Prelude Hashing StorageDeal.
Import Hashing.
Open Scope Z_scope.

Module Pollen.

Abbreviation AssetId := Hash32.
Abbreviation GrantId := Hash32.
Abbreviation SaleAuthorizationId := Hash32.
Abbreviation ContentId := Hash32.
Abbreviation Signature64 := bytes.

Definition SENTINEL : Signature64 := replicate 64 0.
Definition is_sentinel (s : Signature64) : bool := bool_decide (s = SENTINEL).

(** [id == AssetId::zero()] and [address == Address::zero()] *)
Definition is_zero (x : Hash32) : bool := bool_decide (x = zero32).

Inductive PollenError : Type :=
| ZeroField
| BadTerms
| SentinelSignature
| WrongId
| PriceZero
| OfferLive (id : Z)
| NotFound
| NotOwner
| AlreadyRegistered
| AssetInactive
| OwnerMismatch
| BadSignature
| PolicyField
| CannotIssue
| ExpiryOverflow
| ExpiryBeyondAuthorization
| LimitExhausted
| MalformedRef (len : Z)
| AssetMismatch
| GrantInactive
| WrongManifest
| NotTheAssetOwner (expected provided : Address)
| AlreadyBound (bound_to : AssetId)
| GrantRequired (asset : AssetId)
| GrantForDifferentAsset (presented required : AssetId)
| ProtectedCannotBePublic (asset : AssetId).

(** ** Data rights *)

Record EncryptionPolicy : Type := mkPolicy {
  version : Z;
  hpke_suite_id : Z;
  min_public_key_bytes : Z;
  max_grant_duration_blocks : Z;
  deprecated_after_block : option Z;
  active : bool;
}.

Definition validate_policy (p : EncryptionPolicy) : result unit PollenError :=
  check? negb (version p =? 0) else PolicyField in
  check? negb (hpke_suite_id p =? 0) else PolicyField in
  check? negb (min_public_key_bytes p <? 32) else PolicyField in
  check? negb (max_grant_duration_blocks p =? 0) else PolicyField in
  match deprecated_after_block p with
  | Some b => check? negb (b =? 0) else PolicyField in Ok tt
  | None => Ok tt
  end.

Record SaleAuthorization : Type := mkAuthorization {
  authorization_id : SaleAuthorizationId;
  a_asset_id : AssetId;
  seller : Address;
  unit_price : Z;
  valid_from_block : Z;
  a_expires_at_block : Z;
  max_grants : Z;
  grants_issued : Z;
  terms_hash : Hash32;
  seller_signature : Signature64;
}.

Inductive DataAssetStatus : Type := AssetActive | AssetRevoked.
#[export] Instance DataAssetStatus_eq_dec : EqDecision DataAssetStatus.
Proof. solve_decision. Defined.

Record DataAsset : Type := mkAsset {
  asset_id : AssetId;
  owner : Address;
  manifest_id : ContentId;
  metadata_commitment : Hash32;
  encrypted : bool;
  asset_status : DataAssetStatus;
}.

Inductive AccessGrantStatus : Type := GrantActive | GrantRevoked.
#[export] Instance AccessGrantStatus_eq_dec : EqDecision AccessGrantStatus.
Proof. solve_decision. Defined.

Record AccessGrant : Type := mkGrant {
  grant_id : GrantId;
  g_asset_id : AssetId;
  g_owner : Address;
  grantee : Address;
  payer : Address;
  price_paid : Z;
  issued_at_block : Z;
  g_expires_at_block : Z;
  max_reads : Z;
  reads_used : Z;
  purpose_hash : Hash32;
  grant_status : AccessGrantStatus;
  owner_signature : Signature64;
}.

Definition is_active (a : DataAsset) : bool := bool_decide (asset_status a = AssetActive).

Definition can_issue (a : SaleAuthorization) (current_block : Z) : bool :=
  (valid_from_block a <=? current_block) && (current_block <=? a_expires_at_block a) &&
  (grants_issued a <? max_grants a).

Definition with_issued (n : Z) (a : SaleAuthorization) : SaleAuthorization :=
  mkAuthorization (authorization_id a) (a_asset_id a) (seller a) (unit_price a) (valid_from_block a)
    (a_expires_at_block a) (max_grants a) n (terms_hash a) (seller_signature a).
Definition record_issued_grant (a : SaleAuthorization) : result SaleAuthorization PollenError :=
  check? negb (max_grants a <=? grants_issued a) else LimitExhausted in
  Ok (with_issued (saturating_add U32 (grants_issued a) 1) a).

Definition is_active_for (g : AccessGrant) (who : Address) (current_block : Z) : bool :=
  bool_decide (grant_status g = GrantActive) && bool_decide (grantee g = who) &&
  (issued_at_block g <=? current_block) && (current_block <=? g_expires_at_block g) &&
  (reads_used g <? max_reads g).

Definition with_reads (n : Z) (g : AccessGrant) : AccessGrant :=
  mkGrant (grant_id g) (g_asset_id g) (g_owner g) (grantee g) (payer g) (price_paid g) (issued_at_block g)
    (g_expires_at_block g) (max_reads g) n (purpose_hash g) (grant_status g) (owner_signature g).
Definition record_read (g : AccessGrant) : result AccessGrant PollenError :=
  check? negb (max_reads g <=? reads_used g) else LimitExhausted in
  Ok (with_reads (saturating_add U32 (reads_used g) 1) g).

Definition with_asset_status (s : DataAssetStatus) (a : DataAsset) : DataAsset :=
  mkAsset (asset_id a) (owner a) (manifest_id a) (metadata_commitment a) (encrypted a) s.
Definition with_grant_status (s : AccessGrantStatus) (g : AccessGrant) : AccessGrant :=
  mkGrant (grant_id g) (g_asset_id g) (g_owner g) (grantee g) (payer g) (price_paid g) (issued_at_block g)
    (g_expires_at_block g) (max_reads g) (reads_used g) (purpose_hash g) s (owner_signature g).

(** *** The reference of an AI request *)

Definition POLLEN_AI_INPUT_REF_PREFIX : bytes := ascii_bytes "BDLM_POLLEN_AI_INPUT_REF_V1".
Definition ENCODED_LEN : Z := zlen POLLEN_AI_INPUT_REF_PREFIX + 32 + 32.

Record AiDataInputRef : Type := mkRef { r_asset_id : AssetId; r_grant_id : GrantId }.

Definition encode_ref (r : AiDataInputRef) : bytes := POLLEN_AI_INPUT_REF_PREFIX ++ r_asset_id r ++ r_grant_id r.

Definition starts_with (prefix bs : bytes) : bool := bool_decide (take (length prefix) bs = prefix).

Definition decode_ref (bs : bytes) : result (option AiDataInputRef) PollenError :=
  if negb (starts_with POLLEN_AI_INPUT_REF_PREFIX bs) then Ok None
  else
    check? zlen bs =? ENCODED_LEN else MalformedRef (zlen bs) in
    let body := drop (length POLLEN_AI_INPUT_REF_PREFIX) bs in
    Ok (Some (mkRef (take 32 body) (take 32 (drop 32 body)))).

(** ** The registry *)

Record DataOffer : Type := mkOffer {
  o_id : Z;
  o_seller : Address;
  o_cid : ContentId;
  o_price : Z;
  o_active : bool;
}.

Record PollenPurchaseReceipt : Type := mkReceipt {
  receipt_id : GrantId;
  p_authorization_id : SaleAuthorizationId;
  p_asset_id : AssetId;
  p_seller : Address;
  buyer : Address;
  p_grantee : Address;
  p_price_paid : Z;
  p_grant_id : GrantId;
  purchased_at_block : Z;
  grant_expires_at_block : Z;
  p_max_reads : Z;
  p_terms_hash : Hash32;
  payment_commitment : Hash32;
}.

Record MarketplaceRegistry : Type := mkMarket {
  offers : gmap Z DataOffer;
  next_offer_id : Z;
  data_assets : gmap AssetId DataAsset;
  access_grants : gmap GrantId AccessGrant;
  sale_authorizations : gmap SaleAuthorizationId SaleAuthorization;
  purchase_receipts : gmap GrantId PollenPurchaseReceipt;
  encryption_policies : gmap Z EncryptionPolicy;
  protected_content : gmap ContentId AssetId;
}.

Definition new : MarketplaceRegistry := mkMarket ∅ 0 ∅ ∅ ∅ ∅ ∅ ∅.

Definition with_offers (o : gmap Z DataOffer) (n : Z) (r : MarketplaceRegistry) : MarketplaceRegistry :=
  mkMarket o n (data_assets r) (access_grants r) (sale_authorizations r) (purchase_receipts r)
    (encryption_policies r) (protected_content r).
Definition with_assets (m : gmap AssetId DataAsset) (r : MarketplaceRegistry) : MarketplaceRegistry :=
  mkMarket (offers r) (next_offer_id r) m (access_grants r) (sale_authorizations r) (purchase_receipts r)
    (encryption_policies r) (protected_content r).
Definition with_grants (m : gmap GrantId AccessGrant) (r : MarketplaceRegistry) : MarketplaceRegistry :=
  mkMarket (offers r) (next_offer_id r) (data_assets r) m (sale_authorizations r) (purchase_receipts r)
    (encryption_policies r) (protected_content r).
Definition with_authorizations (m : gmap SaleAuthorizationId SaleAuthorization) (r : MarketplaceRegistry)
  : MarketplaceRegistry :=
  mkMarket (offers r) (next_offer_id r) (data_assets r) (access_grants r) m (purchase_receipts r)
    (encryption_policies r) (protected_content r).
Definition with_receipts (m : gmap GrantId PollenPurchaseReceipt) (r : MarketplaceRegistry) : MarketplaceRegistry :=
  mkMarket (offers r) (next_offer_id r) (data_assets r) (access_grants r) (sale_authorizations r) m
    (encryption_policies r) (protected_content r).
Definition with_policies (m : gmap Z EncryptionPolicy) (r : MarketplaceRegistry) : MarketplaceRegistry :=
  mkMarket (offers r) (next_offer_id r) (data_assets r) (access_grants r) (sale_authorizations r)
    (purchase_receipts r) m (protected_content r).
Definition with_protected (m : gmap ContentId AssetId) (r : MarketplaceRegistry) : MarketplaceRegistry :=
  mkMarket (offers r) (next_offer_id r) (data_assets r) (access_grants r) (sale_authorizations r)
    (purchase_receipts r) (encryption_policies r) m.

(** *** Protected content *)

Definition bind (bindings : gmap ContentId AssetId) (m : ContentId) (a : AssetId) (asset_owner caller : Address)
  : result (gmap ContentId AssetId) PollenError :=
  check? bool_decide (asset_owner = caller) else NotTheAssetOwner asset_owner caller in
  match bindings !! m with
  | Some existing => if bool_decide (existing = a) then Ok bindings else Err (AlreadyBound existing)
  | None => Ok (<[m := a]> bindings)
  end.

Definition asset_for (bindings : gmap ContentId AssetId) (m : ContentId) : option AssetId := bindings !! m.
Definition is_protected (bindings : gmap ContentId AssetId) (m : ContentId) : bool := bool_decide (is_Some (bindings !! m)).

Definition authorize_read (bindings : gmap ContentId AssetId) (m : ContentId) (grant_asset : option AssetId)
  : result unit PollenError :=
  match asset_for bindings m with
  | None => Ok tt
  | Some required =>
      match grant_asset with
      | None => Err (GrantRequired required)
      | Some presented =>
          if bool_decide (presented = required) then Ok tt else Err (GrantForDifferentAsset presented required)
      end
  end.

Definition check_may_be_public (bindings : gmap ContentId AssetId) (m : ContentId) : result unit PollenError :=
  match asset_for bindings m with
  | Some a => Err (ProtectedCannotBePublic a)
  | None => Ok tt
  end.

(** *** Offers *)

Definition create_offer (r : MarketplaceRegistry) (seller : Address) (cid : ContentId) (price : Z)
  : result (MarketplaceRegistry * Z) PollenError :=
  check? negb (price =? 0) else PriceZero in
  let id := next_offer_id r in
  check? bool_decide (offers r !! id = None) else OfferLive id in
  Ok (with_offers (<[id := mkOffer id seller cid price true]> (offers r)) (wrapping_add U64 id 1) r, id).

Definition close_offer (r : MarketplaceRegistry) (id : Z) (caller : Address) : result MarketplaceRegistry PollenError :=
  let? o := ok_or (offers r !! id) NotFound in
  check? bool_decide (o_seller o = caller) else NotOwner in
  Ok (with_offers (<[id := mkOffer (o_id o) (o_seller o) (o_cid o) (o_price o) false]> (offers r)) (next_offer_id r) r).

Definition get_offer (r : MarketplaceRegistry) (id : Z) : option DataOffer := offers r !! id.

(** *** Policies *)

Definition set_encryption_policy (r : MarketplaceRegistry) (p : EncryptionPolicy) : result MarketplaceRegistry PollenError :=
  let? _ := validate_policy p in
  Ok (with_policies (<[version p := p]> (encryption_policies r)) r).
Definition get_encryption_policy (r : MarketplaceRegistry) (v : Z) : option EncryptionPolicy := encryption_policies r !! v.
Definition active_encryption_policies (r : MarketplaceRegistry) : list EncryptionPolicy :=
  filter (fun p => active p = true) (StorageDeal.values (encryption_policies r)).

(** *** Assets, grants and authorizations *)

Definition revoke_data_asset (r : MarketplaceRegistry) (id : AssetId) (caller : Address) : result MarketplaceRegistry PollenError :=
  let? a := ok_or (data_assets r !! id) NotFound in
  check? bool_decide (owner a = caller) else NotOwner in
  Ok (with_assets (<[id := with_asset_status AssetRevoked a]> (data_assets r)) r).

Definition revoke_access_grant (r : MarketplaceRegistry) (id : GrantId) (caller : Address) : result MarketplaceRegistry PollenError :=
  let? g := ok_or (access_grants r !! id) NotFound in
  check? bool_decide (g_owner g = caller) else NotOwner in
  Ok (with_grants (<[id := with_grant_status GrantRevoked g]> (access_grants r)) r).

Definition get_sale_authorization (r : MarketplaceRegistry) (id : SaleAuthorizationId) : option SaleAuthorization :=
  sale_authorizations r !! id.

Definition validate_ai_read_ref (r : MarketplaceRegistry) (input_ref : bytes) (requester : Address) (current_block : Z)
  : result (option GrantId) PollenError :=
  let? ref := decode_ref input_ref in
  match ref with
  | None => Ok None
  | Some ref =>
      let? asset := ok_or (data_assets r !! r_asset_id ref) NotFound in
      check? is_active asset else AssetInactive in
      let? grant := ok_or (access_grants r !! r_grant_id ref) NotFound in
      check? bool_decide (g_asset_id grant = r_asset_id ref) else AssetMismatch in
      check? bool_decide (g_owner grant = owner asset) else OwnerMismatch in
      check? is_active_for grant requester current_block else GrantInactive in
      Ok (Some (r_grant_id ref))
  end.

Definition bind_content_to_asset (r : MarketplaceRegistry) (m : ContentId) (id : AssetId) (caller : Address)
  : result MarketplaceRegistry PollenError :=
  let? asset := ok_or (data_assets r !! id) NotFound in
  check? is_active asset else AssetInactive in
  check? bool_decide (manifest_id asset = m) else WrongManifest in
  let? b := bind (protected_content r) m id (owner asset) caller in
  Ok (with_protected b r).

Definition authorize_content_read (r : MarketplaceRegistry) (m : ContentId) (reader : Address) (g : option GrantId)
    (current_block : Z) : result unit PollenError :=
  match asset_for (protected_content r) m with
  | None => Ok tt
  | Some required =>
      let? gid := ok_or g (GrantRequired required) in
      let? grant := ok_or (access_grants r !! gid) NotFound in
      check? bool_decide (g_asset_id grant = required) else GrantForDifferentAsset (g_asset_id grant) required in
      let? asset := ok_or (data_assets r !! required) NotFound in
      check? is_active asset else AssetInactive in
      check? bool_decide (g_owner grant = owner asset) else OwnerMismatch in
      check? is_active_for grant reader current_block else GrantInactive in
      Ok tt
  end.

Definition check_content_may_be_public (r : MarketplaceRegistry) (m : ContentId) : result unit PollenError :=
  check_may_be_public (protected_content r) m.

Definition consume_ai_read_grant (r : MarketplaceRegistry) (id : GrantId) (requester : Address) (current_block : Z)
  : result MarketplaceRegistry PollenError :=
  let? g := ok_or (access_grants r !! id) NotFound in
  check? is_active_for g requester current_block else GrantInactive in
  let? g' := record_read g in
  Ok (with_grants (<[id := g']> (access_grants r)) r).

Section hashing.
Context (sha256 : bytes -> Hash32) (verify_signature : bytes -> bytes -> bytes -> bool) {H : FieldHash}.

(** *** Identifiers and signing messages *)

Definition authorization_fields (a : SaleAuthorization) : bytes :=
  a_asset_id a ++ seller a ++ u64_le (unit_price a) ++ u64_le (valid_from_block a) ++
  u64_le (a_expires_at_block a) ++ u32_le (max_grants a).

Definition authorization_derive_id (asset : AssetId) (seller : Address) (price from expires grants : Z) (terms : Hash32)
  : SaleAuthorizationId :=
  sha256 (ascii_bytes "BDLM_POLLEN_SALE_AUTHORIZATION_V1" ++ asset ++ seller ++ u64_le price ++ u64_le from ++
          u64_le expires ++ u32_le grants ++ terms).

Definition authorization_new_unsigned (asset : AssetId) (seller : Address) (price from expires grants : Z) (terms : Hash32)
  : SaleAuthorization :=
  mkAuthorization (authorization_derive_id asset seller price from expires grants terms)
    asset seller price from expires grants 0 terms SENTINEL.

Definition authorization_signing_hash (a : SaleAuthorization) : Hash32 :=
  sha256 (ascii_bytes "BDLM_POLLEN_SALE_AUTHORIZATION_SIGNING_V1" ++ authorization_id a ++ authorization_fields a ++ terms_hash a).

Definition validate_authorization (a : SaleAuthorization) : result unit PollenError :=
  check? negb (is_zero (authorization_id a)) else ZeroField in
  check? negb (is_zero (a_asset_id a)) else ZeroField in
  check? negb (is_zero (seller a)) else ZeroField in
  check? negb (unit_price a =? 0) else BadTerms in
  check? negb (a_expires_at_block a <=? valid_from_block a) else BadTerms in
  check? negb (max_grants a =? 0) else BadTerms in
  check? negb (max_grants a <? grants_issued a) else BadTerms in
  check? negb (is_sentinel (seller_signature a)) else SentinelSignature in
  check? bool_decide (authorization_id a = authorization_derive_id (a_asset_id a) (seller a) (unit_price a)
    (valid_from_block a) (a_expires_at_block a) (max_grants a) (terms_hash a)) else WrongId in
  Ok tt.

Definition asset_derive_id (owner : Address) (manifest : ContentId) (commitment : Hash32) : AssetId :=
  sha256 (ascii_bytes "BDLM_POLLEN_DATA_ASSET_V1" ++ owner ++ manifest ++ commitment).

Definition asset_new (owner : Address) (manifest : ContentId) (commitment : Hash32) (enc : bool) : DataAsset :=
  mkAsset (asset_derive_id owner manifest commitment) owner manifest commitment enc AssetActive.

Definition validate_asset (a : DataAsset) : result unit PollenError :=
  check? negb (is_zero (asset_id a)) else ZeroField in
  check? negb (is_zero (owner a)) else ZeroField in
  check? bool_decide (asset_id a = asset_derive_id (owner a) (manifest_id a) (metadata_commitment a)) else WrongId in
  Ok tt.

Definition grant_derive_id (asset : AssetId) (owner grantee payer : Address) (price issued expires reads : Z) (purpose : Hash32)
  : GrantId :=
  sha256 (ascii_bytes "BDLM_POLLEN_ACCESS_GRANT_V1" ++ asset ++ owner ++ grantee ++ payer ++ u64_le price ++
          u64_le issued ++ u64_le expires ++ u32_le reads ++ purpose).

Definition grant_new_unsigned (asset : AssetId) (owner grantee payer : Address) (price issued expires reads : Z) (purpose : Hash32)
  : AccessGrant :=
  mkGrant (grant_derive_id asset owner grantee payer price issued expires reads purpose)
    asset owner grantee payer price issued expires reads 0 purpose GrantActive SENTINEL.

Definition grant_signing_hash (g : AccessGrant) : Hash32 :=
  sha256 (ascii_bytes "BDLM_POLLEN_ACCESS_GRANT_SIGNING_V1" ++ grant_id g ++ g_asset_id g ++ g_owner g ++ grantee g ++
          payer g ++ u64_le (price_paid g) ++ u64_le (issued_at_block g) ++ u64_le (g_expires_at_block g) ++
          u32_le (max_reads g) ++ purpose_hash g).

Definition validate_grant (g : AccessGrant) : result unit PollenError :=
  check? negb (is_zero (grant_id g)) else ZeroField in
  check? negb (is_zero (g_asset_id g)) else ZeroField in
  check? negb (is_zero (g_owner g) || is_zero (grantee g) || is_zero (payer g)) else ZeroField in
  check? negb (g_expires_at_block g <=? issued_at_block g) else BadTerms in
  check? negb (max_reads g =? 0) else BadTerms in
  check? negb (is_sentinel (owner_signature g)) else SentinelSignature in
  check? bool_decide (grant_id g = grant_derive_id (g_asset_id g) (g_owner g) (grantee g) (payer g) (price_paid g)
    (issued_at_block g) (g_expires_at_block g) (max_reads g) (purpose_hash g)) else WrongId in
  Ok tt.

Definition with_signature (s : Signature64) (g : AccessGrant) : AccessGrant :=
  mkGrant (grant_id g) (g_asset_id g) (g_owner g) (grantee g) (payer g) (price_paid g) (issued_at_block g)
    (g_expires_at_block g) (max_reads g) (reads_used g) (purpose_hash g) (grant_status g) s.

Definition receipt_derive_id (auth : SaleAuthorizationId) (asset : AssetId) (seller buyer grantee : Address) (price : Z)
    (grant : GrantId) (at_block expires reads : Z) (terms commitment : Hash32) : GrantId :=
  sha256 (ascii_bytes "BDLM_POLLEN_PURCHASE_RECEIPT_V1" ++ auth ++ asset ++ seller ++ buyer ++ grantee ++ u64_le price ++
          grant ++ u64_le at_block ++ u64_le expires ++ u32_le reads ++ terms ++ commitment).

Definition receipt_new (auth : SaleAuthorizationId) (asset : AssetId) (seller buyer grantee : Address) (price : Z)
    (grant : GrantId) (at_block expires reads : Z) (terms commitment : Hash32) : PollenPurchaseReceipt :=
  mkReceipt (receipt_derive_id auth asset seller buyer grantee price grant at_block expires reads terms commitment)
    auth asset seller buyer grantee price grant at_block expires reads terms commitment.

Definition validate_receipt (p : PollenPurchaseReceipt) : result unit PollenError :=
  check? negb (is_zero (receipt_id p)) else ZeroField in
  check? negb (is_zero (p_authorization_id p)) else ZeroField in
  check? negb (is_zero (p_asset_id p) || is_zero (p_grant_id p)) else ZeroField in
  check? negb (is_zero (p_seller p) || is_zero (buyer p) || is_zero (p_grantee p)) else ZeroField in
  check? negb (p_price_paid p =? 0) else BadTerms in
  check? negb (grant_expires_at_block p <=? purchased_at_block p) else BadTerms in
  check? negb (p_max_reads p =? 0) else BadTerms in
  check? negb (is_zero (payment_commitment p)) else ZeroField in
  check? bool_decide (receipt_id p = receipt_derive_id (p_authorization_id p) (p_asset_id p) (p_seller p) (buyer p)
    (p_grantee p) (p_price_paid p) (p_grant_id p) (purchased_at_block p) (grant_expires_at_block p) (p_max_reads p)
    (p_terms_hash p) (payment_commitment p)) else WrongId in
  Ok tt.

(** *** Registration *)

Definition register_data_asset (r : MarketplaceRegistry) (a : DataAsset) : result (MarketplaceRegistry * AssetId) PollenError :=
  let? _ := validate_asset a in
  check? bool_decide (data_assets r !! asset_id a = None) else AlreadyRegistered in
  Ok (with_assets (<[asset_id a := a]> (data_assets r)) r, asset_id a).

Definition create_access_grant (r : MarketplaceRegistry) (g : AccessGrant) : result (MarketplaceRegistry * GrantId) PollenError :=
  let? _ := validate_grant g in
  let? asset := ok_or (data_assets r !! g_asset_id g) NotFound in
  check? is_active asset else AssetInactive in
  check? bool_decide (g_owner g = owner asset) else OwnerMismatch in
  check? verify_signature (grant_signing_hash g) (owner_signature g) (g_owner g) else BadSignature in
  check? bool_decide (access_grants r !! grant_id g = None) else AlreadyRegistered in
  Ok (with_grants (<[grant_id g := g]> (access_grants r)) r, grant_id g).

Definition create_sale_authorization (r : MarketplaceRegistry) (a : SaleAuthorization)
  : result (MarketplaceRegistry * SaleAuthorizationId) PollenError :=
  let? _ := validate_authorization a in
  let? asset := ok_or (data_assets r !! a_asset_id a) NotFound in
  check? is_active asset else AssetInactive in
  check? bool_decide (seller a = owner asset) else OwnerMismatch in
  check? verify_signature (authorization_signing_hash a) (seller_signature a) (seller a) else BadSignature in
  check? bool_decide (sale_authorizations r !! authorization_id a = None) else AlreadyRegistered in
  Ok (with_authorizations (<[authorization_id a := a]> (sale_authorizations r)) r, authorization_id a).

(** *** Purchases *)

(** The expiry of a purchase, within that of the authorization. *)
Definition purchase_expiry (a : SaleAuthorization) (current_block duration : Z) : result Z PollenError :=
  let? e := ok_or (checked_add U64 current_block duration) ExpiryOverflow in
  check? negb (a_expires_at_block a <? e) else ExpiryBeyondAuthorization in
  Ok e.

Definition purchase_signing_hash (a : SaleAuthorization) (buyer grantee : Address) (current_block duration reads : Z)
    (commitment : Hash32) : result Hash32 PollenError :=
  let? e := purchase_expiry a current_block duration in
  Ok (sha256 (ascii_bytes "BDLM_POLLEN_PURCHASE_V1" ++ authorization_id a ++ a_asset_id a ++ seller a ++ buyer ++ grantee ++
              u64_le (unit_price a) ++ u64_le duration ++ u32_le reads ++ commitment ++ u64_le e)).

Definition issue_grant_from_sale_authorization (r : MarketplaceRegistry) (id : SaleAuthorizationId) (buyer grantee : Address)
    (current_block duration reads : Z) (commitment : Hash32) (buyer_signature : Signature64)
  : result (MarketplaceRegistry * (GrantId * PollenPurchaseReceipt)) PollenError :=
  check? negb (is_zero buyer || is_zero grantee) else ZeroField in
  check? negb (duration =? 0) else BadTerms in
  check? negb (reads =? 0) else BadTerms in
  check? negb (is_zero commitment) else ZeroField in
  check? negb (is_sentinel buyer_signature) else SentinelSignature in
  let? auth := ok_or (sale_authorizations r !! id) NotFound in
  let? _ := validate_authorization auth in
  check? can_issue auth current_block else CannotIssue in
  let? asset := ok_or (data_assets r !! a_asset_id auth) NotFound in
  check? is_active asset else AssetInactive in
  check? bool_decide (owner asset = seller auth) else OwnerMismatch in
  let? preimage := purchase_signing_hash auth buyer grantee current_block duration reads commitment in
  check? verify_signature preimage buyer_signature buyer else BadSignature in
  let? expires := purchase_expiry auth current_block duration in
  let grant := with_signature (seller_signature auth)
    (grant_new_unsigned (a_asset_id auth) (seller auth) grantee buyer (unit_price auth) current_block expires reads (terms_hash auth)) in
  let? _ := validate_grant grant in
  check? bool_decide (access_grants r !! grant_id grant = None) else AlreadyRegistered in
  let receipt := receipt_new (authorization_id auth) (a_asset_id auth) (seller auth) buyer grantee (unit_price auth)
    (grant_id grant) current_block expires reads (terms_hash auth) commitment in
  let? _ := validate_receipt receipt in
  check? bool_decide (purchase_receipts r !! receipt_id receipt = None) else AlreadyRegistered in
  let? auth' := record_issued_grant auth in
  Ok (with_receipts (<[receipt_id receipt := receipt]> (purchase_receipts r))
        (with_grants (<[grant_id grant := grant]> (access_grants r))
           (with_authorizations (<[id := auth']> (sale_authorizations r)) r)),
      (grant_id grant, receipt)).

(** *** Leaves and roots *)

Definition bool_byte (b : bool) : bytes := [if b then 1 else 0].

Definition policy_leaf (p : EncryptionPolicy) : Hash32 :=
  sha256 (ascii_bytes "BDLM_POLLEN_ENCRYPTION_POLICY_V1" ++ u32_le (version p) ++ le_encode 2 (hpke_suite_id p) ++
          le_encode 2 (min_public_key_bytes p) ++ u64_le (max_grant_duration_blocks p) ++
          match deprecated_after_block p with Some b => 1 :: u64_le b | None => [0] end ++ bool_byte (active p)).

Definition authorization_leaf (a : SaleAuthorization) : Hash32 :=
  sha256 (ascii_bytes "BDLM_POLLEN_SALE_AUTHORIZATION_LEAF_V1" ++ authorization_id a ++ authorization_fields a ++
          u32_le (grants_issued a) ++ terms_hash a ++ seller_signature a).

Definition asset_leaf (a : DataAsset) : Hash32 :=
  sha256 (ascii_bytes "BDLM_POLLEN_DATA_ASSET_LEAF_V1" ++ asset_id a ++ owner a ++ manifest_id a ++ metadata_commitment a ++
          bool_byte (encrypted a) ++ [match asset_status a with AssetActive => 1 | AssetRevoked => 2 end]).

Definition grant_leaf (g : AccessGrant) : Hash32 :=
  sha256 (ascii_bytes "BDLM_POLLEN_ACCESS_GRANT_LEAF_V1" ++ grant_id g ++ g_asset_id g ++ g_owner g ++ grantee g ++ payer g ++
          u64_le (price_paid g) ++ u64_le (issued_at_block g) ++ u64_le (g_expires_at_block g) ++ u32_le (max_reads g) ++
          u32_le (reads_used g) ++ purpose_hash g ++ [match grant_status g with GrantActive => 1 | GrantRevoked => 2 end] ++
          owner_signature g).

Definition receipt_leaf (p : PollenPurchaseReceipt) : Hash32 :=
  sha256 (ascii_bytes "BDLM_POLLEN_PURCHASE_RECEIPT_LEAF_V1" ++ receipt_id p ++ p_authorization_id p ++ p_asset_id p ++
          p_seller p ++ buyer p ++ p_grantee p ++ u64_le (p_price_paid p) ++ p_grant_id p ++ u64_le (purchased_at_block p) ++
          u64_le (grant_expires_at_block p) ++ u32_le (p_max_reads p) ++ p_terms_hash p ++ payment_commitment p).

Definition protected_root (b : gmap ContentId AssetId) : Hash32 :=
  hash_fields_bytes [ascii_bytes "BDLM_POLLEN_PROTECTED_CONTENT_V1";
    u64_le (Z.of_nat (size b)) ++ concat (map (fun e : ContentId * AssetId => e.1 ++ e.2) (StorageDeal.entries b))].

#[local] Existing Instance StorageDeal.key_le_dec.
Definition int_entries {A} (m : gmap Z A) : list (Z * A) := merge_sort StorageDeal.key_le (map_to_list m).

Definition root_preimage (r : MarketplaceRegistry) : bytes :=
  ascii_bytes "BDLM_MARKETPLACE_REGISTRY_V2" ++ u64_le (next_offer_id r) ++
  concat (map (fun e : Z * DataOffer => ascii_bytes "offer" ++ u64_le e.1 ++ o_seller e.2 ++ o_cid e.2 ++ u64_le (o_price e.2) ++
                        bool_byte (o_active e.2)) (int_entries (offers r))) ++
  concat (map (fun e : AssetId * DataAsset => ascii_bytes "asset" ++ e.1 ++ asset_leaf e.2) (StorageDeal.entries (data_assets r))) ++
  concat (map (fun e : GrantId * AccessGrant => ascii_bytes "grant" ++ e.1 ++ grant_leaf e.2) (StorageDeal.entries (access_grants r))) ++
  concat (map (fun e : SaleAuthorizationId * SaleAuthorization => ascii_bytes "sale_authorization" ++ e.1 ++ authorization_leaf e.2)
            (StorageDeal.entries (sale_authorizations r))) ++
  concat (map (fun e : GrantId * PollenPurchaseReceipt => ascii_bytes "purchase_receipt" ++ e.1 ++ receipt_leaf e.2)
            (StorageDeal.entries (purchase_receipts r))) ++
  concat (map (fun e : Z * EncryptionPolicy => ascii_bytes "encryption_policy" ++ u32_le e.1 ++ policy_leaf e.2)
            (int_entries (encryption_policies r))) ++
  ascii_bytes "protected_content" ++ protected_root (protected_content r).
Definition root (r : MarketplaceRegistry) : Hash32 := sha256 (root_preimage r).

End hashing.
End Pollen.
