(* ===== verification/PollenFacts.v ===== *)
(** * Theorems about the data marketplace (Pollen.v)

    Whatever is called, content bound to an asset stays behind its paywall: a
    read is authorised only under a live grant that the owner of the asset
    consented to, by signing the grant or by signing the sale authorization it
    was bought under, in which case the buyer signed the terms.  An
    authorization sells no more grants, and a grant no more reads, than it says. *)

From Stdlib Require Import ZArith Lia.
From stdpp Require Import base tactics strings numbers gmap sorting list.
From S2P Require Import Prelude Hashing StorageDeal Pollen.
Import Hashing Pollen.
Open Scope Z_scope.

Module PollenFacts.

Section market.
Context (sha256 : bytes -> Hash32) (verify_signature : bytes -> bytes -> bytes -> bool).

(** ** Histories *)

Inductive PollenOp : Type :=
| OpOffer (seller : Address) (cid : ContentId) (price : Z)
| OpClose (id : Z) (caller : Address)
| OpPolicy (p : EncryptionPolicy)
| OpAsset (a : DataAsset)
| OpRevokeAsset (id : AssetId) (caller : Address)
| OpGrant (g : AccessGrant)
| OpRevokeGrant (id : GrantId) (caller : Address)
| OpAuthorize (a : SaleAuthorization)
| OpPurchase (id : SaleAuthorizationId) (buyer grantee : Address) (block duration reads : Z) (commitment : Hash32)
    (signature : Signature64)
| OpBind (m : ContentId) (a : AssetId) (caller : Address)
| OpConsume (id : GrantId) (who : Address) (block : Z).

(** The registry after a call, which keeps it when it fails. *)
Definition keep {E} (r : MarketplaceRegistry) (x : result MarketplaceRegistry E) : MarketplaceRegistry :=
  match x with Ok r' => r' | Err _ => r end.
Definition keep_fst {A E} (r : MarketplaceRegistry) (x : result (MarketplaceRegistry * A) E) : MarketplaceRegistry :=
  match x with Ok (r', _) => r' | Err _ => r end.

Definition pstep (r : MarketplaceRegistry) (op : PollenOp) : MarketplaceRegistry :=
  match op with
  | OpOffer s c p => keep_fst r (create_offer r s c p)
  | OpClose i c => keep r (close_offer r i c)
  | OpPolicy p => keep r (set_encryption_policy r p)
  | OpAsset a => keep_fst r (register_data_asset sha256 r a)
  | OpRevokeAsset i c => keep r (revoke_data_asset r i c)
  | OpGrant g => keep_fst r (create_access_grant sha256 verify_signature r g)
  | OpRevokeGrant i c => keep r (revoke_access_grant r i c)
  | OpAuthorize a => keep_fst r (create_sale_authorization sha256 verify_signature r a)
  | OpPurchase i b g t d n c s => keep_fst r (issue_grant_from_sale_authorization sha256 verify_signature r i b g t d n c s)
  | OpBind m a c => keep r (bind_content_to_asset r m a c)
  | OpConsume i w t => keep r (consume_ai_read_grant r i w t)
  end.
Definition prun (r : MarketplaceRegistry) (ops : list PollenOp) : MarketplaceRegistry := fold_left pstep ops r.

(** The integers of a call have their widths. *)
Definition op_ok (op : PollenOp) : Prop :=
  match op with
  | OpGrant g => max_reads g ∈u U32 /\ reads_used g ∈u U32
  | OpAuthorize a => max_grants a ∈u U32 /\ grants_issued a ∈u U32
  | OpPurchase _ _ _ _ _ n _ _ => n ∈u U32
  | _ => True
  end.

(** ** Consent *)

(** The terms of an authorization, all but the count of grants. *)
Definition signed_authorization (a : SaleAuthorization) : Prop :=
  verify_signature (authorization_signing_hash sha256 a) (seller_signature a) (seller a) = true.

(** A grant bought under an authorization on terms that both parties signed. *)
Record bought (a : SaleAuthorization) (g : AccessGrant) : Prop := {
  bought_signed : signed_authorization a;
  bought_asset : a_asset_id a = g_asset_id g;
  bought_seller : seller a = g_owner g;
  bought_price : price_paid g = unit_price a;
  bought_from : valid_from_block a <= issued_at_block g;
  bought_until : g_expires_at_block g <= a_expires_at_block a;
  bought_buyer : exists duration commitment h sig,
    purchase_signing_hash sha256 a (payer g) (grantee g) (issued_at_block g) duration (max_reads g) commitment = Ok h /\
    verify_signature h sig (payer g) = true;
}.

(** The owner of the asset agreed to the grant. *)
Definition consent (r : MarketplaceRegistry) (g : AccessGrant) : Prop :=
  verify_signature (grant_signing_hash sha256 g) (owner_signature g) (g_owner g) = true \/
  exists a, sale_authorizations r !! authorization_id a = Some a /\ bought a g.

(** ** The invariant *)

Definition sold_under (i : SaleAuthorizationId) (m : gmap GrantId PollenPurchaseReceipt) : nat :=
  size (filter (fun kv => p_authorization_id kv.2 = i) m).

Record authorization_inv (r : MarketplaceRegistry) (i : SaleAuthorizationId) (a : SaleAuthorization) : Prop := {
  ai_id : authorization_id a = i;
  ai_signed : signed_authorization a;
  ai_owner : exists asset, data_assets r !! a_asset_id a = Some asset /\ owner asset = seller a;
  ai_width : max_grants a ∈u U32;
  ai_issued : grants_issued a <= max_grants a;
  ai_sold : Z.of_nat (sold_under i (purchase_receipts r)) <= grants_issued a;
}.

Record grant_inv (r : MarketplaceRegistry) (i : GrantId) (g : AccessGrant) : Prop := {
  gi_id : grant_id g = i;
  gi_owner : exists asset, data_assets r !! g_asset_id g = Some asset /\ owner asset = g_owner g;
  gi_width : max_reads g ∈u U32;
  gi_consent : consent r g;
}.

Record market_inv (r : MarketplaceRegistry) : Prop := {
  mi_assets : map_Forall (fun i a => asset_id a = i) (data_assets r);
  mi_grants : map_Forall (grant_inv r) (access_grants r);
  mi_authorizations : map_Forall (authorization_inv r) (sale_authorizations r);
  mi_receipts : map_Forall (fun _ p => is_Some (sale_authorizations r !! p_authorization_id p)) (purchase_receipts r);
  mi_bindings : map_Forall (fun m a => exists asset, data_assets r !! a = Some asset /\ manifest_id asset = m) (protected_content r);
}.

Lemma new_inv : market_inv new.
Proof. split; apply map_Forall_empty. Qed.

(** What later states keep of earlier ones. *)
Record grows (r r' : MarketplaceRegistry) : Prop := {
  gr_assets : forall i a, data_assets r !! i = Some a ->
    exists a', data_assets r' !! i = Some a' /\ owner a' = owner a /\ manifest_id a' = manifest_id a;
  gr_authorizations : forall i a, sale_authorizations r !! i = Some a ->
    exists n, sale_authorizations r' !! i = Some (with_issued n a);
  gr_bindings : protected_content r ⊆ protected_content r';
}.

Lemma with_issued_id a : with_issued (grants_issued a) a = a.
Proof. by destruct a. Qed.
Lemma with_issued_twice n m a : with_issued n (with_issued m a) = with_issued n a.
Proof. done. Qed.

Lemma bought_issued n a g : bought a g -> bought (with_issued n a) g.
Proof. intros []. by split. Qed.

Lemma grows_refl r : grows r r.
Proof. split; [eauto|intros i a; exists (grants_issued a); by rewrite with_issued_id|done]. Qed.

Lemma grows_trans r1 r2 r3 : grows r1 r2 -> grows r2 r3 -> grows r1 r3.
Proof.
  intros [A1 B1 C1] [A2 B2 C2]. split.
  - intros i a H. apply A1 in H as (a' & H & <- & <-). apply A2 in H as (a'' & H & E & E'). by exists a''.
  - intros i a H. apply B1 in H as (n & H). apply B2 in H as (m & H). by exists m.
  - by etrans.
Qed.

Lemma consent_grows r r' g : grows r r' -> consent r g -> consent r' g.
Proof.
  intros Hg [H|(a & Ha & Hb)]; [by left|right]. apply (gr_authorizations _ _ Hg) in Ha as (n & Ha).
  exists (with_issued n a). split; [exact Ha|by apply bought_issued].
Qed.

Lemma owner_grows r r' i (o : Address) : grows r r' -> (exists a, data_assets r !! i = Some a /\ owner a = o) ->
  exists a, data_assets r' !! i = Some a /\ owner a = o.
Proof. intros Hg (a & Ha & <-). apply (gr_assets _ _ Hg) in Ha as (a' & ? & ? & _). eauto. Qed.

Lemma grant_grows r r' i g : grows r r' -> grant_inv r i g -> grant_inv r' i g.
Proof. intros Hg [? ? ? ?]. split; [done|by eapply owner_grows|done|by eapply consent_grows]. Qed.

(** A call that leaves authorizations, receipts, grants and bindings alone. *)
Lemma inv_quiet r r' : grows r r' -> market_inv r -> access_grants r' = access_grants r ->
  sale_authorizations r' = sale_authorizations r -> purchase_receipts r' = purchase_receipts r ->
  protected_content r' = protected_content r -> map_Forall (fun i a => asset_id a = i) (data_assets r') -> market_inv r'.
Proof.
  intros Hg [A B C D E] Eg Ea Er Ep HA. split; [done|..].
  - rewrite Eg. eapply map_Forall_impl; [exact B|]. intros i g. by apply grant_grows.
  - rewrite Ea. eapply map_Forall_impl; [exact C|]. intros i a [? ? ? ? ? ?].
    split; [done|done|by eapply owner_grows|done|done|by rewrite Er].
  - by rewrite Er, Ea.
  - rewrite Ep. eapply map_Forall_impl; [exact E|]. intros m a (x & Hx & <-).
    apply (gr_assets _ _ Hg) in Hx as (x' & ? & _ & ?). eauto.
Qed.

(** Changing grants only. *)
Lemma inv_grants r m : market_inv r -> map_Forall (grant_inv r) m -> market_inv (with_grants m r) /\ grows r (with_grants m r).
Proof.
  intros Hi Hm. assert (Hg : grows r (with_grants m r)) by (destruct (grows_refl r); split; assumption).
  split; [|done]. destruct Hi as [A B C D E]. split; [done| | |done..].
  - eapply map_Forall_impl; [exact Hm|]. intros i g. by apply grant_grows.
  - eapply map_Forall_impl; [exact C|]. intros i a []. split; assumption.
Qed.

(** Changing assets only, owners and manifests kept. *)
Lemma inv_assets r m : market_inv r -> map_Forall (fun i a => asset_id a = i) m ->
  (forall i a, data_assets r !! i = Some a -> exists a', m !! i = Some a' /\ owner a' = owner a /\ manifest_id a' = manifest_id a) ->
  market_inv (with_assets m r) /\ grows r (with_assets m r).
Proof.
  intros Hi Hm Hk. assert (Hg : grows r (with_assets m r)) by (destruct (grows_refl r); split; assumption).
  split; [|done]. by apply (inv_quiet r).
Qed.

(** A call that touches none of these. *)
Lemma inv_same r r' : market_inv r -> data_assets r' = data_assets r -> access_grants r' = access_grants r ->
  sale_authorizations r' = sale_authorizations r -> purchase_receipts r' = purchase_receipts r ->
  protected_content r' = protected_content r -> market_inv r' /\ grows r r'.
Proof.
  intros Hi E1 E2 E3 E4 E5. assert (Hg : grows r r') by (destruct (grows_refl r); split; by rewrite ?E1, ?E3, ?E5).
  split; [|done]. apply (inv_quiet r); try done. rewrite E1. apply Hi.
Qed.

Lemma offer_inv r s c p r' i : market_inv r -> create_offer r s c p = Ok (r', i) -> market_inv r' /\ grows r r'.
Proof.
  intros Hi E. unfold create_offer in E. inv_ok E. simplify_eq. apply inv_same; done.
Qed.

Lemma close_inv r i c r' : market_inv r -> close_offer r i c = Ok r' -> market_inv r' /\ grows r r'.
Proof. intros Hi E. unfold close_offer in E. inv_ok E. simplify_eq. apply inv_same; done. Qed.

Lemma policy_inv r p r' : market_inv r -> set_encryption_policy r p = Ok r' -> market_inv r' /\ grows r r'.
Proof. intros Hi E. unfold set_encryption_policy in E. inv_ok E. simplify_eq. apply inv_same; done. Qed.

Lemma asset_inv r a r' i : market_inv r -> register_data_asset sha256 r a = Ok (r', i) -> market_inv r' /\ grows r r'.
Proof.
  intros Hi E. unfold register_data_asset in E. inv_ok E. split_bool. simplify_eq. apply inv_assets; [done|..].
  - apply map_Forall_insert_2; [done|]. apply Hi.
  - intros j b Hb. rewrite lookup_insert_ne by congruence. eauto.
Qed.

Lemma revoke_asset_inv r i c r' : market_inv r -> revoke_data_asset r i c = Ok r' -> market_inv r' /\ grows r r'.
Proof.
  intros Hi E. unfold revoke_data_asset in E. inv_ok E. split_bool. simplify_eq. apply inv_assets; [done|..].
  - apply map_Forall_insert_2; [|apply Hi]. cbn. by eapply (mi_assets _ Hi).
  - intros j b Hb. destruct (decide (j = i)) as [->|]; [|rewrite lookup_insert_ne by done; eauto].
    rewrite lookup_insert_eq. simplify_eq. by eexists.
Qed.

Lemma grant_step_inv r g r' i : market_inv r -> max_reads g ∈u U32 ->
  create_access_grant sha256 verify_signature r g = Ok (r', i) -> market_inv r' /\ grows r r'.
Proof.
  intros Hi Hw E. unfold create_access_grant in E. inv_ok E. split_bool. simplify_eq. apply inv_grants; [done|].
  apply map_Forall_insert_2; [|apply Hi]. split; [done|by exists x0|done|by left].
Qed.

(** A grant whose status or reads change is still the same grant. *)
Lemma grant_inv_status r i g s : grant_inv r i g -> grant_inv r i (with_grant_status s g).
Proof. intros [A B C [D|(a & Ha & [])]]; (split; [done|done|done|]); [by left|right]. exists a. split; [done|by split]. Qed.
Lemma grant_inv_reads r i g n : grant_inv r i g -> grant_inv r i (with_reads n g).
Proof. intros [A B C [D|(a & Ha & [])]]; (split; [done|done|done|]); [by left|right]. exists a. split; [done|by split]. Qed.

Lemma revoke_grant_inv r i c r' : market_inv r -> revoke_access_grant r i c = Ok r' -> market_inv r' /\ grows r r'.
Proof.
  intros Hi E. unfold revoke_access_grant in E. inv_ok E. split_bool. simplify_eq. apply inv_grants; [done|].
  apply map_Forall_insert_2; [|apply Hi]. apply grant_inv_status. by apply (mi_grants _ Hi).
Qed.

Lemma consume_inv r i w t r' : market_inv r -> consume_ai_read_grant r i w t = Ok r' -> market_inv r' /\ grows r r'.
Proof.
  intros Hi E. unfold consume_ai_read_grant, record_read in E. inv_ok E. inv_ok E2. split_bool. simplify_eq. apply inv_grants; [done|].
  apply map_Forall_insert_2; [|apply Hi]. apply grant_inv_reads. by apply (mi_grants _ Hi).
Qed.

Lemma bind_inv r m i c r' : market_inv r -> bind_content_to_asset r m i c = Ok r' -> market_inv r' /\ grows r r'.
Proof.
  intros Hi E. unfold bind_content_to_asset, bind in E. inv_ok E. inv_ok E3. split_bool. simplify_eq. rename x2 into b.
  assert (Hb : b = protected_content r \/ (protected_content r !! manifest_id x = None /\ b = <[manifest_id x := i]> (protected_content r))).
  { destruct (protected_content r !! manifest_id x) as [a|]; [case_bool_decide; [|done]|]; simplify_eq; auto. }
  assert (Hg : grows r (with_protected b r)).
  { destruct (grows_refl r). split; [done|done|]. destruct Hb as [->|[Hn ->]]; [done|]. by apply insert_subseteq. }
  split; [|done]. destruct Hi as [A B C D F]. split; [done| | |done|].
  - eapply map_Forall_impl; [exact B|]. intros j g. by apply grant_grows.
  - eapply map_Forall_impl; [exact C|]. intros j a []. split; assumption.
  - destruct Hb as [->|[_ ->]]; [done|]. apply map_Forall_insert_2; [|done]. by exists x.
Qed.

Lemma sold_none r i : market_inv r -> sale_authorizations r !! i = None -> sold_under i (purchase_receipts r) = 0%nat.
Proof.
  intros Hi Hn. unfold sold_under. apply map_size_empty_iff, map_eq. intros k. rewrite lookup_empty. apply map_lookup_filter_None_2. right.
  intros p Hp E. destruct (mi_receipts _ Hi _ _ Hp) as [a Ha]. cbn in E. congruence.
Qed.

(** A new receipt adds one sale to its own authorization and none to others. *)
Lemma sold_insert i k p m : m !! k = None ->
  sold_under i (<[k := p]> m) = (if bool_decide (p_authorization_id p = i) then S (sold_under i m) else sold_under i m).
Proof.
  intros Hn. unfold sold_under. rewrite map_filter_insert. cbn.
  destruct (decide (p_authorization_id p = i)) as [E|E].
  - rewrite bool_decide_eq_true_2 by done. apply map_size_insert_None, map_lookup_filter_None_2. by left.
  - rewrite bool_decide_eq_false_2 by done. by rewrite delete_id.
Qed.

Lemma authorize_inv r a r' i : market_inv r -> max_grants a ∈u U32 -> grants_issued a ∈u U32 ->
  create_sale_authorization sha256 verify_signature r a = Ok (r', i) -> market_inv r' /\ grows r r'.
Proof.
  intros Hi Hw Hw' E. unfold create_sale_authorization, validate_authorization in E. inv_ok E. inv_ok E0. split_bool. simplify_eq.
  set (r' := with_authorizations _ r).
  assert (Hg : grows r r').
  { destruct (grows_refl r). split; [done| |done]. intros j b Hb. cbn. rewrite lookup_insert_ne by congruence. eauto. }
  split; [|done]. pose proof Hi as [A B C D F]. split; [done| | | |done].
  - eapply map_Forall_impl; [exact B|]. intros j g. by apply grant_grows.
  - apply map_Forall_insert_2.
    + split; [done|done|by exists x0|done|lia|]. cbn. rewrite sold_none; [lia|done|done].
    + eapply map_Forall_impl; [exact C|]. intros j b []. split; assumption.
  - eapply map_Forall_impl; [exact D|]. intros j p [b Hb]. cbn. destruct (decide (p_authorization_id p = authorization_id a)) as [->|].
    + rewrite lookup_insert_eq. eauto.
    + rewrite lookup_insert_ne by done. eauto.
Qed.

(** What a purchase does: one more grant, one more receipt, one more sale. *)
Definition purchased (r : MarketplaceRegistry) (a : SaleAuthorization) (g : AccessGrant) (p : PollenPurchaseReceipt) : MarketplaceRegistry :=
  with_receipts (<[receipt_id p := p]> (purchase_receipts r))
    (with_grants (<[grant_id g := g]> (access_grants r))
       (with_authorizations (<[authorization_id a := with_issued (grants_issued a + 1) a]> (sale_authorizations r)) r)).

Lemma purchase_ok r i b w t d n c s r' x : market_inv r ->
  issue_grant_from_sale_authorization sha256 verify_signature r i b w t d n c s = Ok (r', x) ->
  exists a g p, sale_authorizations r !! authorization_id a = Some a /\ grants_issued a < max_grants a /\ bought a g /\
    purchase_receipts r !! receipt_id p = None /\ p_authorization_id p = authorization_id a /\ max_reads g = n /\
    access_grants r !! grant_id g = None /\ r' = purchased r a g p.
Proof.
  intros Hi E. unfold issue_grant_from_sale_authorization, can_issue in E. inv_ok E. split_bool.
  rename x5 into a, x13 into e. pose proof (mi_authorizations _ Hi _ _ E5) as [<- Hs Ho Hw _ _].
  unfold record_issued_grant in E18. inv_ok E18.
  assert (He : e <= a_expires_at_block a) by (unfold purchase_expiry in E13; inv_ok E13; lia).
  assert (Hb : bought a (with_signature (seller_signature a)
     (grant_new_unsigned sha256 (a_asset_id a) (seller a) w b (unit_price a) t e n (terms_hash a)))).
  { split; cbn; [done..|lia|done|]. by exists d, c, x11, s. }
  eexists a, _, _. split; [done|]. split; [lia|]. split; [exact Hb|]. split; [exact E17|]. split; [done|]. split; [done|]. split; [done|].
  unfold purchased, saturating_add. cbn. repeat f_equal. lia.
Qed.

Lemma purchase_inv r i b w t d n c s r' x : market_inv r -> n ∈u U32 ->
  issue_grant_from_sale_authorization sha256 verify_signature r i b w t d n c s = Ok (r', x) -> market_inv r' /\ grows r r'.
Proof.
  intros Hi Hn E. apply purchase_ok in E as (a & g & p & Ha & Hlt & Hb & Hp & Hpa & Hg & _ & ->); [|done].
  assert (Hgr : grows r (purchased r a g p)).
  { destruct (grows_refl r). split; [done| |done]. intros j z Hz. cbn. destruct (decide (j = authorization_id a)) as [->|].
    - rewrite lookup_insert_eq. simplify_eq. eauto.
    - rewrite lookup_insert_ne by done. eauto. }
  split; [|done]. pose proof Hi as [A B C D F]. split; [done| | | |done].
  - apply map_Forall_insert_2; [|eapply map_Forall_impl; [exact B|]; intros j z; by apply grant_grows].
    split; [done| |by rewrite Hg|].
    + destruct (mi_authorizations _ Hi _ _ Ha) as [_ _ Ho _ _ _]. by rewrite <- (bought_asset _ _ Hb), <- (bought_seller _ _ Hb).
    + apply (consent_grows r); [done|]. right. by exists a.
  - assert (Hz : forall j z, sale_authorizations r !! j = Some z -> j <> authorization_id a -> authorization_inv (purchased r a g p) j z).
    { intros j z Hj Hne. destruct (C _ _ Hj). split; [done..|]. cbn. rewrite sold_insert by done.
      by rewrite bool_decide_eq_false_2 by congruence. }
    intros j z Hj. cbn in Hj. destruct (decide (j = authorization_id a)) as [->|Hne].
    + rewrite lookup_insert_eq in Hj. simplify_eq. destruct (C _ _ Ha). split; [done..|cbn; lia|].
      cbn. rewrite sold_insert by done. rewrite bool_decide_eq_true_2 by done. lia.
    + rewrite lookup_insert_ne in Hj by done. by apply Hz.
  - cbn. apply map_Forall_insert_2; [rewrite Hpa, lookup_insert_eq; eauto|]. eapply map_Forall_impl; [exact D|].
    intros j z [y Hy]. apply (gr_authorizations _ _ Hgr) in Hy as [m Hy]. eexists; exact Hy.
Qed.

(** Every call preserves the invariant and what was registered. *)
Lemma pstep_inv r op : op_ok op -> market_inv r -> market_inv (pstep r op) /\ grows r (pstep r op).
Proof.
  intros Ho Hi. assert (Hk : market_inv r /\ grows r r) by (split; [done|apply grows_refl]).
  destruct op; cbn in Ho |- *; unfold keep, keep_fst;
    (match goal with |- context [match ?x with Ok _ => _ | Err _ => _ end] => destruct x as [x'|] eqn:E; [|exact Hk] end);
    try destruct x' as [r' y].
  - by eapply offer_inv.
  - by eapply close_inv.
  - by eapply policy_inv.
  - by eapply asset_inv.
  - by eapply revoke_asset_inv.
  - destruct Ho. by eapply grant_step_inv.
  - by eapply revoke_grant_inv.
  - destruct Ho. by eapply authorize_inv.
  - by eapply purchase_inv.
  - by eapply bind_inv.
  - by eapply consume_inv.
Qed.

Lemma prun_inv ops r : Forall op_ok ops -> market_inv r -> market_inv (prun r ops) /\ grows r (prun r ops).
Proof.
  intros Ho. revert r. induction Ho as [|op ops H Ho IH]; intros r Hi; [split; [done|apply grows_refl]|].
  destruct (pstep_inv r op H Hi) as [H1 H2]. destruct (IH _ H1) as [H3 H4]. split; [done|]. by eapply grows_trans.
Qed.

(** ** Reads served under a grant *)

Definition served1 (i : GrantId) (r : MarketplaceRegistry) (op : PollenOp) : Z :=
  match op with
  | OpConsume j w t =>
      if bool_decide (j = i) then match consume_ai_read_grant r j w t with Ok _ => 1 | Err _ => 0 end else 0
  | _ => 0
  end.

Fixpoint served (i : GrantId) (r : MarketplaceRegistry) (ops : list PollenOp) : Z :=
  match ops with
  | [] => 0
  | op :: ops' => served1 i r op + served i (pstep r op) ops'
  end.

(** The grant after one call: never replaced, and its reads counted. *)
Definition keeps_grant (i : GrantId) (g : AccessGrant) (n : Z) (r' : MarketplaceRegistry) : Prop :=
  exists g', access_grants r' !! i = Some g' /\ max_reads g' = max_reads g /\ reads_used g' = reads_used g + n.

Lemma keeps_grant_same i g r' : access_grants r' !! i = Some g -> keeps_grant i g 0 r'.
Proof. intros H. exists g. split; [done|]. split; [done|lia]. Qed.

Lemma keeps_other i g j g' r r' : access_grants r !! i = Some g -> access_grants r !! j = None ->
  access_grants r' = <[j := g']> (access_grants r) -> keeps_grant i g 0 r'.
Proof. intros Hi Hj E. apply keeps_grant_same. rewrite E, lookup_insert_ne by congruence. done. Qed.

Lemma consume_keeps i g r j w t : market_inv r -> access_grants r !! i = Some g ->
  keeps_grant i g (served1 i r (OpConsume j w t)) (pstep r (OpConsume j w t)) /\
  0 <= served1 i r (OpConsume j w t) <= Z.max 0 (max_reads g - reads_used g).
Proof.
  intros Hi Hg. cbn. destruct (consume_ai_read_grant r j w t) as [r'|] eqn:E; cbn.
  2: { case_bool_decide; (split; [by apply keeps_grant_same|lia]). }
  unfold consume_ai_read_grant, record_read in E. inv_ok E. inv_ok E2. split_bool. simplify_eq.
  destruct (gi_width _ _ _ (mi_grants _ Hi _ _ E0)) as [_ Hw].
  destruct (decide (j = i)) as [->|Hne].
  - rewrite bool_decide_eq_true_2 by done. simplify_eq. split; [|lia]. eexists. split; [apply lookup_insert_eq|].
    split; [done|]. cbn. unfold saturating_add. lia.
  - rewrite bool_decide_eq_false_2 by done. split; [|lia]. apply keeps_grant_same. cbn. by rewrite lookup_insert_ne.
Qed.

Lemma pstep_keeps i g r op : market_inv r -> access_grants r !! i = Some g ->
  keeps_grant i g (served1 i r op) (pstep r op) /\ 0 <= served1 i r op <= Z.max 0 (max_reads g - reads_used g).
Proof.
  intros Hi Hg. destruct op as [| | | | |g'|j c| | | |j w t]; [..|by apply consume_keeps]; (split; [|cbn; lia]);
    cbn -[Z.add]; unfold keep, keep_fst;
    (match goal with |- context [match ?x with Ok _ => _ | Err _ => _ end] => destruct x as [x'|] eqn:E; [|by apply keeps_grant_same] end);
    try destruct x' as [r' y].
  - unfold create_offer in E. inv_ok E. simplify_eq. by apply keeps_grant_same.
  - unfold close_offer in E. inv_ok E. by apply keeps_grant_same.
  - unfold set_encryption_policy in E. inv_ok E. by apply keeps_grant_same.
  - unfold register_data_asset in E. inv_ok E. simplify_eq. by apply keeps_grant_same.
  - unfold revoke_data_asset in E. inv_ok E. by apply keeps_grant_same.
  - unfold create_access_grant in E. inv_ok E. split_bool. simplify_eq. by eapply keeps_other.
  - unfold revoke_access_grant in E. inv_ok E. destruct (decide (j = i)) as [->|Hne].
    + simplify_eq. eexists. split; [apply lookup_insert_eq|]. cbn. split; [done|lia].
    + apply keeps_grant_same. cbn. by rewrite lookup_insert_ne.
  - unfold create_sale_authorization in E. inv_ok E. simplify_eq. by apply keeps_grant_same.
  - apply purchase_ok in E as (a & g' & p & _ & _ & _ & _ & _ & _ & Hn & ->); [|done]. by eapply keeps_other.
  - unfold bind_content_to_asset in E. inv_ok E. by apply keeps_grant_same.
Qed.

Lemma served_bound i ops r g : Forall op_ok ops -> market_inv r -> access_grants r !! i = Some g ->
  keeps_grant i g (served i r ops) (prun r ops) /\ 0 <= served i r ops <= Z.max 0 (max_reads g - reads_used g).
Proof.
  intros Ho. revert r g. induction Ho as [|op ops H Ho IH]; intros r g Hi Hg; [split; [by apply keeps_grant_same|cbn; lia]|].
  destruct (pstep_keeps i g r op Hi Hg) as [(g1 & Hg1 & M1 & R1) B1].
  destruct (IH _ g1 (proj1 (pstep_inv r op H Hi)) Hg1) as [(g2 & Hg2 & M2 & R2) B2].
  cbn. split; [|lia]. exists g2. split; [exact Hg2|]. split; [congruence|lia].
Qed.

Lemma prun_app r ops ops' : prun r (ops ++ ops') = prun (prun r ops) ops'.
Proof. apply fold_left_app. Qed.

(** C26: content bound to a data asset stays behind its paywall.  Whatever calls
    come after the binding, the content may not be made public, and a read is
    authorised exactly when the reader presents a grant of that very asset
    that is live for him, the asset is still offered by the owner who issued
    the grant, and that owner consented: he signed the grant, or a sale
    authorization of that asset at that price whose buyer signed the terms. *)
Theorem pollen_paywall ops ops' m a reader g t : Forall op_ok ops -> Forall op_ok ops' ->
  protected_content (prun new ops) !! m = Some a ->
  check_content_may_be_public (prun new (ops ++ ops')) m = Err (ProtectedCannotBePublic a) /\
  (authorize_content_read (prun new (ops ++ ops')) m reader g t = Ok tt <->
   exists i grant asset, g = Some i /\ access_grants (prun new (ops ++ ops')) !! i = Some grant /\ g_asset_id grant = a /\
     data_assets (prun new (ops ++ ops')) !! a = Some asset /\ manifest_id asset = m /\ is_active asset = true /\
     owner asset = g_owner grant /\ is_active_for grant reader t = true /\ consent (prun new (ops ++ ops')) grant).
Proof.
  intros Ho Ho' Hm. destruct (prun_inv ops new Ho new_inv) as [Hi _]. destruct (prun_inv ops' _ Ho' Hi) as [Hi' Hg].
  rewrite prun_app. set (r := prun (prun new ops) ops') in *. clearbody r.
  assert (Hb : protected_content r !! m = Some a) by (by eapply lookup_weaken; [|apply Hg]).
  split; [unfold check_content_may_be_public, check_may_be_public, asset_for; by rewrite Hb|].
  unfold authorize_content_read, asset_for. rewrite Hb. split.
  - intros E. inv_ok E. split_bool. simplify_eq. destruct (mi_bindings _ Hi' _ _ Hb) as (z & Hz & <-).
    pose proof (mi_grants _ Hi' _ _ E1) as [_ _ _ Hc]. simplify_eq. by exists x, x0, x2.
  - intros (i & grant & asset & -> & Hgr & <- & Ha & <- & Hac & Hw & Hl & _). cbn. rewrite Hgr. cbn.
    rewrite bool_decide_eq_true_2 by done. cbn. rewrite Ha. cbn. rewrite Hac. cbn. rewrite bool_decide_eq_true_2 by done.
    cbn. by rewrite Hl.
Qed.

(** C27: the marketplace sells no more than it says.  After any calls, the
    purchases made under a sale authorization number at most its max_grants;
    and from the moment a grant exists, the reads served under it, whatever
    other calls come between, are counted one by one in reads_used and are at
    most the max_reads - reads_used left to it. *)
Theorem pollen_limits ops ops' i g j a : Forall op_ok ops -> Forall op_ok ops' ->
  access_grants (prun new ops) !! i = Some g -> sale_authorizations (prun new ops) !! j = Some a ->
  Z.of_nat (sold_under j (purchase_receipts (prun new ops))) <= max_grants a /\
  keeps_grant i g (served i (prun new ops) ops') (prun new (ops ++ ops')) /\
  0 <= served i (prun new ops) ops' <= Z.max 0 (max_reads g - reads_used g).
Proof.
  intros Ho Ho' Hg Ha. destruct (prun_inv ops new Ho new_inv) as [Hi _]. rewrite prun_app.
  split; [destruct (mi_authorizations _ Hi _ _ Ha); lia|]. by apply served_bound.
Qed.
End market.

(** ** A sale, evaluated *)

Module Demo.

Definition alice : Address := replicate 32 7.
Definition bob : Address := replicate 32 9.
Definition film : ContentId := replicate 32 3.
Definition terms : Hash32 := replicate 32 5.

(** A digest that keeps its input, and a signature that names its signer. *)
Definition digest (bs : bytes) : Hash32 := bs.
Definition verify (msg sig key : bytes) : bool := bool_decide (sig = key ++ key).

Definition asset : DataAsset := asset_new digest alice film terms true.
Definition sale : SaleAuthorization :=
  let a := authorization_new_unsigned digest (asset_id asset) alice 10 0 100 1 terms in
  mkAuthorization (authorization_id a) (a_asset_id a) (seller a) (unit_price a) (valid_from_block a)
    (a_expires_at_block a) (max_grants a) 0 (terms_hash a) (alice ++ alice).
Definition buy (reads : Z) : PollenOp :=
  OpPurchase (authorization_id sale) bob bob 20 30 reads terms (bob ++ bob).
Definition ticket : GrantId := grant_derive_id digest (asset_id asset) alice bob bob 10 20 50 2 terms.

Definition before : list PollenOp := [OpAsset asset; OpBind film (asset_id asset) alice; OpAuthorize sale; buy 2; buy 5].
Definition after : list PollenOp := [OpConsume ticket bob 25; OpConsume ticket alice 25].

Definition market : MarketplaceRegistry := prun digest verify new before.

Lemma before_ok : Forall op_ok before.
Proof. repeat apply Forall_cons_2; try apply Forall_nil_2; cbn; lia. Qed.
Lemma after_ok : Forall op_ok after.
Proof. repeat apply Forall_cons_2; try apply Forall_nil_2; cbn; lia. Qed.
Lemma film_bound : protected_content market !! film = Some (asset_id asset).
Proof. vm_compute. reflexivity. Qed.

(** The second purchase found the authorization exhausted, alice's read was
    refused, and bob's left him one of his two. *)
Example demo_sale :
  size (purchase_receipts market) = 1%nat /\ served digest verify ticket market after = 1 /\
  authorize_content_read (prun digest verify new (before ++ after)) film bob (Some ticket) 26 = Ok tt /\
  authorize_content_read (prun digest verify new (before ++ after)) film alice (Some ticket) 26 = Err GrantInactive /\
  authorize_content_read (prun digest verify new (before ++ after)) film alice None 26 = Err (GrantRequired (asset_id asset)).
Proof. vm_compute. repeat split. Qed.

Definition bought_ticket : AccessGrant :=
  with_signature (alice ++ alice) (grant_new_unsigned digest (asset_id asset) alice bob bob 10 20 50 2 terms).
Lemma ticket_sold : access_grants market !! ticket = Some bought_ticket.
Proof. vm_compute. reflexivity. Qed.
Lemma sale_exhausted : sale_authorizations market !! authorization_id sale = Some (with_issued 1 sale).
Proof. vm_compute. reflexivity. Qed.

Lemma pollen_paywall_witness :
  check_content_may_be_public (prun digest verify new (before ++ after)) film = Err (ProtectedCannotBePublic (asset_id asset)) /\
  (authorize_content_read (prun digest verify new (before ++ after)) film bob (Some ticket) 26 = Ok tt <->
   exists i grant x, Some ticket = Some i /\ access_grants (prun digest verify new (before ++ after)) !! i = Some grant /\
     g_asset_id grant = asset_id asset /\
     data_assets (prun digest verify new (before ++ after)) !! asset_id asset = Some x /\ manifest_id x = film /\ is_active x = true /\
     owner x = g_owner grant /\ is_active_for grant bob 26 = true /\ consent digest verify (prun digest verify new (before ++ after)) grant).
Proof. exact (pollen_paywall digest verify before after film (asset_id asset) bob (Some ticket) 26 before_ok after_ok film_bound). Defined.

Lemma pollen_limits_witness :
  Z.of_nat (sold_under (authorization_id sale) (purchase_receipts market)) <= 1 /\
  keeps_grant ticket bought_ticket (served digest verify ticket market after) (prun digest verify new (before ++ after)) /\
  0 <= served digest verify ticket market after <= Z.max 0 (max_reads bought_ticket - reads_used bought_ticket).
Proof.
  exact (pollen_limits digest verify before after ticket bought_ticket (authorization_id sale) (with_issued 1 sale)
    before_ok after_ok ticket_sold sale_exhausted).
Defined.

End Demo.
End PollenFacts.
