(* ===== verification/PollenPolicy.v ===== *)
(** * The encryption policy of the data marketplace (src/pollen/encryption_policy.rs)

    The policy that governance maintains: the algorithms allowed, the default
    one, key length and rotation, and special requirements per asset.
    [apply_dao_update] writes each field as soon as it has checked it, so a call
    that fails on a later field has already changed earlier ones: it returns the
    policy together with its result.  Then the theorem that no sequence of
    calls, failing ones included, ever makes an asset readable in plain text. *)

From Stdlib Require Import ZArith Lia.
From stdpp Require Import base tactics strings numbers gmap sorting list.
From S2P Require Import Prelude Hashing StorageDeal Pollen.
Import Hashing.
Open Scope Z_scope.

Module PollenPolicy.

Abbreviation AssetId := Hash32.

Inductive EncryptionAlgorithm : Type := Aes256Gcm | ChaCha20Poly1305 | XChaCha20Poly1305 | NoEncryption.
#[export] Instance EncryptionAlgorithm_eq_dec : EqDecision EncryptionAlgorithm.
Proof. solve_decision. Defined.

Inductive KeyDerivationFunction : Type := HkdfSha256 | Argon2Id | Pbkdf2Sha256.

Record AssetEncryptionPolicy : Type := mkAssetPolicy {
  asset_id : AssetId;
  required_algorithm : EncryptionAlgorithm;
  custom_rotation_epochs : Z;
  double_encryption : bool;
  access_logging_required : bool;
}.

Record EncryptionPolicy : Type := mkPolicy {
  version : Z;
  default_algorithm : EncryptionAlgorithm;
  allowed_algorithms : list EncryptionAlgorithm;
  kdf : KeyDerivationFunction;
  min_key_length_bits : Z;
  key_rotation_epochs : Z;
  max_encrypted_data_size : Z;
  nonce_size_bytes : Z;
  asset_policies : gmap AssetId AssetEncryptionPolicy;
  update_threshold : Z;
  last_updated_epoch : Z;
  last_update_proposal_id : option Z;
}.

Inductive EncryptionPolicyError : Type :=
| InsufficientVotes (required actual : Z)
| AlgorithmNotAllowed (algorithm : EncryptionAlgorithm)
| KeyTooShort (bits : Z)
| InvalidRotationPeriod
| InvalidAssetPolicy.

Record PolicyUpdateResult : Type := mkUpdateResult {
  from_version : Z;
  to_version : Z;
  changed_fields : list string;
  u_epoch : Z;
  u_proposal_id : Z;
}.

Record EncryptionPolicyUpdate : Type := mkUpdate {
  new_algorithm : option EncryptionAlgorithm;
  new_kdf : option KeyDerivationFunction;
  new_key_length : option Z;
  new_rotation : option Z;
  new_max_size : option Z;
}.

Record AssetEncryptionRequirement : Type := mkRequirement {
  algorithm : EncryptionAlgorithm;
  rotation_epochs : Z;
  req_double_encryption : bool;
  access_logging : bool;
}.

Definition validate_asset_policy (p : AssetEncryptionPolicy) : result unit EncryptionPolicyError :=
  check? negb (Pollen.is_zero (asset_id p)) else InvalidAssetPolicy in
  check? negb (bool_decide (required_algorithm p = NoEncryption)) else InvalidAssetPolicy in
  Ok tt.

Definition default : EncryptionPolicy :=
  mkPolicy 1 Aes256Gcm [Aes256Gcm; ChaCha20Poly1305; XChaCha20Poly1305] HkdfSha256 256 10080 1073741824 12 ∅ 800000 0 None.

Definition is_algorithm_allowed (p : EncryptionPolicy) (a : EncryptionAlgorithm) : bool :=
  if bool_decide (a = NoEncryption) then false else bool_decide (a ∈ allowed_algorithms p).

(** The loop of [validate_static] over the policies of the assets. *)
Fixpoint validate_assets (p : EncryptionPolicy) (l : list AssetEncryptionPolicy) : result unit EncryptionPolicyError :=
  match l with
  | [] => Ok tt
  | a :: l' =>
      let? _ := validate_asset_policy a in
      check? is_algorithm_allowed p (required_algorithm a) else AlgorithmNotAllowed (required_algorithm a) in
      validate_assets p l'
  end.

Definition validate_static (p : EncryptionPolicy) : result unit EncryptionPolicyError :=
  check? negb (bool_decide (default_algorithm p = NoEncryption)) else AlgorithmNotAllowed (default_algorithm p) in
  check? negb (bool_decide (allowed_algorithms p = [])) else InvalidAssetPolicy in
  check? negb (bool_decide (NoEncryption ∈ allowed_algorithms p)) else AlgorithmNotAllowed NoEncryption in
  check? bool_decide (default_algorithm p ∈ allowed_algorithms p) else AlgorithmNotAllowed (default_algorithm p) in
  check? negb (min_key_length_bits p <? 128) else KeyTooShort (min_key_length_bits p) in
  check? negb (key_rotation_epochs p =? 0) else InvalidRotationPeriod in
  check? negb (max_encrypted_data_size p =? 0) else InvalidAssetPolicy in
  validate_assets p (map snd (StorageDeal.entries (asset_policies p))).

Definition asset_requirement (p : EncryptionPolicy) (id : AssetId) : AssetEncryptionRequirement :=
  match asset_policies p !! id with
  | Some a =>
      mkRequirement (required_algorithm a)
        (if 0 <? custom_rotation_epochs a then custom_rotation_epochs a else key_rotation_epochs p)
        (double_encryption a) (access_logging_required a)
  | None => mkRequirement (default_algorithm p) (key_rotation_epochs p) false false
  end.

(** *** Field updates *)

Definition set_default (a : EncryptionAlgorithm) (p : EncryptionPolicy) : EncryptionPolicy :=
  mkPolicy (version p) a (allowed_algorithms p) (kdf p) (min_key_length_bits p) (key_rotation_epochs p)
    (max_encrypted_data_size p) (nonce_size_bytes p) (asset_policies p) (update_threshold p) (last_updated_epoch p)
    (last_update_proposal_id p).
Definition set_kdf (k : KeyDerivationFunction) (p : EncryptionPolicy) : EncryptionPolicy :=
  mkPolicy (version p) (default_algorithm p) (allowed_algorithms p) k (min_key_length_bits p) (key_rotation_epochs p)
    (max_encrypted_data_size p) (nonce_size_bytes p) (asset_policies p) (update_threshold p) (last_updated_epoch p)
    (last_update_proposal_id p).
Definition set_key_length (n : Z) (p : EncryptionPolicy) : EncryptionPolicy :=
  mkPolicy (version p) (default_algorithm p) (allowed_algorithms p) (kdf p) n (key_rotation_epochs p)
    (max_encrypted_data_size p) (nonce_size_bytes p) (asset_policies p) (update_threshold p) (last_updated_epoch p)
    (last_update_proposal_id p).
Definition set_rotation (n : Z) (p : EncryptionPolicy) : EncryptionPolicy :=
  mkPolicy (version p) (default_algorithm p) (allowed_algorithms p) (kdf p) (min_key_length_bits p) n
    (max_encrypted_data_size p) (nonce_size_bytes p) (asset_policies p) (update_threshold p) (last_updated_epoch p)
    (last_update_proposal_id p).
Definition set_max_size (n : Z) (p : EncryptionPolicy) : EncryptionPolicy :=
  mkPolicy (version p) (default_algorithm p) (allowed_algorithms p) (kdf p) (min_key_length_bits p) (key_rotation_epochs p)
    n (nonce_size_bytes p) (asset_policies p) (update_threshold p) (last_updated_epoch p) (last_update_proposal_id p).
Definition set_stamp (v epoch : Z) (proposal : option Z) (p : EncryptionPolicy) : EncryptionPolicy :=
  mkPolicy v (default_algorithm p) (allowed_algorithms p) (kdf p) (min_key_length_bits p) (key_rotation_epochs p)
    (max_encrypted_data_size p) (nonce_size_bytes p) (asset_policies p) (update_threshold p) epoch proposal.
Definition set_assets (m : gmap AssetId AssetEncryptionPolicy) (p : EncryptionPolicy) : EncryptionPolicy :=
  mkPolicy (version p) (default_algorithm p) (allowed_algorithms p) (kdf p) (min_key_length_bits p) (key_rotation_epochs p)
    (max_encrypted_data_size p) (nonce_size_bytes p) m (update_threshold p) (last_updated_epoch p) (last_update_proposal_id p).

(** One field of an update: what the check of its new value says, the write, and
    its name on the list of changes. *)
Definition change {A} (v : option A) (chk : A -> result unit EncryptionPolicyError) (write : A -> EncryptionPolicy -> EncryptionPolicy)
    (name : string) (st : EncryptionPolicy * result (list string) EncryptionPolicyError)
  : EncryptionPolicy * result (list string) EncryptionPolicyError :=
  match st, v with
  | (p, Ok names), Some x =>
      match chk x with
      | Ok _ => (write x p, Ok (names ++ [name]))
      | Err e => (p, Err e)
      end
  | _, _ => st
  end.

Definition check_default (p : EncryptionPolicy) (a : EncryptionAlgorithm) : result unit EncryptionPolicyError :=
  check? negb (bool_decide (a = NoEncryption)) else AlgorithmNotAllowed a in
  check? bool_decide (a ∈ allowed_algorithms p) else AlgorithmNotAllowed a in
  Ok tt.
Definition check_key_length (n : Z) : result unit EncryptionPolicyError :=
  check? negb (n <? 128) else KeyTooShort n in Ok tt.
Definition check_rotation (n : Z) : result unit EncryptionPolicyError :=
  check? negb (n =? 0) else InvalidRotationPeriod in Ok tt.

Definition update_fields (p : EncryptionPolicy) (u : EncryptionPolicyUpdate)
  : EncryptionPolicy * result (list string) EncryptionPolicyError :=
  change (new_max_size u) (fun _ => Ok tt) set_max_size "max_encrypted_data_size"
    (change (new_rotation u) check_rotation set_rotation "key_rotation_epochs"
      (change (new_key_length u) check_key_length set_key_length "min_key_length_bits"
        (change (new_kdf u) (fun _ => Ok tt) set_kdf "kdf"
          (change (new_algorithm u) (check_default p) set_default "default_algorithm" (p, Ok []))))).

Definition apply_dao_update (p : EncryptionPolicy) (u : EncryptionPolicyUpdate) (epoch proposal_id vote_ratio : Z)
  : EncryptionPolicy * result PolicyUpdateResult EncryptionPolicyError :=
  if vote_ratio <? update_threshold p then (p, Err (InsufficientVotes (update_threshold p) vote_ratio))
  else
    match update_fields p u with
    | (p', Ok names) =>
        let v := saturating_add U64 (version p') 1 in
        (set_stamp v epoch (Some proposal_id) p', Ok (mkUpdateResult (version p) v names epoch proposal_id))
    | (p', Err e) => (p', Err e)
    end.

Definition set_asset_policy (p : EncryptionPolicy) (a : AssetEncryptionPolicy) : result EncryptionPolicy EncryptionPolicyError :=
  let? _ := validate_asset_policy a in
  check? is_algorithm_allowed p (required_algorithm a) else AlgorithmNotAllowed (required_algorithm a) in
  Ok (set_assets (<[asset_id a := a]> (asset_policies p)) p).

Definition remove_asset_policy (p : EncryptionPolicy) (id : AssetId) : EncryptionPolicy * bool :=
  (set_assets (delete id (asset_policies p)) p, bool_decide (is_Some (asset_policies p !! id))).

Definition prune_asset_policies (p : EncryptionPolicy) (max_policies : Z) : EncryptionPolicy * Z :=
  let n := Z.of_nat (size (asset_policies p)) in
  if n <=? max_policies then (p, 0)
  else
    let to_remove := n - max_policies in
    let keys := take (Z.to_nat to_remove) (map fst (StorageDeal.entries (asset_policies p))) in
    (set_assets (foldl (fun m k => delete k m) (asset_policies p) keys) p, to_remove).

(** ** No asset is ever in plain text *)

Inductive PolicyOp : Type :=
| OpUpdate (u : EncryptionPolicyUpdate) (epoch proposal_id vote_ratio : Z)
| OpSetAsset (a : AssetEncryptionPolicy)
| OpRemoveAsset (id : AssetId)
| OpPrune (max_policies : Z).

Definition policy_step (p : EncryptionPolicy) (op : PolicyOp) : EncryptionPolicy :=
  match op with
  | OpUpdate u e i r => (apply_dao_update p u e i r).1
  | OpSetAsset a => match set_asset_policy p a with Ok p' => p' | Err _ => p end
  | OpRemoveAsset i => (remove_asset_policy p i).1
  | OpPrune n => (prune_asset_policies p n).1
  end.
Definition policy_run (ops : list PolicyOp) : EncryptionPolicy := foldl policy_step default ops.

Record sealed (p : EncryptionPolicy) : Prop := {
  se_allowed : allowed_algorithms p = allowed_algorithms default;
  se_default : default_algorithm p ∈ allowed_algorithms p;
  se_key : 128 <= min_key_length_bits p;
  se_rotation : key_rotation_epochs p <> 0;
  se_assets : map_Forall (fun i a => Pollen.is_zero i = false /\ asset_id a = i /\ required_algorithm a ∈ allowed_algorithms p)
    (asset_policies p);
}.

Lemma none_not_allowed p : sealed p -> NoEncryption ∉ allowed_algorithms p.
Proof. intros [-> _ _ _ _] H. repeat (apply elem_of_cons in H as [H|H]; [done|]). by apply elem_of_nil in H. Qed.

(** A property of policies and a property of new values, carried through one field. *)
Lemma change_inv {A} (I : EncryptionPolicy -> Prop) (v : option A) chk write name st :
  I st.1 -> (forall x p, I p -> chk x = Ok tt -> I (write x p)) -> I (change v chk write name st).1.
Proof.
  intros Hi Hw. destruct st as [p [names|e]]; [|done]. destruct v as [x|]; [|done]. cbn in *.
  destruct (chk x) as [[]|] eqn:E; [|done]. by apply Hw.
Qed.

Lemma update_fields_sealed p u : sealed p -> sealed (update_fields p u).1.
Proof.
  intros Hp. unfold update_fields. repeat apply change_inv; [done|..].
  - intros a q [] E. unfold check_default in E. inv_ok E. split_bool. split; try done. cbn.
    rewrite se_allowed0. by rewrite <- (se_allowed _ Hp).
  - intros k q [] _. by split.
  - intros n q [] E. unfold check_key_length in E. inv_ok E. split; try done. cbn. lia.
  - intros n q [] E. unfold check_rotation in E. inv_ok E. split; try done. cbn. lia.
  - intros n q [] _. by split.
Qed.

Lemma sealed_assets p m : sealed p -> m ⊆ asset_policies p -> sealed (set_assets m p).
Proof. intros [] Hm. split; try done. intros i a Hi. apply se_assets0. by eapply lookup_weaken. Qed.

Lemma deletes_subseteq {A} (keys : list AssetId) (m : gmap AssetId A) : foldl (fun m k => delete k m) m keys ⊆ m.
Proof.
  revert m. induction keys as [|k keys IH]; intros m; [done|]. cbn. etrans; [apply IH|]. apply delete_subseteq.
Qed.

Lemma policy_step_sealed p op : sealed p -> sealed (policy_step p op).
Proof.
  intros Hp. destruct op as [u e i r|a|i|n]; cbn.
  - unfold apply_dao_update. destruct (_ <? _); [done|]. pose proof (update_fields_sealed p u Hp) as Hq.
    destruct (update_fields p u) as [q [names|er]]; [|done]. destruct Hq. by split.
  - destruct (set_asset_policy p a) as [q|] eqn:E; [|done]. unfold set_asset_policy, is_algorithm_allowed in E. inv_ok E.
    unfold validate_asset_policy in E0. inv_ok E0. split_bool. rewrite bool_decide_eq_false_2 in E1 by done.
    split_bool. destruct Hp. split; try done. cbn. by apply map_Forall_insert_2.
  - apply sealed_assets; [done|]. apply delete_subseteq.
  - unfold prune_asset_policies. destruct (_ <=? _); [done|]. apply sealed_assets; [done|]. apply deletes_subseteq.
Qed.

Lemma default_sealed : sealed default.
Proof. split; [done|apply list_elem_of_here|cbn; lia|cbn; lia|apply map_Forall_empty]. Qed.

Lemma policy_run_sealed ops : sealed (policy_run ops).
Proof.
  unfold policy_run. generalize default_sealed. generalize default as p.
  induction ops as [|op ops IH]; intros p Hp; [done|].
  cbn. apply IH. by apply policy_step_sealed.
Qed.

Lemma entries_perm {A} (m : gmap AssetId A) : StorageDeal.entries m ≡ₚ map_to_list m.
Proof. apply merge_sort_Permutation. Qed.

Lemma validate_assets_ok p l : sealed p ->
  Forall (fun a => Pollen.is_zero (asset_id a) = false /\ required_algorithm a ∈ allowed_algorithms p) l -> validate_assets p l = Ok tt.
Proof.
  intros Hp Hl. induction Hl as [|a l [Hz Ha] Hl IH]; [done|]. cbn. unfold validate_asset_policy, is_algorithm_allowed.
  assert (Hn : required_algorithm a <> NoEncryption) by (intros E; rewrite E in Ha; by apply (none_not_allowed p)).
  by rewrite Hz, bool_decide_eq_false_2, bool_decide_eq_true_2.
Qed.

(** Whatever the governance calls, and although an update that fails keeps
    the fields it had written, every asset is encrypted with an allowed
    algorithm, keys have at least 128 bits and a positive rotation period; the
    policy passes its own static check exactly when the maximal data size,
    which an update may set to zero, is not zero. *)
Theorem policy_never_plaintext ops :
  (forall id, algorithm (asset_requirement (policy_run ops) id) <> NoEncryption /\
     is_algorithm_allowed (policy_run ops) (algorithm (asset_requirement (policy_run ops) id)) = true /\
     rotation_epochs (asset_requirement (policy_run ops) id) <> 0) /\
  128 <= min_key_length_bits (policy_run ops) /\
  (validate_static (policy_run ops) = Ok tt <-> max_encrypted_data_size (policy_run ops) <> 0).
Proof.
  pose proof (policy_run_sealed ops) as Hp. set (p := policy_run ops) in *. clearbody p.
  pose proof (none_not_allowed p Hp) as Hn. pose proof Hp as [A D K R M]. split; [|split; [done|]].
  - intros id.
    assert (Ha : algorithm (asset_requirement p id) ∈ allowed_algorithms p).
    { unfold asset_requirement. destruct (asset_policies p !! id) as [a|] eqn:E; [by apply M in E as (_ & _ & ?)|done]. }
    split; [intros E; by rewrite E in Ha|]. split.
    + unfold is_algorithm_allowed. rewrite bool_decide_eq_false_2 by (intros E; by rewrite E in Ha). by apply bool_decide_eq_true_2.
    + unfold asset_requirement. destruct (asset_policies p !! id) as [a|]; [|done]. cbn. destruct (0 <? _) eqn:E; [lia|done].
  - assert (Hv : validate_assets p (map snd (StorageDeal.entries (asset_policies p))) = Ok tt).
    { apply validate_assets_ok; [done|]. apply Forall_forall. intros a Ha. apply list_elem_of_fmap in Ha as ([i x] & -> & Ha).
      rewrite entries_perm in Ha. apply elem_of_map_to_list, M in Ha as (Hz & <- & Hi). by split. }
    assert (Hd : default_algorithm p <> NoEncryption) by (intros E; by rewrite E in D).
    unfold validate_static. rewrite (bool_decide_eq_false_2 _ Hd), (bool_decide_eq_true_2 _ D), (bool_decide_eq_false_2 _ Hn).
    rewrite bool_decide_eq_false_2 by (by rewrite A). cbn. rewrite Hv. rewrite (proj2 (Z.ltb_ge _ _) K), (proj2 (Z.eqb_neq _ _) R).
    cbn. destruct (max_encrypted_data_size p =? 0) eqn:E; cbn; split; intros; (done || lia).
Qed.

(** An update that fails on its rotation period has nevertheless changed the
    default algorithm, with the version and the epoch of the old policy. *)
Example failed_update_changes_policy :
  let u := mkUpdate (Some ChaCha20Poly1305) None None (Some 0) None in
  let '(p, res) := apply_dao_update default u 7 1 900000 in
  res = Err InvalidRotationPeriod /\ default_algorithm p = ChaCha20Poly1305 /\ version p = 1 /\ last_updated_epoch p = 0.
Proof. vm_compute. repeat split. Qed.

End PollenPolicy.
