(* ===== verification/BudState.v ===== *)
(** * The state of the BudZero node (budzero/bud-state/src/lib.rs, note.rs)

    Accounts under a sparse Merkle tree of 64 levels over their identifiers,
    with nested transactions, and the registry of privacy notes.  Keccak is a
    parameter.  The file a state is saved to is the field [disk]; whether a write
    succeeds is an argument of [commit].

    Theorems: the recursion over sorted leaves computes the root of the full
    binary tree; with a collision-free hash a proof is accepted for an
    identifier exactly with the hash its account has, or the zero hash if there
    is none; rolling back restores the accounts whatever happened in between;
    and a nullifier is spent at most once. *)

From Stdlib Require Import ZArith Lia.
From stdpp Require Import base tactics strings numbers gmap sorting list.
From S2P Require Import Prelude Hashing StorageDeal.
Import Hashing.
Open Scope Z_scope.

Module BudState.

Record Account : Type := mkAccount {
  nonce : Z;
  balance : Z;
  code_hash : Hash32;
  storage_root : Hash32;
}.

Section tree.
Context (keccak : bytes -> Hash32).

Definition hash_account (a : Account) : Hash32 :=
  keccak (u64_le (balance a) ++ u64_le (nonce a) ++ code_hash a ++ storage_root a).

Definition node (l r : Hash32) : Hash32 := keccak (l ++ r).

(** [EMPTY_HASHES] *)
Fixpoint get_empty_hash (depth : nat) : Hash32 :=
  match depth with
  | O => zero32
  | S d => let h := get_empty_hash d in node h h
  end.

(** [binary_search_by_key(..).unwrap_or_else(|idx| idx)] on leaves sorted by
    distinct keys: the number of keys below. *)
Fixpoint partition_idx (leaves : list (Z * Hash32)) (k : Z) : nat :=
  match leaves with
  | [] => O
  | l :: r => if l.1 <? k then S (partition_idx r k) else O
  end.

Fixpoint compute_subtree_root (depth : nat) (leaves : list (Z * Hash32)) (prefix : Z) : Hash32 :=
  match leaves with
  | [] => get_empty_hash depth
  | l :: _ =>
      match depth with
      | O => l.2
      | S d =>
          let bit_mask := Z.shiftl 1 (Z.of_nat d) in
          let i := partition_idx leaves (Z.lor prefix bit_mask) in
          node (compute_subtree_root d (take i leaves) prefix)
            (compute_subtree_root d (drop i leaves) (Z.lor prefix bit_mask))
      end
  end.

Fixpoint compute_subtree_proof (depth : nat) (leaves : list (Z * Hash32)) (prefix target_key : Z) : list Hash32 :=
  match depth with
  | O => []
  | S d =>
      let bit_mask := Z.shiftl 1 (Z.of_nat d) in
      let i := partition_idx leaves (Z.lor prefix bit_mask) in
      if negb (Z.land target_key bit_mask =? 0) then
        compute_subtree_root d (take i leaves) prefix ::
        compute_subtree_proof d (drop i leaves) (Z.lor prefix bit_mask) target_key
      else
        compute_subtree_root d (drop i leaves) (Z.lor prefix bit_mask) ::
        compute_subtree_proof d (take i leaves) prefix target_key
  end.

(** The loop of [verify_account_proof] over the depths from 0; [proof[63 - depth]]
    reads the proof from its end. *)
Fixpoint climb (depth : nat) (rproof : list Hash32) (id : Z) (current : Hash32) : Hash32 :=
  match rproof with
  | [] => current
  | sibling :: r =>
      climb (S depth) r id
        (if negb (Z.land id (Z.shiftl 1 (Z.of_nat depth)) =? 0) then node sibling current else node current sibling)
  end.

Definition verify_account_proof (root : Hash32) (id : Z) (account_hash : Hash32) (proof : list Hash32) : bool :=
  if negb (zlen proof =? 64) then false
  else bool_decide (climb 0 (rev proof) id account_hash = root).

(** ** The state *)

Record State : Type := mkState {
  accounts : gmap Z Account;
  backup_stack : list (gmap Z Account);
  disk : gmap Z Account;
}.

Definition load (d : gmap Z Account) : State := mkState d [] d.

#[local] Existing Instance StorageDeal.key_le_dec.
Definition leaves (s : State) : list (Z * Hash32) :=
  merge_sort StorageDeal.key_le (map_to_list (hash_account <$> accounts s)).

Definition root (s : State) : Hash32 := compute_subtree_root 64 (leaves s) 0.
Definition get_account_proof (s : State) (id : Z) : list Hash32 := compute_subtree_proof 64 (leaves s) 0 id.

Definition get_account (s : State) (id : Z) : option Account := accounts s !! id.
Definition set_account (s : State) (id : Z) (a : Account) : State :=
  mkState (<[id := a]> (accounts s)) (backup_stack s) (disk s).
Definition begin_transaction (s : State) : State := mkState (accounts s) (accounts s :: backup_stack s) (disk s).
(** [written] says whether the file was replaced. *)
Definition commit (written : bool) (s : State) : State * bool :=
  (mkState (accounts s) (tail (backup_stack s)) (if written then accounts s else disk s), written).
Definition rollback (s : State) : State :=
  match backup_stack s with
  | b :: r => mkState b r (disk s)
  | [] => s
  end.

End tree.

(** ** Privacy notes *)

Record PrivacyNote : Type := mkNote { commitment : Hash32; nullifier : Hash32 }.
Record NoteRegistry : Type := mkNotes { notes : gset Hash32; spent_nullifiers : gset Hash32 }.
Inductive NoteError : Type := CommitmentExists | NullifierSpent | CommitmentNotLive.

Definition notes_new : NoteRegistry := mkNotes ∅ ∅.
Definition insert (r : NoteRegistry) (n : PrivacyNote) : result NoteRegistry NoteError :=
  check? bool_decide (commitment n ∉ notes r) else CommitmentExists in
  check? bool_decide (nullifier n ∉ spent_nullifiers r) else NullifierSpent in
  Ok (mkNotes ({[commitment n]} ∪ notes r) (spent_nullifiers r)).
Definition spend (r : NoteRegistry) (nul com : Hash32) : result NoteRegistry NoteError :=
  check? bool_decide (nul ∉ spent_nullifiers r) else NullifierSpent in
  check? bool_decide (com ∈ notes r) else CommitmentNotLive in
  Ok (mkNotes (notes r ∖ {[com]}) ({[nul]} ∪ spent_nullifiers r)).
Definition is_spent (r : NoteRegistry) (nul : Hash32) : bool := bool_decide (nul ∈ spent_nullifiers r).
Definition contains (r : NoteRegistry) (com : Hash32) : bool := bool_decide (com ∈ notes r).

(** ** The full tree *)

Section facts.
Context (keccak : bytes -> Hash32).

(** The root of the perfect tree of the given depth whose leaf [k] is [f k]. *)
Fixpoint full (f : Z -> Hash32) (depth : nat) (prefix : Z) : Hash32 :=
  match depth with
  | O => f prefix
  | S d => node keccak (full f d prefix) (full f d (prefix + 2 ^ Z.of_nat d))
  end.

(** The siblings on the way down to [key]. *)
Fixpoint full_proof (f : Z -> Hash32) (depth : nat) (prefix key : Z) : list Hash32 :=
  match depth with
  | O => []
  | S d =>
      if Z.testbit key (Z.of_nat d) then full f d prefix :: full_proof f d (prefix + 2 ^ Z.of_nat d) key
      else full f d (prefix + 2 ^ Z.of_nat d) :: full_proof f d prefix key
  end.

(** Leaves with distinct increasing keys inside the subtree. *)
Record in_subtree (ls : list (Z * Hash32)) (depth : nat) (prefix : Z) : Prop := {
  is_sorted : StronglySorted (fun a b => a.1 < b.1) ls;
  is_range : Forall (fun l => prefix <= l.1 < prefix + 2 ^ Z.of_nat depth) ls;
}.

(** The prefix of a subtree has only its high bits. *)
Definition aligned (depth : nat) (prefix : Z) : Prop := exists q, 0 <= q /\ prefix = q * 2 ^ Z.of_nat depth.

Fixpoint leaf_of (ls : list (Z * Hash32)) (k : Z) : Hash32 :=
  match ls with
  | [] => zero32
  | l :: r => if l.1 =? k then l.2 else leaf_of r k
  end.

Lemma mask_pow d : Z.shiftl 1 (Z.of_nat d) = 2 ^ Z.of_nat d.
Proof. rewrite Z.shiftl_mul_pow2 by lia. lia. Qed.

Lemma land_mask k d : negb (Z.land k (Z.shiftl 1 (Z.of_nat d)) =? 0) = Z.testbit k (Z.of_nat d).
Proof.
  destruct (Z.testbit k (Z.of_nat d)) eqn:E.
  - apply negb_true_iff, Z.eqb_neq. intros H. apply (f_equal (fun x => Z.testbit x (Z.of_nat d))) in H.
    rewrite Z.land_spec, E, mask_pow, Z.pow2_bits_true, Z.bits_0 in H by lia. done.
  - apply negb_false_iff, Z.eqb_eq. apply Z.bits_inj_iff'. intros n Hn. rewrite Z.land_spec, mask_pow, Z.bits_0.
    destruct (decide (n = Z.of_nat d)) as [->|Hne]; [by rewrite E|]. rewrite Z.pow2_bits_false by lia. apply andb_false_r.
Qed.

Lemma lor_prefix d p : aligned (S d) p -> Z.lor p (Z.shiftl 1 (Z.of_nat d)) = p + 2 ^ Z.of_nat d.
Proof.
  intros (q & Hq & ->). rewrite mask_pow. rewrite Nat2Z.inj_succ, Z.pow_succ_r by lia.
  rewrite <- Z.add_lor_land, Z.add_comm.
  replace (Z.land (q * (2 * 2 ^ Z.of_nat d)) (2 ^ Z.of_nat d)) with 0; [lia|]. symmetry.
  apply Z.bits_inj_iff'. intros n Hn. rewrite Z.land_spec, Z.bits_0.
  destruct (decide (n = Z.of_nat d)) as [->|Hne]; [|rewrite Z.pow2_bits_false by lia; apply andb_false_r].
  replace (q * (2 * 2 ^ Z.of_nat d)) with (q * 2 * 2 ^ Z.of_nat d) by lia.
  rewrite Z.mul_pow2_bits by lia. rewrite Z.sub_diag. by rewrite Z.bit0_odd, Z.odd_mul, andb_false_r.
Qed.

Lemma aligned_left d p : aligned (S d) p -> aligned d p.
Proof. intros (q & Hq & ->). exists (2 * q). rewrite Nat2Z.inj_succ, Z.pow_succ_r by lia. split; lia. Qed.
Lemma aligned_right d p : aligned (S d) p -> aligned d (p + 2 ^ Z.of_nat d).
Proof. intros (q & Hq & ->). exists (2 * q + 1). rewrite Nat2Z.inj_succ, Z.pow_succ_r by lia. split; lia. Qed.

(** The split puts the smaller keys left. *)
Lemma partition_split ls k : StronglySorted (fun a b => a.1 < b.1) ls ->
  Forall (fun l => l.1 < k) (take (partition_idx ls k) ls) /\ Forall (fun l => k <= l.1) (drop (partition_idx ls k) ls).
Proof.
  induction 1 as [|l ls Hs IH Hl]; [by split|]. cbn. destruct (Z.ltb_spec l.1 k); cbn.
  - destruct IH. split; [by constructor|done].
  - split; [constructor|]. constructor; [done|]. eapply Forall_impl; [exact Hl|]. cbn. lia.
Qed.

Lemma sorted_take {A} (R : A -> A -> Prop) (l : list A) n : StronglySorted R l -> StronglySorted R (take n l).
Proof.
  intros H. revert n. induction H as [|x l Hl IH Hx]; intros [|n]; cbn; [constructor..|]. constructor; [done|].
  by apply Forall_take.
Qed.
Lemma sorted_drop {A} (R : A -> A -> Prop) (l : list A) n : StronglySorted R l -> StronglySorted R (drop n l).
Proof. intros H. revert n. induction H as [|x l Hl IH Hx]; intros [|n]; cbn; [constructor..|by constructor|done]. Qed.

Lemma subtree_split ls d p : in_subtree ls (S d) p ->
  in_subtree (take (partition_idx ls (p + 2 ^ Z.of_nat d)) ls) d p /\
  in_subtree (drop (partition_idx ls (p + 2 ^ Z.of_nat d)) ls) d (p + 2 ^ Z.of_nat d).
Proof.
  intros [Hs Hr]. destruct (partition_split ls (p + 2 ^ Z.of_nat d) Hs) as [Hl Hg].
  rewrite Nat2Z.inj_succ, Z.pow_succ_r in Hr by lia.
  split; split; [by apply sorted_take| |by apply sorted_drop|].
  - apply Forall_forall. intros x Hx. rewrite Forall_forall in Hl. specialize (Hl _ Hx).
    apply Forall_take with (n := partition_idx ls (p + 2 ^ Z.of_nat d)) in Hr. rewrite Forall_forall in Hr. specialize (Hr _ Hx). cbn in *. lia.
  - apply Forall_forall. intros x Hx. rewrite Forall_forall in Hg. specialize (Hg _ Hx).
    apply Forall_drop with (n := partition_idx ls (p + 2 ^ Z.of_nat d)) in Hr. rewrite Forall_forall in Hr. specialize (Hr _ Hx). cbn in *. lia.
Qed.


Lemma leaf_of_app a b k : leaf_of (a ++ b) k = if bool_decide (k ∈ map fst a) then leaf_of a k else leaf_of b k.
Proof.
  induction a as [|l a IH]; [done|]. cbn. destruct (Z.eqb_spec l.1 k) as [->|Hne].
  - rewrite bool_decide_eq_true_2; [done|]. apply list_elem_of_here.
  - rewrite IH. destruct (decide (k ∈ map fst a)) as [Hi|Hi].
    + rewrite !bool_decide_eq_true_2; [done|by apply list_elem_of_further|done].
    + rewrite !bool_decide_eq_false_2; [done|intros H; apply elem_of_cons in H as [?|?]; congruence|done].
Qed.

Lemma leaf_of_absent a k : k ∉ map fst a -> leaf_of a k = zero32.
Proof.
  induction a as [|l a IH]; intros H; [done|]. cbn in *. apply not_elem_of_cons in H as [H1 H2].
  destruct (Z.eqb_spec l.1 k); [congruence|]. by apply IH.
Qed.

(** Each half of a split subtree has the leaves of its range. *)
Lemma leaf_of_split ls mid k : StronglySorted (fun a b => a.1 < b.1) ls ->
  (k < mid -> leaf_of (take (partition_idx ls mid) ls) k = leaf_of ls k) /\
  (mid <= k -> leaf_of (drop (partition_idx ls mid) ls) k = leaf_of ls k).
Proof.
  intros Hs. destruct (partition_split ls mid Hs) as [Hl Hg]. set (i := partition_idx ls mid) in *.
  rewrite <- (take_drop i ls) at 2 4. rewrite leaf_of_app. rewrite Forall_forall in Hl, Hg. split; intros Hk.
  - destruct (decide (k ∈ map fst (take i ls))) as [Hi|Hi]; [by rewrite bool_decide_eq_true_2|].
    rewrite bool_decide_eq_false_2, !leaf_of_absent; [done|..|done]; [|done].
    intros Hin. apply list_elem_of_fmap in Hin as (l & -> & Hin). specialize (Hg _ Hin). cbn in *. lia.
  - rewrite bool_decide_eq_false_2; [done|]. intros Hin. apply list_elem_of_fmap in Hin as (l & -> & Hin).
    specialize (Hl _ Hin). cbn in *. lia.
Qed.

Lemma full_ext f g d p : (forall k, p <= k < p + 2 ^ Z.of_nat d -> f k = g k) -> full f d p = full g d p.
Proof.
  revert p. induction d as [|d IH]; intros p H; [apply H; cbn; lia|]. cbn.
  rewrite Nat2Z.inj_succ, Z.pow_succ_r in H by lia. f_equal; apply IH; intros k Hk; apply H; lia.
Qed.

Lemma full_empty d p : full (fun _ => zero32) d p = get_empty_hash keccak d.
Proof. revert p. induction d as [|d IH]; intros p; [done|]. cbn. by rewrite !IH. Qed.

Lemma compute_root_full ls d p : in_subtree ls d p -> aligned d p ->
  compute_subtree_root keccak d ls p = full (leaf_of ls) d p.
Proof.
  revert ls p. induction d as [|d IH]; intros ls p Hi Ha.
  - destruct ls as [|l ls]; [done|]. destruct Hi as [_ Hr]. apply Forall_cons in Hr as [Hr _]. cbn in *.
    destruct (Z.eqb_spec l.1 p); [done|lia].
  - destruct ls as [|l ls]; [cbn [compute_subtree_root]; rewrite <- (full_empty (S d) p); by apply full_ext|].
    cbn [compute_subtree_root]. rewrite (lor_prefix d p Ha). destruct (subtree_split _ _ _ Hi) as [H1 H2].
    rewrite (IH _ p H1 (aligned_left _ _ Ha)), (IH _ _ H2 (aligned_right _ _ Ha)). cbn [full].
    destruct Hi as [Hs _]. f_equal; apply full_ext; intros k Hk; apply (leaf_of_split _ _ k Hs); lia.
Qed.

Lemma full_proof_ext f g d p key : (forall k, p <= k < p + 2 ^ Z.of_nat d -> f k = g k) -> full_proof f d p key = full_proof g d p key.
Proof.
  revert p. induction d as [|d IH]; intros p H; [done|]. cbn. rewrite Nat2Z.inj_succ, Z.pow_succ_r in H by lia.
  destruct (Z.testbit key (Z.of_nat d)); (f_equal; [apply full_ext|apply IH]; intros k Hk; apply H; lia).
Qed.

Lemma compute_proof_full ls d p key : in_subtree ls d p -> aligned d p ->
  compute_subtree_proof keccak d ls p key = full_proof (leaf_of ls) d p key.
Proof.
  revert ls p. induction d as [|d IH]; intros ls p Hi Ha; [done|].
  cbn [compute_subtree_proof full_proof]. rewrite land_mask, (lor_prefix d p Ha). destruct (subtree_split _ _ _ Hi) as [H1 H2].
  pose proof (is_sorted _ _ _ Hi) as Hs.
  destruct (Z.testbit key (Z.of_nat d)); (f_equal; [rewrite compute_root_full by eauto using aligned_left, aligned_right;
      apply full_ext|rewrite IH by eauto using aligned_left, aligned_right; apply full_proof_ext];
      intros k Hk; apply (leaf_of_split _ _ k Hs); lia).
Qed.

Lemma length_full_proof f d p key : length (full_proof f d p key) = d.
Proof. revert p. induction d as [|d IH]; intros p; [done|]. cbn. destruct (Z.testbit _ _); cbn; by rewrite IH. Qed.

Lemma climb_app n a s id cur : climb keccak n (a ++ [s]) id cur =
  (if Z.testbit id (Z.of_nat (n + length a)) then node keccak s (climb keccak n a id cur) else node keccak (climb keccak n a id cur) s).
Proof.
  revert n cur. induction a as [|x a IH]; intros n cur; cbn [app climb length].
  - by rewrite land_mask, Nat.add_0_r.
  - rewrite IH. by replace (n + S (length a))%nat with (S n + length a)%nat by lia.
Qed.

(** Bit [d] of a key in a subtree says in which half it lies. *)
Lemma bit_half d p key : aligned (S d) p -> p <= key < p + 2 ^ Z.of_nat (S d) ->
  Z.testbit key (Z.of_nat d) = (p + 2 ^ Z.of_nat d <=? key).
Proof.
  intros (q & Hq & ->) Hk. rewrite Nat2Z.inj_succ, Z.pow_succ_r in * by lia. set (m := 2 ^ Z.of_nat d) in *.
  assert (Hm : 0 < m) by (apply Z.pow_pos_nonneg; lia).
  destruct (Z.leb_spec (q * (2 * m) + m) key).
  - apply Z.testbit_true; [lia|]. fold m. replace (key / m) with (1 + q * 2); [rewrite Z.mod_add by lia; done|].
    apply (Z.div_unique key m (1 + q * 2) (key - m * (1 + q * 2))); lia.
  - apply Z.testbit_false; [lia|]. fold m. replace (key / m) with (0 + q * 2); [rewrite Z.mod_add by lia; done|].
    apply (Z.div_unique key m (0 + q * 2) (key - m * (0 + q * 2))); lia.
Qed.

Lemma climb_full f d p key : aligned d p -> p <= key < p + 2 ^ Z.of_nat d ->
  climb keccak 0 (rev (full_proof f d p key)) key (f key) = full f d p.
Proof.
  revert p. induction d as [|d IH]; intros p Ha Hk; [cbn in *; f_equal; lia|]. cbn [full_proof full].
  pose proof (bit_half d p key Ha Hk) as Hb. rewrite Nat2Z.inj_succ, Z.pow_succ_r in Hk by lia.
  destruct (Z.testbit key (Z.of_nat d)) eqn:E; cbn [rev]; rewrite climb_app, length_rev, length_full_proof; cbn [Nat.add]; rewrite E;
    f_equal; apply IH; try solve [eauto using aligned_left, aligned_right]; lia.
Qed.

(** ** Soundness, up to collisions *)

Definition collision : Prop := exists x y, x <> y /\ keccak x = keccak y.

Hypothesis keccak_length : forall b, length (keccak b) = 32%nat.

Lemma node_split a b c d : length a = 32%nat -> length c = 32%nat -> node keccak a b = node keccak c d -> (a = c /\ b = d) \/ collision.
Proof.
  intros Ha Hc E. destruct (decide (a ++ b = c ++ d)) as [Eq|Hne]; [left|right; by exists (a ++ b), (c ++ d)].
  by apply app_inj_1 in Eq; [|congruence].
Qed.

Lemma full_length f d p : (forall k, length (f k) = 32%nat) -> length (full f d p) = 32%nat.
Proof. intros Hf. destruct d; [apply Hf|apply keccak_length]. Qed.

Lemma climb_length proof n id h : length h = 32%nat -> length (climb keccak n proof id h) = 32%nat.
Proof.
  revert n h. induction proof as [|s proof IH]; intros n h Hh; [done|]. cbn. apply IH.
  destruct (negb _); apply keccak_length.
Qed.

Lemma account_climb_sound f d p key h proof : (forall k, length (f k) = 32%nat) -> aligned d p -> p <= key < p + 2 ^ Z.of_nat d ->
  length proof = d -> length h = 32%nat -> Forall (fun x => length x = 32%nat) proof ->
  climb keccak 0 (rev proof) key h = full f d p -> h = f key \/ collision.
Proof.
  intros Hf. revert p proof. induction d as [|d IH]; intros p proof Ha Hk Hl Hh Hp E.
  - destruct proof; [|done]. cbn in *. left. rewrite E. f_equal. lia.
  - destruct proof as [|s proof]; [done|]. apply Forall_cons in Hp as [Hs Hp]. cbn [length] in Hl.
    cbn [rev full] in E. rewrite climb_app, length_rev in E. cbn [Nat.add] in E.
    replace (length proof) with d in E by lia. rewrite (bit_half d p key Ha Hk) in E.
    rewrite Nat2Z.inj_succ, Z.pow_succ_r in Hk by lia. destruct (Z.leb_spec (p + 2 ^ Z.of_nat d) key).
    + apply node_split in E as [[_ E]|?]; [|by right|done|by apply full_length].
      apply (IH (p + 2 ^ Z.of_nat d) proof); [by apply aligned_right|lia|lia|done|done|exact E].
    + apply node_split in E as [[E _]|?]; [|by right|by apply climb_length|by apply full_length].
      apply (IH p proof); [by apply aligned_left|lia|lia|done|done|exact E].
Qed.

(** ** The leaves of a state *)

Definition leaf (s : State) (id : Z) : Hash32 :=
  match get_account s id with Some a => hash_account keccak a | None => zero32 end.

#[local] Existing Instance StorageDeal.key_le_dec.
Lemma sorted_strict {A} (l : list (Z * A)) : StronglySorted StorageDeal.key_le l -> NoDup l.*1 -> StronglySorted (fun a b => a.1 < b.1) l.
Proof.
  induction 1 as [|x l Hs IH Hx]; intros Hn; [constructor|]. cbn in Hn. apply NoDup_cons in Hn as [Hx' Hn].
  constructor; [by apply IH|]. rewrite Forall_forall in Hx |- *. intros y Hy. specialize (Hx _ Hy). unfold StorageDeal.key_le in Hx.
  assert (x.1 <> y.1) by (intros E; apply Hx'; rewrite E; by apply list_elem_of_fmap_2). lia.
Qed.

Lemma leaves_perm s : leaves keccak s ≡ₚ map_to_list (hash_account keccak <$> accounts s).
Proof. apply merge_sort_Permutation. Qed.

Lemma leaves_nodup s : NoDup (leaves keccak s).*1.
Proof. rewrite leaves_perm. apply NoDup_fst_map_to_list. Qed.

Lemma leaf_of_lookup (l : list (Z * Hash32)) k h : NoDup l.*1 -> (k, h) ∈ l -> leaf_of l k = h.
Proof.
  induction l as [|x l IH]; intros Hn Hin; [by apply elem_of_nil in Hin|]. cbn in *. apply NoDup_cons in Hn as [Hx Hn].
  apply elem_of_cons in Hin as [<-|Hin]; [cbn; by rewrite Z.eqb_refl|].
  destruct (Z.eqb_spec x.1 k) as [<-|]; [|by apply IH]. exfalso. apply Hx. apply (list_elem_of_fmap_2 fst) in Hin. exact Hin.
Qed.

Lemma leaf_of_leaves s k : leaf_of (leaves keccak s) k = leaf s k.
Proof.
  unfold leaf, get_account. destruct (accounts s !! k) as [a|] eqn:E.
  - apply leaf_of_lookup; [apply leaves_nodup|]. rewrite leaves_perm. apply elem_of_map_to_list. by rewrite lookup_fmap, E.
  - apply leaf_of_absent. intros Hin. apply list_elem_of_fmap in Hin as ([k' h] & -> & Hin). rewrite leaves_perm in Hin.
    apply elem_of_map_to_list in Hin. rewrite lookup_fmap in Hin. cbn in *. by rewrite E in Hin.
Qed.

(** Identifiers are 64-bit. *)
Definition ids_ok (s : State) : Prop := map_Forall (fun k _ => k ∈u U64) (accounts s).

Lemma leaves_subtree s : ids_ok s -> in_subtree (leaves keccak s) 64 0.
Proof.
  intros Hk. split.
  - apply sorted_strict; [|apply leaves_nodup]. apply StronglySorted_merge_sort; unfold StorageDeal.key_le; [intros ???; lia|intros ??; lia].
  - apply Forall_forall. intros [k h] Hin. rewrite leaves_perm in Hin. apply elem_of_map_to_list in Hin.
    rewrite lookup_fmap in Hin. destruct (accounts s !! k) as [a|] eqn:E; [|done]. specialize (Hk _ _ E). cbn in *. lia.
Qed.

Lemma levels : 2 ^ Z.of_nat 64 = U64.
Proof. reflexivity. Qed.

Lemma aligned_root : aligned 64 0.
Proof. exists 0. split; [lia|done]. Qed.

Lemma root_full s : ids_ok s -> root keccak s = full (leaf s) 64 0.
Proof.
  intros Hk. unfold root. rewrite compute_root_full by (apply leaves_subtree || apply aligned_root; done).
  apply full_ext. intros k _. apply leaf_of_leaves.
Qed.

Lemma leaf_length s k : length (leaf s k) = 32%nat.
Proof. unfold leaf. destruct (get_account s k); [apply keccak_length|done]. Qed.

(** C5: the state root commits to every account.  For each 64-bit identifier
    the proof the state makes verifies with the hash of its account, or with the
    zero hash when there is none; and a proof that verifies against the root for
    that identifier, whoever made it, is for that very hash, or it exhibits two
    inputs on which Keccak collides. *)
Theorem account_proofs_exact s id : ids_ok s -> id ∈u U64 ->
  verify_account_proof keccak (root keccak s) id (leaf s id) (get_account_proof keccak s id) = true /\
  (forall h proof, length h = 32%nat -> Forall (fun x => length x = 32%nat) proof ->
     verify_account_proof keccak (root keccak s) id h proof = true -> h = leaf s id \/ collision).
Proof.
  intros Hk Hid. unfold verify_account_proof. split.
  - unfold get_account_proof. rewrite compute_proof_full by (apply leaves_subtree || apply aligned_root; done).
    unfold zlen. rewrite length_full_proof. cbn [negb Z.eqb]. apply bool_decide_eq_true_2.
    rewrite (root_full s Hk), (full_proof_ext _ (leaf s)) by (intros k _; apply leaf_of_leaves).
    apply climb_full; [apply aligned_root|]. rewrite levels. lia.
  - intros h proof Hh Hp E. destruct (Z.eqb_spec (zlen proof) 64) as [Hl|]; [|done]. cbn [negb] in E. apply bool_decide_eq_true_1 in E.
    rewrite (root_full s Hk) in E. assert (R : 0 <= id < 0 + 2 ^ Z.of_nat 64) by (rewrite levels; lia).
    assert (L : length proof = 64%nat) by (unfold zlen in Hl; lia).
    exact (account_climb_sound (leaf s) 64 0 id h proof (leaf_length s) aligned_root R L Hh Hp E).
Qed.
End facts.

(** ** Transactions *)

Inductive TxOp : Type :=
| TSet (id : Z) (a : Account)
| TBegin
| TCommit (written : bool)
| TRollback.

Definition tstep (s : State) (op : TxOp) : State :=
  match op with
  | TSet i a => set_account s i a
  | TBegin => begin_transaction s
  | TCommit w => (commit w s).1
  | TRollback => rollback s
  end.
Definition trun (s : State) (ops : list TxOp) : State := fold_left tstep ops s.

(** Every transaction opened is closed, by a commit or a rollback. *)
Inductive balanced : list TxOp -> Prop :=
| bal_nil : balanced []
| bal_set i a ops : balanced ops -> balanced (TSet i a :: ops)
| bal_commit inner w ops : balanced inner -> balanced ops -> balanced (TBegin :: inner ++ TCommit w :: ops)
| bal_rollback inner ops : balanced inner -> balanced ops -> balanced (TBegin :: inner ++ TRollback :: ops).

Lemma balanced_stack ops : balanced ops -> forall s, backup_stack (trun s ops) = backup_stack s.
Proof.
  unfold trun. induction 1 as [|i a ops _ IH|inner w ops _ IHi _ IH|inner ops _ IHi _ IH]; intros s; cbn [fold_left]; [done|by rewrite IH|..];
    rewrite fold_left_app; cbn [fold_left]; rewrite IH; cbn [tstep commit fst backup_stack].
  - by rewrite IHi.
  - unfold rollback. by rewrite IHi.
Qed.

(** Rolling back a transaction restores the accounts and the outer
    transactions, whatever was written and whatever nested transactions were
    committed or rolled back in between. *)
Lemma rollback_restores s ops : balanced ops ->
  accounts (rollback (trun (begin_transaction s) ops)) = accounts s /\
  backup_stack (rollback (trun (begin_transaction s) ops)) = backup_stack s.
Proof. intros H. unfold rollback. by rewrite (balanced_stack ops H). Qed.

(** The disk does not follow: the commit of a nested transaction writes what
    the outer one, still open, later takes back. *)
Example nested_commit_persists :
  let a := mkAccount 0 7 zero32 zero32 in
  let s := trun (load ∅) [TBegin; TSet 1 a; TBegin; TCommit true; TRollback] in
  accounts s = ∅ /\ disk s = {[1 := a]}.
Proof. vm_compute. split; reflexivity. Qed.

(** ** Notes *)

Inductive NoteOp : Type := NInsert (n : PrivacyNote) | NSpend (nul com : Hash32).
Definition nstep (r : NoteRegistry) (op : NoteOp) : NoteRegistry :=
  match op with
  | NInsert n => match insert r n with Ok r' => r' | Err _ => r end
  | NSpend n c => match spend r n c with Ok r' => r' | Err _ => r end
  end.

Lemma nstep_spent r op : spent_nullifiers r ⊆ spent_nullifiers (nstep r op).
Proof.
  destruct op as [n|nul com]; cbn.
  - unfold insert. destruct (bool_decide (commitment n ∉ notes r)); [|done]. cbn. by destruct (bool_decide _).
  - unfold spend. destruct (bool_decide (nul ∉ spent_nullifiers r)); [|done]. cbn. destruct (bool_decide _); [|done]. cbn. set_solver.
Qed.

(** A nullifier is spent at most once, whatever is called afterwards. *)
Lemma no_double_spend r r' nul com : spend r nul com = Ok r' -> forall ops com',
  spend (fold_left nstep ops r') nul com' = Err NullifierSpent.
Proof.
  intros E ops. assert (Hin : nul ∈ spent_nullifiers r') by (unfold spend in E; inv_ok E; set_solver).
  clear E. revert r' Hin. induction ops as [|op ops IH]; intros r' Hin com'; cbn.
  - unfold spend. rewrite bool_decide_eq_false_2 by set_solver. done.
  - apply IH. pose proof (nstep_spent r' op). set_solver.
Qed.

(** ** A state, evaluated *)

Module Demo.

Definition digest (b : bytes) : Hash32 :=
  fold_left (fun a x => (a * 257 + x + 1) mod (2 ^ 61 - 1)) b 0 :: replicate 31 0.
Lemma account_digest_length b : length (digest b) = 32%nat.
Proof. reflexivity. Qed.

Definition alice : Account := mkAccount 3 500 zero32 zero32.
Definition bob : Account := mkAccount 0 7 zero32 zero32.
Definition state : State := set_account (set_account (load ∅) 5 alice) (2 ^ 63 + 1) bob.

Lemma state_ids : ids_ok state.
Proof.
  apply map_Forall_insert_2; [vm_compute; split; [discriminate|reflexivity]|].
  apply map_Forall_insert_2; [split; [discriminate|reflexivity]|apply map_Forall_empty].
Qed.
Lemma id_ok : 5 ∈u U64.
Proof. split; [discriminate|reflexivity]. Qed.

(** A subtree of four levels: the path made for a key climbs to its root, and
    not from another leaf. *)
Definition few : list (Z * Hash32) := [(5, hash_account digest alice); (9, hash_account digest bob)].
Example demo_proof :
  let path := rev (compute_subtree_proof digest 4 few 0 5) in
  bool_decide (climb digest 0 path 5 (hash_account digest alice) = compute_subtree_root digest 4 few 0) = true /\
  bool_decide (climb digest 0 path 5 (hash_account digest bob) = compute_subtree_root digest 4 few 0) = false.
Proof. vm_compute. split; reflexivity. Qed.

Lemma account_proofs_exact_witness :
  verify_account_proof digest (root digest state) 5 (leaf digest state 5) (get_account_proof digest state 5) = true /\
  (forall h proof, length h = 32%nat -> Forall (fun x => length x = 32%nat) proof ->
     verify_account_proof digest (root digest state) 5 h proof = true -> h = leaf digest state 5 \/ collision digest).
Proof. exact (account_proofs_exact digest account_digest_length state 5 state_ids id_ok). Defined.

End Demo.
End BudState.
