(* ===== verification/Relayer.v ===== *)
(** * The relayer policy registry (src/relayer/policy.rs)

    Users publish intents under a policy, solvers bid for them, and one bid is
    settled.  Sha-256 is a parameter; so are the external chains and their
    printed names, whose module is not in the tree. *)

From Stdlib Require Import ZArith Lia.
From stdpp Require Import base tactics strings numbers gmap sorting list.
From S2P Require Import Prelude Hashing StorageDeal Pollen.
Import Hashing.
Open Scope Z_scope.

Module Relayer.

Definition MAX_RELAYER_INTENTS : Z := 10000.
Definition MAX_RELAYER_BIDS_PER_INTENT : Z := 64.
Definition MAX_RELAYER_SETTLEMENTS : Z := 10000.

Inductive RelayerError : Type :=
| BadLength
| Whitespace
| ZeroField
| BadLabel
| OwnerMismatch
| Expired
| ZeroAmount
| TooManyDomains
| IdMismatch
| PolicyMismatch
| OverCap
| DomainNotAllowed
| BadQuote
| IntentExists
| LimitExceeded
| IntentNotFound
| AlreadySettled
| DuplicateBid
| BidNotFound
| BadFee.

Inductive IntentSettlementStatus : Type := Pending | Executed | StatusExpired | Slashed.

Section relayer.
Context {ExternalChain : Type} (chain_name : ExternalChain -> bytes) (sha256 : bytes -> Hash32).

Inductive RelayerActionKind : Type :=
| ExternalTransaction (chain : ExternalChain) (target_address : bytes) (payload_hash : Hash32)
| DwebResolve (name : bytes)
| PollenRead (asset_id grant_id : Hash32).

(** [is_ascii_whitespace] *)
Definition is_whitespace (b : Z) : bool := (b =? 32) || (b =? 9) || (b =? 10) || (b =? 12) || (b =? 13).

(** [contains("..")] *)
Fixpoint has_double_dot (s : bytes) : bool :=
  match s with
  | a :: ((b :: _) as r) => ((a =? 46) && (b =? 46)) || has_double_dot r
  | _ => false
  end.

Definition validate_action (a : RelayerActionKind) : result unit RelayerError :=
  match a with
  | ExternalTransaction _ target payload =>
      check? negb (bool_decide (target = []) || (256 <? zlen target)) else BadLength in
      check? negb (existsb is_whitespace target) else Whitespace in
      check? negb (Pollen.is_zero payload) else ZeroField in
      Ok tt
  | DwebResolve name =>
      check? negb (bool_decide (name = []) || (253 <? zlen name)) else BadLength in
      check? negb (has_double_dot name || existsb (fun b => b =? 47) name || existsb (fun b => b =? 0) name) else BadLabel in
      Ok tt
  | PollenRead a g =>
      check? negb (Pollen.is_zero a || Pollen.is_zero g) else ZeroField in Ok tt
  end.

Record PolicyEnvelope : Type := mkEnvelope {
  p_owner : Address;
  session_key : option Address;
  spending_cap : Z;
  allowed_domains : list Z;
  requires_multisig : bool;
  requires_hsm : bool;
  p_expires_at_block : Z;
}.

Definition validate_for_owner (p : PolicyEnvelope) (owner : Address) (current_block : Z) : result unit RelayerError :=
  check? negb (Pollen.is_zero (p_owner p)) else ZeroField in
  check? bool_decide (p_owner p = owner) else OwnerMismatch in
  check? match session_key p with Some k => negb (Pollen.is_zero k) | None => true end else ZeroField in
  check? negb (p_expires_at_block p <=? current_block) else Expired in
  check? negb (spending_cap p =? 0) else ZeroAmount in
  check? negb (64 <? zlen (allowed_domains p)) else TooManyDomains in
  check? negb (bool_decide (0 ∈ allowed_domains p)) else ZeroField in
  Ok tt.

Definition policy_hash_of (p : PolicyEnvelope) : Hash32 :=
  sha256 (ascii_bytes "BDLM_RELAYER_POLICY_ENVELOPE_V1" ++ p_owner p ++
          match session_key p with Some k => 1 :: k | None => [0] end ++
          u64_le (spending_cap p) ++ concat (map u32_le (allowed_domains p)) ++
          [Z.b2z (requires_multisig p); Z.b2z (requires_hsm p)] ++ u64_le (p_expires_at_block p)).

Record UserIntent : Type := mkIntent {
  intent_id : Hash32;
  owner : Address;
  source_domain : Z;
  target_domain : Z;
  action : RelayerActionKind;
  max_fee : Z;
  deadline_block : Z;
  replay_nonce : Z;
  policy_hash : Hash32;
}.

Definition encode_action (a : RelayerActionKind) : bytes :=
  match a with
  | ExternalTransaction c target payload => 0 :: chain_name c ++ u64_le (zlen target) ++ target ++ payload
  | DwebResolve name => 1 :: u64_le (zlen name) ++ name
  | PollenRead a g => 2 :: a ++ g
  end.

Definition calculate_id (i : UserIntent) : Hash32 :=
  sha256 (ascii_bytes "BDLM_RELAYER_USER_INTENT_V1" ++ owner i ++ u32_le (source_domain i) ++ u32_le (target_domain i) ++
          encode_action (action i) ++ u64_le (max_fee i) ++ u64_le (deadline_block i) ++ u64_le (replay_nonce i) ++ policy_hash i).

Definition intent_new (o : Address) (s t : Z) (a : RelayerActionKind) (fee deadline nonce : Z) (ph : Hash32) : UserIntent :=
  let i := mkIntent zero32 o s t a fee deadline nonce ph in
  mkIntent (calculate_id i) o s t a fee deadline nonce ph.

Definition verify_id (i : UserIntent) : bool := bool_decide (intent_id i = calculate_id i).

Definition validate_intent (i : UserIntent) (p : PolicyEnvelope) (current_block : Z) : result unit RelayerError :=
  check? verify_id i else IdMismatch in
  check? negb (Pollen.is_zero (owner i)) else ZeroField in
  check? negb ((source_domain i =? 0) || (target_domain i =? 0)) else ZeroField in
  let? _ := validate_action (action i) in
  let? _ := validate_for_owner p (owner i) current_block in
  check? negb (Pollen.is_zero (policy_hash i) || negb (bool_decide (policy_hash i = policy_hash_of p))) else PolicyMismatch in
  check? negb (deadline_block i <=? current_block) else Expired in
  check? negb (max_fee i =? 0) else ZeroAmount in
  check? negb (spending_cap p <? max_fee i) else OverCap in
  check? negb (negb (bool_decide (allowed_domains p = [])) &&
      (negb (bool_decide (source_domain i ∈ allowed_domains p)) || negb (bool_decide (target_domain i ∈ allowed_domains p))))
    else DomainNotAllowed in
  Ok tt.

Record SolverBid : Type := mkBid {
  b_intent_id : Hash32;
  relayer : Address;
  quoted_fee : Z;
  proof_commitment : Hash32;
  bond : Z;
  b_expires_at_block : Z;
}.

Definition validate_for_intent (b : SolverBid) (i : UserIntent) (current_block : Z) : result unit RelayerError :=
  check? bool_decide (b_intent_id b = intent_id i) else IdMismatch in
  check? negb (Pollen.is_zero (relayer b)) else ZeroField in
  check? negb ((quoted_fee b =? 0) || (max_fee i <? quoted_fee b)) else BadQuote in
  check? negb (Pollen.is_zero (proof_commitment b)) else ZeroField in
  check? negb (bond b =? 0) else ZeroAmount in
  check? negb (b_expires_at_block b <=? current_block) else Expired in
  Ok tt.

Record IntentSettlement : Type := mkSettlement {
  s_intent_id : Hash32;
  s_relayer : Address;
  paid_fee : Z;
  settled_at_block : Z;
  s_status : IntentSettlementStatus;
}.

Record RelayerPolicyRegistry : Type := mkRegistry {
  intents : gmap Hash32 UserIntent;
  bids : gmap Hash32 (list SolverBid);
  settlements : gmap Hash32 IntentSettlement;
}.

Definition new : RelayerPolicyRegistry := mkRegistry ∅ ∅ ∅.

Definition prune_expired (r : RelayerPolicyRegistry) (current_block : Z) : RelayerPolicyRegistry * Z :=
  let expired := filter (fun kv => deadline_block kv.2 <= current_block) (intents r) in
  (mkRegistry (filter (fun kv => current_block < deadline_block kv.2) (intents r)) (bids r ∖ (const [] <$> expired)) (settlements r),
   Z.of_nat (size expired)).

Definition prune_settlements (r : RelayerPolicyRegistry) (max_settlements : Z) : RelayerPolicyRegistry * Z :=
  let n := Z.of_nat (size (settlements r)) in
  if n <=? max_settlements then (r, 0)
  else
    let keys := take (Z.to_nat (n - max_settlements)) (map fst (StorageDeal.entries (settlements r))) in
    (mkRegistry (intents r) (bids r) (foldl (fun m k => delete k m) (settlements r) keys), zlen keys).

(** The expired intents are pruned before the last checks, also when these fail. *)
Definition submit_intent (r : RelayerPolicyRegistry) (i : UserIntent) (p : PolicyEnvelope) (current_block : Z)
  : RelayerPolicyRegistry * result Hash32 RelayerError :=
  match validate_intent i p current_block with
  | Err e => (r, Err e)
  | Ok _ =>
      let r1 := (prune_expired r current_block).1 in
      if bool_decide (is_Some (intents r1 !! intent_id i)) then (r1, Err IntentExists)
      else if MAX_RELAYER_INTENTS <=? Z.of_nat (size (intents r1)) then (r1, Err LimitExceeded)
      else (mkRegistry (<[intent_id i := i]> (intents r1)) (bids r1) (settlements r1), Ok (intent_id i))
  end.

(** The list of bids is created when it is first looked at. *)
Definition submit_bid (r : RelayerPolicyRegistry) (b : SolverBid) (current_block : Z)
  : RelayerPolicyRegistry * result unit RelayerError :=
  let checks :=
    let? i := ok_or (intents r !! b_intent_id b) IntentNotFound in
    check? bool_decide (settlements r !! b_intent_id b = None) else AlreadySettled in
    check? negb (deadline_block i <=? current_block) else Expired in
    validate_for_intent b i current_block in
  match checks with
  | Err e => (r, Err e)
  | Ok _ =>
      let l := default [] (bids r !! b_intent_id b) in
      let touched := mkRegistry (intents r) (<[b_intent_id b := l]> (bids r)) (settlements r) in
      if MAX_RELAYER_BIDS_PER_INTENT <=? zlen l then (touched, Err LimitExceeded)
      else if bool_decide (relayer b ∈ map relayer l) then (touched, Err DuplicateBid)
      else (mkRegistry (intents r) (<[b_intent_id b := l ++ [b]]> (bids r)) (settlements r), Ok tt)
  end.

(** The order of [best_bid]: the lower fee, then the higher bond, then the
    smaller address. *)
Definition bid_cmp (a b : SolverBid) : comparison :=
  match quoted_fee a ?= quoted_fee b with
  | Eq => match bond b ?= bond a with
          | Eq => if bool_decide (relayer a = relayer b) then Eq else if bytes_leb (relayer a) (relayer b) then Lt else Gt
          | c => c
          end
  | c => c
  end.
(** [min_by]: the first of the least. *)
Definition best_bid (r : RelayerPolicyRegistry) (id : Hash32) : option SolverBid :=
  l ← bids r !! id;
  foldl (fun best x => match best with
                       | Some y => if bool_decide (bid_cmp x y = Lt) then Some x else Some y
                       | None => Some x
                       end) None l.

Definition settle_intent (r : RelayerPolicyRegistry) (id : Hash32) (rel : Address) (fee current_block : Z)
  : result (RelayerPolicyRegistry * IntentSettlement) RelayerError :=
  let? i := ok_or (intents r !! id) IntentNotFound in
  check? bool_decide (settlements r !! id = None) else AlreadySettled in
  check? negb (deadline_block i <=? current_block) else Expired in
  let? b := ok_or (snd <$> list_find (fun b => relayer b = rel) (default [] (bids r !! id))) BidNotFound in
  check? negb (b_expires_at_block b <=? current_block) else Expired in
  check? negb ((fee =? 0) || (quoted_fee b <? fee)) else BadFee in
  let r1 := if MAX_RELAYER_SETTLEMENTS <=? Z.of_nat (size (settlements r))
            then (prune_settlements r (MAX_RELAYER_SETTLEMENTS - 1)).1 else r in
  let s := mkSettlement id rel fee current_block Executed in
  Ok (mkRegistry (intents r1) (bids r1) (<[id := s]> (settlements r1)), s).

Definition status_byte (s : IntentSettlementStatus) : Z :=
  match s with Pending => 1 | Executed => 2 | StatusExpired => 3 | Slashed => 4 end.

Definition root (r : RelayerPolicyRegistry) : Hash32 :=
  sha256 (ascii_bytes "BDLM_RELAYER_POLICY_REGISTRY_V1" ++
    concat (map (fun e : Hash32 * UserIntent => ascii_bytes "intent" ++ e.1 ++ calculate_id e.2) (StorageDeal.entries (intents r))) ++
    concat (map (fun e : Hash32 * list SolverBid => ascii_bytes "bids" ++ e.1 ++
      concat (map (fun b => b_intent_id b ++ relayer b ++ u64_le (quoted_fee b) ++ proof_commitment b ++ u64_le (bond b) ++
                            u64_le (b_expires_at_block b)) e.2)) (StorageDeal.entries (bids r))) ++
    concat (map (fun e : Hash32 * IntentSettlement => ascii_bytes "settlement" ++ e.1 ++ s_relayer e.2 ++ u64_le (paid_fee e.2) ++
      u64_le (settled_at_block e.2) ++ [status_byte (s_status e.2)]) (StorageDeal.entries (settlements r)))).

(** ** Histories *)

Inductive RelayerOp : Type :=
| OpIntent (i : UserIntent) (p : PolicyEnvelope) (block : Z)
| OpBid (b : SolverBid) (block : Z)
| OpSettle (id : Hash32) (rel : Address) (fee block : Z)
| OpPruneExpired (block : Z)
| OpPruneSettlements (max : Z).

Definition rstep (r : RelayerPolicyRegistry) (op : RelayerOp) : RelayerPolicyRegistry :=
  match op with
  | OpIntent i p t => (submit_intent r i p t).1
  | OpBid b t => (submit_bid r b t).1
  | OpSettle id rel fee t => match settle_intent r id rel fee t with Ok (r', _) => r' | Err _ => r end
  | OpPruneExpired t => (prune_expired r t).1
  | OpPruneSettlements n => (prune_settlements r n).1
  end.
Definition rrun (ops : list RelayerOp) : RelayerPolicyRegistry := foldl rstep new ops.

End relayer.
End Relayer.
