(* ===== verification/RelayerFacts.v ===== *)
(** * Theorems about the relayer policy registry (Relayer.v)

    In every reachable registry the intents stored were within a policy of
    their owner, the bids keep to their intent with one per relayer, and the
    sizes are bounded.  A settlement pays a relayer that bid, no more than it
    quoted and so no more than the owner's cap.  [best_bid] is the least bid.
    Settlements are pruned without their intents, after which a live intent is
    settled a second time. *)

From Stdlib Require Import ZArith Lia.
From stdpp Require Import base tactics strings numbers gmap sorting list.
From S2P Require Import Prelude Hashing StorageDeal Pollen Relayer.
Import Hashing Relayer.
Open Scope Z_scope.

Module RelayerFacts.

Section facts.
Context {ExternalChain : Type} (chain_name : ExternalChain -> bytes) (sha256 : bytes -> Hash32).

Notation rstep := (rstep chain_name sha256).
Notation rrun := (rrun chain_name sha256).

(** Some policy of the owner names the intent's hash, covers its fee and its
    domains. *)
Definition allowed (i : UserIntent) : Prop := exists p t, validate_intent chain_name sha256 i p t = Ok tt.

Record bid_fits (i : @UserIntent ExternalChain) (b : SolverBid) : Prop := {
  bf_intent : b_intent_id b = intent_id i;
  bf_quote : quoted_fee b <> 0 /\ quoted_fee b <= max_fee i;
  bf_bond : bond b <> 0;
}.

Definition bids_fit (ints : gmap Hash32 UserIntent) (id : Hash32) (l : list SolverBid) : Prop :=
  exists i, ints !! id = Some i /\ Forall (bid_fits i) l /\ NoDup (map relayer l) /\ zlen l <= MAX_RELAYER_BIDS_PER_INTENT.

Record registry_ok (r : RelayerPolicyRegistry) : Prop := {
  ro_intents : map_Forall (fun id i => intent_id i = id /\ allowed i) (intents r);
  ro_bids : map_Forall (bids_fit (intents r)) (bids r);
  ro_settled : map_Forall (fun id s => s_intent_id s = id /\ s_status s = Executed) (settlements r);
  ro_count : Z.of_nat (size (intents r)) <= MAX_RELAYER_INTENTS;
  ro_settlements : Z.of_nat (size (settlements r)) <= MAX_RELAYER_SETTLEMENTS;
}.

Lemma new_ok : registry_ok new.
Proof.
  split; cbn; [apply map_Forall_empty..|by rewrite map_size_empty|by rewrite map_size_empty].
Qed.

Lemma prune_expired_lookup r t id i :
  intents (prune_expired r t).1 !! id = Some i <-> @intents ExternalChain r !! id = Some i /\ t < deadline_block i.
Proof. cbn. by rewrite map_lookup_filter_Some. Qed.

Lemma prune_expired_bids r t id l : bids (prune_expired r t).1 !! id = Some l ->
  @bids ExternalChain r !! id = Some l /\ forall i, intents r !! id = Some i -> t < deadline_block i.
Proof.
  cbn. rewrite lookup_difference_Some, lookup_fmap. intros [? N]; split; first done.
  intros i E. destruct (decide (t < deadline_block i)) as [?|n]; first done.
  rewrite (map_lookup_filter_Some_2 _ _ _ i) in N; [done|done|cbn; lia].
Qed.

Lemma prune_expired_ok r t : registry_ok r -> registry_ok (prune_expired r t).1.
Proof.
  intros [I B S C D]. split; try done.
  - intros id i [E _]%prune_expired_lookup. exact (I _ _ E).
  - intros id l [E L]%prune_expired_bids. destruct (B _ _ E) as (i & Ei & R). exists i. split; last done.
    apply prune_expired_lookup. auto.
  - etrans; last exact C. cbn. apply Nat2Z.inj_le, map_subseteq_size, map_filter_subseteq.
Qed.

Lemma foldl_delete_subseteq {V} (ks : list Hash32) (m : gmap Hash32 V) : foldl (fun m k => delete k m) m ks ⊆ m.
Proof.
  revert m. induction ks as [|k ks IH]; intros m; cbn; first done.
  etrans; [apply IH|apply delete_subseteq].
Qed.

Lemma prune_settlements_sub r n : @intents ExternalChain (prune_settlements r n).1 = intents r /\
  bids (prune_settlements r n).1 = bids r /\ settlements (prune_settlements r n).1 ⊆ settlements r.
Proof. unfold prune_settlements. case_match; cbn; split_and!; try done. apply foldl_delete_subseteq. Qed.

Lemma prune_settlements_ok r n : registry_ok r -> registry_ok (prune_settlements r n).1.
Proof.
  intros [I B S C D]. destruct (prune_settlements_sub r n) as (Ei & Eb & Sub).
  split; rewrite ?Ei, ?Eb; try done.
  - intros id s E. apply S. by eapply lookup_weaken.
  - etrans; last exact D. by apply Nat2Z.inj_le, map_subseteq_size.
Qed.

(** Pruning leaves as many settlements as asked for. *)
Lemma foldl_delete_size {V} (ks : list Hash32) (m : gmap Hash32 V) :
  NoDup ks -> Forall (fun k => is_Some (m !! k)) ks -> (size (foldl (fun m k => delete k m) m ks) + length ks = size m)%nat.
Proof.
  revert m. induction ks as [|k ks IH]; intros m ND F; cbn; first lia.
  apply NoDup_cons in ND as [Nk ND]. apply Forall_cons in F as [[v Ev] F].
  assert (Sz : size (delete k m) = pred (size m)) by (apply map_size_delete_Some; by exists v).
  assert (0 < size m)%nat.
  { destruct (decide (size m = 0%nat)) as [Z0|]; last lia. apply map_size_empty_inv in Z0. subst. done. }
  rewrite <-(IH (delete k m)) in Sz; [lia|done|].
  apply Forall_forall. intros x Hx. rewrite lookup_delete_ne; last congruence.
  by eapply Forall_forall in F.
Qed.

Lemma prune_settlements_size r n : 0 <= n ->
  Z.of_nat (size (@settlements ExternalChain (prune_settlements r n).1)) <= n.
Proof.
  intros Hn. unfold prune_settlements. case_match eqn:E; cbn; first lia.
  set (ks := take _ _).
  assert (P : map fst (StorageDeal.entries (settlements r)) ≡ₚ map fst (map_to_list (settlements r)))
    by (apply fmap_Permutation, merge_sort_Permutation).
  assert (ND : NoDup (map fst (StorageDeal.entries (settlements r)))) by (rewrite P; apply NoDup_fst_map_to_list).
  pose proof (foldl_delete_size ks (settlements r)) as Sz.
  assert (L : length ks = Z.to_nat (Z.of_nat (size (settlements r)) - n)).
  { unfold ks. rewrite length_take, (Permutation_length P), length_map, length_map_to_list. lia. }
  rewrite L in Sz. assert (size (foldl (fun m k => delete k m) (settlements r) ks) + Z.to_nat (Z.of_nat (size (settlements r)) - n)
    = size (settlements r))%nat; last lia.
  apply Sz; first (eapply sublist_NoDup; [exact ND|apply sublist_take]).
  apply Forall_take, Forall_forall. intros k Hk. rewrite P in Hk.
  apply list_elem_of_fmap in Hk as ([k' v] & -> & Hv%elem_of_map_to_list). by exists v.
Qed.

Lemma bids_fit_more ints ints' id l : ints ⊆ ints' -> bids_fit ints id l -> bids_fit ints' id l.
Proof. intros S (i & E & R). exists i. split; last done. by eapply lookup_weaken. Qed.

Lemma submit_intent_ok r i p t : registry_ok r -> registry_ok (submit_intent chain_name sha256 r i p t).1.
Proof.
  intros OK. unfold submit_intent. destruct (validate_intent _ _ _ _ _) as [[]|] eqn:V; last done.
  pose proof (prune_expired_ok r t OK) as OK1. set (r1 := (prune_expired r t).1) in *.
  case_bool_decide as N; first done. case_match eqn:L; first done.
  apply eq_None_not_Some in N. destruct OK1 as [I B S C D]. split; cbn; try done.
  - apply map_Forall_insert_2; last done. split; first done. by exists p, t.
  - intros id l E. eapply bids_fit_more; last exact (B _ _ E). by apply insert_subseteq.
  - rewrite (map_size_insert_None _ _ _ N). lia.
Qed.

(** What an accepted bid satisfies. *)
Lemma bid_checked b (i : @UserIntent ExternalChain) t : validate_for_intent b i t = Ok tt -> bid_fits i b.
Proof. unfold validate_for_intent. intros E. inv_ok E. split_bool. split; try done; lia. Qed.

Lemma bids_default r id : registry_ok r -> is_Some (intents r !! id) -> bids_fit (intents r) id (default [] (bids r !! id)).
Proof.
  intros OK [i Ei]. destruct (bids r !! id) as [l|] eqn:E; cbn; first by apply (ro_bids _ OK).
  exists i. split_and!; [done|constructor|constructor|by vm_compute].
Qed.

Lemma submit_bid_ok r b t : registry_ok r -> registry_ok (submit_bid r b t).1.
Proof.
  intros OK. unfold submit_bid. destruct (rbind _ _) as [[]|] eqn:V; last done. inv_ok V.
  destruct (bids_default r (b_intent_id b) OK) as (i & Ei & F & ND & L); first by eexists.
  simplify_eq. pose proof (bid_checked _ _ _ V) as Fb.
  assert (keep : forall l, bids_fit (intents r) (b_intent_id b) l ->
    registry_ok (mkRegistry (intents r) (<[b_intent_id b := l]> (bids r)) (settlements r))).
  { destruct OK as [I B S C D]. intros l Hl. split; try done. by apply map_Forall_insert_2. }
  case_match eqn:Lim; [|destruct (bool_decide (relayer b ∈ _)) eqn:Dup]; cbn; apply keep; exists x; split_and!; try done.
  - apply Forall_app; split; first done. by apply Forall_singleton.
  - rewrite map_app. apply NoDup_app. split_and!; [done| |apply NoDup_singleton].
    intros y Hy ->%list_elem_of_singleton. by apply bool_decide_eq_false_1 in Dup.
  - rewrite zlen_app. unfold zlen at 2. cbn. lia.
Qed.

(** Everything a successful settlement checked. *)
Lemma settle_ok (r : @RelayerPolicyRegistry ExternalChain) (id : Hash32) rel fee t r' s : settle_intent r id rel fee t = Ok (r', s) ->
  exists i (b : SolverBid), intents r !! id = Some i /\ settlements r !! id = None /\
    b ∈ default [] (bids r !! id) /\ relayer b = rel /\ fee <> 0 /\ fee <= quoted_fee b /\ t < deadline_block i /\ t < b_expires_at_block b /\
    s = mkSettlement id rel fee t Executed /\ intents r' = intents r /\ bids r' = bids r /\
    exists m, m ⊆ settlements r /\ settlements r' = <[id := s]> m /\ Z.of_nat (size m) < MAX_RELAYER_SETTLEMENTS.
Proof.
  unfold settle_intent. intros E. inv_ok E. split_bool.
  match goal with H : _ <$> list_find _ _ = Some _ |- _ => apply fmap_Some in H as ([k b] & Hf & ->) end.
  apply list_find_Some in Hf as (Hl & Hr & _). cbn in *.
  exists x, b. apply list_elem_of_lookup_2 in Hl. repeat (split; [done || lia|]).
  set (r1 := if MAX_RELAYER_SETTLEMENTS <=? Z.of_nat (size (settlements r)) then (prune_settlements r (MAX_RELAYER_SETTLEMENTS - 1)).1 else r).
  assert (R : intents r1 = intents r /\ bids r1 = bids r /\ settlements r1 ⊆ settlements r /\
    Z.of_nat (size (settlements r1)) < MAX_RELAYER_SETTLEMENTS).
  { unfold r1. case_match eqn:Big.
    - destruct (prune_settlements_sub r (MAX_RELAYER_SETTLEMENTS - 1)) as (? & ? & ?). split_and!; try done.
      pose proof (prune_settlements_size r (MAX_RELAYER_SETTLEMENTS - 1)). unfold MAX_RELAYER_SETTLEMENTS in *. lia.
    - split_and!; try done. lia. }
  destruct R as (? & ? & ? & ?). split_and!; try done. by exists (settlements r1).
Qed.

Lemma settle_keeps_ok r id rel fee t r' s : registry_ok r -> settle_intent r id rel fee t = Ok (r', s) -> registry_ok r'.
Proof.
  intros [I B S C D] (i & b & Ei & N & Hb & Hr & F0 & Fq & T & Te & Es & Ei' & Eb' & m & Sub & Em & Sz)%settle_ok.
  split; rewrite ?Ei', ?Eb', ?Em; try done.
  - apply map_Forall_insert_2; first by subst. intros k x E. apply S. by eapply lookup_weaken.
  - rewrite map_size_insert_None; first lia. destruct (m !! id) eqn:Em0; last done.
    by rewrite (lookup_weaken _ _ _ _ Em0 Sub) in N.
Qed.

Lemma rstep_ok r op : registry_ok r -> registry_ok (rstep r op).
Proof.
  intros OK. destruct op as [i p t|b t|id rel fee t|t|n].
  - by apply submit_intent_ok.
  - by apply submit_bid_ok.
  - cbn. destruct (settle_intent _ _ _ _ _) as [[r' s]|] eqn:E; [by eapply settle_keeps_ok|done].
  - by apply prune_expired_ok.
  - by apply prune_settlements_ok.
Qed.

Lemma rrun_ok ops : registry_ok (rrun ops).
Proof.
  unfold Relayer.rrun. generalize new_ok. generalize (@new ExternalChain). induction ops as [|op ops IH]; intros r OK; cbn; first done.
  apply IH. by apply rstep_ok.
Qed.

(** An accepted intent was within the policy its owner hashed into it. *)
Lemma allowed_within i : allowed i -> exists p, p_owner p = owner i /\ policy_hash i = policy_hash_of sha256 p /\
  intent_id i = calculate_id chain_name sha256 i /\ max_fee i <> 0 /\ max_fee i <= spending_cap p /\
  (allowed_domains p = [] \/ source_domain i ∈ allowed_domains p /\ target_domain i ∈ allowed_domains p).
Proof.
  intros (p & t & E). exists p. unfold validate_intent in E. inv_ok E. unfold validate_for_owner, verify_id in *.
  repeat match goal with H : rbind _ _ = Ok _ |- _ => inv_ok H end. split_bool. split_and!; try done; try lia.
  match goal with H : negb _ && _ = false |- _ => apply andb_false_iff in H as [H|H] end; split_bool; auto.
Qed.

(** Whatever intents, bids, settlements and prunings came before, a
    settlement goes to a relayer that bid for the intent, before the intent
    and the bid expire, once while its settlement is kept; it pays a fee that
    is not zero and is at most the quote, the fee the owner set in the intent
    and the cap of the policy whose hash he put into it.  The registry keeps
    intents and bids and stores the settlement. *)
Theorem settlement_within_limits ops id rel fee t r' s :
  settle_intent (rrun ops) id rel fee t = Ok (r', s) ->
  settlements (rrun ops) !! id = None /\ settlements r' !! id = Some (mkSettlement id rel fee t Executed) /\
  Z.of_nat (size (settlements r')) <= MAX_RELAYER_SETTLEMENTS /\ intents r' = intents (rrun ops) /\ bids r' = bids (rrun ops) /\
  exists i b p, intents (rrun ops) !! id = Some i /\ b ∈ default [] (bids (rrun ops) !! id) /\ relayer b = rel /\
    t < deadline_block i /\ t < b_expires_at_block b /\
    p_owner p = owner i /\ policy_hash i = policy_hash_of sha256 p /\
    fee <> 0 /\ fee <= quoted_fee b <= max_fee i /\ max_fee i <= spending_cap p.
Proof.
  intros E. pose proof (rrun_ok ops) as OK. pose proof (settle_keeps_ok _ _ _ _ _ _ _ OK E) as OK'.
  apply settle_ok in E as (i & b & Ei & N & Hb & Hr & F0 & Fq & T & Te & Es & Ei' & Eb' & m & Sub & Em & Sz).
  split_and!; try done; [by rewrite Em, lookup_insert_eq, Es|by apply ro_settlements|].
  destruct (ro_intents _ OK _ _ Ei) as [_ (p & Ho & Hp & _ & _ & Cap & _)%allowed_within].
  destruct (bids_default _ id OK) as (i' & Ei2 & F & _); first by exists i.
  rewrite Ei in Ei2. injection Ei2 as <-. eapply Forall_forall in F; last exact Hb.
  destruct (bf_quote _ _ F) as [_ Q]. by exists i, b, p.
Qed.

End facts.

(** ** The best bid *)

Lemma bytes_lt_trans a b c : bytes_leb a b = true -> a <> b -> bytes_leb b c = true -> b <> c -> bytes_leb a c = true /\ a <> c.
Proof.
  revert b c. induction a as [|x a IH]; intros [|y b] [|z c]; cbn; try done.
  intros H1 N1 H2 N2. apply orb_prop in H1, H2.
  destruct H1 as [H1|[E1 H1]%andb_prop], H2 as [H2|[E2 H2]%andb_prop]; rewrite ?Z.ltb_lt, ?Z.eqb_eq in *; subst.
  - rewrite (proj2 (Z.ltb_lt x z)) by lia. split; [done|intros [= -> _]; lia].
  - rewrite (proj2 (Z.ltb_lt x z)) by lia. split; [done|intros [= -> _]; lia].
  - rewrite (proj2 (Z.ltb_lt y z)) by lia. split; [done|intros [= -> _]; lia].
  - rewrite Z.ltb_irrefl, Z.eqb_refl. destruct (IH b c) as [R N]; try congruence. split; [by rewrite R|congruence].
Qed.

Lemma bid_cmp_irrefl a : bid_cmp a a <> Lt.
Proof. unfold bid_cmp. by rewrite !Z.compare_refl, bool_decide_eq_true_2. Qed.

(** A strictly better bid: the fee, then the bond, then the address. *)
Lemma bid_cmp_Lt a b : bid_cmp a b = Lt <-> quoted_fee a < quoted_fee b \/ quoted_fee a = quoted_fee b /\
  (bond b < bond a \/ bond a = bond b /\ relayer a <> relayer b /\ bytes_leb (relayer a) (relayer b) = true).
Proof.
  unfold bid_cmp. destruct (Z.compare_spec (quoted_fee a) (quoted_fee b)), (Z.compare_spec (bond b) (bond a)); try naive_solver lia.
  case_bool_decide; [naive_solver lia|]. destruct (bytes_leb _ _); naive_solver lia.
Qed.

Lemma bid_cmp_trans a b c : bid_cmp a b = Lt -> bid_cmp b c = Lt -> bid_cmp a c = Lt.
Proof.
  rewrite !bid_cmp_Lt. intros [?|[E1 [?|(B1 & N1 & L1)]]] [?|[E2 [?|(B2 & N2 & L2)]]]; try (left; lia); right; split; try lia.
  all: try (left; lia). right. destruct (bytes_lt_trans _ _ _ L1 N1 L2 N2). split_and!; congruence || done.
Qed.

Lemma best_fold l : forall y seen, y ∈ seen -> (forall x, x ∈ seen -> bid_cmp x y <> Lt) -> exists b,
  foldl (fun best x => match best with
                       | Some y => if bool_decide (bid_cmp x y = Lt) then Some x else Some y
                       | None => Some x
                       end) (Some y) l = Some b /\ b ∈ seen ++ l /\ forall x, x ∈ seen ++ l -> bid_cmp x b <> Lt.
Proof.
  induction l as [|a l IH]; intros y seen Hy Hs; cbn; [exists y; by rewrite app_nil_r|].
  assert (Hl : seen ++ a :: l = (seen ++ [a]) ++ l) by by rewrite <-app_assoc. rewrite Hl.
  case_bool_decide as C; apply IH.
  - apply elem_of_app. right. by apply list_elem_of_singleton.
  - intros x [Hx| ->%list_elem_of_singleton]%elem_of_app; [|apply bid_cmp_irrefl].
    intros L. by apply (Hs x Hx), (bid_cmp_trans _ a).
  - apply elem_of_app. by left.
  - by intros x [Hx| ->%list_elem_of_singleton]%elem_of_app; [apply Hs|].
Qed.

(** The best bid exists when there is one, is one of them, and no other has a
    lower fee, or the same with a higher bond, or the same with a smaller
    address. *)
Lemma best_bid_least {C} (r : @RelayerPolicyRegistry C) id l : bids r !! id = Some l -> l <> [] ->
  exists b, best_bid r id = Some b /\ b ∈ l /\ forall x, x ∈ l -> bid_cmp x b <> Lt.
Proof.
  intros E N. unfold best_bid. rewrite E. destruct l as [|y l]; [done|]. cbn.
  destruct (best_fold l y [y]) as (b & Eb & Hb & Hmin).
  - apply list_elem_of_here.
  - intros x ->%list_elem_of_singleton. apply bid_cmp_irrefl.
  - by exists b.
Qed.

Module Demo.

Definition alice : Address := replicate 32 7.
Definition carol : Address := replicate 32 9.
Definition digest (bs : bytes) : Hash32 := fold_left (fun a x => (a * 257 + x + 1) mod 65521) bs 0 :: replicate 31 0.
Definition name (c : unit) : bytes := ascii_bytes "Ethereum".

Definition policy : PolicyEnvelope := mkEnvelope alice None 100 [1; 2] false false 100.
Definition resolve : @UserIntent unit :=
  intent_new name digest alice 1 2 (DwebResolve (ascii_bytes "ayaz.bud")) 50 60 7 (policy_hash_of digest policy).
Definition offer : SolverBid := mkBid (intent_id resolve) carol 30 (replicate 32 4) 10 55.
Definition history : list RelayerOp := [OpIntent resolve policy 10; OpBid offer 11].
Definition registry : RelayerPolicyRegistry := rrun name digest history.

Definition settled : RelayerPolicyRegistry := rrun name digest (history ++ [OpSettle (intent_id resolve) carol 30 12]).

Lemma settles : settle_intent (rrun name digest history) (intent_id resolve) carol 30 12 =
  Ok (settled, mkSettlement (intent_id resolve) carol 30 12 Executed).
Proof. vm_compute. reflexivity. Qed.

Lemma settlement_within_limits_witness :
  Z.of_nat (size (settlements settled)) <= MAX_RELAYER_SETTLEMENTS /\ intents settled = intents registry.
Proof.
  destruct (settlement_within_limits name digest history _ _ _ _ _ _ settles) as (_ & _ & S & I & _). exact (conj S I).
Defined.

(** The settlement is pruned, the intent and its bids are not: the same
    intent is settled again, which the registry refuses before the pruning. *)
Example settled_twice : let again r := settle_intent r (intent_id resolve) carol 30 13 in
  again settled = Err AlreadySettled /\
  match again (prune_settlements settled 0).1 with Ok (_, s) => paid_fee s = 30 | Err _ => False end.
Proof. vm_compute. split; reflexivity. Qed.

End Demo.
End RelayerFacts.
