(* ===== verification/Nft.v ===== *)
(** * The NFT registry (src/socialfi/mod.rs, src/socialfi/types.rs)

    Every operation, with Sha-256 a parameter of the root.  The two maps of the
    registry agree after any sequence of calls, also when the counter wraps:
    [ownership] lists an identifier once, under the owner of the NFT; and an
    NFT changes hands only by a transfer or a burn its owner asked for. *)

From Stdlib Require Import ZArith Lia.
From stdpp Require Import base tactics strings numbers gmap sorting list.
From S2P Require Import Prelude Hashing StorageDeal.
Import Hashing.
#[local] Existing Instance StorageDeal.key_le_dec.
Open Scope Z_scope.

Module Nft.

Record Nft : Type := mkNft {
  id : Z;
  owner : Address;
  content_id : Hash32;
  minted_at_epoch : Z;
  author_name : option bytes;
  luminance : Z;
  tags : list bytes;
}.

Inductive NftError : Type := NotFound | NotOwner | DuplicateId.

Record NftRegistry : Type := mkNftRegistry {
  nfts : gmap Z Nft;
  ownership : gmap Address (list Z);
  next_id : Z;
}.

Definition new : NftRegistry := mkNftRegistry ∅ ∅ 0.

(** [ownership.entry(owner).or_default().push(id)] *)
Definition push_owned (o : Address) (i : Z) (m : gmap Address (list Z)) : gmap Address (list Z) :=
  <[o := default [] (m !! o) ++ [i]]> m.

(** [if let Some(list) = ownership.get_mut(owner) { list.retain(|x| x != id) }] *)
Definition drop_owned (o : Address) (i : Z) (m : gmap Address (list Z)) : gmap Address (list Z) :=
  match m !! o with
  | Some l => <[o := filter (fun x => x <> i) l]> m
  | None => m
  end.

Definition mint (r : NftRegistry) (o : Address) (cid : Hash32) (epoch : Z) (name : option bytes)
  : result (NftRegistry * Z) NftError :=
  let i := next_id r in
  check? bool_decide (nfts r !! i = None) else DuplicateId in
  Ok (mkNftRegistry (<[i := mkNft i o cid epoch name 1000 []]> (nfts r)) (push_owned o i (ownership r)) ((i + 1) mod U64), i).

Definition add_tag (r : NftRegistry) (i : Z) (tag : bytes) : result NftRegistry NftError :=
  let? n := ok_or (nfts r !! i) NotFound in
  let ts := if bool_decide (tag ∈ tags n) then tags n else tags n ++ [tag] in
  Ok (mkNftRegistry (<[i := mkNft (id n) (owner n) (content_id n) (minted_at_epoch n) (author_name n) (luminance n) ts]> (nfts r))
        (ownership r) (next_id r)).

Definition update_luminance (r : NftRegistry) (i delta_mcd : Z) : result NftRegistry NftError :=
  let? n := ok_or (nfts r !! i) NotFound in
  let v := luminance n + delta_mcd in
  let v := if v <? 0 then 0 else v in
  let v := if U64 - 1 <? v then U64 - 1 else v in
  Ok (mkNftRegistry (<[i := mkNft (id n) (owner n) (content_id n) (minted_at_epoch n) (author_name n) v (tags n)]> (nfts r))
        (ownership r) (next_id r)).

Definition transfer (r : NftRegistry) (i : Z) (from to : Address) : result NftRegistry NftError :=
  let? n := ok_or (nfts r !! i) NotFound in
  check? bool_decide (owner n = from) else NotOwner in
  Ok (mkNftRegistry (<[i := mkNft (id n) to (content_id n) (minted_at_epoch n) (author_name n) (luminance n) (tags n)]> (nfts r))
        (push_owned to i (drop_owned from i (ownership r))) (next_id r)).

Definition burn (r : NftRegistry) (i : Z) (o : Address) : result (NftRegistry * Hash32) NftError :=
  let? n := ok_or (nfts r !! i) NotFound in
  check? bool_decide (owner n = o) else NotOwner in
  Ok (mkNftRegistry (delete i (nfts r)) (drop_owned o i (ownership r)) (next_id r), content_id n).

Definition get_nft (r : NftRegistry) (i : Z) : option Nft := nfts r !! i.

Definition is_empty (r : NftRegistry) : bool :=
  bool_decide (nfts r = ∅) && bool_decide (ownership r = ∅) && (next_id r =? 0).

Definition nft_bytes (n : Nft) : bytes :=
  owner n ++ content_id n ++ u64_le (luminance n) ++ u64_le (minted_at_epoch n) ++
  match author_name n with
  | Some s => ascii_bytes "name:" ++ u64_le (zlen s) ++ s
  | None => ascii_bytes "noname"
  end ++
  concat (map (fun t => ascii_bytes "tag:" ++ u64_le (zlen t) ++ t) (tags n)).

Definition root (sha256 : bytes -> Hash32) (r : NftRegistry) : Hash32 :=
  sha256 (ascii_bytes "BDLM_NFT_REGISTRY_V5" ++ u64_le (next_id r) ++
    concat (map (fun e : Z * Nft => u64_le e.1 ++ nft_bytes e.2) (merge_sort StorageDeal.key_le (map_to_list (nfts r)))) ++
    concat (map (fun e : Address * list Z => e.1 ++ concat (map u64_le e.2)) (StorageDeal.entries (ownership r)))).

(** ** Histories *)

Inductive NftOp : Type :=
| OpMint (o : Address) (cid : Hash32) (epoch : Z) (name : option bytes)
| OpTag (i : Z) (tag : bytes)
| OpLuminance (i delta : Z)
| OpTransfer (i : Z) (from to : Address)
| OpBurn (i : Z) (o : Address).

Definition keep {E} (r : NftRegistry) (x : result NftRegistry E) : NftRegistry :=
  match x with Ok r' => r' | Err _ => r end.
Definition nstep (r : NftRegistry) (op : NftOp) : NftRegistry :=
  match op with
  | OpMint o c e n => keep r (let? x := mint r o c e n in Ok x.1)
  | OpTag i t => keep r (add_tag r i t)
  | OpLuminance i d => keep r (update_luminance r i d)
  | OpTransfer i f t => keep r (transfer r i f t)
  | OpBurn i o => keep r (let? x := burn r i o in Ok x.1)
  end.
Definition nrun (r : NftRegistry) (ops : list NftOp) : NftRegistry := foldl nstep r ops.

(** The list kept for an owner. *)
Definition owned (r : NftRegistry) (o : Address) : list Z := default [] (ownership r !! o).

Record consistent (r : NftRegistry) : Prop := {
  c_ids : map_Forall (fun i n => id n = i /\ i ∈u U64 /\ luminance n ∈u U64 /\ NoDup (tags n)) (nfts r);
  c_owned : forall o i, i ∈ owned r o <-> exists n, nfts r !! i = Some n /\ owner n = o;
  c_nodup : forall o, NoDup (owned r o);
  c_next : next_id r ∈u U64;
}.

Lemma push_owned_lookup o i m p :
  default [] (push_owned o i m !! p) = if decide (p = o) then default [] (m !! o) ++ [i] else default [] (m !! p).
Proof. unfold push_owned. case_decide; subst; [by rewrite lookup_insert_eq|by rewrite lookup_insert_ne]. Qed.

Lemma drop_owned_lookup o i m p :
  default [] (drop_owned o i m !! p) = if decide (p = o) then filter (fun x => x <> i) (default [] (m !! o)) else default [] (m !! p).
Proof.
  unfold drop_owned. destruct (m !! o) as [l|] eqn:E.
  - case_decide; subst; [by rewrite lookup_insert_eq|by rewrite lookup_insert_ne].
  - case_decide; subst; [by rewrite E|done].
Qed.

Lemma new_consistent : consistent new.
Proof.
  split; cbn; [apply map_Forall_empty| | |lia]; unfold owned; cbn; intros *; rewrite lookup_empty; [|constructor].
  split; [intros H; by apply elem_of_nil in H|intros (n & H & _); by rewrite lookup_empty in H].
Qed.

(** A change of one NFT that keeps its owner keeps the registry consistent. *)
Lemma consistent_update r i n n' : consistent r -> nfts r !! i = Some n -> owner n' = owner n -> id n' = id n ->
  luminance n' ∈u U64 -> NoDup (tags n') -> consistent (mkNftRegistry (<[i := n']> (nfts r)) (ownership r) (next_id r)).
Proof.
  intros [I O N X] E Eo Ei L T. destruct (I _ _ E) as (Hi & Hu & _). split; try done.
  - apply map_Forall_insert_2; [by rewrite Ei|done].
  - intros o j. rewrite (O o j). cbn. destruct (decide (j = i)) as [->|]; [|by rewrite lookup_insert_ne].
    rewrite lookup_insert_eq, E. split; [intros (x & [= <-] & <-); by exists n'|intros (x & [= <-] & <-); by exists n].
Qed.

Lemma mint_consistent r o c e s x : consistent r -> mint r o c e s = Ok x -> consistent x.1.
Proof.
  unfold mint. intros [I O N X] M. inv_ok M. cbn. split_bool. split; cbn.
  - apply map_Forall_insert_2; [|done]. cbn. split_and!; try done; try lia. constructor.
  - intros p j. unfold owned. cbn. rewrite push_owned_lookup. specialize (O p j). unfold owned in O.
    destruct (decide (j = next_id r)) as [->|Hj]; [rewrite lookup_insert_eq|rewrite lookup_insert_ne by done]; case_decide; subst.
    + split; [intros _; by eexists|]. intros _. apply elem_of_app. right. by apply list_elem_of_singleton.
    + split; [intros (n & E & _)%O; congruence|]. intros (n & [= <-] & E). by cbn in E.
    + rewrite elem_of_app, list_elem_of_singleton, <- O. naive_solver.
    + done.
  - intros p. unfold owned. cbn. rewrite push_owned_lookup. case_decide; [|apply N]. apply NoDup_app.
    split_and!; [apply N| |apply NoDup_singleton]. intros j Hj ->%list_elem_of_singleton.
    apply (O o) in Hj as (n & E & _). congruence.
  - apply Z.mod_pos_bound. lia.
Qed.

Lemma burn_consistent r i o x : consistent r -> burn r i o = Ok x -> consistent x.1.
Proof.
  unfold burn. intros [I O N X] M. inv_ok M. cbn. split_bool. split; cbn; try done.
  - by apply map_Forall_delete.
  - intros p j. unfold owned. cbn. rewrite drop_owned_lookup. specialize (O p j). unfold owned in O.
    destruct (decide (j = i)) as [->|Hj]; [rewrite lookup_delete_eq|rewrite lookup_delete_ne by done]; case_decide; subst;
      rewrite ?list_elem_of_filter, ?O; naive_solver.
  - intros p. unfold owned. cbn. rewrite drop_owned_lookup. case_decide; [apply NoDup_filter, N|apply N].
Qed.

Lemma transfer_consistent r i f t r' : consistent r -> transfer r i f t = Ok r' -> consistent r'.
Proof.
  unfold transfer. intros [I O N X] M. inv_ok M. split_bool. split; cbn; try done.
  - apply map_Forall_insert_2; [|done]. cbn. exact (I _ _ M0).
  - intros p j. unfold owned. cbn. rewrite push_owned_lookup, !drop_owned_lookup. pose proof (O p j) as Op. unfold owned in Op.
    destruct (decide (j = i)) as [->|Hj]; [rewrite lookup_insert_eq|rewrite lookup_insert_ne by done]; repeat case_decide; subst;
      rewrite ?elem_of_app, ?list_elem_of_singleton, ?list_elem_of_filter, ?Op; naive_solver.
  - intros p. unfold owned. cbn. rewrite push_owned_lookup, !drop_owned_lookup.
    assert (K : forall j, j ∈ owned r t -> t <> f -> j <> i) by (intros j (n & E & Et)%O Hne ->; simplify_eq).
    repeat case_decide; subst; try apply N; try apply NoDup_filter, N; apply NoDup_app;
      (split_and!; [first [apply N|apply NoDup_filter, N]| |apply NoDup_singleton]); intros j Hj ->%list_elem_of_singleton.
    + by apply list_elem_of_filter in Hj as [? _].
    + by eapply K.
Qed.

Lemma nstep_consistent r op : consistent r -> consistent (nstep r op).
Proof.
  intros C. destruct op as [o c e n|i t|i d|i f t|i o]; cbn.
  - destruct (mint r o c e n) eqn:E; [by eapply mint_consistent|done].
  - destruct (add_tag r i t) eqn:E; [|done]. cbn. unfold add_tag in E. inv_ok E.
    destruct (c_ids _ C _ _ E0) as (? & ? & ? & ND).
    eapply consistent_update; try done. cbn. case_bool_decide; [done|]. apply NoDup_app.
    split_and!; [done| |apply NoDup_singleton]. by intros y ? ->%list_elem_of_singleton.
  - destruct (update_luminance r i d) eqn:E; [|done]. cbn. unfold update_luminance in E. inv_ok E.
    destruct (c_ids _ C _ _ E0) as (? & ? & ? & ND). eapply consistent_update; try done. cbn. repeat case_match; lia.
  - destruct (transfer r i f t) eqn:E; [by eapply transfer_consistent|done].
  - destruct (burn r i o) eqn:E; [by eapply burn_consistent|done].
Qed.

(** After any calls every NFT has its key for identifier, a 64-bit luminance
    and distinct tags, and [ownership] lists it once, under its owner. *)
Theorem nft_registry_consistent ops : consistent (nrun new ops).
Proof.
  unfold nrun. generalize new_consistent. generalize new. induction ops as [|op ops IH]; intros r C; cbn; [done|].
  by apply IH, nstep_consistent.
Qed.

(** The calls by which the owner gives an NFT away. *)
Definition gives_away (i : Z) (o : Address) (op : NftOp) : Prop :=
  match op with
  | OpTransfer j f _ => j = i /\ f = o
  | OpBurn j p => j = i /\ p = o
  | _ => False
  end.

Lemma nstep_keeps_owner r op i n : nfts r !! i = Some n -> ~ gives_away i (owner n) op ->
  exists n', nfts (nstep r op) !! i = Some n' /\ owner n' = owner n /\ content_id n' = content_id n.
Proof.
  intros E G. destruct op as [o c e s|j t|j d|j f t|j o]; cbn in *.
  - unfold mint. case_bool_decide as M; cbn; [|by exists n]. rewrite lookup_insert_ne by congruence. by exists n.
  - unfold add_tag. destruct (decide (j = i)) as [->|]; [rewrite E|destruct (nfts r !! j)]; cbn;
      rewrite ?lookup_insert_eq, ?lookup_insert_ne by done; eauto.
  - unfold update_luminance. destruct (decide (j = i)) as [->|]; [rewrite E|destruct (nfts r !! j)]; cbn;
      rewrite ?lookup_insert_eq, ?lookup_insert_ne by done; eauto.
  - unfold transfer. destruct (decide (j = i)) as [->|]; [rewrite E|destruct (nfts r !! j)]; cbn; [|case_bool_decide; cbn|eauto].
    + rewrite bool_decide_eq_false_2 by naive_solver. cbn. eauto.
    + rewrite lookup_insert_ne by done. eauto.
    + eauto.
  - unfold burn. destruct (decide (j = i)) as [->|]; [rewrite E|destruct (nfts r !! j)]; cbn; [|case_bool_decide; cbn|eauto].
    + rewrite bool_decide_eq_false_2 by naive_solver. cbn. eauto.
    + rewrite lookup_delete_ne by done. eauto.
    + eauto.
Qed.

(** As long as its owner neither transfers nor burns it, an NFT stays his with
    its content, whatever anybody calls. *)
Theorem nft_owner_kept ops r i n : nfts r !! i = Some n -> Forall (fun op => ~ gives_away i (owner n) op) ops ->
  exists n', get_nft (nrun r ops) i = Some n' /\ owner n' = owner n /\ content_id n' = content_id n.
Proof.
  revert r n. induction ops as [|op ops IH]; intros r n E F; cbn; [by exists n|]. apply Forall_cons in F as [G F].
  destruct (nstep_keeps_owner r op i n E G) as (n1 & E1 & O1 & C1).
  destruct (IH (nstep r op) n1 E1) as (n2 & E2 & O2 & C2); [by rewrite O1|]. exists n2. split_and!; congruence || done.
Qed.

End Nft.
