(* ===== verification/BudlAst.v ===== *)
(** * The abstract syntax of BudL (budzero/bud-compiler/src/ast.rs)

    Contracts, functions, statements and expressions as the compiler's passes
    share them, and [CompileError] (budzero/bud-compiler/src/lib.rs). *)

From Stdlib Require Import ZArith Lia.
From stdpp Require Import base tactics strings numbers list.
From S2P Require Import Prelude.
Open Scope Z_scope.

Module BudlAst.

Inductive BinOp : Type := Add | Sub | Mul | Div | Eq | Neq | Lt | Gt | Lte | Gte.

#[export] Instance BinOp_eq_dec : EqDecision BinOp.
Proof. solve_decision. Defined.

Inductive Expr : Type :=
| EInt (v : Z)
| EIdent (name : string)
| EStorageRead (name : string)
| EMappingRead (name : string) (key : Expr)
| EFieldAccess (base : Expr) (field : string)
| EStructLiteral (name : string) (fields : list (string * Expr))
| EBinary (left : Expr) (op : BinOp) (right : Expr)
| ECall (name : string) (args : list Expr).

Inductive MatchPattern : Type := IntLit (v : Z) | Wildcard.

(** A match arm is its pattern and its body. *)
Inductive Stmt : Type :=
| SLet (name : string) (e : Expr)
| SConstrain (e : Expr)
| SAssign (name : string) (e : Expr)
| SStorageWrite (name : string) (e : Expr)
| SMappingWrite (name : string) (key val : Expr)
| SIf (cond : Expr) (then_branch : list Stmt) (else_branch : option (list Stmt))
| SWhile (cond : Expr) (body : list Stmt)
| SFor (var : string) (start fin : Expr) (body : list Stmt)
| SReturn (e : option Expr)
| SEmit (name : string) (args : list Expr)
| SMatch (scrutinee : Expr) (arms : list (MatchPattern * list Stmt))
| SExpr (e : Expr).

Record StorageField : Type := mkField { sf_name : string; sf_ty : string }.
Record Param : Type := mkParam { p_name : string; p_ty : string }.
Record Struct : Type := mkStruct { s_name : string; s_fields : list StorageField }.

Record Function : Type := mkFunction {
  f_name : string;
  f_params : list Param;
  f_return_type : option string;
  f_body : list Stmt;
  f_is_pub : bool;
}.

Record Contract : Type := mkContract {
  c_name : string;
  c_storage : list StorageField;
  c_structs : list Struct;
  c_functions : list Function;
}.

Inductive CompileError : Type :=
| LexerError (msg : string)
| ParserError (msg : string)
| SemanticError (msg : string)
| CodegenError (msg : string)
| ExperimentalOpcodeDisabled (msg : string)
| RegisterExhausted.

(** ** Induction over the nested lists *)

Section expr_ind.
Variable P : Expr -> Prop.
Hypothesis HInt : forall v, P (EInt v).
Hypothesis HIdent : forall x, P (EIdent x).
Hypothesis HStorage : forall x, P (EStorageRead x).
Hypothesis HMapping : forall x k, P k -> P (EMappingRead x k).
Hypothesis HField : forall b f, P b -> P (EFieldAccess b f).
Hypothesis HStruct : forall x fs, Forall (fun f => P f.2) fs -> P (EStructLiteral x fs).
Hypothesis HBinary : forall l op r, P l -> P r -> P (EBinary l op r).
Hypothesis HCall : forall x args, Forall P args -> P (ECall x args).

Fixpoint expr_nested_ind (e : Expr) : P e :=
  match e with
  | EInt v => HInt v
  | EIdent x => HIdent x
  | EStorageRead x => HStorage x
  | EMappingRead x k => HMapping x k (expr_nested_ind k)
  | EFieldAccess b f => HField b f (expr_nested_ind b)
  | EStructLiteral x fs =>
      HStruct x fs
        ((fix go fs : Forall (fun f => P f.2) fs :=
            match fs with
            | [] => List.Forall_nil _
            | f :: fs => List.Forall_cons _ f fs (expr_nested_ind f.2) (go fs)
            end) fs)
  | EBinary l op r => HBinary l op r (expr_nested_ind l) (expr_nested_ind r)
  | ECall x args =>
      HCall x args
        ((fix go args : Forall P args :=
            match args with
            | [] => List.Forall_nil _
            | a :: args => List.Forall_cons _ a args (expr_nested_ind a) (go args)
            end) args)
  end.
End expr_ind.

Section stmt_ind.
Variable P : Stmt -> Prop.
Hypothesis HLet : forall x e, P (SLet x e).
Hypothesis HConstrain : forall e, P (SConstrain e).
Hypothesis HAssign : forall x e, P (SAssign x e).
Hypothesis HStorage : forall x e, P (SStorageWrite x e).
Hypothesis HMapping : forall x k v, P (SMappingWrite x k v).
Hypothesis HIf : forall c t e,
  Forall P t -> (forall b, e = Some b -> Forall P b) -> P (SIf c t e).
Hypothesis HWhile : forall c b, Forall P b -> P (SWhile c b).
Hypothesis HFor : forall x s e b, Forall P b -> P (SFor x s e b).
Hypothesis HReturn : forall e, P (SReturn e).
Hypothesis HEmit : forall x args, P (SEmit x args).
Hypothesis HMatch : forall s arms, Forall (fun a => Forall P a.2) arms -> P (SMatch s arms).
Hypothesis HExpr : forall e, P (SExpr e).

Fixpoint stmt_nested_ind (s : Stmt) : P s :=
  let block := fix go (l : list Stmt) : Forall P l :=
    match l with
    | [] => List.Forall_nil _
    | s :: l => List.Forall_cons _ s l (stmt_nested_ind s) (go l)
    end in
  match s with
  | SLet x e => HLet x e
  | SConstrain e => HConstrain e
  | SAssign x e => HAssign x e
  | SStorageWrite x e => HStorage x e
  | SMappingWrite x k v => HMapping x k v
  | SIf c t e =>
      HIf c t e (block t)
        (match e with
         | None => fun b (E : None = Some b) => match E with end
         | Some b' => fun b (E : Some b' = Some b) =>
             match E in _ = o return match o with Some b => Forall P b | None => True end with
             | eq_refl => block b'
             end
         end)
  | SWhile c b => HWhile c b (block b)
  | SFor x a e b => HFor x a e b (block b)
  | SReturn e => HReturn e
  | SEmit x args => HEmit x args
  | SMatch a arms =>
      HMatch a arms
        ((fix go arms : Forall (fun a => Forall P a.2) arms :=
            match arms with
            | [] => List.Forall_nil _
            | a :: arms => List.Forall_cons _ a arms (block a.2) (go arms)
            end) arms)
  | SExpr e => HExpr e
  end.
End stmt_ind.

End BudlAst.
