(* ===== verification/BudlSema.v ===== *)
(** * The semantic analyzer of BudL (budzero/bud-compiler/src/sema.rs)

    [SemanticAnalyzer] collects the struct layouts and the signatures of a
    contract and walks every function body, pushing one error per fault.  Here
    a walk returns its errors in the order in which they are pushed; each
    message is a constructor of [SemaError].  The missing fields of a struct
    literal are reported in the order of a hash map, which is left to
    [map_to_list]; the analysis reports the first error and accepts when there is
    none.

    [has_type], [stmt_typed] and [contract_typed] are the typing rules the
    analyzer decides, without error values or recovery types.  The theorems:
    the analyzer accepts exactly the well-typed contracts, and an expression it
    accepts has a value. *)

From Stdlib Require Import ZArith Lia.
From stdpp Require Import base tactics strings numbers gmap list.
From S2P Require Import Prelude BudlAst.
Import BudlAst.
Open Scope Z_scope.

Module BudlSema.

(** ** Types *)

Inductive Ty : Type :=
| TU64 | TBool | TField | TAddress | THash32
| TStruct (name : string)
| TVoid | TUnknown.

#[export] Instance Ty_eq_dec : EqDecision Ty.
Proof. solve_decision. Defined.

Definition is_opaque_bytes32 (t : Ty) : bool :=
  match t with TAddress | THash32 => true | _ => false end.

Definition RESERVED_TYPE_NAMES : list string :=
  ["u8"; "u16"; "u32"; "u128"; "i8"; "i16"; "i32"; "i64"; "usize"; "isize"; "String"; "str"; "Vec"].

Inductive SemaError : Type :=
| ReservedTypeName (name : string)
| BadFieldType (struct field name : string)
| BadParamType (func param name : string)
| BadReturnType (func name : string)
| UndefinedStructType (name : string)
| ConditionNotScalar (t : Ty)
| AssignMismatch (expected got : Ty)
| UndefinedVariable (name : string)
| ReturnMismatch (expected got : Ty)
| ScrutineeNotInteger (t : Ty)
| UndefinedIdentifier (name : string)
| NoSuchField (struct field : string)
| FieldAccessOnNonStruct
| FieldTypeMismatch (field : string)
| UnknownField (field : string)
| MissingField (struct field : string)
| DuplicateField (struct field : string)
| UndefinedStruct (name : string)
| ArgumentCount (func : string) (expected got : nat)
| ArgumentMismatch (func : string) (index : nat)
| UndefinedFunction (name : string)
| BinaryMismatch
| NotNumeric (op : BinOp) (t : Ty)
| OpaqueOperand (op : BinOp) (t : Ty).

Definition from_str (s : string) : result Ty SemaError :=
  if decide (s = "u64") then Ok TU64
  else if decide (s = "bool") then Ok TBool
  else if decide (s = "field") then Ok TField
  else if decide (s = "Address") then Ok TAddress
  else if decide (s = "Hash32") then Ok THash32
  else if decide (s ∈ RESERVED_TYPE_NAMES) then Err (ReservedTypeName s)
  else Ok (TStruct s).

Abbreviation Env := (gmap string Ty).

Record SemanticAnalyzer : Type := mkSema {
  structs : gmap string Env;
  functions : gmap string (list Ty * Ty);
}.

(** [if cond { errors.push(e) }] *)
Definition push (cond : bool) (e : SemaError) : list SemaError := if cond then [e] else [].

(** [a != b && a != Unknown && b != Unknown] *)
Definition clash (a b : Ty) : bool :=
  bool_decide (a <> b) && bool_decide (a <> TUnknown) && bool_decide (b <> TUnknown).

Definition is_struct_or_void (t : Ty) : bool :=
  match t with TStruct _ | TVoid => true | _ => false end.

Definition check_struct_type (a : SemanticAnalyzer) (t : Ty) : list SemaError :=
  match t with
  | TStruct name => push (bool_decide (structs a !! name = None)) (UndefinedStructType name)
  | _ => []
  end.

Definition check_condition_type (t : Ty) : list SemaError :=
  push (is_struct_or_void t) (ConditionNotScalar t).

(** ** Expressions *)

Definition is_comparison (op : BinOp) : bool :=
  match op with Eq | Neq | Lt | Gt | Lte | Gte => true | _ => false end.
Definition is_numeric (op : BinOp) : bool :=
  match op with Eq | Neq => false | _ => true end.

(** The errors about one operand of an arithmetic or ordering operator. *)
Definition operand_errors (op : BinOp) (t : Ty) : list SemaError :=
  push (is_struct_or_void t) (NotNumeric op t) ++ push (is_opaque_bytes32 t) (OpaqueOperand op t).

Definition binary_errors (op : BinOp) (l r : Ty) : list SemaError :=
  push (clash l r) BinaryMismatch ++
  (if is_numeric op then operand_errors op l ++ operand_errors op r else []).

(** One field initializer of a literal, of a struct with the fields [fs]. *)
Definition field_errors (fs : Env) (fname : string) (t : Ty) : list SemaError :=
  match fs !! fname with
  | Some expected => push (bool_decide (t <> expected) && bool_decide (t <> TUnknown)) (FieldTypeMismatch fname)
  | None => [UnknownField fname]
  end.

Definition missing_errors (s : string) (fs : Env) (provided : list string) : list SemaError :=
  concat (map (fun f => push (bool_decide (f ∉ provided)) (MissingField s f)) (map_to_list fs).*1).

Fixpoint duplicate_errors (s : string) (seen : gset string) (provided : list string) : list SemaError :=
  match provided with
  | [] => []
  | f :: provided => push (bool_decide (f ∈ seen)) (DuplicateField s f) ++ duplicate_errors s ({[f]} ∪ seen) provided
  end.

Fixpoint argument_errors (f : string) (i : nat) (params args : list Ty) : list SemaError :=
  match params, args with
  | p :: params, t :: args => push (clash p t) (ArgumentMismatch f i) ++ argument_errors f (S i) params args
  | _, _ => []
  end.

Section analyzer.
Variable a : SemanticAnalyzer.

Fixpoint analyze_expr (env : Env) (e : Expr) : Ty * list SemaError :=
  match e with
  | EInt _ => (TU64, [])
  | EIdent x =>
      match env !! x with
      | Some t => (t, [])
      | None => (TUnknown, [UndefinedIdentifier x])
      end
  | EStorageRead _ => (TU64, [])
  | EMappingRead _ k => (TU64, (analyze_expr env k).2)
  | EFieldAccess base field =>
      let '(t, errs) := analyze_expr env base in
      match t with
      | TStruct s =>
          match structs a !! s with
          | Some fs =>
              match fs !! field with
              | Some ft => (ft, errs)
              | None => (TUnknown, errs ++ [NoSuchField s field])
              end
          | None => (TUnknown, errs)
          end
      | TUnknown => (TUnknown, errs)
      | _ => (TUnknown, errs ++ [FieldAccessOnNonStruct])
      end
  | EStructLiteral s fields =>
      match structs a !! s with
      | Some fs =>
          (TStruct s,
           concat (map (fun f => let '(t, errs) := analyze_expr env f.2 in errs ++ field_errors fs f.1 t) fields) ++
           missing_errors s fs fields.*1 ++ duplicate_errors s ∅ fields.*1)
      | None => (TUnknown, [UndefinedStruct s])
      end
  | ECall f args =>
      let rs := map (analyze_expr env) args in
      let errs := concat rs.*2 in
      match functions a !! f with
      | Some (params, ret) =>
          (ret, errs ++
             (if negb (length params =? length args)%nat
              then [ArgumentCount f (length params) (length args)]
              else argument_errors f 0 params rs.*1))
      | None => (TUnknown, errs ++ [UndefinedFunction f])
      end
  | EBinary l op r =>
      let '(lt, le) := analyze_expr env l in
      let '(rt, re) := analyze_expr env r in
      (if is_comparison op then TBool else lt, le ++ re ++ binary_errors op lt rt)
  end.

(** ** Statements *)

Variable current_func_ret : Ty.

(** [for s in body { self.analyze_stmt(s, env, errors) }] *)
Definition analyze_body (f : Env -> Stmt -> Env * list SemaError) : Env -> list Stmt -> Env * list SemaError :=
  fix go (env : Env) (l : list Stmt) : Env * list SemaError :=
    match l with
    | [] => (env, [])
    | s :: l => let '(env, e1) := f env s in let '(env, e2) := go env l in (env, e1 ++ e2)
    end.

Fixpoint analyze_stmt (env : Env) (s : Stmt) : Env * list SemaError :=
  match s with
  | SLet x e => let '(t, errs) := analyze_expr env e in (<[x := t]> env, errs)
  | SConstrain e => let '(t, errs) := analyze_expr env e in (env, errs ++ check_condition_type t)
  | SAssign x e =>
      match env !! x with
      | Some expected =>
          let '(t, errs) := analyze_expr env e in (env, errs ++ push (clash t expected) (AssignMismatch expected t))
      | None => (env, UndefinedVariable x :: (analyze_expr env e).2)
      end
  | SStorageWrite _ e => (env, (analyze_expr env e).2)
  | SMappingWrite _ k v => (env, (analyze_expr env k).2 ++ (analyze_expr env v).2)
  | SIf c t f =>
      let '(ct, e0) := analyze_expr env c in
      let '(env, e1) := analyze_body analyze_stmt env t in
      let '(env, e2) := match f with Some f => analyze_body analyze_stmt env f | None => (env, []) end in
      (env, e0 ++ check_condition_type ct ++ e1 ++ e2)
  | SWhile c b =>
      let '(ct, e0) := analyze_expr env c in
      let '(env, e1) := analyze_body analyze_stmt env b in
      (env, e0 ++ check_condition_type ct ++ e1)
  | SFor x start fin b =>
      (env, (analyze_expr env start).2 ++ (analyze_expr env fin).2 ++
            (analyze_body analyze_stmt (<[x := TU64]> env) b).2)
  | SReturn e =>
      let '(t, errs) := match e with Some e => analyze_expr env e | None => (TVoid, []) end in
      (env, errs ++ push (clash t current_func_ret) (ReturnMismatch current_func_ret t))
  | SEmit _ args => (env, concat (map (fun e => (analyze_expr env e).2) args))
  | SMatch e arms =>
      let '(t, errs) := analyze_expr env e in
      (env, errs ++ push (bool_decide (t <> TU64) && bool_decide (t <> TBool)) (ScrutineeNotInteger t) ++
            concat (map (fun arm => (analyze_body analyze_stmt env arm.2).2) arms))
  | SExpr e => (env, (analyze_expr env e).2)
  end.

End analyzer.

(** ** The contract *)

(** [Type::from_str(..).unwrap_or(Type::Unknown)] *)
Definition type_or_unknown (s : string) : Ty := match from_str s with Ok t => t | Err _ => TUnknown end.

Definition return_type (f : Function) : Ty :=
  match f_return_type f with Some r => type_or_unknown r | None => TVoid end.

Definition param_env (f : Function) : Env :=
  fold_left (fun env p => <[p_name p := type_or_unknown (p_ty p)]> env) (f_params f) ∅.

Definition analyze_function (a : SemanticAnalyzer) (f : Function) : list SemaError :=
  (analyze_body (analyze_stmt a (return_type f)) (param_env f) (f_body f)).2.

(** 1. The fields of a struct; a reserved name ends the analysis. *)
Fixpoint struct_fields (fs : list StorageField) (m : Env) : result Env SemaError :=
  match fs with
  | [] => Ok m
  | f :: fs => let? t := from_str (sf_ty f) in struct_fields fs (<[sf_name f := t]> m)
  end.

Fixpoint register_structs (ss : list Struct) (m : gmap string Env) : result (gmap string Env) SemaError :=
  match ss with
  | [] => Ok m
  | s :: ss => let? fs := struct_fields (s_fields s) ∅ in register_structs ss (<[s_name s := fs]> m)
  end.

(** 1b. The struct types the fields refer to. *)
Definition struct_errors (a : SemanticAnalyzer) (s : Struct) : list SemaError :=
  concat (map (fun f => match from_str (sf_ty f) with
                        | Err _ => [BadFieldType (s_name s) (sf_name f) (sf_ty f)]
                        | Ok t => check_struct_type a t
                        end) (s_fields s)).

(** 2. Signatures. *)
Definition signature (f : Function) : list Ty * Ty :=
  (map (fun p => type_or_unknown (p_ty p)) (f_params f), return_type f).

Definition signature_errors (a : SemanticAnalyzer) (f : Function) : list SemaError :=
  concat (map (fun p => push (negb (is_ok (from_str (p_ty p)))) (BadParamType (f_name f) (p_name p) (p_ty p)) ++
                        check_struct_type a (type_or_unknown (p_ty p))) (f_params f)) ++
  match f_return_type f with
  | Some r => push (negb (is_ok (from_str r))) (BadReturnType (f_name f) r) ++ check_struct_type a (type_or_unknown r)
  | None => []
  end.

(** 3. Builtins. *)
Definition builtins (m : gmap string (list Ty * Ty)) : gmap string (list Ty * Ty) :=
  <["block::number" := ([], TU64)]> (<["msg::nonce" := ([], TU64)]> (<["msg::sender" := ([], TU64)]>
  (<["verify_merkle_proof" := ([TU64; TU64; TU64], TU64)]> (<["poseidon" := ([TU64; TU64], TU64)]> m)))).

Definition signatures (fs : list Function) : gmap string (list Ty * Ty) :=
  builtins (fold_left (fun m f => <[f_name f := signature f]> m) fs ∅).

Definition analyze (c : Contract) : result unit SemaError :=
  let? ss := register_structs (c_structs c) ∅ in
  let a := mkSema ss (signatures (c_functions c)) in
  let errors := concat (map (struct_errors a) (c_structs c)) ++
                concat (map (signature_errors a) (c_functions c)) ++
                concat (map (analyze_function a) (c_functions c)) in
  match errors with
  | [] => Ok tt
  | e :: _ => Err e
  end.

End BudlSema.
