(* ===== verification/BudlSemaFacts.v ===== *)
(** * The analyzer decides the typing rules of BudL

    The typing rules as inductive judgements, and the proof that
    [BudlSema.analyze] accepts a contract exactly when they derive it. *)

From Stdlib Require Import ZArith Lia.
From stdpp Require Import base tactics strings numbers gmap list.
From S2P Require Import Prelude BudlAst BudlSema.
Import BudlAst BudlSema.
Open Scope Z_scope.

Module BudlSemaFacts.

(** ** Typing rules *)

(** A type a value can have: known, and declared when it is a struct. *)
Definition ty_ok (a : SemanticAnalyzer) (t : Ty) : Prop :=
  match t with
  | TUnknown => False
  | TStruct s => is_Some (structs a !! s)
  | _ => True
  end.

(** Operands of arithmetic and ordering. *)
Definition computable (t : Ty) : bool := negb (is_struct_or_void t) && negb (is_opaque_bytes32 t).

Section rules.
Variable a : SemanticAnalyzer.

Inductive has_type (G : Env) : Expr -> Ty -> Prop :=
| T_Int v : has_type G (EInt v) TU64
| T_Ident x t : G !! x = Some t -> has_type G (EIdent x) t
| T_Storage x : has_type G (EStorageRead x) TU64
| T_Mapping x k t : has_type G k t -> has_type G (EMappingRead x k) TU64
| T_Field b s fs f t :
    has_type G b (TStruct s) -> structs a !! s = Some fs -> fs !! f = Some t ->
    has_type G (EFieldAccess b f) t
| T_Literal s fs fields :
    structs a !! s = Some fs -> NoDup fields.*1 -> dom fs = list_to_set fields.*1 ->
    Forall (fun f => exists t, fs !! f.1 = Some t /\ has_type G f.2 t) fields ->
    has_type G (EStructLiteral s fields) (TStruct s)
| T_Call f args ts t :
    functions a !! f = Some (ts, t) -> Forall2 (has_type G) args ts -> has_type G (ECall f args) t
| T_Binary l op r t :
    has_type G l t -> has_type G r t -> (is_numeric op = true -> computable t = true) ->
    has_type G (EBinary l op r) (if is_comparison op then TBool else t).

(** [stmt_typed ret G s G']: in the scope [G] of a function that returns [ret],
    the statement is well typed and leaves the scope [G'].  The blocks of [if]
    and [while] leave their declarations in scope; those of [for] and [match]
    do not. *)
Inductive stmt_typed (ret : Ty) : Env -> Stmt -> Env -> Prop :=
| ST_Let G x e t : has_type G e t -> stmt_typed ret G (SLet x e) (<[x := t]> G)
| ST_Constrain G e t : has_type G e t -> is_struct_or_void t = false -> stmt_typed ret G (SConstrain e) G
| ST_Assign G x e t : G !! x = Some t -> has_type G e t -> stmt_typed ret G (SAssign x e) G
| ST_Storage G x e t : has_type G e t -> stmt_typed ret G (SStorageWrite x e) G
| ST_Mapping G x k v t u : has_type G k t -> has_type G v u -> stmt_typed ret G (SMappingWrite x k v) G
| ST_If G c t th G1 f G2 :
    has_type G c t -> is_struct_or_void t = false -> body_typed ret G th G1 ->
    body_typed ret G1 (default [] f) G2 -> stmt_typed ret G (SIf c th f) G2
| ST_While G c t b G1 :
    has_type G c t -> is_struct_or_void t = false -> body_typed ret G b G1 ->
    stmt_typed ret G (SWhile c b) G1
| ST_For G x s e t u b G1 :
    has_type G s t -> has_type G e u -> body_typed ret (<[x := TU64]> G) b G1 ->
    stmt_typed ret G (SFor x s e b) G
| ST_Return G e : has_type G e ret -> stmt_typed ret G (SReturn (Some e)) G
| ST_ReturnVoid G : ret = TVoid -> stmt_typed ret G (SReturn None) G
| ST_Emit G x args : Forall (fun e => exists t, has_type G e t) args -> stmt_typed ret G (SEmit x args) G
| ST_Match G e t arms :
    has_type G e t -> t = TU64 \/ t = TBool ->
    Forall (fun arm => exists G', body_typed ret G arm.2 G') arms -> stmt_typed ret G (SMatch e arms) G
| ST_Expr G e t : has_type G e t -> stmt_typed ret G (SExpr e) G
with body_typed (ret : Ty) : Env -> list Stmt -> Env -> Prop :=
| BT_Nil G : body_typed ret G [] G
| BT_Cons G s G1 l G2 : stmt_typed ret G s G1 -> body_typed ret G1 l G2 -> body_typed ret G (s :: l) G2.

(** What the declarations of a contract must satisfy for its bodies to be read. *)
Record decls_ok : Prop := {
  decl_fields : map_Forall (fun _ fs => map_Forall (fun _ t => ty_ok a t) fs) (structs a);
  decl_functions : map_Forall (fun _ s => Forall (ty_ok a) s.1 /\ ty_ok a s.2) (functions a);
}.

Definition env_ok (G : Env) : Prop := map_Forall (fun _ t => ty_ok a t) G.

End rules.

Definition type_declared (a : SemanticAnalyzer) (s : string) : Prop :=
  exists t, from_str s = Ok t /\ ty_ok a t.

Record contract_typed (c : Contract) (a : SemanticAnalyzer) : Prop := {
  ct_structs : register_structs (c_structs c) ∅ = Ok (structs a);
  ct_functions : functions a = signatures (c_functions c);
  ct_fields : Forall (fun s => Forall (fun f => type_declared a (sf_ty f)) (s_fields s)) (c_structs c);
  ct_params : Forall (fun f => Forall (fun p => type_declared a (p_ty p)) (f_params f)) (c_functions c);
  ct_returns : Forall (fun f => forall r, f_return_type f = Some r -> type_declared a r) (c_functions c);
  ct_bodies : Forall (fun f => exists G, body_typed a (return_type f) (param_env f) (f_body f) G) (c_functions c);
}.

(** ** Empty error lists *)

Lemma push_nil c e : push c e = [] <-> c = false.
Proof. by destruct c. Qed.

Lemma concat_map_nil {A B} (f : A -> list B) l : concat (map f l) = [] <-> Forall (fun x => f x = []) l.
Proof.
  induction l as [|x l IH]; simpl; [by split|]. rewrite Forall_cons, <- IH. split; [apply app_nil|].
  intros [-> ->]. done.
Qed.

Lemma app_nil_iff {A} (l k : list A) : l ++ k = [] <-> l = [] /\ k = [].
Proof. split; [apply app_nil|]. by intros [-> ->]. Qed.

Lemma clash_known t u : t <> TUnknown -> u <> TUnknown -> clash t u = false <-> t = u.
Proof. intros Ht Hu. unfold clash. repeat case_bool_decide; naive_solver. Qed.

Lemma ty_ok_known a t : ty_ok a t -> t <> TUnknown.
Proof. by destruct t. Qed.

Lemma duplicate_nil s seen l : duplicate_errors s seen l = [] <-> NoDup l /\ Forall (fun f => f ∉ seen) l.
Proof.
  revert seen. induction l as [|f l IH]; intros seen; simpl.
  { split; [split; constructor|done]. }
  rewrite app_nil_iff, push_nil, bool_decide_eq_false, IH, NoDup_cons, Forall_cons, !Forall_forall. set_solver.
Qed.

Lemma missing_nil s (fs : Env) l : missing_errors s fs l = [] <-> dom fs ⊆ list_to_set l.
Proof.
  unfold missing_errors. rewrite concat_map_nil, Forall_forall. split.
  - intros H f Hf. apply elem_of_dom in Hf as [t Hf]. apply elem_of_list_to_set.
    specialize (H f). rewrite push_nil, bool_decide_eq_false in H. apply dec_stable, H.
    apply list_elem_of_fmap. exists (f, t). split; [done|]. by apply elem_of_map_to_list.
  - intros H f Hf. apply list_elem_of_fmap in Hf as ([f' t] & -> & Hf). apply elem_of_map_to_list in Hf.
    rewrite push_nil, bool_decide_eq_false. intros Hn. apply Hn. apply (elem_of_list_to_set (C:=gset string)), H, elem_of_dom. eauto.
Qed.

Lemma operand_nil op t : operand_errors op t = [] <-> computable t = true.
Proof. unfold operand_errors, computable. destruct t; simpl; naive_solver. Qed.

Lemma binary_nil op l r : l <> TUnknown -> r <> TUnknown ->
  binary_errors op l r = [] <-> l = r /\ (is_numeric op = true -> computable l = true).
Proof.
  intros Hl Hr. unfold binary_errors. rewrite app_nil_iff, push_nil, clash_known by done.
  destruct (is_numeric op); rewrite ?app_nil_iff, ?operand_nil; naive_solver.
Qed.

Lemma field_nil fs f t : t <> TUnknown -> field_errors fs f t = [] <-> fs !! f = Some t.
Proof.
  intros Ht. unfold field_errors. destruct (fs !! f) as [u|]; [|naive_solver].
  rewrite push_nil. repeat case_bool_decide; naive_solver.
Qed.

Lemma argument_nil f i params args : Forall (fun t => t <> TUnknown) params -> Forall (fun t => t <> TUnknown) args ->
  length params = length args -> argument_errors f i params args = [] <-> params = args.
Proof.
  intros Hp. revert i args. induction Hp as [|p params Hp _ IH]; intros i [|t args] Ha Hlen; simpl in *; try done.
  apply Forall_cons in Ha as [Ht Ha]. rewrite app_nil_iff, push_nil, clash_known, IH by (done || lia). naive_solver.
Qed.

(** ** Expressions *)

Section expressions.
Variable a : SemanticAnalyzer.
Hypothesis Hdecls : decls_ok a.
Variable G : Env.
Hypothesis HG : env_ok a G.

Definition sound_at (e : Expr) : Prop :=
  forall t, analyze_expr a G e = (t, []) -> has_type a G e t /\ ty_ok a t.

Lemma args_sound args : Forall sound_at args -> concat (map (analyze_expr a G) args).*2 = [] ->
  Forall2 (has_type a G) args (map (analyze_expr a G) args).*1 /\
  Forall (ty_ok a) (map (analyze_expr a G) args).*1.
Proof.
  induction 1 as [|e args He _ IH]; [by split|]. cbn [map fmap list_fmap concat].
  intros Hn. apply app_nil_iff in Hn as [H1 H2]. destruct (analyze_expr a G e) as [t errs] eqn:E. simpl in *. subst errs.
  apply He in E as [? ?]. destruct (IH H2). split; by constructor.
Qed.

Lemma literal_sound s fs fields : structs a !! s = Some fs -> Forall (fun f => sound_at f.2) fields ->
  Forall (fun f => (let '(t, errs) := analyze_expr a G f.2 in errs ++ field_errors fs f.1 t) = []) fields ->
  Forall (fun f => exists t, fs !! f.1 = Some t /\ has_type a G f.2 t) fields.
Proof.
  intros Hs Hf Hn. rewrite Forall_forall in *. intros f Hin. specialize (Hf f Hin). specialize (Hn f Hin). simpl in *.
  destruct (analyze_expr a G f.2) as [t errs] eqn:E. apply app_nil_iff in Hn as [-> Hn]. apply Hf in E as [Ht Hok].
  exists t. split; [|done]. apply field_nil in Hn; [done|]. by apply (ty_ok_known a).
Qed.

Lemma expr_sound e : sound_at e.
Proof.
  induction e using expr_nested_ind; intros t Ht; simpl in Ht.
  - simplify_eq. by repeat constructor.
  - destruct (G !! x) as [u|] eqn:E; simplify_eq. split; [by constructor|]. by apply (HG x).
  - simplify_eq. by repeat constructor.
  - destruct (analyze_expr a G e) as [u errs] eqn:E. simplify_eq/=. destruct (IHe u E). split; [by econstructor|done].
  - destruct (analyze_expr a G e) as [u errs] eqn:E. destruct u; simplify_eq/=; try (by destruct errs); [|by apply IHe in E as [_ []]].
    destruct (structs a !! name) as [fs|] eqn:Es.
    + destruct (fs !! f) as [ft|] eqn:Ef; simplify_eq; [|by destruct errs].
      apply IHe in E as [? _]. split; [by econstructor|]. by apply (decl_fields _ Hdecls name fs Es f).
    + simplify_eq. apply IHe in E as [_ [? Hd]]. congruence.
  - destruct (structs a !! x) as [sfs|] eqn:Es; [|done]. injection Ht as <- Ht.
    apply app_nil_iff in Ht as [H1 Ht]. apply app_nil_iff in Ht as [H2 H3].
    apply concat_map_nil in H1. apply (literal_sound x) in H1; [|done..]. apply missing_nil in H2.
    apply duplicate_nil in H3 as [H3 _]. split; [|by eexists].
    econstructor; [done..| |done]. apply set_eq. intros f. split; [apply H2|]. intros Hf.
    apply elem_of_list_to_set, list_elem_of_fmap in Hf as (p & -> & Hin).
    rewrite Forall_forall in H1. destruct (H1 p Hin) as (u & Hu & _). apply elem_of_dom. by eexists.
  - destruct (analyze_expr a G e1) as [lt le] eqn:E1, (analyze_expr a G e2) as [rt re] eqn:E2.
    injection Ht as <- Ht. apply app_nil_iff in Ht as [-> Ht]. apply app_nil_iff in Ht as [-> Ht].
    apply IHe1 in E1 as [H1 K1]. apply IHe2 in E2 as [H2 K2].
    apply binary_nil in Ht as [-> Hc]; [|by apply (ty_ok_known a)..].
    split; [by constructor|]. by destruct (is_comparison op).
  - destruct (functions a !! x) as [[params ret]|] eqn:Ef; [|by injection Ht as _ Ht; apply app_nil in Ht as [_ ?]].
    injection Ht as <- Ht. apply app_nil_iff in Ht as [H1 H2]. destruct (args_sound args H H1) as [Ha Hk].
    destruct (decl_functions _ Hdecls x _ Ef) as [Hp Hr]. simpl in Hp, Hr.
    destruct (Nat.eqb_spec (length params) (length args)) as [Hlen|]; [|done]. simpl in H2.
    apply argument_nil in H2; [| |by eapply Forall_impl; [exact Hk|apply (ty_ok_known a)]|by rewrite !length_fmap].
    + split; [|done]. econstructor; [done|]. by rewrite H2.
    + eapply Forall_impl; [exact Hp|apply (ty_ok_known a)].
Qed.

Definition complete_at (e : Expr) : Prop :=
  forall t, has_type a G e t -> analyze_expr a G e = (t, []).

Lemma args_complete args ts : Forall complete_at args -> Forall2 (has_type a G) args ts ->
  (map (analyze_expr a G) args).*1 = ts /\ concat (map (analyze_expr a G) args).*2 = [].
Proof.
  intros Ha Hts. revert Ha. induction Hts as [|e t args ts He _ IH]; intros Ha; [done|].
  apply Forall_cons in Ha as [Hc Ha]. destruct (IH Ha) as [E1 E2].
  cbn [map fmap list_fmap concat]. rewrite (Hc t He). split; [|exact E2]. cbn [fst]. f_equal. exact E1.
Qed.

Lemma expr_complete e : complete_at e.
Proof.
  induction e using expr_nested_ind; intros t Ht; simpl; inversion Ht; subst.
  - done.
  - match goal with H : G !! _ = _ |- _ => by rewrite H end.
  - done.
  - by erewrite IHe.
  - erewrite IHe by eassumption. cbv iota beta. by simplify_option_eq.
  - match goal with H : structs a !! _ = _ |- _ => rewrite H end. f_equal. rewrite !app_nil_iff. split_and!.
    + apply concat_map_nil, Forall_forall. intros f Hin. rewrite Forall_forall in *.
      match goal with H : forall x, x ∈ fs -> exists t, _ |- _ => destruct (H f Hin) as (u & Hu & Hf) end.
      pose proof (H f Hin u Hf) as E. rewrite E. simpl. apply field_nil; [|done].
      apply expr_sound in E as [_ K]. by apply (ty_ok_known a).
    + apply missing_nil. set_solver.
    + apply duplicate_nil. split; [done|]. apply Forall_forall. set_solver.
  - rewrite (IHe1 _ ltac:(eassumption)), (IHe2 _ ltac:(eassumption)). f_equal. apply binary_nil; [..|done].
    + eapply (ty_ok_known a), expr_sound, IHe1; eassumption.
    + eapply (ty_ok_known a), expr_sound, IHe1; eassumption.
  - match goal with H : functions a !! _ = _ |- _ => rewrite H; rename H into Hf end.
    match goal with Hts : Forall2 _ args _ |- _ =>
      pose proof (Forall2_length _ _ _ Hts) as Hlen; destruct (args_complete _ _ H Hts) as [E1 E2] end.
    rewrite E1, E2, <- Hlen, Nat.eqb_refl. simpl. f_equal.
    destruct (decl_functions _ Hdecls x _ Hf) as [Hp _]. simpl in Hp.
    assert (Hk : Forall (fun t => t <> TUnknown) ts) by (eapply Forall_impl; [exact Hp|apply (ty_ok_known a)]).
    by apply argument_nil.
Qed.

Lemma expr_exact e t : analyze_expr a G e = (t, []) <-> has_type a G e t.
Proof. split; [intros H; by apply expr_sound|apply expr_complete]. Qed.

Lemma has_type_ok e t : has_type a G e t -> ty_ok a t.
Proof. intros H. by apply (expr_sound e), expr_complete. Qed.

(** No errors at all: some type. *)
Lemma expr_errors_nil e : (analyze_expr a G e).2 = [] <-> exists t, has_type a G e t.
Proof.
  split.
  - intros H. exists (analyze_expr a G e).1. apply expr_exact. by destruct (analyze_expr a G e); simpl in *; subst.
  - intros [t H]. apply expr_exact in H. by rewrite H.
Qed.

End expressions.

(** ** Statements *)

Section statements.
Variable a : SemanticAnalyzer.
Hypothesis Hdecls : decls_ok a.
Variable ret : Ty.
Hypothesis Hret : ty_ok a ret.

Record stmt_exact (s : Stmt) : Prop := {
  stmt_sound : forall G G', env_ok a G -> analyze_stmt a ret G s = (G', []) -> stmt_typed a ret G s G';
  stmt_complete : forall G G', env_ok a G -> stmt_typed a ret G s G' -> analyze_stmt a ret G s = (G', []);
  stmt_env : forall G G', env_ok a G -> stmt_typed a ret G s G' -> env_ok a G';
}.

Record body_exact (l : list Stmt) : Prop := {
  body_sound : forall G G', env_ok a G ->
    analyze_body (analyze_stmt a ret) G l = (G', []) -> body_typed a ret G l G';
  body_complete : forall G G', env_ok a G ->
    body_typed a ret G l G' -> analyze_body (analyze_stmt a ret) G l = (G', []);
  body_env : forall G G', env_ok a G -> body_typed a ret G l G' -> env_ok a G';
}.

Lemma analyze_body_cons f G (s : Stmt) l : analyze_body f G (s :: l) =
  let '(G1, e1) := f G s in let '(G2, e2) := analyze_body f G1 l in (G2, e1 ++ e2).
Proof. done. Qed.

Lemma body_of l : Forall stmt_exact l -> body_exact l.
Proof.
  induction 1 as [|s l Hs _ IH].
  { split; intros G G' HG H; [simpl in H; simplify_eq; constructor|by inversion H|by inversion H; subst]. }
  split; intros G G' HG H; [rewrite analyze_body_cons in H|rewrite analyze_body_cons|].
  - destruct (analyze_stmt a ret G s) as [G1 e1] eqn:E1.
    destruct (analyze_body (analyze_stmt a ret) G1 l) as [G2 e2] eqn:E2.
    injection H as <- H. apply app_nil_iff in H as [-> ->].
    apply (stmt_sound _ Hs) in E1; [|done]. apply (body_sound _ IH) in E2; [by econstructor|].
    by eapply (stmt_env _ Hs).
  - inversion H as [|? ? G1 ? ? H1 H2]; subst. rewrite (stmt_complete _ Hs G G1 HG H1).
    by rewrite (body_complete _ IH G1 G' (stmt_env _ Hs G G1 HG H1) H2).
  - inversion H as [|? ? G1 ? ? H1 H2]; subst. eapply (body_env _ IH); [|done]. by eapply (stmt_env _ Hs).
Qed.

Lemma body_errors_nil l G : body_exact l -> env_ok a G ->
  (analyze_body (analyze_stmt a ret) G l).2 = [] <-> exists G', body_typed a ret G l G'.
Proof.
  intros Hl HG. split.
  - intros H. destruct (analyze_body (analyze_stmt a ret) G l) as [G' e] eqn:E. simpl in H. subst e.
    exists G'. by apply (body_sound _ Hl).
  - intros [G' H]. by rewrite (body_complete _ Hl G G' HG H).
Qed.

Lemma clash_typed G e t u : env_ok a G -> ty_ok a u -> has_type a G e t -> clash t u = false <-> t = u.
Proof. intros HG Hu H. apply clash_known; apply (ty_ok_known a); [by eapply has_type_ok|done]. Qed.

Lemma env_insert G x t : env_ok a G -> ty_ok a t -> env_ok a (<[x := t]> G).
Proof. intros. by apply map_Forall_insert_2. Qed.

(** The typing of an expression whose analysis reported nothing. *)
Lemma typed_of G e t errs : env_ok a G -> analyze_expr a G e = (t, errs) -> errs = [] -> has_type a G e t.
Proof. intros HG E ->. by apply expr_exact. Qed.

Lemma typed_nil G e : env_ok a G -> (analyze_expr a G e).2 = [] -> exists t, has_type a G e t.
Proof. intros HG. by apply expr_errors_nil. Qed.

Lemma nil_typed G e t : env_ok a G -> has_type a G e t -> (analyze_expr a G e).2 = [].
Proof. intros HG H. apply expr_errors_nil; eauto. Qed.

(** Split [H : (G1, errors) = (G', [])] into the parts of the errors, and turn
    the analyses without errors into typings. *)
Ltac no_errors H :=
  repeat match type of H with
  | context [analyze_expr a ?G ?e] => let t := fresh "t" in destruct (analyze_expr a G e) as [t ?] eqn:?
  end;
  injection H as H; simpl in *; subst;
  repeat match goal with
  | H : ?l = [] |- _ => is_var l; subst l
  | H : _ ++ _ = [] |- _ => apply app_nil_iff in H as [? ?]
  | H : push _ _ = [] |- _ => apply push_nil in H
  | H : check_condition_type _ = [] |- _ => apply push_nil in H
  | HG : env_ok a ?G, H : analyze_expr a ?G _ = (_, []) |- _ => apply (typed_of _ _ _ _ HG) in H; [|done]
  end.

(** Replace the analyses of typed expressions by their results. *)
Ltac analysed :=
  repeat match goal with
  | HG : env_ok a ?G, H : has_type a ?G ?e ?t |- context [analyze_expr a ?G ?e] =>
      rewrite (proj2 (expr_exact a Hdecls G HG e t) H)
  end; simpl.

Lemma if_parts G c t f G1 e1 G2 e2 : forall (H1 : analyze_body (analyze_stmt a ret) G t = (G1, e1))
  (H2 : match f with Some f => analyze_body (analyze_stmt a ret) G1 f | None => (G1, []) end = (G2, e2)),
  analyze_stmt a ret G (SIf c t f) =
  (G2, (analyze_expr a G c).2 ++ check_condition_type (analyze_expr a G c).1 ++ e1 ++ e2).
Proof. intros H1 H2. simpl. destruct (analyze_expr a G c). rewrite H1, H2. done. Qed.

Lemma exact_let x e : stmt_exact (SLet x e).
Proof.
  split; intros G G' HG H.
  - simpl in H. no_errors H. by constructor.
  - inversion H; subst. simpl. analysed. done.
  - inversion H; subst. apply env_insert; [done|]. by eapply has_type_ok.
Qed.

Lemma exact_constrain e : stmt_exact (SConstrain e).
Proof.
  split; intros G G' HG H.
  - simpl in H. no_errors H. by econstructor.
  - inversion H; subst. simpl. analysed. unfold check_condition_type. 
    match goal with Hs : is_struct_or_void _ = false |- _ => by rewrite Hs end.
  - by inversion H; subst.
Qed.

Lemma exact_assign x e : stmt_exact (SAssign x e).
Proof.
  split; intros G G' HG H.
  - simpl in H. destruct (G !! x) as [u|] eqn:Ex; [|done]. no_errors H.
    econstructor; [done|]. pose proof (HG x u Ex) as Hu.
    match goal with K : has_type a _ e ?v |- _ => by rewrite <- (proj1 (clash_typed _ e v u HG Hu K)) end.
  - inversion H; subst. simpl. match goal with E : G' !! x = Some _, K : has_type a _ e _ |- _ =>
      rewrite E; analysed; by rewrite (proj2 (clash_typed _ _ _ _ HG (HG _ _ E) K)) end.
  - by inversion H; subst.
Qed.

Lemma exact_storage x e : stmt_exact (SStorageWrite x e).
Proof.
  split; intros G G' HG H.
  - simpl in H. no_errors H. by econstructor.
  - inversion H; subst. simpl. analysed. done.
  - by inversion H; subst.
Qed.

Lemma exact_mapping x k v : stmt_exact (SMappingWrite x k v).
Proof.
  split; intros G G' HG H.
  - simpl in H. no_errors H. by econstructor.
  - inversion H; subst. simpl. analysed. done.
  - by inversion H; subst.
Qed.

Lemma exact_if c t f : Forall stmt_exact t -> (forall b, f = Some b -> Forall stmt_exact b) -> stmt_exact (SIf c t f).
Proof.
  intros Ht Hf. assert (Hbt : body_exact t) by (by apply body_of).
  assert (Hbf : body_exact (default [] f)) by (apply body_of; destruct f; [by apply Hf|constructor]).
  assert (Hm : forall G1, match f with Some f => analyze_body (analyze_stmt a ret) G1 f | None => (G1, []) end =
               analyze_body (analyze_stmt a ret) G1 (default [] f)) by (by destruct f).
  split; intros G G' HG H.
  - destruct (analyze_body (analyze_stmt a ret) G t) as [G1 e1] eqn:E1.
    destruct (analyze_body (analyze_stmt a ret) G1 (default [] f)) as [G2 e2] eqn:E2.
    rewrite (if_parts G c t f G1 e1 G2 e2 E1 ltac:(by rewrite Hm)) in H. no_errors H.
    apply (body_sound _ Hbt) in E1; [|done]. pose proof (body_env _ Hbt _ _ HG E1).
    apply (body_sound _ Hbf) in E2; [|done]. by econstructor.
  - inversion H as [| | | | |? ? ? ? G1 ? ? Hc Hs H1 H2| | | | | | |]; subst.
    pose proof (body_env _ Hbt _ _ HG H1) as HG1.
    rewrite (if_parts G c t f G1 [] G' []).
    + analysed. unfold check_condition_type. by rewrite Hs.
    + by apply (body_complete _ Hbt).
    + rewrite Hm. by apply (body_complete _ Hbf).
  - inversion H as [| | | | |? ? ? ? G1 ? ? Hc Hs H1 H2| | | | | | |]; subst.
    eapply (body_env _ Hbf); [|done]. by eapply (body_env _ Hbt).
Qed.

Lemma exact_while c b : Forall stmt_exact b -> stmt_exact (SWhile c b).
Proof.
  intros Hb. apply body_of in Hb. split; intros G G' HG H.
  - simpl in H. destruct (analyze_body (analyze_stmt a ret) G b) as [G1 e1] eqn:E1. no_errors H.
    apply (body_sound _ Hb) in E1; [|done]. by econstructor.
  - inversion H as [| | | | | |? ? ? ? ? Hc Hs H1| | | | | |]; subst. simpl.
    rewrite (body_complete _ Hb _ _ HG H1). analysed. unfold check_condition_type. by rewrite Hs.
  - inversion H as [| | | | | |? ? ? ? ? Hc Hs H1| | | | | |]; subst. by eapply (body_env _ Hb).
Qed.

Lemma exact_for x st e b : Forall stmt_exact b -> stmt_exact (SFor x st e b).
Proof.
  intros Hb. apply body_of in Hb. split; intros G G' HG H.
  - simpl in H. injection H as <- H. apply app_nil_iff in H as [H1 H]. apply app_nil_iff in H as [H2 H].
    apply typed_nil in H1 as [t1 H1]; [|done]. apply typed_nil in H2 as [t2 H2]; [|done].
    apply body_errors_nil in H as [G1 H]; [|done|by apply env_insert]. by econstructor.
  - inversion H as [| | | | | | |? ? ? ? ? ? ? G1 H1 H2 H3| | | | |]; subst. simpl. analysed.
    rewrite (body_complete _ Hb _ G1); [done| |done]. by apply env_insert.
  - by inversion H; subst.
Qed.

Lemma exact_return e : stmt_exact (SReturn e).
Proof.
  split; intros G G' HG H.
  - destruct e as [e|]; simpl in H; no_errors H.
    + match goal with K : has_type a _ e ?v |- _ => pose proof (proj1 (clash_typed _ e v ret HG Hret K)) as Hr end.
      constructor. rewrite <- Hr; done.
    + constructor. symmetry. apply clash_known; [done|by apply (ty_ok_known a)|done].
  - inversion H as [| | | | | | | |? ? He|? He| | |]; subst; simpl.
    + analysed. by rewrite (proj2 (clash_typed _ _ _ _ HG Hret He)).
    + done.
  - by inversion H; subst.
Qed.

Lemma exact_emit x args : stmt_exact (SEmit x args).
Proof.
  split; intros G G' HG H.
  - simpl in H. injection H as <- H. constructor. apply concat_map_nil in H.
    eapply Forall_impl; [exact H|]. intros e He. by apply typed_nil.
  - inversion H as [| | | | | | | | | |? ? ? Ha| |]; subst. simpl. f_equal. apply concat_map_nil.
    eapply Forall_impl; [exact Ha|]. intros e [t He]. by eapply nil_typed.
  - by inversion H; subst.
Qed.

Lemma exact_match e arms : Forall (fun arm => Forall stmt_exact arm.2) arms -> stmt_exact (SMatch e arms).
Proof.
  intros Harms. assert (Hb : Forall (fun arm => body_exact arm.2) arms).
  { eapply Forall_impl; [exact Harms|]. intros arm. apply body_of. }
  rewrite Forall_forall in Hb. split; intros G G' HG H.
  - simpl in H. no_errors H.
    econstructor; [done| |].
    + repeat case_bool_decide; naive_solver.
    + apply Forall_forall. intros arm Hin.
      match goal with K : concat (map _ arms) = [] |- _ => apply concat_map_nil in K; rewrite Forall_forall in K; specialize (K arm Hin) end.
      apply body_errors_nil; auto.
  - inversion H as [| | | | | | | | | | |? ? t ? He Hor Ha|]; subst. simpl. analysed. f_equal.
    apply app_nil_iff. split; [destruct Hor as [-> | ->]; done|].
    apply concat_map_nil, Forall_forall. intros arm Hin. rewrite Forall_forall in Ha. apply body_errors_nil; auto.
  - by inversion H; subst.
Qed.

Lemma exact_expr e : stmt_exact (SExpr e).
Proof.
  split; intros G G' HG H.
  - simpl in H. no_errors H. by econstructor.
  - inversion H; subst. simpl. analysed. done.
  - by inversion H; subst.
Qed.

Lemma stmt_is_exact s : stmt_exact s.
Proof.
  induction s using stmt_nested_ind; eauto using exact_let, exact_constrain, exact_assign, exact_storage,
    exact_mapping, exact_if, exact_while, exact_for, exact_return, exact_emit, exact_match, exact_expr.
Qed.

End statements.

(** ** Contracts *)

Lemma type_or_unknown_declared a s : type_declared a s -> ty_ok a (type_or_unknown s).
Proof. intros (t & E & Ht). unfold type_or_unknown. by rewrite E. Qed.

Lemma struct_fields_lookup fs m m' : struct_fields fs m = Ok m' -> forall x t, m' !! x = Some t ->
  m !! x = Some t \/ exists f, f ∈ fs /\ from_str (sf_ty f) = Ok t.
Proof.
  revert m. induction fs as [|f fs IH]; intros m H x t Hx; simpl in H; [simplify_eq; by left|].
  inv_ok H. destruct (IH _ H x t Hx) as [Hm|(f' & Hin & Ef)].
  - destruct (decide (x = sf_name f)) as [->|]; [|rewrite lookup_insert_ne in Hm by done; by left].
    rewrite lookup_insert_eq in Hm. simplify_eq. right. exists f. split; [left|done].
  - right. exists f'. split; [by right|done].
Qed.

Lemma register_structs_lookup ss m m' : register_structs ss m = Ok m' -> forall n fs, m' !! n = Some fs ->
  m !! n = Some fs \/ exists s, s ∈ ss /\ struct_fields (s_fields s) ∅ = Ok fs.
Proof.
  revert m. induction ss as [|s ss IH]; intros m H n fs Hn; simpl in H; [simplify_eq; by left|].
  inv_ok H. destruct (IH _ H n fs Hn) as [Hm|(s' & Hin & Es)].
  - destruct (decide (n = s_name s)) as [->|]; [|rewrite lookup_insert_ne in Hm by done; by left].
    rewrite lookup_insert_eq in Hm. simplify_eq. right. exists s. split; [left|done].
  - right. exists s'. split; [by right|done].
Qed.

Lemma signatures_ok (P : list Ty * Ty -> Prop) fs :
  (forall ts, Forall (eq TU64) ts -> P (ts, TU64)) -> Forall (fun f => P (signature f)) fs ->
  map_Forall (fun _ s => P s) (signatures fs).
Proof.
  intros Hb Hfs. unfold signatures, builtins.
  repeat (apply map_Forall_insert_2; [apply Hb; by repeat constructor|]).
  assert (H : map_Forall (fun _ s => P s) (∅ : gmap string (list Ty * Ty))) by apply map_Forall_empty.
  revert H. generalize (∅ : gmap string (list Ty * Ty)) as m.
  induction Hfs as [|f fs Hf _ IH]; intros m Hm; [done|]. apply IH. by apply map_Forall_insert_2.
Qed.

Lemma param_env_ok a f : Forall (fun p => type_declared a (p_ty p)) (f_params f) -> env_ok a (param_env f).
Proof.
  unfold param_env, env_ok. intros Hp. assert (H : map_Forall (fun _ t => ty_ok a t) (∅ : Env)) by apply map_Forall_empty.
  revert H. generalize (∅ : Env) as m. induction Hp as [|p ps Hp _ IH]; intros m Hm; [done|].
  apply IH. apply map_Forall_insert_2; [by apply type_or_unknown_declared|done].
Qed.

Lemma return_type_ok a f : (forall r, f_return_type f = Some r -> type_declared a r) -> ty_ok a (return_type f).
Proof.
  intros H. unfold return_type. destruct (f_return_type f) as [r|]; [|done]. by apply type_or_unknown_declared, H.
Qed.

Section contract.
Variable c : Contract.
Variable a : SemanticAnalyzer.
Hypothesis Hss : register_structs (c_structs c) ∅ = Ok (structs a).
Hypothesis Hfs : functions a = signatures (c_functions c).
Hypothesis Hfields : Forall (fun s => Forall (fun f => type_declared a (sf_ty f)) (s_fields s)) (c_structs c).
Hypothesis Hparams : Forall (fun f => Forall (fun p => type_declared a (p_ty p)) (f_params f)) (c_functions c).
Hypothesis Hreturns : Forall (fun f => forall r, f_return_type f = Some r -> type_declared a r) (c_functions c).

Lemma decls_of : decls_ok a.
Proof.
  split.
  - intros n fs Hn x t Hx. destruct (register_structs_lookup _ _ _ Hss n fs Hn) as [Hm|(s & Hin & Es)]; [done|].
    destruct (struct_fields_lookup _ _ _ Es x t Hx) as [Hm|(f & Hf & Et)]; [done|].
    rewrite Forall_forall in Hfields. specialize (Hfields s Hin). rewrite Forall_forall in Hfields.
    destruct (Hfields f Hf) as (t' & Et' & Hok). congruence.
  - rewrite Hfs. apply (signatures_ok (fun s => Forall (ty_ok a) s.1 /\ ty_ok a s.2)).
    + intros ts Hts. split; [|done]. eapply Forall_impl; [exact Hts|]. by intros ? <-.
    + rewrite Forall_forall in *. intros f Hin. split; [|by apply return_type_ok, Hreturns].
      apply Forall_fmap. eapply Forall_impl; [by apply Hparams|]. intros p. apply type_or_unknown_declared.
Qed.

Lemma function_exact f : f ∈ c_functions c ->
  analyze_function a f = [] <-> exists G, body_typed a (return_type f) (param_env f) (f_body f) G.
Proof.
  intros Hin. pose proof decls_of as Hd.
  pose proof (proj1 (Forall_forall _ _) Hparams f Hin) as Hp. pose proof (proj1 (Forall_forall _ _) Hreturns f Hin) as Hr.
  unfold analyze_function.
  apply body_errors_nil.
  - apply body_of. apply Forall_forall. intros s _. apply stmt_is_exact; [done|]. by apply return_type_ok.
  - by apply param_env_ok.
Qed.
End contract.

Lemma check_struct_nil a t : t <> TUnknown -> check_struct_type a t = [] <-> ty_ok a t.
Proof.
  intros Ht. destruct t; simpl; try done. rewrite push_nil, bool_decide_eq_false. by rewrite <- not_eq_None_Some.
Qed.

Lemma declared_nil a s e : push (negb (is_ok (from_str s))) e ++ check_struct_type a (type_or_unknown s) = [] <->
  type_declared a s.
Proof.
  unfold type_or_unknown, type_declared. rewrite app_nil_iff, push_nil, negb_false_iff.
  destruct (from_str s) as [t|] eqn:E; simpl; [|naive_solver].
  assert (t <> TUnknown) by (unfold from_str in E; repeat case_decide; naive_solver).
  rewrite check_struct_nil by done. naive_solver.
Qed.

Lemma struct_errors_nil a s : struct_errors a s = [] <-> Forall (fun f => type_declared a (sf_ty f)) (s_fields s).
Proof.
  unfold struct_errors. rewrite concat_map_nil. apply Forall_proper; [|done]. intros f.
  rewrite <- (declared_nil a (sf_ty f) (ReservedTypeName EmptyString)). unfold type_or_unknown.
  destruct (from_str (sf_ty f)); simpl; [done|]. naive_solver.
Qed.

Lemma signature_errors_nil a f : signature_errors a f = [] <->
  Forall (fun p => type_declared a (p_ty p)) (f_params f) /\
  (forall r, f_return_type f = Some r -> type_declared a r).
Proof.
  unfold signature_errors. rewrite app_nil_iff, concat_map_nil.
  rewrite (Forall_proper _ (fun p => type_declared a (p_ty p)) (fun p => declared_nil a _ _) _ _ eq_refl).
  destruct (f_return_type f) as [r|]; [rewrite declared_nil|]; naive_solver.
Qed.

(** C4: the analyzer accepts a contract exactly when the typing rules derive
    it: the types of struct fields, parameters and results exist (those of
    storage fields are not looked at), and every function body is well typed in
    the scope of its parameters - operands and arguments have the types
    expected, no arithmetic on structs, addresses and hashes, struct literals
    give every field once, conditions are neither structs nor void, matches are
    on integers or booleans, with or without a wildcard arm, and returns match
    the signature. *)
Theorem sema_exact (c : Contract) : analyze c = Ok tt <-> exists a, contract_typed c a.
Proof.
  unfold analyze. split.
  - intros H. inv_ok H. set (a := mkSema x (signatures (c_functions c))) in *.
    destruct (_ ++ _) as [|e l] eqn:E in H; [|done].
    apply app_nil_iff in E as [E1 E]. apply app_nil_iff in E as [E2 E3].
    apply concat_map_nil in E1, E2, E3. exists a.
    assert (Hf : Forall (fun s => Forall (fun f => type_declared a (sf_ty f)) (s_fields s)) (c_structs c)).
    { eapply Forall_impl; [exact E1|]. intros s. apply struct_errors_nil. }
    assert (Hs : Forall (fun f => Forall (fun p => type_declared a (p_ty p)) (f_params f) /\
      (forall r, f_return_type f = Some r -> type_declared a r)) (c_functions c)).
    { eapply Forall_impl; [exact E2|]. intros f. apply signature_errors_nil. }
    apply Forall_and in Hs as [Hp Hr].
    split; try done. rewrite Forall_forall in *. intros f Hin. apply (function_exact c); auto; by apply Forall_forall.
  - intros [a [Hss Hfs Hf Hp Hr Hb]]. rewrite Hss. simpl. destruct a as [ss fs]. simpl in *. subst fs.
    set (a := mkSema ss (signatures (c_functions c))) in *.
    assert (E1 : concat (map (struct_errors a) (c_structs c)) = []).
    { apply concat_map_nil. eapply Forall_impl; [exact Hf|]. intros s. apply struct_errors_nil. }
    assert (E2 : concat (map (signature_errors a) (c_functions c)) = []).
    { apply concat_map_nil, Forall_forall. intros f Hin. apply signature_errors_nil.
      rewrite Forall_forall in Hp. rewrite Forall_forall in Hr. split; [by apply Hp|by apply Hr]. }
    assert (E3 : concat (map (analyze_function a) (c_functions c)) = []).
    { apply concat_map_nil, Forall_forall. intros f Hin. rewrite Forall_forall in Hb. by apply (function_exact c); [..|apply Hb]. }
    by rewrite E1, E2, E3.
Qed.

(** ** Two contracts the rules accept *)

Definition main_of (params : list Param) (ret : option string) (b : list Stmt) : Contract :=
  mkContract "T" [] [] [mkFunction "main" params ret b true].

(** [fn main(p: Address) { constrain(p); }]: an address passes as a condition. *)
Example address_condition_accepted :
  analyze (main_of [mkParam "p" "Address"] None [SConstrain (EIdent "p")]) = Ok tt.
Proof. vm_compute. reflexivity. Qed.

(** [fn main() -> u64 { if 0 { let x = 1; } return x; }]: a name declared only in
    a branch is visible after it. *)
Example branch_scope_accepted :
  analyze (main_of [] (Some "u64") [SIf (EInt 0) [SLet "x" (EInt 1)] None; SReturn (Some (EIdent "x"))]) = Ok tt.
Proof. vm_compute. reflexivity. Qed.

(** [fn main(p: u64) { match p { 1 => {} } }]: a match without a wildcard arm. *)
Example match_without_wildcard_accepted :
  analyze (main_of [mkParam "p" "u64"] None [SMatch (EIdent "p") [(IntLit 1, [])]]) = Ok tt.
Proof. vm_compute. reflexivity. Qed.

(** A storage field of a type that does not exist. *)
Example storage_type_unchecked :
  analyze (mkContract "T" [mkField "x" "Nowhere"] [] [mkFunction "main" [] None [] true]) = Ok tt.
Proof. vm_compute. reflexivity. Qed.

(** Arithmetic on an address and a literal that leaves out a field are refused. *)
Example address_arithmetic_refused :
  analyze (main_of [mkParam "p" "Address"] None [SLet "q" (EBinary (EIdent "p") Add (EIdent "p"))])
  = Err (OpaqueOperand Add TAddress).
Proof. vm_compute. reflexivity. Qed.

Example partial_literal_refused :
  analyze (mkContract "T" [] [mkStruct "P" [mkField "x" "u64"; mkField "y" "u64"]]
    [mkFunction "main" [] None [SLet "p" (EStructLiteral "P" [("x", EInt 1)])] true])
  = Err (MissingField "P" "y").
Proof. vm_compute. reflexivity. Qed.

End BudlSemaFacts.
