(* ===== verification/BudlCodegen.v ===== *)
(** * The BudL code generator (budzero/bud-compiler/src/codegen.rs)

    [Codegen] is the generator's state; every method is a program of the monad
    [G], which threads it and is [None] where the Rust code would panic (an
    argument or an instruction index out of range, an [i32] subtraction that
    overflows).  Registers are [u8] and jump offsets [i32]; [usize as i32] and
    [u64 as i32] truncate.  The scope of a function maps a variable to its
    [VarInfo]; a statement that takes [&mut scope] returns the new scope.  The
    cargo feature [experimental] is off.  The order in which a hash map yields
    the struct layouts is the parameter [layout_values]. *)

From Stdlib Require Import ZArith Lia.
From stdpp Require Import base tactics strings numbers pretty gmap list.
From S2P Require Import Prelude Isa Goldilocks BudlAst.
Import Isa BudlAst.
Open Scope Z_scope.

Module BudlCodegen.

(** [HEAP_BASE] of lib.rs. *)
Definition HEAP_BASE : Z := 4096.

Record VarInfo : Type := mkVar { v_reg : Z; v_struct_type : option string }.

Abbreviation Scope := (gmap string VarInfo).
Abbreviation StorageMap := (gmap string Z).

Record Codegen : Type := mkGen {
  instructions : list Z;
  next_reg : Z;
  g_profile : IsaProfile;
  g_error : option CompileError;
  unpatched_calls : list (Z * string);
  struct_layouts : gmap string (list string);
}.

Definition new_with_profile (p : IsaProfile) : Codegen := mkGen [] 1 p None [] ∅.
Definition gen_new : Codegen := new_with_profile Production.

Definition set_instructions (l : list Z) (g : Codegen) : Codegen :=
  mkGen l (next_reg g) (g_profile g) (g_error g) (unpatched_calls g) (struct_layouts g).
Definition set_next_reg (r : Z) (g : Codegen) : Codegen :=
  mkGen (instructions g) r (g_profile g) (g_error g) (unpatched_calls g) (struct_layouts g).
Definition set_error (e : option CompileError) (g : Codegen) : Codegen :=
  mkGen (instructions g) (next_reg g) (g_profile g) e (unpatched_calls g) (struct_layouts g).
Definition set_calls (c : list (Z * string)) (g : Codegen) : Codegen :=
  mkGen (instructions g) (next_reg g) (g_profile g) (g_error g) c (struct_layouts g).
Definition set_layouts (m : gmap string (list string)) (g : Codegen) : Codegen :=
  mkGen (instructions g) (next_reg g) (g_profile g) (g_error g) (unpatched_calls g) m.

(** ** The monad of [&mut self] methods *)

Definition G (A : Type) : Type := Codegen -> option (A * Codegen).
Definition gret {A} (a : A) : G A := fun g => Some (a, g).
Definition gbind {A B} (m : G A) (k : A -> G B) : G B := fun g =>
  match m g with
  | Some (a, g) => k a g
  | None => None
  end.
Definition gget : G Codegen := fun g => Some (g, g).
Definition gmodify (f : Codegen -> Codegen) : G unit := fun g => Some (tt, f g).
Definition or_panic {A} (o : option A) : G A := fun g => (fun a => (a, g)) <$> o.

Declare Scope gen_scope.
Delimit Scope gen_scope with gen.
Notation "x <~ m ; k" := (gbind m (fun x => k))
  (at level 100, m at next level, right associativity) : gen_scope.
Notation "m ~; k" := (gbind m (fun _ => k))
  (at level 100, right associativity) : gen_scope.
Open Scope gen_scope.

(** [for x in l { f x }], threading an accumulator. *)
Definition gfold {A B} (f : B -> A -> G B) : list A -> B -> G B :=
  fix go (l : list A) (b : B) : G B :=
    match l with
    | [] => gret b
    | x :: l => b <~ f b x; go l b
    end.
Definition giter {A} (f : A -> G unit) (l : list A) : G unit := gfold (fun _ x => f x) l tt.

(** [if self.error.is_none() { self.error = Some(e) }] *)
Definition raise_once (e : CompileError) : G unit :=
  gmodify (fun g => match g_error g with None => set_error (Some e) g | Some _ => g end).

Definition codegen_error (msg : string) : G unit := raise_once (CodegenError msg).

Definition len : G Z := g <~ gget; gret (zlen (instructions g)).
Definition cur_reg : G Z := g <~ gget; gret (next_reg g).
Definition put_reg (r : Z) : G unit := gmodify (set_next_reg r).

(** [(a as i32) - (b as i32)], with overflow checks on. *)
Definition offset_of (a b : Z) : G Z :=
  let d := i32_of_u64 a - i32_of_u64 b in
  if (- I32_HALF <=? d) && (d <? I32_HALF) then gret d else or_panic None.

Definition alloc_reg : G Z :=
  r <~ cur_reg;
  if 31 <=? r then raise_once RegisterExhausted ~; gret 30
  else put_reg (r + 1) ~; gret r.

Definition emit (op : Opcode) (rd rs1 rs2 im : Z) : G unit :=
  if is_experimental op then
    raise_once (ExperimentalOpcodeDisabled
      ("Opcode " +:+ opcode_debug op +:+ " is experimental and disabled in production"))
  else
    gmodify (fun g => set_instructions
      (instructions g ++ [encode {| opcode := op; rd := rd; rs1 := rs1; rs2 := rs2; imm := im |}]) g).

Definition patch_jump (idx offset : Z) : G unit :=
  g <~ gget;
  match g_error g with
  | Some _ => gret tt
  | None =>
      raw <~ or_panic (instructions g !! Z.to_nat idx);
      match decode_any raw with
      | Err _ => codegen_error "patch_jump: failed to decode instruction"
      | Ok i =>
          gmodify (fun g => set_instructions
            (<[Z.to_nat idx :=
                encode {| opcode := opcode i; rd := rd i; rs1 := rs1 i; rs2 := rs2 i; imm := offset |}]>
               (instructions g)) g)
      end
  end.

Definition patch_to (idx target : Z) : G unit := o <~ offset_of target idx; patch_jump idx o.

Definition expr_struct_type (e : Expr) (scope : Scope) : option string :=
  match e with
  | EStructLiteral name _ => Some name
  | EIdent name => vi ← scope !! name; v_struct_type vi
  | _ => None
  end.

Definition opcode_of (op : BinOp) : Opcode :=
  match op with
  | Add => OpAdd | Sub => OpSub | Mul => OpMul | Div => OpDiv
  | Eq => OpEq | Neq => OpNeq | Lt => OpLt | Gt => OpGt | Lte => OpLte | Gte => OpGte
  end.

(** ** Integer literals *)

(** The loop over the base-2^30 digits: [started] says whether the register
    holds a prefix already. *)
Definition emit_digit (reg shift_reg temp_reg : Z) (started : bool) (chunk : Z) : G bool :=
  if (0 <? chunk) || started then
    if started then
      emit OpMul reg reg shift_reg 0 ~;
      (if 0 <? chunk then
         emit OpLoad temp_reg 0 0 chunk ~; emit OpAdd reg reg temp_reg 0
       else gret tt) ~;
      gret true
    else emit OpLoad reg 0 0 chunk ~; gret true
  else gret started.

Definition literal_digits (v : Z) : list Z :=
  [Z.land (Z.shiftr v 60) 0xF; Z.land (Z.shiftr v 30) 0x3FFFFFFF; Z.land v 0x3FFFFFFF].

Arguments literal_digits _ : simpl never.

Definition generate_int (v : Z) : G Z :=
  if Goldilocks.GOLDILOCKS_P <=? v then
    codegen_error ("integer literal " +:+ pretty v +:+
      " exceeds the Goldilocks field modulus (max " +:+ pretty (Goldilocks.GOLDILOCKS_P - 1) +:+ ")") ~;
    gret 0
  else if v <=? I32_HALF - 1 then
    reg <~ alloc_reg; emit OpLoad reg 0 0 (i32_of_u64 v) ~; gret reg
  else
    reg <~ alloc_reg;
    shift_reg <~ alloc_reg;
    emit OpLoad shift_reg 0 0 1073741824 ~;
    temp_reg <~ alloc_reg;
    gfold (emit_digit reg shift_reg temp_reg) (literal_digits v) false ~;
    gret reg.

(** The register a binary operation leaves its result in. *)
Definition result_reg (l_reg saved1 r_reg saved2 : Z) : G Z :=
  if saved1 <=? l_reg then gret l_reg
  else if saved2 <=? r_reg then gret r_reg
  else alloc_reg.

(** Two operands, the operation on them, and the reclaimed registers. *)
Definition generate_binary (gen_l gen_r : G Z) (op : Opcode) : G Z :=
  saved1 <~ cur_reg;
  l_reg <~ gen_l;
  saved2 <~ cur_reg;
  r_reg <~ gen_r;
  res <~ result_reg l_reg saved1 r_reg saved2;
  emit op res l_reg r_reg 0 ~;
  put_reg (Z.max (res + 1) saved1) ~;
  gret res.

(** [fields.iter().position(|f| f == field)] *)
Definition field_position (field : string) (fields : list string) : option Z :=
  (fun p => Z.of_nat p.1) <$> list_find (fun f => f = field) fields.

(** The offset a struct literal stores a field at. *)
Definition literal_offset (layout : option (list string)) (name fname : string)
    (vals : list (Z * Z)) : G Z :=
  match fs ← layout; field_position fname fs with
  | Some idx => gret (idx * 8)
  | None =>
      codegen_error ("Field '" +:+ fname +:+ "' not found in struct '" +:+ name +:+ "' literal") ~;
      gret (zlen vals * 8)
  end.

(** [for fields in values { if let Some(idx) = .. { offset = idx * 8; break; } }] *)
Fixpoint scan_layouts (field : string) (layouts : list (list string)) : Z :=
  match layouts with
  | [] => 0
  | fields :: layouts =>
      match field_position field fields with
      | Some idx => idx * 8
      | None => scan_layouts field layouts
      end
  end.

Definition syscall_call (n : Z) : G Z :=
  res <~ alloc_reg; emit OpSyscall res 0 0 n ~; gret res.

(** [1..n] *)
Definition regs_below (n : Z) : list Z := seqZ 1 (n - 1).

(** The path address of [verify_merkle_proof] must be a literal. *)
Definition merkle_path (e : Expr) : result Z string :=
  match e with
  | EInt v =>
      if I32_HALF - 1 <? v then
        Err ("verify_merkle_proof path address " +:+ pretty v +:+ " exceeds i32::MAX")
      else Ok v
  | _ => Err "verify_merkle_proof path argument must be a compile-time constant address fitting in i32"
  end.

Section codegen.
Variable layout_values : gmap string (list string) -> list (list string).

(** ** Expressions *)

Definition emit_stores (ptr_reg : Z) (field_vals : list (Z * Z)) : G unit :=
  giter (fun ov => emit OpStore 0 ptr_reg ov.2 (i32_of_u64 ov.1)) field_vals.

Fixpoint generate_expr (e : Expr) (scope : Scope) (storage : StorageMap) {struct e} : G Z :=
  g <~ gget;
  match g_error g with
  | Some _ => gret 0
  | None =>
    match e with
    | EInt v => generate_int v
    | EIdent name =>
        match scope !! name with
        | Some vi => gret (v_reg vi)
        | None => codegen_error ("Undefined variable in codegen: " +:+ name) ~; gret 0
        end
    | EStorageRead name =>
        reg <~ alloc_reg;
        match storage !! name with
        | Some slot => emit OpSRead reg 0 0 slot ~; gret reg
        | None => codegen_error ("Unknown storage variable in codegen: " +:+ name) ~; gret 0
        end
    | EMappingRead name key =>
        match storage !! name with
        | None => codegen_error ("Unknown mapping in codegen: " +:+ name) ~; gret 0
        | Some base_slot =>
            key_reg <~ generate_expr key scope storage;
            base_reg <~ alloc_reg;
            emit OpLoad base_reg 0 0 base_slot ~;
            target_slot_reg <~ alloc_reg;
            emit OpPoseidon target_slot_reg base_reg key_reg 0 ~;
            res_reg <~ alloc_reg;
            emit OpSRead res_reg 0 target_slot_reg (-1) ~;
            gret res_reg
        end
    | EStructLiteral name fields =>
        saved_next_reg <~ cur_reg;
        ptr_reg <~ alloc_reg;
        emit OpAdd ptr_reg 31 0 0 ~;
        g <~ gget;
        let layout := struct_layouts g !! name in
        field_vals <~
          gfold (fun vals fv =>
            val_reg <~ generate_expr fv.2 scope storage;
            off <~ literal_offset layout name fv.1 vals;
            gret (vals ++ [(off, val_reg)])) fields [];
        emit_stores ptr_reg field_vals ~;
        let size_words := match layout with Some fs => zlen fs | None => zlen fields end in
        size_reg <~ alloc_reg;
        emit OpLoad size_reg 0 0 (i32_of_u64 (size_words * 8)) ~;
        emit OpAdd 31 31 size_reg 0 ~;
        put_reg saved_next_reg ~;
        res_reg <~ alloc_reg;
        emit OpAdd res_reg ptr_reg 0 0 ~;
        gret res_reg
    | EFieldAccess base field =>
        let struct_type := expr_struct_type base scope in
        base_reg <~ generate_expr base scope storage;
        res_reg <~ alloc_reg;
        g <~ gget;
        off <~ match name ← struct_type; fs ← struct_layouts g !! name; Some (name, fs) with
               | Some (name, fs) =>
                   match field_position field fs with
                   | Some idx => gret (idx * 8)
                   | None =>
                       codegen_error ("Field '" +:+ field +:+ "' not found in struct '" +:+ name +:+ "'") ~;
                       gret 0
                   end
               | None => gret (scan_layouts field (layout_values (struct_layouts g)))
               end;
        emit OpLoad res_reg base_reg 0 (i32_of_u64 off) ~;
        gret res_reg
    | EBinary l op r =>
        generate_binary (generate_expr l scope storage) (generate_expr r scope storage) (opcode_of op)
    | ECall name args =>
        if decide (name = "poseidon") then
          match args with
          | a :: b :: _ =>
              generate_binary (generate_expr a scope storage) (generate_expr b scope storage) OpPoseidon
          | [a] => generate_expr a scope storage ~; or_panic None
          | [] => or_panic None
          end
        else if decide (name = "msg::sender") then syscall_call 1
        else if decide (name = "msg::nonce") then syscall_call 3
        else if decide (name = "block::number") then syscall_call 2
        else if decide (name = "verify_merkle_proof") then
          match args with
          | [] => or_panic None
          | [a] => generate_expr a scope storage ~; or_panic None
          | a :: b :: rest =>
              r_root <~ generate_expr a scope storage;
              r_leaf <~ generate_expr b scope storage;
              path <~ or_panic (head rest);
              match merkle_path path with
              | Err msg => codegen_error msg ~; gret 0
              | Ok path_addr =>
                  res <~ alloc_reg;
                  emit OpVerifyMerkle res r_root r_leaf (i32_of_u64 path_addr) ~;
                  gret res
              end
          end
        else
          saved_next_reg <~ cur_reg;
          giter (fun r => emit OpPush 0 r 0 0) (regs_below saved_next_reg) ~;
          arg_regs <~
            gfold (fun regs a => r <~ generate_expr a scope storage; gret (regs ++ [r])) args [];
          giter (fun r => emit OpPush 0 r 0 0) arg_regs ~;
          call_idx <~ len;
          emit OpCall 0 0 0 0 ~;
          gmodify (fun g => set_calls (unpatched_calls g ++ [(call_idx, name)]) g) ~;
          put_reg saved_next_reg ~;
          res_reg <~ alloc_reg;
          emit OpPop res_reg 0 0 0 ~;
          giter (fun r => emit OpPop r 0 0 0) (rev (regs_below saved_next_reg)) ~;
          gret res_reg
    end
  end.

(** ** Statements *)

(** The [StorageWrite], [MappingWrite] and [Assign] arms. *)
Definition generate_storage_write (name : string) (e : Expr) (scope : Scope)
    (storage : StorageMap) (saved_reg : Z) : G unit :=
  reg <~ generate_expr e scope storage;
  match storage !! name with
  | None => codegen_error ("Unknown storage variable: " +:+ name)
  | Some slot => emit OpSWrite 0 reg 0 slot ~; put_reg saved_reg
  end.

Definition generate_mapping_write (name : string) (key val : Expr) (scope : Scope)
    (storage : StorageMap) (saved_reg : Z) : G unit :=
  match storage !! name with
  | None => codegen_error ("Unknown mapping variable: " +:+ name)
  | Some base_slot =>
      key_reg <~ generate_expr key scope storage;
      val_reg <~ generate_expr val scope storage;
      base_reg <~ alloc_reg;
      emit OpLoad base_reg 0 0 base_slot ~;
      target_slot_reg <~ alloc_reg;
      emit OpPoseidon target_slot_reg base_reg key_reg 0 ~;
      emit OpSWrite 0 val_reg target_slot_reg (-1) ~;
      put_reg saved_reg
  end.

Definition generate_assign (name : string) (e : Expr) (scope : Scope)
    (storage : StorageMap) (saved_reg : Z) : G unit :=
  reg <~ generate_expr e scope storage;
  match scope !! name with
  | None => codegen_error ("Undefined variable: " +:+ name)
  | Some vi => emit OpAdd (v_reg vi) reg 0 0 ~; put_reg saved_reg
  end.

Definition generate_let (name : string) (e : Expr) (scope : Scope)
    (storage : StorageMap) (saved_reg : Z) : G Scope :=
  let struct_type := expr_struct_type e scope in
  reg <~ generate_expr e scope storage;
  put_reg (if saved_reg <=? reg then reg + 1 else saved_reg) ~;
  gret (<[name := mkVar reg struct_type]> scope).

Definition generate_return (e : option Expr) (scope : Scope) (storage : StorageMap)
    (saved_reg : Z) : G unit :=
  temp <~ alloc_reg;
  emit OpPop temp 0 0 0 ~;
  match e with
  | Some e => reg <~ generate_expr e scope storage; emit OpPush 0 reg 0 0
  | None =>
      zero <~ alloc_reg;
      emit OpLoad zero 0 0 0 ~;
      emit OpPush 0 zero 0 0
  end ~;
  emit OpPush 0 temp 0 0 ~;
  emit OpRet 0 0 0 0 ~;
  put_reg saved_reg.

(** The test of a match arm: the index of the jump taken when it fails. *)
Definition generate_arm_test (pat : MatchPattern) (scrutinee_reg saved_reg : Z) : G (option Z) :=
  match pat with
  | IntLit val =>
      pat_reg <~ alloc_reg;
      emit OpLoad pat_reg 0 0 (i32_of_u64 val) ~;
      diff_reg <~ alloc_reg;
      emit OpSub diff_reg scrutinee_reg pat_reg 0 ~;
      placeholder <~ len;
      emit OpJnz 0 diff_reg 0 0 ~;
      put_reg saved_reg ~;
      gret (Some placeholder)
  | Wildcard => gret None
  end.

Definition patch_pending (pending : option Z) (target : Z) : G unit :=
  match pending with
  | Some prev => patch_to prev target
  | None => gret tt
  end.

Fixpoint generate_stmt (s : Stmt) (scope : Scope) (storage : StorageMap) {struct s} : G Scope :=
  g <~ gget;
  match g_error g with
  | Some _ => gret scope
  | None =>
    saved_reg <~ cur_reg;
    match s with
    | SLet name e => generate_let name e scope storage saved_reg
    | SConstrain e =>
        reg <~ generate_expr e scope storage;
        emit OpAssert 0 reg 0 0 ~;
        put_reg saved_reg ~; gret scope
    | SStorageWrite name e => generate_storage_write name e scope storage saved_reg ~; gret scope
    | SMappingWrite name key val =>
        generate_mapping_write name key val scope storage saved_reg ~; gret scope
    | SAssign name e => generate_assign name e scope storage saved_reg ~; gret scope
    | SIf cond then_branch else_branch =>
        cond_reg <~ generate_expr cond scope storage;
        jump_to_then_idx <~ len;
        emit OpJnz 0 cond_reg 0 0 ~;
        put_reg saved_reg ~;
        scope <~ match else_branch with
                 | Some eb => gfold (fun scope s => generate_stmt s scope storage) eb scope
                 | None => gret scope
                 end;
        jump_to_end_idx <~ len;
        emit OpJmp 0 0 0 0 ~;
        then_start_idx <~ len;
        scope <~ gfold (fun scope s => generate_stmt s scope storage) then_branch scope;
        end_idx <~ len;
        patch_to jump_to_then_idx then_start_idx ~;
        patch_to jump_to_end_idx end_idx ~;
        gret scope
    | SWhile cond body =>
        start_idx <~ len;
        cond_reg <~ generate_expr cond scope storage;
        jump_to_body_idx <~ len;
        emit OpJnz 0 cond_reg 0 0 ~;
        put_reg saved_reg ~;
        jump_to_end_idx <~ len;
        emit OpJmp 0 0 0 0 ~;
        body_start_idx <~ len;
        scope <~ gfold (fun scope s => generate_stmt s scope storage) body scope;
        current_idx <~ len;
        back <~ offset_of start_idx current_idx;
        emit OpJmp 0 0 0 back ~;
        end_idx <~ len;
        patch_to jump_to_body_idx body_start_idx ~;
        patch_to jump_to_end_idx end_idx ~;
        gret scope
    | SMatch scrutinee arms =>
        scrutinee_reg <~ generate_expr scrutinee scope storage;
        put_reg saved_reg ~;
        st <~
          gfold (fun st arm =>
            let '(scope, pending, end_jumps) := st in
            test_start <~ len;
            patch_pending pending test_start ~;
            pending <~ generate_arm_test arm.1 scrutinee_reg saved_reg;
            scope <~ gfold (fun scope s => generate_stmt s scope storage) arm.2 scope;
            end_jump <~ len;
            emit OpJmp 0 0 0 0 ~;
            put_reg saved_reg ~;
            gret (scope, pending, end_jumps ++ [end_jump])) arms (scope, None, []);
        let '(scope, pending, end_jumps) := st in
        let end_jumps := end_jumps ++ match pending with Some last => [last] | None => [] end in
        end_idx <~ len;
        giter (fun idx => patch_to idx end_idx) end_jumps ~;
        gret scope
    | SFor var start fin body =>
        start_reg <~ generate_expr start scope storage;
        end_reg <~ generate_expr fin scope storage;
        loop_reg <~ alloc_reg;
        emit OpAdd loop_reg start_reg 0 0 ~;
        put_reg (loop_reg + 1) ~;
        let inner_scope := <[var := mkVar loop_reg None]> scope in
        start_idx <~ len;
        inner_saved <~ cur_reg;
        cond_reg <~ alloc_reg;
        emit OpLt cond_reg loop_reg end_reg 0 ~;
        jump_to_body_idx <~ len;
        emit OpJnz 0 cond_reg 0 0 ~;
        put_reg inner_saved ~;
        jump_to_end_idx <~ len;
        emit OpJmp 0 0 0 0 ~;
        body_start_idx <~ len;
        gfold (fun scope s => generate_stmt s scope storage) body inner_scope ~;
        one_reg <~ alloc_reg;
        emit OpLoad one_reg 0 0 1 ~;
        emit OpAdd loop_reg loop_reg one_reg 0 ~;
        put_reg inner_saved ~;
        current_idx <~ len;
        back <~ offset_of start_idx current_idx;
        emit OpJmp 0 0 0 back ~;
        end_idx <~ len;
        patch_to jump_to_body_idx body_start_idx ~;
        patch_to jump_to_end_idx end_idx ~;
        put_reg saved_reg ~; gret scope
    | SReturn e => generate_return e scope storage saved_reg ~; gret scope
    | SEmit _ args =>
        giter (fun arg =>
          reg <~ generate_expr arg scope storage;
          emit OpLog 0 reg 0 0) args ~;
        put_reg saved_reg ~; gret scope
    | SExpr e => generate_expr e scope storage ~; put_reg saved_reg ~; gret scope
    end
  end.

(** ** Functions and contracts *)

(** [for (i, field) in contract.storage.iter().enumerate()] *)
Definition storage_slots (fields : list StorageField) : StorageMap :=
  foldl (fun m p => <[sf_name p.2 := i32_of_u64 (Z.of_nat p.1)]> m) ∅
    (imap (fun i f => (i, f)) fields).

Definition bind_param (layouts : gmap string (list string)) (scope : Scope) (pr : Param * Z) : Scope :=
  <[p_name pr.1 := mkVar pr.2 ((fun _ => p_ty pr.1) <$> layouts !! p_ty pr.1)]> scope.

Definition generate_function (func : Function) (contract : Contract) : G unit :=
  g <~ gget;
  match g_error g with
  | Some _ => gret tt
  | None =>
      put_reg 1 ~;
      ret_addr_reg <~ alloc_reg;
      emit OpPop ret_addr_reg 0 0 0 ~;
      param_regs <~ gfold (fun regs _ => r <~ alloc_reg; gret (regs ++ [r])) (f_params func) [];
      giter (fun r => emit OpPop r 0 0 0) (rev param_regs) ~;
      g <~ gget;
      let scope := foldl (bind_param (struct_layouts g)) ∅ (zip (f_params func) param_regs) in
      emit OpPush 0 ret_addr_reg 0 0 ~;
      gfold (fun scope s => generate_stmt s scope (storage_slots (c_storage contract)))
        (f_body func) scope ~;
      temp <~ alloc_reg;
      emit OpPop temp 0 0 0 ~;
      zero <~ alloc_reg;
      emit OpLoad zero 0 0 0 ~;
      emit OpPush 0 zero 0 0 ~;
      emit OpPush 0 temp 0 0 ~;
      emit OpRet 0 0 0 0
  end.

(** [self.error = Some(..)], overwriting an earlier error. *)
Definition force_error (msg : string) : G unit := gmodify (set_error (Some (CodegenError msg))).

Definition layouts_of (structs : list Struct) : gmap string (list string) :=
  foldl (fun m s => <[s_name s := sf_name <$> s_fields s]> m) ∅ structs.

Definition patch_call (func_offsets : gmap string Z) (c : Z * string) : G unit :=
  match func_offsets !! c.2 with
  | Some target => patch_to c.1 target
  | None => force_error ("Undefined function " +:+ c.2)
  end.

Definition generate_program (contract : Contract) : G unit :=
  gmodify (fun g => set_layouts (layouts_of (c_structs contract) ∪ struct_layouts g) g) ~;
  emit OpLoad 31 0 0 HEAP_BASE ~;
  jump_to_main_idx <~ len;
  emit OpCall 0 0 0 0 ~;
  emit OpHalt 0 0 0 0 ~;
  func_offsets <~
    gfold (fun offs func =>
      off <~ len;
      generate_function func contract ~;
      gret (<[f_name func := off]> offs)) (c_functions contract) ∅;
  match func_offsets !! "main" with
  | Some main_idx => patch_to jump_to_main_idx main_idx
  | None => force_error "main function not found"
  end ~;
  g <~ gget;
  let unpatched := unpatched_calls g in
  gmodify (set_calls []) ~;
  giter (patch_call func_offsets) unpatched.

(** [generate]: the outcome, or [None] for a panic. *)
Definition generate (contract : Contract) (g : Codegen) : option (result (list Z) CompileError) :=
  match generate_program contract g with
  | None => None
  | Some (_, g) =>
      Some match g_error g with
           | Some err => Err err
           | None => Ok (instructions g)
           end
  end.

End codegen.
End BudlCodegen.
