(* ===== verification/BudlParser.v ===== *)
(** * The BudL parser (budzero/bud-compiler/src/parser.rs, lexer.rs, lib.rs)

    [Token] is the token type; the lexer itself is generated by a macro of the
    logos crate, so that a source is here the list of its tokens, and [lexical]
    says which identifiers and literals the token patterns admit.

    [Parser] is the parser's state: the tokens from [pos] on (reading past the
    end yields the token [Error] and never fails) and the nesting depth.  Every
    method is a program of the monad [P].  An error ends the parse, so the
    state it leaves is dropped.  The loops run on fuel: a [while] loop on the
    number of tokens left, the recursion through [parse_expr] and [parse_stmt]
    on one more than the nesting limit; [OutOfFuel] is not an error of the
    source, and it is proved that it never occurs.

    [compile] is the whole compiler on tokens: parser, semantic analyser and
    code generator. *)

From Stdlib Require Import ZArith Lia Ascii.
From stdpp Require Import base tactics strings numbers gmap list.
From S2P Require Import Prelude Isa BudlAst BudlSema BudlCodegen.
Import BudlAst.
Open Scope Z_scope.

Module BudlParser.

(** ** Tokens *)

Inductive Token : Type :=
| TContract | TFn | TLet | TIf | TElse | TMatch | TStorage | TWitness | TConstrain | TPub
| TWhile | TFor | TIn | TReturn | TStruct
| TBraceOpen | TBraceClose | TParenOpen | TParenClose | TBracketOpen | TBracketClose
| TColon | TComma | TSemicolon | TArrow | TFatArrow | TDotDot | TDot
| TPlus | TMinus | TStar | TSlash | TEq | TNeq | TLt | TGt | TLte | TGte | TAssign
| TIdent (name : string)
| TInt (v : Z)
| THex (digits : string)
| TError.

#[export] Instance Token_eq_dec : EqDecision Token.
Proof. solve_decision. Defined.

Inductive ParseError : Type :=
| Expected (expected found : Token)
| ExpectedName (what : string)
| BadPattern
| ExpectedArmEnd
| ExpectedPrimary
| InvalidHex (digits : string)
| NestsTooDeep
| OutOfFuel.

Definition MAX_NESTING_DEPTH : nat := 32.

(** ** The state and its monad *)

Record Parser : Type := mkParser { rest : list Token; depth : nat }.

Definition P (A : Type) : Type := Parser -> result (A * Parser) ParseError.
#[export] Instance P_ret : MRet P := fun A a p => Ok (a, p).
#[export] Instance P_bind : MBind P := fun A B k m p =>
  match m p with
  | Ok (a, p') => k a p'
  | Err e => Err e
  end.
Definition raise {A} (e : ParseError) : P A := fun _ => Err e.

Definition enter : P unit := fun p =>
  if (MAX_NESTING_DEPTH <=? depth p)%nat then Err NestsTooDeep
  else Ok (tt, mkParser (rest p) (S (depth p))).
(** [saturating_sub] *)
Definition leave : P unit := fun p => Ok (tt, mkParser (rest p) (pred (depth p))).

Definition peek : P Token := fun p => Ok (match rest p with t :: _ => t | [] => TError end, p).
Definition consume : P Token := fun p =>
  match rest p with
  | t :: ts => Ok (t, mkParser ts (depth p))
  | [] => Ok (TError, p)
  end.
Definition expect (expected : Token) : P unit :=
  t ← consume; if bool_decide (t = expected) then mret tt else raise (Expected expected t).

(** [if let Token::Ident(name) = self.consume() { name } else { return Err(..) }] *)
Definition ident (what : string) : P string :=
  t ← consume; match t with TIdent name => mret name | _ => raise (ExpectedName what) end.

(** [if self.peek() == &t { self.consume(); }], which tells whether it did. *)
Definition eat (t : Token) : P bool :=
  u ← peek; if bool_decide (u = t) then (_ ← consume; mret true) else mret false.

(** A loop, with the number of tokens left as its fuel. *)
Definition measured {A} (loop : nat -> P A) : P A := fun p => loop (S (length (rest p))) p.

(** [while self.peek() != &close { v.push(item) }] *)
Fixpoint until {A} (fuel : nat) (close : Token) (item : P A) : P (list A) :=
  match fuel with
  | O => raise OutOfFuel
  | S fuel =>
      t ← peek;
      if bool_decide (t = close) then mret [] else x ← item; xs ← until fuel close item; mret (x :: xs)
  end.
Definition many {A} (close : Token) (item : P A) : P (list A) := measured (fun fuel => until fuel close item).

(** One entry of a list in which the comma after an entry is optional. *)
Definition with_comma {A} (item : P A) : P A := x ← item; _ ← eat TComma; mret x.

(** ** Expressions *)

Definition char_digit (c : ascii) : option Z :=
  let n := Z.of_N (N_of_ascii c) in
  if (48 <=? n) && (n <=? 57) then Some (n - 48)
  else if (97 <=? n) && (n <=? 102) then Some (n - 87)
  else if (65 <=? n) && (n <=? 70) then Some (n - 55)
  else None.

(** [u64::from_str_radix(s, 16)] *)
Fixpoint radix16 (acc : Z) (s : string) : option Z :=
  match s with
  | EmptyString => Some acc
  | String c s => d ← char_digit c; let v := acc * 16 + d in if v <? U64 then radix16 v s else None
  end.
Definition from_str_radix16 (s : string) : option Z :=
  match s with
  | EmptyString => None
  | String "+"%char EmptyString => None
  | String "+"%char s => radix16 0 s
  | s => radix16 0 s
  end.
(** [val.strip_prefix("0x").unwrap_or(&val)] *)
Definition strip_0x (s : string) : string :=
  match s with String "0"%char (String "x"%char s) => s | s => s end.

(** [msg::field] and [block::field]: the two path calls. *)
Definition path_call (prefix : string) : P Expr :=
  _ ← expect TColon; _ ← expect TColon;
  field ← ident "field";
  _ ← expect TParenOpen; _ ← expect TParenClose;
  mret (ECall (prefix +:+ field) []).

Section expressions.
(** The recursive call. *)
Context (parse_expr : P Expr).

(** The arguments up to the closing parenthesis. *)
Definition arguments : P (list Expr) :=
  args ← many TParenClose (with_comma parse_expr); _ ← expect TParenClose; mret args.

Definition literal_field : P (string * Expr) :=
  name ← ident "struct field name"; _ ← expect TColon; e ← parse_expr; mret (name, e).

Definition parse_named (name : string) : P Expr :=
  if bool_decide (name = "poseidon") then
    _ ← expect TParenOpen; args ← arguments; mret (ECall "poseidon" args)
  else if bool_decide (name = "msg") then path_call "msg::"
  else if bool_decide (name = "block") then path_call "block::"
  else if bool_decide (name = "verify_merkle_proof") then
    _ ← expect TParenOpen;
    root ← parse_expr; _ ← expect TComma;
    leaf ← parse_expr; _ ← expect TComma;
    path ← parse_expr; _ ← expect TParenClose;
    mret (ECall "verify_merkle_proof" [root; leaf; path])
  else
    call ← eat TParenOpen;
    if call : bool then args ← arguments; mret (ECall name args)
    else
      index ← eat TBracketOpen;
      if index : bool then key ← parse_expr; _ ← expect TBracketClose; mret (EMappingRead name key)
      else
        literal ← eat TBraceOpen;
        if literal : bool then
          fields ← many TBraceClose (with_comma literal_field); _ ← expect TBraceClose;
          mret (EStructLiteral name fields)
        else mret (EIdent name).

Definition parse_primary : P Expr :=
  t ← consume;
  match t with
  | TInt v => mret (EInt v)
  | THex s =>
      match from_str_radix16 (strip_0x s) with
      | Some v => mret (EInt v)
      | None => raise (InvalidHex s)
      end
  | TParenOpen => e ← parse_expr; _ ← expect TParenClose; mret e
  | TIdent name => parse_named name
  | TStorage => _ ← expect TColon; _ ← expect TColon; name ← ident "name"; mret (EStorageRead name)
  | _ => raise ExpectedPrimary
  end.

Fixpoint fields_loop (fuel : nat) (e : Expr) : P Expr :=
  match fuel with
  | O => raise OutOfFuel
  | S fuel =>
      dot ← eat TDot;
      if dot : bool then field ← ident "field name after dot"; fields_loop fuel (EFieldAccess e field) else mret e
  end.
Definition parse_postfix : P Expr :=
  e ← parse_primary; measured (fun fuel => fields_loop fuel e).

(** The operators of the three binary levels. *)
Definition comparison_op (t : Token) : option BinOp :=
  match t with
  | TEq => Some Eq | TNeq => Some Neq | TLt => Some Lt | TGt => Some Gt | TLte => Some Lte | TGte => Some Gte
  | _ => None
  end.
Definition arith_op (t : Token) : option BinOp :=
  match t with TPlus => Some Add | TMinus => Some Sub | _ => None end.
Definition term_op (t : Token) : option BinOp :=
  match t with TStar => Some Mul | TSlash => Some Div | _ => None end.

(** [while matches!(self.peek(), ops) { .. left = Binary(left, op, right) }] *)
Fixpoint binary_loop (fuel : nat) (op_of : Token -> option BinOp) (operand : P Expr) (left : Expr) : P Expr :=
  match fuel with
  | O => raise OutOfFuel
  | S fuel =>
      t ← peek;
      match op_of t with
      | Some op =>
          _ ← consume; right ← operand; binary_loop fuel op_of operand (EBinary left op right)
      | None => mret left
      end
  end.
Definition binary_level (op_of : Token -> option BinOp) (operand : P Expr) : P Expr :=
  left ← operand; measured (fun fuel => binary_loop fuel op_of operand left).

Definition parse_term : P Expr := binary_level term_op parse_postfix.
Definition parse_arith : P Expr := binary_level arith_op parse_term.
Definition parse_expr_inner : P Expr := binary_level comparison_op parse_arith.
End expressions.

Fixpoint parse_expr (fuel : nat) : P Expr :=
  match fuel with
  | O => raise OutOfFuel
  | S fuel => _ ← enter; e ← parse_expr_inner (parse_expr fuel); _ ← leave; mret e
  end.

(** ** Statements *)

Section statements.
Context (parse_expr : P Expr) (parse_stmt : P Stmt).

(** The statements up to the closing brace. *)
Definition block : P (list Stmt) :=
  body ← many TBraceClose parse_stmt; _ ← expect TBraceClose; mret body.

Definition parse_match_arm : P (MatchPattern * list Stmt) :=
  t ← peek;
  pattern ←
    match t with
    | TIdent name => if bool_decide (name = "_") then _ ← consume; mret Wildcard else raise BadPattern
    | TInt v => _ ← consume; mret (IntLit v)
    | _ => raise BadPattern
    end;
  _ ← expect TFatArrow;
  braced ← eat TBraceOpen;
  body ← (if braced : bool then block else s ← parse_stmt; mret [s]);
  mret (pattern, body).

(** The [loop] over the arms, which stops before the closing brace. *)
Fixpoint arms_loop (fuel : nat) : P (list (MatchPattern * list Stmt)) :=
  match fuel with
  | O => raise OutOfFuel
  | S fuel =>
      t ← peek;
      if bool_decide (t = TBraceClose) then mret []
      else if bool_decide (t = TComma) then
        _ ← consume; u ← peek;
        if bool_decide (u = TBraceClose) then mret [] else arms_loop fuel
      else
        arm ← parse_match_arm;
        u ← peek;
        if bool_decide (u = TComma) then _ ← consume; arms ← arms_loop fuel; mret (arm :: arms)
        else if bool_decide (u = TBraceClose) then mret [arm]
        else raise ExpectedArmEnd
  end.
Definition parse_arms : P (list (MatchPattern * list Stmt)) := measured arms_loop.

Definition parse_stmt_inner : P Stmt :=
  t ← peek;
  match t with
  | TLet =>
      _ ← consume; name ← ident "identifier after let"; _ ← expect TAssign;
      e ← parse_expr; _ ← expect TSemicolon; mret (SLet name e)
  | TConstrain =>
      _ ← consume; _ ← expect TParenOpen; e ← parse_expr; _ ← expect TParenClose; _ ← expect TSemicolon;
      mret (SConstrain e)
  | TStorage =>
      _ ← consume; _ ← expect TColon; _ ← expect TColon; name ← ident "name"; _ ← expect TAssign;
      e ← parse_expr; _ ← expect TSemicolon; mret (SStorageWrite name e)
  | TIf =>
      _ ← consume; _ ← expect TParenOpen; cond ← parse_expr; _ ← expect TParenClose; _ ← expect TBraceOpen;
      then_branch ← block;
      alt ← eat TElse;
      else_branch ← (if alt : bool then _ ← expect TBraceOpen; b ← block; mret (Some b) else mret None);
      mret (SIf cond then_branch else_branch)
  | TWhile =>
      _ ← consume; _ ← expect TParenOpen; cond ← parse_expr; _ ← expect TParenClose; _ ← expect TBraceOpen;
      body ← block; mret (SWhile cond body)
  | TMatch =>
      _ ← consume; _ ← expect TParenOpen; e ← parse_expr; _ ← expect TParenClose; _ ← expect TBraceOpen;
      arms ← parse_arms; _ ← expect TBraceClose; _ ← expect TSemicolon; mret (SMatch e arms)
  | TFor =>
      _ ← consume; var ← ident "loop variable after for"; _ ← expect TIn;
      start ← parse_expr; _ ← expect TDotDot; fin ← parse_expr; _ ← expect TBraceOpen;
      body ← block; mret (SFor var start fin body)
  | TReturn =>
      _ ← consume; u ← peek;
      e ← (if bool_decide (u = TSemicolon) then mret None else e ← parse_expr; mret (Some e));
      _ ← expect TSemicolon; mret (SReturn e)
  | TIdent name =>
      _ ← consume;
      if bool_decide (name = "emit") then
        event ← ident "event name"; _ ← expect TParenOpen; args ← arguments parse_expr;
        _ ← expect TSemicolon; mret (SEmit event args)
      else
        index ← eat TBracketOpen;
        if index : bool then
          key ← parse_expr; _ ← expect TBracketClose; _ ← expect TAssign;
          val ← parse_expr; _ ← expect TSemicolon; mret (SMappingWrite name key val)
        else _ ← expect TAssign; e ← parse_expr; _ ← expect TSemicolon; mret (SAssign name e)
  | _ => e ← parse_expr; _ ← expect TSemicolon; mret (SExpr e)
  end.
End statements.

Fixpoint parse_stmt (fuel : nat) : P Stmt :=
  match fuel with
  | O => raise OutOfFuel
  | S fuel =>
      _ ← enter; s ← parse_stmt_inner (parse_expr fuel) (parse_stmt fuel); _ ← leave; mret s
  end.

(** ** Functions and contracts *)

(** One more than the nesting limit. *)
Definition nesting_fuel : nat := S MAX_NESTING_DEPTH.

Definition parse_param : P Param :=
  name ← ident "param name"; _ ← expect TColon; ty ← ident "param type"; mret (mkParam name ty).

Definition parse_function : P Function :=
  is_pub ← eat TPub;
  _ ← expect TFn; name ← ident "function name"; _ ← expect TParenOpen;
  params ← many TParenClose (with_comma parse_param); _ ← expect TParenClose;
  arrow ← eat TArrow;
  return_type ← (if arrow : bool then ty ← ident "return type"; mret (Some ty) else mret None);
  _ ← expect TBraceOpen; body ← block (parse_stmt nesting_fuel);
  mret (mkFunction name params return_type body is_pub).

(** The type of a storage field, a name or [Map<k, v>]. *)
Definition parse_storage_type : P string :=
  ty ← ident "type";
  if bool_decide (ty = "Map") then
    _ ← expect TLt; k ← ident "map key type"; _ ← expect TComma; v ← ident "map value type"; _ ← expect TGt;
    mret ("Map<" +:+ k +:+ "," +:+ v +:+ ">")
  else mret ty.

Definition parse_field (ty : P string) : P StorageField :=
  name ← ident "name"; _ ← expect TColon; t ← ty; _ ← expect TComma; mret (mkField name t).

Definition field_block (ty : P string) : P (list StorageField) :=
  _ ← expect TBraceOpen; fields ← many TBraceClose (parse_field ty); _ ← expect TBraceClose; mret fields.

(** What one turn of the contract's loop adds. *)
Inductive Member : Type :=
| MStorage (fields : list StorageField)
| MStruct (s : Struct)
| MFunction (f : Function).

Definition parse_member : P Member :=
  t ← peek;
  match t with
  | TStorage => _ ← consume; fields ← field_block parse_storage_type; mret (MStorage fields)
  | TStruct => _ ← consume; name ← ident "name"; fields ← field_block (ident "type"); mret (MStruct (mkStruct name fields))
  | _ => f ← parse_function; mret (MFunction f)
  end.

Definition storage_of (m : Member) : list StorageField := match m with MStorage l => l | _ => [] end.
Definition struct_of (m : Member) : list Struct := match m with MStruct s => [s] | _ => [] end.
Definition function_of (m : Member) : list Function := match m with MFunction f => [f] | _ => [] end.

Definition parse_contract : P Contract :=
  _ ← expect TContract; name ← ident "contract name"; _ ← expect TBraceOpen;
  ms ← many TBraceClose parse_member; _ ← expect TBraceClose;
  mret (mkContract name (ms ≫= storage_of) (ms ≫= struct_of) (ms ≫= function_of)).

(** [Parser::new] on the tokens of a source, and the parse. *)
Definition parser_new (ts : list Token) : Parser := mkParser ts 0.
Definition parse (ts : list Token) : result Contract ParseError :=
  let? (c, _) := parse_contract (parser_new ts) in Ok c.

(** ** The compiler *)

Inductive CompileFailure : Type :=
| ParserFailed (e : ParseError)
| SemanticFailed (e : BudlSema.SemaError)
| CodegenFailed (e : CompileError).

Definition compile (layout_values : gmap string (list string) -> list (list string)) (ts : list Token)
    (profile : Isa.IsaProfile) : option (result (list Z) CompileFailure) :=
  match parse ts with
  | Err e => Some (Err (ParserFailed e))
  | Ok contract =>
      match BudlSema.analyze contract with
      | Err e => Some (Err (SemanticFailed e))
      | Ok _ => map_err CodegenFailed <$> BudlCodegen.generate layout_values contract (BudlCodegen.new_with_profile profile)
      end
  end.

End BudlParser.
