(* ===== verification/BudlPrint.v ===== *)
(** * BudL syntax trees written as tokens

    [print_contract] writes the syntax tree of a contract as tokens, with the
    parentheses the grammar of the parser (BudlParser.v) needs and no others:
    around an operand of a weaker operator, around a name at the start of an
    expression statement (which the parser would take for an assignment) and
    around a variable before an opening brace (which it would take for a struct
    literal).  [contract_ok] says which trees can be written: their names are
    identifiers, their numbers are 64-bit and their nesting, counted as the
    parser counts it, is within its limit. *)

From Stdlib Require Import ZArith Lia Ascii.
From stdpp Require Import base tactics strings numbers gmap list.
From S2P Require Import Prelude BudlAst BudlParser.
Import BudlAst BudlParser.
Open Scope nat_scope.

Module BudlPrint.

(** ** What the token patterns admit *)

Definition keywords : list string :=
  ["contract"; "fn"; "let"; "if"; "else"; "match"; "storage"; "witness"; "constrain"; "pub";
   "while"; "for"; "in"; "return"; "struct"].

Definition letter (c : ascii) : bool :=
  let n := N_of_ascii c in
  ((97 <=? n) && (n <=? 122) || (65 <=? n) && (n <=? 90) || (n =? 95))%N.
Definition digit (c : ascii) : bool :=
  let n := N_of_ascii c in ((48 <=? n) && (n <=? 57))%N.
Fixpoint word (s : string) : bool :=
  match s with
  | EmptyString => true
  | String c s => (letter c || digit c) && word s
  end.
Definition ident_ok (s : string) : bool :=
  match s with
  | EmptyString => false
  | String c s' => letter c && word s' && negb (bool_decide (s ∈ keywords))
  end.
Definition u64_ok (v : Z) : bool := (0 <=? v)%Z && (v <? U64)%Z.

Definition lexical (t : Token) : Prop :=
  match t with
  | TIdent s => ident_ok s = true
  | TInt v => u64_ok v = true
  | _ => True
  end.

(** ** Expressions as tokens *)

(** The level of an operator, and of an expression: 3 is a postfix expression. *)
Definition op_level (op : BinOp) : nat :=
  match op with Mul | Div => 2 | Add | Sub => 1 | _ => 0 end.
Definition level (e : Expr) : nat := match e with EBinary _ op _ => op_level op | _ => 3 end.

Definition op_token (op : BinOp) : Token :=
  match op with
  | Add => TPlus | Sub => TMinus | Mul => TStar | Div => TSlash | Eq => TEq | Neq => TNeq
  | Lt => TLt | Gt => TGt | Lte => TLte | Gte => TGte
  end.

(** Expressions that start with a name, and the one that a brace would continue. *)
Definition named (e : Expr) : bool :=
  match e with
  | EIdent _ | EStorageRead _ | EMappingRead _ _ | EStructLiteral _ _ | ECall _ _ => true
  | _ => false
  end.
Definition variable (e : Expr) : bool := match e with EIdent _ => true | _ => false end.

(** [lead]: the expression starts a statement; [tail]: a brace follows it. *)
Definition wrapped (lead tail : bool) (l : nat) (e : Expr) : bool :=
  (level e <? l) || (lead && named e) || (tail && variable e).

Fixpoint strip_prefix (p s : string) : option string :=
  match p, s with
  | EmptyString, _ => Some s
  | String a p, String b s => if bool_decide (a = b) then strip_prefix p s else None
  | _, _ => None
  end.

(** The built-in path a call names. *)
Definition path_of (x : string) : option (string * string) :=
  match strip_prefix "msg::" x, strip_prefix "block::" x with
  | Some f, _ => Some ("msg", f)
  | None, Some f => Some ("block", f)
  | None, None => None
  end.

Fixpoint sep (tss : list (list Token)) : list Token :=
  match tss with
  | [] => []
  | [ts] => ts
  | ts :: tss => ts ++ TComma :: sep tss
  end.

Definition enclose (w : bool) (body : bool -> bool -> list Token) (lead tail : bool) : list Token :=
  if w then TParenOpen :: body false false ++ [TParenClose] else body lead tail.

(** An expression without outer parentheses. *)
Fixpoint print_body (e : Expr) (lead tail : bool) : list Token :=
  let print lead tail l e := enclose (wrapped lead tail l e) (print_body e) lead tail in
  match e with
  | EInt v => [TInt v]
  | EIdent x => [TIdent x]
  | EStorageRead x => [TStorage; TColon; TColon; TIdent x]
  | EMappingRead x k => TIdent x :: TBracketOpen :: print false false 0 k ++ [TBracketClose]
  | EFieldAccess b f => print lead false 3 b ++ [TDot; TIdent f]
  | EStructLiteral x fs =>
      TIdent x :: TBraceOpen ::
      sep (map (fun f => TIdent f.1 :: TColon :: print false false 0 f.2) fs) ++ [TBraceClose]
  | EBinary a op b =>
      print lead false (op_level op) a ++ op_token op :: print false tail (S (op_level op)) b
  | ECall x es =>
      match path_of x with
      | Some (m, f) => [TIdent m; TColon; TColon; TIdent f; TParenOpen; TParenClose]
      | None => TIdent x :: TParenOpen :: sep (map (print false false 0) es) ++ [TParenClose]
      end
  end.
Definition print_expr (lead tail : bool) (l : nat) (e : Expr) : list Token :=
  enclose (wrapped lead tail l e) (print_body e) lead tail.

(** The nested expressions of the printed form, as the parser counts them. *)
Definition deepen (w : bool) (body : bool -> bool -> nat) (lead tail : bool) : nat :=
  if w then S (body false false) else body lead tail.
Fixpoint nest_body (e : Expr) (lead tail : bool) : nat :=
  let nest lead tail l e := deepen (wrapped lead tail l e) (nest_body e) lead tail in
  match e with
  | EInt _ | EIdent _ | EStorageRead _ => 0
  | EMappingRead _ k => S (nest false false 0 k)
  | EFieldAccess b _ => nest lead false 3 b
  | EStructLiteral _ fs => list_max (map (fun f => S (nest false false 0 f.2)) fs)
  | EBinary a op b => nest lead false (op_level op) a `max` nest false tail (S (op_level op)) b
  | ECall _ es => list_max (map (fun e => S (nest false false 0 e)) es)
  end.
Definition nest (lead tail : bool) (l : nat) (e : Expr) : nat :=
  deepen (wrapped lead tail l e) (nest_body e) lead tail.

Definition variable_ok (x : string) : bool :=
  ident_ok x && negb (bool_decide (x ∈ ["poseidon"; "msg"; "block"; "verify_merkle_proof"])).

Definition call_ok (x : string) (n : nat) : bool :=
  match path_of x with
  | Some (_, f) => ident_ok f && (n =? 0)
  | None =>
      ident_ok x && negb (bool_decide (x ∈ ["msg"; "block"])) &&
      (negb (bool_decide (x = "verify_merkle_proof")) || (n =? 3))
  end.

Fixpoint expr_ok (e : Expr) : bool :=
  match e with
  | EInt v => u64_ok v
  | EIdent x => variable_ok x
  | EStorageRead x => ident_ok x
  | EMappingRead x k => variable_ok x && expr_ok k
  | EFieldAccess b f => expr_ok b && ident_ok f
  | EStructLiteral x fs => variable_ok x && forallb (fun f => ident_ok f.1 && expr_ok f.2) fs
  | EBinary a _ b => expr_ok a && expr_ok b
  | ECall x es => call_ok x (length es) && forallb expr_ok es
  end.

(** ** Statements as tokens *)

Definition braces (ts : list Token) : list Token := TBraceOpen :: ts ++ [TBraceClose].
Definition in_parens (e : Expr) : list Token := TParenOpen :: print_expr false false 0 e ++ [TParenClose].

Definition print_pattern (p : MatchPattern) : Token :=
  match p with IntLit v => TInt v | Wildcard => TIdent "_" end.

Fixpoint print_stmt (s : Stmt) : list Token :=
  match s with
  | SLet x e => TLet :: TIdent x :: TAssign :: print_expr false false 0 e ++ [TSemicolon]
  | SConstrain e => TConstrain :: in_parens e ++ [TSemicolon]
  | SAssign x e => TIdent x :: TAssign :: print_expr false false 0 e ++ [TSemicolon]
  | SStorageWrite x e =>
      TStorage :: TColon :: TColon :: TIdent x :: TAssign :: print_expr false false 0 e ++ [TSemicolon]
  | SMappingWrite x k v =>
      TIdent x :: TBracketOpen :: print_expr false false 0 k ++
      TBracketClose :: TAssign :: print_expr false false 0 v ++ [TSemicolon]
  | SIf c t e =>
      TIf :: in_parens c ++ braces (concat (map print_stmt t)) ++
      match e with Some b => TElse :: braces (concat (map print_stmt b)) | None => [] end
  | SWhile c b => TWhile :: in_parens c ++ braces (concat (map print_stmt b))
  | SFor x a e b =>
      TFor :: TIdent x :: TIn :: print_expr false false 0 a ++ TDotDot :: print_expr false true 0 e ++
      braces (concat (map print_stmt b))
  | SReturn e =>
      TReturn :: match e with Some e => print_expr false false 0 e | None => [] end ++ [TSemicolon]
  | SEmit x es => TIdent "emit" :: TIdent x :: TParenOpen :: sep (map (print_expr false false 0) es) ++ [TParenClose; TSemicolon]
  | SMatch a arms =>
      TMatch :: in_parens a ++
      braces (concat (map (fun arm => print_pattern arm.1 :: TFatArrow :: braces (concat (map print_stmt arm.2)) ++ [TComma]) arms))
      ++ [TSemicolon]
  | SExpr e => print_expr true false 0 e ++ [TSemicolon]
  end.

Definition nest0 (e : Expr) : nat := S (nest false false 0 e).

(** The nested expressions and statements of the printed form. *)
Fixpoint snest (s : Stmt) : nat :=
  let block b := list_max (map (fun s => S (snest s)) b) in
  match s with
  | SLet _ e | SConstrain e | SAssign _ e | SStorageWrite _ e => nest0 e
  | SMappingWrite _ k v => nest0 k `max` nest0 v
  | SIf c t e => nest0 c `max` block t `max` match e with Some b => block b | None => 0 end
  | SWhile c b => nest0 c `max` block b
  | SFor _ a e b => nest0 a `max` S (nest false true 0 e) `max` block b
  | SReturn e => match e with Some e => nest0 e | None => 0 end
  | SEmit _ es => list_max (map nest0 es)
  | SMatch a arms => nest0 a `max` list_max (map (fun arm => block arm.2) arms)
  | SExpr e => S (nest true false 0 e)
  end.

Definition pattern_ok (p : MatchPattern) : bool :=
  match p with IntLit v => u64_ok v | Wildcard => true end.

Fixpoint stmt_ok (s : Stmt) : bool :=
  match s with
  | SLet x e | SStorageWrite x e => ident_ok x && expr_ok e
  | SConstrain e | SExpr e => expr_ok e
  | SAssign x e => ident_ok x && negb (bool_decide (x = "emit")) && expr_ok e
  | SMappingWrite x k v => ident_ok x && negb (bool_decide (x = "emit")) && expr_ok k && expr_ok v
  | SIf c t e => expr_ok c && forallb stmt_ok t && match e with Some b => forallb stmt_ok b | None => true end
  | SWhile c b => expr_ok c && forallb stmt_ok b
  | SFor x a e b => ident_ok x && expr_ok a && expr_ok e && forallb stmt_ok b
  | SReturn e => match e with Some e => expr_ok e | None => true end
  | SEmit x es => ident_ok x && forallb expr_ok es
  | SMatch a arms => expr_ok a && forallb (fun arm => pattern_ok arm.1 && forallb stmt_ok arm.2) arms
  end.

(** ** Contracts as tokens *)

Definition print_params (ps : list Param) : list Token :=
  sep (map (fun p => [TIdent (p_name p); TColon; TIdent (p_ty p)]) ps).

Definition print_function (f : Function) : list Token :=
  (if f_is_pub f then [TPub] else []) ++
  TFn :: TIdent (f_name f) :: TParenOpen :: print_params (f_params f) ++ TParenClose ::
  match f_return_type f with Some t => [TArrow; TIdent t] | None => [] end ++
  braces (concat (map print_stmt (f_body f))).

(** The key and the value type of a map type. *)
Fixpoint split_comma (s : string) : option (string * string) :=
  match s with
  | EmptyString => None
  | String c s =>
      if bool_decide (c = ","%char) then Some (EmptyString, s)
      else '(k, v) ← split_comma s; Some (String c k, v)
  end.
Fixpoint drop_last (s : string) : option (string * ascii) :=
  match s with
  | EmptyString => None
  | String c s => match drop_last s with Some (s', l) => Some (String c s', l) | None => Some (EmptyString, c) end
  end.
Definition map_type (ty : string) : option (string * string) :=
  b ← strip_prefix "Map<" ty;
  '(b, c) ← drop_last b;
  if bool_decide (c = ">"%char) then split_comma b else None.

Definition print_type (ty : string) : list Token :=
  match map_type ty with
  | Some (k, v) => [TIdent "Map"; TLt; TIdent k; TComma; TIdent v; TGt]
  | None => [TIdent ty]
  end.
Definition type_ok (ty : string) : bool :=
  match map_type ty with
  | Some (k, v) => ident_ok k && ident_ok v
  | None => ident_ok ty && negb (bool_decide (ty = "Map"))
  end.

Definition print_fields (ty : string -> list Token) (fs : list StorageField) : list Token :=
  braces (concat (map (fun f => TIdent (sf_name f) :: TColon :: ty (sf_ty f) ++ [TComma]) fs)).

Definition print_member (m : Member) : list Token :=
  match m with
  | MStorage fs => TStorage :: print_fields print_type fs
  | MStruct s => TStruct :: TIdent (s_name s) :: print_fields (fun t => [TIdent t]) (s_fields s)
  | MFunction f => print_function f
  end.

Definition members (c : Contract) : list Member :=
  MStorage (c_storage c) :: map MStruct (c_structs c) ++ map MFunction (c_functions c).

Definition print_contract (c : Contract) : list Token :=
  TContract :: TIdent (c_name c) :: braces (concat (map print_member (members c))).

Definition fields_ok (ty : string -> bool) (fs : list StorageField) : bool :=
  forallb (fun f => ident_ok (sf_name f) && ty (sf_ty f)) fs.

(** The statements of a body fit below the nesting limit. *)
Definition body_ok (b : list Stmt) : bool :=
  forallb (fun s => stmt_ok s && (S (snest s) <=? MAX_NESTING_DEPTH)) b.

Definition function_ok (f : Function) : bool :=
  ident_ok (f_name f) && forallb (fun p => ident_ok (p_name p) && ident_ok (p_ty p)) (f_params f) &&
  match f_return_type f with Some t => ident_ok t | None => true end && body_ok (f_body f).

Definition member_ok (m : Member) : bool :=
  match m with
  | MStorage fs => fields_ok type_ok fs
  | MStruct s => ident_ok (s_name s) && fields_ok ident_ok (s_fields s)
  | MFunction f => function_ok f
  end.

Definition contract_ok (c : Contract) : bool :=
  ident_ok (c_name c) && forallb member_ok (members c).

(** A small contract, written and read back. *)
Module Demo.
Definition counter : Contract :=
  mkContract "Counter" [mkField "total" "u64"; mkField "seen" "Map<Address,u64>"] [mkStruct "Pair" [mkField "a" "u64"; mkField "b" "u64"]]
    [mkFunction "bump" [mkParam "by" "u64"] (Some "u64")
       [SLet "p" (EStructLiteral "Pair" [("a", EIdent "by"); ("b", EInt 2%Z)]);
        SFor "i" (EInt 0%Z) (EIdent "by")
          [SStorageWrite "total" (EBinary (EStorageRead "total") Add
             (EBinary (EBinary (EIdent "i") Sub (EInt 1%Z)) Mul (EFieldAccess (EIdent "p") "b")))];
        SMatch (EIdent "by") [(IntLit 0%Z, [SReturn None]); (Wildcard, [SEmit "Bumped" [EIdent "by"; ECall "msg::sender" []]])];
        SMappingWrite "seen" (ECall "msg::sender" []) (EMappingRead "seen" (ECall "poseidon" [EIdent "by"; EInt 7%Z]));
        SExpr (EBinary (ECall "f" []) Eq (EInt 1%Z));
        SIf (EBinary (EBinary (EIdent "by") Sub (EBinary (EInt 3%Z) Sub (EInt 2%Z))) Lt (EInt 9%Z)) [SReturn (Some (EIdent "by"))] (Some [])] true].

Lemma counter_ok : contract_ok counter = true.
Proof. vm_compute. reflexivity. Qed.
Lemma counter_reads : parse (print_contract counter) = Ok counter.
Proof. vm_compute. reflexivity. Qed.
End Demo.

End BudlPrint.
