(* ===== verification/BudlParserFacts.v ===== *)
(** * The parser reads what can be written (BudlParser.v, BudlPrint.v)

    The theorems: the parser reads back every contract that can be written, and
    stops right after it; every contract it returns can be written, so that it
    returns nothing else; and it always returns. *)

From Stdlib Require Import ZArith Lia Ascii.
From stdpp Require Import base tactics strings numbers gmap list.
From S2P Require Import Prelude BudlAst BudlParser BudlPrint.
Import BudlAst BudlParser BudlPrint.
Open Scope nat_scope.

Module BudlParserFacts.

(** ** Running the monad *)

Lemma bind_run {A B} (m : P A) (k : A -> P B) p a p' : m p = Ok (a, p') -> (m ≫= k) p = k a p'.
Proof. unfold mbind, P_bind. by intros ->. Qed.

Lemma expect_run t ts d : expect t (mkParser (t :: ts) d) = Ok (tt, mkParser ts d).
Proof. unfold expect, mbind, P_bind, consume. simpl. by rewrite bool_decide_eq_true_2. Qed.

Lemma eat_yes t ts d : eat t (mkParser (t :: ts) d) = Ok (true, mkParser ts d).
Proof. unfold eat, mbind, P_bind, peek. simpl. by rewrite bool_decide_eq_true_2. Qed.

(** The next token of a state. *)
Definition next (p : Parser) : Token := match rest p with t :: _ => t | [] => TError end.

Lemma eat_no t p : next p <> t -> eat t p = Ok (false, p).
Proof. intros H. unfold eat, mbind, P_bind, peek. fold (next p). by rewrite bool_decide_eq_false_2. Qed.

Lemma consume_run t ts d : consume (mkParser (t :: ts) d) = Ok (t, mkParser ts d).
Proof. done. Qed.
Lemma ident_run what x ts d : ident what (mkParser (TIdent x :: ts) d) = Ok (x, mkParser ts d).
Proof. done. Qed.
Lemma peek_run p : peek p = Ok (next p, p).
Proof. done. Qed.

Lemma bind_bind {A B C} (m : P A) (f : A -> P B) (g : B -> P C) p : ((m ≫= f) ≫= g) p = (m ≫= fun x => f x ≫= g) p.
Proof. unfold mbind, P_bind. by destruct (m p) as [[]|]. Qed.
Lemma ret_bind {A B} (a : A) (g : A -> P B) p : ((mret a : P A) ≫= g) p = g a p.
Proof. done. Qed.

(** One step of a straight-line parser on a known token. *)
Ltac run1 :=
  match goal with
  | |- (expect _ ≫= _) (mkParser (_ :: _) _) = _ => rewrite (bind_run _ _ _ _ _ (expect_run _ _ _))
  | |- ((_ ≫= _) ≫= _) _ = _ => rewrite bind_bind
  | |- (mret _ ≫= _) _ = _ => rewrite ret_bind
  | |- (consume ≫= _) (mkParser (_ :: _) _) = _ => rewrite (bind_run _ _ _ _ _ (consume_run _ _ _))
  | |- (ident _ ≫= _) (mkParser (TIdent _ :: _) _) = _ => rewrite (bind_run _ _ _ _ _ (ident_run _ _ _ _))
  | |- (peek ≫= _) (mkParser (?t :: ?ts) ?d) = _ =>
      rewrite (bind_run _ _ _ _ _ (peek_run _)); change (next (mkParser (t :: ts) d)) with t
  | |- (eat ?t ≫= _) (mkParser (?t :: _) _) = _ => rewrite (bind_run _ _ _ _ _ (eat_yes _ _ _))
  | |- (eat ?t ≫= _) (mkParser (?u :: ?ts) ?d) = _ =>
      rewrite (bind_run _ _ _ _ _ (eat_no t (mkParser (u :: ts) d) ltac:(done)))
  end; cbv beta iota.
Ltac run := repeat run1.

(** ** Lists *)

Lemma until_more {A} (item : P A) fuel close ts d t x p' ys p'' :
  next (mkParser ts d) = t -> t <> close -> item (mkParser ts d) = Ok (x, p') ->
  until fuel close item p' = Ok (ys, p'') -> until (S fuel) close item (mkParser ts d) = Ok (x :: ys, p'').
Proof.
  intros Hn Hc Hi Hu. simpl. erewrite (bind_run peek); [|reflexivity]. fold (next (mkParser ts d)). rewrite Hn.
  rewrite bool_decide_eq_false_2 by done. rewrite (bind_run _ _ _ _ _ Hi). by rewrite (bind_run _ _ _ _ _ Hu).
Qed.

Lemma until_end {A} (item : P A) fuel close ts d :
  until (S fuel) close item (mkParser (close :: ts) d) = Ok ([], mkParser (close :: ts) d).
Proof. simpl. erewrite (bind_run peek); [|reflexivity]. by rewrite bool_decide_eq_true_2. Qed.

(** A list whose entries are written one after the other. *)
Lemma until_reads {A} (item : P A) (pr : A -> list Token) (F : Token -> Prop) close d xs ts fuel :
  F close -> (forall x, x ∈ xs -> exists t ts', pr x = t :: ts' /\ t <> close /\ F t) ->
  (forall x r, x ∈ xs -> F (next (mkParser r d)) -> item (mkParser (pr x ++ r) d) = Ok (x, mkParser r d)) ->
  length (concat (map pr xs)) < fuel ->
  until fuel close item (mkParser (concat (map pr xs) ++ close :: ts) d) = Ok (xs, mkParser (close :: ts) d).
Proof.
  intros HF. revert fuel. induction xs as [|x xs IH]; intros fuel Hh Hi Hf.
  { destruct fuel; [simpl in Hf; lia|]. apply until_end. }
  destruct fuel as [|fuel]; [simpl in Hf; lia|].
  destruct (Hh x) as (t & ts' & E & Hc & _); [left|]. cbn [map concat] in *. rewrite length_app in Hf. rewrite <- app_assoc.
  eapply until_more; [by rewrite E|done|apply Hi; [left|]|].
  - destruct xs as [|y xs]; [done|]. destruct (Hh y) as (t' & ts'' & E' & _ & Hy); [right; left|]. cbn [map concat].
    by rewrite E'.
  - apply IH.
    + intros y Hy. apply Hh. by right.
    + intros y r Hy. apply Hi. by right.
    + rewrite E in Hf. simpl in Hf. lia.
Qed.

(** A list with commas between its entries. *)
Lemma sep_cons ts tss : tss <> [] -> sep (ts :: tss) = ts ++ TComma :: sep tss.
Proof. by destruct tss. Qed.

Lemma with_comma_yes {A} (item : P A) p x ts d :
  item p = Ok (x, mkParser (TComma :: ts) d) -> with_comma item p = Ok (x, mkParser ts d).
Proof. intros H. unfold with_comma. rewrite (bind_run _ _ _ _ _ H). by rewrite (bind_run _ _ _ _ _ (eat_yes _ _ _)). Qed.
Lemma with_comma_no {A} (item : P A) p x p' :
  item p = Ok (x, p') -> next p' <> TComma -> with_comma item p = Ok (x, p').
Proof. intros H Hn. unfold with_comma. rewrite (bind_run _ _ _ _ _ H). by rewrite (bind_run _ _ _ _ _ (eat_no _ _ Hn)). Qed.

Lemma sep_reads {A} (item : P A) (pr : A -> list Token) close d xs ts fuel :
  close <> TComma ->
  (forall x, x ∈ xs -> exists t ts', pr x = t :: ts' /\ t <> close) ->
  (forall x r, x ∈ xs -> next (mkParser r d) = TComma \/ next (mkParser r d) = close ->
    item (mkParser (pr x ++ r) d) = Ok (x, mkParser r d)) ->
  length (sep (map pr xs)) < fuel ->
  until fuel close (with_comma item) (mkParser (sep (map pr xs) ++ close :: ts) d) = Ok (xs, mkParser (close :: ts) d).
Proof.
  intros Hcl. revert fuel. induction xs as [|x xs IH]; intros fuel Hh Hi Hf.
  { destruct fuel; [simpl in Hf; lia|]. apply until_end. }
  destruct fuel as [|fuel]; [simpl in Hf; lia|]. destruct (Hh x) as (t & ts' & E & Hc); [left|].
  destruct xs as [|y xs].
  - cbn [map sep] in *. rewrite E in Hf. cbn [length] in Hf. destruct fuel as [|fuel]; [lia|].
    eapply until_more; [by rewrite E|done| |apply until_end].
    apply with_comma_no; [|done]. apply Hi; [left|by right].
  - cbn [map] in *. rewrite sep_cons, <- app_assoc in * by done. cbn [app] in *.
    eapply until_more; [by rewrite E|done| |].
    + apply with_comma_yes. apply Hi; [left|by left].
    + apply IH.
      * intros z Hz. apply Hh. by right.
      * intros z r Hz. apply Hi. by right.
      * rewrite length_app, E in Hf. simpl in *. lia.
Qed.

(** ** The levels of an expression *)

Definition op_of (l : nat) : Token -> option BinOp :=
  match l with 0 => comparison_op | 1 => arith_op | _ => term_op end.

Section levels.
Context (pe : P Expr).

Definition lev (l : nat) : P Expr :=
  match l with 0 => parse_expr_inner pe | 1 => parse_arith pe | 2 => parse_term pe | _ => parse_postfix pe end.
(** The loop of a level, from its left operand on. *)
Definition lp (l n : nat) (e : Expr) : P Expr :=
  match l with 0 | 1 | 2 => binary_loop n (op_of l) (lev (S l)) e | _ => fields_loop n e end.

Lemma lev_eq l : l < 3 -> lev l = (e ← lev (S l); measured (fun n => lp l n e)).
Proof. intros H. destruct l as [|[|[|l]]]; [done..|lia]. Qed.

(** A token that continues an expression at a level. *)
Definition continues (l : nat) (tail : bool) (t : Token) : bool :=
  match t with
  | TParenOpen | TBracketOpen => true
  | TBraceOpen => negb tail
  | TDot => l <=? 3
  | TStar | TSlash => l <=? 2
  | TPlus | TMinus => l <=? 1
  | TEq | TNeq | TLt | TGt | TLte | TGte => l <=? 0
  | _ => false
  end.
Definition stops (l : nat) (tail : bool) (p : Parser) : Prop := continues l tail (next p) = false.

Lemma stops_le l m tail p : l <= m -> stops l tail p -> stops m tail p.
Proof.
  unfold stops, continues. intros H. destruct (next p); try done; rewrite !Nat.leb_gt; lia.
Qed.

Lemma op_of_token l t op : l < 3 -> op_of l t = Some op -> op_level op = l /\ t = op_token op.
Proof. intros Hl. destruct l as [|[|[|l]]]; [..|lia]; destruct t; simpl; intros; by simplify_eq. Qed.
Lemma op_of_op op : op_of (op_level op) (op_token op) = Some op.
Proof. by destruct op. Qed.
Lemma op_level_lt op : op_level op < 3.
Proof. destruct op; simpl; lia. Qed.

Lemma stops_op l tail p : l < 3 -> stops l tail p -> op_of l (next p) = None.
Proof.
  intros Hl Hs. destruct (op_of l (next p)) as [op|] eqn:E; [|done]. apply op_of_token in E as [<- E]; [|done].
  unfold stops in Hs. rewrite E in Hs. by destruct op.
Qed.

Lemma binary_loop_eq n ops operand e p :
  binary_loop (S n) ops operand e p =
  match ops (next p) with
  | Some op => (_ ← consume; right ← operand; binary_loop n ops operand (EBinary e op right)) p
  | None => Ok (e, p)
  end.
Proof. simpl. erewrite (bind_run peek); [|reflexivity]. fold (next p). by destruct (ops (next p)). Qed.

Lemma lp_binary l n e p : l < 3 ->
  lp l (S n) e p = match op_of l (next p) with
                   | Some op => (_ ← consume; right ← lev (S l); lp l n (EBinary e op right)) p
                   | None => Ok (e, p)
                   end.
Proof. intros H. destruct l as [|[|[|l]]]; [..|lia]; apply binary_loop_eq. Qed.

Lemma lp_stop l tail n e p : 0 < n -> l <= 3 -> stops l tail p -> lp l n e p = Ok (e, p).
Proof.
  destruct n as [|n]; [lia|]. intros _ Hl Hs. destruct (decide (l < 3)) as [Hl'|Hl'].
  - rewrite lp_binary by done. by rewrite (stops_op _ _ _ Hl' Hs).
  - assert (l = 3) as -> by lia. simpl. assert (Hn : next p <> TDot).
    { intros E. unfold stops in Hs. by rewrite E in Hs. }
    by rewrite (bind_run _ _ _ _ _ (eat_no _ _ Hn)).
Qed.

(** The parser of a level has read [e] and goes on with its loop. *)
Definition reaches (l : nat) (p : Parser) (e : Expr) (p' : Parser) : Prop :=
  exists n, length (rest p') < n /\ lev l p = lp l n e p'.

Lemma reaches_down l tail p e p' : l < 3 -> stops (S l) tail p' -> reaches (S l) p e p' -> reaches l p e p'.
Proof.
  intros Hl Hs (n & Hn & E). exists (S (length (rest p'))). split; [lia|].
  rewrite lev_eq by done. rewrite (bind_run _ _ _ e p'); [done|]. rewrite E. eapply lp_stop; [lia|lia|done].
Qed.

Lemma reaches_le m l tail p e p' : l <= m -> m <= 3 -> stops (S l) tail p' -> reaches m p e p' -> reaches l p e p'.
Proof.
  intros Hlm Hm Hs. induction Hlm as [|m Hlm IH]; [done|]. intros H. apply IH; [lia|].
  eapply reaches_down; [lia| |exact H]. eapply stops_le; [|exact Hs]. lia.
Qed.

Lemma reaches_binary op tail p a ts d b p' :
  reaches (op_level op) p a (mkParser (op_token op :: ts) d) ->
  reaches (S (op_level op)) (mkParser ts d) b p' -> stops (S (op_level op)) tail p' -> length (rest p') <= length ts ->
  reaches (op_level op) p (EBinary a op b) p'.
Proof.
  intros (n & Hn & E) (m & Hm & E') Hs Hl. simpl in Hn. destruct n as [|n]; [lia|]. exists n. split; [lia|].
  rewrite E. pose proof (op_level_lt op). rewrite lp_binary by done. unfold next. cbn [rest]. rewrite op_of_op.
  erewrite (bind_run consume); [|reflexivity]. cbv beta. erewrite (bind_run (lev _)); [reflexivity|].
  cbn [depth]. rewrite E'. eapply lp_stop; [lia|lia|exact Hs].
Qed.

Lemma reaches_field p b f ts d :
  reaches 3 p b (mkParser (TDot :: TIdent f :: ts) d) -> reaches 3 p (EFieldAccess b f) (mkParser ts d).
Proof.
  intros (n & Hn & E). simpl in Hn. destruct n as [|n]; [lia|]. exists n. split; [simpl; lia|]. rewrite E.
  cbn [lp fields_loop]. rewrite (bind_run _ _ _ _ _ (eat_yes _ _ _)). cbv beta. by run.
Qed.

Lemma reaches_primary p e p' : parse_primary pe p = Ok (e, p') -> reaches 3 p e p'.
Proof. intros H. exists (S (length (rest p'))). split; [lia|]. cbn [lev]. unfold parse_postfix. by rewrite (bind_run _ _ _ _ _ H). Qed.
End levels.

(** ** Expressions are read back *)

(** What is proved of each expression, by induction. *)
Definition reads_well (e : Expr) : Prop := forall k d lead tail l r,
  l <= 3 -> MAX_NESTING_DEPTH < k + d -> d + nest lead tail l e <= MAX_NESTING_DEPTH ->
  stops (S l) tail (mkParser r d) ->
  reaches (parse_expr k) l (mkParser (print_expr lead tail l e ++ r) d) e (mkParser r d).

Lemma enter_run ts d : d < MAX_NESTING_DEPTH -> enter (mkParser ts d) = Ok (tt, mkParser ts (S d)).
Proof. intros H. unfold enter. cbn [depth rest]. by rewrite (proj2 (Nat.leb_gt _ _)). Qed.

Lemma reaches_parse e k d ts tail r :
  d < MAX_NESTING_DEPTH -> reaches (parse_expr k) 0 (mkParser ts (S d)) e (mkParser r (S d)) ->
  stops 0 tail (mkParser r d) -> parse_expr (S k) (mkParser ts d) = Ok (e, mkParser r d).
Proof.
  intros Hd (n & Hn & E) Hs. cbn [parse_expr]. rewrite (bind_run _ _ _ _ _ (enter_run _ d Hd)).
  change (parse_expr_inner (parse_expr k)) with (lev (parse_expr k) 0).
  rewrite (bind_run _ _ _ e (mkParser r (S d))); [done|]. rewrite E. by eapply lp_stop; [lia|lia|].
Qed.

Lemma parse_reads e k d lead tail r : reads_well e ->
  MAX_NESTING_DEPTH < k + d -> d + S (nest lead tail 0 e) <= MAX_NESTING_DEPTH -> stops 0 tail (mkParser r d) ->
  parse_expr k (mkParser (print_expr lead tail 0 e ++ r) d) = Ok (e, mkParser r d).
Proof.
  intros He Hk Hd Hs. destruct k as [|k]; [lia|]. eapply reaches_parse; [lia| |done].
  apply He; [lia..|]. by eapply (stops_le 0); [lia|].
Qed.

(** Reading a nested expression up to a token that closes it. *)
Lemma parse_closed e k d t r : reads_well e ->
  MAX_NESTING_DEPTH < k + d -> d + S (nest false false 0 e) <= MAX_NESTING_DEPTH -> continues 0 false t = false ->
  parse_expr k (mkParser (print_expr false false 0 e ++ t :: r) d) = Ok (e, mkParser (t :: r) d).
Proof. intros. by apply parse_reads. Qed.

Lemma enclose_app w body lead tail r :
  enclose w body lead tail ++ r = if w then TParenOpen :: body false false ++ TParenClose :: r else body lead tail ++ r.
Proof. destruct w; [|done]. unfold enclose. simpl. by rewrite <- app_assoc. Qed.

Lemma wrapped_low e : wrapped false false 0 e = false.
Proof. unfold wrapped. by destruct (level e). Qed.

(** An expression is read back in every context when it is read back without
    outer parentheses where it needs none. *)
Definition body_reads (e : Expr) : Prop := forall k d lead tail r,
  MAX_NESTING_DEPTH < k + d -> d + nest_body e lead tail <= MAX_NESTING_DEPTH ->
  lead && named e = false -> tail && variable e = false -> stops (S (level e)) tail (mkParser r d) ->
  reaches (parse_expr k) (level e) (mkParser (print_body e lead tail ++ r) d) e (mkParser r d).

Lemma level_le e : level e <= 3.
Proof. destruct e; try done. simpl. pose proof (op_level_lt op). lia. Qed.

Lemma body_reads_well e : body_reads e -> reads_well e.
Proof.
  intros Hb k d lead tail l r Hl Hk Hd Hs. unfold print_expr, nest, deepen in *. rewrite enclose_app.
  pose proof (level_le e). destruct (wrapped lead tail l e) eqn:Hw.
  - destruct k as [|k]; [lia|]. eapply (reaches_le _ 3); [lia|done|exact Hs|]. apply reaches_primary.
    unfold parse_primary. run. rewrite (bind_run _ _ _ e (mkParser (TParenClose :: r) d)).
    + by run.
    + apply (reaches_parse _ _ _ _ false); [lia| |done]. apply (reaches_le _ (level e) 0 false); [lia|done|done|].
      apply Hb; [lia|lia|done|done|done].
  - unfold wrapped in Hw. split_bool. apply Nat.ltb_ge in H0.
    apply (reaches_le _ (level e) l tail); [lia|done|done|]. apply Hb; [lia|lia|done|done|].
    by eapply stops_le; [|exact Hs]; lia.
Qed.

(** The first token of an expression. *)
Definition starts (lead : bool) (t : Token) : Prop :=
  match t with
  | TInt _ | TParenOpen => True
  | TIdent _ | TStorage => lead = false
  | _ => False
  end.

Lemma expr_head e : forall lead tail l, exists t ts, print_expr lead tail l e = t :: ts /\ starts lead t.
Proof.
  assert (Hw : forall e lead tail l, (lead && named e = false -> exists t ts, print_body e lead tail = t :: ts /\ starts lead t) ->
    exists t ts, print_expr lead tail l e = t :: ts /\ starts lead t).
  { intros e' lead tail l H. unfold print_expr, enclose. destruct (wrapped lead tail l e') eqn:Hw; [by eexists _, _|].
    apply H. unfold wrapped in Hw. by split_bool. }
  induction e using expr_nested_ind; intros lead tail l; apply Hw; clear Hw; cbn [named print_body]; intros Hn;
    rewrite ?andb_true_r in Hn; subst; fold print_expr; try by eexists _, _.
  - destruct (IHe lead false 3) as (t & ts & E & Hs). fold (print_expr lead false 3 e). rewrite E. by eexists _, _.
  - destruct (IHe1 lead false (op_level op)) as (t & ts & E & Hs). fold (print_expr lead false (op_level op) e1). rewrite E. by eexists _, _.
  - destruct (path_of x) as [[m f]|]; by eexists _, _.
Qed.

Lemma variable_ok_inv x : variable_ok x = true ->
  x <> "poseidon" /\ x <> "msg" /\ x <> "block" /\ x <> "verify_merkle_proof".
Proof. unfold variable_ok. intros H. split_bool. set_solver. Qed.

(** Reading an ordinary name. *)
Lemma parse_named_plain pe x p : x <> "poseidon" -> x <> "msg" -> x <> "block" -> x <> "verify_merkle_proof" ->
  parse_named pe x p =
  (call ← eat TParenOpen;
    if call : bool then args ← arguments pe; mret (ECall x args)
    else
      index ← eat TBracketOpen;
      if index : bool then key ← pe; _ ← expect TBracketClose; mret (EMappingRead x key)
      else
        literal ← eat TBraceOpen;
        if literal : bool then
          fields ← many TBraceClose (with_comma (literal_field pe)); _ ← expect TBraceClose;
          mret (EStructLiteral x fields)
        else mret (EIdent x)) p.
Proof. intros. unfold parse_named. by rewrite !bool_decide_eq_false_2. Qed.

Lemma list_max_le (l : list nat) n x : list_max l <= n -> x ∈ l -> x <= n.
Proof. induction l; simpl; [set_solver|]. intros H [->|Hx]%elem_of_cons; [lia|]. apply IHl; [lia|done]. Qed.

Lemma list_max_bound (l : list nat) n : Forall (fun x => x <= n) l -> list_max l <= n.
Proof. induction 1; simpl; lia. Qed.

Lemma list_max_map {A} (f : A -> nat) l n x : list_max (map f l) <= n -> x ∈ l -> f x <= n.
Proof. intros H Hx. eapply list_max_le; [exact H|]. by apply list_elem_of_fmap_2. Qed.

Lemma forallb_elem {A} (f : A -> bool) l x : forallb f l = true -> x ∈ l -> f x = true.
Proof. rewrite forallb_forall. intros H Hx. apply H. by apply list_elem_of_In. Qed.

Section nested.
Context (k d : nat) (Hk : MAX_NESTING_DEPTH < k + d).

Lemma arguments_read es r : Forall reads_well es -> Forall (fun e => d + S (nest false false 0 e) <= MAX_NESTING_DEPTH) es ->
  arguments (parse_expr k) (mkParser (sep (map (print_expr false false 0) es) ++ TParenClose :: r) d) = Ok (es, mkParser r d).
Proof.
  intros Hw Hd. rewrite Forall_forall in Hw, Hd. unfold arguments. rewrite (bind_run _ _ _ es (mkParser (TParenClose :: r) d)); [by run|].
  unfold many, measured. apply sep_reads; [done|..].
  - intros e _. destruct (expr_head e false false 0) as (t & ts & -> & Hs). eexists _, _. split; [done|]. by intros ->.
  - intros e r' He Hr. apply parse_reads; auto. unfold stops. by destruct Hr as [-> | ->].
  - cbn [rest]. rewrite length_app. simpl. lia.
Qed.

Lemma literal_fields_read (fs : list (string * Expr)) r :
  Forall (fun f => reads_well f.2) fs -> Forall (fun f => d + S (nest false false 0 f.2) <= MAX_NESTING_DEPTH) fs ->
  many TBraceClose (with_comma (literal_field (parse_expr k)))
    (mkParser (sep (map (fun f => TIdent f.1 :: TColon :: print_expr false false 0 f.2) fs) ++ TBraceClose :: r) d) =
  Ok (fs, mkParser (TBraceClose :: r) d).
Proof.
  intros Hw Hd. rewrite Forall_forall in Hw, Hd. unfold many, measured. apply sep_reads; [done|..].
  - intros f _. by eexists _, _.
  - intros [f e] r' He Hr. unfold literal_field. cbn [app fst snd]. run. rewrite (bind_run _ _ _ e (mkParser r' d)); [done|].
    apply parse_reads; [by apply (Hw _ He)|done|by apply (Hd _ He)|]. unfold stops. by destruct Hr as [-> | ->].
  - cbn [rest]. rewrite length_app. simpl. lia.
Qed.
End nested.

Lemma read_ident x : variable_ok x = true -> body_reads (EIdent x).
Proof.
  intros (? & ? & ? & ?)%variable_ok_inv k d lead tail r _ _ _ Ht Hs. rewrite andb_true_r in Ht. subst tail.
  apply reaches_primary. cbn [print_body app]. unfold parse_primary. run. rewrite parse_named_plain by done.
  assert (Hn : forall t, continues 4 false t = true -> next (mkParser r d) <> t).
  { intros t Ht E. unfold stops in Hs. cbn [level] in Hs. rewrite E in Hs. by rewrite Ht in Hs. }
  rewrite (bind_run _ _ _ _ _ (eat_no TParenOpen _ (Hn TParenOpen eq_refl))).
  rewrite (bind_run _ _ _ _ _ (eat_no TBracketOpen _ (Hn TBracketOpen eq_refl))).
  by rewrite (bind_run _ _ _ _ _ (eat_no TBraceOpen _ (Hn TBraceOpen eq_refl))).
Qed.

Lemma read_mapping x e : variable_ok x = true -> reads_well e -> body_reads (EMappingRead x e).
Proof.
  intros (? & ? & ? & ?)%variable_ok_inv He k d lead tail r Hk Hd _ _ Hs. apply reaches_primary.
  cbn [print_body app]. fold (print_expr false false 0 e). unfold parse_primary. rewrite <- app_assoc. run.
  rewrite parse_named_plain by done. run. cbn [app]. rewrite (bind_run _ _ _ _ _ (parse_closed e k d TBracketClose _ He Hk Hd eq_refl)). by run.
Qed.

Lemma read_literal x fs : variable_ok x = true -> Forall (fun f => reads_well f.2) fs -> body_reads (EStructLiteral x fs).
Proof.
  intros (? & ? & ? & ?)%variable_ok_inv Hf k d lead tail r Hk Hd _ _ Hs. apply reaches_primary.
  cbn [print_body app]. unfold parse_primary. rewrite <- app_assoc. run. rewrite parse_named_plain by done. run. cbn [app].
  cbn [nest_body] in Hd.
  rewrite (bind_run _ _ _ fs (mkParser (TBraceClose :: r) d)); [by run|]. apply literal_fields_read; [done..|].
  apply Forall_forall. intros f Hin. fold (nest false false 0 f.2) in *.
  assert (S (nest false false 0 f.2) <= MAX_NESTING_DEPTH - d); [|lia].
  by apply (list_max_map (fun f => S (nest false false 0 f.2)) fs); [unfold nest; lia|].
Qed.

Lemma args_depth d es : d + list_max (map (fun e => S (nest false false 0 e)) es) <= MAX_NESTING_DEPTH ->
  Forall (fun e => d + S (nest false false 0 e) <= MAX_NESTING_DEPTH) es.
Proof.
  intros Hd. apply Forall_forall. intros e Hin. assert (S (nest false false 0 e) <= MAX_NESTING_DEPTH - d); [|lia].
  apply (list_max_map (fun e => S (nest false false 0 e)) es); [lia|done].
Qed.

Lemma strip_prefix_Some p s r : strip_prefix p s = Some r <-> s = p +:+ r.
Proof.
  revert s. induction p as [|a p IH]; intros s; simpl.
  { split; [by intros [= ->]|by intros ->]. }
  destruct s as [|b s]; [done|]. case_bool_decide as E; [subst b; rewrite IH; split; [by intros ->|by intros [= ->]]|].
  split; [done|]. by intros [= -> _].
Qed.

Lemma path_of_Some x m f : path_of x = Some (m, f) -> (m = "msg" /\ x = "msg::" +:+ f) \/ (m = "block" /\ x = "block::" +:+ f).
Proof.
  unfold path_of. destruct (strip_prefix "msg::" x) eqn:E; [|destruct (strip_prefix "block::" x) eqn:E'; [|done]];
    intros; simplify_eq; [left|right]; split; try done; by apply strip_prefix_Some.
Qed.

Lemma path_call_run pre f r d : path_call pre (mkParser (TColon :: TColon :: TIdent f :: TParenOpen :: TParenClose :: r) d)
  = Ok (ECall (pre +:+ f) [], mkParser r d).
Proof. unfold path_call. by run. Qed.

Lemma read_call x es : call_ok x (length es) = true -> Forall reads_well es -> body_reads (ECall x es).
Proof.
  intros Hx He k d lead tail r Hk Hd _ _ Hs. apply reaches_primary. cbn [print_body nest_body] in *. apply (args_depth d es) in Hd.
  unfold call_ok in Hx. unfold parse_primary. destruct (path_of x) as [[m f]|] eqn:Ex.
  - split_bool. apply Nat.eqb_eq, length_zero_iff_nil in H0. subst es. cbn [app]. run.
    apply path_of_Some in Ex as [[-> ->] | [-> ->]]; apply path_call_run.
  - split_bool. cbn [app]. rewrite <- app_assoc. run. cbn [app]. fold print_expr.
    change (map _ es) with (map (print_expr false false 0) es). unfold parse_named.
    assert (x <> "msg" /\ x <> "block") as [Hm Hb] by set_solver.
    destruct (decide (x = "poseidon")) as [E1|E1].
    { rewrite (bool_decide_eq_true_2 _ E1). subst. run. by rewrite (bind_run _ _ _ _ _ (arguments_read k d Hk es r He Hd)). }
    rewrite (bool_decide_eq_false_2 _ E1), (bool_decide_eq_false_2 _ Hm), (bool_decide_eq_false_2 _ Hb). case_bool_decide as E2.
    + simpl in H0. apply Nat.eqb_eq in H0. destruct es as [|a [|b [|c [|? ?]]]]; try done. cbn [map sep].
      rewrite !Forall_cons in He, Hd. destruct He as (Ha & Hb' & Hc & _), Hd as (Da & Db & Dc & _). run.
      repeat (rewrite <- app_assoc; cbn [app]). rewrite (bind_run _ _ _ _ _ (parse_closed a k d TComma _ Ha Hk Da eq_refl)). run.
      rewrite (bind_run _ _ _ _ _ (parse_closed b k d TComma _ Hb' Hk Db eq_refl)). run.
      rewrite (bind_run _ _ _ _ _ (parse_closed c k d TParenClose _ Hc Hk Dc eq_refl)). run. by subst.
    + run. by rewrite (bind_run _ _ _ _ _ (arguments_read k d Hk es r He Hd)).
Qed.

Lemma read_field b f : reads_well b -> body_reads (EFieldAccess b f).
Proof.
  intros Hb k d lead tail r Hk Hd _ _ Hs. cbn [level print_body nest_body] in *. rewrite <- app_assoc.
  apply reaches_field. by apply Hb; [lia|..].
Qed.

Lemma read_binary a op b : reads_well a -> reads_well b -> body_reads (EBinary a op b).
Proof.
  intros Ha Hb k d lead tail r Hk Hd _ _ Hs. cbn [level print_body nest_body] in *. pose proof (op_level_lt op).
  fold (nest lead false (op_level op) a) (nest false tail (S (op_level op)) b) in Hd.
  fold (print_expr lead false (op_level op) a) (print_expr false tail (S (op_level op)) b).
  rewrite <- app_assoc. cbn [app]. apply (reaches_binary _ op tail _ a (print_expr false tail (S (op_level op)) b ++ r) d); [| |exact Hs|].
  - apply Ha; [lia|lia|lia|]. unfold stops, next. simpl. destruct op; done.
  - apply Hb; [lia|lia|lia|]. eapply stops_le; [|exact Hs]. lia.
  - cbn [rest]. rewrite length_app. lia.
Qed.

Lemma expr_reads e : expr_ok e = true -> reads_well e.
Proof.
  induction e using expr_nested_ind; cbn [expr_ok]; intros Hok; apply body_reads_well; split_bool.
  - intros k d lead tail r _ _ _ _ _. by apply reaches_primary.
  - by apply read_ident.
  - intros k d lead tail r _ _ _ _ _. apply reaches_primary. unfold parse_primary. cbn [print_body app]. by run.
  - apply read_mapping; auto.
  - apply read_field; auto.
  - apply read_literal; [done|]. rewrite Forall_forall in *. intros f Hf. apply H; [done|].
    apply (forallb_elem _ _ _ H1) in Hf. by split_bool.
  - apply read_binary; auto.
  - apply read_call; [done|]. rewrite Forall_forall in *. intros f Hf. apply H; [done|]. by apply (forallb_elem _ _ _ H1).
Qed.

(** ** Statements are read back *)

Definition stmt_reads (s : Stmt) : Prop := forall k d r,
  MAX_NESTING_DEPTH < k + d -> d + S (snest s) <= MAX_NESTING_DEPTH -> next (mkParser r d) <> TElse ->
  parse_stmt k (mkParser (print_stmt s ++ r) d) = Ok (s, mkParser r d).

Definition inner_reads (s : Stmt) : Prop := forall k d r,
  MAX_NESTING_DEPTH < k + d -> d + snest s <= MAX_NESTING_DEPTH -> next (mkParser r d) <> TElse ->
  parse_stmt_inner (parse_expr k) (parse_stmt k) (mkParser (print_stmt s ++ r) d) = Ok (s, mkParser r d).

Lemma inner_stmt_reads s : inner_reads s -> stmt_reads s.
Proof.
  intros Hs k d r Hk Hd Hr. destruct k as [|k]; [lia|]. cbn [parse_stmt].
  rewrite (bind_run _ _ _ _ _ (enter_run _ d ltac:(lia))).
  rewrite (bind_run _ _ _ _ _ (Hs k (S d) r ltac:(lia) ltac:(lia) Hr)). done.
Qed.

Lemma stmt_head s : exists t ts, print_stmt s = t :: ts /\ t <> TBraceClose /\ t <> TElse.
Proof.
  destruct s; try (by eexists _, _). cbn [print_stmt]. destruct (expr_head e true false 0) as (t & ts & -> & Ht).
  eexists _, _. split; [done|]. by destruct t.
Qed.

Definition block_nest (b : list Stmt) : nat := list_max (map (fun s => S (snest s)) b).

Section bodies.
Context (k d : nat) (Hk : MAX_NESTING_DEPTH < k + d).

Lemma block_reads b r : Forall stmt_reads b -> d + block_nest b <= MAX_NESTING_DEPTH ->
  block (parse_stmt k) (mkParser (concat (map print_stmt b) ++ TBraceClose :: r) d) = Ok (b, mkParser r d).
Proof.
  intros Hb Hd. rewrite Forall_forall in Hb. unfold block. rewrite (bind_run _ _ _ b (mkParser (TBraceClose :: r) d)); [by run|].
  unfold many, measured. apply (until_reads _ _ (fun t => t <> TElse)); [done|..].
  - intros s _. destruct (stmt_head s) as (t & ts & -> & ? & ?). by eexists _, _.
  - intros s r' Hs Hr. apply Hb; [done|done| |done].
    assert (S (snest s) <= MAX_NESTING_DEPTH - d); [|lia]. apply (list_max_map (fun s => S (snest s)) b); [|done].
    unfold block_nest in Hd. lia.
  - cbn [rest]. rewrite length_app. simpl. lia.
Qed.

Lemma braces_read b r : Forall stmt_reads b -> d + block_nest b <= MAX_NESTING_DEPTH ->
  (_ ← expect TBraceOpen; block (parse_stmt k)) (mkParser (braces (concat (map print_stmt b)) ++ r) d) = Ok (b, mkParser r d).
Proof. intros. unfold braces. cbn [app]. rewrite <- app_assoc. run. by apply block_reads. Qed.

Definition print_arm (arm : MatchPattern * list Stmt) : list Token :=
  print_pattern arm.1 :: TFatArrow :: braces (concat (map print_stmt arm.2)) ++ [TComma].

Lemma arm_reads arm r : Forall stmt_reads arm.2 -> d + block_nest arm.2 <= MAX_NESTING_DEPTH ->
  parse_match_arm (parse_stmt k) (mkParser (print_arm arm ++ r) d) = Ok (arm, mkParser (TComma :: r) d).
Proof.
  intros Hb Hd. destruct arm as [p b]. cbn [fst snd] in *. unfold parse_match_arm, print_arm, braces. cbn [fst snd app].
  rewrite <- !app_assoc. cbn [app].
  assert (Hp : forall A (f : MatchPattern -> P A) ts,
    (t ← peek; pattern ← match t with
      | TIdent name => if bool_decide (name = "_") then _ ← consume; mret Wildcard else raise BadPattern
      | TInt v => _ ← consume; mret (IntLit v)
      | _ => raise BadPattern
      end; f pattern) (mkParser (print_pattern p :: ts) d) = f p (mkParser ts d)) by (intros; by destruct p).
  rewrite Hp. run. by rewrite (bind_run _ _ _ _ _ (block_reads b (TComma :: r) Hb Hd)).
Qed.

Lemma arm_head arm : exists t ts, print_arm arm = t :: ts /\ t <> TBraceClose /\ t <> TComma.
Proof. destruct arm as [[] b]; by eexists _, _. Qed.

Lemma arms_read arms r fuel : Forall (fun arm => Forall stmt_reads arm.2) arms ->
  Forall (fun arm => d + block_nest arm.2 <= MAX_NESTING_DEPTH) arms -> length (concat (map print_arm arms)) < fuel ->
  arms_loop (parse_stmt k) fuel (mkParser (concat (map print_arm arms) ++ TBraceClose :: r) d) = Ok (arms, mkParser (TBraceClose :: r) d).
Proof.
  intros Hr. revert fuel. induction Hr as [|arm arms Harm _ IH]; intros fuel Hd Hf; (destruct fuel as [|fuel]; [lia|]).
  { cbn [arms_loop map concat app]. by run. }
  apply Forall_cons in Hd as [Hd Hds]. cbn [arms_loop map concat app] in *. rewrite <- app_assoc.
  destruct (arm_head arm) as (t & ts & E & Ht & Ht').
  assert (Hn : forall r, next (mkParser (print_arm arm ++ r) d) = t) by (intros; by rewrite E).
  rewrite (bind_run _ _ _ _ _ (peek_run _)), Hn.
  rewrite !bool_decide_eq_false_2 by done. rewrite (bind_run _ _ _ _ _ (arm_reads arm _ Harm Hd)). run.
  rewrite bool_decide_eq_true_2 by done. run. rewrite (bind_run _ _ _ _ _ (IH fuel Hds ltac:(rewrite length_app, E in Hf; simpl in Hf; lia))).
  done.
Qed.
End bodies.

Ltac norm_app := cbn [app]; repeat (rewrite <- app_assoc; cbn [app]).

(** Reading an expression, up to a token that ends it, in a straight-line parser. *)
Ltac read_expr :=
  norm_app;
  match goal with
  | Hk : MAX_NESTING_DEPTH < ?k + ?d |- (parse_expr ?k ≫= _) (mkParser (print_expr false false 0 ?e ++ ?t :: ?r) ?d) = _ =>
      rewrite (bind_run _ _ _ _ _ (parse_closed e k d t r (expr_reads e ltac:(done)) Hk ltac:(unfold nest0 in *; lia) eq_refl));
      cbv beta iota
  end; run.
Ltac start_stmt := intros k d r Hk Hd Hr; cbn [print_stmt snest stmt_ok app] in *; split_bool; unfold in_parens in *;
  unfold parse_stmt_inner; norm_app; run.

Lemma read_simple s : stmt_ok s = true ->
  match s with SLet _ _ | SConstrain _ | SStorageWrite _ _ => True | _ => False end -> inner_reads s.
Proof. destruct s; try done; intros Hok _; start_stmt; by read_expr. Qed.

Lemma read_assign x e : stmt_ok (SAssign x e) = true -> inner_reads (SAssign x e).
Proof. intros Hok. start_stmt. rewrite bool_decide_eq_false_2 by done. run. by read_expr. Qed.

Lemma read_mapping_write x a b : stmt_ok (SMappingWrite x a b) = true -> inner_reads (SMappingWrite x a b).
Proof. intros Hok. start_stmt. rewrite bool_decide_eq_false_2 by done. run. read_expr. by read_expr. Qed.

Lemma read_return e : stmt_ok (SReturn e) = true -> inner_reads (SReturn e).
Proof.
  intros Hok. destruct e as [e|]; start_stmt; [|by rewrite bool_decide_eq_true_2; run].
  destruct (expr_head e false false 0) as (t & ts & E & Ht).
  assert (Hn : forall r, next (mkParser (print_expr false false 0 e ++ r) d) = t) by (intros; by rewrite E).
  rewrite (bind_run _ _ _ _ _ (peek_run _)), Hn, bool_decide_eq_false_2 by (by intros ->).
  rewrite (bind_run _ _ _ (Some e) (mkParser (TSemicolon :: r) d)); [by run|]. by read_expr.
Qed.

Lemma read_emit x es : stmt_ok (SEmit x es) = true -> inner_reads (SEmit x es).
Proof.
  intros Hok. start_stmt. rewrite bool_decide_eq_true_2 by done. run.
  rewrite (bind_run _ _ _ es (mkParser (TSemicolon :: r) d)); [by run|].
  apply arguments_read; [done| |by apply (args_depth d es)].
  apply Forall_forall. intros e He. by apply expr_reads, (forallb_elem _ _ _ H0).
Qed.

Lemma read_expr_stmt e : stmt_ok (SExpr e) = true -> inner_reads (SExpr e).
Proof.
  intros Hok k d r Hk Hd Hr. cbn [print_stmt snest stmt_ok] in *. unfold parse_stmt_inner. rewrite <- app_assoc. cbn [app].
  destruct (expr_head e true false 0) as (t & ts & E & Ht).
  assert (Hn : forall r, next (mkParser (print_expr true false 0 e ++ r) d) = t) by (intros; by rewrite E).
  rewrite (bind_run _ _ _ _ _ (peek_run _)), Hn.
  assert (Hp : parse_expr k (mkParser (print_expr true false 0 e ++ TSemicolon :: r) d) = Ok (e, mkParser (TSemicolon :: r) d)).
  { apply parse_reads; [by apply expr_reads|done|lia|done]. }
  destruct t; try done; rewrite (bind_run _ _ _ _ _ Hp); by run.
Qed.

(** A block in a straight-line parser. *)
Ltac read_block :=
  unfold braces; norm_app; run;
  match goal with
  | Hk : MAX_NESTING_DEPTH < ?k + ?d |- (block (parse_stmt ?k) ≫= _) (mkParser (concat (map print_stmt ?b) ++ TBraceClose :: ?r) ?d) = _ =>
      rewrite (bind_run _ _ _ _ _ (block_reads k d Hk b r ltac:(done) ltac:(unfold nest0, block_nest in *; lia))); cbv beta iota
  end; run.

Lemma read_while c b : Forall stmt_reads b -> stmt_ok (SWhile c b) = true -> inner_reads (SWhile c b).
Proof. intros Hb Hok. start_stmt. read_expr. by read_block. Qed.

Lemma read_for x a e b : Forall stmt_reads b -> stmt_ok (SFor x a e b) = true -> inner_reads (SFor x a e b).
Proof.
  intros Hb Hok. start_stmt. read_expr. unfold braces. norm_app.
  rewrite (bind_run _ _ _ e (mkParser (TBraceOpen :: concat (map print_stmt b) ++ TBraceClose :: r) d)); [by read_block|].
  apply parse_reads; [by apply expr_reads|done|lia|done].
Qed.

Lemma read_if c t e : Forall stmt_reads t -> (forall b, e = Some b -> Forall stmt_reads b) ->
  stmt_ok (SIf c t e) = true -> inner_reads (SIf c t e).
Proof.
  intros Ht He Hok. start_stmt. read_expr. read_block. destruct e as [b|].
  - specialize (He b eq_refl). by read_block.
  - cbn [app]. by rewrite (bind_run _ _ _ _ _ (eat_no _ _ Hr)).
Qed.

Lemma read_match a arms : Forall (fun arm => Forall stmt_reads arm.2) arms ->
  stmt_ok (SMatch a arms) = true -> inner_reads (SMatch a arms).
Proof.
  intros Harms Hok. start_stmt. read_expr. unfold braces at 1. norm_app. run.
  fold print_arm. change (map _ arms) with (map print_arm arms).
  rewrite (bind_run _ _ _ arms (mkParser (TBraceClose :: TSemicolon :: r) d)); [by run|].
  unfold parse_arms, measured. apply arms_read; [done|done| |cbn [rest]; rewrite length_app; simpl; lia].
  apply Forall_forall. intros arm Hin. assert (block_nest arm.2 <= MAX_NESTING_DEPTH - d); [|lia].
  apply (list_max_map (fun arm : MatchPattern * list Stmt => block_nest arm.2) arms); [|done]. unfold block_nest. lia.
Qed.

Lemma stmts_ok_reads b : Forall (fun s => stmt_ok s = true -> stmt_reads s) b -> forallb stmt_ok b = true -> Forall stmt_reads b.
Proof. rewrite !Forall_forall. intros H Hb s Hs. apply H; [done|]. by apply (forallb_elem _ _ _ Hb). Qed.

Lemma stmt_is_read s : stmt_ok s = true -> stmt_reads s.
Proof.
  induction s using stmt_nested_ind; intros Hok; apply inner_stmt_reads; try (by apply read_simple).
  - by apply read_assign.
  - by apply read_mapping_write.
  - pose proof Hok as Hs. cbn [stmt_ok] in Hs. split_bool. apply read_if; [by apply stmts_ok_reads| |done].
    intros b ->. apply stmts_ok_reads; [by apply H0|done].
  - pose proof Hok as Hs. cbn [stmt_ok] in Hs. split_bool. apply read_while; [by apply stmts_ok_reads|done].
  - pose proof Hok as Hs. cbn [stmt_ok] in Hs. split_bool. apply read_for; [by apply stmts_ok_reads|done].
  - by apply read_return.
  - by apply read_emit.
  - pose proof Hok as Hs. cbn [stmt_ok] in Hs. split_bool. apply read_match; [|done]. rewrite Forall_forall in *.
    intros arm Harm. apply (forallb_elem _ _ _ H1) in Harm as Ha. split_bool. apply stmts_ok_reads; [by apply H|done].
  - by apply read_expr_stmt.
Qed.

(** ** Contracts are read back *)

Lemma string_app_assoc (a b c : string) : (a +:+ b) +:+ c = a +:+ (b +:+ c).
Proof. induction a as [|x a IH]; [done|]. exact (f_equal (String x) IH). Qed.

Lemma drop_last_Some s s' c : drop_last s = Some (s', c) -> s = s' +:+ String c "".
Proof.
  revert s' c. induction s as [|x s IH]; intros s' c; [done|]. cbn [drop_last].
  destruct (drop_last s) as [[s'' c']|] eqn:E; intros; simplify_eq.
  - exact (f_equal (String x) (IH _ _ eq_refl)).
  - destruct s; [done|]. cbn in E. by destruct (drop_last s) as [[]|].
Qed.

Lemma split_comma_Some s k v : split_comma s = Some (k, v) -> s = k +:+ "," +:+ v.
Proof.
  revert k. induction s as [|x s IH]; intros k; [done|]. cbn [split_comma]. case_bool_decide as E; [intros; by simplify_eq|].
  destruct (split_comma s) as [[k' v']|]; [|done]. cbn. intros; simplify_eq. exact (f_equal (String x) (IH _ eq_refl)).
Qed.

Lemma map_type_Some ty k v : map_type ty = Some (k, v) -> ty = "Map<" +:+ k +:+ "," +:+ v +:+ ">".
Proof.
  unfold map_type. destruct (strip_prefix "Map<" ty) as [b|] eqn:E1; [|done]. cbn.
  destruct (drop_last b) as [[b' c]|] eqn:E2; [|done]. cbn. case_bool_decide as E3; [|done]. intros E4. subst c.
  apply strip_prefix_Some in E1. apply drop_last_Some in E2. apply split_comma_Some in E4. subst.
  by rewrite !string_app_assoc.
Qed.

Lemma type_reads ty r d : type_ok ty = true ->
  parse_storage_type (mkParser (print_type ty ++ r) d) = Ok (ty, mkParser r d).
Proof.
  unfold type_ok, print_type, parse_storage_type. destruct (map_type ty) as [[k v]|] eqn:E; intros Hok; split_bool; cbn [app]; run.
  - rewrite bool_decide_eq_true_2 by done. run. by rewrite (map_type_Some _ _ _ E).
  - by rewrite bool_decide_eq_false_2.
Qed.

Lemma fields_read (ty : P string) (pr : string -> list Token) (ok : string -> bool) fs r d :
  (forall t r, ok t = true -> ty (mkParser (pr t ++ r) d) = Ok (t, mkParser r d)) -> fields_ok ok fs = true ->
  field_block ty (mkParser (print_fields pr fs ++ r) d) = Ok (fs, mkParser r d).
Proof.
  intros Hty Hok. unfold field_block, print_fields, braces. norm_app. run.
  rewrite (bind_run _ _ _ fs (mkParser (TBraceClose :: r) d)); [by run|]. unfold many, measured.
  apply (until_reads _ _ (fun _ => True)); [done|by intros; eexists _, _| |cbn [rest]; rewrite length_app; simpl; lia].
  intros [x t] r' Hin _. apply (forallb_elem _ _ _ Hok) in Hin. split_bool. unfold parse_field. cbn [sf_name sf_ty] in *. norm_app. run.
  rewrite (bind_run _ _ _ _ _ (Hty t _ H0)). by run.
Qed.

Lemma params_read ps r d : forallb (fun p => ident_ok (p_name p) && ident_ok (p_ty p)) ps = true ->
  many TParenClose (with_comma parse_param) (mkParser (print_params ps ++ TParenClose :: r) d) = Ok (ps, mkParser (TParenClose :: r) d).
Proof.
  intros _. unfold many, measured, print_params. apply sep_reads; [done|by intros; eexists _, _| |cbn [rest]; rewrite length_app; simpl; lia].
  intros [x t] r' _ _. unfold parse_param. cbn [app p_name p_ty]. by run.
Qed.

Lemma body_read b r : body_ok b = true ->
  block (parse_stmt nesting_fuel) (mkParser (concat (map print_stmt b) ++ TBraceClose :: r) 0) = Ok (b, mkParser r 0).
Proof.
  intros Hb. apply block_reads; [unfold nesting_fuel; lia|..].
  - apply Forall_forall. intros s Hs. apply (forallb_elem _ _ _ Hb) in Hs. split_bool. by apply stmt_is_read.
  - unfold block_nest. apply list_max_bound. apply Forall_forall. intros n Hn. apply list_elem_of_fmap in Hn as (s & -> & Hs).
    apply (forallb_elem _ _ _ Hb) in Hs. split_bool. by apply Nat.leb_le.
Qed.

Lemma function_reads f r : function_ok f = true -> parse_function (mkParser (print_function f ++ r) 0) = Ok (f, mkParser r 0).
Proof.
  intros Hok. destruct f as [x ps t b pub]. unfold function_ok in Hok. cbn [f_name f_params f_return_type f_body] in Hok. split_bool.
  unfold parse_function, print_function, braces. cbn [f_name f_params f_return_type f_body f_is_pub].
  rewrite (bind_run _ _ _ pub (mkParser (TFn :: TIdent x :: TParenOpen :: print_params ps ++ TParenClose ::
    match t with Some t => [TArrow; TIdent t] | None => [] end ++ TBraceOpen :: concat (map print_stmt b) ++ TBraceClose :: r) 0)).
  2:{ destruct pub; norm_app; [apply eat_yes|by apply eat_no]. }
  run. rewrite (bind_run _ _ _ _ _ (params_read ps _ 0 H2)). run.
  destruct t as [t|]; norm_app; run; by rewrite (bind_run _ _ _ _ _ (body_read b r H0)).
Qed.

Lemma member_reads m r : member_ok m = true -> parse_member (mkParser (print_member m ++ r) 0) = Ok (m, mkParser r 0).
Proof.
  intros Hok. destruct m as [fs|[x fs]|f]; cbn [member_ok print_member] in *; unfold parse_member.
  - cbn [app]. run. rewrite (bind_run _ _ _ fs (mkParser r 0)); [done|].
    apply (fields_read _ _ type_ok); [|done]. intros. by apply type_reads.
  - cbn [app s_name s_fields] in *. split_bool. run. rewrite (bind_run _ _ _ fs (mkParser r 0)); [done|].
    by apply (fields_read _ _ ident_ok).
  - assert (Hn : next (mkParser (print_function f ++ r) 0) = TPub \/ next (mkParser (print_function f ++ r) 0) = TFn).
    { unfold print_function. destruct (f_is_pub f); [by left|by right]. }
    rewrite (bind_run _ _ _ _ _ (peek_run _)). destruct Hn as [-> | ->]; by rewrite (bind_run _ _ _ _ _ (function_reads f r Hok)).
Qed.

Lemma members_bind c : mkContract (c_name c) (members c ≫= storage_of) (members c ≫= struct_of) (members c ≫= function_of) = c.
Proof.
  assert (Hn : forall A B C (f : A -> B) (g : B -> list C) l, (forall x, g (f x) = []) -> map f l ≫= g = []).
  { intros A B C f g l H. induction l as [|x l IH]; [done|]. cbn. by rewrite H, IH. }
  assert (Hi : forall A B (f : A -> B) (g : B -> list A) l, (forall x, g (f x) = [x]) -> map f l ≫= g = l).
  { intros A B f g l H. induction l as [|x l IH]; [done|]. cbn. by rewrite H; cbn; f_equal. }
  destruct c as [x st ss fs]. unfold members. cbn [c_name c_storage c_structs c_functions]. f_equal; cbn; rewrite ?bind_app.
  - rewrite !Hn by done. by rewrite !app_nil_r.
  - rewrite Hi, Hn by done. by rewrite app_nil_r.
  - by rewrite Hn, Hi.
Qed.

Lemma member_head m : exists t ts, print_member m = t :: ts /\ t <> TBraceClose.
Proof. destruct m as [fs|s|f]; [by eexists _, _..|]. cbn [print_member]. unfold print_function. destruct (f_is_pub f); by eexists _, _. Qed.

Lemma contract_reads c r : contract_ok c = true ->
  parse_contract (mkParser (print_contract c ++ r) 0) = Ok (c, mkParser r 0).
Proof.
  intros Hok. unfold contract_ok in Hok. split_bool. unfold parse_contract, print_contract, braces. norm_app. run.
  rewrite (bind_run _ _ _ (members c) (mkParser (TBraceClose :: r) 0)); [run; unfold mret, P_ret; by rewrite members_bind|].
  unfold many, measured. apply (until_reads _ _ (fun _ => True)); [done|..|cbn [rest]; rewrite length_app; simpl; lia].
  - intros m _. destruct (member_head m) as (t & ts & -> & ?). by eexists _, _.
  - intros m r' Hm _. apply member_reads. by apply (forallb_elem _ _ _ H0).
Qed.

End BudlParserFacts.
