(* ===== verification/BudlParserTotal.v ===== *)
(** * The parser always returns, and returns only what can be written (BudlParser.v)

    Every run of the parser ends: the loops never use up their fuel, because each
    turn consumes a token, and neither does the recursion, because the nesting
    limit refuses first.  Every tree it returns satisfies [contract_ok]
    (BudlPrint.v), so that printing it and parsing again gives it back. *)

From Stdlib Require Import ZArith Lia Ascii.
From stdpp Require Import base tactics strings numbers gmap list.
From S2P Require Import Prelude BudlAst BudlSema BudlCodegen BudlParser BudlPrint BudlParserFacts.
Import BudlAst BudlParser BudlPrint BudlParserFacts.
Open Scope nat_scope.

Module BudlParserTotal.

(** ** Nesting of the printed form *)

Lemma nest_body_wrap e : forall lead tail, nest_body e lead tail <= S (nest_body e false false).
Proof.
  assert (Hn : forall e, (forall lead tail, nest_body e lead tail <= S (nest_body e false false)) ->
    forall lead tail l, nest lead tail l e <= S (nest false false l e)).
  { intros e' H lead tail l. unfold nest, deepen. pose proof (H lead tail).
    destruct (wrapped lead tail l e'), (wrapped false false l e'); lia. }
  induction e using expr_nested_ind; intros lead tail; cbn [nest_body]; try lia.
  - apply (Hn _ IHe).
  - pose proof (Hn _ IHe1 lead false (op_level op)). pose proof (Hn _ IHe2 false tail (S (op_level op))). unfold nest in *. lia.
Qed.

Lemma nest_level lead tail l m e : l <= m -> nest lead tail l e <= nest lead tail m e.
Proof.
  intros Hl. unfold nest, deepen. pose proof (nest_body_wrap e lead tail). unfold wrapped.
  destruct (level e <? l) eqn:E; [apply Nat.ltb_lt in E; rewrite (proj2 (Nat.ltb_lt _ _)) by lia; done|].
  destruct (level e <? m), (lead && named e || tail && variable e) eqn:E'; simpl; rewrite ?orb_false_l, ?E'; simpl; lia.
Qed.

Lemma nest_wrap lead tail l e : nest lead tail l e <= S (nest false false 0 e).
Proof.
  unfold nest. rewrite wrapped_low. unfold deepen. pose proof (nest_body_wrap e lead tail). destruct (wrapped lead tail l e); lia.
Qed.

Lemma nest_mono e : forall lead tail lead' tail' l, (lead = true -> lead' = true) -> (tail = true -> tail' = true) ->
  nest lead tail l e <= nest lead' tail' l e.
Proof.
  assert (Hw : forall e lead tail lead' tail' l, (lead = true -> lead' = true) -> (tail = true -> tail' = true) ->
    nest_body e lead tail <= nest_body e lead' tail' -> nest lead tail l e <= nest lead' tail' l e).
  { intros e' lead tail lead' tail' l H1 H2 H. unfold nest, deepen. pose proof (nest_body_wrap e' lead tail).
    assert (wrapped lead tail l e' = true -> wrapped lead' tail' l e' = true).
    { unfold wrapped. destruct lead, tail, (level e' <? l), (named e'), (variable e'); simpl; try done;
        rewrite ?H1, ?H2 by done; simpl; by rewrite ?orb_true_r. }
    destruct (wrapped lead tail l e'), (wrapped lead' tail' l e'); lia. }
  induction e using expr_nested_ind; intros lead tail lead' tail' l H1 H2; apply Hw; cbn [nest_body]; auto.
  - by apply (IHe lead false lead' false 3).
  - pose proof (IHe1 lead false lead' false (op_level op) H1 (fun x => x)).
    pose proof (IHe2 false tail false tail' (S (op_level op)) (fun x => x) H2). unfold nest in *. lia.
Qed.

Lemma nest_low lead tail l e : nest false false l e <= nest lead tail l e.
Proof. by apply nest_mono. Qed.

(** ** Weakest preconditions *)

Definition wp {A} (m : P A) (Q : A -> Parser -> Prop) (p : Parser) : Prop :=
  match m p with Ok (a, p') => Q a p' | Err e => e <> OutOfFuel end.

Lemma parser_wp_ret {A} (a : A) (Q : A -> Parser -> Prop) p : Q a p -> wp (mret a) Q p.
Proof. done. Qed.
Lemma wp_raise {A} e (Q : A -> Parser -> Prop) p : e <> OutOfFuel -> wp (raise e) Q p.
Proof. done. Qed.
Lemma parser_wp_bind {A B} (m : P A) (k : A -> P B) Q p : wp m (fun a => wp (k a) Q) p -> wp (m ≫= k) Q p.
Proof. unfold wp, mbind, P_bind. by destruct (m p) as [[]|]. Qed.
Lemma wp_peek (Q : Token -> Parser -> Prop) p : Q (next p) p -> wp peek Q p.
Proof. done. Qed.

Abbreviation lex := (Forall lexical).

Lemma wp_consume (Q : Token -> Parser -> Prop) ts d : lex ts ->
  (ts = [] -> Q TError (mkParser ts d)) ->
  (forall t ts', ts = t :: ts' -> lexical t -> lex ts' -> Q t (mkParser ts' d)) -> wp consume Q (mkParser ts d).
Proof. unfold wp, consume. cbn [rest]. destruct 1; auto. Qed.

Lemma wp_expect t (Q : unit -> Parser -> Prop) ts d : lex ts -> t <> TError ->
  (forall ts', ts = t :: ts' -> lex ts' -> Q tt (mkParser ts' d)) -> wp (expect t) Q (mkParser ts d).
Proof.
  intros Hl Ht HQ. apply parser_wp_bind, wp_consume; [done| |].
  - intros ->. by rewrite bool_decide_eq_false_2.
  - intros u ts' -> _ Hl'. case_bool_decide; [|by apply wp_raise]. subst. by apply HQ.
Qed.

Lemma wp_ident what (Q : string -> Parser -> Prop) ts d : lex ts ->
  (forall x ts', ts = TIdent x :: ts' -> ident_ok x = true -> lex ts' -> Q x (mkParser ts' d)) -> wp (ident what) Q (mkParser ts d).
Proof.
  intros Hl HQ. apply parser_wp_bind, wp_consume; [done| |].
  - by intros ->.
  - intros u ts' -> Hu Hl'. destruct u; try (by apply wp_raise). by apply HQ.
Qed.

Lemma wp_eat t (Q : bool -> Parser -> Prop) ts d : lex ts -> t <> TError ->
  (forall ts', ts = t :: ts' -> lex ts' -> Q true (mkParser ts' d)) ->
  (next (mkParser ts d) <> t -> Q false (mkParser ts d)) -> wp (eat t) Q (mkParser ts d).
Proof.
  intros Hl Ht H1 H2. apply parser_wp_bind, wp_peek. case_bool_decide as E; [|by apply H2].
  apply parser_wp_bind, wp_consume; [done| |].
  - intros ->. by symmetry in E.
  - intros u ts' -> _ Hl'. cbn in E. subst. by apply H1.
Qed.

(** What a parser of one construct at depth [d] guarantees: it consumes a token,
    returns to the same depth and gives a result related to its input. *)
Definition yields {A} (m : P A) (d : nat) (R : list Token -> A -> list Token -> Prop) : Prop := forall ts Q, lex ts ->
  (forall a ts', lex ts' -> length ts' < length ts -> R ts a ts' -> Q a (mkParser ts' d)) -> wp m Q (mkParser ts d).

Lemma yields_use {A} (m : P A) d R ts (Q : A -> Parser -> Prop) : yields m d R -> lex ts ->
  (forall a ts', lex ts' -> length ts' < length ts -> R ts a ts' -> Q a (mkParser ts' d)) -> wp m Q (mkParser ts d).
Proof. intros H. apply H. Qed.

Ltac lexed := first [assumption | by repeat constructor].
Ltac step :=
  lazymatch goal with
  | |- wp (_ ≫= _) _ _ => apply parser_wp_bind
  | |- wp (mret _) _ _ => apply parser_wp_ret
  | |- wp (raise _) _ _ => by apply wp_raise
  | |- wp (expect _) _ _ => apply wp_expect; [lexed|done|intros ? -> ?]
  | |- wp (ident _) _ _ => apply wp_ident; [lexed|intros ? ? -> ? ?]
  | |- wp peek _ _ => apply wp_peek
  | |- wp (if _ then _ else _) _ _ => idtac
  end; cbv beta iota.
Ltac steps := repeat step.

Lemma wp_until {A} (item : P A) (R : A -> Prop) close d fuel ts (Q : list A -> Parser -> Prop) :
  close <> TError -> yields item d (fun _ a _ => R a) -> lex ts -> length ts < fuel ->
  (forall xs ts', lex ts' -> length ts' <= length ts -> Forall R xs -> next (mkParser ts' d) = close -> Q xs (mkParser ts' d)) ->
  wp (until fuel close item) Q (mkParser ts d).
Proof.
  intros Hc Hi. revert ts Q. induction fuel as [|fuel IH]; intros ts Q Hl Hf HQ; [lia|]. cbn [until]. steps.
  case_bool_decide as E; [steps; apply HQ; [done|lia|constructor|done]|].
  steps. eapply Hi; [done|]. intros a ts' Hl' Hlt Ha. steps. apply IH; [done|lia|].
  intros xs ts'' Hl'' Hle Hxs Hn. steps. apply HQ; [done|lia|by constructor|done].
Qed.

Lemma wp_many {A} (item : P A) (R : A -> Prop) close d ts (Q : list A -> Parser -> Prop) :
  close <> TError -> yields item d (fun _ a _ => R a) -> lex ts ->
  (forall xs ts', lex ts' -> length ts' <= length ts -> Forall R xs -> next (mkParser ts' d) = close -> Q xs (mkParser ts' d)) ->
  wp (many close item) Q (mkParser ts d).
Proof. intros Hc Hi Hl HQ. by apply (wp_until _ R); [..|cbn [rest]; lia|]. Qed.

Lemma with_comma_yields {A} (item : P A) d R : yields item d (fun _ a _ => R a) -> yields (with_comma item) d (fun _ a _ => R a).
Proof.
  intros H ts Q Hl HQ. unfold with_comma. steps. apply H; [done|]. intros a ts' Hl' Hlt Ha. steps.
  apply wp_eat; [done|done|intros ts'' -> Hl''|intros _]; steps; apply HQ; try done. simpl in Hlt. lia.
Qed.

Lemma yields_mono {A} (m : P A) d (R R' : list Token -> A -> list Token -> Prop) :
  yields m d R -> (forall ts a ts', R ts a ts' -> R' ts a ts') -> yields m d R'.
Proof. intros H HR ts Q Hl HQ. apply H; [done|]. auto. Qed.

(** ** Expressions *)

(** Whether an expression that starts, or ends, here is printed with a guard. *)
Definition lead_of (ts : list Token) : bool := match ts with TIdent _ :: _ | TStorage :: _ => false | _ => true end.
Definition tail_of (ts : list Token) : bool := match ts with TBraceOpen :: _ => true | _ => false end.

(** An expression of a level that can be written at this depth. *)
Definition fits (d l : nat) (ts : list Token) (e : Expr) (ts' : list Token) : Prop :=
  expr_ok e = true /\ d + nest (lead_of ts) (tail_of ts') l e <= MAX_NESTING_DEPTH.

Lemma radix16_u64 s acc v : (0 <= acc < U64)%Z -> radix16 acc s = Some v -> u64_ok v = true.
Proof.
  revert acc. induction s as [|c s IH]; intros acc Ha; cbn [radix16].
  { intros; simplify_eq. unfold u64_ok. lia. }
  destruct (char_digit c) as [x|] eqn:E; [|done]. cbn. destruct (_ <? U64)%Z eqn:E'; [|done]. apply IH.
  assert (0 <= x)%Z; [|lia]. unfold char_digit in E. repeat case_match; simplify_eq; lia.
Qed.

Lemma from_str_radix16_u64 s v : from_str_radix16 s = Some v -> u64_ok v = true.
Proof. unfold from_str_radix16. intros H. repeat case_match; simplify_eq; by eapply radix16_u64 in H; [|done]. Qed.

Lemma special_ok x : ident_ok x = true -> x <> "poseidon" -> x <> "msg" -> x <> "block" -> x <> "verify_merkle_proof" ->
  variable_ok x = true.
Proof. intros. unfold variable_ok. rewrite bool_decide_eq_false_2; [by apply andb_true_iff|]. set_solver. Qed.

Lemma ident_no_path x : ident_ok x = true -> path_of x = None.
Proof.
  intros Hx. destruct (path_of x) as [[m f]|] eqn:E; [|done]. apply path_of_Some in E as [[_ ->]|[_ ->]]; by vm_compute in Hx.
Qed.

Lemma call_ok_plain x n : ident_ok x = true -> x <> "msg" -> x <> "block" -> (x = "verify_merkle_proof" -> n = 3) ->
  call_ok x n = true.
Proof.
  intros Hx Hm Hb Hv. unfold call_ok. rewrite (ident_no_path x Hx), Hx. rewrite bool_decide_eq_false_2 by set_solver. cbn.
  case_bool_decide as E; [|done]. by rewrite (Hv E).
Qed.

Section expressions.
Context (pe : P Expr) (d : nat) (Hd : d <= MAX_NESTING_DEPTH).
Hypothesis Hpe : yields pe d (fun ts e ts' =>
  expr_ok e = true /\ d + S (nest (lead_of ts) (tail_of ts') 0 e) <= MAX_NESTING_DEPTH).

(** A nested expression. *)
Definition inner (e : Expr) : Prop := expr_ok e = true /\ d + S (nest false false 0 e) <= MAX_NESTING_DEPTH.

Lemma inner_yields : yields pe d (fun _ e _ => inner e).
Proof. eapply yields_mono; [exact Hpe|]. intros ts e ts' [? ?]. split; [done|]. pose proof (nest_low (lead_of ts) (tail_of ts') 0 e). lia. Qed.

Lemma inner_list (es : list Expr) : Forall inner es -> forallb expr_ok es = true /\
  d + list_max (map (fun e => S (nest false false 0 e)) es) <= MAX_NESTING_DEPTH.
Proof.
  intros H. split.
  - apply forallb_forall. intros e He. rewrite Forall_forall in H. by apply H, list_elem_of_In.
  - assert (list_max (map (fun e => S (nest false false 0 e)) es) <= MAX_NESTING_DEPTH - d); [|lia].
    apply list_max_bound, Forall_map. eapply Forall_impl; [exact H|]. intros e [_ He]. cbv beta. lia.
Qed.

Lemma arguments_yield ts (Q : list Expr -> Parser -> Prop) : lex ts ->
  (forall es ts', lex ts' -> length ts' < length ts -> Forall inner es -> Q es (mkParser ts' d)) -> wp (arguments pe) Q (mkParser ts d).
Proof.
  intros Hl HQ. unfold arguments. steps. apply (wp_many _ inner); [done|apply with_comma_yields, inner_yields|done|].
  intros es ts' Hl' Hle Hes Hn. steps. apply HQ; [done|simpl in Hle; lia|done].
Qed.

Lemma fits_call x es ts ts' : call_ok x (length es) = true -> Forall inner es ->
  fits d 3 (TIdent x :: ts) (ECall x es) ts'.
Proof.
  intros Hx Hes. destruct (inner_list es Hes) as [Hok Hn]. split; [cbn [expr_ok]; by rewrite Hx, Hok|].
  unfold nest, deepen, wrapped. cbn [lead_of level named variable nest_body]. by rewrite andb_false_r.
Qed.

Lemma path_call_yields m x ts (Q : Expr -> Parser -> Prop) ts0 : (m = "msg" \/ m = "block") -> lex ts ->
  (forall e ts', lex ts' -> length ts' < length ts -> fits d 3 (TIdent x :: ts0) e ts' -> Q e (mkParser ts' d)) ->
  wp (path_call (m +:+ "::")) Q (mkParser ts d).
Proof.
  intros Hm Hl HQ. unfold path_call. steps. apply HQ; [done|simpl; lia|]. split.
  - cbn [expr_ok length forallb]. rewrite andb_true_r. unfold call_ok.
    assert (E : path_of ((m +:+ "::") +:+ x0) = Some (m, x0)) by (by destruct Hm; subst m). rewrite E. by apply andb_true_iff.
  - unfold nest, deepen, wrapped. cbn. rewrite andb_false_r. lia.
Qed.

Lemma fits_plain x e ts ts' : named e = true -> (tail_of ts' && variable e = false) -> expr_ok e = true ->
  d + nest_body e false (tail_of ts') <= MAX_NESTING_DEPTH -> fits d 3 (TIdent x :: ts) e ts'.
Proof.
  intros Hn Ht Hok Hd'. split; [done|]. unfold nest, deepen, wrapped. cbn [lead_of]. rewrite Ht.
  by replace (level e <? 3) with false by (by destruct e).
Qed.

Lemma literal_field_yields : yields (literal_field pe) d (fun _ f _ => ident_ok f.1 = true /\ inner f.2).
Proof.
  intros ts Q Hl HQ. unfold literal_field. steps. apply inner_yields; [done|]. intros e ts' Hl' Hlt He. steps.
  apply HQ; [done|simpl in *; lia|done].
Qed.

Lemma inner_fields (fs : list (string * Expr)) : Forall (fun f => ident_ok f.1 = true /\ inner f.2) fs ->
  forallb (fun f => ident_ok f.1 && expr_ok f.2) fs = true /\
  d + list_max (map (fun f => S (nest false false 0 f.2)) fs) <= MAX_NESTING_DEPTH.
Proof.
  intros H. split.
  - apply forallb_forall. intros f Hf. rewrite Forall_forall in H. apply list_elem_of_In, H in Hf as [? [? ?]].
    by apply andb_true_iff.
  - assert (list_max (map (fun f : string * Expr => S (nest false false 0 f.2)) fs) <= MAX_NESTING_DEPTH - d); [|lia].
    apply list_max_bound, Forall_map. eapply Forall_impl; [exact H|]. intros f [_ [_ He]]. cbv beta. lia.
Qed.

Lemma named_yields x ts (Q : Expr -> Parser -> Prop) : ident_ok x = true -> lex ts ->
  (forall e ts', lex ts' -> length ts' <= length ts -> fits d 3 (TIdent x :: ts) e ts' -> Q e (mkParser ts' d)) ->
  wp (parse_named pe x) Q (mkParser ts d).
Proof.
  intros Hx Hl HQ. unfold parse_named. destruct (decide (x = "poseidon")) as [E1|E1].
  { rewrite (bool_decide_eq_true_2 _ E1). steps. apply arguments_yield; [done|]. intros es us Hl' Hlt Hes. steps.
    apply HQ; [done|simpl; lia|]. subst x. apply fits_call; [|done]. by apply call_ok_plain. }
  rewrite (bool_decide_eq_false_2 _ E1). destruct (decide (x = "msg")) as [E2|E2].
  { rewrite (bool_decide_eq_true_2 _ E2). apply (path_call_yields "msg" x _ _ ts); [by left|done|]. intros. apply HQ; [done|lia|done]. }
  rewrite (bool_decide_eq_false_2 _ E2). destruct (decide (x = "block")) as [E3|E3].
  { rewrite (bool_decide_eq_true_2 _ E3). apply (path_call_yields "block" x _ _ ts); [by right|done|]. intros. apply HQ; [done|lia|done]. }
  rewrite (bool_decide_eq_false_2 _ E3). destruct (decide (x = "verify_merkle_proof")) as [E4|E4].
  { rewrite (bool_decide_eq_true_2 _ E4). steps. apply inner_yields; [done|]. intros a us1 Hu1 Hv1 Ha. steps.
    apply inner_yields; [done|]. intros b us2 Hu2 Hv2 Hb. steps. apply inner_yields; [done|]. intros c us3 Hu3 Hv3 Hc. steps.
    apply HQ; [done|simpl in *; lia|]. subst x. apply fits_call; [by apply call_ok_plain|]. by rewrite !Forall_cons, Forall_nil. }
  rewrite (bool_decide_eq_false_2 _ E4). pose proof (special_ok x Hx E1 E2 E3 E4) as Hv.
  step. apply wp_eat; [done|done|intros ts1 -> Hl1|intros Hn1; step; apply wp_eat; [done|done|intros ts1 -> Hl1|intros Hn2; step; apply wp_eat; [done|done|intros ts1 -> Hl1|intros Hn3]]].
  - steps. apply arguments_yield; [done|]. intros es us Hl' Hlt Hes. steps. apply HQ; [done|simpl; lia|].
    apply fits_call; [|done]. by apply call_ok_plain.
  - steps. apply inner_yields; [done|]. intros e us Hl' Hlt [He Hn]. steps. apply HQ; [done|simpl in *; lia|].
    apply fits_plain; [done|by rewrite andb_false_r|cbn [expr_ok]; by rewrite Hv, He|exact Hn].
  - steps. apply (wp_many _ (fun f => ident_ok f.1 = true /\ inner f.2)); [done|apply with_comma_yields, literal_field_yields|done|].
    intros fs us Hl' Hle Hfs _. steps. apply HQ; [done|simpl in *; lia|]. destruct (inner_fields fs Hfs) as [Hok Hn].
    apply fits_plain; [done|by rewrite andb_false_r|cbn [expr_ok]; by rewrite Hv, Hok|exact Hn].
  - steps. apply HQ; [done|lia|]. apply fits_plain; [done|rewrite andb_true_r|done|cbn [nest_body]; lia].
    destruct ts as [|[]]; try done.
Qed.

Lemma primary_yields : yields (parse_primary pe) d (fits d 3).
Proof.
  intros ts Q Hl HQ. unfold parse_primary. step. apply wp_consume; [done|intros ->; by apply wp_raise|].
  intros t ts' -> Ht Hl'. destruct t; try (by apply wp_raise).
  - steps. apply HQ; [done|simpl; lia|]. split; [done|]. unfold nest, deepen, wrapped. cbn. rewrite andb_false_r. lia.
  - steps. apply Hpe; [done|]. intros e us1 Hu1 Hv1 [He Hn]. steps. apply HQ; [done|simpl in *; lia|]. split; [done|].
    pose proof (nest_wrap (lead_of (TParenOpen :: ts')) (tail_of ts'0) 3 e). pose proof (nest_low (lead_of ts') (tail_of (TParenClose :: ts'0)) 0 e). lia.
  - apply named_yields; [done|done|]. intros e ts1 Hl1 H1 Hf. apply HQ; [done|simpl; lia|done].
  - steps. apply HQ; [done|simpl; lia|]. split; [done|]. unfold nest, deepen, wrapped. cbn. rewrite andb_false_r. lia.
  - destruct (from_str_radix16 (strip_0x digits)) eqn:E; [|by apply wp_raise]. steps. apply HQ; [done|simpl; lia|].
    split; [by eapply from_str_radix16_u64|]. unfold nest, deepen, wrapped. cbn. rewrite andb_false_r. lia.
Qed.

(** The loops keep an expression that starts where the level started. *)
Lemma fields_loop_yields ts0 n e ts (Q : Expr -> Parser -> Prop) : lex ts -> length ts < n -> fits d 3 ts0 e ts ->
  (forall e ts', lex ts' -> length ts' <= length ts -> fits d 3 ts0 e ts' -> Q e (mkParser ts' d)) ->
  wp (fields_loop n e) Q (mkParser ts d).
Proof.
  revert e ts Q. induction n as [|n IH]; intros e ts Q Hl Hn He HQ; [lia|]. cbn [fields_loop]. step.
  apply wp_eat; [done|done|intros us -> Hu|intros _; steps; apply HQ; [done|lia|done]]. steps.
  apply IH; [done|simpl in *; lia| |intros; apply HQ; [done|simpl in *; lia|done]].
  destruct He as [He Hne]. split; [cbn [expr_ok]; by apply andb_true_iff|].
  unfold nest at 1, deepen, wrapped. cbn [level named variable nest_body]. rewrite !andb_false_r. exact Hne.
Qed.

Lemma postfix_yields : yields (parse_postfix pe) d (fits d 3).
Proof.
  intros ts Q Hl HQ. unfold parse_postfix. steps. apply primary_yields; [done|]. intros e us Hu Hlt He. unfold measured.
  apply (fields_loop_yields ts); [done|cbn [rest]; lia|done|]. intros. apply HQ; [done|lia|done].
Qed.

Lemma fits_level l ts e ts' : fits d (S l) ts e ts' -> fits d l ts e ts'.
Proof. intros [? ?]. split; [done|]. pose proof (nest_level (lead_of ts) (tail_of ts') l (S l) e). lia. Qed.

Lemma fits_binary l ts0 a op ts b ts' : op_level op = l -> fits d l ts0 a (op_token op :: ts) -> fits d (S l) ts b ts' ->
  fits d l ts0 (EBinary a op b) ts'.
Proof.
  intros <- [Ha Hna] [Hb Hnb]. split; [cbn [expr_ok]; by apply andb_true_iff|].
  assert (Ht : tail_of (op_token op :: ts) = false) by (by destruct op). rewrite Ht in Hna.
  pose proof (nest_mono b false (tail_of ts') (lead_of ts) (tail_of ts') (S (op_level op)) ltac:(done) ltac:(done)).
  unfold nest at 1, deepen, wrapped. cbn [level named variable nest_body]. rewrite Nat.ltb_irrefl, !andb_false_r. cbn [orb].
  fold (nest (lead_of ts0) false (op_level op) a) (nest false (tail_of ts') (S (op_level op)) b). lia.
Qed.

Lemma binary_loop_yields l operand ts0 n e ts (Q : Expr -> Parser -> Prop) : l < 3 ->
  yields operand d (fits d (S l)) -> lex ts -> length ts < n -> fits d l ts0 e ts ->
  (forall e ts', lex ts' -> length ts' <= length ts -> fits d l ts0 e ts' -> Q e (mkParser ts' d)) ->
  wp (binary_loop n (op_of l) operand e) Q (mkParser ts d).
Proof.
  intros Hl3 Ho. revert e ts Q. induction n as [|n IH]; intros e ts Q Hl Hn He HQ; [lia|]. cbn [binary_loop]. steps.
  destruct (op_of l (next (mkParser ts d))) as [op|] eqn:E; [|steps; apply HQ; [done|lia|done]].
  apply op_of_token in E as [Hop E]; [|done]. steps. apply wp_consume; [done|intros ->; by destruct op|].
  intros t us -> _ Hu. cbn in E. subst t. steps. apply Ho; [done|]. intros b vs Hv Hlt Hb.
  apply IH; [done|simpl in *; lia|by eapply fits_binary|]. intros. apply HQ; [done|simpl in *; lia|done].
Qed.

Lemma binary_level_yields l operand : l < 3 -> yields operand d (fits d (S l)) ->
  yields (binary_level (op_of l) operand) d (fits d l).
Proof.
  intros Hl3 Ho ts Q Hl HQ. unfold binary_level. steps. apply Ho; [done|]. intros e us Hu Hlt He. unfold measured.
  apply (binary_loop_yields l _ ts); [done..|cbn [rest]; lia|by apply fits_level|]. intros. apply HQ; [done|lia|done].
Qed.

Lemma expr_inner_yields : yields (parse_expr_inner pe) d (fits d 0).
Proof.
  apply (binary_level_yields 0); [lia|]. apply (binary_level_yields 1); [lia|]. apply (binary_level_yields 2); [lia|].
  apply postfix_yields.
Qed.
End expressions.

Lemma wp_enter ts d (Q : unit -> Parser -> Prop) :
  (d < MAX_NESTING_DEPTH -> Q tt (mkParser ts (S d))) -> wp enter Q (mkParser ts d).
Proof. intros H. unfold wp, enter. cbn [depth rest]. destruct (MAX_NESTING_DEPTH <=? d) eqn:E; [done|]. apply H. by apply Nat.leb_gt. Qed.

Lemma expr_yields k : forall d, d <= MAX_NESTING_DEPTH -> MAX_NESTING_DEPTH < k + d -> yields (parse_expr k) d (fun ts e ts' =>
  expr_ok e = true /\ d + S (nest (lead_of ts) (tail_of ts') 0 e) <= MAX_NESTING_DEPTH).
Proof.
  induction k as [|k IH]; intros d Hd Hk ts Q Hl HQ; [lia|]. cbn [parse_expr]. step. apply wp_enter. intros Hd'. steps.
  apply expr_inner_yields; [lia|apply IH; lia|done|].
  intros e us Hu Hlt [He Hn]. steps. unfold wp, leave. cbn [depth rest pred]. steps. apply HQ; [done|lia|]. split; [done|lia].
Qed.

(** ** Statements *)

Section statements.
Context (k d : nat) (Hd : d <= MAX_NESTING_DEPTH) (Hk : MAX_NESTING_DEPTH < k + d).

Definition sfits (s : Stmt) : Prop := stmt_ok s = true /\ d + S (snest s) <= MAX_NESTING_DEPTH.
Hypothesis Hps : yields (parse_stmt k) d (fun _ s _ => sfits s).

Lemma nested_yields : yields (parse_expr k) d (fun _ e _ => expr_ok e = true /\ d + nest0 e <= MAX_NESTING_DEPTH).
Proof. apply inner_yields; [done|]. by apply expr_yields. Qed.

Definition body_fits (b : list Stmt) : Prop := forallb stmt_ok b = true /\ d + block_nest b <= MAX_NESTING_DEPTH.

Lemma sfits_body b : Forall sfits b -> body_fits b.
Proof.
  intros H. split.
  - apply forallb_forall. intros s Hs. rewrite Forall_forall in H. by apply H, list_elem_of_In.
  - assert (block_nest b <= MAX_NESTING_DEPTH - d); [|lia].
    apply list_max_bound, Forall_map. eapply Forall_impl; [exact H|]. intros s [_ Hs]. cbv beta. lia.
Qed.

Lemma block_yields : yields (block (parse_stmt k)) d (fun _ b _ => body_fits b).
Proof.
  intros ts Q Hl HQ. unfold block. steps. apply (wp_many _ sfits); [done|done|done|].
  intros b us Hu Hle Hb _. steps. apply HQ; [done|simpl in Hle; lia|by apply sfits_body].
Qed.

Definition arm_fits (arm : MatchPattern * list Stmt) : Prop := pattern_ok arm.1 = true /\ body_fits arm.2.

Lemma arm_yields : yields (parse_match_arm (parse_stmt k)) d (fun _ arm _ => arm_fits arm).
Proof.
  intros ts Q Hl HQ. unfold parse_match_arm. steps.
  assert (Hrest : forall p us, pattern_ok p = true -> lex us -> length us < length ts ->
    wp (_ ← expect TFatArrow; braced ← eat TBraceOpen;
        body ← (if braced : bool then block (parse_stmt k) else s ← parse_stmt k; mret [s]); mret (p, body)) Q (mkParser us d)).
  { intros p us Hp Hu Hlt. steps. apply wp_eat; [done|done|intros vs -> Hv|intros _].
    - steps. apply block_yields; [done|]. intros b ws Hw Hlt' Hb. steps. apply HQ; [done|simpl in *; lia|done].
    - steps. apply Hps; [done|]. intros s ws Hw Hlt' Hs. steps. apply HQ; [done|simpl in *; lia|].
      split; [done|]. apply sfits_body. by constructor. }
  destruct ts as [|t ts]; [by steps|]. cbn [next rest]. inversion_clear Hl as [|? ? Ht Hts].
  destruct t; try (by steps).
  - case_bool_decide; steps. apply wp_consume; [by constructor|done|]. intros ? us [= <- <-] _ Hu. apply parser_wp_ret. by apply Hrest; [..|simpl; lia].
  - steps. apply wp_consume; [by constructor|done|]. intros ? us [= <- <-] _ Hu. apply parser_wp_ret. by apply Hrest; [..|simpl; lia].
Qed.

Lemma arms_loop_yields n ts (Q : list (MatchPattern * list Stmt) -> Parser -> Prop) : lex ts -> length ts < n ->
  (forall arms ts', lex ts' -> length ts' <= length ts -> Forall arm_fits arms -> Q arms (mkParser ts' d)) ->
  wp (arms_loop (parse_stmt k) n) Q (mkParser ts d).
Proof.
  revert ts Q. induction n as [|n IH]; intros ts Q Hl Hn HQ; [lia|]. cbn [arms_loop]. steps.
  case_bool_decide as E1; [steps; by apply HQ; [|lia|constructor]|]. case_bool_decide as E2.
  - steps. apply wp_consume; [done|intros ->; by cbn in E2|]. intros t us -> _ Hu. steps.
    case_bool_decide; [steps; apply HQ; [done|simpl; lia|constructor]|]. apply IH; [done|simpl in *; lia|].
    intros. apply HQ; [done|simpl; lia|done].
  - steps. apply arm_yields; [done|]. intros arm us Hu Hlt Harm. steps. case_bool_decide as E3.
    + steps. apply wp_consume; [done|intros ->; by cbn in E3|]. intros t vs -> _ Hv. steps. apply IH; [done|simpl in *; lia|].
      intros arms ws Hw Hle Harms. steps. apply HQ; [done|simpl in *; lia|by constructor].
    + case_bool_decide; steps. apply HQ; [done|lia|by apply Forall_singleton].
Qed.

Lemma arms_fit arms : Forall arm_fits arms ->
  forallb (fun arm => pattern_ok arm.1 && forallb stmt_ok arm.2) arms = true /\
  d + list_max (map (fun arm => block_nest arm.2) arms) <= MAX_NESTING_DEPTH.
Proof.
  intros H. split.
  - apply forallb_forall. intros arm Ha. rewrite Forall_forall in H. apply list_elem_of_In, H in Ha as (? & ? & _).
    by apply andb_true_iff.
  - assert (list_max (map (fun arm : MatchPattern * list Stmt => block_nest arm.2) arms) <= MAX_NESTING_DEPTH - d); [|lia].
    apply list_max_bound, Forall_map. eapply Forall_impl; [exact H|]. intros arm (_ & _ & Ha). cbv beta. lia.
Qed.

(** The statement just read. *)
Definition inner_fits (s : Stmt) : Prop := stmt_ok s = true /\ d + snest s <= MAX_NESTING_DEPTH.

Ltac ok_tac := repeat (apply andb_true_iff; split); try done; try (apply negb_true_iff; by apply bool_decide_eq_false_2).
Ltac close_stmt HQ := steps; cbn [tail_of] in *; apply HQ; [done|simpl in *; lia|split; [cbn [stmt_ok]; ok_tac|cbn [snest]; unfold block_nest in *; lia]].
Ltac nested := steps; apply nested_yields; [lexed|intros ? ? ? ? [? ?]].

Lemma named_stmt_yields x ts (Q : Stmt -> Parser -> Prop) : ident_ok x = true -> lex ts ->
  (forall s ts', lex ts' -> length ts' < length ts -> inner_fits s -> Q s (mkParser ts' d)) ->
  wp (if bool_decide (x = "emit") then
        event ← ident "event name"; _ ← expect TParenOpen; args ← arguments (parse_expr k);
        _ ← expect TSemicolon; mret (SEmit event args)
      else
        index ← eat TBracketOpen;
        if index : bool then
          key ← parse_expr k; _ ← expect TBracketClose; _ ← expect TAssign;
          val ← parse_expr k; _ ← expect TSemicolon; mret (SMappingWrite x key val)
        else _ ← expect TAssign; e ← parse_expr k; _ ← expect TSemicolon; mret (SAssign x e)) Q (mkParser ts d).
Proof.
  intros Hx Hl HQ. case_bool_decide as E.
  - steps. apply (arguments_yield _ d Hd); [by apply expr_yields|done|]. intros es us Hu Hlt Hes. steps.
    destruct (inner_list d Hd es Hes) as [Hok Hn]. apply HQ; [done|simpl in *; lia|]. split; [cbn [stmt_ok]; ok_tac|exact Hn].
  - step. apply wp_eat; [done|done|intros us -> Hu|intros _]; nested; [nested|]; close_stmt HQ.
Qed.

(** Consuming the token just peeked at. *)
Lemma wp_consumed t ts (Q : Token -> Parser -> Prop) : Q t (mkParser ts d) -> wp consume Q (mkParser (t :: ts) d).
Proof. done. Qed.

Lemma stmt_inner_yields : yields (parse_stmt_inner (parse_expr k) (parse_stmt k)) d (fun _ s _ => inner_fits s).
Proof.
  intros ts Q Hl HQ. unfold parse_stmt_inner. steps.
  assert (Hexpr : lead_of ts = true -> wp (e ← parse_expr k; _ ← expect TSemicolon; mret (SExpr e)) Q (mkParser ts d)).
  { intros Hlead. steps. apply (expr_yields k d); [done|done|done|]. intros e us Hu Hlt [He Hn]. rewrite Hlead in Hn. close_stmt HQ. }
  destruct ts as [|t ts]; [by apply Hexpr|]. cbn [next rest]. inversion_clear Hl as [|? ? Ht Hts].
  destruct t; try (by apply Hexpr); clear Hexpr; (step; apply wp_consumed; cbv beta).
  - nested. close_stmt HQ.
  - nested. steps. apply block_yields; [done|]. intros b us Hu Hlt [Hb Hnb]. step. apply wp_eat; [done|done|intros vs -> Hv|intros _].
    + steps. apply block_yields; [done|]. intros b' ws Hw Hlt' [Hb' Hnb']. close_stmt HQ.
    + close_stmt HQ.
  - nested. steps. unfold parse_arms, measured. apply arms_loop_yields; [done|cbn [rest]; lia|].
    intros arms us Hu Hle [Hok Hn]%arms_fit. close_stmt HQ.
  - nested. close_stmt HQ.
  - nested. close_stmt HQ.
  - nested. steps. apply block_yields; [done|]. intros b us Hu Hlt [Hb Hnb]. close_stmt HQ.
  - nested. steps. apply (expr_yields k d); [done|done|done|]. intros e us Hu Hlt [He Hn]. steps.
    apply block_yields; [done|]. intros b vs Hv Hlt' [Hb Hnb]. cbn [tail_of] in Hn.
    pose proof (nest_mono e false true (lead_of ts'1) true 0 ltac:(done) ltac:(done)). close_stmt HQ.
  - steps. case_bool_decide as E; [close_stmt HQ|]. nested. close_stmt HQ.
  - by apply named_stmt_yields; [..|intros; apply HQ; [|simpl; lia|]].
Qed.
End statements.

Lemma stmt_yields k : forall d, d <= MAX_NESTING_DEPTH -> MAX_NESTING_DEPTH < k + d -> yields (parse_stmt k) d (fun _ s _ => sfits d s).
Proof.
  induction k as [|k IH]; intros d Hd Hk ts Q Hl HQ; [lia|]. cbn [parse_stmt]. step. apply wp_enter. intros Hd'. steps.
  apply (stmt_inner_yields k (S d)); [lia|lia|apply IH; lia|done|].
  intros s us Hu Hlt [Hs Hn]. steps. unfold wp, leave. cbn [depth rest pred]. steps. apply HQ; [done|lia|]. split; [done|lia].
Qed.

(** ** Contracts *)

Lemma param_yields : yields parse_param 0 (fun _ p _ => ident_ok (p_name p) && ident_ok (p_ty p) = true).
Proof. intros ts Q Hl HQ. unfold parse_param. steps. apply HQ; [done|simpl; lia|]. by apply andb_true_iff. Qed.

Lemma Forall_forallb {A} (f : A -> bool) l : Forall (fun x => f x = true) l -> forallb f l = true.
Proof. intros H. by apply forallb_forall, List.Forall_forall. Qed.

Lemma body_yields : yields (block (parse_stmt nesting_fuel)) 0 (fun _ b _ => body_ok b = true).
Proof.
  intros ts Q Hl HQ. unfold block. steps.
  apply (wp_many _ (sfits 0)); [done|apply stmt_yields; unfold nesting_fuel; lia|done|].
  intros b us Hu Hle Hb _. steps. apply HQ; [done|simpl in Hle; lia|]. apply Forall_forallb.
  eapply Forall_impl; [exact Hb|]. intros s [Hs Hn]. apply andb_true_iff. split; [done|]. by apply Nat.leb_le.
Qed.

Lemma function_yields : yields parse_function 0 (fun _ f _ => function_ok f = true).
Proof.
  intros ts Q Hl HQ. unfold parse_function. step.
  assert (Hrest : forall pub us, lex us -> length us <= length ts -> wp (
    _ ← expect TFn; name ← ident "function name"; _ ← expect TParenOpen;
    params ← many TParenClose (with_comma parse_param); _ ← expect TParenClose;
    arrow ← eat TArrow;
    return_type ← (if arrow : bool then ty ← ident "return type"; mret (Some ty) else mret None);
    _ ← expect TBraceOpen; body ← block (parse_stmt nesting_fuel);
    mret (mkFunction name params return_type body pub)) Q (mkParser us 0)).
  { intros pub us Hu Hle. steps. apply (wp_many _ (fun p => ident_ok (p_name p) && ident_ok (p_ty p) = true));
      [done|apply with_comma_yields, param_yields|done|]. intros ps vs Hv Hle' Hps%Forall_forallb _.
    steps. apply wp_eat; [done|done|intros ws -> Hw|intros _]; steps; (apply body_yields; [done|]); intros b xs Hx Hlt Hb; steps;
      (apply HQ; [done|simpl in *; lia|]); unfold function_ok; cbn [f_name f_params f_return_type f_body];
      by repeat (apply andb_true_iff; split). }
  apply wp_eat; [done|done|intros us -> Hu; apply Hrest; [done|simpl; lia]|intros _; by apply Hrest].
Qed.

Lemma field_block_yields (ty : P string) (ok : string -> bool) :
  yields ty 0 (fun _ t _ => ok t = true) -> yields (field_block ty) 0 (fun _ fs _ => fields_ok ok fs = true).
Proof.
  intros Hty ts Q Hl HQ. unfold field_block. steps.
  apply (wp_many _ (fun f => ident_ok (sf_name f) && ok (sf_ty f) = true)); [done| |done|].
  - intros us Q' Hu HQ'. unfold parse_field. steps. apply Hty; [done|]. intros t vs Hv Hlt Ht. steps.
    apply HQ'; [done|simpl in *; lia|]. by apply andb_true_iff.
  - intros fs us Hu Hle Hfs%Forall_forallb _. steps. apply HQ; [done|simpl in *; lia|done].
Qed.

Lemma word_no_comma k v : word k = true -> split_comma (k +:+ "," +:+ v) = Some (k, v).
Proof.
  induction k as [|c k IH]; intros Hk; [done|]. cbn [word] in Hk. split_bool. rewrite orb_true_iff in H.
  change (split_comma (String c k +:+ "," +:+ v)) with
    (if bool_decide (c = ","%char) then Some (""%string, k +:+ "," +:+ v)
     else '(k', v') ← split_comma (k +:+ "," +:+ v); Some (String c k', v')).
  rewrite bool_decide_eq_false_2; [by rewrite IH|]. intros ->. by vm_compute in H; destruct H.
Qed.

Lemma drop_last_app s c : drop_last (s +:+ String c "") = Some (s, c).
Proof.
  induction s as [|x s IH]; [done|].
  change (drop_last (String x s +:+ String c "")) with
    (match drop_last (s +:+ String c "") with Some (s', l) => Some (String x s', l) | None => Some (""%string, x) end).
  by rewrite IH.
Qed.

Lemma map_type_ok k v : ident_ok k = true -> map_type ("Map<" +:+ k +:+ "," +:+ v +:+ ">") = Some (k, v).
Proof.
  intros Hk. unfold map_type. rewrite (proj2 (strip_prefix_Some "Map<" _ (k +:+ "," +:+ v +:+ ">")) eq_refl). cbn [mbind option_bind].
  replace (k +:+ "," +:+ v +:+ ">") with ((k +:+ "," +:+ v) +:+ ">") by (by rewrite !string_app_assoc).
  rewrite drop_last_app. cbn [mbind option_bind]. rewrite bool_decide_eq_true_2 by done. apply word_no_comma.
  destruct k as [|c k]; [done|]. cbn [ident_ok] in Hk. split_bool. cbn [word]. by rewrite H, H1.
Qed.

Lemma ident_no_map x : ident_ok x = true -> map_type x = None.
Proof.
  intros Hx. destruct (map_type x) as [[k v]|] eqn:E; [|done]. apply map_type_Some in E. subst x. by vm_compute in Hx.
Qed.

Lemma storage_type_yields : yields parse_storage_type 0 (fun _ t _ => type_ok t = true).
Proof.
  intros ts Q Hl HQ. unfold parse_storage_type. steps. case_bool_decide as E; steps; (apply HQ; [done|simpl; lia|]); unfold type_ok.
  - rewrite map_type_ok by done. by apply andb_true_iff.
  - rewrite ident_no_map by done. apply andb_true_iff. split; [done|]. apply negb_true_iff. by apply bool_decide_eq_false_2.
Qed.

Lemma ident_yields what : yields (ident what) 0 (fun _ t _ => ident_ok t = true).
Proof. intros ts Q Hl HQ. steps. apply HQ; [done|simpl; lia|done]. Qed.

Lemma member_yields : yields parse_member 0 (fun _ m _ => member_ok m = true).
Proof.
  intros ts Q Hl HQ. unfold parse_member. steps.
  assert (Hf : wp (f ← parse_function; mret (MFunction f)) Q (mkParser ts 0)).
  { steps. apply function_yields; [done|]. intros f us Hu Hlt Hf. steps. by apply HQ. }
  destruct ts as [|t ts]; [done|]. cbn [next rest]. inversion_clear Hl as [|? ? _ Hts].
  destruct t; try done; clear Hf; (step; apply wp_consumed; cbv beta).
  - steps. apply (field_block_yields _ type_ok storage_type_yields); [done|]. intros fs us Hu Hlt Hfs. steps. apply HQ; [done|simpl; lia|done].
  - steps. apply (field_block_yields _ ident_ok (ident_yields _)); [done|]. intros fs us Hu Hlt Hfs. steps.
    apply HQ; [done|simpl in *; lia|]. cbn [member_ok s_name s_fields]. by apply andb_true_iff.
Qed.

Lemma contract_members ms x : ident_ok x = true -> Forall (fun m => member_ok m = true) ms ->
  contract_ok (mkContract x (ms ≫= storage_of) (ms ≫= struct_of) (ms ≫= function_of)) = true.
Proof.
  intros Hx Hms. unfold contract_ok, members. cbn [c_name c_storage c_structs c_functions]. apply andb_true_iff. split; [done|].
  cbn [forallb]. rewrite forallb_app. rewrite Forall_forall in Hms. repeat (apply andb_true_iff; split); apply forallb_forall.
  - intros f Hf. apply list_elem_of_In, list_elem_of_bind in Hf as (m & Hf & Hm). apply Hms in Hm. destruct m; try by apply elem_of_nil in Hf.
    by apply (forallb_elem _ _ _ Hm).
  - intros y Hy. apply list_elem_of_In, list_elem_of_fmap in Hy as (s & -> & Hs). apply list_elem_of_bind in Hs as (m & Hf & Hm).
    apply Hms in Hm. destruct m; try by apply elem_of_nil in Hf. by apply list_elem_of_singleton in Hf as ->.
  - intros y Hy. apply list_elem_of_In, list_elem_of_fmap in Hy as (s & -> & Hs). apply list_elem_of_bind in Hs as (m & Hf & Hm).
    apply Hms in Hm. destruct m; try by apply elem_of_nil in Hf. by apply list_elem_of_singleton in Hf as ->.
Qed.

Lemma contract_yields : yields parse_contract 0 (fun _ c _ => contract_ok c = true).
Proof.
  intros ts Q Hl HQ. unfold parse_contract. steps. apply (wp_many _ (fun m => member_ok m = true)); [done|apply member_yields|done|].
  intros ms us Hu Hle Hms _. steps. apply HQ; [done|simpl in *; lia|]. by apply contract_members.
Qed.

(** ** The printed form is lexical *)

Lemma enclose_lex w body lead tail : (forall a b, lex (body a b)) -> lex (enclose w body lead tail).
Proof. intros H. unfold enclose. destruct w; [|done]. constructor; [done|]. apply Forall_app. split; [done|]. by repeat constructor. Qed.

Lemma sep_lex tss : Forall lex tss -> lex (sep tss).
Proof.
  induction 1 as [|ts tss Hts Htss IH]; [constructor|]. destruct tss; [done|]. rewrite sep_cons by done.
  apply Forall_app. split; [done|]. by constructor.
Qed.

Lemma concat_lex {A} (pr : A -> list Token) l : (forall x, x ∈ l -> lex (pr x)) -> lex (concat (map pr l)).
Proof. intros H. apply Forall_concat, Forall_map, Forall_forall. intros x Hx. by apply H. Qed.

Ltac lex_tac :=
  repeat first
    [ apply Forall_nil_2 | apply Forall_cons_2; [try done|] | apply Forall_app; split | progress cbn [app] ];
  try (by auto).

Lemma body_lex e : expr_ok e = true -> forall lead tail, lex (print_body e lead tail).
Proof.
  induction e using expr_nested_ind; cbn [expr_ok print_body]; intros Hok lead tail; split_bool;
    unfold variable_ok in *; split_bool; lex_tac; try (by apply enclose_lex; auto).
  - apply sep_lex, Forall_map, Forall_forall. intros [f e] Hf. rewrite Forall_forall in H.
    apply (forallb_elem _ _ _ H1) in Hf as Hok. split_bool. lex_tac. apply enclose_lex. by apply (H _ Hf).
  - by destruct op.
  - unfold call_ok in *. destruct (path_of x) as [[m f]|] eqn:Ex; split_bool.
    + apply path_of_Some in Ex as [[-> _]|[-> _]]; by lex_tac.
    + lex_tac. apply sep_lex, Forall_map, Forall_forall. intros e He. rewrite Forall_forall in H.
      apply enclose_lex, H; [done|]. by apply (forallb_elem _ _ _ H1).
Qed.

Lemma expr_lex e lead tail l : expr_ok e = true -> lex (print_expr lead tail l e).
Proof. intros He. apply enclose_lex. by apply body_lex. Qed.

Lemma args_lex es : forallb expr_ok es = true -> lex (sep (map (print_expr false false 0) es)).
Proof. intros H. apply sep_lex, Forall_map, Forall_forall. intros e He. by apply expr_lex, (forallb_elem _ _ _ H). Qed.

Lemma stmts_lex b : Forall (fun s => stmt_ok s = true -> lex (print_stmt s)) b -> forallb stmt_ok b = true ->
  lex (concat (map print_stmt b)).
Proof. rewrite Forall_forall. intros H Hb. apply concat_lex. intros s Hs. apply H; [done|]. by apply (forallb_elem _ _ _ Hb). Qed.

Lemma stmt_lex s : stmt_ok s = true -> lex (print_stmt s).
Proof.
  induction s using stmt_nested_ind; cbn [stmt_ok print_stmt]; intros Hok; split_bool; unfold in_parens, braces;
    lex_tac; try (by apply expr_lex); try (by apply args_lex); try (by apply stmts_lex).
  - destruct e as [b|]; lex_tac. apply stmts_lex; [by apply H0|done].
  - destruct e as [e|]; lex_tac. by apply expr_lex.
  - apply concat_lex. intros [p b] Harm. rewrite Forall_forall in H. apply (forallb_elem _ _ _ H1) in Harm as Ha. split_bool.
    cbn [fst snd] in *. lex_tac; [by destruct p|]. apply stmts_lex; [by apply (H _ Harm)|done].
Qed.

Lemma fields_lex (pr : string -> list Token) (ok : string -> bool) fs :
  (forall t, ok t = true -> lex (pr t)) -> fields_ok ok fs = true -> lex (print_fields pr fs).
Proof.
  intros Hpr Hok. unfold print_fields, braces. lex_tac. apply concat_lex. intros [x t] Hf. apply (forallb_elem _ _ _ Hok) in Hf.
  split_bool. cbn [sf_name sf_ty] in *. lex_tac.
Qed.

Lemma function_lex f : function_ok f = true -> lex (print_function f).
Proof.
  intros Hok. unfold function_ok in Hok. split_bool.
  assert (Hp : lex (print_params (f_params f))).
  { apply sep_lex, Forall_map, Forall_forall. intros p Hp. apply (forallb_elem _ _ _ H2) in Hp. split_bool. by lex_tac. }
  assert (Hb : lex (concat (map print_stmt (f_body f)))).
  { apply concat_lex. intros s Hs. apply (forallb_elem _ _ _ H0) in Hs. split_bool. by apply stmt_lex. }
  unfold print_function, braces. destruct (f_is_pub f), (f_return_type f); by lex_tac.
Qed.

Lemma member_lex m : member_ok m = true -> lex (print_member m).
Proof.
  intros Hok. destruct m as [fs|[x fs]|f]; cbn [member_ok print_member s_name s_fields] in *; split_bool.
  - apply Forall_cons_2; [done|]. apply (fields_lex _ type_ok); [|done]. intros t. unfold type_ok, print_type.
    destruct (map_type t) as [[k v]|]; intros; split_bool; by lex_tac.
  - do 2 (apply Forall_cons_2; [done|]). apply (fields_lex _ ident_ok); [|done]. intros. by lex_tac.
  - by apply function_lex.
Qed.

Lemma contract_lex c : contract_ok c = true -> lex (print_contract c).
Proof.
  intros Hok. unfold contract_ok in Hok. split_bool.
  assert (Hm : lex (concat (map print_member (members c)))).
  { apply concat_lex. intros m Hm. by apply member_lex, (forallb_elem _ _ _ H0). }
  unfold print_contract, braces. revert Hm. generalize (concat (map print_member (members c))). intros ts Hm. by lex_tac.
Qed.

(** ** The parser and its image *)

Lemma parse_print c r : contract_ok c = true -> parse (print_contract c ++ r) = Ok c.
Proof. intros H. unfold parse, parser_new. by rewrite contract_reads. Qed.

Lemma parse_outcome ts : lex ts ->
  match parse ts with Ok c => contract_ok c = true | Err e => e <> OutOfFuel end.
Proof.
  intros Hl. pose proof (contract_yields ts (fun c _ => contract_ok c = true) Hl) as H. unfold wp in H. unfold parse, parser_new.
  destruct (parse_contract (mkParser ts 0)) as [[c p]|e]; cbn; apply H; by intros.
Qed.

(** A source that compiles is a contract that the analyser accepts and the
    generator translates. *)
Lemma compile_generates lv ts profile c prog : parse ts = Ok c -> compile lv ts profile = Some (Ok prog) ->
  BudlSema.analyze c = Ok tt /\ BudlCodegen.generate lv c (BudlCodegen.new_with_profile profile) = Some (Ok prog).
Proof.
  intros Hp. unfold compile. rewrite Hp. destruct (BudlSema.analyze c) as [[]|]; [|done].
  destruct (BudlCodegen.generate _ _ _) as [[]|]; cbn; naive_solver.
Qed.

(** C6: the parser is the inverse of the printer: a contract that can be written
    (its names are identifiers, its numbers are 64-bit and its nesting is within
    the limit) is read back from its tokens, whatever follows them; and only
    such contracts are ever read, from whatever tokens. *)
Theorem parser_roundtrip (c : Contract) :
  contract_ok c = true <->
  Forall lexical (print_contract c) /\ (forall r, parse (print_contract c ++ r) = Ok c).
Proof.
  split.
  - intros H. split; [by apply contract_lex|]. intros r. by apply parse_print.
  - intros [Hl H]. pose proof (parse_outcome _ Hl) as Ho. specialize (H []). rewrite app_nil_r in H. by rewrite H in Ho.
Qed.

(** C7: the parser ends on every list of tokens, however deeply it nests and
    wherever it breaks off: neither the loops nor the recursion run out of fuel,
    and a contract it returns is one it returns again from its printed form. *)
Theorem parser_total (ts : list Token) (Hts : Forall lexical ts) :
  (exists c, parse ts = Ok c /\ contract_ok c = true /\ parse (print_contract c) = Ok c) \/
  (exists e, parse ts = Err e /\ e <> OutOfFuel).
Proof.
  pose proof (parse_outcome ts Hts) as H. destruct (parse ts) as [c|e]; [left|right]; [|by exists e].
  exists c. split_and!; [done..|]. rewrite <- (app_nil_r (print_contract c)). by apply parse_print.
Qed.

Lemma parser_total_witness :
  exists c, parse (print_contract Demo.counter ++ [TBraceClose; TInt 7%Z]) = Ok c /\ contract_ok c = true.
Proof.
  destruct (parser_total (print_contract Demo.counter ++ [TBraceClose; TInt 7%Z])) as [(c & H1 & H2 & _)|(e & H & _)].
  - apply Forall_app. split; [exact (contract_lex _ Demo.counter_ok)|by repeat constructor].
  - exists c. exact (conj H1 H2).
  - exfalso. rewrite (parse_print Demo.counter [TBraceClose; TInt 7%Z] Demo.counter_ok) in H. discriminate H.
Defined.

(** ** What the parser refuses *)

(** [contract C { fn main() { <body> } }] *)
Definition main_of (body : list Token) : list Token :=
  TContract :: TIdent "C" :: braces (TFn :: TIdent "main" :: TParenOpen :: TParenClose :: braces body).

(** A call is not a statement: a statement that starts with a name is taken for
    an assignment. *)
Example call_statement_refused :
  parse (main_of [TIdent "poseidon"; TParenOpen; TInt 1%Z; TParenClose; TSemicolon]) = Err (Expected TAssign TParenOpen).
Proof. vm_compute. reflexivity. Qed.

(** A loop up to a variable is refused: the variable and the brace of the body
    are taken for a struct literal. *)
Example for_to_variable_refused :
  parse (main_of ([TFor; TIdent "i"; TIn; TInt 0%Z; TDotDot; TIdent "n"] ++
                  braces [TIdent "x"; TAssign; TIdent "i"; TSemicolon])) = Err (Expected TColon TAssign).
Proof. vm_compute. reflexivity. Qed.

(** Commas between arguments are not required. *)
Example commas_optional :
  parse (main_of [TLet; TIdent "x"; TAssign; TIdent "f"; TParenOpen; TInt 1%Z; TInt 2%Z; TParenClose; TSemicolon]) =
  Ok (mkContract "C" [] [] [mkFunction "main" [] None [SLet "x" (ECall "f" [EInt 1%Z; EInt 2%Z])] false]).
Proof. vm_compute. reflexivity. Qed.

End BudlParserTotal.
