(* ===== verification/BudlSemantics.v ===== *)
(** * What a BudL program means

    The abstract specification the code generator is measured against: an
    evaluator over named variables for the call-free, struct-free part of the
    language, independent of registers, jumps and instruction indices.  Values
    are Goldilocks field elements; a comparison yields 0 or 1; a mapping entry
    lives at the 32-bit slot its hash gives.  A block has its own scope: the
    variables it declares end with it.  [run_stmt] spends one unit of fuel per
    statement or block, so that it is executable; a result it gives at some
    fuel it gives at every larger one ([run_mono]).

    [core_expr] and [core_stmt] delimit that part; [sound_stmt] leaves out the
    forms for which the generated code does something else ([let] of a bare variable, redeclaration of an outer name
    inside a block, a match on an expression that is not a variable, a
    pattern above the 32-bit range, a [for] bound that is a bare variable). *)

From Stdlib Require Import ZArith Lia.
From stdpp Require Import base tactics strings numbers gmap list.
From S2P Require Import Prelude Goldilocks Vm BudlAst.
Import Goldilocks BudlAst.
Open Scope Z_scope.

Module BudlSemantics.

Record Src : Type := mkSrc {
  vars : gmap string Z;
  store : gmap Z Z;
  writes : list (Z * Z);
  logs : list Z;
}.

Definition set_vars (m : gmap string Z) (st : Src) : Src :=
  mkSrc m (store st) (writes st) (logs st).
Definition write_slot (slot v : Z) (st : Src) : Src :=
  mkSrc (vars st) (<[slot := v]> (store st)) (writes st ++ [(slot, v)]) (logs st).
Definition log_value (v : Z) (st : Src) : Src :=
  mkSrc (vars st) (store st) (writes st) (logs st ++ [v]).

Definition binop (op : BinOp) (a b : Z) : Z :=
  match op with
  | Add => field_add_goldilocks a b
  | Sub => field_sub_goldilocks a b
  | Mul => field_mul_goldilocks a b
  | Div => Vm.div_result a b
  | Eq => Vm.b2z (a =? b)
  | Neq => Vm.b2z (negb (a =? b))
  | Lt => Vm.b2z (a <? b)
  | Gt => Vm.b2z (b <? a)
  | Lte => Vm.b2z (a <=? b)
  | Gte => Vm.b2z (b <=? a)
  end.

Definition mapping_slot (base key : Z) : Z := i32_of_u64 (poseidon4_hash base key).
Lemma mapping_slot_eq base key : mapping_slot base key = i32_of_u64 (poseidon4_hash base key).
Proof. done. Qed.
#[global] Opaque mapping_slot.

Section semantics.
Variable slots : gmap string Z.
Variable ctx : Vm.Context.

Fixpoint eval (e : Expr) (st : Src) : option Z :=
  match e with
  | EInt v => Some v
  | EIdent x => vars st !! x
  | EStorageRead x => slot ← slots !! x; Some (default 0 (store st !! slot))
  | EMappingRead x key =>
      base ← slots !! x; k ← eval key st; Some (default 0 (store st !! mapping_slot base k))
  | EBinary l op r => a ← eval l st; b ← eval r st; Some (binop op a b)
  | ECall f args =>
      if decide (f = "poseidon") then
        match args with
        | l :: r :: _ => a ← eval l st; b ← eval r st; Some (poseidon4_hash a b)
        | _ => None
        end
      else if decide (f = "msg::sender") then Some (Vm.sender ctx)
      else if decide (f = "msg::nonce") then Some (Vm.nonce ctx)
      else if decide (f = "block::number") then Some (Vm.block_height ctx)
      else None
  | EFieldAccess _ _ | EStructLiteral _ _ => None
  end.

(** How a statement ends: falling through, returning, or at a violated
    constraint. *)
Inductive Outcome : Type :=
| ONext (st : Src)
| OReturn (v : Z) (st : Src)
| OViolated (st : Src).

Fixpoint emit_all (args : list Expr) (st : Src) : option Src :=
  match args with
  | [] => Some st
  | a :: args => v ← eval a st; emit_all args (log_value v st)
  end.

(** The variables declared since [outer] go out of scope. *)
Definition leave (outer : gmap string Z) (o : Outcome) : Outcome :=
  match o with
  | ONext st => ONext (set_vars (vars st ∩ outer) st)
  | _ => o
  end.

Definition pattern_matches (p : MatchPattern) (v : Z) : bool :=
  match p with IntLit n => v =? n | Wildcard => true end.

Fixpoint pick_arm (v : Z) (arms : list (MatchPattern * list Stmt)) : list Stmt :=
  match arms with
  | [] => []
  | (p, body) :: arms => if pattern_matches p v then body else pick_arm v arms
  end.

Definition then_run (k : Src -> option Outcome) (o : Outcome) : option Outcome :=
  match o with ONext st => k st | _ => Some o end.

Fixpoint run_stmt (fuel : nat) (s : Stmt) (st : Src) {struct fuel} : option Outcome :=
  match fuel with
  | O => None
  | S fuel =>
      match s with
      | SLet x e => v ← eval e st; Some (ONext (set_vars (<[x := v]> (vars st)) st))
      | SAssign x e =>
          v ← eval e st; _ ← vars st !! x; Some (ONext (set_vars (<[x := v]> (vars st)) st))
      | SConstrain e => v ← eval e st; Some (if v =? 0 then OViolated st else ONext st)
      | SStorageWrite x e => v ← eval e st; slot ← slots !! x; Some (ONext (write_slot slot v st))
      | SMappingWrite x key e =>
          base ← slots !! x; k ← eval key st; v ← eval e st;
          Some (ONext (write_slot (mapping_slot base k) v st))
      | SIf c t f =>
          v ← eval c st;
          leave (vars st) <$>
            run_block fuel (if negb (v =? 0) then t else default [] f) st
      | SWhile c b =>
          v ← eval c st;
          if v =? 0 then Some (ONext st)
          else o ← run_block fuel b st; then_run (run_stmt fuel s) (leave (vars st) o)
      | SFor x a e b =>
          i ← eval a st; n ← eval e st;
          leave (vars st) <$> run_for fuel x i n b st
      | SMatch e arms =>
          v ← eval e st; leave (vars st) <$> run_block fuel (pick_arm v arms) st
      | SReturn None => Some (OReturn 0 st)
      | SReturn (Some e) => v ← eval e st; Some (OReturn v st)
      | SEmit _ args => ONext <$> emit_all args st
      | SExpr e => _ ← eval e st; Some (ONext st)
      end
  end
with run_block (fuel : nat) (l : list Stmt) (st : Src) {struct fuel} : option Outcome :=
  match fuel with
  | O => None
  | S fuel =>
      match l with
      | [] => Some (ONext st)
      | s :: l => o ← run_stmt fuel s st; then_run (run_block fuel l) o
      end
  end
(** [x] holds the counter [i]; the body may change it. *)
with run_for (fuel : nat) (x : string) (i n : Z) (b : list Stmt) (st : Src) {struct fuel}
    : option Outcome :=
  match fuel with
  | O => None
  | S fuel =>
      let st := set_vars (<[x := i]> (vars st)) st in
      if i <? n then
        o ← run_block fuel b st;
        then_run (fun st' => i ← vars st' !! x; run_for fuel x (field_add_goldilocks i 1) n b st')
          (leave (vars st) o)
      else Some (ONext st)
  end.

(** More fuel gives no other result. *)
Lemma then_run_mono (k k' : Src -> option Outcome) o o' :
  (forall st o', k st = Some o' -> k' st = Some o') -> then_run k o = Some o' -> then_run k' o = Some o'.
Proof. destruct o; simpl; auto. Qed.

Lemma run_more fuel :
  (forall s st o, run_stmt fuel s st = Some o -> run_stmt (S fuel) s st = Some o) /\
  (forall l st o, run_block fuel l st = Some o -> run_block (S fuel) l st = Some o) /\
  (forall x i n b st o, run_for fuel x i n b st = Some o -> run_for (S fuel) x i n b st = Some o).
Proof.
  induction fuel as [|fuel (IHs & IHb & IHf)]; [done|]. split_and!.
  - intros s st o H. destruct s; try exact H; simpl in H; simpl.
    all: repeat (apply bind_Some in H as (? & E & H); rewrite E; simpl; clear E).
    + apply fmap_Some in H as (o' & H & ->). apply IHb in H. simpl in H. by rewrite H.
    + destruct (_ =? 0); [done|]. apply bind_Some in H as (o' & H & H').
      apply IHb in H. simpl in H. rewrite H. simpl. revert H'. apply then_run_mono. exact (IHs (SWhile cond body)).
    + apply fmap_Some in H as (o' & H & ->). apply IHf in H. simpl in H. by rewrite H.
    + apply fmap_Some in H as (o' & H & ->). apply IHb in H. simpl in H. by rewrite H.
  - intros [|s l] st o H; [done|]. simpl in H. apply bind_Some in H as (o' & H & H').
    apply IHs in H. change (run_block (S (S fuel)) (s :: l) st)
      with (run_stmt (S fuel) s st ≫= then_run (run_block (S fuel) l)).
    rewrite H. revert H'. apply then_run_mono. auto.
  - intros x i n b st o H. simpl in H.
    change (run_for (S (S fuel)) x i n b st) with
      (let st := set_vars (<[x := i]> (vars st)) st in
       if i <? n then o ← run_block (S fuel) b st;
         then_run (fun st' => i ← vars st' !! x; run_for (S fuel) x (field_add_goldilocks i 1) n b st')
           (leave (vars st) o) else Some (ONext st)).
    cbv zeta. destruct (i <? n); [|done]. apply bind_Some in H as (o' & H & H').
    apply IHb in H. rewrite H. revert H'. apply then_run_mono.
    intros st' o2 H2. apply bind_Some in H2 as (j & Ej & H2). rewrite Ej. simpl. by apply IHf.
Qed.

Lemma run_mono fuel fuel' l st o :
  (fuel <= fuel')%nat -> run_block fuel l st = Some o -> run_block fuel' l st = Some o.
Proof. induction 1; [done|]. intros H'. by apply run_more, IHle. Qed.

End semantics.

(** ** The call-free, struct-free part *)

Fixpoint core_expr (e : Expr) : bool :=
  match e with
  | EInt v => 0 <=? v
  | EIdent _ | EStorageRead _ => true
  | EMappingRead _ k => core_expr k
  | EBinary l _ r => core_expr l && core_expr r
  | ECall f args =>
      if decide (f = "poseidon") then
        match args with l :: r :: _ => core_expr l && core_expr r | _ => false end
      else bool_decide (f ∈ ["msg::sender"; "msg::nonce"; "block::number"])
  | EFieldAccess _ _ | EStructLiteral _ _ => false
  end.

Fixpoint core_stmt (s : Stmt) : bool :=
  match s with
  | SLet _ e | SConstrain e | SAssign _ e | SStorageWrite _ e | SExpr e => core_expr e
  | SMappingWrite _ k v => core_expr k && core_expr v
  | SIf c t f =>
      core_expr c && forallb core_stmt t &&
      match f with Some f => forallb core_stmt f | None => true end
  | SWhile c b => core_expr c && forallb core_stmt b
  | SFor _ a e b => core_expr a && core_expr e && forallb core_stmt b
  | SReturn e => match e with Some e => core_expr e | None => true end
  | SEmit _ args => forallb core_expr args
  | SMatch e arms => core_expr e && forallb (fun a => forallb core_stmt a.2) arms
  end.

(** ** The forms the generated code is faithful to *)

Definition is_ident (e : Expr) : bool := match e with EIdent _ => true | _ => false end.

Definition sound_pattern (p : MatchPattern) : bool :=
  match p with IntLit v => (0 <=? v) && (v <? I32_HALF) | Wildcard => true end.

(** [outer] are the names visible where the enclosing block begins, [locals]
    those the block has declared so far. *)
Definition declared (s : Stmt) : gset string :=
  match s with SLet x _ => {[x]} | _ => ∅ end.

Definition sound_list (f : gset string -> Stmt -> bool) : gset string -> list Stmt -> bool :=
  fix go (locals : gset string) (l : list Stmt) : bool :=
    match l with
    | [] => true
    | s :: l => f locals s && go (locals ∪ declared s) l
    end.

Fixpoint sound_stmt (outer locals : gset string) (s : Stmt) {struct s} : bool :=
  let block outer l := sound_list (sound_stmt outer) ∅ l in
  match s with
  | SLet x e => negb (is_ident e) && bool_decide (x ∉ outer)
  | SIf _ t f =>
      block (outer ∪ locals) t &&
      match f with Some f => block (outer ∪ locals) f | None => true end
  | SWhile _ b => block (outer ∪ locals) b
  | SFor x _ e b =>
      negb (is_ident e) && bool_decide (x ∉ outer ∪ locals) && block (outer ∪ locals ∪ {[x]}) b
  | SMatch e arms =>
      is_ident e && forallb (fun a => sound_pattern a.1 && block (outer ∪ locals) a.2) arms
  | _ => true
  end.

Definition sound_block (outer locals : gset string) (l : list Stmt) : bool :=
  sound_list (sound_stmt outer) locals l.

End BudlSemantics.
