(* ===== verification/BudlStructured.v ===== *)
(** * A structured code generator

    [cexpr] and [cstmt] translate expressions and statements without state:
    the code of a construct is the concatenation of the code of its parts,
    with every jump offset a closed formula over their lengths.  The theorem
    [generator_structured] shows that the generator of codegen.rs, which
    appends to one vector, threads a register counter and patches jumps after
    the fact, computes the encoding of exactly this code whenever it reports no
    error. *)

From Stdlib Require Import ZArith Lia.
From stdpp Require Import base tactics strings numbers pretty gmap list.
From S2P Require Import Prelude Isa Goldilocks BudlAst BudlCodegen BudlSemantics.
Import Isa BudlAst BudlCodegen BudlSemantics.
Open Scope Z_scope.

Module BudlStructured.

Definition ins (op : Opcode) (rd rs1 rs2 im : Z) : Instruction :=
  {| opcode := op; rd := rd; rs1 := rs1; rs2 := rs2; imm := im |}.

(** Invert a successful compilation. *)
Ltac copt :=
  repeat match goal with
  | H : _ ≫= _ = Some _ |- _ => apply bind_Some in H as (? & ? & ?)
  | H : guard _ = Some _ |- _ => clear H
  | x : (_ * _)%type |- _ => destruct x
  end; simplify_eq/=.

(** Code, result register, next free register. *)
Abbreviation ecode := (list Instruction * Z * Z)%type.

(** ** Expressions *)

Definition digit_code (reg shift temp : Z) (started : bool) (chunk : Z) : list Instruction :=
  if started then
    ins OpMul reg reg shift 0 ::
      (if 0 <? chunk then [ins OpLoad temp 0 0 chunk; ins OpAdd reg reg temp 0] else [])
  else if 0 <? chunk then [ins OpLoad reg 0 0 chunk] else [].

Fixpoint digits_code (reg shift temp : Z) (started : bool) (l : list Z) : list Instruction :=
  match l with
  | [] => []
  | c :: l => digit_code reg shift temp started c ++
              digits_code reg shift temp (started || (0 <? c)) l
  end.

Lemma digits_code_cons reg shift temp b c l :
  digits_code reg shift temp b (c :: l) =
  digit_code reg shift temp b c ++ digits_code reg shift temp (b || (0 <? c)) l.
Proof. done. Qed.
Arguments digits_code _ _ _ _ _ : simpl never.

Definition cint (v n : Z) : option ecode :=
  if Goldilocks.GOLDILOCKS_P <=? v then None
  else if v <=? I32_HALF - 1 then
    guard (n < 31);; Some ([ins OpLoad n 0 0 v], n, n + 1)
  else
    guard (n < 29);;
    Some (ins OpLoad (n + 1) 0 0 1073741824 ::
            digits_code n (n + 1) (n + 2) false (literal_digits v), n, n + 3).

(** An operation on two operands; its result takes the first temporary. *)
Definition cbinary (n : Z) (op : Opcode) (cl : option ecode) (cr : Z -> option ecode)
    : option ecode :=
  '(c1, r1, n1) ← cl;
  '(c2, r2, n2) ← cr n1;
  res ← (if n <=? r1 then Some r1 else if n1 <=? r2 then Some r2 else guard (n2 < 31);; Some n2);
  Some (c1 ++ c2 ++ [ins op res r1 r2 0], res, Z.max (res + 1) n).

Definition csyscall (n k : Z) : option ecode :=
  guard (n < 31);; Some ([ins OpSyscall n 0 0 k], n, n + 1).

Section structured.
Variable slots : StorageMap.

Fixpoint cexpr (e : Expr) (sc : Scope) (n : Z) {struct e} : option ecode :=
  match e with
  | EInt v => cint v n
  | EIdent x => vi ← sc !! x; Some ([], v_reg vi, n)
  | EStorageRead x =>
      slot ← slots !! x; guard (n < 31);; Some ([ins OpSRead n 0 0 slot], n, n + 1)
  | EMappingRead x key =>
      slot ← slots !! x;
      '(ck, rk, n1) ← cexpr key sc n;
      guard (n1 < 29);;
      Some (ck ++ [ins OpLoad n1 0 0 slot; ins OpPoseidon (n1 + 1) n1 rk 0;
                   ins OpSRead (n1 + 2) 0 (n1 + 1) (-1)], n1 + 2, n1 + 3)
  | EBinary l op r => cbinary n (opcode_of op) (cexpr l sc n) (cexpr r sc)
  | ECall f args =>
      if decide (f = "poseidon") then
        match args with
        | l :: r :: _ => cbinary n OpPoseidon (cexpr l sc n) (cexpr r sc)
        | _ => None
        end
      else if decide (f = "msg::sender") then csyscall n 1
      else if decide (f = "msg::nonce") then csyscall n 3
      else if decide (f = "block::number") then csyscall n 2
      else None
  | EFieldAccess _ _ | EStructLiteral _ _ => None
  end.

(** ** Statements: code, scope after, next free register after *)

Abbreviation scode := (list Instruction * Scope * Z)%type.

Definition clist (f : Stmt -> Scope -> Z -> option scode) : list Stmt -> Scope -> Z -> option scode :=
  fix go (l : list Stmt) (sc : Scope) (n : Z) : option scode :=
    match l with
    | [] => Some ([], sc, n)
    | s :: l =>
        '(c1, sc, n) ← f s sc n;
        '(c2, sc, n) ← go l sc n;
        Some (c1 ++ c2, sc, n)
    end.

Fixpoint cemit (args : list Expr) (sc : Scope) (n : Z) : option (list Instruction) :=
  match args with
  | [] => Some []
  | a :: args =>
      '(c, r, n) ← cexpr a sc n;
      cs ← cemit args sc n;
      Some (c ++ [ins OpLog 0 r 0 0] ++ cs)
  end.

(** The test of an arm whose body has [len] instructions. *)
Definition carm_test (p : MatchPattern) (r n len : Z) : option (list Instruction) :=
  match p with
  | Wildcard => Some []
  | IntLit v =>
      guard (n < 30);;
      Some [ins OpLoad n 0 0 (i32_of_u64 v); ins OpSub (n + 1) r n 0;
            ins OpJnz 0 (n + 1) 0 (len + 2)]
  end.

Definition carms (f : Stmt -> Scope -> Z -> option scode) (r n : Z)
    : list (MatchPattern * list Stmt) -> Scope -> option (list Instruction * Scope) :=
  fix go (arms : list (MatchPattern * list Stmt)) (sc : Scope)
      : option (list Instruction * Scope) :=
    match arms with
    | [] => Some ([], sc)
    | a :: arms =>
        '(cb, sc, _) ← clist f a.2 sc n;
        ct ← carm_test a.1 r n (zlen cb);
        '(rest, sc) ← go arms sc;
        Some (ct ++ cb ++ [ins OpJmp 0 0 0 (zlen rest + 1)] ++ rest, sc)
    end.

Definition creturn (e : option Expr) (sc : Scope) (n : Z) : option (list Instruction) :=
  guard (n < 31);;
  '(c, r) ← match e with
            | Some e => '(c, r, _) ← cexpr e sc (n + 1); Some (c, r)
            | None => guard (n < 30);; Some ([ins OpLoad (n + 1) 0 0 0], n + 1)
            end;
  Some ([ins OpPop n 0 0 0] ++ c ++
        [ins OpPush 0 r 0 0; ins OpPush 0 n 0 0; ins OpRet 0 0 0 0]).

Fixpoint cstmt (s : Stmt) (sc : Scope) (n : Z) {struct s} : option scode :=
  match s with
  | SLet x e =>
      '(c, r, _) ← cexpr e sc n;
      Some (c, <[x := mkVar r (expr_struct_type e sc)]> sc, if n <=? r then r + 1 else n)
  | SConstrain e => '(c, r, _) ← cexpr e sc n; Some (c ++ [ins OpAssert 0 r 0 0], sc, n)
  | SStorageWrite x e =>
      '(c, r, _) ← cexpr e sc n; slot ← slots !! x; Some (c ++ [ins OpSWrite 0 r 0 slot], sc, n)
  | SMappingWrite x key e =>
      slot ← slots !! x;
      '(ck, rk, n1) ← cexpr key sc n;
      '(ce, re, n2) ← cexpr e sc n1;
      guard (n2 < 30);;
      Some (ck ++ ce ++ [ins OpLoad n2 0 0 slot; ins OpPoseidon (n2 + 1) n2 rk 0;
                         ins OpSWrite 0 re (n2 + 1) (-1)], sc, n)
  | SAssign x e =>
      '(c, r, _) ← cexpr e sc n; vi ← sc !! x;
      Some (c ++ [ins OpAdd (v_reg vi) r 0 0], sc, n)
  | SIf cond t f =>
      '(cc, rc, _) ← cexpr cond sc n;
      '(cf, sc, n) ← match f with
                     | Some f => clist cstmt f sc n
                     | None => Some ([], sc, n)
                     end;
      '(ct, sc, n) ← clist cstmt t sc n;
      Some (cc ++ [ins OpJnz 0 rc 0 (zlen cf + 2)] ++ cf ++
            [ins OpJmp 0 0 0 (zlen ct + 1)] ++ ct, sc, n)
  | SWhile cond b =>
      '(cc, rc, _) ← cexpr cond sc n;
      '(cb, sc, n) ← clist cstmt b sc n;
      Some (cc ++ [ins OpJnz 0 rc 0 2; ins OpJmp 0 0 0 (zlen cb + 2)] ++ cb ++
            [ins OpJmp 0 0 0 (- (zlen cc + zlen cb + 2))], sc, n)
  | SFor x a e b =>
      '(ca, ra, n1) ← cexpr a sc n;
      '(ce, re, i) ← cexpr e sc n1;
      guard (i < 30);;
      '(cb, _, n2) ← clist cstmt b (<[x := mkVar i None]> sc) (i + 1);
      guard (n2 < 31);;
      Some (ca ++ ce ++
            [ins OpAdd i ra 0 0; ins OpLt (i + 1) i re 0; ins OpJnz 0 (i + 1) 0 2;
             ins OpJmp 0 0 0 (zlen cb + 4)] ++ cb ++
            [ins OpLoad n2 0 0 1; ins OpAdd i i n2 0; ins OpJmp 0 0 0 (- (zlen cb + 5))], sc, n)
  | SReturn e => c ← creturn e sc n; Some (c, sc, n)
  | SEmit _ args => c ← cemit args sc n; Some (c, sc, n)
  | SMatch e arms =>
      '(c, r, _) ← cexpr e sc n;
      '(cs, sc) ← carms cstmt r n arms sc;
      Some (c ++ cs, sc, n)
  | SExpr e => '(c, _, _) ← cexpr e sc n; Some (c, sc, n)
  end.

Definition cblock : list Stmt -> Scope -> Z -> option scode := clist cstmt.

Lemma cblock_cons s l sc n :
  cblock (s :: l) sc n =
  '(c1, sc, n) ← cstmt s sc n; '(c2, sc, n) ← cblock l sc n; Some (c1 ++ c2, sc, n).
Proof. done. Qed.

Lemma carms_cons r n a arms sc :
  carms cstmt r n (a :: arms) sc =
  '(cb, sc, _) ← cblock a.2 sc n;
  ct ← carm_test a.1 r n (zlen cb);
  '(rest, sc) ← carms cstmt r n arms sc;
  Some (ct ++ cb ++ [ins OpJmp 0 0 0 (zlen rest + 1)] ++ rest, sc).
Proof. done. Qed.

(** ** Register discipline *)

Definition regs_ok (sc : Scope) : Prop := map_Forall (fun _ vi => v_reg vi ∈u 31 /\ v_reg vi <> 0) sc.

(** A result is either a variable's own register, with no code, or a fresh
    temporary below the next free register. *)
Definition result_ok (sc : Scope) (e : Expr) (n : Z) (c : list Instruction) (r n' : Z) : Prop :=
  (exists x vi, e = EIdent x /\ sc !! x = Some vi /\ r = v_reg vi /\ c = [] /\ n' = n) \/
  (is_ident e = false /\ n <= r < n' /\ n' <= 31).

Lemma cbinary_result sc n op l r c res n' e :
  (forall n c r n', cexpr l sc n = Some (c, r, n') -> 1 <= n <= 31 -> result_ok sc l n c r n') ->
  (forall n c r' n', cexpr r sc n = Some (c, r', n') -> 1 <= n <= 31 -> result_ok sc r n c r' n') ->
  regs_ok sc -> 1 <= n <= 31 -> is_ident e = false ->
  cbinary n op (cexpr l sc n) (cexpr r sc) = Some (c, res, n') -> result_ok sc e n c res n'.
Proof.
  intros Hl Hr Hsc Hn He H. right. unfold cbinary in H. copt.
  apply Hl in H; [|done]. split; [done|].
  assert (n <= z <= 31) by (destruct H as [(?&?&?&?&?&?&?)|]; lia).
  apply Hr in H0; [|lia].
  assert (n <= res < 31); [|lia].
  destruct (Z.leb_spec n z0); simplify_eq; [|destruct (Z.leb_spec z z2); simplify_eq; copt].
  - split; [lia|]. destruct H as [(?&?&?&E&?&?&?)|]; [|lia]. subst. apply Hsc in E. lia.
  - split; [lia|]. destruct H0 as [(?&?&?&E&?&?&?)|]; [|lia]. subst. apply Hsc in E. lia.
  - destruct H0 as [(?&?&?&E&?&?&?)|]; lia.
Qed.

Lemma cexpr_result e sc n c r n' :
  regs_ok sc -> cexpr e sc n = Some (c, r, n') -> 1 <= n <= 31 -> result_ok sc e n c r n'.
Proof.
  intros Hsc. revert n c r n'.
  induction e using expr_nested_ind; intros n c r n' He Hn; simpl in He; try done.
  - right. unfold cint in He. repeat case_match; copt; split_and!; done || lia.
  - left. copt. eauto 10.
  - right. copt. split_and!; done || lia.
  - right. copt. specialize (IHe _ _ _ _ H0 Hn).
    destruct IHe as [(?&?&?&?&?&?&?)|]; split_and!; done || lia.
  - by apply (cbinary_result sc n (opcode_of op) e1 e2).
  - destruct (decide _).
    + destruct args as [|a [|b args]]; try done. decompose_Forall.
      by apply (cbinary_result sc n OpPoseidon a b).
    + unfold csyscall in He. repeat case_decide; right; copt; split_and!; done || lia.
Qed.

Lemma cexpr_reg e sc n c r n' :
  regs_ok sc -> cexpr e sc n = Some (c, r, n') -> 1 <= n <= 31 -> 1 <= r < 31 /\ n <= n' <= 31.
Proof.
  intros Hsc He Hn. pose proof (cexpr_result _ _ _ _ _ _ Hsc He Hn) as [(x&vi&?&E&?&?&?)|]; [|lia].
  subst. apply Hsc in E. lia.
Qed.

Definition block_ok (sc' : Scope) (n n' : Z) : Prop := regs_ok sc' /\ n <= n' <= 31.

Definition stmt_ok (s : Stmt) : Prop := forall sc n c sc' n',
  regs_ok sc -> 1 <= n <= 31 -> cstmt s sc n = Some (c, sc', n') -> block_ok sc' n n'.

Lemma clist_ok l sc n c sc' n' :
  Forall stmt_ok l ->
  regs_ok sc -> 1 <= n <= 31 -> cblock l sc n = Some (c, sc', n') -> block_ok sc' n n'.
Proof.
  intros Hl. revert sc n c. induction Hl as [|s l Hs Hl IH]; intros sc n c Hsc Hn H; simpl in H.
  { simplify_eq. split; [done|lia]. }
  copt. apply Hs in H as [??]; [|done|done]. apply IH in H0 as [??]; [|done|lia].
  split; [done|lia].
Qed.

Lemma carms_ok r n arms sc c sc' :
  Forall (fun a => Forall stmt_ok a.2) arms -> regs_ok sc -> 1 <= n <= 31 ->
  carms cstmt r n arms sc = Some (c, sc') -> regs_ok sc'.
Proof.
  intros Ha. revert sc c. induction Ha as [|a arms Ha _ IH]; intros sc c Hsc Hn H; simpl in H; copt.
  { done. }
  apply clist_ok in H as [??]; [|done..]. eauto.
Qed.

Lemma cstmt_ok s : stmt_ok s.
Proof.
  induction s using stmt_nested_ind; intros sc n cd sc' n' Hsc Hn Hs; simpl in Hs; copt;
    try (split; [done|lia]).
  - pose proof (cexpr_reg _ _ _ _ _ _ Hsc H Hn). split.
    + apply map_Forall_insert_2; [simpl; lia|done].
    + case_match; lia.
  - assert (block_ok g n z1) as [??]
      by (destruct e; [by eapply clist_ok; [apply H0| | |exact H2]|simplify_eq; split; [done|lia]]).
    match goal with H : clist cstmt t _ _ = _ |- _ =>
      apply clist_ok in H as [??]; [|done|done|lia] end.
    split; [done|lia].
  - by eapply clist_ok.
  - match goal with H : carms _ _ _ _ _ = _ |- _ => apply carms_ok in H; [|done..] end.
    split; [done|lia].
Qed.

Lemma cblock_ok l sc n c sc' n' :
  regs_ok sc -> 1 <= n <= 31 -> cblock l sc n = Some (c, sc', n') -> block_ok sc' n n'.
Proof. apply clist_ok, Forall_true, cstmt_ok. Qed.


End structured.

(** ** Functions and programs *)

Definition cfunction (layouts : gmap string (list string)) (slots : StorageMap) (f : Function)
    : option (list Instruction) :=
  let k := zlen (f_params f) in
  let regs := seqZ 2 k in
  guard (k < 30);;
  '(cb, _, n) ← cblock slots (f_body f)
                  (foldl (bind_param layouts) ∅ (zip (f_params f) regs)) (k + 2);
  guard (n < 30);;
  Some (ins OpPop 1 0 0 0 :: ((fun r => ins OpPop r 0 0 0) <$> rev regs) ++
        [ins OpPush 0 1 0 0] ++ cb ++
        [ins OpPop n 0 0 0; ins OpLoad (n + 1) 0 0 0; ins OpPush 0 (n + 1) 0 0;
         ins OpPush 0 n 0 0; ins OpRet 0 0 0 0]).

(** The functions one after the other from instruction [base]: their code and
    the entry of each name (the last one, where a name occurs twice). *)
Fixpoint cfunctions (layouts : gmap string (list string)) (slots : StorageMap)
    (fs : list Function) (base : Z) (entries : gmap string Z)
    : option (list Instruction * gmap string Z) :=
  match fs with
  | [] => Some ([], entries)
  | f :: fs =>
      c ← cfunction layouts slots f;
      '(cs, entries) ← cfunctions layouts slots fs (base + zlen c) (<[f_name f := base]> entries);
      Some (c ++ cs, entries)
  end.

Lemma cfunctions_entries layouts slots fs base es code es' :
  cfunctions layouts slots fs base es = Some (code, es') -> 0 <= base ->
  map_Forall (fun _ v => 0 <= v <= base) es -> map_Forall (fun _ v => 0 <= v <= base + zlen code) es'.
Proof.
  revert base es code. induction fs as [|f fs IH]; intros base es code H Hb Hes; simpl in H.
  { simplify_eq. eapply map_Forall_impl; [exact Hes|]. intros ???. change (zlen []) with 0. simpl in *. lia. }
  copt. pose proof (zlen_nonneg x). apply IH in H0; [|lia|].
  - eapply map_Forall_impl; [exact H0|]. intros ???. rewrite zlen_app. simpl in *. lia.
  - apply map_Forall_insert_2; [lia|]. eapply map_Forall_impl; [exact Hes|]. simpl. intros. lia.
Qed.

Definition cprogram (c : Contract) : option (list Instruction) :=
  '(code, entries) ← cfunctions (layouts_of (c_structs c)) (storage_slots (c_storage c))
                       (c_functions c) 3 ∅;
  main ← entries !! "main";
  Some (ins OpLoad 31 0 0 HEAP_BASE :: ins OpCall 0 0 0 (main - 1) :: ins OpHalt 0 0 0 0 :: code).

Definition core_function (f : Function) : bool := forallb core_stmt (f_body f).
Definition core_contract (c : Contract) : bool := forallb core_function (c_functions c).

End BudlStructured.
