(* ===== verification/BudlEquiv.v ===== *)
(** * The code generator computes the structured code

    [gok m g a g'] says that the generator program [m] runs from [g] to [g']
    without panicking, reporting an error or producing 2^31 instructions.  Every
    generator program is monotone ([mono]): it never clears an error and never
    shortens the code, so a success decomposes into successes of its parts, and
    each part is then identified with the structured code of [cexpr] and
    [cstmt]. *)

From Stdlib Require Import ZArith Lia.
From stdpp Require Import base tactics strings numbers pretty gmap list.
From S2P Require Import Prelude Isa Goldilocks BudlAst BudlCodegen BudlSemantics BudlStructured.
Import Isa BudlAst BudlCodegen BudlSemantics BudlStructured.
Open Scope Z_scope.

Module BudlEquiv.

(** ** Monotone generator programs *)

Definition mono {A} (m : G A) : Prop := forall g a g',
  m g = Some (a, g') ->
  (g_error g' = None -> g_error g = None) /\ zlen (instructions g) <= zlen (instructions g').

Record gok {A} (m : G A) (g : Codegen) (a : A) (g' : Codegen) : Prop := {
  gok_run : m g = Some (a, g');
  gok_err : g_error g' = None;
  gok_len : zlen (instructions g') < I32_HALF;
}.

Create HintDb mono discriminated.

Lemma mono_bind {A B} (m : G A) (k : A -> G B) :
  mono m -> (forall a, mono (k a)) -> mono (gbind m k).
Proof.
  intros Hm Hk g b g'. unfold gbind. destruct (m g) as [[a g1]|] eqn:E; [|done].
  intros E2. apply Hm in E. apply Hk in E2. intuition lia.
Qed.
Lemma mono_ret {A} (a : A) : mono (gret a).
Proof. intros g b g' E. unfold gret in E. simplify_eq. split; [done|lia]. Qed.
Lemma mono_get : mono gget.
Proof. intros g b g' E. unfold gget in E. simplify_eq. split; [done|lia]. Qed.
Lemma mono_modify f :
  (forall g, g_error (f g) = None -> g_error g = None) ->
  (forall g, zlen (instructions g) <= zlen (instructions (f g))) -> mono (gmodify f).
Proof. intros H1 H2 g a g' E. unfold gmodify in E. simplify_eq. auto. Qed.
Lemma mono_or_panic {A} (o : option A) : mono (or_panic o).
Proof. intros g b g' E. unfold or_panic in E. destruct o; simplify_eq/=. split; [done|lia]. Qed.
Lemma mono_raise_once e : mono (raise_once e).
Proof. apply mono_modify; intros g; destruct (g_error g) eqn:E; simpl; congruence || lia. Qed.
#[export] Hint Resolve mono_ret mono_get mono_or_panic mono_raise_once : mono.

Lemma mono_fold {A B} (f : B -> A -> G B) l b : (forall b a, a ∈ l -> mono (f b a)) -> mono (gfold f l b).
Proof.
  revert b. induction l as [|x l IH]; intros b H; simpl; [apply mono_ret|].
  apply mono_bind; [apply H; set_solver|]. intros b'. apply IH. intros; apply H; set_solver.
Qed.
Lemma mono_iter {A} (f : A -> G unit) l : (forall a, a ∈ l -> mono (f a)) -> mono (giter f l).
Proof. intros H. apply mono_fold. auto. Qed.

Ltac solve_mono :=
  repeat first
    [ progress auto with mono
    | apply mono_bind; [|intros]
    | apply mono_modify; intros; [try done; simpl in *; congruence | simpl; rewrite ?length_app; unfold zlen; rewrite ?length_app, ?length_insert; lia]
    | apply mono_iter; intros
    | apply mono_fold; intros
    | progress unfold codegen_error, force_error, put_reg, cur_reg, len
    | case_match ].

Lemma mono_alloc : mono alloc_reg.
Proof. unfold alloc_reg. solve_mono. Qed.
Lemma mono_emit op a b c d : mono (emit op a b c d).
Proof. unfold emit. solve_mono. Qed.
Lemma mono_offset a b : mono (offset_of a b).
Proof. unfold offset_of. solve_mono. Qed.
Lemma mono_patch_jump i o : mono (patch_jump i o).
Proof. unfold patch_jump. solve_mono. Qed.
#[export] Hint Resolve mono_alloc mono_emit mono_offset mono_patch_jump : mono.
Lemma mono_patch_to i o : mono (patch_to i o).
Proof. unfold patch_to. solve_mono. Qed.
Lemma mono_digit a b c s d : mono (emit_digit a b c s d).
Proof. unfold emit_digit. solve_mono. Qed.
#[export] Hint Resolve mono_digit : mono.
Lemma mono_int v : mono (generate_int v).
Proof. unfold generate_int. solve_mono. Qed.
Lemma mono_result_reg a b c d : mono (result_reg a b c d).
Proof. unfold result_reg. solve_mono. Qed.
#[export] Hint Resolve mono_result_reg : mono.
Lemma mono_binary a b op : mono a -> mono b -> mono (generate_binary a b op).
Proof. intros ? ?. unfold generate_binary. solve_mono. Qed.
Lemma mono_literal_offset l x y v : mono (literal_offset l x y v).
Proof. unfold literal_offset. solve_mono. Qed.
Lemma mono_syscall n : mono (syscall_call n).
Proof. unfold syscall_call. solve_mono. Qed.
#[export] Hint Resolve mono_patch_to mono_int mono_binary mono_literal_offset mono_syscall : mono.

Lemma gfold_cons {A B} (f : B -> A -> G B) x l b :
  gfold f (x :: l) b = gbind (f b x) (gfold f l).
Proof. done. Qed.

Lemma gfold_app {A B} (f : B -> A -> G B) l k b g :
  gfold f (l ++ k) b g = gbind (gfold f l b) (gfold f k) g.
Proof.
  revert b g. induction l as [|x l IH]; intros b g; [done|].
  cbn [app]. rewrite !gfold_cons. unfold gbind in *. destruct (f b x g) as [[b1 g1]|]; [|done].
  apply IH.
Qed.

(** ** Decomposing a success *)

Lemma gok_bind {A B} (m : G A) (k : A -> G B) g b g' :
  gok (gbind m k) g b g' -> (forall a, mono (k a)) ->
  exists a g1, gok m g a g1 /\ gok (k a) g1 b g'.
Proof.
  intros [E Herr Hlen] Hk. unfold gbind in E. destruct (m g) as [[a g1]|] eqn:Em; [|done].
  destruct (Hk a g1 b g' E) as [??]. exists a, g1. split; split; auto; lia.
Qed.

Lemma gok_pre_len {A} (m : G A) g a g' : gok m g a g' -> mono m -> zlen (instructions g) < I32_HALF.
Proof. intros [E ? ?] Hm. apply Hm in E. lia. Qed.

(** The state after [code] has been appended and [n] is the next register. *)
Definition grow (g : Codegen) (code : list Instruction) (n : Z) : Codegen :=
  set_next_reg n (set_instructions (instructions g ++ (encode <$> code)) g).

Lemma grow_grow g c1 n1 c2 n2 : grow (grow g c1 n1) c2 n2 = grow g (c1 ++ c2) n2.
Proof. unfold grow, set_next_reg, set_instructions; simpl. by rewrite fmap_app, (assoc (++)). Qed.
Lemma grow_nil g : grow g [] (next_reg g) = g.
Proof. unfold grow, set_next_reg, set_instructions; simpl. rewrite app_nil_r. by destruct g. Qed.
Lemma grow_len g c n : zlen (instructions (grow g c n)) = zlen (instructions g) + zlen c.
Proof. unfold grow, zlen; simpl. rewrite length_app, length_fmap. lia. Qed.
Lemma grow_reg g c n : next_reg (grow g c n) = n.
Proof. done. Qed.
Lemma grow_err g c n : g_error (grow g c n) = g_error g.
Proof. done. Qed.

Section primitives.
Variables (g g' : Codegen).

Lemma gok_ret {A} (a b : A) : gok (gret a) g b g' -> b = a /\ g' = g.
Proof. intros [E ? ?]. unfold gret in E. by simplify_eq. Qed.
Lemma gok_get a : gok gget g a g' -> a = g /\ g' = g.
Proof. intros [E ? ?]. unfold gget in E. by simplify_eq. Qed.
Lemma gok_cur_reg r : gok cur_reg g r g' -> r = next_reg g /\ g' = g.
Proof. intros [E ? ?]. vm_compute in E. by simplify_eq. Qed.
Lemma gok_len_inv r : gok len g r g' -> r = zlen (instructions g) /\ g' = g.
Proof. intros [E ? ?]. unfold len, gbind, gget, gret in E. by simplify_eq. Qed.
Lemma gok_put_reg r u : gok (put_reg r) g u g' -> g' = grow g [] r.
Proof.
  intros [E ? ?]. unfold put_reg, gmodify in E. simplify_eq.
  unfold grow, set_next_reg, set_instructions; simpl. by rewrite app_nil_r.
Qed.
Lemma gok_emit op a b c d u :
  gok (emit op a b c d) g u g' -> g' = grow g [ins op a b c d] (next_reg g).
Proof. intros [E ? ?]. unfold emit, gmodify in E. simpl in E. simplify_eq. done. Qed.
Lemma gok_raise e u : ~ gok (raise_once e) g u g'.
Proof.
  intros [E Herr ?]. unfold raise_once, gmodify in E. simplify_eq.
  destruct (g_error g) eqn:?; simpl in Herr; congruence.
Qed.
Lemma gok_error msg u : ~ gok (codegen_error msg) g u g'.
Proof. apply gok_raise. Qed.
Lemma gok_modify f u : gok (gmodify f) g u g' -> g' = f g.
Proof. intros [E ? ?]. unfold gmodify in E. by simplify_eq. Qed.
Lemma gok_or_panic {A} (o : option A) a : gok (or_panic o) g a g' -> o = Some a /\ g' = g.
Proof. intros [E ? ?]. unfold or_panic in E. destruct o; by simplify_eq/=. Qed.
End primitives.

Lemma gok_bind_error {A} msg (k : unit -> G A) g a g' :
  (forall u, mono (k u)) -> ~ gok (gbind (codegen_error msg) k) g a g'.
Proof. intros Hk H. destruct (gok_bind _ _ _ _ _ H Hk) as (? & ? & H1 & _). by apply gok_error in H1. Qed.

Lemma gok_alloc g r g' :
  gok alloc_reg g r g' -> r = next_reg g /\ r < 31 /\ g' = grow g [] (r + 1).
Proof.
  intros H. unfold alloc_reg in H.
  destruct (gok_bind _ _ _ _ _ H ltac:(intros; solve_mono)) as (r1 & g1 & [-> ->]%gok_cur_reg & H2).
  clear H. destruct (Z.leb_spec 31 (next_reg g)).
  - destruct (gok_bind _ _ _ _ _ H2 ltac:(intros; solve_mono)) as (? & ? & H3%gok_raise & _). done.
  - destruct (gok_bind _ _ _ _ _ H2 ltac:(intros; solve_mono)) as (? & ? & ->%gok_put_reg & [-> ->]%gok_ret).
    auto.
Qed.

Lemma gok_offset a b g d g' :
  gok (offset_of a b) g d g' -> a ∈u I32_HALF -> b ∈u I32_HALF -> d = a - b /\ g' = g.
Proof.
  unfold offset_of, i32_of_u64, i32_of_u32. intros H Ha Hb.
  rewrite !(Z.mod_small _ U32), !(proj2 (Z.ltb_lt _ I32_HALF)) in H by lia.
  rewrite (proj2 (Z.leb_le _ _)) in H by lia.
  by apply gok_ret in H.
Qed.

Section generator.
Variable layout_values : gmap string (list string) -> list (list string).
Abbreviation gen_expr := (generate_expr layout_values).
Abbreviation gen_stmt := (generate_stmt layout_values).

Lemma mono_expr e sc sl : mono (gen_expr e sc sl).
Proof.
  induction e using expr_nested_ind; simpl; unfold emit_stores; solve_mono.
  all: match goal with
       | H : Forall _ ?l, E : ?x ∈ ?l |- mono _ => eapply Forall_forall in H; [|exact E]; solve_mono
       | H : Forall _ (_ :: _) |- _ => decompose_Forall; solve_mono
       end.
Qed.
#[local] Hint Resolve mono_expr : mono.

Lemma mono_let x e sc sl r : mono (generate_let layout_values x e sc sl r).
Proof. unfold generate_let. solve_mono. Qed.
Lemma mono_storage_write x e sc sl r : mono (generate_storage_write layout_values x e sc sl r).
Proof. unfold generate_storage_write. solve_mono. Qed.
Lemma mono_mapping_write x k e sc sl r : mono (generate_mapping_write layout_values x k e sc sl r).
Proof. unfold generate_mapping_write. solve_mono. Qed.
Lemma mono_assign x e sc sl r : mono (generate_assign layout_values x e sc sl r).
Proof. unfold generate_assign. solve_mono. Qed.
Lemma mono_return e sc sl r : mono (generate_return layout_values e sc sl r).
Proof. unfold generate_return. solve_mono. Qed.
Lemma mono_arm_test p a b : mono (generate_arm_test p a b).
Proof. unfold generate_arm_test. solve_mono. Qed.
Lemma mono_pending p t : mono (patch_pending p t).
Proof. unfold patch_pending. solve_mono. Qed.
#[local] Hint Resolve mono_let mono_storage_write mono_mapping_write mono_assign mono_return
  mono_arm_test mono_pending : mono.

Lemma mono_stmt s sc sl : mono (gen_stmt s sc sl).
Proof.
  revert sc. induction s using stmt_nested_ind; intros sc; simpl; solve_mono.
  all: repeat match goal with
       | H : Forall _ ?l, E : ?x ∈ ?l |- mono _ => eapply Forall_forall in H; [|exact E]; solve_mono
       | H : forall b, Some ?c = Some b -> Forall _ b |- _ => specialize (H c eq_refl)
       end.
Qed.
#[local] Hint Resolve mono_stmt : mono.

(** Split every bind of [H]; the primitive steps become equations on [grow]. *)
Ltac gstep H :=
  lazymatch type of H with
  | gok (gbind (codegen_error _) _) _ _ _ => exfalso; eapply gok_bind_error, H; intros; solve_mono
  | gok (gbind _ _) _ _ _ =>
      let a := fresh "a" in let g1 := fresh "g1" in let H1 := fresh "K" in let H2 := fresh "K" in
      destruct (gok_bind _ _ _ _ _ H ltac:(intros; solve_mono)) as (a & g1 & H1 & H2);
      clear H; rename H2 into H; gstep H1; gstep H
  | gok (gret _) _ _ _ => apply gok_ret in H as [??]; subst
  | gok gget _ _ _ => apply gok_get in H as [??]; subst
  | gok cur_reg _ _ _ => apply gok_cur_reg in H as [??]; subst
  | gok len _ _ _ => apply gok_len_inv in H as [??]; subst
  | gok (put_reg _) _ _ _ => apply gok_put_reg in H; subst
  | gok (emit _ _ _ _ _) _ _ _ => apply gok_emit in H; subst
  | gok alloc_reg _ _ _ => apply gok_alloc in H as (? & ? & ?); subst
  | gok (codegen_error _) _ _ _ => by apply gok_error in H
  | gok (raise_once _) _ _ _ => by apply gok_raise in H
  | _ => idtac
  end.

Ltac gall :=
  repeat match goal with
  | K : gok (gbind _ _) _ _ _ |- _ => gstep K
  | K : gok (gret _) _ _ _ |- _ => gstep K
  | K : gok (emit _ _ _ _ _) _ _ _ |- _ => gstep K
  | K : gok (codegen_error _) _ _ _ |- _ => gstep K
  end.

Ltac grow_norm := rewrite ?grow_grow, ?grow_reg, ?grow_err, ?app_nil_r in *; cbn [app] in *.

(** What it means for generator and structured code to agree. *)
Definition expr_agrees (sc : Scope) (sl : StorageMap) (e : Expr) : Prop := forall g r g',
  g_error g = None -> gok (gen_expr e sc sl) g r g' ->
  exists code n, cexpr sl e sc (next_reg g) = Some (code, r, n) /\ g' = grow g code n.

(** Replace the run of a subexpression by its structured code. *)
Ltac gexpr IH :=
  lazymatch type of IH with expr_agrees _ _ ?e =>
  match goal with
  | K : gok (gen_expr e _ _) _ _ _ |- _ =>
      let c := fresh "c" in let n := fresh "n" in let E := fresh "E" in
      apply IH in K as (c & n & E & ->); [|by rewrite ?grow_err]; rewrite ?grow_reg in *
  end end.

Lemma digits_agree reg shift temp l b g b' g' :
  gok (gfold (emit_digit reg shift temp) l b) g b' g' ->
  g' = grow g (digits_code reg shift temp b l) (next_reg g).
Proof.
  revert b g. induction l as [|c l IH]; intros b g H; simpl in H.
  { apply gok_ret in H as [_ ->]. by rewrite grow_nil. }
  destruct (gok_bind _ _ _ _ _ H) as (b1 & g1 & H1 & H2).
  { intros. solve_mono. }
  apply IH in H2. subst g'. clear IH H. rewrite digits_code_cons. unfold emit_digit in H1. unfold digit_code.
  destruct b, (0 <? c); simpl in *; gstep H1; grow_norm; try done.
Qed.

Lemma binary_agrees sc sl l r op g res g' :
  expr_agrees sc sl l -> expr_agrees sc sl r -> g_error g = None ->
  gok (generate_binary (gen_expr l sc sl) (gen_expr r sc sl) op) g res g' ->
  exists code n, cbinary (next_reg g) op (cexpr sl l sc (next_reg g)) (cexpr sl r sc)
                   = Some (code, res, n) /\ g' = grow g code n.
Proof.
  intros Hl Hr Herr H. unfold generate_binary in H.
  gstep H. gexpr Hl. gexpr Hr. unfold cbinary. rewrite E. simpl. rewrite E0. simpl.
  match goal with K : gok (result_reg _ _ _ _) _ _ _ |- _ =>
    unfold result_reg in K; repeat case_match; gstep K end; grow_norm; try (by eauto).
  rewrite option_guard_True by done. simpl. rewrite <- app_assoc. eauto.
Qed.

Lemma int_agrees v g r g' :
  0 <= v -> gok (generate_int v) g r g' ->
  exists code n, cint v (next_reg g) = Some (code, r, n) /\ g' = grow g code n.
Proof.
  intros Hv H. unfold generate_int in H. unfold cint.
  destruct (_ <=? v); [gstep H|]. destruct (Z.leb_spec v (I32_HALF - 1)).
  - gstep H. grow_norm. rewrite i32_small by lia. rewrite option_guard_True by done. simpl. eauto.
  - gstep H. match goal with K : gok (gfold _ _ _) _ _ _ |- _ => apply digits_agree in K; subst end.
    grow_norm. rewrite option_guard_True by lia. cbn [mbind option_bind app].
    rewrite <- !(Z.add_assoc (next_reg g)). eauto.
Qed.

Lemma expr_agrees_core sc sl e : core_expr e = true -> expr_agrees sc sl e.
Proof.
  induction e using expr_nested_ind; simpl; intros Hc; try done;
    intros g r g' Herr H'; simpl in H'.
  all: destruct (gok_bind _ _ _ _ _ H' ltac:(intros; solve_mono)) as (g0 & g1 & [-> ->]%gok_get & K);
    clear H'; rewrite Herr in K.
  - apply int_agrees in K; [done|lia].
  - simpl. destruct (sc !! x); gstep K. exists [], (next_reg g). by rewrite grow_nil.
  - simpl. destruct (sl !! x); gstep K. grow_norm. simpl. rewrite option_guard_True by done. simpl. eauto.
  - simpl. specialize (IHe Hc). destruct (sl !! x); gstep K. gexpr IHe. simpl. rewrite E. simpl.
    grow_norm. simpl. rewrite option_guard_True by lia. simpl. rewrite <- !(Z.add_assoc n). eauto.
  - split_bool. eapply (binary_agrees sc sl) in K; eauto.
  - simpl. destruct (decide (x = "poseidon")).
    + destruct args as [|a [|b args]]; try done. split_bool. decompose_Forall.
      eapply (binary_agrees sc sl) in K; eauto.
    + apply bool_decide_eq_true in Hc. unfold syscall_call in K. unfold csyscall.
      repeat (case_decide; [gstep K; grow_norm; rewrite option_guard_True by done; simpl; eauto|]).
      set_solver.
Qed.

(** ** Jumps *)

Lemma patch_agrees c1 off op r g c2 n idx target u g' :
  gok (patch_to idx target) (grow g (c1 ++ ins op 0 r 0 0 :: c2) n) u g' ->
  r ∈u 32 ->
  idx = zlen (instructions g) + zlen c1 -> target ∈u I32_HALF -> off = target - idx ->
  g' = grow g (c1 ++ ins op 0 r 0 off :: c2) n.
Proof.
  set (i := ins op 0 r 0 0). intros H Hr Hidx Ht Hoff.
  assert (Hi : instruction_wf i) by (unfold instruction_wf, is_i32; simpl; lia).
  pose proof (zlen_nonneg (instructions g)). pose proof (zlen_nonneg c1).
  destruct (mono_patch_to _ _ _ _ _ (gok_run _ _ _ _ H)) as [Herr Hl].
  specialize (Herr (gok_err _ _ _ _ H)). pose proof (gok_len _ _ _ _ H) as Hlen.
  rewrite grow_len, zlen_app, zlen_cons in Hl. pose proof (zlen_nonneg c2).
  unfold patch_to in H.
  destruct (gok_bind _ _ _ _ _ H ltac:(intros; solve_mono)) as (d & g1 & K1 & K2). clear H.
  apply gok_offset in K1 as [-> ->]; [|lia..].
  unfold patch_jump in K2. gstep K2. rewrite Herr in K2.
  assert (Hk : Z.to_nat (zlen (instructions g) + zlen c1)
               = (length (instructions g ++ (encode <$> c1)) + 0)%nat)
    by (rewrite length_app, length_fmap; unfold zlen; lia).
  assert (Hsp : instructions (grow g (c1 ++ i :: c2) n)
                = (instructions g ++ (encode <$> c1)) ++ encode i :: (encode <$> c2))
    by (unfold grow; simpl; by rewrite fmap_app, app_assoc).
  rewrite Hk, Hsp, list_lookup_middle in K2 by lia.
  destruct K2 as [K2 _ _]. cbn in K2. rewrite decode_encode in K2 by done.
  unfold gmodify in K2. simplify_eq. unfold grow, set_next_reg, set_instructions; simpl.
  rewrite !fmap_app, !fmap_cons, (app_assoc (instructions g)), insert_app_r. simpl.
  by rewrite <- app_assoc.
Qed.

(** ** Statements *)

Definition stmt_agrees (sl : StorageMap) (s : Stmt) : Prop := forall sc g sc' g',
  core_stmt s = true -> regs_ok sc -> 1 <= next_reg g <= 31 -> g_error g = None ->
  gok (gen_stmt s sc sl) g sc' g' ->
  exists code n, cstmt sl s sc (next_reg g) = Some (code, sc', n) /\ g' = grow g code n.

Lemma list_agrees sl l sc g sc' g' :
  Forall (stmt_agrees sl) l -> forallb core_stmt l = true ->
  regs_ok sc -> 1 <= next_reg g <= 31 -> g_error g = None ->
  gok (gfold (fun scope s => gen_stmt s scope sl) l sc) g sc' g' ->
  exists code n, cblock sl l sc (next_reg g) = Some (code, sc', n) /\ g' = grow g code n.
Proof.
  intros Hl. revert sc g. induction Hl as [|s l Hs _ IH]; intros sc g Hc Hsc Hn Herr H; simpl in Hc, H.
  { apply gok_ret in H as [-> ->]. exists [], (next_reg g). by rewrite grow_nil. }
  split_bool. destruct (gok_bind _ _ _ _ _ H ltac:(intros; solve_mono)) as (sc1 & g1 & K1 & K2).
  apply Hs in K1 as (c1 & n1 & E1 & ->); [|done..]. rewrite cblock_cons, E1. simpl.
  pose proof (cstmt_ok sl s _ _ _ _ _ Hsc Hn E1) as [??].
  apply IH in K2 as (c2 & n2 & E2 & ->); [|done|done|simpl; lia|done].
  rewrite grow_reg in E2. rewrite E2. simpl.
  exists (c1 ++ c2), n2. by rewrite grow_grow.
Qed.

(** Identify the runs of core expressions with their structured code. *)
Ltac cexprs :=
  repeat match goal with
  | K : gok (gen_expr ?e ?sc ?sl) _ _ _, Hc : core_expr ?e = true |- _ =>
      let E := fresh "E" in
      apply (expr_agrees_core sc sl e Hc) in K as (? & ? & E & ->); [|by rewrite ?grow_err];
      rewrite ?grow_reg in *; rewrite E; cbn [mbind option_bind]
  end.

Ltac cfinish :=
  cexprs; grow_norm; repeat (rewrite option_guard_True by lia; cbn [mbind option_bind]);
  do 2 eexists; split; [reflexivity|]; rewrite <- ?Z.add_assoc, <- ?app_assoc; done.

Ltac gopen H Herr := gstep H; rewrite Herr in H; gstep H.

Lemma return_agrees sl e : stmt_agrees sl (SReturn e).
Proof.
  intros sc g sc' g' Hc Hsc Hn Herr H. simpl in H, Hc. unfold generate_return in H. gopen H Herr.
  simpl. unfold creturn.
  destruct e; gall; cfinish.
Qed.

Lemma simple_agrees sl s :
  match s with
  | SIf _ _ _ | SWhile _ _ | SFor _ _ _ _ | SMatch _ _ | SEmit _ _ => False | _ => True end ->
  stmt_agrees sl s.
Proof.
  intros Hs sc g sc' g' Hc Hsc Hn Herr H; destruct s; try done;
    try (by eapply return_agrees; eauto); simpl in H, Hc; split_bool.
  all: unfold generate_let, generate_storage_write, generate_mapping_write, generate_assign in *;
    gopen H Herr; simpl.
  all: try (destruct (sl !! name); gall); try (destruct (sc !! name); gall); cfinish.
Qed.

Lemma args_agree sl sc args u g u' g' :
  forallb core_expr args = true -> regs_ok sc -> 1 <= next_reg g <= 31 -> g_error g = None ->
  gok (gfold (fun _ arg => reg <~ gen_expr arg sc sl; emit OpLog 0 reg 0 0) args u) g u' g' ->
  exists code n, cemit sl args sc (next_reg g) = Some code /\ g' = grow g code n.
Proof.
  revert u g. induction args as [|e args IH]; intros u g Hc Hsc Hn Herr K; simpl in Hc, K.
  { gstep K. exists [], (next_reg g). by rewrite grow_nil. }
  split_bool. simpl. gstep K. cexprs.
  pose proof (cexpr_reg sl _ _ _ _ _ _ Hsc E Hn).
  apply IH in K as (code & n1 & E1 & ->); [|done|done|simpl; lia|done].
  rewrite !grow_reg in E1. rewrite E1. simpl.
  do 2 eexists. split; [reflexivity|]. by rewrite !grow_grow, <- ?app_assoc.
Qed.

Lemma emit_agrees sl x args : stmt_agrees sl (SEmit x args).
Proof.
  intros sc g sc' g' Hc Hsc Hn Herr H. simpl in H, Hc. gopen H Herr. simpl.
  apply args_agree in K as (code & n & E & ->); [|done..]. rewrite E. cfinish.
Qed.

Lemma else_agrees sl el sc g sc' g' :
  (forall b, el = Some b -> Forall (stmt_agrees sl) b) ->
  match el with Some f => forallb core_stmt f | None => true end = true ->
  regs_ok sc -> 1 <= next_reg g <= 31 -> g_error g = None ->
  gok match el with
      | Some eb => gfold (fun scope s => gen_stmt s scope sl) eb sc
      | None => gret sc
      end g sc' g' ->
  exists code n,
    match el with
    | Some f => clist (cstmt sl) f sc (next_reg g)
    | None => Some ([], sc, next_reg g)
    end = Some (code, sc', n) /\ g' = grow g code n /\ regs_ok sc' /\ 1 <= n <= 31.
Proof.
  intros Hl Hc Hsc Hn Herr H. destruct el as [eb|].
  - apply list_agrees in H as (c & n & E & ->); auto. pose proof (cblock_ok _ _ _ _ _ _ _ Hsc Hn E) as [??].
    exists c, n. split_and!; auto; lia.
  - gstep H. exists [], (next_reg g). rewrite grow_nil. split_and!; auto; lia.
Qed.

(** Lengths of the code generated so far, for the targets of jumps. *)
Ltac glen :=
  repeat (rewrite ?grow_len, ?zlen_app, ?zlen_cons in *);
  repeat match goal with
  | |- context [zlen ?l] => lazymatch goal with
      | _ : 0 <= zlen l |- _ => fail
      | _ => pose proof (zlen_nonneg l) end
  | _ : context [zlen ?l] |- _ => lazymatch goal with
      | _ : 0 <= zlen l |- _ => fail
      | _ => pose proof (zlen_nonneg l) end
  end; change (zlen (@nil Instruction)) with 0 in *.

(** Patch the jump that follows [c1], to the offset [off]. *)
Ltac gpatch K c1 off :=
  lazymatch type of K with
  | gok _ (grow ?g ?code ?n) _ _ =>
      let E := fresh "E" in
      eassert (code = c1 ++ ins _ 0 _ 0 0 :: _) as E
        by (repeat (rewrite <- ?app_assoc; cbn [app]); reflexivity);
      try (rewrite E in K); clear E;
      apply (patch_agrees c1 off) in K as ->;
        [rewrite <- ?app_assoc; cbn [app]|lia|by glen; lia|by glen; lia|by glen; lia]
  end.

Lemma if_agrees sl c th el :
  Forall (stmt_agrees sl) th -> (forall b, el = Some b -> Forall (stmt_agrees sl) b) ->
  stmt_agrees sl (SIf c th el).
Proof.
  intros Ht He sc g sc' g' Hc Hsc Hn Herr H. simpl in H, Hc. split_bool. gopen H Herr. simpl. cexprs.
  pose proof (cexpr_reg sl _ _ _ _ _ _ Hsc E Hn).
  apply else_agrees in K0 as (cf & n1 & E1 & -> & Hsc1 & Hn1); [|done..|simpl; lia|done].
  rewrite !grow_reg in E1. rewrite E1. simpl.
  pose proof (gok_len _ _ _ _ K1) as Hlen.
  apply list_agrees in K1 as (ct & n2 & E2 & ->); [|done..].
  rewrite !grow_reg in E2. unfold cblock in E2. rewrite E2. simpl. grow_norm.
  gpatch K2 x (zlen cf + 2).
  gpatch K3 (x ++ ins OpJnz 0 a 0 (zlen cf + 2) :: cf) (zlen ct + 1). eauto.
Qed.

Lemma while_agrees sl c b : Forall (stmt_agrees sl) b -> stmt_agrees sl (SWhile c b).
Proof.
  intros Hb sc g sc' g' Hc Hsc Hn Herr H. simpl in H, Hc. split_bool. gopen H Herr. simpl. cexprs.
  pose proof (cexpr_reg sl _ _ _ _ _ _ Hsc E Hn).
  pose proof (gok_pre_len _ _ _ _ K2 (mono_patch_to _ _)) as Hlen.
  apply list_agrees in K0 as (cb & n1 & E1 & ->); [|done..].
  rewrite !grow_reg in E1. unfold cblock in E1. rewrite E1. simpl. grow_norm.
  pose proof (gok_pre_len _ _ _ _ K1 (mono_offset _ _)) as Hlen1.
  apply gok_offset in K1 as [-> ->]; [|glen; lia|glen; lia]. grow_norm.
  gpatch K2 x 2.
  gpatch K3 (x ++ [ins OpJnz 0 a 0 2]) (zlen cb + 2).
  do 2 eexists; split; [reflexivity|]. glen. do 5 f_equal. unfold ins. do 2 f_equal. lia.
Qed.

Lemma for_agrees sl x a e b : Forall (stmt_agrees sl) b -> stmt_agrees sl (SFor x a e b).
Proof.
  intros Hb sc g sc' g' Hc Hsc Hn Herr H. simpl in H, Hc. split_bool. gopen H Herr. simpl. cexprs.
  pose proof (cexpr_reg sl _ _ _ _ _ _ Hsc E Hn).
  pose proof (cexpr_reg sl _ _ _ _ _ _ Hsc E0 ltac:(lia)).
  rewrite option_guard_True by lia. cbn [mbind option_bind]. grow_norm.
  apply list_agrees in K1 as (cb & n2 & E2 & ->);
    [|done|done|by apply map_Forall_insert_2; [simpl; lia|]|simpl; lia|done].
  rewrite !grow_reg in *. unfold cblock in E2. rewrite E2. cbn [mbind option_bind].
  rewrite option_guard_True by lia. cbn [mbind option_bind]. grow_norm.
  pose proof (gok_pre_len _ _ _ _ K3 (mono_patch_to _ _)) as Hlen.
  pose proof (gok_pre_len _ _ _ _ K2 (mono_offset _ _)) as Hlen1.
  apply gok_offset in K2 as [-> ->]; [|glen; lia|glen; lia]. grow_norm.
  gpatch K3 (x0 ++ x2 ++ [ins OpAdd x3 a0 0 0; ins OpLt (x3 + 1) x3 a1 0]) 2.
  gpatch K4 (x0 ++ x2 ++ [ins OpAdd x3 a0 0 0; ins OpLt (x3 + 1) x3 a1 0;
                          ins OpJnz 0 (x3 + 1) 0 2]) (zlen cb + 4).
  do 2 eexists; split; [reflexivity|]. glen. rewrite grow_grow, app_nil_r. cbn [app].
  rewrite <- ?app_assoc. cbn [app]. unfold ins. do 15 f_equal. lia.
Qed.

(** ** Match arms

    The arms' segments (test and body); [unjoined] is the code before the end
    jumps are patched, [joined] the final code. *)

Fixpoint unjoined (segs : list (list Instruction)) : list Instruction :=
  match segs with
  | [] => []
  | s :: segs => s ++ ins OpJmp 0 0 0 0 :: unjoined segs
  end.

Fixpoint joined (segs : list (list Instruction)) : list Instruction :=
  match segs with
  | [] => []
  | s :: segs => s ++ ins OpJmp 0 0 0 (zlen (joined segs) + 1) :: joined segs
  end.

Fixpoint end_jumps (base : Z) (segs : list (list Instruction)) : list Z :=
  match segs with
  | [] => []
  | s :: segs => base + zlen s :: end_jumps (base + zlen s + 1) segs
  end.

Lemma joined_len segs : zlen (joined segs) = zlen (unjoined segs).
Proof. induction segs as [|s segs IH]; simpl; [done|]. rewrite !zlen_app, !zlen_cons, IH. done. Qed.

Lemma joined_snoc segs k : exists pre, zlen pre = zlen (unjoined segs) /\
  forall s, zlen s = k -> joined (segs ++ [s]) = pre ++ s ++ [ins OpJmp 0 0 0 1].
Proof.
  induction segs as [|s0 segs (pre & Hlen & Hpre)]; simpl; [by exists []|].
  exists (s0 ++ ins OpJmp 0 0 0 (zlen pre + k + 2) :: pre).
  rewrite !zlen_app, !zlen_cons, Hlen. split; [done|]. intros s Hs. rewrite Hpre by done.
  rewrite !zlen_app, zlen_cons, Hs, <- app_assoc. cbn [app]. change (zlen []) with 0.
  replace (zlen pre + (k + (1 + 0)) + 1) with (zlen pre + k + 2) by lia.
  repeat (rewrite <- ?app_assoc; cbn [app]). by rewrite Hlen.
Qed.

Lemma end_jumps_snoc base segs s s' :
  zlen s = zlen s' -> end_jumps base (segs ++ [s]) = end_jumps base (segs ++ [s']).
Proof.
  intros Hs. revert base. induction segs as [|s0 segs IH]; intros base; simpl; [by rewrite Hs|].
  by rewrite IH.
Qed.

Lemma unjoined_snoc segs s : unjoined (segs ++ [s]) = unjoined segs ++ s ++ [ins OpJmp 0 0 0 0].
Proof. induction segs as [|s0 segs IH]; simpl; [done|]. rewrite IH, <- app_assoc. done. Qed.

Lemma end_jumps_patch g c1 segs n target u u' g' :
  gok (gfold (fun _ idx => patch_to idx target) (end_jumps (zlen (instructions g) + zlen c1) segs) u)
    (grow g (c1 ++ unjoined segs) n) u' g' ->
  target ∈u I32_HALF -> target = zlen (instructions g) + zlen c1 + zlen (unjoined segs) ->
  g' = grow g (c1 ++ joined segs) n.
Proof.
  revert u c1. induction segs as [|s segs IH]; intros u c1 H Ht Htgt; simpl in H.
  { by gstep H. }
  gstep H. simpl in Htgt. pose proof (joined_len segs).
  gpatch K (c1 ++ s) (zlen (joined segs) + 1).
  replace (zlen (instructions g) + zlen c1 + zlen s + 1)
    with (zlen (instructions g) + zlen (c1 ++ s ++ [ins OpJmp 0 0 0 (zlen (joined segs) + 1)]))
    in H by (glen; lia).
  replace ((c1 ++ s) ++ ins OpJmp 0 0 0 (zlen (joined segs) + 1) :: unjoined segs)
    with ((c1 ++ s ++ [ins OpJmp 0 0 0 (zlen (joined segs) + 1)]) ++ unjoined segs)
    in H by (by repeat (rewrite <- ?app_assoc; cbn [app])).
  apply IH in H as ->; [|done|glen; lia].
  simpl. by repeat (rewrite <- ?app_assoc; cbn [app]).
Qed.

(** One round of the arms loop. *)
Definition arm_step (sl : StorageMap) (r saved : Z) (st : Scope * option Z * list Z)
    (arm : MatchPattern * list Stmt) : G (Scope * option Z * list Z) :=
  let '(scope, pending, ends) := st in
  test_start <~ len;
  patch_pending pending test_start ~;
  pending <~ generate_arm_test arm.1 r saved;
  scope <~ gfold (fun scope s => gen_stmt s scope sl) arm.2 scope;
  end_jump <~ len;
  emit OpJmp 0 0 0 0 ~;
  put_reg saved ~;
  gret (scope, pending, ends ++ [end_jump]).

Lemma mono_arm_step sl r saved st arm : mono (arm_step sl r saved st arm).
Proof. unfold arm_step. destruct st as [[??]?]. solve_mono. Qed.
#[local] Hint Resolve mono_arm_step : mono.

(** [cr] is the code [c] once the pending jump goes to its end. *)
Definition pending_at (g : Codegen) (c : list Instruction) (pending : option Z)
    (cr : list Instruction) : Prop :=
  match pending with
  | None => c = cr
  | Some p => exists c1 r c2, p = zlen (instructions g) + zlen c1 /\ r ∈u 32 /\
      c = c1 ++ ins OpJnz 0 r 0 0 :: c2 /\ cr = c1 ++ ins OpJnz 0 r 0 (zlen c2 + 1) :: c2
  end.

Lemma pending_len g c p cr : pending_at g c p cr -> zlen c = zlen cr.
Proof. destruct p; simpl; [|by intros ->]. intros (?&?&?&?&?&->&->). glen. lia. Qed.

Lemma pending_patch g c p cr n u g' :
  pending_at g c p cr -> gok (patch_pending p (zlen (instructions (grow g c n)))) (grow g c n) u g' ->
  g' = grow g cr n.
Proof.
  intros Hp H. destruct p as [p|]; cbn [patch_pending pending_at] in Hp, H; [|by gstep H; subst].
  destruct Hp as (c1 & r & c2 & -> & Hr & -> & ->).
  pose proof (gok_pre_len _ _ _ _ H (mono_patch_to _ _)) as Hlen.
  gpatch H c1 (zlen c2 + 1). done.
Qed.

(** The code [c'] an arm leaves after [cr], with its failing test pending. *)
Definition arm_shape (g : Codegen) (cr ct cb c' : list Instruction) (pend : option Z) : Prop :=
  match pend with
  | None => c' = cr ++ ct ++ cb ++ [ins OpJmp 0 0 0 0]
  | Some p => exists t k, ct = t ++ [ins OpJnz 0 k 0 (zlen cb + 2)] /\ k ∈u 32 /\
      p = zlen (instructions g) + zlen cr + zlen t /\
      c' = cr ++ (t ++ ins OpJnz 0 k 0 0 :: cb) ++ [ins OpJmp 0 0 0 0]
  end.

Lemma arm_shape_pending g cr ct cb c' p :
  arm_shape g cr ct cb c' p -> pending_at g c' p (cr ++ ct ++ cb ++ [ins OpJmp 0 0 0 0]).
Proof.
  destruct p as [p|]; simpl; [|done]. intros (t & k & -> & Hk & -> & ->).
  exists (cr ++ t), k, (cb ++ [ins OpJmp 0 0 0 0]).
  split_and!; [glen; lia|lia|lia|by repeat (rewrite <- ?app_assoc; cbn [app])|].
  repeat (rewrite <- ?app_assoc; cbn [app]). glen.
  by replace (zlen cb + (1 + 0) + 1) with (zlen cb + 2) by lia.
Qed.

Lemma arm_step_agrees sl r saved sc pend ends arm g c cr st g' :
  Forall (stmt_agrees sl) arm.2 -> forallb core_stmt arm.2 = true ->
  regs_ok sc -> 1 <= saved <= 31 -> r ∈u 32 -> g_error g = None ->
  pending_at g c pend cr ->
  gok (arm_step sl r saved (sc, pend, ends) arm) (grow g c saved) st g' ->
  exists cb ct sc' n' pend' c',
    cblock sl arm.2 sc saved = Some (cb, sc', n') /\
    carm_test arm.1 r saved (zlen cb) = Some ct /\
    st = (sc', pend', ends ++ [zlen (instructions g) + zlen cr + zlen (ct ++ cb)]) /\
    g' = grow g c' saved /\ arm_shape g cr ct cb c' pend' /\ regs_ok sc'.
Proof.
  intros Hl Hc Hsc Hs Hr Herr Hp H. unfold arm_step in H. gstep H.
  apply (pending_patch _ _ _ _ _ _ _ Hp) in K as ->.
  assert (exists test, g0 = grow g (cr ++ test) saved /\
    match arm.1 with
    | IntLit v => saved < 30 /\ a0 = Some (zlen (instructions g) + zlen (cr ++ take 2 test)) /\
        test = [ins OpLoad saved 0 0 (i32_of_u64 v); ins OpSub (saved + 1) r saved 0;
                ins OpJnz 0 (saved + 1) 0 0]
    | Wildcard => a0 = None /\ test = []
    end) as (test & -> & Htest).
  { unfold generate_arm_test in K0. destruct (arm.1); gstep K0; grow_norm.
    - eexists. split; [reflexivity|]. split_and!; [lia| |done].
      by rewrite grow_len, <- app_assoc.
    - exists []. rewrite app_nil_r. done. }
  apply list_agrees in K1 as (cb & n2 & E2 & ->); [|done..].
  rewrite grow_reg in E2. pose proof (cblock_ok _ _ _ _ _ _ _ Hsc Hs E2) as [Hsc' _].
  grow_norm. destruct (arm.1) as [v|]; cbn [carm_test take app] in *.
  - destruct Htest as (Hs1 & -> & ->). 
    do 6 eexists. split_and!; [done|by rewrite option_guard_True by lia| |done| |done].
    + f_equal. f_equal. f_equal. glen. lia.
    + exists [ins OpLoad saved 0 0 (i32_of_u64 v); ins OpSub (saved + 1) r saved 0], (saved + 1).
      split_and!; [done|lia|lia|glen; simpl; glen; lia|by repeat (rewrite <- ?app_assoc; cbn [app])].
  - destruct Htest as [-> ->]. do 4 eexists. exists None. eexists.
    split_and!; [done|done| |done|by simpl; rewrite ?app_nil_r, <- ?app_assoc|done].
    f_equal. f_equal. f_equal. glen. lia.
Qed.

(** What the arms loop leaves: the joined code, up to the end jumps and the
    last failing test. *)
Lemma arms_agree sl r saved arms sc pend ends g c cr sc' pend' ends' g' :
  Forall (fun a => Forall (stmt_agrees sl) a.2) arms ->
  forallb (fun a => forallb core_stmt a.2) arms = true ->
  regs_ok sc -> 1 <= saved <= 31 -> r ∈u 32 -> g_error g = None ->
  pending_at g c pend cr ->
  gok (gfold (arm_step sl r saved) arms (sc, pend, ends)) (grow g c saved) (sc', pend', ends') g' ->
  exists segs c',
    carms (cstmt sl) r saved arms sc = Some (joined segs, sc') /\
    ends' = ends ++ end_jumps (zlen (instructions g) + zlen cr) segs /\
    g' = grow g c' saved /\ pending_at g c' pend' (cr ++ unjoined segs) /\
    (arms = [] \/ match pend' with
     | None => c' = cr ++ unjoined segs
     | Some p => exists segs0 t k cb,
         segs = segs0 ++ [t ++ ins OpJnz 0 k 0 (zlen cb + 2) :: cb] /\ k ∈u 32 /\
         p = zlen (instructions g) + zlen cr + zlen (unjoined segs0) + zlen t /\
         c' = cr ++ unjoined (segs0 ++ [t ++ ins OpJnz 0 k 0 0 :: cb])
     end).
Proof.
  intros Hl. revert sc pend ends c cr. induction Hl as [|arm arms Ha _ IH];
    intros sc pend ends c cr Hc Hsc Hs Hr Herr Hp H; simpl in Hc.
  { apply gok_ret in H as [? ->]. simplify_eq. exists [], c. cbn [joined unjoined end_jumps carms].
    rewrite !app_nil_r. split_and!; auto. }
  split_bool. rewrite gfold_cons in H.
  destruct (gok_bind _ _ _ _ _ H ltac:(intros; solve_mono)) as (st & g1 & K & H'). clear H.
  destruct (arm_step_agrees _ _ _ _ _ _ _ _ _ _ _ _ Ha ltac:(done) Hsc Hs Hr Herr Hp K)
    as (cb & ct & sc1 & n1 & pend1 & c1 & Eb & Et & -> & -> & Hsh1 & Hsc1).
  pose proof (arm_shape_pending _ _ _ _ _ _ Hsh1) as Hp1.
  destruct arms as [|arm2 arms'].
  { clear IH. apply gok_ret in H' as [? ->]. simplify_eq. exists [ct ++ cb], c1.
    rewrite carms_cons, Eb. simpl. rewrite Et. simpl.
    split_and!; [by rewrite <- app_assoc|glen; f_equal; f_equal; lia|done|by rewrite <- app_assoc|].
    right. destruct pend1 as [p|]; simpl in *; [|subst; by rewrite <- app_assoc].
    destruct Hsh1 as (t & k & -> & Hk & -> & ->). exists [], t, k, cb. simpl.
    split_and!; [by rewrite <- app_assoc|lia|lia|change (zlen []) with 0; lia|done]. }
  destruct (IH _ _ _ _ _ ltac:(done) Hsc1 Hs Hr Herr Hp1 H')
    as (segs & c' & Es & -> & -> & Hp' & [?|Hshape]); [done|].
  exists ((ct ++ cb) :: segs), c'. rewrite carms_cons, Eb. cbn [mbind option_bind]. rewrite Et.
  cbn [mbind option_bind]. rewrite Es. simpl.
  repeat (rewrite <- ?app_assoc; cbn [app]). repeat (rewrite <- ?app_assoc in Hp'; cbn [app] in Hp').
  split_and!; [done| |done|done|].
  { do 2 f_equal. glen. f_equal. lia. }
  right. destruct pend' as [p|]; [|subst; by repeat (rewrite <- ?app_assoc; cbn [app])].
  destruct Hshape as (segs0 & t & k & cb0 & -> & Hk & -> & ->).
  exists ((ct ++ cb) :: segs0), t, k, cb0.
  split_and!; [done|lia|lia|simpl; glen; lia|simpl; by repeat (rewrite <- ?app_assoc; cbn [app])].
Qed.

Lemma match_agrees sl e arms :
  Forall (fun a => Forall (stmt_agrees sl) a.2) arms -> stmt_agrees sl (SMatch e arms).
Proof.
  intros Ha sc g sc' g' Hc Hsc Hn Herr H. simpl in Hc. split_bool.
  assert (K : gok (r <~ gen_expr e sc sl;
               put_reg (next_reg g) ~;
               st <~ gfold (arm_step sl r (next_reg g)) arms (sc, None, []);
               (let '(scope, pending, ends) := st in
                let ends := ends ++ match pending with Some last => [last] | None => [] end in
                end_idx <~ len;
                giter (fun idx => patch_to idx end_idx) ends ~;
                gret scope)) g sc' g').
  { destruct H as [H ? ?]. split; [|done..]. simpl in H. unfold gbind at 1, gget in H.
    rewrite Herr in H. exact H. }
  clear H. gstep K. simpl. cexprs. grow_norm. destruct a1 as [[sc1 pend] ends].
  pose proof (cexpr_reg sl _ _ _ _ _ _ Hsc E Hn).
  destruct (arms_agree sl a (next_reg g) arms sc None [] g x x _ _ _ _ Ha
              ltac:(done) Hsc Hn ltac:(lia) Herr eq_refl K1)
    as (segs & c' & Es & -> & -> & Hp' & Hshape).
  rewrite Es. cbn [mbind option_bind]. simpl app in K. gstep K. rename K0 into K.
  do 2 eexists; split; [reflexivity|].
  pose proof (gok_pre_len _ _ _ _ K ltac:(solve_mono)) as Hlen. pose proof (pending_len _ _ _ _ Hp') as Hl.
  unfold giter in K. destruct K as [K ? ?]. rewrite gfold_app in K.
  destruct (gok_bind _ _ _ _ _ (Build_gok _ _ _ _ _ K ltac:(done) ltac:(done)) ltac:(intros; solve_mono))
    as (u & g2 & K2 & K3). clear K.
  destruct pend as [p|].
  - destruct Hshape as [->|(segs0 & t & k & cb & -> & Hk & -> & ->)].
    { apply gok_ret in K1 as [[=] _]. }
    rewrite (end_jumps_snoc _ _ _ (t ++ ins OpJnz 0 k 0 0 :: cb)) in K2 by (glen; lia).
    apply end_jumps_patch in K2 as ->;
      [|rewrite grow_len in *; glen; lia|rewrite grow_len, zlen_app; lia].
    destruct (joined_snoc segs0 (zlen t + 1 + zlen cb)) as (pre & Hpre & Hj).
    rewrite Hj in K3 by (glen; lia). rewrite Hj by (glen; lia).
    rewrite gfold_cons in K3. gstep K3.
    rewrite unjoined_snoc in *.
    gpatch K (x ++ pre ++ t) (zlen cb + 2). apply gok_ret in K3 as [_ ->].
    by repeat (rewrite <- ?app_assoc; cbn [app]).
  - apply gok_ret in K3 as [-> ->]. simpl in Hp'. subst c'.
    apply end_jumps_patch in K2 as ->; [done|glen; lia|glen; lia].
Qed.

Lemma generate_stmt_agrees sl s : stmt_agrees sl s.
Proof.
  induction s using stmt_nested_ind; try (by apply simple_agrees);
    eauto using emit_agrees, if_agrees, while_agrees, for_agrees, match_agrees.
Qed.

(** ** Functions and programs *)

Lemma alloc_params {A} (ps : list A) regs g regs' g' :
  gok (gfold (fun regs _ => r <~ alloc_reg; gret (regs ++ [r])) ps regs) g regs' g' ->
  1 <= next_reg g <= 31 ->
  regs' = regs ++ seqZ (next_reg g) (zlen ps) /\ next_reg g + zlen ps <= 31 /\
  g' = grow g [] (next_reg g + zlen ps).
Proof.
  revert regs g. induction ps as [|p ps IH]; intros regs g H Hn.
  { apply gok_ret in H as [-> ->]. change (zlen []) with 0. rewrite Z.add_0_r, grow_nil, app_nil_r.
    split_and!; [done|lia|done]. }
  rewrite gfold_cons in H. gstep H. apply IH in H as (-> & Hle & ->); [|simpl; lia].
  rewrite grow_reg, grow_grow in *. rewrite zlen_cons.
  replace (next_reg g + 1 + zlen ps) with (next_reg g + (1 + zlen ps)) in * by lia.
  split_and!; [|done|done]. rewrite <- app_assoc. f_equal.
  pose proof (zlen_nonneg ps). rewrite (seqZ_cons (next_reg g)) by lia. cbn [app].
  f_equal. f_equal; lia.
Qed.

Lemma emit_all_agrees {A} (f : A -> Instruction) (l : list A) g u u' g' :
  gok (gfold (fun _ x => emit (opcode (f x)) (rd (f x)) (rs1 (f x)) (rs2 (f x)) (imm (f x))) l u) g u' g' ->
  g' = grow g (f <$> l) (next_reg g).
Proof.
  revert u g. induction l as [|x l IH]; intros u g H.
  { apply gok_ret in H as [_ ->]. by rewrite grow_nil. }
  rewrite gfold_cons in H. gstep H. apply IH in H as ->. rewrite grow_grow, grow_reg.
  simpl. by destruct (f x).
Qed.

Lemma params_regs_ok layouts prs sc :
  regs_ok sc -> Forall (fun pr => pr.2 ∈u 31 /\ pr.2 <> 0) prs ->
  regs_ok (foldl (bind_param layouts) sc prs).
Proof.
  intros Hsc H. revert sc Hsc. induction H as [|pr prs Hpr _ IH]; intros sc Hsc; [done|].
  apply IH. by apply map_Forall_insert_2.
Qed.

Lemma zip_seqZ_regs {A} (ps : list A) k :
  2 + k <= 31 -> Forall (fun pr => pr.2 ∈u 31 /\ pr.2 <> 0) (zip ps (seqZ 2 k)).
Proof.
  intros Hk. apply Forall_forall. intros [p r] Hin%list_elem_of_In%in_combine_r%list_elem_of_In.
  apply elem_of_seqZ in Hin. simpl. lia.
Qed.

Lemma function_agrees f c g u g' :
  core_function f = true -> g_error g = None ->
  gok (generate_function layout_values f c) g u g' ->
  exists code n, cfunction (struct_layouts g) (storage_slots (c_storage c)) f = Some code /\
    g' = grow g code n.
Proof.
  intros Hc Herr H. unfold generate_function in H. gstep H. rewrite Herr in H. gstep H.
  repeat (grow_norm; rewrite ?grow_reg).
  apply alloc_params in K as (-> & Hk & ->); [|simpl; lia].
  rewrite !grow_reg, ?grow_grow in *. change (1 + 1) with 2 in *.
  apply (emit_all_agrees (fun r => ins OpPop r 0 0 0)) in K0 as ->. cbn [app] in *.
  apply list_agrees in K1 as (cb & n1 & E & ->);
    [|apply Forall_true, generate_stmt_agrees|done
     |apply params_regs_ok; [apply map_Forall_empty|by apply zip_seqZ_regs]
     |pose proof (zlen_nonneg (f_params f)); simpl; lia|done].
  unfold cfunction. rewrite option_guard_True by lia. cbn [mbind option_bind].
  rewrite !grow_reg, (Z.add_comm 2) in E.
  change (struct_layouts (grow _ _ _)) with (struct_layouts g) in E. rewrite E. cbn [mbind option_bind].
  rewrite !grow_reg in *. rewrite option_guard_True by lia. cbn [mbind option_bind].
  do 2 eexists; split; [reflexivity|]. rewrite !grow_grow.
  by repeat (rewrite <- ?app_assoc; cbn [app]).
Qed.

Lemma mono_function f c : mono (generate_function layout_values f c).
Proof. unfold generate_function. solve_mono. Qed.
#[local] Hint Resolve mono_function : mono.

Lemma functions_agree c fs offs g offs' g' :
  forallb core_function fs = true -> g_error g = None ->
  gok (gfold (fun offs func =>
         off <~ len;
         generate_function layout_values func c ~;
         gret (<[f_name func := off]> offs)) fs offs) g offs' g' ->
  exists code n,
    cfunctions (struct_layouts g) (storage_slots (c_storage c)) fs (zlen (instructions g)) offs
      = Some (code, offs') /\ g' = grow g code n.
Proof.
  revert offs g. induction fs as [|f fs IH]; intros offs g Hc Herr H; simpl in Hc.
  { apply gok_ret in H as [-> ->]. exists [], (next_reg g). by rewrite grow_nil. }
  split_bool. rewrite gfold_cons in H. gstep H.
  apply function_agrees in K0 as (code & n & E & ->); [|done..].
  apply IH in H as (code' & n' & E' & ->); [|done..].
  rewrite grow_len in E'. change (struct_layouts (grow _ _ _)) with (struct_layouts g) in E'.
  simpl. rewrite E. simpl. rewrite E'. simpl.
  exists (code ++ code'), n'. by rewrite grow_grow.
Qed.

Lemma mono_patch_call offs call : mono (patch_call offs call).
Proof. unfold patch_call. solve_mono. Qed.
#[local] Hint Resolve mono_patch_call : mono.

Lemma program_agrees c p u g' :
  core_contract c = true -> gok (generate_program layout_values c) (new_with_profile p) u g' ->
  exists code, cprogram c = Some code /\ instructions g' = encode <$> code.
Proof.
  intros Hc H. unfold generate_program in H. gstep H.
  apply gok_modify in K as ->. apply gok_modify in K2 as ->. grow_norm.
  set (g0' := set_layouts _ _) in *.
  assert (Hlay : struct_layouts g0' = layouts_of (c_structs c)) by apply (right_id_L ∅ (∪)).
  pose proof (gok_pre_len _ _ _ _ K1 ltac:(solve_mono)) as Hlen.
  apply functions_agree in K0 as (code & n & E & ->); [|done..].
  rewrite grow_len in E. change (zlen (instructions g0') + zlen _) with 3 in E.
  change (struct_layouts _) with (struct_layouts g0') in E. rewrite Hlay in E.
  unfold cprogram. rewrite E. simpl.
  pose proof (cfunctions_entries _ _ _ _ _ _ _ E ltac:(lia) (map_Forall_empty _)) as Hes.
  destruct (a3 !! "main") as [m|] eqn:Em; [|by pose proof (gok_err _ _ _ _ K1); apply gok_modify in K1 as ->].
  apply Hes in Em. rewrite grow_grow in K1. cbn [app] in K1. rewrite grow_grow in Hlen.
  apply (patch_agrees [ins OpLoad 31 0 0 HEAP_BASE] (m - 1)) in K1 as ->;
    [|lia|by rewrite grow_len|glen; lia|by rewrite grow_len].
  apply gok_ret in H as [_ ->]. eauto.
Qed.

End generator.
End BudlEquiv.
