(* ===== verification/BudlMachine.v ===== *)
(** * The machine as generated code sees it

    [MState] keeps of the VM the parts generated code can observe (registers,
    program counter, call stack, storage, write log and events); [mexec] is the
    effect of one instruction on them and [msteps] a run of a list of
    instructions with the gas it costs.  [vm_simulates] lifts such a run to the
    loop of the real machine: with enough gas left, [Vm.run_loop] on the encoded
    program passes through the same states. *)

From Stdlib Require Import ZArith Lia.
From stdpp Require Import base tactics strings numbers gmap list.
From S2P Require Import Prelude Isa Goldilocks Vm VmFacts.
Import Isa Goldilocks.
Open Scope Z_scope.

Module BudlMachine.

Record MState : Type := mkM {
  m_regs : list Z;
  m_pc : Z;
  m_stack : list Z;
  m_store : gmap Z Z;
  m_writes : list (Z * Z);
  m_logs : list Z;
}.

Definition reg (m : MState) (r : Z) : Z := m_regs m !!! Z.to_nat r.
Definition goto (pc : Z) (m : MState) : MState :=
  mkM (m_regs m) pc (m_stack m) (m_store m) (m_writes m) (m_logs m).
Definition set_reg (r v : Z) (m : MState) : MState :=
  mkM (<[Z.to_nat r := v]> (m_regs m)) (m_pc m) (m_stack m) (m_store m) (m_writes m) (m_logs m).
Definition set_mstack (l : list Z) (m : MState) : MState :=
  mkM (m_regs m) (m_pc m) l (m_store m) (m_writes m) (m_logs m).
Definition mwrite (slot v : Z) (m : MState) : MState :=
  mkM (m_regs m) (m_pc m) (m_stack m) (<[slot := v]> (m_store m)) (m_writes m ++ [(slot, v)]) (m_logs m).
Definition mlog (v : Z) (m : MState) : MState :=
  mkM (m_regs m) (m_pc m) (m_stack m) (m_store m) (m_writes m) (m_logs m ++ [v]).
Definition next (m : MState) : MState := goto (m_pc m + 1) m.

Definition alu (op : Opcode) (a b : Z) : option Z :=
  match op with
  | OpAdd => Some (field_add_goldilocks a b)
  | OpSub => Some (field_sub_goldilocks a b)
  | OpMul => Some (field_mul_goldilocks a b)
  | OpDiv => Some (Vm.div_result a b)
  | OpEq => Some (Vm.b2z (a =? b))
  | OpNeq => Some (Vm.b2z (negb (a =? b)))
  | OpLt => Some (Vm.b2z (a <? b))
  | OpGt => Some (Vm.b2z (b <? a))
  | OpLte => Some (Vm.b2z (a <=? b))
  | OpGte => Some (Vm.b2z (b <=? a))
  | OpPoseidon => Some (poseidon4_hash a b)
  | _ => None
  end.

Definition syscall_value (ctx : Vm.Context) (n : Z) : option Z :=
  if n =? 1 then Some (Vm.sender ctx)
  else if n =? 2 then Some (Vm.block_height ctx)
  else if n =? 3 then Some (Vm.nonce ctx)
  else None.

(** Writing a register and going on; register 0 is not written. *)
Definition assign (r v : Z) (m : MState) : option MState :=
  guard (0 < r);; Some (next (set_reg r v m)).

Definition mexec (ctx : Vm.Context) (i : Instruction) (m : MState) : option MState :=
  let a := reg m (rs1 i) in
  let b := reg m (rs2 i) in
  match opcode i with
  | OpLoad => if rs1 i =? 0 then assign (rd i) (u64_of_signed (imm i)) m else None
  | OpSRead => assign (rd i) (default 0 (m_store m !! Vm.storage_slot i b)) m
  | OpSWrite => Some (next (mwrite (Vm.storage_slot i b) a m))
  | OpAssert => if a =? 0 then None else Some (next m)
  | OpLog => Some (next (mlog a m))
  | OpSyscall => v ← syscall_value ctx (imm i); assign (rd i) v m
  | OpJmp => Some (goto (Vm.jump_target (m_pc m) (imm i)) m)
  | OpJnz =>
      Some (goto (if negb (a =? 0) then Vm.jump_target (m_pc m) (imm i) else m_pc m + 1) m)
  | OpPush =>
      if 1024 <=? zlen (m_stack m) then None else Some (next (set_mstack (a :: m_stack m) m))
  | OpPop =>
      match m_stack m with
      | v :: rest => assign (rd i) v (set_mstack rest m)
      | [] => None
      end
  | OpCall =>
      if 1024 <=? zlen (m_stack m) then None
      else Some (goto (Vm.jump_target (m_pc m) (imm i)) (set_mstack (m_pc m + 1 :: m_stack m) m))
  | OpRet =>
      match m_stack m with
      | v :: rest => Some (goto v (set_mstack rest m))
      | [] => None
      end
  | op => v ← alu op a b; assign (rd i) v m
  end.

Section machine.
Variable ctx : Vm.Context.
Variable code : list Instruction.

Definition fetch (pc : Z) : option Instruction := guard (0 <= pc);; code !! Z.to_nat pc.

Inductive msteps : MState -> Z -> MState -> Prop :=
| msteps_refl m : msteps m 0 m
| msteps_step m i m1 c m2 :
    fetch (m_pc m) = Some i -> mexec ctx i m = Some m1 -> msteps m1 c m2 ->
    msteps m (Vm.gas_cost (opcode i) + c) m2.

Lemma msteps_trans m1 c1 m2 c2 m3 : msteps m1 c1 m2 -> msteps m2 c2 m3 -> msteps m1 (c1 + c2) m3.
Proof.
  induction 1 as [|m i m' c m'' Hf He _ IH]; intros H2; [done|].
  rewrite <- Z.add_assoc. econstructor; eauto.
Qed.

Lemma msteps_cost m c m' : msteps m c m' -> 0 <= c.
Proof. induction 1; [lia|]. pose proof (VmFacts.gas_cost_u64 (opcode i)). lia. Qed.

(** The machine stands at a violated assertion. *)
Definition at_violation (m : MState) : Prop :=
  exists i, fetch (m_pc m) = Some i /\ opcode i = OpAssert /\ reg m (rs1 i) = 0.

(** ** The real machine *)

Record vm_matches (s : Vm.Vm) (m : MState) : Prop := {
  vm_regs : Vm.registers s = m_regs m;
  vm_pc : Vm.pc s = m_pc m;
  vm_stack : Vm.stack s = m_stack m;
  vm_store : Vm.storage s = m_store m;
  vm_writes : Vm.state_writes s = m_writes m;
  vm_logs : Vm.events s = m_logs m;
  vm_ctx : Vm.context s = ctx;
  vm_running : Vm.halted s = false;
  vm_regs_len : length (m_regs m) = 32%nat;
  vm_zero : m_regs m !! 0%nat = Some 0;
}.

Definition base_opcode (op : Opcode) : bool := allows activation_default op.

Lemma mexec_base i m m' : mexec ctx i m = Some m' -> base_opcode (opcode i) = true.
Proof. unfold mexec. by destruct (opcode i). Qed.

Lemma decode_base i mode :
  instruction_wf i -> base_opcode (opcode i) = true ->
  Vm.decode_instruction (encode i) mode = Ok i.
Proof.
  intros Hi Hb. unfold Vm.decode_instruction, decode. destruct mode.
  - unfold decode_for_mainnet. rewrite decode_for_profile_any, decode_encode by done.
    simpl. unfold base_opcode in Hb. by rewrite Hb.
  - by rewrite decode_for_profile_any, decode_encode.
Qed.

Lemma fetch_lookup pc i : fetch pc = Some i -> 0 <= pc /\ code !! Z.to_nat pc = Some i.
Proof. unfold fetch. case_guard; [|done]. auto. Qed.

(** What [step] does after the instruction. *)
Definition step_tail (i : Instruction) (src1 src2 cur_pc : Z) (out : Vm.ExecOut) : Vm.M unit :=
  Vm.bind (Vm.write_reg 0 0) (fun _ =>
  Vm.bind (Vm.gets id) (fun s' =>
  Vm.bind (Vm.push_trace (Vm.main_row i src1 src2 cur_pc out s')) (fun _ =>
  Vm.bind (Vm.expand_merkle i src2 cur_pc) (fun _ =>
  Vm.expand_inference i src1 src2 cur_pc)))).

Lemma write_r0_id s : Vm.registers s !! 0%nat = Some 0 -> Vm.write_reg 0 0 s = Vm.Returned tt s.
Proof.
  intros H. unfold Vm.write_reg. change (Z.to_nat 0) with 0%nat. rewrite list_insert_id by done.
  assert (0 <? zlen (Vm.registers s) = true) as ->.
  { apply Z.ltb_lt. apply lookup_lt_Some in H. unfold zlen. lia. }
  by destruct s.
Qed.

Lemma read_reg_id s m r :
  vm_matches s m -> r ∈u 32 -> Vm.read_reg r s = Vm.Returned (reg m r) s.
Proof.
  intros Hm Hr. unfold Vm.read_reg, reg. rewrite (vm_regs _ _ Hm).
  assert (Hl : (Z.to_nat r < length (m_regs m))%nat) by (rewrite (vm_regs_len _ _ Hm); lia).
  apply lookup_lt_is_Some in Hl as [v Hv]. by rewrite Hv, (list_lookup_total_correct _ _ _ Hv).
Qed.

Lemma matches_charged s m g : vm_matches s m -> vm_matches (Vm.set_gas_used g s) m.
Proof. intros []. by split. Qed.

Lemma step_eq s m i :
  vm_matches s m -> fetch (m_pc m) = Some i -> instruction_wf i -> base_opcode (opcode i) = true ->
  Vm.gas_used s + Vm.gas_cost (opcode i) <= Vm.gas_limit s < U64 ->
  Vm.step (encode <$> code) s =
  Vm.bind (Vm.exec i (reg m (rs1 i)) (reg m (rs2 i)) (m_pc m))
    (step_tail i (reg m (rs1 i)) (reg m (rs2 i)) (m_pc m))
    (Vm.set_gas_used (Vm.gas_used s + Vm.gas_cost (opcode i)) s).
Proof.
  intros Hm Hf Hi Hb Hgas. apply fetch_lookup in Hf as [Hpc Hf].
  unfold Vm.step, Vm.bind at 1. rewrite write_r0_id by (rewrite (vm_regs _ _ Hm); apply Hm).
  unfold Vm.bind at 1, Vm.gets at 1, id. rewrite (vm_running _ _ Hm), (vm_pc _ _ Hm).
  assert (zlen (encode <$> code) <=? m_pc m = false) as ->.
  { apply Z.leb_gt. apply lookup_lt_Some in Hf. unfold zlen. rewrite length_fmap. lia. }
  unfold Vm.bind at 1. rewrite list_lookup_fmap, Hf. cbn [fmap option_fmap option_map Vm.or_panic].
  rewrite decode_base by done.
  unfold Vm.bind at 1, Vm.consume_gas, saturating_add.
  rewrite Z.min_l by lia. cbn [Vm.gas_limit Vm.gas_used Vm.set_gas_used].
  assert (Vm.gas_limit s <? Vm.gas_used s + Vm.gas_cost (opcode i) = false) as -> by (apply Z.ltb_ge; lia).
  pose proof (matches_charged s m (Vm.gas_used s + Vm.gas_cost (opcode i)) Hm) as Hm'.
  destruct Hi as (_ & Hr1 & Hr2 & _).
  unfold Vm.bind at 1. rewrite (read_reg_id _ m) by done.
  unfold Vm.bind at 1. rewrite (read_reg_id _ m) by done. done.
Qed.

(** After the instruction the trace grows and nothing else changes. *)
Lemma step_tail_eq i src1 src2 pc out s m :
  vm_matches s m -> base_opcode (opcode i) = true ->
  exists s', step_tail i src1 src2 pc out s = Vm.Returned tt s' /\ vm_matches s' m /\
    Vm.gas_used s' = Vm.gas_used s /\ Vm.gas_limit s' = Vm.gas_limit s.
Proof.
  intros Hm Hb. unfold step_tail, Vm.bind at 1.
  rewrite write_r0_id by (rewrite (vm_regs _ _ Hm); apply Hm).
  eexists. split.
  - unfold Vm.bind, Vm.gets, Vm.push_trace, Vm.modify, Vm.expand_merkle, Vm.expand_inference.
    destruct (opcode i) eqn:E; try done; by rewrite ?E in Hb.
  - split; [|done]. destruct Hm. by split.
Qed.

Lemma write_reg_eq s m r v :
  vm_matches s m -> 0 < r < 32 ->
  exists s', Vm.write_reg r v s = Vm.Returned tt s' /\ vm_matches s' (set_reg r v m) /\
    Vm.gas_used s' = Vm.gas_used s /\ Vm.gas_limit s' = Vm.gas_limit s.
Proof.
  intros Hm Hr. unfold Vm.write_reg.
  assert (r <? zlen (Vm.registers s) = true) as ->.
  { apply Z.ltb_lt. rewrite (vm_regs _ _ Hm). unfold zlen. rewrite (vm_regs_len _ _ Hm). lia. }
  eexists. split; [done|]. split; [|done]. destruct Hm; split; simpl; try done.
  - by rewrite vm_regs0.
  - by rewrite length_insert.
  - rewrite list_lookup_insert_ne by lia. done.
Qed.

(** The effect of an [exec] arm: it returns, in a machine matching [m']. *)
Definition exec_gives {A} (m' : MState) (s : Vm.Vm) (r : Vm.outcome A) : Prop :=
  exists out s', r = Vm.Returned out s' /\ vm_matches s' m' /\
    Vm.gas_used s' = Vm.gas_used s /\ Vm.gas_limit s' = Vm.gas_limit s.

Lemma finish_gives s m r v m' :
  vm_matches s m -> assign r v m = Some m' -> r < 32 ->
  exec_gives m' s (Vm.finish_reg r (m_pc m) v s).
Proof.
  intros Hm Ha Hr. unfold assign in Ha. case_guard; simplify_eq/=.
  destruct (write_reg_eq s m r v Hm) as (s1 & E & Hm1 & ? & ?); [lia|].
  unfold Vm.finish_reg, Vm.bind. rewrite E. do 2 eexists. split; [done|].
  split; [|done]. destruct Hm1; split; try done. simpl in *. by rewrite vm_pc0.
Qed.

(** An arm that is a fixed sequence of assignments. *)
Ltac by_record :=
  do 2 eexists; split; [reflexivity|]; split; [|done];
  match goal with H : vm_matches _ _ |- _ => destruct H; split; simpl in *; congruence end.

Lemma exec_gives_mexec s m i m' :
  vm_matches s m -> mexec ctx i m = Some m' -> rd i ∈u 32 -> m_pc m ∈u U64 ->
  exec_gives m' s (Vm.exec i (reg m (rs1 i)) (reg m (rs2 i)) (m_pc m) s).
Proof.
  intros Hm He Hrd Hpc. unfold mexec in He. unfold Vm.exec.
  assert (Hfin : forall v, assign (rd i) v m = Some m' ->
            exec_gives m' s (Vm.finish_reg (rd i) (m_pc m) v s)) by (intros; apply finish_gives; auto; lia).
  assert (Hstack : Vm.stack s = m_stack m) by apply Hm.
  assert (Hpc' : Vm.pc s = m_pc m) by apply Hm.
  destruct (opcode i) eqn:Eop; try done; cbn [alu mbind option_bind] in He; auto.
  - simplify_eq. by_record.
  - simplify_eq. by_record.
  - unfold Vm.exec_call, Vm.bind, Vm.gets, id. rewrite Hstack. case_match; simplify_eq. by_record.
  - unfold Vm.exec_ret, Vm.bind, Vm.pop_stack. rewrite Hstack. destruct (m_stack m); simplify_eq. by_record.
  - unfold Vm.exec_load. destruct (rs1 i =? 0); [|done]. by apply Hfin.
  - unfold Vm.exec_push, Vm.bind, Vm.gets, id. rewrite Hstack. case_match; simplify_eq. by_record.
  - unfold Vm.exec_pop, Vm.bind at 1, Vm.pop_stack. rewrite Hstack. destruct (m_stack m) as [|v rest]; [done|].
    destruct (finish_gives (Vm.set_stack rest s) (set_mstack rest m) (rd i) v m') as (o & s' & E & H');
      [destruct Hm; by split|done|lia|]. exists o, s'. split; [exact E|done].
  - unfold Vm.exec_assert. case_match; simplify_eq. by_record.
  - simplify_eq. by_record.
  - unfold Vm.exec_sread, Vm.bind, Vm.gets, id. rewrite (vm_store _ _ Hm). by apply Hfin.
  - simplify_eq. by_record.
  - unfold Vm.exec_syscall, Vm.bind, Vm.syscall_result, Vm.gets, id, syscall_value in *.
    pose proof (vm_ctx _ _ Hm).
    repeat match type of He with context [imm i =? ?k] => destruct (Z.eqb_spec (imm i) k) as [->|] end;
      [apply Hfin; unfold Vm.ret; simpl in He; congruence..|done].
Qed.

(** One instruction of the real machine. *)
Lemma step_matches s m i m' :
  vm_matches s m -> fetch (m_pc m) = Some i -> mexec ctx i m = Some m' -> instruction_wf i ->
  zlen code < U64 -> Vm.gas_used s + Vm.gas_cost (opcode i) <= Vm.gas_limit s < U64 ->
  exists s', Vm.step (encode <$> code) s = Vm.Returned tt s' /\ vm_matches s' m' /\
    Vm.gas_used s' = Vm.gas_used s + Vm.gas_cost (opcode i) /\ Vm.gas_limit s' = Vm.gas_limit s.
Proof.
  intros Hm Hf He Hi Hlen Hgas. pose proof (mexec_base _ _ _ He) as Hb.
  rewrite (step_eq s m i) by done.
  set (s1 := Vm.set_gas_used _ s). assert (Hm1 : vm_matches s1 m) by by apply matches_charged.
  assert (m_pc m ∈u U64).
  { apply fetch_lookup in Hf as [? Hf]. apply lookup_lt_Some in Hf. unfold zlen in Hlen. lia. }
  destruct (exec_gives_mexec s1 m i m' Hm1 He ltac:(apply Hi) ltac:(done))
    as (out & s2 & E & Hm2 & Hg2 & Hl2).
  unfold Vm.bind at 1. rewrite E.
  destruct (step_tail_eq i (reg m (rs1 i)) (reg m (rs2 i)) (m_pc m) out s2 m' Hm2 Hb)
    as (s3 & E3 & Hm3 & Hg3 & Hl3).
  exists s3. split_and!; [done|done|by rewrite Hg3, Hg2|by rewrite Hl3, Hl2].
Qed.

(** A run of the code is a run of the machine's loop. *)
Lemma vm_simulates s m c m' :
  msteps m c m' -> vm_matches s m -> Forall instruction_wf code -> zlen code < U64 ->
  Vm.gas_used s + c <= Vm.gas_limit s < U64 ->
  exists n s', (forall fuel, Vm.run_loop (n + fuel) (encode <$> code) s
                             = Vm.run_loop fuel (encode <$> code) s') /\
    vm_matches s' m' /\ Vm.gas_used s' = Vm.gas_used s + c /\ Vm.gas_limit s' = Vm.gas_limit s.
Proof.
  intros H. revert s. induction H as [m|m i m1 c m2 Hf He H IH]; intros s Hm Hwf Hlen Hgas.
  { exists 0%nat, s. split_and!; [done|done|lia|done]. }
  pose proof (msteps_cost _ _ _ H).
  assert (instruction_wf i).
  { apply fetch_lookup in Hf as [_ Hf]. by eapply Forall_lookup_1. }
  destruct (step_matches s m i m1 Hm Hf He ltac:(done) Hlen ltac:(lia)) as (s1 & E & Hm1 & Hg1 & Hl1).
  destruct (IH s1 Hm1 Hwf Hlen ltac:(lia)) as (n & s2 & Hrun & Hm2 & Hg2 & Hl2).
  exists (S n), s2. split_and!; [|done|lia|by rewrite Hl2].
  intros fuel. rewrite <- Hrun. simpl. by rewrite (vm_running _ _ Hm), E.
Qed.

(** With too little gas for the run, the loop stops with [OutOfGas]. *)
Lemma exhausted_step s m i :
  vm_matches s m -> fetch (m_pc m) = Some i -> instruction_wf i -> base_opcode (opcode i) = true ->
  Vm.gas_used s <= Vm.gas_limit s < Vm.gas_used s + Vm.gas_cost (opcode i) ->
  Vm.gas_limit s < U64 - 1 ->
  exists s', forall fuel,
    Vm.run_loop (S fuel) (encode <$> code) s = Vm.RunDone (Some Vm.OutOfGas) s'.
Proof.
  intros Hm Hf Hi Hb Hgas Hlim. apply fetch_lookup in Hf as [Hpc Hf]. eexists. intros fuel.
  cbn [Vm.run_loop]. rewrite (vm_running _ _ Hm).
  unfold Vm.step, Vm.bind at 1. rewrite write_r0_id by (rewrite (vm_regs _ _ Hm); apply Hm).
  unfold Vm.bind at 1, Vm.gets at 1, id. rewrite (vm_running _ _ Hm), (vm_pc _ _ Hm).
  assert (zlen (encode <$> code) <=? m_pc m = false) as ->.
  { apply Z.leb_gt. apply lookup_lt_Some in Hf. unfold zlen. rewrite length_fmap. lia. }
  unfold Vm.bind at 1. rewrite list_lookup_fmap, Hf. cbn [fmap option_fmap option_map Vm.or_panic].
  rewrite decode_base by done.
  unfold Vm.bind at 1, Vm.consume_gas, saturating_add.
  cbn [Vm.gas_limit Vm.gas_used Vm.set_gas_used].
  rewrite (proj2 (Z.ltb_lt _ _)) by lia. done.
Qed.

Lemma vm_exhausts s m c m' :
  msteps m c m' -> vm_matches s m -> Forall instruction_wf code -> zlen code < U64 ->
  Vm.gas_used s <= Vm.gas_limit s < Vm.gas_used s + c -> Vm.gas_limit s < U64 - 1 ->
  exists n s', forall fuel, Vm.run_loop (n + fuel) (encode <$> code) s
                            = Vm.RunDone (Some Vm.OutOfGas) s'.
Proof.
  intros H. revert s. induction H as [m|m i m1 c m2 Hf He H IH]; intros s Hm Hwf Hlen Hgas Hlim; [lia|].
  assert (Hi : instruction_wf i).
  { apply fetch_lookup in Hf as [_ Hf]. by eapply Forall_lookup_1. }
  destruct (decide (Vm.gas_limit s < Vm.gas_used s + Vm.gas_cost (opcode i))) as [Hlt|Hge].
  - destruct (exhausted_step s m i Hm Hf Hi (mexec_base _ _ _ He) ltac:(lia) Hlim) as (s' & E).
    by exists 1%nat, s'.
  - destruct (step_matches s m i m1 Hm Hf He Hi Hlen ltac:(lia)) as (s1 & E & Hm1 & Hg1 & Hl1).
    destruct (IH s1 Hm1 Hwf Hlen ltac:(lia) ltac:(lia)) as (n & s2 & Hrun).
    exists (S n), s2. intros fuel. rewrite <- (Hrun fuel). simpl. by rewrite (vm_running _ _ Hm), E.
Qed.

(** Ending: at a [Halt], and at a violated assertion. *)
Lemma halt_step s m i fuel :
  vm_matches s m -> fetch (m_pc m) = Some i -> opcode i = OpHalt -> instruction_wf i ->
  Vm.gas_used s <= Vm.gas_limit s < U64 ->
  exists s', Vm.run_loop (S fuel) (encode <$> code) s = Vm.RunDone None s' /\
    Vm.storage s' = m_store m /\ Vm.events s' = m_logs m /\ Vm.state_writes s' = m_writes m /\
    Vm.stack s' = m_stack m /\ Vm.gas_used s' = Vm.gas_used s.
Proof.
  intros Hm Hf Hop Hi Hgas. cbn [Vm.run_loop]. rewrite (vm_running _ _ Hm).
  rewrite (step_eq s m i) by first [done | by rewrite Hop | rewrite Hop; simpl; lia].
  unfold Vm.exec, Vm.bind at 1. rewrite Hop. unfold Vm.exec_halt.
  set (s1 := Vm.set_gas_used _ s).
  assert (Hz : Vm.registers (Vm.set_halted true s1) !! 0%nat = Some 0)
    by (simpl; rewrite (vm_regs _ _ Hm); apply Hm).
  unfold Vm.bind at 1, Vm.modify, Vm.ret, step_tail, Vm.bind at 1. rewrite (write_r0_id _ Hz).
  unfold Vm.bind, Vm.gets, Vm.push_trace, Vm.modify, Vm.expand_merkle, Vm.expand_inference.
  rewrite Hop. destruct fuel; cbn; eexists; (split; [reflexivity|]); destruct Hm; simpl;
    split_and!; auto; lia.
Qed.

Lemma violation_step s m fuel :
  vm_matches s m -> at_violation m -> Forall instruction_wf code ->
  Vm.gas_used s + Vm.gas_cost OpAssert <= Vm.gas_limit s < U64 ->
  exists s', Vm.run_loop (S fuel) (encode <$> code) s = Vm.RunDone (Some Vm.AssertionFailed) s' /\
    Vm.storage s' = m_store m /\ Vm.events s' = m_logs m.
Proof.
  intros Hm (i & Hf & Hop & Hz) Hwf Hgas. cbn [Vm.run_loop]. rewrite (vm_running _ _ Hm).
  assert (instruction_wf i).
  { apply fetch_lookup in Hf as [_ Hf]. by eapply Forall_lookup_1. }
  rewrite (step_eq s m i) by first [done | by rewrite Hop | rewrite Hop; simpl; lia].
  unfold Vm.exec, Vm.bind at 1. rewrite Hop. unfold Vm.exec_assert. rewrite Hz. simpl.
  eexists. split; [reflexivity|]. destruct Hm; simpl; auto.
Qed.

End machine.
End BudlMachine.
