(* ===== verification/BudlCorrect.v ===== *)
(** * Generated code does what the source program means

    The structured code of an expression leaves the expression's value in its
    result register; the structured code of a statement takes the machine from a
    state that represents the source state to one that represents the outcome of
    [run_stmt].  [sim] is the representation: every variable in scope lives in
    its own register below the next free one, and storage, write log and events
    are the source's. *)

From Stdlib Require Import ZArith Lia.
From stdpp Require Import base tactics strings numbers gmap list.
From S2P Require Import Prelude Isa Goldilocks Vm VmFacts BudlAst BudlCodegen BudlSemantics BudlStructured.
From S2P Require Import BudlEquiv BudlMachine.
Import Isa Goldilocks BudlAst BudlCodegen BudlSemantics BudlStructured BudlMachine.
Open Scope Z_scope.

Module BudlCorrect.

Lemma poseidon_canonical a b : canonical (poseidon4_hash a b).
Proof. apply poseidon4_hash_state_canonical. Qed.

#[local] Opaque poseidon4_hash.

Definition ctx_ok (ctx : Vm.Context) : Prop :=
  canonical (Vm.sender ctx) /\ canonical (Vm.nonce ctx) /\ canonical (Vm.block_height ctx).

Definition src_ok (st : Src) : Prop :=
  map_Forall (fun _ => canonical) (vars st) /\ map_Forall (fun _ => canonical) (store st).

Definition slots_ok (slots : StorageMap) : Prop := map_Forall (fun _ s => s ∈u I32_HALF) slots.

(** ** Registers *)

Lemma reg_set_same r v m : length (m_regs m) = 32%nat -> r ∈u 32 -> reg (set_reg r v m) r = v.
Proof. intros Hl Hr. unfold reg; simpl. rewrite list_lookup_total_insert_eq; [done|lia]. Qed.

Lemma reg_set_other r v m i : 0 <= i -> 0 <= r -> i <> r -> reg (set_reg r v m) i = reg m i.
Proof. intros. unfold reg; simpl. rewrite list_lookup_total_insert_ne; [done|lia]. Qed.

Lemma reg_next m i : reg (next m) i = reg m i.
Proof. done. Qed.
Lemma reg_goto m pc i : reg (goto pc m) i = reg m i.
Proof. done. Qed.

(** [m'] differs from [m] in the program counter and the registers from [n]
    on. *)
Record frame (n : Z) (m m' : MState) : Prop := {
  fr_len : length (m_regs m') = length (m_regs m);
  fr_regs : forall i, 0 <= i < n -> reg m' i = reg m i;
  fr_stack : m_stack m' = m_stack m;
  fr_store : m_store m' = m_store m;
  fr_writes : m_writes m' = m_writes m;
  fr_logs : m_logs m' = m_logs m;
}.

Lemma frame_refl n m : frame n m m.
Proof. by split. Qed.
Lemma frame_trans n m1 m2 m3 : frame n m1 m2 -> frame n m2 m3 -> frame n m1 m3.
Proof.
  intros [L1 R1 ????] [L2 R2 ????]. split; try congruence.
  intros i Hi. rewrite R2 by lia. apply R1. lia.
Qed.
Lemma frame_le n n' m m' : frame n' m m' -> n <= n' -> frame n m m'.
Proof. intros [] Hn. split; auto. intros i Hi. apply fr_regs0. lia. Qed.
(** Compose the frames in the context. *)
Ltac frames :=
  solve [repeat match goal with
  | |- frame _ ?m ?m => apply frame_refl
  | H : frame _ ?m ?m' |- frame _ ?m _ =>
      apply (frame_trans _ _ m'); [apply (frame_le _ _ _ _ H); lia|clear H]
  end].
Lemma frame_goto n m pc : frame n m (goto pc m).
Proof. by split. Qed.
Lemma frame_assign n m r v : n <= r -> 0 <= n -> frame n m (next (set_reg r v m)).
Proof.
  intros. split; simpl; try done; [by rewrite length_insert|].
  intros i Hi. rewrite reg_next. apply reg_set_other; lia.
Qed.

(** ** Code in place *)

Section correct.
Variable slots : StorageMap.
Variable ctx : Vm.Context.
Variable code : list Instruction.
Hypothesis Hctx : ctx_ok ctx.
Hypothesis Hslots : slots_ok slots.
Hypothesis Hsize : zlen code < I32_HALF.

Definition code_at (pc : Z) (c : list Instruction) : Prop :=
  exists pre post, code = pre ++ c ++ post /\ zlen pre = pc.

Lemma code_at_app pc a b : code_at pc (a ++ b) -> code_at pc a /\ code_at (pc + zlen a) b.
Proof.
  intros (pre & post & E & Hl). split.
  - exists pre, (b ++ post). by rewrite E, <- app_assoc.
  - exists (pre ++ a), post. rewrite E, zlen_app, Hl, <- !app_assoc. done.
Qed.

Lemma code_at_cons pc i c : code_at pc (i :: c) -> fetch code pc = Some i /\ code_at (pc + 1) c.
Proof.
  intros (pre & post & E & Hl). split.
  - unfold fetch. rewrite option_guard_True by (rewrite <- Hl; apply zlen_nonneg). simpl.
    rewrite E, lookup_app_r by (unfold zlen in Hl; lia).
    replace (Z.to_nat pc - length pre)%nat with 0%nat by (unfold zlen in Hl; lia). done.
  - exists (pre ++ [i]), post. rewrite E, zlen_app, Hl, <- app_assoc. done.
Qed.

Lemma code_at_bound pc c : code_at pc c -> 0 <= pc /\ pc + zlen c < I32_HALF.
Proof.
  intros (pre & post & E & Hl). rewrite E in Hsize. rewrite !zlen_app in Hsize.
  pose proof (zlen_nonneg pre). pose proof (zlen_nonneg post). lia.
Qed.

Definition reaches (m m' : MState) : Prop := exists c, msteps ctx code m c m'.

Lemma reaches_refl m : reaches m m.
Proof. exists 0. constructor. Qed.
Lemma reaches_trans m1 m2 m3 : reaches m1 m2 -> reaches m2 m3 -> reaches m1 m3.
Proof. intros [c1 H1] [c2 H2]. exists (c1 + c2). by eapply msteps_trans. Qed.
Lemma reaches_one m i m' : fetch code (m_pc m) = Some i -> mexec ctx i m = Some m' -> reaches m m'.
Proof. intros Hf He. exists (Vm.gas_cost (opcode i) + 0). econstructor; eauto. constructor. Qed.

Lemma assign_eq r v m : 0 < r -> assign r v m = Some (next (set_reg r v m)).
Proof. intros. unfold assign. by rewrite option_guard_True. Qed.

Lemma jump_small pc im : 0 <= pc + im < I32_HALF -> Vm.jump_target pc im = pc + im.
Proof. intros. unfold Vm.jump_target, u64_of_signed. apply Z.mod_small. lia. Qed.

(** ** Expressions *)

Record sim (sc : Scope) (n : Z) (st : Src) (m : MState) : Prop := {
  sim_len : length (m_regs m) = 32%nat;
  sim_zero : reg m 0 = 0;
  sim_var : forall x v, vars st !! x = Some v ->
    exists vi, sc !! x = Some vi /\ 1 <= v_reg vi < n /\ reg m (v_reg vi) = v;
  sim_inj : forall x y vx vy, is_Some (vars st !! x) -> is_Some (vars st !! y) ->
    sc !! x = Some vx -> sc !! y = Some vy -> v_reg vx = v_reg vy -> x = y;
  sim_store : m_store m = store st;
  sim_writes : m_writes m = writes st;
  sim_logs : m_logs m = logs st;
  sim_src : src_ok st;
}.

Lemma sim_frame sc n n' st m m' : sim sc n st m -> frame n m m' -> 1 <= n <= n' -> sim sc n' st m'.
Proof.
  intros [] [] Hn. split; try congruence; auto.
  - rewrite fr_regs0; [done|lia].
  - intros x v Hx. destruct (sim_var0 x v Hx) as (vi & ? & ? & ?). exists vi.
    split_and!; [done|lia|lia|]. rewrite fr_regs0; [done|lia].
Qed.

(** What the code of an expression achieves. *)
Definition computes (e : Expr) : Prop := forall sc n c r n' st v m,
  cexpr slots e sc n = Some (c, r, n') -> eval slots ctx e st = Some v ->
  regs_ok sc -> 1 <= n <= 31 -> sim sc n st m -> code_at (m_pc m) c ->
  canonical v /\ n <= n' <= 31 /\ 1 <= r < n' /\
  exists m', reaches m m' /\ m_pc m' = m_pc m + zlen c /\ frame n m m' /\ reg m' r = v.

(** One register-writing instruction. *)
Lemma run_assign m i c v n :
  code_at (m_pc m) (i :: c) -> mexec ctx i m = assign (rd i) v m ->
  0 <= n <= rd i -> 0 < rd i < 32 -> length (m_regs m) = 32%nat ->
  exists m', reaches m m' /\ m_pc m' = m_pc m + 1 /\ frame n m m' /\ reg m' (rd i) = v /\
    code_at (m_pc m') c /\ length (m_regs m') = 32%nat /\
    (forall k, 0 <= k -> k <> rd i -> reg m' k = reg m k).
Proof.
  intros Hc He Hn Hrd Hlen. apply code_at_cons in Hc as [Hf Hc].
  exists (next (set_reg (rd i) v m)). rewrite assign_eq in He by lia.
  split_and!; [by eapply reaches_one|done|apply frame_assign; lia| |done| |].
  - rewrite reg_next. apply reg_set_same; [done|lia].
  - simpl. by rewrite length_insert.
  - intros k ??. rewrite reg_next. apply reg_set_other; lia.
Qed.

Lemma binop_alu op a b : alu (opcode_of op) a b = Some (binop op a b).
Proof. by destruct op. Qed.

Lemma canonical_b2z b : canonical (Vm.b2z b).
Proof. unfold canonical, GOLDILOCKS_P. destruct b; simpl; lia. Qed.

Lemma binop_canonical op a b : canonical (binop op a b).
Proof.
  destruct op; simpl; try apply canonical_b2z; try apply mod_canonical.
  unfold Vm.div_result. case_match; [apply mod_canonical|unfold canonical, GOLDILOCKS_P; lia].
Qed.

Lemma mexec_alu op rd r1 r2 im m v :
  alu op (reg m r1) (reg m r2) = Some v -> mexec ctx (ins op rd r1 r2 im) m = assign rd v m.
Proof. intros H. destruct op; simplify_eq/=; unfold mexec; simpl; done. Qed.

Lemma binary_computes e l r (op : Opcode) (f : Z -> Z -> Z) :
  computes l -> computes r ->
  (forall a b, alu op a b = Some (f a b)) -> (forall a b, canonical (f a b)) ->
  (forall sc n, cexpr slots e sc n = cbinary n op (cexpr slots l sc n) (cexpr slots r sc)) ->
  (forall st, eval slots ctx e st = (a ← eval slots ctx l st; b ← eval slots ctx r st; Some (f a b))) ->
  computes e.
Proof.
  intros Hl Hr Hop Hf Hc He sc n c res n' st v m Ec Ev Hsc Hn Hsim Hat.
  rewrite Hc in Ec. rewrite He in Ev. unfold cbinary in Ec. copt.
  apply code_at_app in Hat as [Hat1 Hat2]. apply code_at_app in Hat2 as [Hat2 Hat3].
  destruct (Hl _ _ _ _ _ _ _ _ H2 H Hsc Hn Hsim Hat1)
    as (_ & Hn1 & Hr1 & m1 & Hm1 & Hpc1 & Hf1 & Hv1).
  rewrite <- Hpc1 in Hat2, Hat3.
  destruct (Hr _ _ _ _ _ _ _ m1 H3 H0 Hsc ltac:(lia) ltac:(eapply sim_frame; eauto; lia) Hat2)
    as (_ & Hn2 & Hr2 & m2 & Hm2 & Hpc2 & Hf2 & Hv2).
  rewrite <- Hpc2 in Hat3.
  assert (n <= res < 31).
  { destruct (Z.leb_spec n z0); simplify_eq; [lia|].
    destruct (Z.leb_spec z z2); simplify_eq; [lia|]. copt. lia. }
  assert (Hx : reg m2 z0 = x) by (rewrite (fr_regs _ _ _ Hf2), Hv1; [done|lia]).
  destruct (run_assign m2 _ _ (f x x0) n Hat3) as (m3 & Hm3 & Hpc3 & Hf3 & Hv3 & _);
    [apply mexec_alu; by rewrite Hx, Hv2, Hop|simpl; lia|simpl; lia
    |by rewrite (fr_len _ _ _ Hf2), (fr_len _ _ _ Hf1), (sim_len _ _ _ _ Hsim)|].
  split_and!; [done|lia|lia|lia|lia|]. exists m3. split_and!.
  - eauto using reaches_trans.
  - rewrite Hpc3, Hpc2, Hpc1, !zlen_app, zlen_cons. change (zlen []) with 0. lia.
  - frames.
  - done.
Qed.

(** ** Large literals *)

Definition horner (a : Z) (l : list Z) : Z :=
  fold_left (fun a c => (a * 1073741824 + c) mod GOLDILOCKS_P) l a.

Lemma digits_horner v : I32_HALF <= v < GOLDILOCKS_P ->
  horner 0 (literal_digits v) = v /\ Forall (fun c => 0 <= c < 1073741824) (literal_digits v) /\
  Exists (fun c => 0 < c) (literal_digits v).
Proof.
  intros Hv. unfold literal_digits.
  rewrite !Z.shiftr_div_pow2 by lia.
  change 0xF with (Z.ones 4). change 0x3FFFFFFF with (Z.ones 30).
  rewrite !Z.land_ones by lia.
  change (2 ^ 60) with (1073741824 * 1073741824). change (2 ^ 30) with 1073741824. change (2 ^ 4) with 16.
  assert (Hd0 : v / (1073741824 * 1073741824) mod 16 = v / (1073741824 * 1073741824)).
  { apply Z.mod_small. unfold GOLDILOCKS_P in Hv. split; [apply Z.div_pos; lia|].
    apply Z.div_lt_upper_bound; lia. }
  rewrite Hd0, <- Z.div_div by lia. set (q := v / 1073741824).
  pose proof (Z.div_mod v 1073741824 ltac:(lia)) as Ev. fold q in Ev.
  pose proof (Z.div_mod q 1073741824 ltac:(lia)) as Eq.
  pose proof (Z.mod_pos_bound v 1073741824 ltac:(lia)).
  pose proof (Z.mod_pos_bound q 1073741824 ltac:(lia)).
  set (h := q / 1073741824) in *.
  assert (0 <= q) by (apply Z.div_pos; lia). assert (0 <= h) by (apply Z.div_pos; lia).
  unfold GOLDILOCKS_P in Hv. split_and!.
  - unfold horner; simpl. unfold GOLDILOCKS_P. rewrite (Z.mod_small h) by lia.
    rewrite (Z.mod_small (h * _ + _)) by lia. rewrite Z.mod_small by lia. lia.
  - repeat constructor; lia.
  - destruct (Z.eq_dec h 0); [|constructor; lia]. right. left. lia.
Qed.

Lemma mexec_load rd im m : mexec ctx (ins OpLoad rd 0 0 im) m = assign rd (u64_of_signed im) m.
Proof. done. Qed.

Lemma signed_small v : 0 <= v < I32_HALF -> u64_of_signed v = v.
Proof. intros. unfold u64_of_signed. apply Z.mod_small. lia. Qed.

(** Run the next register-writing instruction, which computes [v]; [H] is
    the code from here, the registers below [n] are kept. *)
Ltac run1 H v n :=
  lazymatch type of H with
  | code_at (m_pc ?m) _ =>
      let m' := fresh "m" in let Hr := fresh "Hrun" in let Hp := fresh "Hpc" in
      let Hf := fresh "Hfr" in let Hv := fresh "Hval" in let Hl := fresh "Hlen" in
      let Ho := fresh "Hoth" in let H' := fresh "Hat" in
      destruct (run_assign m _ _ v n H) as (m' & Hr & Hp & Hf & Hv & H' & Hl & Ho);
        [ | simpl; lia | simpl; lia | congruence | simpl in Hv, Ho ]
  end.

Lemma digit_run n b c a m :
  0 < n < 29 -> code_at (m_pc m) (digit_code n (n + 1) (n + 2) b c) ->
  length (m_regs m) = 32%nat -> reg m (n + 1) = 1073741824 ->
  0 <= c < 1073741824 -> (if b then reg m n = a else a = 0) ->
  exists m1, reaches m m1 /\ m_pc m1 = m_pc m + zlen (digit_code n (n + 1) (n + 2) b c) /\
    frame n m m1 /\ length (m_regs m1) = 32%nat /\ reg m1 (n + 1) = 1073741824 /\
    let a1 := (a * 1073741824 + c) mod GOLDILOCKS_P in
    if b || (0 <? c) then reg m1 n = a1 else a1 = 0.
Proof.
  intros Hn Hat Hlen Hsh Hc Ha. unfold digit_code in *. destruct b; simpl.
  - run1 Hat (a * 1073741824 mod GOLDILOCKS_P) n. { apply mexec_alu. by rewrite Ha, Hsh. }
    destruct (Z.ltb_spec 0 c).
    + run1 Hat0 c n. { rewrite mexec_load, signed_small by lia. done. }
      run1 Hat1 ((a * 1073741824 + c) mod GOLDILOCKS_P) n.
      { apply mexec_alu. rewrite Hval0, Hoth0, Hval by lia. simpl. unfold field_add_goldilocks.
        by rewrite Zplus_mod_idemp_l. }
      exists m2. split_and!; [eauto using reaches_trans|change (zlen _) with 3; lia|frames|done| |done].
      rewrite Hoth1, Hoth0, Hoth by lia. done.
    + exists m0. replace c with 0 by lia. rewrite Z.add_0_r.
      split_and!; [done|change (zlen _) with 1; lia|frames|done| |done]. by rewrite Hoth by lia.
  - subst a. destruct (Z.ltb_spec 0 c); simpl.
    + run1 Hat c n. { rewrite mexec_load, signed_small by lia. done. }
      exists m0. split_and!; [done|change (zlen _) with 1; lia|frames|done|by rewrite Hoth by lia|].
      rewrite Hval, Z.mod_small; [done|unfold GOLDILOCKS_P; lia].
    + exists m. split_and!; [apply reaches_refl|change (zlen _) with 0; lia|apply frame_refl|done|done|].
      by replace c with 0 by lia.
Qed.

Lemma digits_run n l b a m :
  0 < n < 29 -> code_at (m_pc m) (digits_code n (n + 1) (n + 2) b l) ->
  length (m_regs m) = 32%nat -> reg m (n + 1) = 1073741824 ->
  Forall (fun c => 0 <= c < 1073741824) l -> (if b then reg m n = a else a = 0) ->
  exists m', reaches m m' /\ m_pc m' = m_pc m + zlen (digits_code n (n + 1) (n + 2) b l) /\
    frame n m m' /\ (b = true \/ Exists (fun c => 0 < c) l -> reg m' n = horner a l).
Proof.
  intros Hn. revert b a m. induction l as [|c l IH]; intros b a m Hat Hlen Hsh Hl Ha.
  { exists m. split_and!; [apply reaches_refl|change (zlen _) with 0; lia|apply frame_refl|].
    intros [->|He]; [done|inversion He]. }
  inversion Hl as [|? ? Hc Hl']; subst.
  rewrite digits_code_cons in *. rewrite zlen_app. apply code_at_app in Hat as [Hd Hrest].
  destruct (digit_run n b c a m Hn Hd Hlen Hsh Hc Ha) as (m1 & Hr1 & Hp1 & Hf1 & Hl1 & Hs1 & Hv1).
  rewrite <- Hp1 in Hrest.
  destruct (IH _ _ m1 Hrest Hl1 Hs1 Hl' Hv1) as (m2 & Hr2 & Hp2 & Hf2 & Hv2).
  exists m2. split_and!; [by eapply reaches_trans|lia|frames|].
  intros Hex. apply Hv2. destruct b; [by left|]. simpl. destruct Hex as [|Hex]; [done|].
  inversion Hex; subst; [left; by apply Z.ltb_lt|by right].
Qed.

Lemma int_computes v : 0 <= v -> computes (EInt v).
Proof.
  intros Hv sc n c r n' st v' m Ec Ev Hsc Hn Hsim Hat. simpl in Ec, Ev. simplify_eq.
  pose proof (sim_len _ _ _ _ Hsim) as Hlen. unfold cint in Ec.
  destruct (Z.leb_spec GOLDILOCKS_P v'); [done|]. split; [by unfold canonical|].
  destruct (Z.leb_spec v' (I32_HALF - 1)); copt.
  - run1 Hat v' r. { rewrite mexec_load, signed_small by lia. done. }
    split_and!; [lia..|]. eauto 10.
  - run1 Hat 1073741824 r. { by rewrite mexec_load. }
    destruct (digits_horner v' ltac:(lia)) as (Hh & Hd & He).
    destruct (digits_run r (literal_digits v') false 0 m0) as (m1 & Hr1 & Hp1 & Hf1 & Hv1); auto; [lia|].
    split_and!; [lia..|]. exists m1. rewrite zlen_cons.
    split_and!; [eauto using reaches_trans|lia|frames|]. rewrite Hv1; auto.
Qed.

Lemma storage_canonical st k : src_ok st -> canonical (default 0 (store st !! k)).
Proof.
  intros [_ Hs]. destruct (store st !! k) as [v|] eqn:E; simpl; [by eapply Hs|].
  unfold canonical, GOLDILOCKS_P. lia.
Qed.

(** Name the slot of [x] and recall its range. *)
Ltac slot_of x slot :=
  match goal with
  | E : slots !! x = Some ?s |- _ =>
      rename s into slot;
      let H := fresh "Hslot" in pose proof (Hslots _ _ E) as H; simpl in H
  end.

Lemma storage_computes x : computes (EStorageRead x).
Proof.
  intros sc n c r n' st v m Ec Ev Hsc Hn Hsim Hat. simpl in Ec, Ev. copt.
  pose proof (sim_len _ _ _ _ Hsim) as Hlen. slot_of x slot.
  split; [by apply storage_canonical, (sim_src _ _ _ _ Hsim)|].
  run1 Hat (default 0 (store st !! slot)) r.
  { unfold mexec, Vm.storage_slot; simpl. rewrite (sim_store _ _ _ _ Hsim).
    rewrite (proj2 (Z.eqb_neq slot (-1))) by lia. done. }
  split_and!; [lia..|]. eauto 10.
Qed.

Lemma mapping_computes x k : computes k -> computes (EMappingRead x k).
Proof.
  intros Hk sc n c r n' st v m Ec Ev Hsc Hn Hsim Hat. simpl in Ec, Ev. copt.
  pose proof (sim_len _ _ _ _ Hsim) as Hlen. slot_of x slot.
  split; [by apply storage_canonical, (sim_src _ _ _ _ Hsim)|].
  apply code_at_app in Hat as [Hat1 Hat2].
  destruct (Hk _ _ _ _ _ _ _ _ H3 H0 Hsc Hn Hsim Hat1) as (_ & Hn1 & Hr1 & m1 & Hm1 & Hpc1 & Hf1 & Hv1).
  rewrite <- Hpc1 in Hat2. pose proof (fr_len _ _ _ Hf1).
  run1 Hat2 slot z. { rewrite mexec_load, signed_small by lia. done. }
  run1 Hat (poseidon4_hash slot x1) z. { apply mexec_alu. rewrite Hval, Hoth, Hv1 by lia. done. }
  run1 Hat0 (default 0 (store st !! mapping_slot slot x1)) z.
  { unfold mexec, Vm.storage_slot; simpl. rewrite Hval0, mapping_slot_eq.
    rewrite (fr_store _ _ _ Hfr0), (fr_store _ _ _ Hfr), (fr_store _ _ _ Hf1), (sim_store _ _ _ _ Hsim).
    done. }
  split_and!; [lia..|]. exists m3. rewrite zlen_app. change (zlen [_; _; _]) with 3.
  split_and!; [eauto using reaches_trans|lia|frames|done].
Qed.

Lemma syscall_computes e k v :
  syscall_value ctx k = Some v -> canonical v -> k <> 0 ->
  (forall sc n, cexpr slots e sc n = csyscall n k) -> (forall st, eval slots ctx e st = Some v) ->
  computes e.
Proof.
  intros Hk Hv Hk0 Hc He sc n c r n' st v' m Ec Ev Hsc Hn Hsim Hat. rewrite Hc in Ec. rewrite He in Ev.
  unfold csyscall in Ec. copt. pose proof (sim_len _ _ _ _ Hsim) as Hlen.
  run1 Hat v' r. { unfold mexec; simpl. by rewrite Hk. }
  split_and!; [apply Hv..|lia|lia|lia|lia|]. eauto 10.
Qed.

Lemma expr_computes e : core_expr e = true -> computes e.
Proof.
  induction e using expr_nested_ind; simpl; intros Hc; try done; split_bool.
  - apply int_computes. lia.
  - intros sc n c r n' st v m Ec Ev Hsc Hn Hsim Hat. simpl in Ec, Ev. copt.
    destruct (sim_var _ _ _ _ Hsim _ _ Ev) as (vi & E & Hvi & Hreg). simplify_eq.
    split_and!; [|lia..|].
    + exact (proj1 (sim_src _ _ _ _ Hsim) _ _ Ev).
    + exists m. change (zlen []) with 0.
      split_and!; [apply reaches_refl|lia|apply frame_refl|done].
  - apply storage_computes.
  - by apply mapping_computes, IHe.
  - eapply (binary_computes _ e1 e2 (opcode_of op) (binop op)); eauto using binop_alu, binop_canonical.
  - destruct (decide (x = "poseidon")) as [->|Hp].
    + destruct args as [|a [|b args]]; try done. split_bool. decompose_Forall.
      by eapply (binary_computes _ a b OpPoseidon poseidon4_hash); eauto using poseidon_canonical.
    + apply bool_decide_eq_true in Hc. destruct Hctx as (? & ? & ?).
      destruct (decide (x = "msg::sender")) as [->|]; [by eapply (syscall_computes _ 1)|].
      destruct (decide (x = "msg::nonce")) as [->|]; [by eapply (syscall_computes _ 3)|].
      destruct (decide (x = "block::number")) as [->|]; [by eapply (syscall_computes _ 2)|].
      set_solver.
Qed.

End correct.
End BudlCorrect.
