(* ===== verification/BudlSimulation.v ===== *)
(** * Compiler correctness

    The structured code of a statement simulates [run_stmt], by induction on
    the fuel of the source run; composed with the equivalence of the two
    generators and with the simulation of the instruction runs by the VM, this
    gives the refinement [compiled_contract_refines]: a contract the generator
    accepts, run by the VM from a fresh machine with enough gas, ends with the
    storage, the write log and the events its source program prescribes, and a
    violated constraint ends it with [AssertionFailed]. *)

From Stdlib Require Import ZArith Lia.
From stdpp Require Import base tactics strings numbers gmap list.
From S2P Require Import Prelude Isa Goldilocks Vm VmFacts BudlAst BudlCodegen BudlSemantics BudlStructured.
From S2P Require Import BudlEquiv BudlMachine BudlCorrect.
Import Isa Goldilocks BudlAst BudlCodegen BudlSemantics BudlStructured BudlMachine BudlCorrect.
Open Scope Z_scope.

Module BudlSimulation.

(** ** What a block leaves of the outer scope *)

Section scope.
Variable slots : StorageMap.

Definition keeps (s : Stmt) : Prop := forall outer locals sc n c sc' n' x,
  sound_stmt outer locals s = true -> cstmt slots s sc n = Some (c, sc', n') ->
  x ∈ outer -> sc' !! x = sc !! x.

Lemma block_keeps l outer locals sc n c sc' n' x :
  Forall keeps l -> sound_block outer locals l = true -> cblock slots l sc n = Some (c, sc', n') ->
  x ∈ outer -> sc' !! x = sc !! x.
Proof.
  intros Hl. revert locals sc n c. induction Hl as [|s l Hs _ IH]; intros locals sc n c Hb Hc Hx.
  { simpl in Hc. by simplify_eq. }
  rewrite cblock_cons in Hc. simpl in Hb. split_bool. copt.
  etransitivity; [eapply IH; eauto|]. eauto.
Qed.

Lemma arms_keep arms r n outer sc c sc' x :
  Forall (fun a => Forall keeps a.2) arms ->
  forallb (fun a => sound_pattern a.1 && sound_list (sound_stmt outer) ∅ a.2) arms = true ->
  carms (cstmt slots) r n arms sc = Some (c, sc') -> x ∈ outer -> sc' !! x = sc !! x.
Proof.
  intros Ha. revert sc c. induction Ha as [|a arms Ha _ IH]; intros sc c Hb Hc Hx.
  { simpl in Hc. by simplify_eq. }
  rewrite carms_cons in Hc. simpl in Hb. split_bool. copt.
  etransitivity; [eapply IH; eauto|]. eapply block_keeps; eauto.
Qed.

Lemma stmt_keeps s : keeps s.
Proof.
  induction s using stmt_nested_ind; intros outer locals sc n cd sc' n' y Hs Hc Hy;
    simpl in Hs, Hc; split_bool; copt; try done.
  - rewrite lookup_insert_ne; [done|]. by intros ->.
  - transitivity (g !! y).
    + eapply block_keeps; [exact H|eauto|eauto|set_solver].
    + destruct e as [f|]; [|by simplify_eq].
      eapply block_keeps; [by apply H0|eauto|eauto|set_solver].
  - eapply block_keeps; [exact H|eauto|eauto|set_solver].
  - eapply arms_keep; [exact H|eauto|eauto|set_solver].
Qed.

Lemma cblock_keeps l outer locals sc n c sc' n' x :
  sound_block outer locals l = true -> cblock slots l sc n = Some (c, sc', n') ->
  x ∈ outer -> sc' !! x = sc !! x.
Proof. apply block_keeps, Forall_true, stmt_keeps. Qed.
End scope.

(** ** Statements *)

Section simulation.
Variable slots : StorageMap.
Variable ctx : Vm.Context.
Variable code : list Instruction.
Hypothesis Hctx : ctx_ok ctx.
Hypothesis Hslots : slots_ok slots.
Hypothesis Hsize : zlen code < I32_HALF.

(** The return address on top of the call stack, and what is below it. *)
Variables (ra : Z) (rest : list Z).
Hypothesis Hrest : zlen rest < 1000.

Abbreviation reaches := (reaches ctx code).
Abbreviation code_at := (code_at code).

Lemma emit_vars args st st' : emit_all slots ctx args st = Some st' -> vars st' = vars st.
Proof.
  revert st. induction args as [|a args IH]; intros st H; simpl in H; copt; [done|].
  apply IH in H0. by rewrite H0.
Qed.

Lemma run_dom fuel s st st' :
  run_stmt slots ctx fuel s st = Some (ONext st') ->
  dom (vars st') ⊆ dom (vars st) ∪ declared s.
Proof.
  revert s st. induction fuel as [|fuel IH]; intros s st H; [done|].
  assert (Hleave : forall o st2, leave (vars st) o = ONext st2 -> dom (vars st2) ⊆ dom (vars st)).
  { intros o st2 Ho. destruct o; simplify_eq/=. rewrite dom_intersection_L. set_solver. }
  destruct s; simpl in H; copt; try set_solver.
  - case_match; simplify_eq. set_solver.
  - rewrite dom_insert_L. apply elem_of_dom_2 in H0. set_solver.
  - destruct (run_block _ _ _ _ _); simplify_eq/=. pose proof (Hleave _ _ H0). set_solver.
  - case_match; simplify_eq/=; [set_solver|]. copt.
    destruct (leave (vars st) _) as [st1| |] eqn:El; simplify_eq/=.
    apply Hleave in El. apply IH in H2. simpl in H2. set_solver.
  - destruct (run_for _ _ _ _ _ _ _ _); simplify_eq/=. pose proof (Hleave _ _ H1). set_solver.
  - destruct e; copt.
  - destruct (emit_all _ _ _ _) as [st1|] eqn:E; simplify_eq/=. apply emit_vars in E. rewrite E. set_solver.
  - destruct (run_block _ _ _ _ _); simplify_eq/=. pose proof (Hleave _ _ H0). set_solver.
Qed.

(** Where the code of a statement that starts in [m], with scope [sc] and
    next register [n], leaves the machine.  Registers below [n] that no
    variable lives in are kept, and no new variable lives in them. *)
Definition lands (sc : Scope) (n : Z) (st : Src) (m : MState) (sc' : Scope) (n' pc' : Z)
    (out : Outcome) (m' : MState) : Prop :=
  match out with
  | ONext st' =>
      m_pc m' = pc' /\ sim sc' n' st' m' /\ m_stack m' = m_stack m /\
      (forall r, 1 <= r < n ->
         (forall x vi, is_Some (vars st !! x) -> sc !! x = Some vi -> v_reg vi <> r) ->
         reg m' r = reg m r) /\
      (forall x vi, is_Some (vars st' !! x) -> sc' !! x = Some vi -> v_reg vi < n ->
         is_Some (vars st !! x) /\ sc !! x = Some vi)
  | OReturn v st' =>
      m_pc m' = ra /\ m_stack m' = v :: rest /\ length (m_regs m') = 32%nat /\ reg m' 0 = 0 /\
      m_store m' = store st' /\ m_writes m' = writes st' /\ m_logs m' = logs st'
  | OViolated st' =>
      at_violation code m' /\ length (m_regs m') = 32%nat /\ reg m' 0 = 0 /\
      m_store m' = store st' /\ m_writes m' = writes st' /\ m_logs m' = logs st'
  end.

Definition stmt_correct (fuel : nat) (s : Stmt) : Prop :=
  forall outer locals sc n c sc' n' st out m,
  core_stmt s = true -> sound_stmt outer locals s = true ->
  cstmt slots s sc n = Some (c, sc', n') -> regs_ok sc -> 1 <= n <= 31 ->
  dom (vars st) ⊆ outer ∪ locals -> sim sc n st m -> m_stack m = ra :: rest ->
  code_at (m_pc m) c -> run_stmt slots ctx fuel s st = Some out ->
  exists m', reaches m m' /\ lands sc n st m sc' n' (m_pc m + zlen c) out m'.

Definition block_correct (fuel : nat) (l : list Stmt) : Prop :=
  forall outer locals sc n c sc' n' st out m,
  forallb core_stmt l = true -> sound_block outer locals l = true ->
  cblock slots l sc n = Some (c, sc', n') -> regs_ok sc -> 1 <= n <= 31 ->
  dom (vars st) ⊆ outer ∪ locals -> sim sc n st m -> m_stack m = ra :: rest ->
  code_at (m_pc m) c -> run_block slots ctx fuel l st = Some out ->
  exists m', reaches m m' /\ lands sc n st m sc' n' (m_pc m + zlen c) out m'.

(** A statement that changes no variable and no register below [n]. *)
Lemma lands_plain sc n st st' m m' pc' :
  m_pc m' = pc' -> sim sc n st' m' -> vars st' = vars st -> m_stack m' = m_stack m ->
  (forall r, 1 <= r < n -> reg m' r = reg m r) -> lands sc n st m sc n pc' (ONext st') m'.
Proof. intros Hpc Hsim Hv Hs Hr. split_and!; [done|done|done|auto|]. by rewrite Hv. Qed.

Lemma sim_next sc n st m : sim sc n st m -> sim sc n st (next m).
Proof. intros []. by split. Qed.

Ltac start :=
  intros outer locals sc n c sc' n' st out m Hcore Hs Hc Hsc Hn Hdom Hsim Hst Hat Hrun;
  simpl in Hcore, Hs, Hc, Hrun; split_bool; copt;
  pose proof (sim_len _ _ _ _ Hsim) as Hlen.

(** Name the value of an expression. *)
Ltac val_of e v := match goal with E : eval _ _ e _ = Some ?w |- _ => rename w into v end.

(** Run the expression whose code is at [Hat], from a state [Hsim] relates. *)
Ltac runE Hat Hsim :=
  lazymatch type of Hat with
  | BudlCorrect.code_at _ (m_pc ?m) ?l =>
      match goal with
      | Ec : cexpr slots ?e _ ?n = Some (l, _, ?n2), Ev : eval _ _ ?e _ = Some _ |- _ =>
          let Hc := fresh "Hcan" in let Hn := fresh "Hnn" in let Hr := fresh "Hrr" in
          let m' := fresh "m" in let Hm := fresh "Hrn" in let Hp := fresh "Hpc" in
          let Hf := fresh "Hfr" in let Hv := fresh "Hval" in let Hs := fresh "Hsim" in
          let H := fresh in
          assert (H : computes slots ctx code e) by (apply expr_computes; auto);
          destruct (H _ _ _ _ _ _ _ m Ec Ev ltac:(eassumption) ltac:(lia) Hsim Hat)
            as (Hc & Hn & Hr & m' & Hm & Hp & Hf & Hv);
          pose proof (sim_frame _ n n2 _ _ _ Hsim Hf ltac:(lia)) as Hs;
          pose proof (sim_len _ _ _ _ Hs); clear H
      end
  end.

(** Run the register-writing instruction at [H], which computes [v]; the
    registers below [n] are kept. *)
Ltac run1 H v n :=
  lazymatch type of H with
  | BudlCorrect.code_at _ (m_pc ?m) _ =>
      let m' := fresh "m" in let Hr := fresh "Hrn" in let Hp := fresh "Hpc" in
      let Hf := fresh "Hfr" in let Hv := fresh "Hval" in let Hl := fresh "Hlen" in
      let Ho := fresh "Hoth" in let H' := fresh "Hat" in
      destruct (run_assign ctx code m _ _ v n H) as (m' & Hr & Hp & Hf & Hv & H' & Hl & Ho);
        [ | simpl; lia | simpl; lia | congruence | simpl in Hv, Ho ]
  end.

(** The machine after one instruction that writes no register. *)
Lemma run_plain m i c m' :
  code_at (m_pc m) (i :: c) -> mexec ctx i m = Some m' -> reaches m m'.
Proof. intros Hat He. apply code_at_cons in Hat as [Hf _]. by eapply reaches_one. Qed.

Lemma constrain_correct fuel e : stmt_correct (S fuel) (SConstrain e).
Proof.
  start. apply code_at_app in Hat as [Hat1 Hat2]. runE Hat1 Hsim. rewrite <- Hpc in Hat2.
  pose proof (sim_frame _ n' n' _ _ _ Hsim Hfr ltac:(lia)) as Hsim1.
  destruct (Z.eqb_spec x 0) as [->|Hx].
  - exists m0. split; [done|]. destruct Hsim1. split_and!; try done.
    apply code_at_cons in Hat2 as [Hf _]. eexists. split_and!; [exact Hf|done|done].
  - exists (next m0). split.
    + eapply reaches_trans; [done|]. eapply run_plain; [done|]. unfold mexec. simpl.
      rewrite Hval. by rewrite (proj2 (Z.eqb_neq x 0)).
    + apply lands_plain; try done; [|by apply sim_next|apply Hfr|intros; apply Hfr; lia].
      simpl. rewrite zlen_app, Hpc. change (zlen [_]) with 1. lia.
Qed.

Lemma expr_correct fuel e : stmt_correct (S fuel) (SExpr e).
Proof.
  start. runE Hat Hsim. exists m0. split; [done|].
  apply lands_plain; try done; [refine (sim_frame _ _ _ _ _ _ Hsim Hfr _); lia|apply Hfr|intros; apply Hfr; lia].
Qed.

(** A new variable in a fresh register. *)
Lemma sim_bind sc n st m x v r ty :
  sim sc n st m -> n <= r -> 1 <= r -> canonical v -> reg m r = v ->
  sim (<[x := mkVar r ty]> sc) (r + 1) (set_vars (<[x := v]> (vars st)) st) m.
Proof.
  intros Hsim Hr Hr1 Hv Hreg. pose proof Hsim as []. split; simpl; try done.
  - intros y w Hy. destruct (decide (y = x)) as [->|Hne].
    + rewrite lookup_insert_eq in Hy. injection Hy as <-. exists (mkVar r ty).
      rewrite lookup_insert_eq. simpl. split_and!; [done|lia|lia|done].
    + rewrite lookup_insert_ne in Hy by done. rewrite lookup_insert_ne by done.
      destruct (sim_var0 y w Hy) as (vi & ? & ? & ?). exists vi. split_and!; [done|lia|lia|done].
  - intros y1 y2 v1 v2 [w1 W1] [w2 W2] E1 E2 Heq.
    assert (Hold : forall y w vi, y <> x -> <[x:=v]> (vars st) !! y = Some w ->
              <[x:=mkVar r ty]> sc !! y = Some vi -> v_reg vi < n).
    { intros y w vi Hne Hw Hvi. rewrite lookup_insert_ne in Hw by done.
      rewrite lookup_insert_ne in Hvi by done.
      destruct (sim_var0 y w Hw) as (vi' & ? & ? & _). simplify_eq. lia. }
    destruct (decide (y1 = x)) as [->|N1], (decide (y2 = x)) as [->|N2]; [done| | |].
    + rewrite lookup_insert_eq in E1. simplify_eq. specialize (Hold _ _ _ N2 W2 E2). simpl in *. lia.
    + rewrite lookup_insert_eq in E2. simplify_eq. specialize (Hold _ _ _ N1 W1 E1). simpl in *. lia.
    + rewrite lookup_insert_ne in W1, W2 by done. rewrite lookup_insert_ne in E1, E2 by done.
      eapply sim_inj0; eauto.
  - destruct sim_src0 as [Hvs Hst0]. split; [|done]. by apply map_Forall_insert_2.
Qed.

Lemma let_correct fuel x e : stmt_correct (S fuel) (SLet x e).
Proof.
  start. runE Hat Hsim. exists m0. split; [done|].
  match goal with Ec : cexpr slots e sc n = _ |- _ =>
    pose proof (cexpr_result slots e sc n _ _ _ Hsc Ec Hn) as Hres end.
  destruct Hres as [(y & vi & -> & _)|(_ & Hr & _)]; [done|].
  rewrite (proj2 (Z.leb_le n z0)) by lia.
  split_and!; [done| |apply Hfr|intros; apply Hfr; lia|].
  - apply (sim_bind sc n); [refine (sim_frame _ n n _ _ _ Hsim Hfr _); lia|lia|lia|done|done].
  - simpl. intros y vi Hy Hvi Hlt. destruct (decide (y = x)) as [->|Hne].
    + rewrite lookup_insert_eq in Hvi. simplify_eq. simpl in Hlt. lia.
    + rewrite lookup_insert_ne in Hy by done. by rewrite lookup_insert_ne in Hvi.
Qed.

Lemma field_add_0 v : canonical v -> field_add_goldilocks v 0 = v.
Proof. intros. unfold field_add_goldilocks. rewrite Z.add_0_r. by apply Z.mod_small. Qed.

(** Updating a variable in its register. *)
Lemma sim_assign sc n st m x old vi v m' :
  sim sc n st m -> n <= 31 -> vars st !! x = Some old -> sc !! x = Some vi -> canonical v ->
  reg m' (v_reg vi) = v -> (forall k, 0 <= k -> k <> v_reg vi -> reg m' k = reg m k) ->
  length (m_regs m') = 32%nat -> m_store m' = m_store m -> m_writes m' = m_writes m ->
  m_logs m' = m_logs m -> sim sc n (set_vars (<[x := v]> (vars st)) st) m'.
Proof.
  intros Hsim Hn Hx Hvi Hv Hreg Hoth Hlen Hsto Hwr Hlog.
  destruct (sim_var _ _ _ _ Hsim x old Hx) as (vi' & E & Hr & _). simplify_eq.
  destruct Hsim. split; simpl; try congruence.
  - rewrite Hoth by lia. done.
  - intros y w Hy. destruct (decide (y = x)) as [->|Hne].
    + rewrite lookup_insert_eq in Hy. simplify_eq. eauto.
    + rewrite lookup_insert_ne in Hy by done. destruct (sim_var0 y w Hy) as (vy & Ey & Hry & Hvy).
      exists vy. split_and!; [done|lia|lia|]. rewrite Hoth; [done|lia|].
      intros Heq. by apply Hne, (sim_inj0 y x vy vi).
  - intros y1 y2 v1 v2 W1 W2. apply sim_inj0.
    + destruct (decide (y1 = x)) as [->|]; [by eexists|by rewrite lookup_insert_ne in W1].
    + destruct (decide (y2 = x)) as [->|]; [by eexists|by rewrite lookup_insert_ne in W2].
  - destruct sim_src0 as [Hv1 Hst0]. split; [|done]. by apply map_Forall_insert_2.
Qed.

Lemma assign_correct fuel x e : stmt_correct (S fuel) (SAssign x e).
Proof.
  start. val_of e v. apply code_at_app in Hat as [Hat1 Hat2]. runE Hat1 Hsim. rewrite <- Hpc in Hat2.
  pose proof (sim_frame _ _ n' _ _ _ Hsim Hfr ltac:(lia)) as Hsim1.
  match goal with E : sc' !! x = Some ?v |- _ => rename v into vi, E into Evi end.
  match goal with E : vars st !! x = Some ?v |- _ =>
    destruct (sim_var _ _ _ _ Hsim x v E) as (vi' & E' & Hr & _) end.
  rewrite Evi in E'. injection E' as <-.
  run1 Hat2 v 0.
  { apply mexec_alu. rewrite Hval, (sim_zero _ _ _ _ Hsim1). simpl. by rewrite field_add_0. }
  exists m1. split; [by eapply reaches_trans|]. split_and!.
  - rewrite Hpc0, Hpc, zlen_app. change (zlen [_]) with 1. lia.
  - eapply sim_assign; eauto; [lia|apply Hfr0..].
  - transitivity (m_stack m0); [apply Hfr0|apply Hfr].
  - intros r Hrange Hno. rewrite Hoth; [apply Hfr; lia|lia|]. intros ->. by eapply Hno.
  - simpl. intros y vy Hy Hvy _. split; [|done].
    destruct (decide (y = x)) as [->|]; [by eexists|by rewrite lookup_insert_ne in Hy].
Qed.

Lemma sim_write sc n st m slot v m' :
  sim sc n st m -> canonical v -> m_regs m' = m_regs m ->
  m_store m' = <[slot := v]> (m_store m) -> m_writes m' = m_writes m ++ [(slot, v)] ->
  m_logs m' = m_logs m -> sim sc n (write_slot slot v st) m'.
Proof.
  intros [] Hv Hr Hs Hw Hl. split; simpl; unfold reg in *; try congruence; auto.
  - by rewrite Hr.
  - destruct sim_src0 as [Hv1 Hst0]. split; [done|]. by apply map_Forall_insert_2.
Qed.

Lemma storage_write_correct fuel x e : stmt_correct (S fuel) (SStorageWrite x e).
Proof.
  start. val_of e v. apply code_at_app in Hat as [Hat1 Hat2]. runE Hat1 Hsim. rewrite <- Hpc in Hat2.
  pose proof (sim_frame _ _ n' _ _ _ Hsim Hfr ltac:(lia)) as Hsim1.
  match goal with E : slots !! x = Some ?s |- _ => rename s into slot; pose proof (Hslots _ _ E) end.
  exists (next (mwrite slot v m0)). split.
  - eapply reaches_trans; [done|]. eapply run_plain; [done|].
    unfold mexec, Vm.storage_slot; simpl. rewrite Hval.
    rewrite (proj2 (Z.eqb_neq slot (-1))) by (simpl in *; lia). done.
  - apply (lands_plain sc' n' st (write_slot slot v st) m); simpl; try done;
      [|by eapply sim_write|apply Hfr|intros; apply Hfr; lia].
    rewrite zlen_app, Hpc. change (zlen [_]) with 1. lia.
Qed.

Lemma mapping_write_correct fuel x k e : stmt_correct (S fuel) (SMappingWrite x k e).
Proof.
  start. apply code_at_app in Hat as [Hat1 Hat2]. runE Hat1 Hsim. rewrite <- Hpc in Hat2.
  apply code_at_app in Hat2 as [Hat2 Hat3]. runE Hat2 Hsim0. rewrite <- Hpc0 in Hat3.
  match goal with E : slots !! x = Some ?s |- _ => rename s into slot; pose proof (Hslots _ _ E) as Hsl end.
  val_of k kv. val_of e v. simpl in Hsl.
  run1 Hat3 slot z1. { rewrite mexec_load, signed_small by lia. done. }
  run1 Hat (poseidon4_hash slot kv) z1.
  { apply mexec_alu. rewrite Hval1, Hoth, (fr_regs _ _ _ Hfr0), Hval by lia. done. }
  assert (Hf : frame n' m m3) by frames.
  exists (next (mwrite (mapping_slot slot kv) v m3)). split.
  - do 4 (eapply reaches_trans; [eassumption|]). eapply run_plain; [done|].
    unfold mexec, Vm.storage_slot; simpl. rewrite Hval2, Hoth0, Hoth, Hval0, mapping_slot_eq by lia. done.
  - apply (lands_plain sc' n' st (write_slot (mapping_slot slot kv) v st) m); try done;
      [| |apply Hf|intros; apply Hf; lia].
    + simpl. rewrite !zlen_app. change (zlen [_; _; _]) with 3. lia.
    + eapply sim_write; [refine (sim_frame _ _ n' _ _ _ Hsim Hf _); lia|done..].
Qed.

Lemma sim_log sc n st m v m' :
  sim sc n st m -> m_regs m' = m_regs m -> m_store m' = m_store m -> m_writes m' = m_writes m ->
  m_logs m' = m_logs m ++ [v] -> sim sc n (log_value v st) m'.
Proof. intros [] Hr Hs Hw Hl. split; simpl; unfold reg in *; try congruence; auto. by rewrite Hr. Qed.

(** Going back to the outer scope: the variables still in scope kept their
    registers. *)
Lemma sim_restrict sc n st m sc' n' st' m' vs :
  sim sc n st m -> sim sc' n' st' m' ->
  (forall x v, vs !! x = Some v -> vars st' !! x = Some v /\ is_Some (vars st !! x)) ->
  (forall x, is_Some (vars st !! x) -> sc' !! x = sc !! x) ->
  sim sc n (set_vars vs st') m'.
Proof.
  intros Hsim [] Hvs Hsc. split; simpl; try done.
  - intros x v Hx. destruct (Hvs x v Hx) as [Hx' [w Hw]].
    destruct (sim_var _ _ _ _ Hsim x w Hw) as (vi & Evi & Hr & _).
    destruct (sim_var0 x v Hx') as (vi' & Evi' & _ & Hv').
    rewrite Hsc, Evi in Evi' by eauto. simplify_eq. eauto.
  - intros x y vx vy [w1 W1] [w2 W2]. apply (sim_inj _ _ _ _ Hsim); [apply (Hvs _ _ W1)|apply (Hvs _ _ W2)].
  - destruct sim_src0 as [Hv Hs]. split; [|done]. intros x v Hx. eapply Hv, Hvs, Hx.
Qed.

Lemma args_correct args sc n c st st' m :
  forallb core_expr args = true -> cemit slots args sc n = Some c -> regs_ok sc -> 1 <= n <= 31 ->
  sim sc n st m -> code_at (m_pc m) c -> emit_all slots ctx args st = Some st' ->
  exists m', reaches m m' /\ m_pc m' = m_pc m + zlen c /\ sim sc n st' m' /\
    m_stack m' = m_stack m /\ (forall r, 1 <= r < n -> reg m' r = reg m r).
Proof.
  revert n c st m. induction args as [|e args IH]; intros n c st m Hcore Hc Hsc Hn Hsim Hat He;
    simpl in Hcore, Hc, He; split_bool; copt.
  { exists m. split_and!; [apply reaches_refl|change (zlen []) with 0; lia|done..]. }
  apply code_at_app in Hat as [Hat1 Hat2]. runE Hat1 Hsim. rewrite <- Hpc in Hat2. val_of e v.
  pose proof Hat2 as Hat3. apply code_at_cons in Hat3 as [_ Hat3].
  assert (Hlog : reaches m0 (next (mlog v m0))).
  { eapply run_plain; [exact Hat2|]. unfold mexec; simpl. by rewrite Hval. }
  match goal with Hc : cemit slots args sc ?n1 = Some _ |- _ => rename n1 into nx end.
  assert (Hsim2 : sim sc nx (log_value v st) (next (mlog v m0))) by (by eapply sim_log).
  match goal with E : cemit slots args sc nx = Some ?c, He : emit_all _ _ args _ = _ |- _ =>
    destruct (IH nx c (log_value v st) (next (mlog v m0)) ltac:(done) E Hsc ltac:(lia) Hsim2 Hat3 He)
      as (m2 & Hr2 & Hp2 & Hs2 & Hst2 & Hreg2); apply emit_vars in He end.
  exists m2. split_and!.
  - eauto using reaches_trans.
  - rewrite Hp2, zlen_app, zlen_cons. simpl. lia.
  - replace st' with (set_vars (vars st') st') by (by destruct st').
    eapply sim_restrict; [exact Hsim|exact Hs2| |done].
    intros y w Hy. split; [done|]. simpl in *. exists w. congruence.
  - rewrite Hst2. apply Hfr.
  - intros r Hr. rewrite Hreg2 by lia. apply Hfr. lia.
Qed.

Lemma emit_correct fuel x args : stmt_correct (S fuel) (SEmit x args).
Proof.
  start. destruct (emit_all _ _ _ _) as [st1|] eqn:He; simplify_eq/=.
  match goal with E : cemit _ _ _ _ = Some _ |- _ =>
    destruct (args_correct _ _ _ _ _ _ _ Hcore E Hsc Hn Hsim Hat He)
      as (m2 & Hr2 & Hp2 & Hs2 & Hst2 & Hreg2) end.
  exists m2. split; [done|]. apply emit_vars in He.
  by apply (lands_plain sc' n' st st1 m).
Qed.

(** Pushing the result over the return address and returning. *)
Lemma return_tail m r n v :
  code_at (m_pc m) [ins OpPush 0 r 0 0; ins OpPush 0 n 0 0; ins OpRet 0 0 0 0] ->
  m_stack m = rest -> reg m r = v -> reg m n = ra ->
  reaches m (goto ra (set_mstack (v :: rest) m)).
Proof.
  intros Hat Hs Hr Hn. apply code_at_cons in Hat as [F1 Hat]. apply code_at_cons in Hat as [F2 Hat].
  apply code_at_cons in Hat as [F3 _]. pose proof (zlen_nonneg rest).
  set (m1 := next (set_mstack (v :: rest) m)). set (m2 := next (set_mstack (ra :: v :: rest) m1)).
  apply (reaches_trans _ _ _ m1); [|apply (reaches_trans _ _ _ m2)].
  - eapply reaches_one; [exact F1|]. unfold mexec; simpl. rewrite Hs, Hr.
    by rewrite (proj2 (Z.leb_gt 1024 _)) by lia.
  - eapply reaches_one; [exact F2|]. unfold mexec; simpl. change (reg m1 n) with (reg m n).
    rewrite Hn, zlen_cons. by rewrite (proj2 (Z.leb_gt 1024 _)) by lia.
  - eapply reaches_one; [exact F3|]. done.
Qed.

Lemma sim_stack sc n st m l : sim sc n st m -> sim sc n st (set_mstack l m).
Proof. intros []. by split. Qed.

(** Popping the top of the stack into a fresh register. *)
Lemma run_pop m n v l c :
  code_at (m_pc m) (ins OpPop n 0 0 0 :: c) -> m_stack m = v :: l -> 0 < n < 32 ->
  length (m_regs m) = 32%nat ->
  let m' := next (set_reg n v (set_mstack l m)) in
  reaches m m' /\ code_at (m_pc m') c /\ reg m' n = v /\
  (forall k, 0 <= k -> k <> n -> reg m' k = reg m k) /\ length (m_regs m') = 32%nat.
Proof.
  intros Hat Hs Hn Hlen m'. apply code_at_cons in Hat as [F Hat]. split_and!.
  - eapply reaches_one; [exact F|]. unfold mexec; simpl. rewrite Hs. by rewrite assign_eq by lia.
  - exact Hat.
  - unfold m'. rewrite reg_next. apply reg_set_same; [done|lia].
  - intros k ??. unfold m'. rewrite reg_next. by rewrite reg_set_other by lia.
  - simpl. by rewrite length_insert.
Qed.

Lemma return_correct fuel e : stmt_correct (S fuel) (SReturn e).
Proof.
  start. match goal with H : creturn _ _ _ _ = _ |- _ => unfold creturn in H end. copt.
  destruct (run_pop m n' ra rest _ Hat Hst) as (Hr1 & Hat1 & Hra & Hoth & Hl1); [lia|done|].
  set (m1 := next _) in *.
  assert (Hsim1 : sim sc' (n' + 1) st m1).
  { refine (sim_frame sc' n' _ st _ _ (sim_stack _ _ _ _ rest Hsim) _ _); [|lia].
    apply frame_assign; lia. }
  assert (Hs1 : m_stack m1 = rest) by done. clearbody m1.
  apply code_at_app in Hat1 as [Hat1 Hat2].
  assert (exists v m2, out = OReturn v st /\ reaches m1 m2 /\ m_pc m2 = m_pc m1 + zlen l /\
    frame (n' + 1) m1 m2 /\ reg m2 z = v) as (v & m2 & -> & Hr2 & Hp2 & Hf2 & Hv2).
  { destruct e as [e|]; copt.
    - runE Hat1 Hsim1. eauto 10.
    - run1 Hat1 0 (n' + 1). { done. } exists 0, m0. split_and!; [done|done|done|frames|done]. }
  rewrite <- Hp2 in Hat2. pose proof (fr_regs _ _ _ Hf2) as Hk.
  exists (goto ra (set_mstack (v :: rest) m2)). split.
  - eapply reaches_trans; [exact Hr1|]. eapply reaches_trans; [exact Hr2|].
    apply (return_tail m2 z n'); [done| |done|rewrite Hk; [done|lia]].
    rewrite (fr_stack _ _ _ Hf2). done.
  - split_and!; [done|done| | | | |]; simpl.
    + rewrite (fr_len _ _ _ Hf2). done.
    + change (reg m2 0 = 0). rewrite Hk by lia. apply Hsim1.
    + rewrite (fr_store _ _ _ Hf2). apply Hsim1.
    + rewrite (fr_writes _ _ _ Hf2). apply Hsim1.
    + rewrite (fr_logs _ _ _ Hf2). apply Hsim1.
Qed.

(** ** Composing outcomes *)

Lemma lands_trans sc n st m sc1 n1 pc1 st1 m1 sc' n' pc' out m' :
  lands sc n st m sc1 n1 pc1 (ONext st1) m1 -> lands sc1 n1 st1 m1 sc' n' pc' out m' -> n <= n1 ->
  lands sc n st m sc' n' pc' out m'.
Proof.
  intros (Hp1 & Hs1 & Hst1 & Hh1 & Ho1) H2 Hn. destruct out; [|exact H2|exact H2].
  destruct H2 as (Hp2 & Hs2 & Hst2 & Hh2 & Ho2).
  split_and!; [done|done|congruence| |].
  - intros r Hr Hno. rewrite Hh2; [by apply Hh1|lia|].
    intros x vi Hx Hvi <-. destruct (Ho1 x vi Hx Hvi ltac:(lia)). by eapply Hno.
  - intros x vi Hx Hvi Hlt. destruct (Ho2 x vi Hx Hvi ltac:(lia)). by apply Ho1.
Qed.

Lemma sim_scope sc n sc' n' st m :
  sim sc n st m -> (forall x, is_Some (vars st !! x) -> sc' !! x = sc !! x) -> n <= n' ->
  sim sc' n' st m.
Proof.
  intros [] Hsc Hn. split; try done.
  - intros x v Hx. destruct (sim_var0 x v Hx) as (vi & ? & ? & ?).
    exists vi. rewrite Hsc by eauto. split_and!; [done|lia|lia|done].
  - intros x y vx vy Hx Hy. rewrite !Hsc by eauto. eauto.
Qed.

(** Starting a block in a scope that agrees on the variables. *)
Lemma lands_base sc n sc1 n1 st m m1 sc' n' pc' out m' :
  lands sc1 n1 st m1 sc' n' pc' out m' -> frame n m m1 -> n <= n1 ->
  (forall x, is_Some (vars st !! x) -> sc1 !! x = sc !! x) ->
  lands sc n st m sc' n' pc' out m'.
Proof.
  intros H Hf Hn Hsc. destruct out; [|exact H|exact H].
  destruct H as (Hp & Hs & Hst & Hh & Ho). split_and!; [done|done| | |].
  - rewrite Hst. apply Hf.
  - intros r Hr Hno. rewrite Hh; [apply Hf; lia|lia|].
    intros x vi Hx Hvi. rewrite Hsc in Hvi by done. by eapply Hno.
  - intros x vi Hx Hvi Hlt. destruct (Ho x vi Hx Hvi ltac:(lia)) as [? E]. by rewrite Hsc in E.
Qed.

(** Ending a block: its variables go, those of the outer scope stay put. *)
Lemma lands_leave sc n st m sc' n' pc' out m' sc'' n'' :
  lands sc n st m sc' n' pc' out m' -> sim sc n st m -> n <= n'' ->
  (forall x, is_Some (vars st !! x) -> sc' !! x = sc !! x /\ sc'' !! x = sc !! x) ->
  lands sc n st m sc'' n'' pc' (leave (vars st) out) m'.
Proof.
  intros H Hsim Hn Hsc. destruct out as [st'| |]; [|exact H|exact H].
  destruct H as (Hp & Hs & Hst & Hh & Ho). simpl.
  assert (Hvs : forall x v, (vars st' ∩ vars st) !! x = Some v ->
            vars st' !! x = Some v /\ is_Some (vars st !! x)).
  { intros x v. rewrite lookup_intersection_Some. auto. }
  split_and!; [done| |done|done|].
  - eapply sim_scope; [eapply sim_restrict; [exact Hsim|exact Hs|exact Hvs|]| |done].
    + intros x Hx. by apply Hsc.
    + simpl. intros x [v Hx]. apply Hsc. by apply (Hvs x v).
  - intros x vi [v Hx] Hvi _. destruct (Hvs x v Hx) as [_ Hx']. split; [done|].
    by rewrite (proj2 (Hsc x Hx')) in Hvi.
Qed.

Lemma lands_scope sc n st m sc1 n1 pc' st' m' sc' n' :
  lands sc n st m sc1 n1 pc' (ONext st') m' ->
  (forall x, is_Some (vars st' !! x) -> sc' !! x = sc1 !! x) -> n1 <= n' ->
  lands sc n st m sc' n' pc' (ONext st') m'.
Proof.
  intros (Hp & Hs & Hst & Hh & Ho) Hsc Hn. split_and!; [done|by eapply sim_scope|done|done|].
  intros x vi Hx Hvi. rewrite Hsc in Hvi by done. by apply Ho.
Qed.

Lemma lands_goto sc n st m sc' n' pc' st' m' pc2 :
  lands sc n st m sc' n' pc' (ONext st') m' ->
  lands sc n st m sc' n' pc2 (ONext st') (goto pc2 m').
Proof.
  intros (Hp & Hs & Hst & Hh & Ho). split_and!; [done| |done|done|done].
  destruct Hs. by split.
Qed.

Lemma run_jmp m off c :
  code_at (m_pc m) (ins OpJmp 0 0 0 off :: c) -> 0 <= m_pc m + off < I32_HALF ->
  reaches m (goto (m_pc m + off) m).
Proof.
  intros Hat Ho. eapply run_plain; [exact Hat|]. unfold mexec; simpl. by rewrite jump_small.
Qed.

Lemma run_jnz m r off c :
  code_at (m_pc m) (ins OpJnz 0 r 0 off :: c) -> 0 <= m_pc m + off < I32_HALF ->
  reaches m (goto (if reg m r =? 0 then m_pc m + 1 else m_pc m + off) m).
Proof.
  intros Hat Ho. eapply run_plain; [exact Hat|]. unfold mexec; simpl.
  destruct (reg m r =? 0); simpl; [done|]. by rewrite jump_small.
Qed.

Lemma block_step fuel l :
  (forall s, stmt_correct fuel s) -> (forall l, block_correct fuel l) -> block_correct (S fuel) l.
Proof.
  intros IHs IHb outer locals sc n c sc' n' st out m Hcore Hs Hc Hsc Hn Hdom Hsim Hst Hat Hrun.
  destruct l as [|s l].
  { simpl in Hc, Hrun. simplify_eq. exists m. split; [apply reaches_refl|].
    apply lands_plain; try done. change (zlen []) with 0. lia. }
  rewrite cblock_cons in Hc. simpl in Hcore, Hs, Hrun. split_bool. copt.
  apply code_at_app in Hat as [Hat1 Hat2]. rewrite zlen_app.
  destruct (cstmt_ok slots s _ _ _ _ _ Hsc Hn H5) as [Hsc1 Hn1].
  destruct (IHs s _ _ _ _ _ _ _ _ _ _ H1 H H5 Hsc Hn Hdom Hsim Hst Hat1 H3) as (m1 & Hr1 & Hl1).
  destruct x as [st1| |]; simpl in H4; simplify_eq; [|by exists m1..].
  pose proof Hl1 as (Hp1 & Hs1 & Hst1 & _). rewrite <- Hp1 in Hat2. rewrite Hst in Hst1.
  apply run_dom in H3.
  edestruct (IHb l) as (m2 & Hr2 & Hl2);
    [exact H2|exact H0|exact H6|exact Hsc1|lia| |exact Hs1|exact Hst1|exact Hat2|exact H4|]; [set_solver|].
  exists m2. split; [by eapply reaches_trans|].
  rewrite Hp1, <- Z.add_assoc in Hl2. by eapply lands_trans; [exact Hl1|exact Hl2|lia].
Qed.

(** The names visible at a block's start keep their registers. *)
Lemma visible outer locals st x :
  dom (vars st) ⊆ outer ∪ locals -> is_Some (vars st !! x) -> x ∈ outer ∪ locals.
Proof. intros Hd Hx. apply Hd. by apply elem_of_dom. Qed.

(** A nested block, from a machine that differs in temporaries only. *)
Lemma nested_block fuel b outer sc n st m m1 sc1 n1 c sc2 n2 sc' n' out :
  block_correct fuel b -> forallb core_stmt b = true -> sound_block outer ∅ b = true ->
  cblock slots b sc1 n1 = Some (c, sc2, n2) -> regs_ok sc1 -> 1 <= n <= n1 -> n1 <= 31 ->
  dom (vars st) ⊆ outer -> sim sc n st m -> frame n m m1 -> m_stack m = ra :: rest ->
  (forall x, x ∈ outer -> sc1 !! x = sc !! x) -> (forall x, x ∈ outer -> sc' !! x = sc !! x) -> n <= n' ->
  code_at (m_pc m1) c -> run_block slots ctx fuel b st = Some out ->
  exists m', reaches m1 m' /\
    lands sc n st m sc' n' (m_pc m1 + zlen c) (leave (vars st) out) m'.
Proof.
  intros IHb Hcore Hs Hc Hsc1 Hn Hn1 Hdom Hsim Hf Hst Hsc Hsc' Hn' Hat Hrun.
  assert (Hin : forall x, is_Some (vars st !! x) -> x ∈ outer).
  { intros x Hx. apply Hdom. by apply elem_of_dom. }
  destruct (IHb outer ∅ sc1 n1 c sc2 n2 st out m1) as (m' & Hr & Hl); try done; [lia|set_solver| | |].
  - eapply sim_scope; [refine (sim_frame _ _ n _ _ _ Hsim Hf _); lia|auto|lia].
  - rewrite (fr_stack _ _ _ Hf). done.
  - exists m'. split; [done|].
    eapply lands_leave; [|exact Hsim|done|].
    + eapply lands_base; [exact Hl|exact Hf|lia|auto].
    + intros x Hx%Hin. split; [|auto]. rewrite <- (Hsc x Hx). by eapply cblock_keeps.
Qed.

Lemma if_correct fuel e th el : (forall l, block_correct fuel l) -> stmt_correct (S fuel) (SIf e th el).
Proof.
  intros IHb. start. val_of e v. rename l0 into cf, l1 into ct.
  assert (Hcf : cblock slots (default [] el) sc n = Some (cf, g, z1)) by (by destruct el).
  assert (Hcoref : forallb core_stmt (default [] el) = true) by (by destruct el).
  assert (Hsf : sound_block (outer ∪ locals) ∅ (default [] el) = true) by (by destruct el).
  change (cblock slots th g z1 = Some (ct, sc', n')) in H8.
  destruct (cblock_ok slots _ _ _ _ _ _ Hsc Hn Hcf) as [Hsc1 Hn1].
  destruct (cblock_ok slots th g z1 _ _ _ Hsc1 ltac:(lia) H8) as [_ Hn2].
  assert (Hk1 : forall x, x ∈ outer ∪ locals -> g !! x = sc !! x) by (intros; by eapply cblock_keeps).
  assert (Hk2 : forall x, x ∈ outer ∪ locals -> sc' !! x = sc !! x).
  { intros x Hx. rewrite <- Hk1 by done. by apply (cblock_keeps slots th (outer ∪ locals) ∅ g z1 ct sc' n'). }
  pose proof (code_at_bound _ Hsize _ _ Hat) as [Hpc0 Hpcb].
  rewrite !zlen_app, !zlen_cons, !zlen_app, !zlen_cons in *.
  pose proof (zlen_nonneg l). pose proof (zlen_nonneg cf). pose proof (zlen_nonneg ct).
  apply code_at_app in Hat as [Hat1 Hat2]. runE Hat1 Hsim. rewrite <- Hpc in Hat2.
  pose proof (run_jnz m0 z0 (zlen cf + 2) _ Hat2 ltac:(lia)) as Hj. rewrite Hval in Hj. clear Hval.
  apply code_at_cons in Hat2 as [_ Hat2]. apply code_at_app in Hat2 as [Hatf Hatt].
  pose proof Hatt as Hatj. apply code_at_cons in Hatt as [_ Hatt].
  destruct (run_block slots ctx fuel _ st) as [o|] eqn:Hb; simplify_eq/=.
  destruct (Z.eqb_spec v 0) as [->|Hv]; simpl in Hb.
  - destruct (nested_block fuel (default [] el) (outer ∪ locals) sc n st m (goto (m_pc m0 + 1) m0)
                sc n cf g z1 sc' n' o) as (m2 & Hr2 & Hl2); auto; try lia.
    { eapply frame_trans; [exact Hfr|apply frame_goto]. }
    destruct (leave (vars st) o) as [st2| |] eqn:Ho;
      [|exists m2; split; [eauto using reaches_trans|exact Hl2]..].
    pose proof Hl2 as (Hp2 & _). simpl in Hp2. rewrite <- Hp2 in Hatj.
    exists (goto (m_pc m2 + (zlen ct + 1)) m2). split.
    + do 3 (eapply reaches_trans; [eassumption|]). eapply run_jmp; [exact Hatj|lia].
    + replace (m_pc m + (zlen l + (1 + (zlen cf + (1 + zlen ct))))) with (m_pc m2 + (zlen ct + 1)) by lia.
      eapply lands_goto, Hl2.
  - destruct (nested_block fuel th (outer ∪ locals) sc n st m (goto (m_pc m0 + (zlen cf + 2)) m0)
                g z1 ct sc' n' sc' n' o) as (m2 & Hr2 & Hl2); auto; try lia.
    { eapply frame_trans; [exact Hfr|apply frame_goto]. }
    { simpl. by replace (m_pc m0 + (zlen cf + 2)) with (m_pc m0 + 1 + zlen cf + 1) by lia. }
    exists m2. split; [eauto using reaches_trans|]. simpl in Hl2.
    by replace (m_pc m + (zlen l + (1 + (zlen cf + (1 + zlen ct)))))
      with (m_pc m0 + (zlen cf + 2) + zlen ct) by lia.
Qed.

Lemma while_correct fuel e b :
  (forall l, block_correct fuel l) -> (forall s, stmt_correct fuel s) -> stmt_correct (S fuel) (SWhile e b).
Proof.
  intros IHb IHs. intros outer locals sc n c sc' n' st out m Hcore Hs Hc Hsc Hn Hdom Hsim Hst Hat Hrun.
  pose proof (conj Hcore (conj Hs (conj Hc Hat))) as (Hcore0 & Hs0 & Hc0 & Hat0).
  simpl in Hcore, Hs, Hc, Hrun. split_bool. copt. val_of e v. rename l0 into cb.
  match goal with H : clist _ b sc n = _ |- _ => change (cblock slots b sc n = Some (cb, sc', n')) in H;
    destruct (cblock_ok slots _ _ _ _ _ _ Hsc Hn H) as [Hsc' Hn']; rename H into Hcb end.
  assert (Hk : forall x, x ∈ outer ∪ locals -> sc' !! x = sc !! x) by (intros; by eapply cblock_keeps).
  pose proof (code_at_bound _ Hsize _ _ Hat) as [Hpc0 Hpcb].
  rewrite !zlen_app, !zlen_cons, !zlen_app, !zlen_cons in *.
  change (zlen []) with 0 in *. pose proof (zlen_nonneg l). pose proof (zlen_nonneg cb).
  apply code_at_app in Hat as [Hat1 Hat2]. runE Hat1 Hsim. rewrite <- Hpc in Hat2.
  pose proof (run_jnz m0 z0 2 _ Hat2 ltac:(lia)) as Hj. rewrite Hval in Hj. clear Hval.
  apply code_at_cons in Hat2 as [_ Hate]. pose proof Hate as Hat2. apply code_at_cons in Hat2 as [_ Hat2].
  apply code_at_app in Hat2 as [Hatb Hatj].
  destruct (Z.eqb_spec v 0) as [->|Hv].
  - simplify_eq. exists (goto (m_pc m0 + 1 + (zlen cb + 2)) m0). split.
    + do 2 (eapply reaches_trans; [eassumption|]).
      eapply (run_jmp (goto (m_pc m0 + 1) m0)); [exact Hate|simpl; lia].
    + eapply (lands_scope _ _ _ _ sc n); [|intros; apply Hk; by eapply visible|lia].
      apply lands_plain; try done; [simpl; lia| |apply Hfr|intros; apply Hfr; lia].
      refine (sim_frame _ n n _ _ _ Hsim _ _); [|lia].
      eapply frame_trans; [exact Hfr|apply frame_goto].
  - match goal with H : _ ≫= _ = Some out |- _ => apply bind_Some in H as (x & Hb & Hnext) end.
    destruct (nested_block fuel b (outer ∪ locals) sc n st m (goto (m_pc m0 + 2) m0)
                sc n cb sc' n' sc n x) as (m2 & Hr2 & Hl2); auto; try lia.
    { eapply frame_trans; [exact Hfr|apply frame_goto]. }
    { simpl. by replace (m_pc m0 + 2) with (m_pc m0 + 1 + 1) by lia. }
    destruct (leave (vars st) x) as [st2| |] eqn:Ho; simpl in Hnext;
      [|injection Hnext as <-; exists m2; split; [eauto using reaches_trans|exact Hl2]..].
    assert (Hd2 : dom (vars st2) ⊆ outer ∪ locals).
    { destruct x; simplify_eq/=. rewrite dom_intersection_L. set_solver. }
    pose proof Hl2 as (Hp2 & Hs2 & Hst2 & _). simpl in Hp2.
    replace (m_pc m0 + 1 + 1 + zlen cb) with (m_pc m2) in Hatj by lia.
    pose proof (run_jmp m2 _ _ Hatj ltac:(lia)) as Hback.
    replace (m_pc m2 + - (zlen l + zlen cb + 2)) with (m_pc m) in Hback by lia.
    apply (lands_goto _ _ _ _ _ _ _ _ _ (m_pc m)) in Hl2.
    pose proof Hl2 as (_ & Hs3 & _).
    edestruct (IHs (SWhile e b) outer locals sc n) as (m4 & Hr4 & Hl4);
      [exact Hcore0|exact Hs0|exact Hc0|exact Hsc|exact Hn|exact Hd2|exact Hs3| |exact Hat0|eassumption|].
    { simpl. congruence. }
    exists m4. split; [eauto using reaches_trans|].
    rewrite !zlen_app, !zlen_cons, !zlen_app, !zlen_cons in Hl4.
    eapply lands_trans; [exact Hl2|exact Hl4|lia].
Qed.

(** ** For loops *)

Section for_loop.
Variables (x : string) (body : list Stmt) (outer : gset string).
Variables (sc : Scope) (L re n2 bound h : Z) (cb : list Instruction) (sc2 : Scope).
Let sx : Scope := <[x := mkVar L None]> sc.
Let st_x (i : Z) (st : Src) : Src := set_vars (<[x := i]> (vars st)) st.

Hypothesis Hcore : forallb core_stmt body = true.
Hypothesis Hsound : sound_block outer ∅ body = true.
Hypothesis Hbody : cblock slots body sx (L + 1) = Some (cb, sc2, n2).
Hypothesis Hregs : regs_ok sx.
Hypothesis HL : 1 <= re < L /\ L < 30 /\ n2 < 31.

Definition loop_code : list Instruction :=
  [ins OpLt (L + 1) L re 0; ins OpJnz 0 (L + 1) 0 2; ins OpJmp 0 0 0 (zlen cb + 4)] ++ cb ++
  [ins OpLoad n2 0 0 1; ins OpAdd L L n2 0; ins OpJmp 0 0 0 (- (zlen cb + 5))].
Hypothesis Hat : code_at h loop_code.

(** The machine at the head of the loop, the counter in its register. *)
Record at_head (i : Z) (st : Src) (m : MState) : Prop := {
  hd_pc : m_pc m = h;
  hd_sim : sim sx (L + 1) (st_x i st) m;
  hd_bound : reg m re = bound;
  hd_stack : m_stack m = ra :: rest;
  hd_dom : dom (vars (st_x i st)) ⊆ outer;
  hd_free : forall y vi, is_Some (vars (st_x i st) !! y) -> sx !! y = Some vi -> v_reg vi <> re;
}.

(** Back at the head with the counter increased. *)
Lemma loop_next i st m st2 i2 m2 :
  at_head i st m -> vars st2 !! x = Some i2 -> (forall y, is_Some (vars st2 !! y) -> is_Some (vars (st_x i st) !! y)) ->
  lands sx (L + 1) (st_x i st) m sx (L + 1) (h + 3 + zlen cb) (ONext st2) m2 ->
  exists m3, reaches m2 m3 /\ at_head (field_add_goldilocks i2 1) st2 m3 /\
    lands sx (L + 1) (st_x i st) m sx (L + 1) h (ONext (st_x (field_add_goldilocks i2 1) st2)) m3.
Proof.
  intros Hhd Hi2 Hsub Hl. pose proof Hl as (Hp & Hs & Hst & Hh & Ho).
  destruct (cblock_ok slots body sx (L + 1) _ _ _ Hregs ltac:(lia) Hbody) as [_ Hn2].
  pose proof (code_at_bound _ Hsize _ _ Hat) as [Hh0 Hhb]. unfold loop_code in Hat, Hhb.
  rewrite zlen_app, zlen_app in Hhb. change (zlen [_; _; _]) with 3 in Hhb. pose proof (zlen_nonneg cb).
  apply code_at_app in Hat as [_ Hat2]. apply code_at_app in Hat2 as [_ Hat3].
  change (zlen [_; _; _]) with 3 in Hat3. rewrite <- Hp in Hat3.
  pose proof (sim_len _ _ _ _ Hs) as Hlen2.
  destruct (sim_var _ _ _ _ Hs x i2 Hi2) as (vi & Evi & _ & HregL).
  unfold sx in Evi. rewrite lookup_insert_eq in Evi. injection Evi as <-. simpl in HregL.
  run1 Hat3 1 (L + 1). { by rewrite mexec_load. }
  run1 Hat (field_add_goldilocks i2 1) L.
  { apply mexec_alu. rewrite Hval, Hoth, HregL by lia. done. }
  pose proof (run_jmp m1 _ _ Hat0 ltac:(lia)) as Hj.
  replace (m_pc m1 + - (zlen cb + 5)) with h in Hj by lia.
  assert (Hs3 : sim sx (L + 1) (st_x (field_add_goldilocks i2 1) st2) (goto h m1)).
  { eapply (sim_assign sx (L + 1) st2 m0 x i2 (mkVar L None)); try done;
      [refine (sim_frame _ (L + 1) _ _ _ _ Hs Hfr _); lia|lia|apply lookup_insert_eq
      |apply mod_canonical|apply Hfr0..]. }
  assert (Hkeep : forall r, 1 <= r < L -> reg m1 r = reg m2 r).
  { intros r Hr. rewrite Hoth0 by lia. apply Hfr. lia. }
  assert (Hsub' : forall y, is_Some (vars (st_x (field_add_goldilocks i2 1) st2) !! y) ->
            is_Some (vars (st_x i st) !! y)).
  { intros y Hy. simpl in *. destruct (decide (y = x)) as [->|Hne]; [rewrite lookup_insert_eq; eauto|].
    rewrite lookup_insert_ne in Hy by done. auto. }
  assert (Hst1 : m_stack m1 = m_stack m).
  { rewrite (fr_stack _ _ _ Hfr0), (fr_stack _ _ _ Hfr). done. }
  exists (goto h m1). split; [eauto using reaches_trans|]. split.
  - split; try done.
    + rewrite reg_goto, Hkeep, Hh by (try apply Hhd; lia). apply Hhd.
    + simpl. rewrite Hst1. apply Hhd.
    + intros y Hy. apply elem_of_dom, Hsub', elem_of_dom in Hy. by apply (hd_dom _ _ _ Hhd).
    + intros y vi Hy. apply (hd_free _ _ _ Hhd), Hsub', Hy.
  - split_and!; [done|done|done| |].
    + intros r Hr Hno. assert (r <> L).
      { intros ->. eapply (Hno x (mkVar L None)); [|apply lookup_insert_eq|done].
        simpl. rewrite lookup_insert_eq. eauto. }
      rewrite reg_goto, Hkeep by lia. apply Hh; [lia|done].
    + intros y vi Hy Hvi Hlt. split; [by apply Hsub'|done].
Qed.

Lemma loop_correct fuel i st m out :
  (forall k, (k < fuel)%nat -> forall l, block_correct k l) ->
  at_head i st m -> canonical i -> run_for slots ctx fuel x i bound body st = Some out ->
  exists m', reaches m m' /\
    lands sx (L + 1) (st_x i st) m sx (L + 1) (h + zlen loop_code) out m'.
Proof.
  revert i st m. induction fuel as [|fuel IH]; intros i st m IHb Hhd Hi Hrun; [done|].
  assert (Hlen : zlen loop_code = zlen cb + 6).
  { unfold loop_code. rewrite !zlen_app. change (zlen [_; _; _]) with 3. lia. }
  pose proof (code_at_bound _ Hsize _ _ Hat) as [Hh0 Hhb]. rewrite Hlen in Hhb.
  pose proof (zlen_nonneg cb). pose proof Hhd as [Hpc Hsim Hbd Hst Hdom Hfree].
  destruct (cblock_ok slots body sx (L + 1) _ _ _ Hregs ltac:(lia) Hbody) as [_ Hn2].
  destruct (sim_var _ _ _ _ Hsim x i) as (vi & Evi & _ & HregL); [by simpl; rewrite lookup_insert_eq|].
  unfold sx in Evi. rewrite lookup_insert_eq in Evi. injection Evi as <-. simpl in HregL.
  pose proof Hat as Hat1. unfold loop_code in Hat1. cbn [app] in Hat1. rewrite <- Hpc in Hat1.
  pose proof (sim_len _ _ _ _ Hsim) as Hlen1.
  run1 Hat1 (Vm.b2z (i <? bound)) (L + 1). { apply mexec_alu. by rewrite HregL, Hbd. }
  pose proof (run_jnz m0 _ _ _ Hat0 ltac:(lia)) as Hj. rewrite Hval in Hj.
  apply code_at_cons in Hat0 as [_ Hate]. pose proof Hate as Hatb. apply code_at_cons in Hatb as [_ Hatb].
  apply code_at_app in Hatb as [Hatb _].
  simpl in Hrun. destruct (Z.ltb_spec i bound) as [Hlt|Hge]; simpl in Hj.
  - change (set_vars (<[x := i]> (vars st)) st) with (st_x i st) in Hrun.
    apply bind_Some in Hrun as (o & Hb & Hnext).
    destruct (nested_block fuel body outer sx (L + 1) (st_x i st) m (goto (m_pc m0 + 2) m0)
                sx (L + 1) cb sc2 n2 sx (L + 1) o) as (m2 & Hr2 & Hl2); auto; try lia.
    { eapply frame_trans; [exact Hfr|apply frame_goto]. }
    { simpl. by replace (m_pc m0 + 2) with (m_pc m0 + 1 + 1) by lia. }
    change (<[x := i]> (vars st)) with (vars (st_x i st)) in Hnext.
    simpl m_pc in Hl2. replace (m_pc m0 + 2 + zlen cb) with (h + 3 + zlen cb) in Hl2 by lia.
    destruct (leave (vars (st_x i st)) o) as [st2| |] eqn:Ho; simpl in Hnext;
      [|injection Hnext as <-; exists m2; split; [eauto using reaches_trans|exact Hl2]..].
    apply bind_Some in Hnext as (i2 & Hi2 & Hnext).
    assert (Hsub : forall y, is_Some (vars st2 !! y) -> is_Some (vars (st_x i st) !! y)).
    { intros y [w Hy]. destruct o; try discriminate Ho. injection Ho as <-. simpl in Hy.
      by apply lookup_intersection_Some in Hy as [_ Hy]. }
    destruct (loop_next i st m st2 i2 m2 Hhd Hi2 Hsub Hl2) as (m3 & Hr3 & Hhd3 & Hl3).
    destruct (IH _ _ m3 ltac:(intros; apply IHb; lia) Hhd3 (mod_canonical _) Hnext) as (m4 & Hr4 & Hl4).
    exists m4. split; [eauto using reaches_trans|].
    eapply lands_trans; [exact Hl3|exact Hl4|lia].
  - injection Hrun as <-. exists (goto (m_pc m0 + 1 + (zlen cb + 4)) m0). split.
    + do 2 (eapply reaches_trans; [eassumption|]).
      eapply (run_jmp (goto (m_pc m0 + 1) m0)); [exact Hate|simpl; lia].
    + apply lands_plain; try done; [simpl; lia| |simpl; apply Hfr|intros; apply Hfr; lia].
      refine (sim_frame _ (L + 1) (L + 1) _ _ _ Hsim _ _); [|lia].
      eapply frame_trans; [exact Hfr|apply frame_goto].
Qed.
End for_loop.

Lemma for_correct fuel x a e b :
  (forall k, (k < fuel)%nat -> forall l, block_correct k l) -> stmt_correct (S fuel) (SFor x a e b).
Proof.
  intros IHb. start. val_of a i. val_of e bound. rename l1 into cb, z1 into L, z2 into re, z3 into n2.
  match goal with H : cexpr slots e sc' z = Some _ |- _ =>
    pose proof (cexpr_reg slots a sc' n' _ _ _ Hsc ltac:(eassumption) Hn) as [_ Hz];
    pose proof (cexpr_result slots e sc' z _ _ _ Hsc H ltac:(lia)) as Hres end.
  destruct Hres as [(y & vi & -> & _)|(_ & Hre & _)]; [done|].
  set (sx := <[x := mkVar L None]> sc') in *.
  rewrite !zlen_app, !zlen_cons, zlen_app.
  apply code_at_app in Hat as [Hat1 Hat2]. apply code_at_app in Hat2 as [Hat2 Hat3].
  runE Hat1 Hsim. rewrite <- Hpc in Hat2, Hat3. runE Hat2 Hsim0. rewrite <- Hpc0 in Hat3.
  run1 Hat3 i L.
  { apply mexec_alu. rewrite (fr_regs _ _ _ Hfr0), Hval by lia.
    rewrite (sim_zero _ _ _ _ Hsim1). simpl. by rewrite field_add_0. }
  assert (Hf : frame n' m m2) by frames.
  assert (Hxn : vars st !! x = None).
  { apply not_elem_of_dom. set_solver. }
  assert (Hsx : forall y, is_Some (vars st !! y) -> sx !! y = sc' !! y).
  { intros y Hy. unfold sx. rewrite lookup_insert_ne; [done|]. intros ->. rewrite Hxn in Hy. by destruct Hy. }
  assert (Hregs : regs_ok sx) by (apply map_Forall_insert_2; [simpl; lia|done]).
  destruct (run_for _ _ _ _ _ _ _ _) as [o|] eqn:Hfor; simplify_eq/=.
  assert (Hhd : at_head x (outer ∪ locals ∪ {[x]}) sc' L re (reg m1 re) (m_pc m2) (reg m0 z0) st m2).
  { split; try done.
    - apply (sim_bind sc' L); [refine (sim_frame _ L L _ _ _ Hsim1 Hfr1 _); lia|lia|lia|done|done].
    - apply Hoth; lia.
    - rewrite (fr_stack _ _ _ Hf). done.
    - simpl. rewrite dom_insert_L. set_solver.
    - intros y vi Hy Hvi. simpl in Hy. destruct (decide (y = x)) as [->|Hne].
      + rewrite lookup_insert_eq in Hvi. injection Hvi as <-. simpl. lia.
      + rewrite lookup_insert_ne in Hy by done. rewrite lookup_insert_ne in Hvi by done.
        destruct Hy as [w Hw]. destruct (sim_var _ _ _ _ Hsim y w Hw) as (vi' & ? & ? & _).
        simplify_eq. lia. }
  match goal with Hc : forallb core_stmt b = true, Hs : sound_list _ ∅ b = true,
                  Hb : clist _ b _ _ = Some _ |- _ =>
    destruct (loop_correct x b (outer ∪ locals ∪ {[x]}) sc' L re n2 (reg m1 re) (m_pc m2) cb g
                Hc Hs Hb Hregs ltac:(lia) Hat fuel (reg m0 z0) st m2 o IHb Hhd Hcan Hfor)
      as (m' & Hr' & Hl') end.
  assert (Hlc : zlen (loop_code L re n2 cb) = zlen cb + 6).
  { unfold loop_code. rewrite !zlen_app. change (zlen [_; _; _]) with 3. lia. }
  exists m'. split; [eauto using reaches_trans|]. change (zlen [_; _; _]) with 3.
  destruct o as [st2| |]; [|exact Hl'|exact Hl'].
  destruct Hl' as (Hp' & Hs' & Hst' & Hh' & _). fold sx in Hs', Hh'.
  assert (Hvs : forall y v, (vars st2 ∩ vars st) !! y = Some v ->
            vars st2 !! y = Some v /\ is_Some (vars st !! y)).
  { intros y v. rewrite lookup_intersection_Some. auto. }
  split_and!.
  - lia.
  - eapply sim_restrict; [exact Hsim|exact Hs'|exact Hvs|exact Hsx].
  - rewrite Hst'. apply Hf.
  - intros r Hr Hno. rewrite Hh'; [apply Hf; lia|lia|].
    intros y vi Hy Hvi. simpl in Hy. destruct (decide (y = x)) as [->|Hne].
    + unfold sx in Hvi. rewrite lookup_insert_eq in Hvi. injection Hvi as <-. simpl. lia.
    + rewrite lookup_insert_ne in Hy by done. rewrite Hsx in Hvi by done. by eapply Hno.
  - simpl. intros y vi [v Hy] Hvi _. split; [by apply (Hvs y v)|done].
Qed.

(** ** Matches *)

Lemma field_sub_zero a b :
  canonical a -> canonical b -> (field_sub_goldilocks a b =? 0) = (a =? b).
Proof.
  unfold canonical, field_sub_goldilocks. intros Ha Hb. rewrite (Z.mod_small b) by done.
  destruct (Z.eqb_spec a b) as [->|Hne].
  - replace (b + GOLDILOCKS_P - b) with GOLDILOCKS_P by lia. rewrite Z.mod_same by done. done.
  - apply Z.eqb_neq. intros E. apply Z.mod_divide in E as [q Hq]; [|done].
    unfold GOLDILOCKS_P in *. lia.
Qed.

(** The failing test of an arm skips its body and its end jump. *)
Lemma arm_test p r n len ct m v c :
  carm_test p r n len = Some ct -> sound_pattern p = true -> 1 <= r < n -> n <= 31 ->
  code_at (m_pc m) (ct ++ c) -> length (m_regs m) = 32%nat -> reg m r = v -> canonical v ->
  0 <= len -> m_pc m + zlen ct + len + 1 < I32_HALF ->
  exists m', reaches m m' /\ frame n m m' /\
    m_pc m' = m_pc m + zlen ct + (if pattern_matches p v then 0 else len + 1).
Proof.
  intros Ht Hp Hr Hn Hat Hlen Hv Hcan Hl Hb. pose proof (code_at_bound _ Hsize _ _ Hat) as [Hpc0 _].
  subst v. destruct p as [lit|]; simpl in *.
  - copt. split_bool. rewrite i32_small in Hat by lia.
    run1 Hat lit n. { rewrite mexec_load, signed_small by lia. done. }
    run1 Hat0 (field_sub_goldilocks (reg m r) lit) n. { apply mexec_alu. by rewrite Hval, Hoth by lia. }
    change (zlen [_; _; _]) with 3 in *.
    pose proof (run_jnz m1 _ _ _ Hat1 ltac:(lia)) as Hj. rewrite Hval0, field_sub_zero in Hj.
    2: done. 2: unfold canonical, GOLDILOCKS_P; lia.
    eexists. split; [do 2 (eapply reaches_trans; [eassumption|]); exact Hj|]. split.
    + apply (frame_trans _ _ m1); [frames|apply frame_goto].
    + simpl. destruct (reg m r =? lit); lia.
  - simplify_eq. exists m. split_and!; [apply reaches_refl|apply frame_refl|].
    change (zlen []) with 0. lia.
Qed.

Lemma arms_correct fuel arms outer sc n st m m1 sc1 r v c sc2 scf out :
  (forall l, block_correct fuel l) ->
  forallb (fun a => forallb core_stmt a.2) arms = true ->
  forallb (fun a => sound_pattern a.1 && sound_list (sound_stmt outer) ∅ a.2) arms = true ->
  carms (cstmt slots) r n arms sc1 = Some (c, sc2) -> regs_ok sc1 -> 1 <= r < n -> n <= 31 ->
  dom (vars st) ⊆ outer -> sim sc n st m -> frame n m m1 -> m_stack m = ra :: rest ->
  (forall x, x ∈ outer -> sc1 !! x = sc !! x) -> (forall x, x ∈ outer -> scf !! x = sc !! x) ->
  reg m r = v -> canonical v -> code_at (m_pc m1) c ->
  run_block slots ctx fuel (pick_arm v arms) st = Some out ->
  exists m', reaches m1 m' /\
    lands sc n st m scf n (m_pc m1 + zlen c) (leave (vars st) out) m'.
Proof.
  intros IHb. revert m1 sc1 c. induction arms as [|[p body] arms IH];
    intros m1 sc1 c Hcore Hs Hc Hsc1 Hr Hn Hdom Hsim Hf Hst Hk1 Hkf Hv Hcan Hat Hrun.
  { simpl in Hc. simplify_eq. eapply (nested_block fuel [] outer sc n st m m1 sc2 n [] sc2 n); auto; lia. }
  rewrite carms_cons in Hc. simpl in Hcore, Hs, Hrun. split_bool. copt.
  rename x into ct, l into cb, l0 into ce, g into sg, z into ng.
  pose proof (code_at_bound _ Hsize _ _ Hat) as [Hpc0 Hpcb].
  rewrite !zlen_app, zlen_cons in Hpcb |- *.
  pose proof (zlen_nonneg ct). pose proof (zlen_nonneg cb). pose proof (zlen_nonneg ce).
  assert (Hlen1 : length (m_regs m1) = 32%nat) by (rewrite (fr_len _ _ _ Hf); apply Hsim).
  destruct (arm_test p r n (zlen cb) ct m1 (reg m r) _ H5 H Hr Hn Hat Hlen1 ltac:(apply Hf; lia)
              Hcan ltac:(lia) ltac:(lia)) as (m2 & Hr2 & Hf2 & Hp2).
  apply code_at_app in Hat as [_ Hat]. pose proof Hat as Hatb.
  apply code_at_app in Hatb as [Hatb Hate].
  assert (Hf12 : frame n m m2) by (by eapply frame_trans).
  destruct (pattern_matches p (reg m r)).
  - replace (m_pc m1 + zlen ct) with (m_pc m2) in Hatb, Hate by lia.
    destruct (nested_block fuel body outer sc n st m m2 sc1 n cb sg ng scf n out)
      as (m3 & Hr3 & Hl3); auto; try lia.
    destruct (leave (vars st) out) as [st'| |]; [|exists m3; split; [by eapply reaches_trans|exact Hl3]..].
    pose proof Hl3 as (Hp3 & _). rewrite <- Hp3 in Hate.
    exists (goto (m_pc m3 + (zlen ce + 1)) m3). split.
    + do 2 (eapply reaches_trans; [eassumption|]). eapply run_jmp; [exact Hate|lia].
    + replace (m_pc m1 + (zlen ct + (zlen cb + (1 + zlen ce)))) with (m_pc m3 + (zlen ce + 1)) by lia.
      eapply lands_goto; exact Hl3.
  - apply code_at_cons in Hate as [_ Hate].
    replace (m_pc m1 + zlen ct + zlen cb + 1) with (m_pc m2) in Hate by lia.
    destruct (cblock_ok slots body sc1 n _ _ _ Hsc1 ltac:(lia) H4) as [Hsg _].
    destruct (IH m2 sg ce) as (m3 & Hr3 & Hl3); auto.
    { intros x Hx. rewrite <- (Hk1 x Hx). by eapply cblock_keeps. }
    exists m3. split; [by eapply reaches_trans|].
    by replace (m_pc m1 + (zlen ct + (zlen cb + (1 + zlen ce)))) with (m_pc m2 + zlen ce) by lia.
Qed.

Lemma match_correct fuel e arms :
  (forall l, block_correct fuel l) -> stmt_correct (S fuel) (SMatch e arms).
Proof.
  intros IHb. start. destruct e as [|y| | | | | |]; try done. simpl in *. copt.
  destruct (sim_var _ _ _ _ Hsim y x ltac:(eassumption)) as (vi & Evi & Hvr & Hval). simplify_eq.
  destruct (run_block _ _ _ _ _) as [o|] eqn:Hb; simplify_eq/=.
  eapply (arms_correct fuel arms (outer ∪ locals) sc _ st m m sc); eauto using frame_refl; [lia| |].
  - intros w Hw. eapply arms_keep; [by apply Forall_true; intros; apply Forall_true, stmt_keeps|eauto..].
  - by eapply (proj1 (sim_src _ _ _ _ Hsim)).
Qed.

Lemma stmt_step fuel s :
  (forall k, (k < S fuel)%nat -> (forall s, stmt_correct k s) /\ (forall l, block_correct k l)) ->
  stmt_correct (S fuel) s.
Proof.
  intros IH. assert (IHb : forall k, (k < S fuel)%nat -> forall l, block_correct k l).
  { intros k Hk. by apply IH. }
  destruct s; eauto using let_correct, constrain_correct, storage_write_correct,
    mapping_write_correct, assign_correct, if_correct, while_correct, match_correct, for_correct,
    return_correct, emit_correct, expr_correct.
  apply while_correct; intros; apply IH; lia.
Qed.

(** The code of every statement and block of the subset simulates its run. *)
Lemma simulation fuel : (forall s, stmt_correct fuel s) /\ (forall l, block_correct fuel l).
Proof.
  induction (lt_wf fuel) as [fuel _ IH]. destruct fuel as [|fuel].
  { split; intros ? ? ? ? ? ? ? ? ? ? ?; discriminate. }
  split; intros; [by apply stmt_step|apply block_step; apply IH; lia].
Qed.

End simulation.
End BudlSimulation.
