(* ===== verification/BudlRefines.v ===== *)
(** * The compiled contract refines its source

    The last links of the compiler's correctness: the code of a contract is
    made of well-formed instructions; the header, the prologue and the epilogue
    around [main]; and the end-to-end theorem, which composes the equivalence of
    the two generators ([BudlEquiv]), the simulation of statements
    ([BudlSimulation]) and the simulation of instruction runs by the virtual
    machine ([BudlMachine]). *)

From Stdlib Require Import ZArith Lia.
From stdpp Require Import base tactics strings numbers gmap list.
From S2P Require Import Prelude Isa Goldilocks Vm VmFacts BudlAst BudlCodegen BudlSemantics BudlStructured.
From S2P Require Import BudlParser BudlPrint BudlParserTotal BudlEquiv BudlMachine BudlCorrect BudlSimulation.
Import Isa Goldilocks BudlAst BudlCodegen BudlSemantics BudlStructured BudlMachine BudlCorrect
  BudlSimulation.
Open Scope Z_scope.

Module BudlRefines.

(** ** Well-formed code *)

Abbreviation code_wf := (Forall instruction_wf).

Lemma ins_wf op d a b im :
  d ∈u 32 -> a ∈u 32 -> b ∈u 32 -> is_i32 im -> instruction_wf (ins op d a b im).
Proof. done. Qed.

(** Close the goals about code given instruction by instruction. *)
Ltac wf_code :=
  repeat match goal with
  | |- Forall _ [] => constructor
  | |- Forall _ (_ :: _) => constructor
  | |- Forall _ (_ ++ _) => apply Forall_app; split
  | |- instruction_wf (ins _ _ _ _ _) => apply ins_wf; unfold is_i32; lia
  end; auto.

Section wf.
Variable slots : StorageMap.
Hypothesis Hslots : slots_ok slots.

Lemma digits_wf reg shift temp b l :
  reg ∈u 32 -> shift ∈u 32 -> temp ∈u 32 -> Forall (fun c => c ∈u I32_HALF) l ->
  code_wf (digits_code reg shift temp b l).
Proof.
  intros ??? Hl. revert b. induction Hl as [|c l Hc _ IH]; intros b; [constructor|].
  rewrite digits_code_cons. apply Forall_app. split; [|done].
  unfold digit_code. repeat case_match; wf_code.
Qed.

Lemma cbinary_wf sc n op l r c res n' :
  (forall n c r n', cexpr slots l sc n = Some (c, r, n') -> 1 <= n <= 31 -> code_wf c) ->
  (forall n c r' n', cexpr slots r sc n = Some (c, r', n') -> 1 <= n <= 31 -> code_wf c) ->
  regs_ok sc -> 1 <= n <= 31 ->
  cbinary n op (cexpr slots l sc n) (cexpr slots r sc) = Some (c, res, n') -> code_wf c.
Proof.
  intros Hl Hr Hsc Hn H. unfold cbinary in H. copt.
  destruct (cexpr_reg slots l sc n _ _ _ Hsc ltac:(eassumption) Hn) as [? Hz].
  destruct (cexpr_reg slots r sc z _ _ _ Hsc ltac:(eassumption) ltac:(lia)) as [? ?].
  assert (1 <= res < 31) by (repeat case_match; copt; lia).
  assert (code_wf l1) by (eapply Hr; [eassumption|lia]). wf_code. eauto.
Qed.

Lemma cexpr_wf e sc n c r n' :
  regs_ok sc -> cexpr slots e sc n = Some (c, r, n') -> 1 <= n <= 31 -> core_expr e = true -> code_wf c.
Proof.
  intros Hsc. revert n c r n'.
  induction e using expr_nested_ind; intros n c r n' He Hn Hc; simpl in He, Hc; split_bool; try done.
  - unfold cint in He. repeat case_match; copt; wf_code.
    apply digits_wf; try lia. destruct (digits_horner v) as (_ & Hd & _); [lia|].
    eapply Forall_impl; [exact Hd|]. simpl. lia.
  - copt. wf_code.
  - copt. match goal with H : slots !! _ = Some _ |- _ => apply Hslots in H end. wf_code.
  - copt. match goal with H : slots !! _ = Some _ |- _ => apply Hslots in H end.
    destruct (cexpr_reg slots e sc n _ _ _ Hsc ltac:(eassumption) Hn). wf_code. eauto.
  - eapply (cbinary_wf sc n _ e1 e2); eauto.
  - destruct (decide _).
    + destruct args as [|a [|b args]]; try done. decompose_Forall. split_bool.
      eapply (cbinary_wf sc n _ a b); eauto.
    + unfold csyscall in He. repeat case_decide; copt; wf_code.
Qed.

(** The wf facts about the parts of the code at hand. *)
Ltac parts :=
  repeat match goal with
  | H : slots !! _ = Some _ |- _ => apply Hslots in H
  | He : cexpr slots ?e ?sc ?n = Some _, Hsc : regs_ok ?sc |- _ =>
      let H1 := fresh "Hreg" in let H2 := fresh "Hwf" in
      pose proof (cexpr_reg slots e sc n _ _ _ Hsc He ltac:(lia)) as H1;
      pose proof (cexpr_wf e sc n _ _ _ Hsc He ltac:(lia) ltac:(done)) as H2;
      clear He
  end.

Lemma cemit_wf args sc n c :
  regs_ok sc -> 1 <= n <= 31 -> forallb core_expr args = true -> cemit slots args sc n = Some c -> code_wf c.
Proof.
  intros Hsc. revert n c. induction args as [|a args IH]; intros n c Hn Hc H; simpl in *; [by simplify_eq|].
  split_bool. copt. parts. wf_code. eapply IH; [|done..]. lia.
Qed.

Lemma creturn_wf e sc n c :
  regs_ok sc -> 1 <= n <= 31 -> match e with Some e => core_expr e | None => true end = true ->
  creturn slots e sc n = Some c -> code_wf c.
Proof.
  intros Hsc Hn Hc H. unfold creturn in H. destruct e; copt; parts; wf_code.
Qed.

Definition stmt_wf (s : Stmt) : Prop := forall sc n c sc' n',
  regs_ok sc -> 1 <= n <= 31 -> core_stmt s = true -> cstmt slots s sc n = Some (c, sc', n') ->
  zlen c < I32_HALF -> code_wf c.

Lemma block_wf l sc n c sc' n' :
  Forall stmt_wf l -> regs_ok sc -> 1 <= n <= 31 -> forallb core_stmt l = true ->
  cblock slots l sc n = Some (c, sc', n') -> zlen c < I32_HALF -> code_wf c.
Proof.
  intros Hl. revert sc n c. induction Hl as [|s l Hs _ IH]; intros sc n c Hsc Hn Hc H Hlen.
  { simpl in H. by simplify_eq. }
  rewrite cblock_cons in H. simpl in Hc. split_bool. copt. rewrite zlen_app in Hlen.
  pose proof (zlen_nonneg l0). pose proof (zlen_nonneg l1).
  match goal with E : cstmt slots s sc n = _ |- _ => pose proof (cstmt_ok slots s _ _ _ _ _ Hsc Hn E) as [? ?] end.
  wf_code; [eapply (Hs sc n)|eapply (IH g z)]; eauto; lia.
Qed.

Lemma arms_wf arms r n sc c sc' :
  Forall (fun a => Forall stmt_wf a.2) arms -> regs_ok sc -> 1 <= n <= 31 -> 1 <= r < 31 ->
  forallb (fun a => forallb core_stmt a.2) arms = true ->
  carms (cstmt slots) r n arms sc = Some (c, sc') -> zlen c < I32_HALF -> code_wf c.
Proof.
  intros Ha. revert sc c. induction Ha as [|a arms Ha _ IH]; intros sc c Hsc Hn Hr Hc H Hlen.
  { simpl in H. by simplify_eq. }
  rewrite carms_cons in H. simpl in Hc. split_bool. copt. rewrite !zlen_app, zlen_cons in Hlen.
  pose proof (zlen_nonneg l). pose proof (zlen_nonneg l0). pose proof (zlen_nonneg x).
  match goal with E : cblock slots _ sc n = _ |- _ => pose proof (cblock_ok slots _ _ _ _ _ _ Hsc Hn E) as [? ?] end.
  assert (code_wf l) by (eapply (block_wf _ sc n); [exact Ha|..]; eauto; lia).
  assert (code_wf l0) by (eapply (IH g); eauto; lia).
  assert (code_wf x).
  { pose proof (i32_of_u64_range). unfold is_i32 in *. destruct m as [v|]; simpl in *; copt; [|constructor].
    change (zlen [_; _; _]) with 3 in *. repeat (constructor; [apply ins_wf; unfold is_i32; auto; lia|]). constructor. }
  wf_code.
Qed.

Lemma cstmt_wf s : stmt_wf s.
Proof.
  induction s using stmt_nested_ind; intros sc n cd sc' n' Hsc Hn Hc Hs Hlen; simpl in Hs, Hc;
    split_bool; copt; parts; try solve [wf_code];
    repeat (rewrite !zlen_app in Hlen || rewrite !zlen_cons in Hlen); change (zlen []) with 0 in Hlen.
  - match goal with H : sc' !! x = Some _ |- _ => apply Hsc in H end. wf_code.
  - rename l into cc, l0 into cf, l1 into ct.
    pose proof (zlen_nonneg cc). pose proof (zlen_nonneg cf). pose proof (zlen_nonneg ct).
    assert (Hf : code_wf cf /\ regs_ok g /\ n <= z1 <= 31).
    { destruct e as [f|]; simplify_eq/=; [|split_and!; done || lia].
      match goal with E : clist _ f sc n = _ |- _ =>
        destruct (cblock_ok slots _ _ _ _ _ _ Hsc Hn E); split; [|done];
        eapply (block_wf f sc n); [by apply H0|eauto..]; lia end. }
    destruct Hf as (? & ? & ?). wf_code. eapply (block_wf t g z1); eauto; lia.
  - rename l into cc, l0 into cb. pose proof (zlen_nonneg cc). pose proof (zlen_nonneg cb).
    assert (code_wf cb) by (eapply (block_wf b sc n); eauto; lia). wf_code.
  - rename l1 into cb. pose proof (zlen_nonneg l). pose proof (zlen_nonneg l0). pose proof (zlen_nonneg cb).
    set (sx := <[x := _]> sc') in *.
    assert (Hsx : regs_ok sx) by (apply map_Forall_insert_2; [simpl; lia|done]).
    match goal with E : clist _ b sx _ = _ |- _ =>
      destruct (cblock_ok slots b sx (z1 + 1) _ _ _ Hsx ltac:(lia) E);
      assert (code_wf cb) by (eapply (block_wf b sx (z1 + 1)); eauto; lia) end.
    wf_code.
  - eapply creturn_wf; eauto.
  - eapply cemit_wf; eauto.
  - pose proof (zlen_nonneg l). wf_code. eapply arms_wf; eauto; lia.
Qed.

Lemma cblock_wf l sc n c sc' n' :
  regs_ok sc -> 1 <= n <= 31 -> forallb core_stmt l = true ->
  cblock slots l sc n = Some (c, sc', n') -> zlen c < I32_HALF -> code_wf c.
Proof. apply block_wf, Forall_true, cstmt_wf. Qed.

Lemma cfunction_wf layouts f c :
  core_function f = true -> cfunction layouts slots f = Some c -> zlen c < I32_HALF -> code_wf c.
Proof.
  intros Hc H Hlen. unfold cfunction in H. copt. rename l into cb, x into Hk.
  repeat (rewrite !zlen_app in Hlen || rewrite !zlen_cons in Hlen).
  set (pops := _ <$> _) in *. pose proof (zlen_nonneg pops). pose proof (zlen_nonneg cb).
  pose proof (zlen_nonneg (f_params f)).
  set (sc := foldl _ _ _) in *.
  assert (Hsc : regs_ok sc) by (apply BudlEquiv.params_regs_ok; [apply map_Forall_empty|apply BudlEquiv.zip_seqZ_regs; lia]).
  match goal with E : cblock _ _ sc ?n = _ |- _ =>
    destruct (cblock_ok slots (f_body f) sc n _ _ _ Hsc ltac:(lia) E);
    assert (code_wf cb) by (eapply (cblock_wf (f_body f) sc n); eauto; change (zlen []) with 0 in *; lia) end.
  wf_code. apply Forall_fmap, Forall_rev, Forall_forall. intros r Hr%elem_of_seqZ.
  apply ins_wf; unfold is_i32; lia.
Qed.

Lemma cfunctions_wf layouts fs base es c es' :
  forallb core_function fs = true -> cfunctions layouts slots fs base es = Some (c, es') ->
  zlen c < I32_HALF -> code_wf c.
Proof.
  revert base es c. induction fs as [|f fs IH]; intros base es c Hc H Hlen; simpl in *; [by simplify_eq|].
  split_bool. copt. rewrite zlen_app in Hlen. pose proof (zlen_nonneg x). pose proof (zlen_nonneg l).
  wf_code; [eapply cfunction_wf; eauto; lia|eapply IH; eauto; lia].
Qed.
End wf.

Lemma storage_slots_ok fields : zlen fields < I32_HALF -> slots_ok (storage_slots fields).
Proof.
  intros Hl. unfold storage_slots.
  assert (Hi : Forall (fun p : nat * StorageField => Z.of_nat p.1 < I32_HALF) (imap (fun i f => (i, f)) fields)).
  { apply Forall_lookup. intros k p Hp. rewrite list_lookup_imap in Hp.
    destruct (fields !! k) eqn:E; simplify_eq/=. apply lookup_lt_Some in E. unfold zlen in Hl. lia. }
  assert (H0 : slots_ok ∅) by apply map_Forall_empty. revert H0. generalize (∅ : StorageMap).
  induction Hi as [|p ps Hp _ IH]; intros m Hm; [done|]. apply IH. apply map_Forall_insert_2; [|done].
  rewrite i32_small; lia.
Qed.

Lemma cprogram_wf c code :
  core_contract c = true -> zlen (c_storage c) < I32_HALF -> cprogram c = Some code ->
  zlen code < I32_HALF -> code_wf code.
Proof.
  intros Hc Hs H Hlen. unfold cprogram in H. copt. rewrite !zlen_cons in Hlen.
  pose proof (cfunctions_entries _ _ _ _ _ _ _ ltac:(eassumption) ltac:(lia) (map_Forall_empty _)) as Hes.
  match goal with E : _ !! "main" = Some _ |- _ => apply Hes in E end.
  pose proof (zlen_nonneg l). unfold HEAP_BASE. wf_code.
  eapply cfunctions_wf; [by apply storage_slots_ok|done|eassumption|lia].
Qed.

(** ** Where [main] is *)

Lemma entry_code layouts slots fs base es c es' name pc :
  cfunctions layouts slots fs base es = Some (c, es') -> es' !! name = Some pc ->
  (es !! name = Some pc /\ Forall (fun f => f_name f <> name) fs) \/
  exists f cf pre post, last (filter (fun f => f_name f = name) fs) = Some f /\
    cfunction layouts slots f = Some cf /\ c = pre ++ cf ++ post /\ pc = base + zlen pre.
Proof.
  revert base es c. induction fs as [|f fs IH]; intros base es c H Hpc; simpl in H; [by simplify_eq; left|].
  copt. rename x into cf, l into cs.
  destruct (IH _ _ _ ltac:(eassumption) Hpc) as [[E Hno]|(f' & cf' & pre & post & Hl & Hcf & -> & ->)].
  - destruct (decide (f_name f = name)) as [<-|Hne].
    + rewrite lookup_insert_eq in E. injection E as <-. right. exists f, cf, [], cs.
      rewrite filter_cons_True by done.
      assert (filter (fun f' => f_name f' = f_name f) fs = []) as ->.
      { clear - Hno. induction Hno as [|x l Hx _ IH]; [done|]. by rewrite filter_cons_False. }
      split_and!; [done|done|done|]. change (zlen []) with 0. lia.
    + rewrite lookup_insert_ne in E by done. left. auto.
  - right. exists f', cf', (cf ++ pre), post. rewrite zlen_app, <- app_assoc.
    split_and!; [|done|done|lia].
    rewrite filter_cons. destruct (decide _); [|done]. by rewrite last_cons, Hl.
Qed.

(** ** Running [main] *)

(** The function the contract's entry point calls: the last one named [main]. *)
Definition main_function (c : Contract) : option Function :=
  last (filter (fun f => f_name f = "main") (c_functions c)).

Definition boot (st : gmap Z Z) : MState := mkM (replicate 32 0) 0 [] st [] [].

(** Where the run of [main] leaves the machine: at the [Halt] with the returned
    value on the stack (zero when the body ends without [return]), or at the
    violated assertion. *)
Definition ended (code : list Instruction) (out : Outcome) (m : MState) : Prop :=
  match out with
  | ONext st => m_pc m = 2 /\ m_stack m = [0] /\
      m_store m = store st /\ m_writes m = writes st /\ m_logs m = logs st
  | OReturn v st => m_pc m = 2 /\ m_stack m = [v] /\
      m_store m = store st /\ m_writes m = writes st /\ m_logs m = logs st
  | OViolated st => at_violation code m /\
      m_store m = store st /\ m_writes m = writes st /\ m_logs m = logs st
  end.

Section main.
Variables (c : Contract) (code : list Instruction) (f : Function) (ctx : Vm.Context).
Hypothesis Hcode : cprogram c = Some code.
Hypothesis Hcore : core_contract c = true.
Hypothesis Hsize : zlen code < I32_HALF.
Hypothesis Hfields : zlen (c_storage c) < I32_HALF.
Hypothesis Hmain : main_function c = Some f.
Hypothesis Hparams : f_params f = [].
Hypothesis Hsound : sound_block ∅ ∅ (f_body f) = true.
Hypothesis Hctx : ctx_ok ctx.

Abbreviation slots := (storage_slots (c_storage c)).

(** The code of [main], in place. *)
Lemma main_code :
  exists pc cb sc n, 3 <= pc /\ n < 30 /\
    cblock slots (f_body f) ∅ 2 = Some (cb, sc, n) /\
    code_at code 0 [ins OpLoad 31 0 0 HEAP_BASE; ins OpCall 0 0 0 (pc - 1); ins OpHalt 0 0 0 0] /\
    code_at code pc ([ins OpPop 1 0 0 0; ins OpPush 0 1 0 0] ++ cb ++
      [ins OpPop n 0 0 0; ins OpLoad (n + 1) 0 0 0; ins OpPush 0 (n + 1) 0 0;
       ins OpPush 0 n 0 0; ins OpRet 0 0 0 0]).
Proof.
  unfold cprogram in Hcode. copt. rename x into pc, l into cs.
  destruct (entry_code _ _ _ _ _ _ _ _ _ H H0) as [[E _]|(f' & cf & pre & post & Hl & Hcf & -> & ->)]; [done|].
  unfold main_function in Hmain. rewrite Hmain in Hl. injection Hl as <-.
  unfold cfunction in Hcf. rewrite Hparams in Hcf. change (zlen []) with 0 in Hcf. simpl in Hcf. copt.
  exists (3 + zlen pre), l, g0, z. pose proof (zlen_nonneg pre). split_and!; [lia|lia|done| |].
  - eexists [], _. split; [reflexivity|done].
  - exists (ins OpLoad 31 0 0 HEAP_BASE :: ins OpCall 0 0 0 (3 + zlen pre - 1) :: ins OpHalt 0 0 0 0 :: pre), post.
    split; [simpl; by rewrite <- !app_assoc|]. rewrite !zlen_cons. lia.
Qed.

Definition entered (pc : Z) (st : gmap Z Z) : MState :=
  mkM (<[1%nat := 2]> (<[31%nat := HEAP_BASE]> (replicate 32 0))) (pc + 2) [2] st [] [].

Lemma prologue_runs pc cs st :
  code_at code 0 [ins OpLoad 31 0 0 HEAP_BASE; ins OpCall 0 0 0 (pc - 1); ins OpHalt 0 0 0 0] ->
  code_at code pc (ins OpPop 1 0 0 0 :: ins OpPush 0 1 0 0 :: cs) ->
  reaches ctx code (boot st) (entered pc st).
Proof.
  intros Hhead Hat. pose proof (code_at_bound _ Hsize _ _ Hat) as [Hpc Hb]. rewrite !zlen_cons in Hb.
  pose proof (zlen_nonneg cs).
  apply code_at_cons in Hhead as [F1 Hhead]. apply code_at_cons in Hhead as [F2 _].
  apply code_at_cons in Hat as [F3 Hat]. apply code_at_cons in Hat as [F4 _].
  set (regs := <[31%nat := HEAP_BASE]> (replicate 32 0)).
  apply (reaches_trans _ _ _ (mkM regs 1 [] st [] [])); [by eapply reaches_one|].
  apply (reaches_trans _ _ _ (mkM regs pc [2] st [] [])).
  { eapply reaches_one; [exact F2|]. unfold mexec; simpl. rewrite jump_small by lia.
    unfold goto, set_mstack; simpl. do 2 f_equal. lia. }
  apply (reaches_trans _ _ _ (mkM (<[1%nat := 2]> regs) (pc + 1) [] st [] [])); [by eapply reaches_one|].
  eapply reaches_one; [exact F4|]. unfold mexec, next, goto, set_mstack, entered; simpl.
  do 2 f_equal. lia.
Qed.

Lemma epilogue_runs m n :
  code_at code (m_pc m) [ins OpPop n 0 0 0; ins OpLoad (n + 1) 0 0 0; ins OpPush 0 (n + 1) 0 0;
                         ins OpPush 0 n 0 0; ins OpRet 0 0 0 0] ->
  1 <= n < 30 -> length (m_regs m) = 32%nat -> m_stack m = [2] ->
  exists m', reaches ctx code m m' /\ m_pc m' = 2 /\ m_stack m' = [0] /\
    m_store m' = m_store m /\ m_writes m' = m_writes m /\ m_logs m' = m_logs m.
Proof.
  intros Hat Hn Hlen Hst.
  destruct (run_pop ctx code m n 2 [] _ Hat Hst ltac:(lia) Hlen) as (Hr1 & Hat1 & Hra & _ & Hl1).
  set (m1 := next _) in *.
  destruct (run_assign ctx code m1 _ _ 0 (n + 1) Hat1)
    as (m2 & Hr2 & _ & Hf2 & Hv2 & Hat2 & _); [done|simpl; lia|simpl; lia|done|].
  exists (goto 2 (set_mstack [0] m2)). split.
  - eapply reaches_trans; [exact Hr1|]. eapply reaches_trans; [exact Hr2|].
    apply (return_tail ctx code 2 [] ltac:(done) m2 (n + 1) n); [done| |done|].
    + by rewrite (fr_stack _ _ _ Hf2).
    + by rewrite (fr_regs _ _ _ Hf2) by lia.
  - split_and!; [done|done|..]; simpl; by destruct Hf2.
Qed.

Lemma main_core : forallb core_stmt (f_body f) = true.
Proof.
  unfold main_function in Hmain. apply last_Some_elem_of, list_elem_of_filter in Hmain as [_ Hin].
  unfold core_contract in Hcore. rewrite forallb_forall in Hcore.
  by apply Hcore, list_elem_of_In.
Qed.

Lemma main_runs fuel st0 out :
  map_Forall (fun _ => canonical) st0 ->
  run_block slots ctx fuel (f_body f) (mkSrc ∅ st0 [] []) = Some out ->
  exists m', reaches ctx code (boot st0) m' /\ ended code out m'.
Proof.
  intros Hcan Hrun. destruct main_code as (pc & cb & sc & n & Hpc & Hn & Hcb & Hhead & Hat).
  pose proof (prologue_runs pc _ st0 Hhead Hat) as Hr0.
  apply code_at_cons in Hat as [_ Hat]. apply code_at_cons in Hat as [_ Hat].
  replace (pc + 1 + 1) with (m_pc (entered pc st0)) in Hat by (simpl; lia).
  apply code_at_app in Hat as [Hatb Hate].
  assert (Hnil : regs_ok ∅) by apply map_Forall_empty.
  destruct (cblock_ok slots (f_body f) ∅ 2 _ _ _ Hnil ltac:(lia) Hcb) as [_ Hn2].
  assert (Hsim : sim ∅ 2 (mkSrc ∅ st0 [] []) (entered pc st0)).
  { by split. }
  destruct (proj2 (simulation slots ctx code Hctx (storage_slots_ok _ Hfields) Hsize 2 [] ltac:(done) fuel)
              (f_body f) ∅ ∅ ∅ 2 cb sc n (mkSrc ∅ st0 [] []) out (entered pc st0) main_core Hsound Hcb Hnil
              ltac:(lia) ltac:(set_solver) Hsim eq_refl Hatb Hrun) as (m1 & Hr1 & Hl1).
  destruct out as [st|v st|st].
  - destruct Hl1 as (Hp1 & Hs1 & Hst1 & _). rewrite <- Hp1 in Hate.
    destruct (epilogue_runs m1 n Hate ltac:(lia) ltac:(apply Hs1) ltac:(done))
      as (m2 & Hr2 & Hp2 & Hst2 & E1 & E2 & E3).
    exists m2. split; [eauto using reaches_trans|]. destruct Hs1. split_and!; congruence.
  - destruct Hl1 as (? & ? & _ & _ & ? & ? & ?). exists m1. split; [eauto using reaches_trans|done].
  - destruct Hl1 as (? & _ & _ & ? & ? & ?). exists m1. split; [eauto using reaches_trans|done].
Qed.
End main.

(** ** The end-to-end theorem *)

(** A machine that has not run yet. *)
Record fresh (s : Vm.Vm) : Prop := {
  fresh_regs : Vm.registers s = replicate 32 0;
  fresh_pc : Vm.pc s = 0;
  fresh_stack : Vm.stack s = [];
  fresh_events : Vm.events s = [];
  fresh_writes : Vm.state_writes s = [];
  fresh_running : Vm.halted s = false;
  fresh_gas : Vm.gas_used s = 0;
}.

Lemma fresh_boot s ctx : fresh s -> Vm.context s = ctx -> vm_matches ctx s (boot (Vm.storage s)).
Proof. intros [] Hc. by split. Qed.

(** What the receipt and the final machine show of an outcome. *)
Definition shows (out : Outcome) (r : Vm.ExecutionReceipt) (s : Vm.Vm) : Prop :=
  match out with
  | ONext st => Vm.r_error r = None /\ Vm.stack s = [0] /\ Vm.storage s = store st /\
      Vm.state_writes s = writes st /\ Vm.r_events r = logs st
  | OReturn v st => Vm.r_error r = None /\ Vm.stack s = [v] /\ Vm.storage s = store st /\
      Vm.state_writes s = writes st /\ Vm.r_events r = logs st
  | OViolated st => Vm.r_error r = Some Vm.AssertionFailed /\ Vm.storage s = store st /\
      Vm.r_events r = logs st
  end.

(** What the run of the code costs: the final [Halt] is free, the violated
    assertion is charged. *)
Definition end_cost (out : Outcome) : Z :=
  match out with OViolated _ => Vm.gas_cost OpAssert | _ => 0 end.

Lemma receipt_of fuel prog s err s' :
  Vm.run_loop fuel prog s = Vm.RunDone err s' ->
  exists r, Vm.run_receipt fuel prog s = Some (r, Vm.close_trace err s') /\ Vm.r_error r = err /\
    Vm.r_events r = Vm.events s' /\ Vm.storage (Vm.close_trace err s') = Vm.storage s' /\
    Vm.stack (Vm.close_trace err s') = Vm.stack s' /\
    Vm.state_writes (Vm.close_trace err s') = Vm.state_writes s'.
Proof.
  intros E. unfold Vm.run_receipt. rewrite E. eexists. split; [reflexivity|].
  unfold Vm.close_trace. repeat case_match; done.
Qed.

Lemma ended_shows ctx code out m s fuel :
  ended code out m -> vm_matches ctx s m -> Forall instruction_wf code ->
  fetch code 2 = Some (ins OpHalt 0 0 0 0) ->
  Vm.gas_used s + end_cost out <= Vm.gas_limit s < U64 ->
  exists r s', Vm.run_receipt (S fuel) (encode <$> code) s = Some (r, s') /\ shows out r s'.
Proof.
  intros He Hm Hwf Hhalt Hgas.
  assert (Hdone : m_pc m = 2 -> Vm.gas_used s <= Vm.gas_limit s < U64 -> exists r s',
    Vm.run_receipt (S fuel) (encode <$> code) s = Some (r, s') /\ Vm.r_error r = None /\
    Vm.stack s' = m_stack m /\ Vm.storage s' = m_store m /\ Vm.state_writes s' = m_writes m /\
    Vm.r_events r = m_logs m).
  { intros Hp Hg. rewrite <- Hp in Hhalt.
    destruct (halt_step ctx code s m _ fuel Hm Hhalt eq_refl) as (s' & E & ? & ? & ? & ? & ?); [by wf_code|done|].
    apply receipt_of in E as (r & E & ? & ? & ? & ? & ?). do 2 eexists. split; [exact E|].
    split_and!; congruence. }
  destruct out; simpl in He, Hgas; destruct_and!.
  - destruct Hdone as (r & s' & E & ? & ? & ? & ? & ?); [done|lia|]. exists r, s'. split; [done|].
    simpl. split_and!; congruence.
  - destruct Hdone as (r & s' & E & ? & ? & ? & ? & ?); [done|lia|]. exists r, s'. split; [done|].
    simpl. split_and!; congruence.
  - destruct (violation_step ctx code s m fuel Hm) as (s' & E & ? & ?); [done|done|done|].
    apply receipt_of in E as (r & E & ? & ? & ? & ? & ?). do 2 eexists. split; [exact E|].
    split_and!; [done|by etransitivity; [|etransitivity]|by etransitivity; [|etransitivity]].
Qed.

Lemma generated_code lv c p prog :
  core_contract c = true -> generate lv c (new_with_profile p) = Some (Ok prog) ->
  zlen prog < I32_HALF -> exists code, cprogram c = Some code /\ prog = encode <$> code.
Proof.
  intros Hc Hgen Hlen. unfold generate in Hgen.
  destruct (generate_program lv c _) as [[u g]|] eqn:E; [|done].
  destruct (g_error g) eqn:Eg; simplify_eq.
  by eapply (BudlEquiv.program_agrees lv c p u g).
Qed.

Lemma header_halts c code : cprogram c = Some code -> fetch code 2 = Some (ins OpHalt 0 0 0 0).
Proof. intros H. unfold cprogram in H. by copt. Qed.

(** A run of the code to its end, at every gas limit. *)
Lemma run_shows ctx code s m c m' out :
  vm_matches ctx s m -> msteps ctx code m c m' -> ended code out m' ->
  Forall instruction_wf code -> zlen code < I32_HALF ->
  fetch code 2 = Some (ins OpHalt 0 0 0 0) -> Vm.gas_used s = 0 -> 0 <= Vm.gas_limit s < U64 - 1 ->
  exists n, forall k, exists r s', Vm.run_receipt (n + k) (encode <$> code) s = Some (r, s') /\
    if Vm.gas_limit s <? c + end_cost out then Vm.r_error r = Some Vm.OutOfGas else shows out r s'.
Proof.
  intros Hm Hsteps Hend Hwf Hlen Hhalt Hg Hlim. pose proof (msteps_cost _ _ _ _ _ Hsteps).
  destruct (Z.ltb_spec (Vm.gas_limit s) (c + end_cost out)) as [Hlt|Hge].
  - destruct (decide (Vm.gas_limit s < c)) as [Hlt'|Hge].
    + destruct (vm_exhausts ctx code s m c m' Hsteps Hm Hwf ltac:(lia) ltac:(lia) ltac:(lia)) as (n & s' & Hn).
      exists n. intros k. destruct (receipt_of _ _ _ _ _ (Hn k)) as (r & E & Er & _). eauto.
    + destruct out as [| |st]; simpl in Hlt; [lia..|]. destruct Hend as ((i & Hf & Hop & Hz) & _).
      destruct (vm_simulates ctx code s m c m' Hsteps Hm Hwf ltac:(lia) ltac:(lia))
        as (n & s1 & Hn & Hm1 & Hg1 & Hl1).
      destruct (exhausted_step ctx code s1 m' i Hm1 Hf) as (s2 & E);
        [|by rewrite Hop|rewrite Hop; simpl; lia|lia|].
      { apply fetch_lookup in Hf as [_ Hf]. by eapply Forall_lookup_1. }
      exists (n + 1)%nat. intros k.
      destruct (receipt_of (n + 1 + k) (encode <$> code) s (Some Vm.OutOfGas) s2) as (r & Er & ? & _);
        [by rewrite <- Nat.add_assoc, Hn|eauto].
  - destruct (vm_simulates ctx code s m c m' Hsteps Hm Hwf ltac:(lia) ltac:(destruct out; simpl in *; lia))
      as (n & s1 & Hn & Hm1 & Hg1 & Hl1).
    exists (n + 1)%nat. intros k. rewrite <- Nat.add_assoc.
    destruct (ended_shows ctx code out m' s1 k Hend Hm1 Hwf Hhalt ltac:(lia)) as (r & s2 & Er & Hsh).
    exists r, s2. split; [|done]. unfold Vm.run_receipt in *. by rewrite Hn.
Qed.

(** C1: A source that the compiler accepts - parser, analyser and code generator
    - and that the parser reads as a contract of the core subset, run by the
    virtual machine from a fresh machine: for some cost, any gas limit from
    that cost on ends the run with exactly the storage, the write log, the
    events and the returned value that the source semantics gives [main]'s
    body, a violated [constrain] ends it with [AssertionFailed], and any smaller
    limit ends it with [OutOfGas]. *)
Theorem compiled_contract_refines (lv : gmap string (list string) -> list (list string))
    (ts : list BudlParser.Token) (c : Contract) (p : IsaProfile) (prog : list Z) (f : Function) (fuel : nat)
    (out : Outcome) (ctx : Vm.Context) (st0 : gmap Z Z)
    (Hparse : BudlParser.parse ts = Ok c) (Hcompile : BudlParser.compile lv ts p = Some (Ok prog))
    (Hcore : core_contract c = true) (Hfields : zlen (c_storage c) < I32_HALF) (Hsize : zlen prog < I32_HALF)
    (Hmain : main_function c = Some f) (Hparams : f_params f = [])
    (Hsound : sound_block ∅ ∅ (f_body f) = true)
    (Hctx : ctx_ok ctx) (Hstore : map_Forall (fun _ => canonical) st0)
    (Hrun : run_block (storage_slots (c_storage c)) ctx fuel (f_body f) (mkSrc ∅ st0 [] [])
            = Some out) :
  exists cost, 0 <= cost /\
    forall s, fresh s -> Vm.context s = ctx -> Vm.storage s = st0 -> 0 <= Vm.gas_limit s < U64 - 1 ->
    exists n, forall k, exists r s', Vm.run_receipt (n + k) prog s = Some (r, s') /\
      if Vm.gas_limit s <? cost then Vm.r_error r = Some Vm.OutOfGas else shows out r s'.
Proof.
  destruct (BudlParserTotal.compile_generates lv ts p c prog Hparse Hcompile) as [_ Hgen].
  destruct (generated_code lv c p prog Hcore Hgen Hsize) as (code & Hcode & ->).
  assert (Hlen : zlen code < I32_HALF) by (unfold zlen in *; by rewrite length_fmap in Hsize).
  pose proof (cprogram_wf c code Hcore Hfields Hcode Hlen) as Hwf.
  destruct (main_runs c code f ctx Hcode Hcore Hlen Hfields Hmain Hparams Hsound Hctx fuel st0 out Hstore Hrun)
    as (m' & [cost Hsteps] & Hend).
  exists (cost + end_cost out). pose proof (msteps_cost _ _ _ _ _ Hsteps).
  split; [destruct out; simpl; lia|]. intros s Hs Hc Hst Hlim. subst st0.
  by eapply run_shows; [apply (fresh_boot s ctx)|..]; eauto using header_halts, fresh_gas.
Qed.

(** C2: On contracts of the core subset the imperative generator (shared
    instruction vector, jumps emitted with offset zero and patched afterwards,
    register counter saved and reset) produces exactly the words of the
    compositional compiler [cprogram], and every word decodes back to the
    instruction it stands for. *)
Theorem generator_structured (lv : gmap string (list string) -> list (list string))
    (c : Contract) (p : IsaProfile) (prog : list Z)
    (Hcore : core_contract c = true) (Hfields : zlen (c_storage c) < I32_HALF)
    (Hgen : generate lv c (new_with_profile p) = Some (Ok prog)) (Hsize : zlen prog < I32_HALF) :
  exists code, cprogram c = Some code /\ prog = encode <$> code /\ decode_any <$> prog = Ok <$> code.
Proof.
  destruct (generated_code lv c p prog Hcore Hgen Hsize) as (code & Hcode & ->).
  exists code. split_and!; [done|done|].
  assert (Hlen : zlen code < I32_HALF) by (unfold zlen in *; by rewrite length_fmap in Hsize).
  pose proof (cprogram_wf c code Hcore Hfields Hcode Hlen) as Hwf. clear - Hwf.
  induction Hwf as [|i code Hi _ IH]; [done|]. cbn. by rewrite decode_encode, IH.
Qed.

(** ** A contract to evaluate *)

Lemma some_default {A} (o : option A) d : (if o then true else false) = true -> o = Some (default d o).
Proof. by destruct o. Qed.

Module Demo.
Definition body : list Stmt := [
  SLet "x" (EInt 5000000000000); SLet "s" (EInt 0);
  SFor "i" (EInt 0) (EBinary (EInt 3) Add (EInt 1))
    [SAssign "s" (EBinary (EIdent "s") Add (EIdent "i"))];
  SMatch (EIdent "s") [(IntLit 5, [SEmit "Low" [EInt 1]]);
                       (IntLit 6, [SLet "q" (EInt 1); SEmit "Hit" [EInt 2]]);
                       (Wildcard, [SEmit "Other" [EInt 3]])];
  SIf (EBinary (EIdent "s") Eq (EInt 6)) [SEmit "Six" [EIdent "x"]] (Some [SReturn (Some (EInt 0))]);
  SWhile (EBinary (EIdent "s") Gt (EInt 0))
    [SAssign "s" (EBinary (EIdent "s") Sub (EInt 1)); SMappingWrite "m" (EIdent "s") (EIdent "s")];
  SConstrain (EBinary (EMappingRead "m" (EInt 5)) Eq (EInt 5));
  SStorageWrite "total" (EIdent "x");
  SReturn (Some (EIdent "x"))].
Definition main : Function := mkFunction "main" [] (Some "u64") body true.
Definition contract : Contract :=
  mkContract "Demo" [mkField "m" "Mapping"; mkField "total" "Field"] [] [main].
Definition no_layouts : gmap string (list string) -> list (list string) := fun _ => [].
Definition program : list Z :=
  match generate no_layouts contract gen_new with Some (Ok p) => p | _ => [] end.
Definition context : Vm.Context := Vm.context (Vm.new 8192).
Definition run : option Outcome :=
  run_block (storage_slots (c_storage contract)) context 100 (f_body main) (mkSrc ∅ ∅ [] []).
Definition outcome : Outcome := default (OReturn 0 (mkSrc ∅ ∅ [] [])) run.

Lemma generated : generate no_layouts contract gen_new = Some (Ok program).
Proof. vm_compute. reflexivity. Qed.
Definition source : list BudlParser.Token := BudlPrint.print_contract contract.
Lemma parsed : BudlParser.parse source = Ok contract.
Proof. vm_compute. reflexivity. Qed.
Lemma compiled : BudlParser.compile no_layouts source Production = Some (Ok program).
Proof. vm_compute. reflexivity. Qed.
Lemma runs :
  run_block (storage_slots (c_storage contract)) context 100 (f_body main) (mkSrc ∅ ∅ [] [])
  = Some outcome.
Proof.
  unfold outcome, run. apply some_default. vm_compute. reflexivity.
Qed.
Lemma is_core : core_contract contract = true.
Proof. vm_compute. reflexivity. Qed.
Lemma is_sound : sound_block ∅ ∅ (f_body main) = true.
Proof. vm_compute. reflexivity. Qed.
Lemma few_fields : zlen (c_storage contract) < I32_HALF.
Proof. vm_compute. reflexivity. Qed.
Lemma short : zlen program < I32_HALF.
Proof. vm_compute. reflexivity. Qed.
Lemma has_main : main_function contract = Some main.
Proof. vm_compute. reflexivity. Qed.
Lemma context_ok : ctx_ok context.
Proof. by vm_compute. Qed.
Example returns : match outcome with OReturn v st => (v, logs st) | _ => (0, []) end
                  = (5000000000000, [2; 5000000000000]).
Proof. vm_compute. reflexivity. Qed.
End Demo.

Lemma compiled_contract_refines_witness :
  exists cost, 0 <= cost /\
    forall s, fresh s -> Vm.context s = Demo.context -> Vm.storage s = ∅ ->
    0 <= Vm.gas_limit s < U64 - 1 ->
    exists n, forall k, exists r s', Vm.run_receipt (n + k) Demo.program s = Some (r, s') /\
      if Vm.gas_limit s <? cost then Vm.r_error r = Some Vm.OutOfGas else shows Demo.outcome r s'.
Proof.
  exact (compiled_contract_refines Demo.no_layouts Demo.source Demo.contract Production Demo.program Demo.main 100
    Demo.outcome Demo.context ∅ Demo.parsed Demo.compiled Demo.is_core Demo.few_fields Demo.short Demo.has_main
    eq_refl Demo.is_sound Demo.context_ok (map_Forall_empty _) Demo.runs).
Defined.

Lemma generator_structured_witness :
  exists code, cprogram Demo.contract = Some code /\ Demo.program = encode <$> code /\
    decode_any <$> Demo.program = Ok <$> code.
Proof.
  exact (generator_structured Demo.no_layouts Demo.contract Production Demo.program
    Demo.is_core Demo.few_fields Demo.generated Demo.short).
Defined.

(** ** Where the generated code and the source part ways

    Forms outside [sound_stmt]: the machine's events beside those of the
    source semantics. *)

Definition machine_events (b : list Stmt) : option (list Z) :=
  match generate Demo.no_layouts (mkContract "T" [] [] [mkFunction "main" [] None b true]) gen_new with
  | Some (Ok p) => Vm.r_events ∘ fst <$> Vm.run_receipt 500 p (Vm.new 8192)
  | _ => None
  end.
Definition source_events (b : list Stmt) : option (list Z) :=
  match run_block ∅ Demo.context 100 b (mkSrc ∅ ∅ [] []) with
  | Some (ONext st | OReturn _ st | OViolated st) => Some (logs st)
  | None => None
  end.

(** [match 2 + 3 { 7 => emit E(1), _ => emit E(2) }]: the pattern's register is
    the one that holds the scrutinee. *)
Example match_on_expression :
  let b := [SMatch (EBinary (EInt 2) Add (EInt 3))
              [(IntLit 7, [SEmit "E" [EInt 1]]); (Wildcard, [SEmit "E" [EInt 2]])]] in
  machine_events b = Some [1] /\ source_events b = Some [2].
Proof. split; vm_compute; reflexivity. Qed.

(** [let x = 1; let y = x; y = 5; emit E(x)]: both names live in one register. *)
Example let_of_variable_aliases :
  let b := [SLet "x" (EInt 1); SLet "y" (EIdent "x"); SAssign "y" (EInt 5); SEmit "E" [EIdent "x"]] in
  machine_events b = Some [5] /\ source_events b = Some [1].
Proof. split; vm_compute; reflexivity. Qed.

(** [let x = 1; if (0) { let x = 2; } emit E(x)]: the scope of the untaken
    branch stays, and its register was never written. *)
Example block_scope_leaks :
  let b := [SLet "x" (EInt 1); SIf (EInt 0) [SLet "x" (EInt 2)] None; SEmit "E" [EIdent "x"]] in
  machine_events b = Some [0] /\ source_events b = Some [1].
Proof. split; vm_compute; reflexivity. Qed.

End BudlRefines.
